(* ===== verification/_CoqProject ===== *)
-Q . S2P
Prelude.v
Intset.v
Dict.v
DictProof.v
DictMap.v
DictScan.v
DictIter.v
DictSample.v
Adlist.v
AdlistProof.v
Glob.v
Numstr.v
Listpack.v
ListpackCodec.v
ListpackProof.v
ListpackRange.v
ListpackValidate.v
ListpackSpec.v
SdsCmp.v
Zskiplist.v
ZskiplistProof.v
ZskiplistDelete.v
ZskiplistSpec.v
ZskiplistRange.v
ZskiplistRefine.v
Strobj.v
SdsArgs.v
Resp.v
RespProof.v
RespStream.v
Lzf.v
LzfDecode.v
LzfProof.v
Crc64.v
Crc64Proof.v
Rio.v
Rdb.v
RdbProof.v
Dump.v
RaxNode.v
RaxNodeProof.v
Rax.v
RaxTree.v
RaxHeap.v
RaxInsert.v
RaxSpec.v
RaxRemove.v
RaxFree.v
RaxRefine.v
RaxIter.v
RaxIterProof.v
RaxIterSpec.v
Bitops.v
BitopsProof.v
BitopsField.v
BitopsSpec.v
BitopsRange.v
BitopsOp.v
BitopsRefine.v
BitopsCommands.v
TSet.v
TSetProof.v
TSetSpec.v
WarDb.v
War.v
WarGame.v
WarProps.v
WarLobby.v
