(* ===== verification/Prelude.v ===== *)
(** * Verification of the War card game and of the Redis 7.2.4 beside it

    ** The program

    The repository holds a web application, the card game War, in
    [src/warcardgame] (Java and JavaScript), a first sketch of it in
    [src/WardCardGame2], and a copy of the sources of Redis 7.2.4 in
    [src/redis-7.2.4] (C).  The game and Redis share no code; what follows
    treats them as two programs.

    The game: two browsers send requests to the controllers, which call the
    services ([GameService], [PlayerService], [CardsService]); the services
    keep players, games and the deck in a database through three repositories,
    keep the turn, the played and the captured cards in the fields of the one
    [CardsService], and send messages to the browsers.

    Redis: client requests are read by the parser of [networking.c] into
    argument vectors of string objects ([object.c], [sds.c], [util.c]); the
    values of the key space are built from the hash table [dict.c], the skip
    list of [t_zset.c], the radix tree [rax.c], the packed encodings [intset.c]
    and [listpack.c] and the linked list [adlist.c], as a set of [t_set.c] is,
    which moves between three of these encodings as it grows; the commands of
    [bitops.c] read and write strings as arrays of bits; values are persisted and exchanged through the
    streams of [rio.c] in the format of [rdb.c], compressed by [lzf_c.c] and
    protected by [crc64.c].

    ** Files, and the code they model

    - [Prelude]: machine integers, bytes, arrays, and the tactics, hints and
      lemmas that the other files share.
    - [Intset] ([intset.c]): sorted sets of integers in one block.
    - [Dict], [DictProof], [DictMap], [DictScan], [DictIter], [DictSample]
      ([dict.c], [dict.h]): the hash table with incremental rehashing; its
      invariant; its refinement to a finite map; the cursor of SCAN; the
      iterators; random sampling.
    - [Adlist], [AdlistProof] ([adlist.c]): the doubly linked list on a store of
      nodes.
    - [Glob], [Numstr] ([util.c]): the pattern matcher; numbers as strings.
    - [Listpack], [ListpackCodec], [ListpackProof], [ListpackRange],
      [ListpackValidate], [ListpackSpec] ([listpack.c]): lists of strings and
      integers in one block of bytes, and the integrity check of untrusted ones.
    - [SdsCmp], [SdsArgs] ([sds.c]): comparison; quoting and splitting.
    - [Zskiplist], [ZskiplistProof], [ZskiplistDelete], [ZskiplistSpec],
      [ZskiplistRange], [ZskiplistRefine] ([t_zset.c]): the skip list of sorted
      sets on a store of nodes.
    - [Strobj] ([object.c]): string objects and their encodings.
    - [Resp], [RespProof], [RespStream] ([networking.c]): the request parser.
    - [Lzf], [LzfDecode], [LzfProof] ([lzf_c.c], [lzf_d.c]): compression.
    - [Crc64], [Crc64Proof] ([crc64.c], [crcspeed.c]): the checksum.
    - [Rio] ([rio.h], [rio.c]): streams over a backend, as the class
      [RioBackend] with its laws [RioStream].
    - [Rdb], [RdbProof], [Dump] ([rdb.c], [cluster.c]): strings and objects in
      the RDB format; the payloads of DUMP and RESTORE.
    - [RaxNode], [RaxNodeProof], [Rax], [RaxTree], [RaxHeap], [RaxInsert],
      [RaxSpec], [RaxRemove], [RaxFree], [RaxRefine] ([rax.c], [rax.h]): the
      radix tree, its nodes as the bytes of their blocks; trees without
      addresses and what it means that a heap holds one; insertion, removal,
      release; the refinement to a finite map.  The allocator is the class
      [RaxAlloc] with its law [RaxAllocOk].
    - [RaxIter], [RaxIterProof], [RaxIterSpec] ([rax.c]): the iterator of the
      radix tree, its key buffer and its stack; the refinement to a cursor.
    - [Bitops], [BitopsProof], [BitopsField], [BitopsSpec], [BitopsRange],
      [BitopsOp], [BitopsRefine], [BitopsCommands] ([bitops.c], and of [object.c],
      [sds.c] and [db.c] what it uses): the bitmap commands on a key space, from
      their arguments to their replies; the functions on strings of bits; the
      specification on lists of booleans, and that the commands implement it.
    - [TSet], [TSetProof], [TSetSpec] ([t_set.c], and of [server.c] and
      [object.c] what it uses): set objects over [Intset], [Listpack] and
      [Dict]; their invariant; their refinement to a finite set of strings.
      The configuration and the environment are the class [SetEnv].
    - [WarDb] ([Models], [Repositories] and the migrations): entities, and the
      repositories as the class [Repositories] with its laws [RepositoryLaws].
    - [War] ([Services], [Controllers], [DTO]): every method of the services
      and of the game controller, as a computation with state and exceptions.
    - [WarGame], [WarProps], [WarLobby]: the rules of the game and that the
      services play it; what the rules guarantee; creating, joining, dealing
      and leaving.

    ** How the code is represented

    A C integer is a [Z] with its conversions written out ([wrap], [swrap]); a
    block of memory is the list of its bytes, or of its cells, and a pointer an
    offset or an address in a store.  Functions that may fail an assertion or
    leave a block return [option], [None] being the failure, so that a theorem
    that gives [Some] also shows the absence of such failures.  Allocators,
    random generators, hash functions and the content of uninitialised memory
    are arguments, and the theorems hold for all of them.  The code of third
    parties (Spring Data and PostgreSQL, [Collections.shuffle], the command
    table of Redis) is a parameter with the laws its documentation states, and a
    concrete instance shows that the laws can be satisfied.

    ** What the theorems show

    - Refinement: whatever the sequence of operations, up to numbers of them
      that the theorems name where a counter has a width, the hash table is a finite
      map, the integer set a finite set, the listpack a list of strings, the
      linked list a sequence, the skip list a sorted list, the radix tree
      a finite map and its iterator a cursor over the sorted keys, the set
      type a finite set of strings across its conversions, the bitmap commands
      operations on lists of booleans, and the services of
      the game two players who follow the rules.
    - Round trips: requests and the parser, compression and decompression,
      strings and objects in RDB form and in DUMP payloads, numbers and their
      decimal strings, quoting and splitting.
    - Equivalence with a definition: the table-driven checksum and the
      polynomial division, the pattern matcher and the grammar and meaning of
      patterns, the decompressor and the format, its errors included.
    - Safety on untrusted input: the request parser never leaves its query
      buffer or the argument array it grows; the decompressor and the integrity
      checks never leave their buffers; the RDB string loader does not either,
      and aborts exactly on lengths whose sum with a string header overflows.
    - Termination and completeness of SCAN while the table is resized; the end
      of a game of War.
    - Error paths and bounds, each for the whole class of states that show
      them: where sizes wrap, which lengths make a comparison wrong, which
      listpacks pass the integrity check and then fail, where an underflow is
      taken for an overflow; where a method of the game ends in an exception,
      loses cards, deals them twice, names no winner or leaves rows behind.

    ** Fuel

    Loops that are not structural take fuel.  [dictScan] and the sampling
    functions get the size of the tables, the request parser the length of the
    query buffer, the compressor and the decompressor the length of their
    input, the chunked streams the number of bytes, the loops over a set the
    number of its elements, or of the bytes that hold them, a descent in a radix
    tree the length of the key, the loops over its nodes the number of blocks of
    the heap, the loops over the words of a bitmap its length in bytes (the scan
    of the last word: its bits), and a war the number of cards.  Each bound is shown to be enough: the theorems give a result, not
    only a property of one.

    ** Not modelled

    - The browser side of the game ([app.js], [gamePlay.js], [websocket.js] and
      the templates), which changes pages; the configuration of the message
      broker and the disconnect listener, which configure or call Spring;
      [src/WardCardGame2], a sketch whose one service method returns a list
      with an empty card.
    - Two requests that run at the same time in the game: the methods are run
      one after the other.
    - Of Redis: the event loop, sockets, files, processes and threads (system
      calls); the commands other than those of [bitops.c] and the command table,
      expiration and eviction, replication, cluster, sentinel,
      scripting, modules, access control and configuration; the other value
      types (streams, hyperloglogs, geo) and encodings (quicklist, ziplist);
      the tools; and the libraries in [deps].
    - Of the radix tree: running out of memory, which the allocator of the
      server answers by ending the process; the node callback of the iterator
      (defragmentation); [raxRandomWalk], which uses a floating point logarithm
      and random numbers; and the functions that print a tree.
    - Of the bitmap commands: expiration of the keys they look up, statistics and
      keyspace events; and the debugging function that prints bits.
    - The random selections of the set type, whose listpack case uses a
      floating point comparison.
    - Of the modelled files, what the notes on each of them name: floating
      point conversions, memory accounting and statistics, and functions that
      only print or only free. *)

From Stdlib Require Import ZArith Lia ZifyBool.
From stdpp Require Import base gmap numbers option list.

Local Open Scope Z_scope.

(** ** Machine integers

    A [w]-bit C integer is a [Z]; [wrap w] is the conversion to the unsigned
    type and [swrap w] the (two's complement) conversion to the signed one. *)
Definition wrap (w x : Z) : Z := x mod 2 ^ w.
Definition swrap (w x : Z) : Z := (x + 2 ^ (w - 1)) mod 2 ^ w - 2 ^ (w - 1).

Definition in_u (w x : Z) : Prop := 0 <= x < 2 ^ w.
Definition in_s (w x : Z) : Prop := - 2 ^ (w - 1) <= x < 2 ^ (w - 1).

Notation u8 := (wrap 8).
Notation u16 := (wrap 16).
Notation u32 := (wrap 32).
Notation u64 := (wrap 64).
Notation s8 := (swrap 8).
Notation s16 := (swrap 16).
Notation s32 := (swrap 32).
Notation s64 := (swrap 64).

Definition UINT32_MAX : Z := 2 ^ 32 - 1.
Definition UINT64_MAX : Z := 2 ^ 64 - 1.
Definition INT64_MAX : Z := 2 ^ 63 - 1.
Definition INT64_MIN : Z := - 2 ^ 63.

(** A C truth value. *)
Definition b2z (b : bool) : Z := if b then 1 else 0.

Create HintDb redis discriminated.

(** Case analysis on the first boolean comparison of the goal, keeping the
    arithmetic fact each branch gives. *)
Ltac case_zb :=
  match goal with
  | |- context [Z.ltb ?a ?b] => destruct (Z.ltb_spec a b)
  | |- context [Z.leb ?a ?b] => destruct (Z.leb_spec a b)
  | |- context [Z.eqb ?a ?b] => destruct (Z.eqb_spec a b)
  | |- context [Z.gtb ?a ?b] => rewrite (Z.gtb_ltb a b)
  | |- context [Z.geb ?a ?b] => rewrite (Z.geb_leb a b)
  end.

(** Decide the comparisons of the goal that [lia] can settle. *)
Ltac zb_true e := let H := fresh in assert (e = true) as H by lia; rewrite H; clear H.
Ltac zb_false e := let H := fresh in assert (e = false) as H by lia; rewrite H; clear H.
Ltac zb :=
  repeat match goal with
  | |- context [Z.ltb ?a ?b] => first [zb_true (Z.ltb a b) | zb_false (Z.ltb a b)]
  | |- context [Z.leb ?a ?b] => first [zb_true (Z.leb a b) | zb_false (Z.leb a b)]
  | |- context [Z.eqb ?a ?b] => first [zb_true (Z.eqb a b) | zb_false (Z.eqb a b)]
  | |- context [Z.gtb ?a ?b] => first [zb_true (Z.gtb a b) | zb_false (Z.gtb a b)]
  | |- context [Z.geb ?a ?b] => first [zb_true (Z.geb a b) | zb_false (Z.geb a b)]
  end; cbn [andb orb negb].

(** Lengths of concatenations. *)
Ltac lens := repeat first [rewrite length_app | progress cbn [length]].

Lemma wrap_range w x : 0 <= w -> in_u w (wrap w x).
Proof. intros. apply Z.mod_pos_bound. apply Z.pow_pos_nonneg; lia. Qed.

Lemma wrap_id w x : in_u w x -> wrap w x = x.
Proof. apply Z.mod_small. Qed.

Lemma pow2_half w : 0 < w -> 2 ^ w = 2 * 2 ^ (w - 1).
Proof. intros. rewrite <- Z.pow_succ_r by lia. f_equal; lia. Qed.

Lemma swrap_range w x : 0 < w -> in_s w (swrap w x).
Proof.
  intros. unfold in_s, swrap. pose proof (pow2_half w H).
  pose proof (Z.mod_pos_bound (x + 2 ^ (w - 1)) (2 ^ w)).
  pose proof (Z.pow_pos_nonneg 2 (w - 1)). lia.
Qed.

Lemma swrap_id w x : 0 < w -> in_s w x -> swrap w x = x.
Proof.
  intros Hw H. unfold swrap, in_s in *. pose proof (pow2_half w Hw).
  rewrite Z.mod_small; lia.
Qed.

(** ** Bits of machine integers *)

Lemma in_u_high w x i : 0 <= w -> in_u w x -> w <= i -> Z.testbit x i = false.
Proof.
  intros Hw [H0 H1] Hi. destruct (Z.eq_dec x 0) as [->|]; [apply Z.bits_0|].
  apply Z.bits_above_log2; [lia|]. apply Z.log2_lt_pow2; [lia|].
  eapply Z.lt_le_trans; [exact H1|]. apply Z.pow_le_mono_r; lia.
Qed.

Lemma in_u_of_bits w x : 0 <= w -> 0 <= x -> (forall i, w <= i -> Z.testbit x i = false) -> in_u w x.
Proof.
  intros Hw Hx Hb. split; [done|]. destruct (Z.eq_dec x 0) as [->|]; [apply Z.pow_pos_nonneg; lia|].
  apply Z.log2_lt_pow2; [lia|]. destruct (Z.lt_ge_cases (Z.log2 x) w) as [|Hge]; [done|].
  specialize (Hb _ Hge). rewrite Z.bit_log2 in Hb by lia. done.
Qed.

Lemma bits_ext w x y : 0 <= w -> in_u w x -> in_u w y ->
  (forall i, 0 <= i < w -> Z.testbit x i = Z.testbit y i) -> x = y.
Proof.
  intros Hw Hx Hy Hb. apply Z.bits_inj_iff'. intros i Hi. destruct (Z.lt_ge_cases i w); [apply Hb; lia|].
  by rewrite !(in_u_high w).
Qed.

Lemma wrap_bit w x i : 0 <= i < w -> Z.testbit (wrap w x) i = Z.testbit x i.
Proof. intros. unfold wrap. apply Z.mod_pow2_bits_low. lia. Qed.

Lemma wrap_bit_high w x i : 0 <= w <= i -> Z.testbit (wrap w x) i = false.
Proof. intros. unfold wrap. apply Z.mod_pow2_bits_high. lia. Qed.

Lemma land_in_u_r w x y : 0 <= w -> in_u w y -> in_u w (Z.land x y).
Proof.
  intros Hw Hy. apply in_u_of_bits; [done|apply Z.land_nonneg; right; apply Hy|].
  intros i Hi. by rewrite Z.land_spec, (in_u_high w y i), andb_false_r.
Qed.

Lemma land_in_u_l w x y : 0 <= w -> in_u w x -> in_u w (Z.land x y).
Proof. rewrite Z.land_comm. apply land_in_u_r. Qed.

Lemma lor_in_u w x y : 0 <= w -> in_u w x -> in_u w y -> in_u w (Z.lor x y).
Proof.
  intros Hw Hx Hy. apply in_u_of_bits; [done|apply Z.lor_nonneg; split; [apply Hx|apply Hy]|].
  intros i Hi. by rewrite Z.lor_spec, (in_u_high w x i), (in_u_high w y i).
Qed.

Lemma lxor_in_u w x y : 0 <= w -> in_u w x -> in_u w y -> in_u w (Z.lxor x y).
Proof.
  intros Hw Hx Hy. apply in_u_of_bits; [done|apply Z.lxor_nonneg; split; intros; [apply Hy|apply Hx]|].
  intros i Hi. by rewrite Z.lxor_spec, (in_u_high w x i), (in_u_high w y i).
Qed.

Lemma shiftr_in_u w x k : 0 <= w -> 0 <= k -> in_u w x -> in_u w (Z.shiftr x k).
Proof.
  intros Hw Hk Hx. apply in_u_of_bits; [done|apply Z.shiftr_nonneg, Hx|].
  intros i Hi. rewrite Z.shiftr_spec by lia. apply (in_u_high w); [done|done|lia].
Qed.

#[export] Hint Resolve wrap_range land_in_u_r land_in_u_l lor_in_u lxor_in_u shiftr_in_u : redis.
#[export] Hint Extern 1 (_ <= _) => lia : redis.
#[export] Hint Extern 1 (_ < _) => lia : redis.

Lemma swrap_wrap w x : 0 < w -> swrap w (wrap w x) = swrap w x.
Proof. intros. unfold swrap, wrap. now rewrite Zplus_mod_idemp_l. Qed.

Lemma wrap_swrap w x : 0 < w -> wrap w (swrap w x) = wrap w x.
Proof.
  intros. unfold swrap, wrap. rewrite Zminus_mod_idemp_l. f_equal. lia.
Qed.

(** ** Little-endian byte sequences *)
Definition byteZ (b : Z) : Prop := 0 <= b < 256.
#[export] Instance byteZ_dec b : Decision (byteZ b).
Proof. unfold byteZ. apply _. Defined.

Fixpoint le_bytes (n : nat) (x : Z) : list Z :=
  match n with
  | O => []
  | S n => x mod 256 :: le_bytes n (x / 256)
  end.

Fixpoint le_val (bs : list Z) : Z :=
  match bs with
  | [] => 0
  | b :: bs => b + 256 * le_val bs
  end.

Lemma length_le_bytes n x : length (le_bytes n x) = n.
Proof. revert x. induction n; intros; simpl; auto. Qed.

Lemma le_bytes_byte n x : Forall byteZ (le_bytes n x).
Proof.
  revert x. induction n; intros; simpl; constructor; auto.
  unfold byteZ. apply Z.mod_pos_bound. lia.
Qed.

Lemma le_val_range bs : Forall byteZ bs -> 0 <= le_val bs < 256 ^ Z.of_nat (length bs).
Proof.
  induction 1; cbn [le_val length]; [lia|].
  rewrite Nat2Z.inj_succ, Z.pow_succ_r by lia. unfold byteZ in *. lia.
Qed.

Lemma le_val_bytes n x : le_val (le_bytes n x) = x mod 256 ^ Z.of_nat n.
Proof.
  revert x. induction n as [|n IH]; intros; cbn [le_val le_bytes].
  - now rewrite Z.mod_1_r.
  - rewrite IH, Nat2Z.inj_succ, Z.pow_succ_r by lia.
    rewrite Z.rem_mul_r; lia.
Qed.

Lemma le_bytes_val bs : Forall byteZ bs -> le_bytes (length bs) (le_val bs) = bs.
Proof.
  induction 1 as [|b bs Hb _ IH]; cbn [le_val le_bytes length]; [done|].
  unfold byteZ in Hb.
  rewrite Z.mul_comm, Z.mod_add, Z.mod_small by lia.
  rewrite Z.div_add, Z.div_small by lia. rewrite Z.add_0_l. now rewrite IH.
Qed.

Lemma le_bytes_mod n x : le_bytes n (x mod 256 ^ Z.of_nat n) = le_bytes n x.
Proof.
  rewrite <- le_val_bytes. pose proof (le_bytes_val (le_bytes n x) (le_bytes_byte n x)) as E.
  by rewrite length_le_bytes in E.
Qed.

Lemma pow256 n : 0 <= n -> 256 ^ n = 2 ^ (8 * n).
Proof. intros. rewrite Z.pow_mul_r by lia. reflexivity. Qed.

#[export] Hint Resolve le_bytes_byte : redis.

(** ** Bit operations as arithmetic *)

Lemma lor_shiftl a b k : 0 <= k -> in_u k a -> Z.lor a (Z.shiftl b k) = a + b * 2 ^ k.
Proof.
  intros Hk Ha. rewrite <- (Z.shiftl_mul_pow2 b k) by done. symmetry. rewrite Z.add_nocarry_lxor.
  - apply Z.bits_inj_iff'. intros i Hi. rewrite Z.lxor_spec, Z.lor_spec, Z.shiftl_spec by done.
    destruct (Z.lt_ge_cases i k).
    + rewrite (Z.testbit_neg_r b (i - k)) by lia. by destruct (Z.testbit a i).
    + rewrite (in_u_high k a i) by done. done.
  - apply Z.bits_inj_iff'. intros i Hi. rewrite Z.land_spec, Z.shiftl_spec, Z.bits_0 by done.
    destruct (Z.lt_ge_cases i k).
    + rewrite (Z.testbit_neg_r b (i - k)) by lia. apply andb_false_r.
    + by rewrite (in_u_high k a i).
Qed.

Lemma shiftl_lor a b k : 0 <= k -> in_u k a -> Z.lor (Z.shiftl b k) a = a + b * 2 ^ k.
Proof. rewrite Z.lor_comm. apply lor_shiftl. Qed.

Lemma land_ones_mod a n m : 0 <= n -> m = Z.ones n -> Z.land a m = a mod 2 ^ n.
Proof. intros ? ->. by apply Z.land_ones. Qed.

Lemma land_255 a : Z.land a 255 = a mod 256.
Proof. by apply (land_ones_mod a 8). Qed.
Lemma land_127 a : Z.land a 127 = a mod 128.
Proof. by apply (land_ones_mod a 7). Qed.

Lemma lor_disjoint a b k : 0 <= k -> in_u k a -> Z.lor a (b * 2 ^ k) = a + b * 2 ^ k.
Proof. intros. rewrite <- Z.shiftl_mul_pow2 by done. by rewrite lor_shiftl, Z.shiftl_mul_pow2. Qed.

(** The little-endian combination of the bytes. *)
Lemma lor_le2 a b : byteZ a -> byteZ b -> Z.lor a (Z.shiftl b 8) = le_val [a; b].
Proof. unfold byteZ. intros. rewrite lor_shiftl by (unfold in_u; lia). cbn [le_val]. lia. Qed.
Lemma lor_le3 a b c : byteZ a -> byteZ b -> byteZ c -> Z.lor (Z.lor a (Z.shiftl b 8)) (Z.shiftl c 16) = le_val [a; b; c].
Proof. unfold byteZ. intros. rewrite lor_le2 by done. cbn [le_val]. rewrite lor_shiftl by (unfold in_u; lia). lia. Qed.
Lemma lor_le4 a b c d : byteZ a -> byteZ b -> byteZ c -> byteZ d ->
  Z.lor (Z.lor (Z.lor a (Z.shiftl b 8)) (Z.shiftl c 16)) (Z.shiftl d 24) = le_val [a; b; c; d].
Proof. unfold byteZ. intros. rewrite lor_le3 by done. cbn [le_val]. rewrite lor_shiftl by (unfold in_u; lia). lia. Qed.
Lemma lor_le8 a b c d e f g h : Forall byteZ [a; b; c; d; e; f; g; h] ->
  Z.lor (Z.lor (Z.lor (Z.lor (Z.lor (Z.lor (Z.lor a (Z.shiftl b 8)) (Z.shiftl c 16)) (Z.shiftl d 24)) (Z.shiftl e 32))
    (Z.shiftl f 40)) (Z.shiftl g 48)) (Z.shiftl h 56) = le_val [a; b; c; d; e; f; g; h].
Proof.
  rewrite !Forall_cons. unfold byteZ. intros. rewrite lor_le4 by (unfold byteZ; lia). cbn [le_val].
  rewrite (lor_shiftl _ e 32) by (unfold in_u; lia). rewrite (lor_shiftl _ f 40) by (unfold in_u; lia).
  rewrite (lor_shiftl _ g 48) by (unfold in_u; lia). rewrite (lor_shiftl _ h 56) by (unfold in_u; lia). lia.
Qed.

Lemma swrap_wrap_le w w' x : 0 < w <= w' -> swrap w (wrap w' x) = swrap w x.
Proof.
  intros Hw. unfold swrap, wrap. f_equal.
  assert (2 ^ w' = 2 ^ w * 2 ^ (w' - w)) as -> by (rewrite <- Z.pow_add_r by lia; f_equal; lia).
  rewrite <- (Z.add_mod_idemp_l (x mod _)), <- (Z.add_mod_idemp_l x) by lia. do 2 f_equal.
  rewrite Z.rem_mul_r by lia. rewrite Z.mul_comm, Z.mod_add by lia. apply Z.mod_mod. lia.
Qed.

Lemma u8_byte x : byteZ x -> u8 x = x.
Proof. intros. apply wrap_id. unfold byteZ, in_u in *. lia. Qed.

Lemma u8_small x : 0 <= x < 256 -> u8 x = x.
Proof. apply u8_byte. Qed.

(** ** Memory blocks

    A block of memory is the list of its bytes; every access is checked, and
    [None] stands for an access outside the block. *)
Definition get (b : list Z) (i : Z) : option Z :=
  if 0 <=? i then b !! Z.to_nat i else None.

Definition slice (b : list Z) (i n : Z) : option (list Z) :=
  if (0 <=? i) && (0 <=? n) && (i + n <=? Z.of_nat (length b))
  then Some (take (Z.to_nat n) (drop (Z.to_nat i) b)) else None.

Definition blit (b : list Z) (i : Z) (s : list Z) : option (list Z) :=
  if (0 <=? i) && (i + Z.of_nat (length s) <=? Z.of_nat (length b))
  then Some (take (Z.to_nat i) b ++ s ++ drop (Z.to_nat i + length s) b) else None.

(** A one-byte store: the value is truncated to a byte. *)
Definition put (b : list Z) (i x : Z) : option (list Z) := blit b i [u8 x].

(** [memmove(b+dst, b+src, n)]: the source is read before the target is written. *)
Definition memmove (b : list Z) (dst src n : Z) : option (list Z) :=
  s ← slice b src n; blit b dst s.

(** [realloc]: keeps the common prefix; the bytes past the old end are whatever
    the allocator left there, [undef]. *)
Definition realloc (undef : nat -> Z) (b : list Z) (n : Z) : list Z :=
  let n := Z.to_nat n in
  take n b ++ (undef <$> seq (length b) (n - length b)).

Lemma get_app p x q i : i = Z.of_nat (length p) -> get (p ++ x :: q) i = Some x.
Proof.
  intros ->. unfold get. zb. rewrite Nat2Z.id.
  apply list_lookup_middle. done.
Qed.

Lemma get_total (o : list Z) i : 0 <= i < Z.of_nat (length o) -> get o i = Some (o !!! Z.to_nat i).
Proof. intros. unfold get. zb. apply list_lookup_lookup_total_lt. lia. Qed.

Lemma slice_app p s q i n :
  i = Z.of_nat (length p) -> n = Z.of_nat (length s) -> slice (p ++ s ++ q) i n = Some s.
Proof.
  intros -> ->. unfold slice. rewrite !length_app. zb. rewrite !Nat2Z.id.
  now rewrite drop_app_length, take_app_length.
Qed.

Lemma blit_app p s s' q i :
  i = Z.of_nat (length p) -> length s = length s' ->
  blit (p ++ s ++ q) i s' = Some (p ++ s' ++ q).
Proof.
  intros -> Hl. unfold blit. rewrite !length_app. zb. rewrite Nat2Z.id.
  rewrite take_app_length, <- Hl, <- drop_drop, drop_app_length, drop_app_length. done.
Qed.

Lemma put_app p x y q i :
  i = Z.of_nat (length p) -> put (p ++ x :: q) i y = Some (p ++ u8 y :: q).
Proof. intros ->. unfold put. now apply (blit_app p [x] [u8 y] q). Qed.

Lemma length_realloc undef b n : 0 <= n -> Z.of_nat (length (realloc undef b n)) = n.
Proof.
  intros. unfold realloc. rewrite length_app, length_take, length_fmap, length_seq. lia.
Qed.

Lemma realloc_grow undef b n :
  Z.of_nat (length b) <= n -> exists junk,
    realloc undef b n = b ++ junk /\ Z.of_nat (length junk) = n - Z.of_nat (length b).
Proof.
  intros. unfold realloc. eexists. split; [now rewrite take_ge by lia|].
  rewrite length_fmap, length_seq. lia.
Qed.

Lemma realloc_shrink undef b n :
  0 <= n <= Z.of_nat (length b) -> realloc undef b n = take (Z.to_nat n) b.
Proof.
  intros. unfold realloc. replace (Z.to_nat n - length b)%nat with 0%nat by lia.
  simpl. now rewrite app_nil_r.
Qed.

(** Opening and closing a gap with [memmove]. *)
Lemma memmove_right A B X dst src n :
  src = Z.of_nat (length A) -> dst = Z.of_nat (length A + length X) -> n = Z.of_nat (length B) ->
  exists J, memmove (A ++ B ++ X) dst src n = Some (A ++ J ++ B) /\ length J = length X.
Proof.
  intros -> -> ->. unfold memmove. rewrite slice_app by done. cbn [mbind option_bind].
  exists (take (length X) (B ++ X)). rewrite length_take, length_app. split; [|lia].
  rewrite <- (take_drop (length X) (B ++ X)) at 1. rewrite app_assoc.
  rewrite <- (app_nil_r (drop (length X) (B ++ X))), (blit_app _ _ B []), app_nil_r, <- app_assoc; [done| |].
  - rewrite length_app, length_take, length_app. lia.
  - rewrite length_drop, length_app. lia.
Qed.

Lemma memmove_left A B X dst src n :
  dst = Z.of_nat (length A) -> src = Z.of_nat (length A + length X) -> n = Z.of_nat (length B) ->
  exists J, memmove (A ++ X ++ B) dst src n = Some (A ++ B ++ J) /\ length J = length X.
Proof.
  intros -> -> ->. unfold memmove.
  pose proof (slice_app (A ++ X) B [] _ _ eq_refl eq_refl) as E.
  rewrite app_nil_r, <- app_assoc, length_app in E. rewrite E. cbn [mbind option_bind].
  exists (drop (length B) (X ++ B)). rewrite length_drop, length_app. split; [|lia].
  rewrite <- (take_drop (length B) (X ++ B)) at 1. apply blit_app; [done|].
  rewrite length_take, length_app. lia.
Qed.

(** Writing behind what has been written at [A]. *)
Lemma put_next A pre j q i x : i = Z.of_nat (length A) + Z.of_nat (length pre) ->
  put (A ++ pre ++ j :: q) i x = Some (A ++ (pre ++ [u8 x]) ++ q).
Proof. intros ->. rewrite app_assoc, put_app by (rewrite length_app; lia). by rewrite <- !app_assoc. Qed.

Lemma blit_next A pre J B i s : i = Z.of_nat (length A) + Z.of_nat (length pre) -> length J = length s ->
  blit (A ++ pre ++ J ++ B) i s = Some (A ++ (pre ++ s) ++ B).
Proof. intros -> HJ. rewrite app_assoc, (blit_app _ J s) by (rewrite ?length_app; lia). by rewrite <- !app_assoc. Qed.
