(* ===== verification/Intset.v ===== *)
(** * Intset: sorted integer sets packed in one block (src/redis-7.2.4/src/intset.c)

    The block is the header (encoding and length, [uint32_t] each) followed by
    [length] signed integers of [encoding] bytes, little-endian on every host
    (the code byte-swaps on big-endian ones).  [repr is xs] says that the block
    holds the strictly increasing list [xs]; the theorems show that search, add,
    remove and lookup are the operations of a finite set of 64-bit integers,
    that no access leaves the block, and that the integrity check accepts
    exactly the well-formed non-empty blocks. *)

From Stdlib Require Import ZArith Lia ZifyBool.
From stdpp Require Import base list gmap numbers option sorting.
From S2P Require Import Prelude.

Local Open Scope Z_scope.

Notation INTSET_ENC_INT16 := 2%Z (only parsing).
Notation INTSET_ENC_INT32 := 4%Z (only parsing).
Notation INTSET_ENC_INT64 := 8%Z (only parsing).
Definition sizeof_intset : Z := 8.

(** [struct intset] of intset.h. *)
Record intset := mk_intset { encoding : Z; ilength : Z; contents : list Z }.

Definition set_encoding (s : intset) (e : Z) : intset := mk_intset e (ilength s) (contents s).
Definition set_length (s : intset) (n : Z) : intset := mk_intset (encoding s) n (contents s).
Definition set_contents (s : intset) (c : list Z) : intset := mk_intset (encoding s) (ilength s) c.

Definition _intsetValueEncoding (v : Z) : Z :=
  if (v <? -2147483648) || (2147483647 <? v) then INTSET_ENC_INT64
  else if (v <? -32768) || (32767 <? v) then INTSET_ENC_INT32
  else INTSET_ENC_INT16.

Definition _intsetGetEncoded (s : intset) (pos enc : Z) : option Z :=
  if enc =? INTSET_ENC_INT64 then b ← slice (contents s) (pos * 8) 8; Some (s64 (le_val b))
  else if enc =? INTSET_ENC_INT32 then b ← slice (contents s) (pos * 4) 4; Some (s32 (le_val b))
  else b ← slice (contents s) (pos * 2) 2; Some (s16 (le_val b)).

Definition _intsetGet (s : intset) (pos : Z) : option Z :=
  _intsetGetEncoded s pos (u8 (encoding s)).

Definition _intsetSet (s : intset) (pos value : Z) : option intset :=
  if encoding s =? INTSET_ENC_INT64 then
    set_contents s <$> blit (contents s) (pos * 8) (le_bytes 8 value)
  else if encoding s =? INTSET_ENC_INT32 then
    set_contents s <$> blit (contents s) (pos * 4) (le_bytes 4 value)
  else set_contents s <$> blit (contents s) (pos * 2) (le_bytes 2 value).

Definition intsetNew : intset := mk_intset INTSET_ENC_INT16 0 [].

(** The [while (max >= min)] loop of [intsetSearch]: the final [min], [mid] and
    [cur].  [None] when the fuel runs out or a read leaves the block. *)
Fixpoint intsetSearch_loop (fuel : nat) (s : intset) (value min max mid cur : Z)
    : option (Z * Z * Z) :=
  match fuel with
  | O => None
  | S fuel =>
    if max >=? min then
      let mid := s32 (Z.shiftr (u32 (u32 min + u32 max)) 1) in
      cur ← _intsetGet s mid;
      if value >? cur then intsetSearch_loop fuel s value (mid + 1) max mid cur
      else if value <? cur then intsetSearch_loop fuel s value min (mid - 1) mid cur
      else Some (min, mid, cur)
    else Some (min, mid, cur)
  end.

(** The result and the position written to [*pos]. *)
Definition intsetSearch (s : intset) (value : Z) : option (Z * Z) :=
  let min := 0 in
  let max := s32 (u32 (ilength s - 1)) in
  if ilength s =? 0 then Some (0, 0) else
  last ← _intsetGet s max;
  if value >? last then Some (0, ilength s) else
  first ← _intsetGet s 0;
  if value <? first then Some (0, 0) else
  '(min, mid, cur) ← intsetSearch_loop (S (Z.to_nat (ilength s))) s value min max (-1) (-1);
  if value =? cur then Some (1, u32 mid) else Some (0, u32 min).

Section Alloc.
Context (undef : nat -> Z).

Definition intsetResize (s : intset) (len : Z) : option intset :=
  let size := u64 (len * encoding s) in
  if size <=? UINT64_MAX - sizeof_intset
  then Some (set_contents s (realloc undef (contents s) size)) else None.

(** [while(length--) _intsetSet(is,length+prepend,_intsetGetEncoded(is,length,curenc))] *)
Fixpoint intsetUpgrade_loop (n : nat) (s : intset) (prepend curenc : Z) : option intset :=
  match n with
  | O => Some s
  | S n =>
    v ← _intsetGetEncoded s (Z.of_nat n) curenc;
    s ← _intsetSet s (Z.of_nat n + prepend) v;
    intsetUpgrade_loop n s prepend curenc
  end.

Definition intsetUpgradeAndAdd (s : intset) (value : Z) : option intset :=
  let curenc := u8 (encoding s) in
  let newenc := _intsetValueEncoding value in
  let length := s32 (ilength s) in
  let prepend := if value <? 0 then 1 else 0 in
  let s := set_encoding s newenc in
  s ← intsetResize s (u32 (ilength s + 1));
  s ← intsetUpgrade_loop (Z.to_nat length) s prepend curenc;
  s ← (if prepend =? 1 then _intsetSet s 0 value
        else _intsetSet s (s32 (ilength s)) value);
  Some (set_length s (u32 (ilength s + 1))).

Definition intsetMoveTail (s : intset) (from to : Z) : option intset :=
  let n := u32 (ilength s - from) in
  let w := if encoding s =? INTSET_ENC_INT64 then 8
           else if encoding s =? INTSET_ENC_INT32 then 4 else 2 in
  set_contents s <$> memmove (contents s) (to * w) (from * w) (u32 (n * w)).

Definition intsetAdd (s : intset) (value : Z) : option (intset * Z) :=
  let valenc := _intsetValueEncoding value in
  if valenc >? encoding s then
    s ← intsetUpgradeAndAdd s value; Some (s, 1)
  else
    '(found, pos) ← intsetSearch s value;
    if found =? 1 then Some (s, 0) else
    s ← intsetResize s (u32 (ilength s + 1));
    s ← (if pos <? ilength s then intsetMoveTail s pos (u32 (pos + 1)) else Some s);
    s ← _intsetSet s (s32 pos) value;
    Some (set_length s (u32 (ilength s + 1)), 1).

Definition intsetRemove (s : intset) (value : Z) : option (intset * Z) :=
  let valenc := _intsetValueEncoding value in
  if valenc <=? encoding s then
    '(found, pos) ← intsetSearch s value;
    if found =? 1 then
      let len := ilength s in
      s ← (if pos <? u32 (len - 1) then intsetMoveTail s (u32 (pos + 1)) pos else Some s);
      s ← intsetResize s (u32 (len - 1));
      Some (set_length s (u32 (len - 1)), 1)
    else Some (s, 0)
  else Some (s, 0).

End Alloc.

Definition intsetFind (s : intset) (value : Z) : option Z :=
  let valenc := _intsetValueEncoding value in
  if valenc <=? encoding s then '(found, _) ← intsetSearch s value; Some found
  else Some 0.

(** [rnd] is what [rand()] returns. *)
Definition intsetRandom (s : intset) (rnd : Z) : option Z :=
  if ilength s =? 0 then None else _intsetGet s (s32 (rnd mod ilength s)).

Definition intsetMax (s : intset) : option Z := _intsetGet s (s32 (u32 (ilength s - 1))).
Definition intsetMin (s : intset) : option Z := _intsetGet s 0.

(** The result and, when it is 1, the value stored in [*value]. *)
Definition intsetGet (s : intset) (pos : Z) : option (Z * option Z) :=
  if pos <? ilength s then v ← _intsetGet s (s32 pos); Some (1, Some v)
  else Some (0, None).

Definition intsetLen (s : intset) : Z := ilength s.
Definition intsetBlobLen (s : intset) : Z := sizeof_intset + ilength s * encoding s.

(** The whole block, header included, and the block read back as a struct. *)
Definition blob (s : intset) : list Z :=
  le_bytes 4 (encoding s) ++ le_bytes 4 (ilength s) ++ contents s.

Definition of_blob (p : list Z) : option intset :=
  e ← slice p 0 4; l ← slice p 4 4;
  Some (mk_intset (le_val e) (le_val l) (drop 8 p)).

(** The [for] loop of [intsetValidateIntegrity], from index [i], [n] records left. *)
Fixpoint intsetValidate_loop (n : nat) (s : intset) (i prev : Z) : option Z :=
  match n with
  | O => Some 1
  | S n =>
    cur ← _intsetGet s (s32 i);
    if cur <=? prev then Some 0 else intsetValidate_loop n s (i + 1) cur
  end.

Definition intsetValidateIntegrity (p : list Z) (deep : bool) : option Z :=
  let size := Z.of_nat (length p) in
  if size <? sizeof_intset then Some 0 else
  s ← of_blob p;
  let check record_size :=
    let count := ilength s in
    if negb (sizeof_intset + count * record_size =? size) then Some 0 else
    if count =? 0 then Some 0 else
    if negb deep then Some 1 else
    prev ← _intsetGet s 0;
    intsetValidate_loop (Z.to_nat (count - 1)) s 1 prev in
  if encoding s =? INTSET_ENC_INT64 then check INTSET_ENC_INT64
  else if encoding s =? INTSET_ENC_INT32 then check INTSET_ENC_INT32
  else if encoding s =? INTSET_ENC_INT16 then check INTSET_ENC_INT16
  else Some 0.

(** ** Representation *)

Definition wf_enc (e : Z) : Prop := e = 2 \/ e = 4 \/ e = 8.

(** [xs] as the code lays it out in memory. *)
Definition enc_all (n : nat) (xs : list Z) : list Z := xs ≫= le_bytes n.

Record repr (s : intset) (xs : list Z) : Prop := {
  repr_enc : wf_enc (encoding s);
  repr_len : ilength s = Z.of_nat (length xs);
  repr_contents : contents s = enc_all (Z.to_nat (encoding s)) xs;
  repr_range : Forall (in_s (8 * encoding s)) xs;
  repr_sorted : StronglySorted Z.lt xs;
  repr_small : Z.of_nat (length xs) < 2 ^ 31
}.

Lemma enc_all_app n xs ys : enc_all n (xs ++ ys) = enc_all n xs ++ enc_all n ys.
Proof. apply bind_app. Qed.

Lemma enc_all_cons n x xs : enc_all n (x :: xs) = le_bytes n x ++ enc_all n xs.
Proof. apply bind_cons. Qed.

Lemma length_enc_all n xs : length (enc_all n xs) = (length xs * n)%nat.
Proof.
  induction xs; [done|].
  rewrite enc_all_cons, length_app, length_le_bytes, IHxs. simpl. lia.
Qed.

Lemma decode_bytes e x : wf_enc e -> in_s (8 * e) x ->
  swrap (8 * e) (le_val (le_bytes (Z.to_nat e) x)) = x.
Proof.
  intros He Hx. assert (0 < e) by (destruct He as [|[]]; lia).
  rewrite le_val_bytes, Z2Nat.id, pow256 by lia.
  change (swrap (8 * e) (wrap (8 * e) x) = x).
  rewrite swrap_wrap by lia. apply swrap_id; [lia|done].
Qed.

Lemma getEncoded_at s e a x b rest pos :
  wf_enc e -> in_s (8 * e) x -> pos = Z.of_nat (length a) ->
  contents s = enc_all (Z.to_nat e) (a ++ x :: b) ++ rest ->
  _intsetGetEncoded s pos e = Some x.
Proof.
  intros He Hx -> Hc. unfold _intsetGetEncoded.
  rewrite enc_all_app, enc_all_cons, <- !app_assoc in Hc.
  assert (forall k, k = e -> slice (contents s) (Z.of_nat (length a) * k) k =
                    Some (le_bytes (Z.to_nat e) x)) as Hs.
  { intros k ->. rewrite Hc. apply slice_app;
      rewrite ?length_enc_all, ?length_le_bytes; destruct He as [->|[->| ->]]; lia. }
  pose proof (decode_bytes e x He Hx) as Hd.
  destruct He as [->|[->| ->]]; simpl; rewrite Hs by done; simpl;
    f_equal; exact Hd.
Qed.

Lemma set_at s pos x p old q :
  wf_enc (encoding s) -> contents s = p ++ old ++ q ->
  Z.of_nat (length p) = pos * encoding s -> Z.of_nat (length old) = encoding s ->
  _intsetSet s pos x = Some (set_contents s (p ++ le_bytes (Z.to_nat (encoding s)) x ++ q)).
Proof.
  intros He Hc Hp Ho. unfold _intsetSet. rewrite Hc.
  destruct He as [E|[E|E]]; rewrite E in *; simpl;
    (rewrite blit_app; [done|lia|rewrite ?length_le_bytes; simpl; lia]).
Qed.

(** Reading element [i] of any block that lays out [xs], sorted or not. *)
Lemma get_layout s xs i x : wf_enc (encoding s) ->
  contents s = enc_all (Z.to_nat (encoding s)) xs -> Forall (in_s (8 * encoding s)) xs ->
  xs !! i = Some x -> _intsetGet s (Z.of_nat i) = Some x.
Proof.
  intros He Hc Hr Hi. unfold _intsetGet.
  rewrite (wrap_id 8) by (destruct He as [->|[->| ->]]; split; lia).
  pose proof (take_drop_middle xs i x Hi) as E.
  eapply (getEncoded_at s _ (take i xs) x (drop (S i) xs) []); [done| | |].
  - by eapply Forall_lookup_1.
  - rewrite length_take. apply lookup_lt_Some in Hi. lia.
  - by rewrite E, app_nil_r.
Qed.

Section Repr.
Context (s : intset) (xs : list Z) (HR : repr s xs).

Lemma repr_u8 : u8 (encoding s) = encoding s.
Proof. apply wrap_id. destruct (repr_enc _ _ HR) as [->|[->| ->]]; split; lia. Qed.

Lemma get_lookup i x : xs !! i = Some x -> _intsetGet s (Z.of_nat i) = Some x.
Proof.
  apply get_layout; apply HR.
Qed.

Lemma sorted_lookup i j x y :
  xs !! i = Some x -> xs !! j = Some y -> (i < j)%nat -> x < y.
Proof.
  intros Hi Hj Hl. pose proof (repr_sorted _ _ HR) as HS.
  rewrite <- (take_drop (S i) xs) in HS.
  eapply StronglySorted_app_1_elem_of in HS; [exact HS| |].
  - apply list_elem_of_lookup. exists i. rewrite lookup_take_lt by lia. done.
  - apply list_elem_of_lookup. exists (j - S i)%nat. rewrite lookup_drop.
    replace (S i + (j - S i))%nat with j by lia. done.
Qed.
End Repr.

(** ** Search *)

(** What [intsetSearch] reports: the elements below [v] come first, and [pos] is
    their number. *)
Definition search_result (xs : list Z) (v found pos : Z) : Prop :=
  exists a b, xs = a ++ b /\ pos = Z.of_nat (length a) /\ Forall (fun x => x < v) a /\
    ((found = 1 /\ exists b', b = v :: b') \/ (found = 0 /\ Forall (fun x => v < x) b)).

(** The binary search's state: everything left of [lo] is smaller than [v] and
    everything right of [hi] is larger. *)
Definition window (xs : list Z) (v lo hi : Z) : Prop :=
  0 <= lo /\ lo <= hi + 1 /\ hi < Z.of_nat (length xs) /\
  (forall i x, xs !! i = Some x -> Z.of_nat i < lo -> x < v) /\
  (forall i x, xs !! i = Some x -> hi < Z.of_nat i -> v < x).

Lemma mid_value lo hi : 0 <= lo <= hi -> hi < 2 ^ 31 ->
  s32 (Z.shiftr (u32 (u32 lo + u32 hi)) 1) = (lo + hi) / 2.
Proof.
  intros. rewrite (wrap_id 32 lo), (wrap_id 32 hi) by (unfold in_u; lia).
  rewrite (wrap_id 32) by (unfold in_u; lia). rewrite Z.shiftr_div_pow2 by lia. change (2 ^ 1) with 2.
  apply swrap_id; [lia|]. unfold in_s. change (2 ^ (32 - 1)) with (2 ^ 31).
  pose proof (Z.div_lt_upper_bound (lo + hi) 2 (2 ^ 31)).
  pose proof (Z.div_pos (lo + hi) 2). lia.
Qed.

Lemma search_loop_spec s xs v : repr s xs -> forall fuel lo hi mid cur,
  window xs v lo hi -> (lo <= hi \/ cur <> v) ->
  (Z.to_nat (hi + 1 - lo) < fuel)%nat ->
  exists lo' mid' cur', intsetSearch_loop fuel s v lo hi mid cur = Some (lo', mid', cur') /\
    ((cur' = v /\ 0 <= mid' /\ xs !! Z.to_nat mid' = Some v) \/
     (cur' <> v /\ window xs v lo' (lo' - 1))).
Proof.
  intros HR. induction fuel as [|fuel IH]; intros lo hi mid cur HW Hc Hf; [lia|].
  destruct HW as (H1 & H2 & H3 & HL & HH). cbn [intsetSearch_loop].
  rewrite Z.geb_leb. destruct (Z.leb_spec lo hi) as [Hle|Hgt].
  2:{ do 3 eexists. split; [done|]. right.
      assert (hi = lo - 1) as -> by lia. destruct Hc; [lia|]. repeat split; auto; lia. }
  pose proof (repr_small _ _ HR). rewrite mid_value by lia.
  set (m := (lo + hi) / 2).
  assert (lo <= m <= hi) as Hm.
  { split; [apply Z.div_le_lower_bound; lia|]. apply Z.div_le_upper_bound; lia. }
  destruct (lookup_lt_is_Some_2 xs (Z.to_nat m)) as [c Hcur]; [lia|].
  pose proof (get_lookup s xs HR _ _ Hcur) as Hg. rewrite Z2Nat.id in Hg by lia.
  rewrite Hg. simpl. rewrite Z.gtb_ltb.
  destruct (Z.ltb_spec c v) as [Hlt|].
  { apply IH; [|right; lia|lia]. repeat split; try lia; [|exact HH].
    intros i x Hi Hlm. destruct (decide (i = Z.to_nat m)) as [->|]; [congruence|].
    assert (x < c) by (eapply sorted_lookup; eauto; lia). lia. }
  destruct (Z.ltb_spec v c) as [Hlt|].
  { apply IH; [|right; lia|lia]. repeat split; try lia; [exact HL|].
    intros i x Hi Hlm. destruct (decide (i = Z.to_nat m)) as [->|]; [congruence|].
    assert (c < x) by (eapply sorted_lookup; eauto; lia). lia. }
  assert (c = v) as -> by lia. do 3 eexists. split; [done|]. left. repeat split; auto. lia.
Qed.

Lemma window_result xs v lo : window xs v lo (lo - 1) -> search_result xs v 0 lo.
Proof.
  intros (H1 & H2 & H3 & HL & HH).
  exists (take (Z.to_nat lo) xs), (drop (Z.to_nat lo) xs).
  rewrite take_drop, length_take. split_and!; [done|lia| |right; split; [done|]].
  - apply Forall_lookup. intros i x Hi. apply lookup_take_Some in Hi as [Hi ?].
    eapply HL; eauto; lia.
  - apply Forall_lookup. intros i x Hi. rewrite lookup_drop in Hi. eapply HH; eauto; lia.
Qed.

Lemma found_result s xs v i : repr s xs -> xs !! i = Some v ->
  search_result xs v 1 (Z.of_nat i).
Proof.
  intros HR Hi. exists (take i xs), (drop i xs).
  pose proof (lookup_lt_Some _ _ _ Hi).
  rewrite take_drop, length_take. split_and!; [done|lia| |left; split; [done|]].
  - apply Forall_lookup. intros j x Hj. apply lookup_take_Some in Hj as [Hj ?].
    eapply sorted_lookup; eauto.
  - exists (drop (S i) xs). by apply drop_S.
Qed.

Lemma search_spec s xs v : repr s xs ->
  exists found pos, intsetSearch s v = Some (found, pos) /\ search_result xs v found pos.
Proof.
  intros HR. unfold intsetSearch. rewrite (repr_len _ _ HR).
  pose proof (repr_small _ _ HR). set (n := Z.of_nat (length xs)) in *.
  destruct (Z.eqb_spec n 0) as [E|E].
  { do 2 eexists. split; [done|]. apply window_result. repeat split; try lia;
      intros i x Hi; apply lookup_lt_Some in Hi; lia. }
  rewrite (wrap_id 32), swrap_id by (unfold in_u, in_s; simpl; lia).
  destruct (lookup_lt_is_Some_2 xs (length xs - 1)) as [l Hl]; [lia|].
  destruct (lookup_lt_is_Some_2 xs 0) as [f Hf]; [lia|].
  pose proof (get_lookup s xs HR _ _ Hl) as Gl.
  replace (Z.of_nat (length xs - 1)) with (n - 1) in Gl by lia. rewrite Gl.
  rewrite (get_lookup s xs HR _ _ Hf : _intsetGet s 0 = Some f). cbn [mbind option_bind].
  rewrite Z.gtb_ltb. destruct (Z.ltb_spec l v).
  { do 2 eexists. split; [done|]. apply window_result. repeat split; try lia.
    - intros i x Hi ?. destruct (decide (i = length xs - 1)%nat) as [->|]; [congruence|].
      pose proof (lookup_lt_Some _ _ _ Hi).
      assert (x < l) by (eapply sorted_lookup; eauto; lia). lia.
    - intros i x Hi ?. apply lookup_lt_Some in Hi. lia. }
  destruct (Z.ltb_spec v f).
  { do 2 eexists. split; [done|]. apply window_result. repeat split; try lia.
    intros i x Hi ?. destruct (decide (i = 0)%nat) as [->|]; [congruence|].
    assert (f < x) by (eapply sorted_lookup; eauto; lia). lia. }
  destruct (search_loop_spec s xs v HR (S (Z.to_nat n)) 0 (n - 1) (-1) (-1))
    as (lo & mid & cur & -> & Hres); [|lia|lia|].
  { repeat split; try lia; intros i x Hi ?; apply lookup_lt_Some in Hi; lia. }
  simpl. destruct Hres as [(-> & Hm & Hv)|(Hne & HW)].
  - rewrite Z.eqb_refl. do 2 eexists. split; [done|].
    pose proof (lookup_lt_Some _ _ _ Hv).
    rewrite wrap_id by (unfold in_u; lia).
    replace mid with (Z.of_nat (Z.to_nat mid)) by lia. eapply found_result; eauto.
  - zb. do 2 eexists. split; [done|]. pose proof HW as (? & ? & ? & _).
    rewrite wrap_id by (unfold in_u; lia). by apply window_result.
Qed.

(** A search result is a membership test. *)
Lemma search_result_elem xs v found pos :
  search_result xs v found pos -> found = b2z (bool_decide (v ∈ xs)).
Proof.
  intros (a & b & -> & _ & Ha & [(-> & b' & ->)|(-> & Hb)]).
  - rewrite bool_decide_eq_true_2; [done|]. set_solver.
  - rewrite bool_decide_eq_false_2; [done|]. rewrite elem_of_app.
    rewrite Forall_forall in Ha, Hb. intros [H|H]; [apply Ha in H|apply Hb in H]; lia.
Qed.

(** ** Insertion *)

Lemma wf_enc_value v : wf_enc (_intsetValueEncoding v).
Proof. unfold _intsetValueEncoding, wf_enc. repeat case_match; auto. Qed.

(** A value fits the encodings at least as large as its own, and only those. *)
Lemma value_fits v e : in_s 64 v -> wf_enc e ->
  in_s (8 * e) v <-> _intsetValueEncoding v <= e.
Proof.
  unfold in_s, _intsetValueEncoding.
  intros Hv [->|[->| ->]]; simpl in *; repeat case_zb; simpl; lia.
Qed.

Lemma in_s_mono e e' x : wf_enc e -> wf_enc e' -> e <= e' -> in_s (8 * e) x -> in_s (8 * e') x.
Proof. unfold in_s. intros [->|[->| ->]] [->|[->| ->]] ? H; simpl in *; lia. Qed.

Lemma resize_spec undef s n : wf_enc (encoding s) -> 0 <= n < 2 ^ 32 ->
  intsetResize undef s n =
    Some (set_contents s (realloc undef (contents s) (n * encoding s))).
Proof.
  intros He Hn. unfold intsetResize.
  rewrite (wrap_id 64) by (unfold in_u; destruct He as [->|[->| ->]]; lia).
  assert ((n * encoding s <=? UINT64_MAX - sizeof_intset) = true) as ->; [|done].
  unfold UINT64_MAX, sizeof_intset. destruct He as [->|[->| ->]]; lia.
Qed.

Lemma upgrade_loop_spec c p xs : wf_enc c -> Forall (in_s (8 * c)) xs -> 0 <= p ->
  forall s R junk, wf_enc (encoding s) -> c <= encoding s ->
  contents s = enc_all (Z.to_nat c) xs ++ junk ++ R ->
  Z.of_nat (length junk) = (Z.of_nat (length xs) + p) * encoding s - Z.of_nat (length xs) * c ->
  exists junk', intsetUpgrade_loop (length xs) s p c =
      Some (set_contents s (junk' ++ enc_all (Z.to_nat (encoding s)) xs ++ R)) /\
    Z.of_nat (length junk') = p * encoding s.
Proof.
  intros Hc HF Hp. induction xs as [|x xs IH] using rev_ind; intros s R junk He Hle Hs Hj.
  { exists junk. split; [|simpl in Hj; lia]. simpl in Hs |- *. rewrite <- Hs. by destruct s. }
  apply Forall_app in HF as [HF Hx]. apply Forall_cons_1 in Hx as [Hx _].
  rewrite length_app in Hj |- *. simpl in Hj |- *. rewrite Nat.add_1_r. cbn [intsetUpgrade_loop].
  rewrite (getEncoded_at s c xs x [] (junk ++ R)); [|done|done|done|exact Hs].
  set (W := le_bytes (Z.to_nat c) x ++ junk).
  set (k := Z.to_nat ((Z.of_nat (length xs) + p) * encoding s - Z.of_nat (length xs) * c)).
  assert (0 < c) by (destruct Hc as [->|[->| ->]]; lia).
  assert (length W = (k + Z.to_nat (encoding s))%nat) as HW.
  { unfold W, k. rewrite length_app, length_le_bytes. nia. }
  cbn [mbind option_bind].
  rewrite (set_at s _ x (enc_all (Z.to_nat c) xs ++ take k W) (drop k W) R); [| done | | |].
  - cbn [mbind option_bind].
    destruct (IH HF (set_contents s ((enc_all (Z.to_nat c) xs ++ take k W) ++
        le_bytes (Z.to_nat (encoding s)) x ++ R))
        (le_bytes (Z.to_nat (encoding s)) x ++ R) (take k W)) as (junk' & -> & Hl);
      [done|done|by rewrite <- !app_assoc| rewrite length_take; simpl; nia |].
    exists junk'. split; [|done]. unfold set_contents; simpl.
    rewrite enc_all_app, enc_all_cons. simpl. by rewrite app_nil_r, <- !app_assoc.
  - rewrite <- app_assoc, (app_assoc (take k W)), take_drop, Hs, enc_all_app, enc_all_cons.
    unfold W. simpl. by rewrite app_nil_r, <- !app_assoc.
  - rewrite length_app, length_enc_all, length_take. nia.
  - rewrite length_drop. lia.
Qed.

Lemma sorted_insert a b v : StronglySorted Z.lt (a ++ b) ->
  Forall (fun x => x < v) a -> Forall (fun x => v < x) b -> StronglySorted Z.lt (a ++ v :: b).
Proof.
  rewrite !StronglySorted_app, StronglySorted_cons, !Forall_forall.
  intros (Hab & Ha & Hb) Hl Hr. split_and!; auto.
  intros x y Hx [->|Hy]%elem_of_cons; auto.
Qed.

Lemma sorted_delete a b v : StronglySorted Z.lt (a ++ v :: b) -> StronglySorted Z.lt (a ++ b).
Proof.
  rewrite !StronglySorted_app, StronglySorted_cons. intros (Hab & Ha & ? & Hb).
  split_and!; auto. intros x y Hx Hy. apply Hab; [done|]. by apply elem_of_cons; right.
Qed.

(** Resizing and re-encoding: the old elements keep their order, with one free
    slot of the new width before them ([p = 1]) or after them ([p = 0]). *)
Lemma upgrade_move undef s xs e p : repr s xs -> wf_enc e -> encoding s < e -> p = 0 \/ p = 1 ->
  Z.of_nat (length xs) + 1 < 2 ^ 31 ->
  exists s1 J R, intsetResize undef (set_encoding s e) (u32 (ilength s + 1)) = Some s1 /\
    intsetUpgrade_loop (length xs) s1 p (encoding s) =
      Some (mk_intset e (ilength s) (J ++ enc_all (Z.to_nat e) xs ++ R)) /\
    Z.of_nat (length J) = p * e /\ Z.of_nat (length R) = (1 - p) * e.
Proof.
  intros [He Hl Hc Hr Hs Hsm] He' Hlt Hp Hn.
  rewrite wrap_id by (unfold in_u; lia). rewrite resize_spec by (auto; simpl; lia).
  unfold set_encoding, set_contents; cbn [encoding ilength contents].
  destruct (realloc_grow undef (contents s) ((ilength s + 1) * e)) as (junk & -> & Hjl).
  { rewrite Hc, length_enc_all. destruct He as [E|[E|E]]; rewrite E in *; nia. }
  rewrite Hc, length_enc_all in Hjl.
  set (J := take (length junk - Z.to_nat ((1 - p) * e)) junk).
  set (R := drop (length junk - Z.to_nat ((1 - p) * e)) junk).
  assert (0 <= encoding s) by (destruct He as [->|[->| ->]]; lia).
  assert (Z.of_nat (length R) = (1 - p) * e) as HlR
    by (unfold R; rewrite length_drop; destruct Hp as [-> | ->]; nia).
  assert (Z.of_nat (length J) + Z.of_nat (length R) = Z.of_nat (length junk)) as HJR
    by (rewrite <- (take_drop (length junk - Z.to_nat ((1 - p) * e)) junk), length_app; unfold J, R; lia).
  edestruct (upgrade_loop_spec (encoding s) p xs He Hr ltac:(lia)
    (mk_intset e (ilength s) (contents s ++ junk)) R J) as (J' & HL & HJ'); cbn [encoding contents] in *.
  - done.
  - lia.
  - rewrite Hc. unfold J, R. by rewrite take_drop.
  - nia.
  - eexists _, J', R. split; [done|]. split; [exact HL|]. auto.
Qed.

Lemma free_slot l e : wf_enc e -> Z.of_nat (length (A:=Z) l) = 0 * e -> l = [].
Proof. intros _ H. apply length_zero_iff_nil. lia. Qed.

(** The upgrade path: the new value lies outside the old range, so it goes to an end. *)
Lemma upgrade_spec undef s xs v :
  repr s xs -> in_s 64 v -> Z.of_nat (length xs) + 1 < 2 ^ 31 ->
  encoding s < _intsetValueEncoding v ->
  exists s', intsetUpgradeAndAdd undef s v = Some s' /\
    repr s' (if v <? 0 then v :: xs else xs ++ [v]).
Proof.
  intros HR Hv Hn Hlt. pose proof HR as [He Hl Hc Hr Hs Hsm].
  set (e := _intsetValueEncoding v) in *. pose proof (wf_enc_value v : wf_enc e) as He'.
  assert (in_s (8 * e) v) as Hve by (apply value_fits; auto; unfold e; lia).
  assert (~ in_s (8 * encoding s) v) as Hout by (rewrite value_fits by auto; unfold e in *; lia).
  assert (Forall (in_s (8 * e)) xs) as Hr'.
  { eapply Forall_impl; [exact Hr|]. intros x. apply in_s_mono; auto; lia. }
  set (p := if v <? 0 then 1 else 0).
  destruct (upgrade_move undef s xs e p HR He' Hlt) as (s1 & J & R & E1 & E2 & HJ & HRl);
    [unfold p; case_zb; auto|done|].
  unfold intsetUpgradeAndAdd. fold e p. cbn [set_encoding ilength].
  rewrite (repr_u8 s xs HR), E1. cbn [mbind option_bind].
  rewrite Hl, swrap_id, Nat2Z.id, E2 by (unfold in_s; simpl; lia).
  cbn [mbind option_bind ilength]. rewrite Hl, (swrap_id 32) by (unfold in_s; simpl; lia).
  unfold p in *. destruct (Z.ltb_spec v 0); cbn [Z.eqb Pos.eqb].
  - rewrite (free_slot R e He' HRl), app_nil_r.
    rewrite (set_at _ _ v [] J (enc_all (Z.to_nat e) xs)); cbn [encoding contents length]; [|done|done|lia|lia].
    eexists. split; [done|]. split; cbn [encoding ilength contents length set_length set_contents]; try done.
    + rewrite wrap_id by (unfold in_u; lia). lia.
    + by constructor.
    + constructor; [done|]. eapply Forall_impl; [exact Hr|]. unfold in_s in *. simpl. intros. lia.
    + lia.
  - rewrite (free_slot J e He' HJ), app_nil_l.
    rewrite (set_at _ _ v (enc_all (Z.to_nat e) xs) R []); cbn [encoding contents length];
      [|done|by rewrite app_nil_r|rewrite length_enc_all; destruct He' as [->|[->| ->]]; lia|lia].
    eexists. split; [done|].
    split; cbn [encoding ilength contents set_length set_contents]; rewrite ?length_app; simpl length; try done.
    + rewrite wrap_id by (unfold in_u; simpl; lia). lia.
    + by rewrite enc_all_app, enc_all_cons.
    + apply Forall_app_2; [done|]. by constructor.
    + apply sorted_insert; rewrite ?app_nil_r; auto.
      eapply Forall_impl; [exact Hr|]. unfold in_s in *. simpl. intros. lia.
    + lia.
Qed.

Lemma moveTail_eq s from to : wf_enc (encoding s) ->
  0 <= from <= ilength s -> ilength s * encoding s < 2 ^ 32 ->
  intsetMoveTail s from to = set_contents s <$>
    memmove (contents s) (to * encoding s) (from * encoding s) ((ilength s - from) * encoding s).
Proof.
  intros He Hf Hb. unfold intsetMoveTail.
  assert ((if encoding s =? INTSET_ENC_INT64 then 8
           else if encoding s =? INTSET_ENC_INT32 then 4 else 2) = encoding s) as ->.
  { destruct He as [->|[->| ->]]; done. }
  assert (1 <= encoding s) by (destruct He as [E|[E|E]]; rewrite E; lia).
  rewrite (wrap_id 32 (ilength s - from)) by (unfold in_u; nia).
  rewrite wrap_id by (unfold in_u; nia). done.
Qed.

(** The in-place path: open a gap at the search position and store the value. *)
Lemma insert_spec undef s a b v : repr s (a ++ b) -> in_s (8 * encoding s) v ->
  Z.of_nat (length (a ++ b)) < 2 ^ 29 ->
  Forall (fun x => x < v) a -> Forall (fun x => v < x) b ->
  exists s', (s1 ← intsetResize undef s (u32 (ilength s + 1));
              s2 ← (if Z.of_nat (length a) <? ilength s1
                    then intsetMoveTail s1 (Z.of_nat (length a)) (u32 (Z.of_nat (length a) + 1))
                    else Some s1);
              s3 ← _intsetSet s2 (s32 (Z.of_nat (length a))) v;
              Some (set_length s3 (u32 (ilength s3 + 1)), 1)) = Some (s', 1) /\
    repr s' (a ++ v :: b).
Proof.
  intros [He Hl Hc Hr Hs _] Hv Hn Ha Hb. rewrite length_app in Hl, Hn.
  set (e := encoding s) in *. assert (0 < e <= 8) by (destruct He as [E|[E|E]]; rewrite E; lia).
  rewrite !(wrap_id 32) by (unfold in_u; lia). rewrite swrap_id by (unfold in_s; simpl; lia).
  rewrite resize_spec by (auto; lia). fold e.
  destruct (realloc_grow undef (contents s) ((ilength s + 1) * e)) as (junk & -> & Hj).
  { rewrite Hc, length_enc_all, length_app. nia. }
  rewrite Hc, length_enc_all, length_app in Hj.
  cbn [mbind option_bind set_contents ilength].
  assert (exists J, (if Z.of_nat (length a) <? ilength s
      then intsetMoveTail (mk_intset e (ilength s) (contents s ++ junk)) (Z.of_nat (length a)) (Z.of_nat (length a) + 1)
      else Some (mk_intset e (ilength s) (contents s ++ junk))) =
      Some (mk_intset e (ilength s) (enc_all (Z.to_nat e) a ++ J ++ enc_all (Z.to_nat e) b)) /\
      Z.of_nat (length J) = e) as (J & HJ & HJl).
  { rewrite Hc, enc_all_app, <- app_assoc. fold e. case_zb.
    - rewrite moveTail_eq by (cbn [encoding ilength]; auto; nia).
      cbn [encoding ilength contents].
      destruct (memmove_right (enc_all (Z.to_nat e) a) (enc_all (Z.to_nat e) b) junk
        ((Z.of_nat (length a) + 1) * e) (Z.of_nat (length a) * e) ((ilength s - Z.of_nat (length a)) * e))
        as (J & -> & HJl); rewrite ?length_enc_all; try nia.
      exists J. split; [done|nia].
    - assert (b = []) as -> by (apply length_zero_iff_nil; lia). exists junk.
      cbn [enc_all mbind list_bind]. rewrite app_nil_r. split; [done|nia]. }
  unfold set_contents in HJ |- *. fold e. rewrite HJ. cbn [mbind option_bind].
  rewrite (set_at _ _ v (enc_all (Z.to_nat e) a) J (enc_all (Z.to_nat e) b)); cbn [encoding contents];
    [|done|done|rewrite length_enc_all; nia|done].
  eexists. split; [done|]. unfold set_length, set_contents.
  split; cbn [encoding ilength contents]; rewrite ?length_app; cbn [length]; auto.
  - rewrite wrap_id by (unfold in_u; lia). lia.
  - by rewrite enc_all_app, enc_all_cons.
  - apply Forall_app in Hr as [??]. apply Forall_app_2; [done|]. by constructor.
  - by apply sorted_insert.
  - lia.
Qed.

(** ** The set an intset stands for *)

Definition models (s : intset) (X : gset Z) : Prop :=
  exists xs, repr s xs /\ X = list_to_set xs.

Lemma repr_NoDup s xs : repr s xs -> NoDup xs.
Proof.
  intros HR. apply NoDup_alt. intros i j x Hi Hj.
  destruct (decide (i = j)); [done|].
  assert (i < j \/ j < i)%nat as [H|H] by lia;
    eapply (sorted_lookup s xs HR) in H; eauto; lia.
Qed.

Lemma repr_size s xs : repr s xs -> size (list_to_set xs : gset Z) = length xs.
Proof. intros HR. apply size_list_to_set. eapply repr_NoDup, HR. Qed.

Lemma add_spec undef s xs v : repr s xs -> in_s 64 v -> Z.of_nat (length xs) < 2 ^ 29 ->
  exists s' ys, intsetAdd undef s v = Some (s', b2z (bool_decide (v ∉ xs))) /\
    repr s' ys /\ (list_to_set ys : gset Z) = {[v]} ∪ list_to_set xs.
Proof.
  intros HR Hv Hn. unfold intsetAdd. rewrite Z.gtb_ltb.
  destruct (Z.ltb_spec (encoding s) (_intsetValueEncoding v)) as [Hlt|Hge].
  - destruct (upgrade_spec undef s xs v HR Hv ltac:(lia) Hlt) as (s' & -> & HR').
    assert (v ∉ xs) as Hni.
    { intros Hin. pose proof (repr_range _ _ HR) as Hr. rewrite Forall_forall in Hr.
      apply Hr, value_fits in Hin; [lia|done|apply HR]. }
    rewrite bool_decide_eq_true_2 by done. do 2 eexists. split_and!; [done|done|].
    case_zb; set_solver.
  - destruct (search_spec s xs v HR) as (found & pos & -> & Hres). cbn [mbind option_bind].
    pose proof (search_result_elem _ _ _ _ Hres) as Hel.
    destruct Hres as (a & b & -> & -> & Ha & [(-> & b' & ->)|(-> & Hb)]).
    + cbn [Z.eqb Pos.eqb]. assert (v ∈ a ++ v :: b') by set_solver.
      rewrite bool_decide_eq_false_2 by (intros []; done).
      do 2 eexists. split_and!; [done|exact HR|set_solver].
    + cbn [Z.eqb]. rewrite bool_decide_eq_true_2; [|intros ?; rewrite bool_decide_eq_true_2 in Hel; done].
      destruct (insert_spec undef s a b v HR) as (s' & E & HR'); auto.
      { apply value_fits; auto. apply HR. }
      do 2 eexists. split_and!; [exact E|exact HR'|set_solver].
Qed.

(** Shifting the tail of a removal down by one element; what lies behind is left over. *)
Lemma remove_move s a v b' : wf_enc (encoding s) -> ilength s = Z.of_nat (length (a ++ v :: b')) ->
  contents s = enc_all (Z.to_nat (encoding s)) (a ++ v :: b') -> ilength s <= 2 ^ 29 - 1 ->
  exists J, (if Z.of_nat (length a) <? ilength s - 1
      then intsetMoveTail s (Z.of_nat (length a) + 1) (Z.of_nat (length a)) else Some s) =
      Some (set_contents s (enc_all (Z.to_nat (encoding s)) (a ++ b') ++ J)) /\ Z.of_nat (length J) = encoding s.
Proof.
  intros He Hl Hc Hn. rewrite length_app in Hl. cbn [length] in Hl.
  set (e := encoding s) in *. assert (0 < e <= 8) by (destruct He as [E|[E|E]]; rewrite E; lia).
  rewrite !enc_all_app, enc_all_cons in Hc. case_zb.
  - rewrite moveTail_eq by (fold e; auto; nia). fold e. rewrite Hc, enc_all_app.
    destruct (memmove_left (enc_all (Z.to_nat e) a) (enc_all (Z.to_nat e) b') (le_bytes (Z.to_nat e) v)
      (Z.of_nat (length a) * e) ((Z.of_nat (length a) + 1) * e) ((ilength s - (Z.of_nat (length a) + 1)) * e))
      as (J & -> & HJl); rewrite ?length_enc_all, ?length_le_bytes; try nia.
    exists J. rewrite <- app_assoc. split; [done|]. rewrite HJl, length_le_bytes. lia.
  - assert (b' = []) as -> by (apply length_zero_iff_nil; lia).
    exists (le_bytes (Z.to_nat e) v). rewrite app_nil_r. cbn [enc_all mbind list_bind] in Hc.
    rewrite app_nil_r in Hc. rewrite <- Hc, length_le_bytes. split; [by destruct s|lia].
Qed.

Lemma remove_spec undef s xs v : repr s xs -> in_s 64 v -> Z.of_nat (length xs) <= 2 ^ 29 - 1 ->
  exists s' ys, intsetRemove undef s v = Some (s', b2z (bool_decide (v ∈ xs))) /\
    repr s' ys /\ (list_to_set ys : gset Z) = list_to_set xs ∖ {[v]}.
Proof.
  intros HR Hv Hn. unfold intsetRemove.
  destruct (Z.leb_spec (_intsetValueEncoding v) (encoding s)) as [Hle|Hgt].
  2:{ assert (v ∉ xs).
      { intros Hin. pose proof (repr_range _ _ HR) as Hr. rewrite Forall_forall in Hr.
        apply Hr, value_fits in Hin; [lia|done|apply HR]. }
      rewrite bool_decide_eq_false_2 by done. exists s, xs. split_and!; [done|done|set_solver]. }
  destruct (search_spec s xs v HR) as (found & pos & -> & Hres). cbn [mbind option_bind].
  rewrite <- (search_result_elem _ _ _ _ Hres).
  destruct (decide (found = 0)) as [->|Hf].
  { assert (v ∉ xs) by (intros ?; apply search_result_elem in Hres; rewrite bool_decide_eq_true_2 in Hres; done).
    exists s, xs. split_and!; [done|done|set_solver]. }
  destruct Hres as (a & b & -> & -> & Ha & [(-> & b' & ->)|(-> & Hb)]); [|done]. clear Hf.
  pose proof (repr_NoDup _ _ HR) as HND.
  destruct HR as [He Hl Hc Hr Hs _]. rewrite length_app in Hl, Hn. cbn [length] in Hl, Hn.
  set (e := encoding s) in *. assert (0 < e <= 8) by (destruct He as [E|[E|E]]; rewrite E; lia).
  rewrite !(wrap_id 32) by (unfold in_u; lia). cbn [Z.eqb Pos.eqb].
  destruct (remove_move s a v b' He) as (J & -> & HJl); [by rewrite length_app|done|lia|]. fold e in HJl |- *.
  cbn [mbind option_bind]. rewrite resize_spec by (auto; cbn; lia). cbn [mbind option_bind].
  do 2 eexists. split_and!; [done| |].
  - unfold set_length, set_contents; cbn [encoding ilength contents]. fold e.
    rewrite realloc_shrink by (rewrite length_app, length_enc_all, length_app; nia).
    instantiate (1 := a ++ b'). split; cbn [encoding ilength contents]; rewrite ?length_app; auto.
    + lia.
    + rewrite take_app_length'; [done|]. rewrite length_enc_all, length_app. nia.
    + apply Forall_app in Hr as [? [??]%Forall_cons_1]. by apply Forall_app_2.
    + by eapply sorted_delete.
    + lia.
  - apply NoDup_app in HND as (? & Hd & [Hv' ?]%NoDup_cons).
    specialize (Hd v). set_solver.
Qed.

(** ** Integrity check *)

Lemma bytes_swrap n bs : Forall byteZ bs -> length bs = n -> (0 < n)%nat ->
  le_bytes n (swrap (8 * Z.of_nat n) (le_val bs)) = bs.
Proof.
  intros Hb Hl Hn. rewrite <- le_bytes_mod, pow256 by lia.
  change (_ mod 2 ^ (8 * Z.of_nat n)) with (wrap (8 * Z.of_nat n) (swrap (8 * Z.of_nat n) (le_val bs))).
  rewrite wrap_swrap by lia. unfold wrap. rewrite <- pow256, le_bytes_mod by lia.
  rewrite <- Hl. by apply le_bytes_val.
Qed.

(** Every block of the right size lays out some list of integers. *)
Lemma layout_exists e n c : wf_enc e -> Forall byteZ c -> length c = (n * Z.to_nat e)%nat ->
  exists xs, length xs = n /\ c = enc_all (Z.to_nat e) xs /\ Forall (in_s (8 * e)) xs.
Proof.
  intros He. assert (0 < e) by (destruct He as [->|[->| ->]]; lia).
  revert c. induction n as [|n IH]; intros c Hb Hl.
  { exists []. split_and!; [done| |constructor]. by apply length_zero_iff_nil. }
  rewrite <- (take_drop (Z.to_nat e) c) in Hb. apply Forall_app in Hb as [Hb1 Hb2].
  destruct (IH (drop (Z.to_nat e) c)) as (xs & Hx & Hc & Hr); [done|rewrite length_drop; lia|].
  exists (swrap (8 * e) (le_val (take (Z.to_nat e) c)) :: xs). split_and!.
  - by rewrite <- Hx.
  - rewrite enc_all_cons, <- Hc. rewrite <- (take_drop (Z.to_nat e) c) at 1. f_equal.
    replace e with (Z.of_nat (Z.to_nat e)) at 3 by lia.
    rewrite bytes_swrap; [done|done|rewrite length_take; lia|lia].
  - constructor; [|done]. apply swrap_range. lia.
Qed.

Lemma validate_loop_spec s xs : wf_enc (encoding s) ->
  contents s = enc_all (Z.to_nat (encoding s)) xs -> Forall (in_s (8 * encoding s)) xs ->
  Z.of_nat (length xs) < 2 ^ 31 -> forall n a prev b, xs = a ++ prev :: b -> length b = n ->
  exists r, intsetValidate_loop n s (Z.of_nat (S (length a))) prev = Some (b2z r) /\
    (r = true <-> StronglySorted Z.lt (prev :: b)).
Proof.
  intros He Hc Hr Hn. induction n as [|n IH]; intros a prev b Hxs Hlb.
  { apply length_zero_iff_nil in Hlb as ->. exists true. split; [done|]. split; [|done].
    intros _. repeat constructor. }
  destruct b as [|c b]; [done|]. cbn [intsetValidate_loop].
  assert (S (length a) < length xs)%nat by (rewrite Hxs, length_app; simpl; lia).
  rewrite swrap_id by (unfold in_s; simpl; lia).
  erewrite (get_layout s xs (S (length a)) c) by (auto; rewrite Hxs, lookup_app_r by lia;
    by replace (S (length a) - length a)%nat with 1%nat by lia).
  cbn [mbind option_bind]. destruct (Z.leb_spec c prev).
  { exists false. split; [done|]. split; [done|]. intros [_ Hf]%StronglySorted_inv.
    apply Forall_cons_1 in Hf as [??]. lia. }
  destruct (IH (a ++ [prev]) c b) as (r & E & Hiff); [by rewrite <- app_assoc|by inversion Hlb|].
  rewrite length_app, Nat.add_1_r in E.
  replace (Z.of_nat (S (length a)) + 1) with (Z.of_nat (S (S (length a)))) by lia.
  exists r. split; [done|]. rewrite Hiff. split.
  - intros HS. constructor; [done|]. constructor; [done|].
    apply StronglySorted_inv in HS as [_ HF]. eapply Forall_impl; [exact HF|]. simpl. lia.
  - by intros [? _]%StronglySorted_inv.
Qed.

Lemma of_blob_blob s : in_u 32 (encoding s) -> in_u 32 (ilength s) -> of_blob (blob s) = Some s.
Proof.
  intros He Hl. unfold of_blob, blob.
  pose proof (slice_app [] (le_bytes 4 (encoding s)) (le_bytes 4 (ilength s) ++ contents s) 0 4
    eq_refl ltac:(by rewrite length_le_bytes)) as E. rewrite app_nil_l in E. rewrite E.
  rewrite (slice_app (le_bytes 4 (encoding s)) (le_bytes 4 (ilength s)) _ 4 4) by (by rewrite length_le_bytes).
  cbn [mbind option_bind]. rewrite !le_val_bytes. change (256 ^ Z.of_nat 4) with (2 ^ 32).
  rewrite !Z.mod_small by done. rewrite app_assoc, drop_app_length'; [by destruct s|].
  by rewrite length_app, !length_le_bytes.
Qed.

Lemma blob_of_blob p s : Forall byteZ p -> of_blob p = Some s ->
  p = blob s /\ in_u 32 (encoding s) /\ in_u 32 (ilength s) /\ Forall byteZ (contents s).
Proof.
  unfold of_blob, slice. intros Hb H. repeat case_match; simplify_eq/=.
  assert (8 <= length p)%nat by lia.
  assert (forall k, Forall byteZ (take 4 (drop k p))) as Hbk
    by (intros; by apply Forall_take, Forall_drop).
  assert (forall k, (k <= 4)%nat -> length (take 4 (drop k p)) = 4%nat) as Hlk
    by (intros; rewrite length_take, length_drop; lia).
  split_and!.
  - unfold blob; simpl encoding; simpl ilength; simpl contents.
    pose proof (le_bytes_val _ (Hbk 0%nat)) as E0. pose proof (le_bytes_val _ (Hbk 4%nat)) as E4.
    rewrite Hlk in E0, E4 by lia. simpl drop at 1 in E0.
    change (Z.to_nat 0) with 0%nat. change (Z.to_nat 4) with 4%nat. rewrite E4.
    change (drop 0 p) with p in *. rewrite E0.
    change (drop 8 p) with (drop (4 + 4) p). rewrite <- drop_drop. by rewrite !take_drop.
  - pose proof (le_val_range _ (Hbk 0%nat)) as R. by rewrite Hlk in R by lia.
  - pose proof (le_val_range _ (Hbk 4%nat)) as R. by rewrite Hlk in R by lia.
  - by apply Forall_drop.
Qed.

(** ** Theorems *)

(** [intsetSearch] on a well-formed intset always returns: it reports 1
    with the index of the value when the value is stored, and otherwise 0 with
    the index at which inserting the value keeps the set sorted (the number of
    smaller elements, every element from there on being larger). *)
Theorem intsetSearch_correct s xs v : repr s xs ->
  exists found pos, intsetSearch s v = Some (found, pos) /\
    ((found = 1 /\ v ∈ xs /\ xs !! Z.to_nat pos = Some v) \/
     (found = 0 /\ v ∉ xs /\ 0 <= pos <= Z.of_nat (length xs) /\
      Forall (fun x => x < v) (take (Z.to_nat pos) xs) /\
      Forall (fun x => v < x) (drop (Z.to_nat pos) xs))).
Proof.
  intros HR. destruct (search_spec s xs v HR) as (found & pos & E & Hres).
  exists found, pos. split; [done|]. pose proof (search_result_elem _ _ _ _ Hres) as Hel.
  destruct Hres as (a & b & -> & -> & Ha & [(-> & b' & ->)|(-> & Hb)]); rewrite Nat2Z.id.
  - left. split_and!; [done|set_solver|by apply list_lookup_middle].
  - right. rewrite length_app, take_app_length, drop_app_length. split_and!; auto; try lia.
    intros ?. by rewrite bool_decide_eq_true_2 in Hel.
Qed.

(** [intsetAdd] implements set insertion for every 64-bit value, upgrading
    the encoding when the value needs more bytes: it never accesses memory
    outside the block, reports whether the value was new, and leaves a
    well-formed intset of exactly the old elements and the value. *)
Theorem intsetAdd_correct undef s X v :
  models s X -> in_s 64 v -> Z.of_nat (size X) < 2 ^ 29 ->
  exists s', intsetAdd undef s v = Some (s', b2z (bool_decide (v ∉ X))) /\
    models s' ({[v]} ∪ X).
Proof.
  intros (xs & HR & ->) Hv Hn. rewrite (repr_size s) in Hn by done.
  destruct (add_spec undef s xs v HR Hv Hn) as (s' & ys & E & HR' & <-).
  exists s'. split; [|by exists ys]. rewrite E. do 3 f_equal.
  apply bool_decide_ext. by rewrite elem_of_list_to_set.
Qed.

(** [intsetRemove] implements set removal: it reports whether the value
    was stored, and leaves a well-formed intset of the other elements. *)
Theorem intsetRemove_correct undef s X v :
  models s X -> in_s 64 v -> Z.of_nat (size X) < 2 ^ 29 ->
  exists s', intsetRemove undef s v = Some (s', b2z (bool_decide (v ∈ X))) /\
    models s' (X ∖ {[v]}).
Proof.
  intros (xs & HR & ->) Hv Hn. rewrite (repr_size s) in Hn by done.
  destruct (remove_spec undef s xs v HR Hv ltac:(lia)) as (s' & ys & E & HR' & <-).
  exists s'. split; [|by exists ys]. rewrite E. do 3 f_equal.
  apply bool_decide_ext. by rewrite elem_of_list_to_set.
Qed.

(** [intsetFind] decides membership, also for values that do not fit the
    current encoding. *)
Lemma intsetFind_correct s X v : models s X -> in_s 64 v ->
  intsetFind s v = Some (b2z (bool_decide (v ∈ X))).
Proof.
  intros (xs & HR & ->) Hv. unfold intsetFind. case_zb.
  - destruct (search_spec s xs v HR) as (found & pos & -> & Hres). simpl.
    apply search_result_elem in Hres as ->. do 2 f_equal.
    apply bool_decide_ext. by rewrite elem_of_list_to_set.
  - rewrite bool_decide_eq_false_2; [done|]. rewrite elem_of_list_to_set. intros Hin.
    pose proof (repr_range _ _ HR) as Hr. rewrite Forall_forall in Hr.
    apply Hr, value_fits in Hin; [lia|done|apply HR].
Qed.

(** Clients' view: an operation sequence on a fresh intset and on a finite set. *)
Inductive intset_op := OpAdd (v : Z) | OpRemove (v : Z) | OpFind (v : Z).
Definition op_value (o : intset_op) : Z := match o with OpAdd v | OpRemove v | OpFind v => v end.

Fixpoint run_ops (undef : nat -> Z) (ops : list intset_op) (s : intset) : option (intset * list Z) :=
  match ops with
  | [] => Some (s, [])
  | o :: ops =>
    '(s, r) ← match o with
            | OpAdd v => intsetAdd undef s v
            | OpRemove v => intsetRemove undef s v
            | OpFind v => r ← intsetFind s v; Some (s, r)
            end;
    '(s, rs) ← run_ops undef ops s; Some (s, r :: rs)
  end.

Fixpoint run_spec (ops : list intset_op) (X : gset Z) : gset Z * list Z :=
  match ops with
  | [] => (X, [])
  | OpAdd v :: ops => let '(Y, rs) := run_spec ops ({[v]} ∪ X) in (Y, b2z (bool_decide (v ∉ X)) :: rs)
  | OpRemove v :: ops => let '(Y, rs) := run_spec ops (X ∖ {[v]}) in (Y, b2z (bool_decide (v ∈ X)) :: rs)
  | OpFind v :: ops => let '(Y, rs) := run_spec ops X in (Y, b2z (bool_decide (v ∈ X)) :: rs)
  end.

Lemma run_ops_spec undef ops : Forall (fun o => in_s 64 (op_value o)) ops ->
  forall s xs, repr s xs -> Z.of_nat (length xs) + Z.of_nat (length ops) < 2 ^ 29 ->
  exists s' ys, run_ops undef ops s = Some (s', (run_spec ops (list_to_set xs)).2) /\
    repr s' ys /\ list_to_set ys = (run_spec ops (list_to_set xs)).1.
Proof.
  induction 1 as [|o ops Ho _ IH]; intros s xs HR Hn.
  { exists s, xs. done. }
  cbn [length] in Hn. destruct o as [v|v|v]; simpl in Ho; cbn [run_ops run_spec].
  - destruct (add_spec undef s xs v HR Ho ltac:(lia)) as (s1 & zs & -> & HR1 & Ez).
    assert (size (list_to_set zs : gset Z) <= S (length xs))%nat as Hsz.
    { rewrite Ez, <- (repr_size s xs HR), size_union_alt, size_singleton.
      pose proof (subseteq_size (list_to_set xs ∖ {[v]} : gset Z) (list_to_set xs)). set_solver by lia. }
    rewrite (repr_size s1 zs HR1) in Hsz.
    destruct (IH s1 zs HR1 ltac:(lia)) as (s' & ys & E & HR' & E'). rewrite Ez in E, E'.
    exists s', ys. cbn [mbind option_bind]. rewrite E. cbn [mbind option_bind].
    destruct (run_spec ops ({[v]} ∪ list_to_set xs)). split_and!; [|done|done].
    simpl. do 3 f_equal. f_equal. apply bool_decide_ext. by rewrite elem_of_list_to_set.
  - destruct (remove_spec undef s xs v HR Ho ltac:(lia)) as (s1 & zs & -> & HR1 & Ez).
    assert (size (list_to_set zs : gset Z) <= length xs)%nat as Hsz.
    { rewrite Ez, <- (repr_size s xs HR). apply subseteq_size. set_solver. }
    rewrite (repr_size s1 zs HR1) in Hsz.
    destruct (IH s1 zs HR1 ltac:(lia)) as (s' & ys & E & HR' & E'). rewrite Ez in E, E'.
    exists s', ys. cbn [mbind option_bind]. rewrite E. cbn [mbind option_bind].
    destruct (run_spec ops (list_to_set xs ∖ {[v]})). split_and!; [|done|done].
    simpl. do 3 f_equal. f_equal. apply bool_decide_ext. by rewrite elem_of_list_to_set.
  - rewrite (intsetFind_correct s (list_to_set xs)) by (done || by exists xs). cbn [mbind option_bind].
    destruct (IH s xs HR ltac:(lia)) as (s' & ys & -> & HR' & E'). exists s', ys.
    cbn [mbind option_bind]. by destruct (run_spec ops (list_to_set xs)).
Qed.

Lemma repr_new : repr intsetNew [].
Proof. split; simpl; try done; try (by left); constructor. Qed.

(** C13. Functional refinement: every sequence of fewer than 2^29 additions, removals and
    membership tests of 64-bit integers (so that the byte counts, which the code keeps in 32 bits, cannot
    overflow), run from [intsetNew], returns exactly the results a mathematical finite set
    gives, and ends in an intset that models that set. *)
Theorem intset_refines_set undef ops :
  Forall (fun o => in_s 64 (op_value o)) ops -> Z.of_nat (length ops) < 2 ^ 29 ->
  exists s, run_ops undef ops intsetNew = Some (s, (run_spec ops ∅).2) /\
    models s (run_spec ops ∅).1.
Proof.
  intros HF Hn. destruct (run_ops_spec undef ops HF _ _ repr_new Hn) as (s & ys & E & HR & E').
  exists s. split; [exact E|]. by exists ys.
Qed.

(** The deep check of a block whose encoding and size are right. *)
Lemma validate_deep s : wf_enc (encoding s) -> Forall byteZ (contents s) ->
  0 < ilength s < 2 ^ 31 -> Z.of_nat (length (contents s)) = ilength s * encoding s ->
  exists r, (prev ← _intsetGet s 0; intsetValidate_loop (Z.to_nat (ilength s - 1)) s 1 prev) =
      Some (b2z r) /\ (r = true <-> exists xs, repr s xs /\ xs <> []).
Proof.
  intros He Hb Hl Hc. assert (0 < encoding s) by (destruct He as [->|[->| ->]]; lia).
  destruct (layout_exists (encoding s) (Z.to_nat (ilength s)) (contents s)) as (xs & Hx & Hxc & Hr);
    [done|done|nia|].
  destruct xs as [|x xs]; [simpl in Hx; lia|]. cbn [length] in Hx.
  rewrite (get_layout s (x :: xs) 0 x He Hxc Hr eq_refl : _intsetGet s 0 = Some x). cbn [mbind option_bind].
  destruct (validate_loop_spec s (x :: xs) He Hxc Hr ltac:(cbn [length]; lia)
    (Z.to_nat (ilength s - 1)) [] x xs eq_refl ltac:(lia)) as (r & E & Hiff).
  exists r. split; [exact E|]. rewrite Hiff. split.
  - intros HS. exists (x :: xs). split; [|done]. split; auto; cbn [length]; lia.
  - intros (ys & HR & _). assert (ys = x :: xs) as ->; [|apply HR].
    apply list_eq. intros i. destruct (decide (i < S (length xs))%nat) as [Hi|Hi].
    + destruct (lookup_lt_is_Some_2 (x :: xs) i) as [z Hz]; [done|].
      destruct (lookup_lt_is_Some_2 ys i) as [y Hy]; [pose proof (repr_len _ _ HR); lia|].
      pose proof (get_lookup s ys HR _ _ Hy) as G. erewrite get_layout in G by eauto. congruence.
    + rewrite !lookup_ge_None_2; [done| |]; [cbn [length]|pose proof (repr_len _ _ HR)]; lia.
Qed.

(** The deep integrity check of a block of bytes never reads outside it,
    and accepts exactly the blocks that are a non-empty well-formed intset
    (known encoding, exact size, strictly increasing elements). *)
Theorem intsetValidateIntegrity_correct p :
  Forall byteZ p -> Z.of_nat (length p) < 2 ^ 31 ->
  exists r, intsetValidateIntegrity p true = Some (b2z r) /\
    (r = true <-> exists s xs, p = blob s /\ repr s xs /\ xs <> []).
Proof.
  intros Hb Hn. unfold intsetValidateIntegrity.
  assert (forall s, length (blob s) = (8 + length (contents s))%nat) as Hbl
    by (intros s; unfold blob; rewrite !length_app, !length_le_bytes; lia).
  destruct (Z.ltb_spec (Z.of_nat (length p)) sizeof_intset) as [Hs|Hs]; unfold sizeof_intset in *.
  { exists false. split; [done|]. split; [done|]. intros (s & xs & -> & _). rewrite Hbl in Hs. lia. }
  destruct (of_blob p) as [s|] eqn:E; [|unfold of_blob, slice in E; revert E; zb; done].
  destruct (blob_of_blob p s Hb E) as (-> & Heu & Hlu & Hbc). rewrite Hbl in *.
  assert (forall P : Prop, (exists s' xs, blob s = blob s' /\ repr s' xs /\ xs <> []) ->
    (wf_enc (encoding s) -> 8 + ilength s * encoding s = Z.of_nat (8 + length (contents s)) ->
     ilength s <> 0 -> (exists xs, repr s xs /\ xs <> []) -> P) -> P) as Hrev.
  { intros P (s' & xs & Eb & HR & Hne) K. assert (s' = s) as ->.
    { rewrite Eb, of_blob_blob in E; [congruence|..]; unfold in_u.
      - destruct (repr_enc _ _ HR) as [->|[->| ->]]; lia.
      - rewrite (repr_len _ _ HR). pose proof (repr_small _ _ HR). lia. }
    apply K; [apply HR| |rewrite (repr_len _ _ HR); destruct xs; simpl; [done|lia]|eauto].
    rewrite (repr_contents _ _ HR), length_enc_all, (repr_len _ _ HR).
    destruct (repr_enc _ _ HR) as [->|[->| ->]]; lia. }
  cbn [mbind option_bind].
  assert (forall R, R = encoding s -> wf_enc (encoding s) ->
    exists r, (if negb (8 + ilength s * R =? Z.of_nat (8 + length (contents s))) then Some 0 else
      if ilength s =? 0 then Some 0 else if negb true then Some 1 else
      prev ← _intsetGet s 0; intsetValidate_loop (Z.to_nat (ilength s - 1)) s 1 prev) = Some (b2z r) /\
    (r = true <-> exists s' xs, blob s = blob s' /\ repr s' xs /\ xs <> [])) as Hcheck.
  { intros R -> He. assert (0 < encoding s) by (destruct He as [->|[->| ->]]; lia).
    destruct (Z.eqb_spec (8 + ilength s * encoding s) (Z.of_nat (8 + length (contents s)))); cbn [negb];
      [|exists false; split; [done|]; split; [done|]; intros H'; by apply (Hrev _ H')].
    destruct (Z.eqb_spec (ilength s) 0);
      [exists false; split; [done|]; split; [done|]; intros H'; by apply (Hrev _ H')|].
    unfold in_u in Hlu.
    destruct (validate_deep s He Hbc) as (r & Er & Hiff); [nia|lia|].
    exists r. split; [exact Er|]. rewrite Hiff. split.
    - intros (xs & ? & ?). by exists s, xs.
    - intros H'. by apply (Hrev _ H'). }
  destruct (Z.eqb_spec (encoding s) 8); [apply Hcheck; unfold wf_enc; lia|].
  destruct (Z.eqb_spec (encoding s) 4); [apply Hcheck; unfold wf_enc; lia|].
  destruct (Z.eqb_spec (encoding s) 2); [apply Hcheck; unfold wf_enc; lia|].
  exists false. split; [done|]. split; [done|]. intros H'. apply (Hrev _ H'). unfold wf_enc. lia.
Qed.

Lemma memmove_0 b dst src : 0 <= dst <= Z.of_nat (length b) -> 0 <= src <= Z.of_nat (length b) ->
  memmove b dst src 0 = Some b.
Proof.
  intros Hd Hs. unfold memmove.
  pose proof (slice_app (take (Z.to_nat src) b) [] (drop (Z.to_nat src) b) src 0) as E1.
  pose proof (blit_app (take (Z.to_nat dst) b) [] [] (drop (Z.to_nat dst) b) dst) as E2.
  rewrite app_nil_l, take_drop, length_take in E1, E2.
  rewrite E1 by (done || lia). cbn [mbind option_bind]. by rewrite E2 by (done || lia).
Qed.

(** C37. [intsetMoveTail] computes the byte count in a [uint32_t].  In an intset of
    2^29+1 eight-byte elements, removing the smallest element has to move 2^32
    bytes: the count wraps to zero, nothing is moved, and [intsetRemove] reports
    success but drops the greatest element and keeps the one it was asked to remove. *)
Theorem intsetRemove_wraps undef s v ys : repr s (v :: ys) -> encoding s = INTSET_ENC_INT64 ->
  Z.of_nat (length ys) = 2 ^ 29 ->
  exists s', intsetRemove undef s v = Some (s', 1) /\ repr s' (take (Z.to_nat (2 ^ 29)) (v :: ys)) /\
    v ∈ take (Z.to_nat (2 ^ 29)) (v :: ys).
Proof.
  intros HR He Hn. assert (Z.of_nat (Z.to_nat (2 ^ 29)) = 2 ^ 29) as En by lia.
  generalize dependent (Z.to_nat (2 ^ 29)). intros n En. assert (in_s 64 v) as Hv.
  { pose proof (repr_range _ _ HR) as Hr. rewrite He in Hr. by apply Forall_cons in Hr as [? _]. }
  unfold intsetRemove. destruct (search_spec s _ v HR) as (found & pos & -> & (a & b & E & -> & Ha & Hf)).
  destruct a as [|x a].
  2:{ simpl in E. injection E as -> _. apply Forall_cons in Ha as [? _]. lia. }
  destruct Hf as [[-> _]|[_ Hb]]; [|simpl in E; subst b; apply Forall_cons in Hb as [? _]; lia].
  assert (_intsetValueEncoding v <= 8) by (unfold _intsetValueEncoding; repeat case_match; lia).
  rewrite He. change INTSET_ENC_INT64 with 8. zb. cbn [mbind option_bind Z.eqb Pos.eqb length].
  pose proof (repr_len _ _ HR) as Hl. pose proof (repr_contents _ _ HR) as Hc. rewrite He in Hc.
  assert (length (contents s) = (8 * S (length ys))%nat) as HL by (rewrite Hc, length_enc_all; cbn [length]; change (Z.to_nat INTSET_ENC_INT64) with 8%nat; lia).
  cbn [length] in Hl. replace (ilength s) with (2 ^ 29 + 1) by lia.
  change (Z.of_nat 0) with 0. cbn [u32]. change (u32 (2 ^ 29 + 1 - 1)) with (2 ^ 29). change (u32 (0 + 1)) with 1.
  change (0 <? 2 ^ 29) with true. cbv iota.
  unfold intsetMoveTail. rewrite He. replace (ilength s) with (2 ^ 29 + 1) by lia.
  change (INTSET_ENC_INT64 =? INTSET_ENC_INT64) with true. cbv iota.
  change (u32 (u32 (2 ^ 29 + 1 - 1) * 8)) with 0. rewrite memmove_0 by lia. cbn [fmap option_fmap option_map mbind option_bind].
  replace (set_contents s (contents s)) with s by (by destruct s).
  rewrite resize_spec by (apply HR || lia). cbn [mbind option_bind].
  eexists. split; [done|]. destruct HR as [R1 R2 R3 R4 R5 R6].
  split; [|destruct n; [lia|left]].
  rewrite He. change INTSET_ENC_INT64 with 8. unfold set_length, set_contents. rewrite realloc_shrink by lia.
  assert ((n <= length (v :: ys))%nat) by (cbn [length]; lia).
  split; cbn [encoding ilength contents]; auto.
  - rewrite length_take. lia.
  - rewrite R3, He. change (Z.to_nat INTSET_ENC_INT64) with 8%nat.
    replace (Z.to_nat (2 ^ 29 * 8)) with (8 * n)%nat by lia.
    rewrite <- (take_drop n (v :: ys)) at 1. rewrite enc_all_app, take_app_length'; [done|].
    rewrite length_enc_all, length_take. lia.
  - by apply Forall_take.
  - rewrite <- (take_drop n (v :: ys)) in R5. by apply StronglySorted_app_1_l in R5.
  - rewrite length_take. lia.
Qed.

(** ** Witnesses *)

(** Memory fresh from [zrealloc] holds anything. *)
Definition ex_undef (i : nat) : Z := 170.

(** {1, 2, 300}: six bytes. *)
Definition ex_set : intset := mk_intset INTSET_ENC_INT16 3 [1; 0; 2; 0; 44; 1].

Lemma ex_set_repr : repr ex_set [1; 2; 300].
Proof.
  split; try done; [by left|repeat constructor; done|repeat constructor; done].
Qed.

Lemma ex_set_models : models ex_set {[1; 2; 300]}.
Proof. exists [1; 2; 300]. split; [apply ex_set_repr|by vm_compute]. Qed.

Lemma intset_refines_set_witness :
  exists s, run_ops ex_undef [OpAdd 5; OpAdd (-3000000000); OpAdd 5; OpFind 5; OpRemove 5; OpFind 5] intsetNew =
    Some (s, [1; 1; 0; 1; 1; 0]) /\ models s {[-3000000000]}.
Proof.
  destruct (intset_refines_set ex_undef [OpAdd 5; OpAdd (-3000000000); OpAdd 5; OpFind 5; OpRemove 5; OpFind 5])
    as (s & E & HM); [repeat constructor; done|done|].
  exists s. split; [rewrite E; by vm_compute|].
  match type of HM with models _ ?X => replace ({[-3000000000]} : gset Z) with X by (by vm_compute) end. exact HM.
Defined.

Lemma intsetValidateIntegrity_correct_witness :
  Forall byteZ (blob ex_set) /\ intsetValidateIntegrity (blob ex_set) true = Some 1.
Proof.
  split; [repeat constructor; done|].
  destruct (intsetValidateIntegrity_correct (blob ex_set)) as (r & E & Hr); [repeat constructor; done|done|].
  rewrite E. destruct r; [done|]. exfalso. assert (false = true); [|done]. apply Hr.
  exists ex_set, [1; 2; 300]. split; [done|]. split; [apply ex_set_repr|done].
Defined.

(** The integers from 0 to [n] in 8-byte encoding. *)
Definition ex_range (n : Z) : intset := mk_intset INTSET_ENC_INT64 (n + 1) (enc_all 8 (0 :: seqZ 1 n)).

Lemma seqZ_sorted n m : StronglySorted Z.lt (seqZ m n).
Proof.
  destruct (decide (0 <= n)); [|rewrite seqZ_nil by lia; constructor]. revert m.
  apply (natlike_ind (fun n => forall m, StronglySorted Z.lt (seqZ m n))); [constructor| |done].
  intros k Hk IH m. rewrite seqZ_cons, Z.pred_succ by lia. constructor; [apply IH|].
  apply Forall_forall. intros x Hx. apply elem_of_seqZ in Hx. lia.
Qed.

Lemma ex_range_repr n : 0 <= n < 2 ^ 31 - 1 -> repr (ex_range n) (0 :: seqZ 1 n).
Proof.
  intros Hn. split; cbn [ex_range encoding ilength contents length]; rewrite ?length_seqZ; try lia; try done.
  - by right; right.
  - constructor; [done|]. apply Forall_forall. intros x Hx. apply elem_of_seqZ in Hx. unfold in_s.
    change INTSET_ENC_INT64 with 8. simpl. lia.
  - constructor; [apply seqZ_sorted|]. apply Forall_forall. intros x Hx. apply elem_of_seqZ in Hx. lia.
Qed.

Lemma intsetRemove_wraps_witness :
  repr (ex_range (2 ^ 29)) (0 :: seqZ 1 (2 ^ 29)) /\
  exists s' xs, intsetRemove ex_undef (ex_range (2 ^ 29)) 0 = Some (s', 1) /\ repr s' xs /\ 0 ∈ xs.
Proof.
  assert (repr (ex_range (2 ^ 29)) (0 :: seqZ 1 (2 ^ 29))) as HR by (apply ex_range_repr; lia).
  split; [exact HR|].
  destruct (intsetRemove_wraps ex_undef (ex_range (2 ^ 29)) 0 (seqZ 1 (2 ^ 29)) HR) as (s' & E & HR' & Hin);
    [reflexivity|rewrite length_seqZ; lia|].
  exists s', (take (Z.to_nat (2 ^ 29)) (0 :: seqZ 1 (2 ^ 29))). split; [exact E|]. split; [exact HR'|exact Hin].
Defined.
