(* ===== verification/Dict.v ===== *)
(** * Dict: the chained hash table with incremental rehashing
    (src/redis-7.2.4/src/dict.c, dict.h)

    This file holds the data and the operations; DictProof.v the invariant and
    the refinement to a finite map, DictScan.v the cursor iteration.

    A bucket is the linked list of [dictEntry]s it points to, with the three
    kinds of entries that dict.c distinguishes by the low bits of the pointer: a
    key stored without an entry, an entry without value and a normal entry.  A
    key is an abstract pointer [K]; the callbacks of [dictType] are parameters.
    [None] is a failed assertion or an access outside a table. *)

From Stdlib Require Import ZArith Lia ZifyBool.
From stdpp Require Import base gmap numbers option list.
From S2P Require Import Prelude.

Local Open Scope Z_scope.

Notation DICT_OK := 0%Z (only parsing).
Notation DICT_ERR := 1%Z (only parsing).
Notation DICT_HT_INITIAL_EXP := 2%Z (only parsing).
Notation DICT_HT_INITIAL_SIZE := (Z.shiftl 1 DICT_HT_INITIAL_EXP)%Z (only parsing).
Definition LONG_MAX : Z := 2 ^ 63 - 1.
Definition sizeof_dictEntry_ptr : Z := 8.
Notation dict_force_resize_ratio := 5%Z (only parsing).

Inductive dictResizeEnable := DICT_RESIZE_ENABLE | DICT_RESIZE_AVOID | DICT_RESIZE_FORBID.
#[export] Instance dictResizeEnable_eq : EqDecision dictResizeEnable.
Proof. solve_decision. Defined.

Section Types.
Context {K V : Type}.

(** A pointer to a [dictEntry]; the value of a fresh entry is not set yet. *)
Inductive dictEntry :=
| NULL
| EKey (key : K)
| ENoValue (key : K) (next : dictEntry)
| ENormal (key : K) (val : option V) (next : dictEntry).

(** What the destructors were called on. *)
Inductive freed := FreedKey (k : K) | FreedVal (v : option V).

(** [expandAllowed] receives the bytes to allocate and the used ratio as a fraction. *)
Record dictType := {
  hashFunction : K -> Z;
  keyDup : option (K -> K);
  valDup : option (V -> V);
  keyCompare : option (K -> K -> bool);
  keyDestructor : bool;
  valDestructor : bool;
  expandAllowed : option (Z -> Z * Z -> bool);
  no_value : bool;
  keys_are_odd : bool;
  dictEntryMetadataBytes : Z;
  key_odd : K -> bool   (* the low bit of the key pointer *)
}.

(** [struct dict]: the two tables, as pairs indexed by [bool] ([false] is 0). *)
Record dict := mk_dict {
  ht_table : list dictEntry * list dictEntry;
  ht_used : Z * Z;
  ht_size_exp : Z * Z;
  rehashidx : Z;
  pauserehash : Z;
  freed_log : list freed
}.
End Types.
Arguments dictEntry : clear implicits.
Arguments freed : clear implicits.
Arguments dictType : clear implicits.
Arguments dict : clear implicits.

Definition sel {A} (p : A * A) (t : bool) : A := if t then p.2 else p.1.
Definition upd {A} (p : A * A) (t : bool) (x : A) : A * A := if t then (p.1, x) else (x, p.2).

Definition DICTHT_SIZE (exp : Z) : Z := if exp =? -1 then 0 else Z.shiftl 1 exp.
Definition DICTHT_SIZE_MASK (exp : Z) : Z := if exp =? -1 then 0 else DICTHT_SIZE exp - 1.

(** [__builtin_clzl] of a non-zero 64-bit word. *)
Definition clzl (x : Z) : Z := 63 - Z.log2 x.

Definition _dictNextExp (size : Z) : Z :=
  if size <=? DICT_HT_INITIAL_SIZE then DICT_HT_INITIAL_EXP
  else if size >=? LONG_MAX then 8 * 8 - 1
  else 8 * 8 - clzl (size - 1).

Section Dict.
Context {K V : Type} `{EqDecision K}.
Context (T : dictType K V) (dict_can_resize : dictResizeEnable).
Notation entry := (dictEntry K V).
Notation dict := (dict K V).

Definition dictHashKey (k : K) : Z := hashFunction T k.
Definition dictCompareKeys (k1 k2 : K) : bool :=
  match keyCompare T with Some f => f k1 k2 | None => bool_decide (k1 = k2) end.
(** [key == he_key || dictCompareKeys(d, key, he_key)] *)
Definition key_match (k1 k2 : K) : bool := bool_decide (k1 = k2) || dictCompareKeys k1 k2.

Definition dictSize (d : dict) : Z := (ht_used d).1 + (ht_used d).2.
Definition dictSlots (d : dict) : Z := DICTHT_SIZE (ht_size_exp d).1 + DICTHT_SIZE (ht_size_exp d).2.
Definition dictIsRehashing (d : dict) : bool := negb (rehashidx d =? -1).

(** Field updates. *)
Definition set_table (d : dict) t (x : list entry) : dict :=
  mk_dict (upd (ht_table d) t x) (ht_used d) (ht_size_exp d) (rehashidx d) (pauserehash d) (freed_log d).
Definition set_used (d : dict) t (x : Z) : dict :=
  mk_dict (ht_table d) (upd (ht_used d) t x) (ht_size_exp d) (rehashidx d) (pauserehash d) (freed_log d).
Definition set_exp (d : dict) t (x : Z) : dict :=
  mk_dict (ht_table d) (ht_used d) (upd (ht_size_exp d) t x) (rehashidx d) (pauserehash d) (freed_log d).
Definition set_rehashidx (d : dict) (x : Z) : dict :=
  mk_dict (ht_table d) (ht_used d) (ht_size_exp d) x (pauserehash d) (freed_log d).
Definition set_pause (d : dict) (x : Z) : dict :=
  mk_dict (ht_table d) (ht_used d) (ht_size_exp d) (rehashidx d) x (freed_log d).
Definition log_freed (d : dict) (fs : list (freed K V)) : dict :=
  mk_dict (ht_table d) (ht_used d) (ht_size_exp d) (rehashidx d) (pauserehash d) (freed_log d ++ fs).

Definition dictPauseRehashing (d : dict) : dict := set_pause d (pauserehash d + 1).
Definition dictResumeRehashing (d : dict) : dict := set_pause d (pauserehash d - 1).

(** [d->ht_table[t][i]] and its assignment. *)
Definition bucket (d : dict) (t : bool) (i : Z) : option entry :=
  if 0 <=? i then sel (ht_table d) t !! Z.to_nat i else None.
Definition set_bucket (d : dict) (t : bool) (i : Z) (b : entry) : dict :=
  set_table d t (<[Z.to_nat i := b]> (sel (ht_table d) t)).

(** *** Entries *)

Definition entryIsKey (de : entry) : bool := match de with EKey _ => true | _ => false end.
Definition entryIsNoValue (de : entry) : bool := match de with ENoValue _ _ => true | _ => false end.
Definition entryHasValue (de : entry) : bool := match de with ENormal _ _ _ => true | _ => false end.
Definition is_NULL (de : entry) : bool := match de with NULL => true | _ => false end.

Definition createEntryNoValue (key : K) (next : entry) : entry := ENoValue key next.

Definition dictGetKey (de : entry) : option K :=
  match de with
  | NULL => None
  | EKey k => Some k
  | ENoValue k _ => Some k
  | ENormal k _ _ => Some k
  end.

Definition dictGetVal (de : entry) : option (option V) :=
  match de with ENormal _ v _ => Some v | _ => None end.

Definition dictGetNext (de : entry) : option entry :=
  match de with
  | NULL => None
  | EKey _ => Some NULL
  | ENoValue _ next => Some next
  | ENormal _ _ next => Some next
  end.

Definition dictSetNext (de next : entry) : option entry :=
  match de with
  | NULL | EKey _ => None
  | ENoValue k _ => Some (ENoValue k next)
  | ENormal k v _ => Some (ENormal k v next)
  end.

(** *** Creation and resizing *)

Definition _dictReset (d : dict) (t : bool) : dict :=
  set_used (set_exp (set_table d t []) t (-1)) t 0.

Definition _dictInit (d : dict) : dict :=
  set_pause (set_rehashidx (_dictReset (_dictReset d false) true) (-1)) 0.

Definition dictCreate : dict := _dictInit (mk_dict ([], []) (0, 0) (0, 0) 0 0 []).

(** [trycalloc]: [None] is a call with [malloc_failed == NULL]; otherwise whether
    [ztrycalloc] succeeded.  Returns the dict, the result and [*malloc_failed]. *)
Definition _dictExpand (d : dict) (size : Z) (trycalloc : option bool) : dict * Z * bool :=
  if dictIsRehashing d || ((ht_used d).1 >? size) then (d, DICT_ERR, false) else
  let new_ht_size_exp := _dictNextExp size in
  let newsize := u64 (Z.shiftl 1 new_ht_size_exp) in
  if (newsize <? size) || (u64 (newsize * sizeof_dictEntry_ptr) <? newsize) then (d, DICT_ERR, false) else
  if new_ht_size_exp =? (ht_size_exp d).1 then (d, DICT_ERR, false) else
  if bool_decide (trycalloc = Some false) then (d, DICT_ERR, true) else
  let new_ht_table := replicate (Z.to_nat newsize) NULL in
  let new_ht_used := 0 in
  match (ht_table d).1 with
  | [] => (set_table (set_used (set_exp d false new_ht_size_exp) false new_ht_used) false new_ht_table,
           DICT_OK, false)
  | _ => (set_rehashidx
            (set_table (set_used (set_exp d true new_ht_size_exp) true new_ht_used) true new_ht_table) 0,
          DICT_OK, false)
  end.

Definition dictExpand (d : dict) (size : Z) : dict * Z :=
  let '(d, r, _) := _dictExpand d size None in (d, r).

Definition dictTryExpand (d : dict) (size : Z) (calloc_ok : bool) : dict * Z :=
  let '(d, _, malloc_failed) := _dictExpand d size (Some calloc_ok) in
  (d, if malloc_failed : bool then DICT_ERR else DICT_OK).

Definition dictResize (d : dict) : dict * Z :=
  if negb (bool_decide (dict_can_resize = DICT_RESIZE_ENABLE)) || dictIsRehashing d then (d, DICT_ERR) else
  let minimal := (ht_used d).1 in
  let minimal := if minimal <? DICT_HT_INITIAL_SIZE then DICT_HT_INITIAL_SIZE else minimal in
  dictExpand d minimal.

(** *** Incremental rehashing *)

(** The skip of empty buckets in [dictRehash]: [inl d] is its [return 1] when
    the visits are used up, [inr] the state at a non-empty bucket. *)
Fixpoint rehash_skip (fuel : nat) (d : dict) (empty_visits : Z) : option (dict + dict * Z) :=
  match fuel with
  | O => None
  | S fuel =>
    b ← bucket d false (rehashidx d);
    if is_NULL b then
      let d := set_rehashidx d (rehashidx d + 1) in
      let empty_visits := empty_visits - 1 in
      if empty_visits =? 0 then Some (inl d) else rehash_skip fuel d empty_visits
    else Some (inr (d, empty_visits))
  end.

(** Moving one entry [de] of bucket [rehashidx] to the new table. *)
Definition rehash_entry (d : dict) (de : entry) : option dict :=
  key ← dictGetKey de;
  let h := if (ht_size_exp d).2 >? (ht_size_exp d).1
           then Z.land (dictHashKey key) (DICTHT_SIZE_MASK (ht_size_exp d).2)
           else Z.land (rehashidx d) (DICTHT_SIZE_MASK (ht_size_exp d).2) in
  target ← bucket d true h;
  de ← (if no_value T then
          if keys_are_odd T && is_NULL target then
            if key_odd T key then Some (EKey key) else None
          else if entryIsKey de then Some (createEntryNoValue key target)
          else if entryIsNoValue de then dictSetNext de target else None
        else dictSetNext de target);
  let d := set_bucket d true h de in
  Some (set_used (set_used d false ((ht_used d).1 - 1)) true ((ht_used d).2 + 1)).

Fixpoint rehash_chain (d : dict) (de : entry) : option dict :=
  match de with
  | NULL => Some d
  | EKey _ => rehash_entry d de
  | ENoValue _ next => d ← rehash_entry d de; rehash_chain d next
  | ENormal _ _ next => d ← rehash_entry d de; rehash_chain d next
  end.

(** The [while(n-- && d->ht_used[0] != 0)] loop; [inl] is an early [return 1]. *)
Fixpoint rehash_loop (n : nat) (d : dict) (empty_visits : Z) : option (dict + dict) :=
  match n with
  | O => Some (inr d)
  | S n =>
    if (ht_used d).1 =? 0 then Some (inr d) else
    if negb (DICTHT_SIZE (ht_size_exp d).1 >? rehashidx d) then None else
    r ← rehash_skip (S (length (ht_table d).1)) d empty_visits;
    match r with
    | inl d => Some (inl d)
    | inr (d, empty_visits) =>
      de ← bucket d false (rehashidx d);
      d ← rehash_chain d de;
      let d := set_bucket d false (rehashidx d) NULL in
      rehash_loop n (set_rehashidx d (rehashidx d + 1)) empty_visits
    end
  end.

Definition dictRehash (d : dict) (n : nat) : option (dict * Z) :=
  let empty_visits := Z.of_nat n * 10 in
  let s0 := DICTHT_SIZE (ht_size_exp d).1 in
  let s1 := DICTHT_SIZE (ht_size_exp d).2 in
  if bool_decide (dict_can_resize = DICT_RESIZE_FORBID) || negb (dictIsRehashing d) then Some (d, 0) else
  if bool_decide (dict_can_resize = DICT_RESIZE_AVOID) &&
     (((s1 >? s0) && (s1 / s0 <? dict_force_resize_ratio)) ||
      ((s1 <? s0) && (s0 / s1 <? dict_force_resize_ratio))) then Some (d, 0) else
  r ← rehash_loop n d empty_visits;
  match r with
  | inl d => Some (d, 1)
  | inr d =>
    if (ht_used d).1 =? 0 then
      let d := set_table d false (ht_table d).2 in
      let d := set_used d false (ht_used d).2 in
      let d := set_exp d false (ht_size_exp d).2 in
      Some (set_rehashidx (_dictReset d true) (-1), 0)
    else Some (d, 1)
  end.

(** [clock] is the sequence of values [timeInMilliseconds()] returns after the first. *)
Fixpoint dictRehashMilliseconds_loop (clock : list Z) (d : dict) (start ms rehashes : Z)
    : option (dict * Z) :=
  '(d, more) ← dictRehash d 100;
  if more =? 0 then Some (d, rehashes) else
  match clock with
  | [] => None
  | now :: clock =>
    if now - start >? ms then Some (d, rehashes + 100)
    else dictRehashMilliseconds_loop clock d start ms (rehashes + 100)
  end.

Definition dictRehashMilliseconds (d : dict) (ms start : Z) (clock : list Z) : option (dict * Z) :=
  if pauserehash d >? 0 then Some (d, 0) else dictRehashMilliseconds_loop clock d start ms 0.

Definition _dictRehashStep (d : dict) : option dict :=
  if pauserehash d =? 0 then '(d, _) ← dictRehash d 1; Some d else Some d.

(** [if (dictIsRehashing(d)) _dictRehashStep(d);] *)
Definition rehash_step_if (d : dict) : option dict :=
  if dictIsRehashing d then _dictRehashStep d else Some d.

Definition dictTypeExpandAllowed (d : dict) : bool :=
  match expandAllowed T with
  | None => true
  | Some f => f (DICTHT_SIZE (_dictNextExp ((ht_used d).1 + 1)) * sizeof_dictEntry_ptr)
                ((ht_used d).1, DICTHT_SIZE (ht_size_exp d).1)
  end.

Definition _dictExpandIfNeeded (d : dict) : dict * Z :=
  if dictIsRehashing d then (d, DICT_OK) else
  if DICTHT_SIZE (ht_size_exp d).1 =? 0 then dictExpand d DICT_HT_INITIAL_SIZE else
  if (bool_decide (dict_can_resize = DICT_RESIZE_ENABLE) &&
      ((ht_used d).1 >=? DICTHT_SIZE (ht_size_exp d).1)) ||
     (negb (bool_decide (dict_can_resize = DICT_RESIZE_FORBID)) &&
      ((ht_used d).1 / DICTHT_SIZE (ht_size_exp d).1 >? dict_force_resize_ratio))
  then if negb (dictTypeExpandAllowed d) then (d, DICT_OK)
       else dictExpand d ((ht_used d).1 + 1)
  else (d, DICT_OK).

(** *** Lookup *)

(** A pointer to an entry stored in the dict: table, bucket and depth in the chain. *)
Definition entry_ref : Type := bool * Z * nat.

(** The [while(he)] search of a bucket: the first matching entry and its depth. *)
Fixpoint chain_find (match_key : K -> bool) (he : entry) : option (nat * entry) :=
  match he with
  | NULL => None
  | EKey k => if match_key k then Some (O, he) else None
  | ENoValue k next =>
    if match_key k then Some (O, he) else '(n, e) ← chain_find match_key next; Some (S n, e)
  | ENormal k _ next =>
    if match_key k then Some (O, he) else '(n, e) ← chain_find match_key next; Some (S n, e)
  end.

(** The [for (table = 0; table <= 1; table++)] search of dictFind and the
    like: [Some None] is not found; a read outside a table is [None]. *)
Definition tables_find (match_key : K -> bool) (d : dict) (h : Z) : option (option (entry_ref * entry)) :=
  let idx0 := Z.land h (DICTHT_SIZE_MASK (ht_size_exp d).1) in
  b0 ← bucket d false idx0;
  match chain_find match_key b0 with
  | Some (n, he) => Some (Some ((false, idx0, n), he))
  | None =>
    if negb (dictIsRehashing d) then Some None else
    let idx1 := Z.land h (DICTHT_SIZE_MASK (ht_size_exp d).2) in
    b1 ← bucket d true idx1;
    match chain_find match_key b1 with
    | Some (n, he) => Some (Some ((true, idx1, n), he))
    | None => Some None
    end
  end.

Definition dictFind (d : dict) (key : K) : option (dict * option (entry_ref * entry)) :=
  if dictSize d =? 0 then Some (d, None) else
  d ← rehash_step_if d;
  let h := dictHashKey key in
  r ← tables_find (key_match key) d h;
  Some (d, r).

Definition dictFetchValue (d : dict) (key : K) : option (dict * option (option V)) :=
  '(d, r) ← dictFind d key;
  match r with
  | Some (_, he) => v ← dictGetVal he; Some (d, Some v)
  | None => Some (d, None)
  end.

(** [oldptr == dictGetKey(he)]: pointer comparison only, and no rehashing step. *)
Definition dictFindEntryByPtrAndHash (d : dict) (oldptr : K) (hash : Z)
    : option (option (entry_ref * entry)) :=
  if dictSize d =? 0 then Some None else
  tables_find (fun k => bool_decide (oldptr = k)) d hash.

(** *** Insertion *)

(** The position to insert at, or the existing entry. *)
Definition dictFindPositionForInsert (d : dict) (key : K)
    : option (dict * option (bool * Z) * option entry_ref) :=
  let hash := dictHashKey key in
  d ← rehash_step_if d;
  let '(d, r) := _dictExpandIfNeeded d in
  if r =? DICT_ERR then Some (d, None, None) else
  r ← tables_find (key_match key) d hash;
  match r with
  | Some (ref, _) => Some (d, None, Some ref)
  | None =>
    let t := dictIsRehashing d in
    let idx := Z.land hash (DICTHT_SIZE_MASK (sel (ht_size_exp d) t)) in
    Some (d, Some (t, idx), None)
  end.

Definition dictInsertAtPosition (d : dict) (key : K) (position : bool * Z) : option (dict * entry_ref) :=
  let '(t, idx) := position in
  let htidx := dictIsRehashing d in
  if negb (bool_decide (t = htidx)) ||
     negb ((0 <=? idx) && (idx <=? DICTHT_SIZE_MASK (sel (ht_size_exp d) htidx))) then None else
  let metasize := dictEntryMetadataBytes T in
  b ← bucket d t idx;
  new ← (if no_value T then
           if negb (metasize =? 0) then None else
           if keys_are_odd T && is_NULL b then
             if key_odd T key then Some (EKey key) else None
           else Some (createEntryNoValue key b)
         else Some (ENormal key None b));
  let d := set_bucket d t idx new in
  Some (set_used d htidx (sel (ht_used d) htidx + 1), (t, idx, O)).

(** The new entry, or [None] with the existing one. *)
Definition dictAddRaw (d : dict) (key : K) : option (dict * option entry_ref * option entry_ref) :=
  '(d, position, existing) ← dictFindPositionForInsert d key;
  match position with
  | None => Some (d, None, existing)
  | Some position =>
    let key := match keyDup T with Some f => f key | None => key end in
    '(d, ref) ← dictInsertAtPosition d key position;
    Some (d, Some ref, existing)
  end.

(** Rewriting the entry at a given depth of a chain. *)
Fixpoint chain_alter (f : entry -> option entry) (he : entry) (n : nat) : option entry :=
  match n, he with
  | O, NULL => None
  | O, _ => f he
  | S n, ENoValue k next => ENoValue k <$> chain_alter f next n
  | S n, ENormal k v next => ENormal k v <$> chain_alter f next n
  | S _, _ => None
  end.

Fixpoint chain_nth (he : entry) (n : nat) : option entry :=
  match n, he with
  | O, NULL => None
  | O, _ => Some he
  | S n, ENoValue _ next => chain_nth next n
  | S n, ENormal _ _ next => chain_nth next n
  | S _, _ => None
  end.

Definition dictSetVal (d : dict) (ref : entry_ref) (val : V) : option dict :=
  let '(t, idx, n) := ref in
  b ← bucket d t idx;
  b ← chain_alter (fun de => match de with
        | ENormal k _ next => Some (ENormal k (Some (match valDup T with Some f => f val | None => val end)) next)
        | _ => None end) b n;
  Some (set_bucket d t idx b).

Definition dictSetKey (d : dict) (ref : entry_ref) (key : K) : option dict :=
  if no_value T then None else
  let '(t, idx, n) := ref in
  b ← bucket d t idx;
  b ← chain_alter (fun de => match de with
        | ENormal _ v next => Some (ENormal (match keyDup T with Some f => f key | None => key end) v next)
        | _ => None end) b n;
  Some (set_bucket d t idx b).

Definition dictAdd (d : dict) (key : K) (val : V) : option (dict * Z) :=
  '(d, entry, _) ← dictAddRaw d key;
  match entry with
  | None => Some (d, DICT_ERR)
  | Some ref =>
    d ← (if negb (no_value T) then dictSetVal d ref val else Some d);
    Some (d, DICT_OK)
  end.

Definition dictReplace (d : dict) (key : K) (val : V) : option (dict * Z) :=
  '(d, entry, existing) ← dictAddRaw d key;
  match entry with
  | Some ref => d ← dictSetVal d ref val; Some (d, 1)
  | None =>
    ref ← existing;
    let '(t, idx, n) := ref in
    b ← bucket d t idx;
    e ← chain_nth b n;
    oldval ← dictGetVal e;
    d ← dictSetVal d ref val;
    Some (if valDestructor T then log_freed d [FreedVal oldval] else d, 0)
  end.

Definition dictAddOrFind (d : dict) (key : K) : option (dict * option entry_ref) :=
  '(d, entry, existing) ← dictAddRaw d key;
  Some (d, match entry with Some ref => Some ref | None => existing end).

(** *** Deletion *)

(** [dictFreeKey] and [dictFreeVal] of one entry. *)
Definition free_entry (he : entry) : option (list (freed K V)) :=
  key ← dictGetKey he;
  let fk := if keyDestructor T then [FreedKey key] else [] in
  fv ← (if valDestructor T then v ← dictGetVal he; Some [FreedVal v] else Some []);
  Some (fk ++ fv).

Definition dictFreeUnlinkedEntry (d : dict) (he : option entry) : option dict :=
  match he with
  | None => Some d
  | Some he => fs ← free_entry he; Some (log_freed d fs)
  end.

(** Unlinking the entry at depth [n]: its predecessor's [next] (or the bucket)
    is set to its [next]. *)
Fixpoint chain_unlink (he : entry) (n : nat) : option entry :=
  match n with
  | O => dictGetNext he
  | S n =>
    next ← dictGetNext he;
    next ← chain_unlink next n;
    dictSetNext he next
  end.

Definition dictGenericDelete (d : dict) (key : K) (nofree : bool) : option (dict * option entry) :=
  if dictSize d =? 0 then Some (d, None) else
  d ← rehash_step_if d;
  let h := dictHashKey key in
  r ← tables_find (key_match key) d h;
  match r with
  | None => Some (d, None)
  | Some ((t, idx, n), he) =>
    b ← bucket d t idx;
    b ← chain_unlink b n;
    let d := set_bucket d t idx b in
    d ← (if negb nofree then dictFreeUnlinkedEntry d (Some he) else Some d);
    Some (set_used d t (sel (ht_used d) t - 1), Some he)
  end.

Definition dictDelete (d : dict) (key : K) : option (dict * Z) :=
  '(d, he) ← dictGenericDelete d key false;
  Some (d, match he with Some _ => DICT_OK | None => DICT_ERR end).

Definition dictUnlink (d : dict) (key : K) : option (dict * option entry) := dictGenericDelete d key true.

Definition dictTwoPhaseUnlinkFind (d : dict) (key : K) : option (dict * option (entry_ref * entry)) :=
  if dictSize d =? 0 then Some (d, None) else
  d ← rehash_step_if d;
  let h := dictHashKey key in
  r ← tables_find (key_match key) d h;
  match r with
  | Some r => Some (dictPauseRehashing d, Some r)
  | None => Some (d, None)
  end.

Definition dictTwoPhaseUnlinkFree (d : dict) (he : option (entry_ref * entry)) : option dict :=
  match he with
  | None => Some d
  | Some ((t, idx, n), he) =>
    let d := set_used d t (sel (ht_used d) t - 1) in
    b ← bucket d t idx;
    b ← chain_unlink b n;
    let d := set_bucket d t idx b in
    fs ← free_entry he;
    Some (dictResumeRehashing (log_freed d fs))
  end.

(** Freeing the entries of one bucket in [_dictClear]. *)
Fixpoint clear_chain (d : dict) (t : bool) (he : entry) : option dict :=
  match he with
  | NULL => Some d
  | EKey _ =>
    fs ← free_entry he; Some (set_used (log_freed d fs) t (sel (ht_used d) t - 1))
  | ENoValue _ next =>
    fs ← free_entry he; clear_chain (set_used (log_freed d fs) t (sel (ht_used d) t - 1)) t next
  | ENormal _ _ next =>
    fs ← free_entry he; clear_chain (set_used (log_freed d fs) t (sel (ht_used d) t - 1)) t next
  end.

(** The [for] loop of [_dictClear] from index [i], [n] buckets left. *)
Fixpoint clear_loop (n : nat) (d : dict) (t : bool) (i : Z) : option dict :=
  match n with
  | O => Some d
  | S n =>
    if negb (sel (ht_used d) t >? 0) then Some d else
    he ← bucket d t i;
    d ← clear_chain d t he;
    clear_loop n d t (i + 1)
  end.

Definition _dictClear (d : dict) (t : bool) : option dict :=
  d ← clear_loop (Z.to_nat (DICTHT_SIZE (sel (ht_size_exp d) t))) d t 0;
  Some (_dictReset d t).

Definition dictEmpty (d : dict) : option dict :=
  d ← _dictClear d false;
  d ← _dictClear d true;
  Some (set_pause (set_rehashidx d (-1)) 0).

End Dict.
