(* ===== verification/DictProof.v ===== *)
(** * Dict: invariant and refinement to a finite map

    [wf d] is the representation invariant of dict.c: each table is absent or a
    power of two long, every entry sits in the bucket its hash selects,
    [ht_used] counts the entries, no two entries have equal keys, and while
    rehashing is in progress the buckets below [rehashidx] of the old table are
    empty.  Every operation is shown to preserve it and to act on the multiset
    of entries [entries d] as the corresponding finite-map operation. *)

From Stdlib Require Import ZArith Lia ZifyBool.
From stdpp Require Import base gmap numbers option list.
From S2P Require Import Prelude Dict.

Local Open Scope Z_scope.

(** What a client of dict.c promises about the callbacks of its [dictType]: key
    comparison is equality of a canonical form of the key (the key itself, its
    bytes, its lower-case bytes, ...), the hash is a 64-bit function of that form, duplicating
    a key keeps it, and the flags are used as dict.h documents them. *)
Class DictTypeOk {K V C : Type} `{EqDecision K} (T : dictType K V) (canon : K -> C) : Prop := {
  match_canon k1 k2 : key_match T k1 k2 = true <-> canon k1 = canon k2;
  hash_canon k1 k2 : canon k1 = canon k2 -> hashFunction T k1 = hashFunction T k2;
  hash_range k : in_u 64 (hashFunction T k);
  dup_canon f k : keyDup T = Some f -> canon (f k) = canon k;
  odd_keys k : keys_are_odd T = true -> key_odd T k = true;
  no_value_meta : no_value T = true -> dictEntryMetadataBytes T = 0;
  no_value_destructor : no_value T = true -> valDestructor T = false
}.

(** ** Power-of-two masks *)

Lemma size_pow e : 0 <= e -> DICTHT_SIZE e = 2 ^ e.
Proof. intros. unfold DICTHT_SIZE. zb. rewrite Z.shiftl_mul_pow2; lia. Qed.

Lemma mask_ones e : 0 <= e -> DICTHT_SIZE_MASK e = Z.ones e.
Proof.
  intros. unfold DICTHT_SIZE_MASK. zb. rewrite size_pow, Z.ones_equiv by lia. lia.
Qed.

Lemma land_mask h e : 0 <= e -> Z.land h (DICTHT_SIZE_MASK e) = h mod 2 ^ e.
Proof. intros. rewrite mask_ones, Z.land_ones; lia. Qed.

Lemma land_mask_range h e : 0 <= e -> 0 <= Z.land h (DICTHT_SIZE_MASK e) < 2 ^ e.
Proof. intros. rewrite land_mask by lia. apply Z.mod_pos_bound, Z.pow_pos_nonneg; lia. Qed.

(** The bucket in a smaller table is the bucket of the larger one, masked. *)
Lemma land_mask_shrink h e0 e1 : 0 <= e1 <= e0 ->
  Z.land (Z.land h (DICTHT_SIZE_MASK e0)) (DICTHT_SIZE_MASK e1) = Z.land h (DICTHT_SIZE_MASK e1).
Proof.
  intros. rewrite <- Z.land_assoc, !mask_ones by lia. f_equal.
  rewrite Z.land_comm, Z.land_ones by lia. apply Z.mod_small.
  rewrite Z.ones_equiv. pose proof (Z.pow_le_mono_r 2 e1 e0).
  pose proof (Z.pow_pos_nonneg 2 e1). lia.
Qed.

(** Reduce field accesses of updated dicts. *)
Ltac dsimp := cbn [ht_table ht_used ht_size_exp rehashidx pauserehash freed_log set_table set_used
  set_exp set_rehashidx set_pause log_freed set_bucket sel upd fst snd].
Ltac dsimp_in H := cbn [ht_table ht_used ht_size_exp rehashidx pauserehash freed_log set_table set_used
  set_exp set_rehashidx set_pause log_freed set_bucket sel upd fst snd] in H.

(** ** Chains *)
Section Chains.
Context {K V : Type}.
Notation entry := (dictEntry K V).

Fixpoint chain_list (de : entry) : list (K * option V) :=
  match de with
  | NULL => []
  | EKey k => [(k, None)]
  | ENoValue k next => (k, None) :: chain_list next
  | ENormal k v next => (k, v) :: chain_list next
  end.

(** The key and value of an entry, without the rest of its chain. *)
Definition entry_kv (de : entry) : option (K * option V) :=
  match de with
  | NULL => None
  | EKey k => Some (k, None)
  | ENoValue k _ => Some (k, None)
  | ENormal k v _ => Some (k, v)
  end.

Definition entries_of (tbl : list entry) : list (K * option V) := tbl ≫= chain_list.

Definition entries (d : dict K V) : list (K * option V) :=
  entries_of (ht_table d).1 ++ entries_of (ht_table d).2.

(** Entry kinds agree with the flags of the type. *)
Fixpoint shape (T : dictType K V) (de : entry) : Prop :=
  match de with
  | NULL => True
  | EKey _ => no_value T = true /\ keys_are_odd T = true
  | ENoValue _ next => no_value T = true /\ shape T next
  | ENormal _ _ next => no_value T = false /\ shape T next
  end.

Lemma chain_list_NULL b : is_NULL b = true <-> chain_list b = [].
Proof. destruct b; simpl; split; congruence. Qed.

Lemma chain_find_Some m (b : entry) n he : chain_find m b = Some (n, he) ->
  exists k v, chain_list b !! n = Some (k, v) /\ m k = true /\
    entry_kv he = Some (k, v) /\ chain_nth b n = Some he.
Proof.
  revert n. induction b as [|k|k b IH|k v b IH]; intros n H; simpl in H; [done|..].
  - case_match; simplify_eq. eauto 10.
  - case_match; simplify_eq; [eauto 10|].
    destruct (chain_find m b) as [[n' e]|] eqn:E; simplify_eq/=. eauto.
  - case_match; simplify_eq; [simpl; eauto 10|].
    destruct (chain_find m b) as [[n' e]|] eqn:E; simplify_eq/=. eauto.
Qed.

Lemma chain_find_None m (b : entry) : chain_find m b = None ->
  Forall (fun e => m e.1 = false) (chain_list b).
Proof.
  induction b as [|k|k b IH|k v b IH]; intros H; simpl in *; [done|..];
    case_match; simplify_eq/=; constructor; auto;
    destruct (chain_find m b) as [[]|]; simplify_eq/=; auto.
Qed.

Lemma chain_unlink_spec T (b : entry) n kv : chain_list b !! n = Some kv -> shape T b ->
  exists b', chain_unlink b n = Some b' /\ chain_list b' = delete n (chain_list b) /\ shape T b'.
Proof.
  revert n. induction b as [|k|k b IH|k v b IH]; intros [|n] H HS; simpl in *; simplify_eq.
  - by exists NULL.
  - exists b. split; [done|]. split; [done|]. apply HS.
  - destruct (IH n H) as (b' & -> & E & ?); [apply HS|]. simpl. eexists. split; [done|].
    simpl. rewrite E. split; [done|]. split; [apply HS|done].
  - exists b. split; [done|]. split; [done|]. apply HS.
  - destruct (IH n H) as (b' & -> & E & ?); [apply HS|]. simpl. eexists. split; [done|].
    simpl. rewrite E. split; [done|]. split; [apply HS|done].
Qed.

Lemma chain_alter_spec T (b : entry) n k v g : chain_list b !! n = Some (k, v) -> shape T b ->
  no_value T = false ->
  exists b', chain_alter (fun de => match de with
        | ENormal k _ next => Some (ENormal k g next) | _ => None end) b n = Some b' /\
    chain_list b' = <[n := (k, g)]> (chain_list b) /\ shape T b'.
Proof.
  intros H HS HT. revert n H HS.
  induction b as [|k0|k0 b IH|k0 v0 b IH]; intros [|n] H HS; simpl in *; simplify_eq;
    try (destruct HS; congruence).
  - eauto.
  - destruct (IH n H) as (b' & -> & E & ?); [apply HS|]. simpl. eexists. split; [done|].
    simpl. rewrite E. by split.
Qed.

Lemma chain_nth_val T (b : entry) n he kv : chain_nth b n = Some he -> shape T b ->
  entry_kv he = Some kv -> no_value T = false -> dictGetVal he = Some kv.2.
Proof.
  intros H HS Hkv HT. revert n H HS.
  induction b as [|k0|k0 b IH|k0 v0 b IH]; intros [|n] H HS; simpl in *; simplify_eq/=;
    try (destruct HS; congruence); try done.
  eapply IH; [done|apply HS].
Qed.

(** Replacing one bucket leaves the entries of the others. *)
Lemma entries_of_insert (tbl : list entry) i b : tbl !! i = Some b ->
  exists rest, forall b', entries_of (<[i := b']> tbl) ≡ₚ chain_list b' ++ rest.
Proof.
  intros Hi. exists (entries_of (take i tbl) ++ entries_of (drop (S i) tbl)). intros b'.
  rewrite insert_take_drop by (by eapply lookup_lt_Some).
  unfold entries_of. rewrite bind_app, bind_cons. solve_Permutation.
Qed.

Lemma entries_of_bucket (tbl : list entry) i b : tbl !! i = Some b ->
  exists rest, entries_of tbl ≡ₚ chain_list b ++ rest /\
    forall b', entries_of (<[i := b']> tbl) ≡ₚ chain_list b' ++ rest.
Proof.
  intros Hi. destruct (entries_of_insert tbl i b Hi) as [rest Hr]. exists rest.
  split; [|done]. rewrite <- (list_insert_id tbl i b Hi) at 1. apply Hr.
Qed.

Lemma insert_delete_Permutation {A} (l : list A) n x : (n < length l)%nat ->
  <[n := x]> l ≡ₚ x :: delete n l.
Proof.
  intros. rewrite insert_take_drop by done. rewrite delete_take_drop. solve_Permutation.
Qed.

Lemma entries_of_replicate n : entries_of (replicate n NULL) = [].
Proof. induction n; simpl; auto. Qed.

Lemma elem_of_entries_of (tbl : list entry) e :
  e ∈ entries_of tbl <-> exists i b, tbl !! i = Some b /\ e ∈ chain_list b.
Proof.
  unfold entries_of. rewrite list_elem_of_bind. split.
  - intros (b & He & (i & Hi)%list_elem_of_lookup). eauto.
  - intros (i & b & Hi & He). exists b. split; [done|]. apply list_elem_of_lookup. eauto.
Qed.

Lemma entries_of_nil (tbl : list entry) :
  entries_of tbl = [] <-> Forall (fun b => is_NULL b = true) tbl.
Proof.
  induction tbl as [|b tbl IH]; [done|]. unfold entries_of in *. rewrite bind_cons, Forall_cons_iff, chain_list_NULL.
  split.
  - intros [H1 H2]%app_eq_nil. split; [done|]. by apply IH.
  - intros [-> H]. by apply IH in H.
Qed.
End Chains.

(** ** The invariant *)
Section Invariant.
Context {K V C : Type} `{EqDecision K} (T : dictType K V) (canon : K -> C) `{!DictTypeOk T canon}.
Notation entry := (dictEntry K V).
Notation dict := (dict K V).

Definition ckeys (l : list (K * option V)) : list C := (fun e => canon e.1) <$> l.

(** A bucket of a table of size [2^exp] at index [i]. *)
Definition wf_bucket (exp : Z) (i : nat) (b : entry) : Prop :=
  shape T b /\
  Forall (fun e => Z.land (hashFunction T e.1) (DICTHT_SIZE_MASK exp) = Z.of_nat i) (chain_list b).

Record wf_table (exp : Z) (tbl : list entry) (used : Z) : Prop := {
  wf_size : (exp = -1 /\ tbl = []) \/ (0 <= exp <= 60 /\ Z.of_nat (length tbl) = 2 ^ exp);
  wf_used : used = Z.of_nat (length (entries_of tbl));
  wf_buckets i b : tbl !! i = Some b -> wf_bucket exp i b
}.

Definition wf_mode (d : dict) : Prop :=
  (rehashidx d = -1 /\ (ht_size_exp d).2 = -1) \/
  (0 <= rehashidx d <= Z.of_nat (length (ht_table d).1) /\ 0 <= (ht_size_exp d).1 /\ 0 <= (ht_size_exp d).2 /\
   (ht_size_exp d).1 <> (ht_size_exp d).2 /\
   forall i b, (ht_table d).1 !! i = Some b -> Z.of_nat i < rehashidx d -> b = NULL).

Record wf (d : dict) : Prop := {
  wf_0 : wf_table (ht_size_exp d).1 (ht_table d).1 (ht_used d).1;
  wf_1 : wf_table (ht_size_exp d).2 (ht_table d).2 (ht_used d).2;
  wf_uniq : NoDup (ckeys (entries d));
  wf_rehash : wf_mode d
}.

Lemma ckeys_perm l l' : l ≡ₚ l' -> ckeys l ≡ₚ ckeys l'.
Proof. intros. by apply fmap_Permutation. Qed.

Lemma ckeys_app l l' : ckeys (l ++ l') = ckeys l ++ ckeys l'.
Proof. apply fmap_app. Qed.

Lemma wf_table_None u : u = 0 -> wf_table (-1) [] u.
Proof. intros ->. split; [by left|done|]. intros i b H. by rewrite lookup_nil in H. Qed.

Lemma wf_table_fresh e : 0 <= e <= 60 -> wf_table e (replicate (Z.to_nat (2 ^ e)) NULL) 0.
Proof.
  intros He. split.
  - right. split; [done|]. rewrite length_replicate. pose proof (Z.pow_pos_nonneg 2 e). lia.
  - by rewrite entries_of_replicate.
  - intros i b [-> _]%lookup_replicate. split; [done|constructor].
Qed.

(** Every index the hash selects is inside an allocated table. *)
Lemma wf_bucket_lookup e tbl u h : wf_table e tbl u -> 0 <= e ->
  exists b, tbl !! Z.to_nat (Z.land h (DICTHT_SIZE_MASK e)) = Some b.
Proof.
  intros [[[-> _]|[? HL]] _ _] He; [lia|]. apply lookup_lt_is_Some_2.
  pose proof (land_mask_range h e He). lia.
Qed.

Lemma wf_table_update e tbl u i b b' : wf_table e tbl u -> tbl !! i = Some b -> wf_bucket e i b' ->
  wf_table e (<[i := b']> tbl)
    (u + Z.of_nat (length (chain_list b')) - Z.of_nat (length (chain_list b))).
Proof.
  intros [HS HU HB] Hi Hb'. destruct (entries_of_bucket tbl i b Hi) as (rest & Hr & Hr').
  split.
  - rewrite length_insert. destruct HS as [[-> ->]|?]; [|by right]. by rewrite lookup_nil in Hi.
  - rewrite HU, Hr, (Hr' b'), !length_app. lia.
  - intros j c Hj. destruct (decide (i = j)) as [->|Hne].
    + rewrite list_lookup_insert_eq in Hj by (by eapply lookup_lt_Some). by simplify_eq.
    + rewrite list_lookup_insert_ne in Hj by done. eauto.
Qed.

(** ** Rehashing *)

(** The new table after receiving the entries of a chain of the old one. *)
Definition moved (d d' : dict) (l : list (K * option V)) : Prop :=
  exists t1, d' = mk_dict ((ht_table d).1, t1)
      ((ht_used d).1 - Z.of_nat (length l), (ht_used d).2 + Z.of_nat (length l))
      (ht_size_exp d) (rehashidx d) (pauserehash d) (freed_log d) /\
    wf_table (ht_size_exp d).2 t1 ((ht_used d).2 + Z.of_nat (length l)) /\
    entries_of t1 ≡ₚ l ++ entries_of (ht_table d).2.

Lemma moved_trans d1 d2 d3 l1 l2 : moved d1 d2 l1 -> moved d2 d3 l2 -> moved d1 d3 (l1 ++ l2).
Proof.
  intros (t1 & -> & H1 & E1) (t2 & -> & H2 & E2). simpl in *. exists t2.
  rewrite length_app, Nat2Z.inj_add, Z.sub_add_distr, Z.add_assoc. split; [done|].
  split; [done|]. rewrite E2, E1. solve_Permutation.
Qed.

(** Where [dictRehash] puts an entry: the bucket its hash selects in the new table. *)
Lemma rehash_index (d : dict) key : 0 <= (ht_size_exp d).1 -> 0 <= (ht_size_exp d).2 ->
  Z.land (hashFunction T key) (DICTHT_SIZE_MASK (ht_size_exp d).1) = rehashidx d ->
  (if (ht_size_exp d).2 >? (ht_size_exp d).1
   then Z.land (dictHashKey T key) (DICTHT_SIZE_MASK (ht_size_exp d).2)
   else Z.land (rehashidx d) (DICTHT_SIZE_MASK (ht_size_exp d).2)) =
  Z.land (hashFunction T key) (DICTHT_SIZE_MASK (ht_size_exp d).2).
Proof.
  intros H0 H1 Hk. rewrite Z.gtb_ltb. case_zb; [done|]. rewrite <- Hk.
  apply land_mask_shrink. lia.
Qed.

Lemma rehash_entry_spec (d : dict) de k v : wf_table (ht_size_exp d).2 (ht_table d).2 (ht_used d).2 ->
  0 <= (ht_size_exp d).1 -> 0 <= (ht_size_exp d).2 ->
  entry_kv de = Some (k, v) -> shape T de ->
  Z.land (hashFunction T k) (DICTHT_SIZE_MASK (ht_size_exp d).1) = rehashidx d ->
  exists d', rehash_entry T d de = Some d' /\ moved d d' [(k, v)].
Proof.
  intros HW H0 H1 Hkv HS Hk. unfold rehash_entry.
  assert (dictGetKey de = Some k) as -> by (destruct de; by simplify_eq/=).
  cbn [mbind option_bind]. rewrite rehash_index by done.
  set (h := Z.land (hashFunction T k) (DICTHT_SIZE_MASK (ht_size_exp d).2)).
  destruct (wf_bucket_lookup _ _ _ (hashFunction T k) HW H1) as [b Hb]. fold h in Hb.
  pose proof (land_mask_range (hashFunction T k) _ H1) as Hh. fold h in Hh.
  unfold bucket. zb. cbn [sel]. rewrite Hb. cbn [mbind option_bind].
  destruct (wf_buckets _ _ _ HW _ _ Hb) as [HSb HFb]. rewrite Z2Nat.id in HFb by lia.
  assert (exists new, (if no_value T then
      if keys_are_odd T && is_NULL b then if key_odd T k then Some (EKey k) else None
      else if entryIsKey de then Some (createEntryNoValue k b)
      else if entryIsNoValue de then dictSetNext de b else None
    else dictSetNext de b) = Some new /\ chain_list new = (k, v) :: chain_list b /\ shape T new)
    as (new & -> & Hl & HSn).
  { destruct (no_value T) eqn:EN; [destruct (keys_are_odd T && is_NULL b) eqn:EO|].
    - apply andb_true_iff in EO as [EO Eb]. rewrite (odd_keys k EO).
      apply chain_list_NULL in Eb as Eb'. destruct de; simplify_eq/=; try (destruct HS; congruence);
        eexists; (split; [done|]); simpl; rewrite Eb'; auto.
    - destruct de; simplify_eq/=; try (destruct HS; congruence); eexists; (split; [done|]); simpl; auto.
    - destruct de; simplify_eq/=; try (destruct HS; congruence); eexists; (split; [done|]); simpl; auto. }
  cbn [mbind option_bind]. eexists. split; [done|].
  exists (<[Z.to_nat h := new]> (ht_table d).2). cbn [length]. change (Z.of_nat 1) with 1.
  split; [done|]. split.
  - replace ((ht_used d).2 + 1) with ((ht_used d).2 + Z.of_nat (length (chain_list new)) -
      Z.of_nat (length (chain_list b))) by (rewrite Hl; cbn [length]; lia).
    eapply wf_table_update; eauto. split; [done|]. rewrite Hl, Z2Nat.id by lia. by constructor.
  - destruct (entries_of_bucket _ _ _ Hb) as (rest & Hr & Hr').
    rewrite Hr, (Hr' new), Hl. done.
Qed.

Lemma rehash_chain_spec de : forall d : dict, wf_table (ht_size_exp d).2 (ht_table d).2 (ht_used d).2 ->
  0 <= (ht_size_exp d).1 -> 0 <= (ht_size_exp d).2 -> shape T de ->
  Forall (fun e => Z.land (hashFunction T e.1) (DICTHT_SIZE_MASK (ht_size_exp d).1) = rehashidx d)
    (chain_list de) ->
  exists d', rehash_chain T d de = Some d' /\ moved d d' (chain_list de).
Proof.
  induction de as [|k|k next IH|k v next IH]; intros d HW H0 H1 HS HF;
    cbn [rehash_chain chain_list] in *.
  - exists d. split; [done|]. exists (ht_table d).2. simpl. rewrite Z.sub_0_r, Z.add_0_r.
    split; [|done]. by destruct d as [[][][]].
  - apply Forall_cons_1 in HF as [Hk _]. by eapply rehash_entry_spec.
  - apply Forall_cons_1 in HF as [Hk HF].
    destruct (rehash_entry_spec d (ENoValue k next) k None) as (d1 & -> & M1); auto. cbn [mbind option_bind].
    pose proof M1 as (t1 & -> & HW1 & _).
    edestruct IH as (d2 & E2 & M2); cycle 5; [exists d2; split; [exact E2|]|..]; auto; [|apply HS].
    by eapply (moved_trans _ _ _ [_]).
  - apply Forall_cons_1 in HF as [Hk HF].
    destruct (rehash_entry_spec d (ENormal k v next) k v) as (d1 & -> & M1); auto. cbn [mbind option_bind].
    pose proof M1 as (t1 & -> & HW1 & _).
    edestruct IH as (d2 & E2 & M2); cycle 5; [exists d2; split; [exact E2|]|..]; auto; [|apply HS].
    by eapply (moved_trans _ _ _ [_]).
Qed.

Lemma entries_length d : wf d -> dictSize d = Z.of_nat (length (entries d)).
Proof.
  intros [H0 H1 _ _]. unfold dictSize, entries. rewrite length_app.
  rewrite (wf_used _ _ _ H0), (wf_used _ _ _ H1). lia.
Qed.

(** A state with the same fixed part and, up to order, the same entries. *)
Definition same_entries (d d' : dict) : Prop :=
  entries d' ≡ₚ entries d /\ pauserehash d' = pauserehash d /\ freed_log d' = freed_log d.

#[export] Instance same_entries_equiv : Equivalence same_entries.
Proof.
  split; unfold same_entries.
  - done.
  - intros d d' (? & ? & ?). by split_and!.
  - intros d1 d2 d3 (E1 & ? & ?) (E2 & ? & ?). rewrite E2, E1. split_and!; [done|congruence..].
Qed.

Lemma rehash_skip_spec fuel : forall (d : dict) ev j b,
  (ht_table d).1 !! j = Some b -> is_NULL b = false ->
  0 <= rehashidx d <= Z.of_nat j -> Z.of_nat j - rehashidx d < Z.of_nat fuel ->
  exists ri, rehashidx d <= ri <= Z.of_nat j /\
    (forall i, rehashidx d <= Z.of_nat i < ri -> (ht_table d).1 !! i = Some NULL) /\
    ((rehash_skip fuel d ev = Some (inl (set_rehashidx d ri)) /\ ev = ri - rehashidx d) \/
     (rehash_skip fuel d ev = Some (inr (set_rehashidx d ri, ev - (ri - rehashidx d))) /\
      exists b', (ht_table d).1 !! Z.to_nat ri = Some b' /\ is_NULL b' = false)).
Proof.
  induction fuel as [|fuel IH]; intros d ev j b Hj Hb Hr Hf; [lia|]. cbn [rehash_skip].
  destruct (lookup_lt_is_Some_2 (ht_table d).1 (Z.to_nat (rehashidx d))) as [c Hc].
  { apply lookup_lt_Some in Hj. lia. }
  unfold bucket. zb. cbn [sel]. rewrite Hc. cbn [mbind option_bind].
  destruct (is_NULL c) eqn:En.
  2:{ exists (rehashidx d). split; [lia|]. split; [intros; lia|]. right.
      rewrite Z.sub_diag, Z.sub_0_r. split; [by destruct d|eauto]. }
  assert (c = NULL) as -> by (by destruct c).
  assert (Z.of_nat j <> rehashidx d).
  { intros E. rewrite <- E, Nat2Z.id in Hc. by simplify_eq. }
  destruct (Z.eqb_spec (ev - 1) 0).
  - exists (rehashidx d + 1). split; [lia|]. split; [|left; split; [done|lia]].
    intros i Hi. by replace i with (Z.to_nat (rehashidx d)) by lia.
  - destruct (IH (set_rehashidx d (rehashidx d + 1)) (ev - 1) j b) as (ri & Hri & HN & Hres);
      try (by simpl); simpl in *; try lia.
    exists ri. split; [lia|]. split.
    + intros i Hi. destruct (decide (Z.of_nat i = rehashidx d)); [by replace i with (Z.to_nat (rehashidx d)) by lia|].
      apply HN. lia.
    + destruct Hres as [[-> ?]|[-> Hb']]; [left; split; [done|lia]|right; split; [|done]].
      do 3 f_equal. lia.
Qed.

(** Emptying bucket [rehashidx] of the old table. *)
Lemma rehash_bucket_spec (d : dict) b : wf d -> 0 <= rehashidx d ->
  (ht_table d).1 !! Z.to_nat (rehashidx d) = Some b ->
  exists d1, rehash_chain T d b = Some d1 /\
    let d2 := set_rehashidx (set_bucket d1 false (rehashidx d1) NULL) (rehashidx d1 + 1) in
    wf d2 /\ same_entries d d2 /\ rehashidx d2 = rehashidx d + 1 /\ ht_size_exp d2 = ht_size_exp d.
Proof.
  intros HW Hri Hb. destruct (wf_rehash _ HW) as [[? _]|(_ & H0 & H1 & Hne & HN)]; [lia|].
  pose proof (wf_buckets _ _ _ (wf_0 _ HW) _ _ Hb) as [HS HF].
  rewrite Z2Nat.id in HF by lia.
  destruct (rehash_chain_spec b d (wf_1 _ HW) H0 H1 HS HF) as (d1 & E & t1 & -> & HW1 & HP).
  eexists. split; [exact E|].
  assert (entries_of (<[Z.to_nat (rehashidx d):=NULL]> (ht_table d).1) ++ entries_of t1 ≡ₚ entries d) as HE.
  { destruct (entries_of_bucket _ _ _ Hb) as (rest & Hr & Hr'). unfold entries.
    rewrite (Hr' NULL), HP, Hr. simpl. solve_Permutation. }
  dsimp.
  split; [|by split_and!]. split; unfold wf_mode, entries; dsimp; try done.
  - rewrite <- (Z.add_0_r (_ - _)). replace ((ht_used d).1 - Z.of_nat (length (chain_list b)) + 0)
      with ((ht_used d).1 + Z.of_nat (length (chain_list (V:=V) (K:=K) NULL)) - Z.of_nat (length (chain_list b)))
      by (simpl; lia).
    eapply wf_table_update; [apply HW|done|]. split; [done|constructor].
  - rewrite (ckeys_perm _ _ HE). apply HW.
  - right. rewrite length_insert. apply lookup_lt_Some in Hb as Hlt0. split; [lia|]. split_and!; try lia.
    intros i c Hi Hlt. destruct (decide (i = Z.to_nat (rehashidx d))) as [->|].
    + rewrite list_lookup_insert_eq in Hi by (by eapply lookup_lt_Some). by simplify_eq.
    + rewrite list_lookup_insert_ne in Hi by done. eapply HN; eauto. lia.
Qed.

(** A non-empty old table has a non-empty bucket at or after [rehashidx]. *)
Lemma rehash_pending (d : dict) : wf d -> 0 <= rehashidx d -> (ht_used d).1 <> 0 ->
  exists j b, (ht_table d).1 !! j = Some b /\ is_NULL b = false /\ rehashidx d <= Z.of_nat j.
Proof.
  intros HW Hri Hu. destruct (wf_rehash _ HW) as [[? _]|(_ & H0 & H1 & Hne & HN)]; [lia|].
  rewrite (wf_used _ _ _ (wf_0 _ HW)) in Hu.
  destruct (entries_of (ht_table d).1) as [|e l] eqn:E; [done|].
  destruct (proj1 (elem_of_entries_of (ht_table d).1 e)) as (j & b & Hj & He).
  { rewrite E. by apply list_elem_of_here. }
  exists j, b. split; [done|]. split.
  - destruct (is_NULL b) eqn:En; [|done]. apply chain_list_NULL in En. rewrite En in He. by apply elem_of_nil in He.
  - destruct (decide (rehashidx d <= Z.of_nat j)); [done|].
    rewrite (HN j b Hj ltac:(lia)) in He. by apply elem_of_nil in He.
Qed.

Lemma wf_advance (d : dict) ri : wf d -> 0 <= rehashidx d <= ri ->
  (forall i, rehashidx d <= Z.of_nat i < ri -> (ht_table d).1 !! i = Some NULL) ->
  wf (set_rehashidx d ri).
Proof.
  intros [W0 W1 HU [[? _]|(Hr & H0 & H1 & Hne & HN)]] Hri Hnull; [lia|].
  split; simpl; auto. right. simpl. split.
  { destruct (decide (ri = rehashidx d)) as [->|]; [done|].
    specialize (Hnull (Z.to_nat (ri - 1)) ltac:(lia)). apply lookup_lt_Some in Hnull. lia. }
  split_and!; auto.
  intros i b Hi Hlt. destruct (decide (Z.of_nat i < rehashidx d)); [by eapply HN|].
  rewrite Hnull in Hi by lia. by simplify_eq.
Qed.

Lemma wf_table_len d : wf d -> 0 <= (ht_size_exp d).1 ->
  Z.of_nat (length (ht_table d).1) = DICTHT_SIZE (ht_size_exp d).1.
Proof.
  intros HW H0. rewrite size_pow by done.
  destruct (wf_size _ _ _ (wf_0 _ HW)) as [[? _]|[_ ?]]; [lia|done].
Qed.

Lemma rehash_loop_spec n : forall (d : dict) ev, wf d -> 0 <= rehashidx d ->
  exists r, rehash_loop T n d ev = Some r /\
    let d' := match r with inl d' | inr d' => d' end in
    wf d' /\ 0 <= rehashidx d' /\ same_entries d d' /\ ht_size_exp d' = ht_size_exp d /\
    (DICTHT_SIZE (ht_size_exp d).1 - rehashidx d <= Z.of_nat n ->
     DICTHT_SIZE (ht_size_exp d).1 - rehashidx d < ev -> r = inr d' /\ (ht_used d').1 = 0).
Proof.
  induction n as [|n IH]; intros d ev HW Hri; cbn [rehash_loop].
  { exists (inr d). split; [done|]. split_and!; auto; [done|]. intros Hle _. split; [done|].
    destruct (decide ((ht_used d).1 = 0)); [done|].
    destruct (rehash_pending d HW Hri) as (j & b & Hj & _ & ?); [done|].
    destruct (wf_rehash _ HW) as [[? _]|(_ & H0 & _)]; [lia|].
    apply lookup_lt_Some in Hj. rewrite <- wf_table_len in Hle by done. lia. }
  destruct (Z.eqb_spec (ht_used d).1 0) as [Eu|Hu].
  { exists (inr d). split; [done|]. by split_and!. }
  destruct (rehash_pending d HW Hri Hu) as (j & b & Hj & Hb & Hge).
  destruct (wf_rehash _ HW) as [[? _]|(_ & H0 & _)]; [lia|].
  pose proof (wf_table_len d HW H0) as Hlen. pose proof (lookup_lt_Some _ _ _ Hj).
  zb. destruct (rehash_skip_spec (S (length (ht_table d).1)) d ev j b Hj Hb) as (ri & Hr & HN & Hres);
    [lia|lia|].
  pose proof (wf_advance d ri HW ltac:(lia) HN) as HWr.
  destruct Hres as [[-> Hev]|(-> & b' & Hb' & _)]; cbn [mbind option_bind].
  { eexists. split; [done|]. simpl. split_and!; auto; [lia|done|]. intros _ ?. lia. }
  unfold bucket. cbn [rehashidx set_rehashidx ht_table sel]. zb. rewrite Hb'. cbn [mbind option_bind].
  destruct (rehash_bucket_spec (set_rehashidx d ri) b' HWr) as (d1 & -> & HW2 & HE & Hi2 & He2);
    [simpl; lia|done|]. cbn [mbind option_bind].
  destruct (IH _ (ev - (ri - rehashidx d)) HW2) as (r & E & HWd & Hrd & HEd & Hexp & Hlive); [simpl in *; lia|].
  exists r. split; [exact E|]. split_and!; auto.
  - etrans; [|exact HEd]. etrans; [|exact HE]. done.
  - by rewrite Hexp, He2.
  - intros. apply Hlive; rewrite He2, Hi2; simpl; lia.
Qed.

Section Resize.
Context (dict_can_resize : dictResizeEnable).

Lemma dictIsRehashing_true (d : dict) : wf d -> dictIsRehashing d = true ->
  0 <= rehashidx d /\ 0 <= (ht_size_exp d).1 /\ 0 <= (ht_size_exp d).2.
Proof.
  intros HW. unfold dictIsRehashing. destruct (wf_rehash _ HW) as [[-> _]|(? & ? & ? & _)]; [done|lia].
Qed.

Lemma dictIsRehashing_false (d : dict) : wf d -> dictIsRehashing d = false ->
  rehashidx d = -1 /\ (ht_size_exp d).2 = -1 /\ (ht_table d).2 = [] /\ (ht_used d).2 = 0.
Proof.
  intros HW. unfold dictIsRehashing. destruct (wf_rehash _ HW) as [[-> E]|(? & _)]; [|lia].
  intros _. destruct (wf_size _ _ _ (wf_1 _ HW)) as [[_ Et]|[? _]]; [|lia].
  split_and!; auto. rewrite (wf_used _ _ _ (wf_1 _ HW)), Et. done.
Qed.

Lemma wf_finish (d : dict) : wf d -> 0 <= rehashidx d -> (ht_used d).1 = 0 ->
  let d' := set_rehashidx (_dictReset (set_exp (set_used (set_table d false (ht_table d).2) false
              (ht_used d).2) false (ht_size_exp d).2) true) (-1) in
  wf d' /\ same_entries d d' /\ dictIsRehashing d' = false.
Proof.
  intros HW Hri Hu d'.
  assert (entries_of (ht_table d).1 = []) as E0.
  { apply length_zero_iff_nil. pose proof (wf_used _ _ _ (wf_0 _ HW)). lia. }
  assert (entries d' = entries d) as EE.
  { unfold entries, d', _dictReset. dsimp. rewrite E0. simpl. by rewrite app_nil_r. }
  split; [|split; [|done]].
  - split; [apply HW|by apply wf_table_None|rewrite EE; apply HW|by left].
  - unfold same_entries. rewrite EE. done.
Qed.

Lemma rehash_spec (d : dict) n : wf d ->
  exists d' r, dictRehash T dict_can_resize d n = Some (d', r) /\ wf d' /\ same_entries d d' /\
    (r = 1 \/ r = 0) /\
    (dict_can_resize = DICT_RESIZE_ENABLE -> (0 < n)%nat ->
     DICTHT_SIZE (ht_size_exp d).1 <= Z.of_nat n -> r = 0 /\ dictIsRehashing d' = false).
Proof.
  intros HW. unfold dictRehash. destruct (dictIsRehashing d) eqn:ER.
  2:{ rewrite orb_true_r. exists d, 0. split_and!; auto; done. }
  destruct (dictIsRehashing_true d HW ER) as (Hri & H0 & H1).
  rewrite orb_false_r. case_bool_decide as EF.
  { exists d, 0. split_and!; auto; [done|]. congruence. }
  destruct (bool_decide (dict_can_resize = DICT_RESIZE_AVOID) && _) eqn:EA.
  { exists d, 0. split_and!; auto; [done|]. intros ->. by rewrite bool_decide_eq_false_2 in EA. }
  destruct (rehash_loop_spec n d (Z.of_nat n * 10) HW Hri) as (r & -> & HW' & Hri' & HE & Hexp & Hlive).
  cbn [mbind option_bind]. destruct r as [d'|d'].
  - exists d', 1. split_and!; auto. intros _ Hn Hs.
    destruct Hlive as [? _]; [lia|lia|done].
  - destruct (Z.eqb_spec (ht_used d').1 0) as [Eu|Hu].
    + destruct (wf_finish d' HW' Hri' Eu) as (HWf & HEf & HRf).
      do 2 eexists. split; [done|]. split_and!; auto. by rewrite HE.
    + exists d', 1. split_and!; auto. intros _ Hn Hs. destruct Hlive as [_ ?]; lia.
Qed.

Lemma rehash_step_spec (d : dict) : wf d ->
  exists d', rehash_step_if T dict_can_resize d = Some d' /\ wf d' /\ same_entries d d'.
Proof.
  intros HW. unfold rehash_step_if, _dictRehashStep.
  destruct (dictIsRehashing d); [|by exists d].
  case_match; [|by exists d].
  destruct (rehash_spec d 1 HW) as (d' & r & -> & HW' & HE & _). by exists d'.
Qed.

(** *** Expansion *)

Lemma nextExp_spec size : 0 <= size < 2 ^ 62 ->
  2 <= _dictNextExp size <= 62 /\ size <= 2 ^ _dictNextExp size /\
  (4 < size -> 2 ^ (_dictNextExp size - 1) < size).
Proof.
  intros Hs. unfold _dictNextExp, LONG_MAX, clzl.
  change (Z.shiftl 1 2) with 4. destruct (Z.leb_spec size 4); [simpl; lia|].
  zb. replace (8 * 8 - (63 - Z.log2 (size - 1))) with (Z.log2 (size - 1) + 1) by lia.
  pose proof (Z.log2_spec (size - 1) ltac:(lia)) as [Hl Hh].
  pose proof (Z.log2_le_mono 4 (size - 1) ltac:(lia)) as Hlow. change (Z.log2 4) with 2 in Hlow.
  assert (Z.log2 (size - 1) < 62) by (apply Z.log2_lt_pow2; lia).
  rewrite <- Z.add_1_r in Hh. replace (Z.log2 (size - 1) + 1 - 1) with (Z.log2 (size - 1)) by lia. lia.
Qed.

Lemma nextExp_range size : 0 <= size < 2 ^ 64 -> 2 <= _dictNextExp size <= 63.
Proof.
  intros Hs. destruct (decide (size < 2 ^ 62)); [pose proof (nextExp_spec size); lia|].
  unfold _dictNextExp, LONG_MAX, clzl.
  change (Z.shiftl 1 2) with 4. zb. rewrite Z.geb_leb. case_zb; [lia|].
  assert (62 <= Z.log2 (size - 1) + 1 <= 63); [|lia].
  pose proof (Z.log2_le_mono (2 ^ 61) (size - 1) ltac:(lia)) as H'. change (Z.log2 (2 ^ 61)) with 61 in H'.
  assert (Z.log2 (size - 1) < 63) by (apply Z.log2_lt_pow2; lia). lia.
Qed.

Lemma newsize_ok e : 2 <= e <= 63 ->
  u64 (Z.shiftl 1 e) = 2 ^ e /\ ((u64 (2 ^ e * 8) <? 2 ^ e) = false -> e <= 60).
Proof.
  intros He. rewrite Z.shiftl_mul_pow2, Z.mul_1_l by lia. split.
  - apply wrap_id. split; [apply Z.pow_nonneg; lia|apply Z.pow_lt_mono_r; lia].
  - intros Hf. destruct (decide (e <= 60)); [done|]. exfalso.
    assert (e = 61 \/ e = 62 \/ e = 63) as [->|[->| ->]] by lia; discriminate.
Qed.

Lemma expand_spec (d : dict) size tc : wf d -> 0 <= size < 2 ^ 64 ->
  let '(d', r, _) := _dictExpand d size tc in
  wf d' /\ entries d' = entries d /\ same_entries d d' /\ (r = DICT_OK \/ r = DICT_ERR) /\
  (r = DICT_OK -> 0 <= (ht_size_exp d').1).
Proof.
  intros HW Hs. unfold _dictExpand. destruct (dictIsRehashing d) eqn:ER; cbn [orb]; [by split_and!; auto|].
  destruct (dictIsRehashing_false d HW ER) as (Hri & E1 & T1 & U1).
  destruct ((ht_used d).1 >? size); [by split_and!; auto|].
  pose proof (nextExp_range size Hs) as Hr. set (e := _dictNextExp size) in *.
  destruct (newsize_ok e Hr) as [-> Hov]. unfold sizeof_dictEntry_ptr.
  destruct (2 ^ e <? size); cbn [orb]; [by split_and!; auto|].
  destruct (u64 (2 ^ e * 8) <? 2 ^ e) eqn:Eo; [by split_and!; auto|]. specialize (Hov eq_refl).
  destruct (Z.eqb_spec e (ht_size_exp d).1) as [|Hne]; [by split_and!; auto|].
  destruct (bool_decide _); [by split_and!; auto|].
  pose proof (wf_table_fresh e ltac:(lia)) as HF. destruct HW as [W0 W1 HU HM].
  destruct (ht_table d).1 as [|b0 t0] eqn:E0.
  - assert (entries (set_table (set_used (set_exp d false e) false 0) false (replicate (Z.to_nat (2 ^ e)) NULL)) = entries d) as EE.
    { unfold entries. dsimp. by rewrite E0, entries_of_replicate. }
    split_and!; auto; [|unfold same_entries; by rewrite EE|simpl; lia].
    split; unfold wf_mode; rewrite ?EE; dsimp; auto.
  - assert (0 <= (ht_size_exp d).1).
    { destruct (wf_size _ _ _ W0) as [[_ ?]|[? _]]; [done|lia]. }
    assert (entries (set_rehashidx (set_table (set_used (set_exp d true e) true 0) true (replicate (Z.to_nat (2 ^ e)) NULL)) 0) = entries d) as EE.
    { unfold entries. dsimp. by rewrite T1, entries_of_replicate. }
    split_and!; auto; [|unfold same_entries; by rewrite EE].
    split; unfold wf_mode; rewrite ?EE; dsimp; auto; [by rewrite E0|].
    right. split_and!; auto; lia.
Qed.

Lemma expand_succeeds (d : dict) size : wf d -> dictIsRehashing d = false ->
  0 <= (ht_used d).1 <= size -> size < 2 ^ 60 -> (ht_size_exp d).1 <> _dictNextExp size ->
  (dictExpand d size).2 = DICT_OK.
Proof.
  intros HW ER Hu Hs Hne. unfold dictExpand, _dictExpand. rewrite ER. cbn [orb]. zb.
  destruct (nextExp_spec size) as (He & Hle & Hlow); [lia|]. set (e := _dictNextExp size) in *.
  destruct (newsize_ok e) as [-> _]; [lia|]. unfold sizeof_dictEntry_ptr.
  assert (e <= 60).
  { destruct (decide (4 < size)); [|assert (e = 2) by (unfold e, _dictNextExp; change DICT_HT_INITIAL_SIZE with 4; zb; done); lia].
    assert (e - 1 < 60); [|lia]. apply (Z.pow_lt_mono_r_iff 2); lia. }
  assert (2 ^ e <= 2 ^ 60) by (apply Z.pow_le_mono_r; lia).
  rewrite (wrap_id 64) by (unfold in_u; lia). zb. rewrite bool_decide_eq_false_2 by done.
  by destruct (ht_table d).1.
Qed.

(** [_dictExpandIfNeeded] never fails, and leaves table 0 allocated. *)
Lemma expandIfNeeded_spec (d : dict) : wf d -> dictSize d < 2 ^ 59 ->
  exists d', _dictExpandIfNeeded T dict_can_resize d = (d', DICT_OK) /\ wf d' /\ same_entries d d' /\
    0 <= (ht_size_exp d').1.
Proof.
  intros HW Hn. unfold _dictExpandIfNeeded. destruct (dictIsRehashing d) eqn:ER.
  { destruct (dictIsRehashing_true d HW ER) as (_ & ? & _). exists d. by split_and!. }
  destruct (dictIsRehashing_false d HW ER) as (_ & _ & _ & U1).
  unfold dictSize in Hn. pose proof (wf_used _ _ _ (wf_0 _ HW)) as U0.
  assert (forall size, 0 <= (ht_used d).1 <= size -> size < 2 ^ 60 -> (ht_size_exp d).1 <> _dictNextExp size ->
    exists d', dictExpand d size = (d', DICT_OK) /\ wf d' /\ same_entries d d' /\ 0 <= (ht_size_exp d').1) as HX.
  { intros size Hu Hs Hne. pose proof (expand_succeeds d size HW ER Hu Hs Hne) as HS.
    pose proof (expand_spec d size None HW ltac:(lia)) as HE. unfold dictExpand in *.
    destruct (_dictExpand d size None) as [[d' r] mf]. simpl in HS. subst r. exists d'.
    destruct HE as (? & ? & ? & ? & HP). split_and!; auto. }
  destruct (wf_size _ _ _ (wf_0 _ HW)) as [[Ee Et]|[He Hl]].
  { rewrite Ee. simpl. apply HX; rewrite ?Ee.
    - rewrite U0, Et. simpl. change DICT_HT_INITIAL_SIZE with 4. lia.
    - change DICT_HT_INITIAL_SIZE with 4. lia.
    - by compute. }
  rewrite size_pow by lia. pose proof (Z.pow_pos_nonneg 2 (ht_size_exp d).1 ltac:(lia) ltac:(lia)). zb.
  assert (exists d', (d, DICT_OK) = (d', DICT_OK) /\ wf d' /\ same_entries d d' /\ 0 <= (ht_size_exp d').1)
    as Hid by (exists d; split_and!; auto; [done|lia]).
  destruct (_ || _) eqn:Ec; [|done]. destruct (dictTypeExpandAllowed T d); [|exact Hid].
  assert (2 ^ (ht_size_exp d).1 <= (ht_used d).1).
  { apply orb_true_iff in Ec as [[_ Ec]%andb_true_iff|[_ Ec]%andb_true_iff]; [lia|].
    apply Z.gtb_lt in Ec.
    pose proof (Z.mul_div_le (ht_used d).1 (2 ^ (ht_size_exp d).1)). nia. }
  apply HX; [lia|lia|]. destruct (nextExp_spec ((ht_used d).1 + 1)) as (_ & Hle & _); [lia|].
  intros E. rewrite <- E in Hle. lia.
Qed.

(** *** Searching and updating one bucket *)

(** [ref] points to entry [(k, v)] of the dict, whose entry structure is [he]. *)
Definition points_to (d : dict) (ref : entry_ref) (he : entry) (k : K) (v : option V) : Prop :=
  let '(t, idx, n) := ref in
  0 <= idx /\ exists b, sel (ht_table d) t !! Z.to_nat idx = Some b /\
    chain_list b !! n = Some (k, v) /\ chain_nth b n = Some he /\ entry_kv he = Some (k, v).

Lemma bucket_lookup (d : dict) t i b : 0 <= i ->
  sel (ht_table d) t !! Z.to_nat i = Some b -> bucket d t i = Some b.
Proof. intros. unfold bucket. by zb. Qed.

Lemma chain_find_result m (d : dict) t idx b n he : 0 <= idx ->
  sel (ht_table d) t !! Z.to_nat idx = Some b -> chain_find m b = Some (n, he) ->
  exists k v, points_to d (t, idx, n) he k v /\ m k = true.
Proof.
  intros Hi Hb Hf. apply chain_find_Some in Hf as (k & v & Hl & Hm & Hkv & Hn).
  exists k, v. split; [|done]. split; [done|]. eauto.
Qed.

(** The key of a table's entry is only in the bucket its hash selects. *)
Lemma chain_find_absent key e tbl u b : wf_table e tbl u ->
  tbl !! Z.to_nat (Z.land (hashFunction T key) (DICTHT_SIZE_MASK e)) = Some b ->
  chain_find (key_match T key) b = None -> canon key ∉ ckeys (entries_of tbl).
Proof.
  intros HW Hb Hf Hin. apply chain_find_None in Hf. rewrite Forall_forall in Hf.
  unfold ckeys in Hin. apply list_elem_of_fmap in Hin as ([k v] & Hc & He). simpl in Hc.
  apply elem_of_entries_of in He as (i & c & Hi & Hel).
  destruct (wf_buckets _ _ _ HW _ _ Hi) as [_ HF]. rewrite Forall_forall in HF.
  pose proof (HF _ Hel) as Hidx. simpl in Hidx.
  assert (hashFunction T k = hashFunction T key) as Hh by (apply hash_canon; congruence).
  rewrite Hh in Hidx. rewrite Hidx, Nat2Z.id in Hb. simplify_eq.
  assert (key_match T key k = true) by (by apply match_canon). specialize (Hf _ Hel). simpl in Hf. congruence.
Qed.

Lemma tables_find_spec (d : dict) key : wf d -> 0 <= (ht_size_exp d).1 ->
  exists r, tables_find (key_match T key) d (hashFunction T key) = Some r /\
    match r with
    | Some (ref, he) => exists k v, points_to d ref he k v /\ canon k = canon key
    | None => canon key ∉ ckeys (entries d)
    end.
Proof.
  intros HW H0. unfold tables_find. cbv zeta.
  pose proof (land_mask_range (hashFunction T key) _ H0) as R0.
  destruct (wf_bucket_lookup _ _ _ (hashFunction T key) (wf_0 _ HW) H0) as [b0 B0].
  rewrite (bucket_lookup d false _ b0 (proj1 R0) B0). cbn [mbind option_bind].
  destruct (chain_find (key_match T key) b0) as [[n he]|] eqn:F0.
  { eexists. split; [done|]. destruct (chain_find_result _ d false _ b0 n he (proj1 R0) B0 F0) as (k & v & HP & Hm).
    exists k, v. split; [done|]. symmetry. by apply match_canon. }
  pose proof (chain_find_absent key _ _ _ _ (wf_0 _ HW) B0 F0) as N0.
  destruct (dictIsRehashing d) eqn:ER; cbn [negb].
  - destruct (dictIsRehashing_true d HW ER) as (_ & _ & H1).
    pose proof (land_mask_range (hashFunction T key) _ H1) as R1.
    destruct (wf_bucket_lookup _ _ _ (hashFunction T key) (wf_1 _ HW) H1) as [b1 B1].
    rewrite (bucket_lookup d true _ b1 (proj1 R1) B1). cbn [mbind option_bind].
    destruct (chain_find (key_match T key) b1) as [[n he]|] eqn:F1.
    + eexists. split; [done|]. destruct (chain_find_result _ d true _ b1 n he (proj1 R1) B1 F1) as (k & v & HP & Hm).
      exists k, v. split; [done|]. symmetry. by apply match_canon.
    + eexists. split; [done|]. unfold entries. rewrite ckeys_app, elem_of_app.
      pose proof (chain_find_absent key _ _ _ _ (wf_1 _ HW) B1 F1). tauto.
  - eexists. split; [done|]. destruct (dictIsRehashing_false d HW ER) as (_ & _ & T1 & _).
    unfold entries. rewrite T1, app_nil_r. done.
Qed.

(** Replacing the chain of one bucket, with the matching change of [ht_used]. *)
Lemma wf_set_bucket (d : dict) t i b b' u : wf d -> 0 <= i ->
  sel (ht_table d) t !! Z.to_nat i = Some b -> wf_bucket (sel (ht_size_exp d) t) (Z.to_nat i) b' ->
  (t = dictIsRehashing d \/ chain_list b <> []) ->
  u = sel (ht_used d) t + Z.of_nat (length (chain_list b')) - Z.of_nat (length (chain_list b)) ->
  exists rest, entries d ≡ₚ chain_list b ++ rest /\
    entries (set_used (set_bucket d t i b') t u) ≡ₚ chain_list b' ++ rest /\
    (NoDup (ckeys (chain_list b' ++ rest)) -> wf (set_used (set_bucket d t i b') t u)).
Proof.
  intros HW Hi Hb Hb' Hmode ->. destruct (entries_of_bucket _ _ _ Hb) as (rest & Hr & Hr').
  exists (rest ++ entries_of (sel (ht_table d) (negb t))).
  assert (entries d ≡ₚ chain_list b ++ rest ++ entries_of (sel (ht_table d) (negb t))) as E1.
  { unfold entries. destruct t; cbn [sel negb] in *; rewrite Hr; solve_Permutation. }
  assert (entries (set_used (set_bucket d t i b') t (sel (ht_used d) t + Z.of_nat (length (chain_list b')) -
      Z.of_nat (length (chain_list b)))) ≡ₚ chain_list b' ++ rest ++ entries_of (sel (ht_table d) (negb t))) as E2.
  { unfold entries. destruct t; cbn [sel negb] in *; dsimp; rewrite (Hr' b'); solve_Permutation. }
  split; [done|]. split; [done|]. intros HN.
  pose proof HW as [W0 W1 _ HM].
  split; [destruct t; dsimp; [done|by eapply wf_table_update]
         |destruct t; dsimp; [by eapply wf_table_update|done]
         |rewrite (ckeys_perm _ _ E2); done|].
  destruct HM as [[? ?]|(Hri & H0 & H1 & Hne & HNull)]; [left; destruct t; by dsimp|right].
  destruct t; dsimp; rewrite ?length_insert; (split; [lia|]); split_and!; auto.
  intros j c Hj Hlt. destruct (decide (j = Z.to_nat i)) as [->|].
  - assert (dictIsRehashing d = true) as ER by (unfold dictIsRehashing; zb; done).
    destruct Hmode as [|Hne']; [congruence|]. exfalso. apply Hne'.
    cbn [sel] in Hb. by rewrite (HNull _ _ Hb ltac:(lia)).
  - rewrite list_lookup_insert_ne in Hj by done. eauto.
Qed.

Lemma points_to_nonempty (d : dict) t idx n he k v b : points_to d (t, idx, n) he k v ->
  sel (ht_table d) t !! Z.to_nat idx = Some b -> chain_list b !! n = Some (k, v) /\ chain_list b <> [].
Proof.
  intros (_ & b' & Hb' & Hl & _) Hb. simplify_eq. split; [done|]. intros E. rewrite E, lookup_nil in Hl. done.
Qed.

Lemma wf_bucket_of (d : dict) t i b : wf d -> sel (ht_table d) t !! i = Some b ->
  wf_bucket (sel (ht_size_exp d) t) i b.
Proof. intros HW. destruct t; eapply wf_buckets; apply HW. Qed.

Definition same_ctl (d d' : dict) : Prop :=
  pauserehash d' = pauserehash d /\ freed_log d' = freed_log d.

(** Storing a value in an entry. *)
Lemma setVal_spec (d : dict) ref he k v val : wf d -> points_to d ref he k v -> no_value T = false ->
  exists d' rest, dictSetVal T d ref val = Some d' /\ wf d' /\ same_ctl d d' /\
    entries d ≡ₚ (k, v) :: rest /\
    entries d' ≡ₚ (k, Some (match valDup T with Some f => f val | None => val end)) :: rest.
Proof.
  destruct ref as [[t idx] n]. intros HW HP HT. pose proof HP as (Hi & b & Hb & Hl & _).
  set (v' := Some (match valDup T with Some f => f val | None => val end)).
  destruct (wf_bucket_of d t _ b HW Hb) as [HS HF].
  destruct (chain_alter_spec T b n k v v' Hl HS HT) as (b' & Ha & Hl' & HS').
  unfold dictSetVal, bucket. zb. rewrite Hb. cbn [mbind option_bind]. fold v'. rewrite Ha. cbn [mbind option_bind].
  destruct (wf_set_bucket d t idx b b' (sel (ht_used d) t)) as (rest & E & E' & HWf); auto.
  { split; [done|]. rewrite Hl'. apply Forall_insert; [done|]. simpl.
    rewrite Forall_forall in HF. apply (HF (k, v)). by eapply list_elem_of_lookup_2. }
  { right. eapply points_to_nonempty; eauto. }
  { rewrite Hl', length_insert. lia. }
  assert (set_used (set_bucket d t idx b') t (sel (ht_used d) t) = set_bucket d t idx b') as Es.
  { destruct d as [[][][]], t; done. }
  rewrite Es in *.
  pose proof (delete_Permutation (chain_list b) n (k, v) Hl) as Hp.
  exists (set_bucket d t idx b'), (delete n (chain_list b) ++ rest).
  assert (chain_list b' ≡ₚ (k, v') :: delete n (chain_list b)) as Hp'.
  { rewrite Hl'. apply insert_delete_Permutation. by eapply lookup_lt_Some. }
  split; [done|]. split_and!.
  - apply HWf. rewrite (ckeys_perm _ _ (Permutation_app_tail rest Hp')).
    destruct HW as [_ _ HU _]. rewrite (ckeys_perm _ _ E), (ckeys_perm _ _ (Permutation_app_tail rest Hp)) in HU. exact HU.
  - by destruct t.
  - etrans; [exact E|]. exact (Permutation_app_tail rest Hp).
  - etrans; [exact E'|]. exact (Permutation_app_tail rest Hp').
Qed.

Lemma NoDup_ckeys_perm l l' : l ≡ₚ l' -> NoDup (ckeys l) -> NoDup (ckeys l').
Proof. intros H HN. by rewrite <- (ckeys_perm _ _ H). Qed.

(** Unlinking an entry. *)
Lemma unlink_spec (d : dict) t idx n he k v : wf d -> points_to d (t, idx, n) he k v ->
  exists b b', bucket d t idx = Some b /\ chain_unlink b n = Some b' /\
    let d' := set_used (set_bucket d t idx b') t (sel (ht_used d) t - 1) in
    wf d' /\ same_ctl d d' /\ entries d ≡ₚ (k, v) :: entries d'.
Proof.
  intros HW HP. pose proof HP as (Hi & b & Hb & Hl & _).
  destruct (wf_bucket_of d t _ b HW Hb) as [HS HF].
  destruct (chain_unlink_spec T b n (k, v) Hl HS) as (b' & Hu & Hl' & HS').
  exists b, b'. split; [by apply bucket_lookup|]. split; [done|].
  pose proof (delete_Permutation (chain_list b) n (k, v) Hl) as Hp.
  destruct (wf_set_bucket d t idx b b' (sel (ht_used d) t - 1)) as (rest & E & E' & HWf); auto.
  { split; [done|]. rewrite Hl'. by apply Forall_delete. }
  { right. by eapply points_to_nonempty. }
  { apply Permutation_length in Hp. rewrite Hl'. simpl in Hp. lia. }
  assert (entries d ≡ₚ (k, v) :: chain_list b' ++ rest) as EE.
  { etrans; [exact E|]. rewrite Hl'. exact (Permutation_app_tail rest Hp). }
  cbv zeta. split_and!.
  - apply HWf. destruct HW as [_ _ HU _]. apply (NoDup_ckeys_perm _ _ EE) in HU.
    unfold ckeys in HU. rewrite fmap_cons in HU. by apply NoDup_cons in HU as [_ ?].
  - by destruct t.
  - etrans; [exact EE|]. constructor. by symmetry.
Qed.

Lemma free_entry_spec (d : dict) ref he k v : wf d -> points_to d ref he k v ->
  free_entry T he = Some ((if keyDestructor T then [FreedKey k] else []) ++
                          (if valDestructor T then [FreedVal v] else [])).
Proof.
  destruct ref as [[t idx] n]. intros HW (Hi & b & Hb & Hl & Hn & Hkv).
  destruct (wf_bucket_of d t _ b HW Hb) as [HS _]. unfold free_entry.
  assert (dictGetKey he = Some k) as -> by (destruct he; by simplify_eq/=). cbn [mbind option_bind].
  destruct (valDestructor T) eqn:EV; [|done].
  destruct (no_value T) eqn:EN; [by rewrite (no_value_destructor EN) in EV|].
  by rewrite (chain_nth_val T b n he (k, v) Hn HS Hkv EN).
Qed.

(** Inserting a new key at the head of its bucket. *)
Lemma insertAt_spec (d : dict) key h : wf d -> 0 <= (ht_size_exp d).1 ->
  h = hashFunction T key -> canon key ∉ ckeys (entries d) ->
  exists d' ref he, dictInsertAtPosition T d key
      (dictIsRehashing d, Z.land h (DICTHT_SIZE_MASK (sel (ht_size_exp d) (dictIsRehashing d)))) = Some (d', ref) /\
    wf d' /\ same_ctl d d' /\ entries d' ≡ₚ (key, None) :: entries d /\ points_to d' ref he key None.
Proof.
  intros HW H0 -> Hni. unfold dictInsertAtPosition. set (t := dictIsRehashing d).
  assert (0 <= sel (ht_size_exp d) t) as Ht.
  { unfold t. destruct (dictIsRehashing d) eqn:ER; [|done]. by apply dictIsRehashing_true. }
  pose proof (land_mask_range (hashFunction T key) _ Ht) as Hr.
  set (idx := Z.land (hashFunction T key) (DICTHT_SIZE_MASK (sel (ht_size_exp d) t))) in *.
  rewrite bool_decide_eq_true_2 by done.
  assert ((idx <=? DICTHT_SIZE_MASK (sel (ht_size_exp d) t)) = true) as ->.
  { rewrite mask_ones, Z.ones_equiv by done. lia. }
  zb. assert (exists b, sel (ht_table d) t !! Z.to_nat idx = Some b) as [b Hb].
  { unfold idx. destruct t; eapply wf_bucket_lookup; try done; apply HW. }
  rewrite (bucket_lookup d t idx b) by (done || lia). cbn [mbind option_bind].
  destruct (wf_bucket_of d t _ b HW Hb) as [HS HF].
  assert (exists new, (if no_value T then if negb (dictEntryMetadataBytes T =? 0) then None else
      if keys_are_odd T && is_NULL b then if key_odd T key then Some (EKey key) else None
      else Some (createEntryNoValue key b) else Some (ENormal key None b)) = Some new /\
    chain_list new = (key, None) :: chain_list b /\ shape T new /\ chain_nth new 0 = Some new /\
    entry_kv new = Some (key, None)) as (new & -> & Hl & HSn & Hnth & Hkv).
  { destruct (no_value T) eqn:EN; [rewrite (no_value_meta EN); cbn [negb Z.eqb]|eexists; split; [done|]; done].
    destruct (keys_are_odd T && is_NULL b) eqn:EO; [|eexists; split; [done|]; done].
    apply andb_true_iff in EO as [EO Eb]. rewrite (odd_keys key EO). apply chain_list_NULL in Eb.
    eexists. split; [done|]. simpl. rewrite Eb. done. }
  cbn [mbind option_bind].
  destruct (wf_set_bucket d t idx b new (sel (ht_used d) t + 1)) as (rest & E & E' & HWf); auto; [lia| | |].
  { split; [done|]. rewrite Hl. constructor; [|done]. simpl. unfold idx. rewrite Z2Nat.id by lia. done. }
  { rewrite Hl. cbn [length]. lia. }
  assert (entries (set_used (set_bucket d t idx new) t (sel (ht_used d) t + 1)) ≡ₚ (key, None) :: entries d) as EE.
  { rewrite E', Hl, E. done. }
  exists (set_used (set_bucket d t idx new) t (sel (ht_used d) t + 1)), (t, idx, 0%nat), new.
  split; [by destruct t|]. split; [|split; [by destruct t|split; [done|split; [lia|]]]].
  - apply HWf. rewrite <- (ckeys_perm _ _ E'), (ckeys_perm _ _ EE). unfold ckeys.
    rewrite fmap_cons. apply NoDup_cons. split; [done|]. apply HW.
  - exists new. split; [|rewrite Hl; auto]. unfold set_used, set_bucket, set_table.
    destruct t; cbn [ht_table sel upd fst snd]; (rewrite list_lookup_insert_eq; [done|by eapply lookup_lt_Some]).
Qed.

(** *** The add path *)

Definition dup_key (key : K) : K := match keyDup T with Some f => f key | None => key end.
Definition dup_val (val : V) : V := match valDup T with Some f => f val | None => val end.

Lemma dup_key_canon key : canon (dup_key key) = canon key.
Proof. unfold dup_key. destruct (keyDup T) eqn:E; [|done]. by eapply dup_canon. Qed.

Lemma same_entries_ctl d d' : same_entries d d' -> same_ctl d d'.
Proof. by intros (_ & ? & ?). Qed.

Lemma same_ctl_trans d1 d2 d3 : same_ctl d1 d2 -> same_ctl d2 d3 -> same_ctl d1 d3.
Proof. unfold same_ctl. intros [] []. split; congruence. Qed.

Lemma same_ckeys d d' c : same_entries d d' -> c ∈ ckeys (entries d') <-> c ∈ ckeys (entries d).
Proof. intros (E & _). by rewrite (ckeys_perm _ _ E). Qed.

Lemma findPosition_spec (d : dict) key : wf d -> dictSize d < 2 ^ 59 ->
  exists d', wf d' /\ same_entries d d' /\ 0 <= (ht_size_exp d').1 /\
   ((canon key ∉ ckeys (entries d) /\
     dictFindPositionForInsert T dict_can_resize d key =
       Some (d', Some (dictIsRehashing d', Z.land (hashFunction T key)
         (DICTHT_SIZE_MASK (sel (ht_size_exp d') (dictIsRehashing d')))), None)) \/
    (exists ref he k v, dictFindPositionForInsert T dict_can_resize d key = Some (d', None, Some ref) /\
       points_to d' ref he k v /\ canon k = canon key)).
Proof.
  intros HW Hn. unfold dictFindPositionForInsert, dictHashKey.
  destruct (rehash_step_spec d HW) as (d1 & -> & HW1 & E1). cbn [mbind option_bind].
  assert (dictSize d1 < 2 ^ 59).
  { rewrite entries_length in * by done. destruct E1 as (E1 & _). by rewrite E1. }
  destruct (expandIfNeeded_spec d1 HW1) as (d2 & -> & HW2 & E2 & H0); [done|]. cbn [Z.eqb].
  destruct (tables_find_spec d2 key HW2 H0) as (r & -> & Hr). cbn [mbind option_bind].
  exists d2. assert (same_entries d d2) as E by (by etrans). split_and!; auto.
  destruct r as [[ref he]|].
  - right. destruct Hr as (k & v & HP & Hc). eauto 10.
  - left. split; [|done]. by rewrite <- (same_ckeys d d2).
Qed.

Lemma addRaw_spec (d : dict) key : wf d -> dictSize d < 2 ^ 59 ->
  exists d' r e, dictAddRaw T dict_can_resize d key = Some (d', r, e) /\ wf d' /\ same_ctl d d' /\
   ((canon key ∉ ckeys (entries d) /\ e = None /\ entries d' ≡ₚ (dup_key key, None) :: entries d /\
     exists ref he, r = Some ref /\ points_to d' ref he (dup_key key) None) \/
    (r = None /\ entries d' ≡ₚ entries d /\
     exists ref he k v, e = Some ref /\ points_to d' ref he k v /\ canon k = canon key)).
Proof.
  intros HW Hn. unfold dictAddRaw.
  destruct (findPosition_spec d key HW Hn) as (d1 & HW1 & E1 & H0 & [[Hni ->]|(ref & he & k & v & -> & HP & Hc)]);
    cbn [mbind option_bind].
  - fold (dup_key key).
    destruct (insertAt_spec d1 (dup_key key) (hashFunction T key)) as (d2 & ref & he & -> & HW2 & S2 & E2 & HP); auto.
    { apply hash_canon. by rewrite dup_key_canon. }
    { by rewrite dup_key_canon, (same_ckeys d d1). }
    cbn [mbind option_bind]. do 3 eexists. split; [done|]. split; [done|]. split.
    { eapply same_ctl_trans; [by eapply same_entries_ctl|done]. }
    left. split; [done|]. split; [done|]. split; [|eauto]. destruct E1 as (E1 & _). by rewrite E2, E1.
  - do 3 eexists. split; [done|]. split; [done|]. split; [by eapply same_entries_ctl|].
    right. split; [done|]. split; [by destruct E1|]. eauto 10.
Qed.
End Resize.
End Invariant.
