(* ===== verification/DictMap.v ===== *)
(** * Dict: refinement to a finite map

    The public operations of dict.c against a finite map from canonical keys to
    the stored key and value.  Each theorem gives the result on every branch,
    that the invariant is kept, that incremental rehashing is invisible, and
    what the destructors of the dict's type are called on. *)

From Stdlib Require Import ZArith Lia ZifyBool.
From stdpp Require Import base gmap numbers option list.
From S2P Require Import Prelude Dict DictProof.

Local Open Scope Z_scope.

(** ** The finite map a dict stands for *)
Section Map.
Context {K V C : Type} `{EqDecision K, Countable C} (T : dictType K V) (canon : K -> C)
  `{!DictTypeOk T canon}.
Notation entry := (dictEntry K V).
Notation dict := (dict K V).
Notation ckeys := (@DictProof.ckeys K V C canon).
Notation wf := (DictProof.wf T canon).

Definition tomap (l : list (K * option V)) : gmap C (K * option V) :=
  list_to_map ((fun e => (canon e.1, e)) <$> l).

(** From canonical key to the stored key and its value. *)
Definition amap (d : dict) : gmap C (K * option V) := tomap (entries d).

Lemma tomap_keys l : ((fun e => (canon e.1, e)) <$> l).*1 = ckeys l.
Proof. unfold ckeys. by rewrite <- list_fmap_compose. Qed.

Lemma tomap_perm l l' : l ≡ₚ l' -> NoDup (ckeys l) -> tomap l = tomap l'.
Proof.
  intros HP HN. apply list_to_map_proper; [by rewrite tomap_keys|]. by apply fmap_Permutation.
Qed.

Lemma tomap_lookup_None l c : tomap l !! c = None <-> c ∉ ckeys l.
Proof. unfold tomap. by rewrite <- not_elem_of_list_to_map, tomap_keys. Qed.

Lemma tomap_lookup_cons e l : tomap (e :: l) !! canon e.1 = Some e.
Proof. unfold tomap. simpl. by rewrite lookup_insert_eq. Qed.

Lemma amap_same d d' : wf d -> same_entries d d' -> amap d' = amap d.
Proof. intros HW (E & _). symmetry. apply tomap_perm; [by symmetry|apply HW]. Qed.

Lemma amap_insert d d' k v : wf d' -> entries d' ≡ₚ (k, v) :: entries d ->
  amap d' = <[canon k := (k, v)]> (amap d).
Proof. intros HW E. unfold amap. rewrite (tomap_perm _ _ E) by apply HW. done. Qed.

(** Changing the value of one entry. *)
Lemma amap_alter d d' k v v' rest : wf d -> wf d' -> entries d ≡ₚ (k, v) :: rest ->
  entries d' ≡ₚ (k, v') :: rest ->
  amap d !! canon k = Some (k, v) /\ amap d' = <[canon k := (k, v')]> (amap d).
Proof.
  intros HW HW' E E'. unfold amap.
  rewrite (tomap_perm _ _ E) by apply HW. rewrite (tomap_perm _ _ E') by apply HW'.
  split; [apply (tomap_lookup_cons (k, v))|]. unfold tomap. simpl. by rewrite insert_insert_eq.
Qed.

Lemma amap_delete d d' k v : wf d -> entries d ≡ₚ (k, v) :: entries d' ->
  amap d !! canon k = Some (k, v) /\ amap d' = delete (canon k) (amap d).
Proof.
  intros HW E. pose proof (wf_uniq _ _ _ HW) as HN. apply (NoDup_ckeys_perm _ _ _ E) in HN.
  unfold ckeys in HN. rewrite fmap_cons in HN. apply NoDup_cons in HN as [Hni _].
  unfold amap. rewrite (tomap_perm _ _ E) by apply HW. split; [apply (tomap_lookup_cons (k, v))|].
  unfold tomap. simpl. rewrite delete_insert_id; [done|]. by apply tomap_lookup_None.
Qed.

(** An entry the code points to is the map's binding of its key. *)
Lemma amap_points_to d ref he k v : wf d -> points_to d ref he k v -> amap d !! canon k = Some (k, v).
Proof.
  destruct ref as [[t idx] n]. intros HW HP.
  destruct (unlink_spec T canon d t idx n he k v HW HP) as (b & b' & _ & _ & HW' & _ & E).
  by eapply (amap_delete d).
Qed.

Lemma dictCreate_wf : wf dictCreate.
Proof. split; [by apply wf_table_None..|constructor|by left]. Qed.

Lemma dictCreate_empty : amap dictCreate = ∅.
Proof. done. Qed.

Section Operations.
Context (dict_can_resize : dictResizeEnable).

Lemma nonempty_exp (d : dict) : wf d -> dictSize d <> 0 -> 0 <= (ht_size_exp d).1.
Proof.
  intros HW Hn. rewrite (entries_length T canon) in Hn by done.
  destruct (wf_rehash _ _ _ HW) as [[Hr H2]|(_ & ? & _)]; [|done].
  destruct (wf_0 _ _ _ HW) as [Ht _ _], (wf_1 _ _ _ HW) as [Ht2 _ _].
  unfold entries in Hn. destruct Ht as [[-> H0]|]; [|lia]. rewrite H2 in Ht2. destruct Ht2 as [[_ H3]|]; [|lia].
  rewrite H0, H3 in Hn. simpl in Hn. lia.
Qed.

Lemma empty_map (d : dict) : wf d -> dictSize d = 0 -> amap d = ∅.
Proof.
  intros HW Hn. rewrite (entries_length T canon) in Hn by done.
  unfold amap. destruct (entries d); [done|]. simpl in Hn. lia.
Qed.

(** The lookup all of find, delete and unlink start with. *)
Lemma lookup_spec (d : dict) key : wf d -> dictSize d <> 0 ->
  exists d' r, rehash_step_if T dict_can_resize d = Some d' /\ wf d' /\ same_entries d d' /\
    tables_find (key_match T key) d' (hashFunction T key) = Some r /\
    match r with
    | Some (ref, he) => exists k v, points_to d' ref he k v /\ canon k = canon key /\
        amap d !! canon key = Some (k, v)
    | None => amap d !! canon key = None
    end.
Proof.
  intros HW Hn. destruct (rehash_step_spec T canon dict_can_resize d HW) as (d1 & E1 & HW1 & S1).
  assert (0 <= (ht_size_exp d1).1) as H0.
  { apply nonempty_exp; [done|]. rewrite (entries_length T canon) in * by done. destruct S1 as (S1 & _). by rewrite S1. }
  destruct (tables_find_spec T canon d1 key HW1 H0) as (r & E2 & Hr).
  exists d1, r. split_and!; auto. destruct r as [[ref he]|].
  - destruct Hr as (k & v & HP & Hc). exists k, v. split_and!; auto. rewrite <- Hc.
    rewrite <- (amap_same d d1) by done. by eapply amap_points_to.
  - rewrite <- (amap_same d d1) by done. by apply tomap_lookup_None.
Qed.

(** [dictFind] never fails, keeps the invariant and the map, runs no destructor, and
    returns an entry holding exactly the map's binding of the key, or NULL when
    there is none, whatever rehashing step it performs on the way. *)
Lemma dictFind_spec (d : dict) key : wf d ->
  exists d' r, dictFind T dict_can_resize d key = Some (d', r) /\ wf d' /\ amap d' = amap d /\
    same_ctl d d' /\ r ≫= (fun re => entry_kv re.2) = amap d !! canon key.
Proof.
  intros HW. unfold dictFind. case_zb.
  - exists d, None. by rewrite (empty_map d).
  - destruct (lookup_spec d key HW) as (d1 & r & -> & HW1 & S1 & Hf & Hr); [done|].
    cbn [mbind option_bind]. unfold dictHashKey. rewrite Hf. cbn [mbind option_bind].
    exists d1, r. split_and!; auto using amap_same, same_entries_ctl.
    destruct r as [[[[t i] m] he]|]; [|done]. destruct Hr as (k & v & (_ & b & _ & _ & _ & Hkv) & _ & ->). done.
Qed.

(** The entry is NULL exactly when there is none. *)
Lemma dictFind_member (d : dict) key : wf d ->
  exists d' r, dictFind T dict_can_resize d key = Some (d', r) /\ wf d' /\ amap d' = amap d /\
    (is_Some r <-> is_Some (amap d !! canon key)).
Proof.
  intros HW. unfold dictFind. case_zb.
  - exists d, None. by rewrite (empty_map d), lookup_empty.
  - destruct (lookup_spec d key HW) as (d1 & r & -> & HW1 & S1 & Hf & Hr); [done|].
    cbn [mbind option_bind]. unfold dictHashKey. rewrite Hf. cbn [mbind option_bind].
    exists d1, r. split_and!; auto using amap_same.
    destruct r as [[ref he]|]; [by destruct Hr as (k & v & _ & _ & ->)|]. by rewrite Hr.
Qed.

(** [dictFetchValue] returns the value the map binds the key to (the dict's
    type stores values). *)
Theorem dictFetchValue_correct (d : dict) key : wf d -> no_value T = false ->
  exists d', dictFetchValue T dict_can_resize d key = Some (d', snd <$> amap d !! canon key) /\
    wf d' /\ amap d' = amap d.
Proof.
  intros HW HT. unfold dictFetchValue, dictFind. case_zb.
  - exists d. by rewrite (empty_map d).
  - destruct (lookup_spec d key HW) as (d1 & r & -> & HW1 & S1 & Hf & Hr); [done|].
    cbn [mbind option_bind]. unfold dictHashKey. rewrite Hf. cbn [mbind option_bind].
    exists d1. split_and!; auto using amap_same.
    destruct r as [[[[t i] m] he]|]; [|by rewrite Hr].
    destruct Hr as (k & v & (Hi & b & Hb & _ & Hnth & Hkv) & _ & ->).
    destruct (wf_bucket_of T canon d1 t _ b HW1 Hb) as [HS _].
    by rewrite (chain_nth_val T b m he _ Hnth HS Hkv HT).
Qed.

(** The value a new entry of the dict gets. *)
Definition stored_val (val : V) : option V := if no_value T then None else Some (dup_val T val).

Lemma absent_lookup (d : dict) key : canon key ∉ ckeys (entries d) -> amap d !! canon key = None.
Proof. apply tomap_lookup_None. Qed.

(** [dictAdd]: a key the map does not bind is bound to the duplicated key
    and value and DICT_OK returned; otherwise the map is unchanged and DICT_ERR
    returned.  The table is expanded or rehashed on the way without any effect on the map. *)
Lemma dictAdd_spec (d : dict) key val : wf d -> dictSize d < 2 ^ 59 ->
  exists d' r, dictAdd T dict_can_resize d key val = Some (d', r) /\ wf d' /\ same_ctl d d' /\
    match amap d !! canon key with
    | None => r = DICT_OK /\ amap d' = <[canon key := (dup_key T key, stored_val val)]> (amap d)
    | Some _ => r = DICT_ERR /\ amap d' = amap d
    end.
Proof.
  intros HW Hn. unfold dictAdd.
  destruct (addRaw_spec T canon dict_can_resize d key HW Hn)
    as (d1 & r & e & -> & HW1 & S1 & [(Hni & -> & E1 & ref & he & -> & HP)|(-> & E1 & ref & he & k & v & -> & HP & Hc)]);
    cbn [mbind option_bind].
  - rewrite absent_lookup by done. pose proof (amap_insert d d1 _ _ HW1 E1) as EM.
    rewrite (dup_key_canon T canon) in EM. unfold stored_val. destruct (no_value T) eqn:HT; simpl.
    { do 2 eexists. split; [done|]. eauto. }
    destruct (setVal_spec T canon d1 ref he _ _ val HW1 HP HT) as (d2 & rest & -> & HW2 & S2 & Ea & Eb).
    do 2 eexists. split; [done|]. split; [done|]. split; [by eapply same_ctl_trans|]. split; [done|].
    destruct (amap_alter d1 d2 _ _ _ rest HW1 HW2 Ea Eb) as [_ ->].
    rewrite (dup_key_canon T canon), EM. by rewrite insert_insert_eq.
  - pose proof (amap_points_to d1 ref he k v HW1 HP) as HL.
    assert (amap d1 = amap d) as EM by (apply amap_same; [done|]; split; [done|apply S1]).
    rewrite Hc, EM in HL. rewrite HL. eauto 10.
Qed.

(** [dictReplace] binds the key to the new value whatever the table held;
    a key that was already there stays the stored one, 0 is returned, and
    exactly its old value is handed to the value destructor. *)
Lemma dictReplace_spec (d : dict) key val : wf d -> dictSize d < 2 ^ 59 -> no_value T = false ->
  exists d' r, dictReplace T dict_can_resize d key val = Some (d', r) /\ wf d' /\
    pauserehash d' = pauserehash d /\
    match amap d !! canon key with
    | None => r = 1 /\ amap d' = <[canon key := (dup_key T key, Some (dup_val T val))]> (amap d) /\
        freed_log d' = freed_log d
    | Some (k, v) => r = 0 /\ amap d' = <[canon key := (k, Some (dup_val T val))]> (amap d) /\
        freed_log d' = freed_log d ++ (if valDestructor T then [FreedVal v] else [])
    end.
Proof.
  intros HW Hn HT. unfold dictReplace.
  destruct (addRaw_spec T canon dict_can_resize d key HW Hn)
    as (d1 & r & e & -> & HW1 & S1 & [(Hni & -> & E1 & ref & he & -> & HP)|(-> & E1 & ref & he & k & v & -> & HP & Hc)]);
    cbn [mbind option_bind];
    destruct (setVal_spec T canon d1 ref he _ _ val HW1 HP HT) as (d2 & rest & Es & HW2 & S2 & Ea & Eb);
    destruct (amap_alter d1 d2 _ _ _ rest HW1 HW2 Ea Eb) as [HL EM]; rewrite Es;
    pose proof (same_ctl_trans _ _ _ S1 S2) as [S3 S4].
  - rewrite absent_lookup by done. cbn [mbind option_bind].
    do 2 eexists. split; [done|]. split_and!; auto.
    rewrite EM, (amap_insert d d1 _ _ HW1 E1), (dup_key_canon T canon). by rewrite insert_insert_eq.
  - destruct ref as [[t i] n]. destruct HP as (Hi & b & Hb & _ & Hnth & Hkv).
    destruct (wf_bucket_of T canon d1 t _ b HW1 Hb) as [HS _].
    rewrite (bucket_lookup d1 t i b Hi Hb). cbn [mbind option_bind]. rewrite Hnth. cbn [mbind option_bind].
    rewrite (chain_nth_val T b n he _ Hnth HS Hkv HT). cbn [mbind option_bind].
    assert (amap d1 = amap d) as EM1 by (apply amap_same; [done|]; split; [done|apply S1]).
    rewrite EM1, Hc in HL. rewrite HL. do 2 eexists. split; [done|].
    rewrite EM1, Hc in EM. destruct (valDestructor T); dsimp; rewrite ?app_nil_r, ?S4; split_and!; auto.
    by destruct HW2; split.
Qed.

(** What freeing an entry hands to the destructors. *)
Definition frees (e : K * option V) : list (freed K V) :=
  (if keyDestructor T then [FreedKey e.1] else []) ++ (if valDestructor T then [FreedVal e.2] else []).

Lemma wf_log (d : dict) fs : wf d -> wf (log_freed d fs).
Proof. intros []. by split. Qed.

Lemma wf_pause (d : dict) p : wf d -> wf (set_pause d p).
Proof. intros []. by split. Qed.

(** [dictGenericDelete], on which [dictDelete] and [dictUnlink] rest:
    the binding is removed and its entry returned; unless [nofree] its key and value,
    and nothing else, are handed to the destructors. *)
Lemma dictGenericDelete_spec (d : dict) key nofree : wf d ->
  exists d' he, dictGenericDelete T dict_can_resize d key nofree = Some (d', he) /\ wf d' /\
    he ≫= entry_kv = amap d !! canon key /\ (is_Some he -> is_Some (amap d !! canon key)) /\
    amap d' = delete (canon key) (amap d) /\
    pauserehash d' = pauserehash d /\
    freed_log d' = freed_log d ++
      (if nofree then [] else default [] (frees <$> amap d !! canon key)).
Proof.
  intros HW. unfold dictGenericDelete. case_zb.
  { exists d, None. rewrite (empty_map d), lookup_empty, delete_empty by done.
    split_and!; auto; [by intros []|by destruct nofree; rewrite app_nil_r]. }
  destruct (lookup_spec d key HW) as (d1 & r & -> & HW1 & S1 & Hf & Hr); [done|].
  cbn [mbind option_bind]. unfold dictHashKey. rewrite Hf. cbn [mbind option_bind].
  destruct r as [[[[t i] m] he]|].
  - destruct Hr as (k & v & HP & Hc & HL).
    destruct (unlink_spec T canon d1 t i m he k v HW1 HP) as (b & b' & -> & Hu & HW2 & S2 & E2).
    pose proof (free_entry_spec T canon d1 _ he k v HW1 HP) as Hfr.
    cbn [mbind option_bind]. rewrite Hu. cbn [mbind option_bind].
    destruct (amap_delete d1 _ k v HW1 E2) as [_ EM]. rewrite (amap_same d d1), Hc in EM by done.
    pose proof (same_ctl_trans _ _ _ (same_entries_ctl _ _ S1) S2) as [S3 S4].
    destruct HP as (_ & _ & _ & _ & _ & Hkv).
    exists (log_freed (set_used (set_bucket d1 t i b') t (sel (ht_used d1) t - 1))
       (if nofree then [] else frees (k, v))), (Some he).
    destruct nofree; cbn [negb]; unfold dictFreeUnlinkedEntry; rewrite ?Hfr; cbn [mbind option_bind];
      rewrite HL; (split; [|split; [by apply wf_log|]; split; [done|]; split; [done|]; split; [exact EM|]; split; [exact S3|];
        dsimp; by rewrite <- S4]).
    + unfold log_freed. dsimp. by rewrite app_nil_r.
    + done.
  - exists d1, None. rewrite (amap_same d d1), Hr, delete_id by done.
    split; [done|]. split; [done|]. split; [done|]. split; [by intros []|]. split; [done|]. destruct S1 as (_ & -> & ->).
    destruct nofree; by rewrite app_nil_r.
Qed.

(** The two-phase unlink: after [dictTwoPhaseUnlinkFind] the caller sees the
    binding in place with rehashing paused; [dictTwoPhaseUnlinkFree] then removes
    and frees exactly that binding and resumes rehashing. *)
Theorem dictTwoPhaseUnlink_correct (d : dict) key : wf d ->
  exists d1 r d2, dictTwoPhaseUnlinkFind T dict_can_resize d key = Some (d1, r) /\ amap d1 = amap d /\
    pauserehash d1 = pauserehash d + (if r then 1 else 0) /\
    r ≫= (fun re => entry_kv re.2) = amap d !! canon key /\
    dictTwoPhaseUnlinkFree T d1 r = Some d2 /\ wf d2 /\ amap d2 = delete (canon key) (amap d) /\
    pauserehash d2 = pauserehash d /\
    freed_log d2 = freed_log d ++ default [] (frees <$> amap d !! canon key).
Proof.
  intros HW. unfold dictTwoPhaseUnlinkFind. case_zb.
  { exists d, None, d. rewrite (empty_map d), lookup_empty, delete_empty, app_nil_r by done.
    split_and!; auto. lia. }
  destruct (lookup_spec d key HW) as (d1 & r & -> & HW1 & S1 & Hf & Hr); [done|].
  cbn [mbind option_bind]. unfold dictHashKey. rewrite Hf. cbn [mbind option_bind].
  pose proof (amap_same d d1 HW S1) as EM1. destruct S1 as (S1 & S2 & S3).
  destruct r as [[[[t i] m] he]|].
  - destruct Hr as (k & v & HP & Hc & HL).
    destruct (unlink_spec T canon d1 t i m he k v HW1 HP) as (b & b' & Hb & Hu & HW2 & [S4 S5] & E2).
    pose proof (free_entry_spec T canon d1 _ he k v HW1 HP) as Hfr.
    destruct (amap_delete d1 _ k v HW1 E2) as [_ EM]. rewrite EM1, Hc in EM.
    destruct HP as (_ & _ & _ & _ & _ & Hkv). do 3 eexists. split; [done|].
    split; [exact EM1|]. split; [unfold dictPauseRehashing; dsimp; lia|]. split; [by rewrite HL|].
    unfold dictTwoPhaseUnlinkFree. change (bucket _ t i) with (bucket d1 t i). rewrite Hb. cbn [mbind option_bind].
    rewrite Hu. cbn [mbind option_bind]. rewrite Hfr. cbn [mbind option_bind]. split; [done|].
    unfold dictResumeRehashing, dictPauseRehashing.
    split; [|split; [|split; [dsimp; lia|]]].
    + destruct HW2 as [W0 W1 W2 W3]. destruct t; by split.
    + destruct t; exact EM.
    + dsimp. rewrite S3, HL. done.
  - exists d1, None, d1. rewrite EM1, Hr, delete_id, app_nil_r by done. split_and!; auto. lia.
Qed.

(** *** Emptying *)

Lemma clear_chain_spec t he : forall d : dict, shape T he ->
  clear_chain T d t he = Some (set_used (log_freed d (chain_list he ≫= frees)) t
    (sel (ht_used d) t - Z.of_nat (length (chain_list he)))).
Proof.
  assert (forall (d : dict) n, n = 0 -> d = set_used (log_freed d []) t (sel (ht_used d) t - n)) as Hid.
  { intros [? [] ? ? ? ?] n ->. unfold set_used, log_freed. dsimp. rewrite app_nil_r, Z.sub_0_r. by destruct t. }
  assert (forall (d : dict) fs fs' n, set_used (log_freed (set_used (log_freed d fs) t (sel (ht_used d) t - 1)) fs') t
     (sel (ht_used (set_used (log_freed d fs) t (sel (ht_used d) t - 1))) t - Z.of_nat n) =
     set_used (log_freed d (fs ++ fs')) t (sel (ht_used d) t - Z.of_nat (S n))) as Hst.
  { intros [? [] ? ? ? ?] fs fs' n. unfold set_used, log_freed. dsimp. rewrite app_assoc. destruct t; dsimp; do 2 f_equal; lia. }
  pose proof (no_value_destructor (T := T) (canon := canon)) as HD.
  induction he as [|k|k he IH|k v he IH]; intros d HS; cbn [clear_chain chain_list mbind list_bind length] in *.
  - rewrite <- Hid; done.
  - destruct HS as [HT _]. unfold free_entry, frees. simpl. rewrite HD by done. cbn [mbind option_bind].
    rewrite ?app_nil_r. done.
  - destruct HS as [HT HS]. unfold free_entry. simpl. rewrite (HD HT). simpl. rewrite IH by done.
    rewrite Hst. do 3 f_equal. unfold frees. simpl. by rewrite HD.
  - destruct HS as [HT HS]. unfold free_entry. simpl.
    assert ((if valDestructor T then Some [FreedVal v] else Some []) =
      Some (if valDestructor T then [FreedVal v] else [])) as -> by (by destruct (valDestructor T)).
    cbn [mbind option_bind]. rewrite IH by done. by rewrite Hst.
Qed.

Lemma clear_loop_spec t n : forall (d : dict) i, (i + n)%nat = length (sel (ht_table d) t) ->
  Forall (shape T) (sel (ht_table d) t) ->
  sel (ht_used d) t = Z.of_nat (length (entries_of (drop i (sel (ht_table d) t)))) ->
  exists u, clear_loop T n d t (Z.of_nat i) =
    Some (set_used (log_freed d (entries_of (drop i (sel (ht_table d) t)) ≫= frees)) t u).
Proof.
  assert (forall d : dict, d = set_used (log_freed d []) t (sel (ht_used d) t)) as Hid.
  { intros [? [] ? ? ? ?]. unfold set_used, log_freed. dsimp. rewrite app_nil_r. by destruct t. }
  induction n as [|n IH]; intros d i Hlen HS Hu; cbn [clear_loop].
  - rewrite drop_ge by lia. exists (sel (ht_used d) t). by rewrite <- Hid.
  - destruct (lookup_lt_is_Some_2 (sel (ht_table d) t) i) as [b Hb]; [lia|].
    rewrite Z.gtb_ltb. case_zb; cbn [negb].
    + rewrite (bucket_lookup d t (Z.of_nat i) b) by (lia || by rewrite Nat2Z.id). cbn [mbind option_bind].
      rewrite clear_chain_spec by (by eapply Forall_lookup_1). cbn [mbind option_bind].
      rewrite (drop_S _ b i Hb) in Hu |- *. cbn [entries_of mbind list_bind] in Hu |- *. fold (entries_of (drop (S i) (sel (ht_table d) t))) in Hu |- *.
      rewrite length_app in Hu.
      replace (Z.of_nat i + 1) with (Z.of_nat (S i)) by lia.
      edestruct (IH (set_used (log_freed d (chain_list b ≫= frees)) t (sel (ht_used d) t - Z.of_nat (length (chain_list b)))) (S i))
        as [u ->]; dsimp; [lia|done| |].
      { destruct t; dsimp; dsimp_in Hu; lia. }
      exists u. f_equal. destruct d as [? [] ? ? ? ?]. unfold set_used, log_freed. dsimp.
      rewrite <- app_assoc, bind_app. by destruct t.
    + destruct (entries_of _) eqn:E; [|simpl in *; lia]. exists (sel (ht_used d) t). by rewrite <- Hid.
Qed.

Lemma wf_shapes (d : dict) t : wf d -> Forall (shape T) (sel (ht_table d) t).
Proof.
  intros HW. apply Forall_lookup_2. intros i b Hb. by destruct (wf_bucket_of T canon d t i b HW Hb).
Qed.

Lemma dictClear_spec (d : dict) t : wf_table T (sel (ht_size_exp d) t) (sel (ht_table d) t) (sel (ht_used d) t) ->
  _dictClear T d t = Some (_dictReset (log_freed d (entries_of (sel (ht_table d) t) ≫= frees)) t).
Proof.
  intros [Hsz Hu Hb]. unfold _dictClear.
  assert (Z.to_nat (DICTHT_SIZE (sel (ht_size_exp d) t)) = length (sel (ht_table d) t)) as ->.
  { destruct Hsz as [[-> ->]|[? Hl]]; [done|]. rewrite size_pow by lia. lia. }
  change 0 with (Z.of_nat 0).
  destruct (clear_loop_spec t (length (sel (ht_table d) t)) d 0) as [u ->].
  - lia.
  - apply Forall_lookup_2. intros i b Hi. by apply (Hb i).
  - done.
  - cbn [mbind option_bind]. rewrite drop_0. f_equal. destruct d as [[] [] [] ? ? ?], t; done.
Qed.

(** [dictEmpty] frees every entry exactly once, in bucket order, and leaves
    the empty map with rehashing off and not paused. *)
Theorem dictEmpty_correct (d : dict) : wf d ->
  exists d', dictEmpty T d = Some d' /\ wf d' /\ amap d' = ∅ /\ dictSlots d' = 0 /\
    dictIsRehashing d' = false /\ pauserehash d' = 0 /\
    freed_log d' = freed_log d ++ (entries d ≫= frees).
Proof.
  intros HW. unfold dictEmpty. rewrite dictClear_spec by apply HW. cbn [mbind option_bind].
  rewrite dictClear_spec by (exact (wf_1 _ _ _ HW)). cbn [mbind option_bind]. eexists. split; [done|].
  destruct d as [[] [] [] ? ? ?]. unfold _dictReset, log_freed, set_pause, set_rehashidx. dsimp.
  split_and!; try done.
  - split; dsimp; [by apply wf_table_None..|constructor|left; done].
  - unfold entries. dsimp. by rewrite bind_app, app_assoc.
Qed.

Lemma size_tomap l : NoDup (ckeys l) -> size (tomap l) = length l.
Proof.
  induction l as [|e l IH]; intros HN; [done|]. unfold ckeys in HN. rewrite fmap_cons in HN.
  apply NoDup_cons in HN as [Hni HN]. unfold tomap. rewrite fmap_cons, list_to_map_cons. fold (tomap l).
  rewrite map_size_insert_None by (by apply tomap_lookup_None). simpl. by rewrite IH.
Qed.

(** [dictSize] is the number of bindings. *)
Lemma dictSize_amap (d : dict) : wf d -> dictSize d = Z.of_nat (size (amap d)).
Proof.
  intros HW. rewrite (entries_length T canon) by done. unfold amap. by rewrite size_tomap by apply HW.
Qed.

Lemma dictExpand_spec (d : dict) n : wf d -> in_u 64 n ->
  wf (dictExpand d n).1 /\ same_entries d (dictExpand d n).1.
Proof.
  intros HW Hn. pose proof (expand_spec T canon d n None HW Hn) as HE. unfold dictExpand.
  destruct (_dictExpand d n None) as [[d' r] mf]. by destruct HE as (? & _ & ? & _).
Qed.

Lemma dictResize_spec (d : dict) : wf d -> dictSize d < 2 ^ 59 ->
  wf (dictResize dict_can_resize d).1 /\ same_entries d (dictResize dict_can_resize d).1.
Proof.
  intros HW Hn. unfold dictResize. destruct (_ || _); [done|]. apply dictExpand_spec; [done|].
  unfold dictSize in Hn. destruct (wf_0 _ _ _ HW) as [_ -> _], (wf_1 _ _ _ HW) as [_ Hu _].
  rewrite Hu in Hn. destruct (wf_0 _ _ _ HW) as [_ Hu0 _]. rewrite Hu0 in *. unfold in_u. change (Z.shiftl 1 2) with 4. case_zb; lia.
Qed.

Lemma DICTHT_SIZE_nonneg e : 0 <= DICTHT_SIZE e.
Proof.
  unfold DICTHT_SIZE. case_zb; [lia|]. apply Z.shiftl_nonneg. lia.
Qed.

Lemma dictExpand_slots (d : dict) n : in_u 64 n -> (dictExpand d n).2 = DICT_OK ->
  n <= dictSlots (dictExpand d n).1.
Proof.
  intros Hn. pose proof (nextExp_range n Hn) as Hr. unfold dictExpand, _dictExpand.
  destruct (dictIsRehashing d || _); [done|]. destruct (newsize_ok _ Hr) as [-> _].
  destruct (Z.ltb_spec (2 ^ _dictNextExp n) n); cbn [orb]; [done|]. destruct (_ <? _); [done|].
  destruct (_ =? _); [done|]. destruct (bool_decide _); [done|].
  assert (n <= DICTHT_SIZE (_dictNextExp n)) by (rewrite size_pow by lia; lia).
  pose proof (DICTHT_SIZE_nonneg (ht_size_exp d).1). pose proof (DICTHT_SIZE_nonneg (ht_size_exp d).2).
  destruct (ht_table d).1; intros _; unfold dictSlots; dsimp; lia.
Qed.

(** [dictExpand] never changes the map; when it succeeds the dict has at
    least the requested slots, and it succeeds for every size below 2^60 that
    holds the entries unless a rehash is running or the table has that size already. *)
Theorem dictExpand_correct (d : dict) n : wf d -> in_u 64 n ->
  wf (dictExpand d n).1 /\ amap (dictExpand d n).1 = amap d /\
  ((dictExpand d n).2 = DICT_OK -> n <= dictSlots (dictExpand d n).1) /\
  (dictIsRehashing d = false -> (ht_used d).1 <= n < 2 ^ 60 -> (ht_size_exp d).1 <> _dictNextExp n ->
   (dictExpand d n).2 = DICT_OK).
Proof.
  intros HW Hn. destruct (dictExpand_spec d n HW Hn). split; [done|]. split; [by apply amap_same|].
  split; [by apply dictExpand_slots|]. intros ER Hu Hne. apply (expand_succeeds T canon); auto; [|lia].
  destruct (wf_0 _ _ _ HW) as [_ HU _]. lia.
Qed.

(** [dictRehash] keeps the invariant and the map at every step, and with
    resizing enabled [n] steps covering the old table complete the migration. *)
Theorem dictRehash_correct (d : dict) n : wf d ->
  exists d' r, dictRehash T dict_can_resize d n = Some (d', r) /\ wf d' /\ amap d' = amap d /\
    same_ctl d d' /\ (r = 0 \/ r = 1) /\
    (dict_can_resize = DICT_RESIZE_ENABLE -> (0 < n)%nat -> DICTHT_SIZE (ht_size_exp d).1 <= Z.of_nat n ->
     r = 0 /\ dictIsRehashing d' = false).
Proof.
  intros HW. destruct (rehash_spec T canon dict_can_resize d n HW) as (d' & r & -> & HW' & S & Hr & HL).
  exists d', r. split_and!; auto using amap_same, same_entries_ctl; tauto.
Qed.

(** ** The dict as a finite map, over sequences of operations *)
Inductive op :=
| OAdd (key : K) (val : V)
| OReplace (key : K) (val : V)
| OFind (key : K)
| ODelete (key : K)
| OUnlink (key : K)
| OExpand (size : Z)
| OResize
| ORehash (n : nat).

(** What an operation reports: a status, or the entry's key and value. *)
Inductive out := RStatus (r : Z) | REntry (e : option (K * option V)) | RNone.

Definition run_op (d : dict) (o : op) : option (dict * out) :=
  match o with
  | OAdd key val => '(d, r) ← dictAdd T dict_can_resize d key val; Some (d, RStatus r)
  | OReplace key val => '(d, r) ← dictReplace T dict_can_resize d key val; Some (d, RStatus r)
  | OFind key => '(d, r) ← dictFind T dict_can_resize d key; Some (d, REntry (r ≫= (fun re => entry_kv re.2)))
  | ODelete key => '(d, r) ← dictDelete T dict_can_resize d key; Some (d, RStatus r)
  | OUnlink key => '(d, r) ← dictUnlink T dict_can_resize d key; Some (d, REntry (r ≫= entry_kv))
  | OExpand size => Some ((dictExpand d size).1, RNone)
  | OResize => Some ((dictResize dict_can_resize d).1, RNone)
  | ORehash n => '(d, _) ← dictRehash T dict_can_resize d n; Some (d, RNone)
  end.

Fixpoint run (d : dict) (os : list op) : option (dict * list out) :=
  match os with
  | [] => Some (d, [])
  | o :: os => '(d, r) ← run_op d o; '(d, rs) ← run d os; Some (d, r :: rs)
  end.

(** The abstract machine: a finite map and the destructor calls so far. *)
Definition astate : Type := gmap C (K * option V) * list (freed K V).

Definition spec_op (s : astate) (o : op) : astate * out :=
  let '(m, log) := s in
  match o with
  | OAdd key val =>
    match m !! canon key with
    | None => (<[canon key := (dup_key T key, stored_val val)]> m, log, RStatus DICT_OK)
    | Some _ => (m, log, RStatus DICT_ERR)
    end
  | OReplace key val =>
    match m !! canon key with
    | None => (<[canon key := (dup_key T key, Some (dup_val T val))]> m, log, RStatus 1)
    | Some (k, v) => (<[canon key := (k, Some (dup_val T val))]> m,
                      log ++ (if valDestructor T then [FreedVal v] else []), RStatus 0)
    end
  | OFind key => (m, log, REntry (m !! canon key))
  | ODelete key =>
    match m !! canon key with
    | None => (m, log, RStatus DICT_ERR)
    | Some e => (delete (canon key) m, log ++ frees e, RStatus DICT_OK)
    end
  | OUnlink key => (delete (canon key) m, log, REntry (m !! canon key))
  | OExpand _ | OResize | ORehash _ => (m, log, RNone)
  end.

Fixpoint spec_run (s : astate) (os : list op) : astate * list out :=
  match os with
  | [] => (s, [])
  | o :: os => let '(s, r) := spec_op s o in let '(s, rs) := spec_run s os in (s, r :: rs)
  end.

Definition op_ok (o : op) : Prop :=
  match o with OReplace _ _ => no_value T = false | OExpand n => in_u 64 n | _ => True end.

Definition abs (d : dict) : astate := (amap d, freed_log d).

Lemma abs_same (d d' : dict) : wf d -> same_entries d d' -> abs d' = abs d.
Proof. intros HW S. unfold abs. rewrite (amap_same d d') by done. by destruct S as (_ & _ & ->). Qed.

Lemma run_op_correct (d : dict) o : wf d -> dictSize d < 2 ^ 59 -> op_ok o ->
  exists d', run_op d o = Some (d', (spec_op (abs d) o).2) /\ wf d' /\ abs d' = (spec_op (abs d) o).1.
Proof.
  intros HW Hn Hok. unfold abs at 1 3. destruct o as [key val|key val|key|key|key|n| |n]; cbn [run_op spec_op].
  - destruct (dictAdd_spec d key val HW Hn) as (d' & r & -> & HW' & [_ S] & Hr). exists d'. unfold abs. rewrite S.
    destruct (amap d !! canon key); destruct Hr as [-> ->]; done.
  - destruct (dictReplace_spec d key val HW Hn Hok) as (d' & r & -> & HW' & _ & Hr). exists d'. unfold abs.
    destruct (amap d !! canon key) as [[k v]|]; destruct Hr as (-> & -> & ->); done.
  - destruct (dictFind_spec d key HW) as (d' & r & -> & HW' & E & [_ S] & Hr). exists d'. unfold abs.
    rewrite E, S. cbn [mbind option_bind]. by rewrite <- Hr.
  - unfold dictDelete. destruct (dictGenericDelete_spec d key false HW) as (d' & he & -> & HW' & Hr & Hs & E & _ & S).
    exists d'. unfold abs. rewrite E, S. cbn [mbind option_bind].
    destruct he as [he|]; cbn [mbind option_bind] in Hr.
    + destruct Hs as [e ->]; done.
    + rewrite <- Hr. cbn [fst snd default fmap option_fmap option_map]. by rewrite app_nil_r, delete_id.
  - unfold dictUnlink. destruct (dictGenericDelete_spec d key true HW) as (d' & he & -> & HW' & Hr & Hs & E & _ & S).
    exists d'. unfold abs. rewrite E, S, app_nil_r. cbn [mbind option_bind]. by rewrite <- Hr.
  - exists (dictExpand d n).1. destruct (dictExpand_spec d n HW Hok) as [? S]. by rewrite (abs_same d).
  - exists (dictResize dict_can_resize d).1. destruct (dictResize_spec d HW Hn) as [? S]. by rewrite (abs_same d).
  - destruct (rehash_spec T canon dict_can_resize d n HW) as (d' & r & -> & HW' & S & _). exists d'. by rewrite (abs_same d).
Qed.

Lemma spec_op_size s o : (size (spec_op s o).1.1 <= S (size s.1))%nat.
Proof.
  destruct s as [m log], o as [key val|key val|key|key|key| | |]; cbn [spec_op fst snd]; try lia.
  - destruct (m !! canon key) eqn:E; cbn [fst]; [lia|]. by rewrite map_size_insert_None.
  - destruct (m !! canon key) as [[k v]|] eqn:E; cbn [fst].
    + rewrite map_size_insert_Some by eauto. lia.
    + by rewrite map_size_insert_None.
  - destruct (m !! canon key) eqn:E; cbn [fst]; [|lia]. rewrite map_size_delete_Some by eauto. lia.
  - rewrite map_size_delete. destruct (m !! canon key); simpl; lia.
Qed.

Lemma run_correct os : forall d : dict, wf d -> dictSize d + Z.of_nat (length os) < 2 ^ 59 ->
  Forall op_ok os ->
  exists d', run d os = Some (d', (spec_run (abs d) os).2) /\ wf d' /\ abs d' = (spec_run (abs d) os).1.
Proof.
  induction os as [|o os IH]; intros d HW Hn Hok; cbn [run spec_run length] in *; [by exists d|].
  apply Forall_cons in Hok as [Ho Hok]. destruct (run_op_correct d o HW) as (d1 & -> & HW1 & E1); [lia|done|].
  cbn [mbind option_bind]. pose proof (spec_op_size (abs d) o) as Hs. cbn [fst abs] in Hs.
  destruct (spec_op (abs d) o) as [s1 r1] eqn:Eo. cbn [fst snd] in *.
  destruct (IH d1 HW1) as (d2 & -> & HW2 & E2); [|done|].
  { rewrite dictSize_amap in * by done. rewrite <- E1 in Hs. cbn [fst abs] in Hs. lia. }
  rewrite E1 in *. cbn [mbind option_bind]. exists d2. destruct (spec_run s1 os). done.
Qed.
(** C1. dict.c implements a finite map: from an empty dict, every sequence of
    fewer than 2^59 add, replace, find, delete, unlink, expand, resize and rehash calls runs to
    completion, reports exactly what the abstract finite-map machine reports,
    ends in the state of that machine and runs the destructors on exactly the
    keys and values the machine drops. *)
Theorem dict_refines_map os : Z.of_nat (length os) < 2 ^ 59 -> Forall op_ok os ->
  exists d, run dictCreate os = Some (d, (spec_run (∅, []) os).2) /\ wf d /\
    abs d = (spec_run (∅, []) os).1 /\ dictSize d = Z.of_nat (size (spec_run (∅, []) os).1.1).
Proof.
  intros Hn Hok. destruct (run_correct os dictCreate dictCreate_wf) as (d & E & HW & EA); [done|done|].
  change (abs dictCreate) with (∅ : gmap C (K * option V), [] : list (freed K V)) in *.
  exists d. split_and!; auto. by rewrite dictSize_amap, <- EA.
Qed.
End Operations.

End Map.

(** ** An instance: dicts of integers

    Keys hash to half their value, so that distinct keys share buckets. *)
Definition intType : dictType Z Z := {|
  hashFunction k := u64 (Z.div k 2); keyDup := None; valDup := None; keyCompare := None;
  keyDestructor := true; valDestructor := true; expandAllowed := None;
  no_value := false; keys_are_odd := false; dictEntryMetadataBytes := 0; key_odd _ := false |}.

#[export] Instance intType_ok : DictTypeOk intType (fun k : Z => k).
Proof.
  split; simpl; try done.
  - intros k1 k2. unfold key_match, dictCompareKeys. simpl. rewrite orb_diag. apply bool_decide_eq_true.
  - by intros k1 k2 ->.
  - intros k. apply wrap_range. lia.
Qed.

Definition ex_ops : list (op (K := Z) (V := Z)) :=
  [OAdd 1 10; OAdd 2 20; OAdd 3 30; OReplace 3 33; OAdd 9 90; OAdd 5 50; OFind 1].

(** Five keys, with rehashing from 4 to 8 buckets in progress. *)
Definition ex_dict : dict Z Z :=
  match run intType DICT_RESIZE_ENABLE dictCreate ex_ops with Some (d, _) => d | None => dictCreate end.

Lemma ex_dict_wf : wf intType (fun k : Z => k) ex_dict.
Proof.
  destruct (run_correct intType (fun k : Z => k) DICT_RESIZE_ENABLE ex_ops dictCreate) as (d & E & HW & _).
  - apply dictCreate_wf.
  - done.
  - repeat constructor.
  - unfold ex_dict. by rewrite E.
Qed.

Lemma dictRehash_correct_witness :
  dictIsRehashing ex_dict = true /\
  exists d', dictRehash intType DICT_RESIZE_ENABLE ex_dict 4 = Some (d', 0) /\ dictIsRehashing d' = false.
Proof.
  split; [by vm_compute|].
  destruct (dictRehash_correct intType (fun k : Z => k) DICT_RESIZE_ENABLE ex_dict 4)
    as (d' & r & E & _ & _ & _ & _ & HL); [apply ex_dict_wf|].
  destruct HL as [-> Hd]; [reflexivity|lia|vm_compute; discriminate|]. exists d'. split; [exact E|exact Hd].
Defined.

Lemma dict_refines_map_witness :
  exists d, run intType DICT_RESIZE_ENABLE dictCreate (ex_ops ++ [ODelete 9; OFind 9; OFind 3]) =
    Some (d, [RStatus 0; RStatus 0; RStatus 0; RStatus 0; RStatus 0; RStatus 0; REntry (Some (1, Some 10));
              RStatus 0; REntry None; REntry (Some (3, Some 33))]) /\
    freed_log d = [FreedVal (Some 30); FreedKey 9; FreedVal (Some 90)].
Proof.
  destruct (dict_refines_map intType (fun k : Z => k) DICT_RESIZE_ENABLE (ex_ops ++ [ODelete 9; OFind 9; OFind 3]))
    as (d & E & _ & EA & _); [done|by repeat constructor|].
  exists d. split; [rewrite E; by vm_compute|]. change (freed_log d) with (abs (fun k : Z => k) d).2. rewrite EA. by vm_compute.
Defined.
