(* ===== verification/DictScan.v ===== *)
(** * Dict: the reverse-binary cursor of dictScan

    Model of [rev], [dictDefragBucket], [dictScanDefrag] and [dictScan] of dict.c,
    and the guarantee its long comment argues for: whatever happens to the table
    between the calls, every element present from the first call to the last is returned.

    The callback is modelled by the list of entries it is called on. *)

From Stdlib Require Import ZArith Lia ZifyBool.
From stdpp Require Import base gmap numbers option list.
From S2P Require Import Prelude Dict DictProof DictMap.

Local Open Scope Z_scope.

(** The [while ((s >>= 1) > 0)] loop of [rev]. *)
Fixpoint rev_loop (fuel : nat) (s mask v : Z) : Z :=
  let s := Z.shiftr s 1 in
  match fuel with
  | O => v
  | S fuel =>
    if negb (s >? 0) then v else
    let mask := Z.lxor mask (u64 (Z.shiftl mask s)) in
    let v := Z.lor (Z.land (Z.shiftr v s) mask) (Z.land (u64 (Z.shiftl v s)) (u64 (Z.lnot mask))) in
    rev_loop fuel s mask v
  end.

(** [sizeof(v)] is 8: six halvings, the seventh ends the loop. *)
Definition rev (v : Z) : Z := rev_loop 7 64 (u64 (Z.lnot 0)) v.

Section Scan.
Context {K V : Type}.
Notation entry := (dictEntry K V).
Notation dict := (dict K V).

(** [dictDefragFunctions]: the callbacks are optional, and a [Some] result is
    the new location of the key or value. *)
Record dictDefragFunctions := {
  defragKey : option (K -> option K);
  defragVal : option (option V -> option (option V))
}.

Context (T : dictType K V).

(** The loop over a bucket; reallocating the entry itself keeps its contents. *)
Fixpoint dictDefragBucket (fns : dictDefragFunctions) (de : entry) : option entry :=
  if is_NULL de then Some NULL else
  k ← dictGetKey de;
  let newkey := f ← defragKey fns; f k in
  newval ← match defragVal fns with Some f => f <$> dictGetVal de | None => Some None end;
  match de with
  | NULL => Some NULL
  | EKey k => if key_odd T (default k newkey) then Some (EKey (default k newkey)) else None
  | ENoValue k next => ENoValue (default k newkey) <$> dictDefragBucket fns next
  | ENormal k v next => ENormal (default k newkey) (default v newval) <$> dictDefragBucket fns next
  end.

(** Emitting the bucket at a cursor, after defragmenting it: [chain_list] is
    the [while (de)] loop that calls the callback on each entry. *)
Definition scan_bucket (defragfns : option dictDefragFunctions) (d : dict) (t : bool) (i : Z)
    : option (dict * list (K * option V)) :=
  d ← match defragfns with
      | Some fns => b ← bucket d t i; b ← dictDefragBucket fns b; Some (set_bucket d t i b)
      | None => Some d
      end;
  b ← bucket d t i;
  Some (d, chain_list b).

(** [v |= ~m; v = rev(v); v++; v = rev(v)]. *)
Definition next_cursor (v m : Z) : Z := rev (u64 (rev (Z.lor v (u64 (Z.lnot m))) + 1)).

(** The [do ... while (v & (m0 ^ m1))] loop over the larger table. *)
Fixpoint scan_expansions (defragfns : option dictDefragFunctions) (fuel : nat) (d : dict) (t : bool) (m0 m1 v : Z)
    : option (dict * Z * list (K * option V)) :=
  match fuel with
  | O => None
  | S fuel =>
    '(d, out) ← scan_bucket defragfns d t (Z.land v m1);
    let v := next_cursor v m1 in
    if negb (Z.land v (Z.lxor m0 m1) =? 0) then
      '(d, v, out') ← scan_expansions defragfns fuel d t m0 m1 v; Some (d, v, out ++ out')
    else Some (d, v, out)
  end.

(** Returns the dict, the new cursor and the entries the callback was called on. *)
Definition dictScanDefrag (defragfns : option dictDefragFunctions) (d : dict) (v : Z)
    : option (dict * Z * list (K * option V)) :=
  if dictSize d =? 0 then Some (d, 0, []) else
  let d := dictPauseRehashing d in
  '(d, v, out) ←
    (if negb (dictIsRehashing d) then
       let m0 := DICTHT_SIZE_MASK (ht_size_exp d).1 in
       '(d, out) ← scan_bucket defragfns d false (Z.land v m0);
       Some (d, next_cursor v m0, out)
     else
       (* t0 is the smaller table, its negation the bigger one *)
       let t0 := DICTHT_SIZE (ht_size_exp d).1 >? DICTHT_SIZE (ht_size_exp d).2 in
       let m0 := DICTHT_SIZE_MASK (sel (ht_size_exp d) t0) in
       let m1 := DICTHT_SIZE_MASK (sel (ht_size_exp d) (negb t0)) in
       '(d, out0) ← scan_bucket defragfns d t0 (Z.land v m0);
       '(d, v, out1) ← scan_expansions defragfns (Z.to_nat (DICTHT_SIZE (sel (ht_size_exp d) (negb t0))))
                         d (negb t0) m0 m1 v;
       Some (d, v, out0 ++ out1));
  Some (dictResumeRehashing d, v, out).

Definition dictScan (d : dict) (v : Z) : option (dict * Z * list (K * option V)) :=
  dictScanDefrag None d v.
End Scan.

(** ** Bit reversal *)

Definition rev_round (s mask v : Z) : Z :=
  Z.lor (Z.land (Z.shiftr v s) mask) (Z.land (u64 (Z.shiftl v s)) (u64 (Z.lnot mask))).

(** The rounds [rev] makes: shift and mask. *)
Definition rev_rounds : list (Z * Z) :=
  [(32, 0x00000000FFFFFFFF); (16, 0x0000FFFF0000FFFF); (8, 0x00FF00FF00FF00FF);
   (4, 0x0F0F0F0F0F0F0F0F); (2, 0x3333333333333333); (1, 0x5555555555555555)].

Lemma rev_unfold v : rev v = foldl (fun v r => rev_round r.1 r.2 v) v rev_rounds.
Proof. reflexivity. Qed.

(** One round takes bit [i] from [i + s] where the mask has a one and from [i - s] elsewhere. *)
Definition round_src (r : Z * Z) (i : Z) : Z := if Z.testbit r.2 i then i + r.1 else i - r.1.

Lemma rev_round_bit r v i : 0 < r.1 -> 0 <= i < 64 -> in_u 64 v -> in_u 64 r.2 ->
  Z.testbit (rev_round r.1 r.2 v) i = Z.testbit v (round_src r i).
Proof.
  intros Hs Hi Hv Hm. unfold rev_round, round_src. rewrite Z.lor_spec, !Z.land_spec, Z.shiftr_spec by lia.
  rewrite !wrap_bit by lia. rewrite Z.lnot_spec, Z.shiftl_spec by lia.
  destruct (Z.testbit r.2 i); simpl; rewrite ?andb_true_r, ?andb_false_r, ?orb_false_r; done.
Qed.

Lemma rev_round_range s mask v : in_u 64 mask -> in_u 64 (rev_round s mask v).
Proof. intros. unfold rev_round. auto with redis. Qed.

Lemma rev_rounds_bit rs : Forall (fun r => 0 < r.1 /\ in_u 64 r.2) rs ->
  forall v i, in_u 64 v -> 0 <= i < 64 ->
  in_u 64 (foldl (fun v r => rev_round r.1 r.2 v) v rs) /\
  (forallb (fun r => forallb (fun i => (0 <=? round_src r (Z.of_nat i)) && (round_src r (Z.of_nat i) <? 64)) (seq 0 64)) rs = true ->
   Z.testbit (foldl (fun v r => rev_round r.1 r.2 v) v rs) i =
   Z.testbit v (foldr round_src i rs)).
Proof.
  induction 1 as [|r rs [Hs Hm] _ IH]; intros v i Hv Hi; [done|]. cbn [foldl foldr forallb].
  destruct (IH (rev_round r.1 r.2 v) i) as [IH1 IH2]; [by apply rev_round_range|done|].
  split; [done|]. rewrite andb_true_iff. intros [Hr Hrs]. rewrite IH2 by done.
  assert (0 <= foldr round_src i rs < 64) as Hb.
  { clear -Hi Hrs. induction rs as [|r rs IH]; [done|]. cbn [foldr forallb] in *.
    apply andb_true_iff in Hrs as [Hr Hrs]. specialize (IH Hrs). rewrite forallb_forall in Hr.
    specialize (Hr (Z.to_nat (foldr round_src i rs))). rewrite Z2Nat.id in Hr by lia.
    assert (List.In (Z.to_nat (foldr round_src i rs)) (seq 0 64)) as Hin by (apply in_seq; lia). specialize (Hr Hin). lia. }
  by rewrite rev_round_bit.
Qed.

Lemma rev_rounds_ok : Forall (fun r => 0 < r.1 /\ in_u 64 r.2) rev_rounds.
Proof. by repeat constructor. Qed.

Lemma rev_range v : in_u 64 v -> in_u 64 (rev v).
Proof.
  intros Hv. rewrite rev_unfold. by apply (rev_rounds_bit _ rev_rounds_ok v 0).
Qed.

Lemma rev_bit v i : in_u 64 v -> 0 <= i < 64 -> Z.testbit (rev v) i = Z.testbit v (63 - i).
Proof.
  intros Hv Hi. rewrite rev_unfold.
  destruct (rev_rounds_bit _ rev_rounds_ok v i Hv Hi) as [_ ->]; [|by vm_compute].
  f_equal. assert (forallb (fun i => foldr round_src (Z.of_nat i) rev_rounds =? 63 - Z.of_nat i) (seq 0 64) = true) as HA by (by vm_compute).
  rewrite forallb_forall in HA. specialize (HA (Z.to_nat i)). rewrite Z2Nat.id in HA by lia.
  assert (List.In (Z.to_nat i) (seq 0 64)) as Hin by (apply in_seq; lia). specialize (HA Hin). lia.
Qed.

Lemma rev_rev v : in_u 64 v -> rev (rev v) = v.
Proof.
  intros Hv. apply (bits_ext 64); auto using rev_range with redis; try lia. intros i Hi.
  rewrite !rev_bit by (auto using rev_range || lia). f_equal. lia.
Qed.

#[local] Opaque rev.

(** ** Cursor arithmetic

    A cursor or hash [v] is placed at [rev v] on the line [0, 2^64); a table of
    size [2^e] cuts the line into cells of [2^(64-e)], one per bucket. *)
Definition cell (e v : Z) : Z := rev v / 2 ^ (64 - e).

Lemma cell_bit e v j : in_u 64 v -> 0 <= e <= 64 -> 0 <= j ->
  Z.testbit (cell e v) j = if j <? e then Z.testbit v (e - 1 - j) else false.
Proof.
  intros Hv He Hj. unfold cell. rewrite Z.div_pow2_bits by lia. case_zb.
  - rewrite rev_bit by (done || lia). f_equal. lia.
  - apply (in_u_high 64); [lia|by apply rev_range|lia].
Qed.

Lemma cell_nonneg e v : in_u 64 v -> 0 <= e <= 64 -> 0 <= cell e v.
Proof. intros [? _]%rev_range He. apply Z.div_pos; [done|]. apply Z.pow_pos_nonneg; lia. Qed.

(** Two hashes are in the same bucket iff they are in the same cell. *)
Lemma cell_bucket e h v : in_u 64 h -> in_u 64 v -> 0 <= e <= 64 ->
  h mod 2 ^ e = v mod 2 ^ e <-> cell e h = cell e v.
Proof.
  intros Hh Hv He. split; intros E; apply Z.bits_inj_iff'; intros i Hi.
  - rewrite !cell_bit by done. case_zb; [|done].
    rewrite <- (Z.mod_pow2_bits_low h e) by lia. rewrite E. apply Z.mod_pow2_bits_low. lia.
  - destruct (Z.lt_ge_cases i e); [|by rewrite !Z.mod_pow2_bits_high by lia].
    rewrite !Z.mod_pow2_bits_low by lia.
    pose proof (cell_bit e h (e - 1 - i) Hh He ltac:(lia)) as H1.
    pose proof (cell_bit e v (e - 1 - i) Hv He ltac:(lia)) as H2.
    rewrite E in H1. rewrite H1 in H2. revert H2. zb. by replace (e - 1 - (e - 1 - i)) with i by lia.
Qed.

Lemma lor_ones x k : 0 <= k -> Z.lor x (Z.ones k) = x / 2 ^ k * 2 ^ k + (2 ^ k - 1).
Proof.
  intros Hk. replace (2 ^ k - 1) with (Z.ones k) by (rewrite Z.ones_equiv; lia).
  rewrite <- Z.shiftr_div_pow2, <- Z.shiftl_mul_pow2 by lia.
  assert (Z.land (Z.shiftl (Z.shiftr x k) k) (Z.ones k) = 0) as Hd.
  { apply Z.bits_inj_iff'. intros i Hi. rewrite Z.bits_0, Z.land_spec, Z.shiftl_spec, Z.testbit_ones_nonneg by lia.
    destruct (Z.ltb_spec i k); [by rewrite Z.testbit_neg_r by lia|apply andb_false_r]. }
  rewrite Z.add_nocarry_lxor, Z.lxor_lor by done.
  apply Z.bits_inj_iff'. intros i Hi. rewrite !Z.lor_spec, Z.shiftl_spec, Z.testbit_ones_nonneg by lia.
  destruct (Z.ltb_spec i k); [by rewrite !orb_true_r|]. rewrite !orb_false_r, Z.shiftr_spec by lia. f_equal. lia.
Qed.

Lemma next_cursor_range v m : in_u 64 v -> in_u 64 (next_cursor v m).
Proof. intros. unfold next_cursor. apply rev_range. auto with redis. Qed.

(** Advancing the cursor moves it to the start of the next cell. *)
Lemma next_cursor_rev v e : in_u 64 v -> 0 <= e <= 64 ->
  rev (next_cursor v (Z.ones e)) = u64 ((cell e v + 1) * 2 ^ (64 - e)).
Proof.
  intros Hv He. unfold next_cursor. rewrite rev_rev by auto with redis. f_equal.
  assert (rev (Z.lor v (u64 (Z.lnot (Z.ones e)))) = Z.lor (rev v) (Z.ones (64 - e))) as ->.
  { assert (in_u 64 (Z.ones (64 - e))).
    { rewrite Z.ones_equiv. pose proof (Z.pow_le_mono_r 2 (64 - e) 64). pose proof (Z.pow_pos_nonneg 2 (64 - e)). unfold in_u. lia. }
    apply (bits_ext 64); auto using rev_range with redis.
    intros i Hi. rewrite rev_bit by (auto with redis || lia). rewrite !Z.lor_spec, rev_bit by done.
    f_equal. rewrite wrap_bit, Z.lnot_spec, !Z.testbit_ones_nonneg by lia.
    destruct (Z.ltb_spec (63 - i) e), (Z.ltb_spec i (64 - e)); try done; lia. }
  rewrite lor_ones by lia. unfold cell. lia.
Qed.

(** The exit test of the expansion loop: the larger table's cell starts a cell of the smaller one. *)
Lemma expansion_done v e0 e1 : in_u 64 v -> 0 <= e0 <= e1 -> e1 <= 64 ->
  Z.land v (Z.lxor (Z.ones e0) (Z.ones e1)) = 0 <-> cell e1 v mod 2 ^ (e1 - e0) = 0.
Proof.
  intros Hv H0 H1.
  assert (forall i, 0 <= i -> Z.testbit (Z.lxor (Z.ones e0) (Z.ones e1)) i = (e0 <=? i) && (i <? e1)) as Hm.
  { intros i Hi. rewrite Z.lxor_spec, !Z.testbit_ones_nonneg by lia.
    destruct (Z.ltb_spec i e0), (Z.ltb_spec i e1), (Z.leb_spec e0 i); simpl; try done; lia. }
  split; intros E; apply Z.bits_inj_iff'; intros i Hi; rewrite Z.bits_0.
  - destruct (Z.lt_ge_cases i (e1 - e0)); [|by apply Z.mod_pow2_bits_high; lia].
    rewrite Z.mod_pow2_bits_low, cell_bit by (done || lia). zb.
    apply (f_equal (fun z => Z.testbit z (e1 - 1 - i))) in E. rewrite Z.bits_0, Z.land_spec, Hm in E by lia.
    revert E. zb. by rewrite andb_true_r.
  - rewrite Z.land_spec, Hm by lia. destruct (Z.leb_spec e0 i), (Z.ltb_spec i e1); rewrite ?andb_false_r; try done.
    simpl. rewrite andb_true_r. apply (f_equal (fun z => Z.testbit z (e1 - 1 - i))) in E. revert E.
    rewrite Z.bits_0, Z.mod_pow2_bits_low, cell_bit by (done || lia). zb. by replace (e1 - 1 - (e1 - 1 - i)) with i by lia.
Qed.

(** ** One call of dictScan *)
Section ScanProof.
Context {K V C : Type} `{EqDecision K} (T : dictType K V) (canon : K -> C) `{!DictTypeOk T canon}.
Notation entry := (dictEntry K V).
Notation dict := (dict K V).
Notation ckeys := (@DictProof.ckeys K V C canon).
Notation wf := (DictProof.wf T canon).

(** Where the key of an entry lies on the cursor line. *)
Definition place (e : K * option V) : Z := rev (hashFunction T e.1).

Lemma cell_unfold e x : cell e (hashFunction T x.1) = place x / 2 ^ (64 - e).
Proof. reflexivity. Qed.

(** Scanning a bucket emits exactly the entries of its cell. *)
Lemma scan_bucket_spec (d : dict) t v : wf d -> in_u 64 v -> 0 <= sel (ht_size_exp d) t ->
  exists out, scan_bucket T None d t (Z.land v (DICTHT_SIZE_MASK (sel (ht_size_exp d) t))) = Some (d, out) /\
    forall x, x ∈ out <-> x ∈ entries_of (sel (ht_table d) t) /\
      cell (sel (ht_size_exp d) t) (hashFunction T x.1) = cell (sel (ht_size_exp d) t) v.
Proof.
  intros HW Hv He. set (e := sel (ht_size_exp d) t) in *.
  assert (wf_table T e (sel (ht_table d) t) (sel (ht_used d) t)) as HT by (destruct t; apply HW).
  assert (0 <= e <= 60) as He' by (destruct (wf_size _ _ _ _ HT) as [[? _]|[? _]]; lia).
  destruct (wf_bucket_lookup T e _ _ v HT He) as [b Hb].
  pose proof (land_mask_range v e He) as Hr. unfold scan_bucket. cbn [mbind option_bind].
  rewrite (bucket_lookup d t _ b) by (done || lia). exists (chain_list b). split; [done|].
  assert (forall i b, sel (ht_table d) t !! i = Some b -> forall x, x ∈ chain_list b ->
    hashFunction T x.1 mod 2 ^ e = Z.of_nat i) as HB.
  { intros i b' Hi x Hx. destruct (wf_buckets _ _ _ _ HT i b' Hi) as [_ HF].
    rewrite Forall_forall in HF. rewrite <- land_mask by lia. by apply HF. }
  intros x. rewrite <- (cell_bucket e) by (auto || lia || apply (hash_range (canon := canon))).
  rewrite <- (land_mask v) by lia. rewrite elem_of_entries_of. split.
  - intros Hx. split; [by exists (Z.to_nat (Z.land v (DICTHT_SIZE_MASK e))), b|].
    rewrite (HB _ _ Hb x Hx). lia.
  - intros [(i & b' & Hi & Hx) E]. rewrite (HB _ _ Hi x Hx) in E.
    rewrite <- E, Nat2Z.id in Hb. by simplify_eq.
Qed.

Lemma cell_lt e v : in_u 64 v -> 0 <= e <= 64 -> cell e v < 2 ^ e.
Proof.
  intros [_ H]%rev_range He. apply Z.div_lt_upper_bound; [apply Z.pow_pos_nonneg; lia|].
  rewrite <- Z.pow_add_r by lia. by replace (64 - e + e) with 64 by lia.
Qed.

Lemma cell_of_rev e v c : 0 <= e <= 64 -> rev v = c * 2 ^ (64 - e) -> cell e v = c.
Proof. intros He E. unfold cell. rewrite E. apply Z.div_mul. apply Z.pow_nonzero; lia. Qed.

(** Steps inside one cell [q] of the smaller table. *)
Lemma cell_step c D q : 0 < D -> c / D = q -> (c + 1) mod D <> 0 -> (c + 1) / D = q.
Proof. intros HD Hq Hm. pose proof (Z.div_mod c D). pose proof (Z.mod_pos_bound c D HD).
  symmetry. apply (Z.div_unique _ _ _ (c mod D + 1)); [|lia]. left. split; [lia|].
  destruct (decide (c mod D + 1 = D)); [|lia]. exfalso. apply Hm.
  replace (c + 1) with ((q + 1) * D) by lia. apply Z.mod_mul. lia.
Qed.

Lemma no_multiple x q D : 0 < D -> q * D < x < (q + 1) * D -> x mod D <> 0.
Proof.
  intros HD Hx Hm. apply Z.mod_divide in Hm as [z ->]; [|lia].
  assert (q < z) by (apply (Z.mul_lt_mono_pos_r D); lia).
  assert (z < q + 1) by (apply (Z.mul_lt_mono_pos_r D); lia). lia.
Qed.

Lemma scan_expansions_spec (d : dict) t e0 e1 : wf d -> e1 = sel (ht_size_exp d) t -> 0 <= e0 <= e1 ->
  forall fuel v q, in_u 64 v -> cell e1 v / 2 ^ (e1 - e0) = q ->
  (q + 1) * 2 ^ (e1 - e0) - cell e1 v <= Z.of_nat fuel ->
  exists v' out, scan_expansions T None fuel d t (Z.ones e0) (Z.ones e1) v = Some (d, v', out) /\
    in_u 64 v' /\ rev v' = u64 ((q + 1) * 2 ^ (e1 - e0) * 2 ^ (64 - e1)) /\
    forall x, x ∈ out <-> x ∈ entries_of (sel (ht_table d) t) /\
      cell e1 v <= cell e1 (hashFunction T x.1) < (q + 1) * 2 ^ (e1 - e0).
Proof.
  intros HW -> He. set (e1 := sel (ht_size_exp d) t) in *. set (D := 2 ^ (e1 - e0)).
  assert (0 < D) by (apply Z.pow_pos_nonneg; lia).
  assert (e1 <= 60) as H60.
  { destruct t; [destruct (wf_size _ _ _ _ (wf_1 _ _ _ HW))|destruct (wf_size _ _ _ _ (wf_0 _ _ _ HW))]; unfold e1 in *; simpl in *; lia. }
  assert (2 ^ (64 - e1) * 2 ^ e1 = 2 ^ 64) as H64 by (rewrite <- Z.pow_add_r by lia; f_equal; lia).
  assert (2 ^ e1 = 2 ^ e0 * D) as HD by (unfold D; rewrite <- Z.pow_add_r by lia; f_equal; lia).
  induction fuel as [|fuel IH]; intros v q Hv Hq Hf.
  { pose proof (Z.mod_pos_bound (cell e1 v) D). pose proof (Z.div_mod (cell e1 v) D). lia. }
  cbn [scan_expansions]. destruct (scan_bucket_spec d t v HW Hv ltac:(lia)) as (out & E & Hout).
  fold e1 in E, Hout. rewrite mask_ones in E by lia. rewrite E. cbn [mbind option_bind].
  pose proof (next_cursor_range v (Z.ones e1) Hv) as Hv'. pose proof (next_cursor_rev v e1 Hv ltac:(lia)) as Hr'.
  set (v' := next_cursor v (Z.ones e1)) in *.
  pose proof (cell_lt e1 v Hv ltac:(lia)) as Hlt. pose proof (cell_nonneg e1 v Hv ltac:(lia)) as Hnn.
  pose proof (Z.mod_pos_bound (cell e1 v) D ltac:(lia)) as Hmod.
  pose proof (Z.div_mod (cell e1 v) D ltac:(lia)) as Hdm. rewrite Hq in Hdm.
  assert (0 < 2 ^ (64 - e1)) by (apply Z.pow_pos_nonneg; lia).
  assert (0 < 2 ^ e0) by (apply Z.pow_pos_nonneg; lia).
  destruct (decide (cell e1 v + 1 = (q + 1) * D)) as [Hend|Hmore].
  - assert (cell e1 v' mod D = 0) as Hz0.
    { destruct (decide (cell e1 v + 1 = 2 ^ e1)) as [Hw|Hw].
      - rewrite Hw, Z.mul_comm, H64 in Hr'. change (u64 (2 ^ 64)) with 0 in Hr'.
        unfold cell. rewrite Hr'. by rewrite Z.div_0_l, Z.mod_0_l by lia.
      - rewrite wrap_id in Hr' by (unfold in_u; nia). rewrite (cell_of_rev e1 v' _ ltac:(lia) Hr'), Hend.
        apply Z.mod_mul. lia. }
    apply expansion_done in Hz0; [|done|lia|lia]. rewrite Hz0. cbn [Z.eqb negb].
    exists v', out. split_and!; [done|done|by rewrite Hr', Hend|]. intros x. rewrite Hout. split; intros [? ?]; split; auto; lia.
  - assert (cell e1 v + 1 < (q + 1) * D) as Hlt' by lia.
    assert (q < 2 ^ e0) by (rewrite <- Hq; apply Z.div_lt_upper_bound; lia).
    rewrite wrap_id in Hr' by (unfold in_u; nia).
    pose proof (cell_of_rev e1 v' _ ltac:(lia) Hr') as Hc'.
    assert (cell e1 v' mod D <> 0) as Hz0.
    { rewrite Hc'. apply (no_multiple _ q); lia. }
    unfold D in Hz0. rewrite <- (expansion_done v' e0 e1) in Hz0 by (done || lia). fold D in Hz0. zb. cbn [negb].
    destruct (IH v' q Hv') as (v'' & out' & -> & Hv'' & Hr'' & Hout').
    { rewrite Hc'. apply cell_step; [done|done|]. apply (no_multiple _ q); lia. }
    { lia. }
    cbn [mbind option_bind]. exists v'', (out ++ out'). split_and!; auto.
    intros x. rewrite elem_of_app, Hout, Hout', Hc'. split; [intros [[? ?]|[? ?]]; split; auto; lia|].
    intros [? ?]. destruct (decide (cell e1 (hashFunction T x.1) = cell e1 v)); [left|right]; split; auto; lia.
Qed.

Lemma resume_pause (d : dict) : dictResumeRehashing (dictPauseRehashing d) = d.
Proof. destruct d. unfold dictResumeRehashing, dictPauseRehashing, set_pause. cbn. f_equal. lia. Qed.

Lemma cell_mono e x y : 0 <= e <= 64 -> x <= y -> x / 2 ^ (64 - e) <= y / 2 ^ (64 - e).
Proof. intros. apply Z.div_le_mono; [apply Z.pow_pos_nonneg; lia|done]. Qed.

Lemma cell_upper e x c : 0 <= e <= 64 -> x < c * 2 ^ (64 - e) -> x / 2 ^ (64 - e) < c.
Proof. intros. apply Z.div_lt_upper_bound; [apply Z.pow_pos_nonneg; lia|lia]. Qed.

(** The cell of a coarser table. *)
Lemma cell_coarser e0 e1 v : 0 <= e0 <= e1 -> e1 <= 64 -> cell e1 v / 2 ^ (e1 - e0) = cell e0 v.
Proof.
  intros. unfold cell. rewrite Z.div_div; [|apply Z.pow_nonzero; lia|apply Z.pow_pos_nonneg; lia].
  rewrite <- Z.pow_add_r by lia. do 2 f_equal. lia.
Qed.

(** What one call does, in terms of the cursor line: it emits a superset of the entries
    between the old cursor and the new one, which is the end of a cell of the smaller table. *)
Definition scan_post (d : dict) (v v' : Z) (out : list (K * option V)) : Prop :=
  in_u 64 v' /\ (forall x, x ∈ out -> x ∈ entries d) /\
  exists e, 0 <= e <= (ht_size_exp d).1 /\ rev v' = u64 ((cell e v + 1) * 2 ^ (64 - e)) /\
    forall x, x ∈ entries d -> rev v <= place x < (cell e v + 1) * 2 ^ (64 - e) -> x ∈ out.

Lemma scan_one_spec (d : dict) v : wf d -> in_u 64 v -> dictIsRehashing d = false -> 0 <= (ht_size_exp d).1 ->
  exists out, scan_bucket T None d false (Z.land v (DICTHT_SIZE_MASK (ht_size_exp d).1)) = Some (d, out) /\
    scan_post d v (next_cursor v (DICTHT_SIZE_MASK (ht_size_exp d).1)) out.
Proof.
  intros HW Hv ER He. destruct (dictIsRehashing_false T canon d HW ER) as (_ & _ & T1 & _).
  destruct (scan_bucket_spec d false v HW Hv He) as (out & E & Hout). dsimp_in E. dsimp_in Hout.
  assert ((ht_size_exp d).1 <= 60) by (destruct (wf_size _ _ _ _ (wf_0 _ _ _ HW)); lia).
  exists out. split; [done|]. rewrite mask_ones by lia. split; [by apply next_cursor_range|]. split.
  { intros x Hx. unfold entries. apply elem_of_app. left. by apply Hout. }
  exists (ht_size_exp d).1. split; [lia|]. split; [apply next_cursor_rev; [done|lia]|].
  intros x Hx Hp. apply Hout. unfold entries in Hx. rewrite T1, app_nil_r in Hx. split; [done|].
  rewrite cell_unfold. pose proof (cell_mono (ht_size_exp d).1 _ _ ltac:(lia) (proj1 Hp)) as H1.
  pose proof (cell_upper (ht_size_exp d).1 _ _ ltac:(lia) (proj2 Hp)) as H2. fold (cell (ht_size_exp d).1 v) in H1. lia.
Qed.

Lemma scan_two_spec (d : dict) t v : wf d -> in_u 64 v ->
  0 <= sel (ht_size_exp d) t <= sel (ht_size_exp d) (negb t) -> exists out0 out1 v',
  scan_bucket T None d t (Z.land v (DICTHT_SIZE_MASK (sel (ht_size_exp d) t))) = Some (d, out0) /\
  scan_expansions T None (Z.to_nat (DICTHT_SIZE (sel (ht_size_exp d) (negb t)))) d (negb t)
    (DICTHT_SIZE_MASK (sel (ht_size_exp d) t)) (DICTHT_SIZE_MASK (sel (ht_size_exp d) (negb t))) v = Some (d, v', out1) /\
  scan_post d v v' (out0 ++ out1).
Proof.
  intros HW Hv He. destruct (scan_bucket_spec d t v HW Hv ltac:(lia)) as (out0 & E0 & Hout0).
  set (e0 := sel (ht_size_exp d) t) in *. set (e1 := sel (ht_size_exp d) (negb t)) in *.
  assert (e1 <= 60) as H60.
  { destruct t; [destruct (wf_size _ _ _ _ (wf_0 _ _ _ HW))|destruct (wf_size _ _ _ _ (wf_1 _ _ _ HW))]; unfold e1 in *; simpl in *; lia. }
  destruct (scan_expansions_spec d (negb t) e0 e1 HW eq_refl He (Z.to_nat (DICTHT_SIZE e1)) v (cell e0 v) Hv)
    as (v' & out1 & E1 & Hv' & Hr & Hout1).
  { apply cell_coarser; lia. }
  { rewrite size_pow, Z2Nat.id by (apply Z.pow_nonneg || lia; lia).
    pose proof (cell_lt e0 v Hv ltac:(lia)). pose proof (cell_nonneg e1 v Hv ltac:(lia)).
    assert (2 ^ e1 = 2 ^ e0 * 2 ^ (e1 - e0)) as HD by (rewrite <- Z.pow_add_r by lia; f_equal; lia).
    assert (0 < 2 ^ (e1 - e0)) by (apply Z.pow_pos_nonneg; lia). nia. }
  exists out0, out1, v'. rewrite !mask_ones by lia. rewrite mask_ones in E0 by lia. split; [done|]. split; [done|].
  assert ((cell e0 v + 1) * 2 ^ (e1 - e0) * 2 ^ (64 - e1) = (cell e0 v + 1) * 2 ^ (64 - e0)) as Eq.
  { rewrite <- Z.mul_assoc, <- Z.pow_add_r by lia. do 2 f_equal. lia. }
  split; [done|]. split.
  { intros x. rewrite elem_of_app. intros [Hx|Hx]; unfold entries; apply elem_of_app.
    - apply Hout0 in Hx as [? _]. destruct t; auto.
    - apply Hout1 in Hx as [? _]. destruct t; auto. }
  exists e0. split; [destruct t; unfold e0, e1 in *; simpl in *; lia|]. split; [by rewrite Hr, Eq|].
  intros x Hx [Hp1 Hp2]. apply elem_of_app.
  assert (x ∈ entries_of (sel (ht_table d) t) \/ x ∈ entries_of (sel (ht_table d) (negb t))) as [Hin|Hin].
  { unfold entries in Hx. apply elem_of_app in Hx. destruct t; simpl; tauto. }
  - left. apply Hout0. split; [done|]. rewrite cell_unfold.
    pose proof (cell_mono e0 _ _ ltac:(lia) Hp1) as H1. pose proof (cell_upper e0 _ _ ltac:(lia) Hp2) as H2.
    fold (cell e0 v) in H1. lia.
  - right. apply Hout1. split; [done|]. rewrite cell_unfold.
    pose proof (cell_mono e1 _ _ ltac:(lia) Hp1) as H1. rewrite <- Eq in Hp2. pose proof (cell_upper e1 _ _ ltac:(lia) Hp2) as H2.
    fold (cell e1 v) in H1. lia.
Qed.

Lemma wf_paused (d : dict) : wf d -> wf (dictPauseRehashing d).
Proof. intros []. by split. Qed.

Lemma dictScan_spec (d : dict) v : wf d -> in_u 64 v -> dictSize d <> 0 ->
  exists v' out, dictScan T d v = Some (d, v', out) /\ scan_post d v v' out.
Proof.
  intros HW Hv Hn. unfold dictScan, dictScanDefrag. zb. pose proof (wf_paused d HW) as HW'.
  destruct (dictIsRehashing (dictPauseRehashing d)) eqn:ER; cbn [negb].
  - destruct (dictIsRehashing_true T canon _ HW' ER) as (_ & He1 & He2).
    assert (exists t, (DICTHT_SIZE (ht_size_exp (dictPauseRehashing d)).1 >? DICTHT_SIZE (ht_size_exp (dictPauseRehashing d)).2) = t /\
      sel (ht_size_exp (dictPauseRehashing d)) t <= sel (ht_size_exp (dictPauseRehashing d)) (negb t)) as (t & -> & Ht).
    { rewrite !size_pow, Z.gtb_ltb by done.
      destruct (Z.ltb_spec (2 ^ (ht_size_exp (dictPauseRehashing d)).2) (2 ^ (ht_size_exp (dictPauseRehashing d)).1)) as [H|H];
        [exists true|exists false]; (split; [done|]); cbn [sel negb].
      - rewrite <- Z.pow_lt_mono_r_iff in H by lia. lia.
      - rewrite <- Z.pow_le_mono_r_iff in H by lia. lia. }
    destruct (scan_two_spec (dictPauseRehashing d) t v HW' Hv) as (out0 & out1 & v' & -> & E1 & Hpost).
    { split; [destruct t; done|done]. }
    cbn [mbind option_bind]. rewrite E1. cbn [mbind option_bind]. rewrite resume_pause.
    exists v', (out0 ++ out1). split; [done|exact Hpost].
  - assert (0 <= (ht_size_exp (dictPauseRehashing d)).1) as He.
    { destruct (dictIsRehashing_false T canon _ HW' ER) as (_ & _ & T1 & U1).
      destruct (wf_size _ _ _ _ (wf_0 _ _ _ HW')) as [[_ T0]|]; [|lia].
      rewrite (entries_length T canon d HW) in Hn. unfold entries in Hn.
      change (ht_table (dictPauseRehashing d)) with (ht_table d) in *. by rewrite T0, T1 in Hn. }
    destruct (scan_one_spec _ v HW' Hv ER He) as (out & -> & Hpost). cbn [mbind option_bind].
    rewrite resume_pause. do 2 eexists. split; [done|exact Hpost].
Qed.

(** ** Complete iterations

    The states of the dict at the successive calls are arbitrary: between two
    calls elements may be added and removed, and tables resized and rehashed. *)
Fixpoint scan_run (ds : list dict) (v : Z) : option (list (K * option V) * Z) :=
  match ds with
  | [] => Some ([], v)
  | d :: ds =>
    '(_, v, out) ← dictScan T d v;
    if v =? 0 then Some (out, 0) else
    '(out', v) ← scan_run ds v; Some (out ++ out', v)
  end.

Lemma place_range x : in_u 64 (place x).
Proof. apply rev_range, (hash_range (canon := canon)). Qed.

Lemma rev_0 : rev 0 = 0.
Proof. by vm_compute. Qed.

Lemma rev_nonzero v : in_u 64 v -> v <> 0 -> rev v <> 0.
Proof. intros Hv Hn E. apply Hn. by rewrite <- (rev_rev v), E. Qed.

Lemma cell_end e v : in_u 64 v -> 0 <= e <= 64 ->
  rev v < (cell e v + 1) * 2 ^ (64 - e) <= 2 ^ 64.
Proof.
  intros Hv He. assert (0 < 2 ^ (64 - e)) by (apply Z.pow_pos_nonneg; lia).
  pose proof (Z.mod_pos_bound (rev v) (2 ^ (64 - e)) ltac:(lia)). pose proof (Z.div_mod (rev v) (2 ^ (64 - e)) ltac:(lia)) as E.
  fold (cell e v) in E. pose proof (cell_lt e v Hv He).
  assert (2 ^ 64 = 2 ^ e * 2 ^ (64 - e)) by (rewrite <- Z.pow_add_r by lia; f_equal; lia). nia.
Qed.

(** The two ways a call ends. *)
Lemma scan_post_cases d v v' out : wf d -> in_u 64 v -> scan_post d v v' out ->
  exists e, 0 <= e <= (ht_size_exp d).1 /\ e <= 60 /\
    ((v' = 0 /\ forall x, x ∈ entries d -> rev v <= place x -> x ∈ out) \/
     (v' <> 0 /\ rev v < rev v' /\ rev v' = (cell e v + 1) * 2 ^ (64 - e) /\
      forall x, x ∈ entries d -> rev v <= place x < rev v' -> x ∈ out)).
Proof.
  intros HW Hv (Hv' & _ & e & He & Hr & Hx). exists e. split; [done|].
  assert (e <= 60) as H60 by (destruct (wf_size _ _ _ _ (wf_0 _ _ _ HW)); lia). split; [done|].
  pose proof (cell_end e v Hv ltac:(lia)) as Hend. pose proof (rev_range v Hv) as [? _].
  destruct (decide ((cell e v + 1) * 2 ^ (64 - e) = 2 ^ 64)) as [Ew|Ew].
  - left. rewrite Ew in Hr, Hx. change (u64 (2 ^ 64)) with 0 in Hr. split.
    + rewrite <- (rev_rev v'), Hr by done. apply rev_0.
    + intros x Hin Hp. apply Hx; [done|]. pose proof (place_range x) as [_ ?]. done.
  - right. rewrite wrap_id in Hr by (unfold in_u; lia). rewrite Hr. split.
    + intros ->. rewrite rev_0 in Hr. lia.
    + split_and!; auto; lia.
Qed.

(** The canonical keys a dict holds. *)
Definition holds (d : dict) (c : C) : Prop := c ∈ ckeys (entries d).

Lemma holds_entry d c : holds d c -> exists x, x ∈ entries d /\ canon x.1 = c.
Proof. intros Hh. apply list_elem_of_fmap in Hh as (x & -> & Hx). by exists x. Qed.

Lemma holds_nonempty d c : wf d -> holds d c -> dictSize d <> 0.
Proof.
  intros HW (x & Hx & _)%holds_entry. rewrite (entries_length T canon d HW).
  destruct (entries d); [by apply elem_of_nil in Hx|simpl; lia].
Qed.

Lemma place_canon x y : canon x.1 = canon y.1 -> place x = place y.
Proof. intros E. unfold place. f_equal. by apply hash_canon. Qed.

Lemma scan_run_emits ds : Forall wf ds -> forall v out c k, in_u 64 v -> Forall (fun d => holds d c) ds ->
  canon k = c -> rev v <= place (k, None) -> scan_run ds v = Some (out, 0) -> v <> 0 \/ ds <> [] -> c ∈ ckeys out.
Proof.
  induction 1 as [|d ds HW _ IH]; intros v out c k Hv Hh Hk Hp E Hn; cbn [scan_run] in E.
  { simplify_eq. by destruct Hn. }
  apply Forall_cons in Hh as [Hd Hh].
  destruct (dictScan_spec d v HW Hv (holds_nonempty _ _ HW Hd)) as (v' & out0 & E0 & Hpost).
  rewrite E0 in E. cbn [mbind option_bind] in E.
  destruct (holds_entry _ _ Hd) as (x & Hx & Hxc).
  assert (place x = place (k, None)) as Hpl by (apply place_canon; simpl; congruence).
  assert (forall o, x ∈ o -> c ∈ ckeys o) as Hin by (intros o Ho; rewrite <- Hxc; by apply (list_elem_of_fmap_2 (fun e => canon e.1))).
  destruct (scan_post_cases d v v' out0 HW Hv Hpost) as (e & _ & _ & [[-> Hall]|(Hv0 & _ & _ & Hall)]).
  { simpl in E. simplify_eq. apply Hin, Hall; [done|lia]. }
  revert E. zb. destruct (scan_run ds v') as [[out1 v1]|] eqn:E1; [|done]. cbn [mbind option_bind]. intros E. simplify_eq.
  rewrite ckeys_app. apply elem_of_app. destruct (decide (place x < rev v')) as [Hlt|Hge].
  - left. apply Hin, Hall; [done|lia].
  - right. apply (IH v' _ _ k); auto; [apply Hpost|lia].
Qed.

(** C9. Completeness of SCAN: whatever happens to the dict between the calls
    (insertions, deletions, table growth and shrinking, rehashing steps), a key the dict holds
    at every call of an iteration that starts at cursor 0 and ends when cursor 0 is returned is emitted. *)
Theorem dictScan_complete ds out k : Forall wf ds -> ds <> [] -> Forall (fun d => holds d (canon k)) ds ->
  scan_run ds 0 = Some (out, 0) -> canon k ∈ ckeys out.
Proof.
  intros HW Hn Hh E. eapply (scan_run_emits ds HW 0 out _ k); eauto; [done|].
  rewrite rev_0. apply place_range.
Qed.

Lemma dictScan_empty (d : dict) v : dictSize d = 0 -> dictScan T d v = Some (d, 0, []).
Proof. intros E. unfold dictScan, dictScanDefrag. by rewrite E. Qed.

Lemma scan_run_ends E ds : 0 <= E <= 60 -> Forall (fun d => wf d /\ (ht_size_exp d).1 <= E) ds ->
  forall v, in_u 64 v -> (2 ^ (64 - E) | rev v) ->
  2 ^ 64 - rev v <= Z.of_nat (length ds) * 2 ^ (64 - E) ->
  exists out, scan_run ds v = Some (out, 0) /\ forall x, x ∈ out -> exists d, d ∈ ds /\ x ∈ entries d.
Proof.
  intros HE HF. induction HF as [|d ds [HW He] _ IH]; intros v Hv Hd Hl; cbn [scan_run].
  { pose proof (rev_range v Hv) as [_ ?]. simpl in Hl. lia. }
  destruct (decide (dictSize d = 0)) as [H0|H0].
  { rewrite dictScan_empty by done. exists []. split; [done|]. intros x []%elem_of_nil. }
  destruct (dictScan_spec d v HW Hv H0) as (v' & out0 & -> & Hpost). cbn [mbind option_bind].
  assert (forall x, x ∈ out0 -> exists d', d' ∈ d :: ds /\ x ∈ entries d') as Hout.
  { intros x Hx. exists d. split; [left|by apply Hpost]. }
  destruct (scan_post_cases d v v' out0 HW Hv Hpost) as (e & He' & H60 & [[-> _]|(Hv0 & Hlt & Hr & _)]).
  { exists out0. split; [done|exact Hout]. }
  zb. assert (0 < 2 ^ (64 - E)) by (apply Z.pow_pos_nonneg; lia).
  assert (2 ^ (64 - E) | rev v') as Hd'.
  { rewrite Hr. apply Z.divide_mul_r. exists (2 ^ (E - e)). rewrite <- Z.pow_add_r by lia. f_equal. lia. }
  destruct (IH v') as (out & -> & Ho); [apply Hpost|done| |].
  { cbn [length] in Hl. destruct Hd as [a Ha], Hd' as [b Hb]. rewrite Ha, Hb in *.
    assert (a < b) by (apply (Z.mul_lt_mono_pos_r (2 ^ (64 - E))); lia). nia. }
  cbn [mbind option_bind]. exists (out0 ++ out). split; [done|]. intros x. rewrite elem_of_app.
  intros [Hx|Hx]; [auto|]. destruct (Ho x Hx) as (d' & ? & ?). exists d'. split; [by right|done].
Qed.

(** Termination and soundness of SCAN: while table 0 never has more than [2^E]
    buckets, an iteration from cursor 0 ends within [2^E] calls, never fails,
    and emits only entries the dict held at one of the calls. *)
Theorem dictScan_terminates E ds : 0 <= E <= 60 ->
  Forall (fun d => wf d /\ (ht_size_exp d).1 <= E) ds -> 2 ^ E <= Z.of_nat (length ds) ->
  exists out, scan_run ds 0 = Some (out, 0) /\ forall x, x ∈ out -> exists d, d ∈ ds /\ x ∈ entries d.
Proof.
  intros HE HF Hl. apply (scan_run_ends E ds HE HF 0); [done|rewrite rev_0; apply Z.divide_0_r|].
  rewrite rev_0. assert (2 ^ 64 = 2 ^ E * 2 ^ (64 - E)) as -> by (rewrite <- Z.pow_add_r by lia; f_equal; lia).
  assert (0 < 2 ^ (64 - E)) by (apply Z.pow_pos_nonneg; lia). nia.
Qed.
End ScanProof.

(** ** Witnesses: an iteration during which a rehash completes *)
Definition ex_dict2 : dict Z Z :=
  match run intType DICT_RESIZE_ENABLE ex_dict [ORehash 4; OAdd 40 4; ODelete 1] with
  | Some (d, _) => d
  | None => ex_dict
  end.

Lemma ex_dict2_wf : wf intType (fun k : Z => k) ex_dict2.
Proof.
  destruct (run_correct intType (fun k : Z => k) DICT_RESIZE_ENABLE [ORehash 4; OAdd 40 4; ODelete 1] ex_dict)
    as (d & E & HW & _); [apply ex_dict_wf|by vm_compute|repeat constructor|].
  unfold ex_dict2. by rewrite E.
Qed.

(** The first call sees 4 buckets being rehashed, the six others 8. *)
Definition ex_scan : list (dict Z Z) := ex_dict :: replicate 6 ex_dict2.

Lemma ex_scan_wf : Forall (wf intType (fun k : Z => k)) ex_scan.
Proof. apply Forall_cons. split; [apply ex_dict_wf|apply Forall_replicate, ex_dict2_wf]. Qed.

Lemma dictScan_complete_witness :
  exists out, scan_run intType ex_scan 0 = Some (out, 0) /\ 9 ∈ ckeys (fun k : Z => k) out.
Proof.
  destruct (scan_run intType ex_scan 0) as [[out v]|] eqn:E; [|exfalso; by vm_compute in E].
  assert (v = 0) as -> by (vm_compute in E; by inversion E).
  exists out. split; [reflexivity|].
  apply (dictScan_complete intType (fun k : Z => k) ex_scan out 9); [apply ex_scan_wf|discriminate| |exact E].
  apply Forall_cons. split; [|apply Forall_replicate]; unfold holds; apply (bool_decide_unpack _); by vm_compute.
Defined.

Lemma dictScan_terminates_witness :
  exists out, scan_run intType (replicate 8 ex_dict2) 0 = Some (out, 0).
Proof.
  destruct (dictScan_terminates intType (fun k : Z => k) 3 (replicate 8 ex_dict2)) as (out & E & _).
  - lia.
  - apply Forall_replicate. split; [apply ex_dict2_wf|by vm_compute].
  - by vm_compute.
  - exists out. exact E.
Defined.
