(* ===== verification/DictIter.v ===== *)
(** * Dict: iterators

    Model of the iterator API of dict.c ([dictNext] and its companions, with the
    misuse fingerprint).  An iterator over an unmodified dict returns every entry
    once.  The addresses of the two tables, which the fingerprint reads, are
    parameters. *)

From Stdlib Require Import ZArith Lia ZifyBool.
From stdpp Require Import base gmap numbers option list.
From S2P Require Import Prelude Dict DictProof DictMap.

Local Open Scope Z_scope.

(** The integer hash of [dictFingerprint]. *)
Definition fingerprint_mix (hash : Z) : Z :=
  let hash := u64 (u64 (Z.lnot hash) + u64 (Z.shiftl hash 21)) in
  let hash := Z.lxor hash (Z.shiftr hash 24) in
  let hash := u64 (u64 (hash + u64 (Z.shiftl hash 3)) + u64 (Z.shiftl hash 8)) in
  let hash := Z.lxor hash (Z.shiftr hash 14) in
  let hash := u64 (u64 (hash + u64 (Z.shiftl hash 2)) + u64 (Z.shiftl hash 4)) in
  let hash := Z.lxor hash (Z.shiftr hash 28) in
  u64 (hash + u64 (Z.shiftl hash 31)).

Section Iter.
Context {K V : Type} `{EqDecision K} (T : dictType K V) (dict_can_resize : dictResizeEnable).
Notation entry := (dictEntry K V).
Notation dict := (dict K V).

(** The addresses of [ht_table[0]] and [ht_table[1]]. *)
Context (addr : Z * Z).

Definition dictFingerprint (d : dict) : Z :=
  foldl (fun hash i => fingerprint_mix (u64 (hash + i))) 0
    [u64 addr.1; u64 (ht_size_exp d).1; u64 (ht_used d).1;
     u64 addr.2; u64 (ht_size_exp d).2; u64 (ht_used d).2].

Record dictIterator := mk_iter {
  it_index : Z;
  it_table : bool;
  it_safe : bool;
  it_entry : entry;
  it_nextEntry : entry;
  it_fingerprint : Z
}.

(** The fingerprint is left uninitialised. *)
Definition dictInitIterator (fingerprint : Z) : dictIterator := mk_iter (-1) false false NULL NULL fingerprint.
Definition dictInitSafeIterator (fingerprint : Z) : dictIterator := mk_iter (-1) false true NULL NULL fingerprint.

Definition fresh_iter (it : dictIterator) : bool := (it_index it =? -1) && negb (it_table it).

(** [None] is the failed assertion of an unsafe iterator whose dict changed. *)
Definition dictResetIterator (d : dict) (it : dictIterator) : option dict :=
  if negb (fresh_iter it) then
    if it_safe it then Some (dictResumeRehashing d)
    else if it_fingerprint it =? dictFingerprint d then Some d else None
  else Some d.

(** The branch of [dictNext] that moves to the next bucket: [None] outside the
    option is an out-of-range read, [inl] the [break]. *)
Definition iter_advance (d : dict) (it : dictIterator) : option (dict * dictIterator + dict * dictIterator) :=
  let '(d, fp) := if fresh_iter it
                  then if it_safe it then (dictPauseRehashing d, it_fingerprint it)
                       else (d, dictFingerprint d)
                  else (d, it_fingerprint it) in
  let index := it_index it + 1 in
  let at_bucket t i :=
    b ← bucket d t i;
    Some (inr (d, mk_iter i t (it_safe it) b (it_nextEntry it) fp)) in
  if index >=? DICTHT_SIZE (sel (ht_size_exp d) (it_table it)) then
    if dictIsRehashing d && negb (it_table it) then at_bucket true 0
    else Some (inl (d, mk_iter index (it_table it) (it_safe it) NULL (it_nextEntry it) fp))
  else at_bucket (it_table it) index.

(** [dictNext]: [NULL] is the end of the iteration. *)
Fixpoint dictNext_loop (fuel : nat) (d : dict) (it : dictIterator) : option (dict * dictIterator * entry) :=
  match fuel with
  | O => None
  | S fuel =>
    r ← (if is_NULL (it_entry it) then iter_advance d it
         else Some (inr (d, mk_iter (it_index it) (it_table it) (it_safe it) (it_nextEntry it)
                              (it_nextEntry it) (it_fingerprint it))));
    match r with
    | inl (d, it) => Some (d, it, NULL)
    | inr (d, it) =>
      if is_NULL (it_entry it) then dictNext_loop fuel d it else
      next ← dictGetNext (it_entry it);
      Some (d, mk_iter (it_index it) (it_table it) (it_safe it) (it_entry it) next (it_fingerprint it), it_entry it)
    end
  end.

(** Each round but one visits a new bucket. *)
Definition dictNext (d : dict) (it : dictIterator) : option (dict * dictIterator * entry) :=
  dictNext_loop (Z.to_nat (dictSlots d) + 3) d it.

(** A whole [while ((de = dictNext(di)) != NULL)] loop: the entries visited. *)
Fixpoint iterate (fuel : nat) (d : dict) (it : dictIterator) : option (dict * dictIterator * list entry) :=
  match fuel with
  | O => None
  | S fuel =>
    '(d, it, de) ← dictNext d it;
    if is_NULL de then Some (d, it, []) else
    '(d, it, out) ← iterate fuel d it; Some (d, it, de :: out)
  end.
End Iter.
Arguments dictIterator : clear implicits.

#[local] Opaque dictFingerprint.

(** ** Iterators visit every entry once *)
Section IterProof.
Context {K V C : Type} `{EqDecision K} (T : dictType K V) (canon : K -> C) `{!DictTypeOk T canon}.
Context (addr : Z * Z).
Notation entry := (dictEntry K V).
Notation dict := (dict K V).
Notation dictIterator := (dictIterator K V).
Notation wf := (DictProof.wf T canon).

Lemma chain_list_next (de : entry) : is_NULL de = false ->
  exists kv next, entry_kv de = Some kv /\ dictGetNext de = Some next /\ chain_list de = kv :: chain_list next.
Proof. destruct de; intros; try done; do 2 eexists; repeat split; done. Qed.

(** The second table is still to come. *)
Definition more (d : dict) (it : dictIterator) : bool := negb (it_table it) && dictIsRehashing d.

Definition pending (d : dict) (it : dictIterator) : list entry :=
  drop (Z.to_nat (it_index it + 1)) (sel (ht_table d) (it_table it)) ++ (if more d it then (ht_table d).2 else []).

(** The entries an iterator has still to return. *)
Definition remaining (d : dict) (it : dictIterator) : list (K * option V) :=
  (if is_NULL (it_entry it) then [] else chain_list (it_nextEntry it)) ++ entries_of (pending d it).

Record it_ok (d : dict) (it : dictIterator) : Prop := {
  it_index_ok : -1 <= it_index it;
  it_table_ok : it_table it = true -> dictIsRehashing d = true;
  it_entry_ok : is_NULL (it_entry it) = false -> 0 <= it_index it
}.

(** The dict and the fingerprint after the first call: rehashing is paused
    for a safe iterator, the fingerprint taken for an unsafe one. *)
Definition started (d : dict) (it : dictIterator) : dict :=
  if fresh_iter it && it_safe it then dictPauseRehashing d else d.
Definition started_fp (d : dict) (it : dictIterator) : Z :=
  if fresh_iter it && negb (it_safe it) then dictFingerprint addr d else it_fingerprint it.

Lemma table_size (d : dict) t : wf d -> DICTHT_SIZE (sel (ht_size_exp d) t) = Z.of_nat (length (sel (ht_table d) t)).
Proof.
  intros HW. assert (wf_table T (sel (ht_size_exp d) t) (sel (ht_table d) t) (sel (ht_used d) t)) as [HS _ _] by (destruct t; apply HW).
  destruct HS as [[-> ->]|[? ->]]; [done|by rewrite size_pow by lia].
Qed.

Lemma rehash_table2 (d : dict) : wf d -> dictIsRehashing d = true -> exists b rest, (ht_table d).2 = b :: rest.
Proof.
  intros HW ER. destruct (dictIsRehashing_true T canon d HW ER) as (_ & _ & He).
  pose proof (table_size d true HW) as Hs. rewrite size_pow in Hs by done. dsimp_in Hs.
  pose proof (Z.pow_pos_nonneg 2 (ht_size_exp d).2 ltac:(lia) He). destruct (ht_table d).2; [simpl in Hs; lia|eauto].
Qed.

(** One move to the next bucket. *)
Lemma advance_spec (d : dict) it : wf d -> it_ok d it ->
  match pending d it with
  | [] => iter_advance addr d it = Some (inl (started d it,
      mk_iter (it_index it + 1) (it_table it) (it_safe it) NULL (it_nextEntry it) (started_fp d it)))
  | b :: rest => exists i t, 0 <= i /\ iter_advance addr d it =
      Some (inr (started d it, mk_iter i t (it_safe it) b (it_nextEntry it) (started_fp d it))) /\
      (t = true -> dictIsRehashing d = true) /\
      pending d (mk_iter i t (it_safe it) b (it_nextEntry it) (started_fp d it)) = rest
  end.
Proof.
  intros HW [Hi Ht _]. unfold iter_advance.
  assert ((if fresh_iter it then if it_safe it then (dictPauseRehashing d, it_fingerprint it) else (d, dictFingerprint addr d)
           else (d, it_fingerprint it)) = (started d it, started_fp d it)) as ->.
  { unfold started, started_fp. by destruct (fresh_iter it), (it_safe it). }
  generalize (started_fp d it). intros fp.
  assert (forall t, DICTHT_SIZE (sel (ht_size_exp (started d it)) t) = Z.of_nat (length (sel (ht_table d) t))) as ->.
  { intros t. rewrite <- table_size by done. unfold started. by destruct (_ && _). }
  assert (dictIsRehashing (started d it) = dictIsRehashing d) as -> by (unfold started; by destruct (_ && _)).
  assert (forall t i b, 0 <= i -> sel (ht_table d) t !! Z.to_nat i = Some b -> bucket (started d it) t i = Some b) as HB.
  { intros. apply bucket_lookup; [done|]. unfold started. by destruct (_ && _). }
  generalize dependent (started d it). intros d1 HB.
  unfold pending, more. cbn [it_index it_table]. set (tbl := sel (ht_table d) (it_table it)). set (i := it_index it + 1).
  rewrite Z.geb_leb. destruct (Z.leb_spec (Z.of_nat (length tbl)) i) as [Hge|Hlt].
  - rewrite drop_ge by lia. rewrite app_nil_l. rewrite (andb_comm (negb _)).
    destruct (dictIsRehashing d && negb (it_table it)) eqn:EM; [|done].
    apply andb_true_iff in EM as [ER EN]. destruct (rehash_table2 d HW ER) as (b & rest & E2).
    rewrite E2. exists 0, true. split; [done|].
    rewrite (HB true 0 b) by (done || dsimp; by rewrite E2). split; [done|]. split; [done|].
    dsimp. by rewrite E2, app_nil_r.
  - destruct (lookup_lt_is_Some_2 tbl (Z.to_nat i)) as [b Hb]; [lia|].
    rewrite (drop_S _ b _ Hb). cbn [app]. exists i, (it_table it). split; [lia|].
    rewrite (HB _ i b) by (done || lia). split; [done|]. split; [done|].
    f_equal. replace (Z.to_nat (i + 1)) with (S (Z.to_nat i)) by lia. done.
Qed.

(** What a call of [dictNext] returns. *)
Definition next_post (d : dict) (safe : bool) (fp : Z) (it' : dictIterator) (r : list (K * option V)) (e : entry) : Prop :=
  it_ok d it' /\ fresh_iter it' = false /\ it_safe it' = safe /\ it_fingerprint it' = fp /\
  match r with
  | [] => e = NULL
  | x :: r => entry_kv e = Some x /\ remaining d it' = r
  end.

Lemma fresh_index i t s b n fp : 0 <= i -> fresh_iter (mk_iter (K := K) (V := V) i t s b n fp) = false.
Proof. intros. unfold fresh_iter. cbn. lia. Qed.

Lemma started_id d it : fresh_iter it = false -> started d it = d /\ started_fp d it = it_fingerprint it.
Proof. intros Hf. unfold started, started_fp. by rewrite Hf. Qed.

(** The exit of [dictNext] at an entry. *)
Lemma next_exit fuel (d d1 : dict) it : is_NULL (it_entry it) = false -> it_ok d it ->
  exists it' e,
    (if is_NULL (it_entry it) then dictNext_loop addr fuel d1 it else
      next ← dictGetNext (it_entry it);
      Some (d1, mk_iter (it_index it) (it_table it) (it_safe it) (it_entry it) next (it_fingerprint it), it_entry it))
    = Some (d1, it', e) /\
    next_post d (it_safe it) (it_fingerprint it) it' (chain_list (it_entry it) ++ entries_of (pending d it)) e.
Proof.
  intros Hn [Hi Ht H0]. rewrite Hn. destruct (chain_list_next _ Hn) as (kv & next & Hkv & -> & Hl).
  cbn [mbind option_bind]. do 2 eexists. split; [done|]. split; [by split|].
  split; [by apply fresh_index, H0|]. split; [done|]. split; [done|]. rewrite Hl. cbn [app]. split; [done|].
  unfold remaining. cbn [it_entry it_nextEntry]. by rewrite Hn.
Qed.

Lemma pending_started d it it' : pending (started d it) it' = pending d it'.
Proof. unfold started. by destruct (_ && _). Qed.

Lemma wf_started d it : wf d -> wf (started d it).
Proof. intros HW. unfold started. destruct (_ && _); [|done]. destruct HW. by split. Qed.

Lemma next_post_started d it safe fp it' r e : next_post (started d it) safe fp it' r e -> next_post d safe fp it' r e.
Proof. unfold started. destruct (_ && _); [|done]. intros ([] & ?). split; [by split|done]. Qed.

(** The loop after a bucket with no entry, and after one with an entry. *)
Lemma next_loop_spec fuel : forall (d : dict) it, wf d -> it_ok d it ->
  (length (pending d it) + (if is_NULL (it_entry it) then 1 else 2) <= fuel)%nat ->
  (is_NULL (it_entry it) = false -> fresh_iter it = false) ->
  exists it' e, dictNext_loop addr fuel d it = Some (started d it, it', e) /\
    next_post d (it_safe it) (started_fp d it) it' (remaining d it) e.
Proof.
  induction fuel as [|fuel IH]; intros d it HW Hok Hl Hf; [destruct (is_NULL _); lia|].
  cbn [dictNext_loop]. unfold remaining. destruct (is_NULL (it_entry it)) eqn:EN.
  - pose proof (advance_spec d it HW Hok) as HA. rewrite app_nil_l.
    destruct (pending d it) as [|b rest] eqn:EP.
    + rewrite HA. cbn [mbind option_bind]. do 2 eexists. split; [done|]. destruct Hok as [Hi Ht _].
      split; [by split; cbn; [lia| |]|]. split; [by apply fresh_index; lia|done].
    + destruct HA as (i & t & Hi & -> & Ht & HP). cbn [mbind option_bind].
      set (it1 := mk_iter i t (it_safe it) b (it_nextEntry it) (started_fp d it)) in *.
      assert (it_ok d it1) as Hok1 by (split; cbn; [lia|done|done]).
      assert (fresh_iter it1 = false) as Hf1 by (by apply fresh_index).
      rewrite <- HP. change (chain_list b ++ entries_of (pending d it1)) with (chain_list (it_entry it1) ++ entries_of (pending d it1)).
      change (entries_of (b :: pending d it1)) with (chain_list (it_entry it1) ++ entries_of (pending d it1)).
      destruct (is_NULL (it_entry it1)) eqn:EB.
      * destruct (IH (started d it) it1) as (it' & e & E & Hpost).
        { by apply wf_started. } { unfold started. destruct (_ && _); [|done]. by destruct Hok1; split. }
        { rewrite pending_started, HP, EB. simpl in Hl. lia. } { done. }
        destruct (started_id (started d it) it1 Hf1) as [Es Ef]. rewrite Es in E. rewrite Ef in Hpost.
        do 2 eexists. split; [exact E|]. apply next_post_started in Hpost.
        unfold remaining in Hpost. rewrite EB, app_nil_l, pending_started in Hpost.
        apply chain_list_NULL in EB. rewrite EB, app_nil_l. exact Hpost.
      * destruct (next_exit fuel d (started d it) it1 EB Hok1) as (it' & e & E & Hpost). rewrite EB in E.
        do 2 eexists. split; [exact E|exact Hpost].
  - cbn [mbind option_bind]. destruct (started_id d it (Hf eq_refl)) as [-> ->].
    set (it1 := mk_iter (it_index it) (it_table it) (it_safe it) (it_nextEntry it) (it_nextEntry it) (it_fingerprint it)).
    assert (it_ok d it1) as Hok1 by (destruct Hok; split; auto).
    change (pending d it) with (pending d it1) in *. change (it_nextEntry it) with (it_entry it1).
    destruct (is_NULL (it_entry it1)) eqn:E1.
    + destruct (IH d it1) as (it' & e & E & Hpost); [done|done|rewrite E1; lia|intros _; exact (Hf eq_refl)|].
      destruct (started_id d it1 (Hf eq_refl)) as [Es Ef]. rewrite Es in E. rewrite Ef in Hpost.
      do 2 eexists. split; [exact E|]. unfold remaining in Hpost. rewrite E1, app_nil_l in Hpost.
      apply chain_list_NULL in E1. rewrite E1, app_nil_l. exact Hpost.
    + destruct (next_exit fuel d d it1 E1 Hok1) as (it' & e & E & Hpost). rewrite E1 in E.
      do 2 eexists. split; [exact E|exact Hpost].
Qed.

Lemma dictNext_spec (d : dict) it : wf d -> it_ok d it -> (is_NULL (it_entry it) = false -> fresh_iter it = false) ->
  exists it' e, dictNext addr d it = Some (started d it, it', e) /\
    next_post d (it_safe it) (started_fp d it) it' (remaining d it) e.
Proof.
  intros HW Hok Hf. apply next_loop_spec; auto. unfold pending, dictSlots.
  pose proof (table_size d false HW) as H1. pose proof (table_size d true HW) as H2. dsimp_in H1. dsimp_in H2.
  rewrite H1, H2, length_app, length_drop.
  assert (length (if more d it then (ht_table d).2 else []) <= length (ht_table d).2)%nat as Hm by (destruct (more d it); simpl; lia).
  assert (it_table it = true -> length (if more d it then (ht_table d).2 else []) = 0%nat) as Hm' by (unfold more; intros ->; done).
  destruct (it_table it), (is_NULL _); cbn [sel]; lia.
Qed.

Lemma iterate_spec (d : dict) : wf d -> forall fuel it, it_ok d it -> fresh_iter it = false ->
  (length (remaining d it) < fuel)%nat ->
  exists it' out, iterate addr fuel d it = Some (d, it', out) /\ omap entry_kv out = remaining d it /\
    fresh_iter it' = false /\ it_safe it' = it_safe it /\ it_fingerprint it' = it_fingerprint it.
Proof.
  intros HW. induction fuel as [|fuel IH]; intros it Hok Hf Hl; [lia|]. cbn [iterate].
  destruct (dictNext_spec d it HW Hok ltac:(done)) as (it1 & e & -> & Hok1 & Hf1 & Hs1 & Hp1 & Hr).
  destruct (started_id d it Hf) as [-> Ef]. rewrite Ef in Hp1. cbn [mbind option_bind].
  destruct (remaining d it) as [|x r] eqn:ER.
  - rewrite Hr. cbn. exists it1, []. by repeat split.
  - destruct Hr as [Hkv Hr]. assert (is_NULL e = false) as -> by (by destruct e).
    destruct (IH it1 Hok1 Hf1) as (it' & out & -> & Ho & Hf2 & Hs2 & Hp2); [rewrite Hr; simpl in Hl; lia|].
    cbn [mbind option_bind]. exists it', (e :: out). split; [done|]. cbn. rewrite Hkv, Ho, Hr. repeat split; congruence.
Qed.

(** A new iterator has all entries to return. *)
Lemma remaining_init (d : dict) (safe : bool) fp : wf d ->
  remaining d (if safe then dictInitSafeIterator fp else dictInitIterator fp) = entries d.
Proof.
  intros HW. unfold remaining, pending, more, entries.
  assert (forall (b : bool) tb, (b = false -> tb = []) -> entries_of ((ht_table d).1 ++ (if b then tb else [])) = entries_of (ht_table d).1 ++ entries_of tb) as HE.
  { intros b tb Hb. unfold entries_of. rewrite bind_app. destruct b; [done|]. by rewrite Hb. }
  destruct safe; cbn; (apply HE; intros ER; by apply (dictIsRehashing_false T canon d HW) in ER as (_ & _ & ? & _)).
Qed.

(** A safe or unsafe iterator run over an unmodified dict, in the middle of a rehash or not,
    returns every entry exactly once, in table order, then NULL; releasing it
    passes the fingerprint assertion and leaves the dict as it was. *)
Theorem dictIterator_visits_all (d : dict) (safe : bool) fp : wf d ->
  exists d' it out, iterate addr (S (length (entries d))) d
      (if safe then dictInitSafeIterator fp else dictInitIterator fp) = Some (d', it, out) /\
    omap entry_kv out = entries d /\ dictResetIterator addr d' it = Some d.
Proof.
  intros HW. set (it0 := if safe : bool then dictInitSafeIterator fp else dictInitIterator fp).
  assert (it_ok d it0) as Hok by (unfold it0; by destruct safe).
  assert (remaining d it0 = entries d) as ER by (by apply remaining_init).
  assert (fresh_iter it0 = true) as Hf by (unfold it0; by destruct safe).
  destruct (dictNext_spec d it0 HW Hok) as (it1 & e & E & Hpost). { unfold it0. by destruct safe. }
  assert (started d it0 = (if safe then dictPauseRehashing d else d)) as Es by (unfold started; rewrite Hf; by destruct safe).
  assert (safe = false -> started_fp d it0 = dictFingerprint addr d) as Efp by (unfold started_fp; rewrite Hf; by intros ->).
  assert (it_safe it0 = safe) as Hsf by (unfold it0; by destruct safe).
  cbn [iterate]. rewrite E, Es. cbn [mbind option_bind]. rewrite ER in Hpost. clearbody it0.
  assert (forall it, fresh_iter it = false -> it_safe it = safe -> it_fingerprint it = started_fp d it0 ->
    dictResetIterator addr (if safe then dictPauseRehashing d else d) it = Some d) as Hreset.
  { intros it H1 H2 H3. unfold dictResetIterator. rewrite H1, H2, H3. destruct safe; cbn [negb].
    - f_equal. destruct d. unfold dictResumeRehashing, dictPauseRehashing, set_pause. cbn. f_equal. lia.
    - by rewrite Efp, Z.eqb_refl. }
  destruct Hpost as (Hok1 & Hf1 & Hs1 & Hp1 & Hr). rewrite Hsf in Hs1. destruct (entries d) as [|x r] eqn:EE.
  - rewrite Hr. cbn [is_NULL]. do 3 eexists. split; [done|]. split; [done|]. by apply Hreset.
  - destruct Hr as [Hkv Hr]. assert (is_NULL e = false) as -> by (by destruct e).
    assert (wf (if safe then dictPauseRehashing d else d)) as HW1 by (destruct safe; [destruct HW; by split|done]).
    destruct (iterate_spec _ HW1 (length (x :: r)) it1) as (it' & out & -> & Ho & Hf2 & Hs2 & Hp2).
    { destruct safe; [destruct Hok1; by split|done]. } { done. }
    { replace (remaining (if safe then _ else _) it1) with r by (destruct safe; done). simpl. lia. }
    cbn [mbind option_bind]. do 3 eexists. split; [done|]. split.
    + cbn. rewrite Hkv, Ho. f_equal. destruct safe; done.
    + apply Hreset; congruence.
Qed.
End IterProof.

Lemma dictIterator_visits_all_witness :
  dictIsRehashing ex_dict = true /\
  exists d' it out, iterate (4096, 8192) 6 ex_dict (dictInitSafeIterator 0) = Some (d', it, out) /\
    omap entry_kv out = entries ex_dict /\ dictResetIterator (4096, 8192) d' it = Some ex_dict.
Proof.
  split; [by vm_compute|].
  exact (dictIterator_visits_all intType (fun k : Z => k) (4096, 8192) ex_dict true 0 ex_dict_wf).
Defined.
