(* ===== verification/DictSample.v ===== *)
(** * Dict: random sampling

    Model of [dictGetRandomKey], [dictGetSomeKeys] and [dictGetFairRandomKey] of dict.c.  The
    random generators are a stream of draws [rnd]; the number of draws made is threaded through.
    Sampling never leaves the tables, returns entries of the dict, and keeps the map. *)

From Stdlib Require Import ZArith Lia ZifyBool.
From stdpp Require Import base gmap numbers option list.
From S2P Require Import Prelude Dict DictProof DictMap.

Local Open Scope Z_scope.

Notation GETFAIR_NUM_ENTRIES := 15%Z (only parsing).

Section Sample.
Context {K V : Type} `{EqDecision K} (T : dictType K V) (dict_can_resize : dictResizeEnable).
Context (rnd : nat -> Z).
Notation entry := (dictEntry K V).
Notation dict := (dict K V).

(** The entries a [while(he)] loop over a bucket visits. *)
Fixpoint chain_nodes (he : entry) : list entry :=
  match he with
  | NULL => []
  | EKey _ => [he]
  | ENoValue _ next => he :: chain_nodes next
  | ENormal _ _ next => he :: chain_nodes next
  end.

(** One draw of a bucket in [dictGetRandomKey]. *)
Definition random_bucket (d : dict) (n : nat) : option entry :=
  if dictIsRehashing d then
    let s0 := DICTHT_SIZE (ht_size_exp d).1 in
    let h := rehashidx d + u64 (rnd n) mod (dictSlots d - rehashidx d) in
    if h >=? s0 then bucket d true (h - s0) else bucket d false h
  else bucket d false (Z.land (u64 (rnd n)) (DICTHT_SIZE_MASK (ht_size_exp d).1)).

(** The [do ... while(he == NULL)] loops. *)
Fixpoint random_loop (fuel : nat) (d : dict) (n : nat) : option (entry * nat) :=
  match fuel with
  | O => None
  | S fuel =>
    he ← random_bucket d n;
    if is_NULL he then random_loop fuel d (S n) else Some (he, S n)
  end.

(** Returns the dict, the entry and the number of draws. *)
Definition dictGetRandomKey (fuel : nat) (d : dict) (n : nat) : option (dict * option entry * nat) :=
  if dictSize d =? 0 then Some (d, None, n) else
  d ← rehash_step_if T dict_can_resize d;
  '(he, n) ← random_loop fuel d n;
  let listlen := Z.of_nat (length (chain_nodes he)) in
  let listele := rnd n mod listlen in
  he ← chain_nodes he !! Z.to_nat listele;
  Some (d, Some he, S n).

(** The state of [dictGetSomeKeys]: the array, the entries stored, the index,
    the empty buckets in a row and the draws. *)
Record some_state := mk_some { des : list entry; stored : Z; si : Z; emptylen : Z; draws : nat }.

(** Storing one entry, by reservoir sampling once the array is full. *)
Definition some_store (count : Z) (st : some_state) (he : entry) : option some_state :=
  if stored st <? count then
    if stored st <? Z.of_nat (length (des st))
    then Some (mk_some (<[Z.to_nat (stored st) := he]> (des st)) (stored st + 1) (si st) (emptylen st) (draws st))
    else None
  else
    let r := u64 (rnd (draws st)) mod (stored st + 1) in
    if r <? count then
      if r <? Z.of_nat (length (des st))
      then Some (mk_some (<[Z.to_nat r := he]> (des st)) (stored st + 1) (si st) (emptylen st) (S (draws st)))
      else None
    else Some (mk_some (des st) (stored st + 1) (si st) (emptylen st) (S (draws st))).

Fixpoint some_chain (count : Z) (st : some_state) (hes : list entry) : option some_state :=
  match hes with
  | [] => Some st
  | he :: hes => st ← some_store count st he; some_chain count st hes
  end.

(** The body of the [for] loop over the tables; [true] is [goto end]. *)
Definition some_table (d : dict) (two : bool) (count maxsizemask : Z) (j : bool) (st : some_state)
    : option (some_state * bool) :=
  let before := two && negb j && (si st <? u64 (rehashidx d)) in
  let jump := si st >=? DICTHT_SIZE (ht_size_exp d).2 in
  if before && negb jump then Some (st, false) else
  let i := if before then u64 (rehashidx d) else si st in
  let st := mk_some (des st) (stored st) i (emptylen st) (draws st) in
  if i >=? DICTHT_SIZE (sel (ht_size_exp d) j) then Some (st, false) else
  he ← bucket d j i;
  if is_NULL he then
    let e := emptylen st + 1 in
    if (e >=? 5) && (e >? count)
    then Some (mk_some (des st) (stored st) (Z.land (u64 (rnd (draws st))) maxsizemask) 0 (S (draws st)), false)
    else Some (mk_some (des st) (stored st) i e (draws st), false)
  else
    st ← some_chain count (mk_some (des st) (stored st) i 0 (draws st)) (chain_nodes he);
    Some (st, stored st >=? count).

Definition some_tables (d : dict) (two : bool) (count maxsizemask : Z) (st : some_state) : option (some_state * bool) :=
  '(st, fin) ← some_table d two count maxsizemask false st;
  if fin : bool then Some (st, true) else
  if two then some_table d two count maxsizemask true st else Some (st, false).

(** [while(stored < count && maxsteps--)]. *)
Fixpoint some_loop (maxsteps : nat) (d : dict) (two : bool) (count maxsizemask : Z) (st : some_state) : option some_state :=
  match maxsteps with
  | O => Some st
  | S maxsteps =>
    if negb (stored st <? count) then Some st else
    '(st, fin) ← some_tables d two count maxsizemask st;
    if fin : bool then Some st else
    some_loop maxsteps d two count maxsizemask
      (mk_some (des st) (stored st) (Z.land (si st + 1) maxsizemask) (emptylen st) (draws st))
  end.

(** The rehashing work proportional to [count]. *)
Fixpoint some_rehash (n : nat) (d : dict) : option dict :=
  match n with
  | O => Some d
  | S n => if dictIsRehashing d then d ← _dictRehashStep T dict_can_resize d; some_rehash n d else Some d
  end.

(** Returns the dict, the array, the number of items in it and the draws. *)
Definition dictGetSomeKeys (d : dict) (junk : list entry) (count : Z) (n : nat) : option (dict * list entry * Z * nat) :=
  let count := if dictSize d <? count then dictSize d else count in
  let maxsteps := u32 (count * 10) in
  d ← some_rehash (Z.to_nat count) d;
  let two := dictIsRehashing d in
  let m0 := DICTHT_SIZE_MASK (ht_size_exp d).1 in
  let m1 := DICTHT_SIZE_MASK (ht_size_exp d).2 in
  let maxsizemask := if two && (m0 <? m1) then m1 else m0 in
  let i := Z.land (u64 (rnd n)) maxsizemask in
  st ← some_loop (Z.to_nat maxsteps) d two count maxsizemask (mk_some junk 0 i 0 (S n));
  Some (d, des st, if stored st >? count then count else stored st, draws st).

Definition dictGetFairRandomKey (fuel : nat) (d : dict) (junk : list entry) (n : nat) : option (dict * option entry * nat) :=
  '(d, entries, count, n) ← dictGetSomeKeys d junk GETFAIR_NUM_ENTRIES n;
  if count =? 0 then dictGetRandomKey fuel d n else
  let idx := rnd n mod count in
  he ← entries !! Z.to_nat idx;
  Some (d, Some he, S n).
End Sample.

Section SampleProof.
Context {K V C : Type} `{EqDecision K} (T : dictType K V) (canon : K -> C) `{!DictTypeOk T canon}.
Context (dict_can_resize : dictResizeEnable) (rnd : nat -> Z).
Notation entry := (dictEntry K V).
Notation dict := (dict K V).
Notation wf := (DictProof.wf T canon).

(** An entry of the dict. *)
Definition entry_in (d : dict) (he : entry) : Prop := exists kv, entry_kv he = Some kv /\ kv ∈ entries d.

Lemma chain_nodes_in (b : entry) he : he ∈ chain_nodes b -> exists kv, entry_kv he = Some kv /\ kv ∈ chain_list b.
Proof.
  induction b as [|k|k b IH|k v b IH]; cbn [chain_nodes chain_list]; rewrite ?elem_of_nil, ?elem_of_cons; try done;
    intros [->|H]; try (destruct (IH H) as (kv & ? & ?)); try (by apply elem_of_nil in H); eexists; (split; [done|]); set_solver.
Qed.

Lemma bucket_nodes_in (d : dict) t i b he : bucket d t i = Some b -> he ∈ chain_nodes b -> entry_in d he.
Proof.
  intros Hb (kv & Hkv & Hin)%chain_nodes_in. exists kv. split; [done|]. unfold bucket in Hb.
  destruct (0 <=? i); [|done]. unfold entries. apply elem_of_app.
  destruct t; [right|left]; apply elem_of_entries_of; eauto.
Qed.

Lemma bucket_in_range (d : dict) t i : wf d -> 0 <= i < DICTHT_SIZE (sel (ht_size_exp d) t) ->
  exists b, bucket d t i = Some b.
Proof.
  intros HW Hi. assert (wf_table T (sel (ht_size_exp d) t) (sel (ht_table d) t) (sel (ht_used d) t)) as [HS _ _] by (destruct t; apply HW).
  destruct HS as [[E _]|[? HL]]; [rewrite E in Hi; unfold DICTHT_SIZE in Hi; simpl in Hi; lia|].
  rewrite size_pow in Hi by lia.
  destruct (lookup_lt_is_Some_2 (sel (ht_table d) t) (Z.to_nat i)) as [b Hb]; [lia|].
  exists b. apply bucket_lookup; [lia|done].
Qed.

(** *** dictGetRandomKey *)

Lemma random_bucket_spec (d : dict) n : wf d -> dictSize d <> 0 -> exists b, random_bucket rnd d n = Some b.
Proof.
  intros HW Hn. unfold random_bucket. destruct (dictIsRehashing d) eqn:ER.
  - destruct (dictIsRehashing_true T canon d HW ER) as (Hri & H1 & H2).
    destruct (wf_rehash _ _ _ HW) as [[? _]|([_ Hle] & _)]; [lia|].
    pose proof (wf_table_len T canon d HW H1) as Hl. unfold dictSlots.
    assert (0 < DICTHT_SIZE (ht_size_exp d).2) by (rewrite size_pow by done; apply Z.pow_pos_nonneg; lia).
    set (m := DICTHT_SIZE (ht_size_exp d).1 + DICTHT_SIZE (ht_size_exp d).2 - rehashidx d).
    pose proof (Z.mod_pos_bound (u64 (rnd n)) m ltac:(lia)).
    rewrite Z.geb_leb. case_zb; apply bucket_in_range; auto; cbn [sel]; lia.
  - pose proof (nonempty_exp T canon d HW Hn) as H0. apply bucket_in_range; [done|]. cbn [sel].
    rewrite size_pow by done. by apply land_mask_range.
Qed.

Lemma random_loop_spec (d : dict) j : wf d -> dictSize d <> 0 -> forall fuel n, (j < fuel)%nat ->
  (exists b, random_bucket rnd d (n + j) = Some b /\ is_NULL b = false) ->
  exists b n' m, random_loop rnd fuel d n = Some (b, n') /\ is_NULL b = false /\ random_bucket rnd d m = Some b.
Proof.
  intros HW Hn. induction j as [|j IH]; intros fuel n Hj (b & Hb & Hnb); (destruct fuel as [|fuel]; [lia|]); cbn [random_loop].
  - rewrite Nat.add_0_r in Hb. rewrite Hb. cbn [mbind option_bind]. rewrite Hnb. eauto 10.
  - destruct (random_bucket_spec d n HW Hn) as [b0 Eb0]. rewrite Eb0. cbn [mbind option_bind].
    destruct (is_NULL b0) eqn:EN; [|eauto 10]. apply IH; [lia|]. exists b. by rewrite Nat.add_succ_comm.
Qed.

Lemma random_bucket_in (d : dict) m b he : random_bucket rnd d m = Some b -> he ∈ chain_nodes b -> entry_in d he.
Proof.
  unfold random_bucket. intros Hb. destruct (dictIsRehashing d); [destruct (_ >=? _)|]; by eapply bucket_nodes_in.
Qed.

Lemma chain_nodes_nonempty (b : entry) : is_NULL b = false -> (0 < length (chain_nodes b))%nat.
Proof. destruct b; simpl; (done || lia). Qed.

(** [dictGetRandomKey] returns NULL exactly on an empty dict; otherwise it
    never reads outside the tables, and as soon as one of the draws hits a non-empty bucket it
    returns an entry of the dict, whose map is unchanged. *)
Theorem dictGetRandomKey_correct (d : dict) n : wf d ->
  (dictSize d = 0 -> forall fuel, dictGetRandomKey T dict_can_resize rnd fuel d n = Some (d, None, n)) /\
  (dictSize d <> 0 -> exists d1, rehash_step_if T dict_can_resize d = Some d1 /\ wf d1 /\ same_entries d d1 /\
    (forall m, is_Some (random_bucket rnd d1 m)) /\
    forall j fuel, (exists b, random_bucket rnd d1 (n + j) = Some b /\ is_NULL b = false) -> (j < fuel)%nat ->
      exists he n', dictGetRandomKey T dict_can_resize rnd fuel d n = Some (d1, Some he, n') /\ entry_in d he).
Proof.
  intros HW. split; intros Hn. { intros fuel. unfold dictGetRandomKey. by rewrite Hn. }
  destruct (rehash_step_spec T canon dict_can_resize d HW) as (d1 & E1 & HW1 & S1).
  assert (dictSize d1 <> 0) as Hn1.
  { rewrite (entries_length T canon) in * by done. destruct S1 as (S1 & _). by rewrite S1. }
  exists d1. split; [done|]. split; [done|]. split; [done|]. split; [intros m; by destruct (random_bucket_spec d1 m HW1 Hn1) as [? ->]|].
  intros j fuel Hb Hj. destruct (random_loop_spec d1 j HW1 Hn1 fuel n Hj Hb) as (b & n' & m & El & Hnb & Hm).
  unfold dictGetRandomKey. zb. rewrite E1. cbn [mbind option_bind]. rewrite El. cbn [mbind option_bind].
  pose proof (chain_nodes_nonempty b Hnb). pose proof (Z.mod_pos_bound (rnd n') (Z.of_nat (length (chain_nodes b))) ltac:(lia)).
  destruct (lookup_lt_is_Some_2 (chain_nodes b) (Z.to_nat (rnd n' mod Z.of_nat (length (chain_nodes b))))) as [he Hhe]; [lia|].
  rewrite Hhe. cbn [mbind option_bind]. do 2 eexists. split; [done|].
  destruct (random_bucket_in d1 m b he Hm) as (kv & Hkv & Hin); [by eapply list_elem_of_lookup_2|].
  exists kv. split; [done|]. destruct S1 as (S1 & _). by rewrite <- S1.
Qed.

(** *** dictGetSomeKeys *)

(** The array is large enough and its first [min stored count] slots hold entries of the dict. *)
Record some_ok (d : dict) (count : Z) (st : some_state) : Prop := {
  some_room : count <= Z.of_nat (length (des st));
  some_stored : 0 <= stored st;
  some_index : 0 <= si st;
  some_entries k : 0 <= k < stored st -> k < count -> exists he, des st !! Z.to_nat k = Some he /\ entry_in d he
}.

Lemma some_store_spec (d : dict) count st he : 0 <= count -> some_ok d count st -> entry_in d he ->
  exists st', some_store rnd count st he = Some st' /\ some_ok d count st' /\ si st' = si st.
Proof.
  intros Hc [H1 H2 H3 H4] He. unfold some_store.
  assert (forall r k, 0 <= r -> r < count -> 0 <= k -> (k <> r -> k < stored st) -> k < count ->
    exists he', <[Z.to_nat r := he]> (des st) !! Z.to_nat k = Some he' /\ entry_in d he') as Hins.
  { intros r k Hr Hr' Hk Hk' Hkc. destruct (decide (k = r)) as [->|Hne].
    - rewrite list_lookup_insert_eq by lia. eauto.
    - rewrite list_lookup_insert_ne by lia. apply H4; [|done]. split; [done|auto]. }
  pose proof (Z.mod_pos_bound (u64 (rnd (draws st))) (stored st + 1) ltac:(lia)) as Hm.
  case_zb.
  - zb. eexists. split; [done|]. split; [|done]. split; cbn [des stored si]; rewrite ?length_insert; try lia.
    intros k Hk Hkc. apply Hins; lia.
  - case_zb.
    + zb. eexists. split; [done|]. split; [|done]. split; cbn [des stored si]; rewrite ?length_insert; try lia.
      intros k Hk Hkc. apply Hins; lia.
    + eexists. split; [done|]. split; [|done]. split; cbn [des stored si]; try lia. intros k Hk Hkc. apply H4; lia.
Qed.

Lemma some_chain_spec (d : dict) count hes : 0 <= count -> Forall (entry_in d) hes -> forall st, some_ok d count st ->
  exists st', some_chain rnd count st hes = Some st' /\ some_ok d count st'.
Proof.
  intros Hc. induction 1 as [|he hes He _ IH]; intros st Hok; cbn [some_chain]; [by exists st|].
  destruct (some_store_spec d count st he Hc Hok He) as (st1 & -> & Hok1 & _). cbn [mbind option_bind]. by apply IH.
Qed.

Lemma some_ok_move d count st i e n : some_ok d count st -> 0 <= i ->
  some_ok d count (mk_some (des st) (stored st) i e n).
Proof. intros [? ? _ ?] ?. by split. Qed.

Lemma some_table_spec (d : dict) two count mask j st : wf d -> 0 <= count -> 0 <= mask -> some_ok d count st ->
  exists st' fin, some_table rnd d two count mask j st = Some (st', fin) /\ some_ok d count st'.
Proof.
  intros HW Hc Hm Hok. pose proof (some_index _ _ _ Hok) as Hsi. unfold some_table.
  destruct (_ && negb (si st >=? _)); [by eauto|].
  set (i := if _ && _ then u64 (rehashidx d) else si st).
  assert (0 <= i) as Hi by (unfold i; destruct (_ && _); [apply wrap_range; lia|done]).
  clearbody i. cbn [des stored si emptylen draws]. rewrite Z.geb_leb. case_zb; [eauto using some_ok_move|].
  destruct (bucket_in_range d j i HW) as [b Hb]; [lia|]. rewrite Hb. cbn [mbind option_bind].
  destruct (is_NULL b).
  - destruct (_ && _); do 2 eexists; (split; [reflexivity|]); (apply some_ok_move; [done|]); [|done].
    apply Z.land_nonneg. by right.
  - destruct (some_chain_spec d count (chain_nodes b) Hc) with (st := mk_some (des st) (stored st) i 0 (draws st)) as (st' & -> & Hok').
    + apply Forall_forall. intros he Hhe. by eapply bucket_nodes_in.
    + by apply some_ok_move.
    + cbn [mbind option_bind]. eauto.
Qed.

Lemma some_loop_spec (d : dict) two count mask : wf d -> 0 <= count -> 0 <= mask -> forall n st, some_ok d count st ->
  exists st', some_loop rnd n d two count mask st = Some st' /\ some_ok d count st'.
Proof.
  intros HW Hc Hm. induction n as [|n IH]; intros st Hok; cbn [some_loop]; [by eauto|].
  destruct (negb _); [by eauto|]. unfold some_tables.
  destruct (some_table_spec d two count mask false st HW Hc Hm Hok) as (st1 & fin & -> & Hok1). cbn [mbind option_bind].
  assert (exists st2 fin2, (if fin then Some (st1, true) else if two then some_table rnd d two count mask true st1 else Some (st1, false))
    = Some (st2, fin2) /\ some_ok d count st2) as (st2 & fin2 & -> & Hok2).
  { destruct fin; [by eauto|]. destruct two; [|by eauto]. by apply some_table_spec. }
  cbn [mbind option_bind]. destruct fin2; [by eauto|]. apply IH. apply some_ok_move; [done|].
  apply Z.land_nonneg. by right.
Qed.

Lemma some_rehash_spec n : forall d : dict, wf d ->
  exists d', some_rehash T dict_can_resize n d = Some d' /\ wf d' /\ same_entries d d'.
Proof.
  induction n as [|n IH]; intros d HW; cbn [some_rehash]; [by exists d|].
  destruct (dictIsRehashing d) eqn:ER; [|by exists d].
  destruct (rehash_step_spec T canon dict_can_resize d HW) as (d1 & E1 & HW1 & S1).
  unfold rehash_step_if in E1. rewrite ER in E1. rewrite E1. cbn [mbind option_bind].
  destruct (IH d1 HW1) as (d2 & -> & HW2 & S2). exists d2. split_and!; auto. by etrans.
Qed.

(** [dictGetSomeKeys] always returns within its step bound, never reads
    outside the tables nor writes outside the caller's array, keeps the map, and the items it reports
    (no more than asked for, nor than the dict has) are entries of the dict. *)
Theorem dictGetSomeKeys_correct (d : dict) junk count n : wf d -> in_u 32 count -> count <= Z.of_nat (length junk) ->
  exists d' arr c n', dictGetSomeKeys T dict_can_resize rnd d junk count n = Some (d', arr, c, n') /\
    wf d' /\ same_entries d d' /\ 0 <= c <= count /\ c <= dictSize d /\
    forall k, 0 <= k < c -> exists he, arr !! Z.to_nat k = Some he /\ entry_in d' he.
Proof.
  intros HW Hc Hj. unfold dictGetSomeKeys.
  set (cnt := if dictSize d <? count then dictSize d else count).
  assert (0 <= dictSize d) by (rewrite (entries_length T canon) by done; lia).
  assert (0 <= cnt <= count /\ cnt <= dictSize d) as [Hcnt Hcs] by (unfold cnt, in_u in *; case_zb; lia).
  destruct (some_rehash_spec (Z.to_nat cnt) d HW) as (d1 & -> & HW1 & S1). cbn [mbind option_bind].
  set (mask := if _ && _ then _ else _).
  assert (0 <= mask) as Hmask.
  { assert (forall t, 0 <= DICTHT_SIZE_MASK (sel (ht_size_exp d1) t)) as HM.
    { intros t. assert (wf_table T (sel (ht_size_exp d1) t) (sel (ht_table d1) t) (sel (ht_used d1) t)) as [HS _ _] by (destruct t; apply HW1).
      destruct HS as [[-> _]|[? _]]; [done|]. rewrite mask_ones, Z.ones_equiv by lia.
      pose proof (Z.pow_pos_nonneg 2 (sel (ht_size_exp d1) t)). lia. }
    unfold mask. destruct (_ && _); [apply (HM true)|apply (HM false)]. }
  destruct (some_loop_spec d1 (dictIsRehashing d1) cnt mask HW1 ltac:(lia) Hmask (Z.to_nat (u32 (cnt * 10)))
    (mk_some junk 0 (Z.land (u64 (rnd n)) mask) 0 (S n))) as (st & -> & Hok).
  { split; cbn [des stored si]; try lia. apply Z.land_nonneg. by right. }
  cbn [mbind option_bind]. do 4 eexists. split; [done|]. split; [done|]. split; [done|].
  destruct Hok as [_ H2 _ H4]. rewrite Z.gtb_ltb. case_zb; (split; [lia|]; split; [lia|]; intros k Hk; apply H4; lia).
Qed.
End SampleProof.


