(* ===== verification/Adlist.v ===== *)
(** * Adlist: the generic doubly linked list of adlist.c

    Nodes live in a store from addresses to [listNode]; a pointer is an
    [option loc], [None] being NULL.  Dereferencing an address that is not
    allocated makes the model fail, so the theorems also show that no
    operation touches freed or foreign memory.  The methods [dup], [free] and
    [match] of a list are fields of the record, as in the code. *)

From Stdlib Require Import ZArith Lia ZifyBool.
From stdpp Require Import base gmap numbers option list.
From S2P Require Import Prelude.

Local Open Scope Z_scope.

Notation loc := positive.

Section Adlist.
Context {V : Type} `{EqDecision V}.

Record listNode := mk_node { nprev : option loc; nnext : option loc; nvalue : V }.

(** The store: the allocated nodes, and the values [free] was called on. *)
Record store := mk_store { mem : gmap loc listNode; freed_vals : list V }.

Inductive direction := AL_START_HEAD | AL_START_TAIL.
Record listIter := mk_iter { iter_next : option loc; iter_direction : direction }.

(** [len] is an [unsigned long]. *)
Record alist := mk_list {
  head : option loc;
  tail : option loc;
  dup_method : option (V -> option V);
  free_method : bool;
  match_method : option (V -> V -> bool);
  len : Z
}.

Definition with_ends (l : alist) (h t : option loc) (n : Z) : alist :=
  mk_list h t (dup_method l) (free_method l) (match_method l) n.

(** Field accesses through a pointer: [None] is a NULL or dangling dereference. *)
Definition load (s : store) (p : option loc) : option listNode := a ← p; mem s !! a.
Definition upd_node (s : store) (p : option loc) (f : listNode -> listNode) : option store :=
  a ← p; n ← mem s !! a; Some (mk_store (<[a := f n]> (mem s)) (freed_vals s)).
Definition set_prev (s : store) (p x : option loc) : option store :=
  upd_node s p (fun n => mk_node x (nnext n) (nvalue n)).
Definition set_next (s : store) (p x : option loc) : option store :=
  upd_node s p (fun n => mk_node (nprev n) x (nvalue n)).

(** [zmalloc]: [node] is the address the allocator chose, [None] when it failed. *)
Definition alloc (s : store) (a : loc) (v : V) : store :=
  mk_store (<[a := mk_node None None v]> (mem s)) (freed_vals s).
Definition zfree (s : store) (a : loc) : store := mk_store (delete a (mem s)) (freed_vals s).
Definition call_free (l : alist) (s : store) (v : V) : store :=
  if free_method l then mk_store (mem s) (freed_vals s ++ [v]) else s.

Definition listCreate : alist := mk_list None None None false None 0.

(** The [while(len--)] loop of [listEmpty]. *)
Fixpoint listEmpty_loop (n : nat) (l : alist) (s : store) (current : option loc) : option store :=
  match n with
  | O => Some s
  | S n =>
    node ← load s current;
    a ← current;
    listEmpty_loop n l (zfree (call_free l s (nvalue node)) a) (nnext node)
  end.

Definition listEmpty (s : store) (l : alist) : option (store * alist) :=
  s ← listEmpty_loop (Z.to_nat (len l)) l s (head l);
  Some (s, with_ends l None None 0).

Definition listLinkNodeHead (s : store) (l : alist) (node : loc) : option (store * alist) :=
  if len l =? 0 then
    s ← set_prev s (Some node) None;
    s ← set_next s (Some node) None;
    Some (s, with_ends l (Some node) (Some node) (u64 (len l + 1)))
  else
    s ← set_prev s (Some node) None;
    s ← set_next s (Some node) (head l);
    s ← set_prev s (head l) (Some node);
    Some (s, with_ends l (Some node) (tail l) (u64 (len l + 1))).

Definition listAddNodeHead (s : store) (l : alist) (node : option loc) (value : V) : option (store * alist * bool) :=
  match node with
  | None => Some (s, l, false)
  | Some a => '(s, l) ← listLinkNodeHead (alloc s a value) l a; Some (s, l, true)
  end.

Definition listLinkNodeTail (s : store) (l : alist) (node : loc) : option (store * alist) :=
  if len l =? 0 then
    s ← set_prev s (Some node) None;
    s ← set_next s (Some node) None;
    Some (s, with_ends l (Some node) (Some node) (u64 (len l + 1)))
  else
    s ← set_prev s (Some node) (tail l);
    s ← set_next s (Some node) None;
    s ← set_next s (tail l) (Some node);
    Some (s, with_ends l (head l) (Some node) (u64 (len l + 1))).

Definition listAddNodeTail (s : store) (l : alist) (node : option loc) (value : V) : option (store * alist * bool) :=
  match node with
  | None => Some (s, l, false)
  | Some a => '(s, l) ← listLinkNodeTail (alloc s a value) l a; Some (s, l, true)
  end.

Definition listInsertNode (s : store) (l : alist) (old_node : option loc) (node : option loc) (value : V) (after : bool)
    : option (store * alist * bool) :=
  match node with
  | None => Some (s, l, false)
  | Some a =>
    let s := alloc s a value in
    old ← load s old_node;
    let p := if after then old_node else nprev old in
    let n := if after then nnext old else old_node in
    s ← set_prev s (Some a) p;
    s ← set_next s (Some a) n;
    let h := if negb after && bool_decide (head l = old_node) then Some a else head l in
    let t := if after && bool_decide (tail l = old_node) then Some a else tail l in
    s ← (if p then set_next s p (Some a) else Some s);
    s ← (if n then set_prev s n (Some a) else Some s);
    Some (s, with_ends l h t (u64 (len l + 1)), true)
  end.

Definition listUnlinkNode (s : store) (l : alist) (node : option loc) : option (store * alist) :=
  nd ← load s node;
  '(s, h) ← match nprev nd with
            | Some p => s ← set_next s (Some p) (nnext nd); Some (s, head l)
            | None => Some (s, nnext nd)
            end;
  nd ← load s node;
  '(s, t) ← match nnext nd with
            | Some n => s ← set_prev s (Some n) (nprev nd); Some (s, tail l)
            | None => Some (s, nprev nd)
            end;
  s ← set_next s node None;
  s ← set_prev s node None;
  Some (s, with_ends l h t (u64 (len l - 1))).

Definition listDelNode (s : store) (l : alist) (node : option loc) : option (store * alist) :=
  '(s, l) ← listUnlinkNode s l node;
  nd ← load s node;
  a ← node;
  Some (zfree (call_free l s (nvalue nd)) a, l).

Definition listGetIterator (l : alist) (d : direction) : listIter :=
  match d with AL_START_HEAD => mk_iter (head l) d | AL_START_TAIL => mk_iter (tail l) d end.
Definition listRewind (l : alist) : listIter := mk_iter (head l) AL_START_HEAD.
Definition listRewindTail (l : alist) : listIter := mk_iter (tail l) AL_START_TAIL.

Definition listNext (s : store) (it : listIter) : option (listIter * option loc) :=
  match iter_next it with
  | None => Some (it, None)
  | Some a =>
    nd ← mem s !! a;
    Some (mk_iter (match iter_direction it with AL_START_HEAD => nnext nd | AL_START_TAIL => nprev nd end)
            (iter_direction it), Some a)
  end.

(** The loop of [listDup]; [addrs] are the addresses the allocator returns in turn.
    [inl] is the NULL result, the copy having been released. *)
Fixpoint listDup_loop (fuel : nat) (s : store) (copy : alist) (it : listIter) (addrs : list (option loc))
    : option (store * option alist) :=
  match fuel with
  | O => None
  | S fuel =>
    '(it, node) ← listNext s it;
    match node with
    | None => Some (s, Some copy)
    | Some a =>
      nd ← mem s !! a;
      match (match dup_method copy with Some f => f (nvalue nd) | None => Some (nvalue nd) end) with
      | None => '(s, _) ← listEmpty s copy; Some (s, None)
      | Some value =>
        '(s, copy, ok) ← listAddNodeTail s copy (default None (addrs !! 0%nat)) value;
        if ok : bool then listDup_loop fuel s copy it (tl addrs)
        else
          let s := if free_method copy then call_free copy s value else s in
          '(s, _) ← listEmpty s copy; Some (s, None)
      end
    end
  end.

Definition listDup (s : store) (orig : alist) (addrs : list (option loc)) : option (store * option alist) :=
  let copy := mk_list None None (dup_method orig) (free_method orig) (match_method orig) 0 in
  listDup_loop (S (Z.to_nat (len orig))) s copy (listRewind orig) addrs.

Fixpoint listSearchKey_loop (fuel : nat) (s : store) (l : alist) (it : listIter) (key : V) : option (option loc) :=
  match fuel with
  | O => None
  | S fuel =>
    '(it, node) ← listNext s it;
    match node with
    | None => Some None
    | Some a =>
      nd ← mem s !! a;
      if (match match_method l with
          | Some f => f (nvalue nd) key
          | None => bool_decide (key = nvalue nd)
          end) then Some (Some a) else listSearchKey_loop fuel s l it key
    end
  end.

Definition listSearchKey (s : store) (l : alist) (key : V) : option (option loc) :=
  listSearchKey_loop (S (Z.to_nat (len l))) s l (listRewind l) key.

(** [while(index-- && n) n = n->next;] and the same along [prev]. *)
Fixpoint listIndex_loop (index : nat) (s : store) (fwd : bool) (n : option loc) : option (option loc) :=
  match index, n with
  | S index, Some a =>
    nd ← mem s !! a;
    listIndex_loop index s fwd (if fwd then nnext nd else nprev nd)
  | _, _ => Some n
  end.

Definition listIndex (s : store) (l : alist) (index : Z) : option (option loc) :=
  if index <? 0 then listIndex_loop (Z.to_nat (- index - 1)) s false (tail l)
  else listIndex_loop (Z.to_nat index) s true (head l).

Definition listRotateTailToHead (s : store) (l : alist) : option (store * alist) :=
  if len l <=? 1 then Some (s, l) else
  nd ← load s (tail l);
  let l' := with_ends l (head l) (nprev nd) (len l) in
  s ← set_next s (tail l') None;
  s ← set_prev s (head l) (tail l);
  s ← set_prev s (tail l) None;
  s ← set_next s (tail l) (head l);
  Some (s, with_ends l' (tail l) (tail l') (len l)).

Definition listRotateHeadToTail (s : store) (l : alist) : option (store * alist) :=
  if len l <=? 1 then Some (s, l) else
  nd ← load s (head l);
  let l' := with_ends l (nnext nd) (tail l) (len l) in
  s ← set_prev s (head l') None;
  s ← set_next s (tail l) (head l);
  s ← set_next s (head l) None;
  s ← set_prev s (head l) (tail l);
  Some (s, with_ends l' (head l') (head l) (len l)).

Definition listJoin (s : store) (l o : alist) : option (store * alist * alist) :=
  if len o =? 0 then Some (s, l, o) else
  s ← set_prev s (head o) (tail l);
  '(s, h) ← (match tail l with
             | Some _ => s ← set_next s (tail l) (head o); Some (s, head l)
             | None => Some (s, head o)
             end);
  Some (s, with_ends l h (tail o) (u64 (len l + len o)), with_ends o None None 0).

Definition listInitNode (s : store) (a : loc) (v : V) : option store :=
  upd_node s (Some a) (fun _ => mk_node None None v).
End Adlist.
Arguments listNode : clear implicits.
Arguments store : clear implicits.
Arguments alist : clear implicits.
