(* ===== verification/AdlistProof.v ===== *)
(** * Adlist: refinement to sequences

    [is_list s l ls]: the nodes of [l] in the store [s] are exactly the
    addresses and values [ls], linked both ways.  The operations are shown to act on that
    sequence, to touch no other memory, and to free exactly what they should. *)

From Stdlib Require Import ZArith Lia ZifyBool.
From stdpp Require Import base gmap numbers option list.
From S2P Require Import Prelude Adlist.

Local Open Scope Z_scope.

Section Links.
Context {V : Type}.
Notation listNode := (listNode V).
Notation nodes := (list (loc * V)).

Definition first (ls : nodes) (n : option loc) : option loc := match ls with [] => n | (a, _) :: _ => Some a end.
Fixpoint final (ls : nodes) (p : option loc) : option loc :=
  match ls with [] => p | (a, _) :: ls => final ls (Some a) end.

(** A doubly linked segment between [p] and [n]. *)
Fixpoint dll (m : gmap loc listNode) (p : option loc) (ls : nodes) (n : option loc) : Prop :=
  match ls with
  | [] => True
  | (a, v) :: ls => m !! a = Some (mk_node p (first ls n) v) /\ dll m (Some a) ls n
  end.

Lemma first_app l1 l2 n : first (l1 ++ l2) n = first l1 (first l2 n).
Proof. by destruct l1 as [|[]]. Qed.

Lemma final_app l1 l2 p : final (l1 ++ l2) p = final l2 (final l1 p).
Proof. revert p. induction l1 as [|[a v] l1 IH]; intros q; simpl; [done|apply IH]. Qed.

Lemma dll_app m l1 l2 : forall p n, dll m p (l1 ++ l2) n <-> dll m p l1 (first l2 n) /\ dll m (final l1 p) l2 n.
Proof.
  induction l1 as [|[a v] l1 IH]; intros p n; simpl; [tauto|]. rewrite IH, first_app. tauto.
Qed.

Lemma dll_frame m m' ls : (forall a, a ∈ ls.*1 -> m' !! a = m !! a) -> forall p n, dll m p ls n -> dll m' p ls n.
Proof.
  induction ls as [|[a v] ls IH]; intros Hm p n; simpl; [done|]. intros [Ha Hd].
  split; [rewrite Hm by (simpl; by left); done|]. apply IH; [|done]. intros b Hb. apply Hm. simpl. by right.
Qed.

(** Total versions of the pointer writes. *)
Definition m_next (q x : option loc) (m : gmap loc listNode) : gmap loc listNode :=
  match q with Some a => alter (fun n => mk_node (nprev n) x (nvalue n)) a m | None => m end.
Definition m_prev (q x : option loc) (m : gmap loc listNode) : gmap loc listNode :=
  match q with Some a => alter (fun n => mk_node x (nnext n) (nvalue n)) a m | None => m end.

Definition avoids (q : option loc) (ls : nodes) : Prop := forall a, q = Some a -> a ∉ ls.*1.

Lemma m_next_ne q x m a : q <> Some a -> m_next q x m !! a = m !! a.
Proof. intros. destruct q; simpl; [|done]. apply lookup_alter_ne. congruence. Qed.
Lemma m_prev_ne q x m a : q <> Some a -> m_prev q x m !! a = m !! a.
Proof. intros. destruct q; simpl; [|done]. apply lookup_alter_ne. congruence. Qed.

Lemma dll_m_next q x m p ls n : avoids q ls -> dll m p ls n -> dll (m_next q x m) p ls n.
Proof. intros Hq. apply dll_frame. intros a Ha. apply m_next_ne. intros E. by apply (Hq a E). Qed.
Lemma dll_m_prev q x m p ls n : avoids q ls -> dll m p ls n -> dll (m_prev q x m) p ls n.
Proof. intros Hq. apply dll_frame. intros a Ha. apply m_prev_ne. intros E. by apply (Hq a E). Qed.
Lemma dll_insert_ne a nd m p ls n : a ∉ ls.*1 -> dll m p ls n -> dll (<[a := nd]> m) p ls n.
Proof. intros Ha. apply dll_frame. intros b Hb. apply lookup_insert_ne. by intros ->. Qed.
Lemma dll_delete_ne a m p ls n : a ∉ ls.*1 -> dll m p ls n -> dll (delete a m) p ls n.
Proof. intros Ha. apply dll_frame. intros b Hb. apply lookup_delete_ne. by intros ->. Qed.

(** Redirecting the ends of a segment. *)
Lemma dll_set_first m p p' ls n : NoDup ls.*1 -> dll m p ls n -> dll (m_prev (first ls None) p' m) p' ls n.
Proof.
  destruct ls as [|[a v] ls]; simpl; [done|]. intros [Ha _]%NoDup_cons [Hm Hd].
  split; [by rewrite lookup_alter_eq, Hm|]. apply (dll_m_prev (Some a)); [|done]. intros b [= ->]. done.
Qed.

Lemma final_in ls : forall p a, final ls p = Some a -> p = Some a \/ a ∈ ls.*1.
Proof.
  induction ls as [|[b v] ls IH]; intros p a; simpl; [tauto|]. intros H.
  destruct (IH _ _ H) as [[= ->]|?]; right; [left|by right].
Qed.

Lemma first_in ls n a : first ls n = Some a -> n = Some a \/ a ∈ ls.*1.
Proof. destruct ls as [|[b v] ls]; simpl; [tauto|]. intros [= ->]. right. left. Qed.

Lemma dll_lookup m p ls n a : dll m p ls n -> a ∈ ls.*1 -> is_Some (m !! a).
Proof.
  revert p. induction ls as [|[b v] ls IH]; intros p; simpl; [by intros _ ?%elem_of_nil|].
  intros [Hb Hd] [->|Ha]%elem_of_cons; [by rewrite Hb|by eapply IH].
Qed.

Lemma dll_set_final m ls : forall p n n', NoDup ls.*1 -> dll m p ls n -> dll (m_next (final ls None) n' m) p ls n'.
Proof.
  induction ls as [|[a v] ls IH] using rev_ind; intros p n n'; simpl; [done|].
  rewrite fmap_app, final_app, !dll_app. cbn [final first dll fmap list_fmap fst].
  intros (HN & Hni & _)%NoDup_app [Hd [Hm _]]. split.
  - apply (dll_m_next (Some a)); [|done]. intros b [= ->] Hb. apply (Hni _ Hb). by left.
  - split; [|done]. simpl. by rewrite lookup_alter_eq, Hm.
Qed.
End Links.

(** ** The abstraction relation *)
Section Refinement.
Context {V : Type} `{EqDecision V}.
Notation listNode := (listNode V).
Notation nodes := (list (loc * V)).
Notation store := (store V).
Notation alist := (alist V).

Record is_list (s : store) (l : alist) (ls : nodes) : Prop := {
  il_nodup : NoDup ls.*1;
  il_dll : dll (mem s) None ls None;
  il_head : head l = first ls None;
  il_tail : tail l = final ls None;
  il_len : len l = Z.of_nat (length ls);
  il_bound : Z.of_nat (length ls) < 2 ^ 64
}.

(** Only the addresses [S] may differ, and [fs] was passed to [free]. *)
Definition changes (S : list loc) (fs : list V) (s s' : store) : Prop :=
  (forall b, b ∉ S -> mem s' !! b = mem s !! b) /\ freed_vals s' = freed_vals s ++ fs.

(** The methods of a list never change. *)
Definition same_methods (l l' : alist) : Prop :=
  dup_method l' = dup_method l /\ free_method l' = free_method l /\ match_method l' = match_method l.

Lemma set_next_ok (s : store) a x : is_Some (mem s !! a) ->
  set_next s (Some a) x = Some (mk_store (m_next (Some a) x (mem s)) (freed_vals s)).
Proof.
  intros [n Hn]. unfold set_next, upd_node. cbn [mbind option_bind]. rewrite Hn. cbn [mbind option_bind]. do 2 f_equal.
  apply map_eq. intros b. destruct (decide (a = b)) as [->|].
  - rewrite lookup_insert_eq. simpl. by rewrite lookup_alter_eq, Hn.
  - rewrite lookup_insert_ne by done. simpl. by rewrite lookup_alter_ne.
Qed.

Lemma set_prev_ok (s : store) a x : is_Some (mem s !! a) ->
  set_prev s (Some a) x = Some (mk_store (m_prev (Some a) x (mem s)) (freed_vals s)).
Proof.
  intros [n Hn]. unfold set_prev, upd_node. cbn [mbind option_bind]. rewrite Hn. cbn [mbind option_bind]. do 2 f_equal.
  apply map_eq. intros b. destruct (decide (a = b)) as [->|].
  - rewrite lookup_insert_eq. simpl. by rewrite lookup_alter_eq, Hn.
  - rewrite lookup_insert_ne by done. simpl. by rewrite lookup_alter_ne.
Qed.

Lemma m_next_some q x (m : gmap loc listNode) a : is_Some (m_next q x m !! a) <-> is_Some (m !! a).
Proof.
  destruct q as [b|]; simpl; [|done]. destruct (decide (b = a)) as [->|].
  - rewrite lookup_alter_eq. by destruct (m !! a).
  - by rewrite lookup_alter_ne.
Qed.
Lemma m_prev_some q x (m : gmap loc listNode) a : is_Some (m_prev q x m !! a) <-> is_Some (m !! a).
Proof.
  destruct q as [b|]; simpl; [|done]. destruct (decide (b = a)) as [->|].
  - rewrite lookup_alter_eq. by destruct (m !! a).
  - by rewrite lookup_alter_ne.
Qed.

(** A node of a list and its neighbours. *)
Lemma dll_node (m : gmap loc listNode) l1 a v l2 : dll m None (l1 ++ (a, v) :: l2) None ->
  m !! a = Some (mk_node (final l1 None) (first l2 None) v).
Proof. rewrite dll_app. simpl. tauto. Qed.

Lemma nodup_mid (l1 : nodes) a v (l2 : nodes) : NoDup (l1 ++ (a, v) :: l2).*1 ->
  NoDup l1.*1 /\ NoDup l2.*1 /\ a ∉ l1.*1 /\ a ∉ l2.*1 /\ NoDup (l1 ++ l2).*1 /\
  (forall b, b ∈ l1.*1 -> b ∉ l2.*1).
Proof.
  rewrite !fmap_app, fmap_cons. cbn [fst]. intros (H1 & H2 & [H3 H4]%NoDup_cons)%NoDup_app.
  split_and!; auto.
  - intros Ha. apply (H2 a Ha). by left.
  - apply NoDup_app. split_and!; auto. intros b Hb Hb'. apply (H2 b Hb). by right.
  - intros b Hb Hb'. apply (H2 b Hb). by right.
Qed.

Lemma avoids_final (ls ls' : nodes) : (forall b, b ∈ ls.*1 -> b ∉ ls'.*1) -> avoids (final ls None) ls'.
Proof. intros H a [|Ha]%final_in; [done|]. by apply H. Qed.
Lemma avoids_first (ls ls' : nodes) : (forall b, b ∈ ls.*1 -> b ∉ ls'.*1) -> avoids (first ls None) ls'.
Proof. intros H a [|Ha]%first_in; [done|]. by apply H. Qed.

Lemma avoids_final_ne (ls : nodes) a : a ∉ ls.*1 -> final ls None <> Some a.
Proof. by intros H [|Ha]%final_in. Qed.
Lemma avoids_first_ne (ls : nodes) a : a ∉ ls.*1 -> first ls None <> Some a.
Proof. by intros H [|Ha]%first_in. Qed.

(** Linking [a] between two segments, and taking it out. *)
Lemma dll_link (m : gmap loc listNode) l1 a v l2 : NoDup (l1 ++ (a, v) :: l2).*1 -> dll m None (l1 ++ l2) None ->
  m !! a = Some (mk_node (final l1 None) (first l2 None) v) ->
  dll (m_prev (first l2 None) (Some a) (m_next (final l1 None) (Some a) m)) None (l1 ++ (a, v) :: l2) None.
Proof.
  intros (N1 & N2 & A1 & A2 & _ & Hd)%nodup_mid [D1 D2]%dll_app Ha. apply dll_app. cbn [first dll]. split; [|split].
  - apply dll_m_prev; [apply avoids_first; intros b Hb Hb'; by apply (Hd b)|]. by eapply dll_set_final.
  - rewrite m_prev_ne by (by apply avoids_first_ne). by rewrite m_next_ne by (by apply avoids_final_ne).
  - eapply dll_set_first; [done|]. apply dll_m_next; [by apply avoids_final|]. exact D2.
Qed.

Lemma dll_unlink (m : gmap loc listNode) l1 a v l2 : NoDup (l1 ++ (a, v) :: l2).*1 -> dll m None (l1 ++ (a, v) :: l2) None ->
  dll (m_prev (first l2 None) (final l1 None) (m_next (final l1 None) (first l2 None) m)) None (l1 ++ l2) None.
Proof.
  intros (N1 & N2 & A1 & A2 & _ & Hd)%nodup_mid [D1 [Ha D2]]%dll_app. apply dll_app. split.
  - apply dll_m_prev; [apply avoids_first; intros b Hb Hb'; by apply (Hd b)|]. by eapply dll_set_final.
  - eapply dll_set_first; [done|]. apply dll_m_next; [by apply avoids_final|]. exact D2.
Qed.

Lemma alloc_link (s : store) a v p n :
  (s ← set_prev (alloc s a v) (Some a) p; set_next s (Some a) n) =
  Some (mk_store (<[a := mk_node p n v]> (mem s)) (freed_vals s)).
Proof.
  unfold set_prev, set_next, upd_node, alloc. cbn [mbind option_bind mem]. rewrite lookup_insert_eq. cbn [mbind option_bind mem].
  rewrite lookup_insert_eq. cbn [mbind option_bind mem freed_vals nprev nvalue]. by rewrite !insert_insert_eq.
Qed.

Lemma fresh_notin s l ls a : is_list s l ls -> mem s !! a = None -> a ∉ ls.*1.
Proof. intros H Ha Hin. destruct (dll_lookup _ _ _ _ _ (il_dll _ _ _ H) Hin) as [? E]. congruence. Qed.

Lemma nodup_insert (l1 : nodes) a v l2 : NoDup (l1 ++ l2).*1 -> a ∉ (l1 ++ l2).*1 -> NoDup (l1 ++ (a, v) :: l2).*1.
Proof.
  rewrite !fmap_app, fmap_cons. cbn [fst]. intros (H1 & H2 & H3)%NoDup_app Ha. rewrite not_elem_of_app in Ha.
  apply NoDup_app. split_and!; [done| |apply NoDup_cons; split; [apply Ha|done]].
  intros b Hb [->|Hb']%elem_of_cons; [by apply (proj1 Ha)|by apply (H2 b)].
Qed.

(** The memory after linking a fresh node. *)
Definition linked (s : store) (l1 : nodes) (a : loc) (v : V) (l2 : nodes) : store :=
  mk_store (m_prev (first l2 None) (Some a) (m_next (final l1 None) (Some a)
    (<[a := mk_node (final l1 None) (first l2 None) v]> (mem s)))) (freed_vals s).

Lemma linked_spec s l l1 a v l2 : is_list s l (l1 ++ l2) -> mem s !! a = None ->
  Z.of_nat (length (l1 ++ l2)) < 2 ^ 64 - 1 ->
  is_list (linked s l1 a v l2)
    (with_ends l (first (l1 ++ (a, v) :: l2) None) (final (l1 ++ (a, v) :: l2) None) (u64 (len l + 1)))
    (l1 ++ (a, v) :: l2) /\
  changes (a :: (l1 ++ l2).*1) [] s (linked s l1 a v l2).
Proof.
  intros HL Ha Hb. pose proof (fresh_notin _ _ _ _ HL Ha) as Hni. destruct HL as [HN HD Hh Ht Hl _].
  split.
  - split; cbn [mem head tail len linked with_ends]; auto.
    + by apply nodup_insert.
    + apply dll_link; [by apply nodup_insert|by apply dll_insert_ne|by rewrite lookup_insert_eq].
    + rewrite wrap_id by (unfold in_u; lia). rewrite Hl, !length_app. simpl. lia.
    + rewrite length_app in *. simpl. lia.
  - split; [|by rewrite app_nil_r]. intros b [Hba Hb']%not_elem_of_cons. rewrite fmap_app, not_elem_of_app in Hb'. cbn [mem linked].
    rewrite m_prev_ne by (apply avoids_first_ne; tauto). rewrite m_next_ne by (apply avoids_final_ne; tauto).
    by apply lookup_insert_ne.
Qed.

Lemma first_some (ls : nodes) : ls <> [] -> exists a, first ls None = Some a /\ a ∈ ls.*1.
Proof. destruct ls as [|[a v] ls]; [done|]. exists a. split; [done|left]. Qed.
Lemma final_some (ls : nodes) : ls <> [] -> exists a, final ls None = Some a /\ a ∈ ls.*1.
Proof.
  destruct ls as [|[a v] ls _] using rev_ind; [done|]. intros _. exists a. rewrite final_app. split; [done|].
  rewrite fmap_app. apply elem_of_app. right. left.
Qed.

Lemma addHead_spec s l ls a v : is_list s l ls -> mem s !! a = None -> Z.of_nat (length ls) < 2 ^ 64 - 1 ->
  exists s' l', listAddNodeHead s l (Some a) v = Some (s', l', true) /\ is_list s' l' ((a, v) :: ls) /\
    changes (a :: ls.*1) [] s s' /\ same_methods l l'.
Proof.
  intros HL Ha Hb. pose proof (linked_spec s l [] a v ls HL Ha Hb) as [HL' HC].
  unfold listAddNodeHead, listLinkNodeHead. rewrite (il_len _ _ _ HL), (il_head _ _ _ HL), (il_tail _ _ _ HL).
  rewrite (il_len _ _ _ HL) in HL'.
  destruct ls as [|x ls].
  - cbn [length Z.of_nat Z.eqb]. pose proof (alloc_link s a v None None) as E.
    destruct (set_prev (alloc s a v) (Some a) None) as [s1|]; [|done]. cbn [mbind option_bind] in *. rewrite E. cbn [mbind option_bind].
    do 2 eexists. split; [done|]. split; [exact HL'|]. split; [exact HC|done].
  - zb. pose proof (alloc_link s a v None (first (x :: ls) None)) as E.
    destruct (set_prev (alloc s a v) (Some a) None) as [s1|]; [|done]. cbn [mbind option_bind] in *. rewrite E. cbn [mbind option_bind].
    destruct (first_some (x :: ls) ltac:(done)) as (b & Eb & Hin).
    assert (a <> b) by (intros <-; by apply (fresh_notin _ _ _ _ HL Ha)).
    rewrite Eb. rewrite set_prev_ok.
    2:{ cbn [mem]. rewrite lookup_insert_ne by done. by eapply dll_lookup; [apply HL|]. }
    cbn [mbind option_bind]. do 2 eexists. split; [done|]. unfold linked in HL', HC. rewrite Eb in *.
    split; [exact HL'|]. split; [exact HC|done].
Qed.

Lemma addTail_spec s l ls a v : is_list s l ls -> mem s !! a = None -> Z.of_nat (length ls) < 2 ^ 64 - 1 ->
  exists s' l', listAddNodeTail s l (Some a) v = Some (s', l', true) /\ is_list s' l' (ls ++ [(a, v)]) /\
    changes (a :: ls.*1) [] s s' /\ same_methods l l'.
Proof.
  intros HL Ha Hb. rewrite <- (app_nil_r ls) in HL, Hb. pose proof (linked_spec s l ls a v [] HL Ha Hb) as [HL' HC].
  rewrite app_nil_r in HL, HC. unfold listAddNodeTail, listLinkNodeTail.
  rewrite (il_len _ _ _ HL), (il_head _ _ _ HL), (il_tail _ _ _ HL). rewrite (il_len _ _ _ HL) in HL'.
  destruct (decide (ls = [])) as [->|Hne].
  - cbn [length Z.of_nat Z.eqb]. pose proof (alloc_link s a v None None) as E.
    destruct (set_prev (alloc s a v) (Some a) None) as [s1|]; [|done]. cbn [mbind option_bind] in *. rewrite E. cbn [mbind option_bind].
    do 2 eexists. split; [done|]. split; [exact HL'|]. split; [exact HC|done].
  - assert (length ls <> 0%nat) by (by rewrite length_zero_iff_nil). zb.
    pose proof (alloc_link s a v (final ls None) None) as E.
    destruct (set_prev (alloc s a v) (Some a) (final ls None)) as [s1|]; [|done]. cbn [mbind option_bind] in *. rewrite E. cbn [mbind option_bind].
    destruct (final_some ls Hne) as (b & Eb & Hin).
    assert (a <> b) by (intros <-; by apply (fresh_notin _ _ _ _ HL Ha)). rewrite Eb, set_next_ok.
    2:{ cbn [mem]. rewrite lookup_insert_ne by done. by eapply dll_lookup; [apply HL|]. }
    cbn [mbind option_bind]. do 2 eexists. split; [done|]. unfold linked in HL', HC. rewrite Eb in *.
    rewrite first_app, final_app in HL'. cbn [final] in HL'.
    replace (first ls (first [(a, v)] None)) with (first ls None) in HL' by (by destruct ls as [|[]]).
    split; [exact HL'|]. split; [exact HC|done].
Qed.

(** The neighbours' updates of [listInsertNode]. *)
Lemma relink_spec s l l1 a v l2 : is_list s l (l1 ++ l2) -> mem s !! a = None ->
  let s2 := mk_store (<[a := mk_node (final l1 None) (first l2 None) v]> (mem s)) (freed_vals s) in
  exists s3, (if final l1 None then set_next s2 (final l1 None) (Some a) else Some s2) = Some s3 /\
    (if first l2 None then set_prev s3 (first l2 None) (Some a) else Some s3) = Some (linked s l1 a v l2).
Proof.
  intros HL Ha s2. pose proof (fresh_notin _ _ _ _ HL Ha) as Hni. rewrite fmap_app, not_elem_of_app in Hni.
  assert (forall b, b ∈ (l1 ++ l2).*1 -> is_Some (mem s2 !! b)) as Hmem.
  { intros b Hb. unfold s2. cbn [mem]. destruct (decide (b = a)) as [->|]; [by rewrite lookup_insert_eq|].
    rewrite lookup_insert_ne by done. by eapply dll_lookup; [apply HL|]. }
  exists (mk_store (m_next (final l1 None) (Some a) (mem s2)) (freed_vals s)). split.
  - destruct (final l1 None) as [b|] eqn:E; [|done]. rewrite set_next_ok; [done|].
    apply Hmem. rewrite fmap_app, elem_of_app. left. by destruct (final_in _ _ _ E).
  - unfold linked. destruct (first l2 None) as [b|] eqn:E; [|done]. rewrite set_prev_ok; [done|].
    cbn [mem]. apply m_next_some, Hmem. rewrite fmap_app, elem_of_app. right. by destruct (first_in _ _ _ E).
Qed.

Lemma tail_after (l2 : nodes) old a : old ∉ l2.*1 ->
  (if bool_decide (final l2 (Some old) = Some old) then Some a else final l2 (Some old)) = final l2 (Some a).
Proof.
  intros Hni. destruct l2 as [|[b u] l2]; cbn [final]; [by rewrite bool_decide_eq_true_2|].
  rewrite bool_decide_eq_false_2; [done|]. intros [[= ->]|Hf]%final_in; apply Hni; [left|by right].
Qed.

Lemma head_before (l1 : nodes) old a : old ∉ l1.*1 ->
  (if bool_decide (first l1 (Some old) = Some old) then Some a else first l1 (Some old)) = first l1 (Some a).
Proof.
  intros Hni. destruct l1 as [|[b u] l1]; cbn [first]; [by rewrite bool_decide_eq_true_2|].
  rewrite bool_decide_eq_false_2; [done|]. intros [= ->]. apply Hni. left.
Qed.

Lemma insertNode_spec s l l1 old w l2 a v (after : bool) : is_list s l (l1 ++ (old, w) :: l2) -> mem s !! a = None ->
  Z.of_nat (length (l1 ++ (old, w) :: l2)) < 2 ^ 64 - 1 ->
  exists s' l', listInsertNode s l (Some old) (Some a) v after = Some (s', l', true) /\
    is_list s' l' (if after then l1 ++ (old, w) :: (a, v) :: l2 else l1 ++ (a, v) :: (old, w) :: l2) /\
    changes (a :: (l1 ++ (old, w) :: l2).*1) [] s s' /\ same_methods l l'.
Proof.
  intros HL Ha Hb. pose proof (fresh_notin _ _ _ _ HL Ha) as Hni.
  pose proof (dll_node _ _ _ _ _ (il_dll _ _ _ HL)) as Hold.
  assert (a <> old) as Hne by (intros ->; congruence).
  destruct (nodup_mid _ _ _ _ (il_nodup _ _ _ HL)) as (N1 & N2 & A1 & A2 & _).
  unfold listInsertNode, load. cbn [mbind option_bind alloc mem]. rewrite lookup_insert_ne, Hold by done.
  cbn [mbind option_bind nprev nnext]. fold (alloc s a v).
  rewrite (il_head _ _ _ HL), (il_tail _ _ _ HL).
  destruct after; cbn [negb andb].
  - replace (l1 ++ (old, w) :: l2) with ((l1 ++ [(old, w)]) ++ l2) in HL, Hb, Hni |- * by (by rewrite <- app_assoc).
    pose proof (linked_spec s l _ a v l2 HL Ha Hb) as [HL' HC].
    destruct (relink_spec s l (l1 ++ [(old, w)]) a v l2 HL Ha) as (s3 & E3 & E4).
    pose proof (alloc_link s a v (Some old) (first l2 None)) as E.
    destruct (set_prev (alloc s a v) (Some a) (Some old)) as [s1|]; [|done]. cbn [mbind option_bind] in *. rewrite E. cbn [mbind option_bind].
    rewrite final_app in E3. cbn [final] in E3. rewrite E3. cbn [mbind option_bind]. rewrite E4. cbn [mbind option_bind].
    do 2 eexists. split; [done|].
    replace (l1 ++ (old, w) :: (a, v) :: l2) with ((l1 ++ [(old, w)]) ++ (a, v) :: l2) by (by rewrite <- app_assoc).
    split; [|split; [exact HC|done]].
    rewrite !first_app, !final_app in HL' |- *. cbn [final first] in HL' |- *.
    rewrite tail_after by done. exact HL'.
  - pose proof (linked_spec s l l1 a v ((old, w) :: l2) HL Ha Hb) as [HL' HC].
    destruct (relink_spec s l l1 a v ((old, w) :: l2) HL Ha) as (s3 & E3 & E4). cbn [first] in E3, E4.
    pose proof (alloc_link s a v (final l1 None) (Some old)) as E.
    destruct (set_prev (alloc s a v) (Some a) (final l1 None)) as [s1|]; [|done]. cbn [mbind option_bind] in *. rewrite E. cbn [mbind option_bind].
    rewrite E3. cbn [mbind option_bind]. rewrite E4. cbn [mbind option_bind].
    do 2 eexists. split; [done|]. split; [|split; [exact HC|done]].
    rewrite !first_app, !final_app in HL' |- *. cbn [final first] in HL' |- *.
    rewrite head_before by done. exact HL'.
Qed.

(** *** Unlinking *)

(** The memory after taking out a node, which keeps its value and is NULLed. *)
Definition unlinked (s : store) (l1 : nodes) (a : loc) (v : V) (l2 : nodes) : store :=
  mk_store (<[a := mk_node None None v]> (m_prev (first l2 None) (final l1 None)
    (m_next (final l1 None) (first l2 None) (mem s)))) (freed_vals s).

Lemma unlinkNode_spec s l l1 a v l2 : is_list s l (l1 ++ (a, v) :: l2) ->
  listUnlinkNode s l (Some a) = Some (unlinked s l1 a v l2,
    with_ends l (first (l1 ++ l2) None) (final (l1 ++ l2) None) (u64 (len l - 1))).
Proof.
  intros HL. pose proof (il_dll _ _ _ HL) as HD. pose proof (dll_node _ _ _ _ _ HD) as Ha.
  destruct (nodup_mid _ _ _ _ (il_nodup _ _ _ HL)) as (N1 & N2 & A1 & A2 & _ & Hd).
  assert (forall b, b ∈ l1.*1 \/ b ∈ l2.*1 -> is_Some (mem s !! b)) as Hmem.
  { intros b Hb. eapply dll_lookup; [exact HD|]. rewrite fmap_app, elem_of_app, fmap_cons, elem_of_cons. tauto. }
  unfold listUnlinkNode, load. cbn [mbind option_bind]. rewrite Ha. cbn [mbind option_bind nprev nnext].
  set (s1 := mk_store (m_next (final l1 None) (first l2 None) (mem s)) (freed_vals s)).
  assert ((match final l1 None with
     | Some p => s ← set_next s (Some p) (first l2 None); Some (s, head l)
     | None => Some (s, first l2 None) end) = Some (s1, first (l1 ++ l2) None)) as ->.
  { unfold s1. rewrite first_app, (il_head _ _ _ HL), first_app. destruct l1 as [|x l1].
    - cbn [final first m_next]. by destruct s.
    - destruct (final_some (x :: l1) ltac:(done)) as (b & Eb & Hb). rewrite Eb, set_next_ok by (apply Hmem; by left).
      cbn [mbind option_bind]. by destruct x. }
  cbn [mbind option_bind]. assert (mem s1 !! a = mem s !! a) as -> by (apply m_next_ne, avoids_final_ne; done).
  rewrite Ha. cbn [mbind option_bind nprev nnext].
  set (s2 := mk_store (m_prev (first l2 None) (final l1 None) (mem s1)) (freed_vals s)).
  assert ((match first l2 None with
     | Some n => s ← set_prev s1 (Some n) (final l1 None); Some (s, tail l)
     | None => Some (s1, final l1 None) end) = Some (s2, final (l1 ++ l2) None)) as ->.
  { unfold s2. rewrite final_app, (il_tail _ _ _ HL), final_app. destruct l2 as [|[b u] l2]; cbn [first final m_prev].
    - done.
    - rewrite set_prev_ok; [done|]. apply m_next_some, Hmem. right. left. }
  cbn [mbind option_bind]. assert (mem s2 !! a = Some (mk_node (final l1 None) (first l2 None) v)) as Ha2.
  { unfold s2. cbn [mem]. rewrite m_prev_ne by (by apply avoids_first_ne). cbn [s1 mem]. by rewrite m_next_ne by (by apply avoids_final_ne). }
  unfold set_next, set_prev, upd_node. cbn [mbind option_bind]. rewrite Ha2. cbn [mbind option_bind mem].
  rewrite lookup_insert_eq. cbn [mbind option_bind mem freed_vals nprev nnext nvalue]. by rewrite insert_insert_eq.
Qed.

Lemma delNode_spec s l l1 a v l2 : is_list s l (l1 ++ (a, v) :: l2) ->
  exists s' l', listDelNode s l (Some a) = Some (s', l') /\ is_list s' l' (l1 ++ l2) /\ mem s' !! a = None /\
    changes (l1 ++ (a, v) :: l2).*1 (if free_method l then [v] else []) s s' /\ same_methods l l'.
Proof.
  intros HL. unfold listDelNode. rewrite (unlinkNode_spec s l l1 a v l2 HL). cbn [mbind option_bind].
  unfold load, unlinked. cbn [mbind option_bind mem]. rewrite lookup_insert_eq. cbn [mbind option_bind nvalue].
  pose proof (il_nodup _ _ _ HL) as HN. pose proof (nodup_mid _ _ _ _ HN) as (N1 & N2 & A1 & A2 & N12 & Hd).
  destruct HL as [_ HD Hh Ht Hl Hb]. rewrite length_app in Hl, Hb. cbn [length] in Hl, Hb.
  unfold call_free. cbn [free_method with_ends].
  set (m := m_prev (first l2 None) (final l1 None) (m_next (final l1 None) (first l2 None) (mem s))).
  match goal with |- context [zfree ?x a] => set (s' := zfree x a) end.
  assert (mem s' = delete a m) as Em by (unfold s'; destruct (free_method l); cbn [zfree mem]; by rewrite delete_insert_eq).
  assert (freed_vals s' = freed_vals s ++ (if free_method l then [v] else [])) as Ef
    by (unfold s'; destruct (free_method l); cbn [zfree freed_vals]; by rewrite ?app_nil_r).
  clearbody s'. do 2 eexists. split; [done|].
  split; [|split; [|split; [|done]]].
  - split; cbn [head tail len with_ends]; auto.
    + rewrite Em. apply dll_delete_ne; [rewrite fmap_app, not_elem_of_app; done|]. by eapply dll_unlink.
    + rewrite wrap_id by (unfold in_u; lia). rewrite length_app. lia.
    + rewrite length_app. lia.
  - rewrite Em. by rewrite lookup_delete_eq.
  - split; [|done].
    intros b Hb'. rewrite fmap_app, not_elem_of_app, fmap_cons, not_elem_of_cons in Hb'. cbn [fst] in Hb'. rewrite Em.
    rewrite lookup_delete_ne by (intros ->; tauto). unfold m.
    rewrite m_prev_ne by (apply avoids_first_ne; tauto). apply m_next_ne, avoids_final_ne. tauto.
Qed.

(** *** Access *)

Lemma index_fwd s (ls : nodes) : forall p i, dll (mem s) p ls None -> listIndex_loop i s true (first ls None) = Some (ls.*1 !! i).
Proof.
  induction ls as [|[a v] ls IH]; intros p i HD; [by destruct i|]. destruct HD as [Ha HD].
  destruct i as [|i]; [done|]. cbn [first listIndex_loop]. rewrite Ha. cbn [mbind option_bind nnext]. by eapply IH.
Qed.

Lemma index_bwd s (ls : nodes) : forall n i, dll (mem s) None ls n -> listIndex_loop i s false (final ls None) = Some (reverse ls.*1 !! i).
Proof.
  induction ls as [|[a v] ls IH] using rev_ind; intros n i HD; [by destruct i|].
  apply dll_app in HD as [HD [Ha _]]. rewrite final_app, fmap_app, reverse_app. cbn [final].
  destruct i as [|i]; [done|]. cbn [listIndex_loop]. rewrite Ha. cbn [mbind option_bind nprev]. by eapply IH.
Qed.

Lemma listIndex_spec s l (ls : nodes) i : is_list s l ls ->
  listIndex s l i = Some (if i <? 0 then reverse ls.*1 !! Z.to_nat (- i - 1) else ls.*1 !! Z.to_nat i).
Proof.
  intros [_ HD Hh Ht _ _]. unfold listIndex. rewrite Hh, Ht. case_zb; [by eapply index_bwd|by eapply index_fwd].
Qed.

(** The comparison [listSearchKey] makes. *)
Definition matches (l : alist) (key v : V) : bool :=
  match match_method l with Some f => f v key | None => bool_decide (key = v) end.

Lemma listSearchKey_loop_spec s l key : forall (ls : nodes) p fuel, dll (mem s) p ls None -> (length ls < fuel)%nat ->
  listSearchKey_loop fuel s l (mk_iter (first ls None) AL_START_HEAD) key =
  Some (fst <$> List.find (fun av => matches l key av.2) ls).
Proof.
  induction ls as [|[a v] ls IH]; intros p fuel HD Hf; (destruct fuel as [|fuel]; [simpl in Hf; lia|]); [done|].
  destruct HD as [Ha HD]. cbn [listSearchKey_loop listNext iter_next first iter_direction]. rewrite Ha. cbn [mbind option_bind nvalue nnext].
  rewrite Ha. cbn [mbind option_bind nvalue]. fold (matches l key v). cbn [List.find snd].
  destruct (matches l key v); [done|]. eapply IH; [exact HD|simpl in Hf; lia].
Qed.

Lemma listSearchKey_spec s l (ls : nodes) key : is_list s l ls ->
  listSearchKey s l key = Some (fst <$> List.find (fun av => matches l key av.2) ls).
Proof.
  intros [_ HD Hh _ Hl _]. unfold listSearchKey, listRewind. rewrite Hh, Hl. eapply listSearchKey_loop_spec; [exact HD|lia].
Qed.

(** *** Rotation *)

Lemma rotateTailToHead_spec s l (l1 : nodes) a v : is_list s l (l1 ++ [(a, v)]) ->
  exists s' l', listRotateTailToHead s l = Some (s', l') /\ is_list s' l' ((a, v) :: l1) /\
    changes (l1 ++ [(a, v)]).*1 [] s s' /\ same_methods l l'.
Proof.
  intros HL. unfold listRotateTailToHead. rewrite (il_len _ _ _ HL), length_app. cbn [length].
  destruct (decide (l1 = [])) as [->|Hne].
  { exists s, l. split; [done|]. split; [exact HL|]. split; [|done]. split; [done|by rewrite app_nil_r]. }
  assert (length l1 <> 0%nat) by (by rewrite length_zero_iff_nil). zb.
  destruct (nodup_mid _ _ _ _ (il_nodup _ _ _ HL)) as (N1 & _ & A1 & _).
  pose proof (il_dll _ _ _ HL) as HD. pose proof (dll_node _ _ _ _ _ HD) as Ha. apply dll_app in HD as [HD _].
  rewrite (il_tail _ _ _ HL), (il_head _ _ _ HL), final_app, first_app. cbn [final first] in *.
  replace (first l1 (Some a)) with (first l1 None) by (by destruct l1 as [|[]]).
  unfold load. cbn [mbind option_bind]. rewrite Ha. cbn [mbind option_bind nprev with_ends tail].
  destruct (final_some l1 Hne) as (b & Eb & Hb). destruct (first_some l1 Hne) as (c & Ec & Hc). rewrite Eb, Ec.
  assert (a <> b) by (by intros ->). assert (a <> c) by (by intros ->).
  rewrite set_next_ok by (by eapply dll_lookup). cbn [mbind option_bind].
  rewrite set_prev_ok by (cbn [mem]; apply m_next_some; by eapply dll_lookup). cbn [mbind option_bind mem].
  rewrite set_prev_ok by (cbn [mem]; apply m_prev_some, m_next_some; eauto). cbn [mbind option_bind mem].
  rewrite set_next_ok by (cbn [mem]; apply m_prev_some, m_prev_some, m_next_some; eauto). cbn [mbind option_bind mem freed_vals].
  do 2 eexists. split; [done|].
  split; [|split; [|done]].
  - split; cbn [mem head tail len with_ends].
    + rewrite fmap_cons. apply NoDup_cons. by split.
    + cbn [dll]. rewrite Ec. split.
      * cbn [m_next m_prev]. rewrite lookup_alter_eq, lookup_alter_eq, lookup_alter_ne, lookup_alter_ne by done. by rewrite Ha.
      * apply (dll_m_next (Some a)); [by intros ? [= ->]|]. apply (dll_m_prev (Some a)); [by intros ? [= ->]|].
        rewrite <- Ec. eapply dll_set_first; [done|]. rewrite <- Eb. by eapply dll_set_final.
    + done.
    + cbn [final]. rewrite <- Eb. destruct l1 as [|[]]; done.
    + simpl. lia.
    + pose proof (il_bound _ _ _ HL) as HB. rewrite length_app in HB. simpl in *. lia.
  - split; [|by rewrite app_nil_r]. intros x Hx. rewrite fmap_app, not_elem_of_app in Hx. destruct Hx as [Hx Hxa].
    rewrite fmap_cons, not_elem_of_cons in Hxa. cbn [fst] in Hxa. cbn [mem].
    rewrite m_next_ne, m_prev_ne, m_prev_ne, m_next_ne by (intros [= ->]; tauto). done.
Qed.

Lemma rotateHeadToTail_spec s l a v (l2 : nodes) : is_list s l ((a, v) :: l2) ->
  exists s' l', listRotateHeadToTail s l = Some (s', l') /\ is_list s' l' (l2 ++ [(a, v)]) /\
    changes ((a, v) :: l2).*1 [] s s' /\ same_methods l l'.
Proof.
  intros HL. unfold listRotateHeadToTail. rewrite (il_len _ _ _ HL). cbn [length].
  destruct (decide (l2 = [])) as [->|Hne].
  { exists s, l. split; [done|]. split; [exact HL|]. split; [|done]. split; [done|by rewrite app_nil_r]. }
  assert (length l2 <> 0%nat) by (by rewrite length_zero_iff_nil). zb.
  destruct (nodup_mid [] _ _ _ (il_nodup _ _ _ HL)) as (_ & N2 & _ & A2 & _).
  pose proof (il_dll _ _ _ HL) as HD. cbn [dll] in HD. destruct HD as [Ha HD].
  rewrite (il_tail _ _ _ HL), (il_head _ _ _ HL). cbn [final first].
  replace (final l2 (Some a)) with (final l2 None) by (by destruct l2 as [|[]]).
  unfold load. cbn [mbind option_bind]. rewrite Ha. cbn [mbind option_bind nnext with_ends head].
  destruct (final_some l2 Hne) as (b & Eb & Hb). destruct (first_some l2 Hne) as (c & Ec & Hc). rewrite Eb, Ec.
  assert (a <> b) by (by intros ->). assert (a <> c) by (by intros ->).
  rewrite set_prev_ok by (by eapply dll_lookup). cbn [mbind option_bind].
  rewrite set_next_ok by (cbn [mem]; apply m_prev_some; by eapply dll_lookup). cbn [mbind option_bind mem].
  rewrite set_next_ok by (cbn [mem]; apply m_next_some, m_prev_some; eauto). cbn [mbind option_bind mem].
  rewrite set_prev_ok by (cbn [mem]; apply m_next_some, m_next_some, m_prev_some; eauto). cbn [mbind option_bind mem freed_vals].
  do 2 eexists. split; [done|]. split; [|split; [|done]].
  - split; cbn [mem head tail len with_ends].
    + apply nodup_insert; by rewrite app_nil_r.
    + apply dll_app. cbn [dll first]. split; [|split; [|done]].
      * apply (dll_m_prev (Some a)); [by intros ? [= ->]|]. apply (dll_m_next (Some a)); [by intros ? [= ->]|].
        rewrite <- Eb. eapply dll_set_final; [done|]. rewrite <- Ec. by eapply dll_set_first.
      * cbn [m_next m_prev]. rewrite lookup_alter_eq, lookup_alter_eq, lookup_alter_ne, lookup_alter_ne by done. rewrite Ha, Eb. done.
    + rewrite first_app, <- Ec. destruct l2 as [|[]]; done.
    + by rewrite final_app.
    + rewrite length_app. simpl. lia.
    + pose proof (il_bound _ _ _ HL) as HB. rewrite length_app. simpl in *. lia.
  - split; [|by rewrite app_nil_r]. intros x Hx. rewrite fmap_cons, not_elem_of_cons in Hx. cbn [fst] in Hx. cbn [mem].
    rewrite m_prev_ne, m_next_ne, m_next_ne, m_prev_ne by (intros [= ->]; tauto). done.
Qed.

(** *** Emptying *)

Lemma empty_loop_spec l : forall (ls : nodes) s p, NoDup ls.*1 -> dll (mem s) p ls None ->
  exists s', listEmpty_loop (length ls) l s (first ls None) = Some s' /\
    (forall a, a ∈ ls.*1 -> mem s' !! a = None) /\ changes ls.*1 (if free_method l then ls.*2 else []) s s'.
Proof.
  induction ls as [|[a v] ls IH]; intros s p HN HD; cbn [length listEmpty_loop].
  { exists s. split; [done|]. split; [by intros a ?%elem_of_nil|]. split; [done|]. destruct (free_method l); by rewrite app_nil_r. }
  destruct HD as [Ha HD]. apply NoDup_cons in HN as [Hni HN]. cbn [first]. unfold load. cbn [mbind option_bind].
  rewrite Ha. cbn [mbind option_bind nvalue nnext].
  set (s1 := zfree (call_free l s v) a).
  assert (mem s1 = delete a (mem s)) as Em by (unfold s1, call_free; by destruct (free_method l)).
  assert (freed_vals s1 = freed_vals s ++ (if free_method l then [v] else [])) as Ef
    by (unfold s1, call_free; destruct (free_method l); cbn; by rewrite ?app_nil_r).
  destruct (IH s1 (Some a) HN) as (s' & E & Hall & Hch & Hfv).
  { rewrite Em. by apply dll_delete_ne. }
  exists s'. split; [exact E|]. split; [|split].
  - intros b [Eb|Hb]%elem_of_cons; [|by apply Hall]. cbn [fst] in Eb. subst b. rewrite (Hch a Hni), Em. apply lookup_delete_eq.
  - intros b [Hba Hb]%not_elem_of_cons. rewrite (Hch b Hb), Em. apply lookup_delete_ne. by intros ->.
  - rewrite Hfv, Ef. destruct (free_method l); rewrite ?app_nil_r, <- ?app_assoc; done.
Qed.

Lemma listEmpty_spec s l (ls : nodes) : is_list s l ls ->
  exists s' l', listEmpty s l = Some (s', l') /\ is_list s' l' [] /\ same_methods l l' /\
    (forall a, a ∈ ls.*1 -> mem s' !! a = None) /\ changes ls.*1 (if free_method l then ls.*2 else []) s s'.
Proof.
  intros [HN HD Hh Ht Hl _]. unfold listEmpty. rewrite Hl, Hh, Nat2Z.id.
  destruct (empty_loop_spec l ls s None HN HD) as (s' & -> & Hall & Hch). cbn [mbind option_bind].
  do 2 eexists. split; [done|]. split; [by split; try constructor|]. done.
Qed.

(** [listJoin] appends the second list to the first and leaves it empty, for any two
    lists that share no node; nothing is freed and no other memory is touched. *)
Theorem listJoin_correct s l o (ls1 ls2 : nodes) : is_list s l ls1 -> is_list s o ls2 ->
  (forall a, a ∈ ls1.*1 -> a ∉ ls2.*1) -> Z.of_nat (length ls1 + length ls2) < 2 ^ 64 ->
  exists s' l' o', listJoin s l o = Some (s', l', o') /\ is_list s' l' (ls1 ++ ls2) /\ is_list s' o' [] /\
    changes (ls1 ++ ls2).*1 [] s s'.
Proof.
  intros [N1 D1 Hh1 Ht1 Hl1 _] HL2 Hdis Hb. pose proof HL2 as [N2 D2 Hh2 Ht2 Hl2 _]. unfold listJoin. rewrite Hl2.
  destruct (decide (ls2 = [])) as [->|Hne].
  { exists s, l, o. split; [done|]. rewrite app_nil_r. split; [split; auto; lia|]. split; [done|]. split; [done|by rewrite app_nil_r]. }
  assert (length ls2 <> 0%nat) by (by rewrite length_zero_iff_nil). zb.
  destruct (first_some ls2 Hne) as (c & Ec & Hc). rewrite Hh2, Ht1, Ec, Ht2.
  rewrite set_prev_ok by (by eapply dll_lookup). cbn [mbind option_bind].
  set (s1 := mk_store (m_prev (Some c) (final ls1 None) (mem s)) (freed_vals s)).
  set (s2 := mk_store (m_next (final ls1 None) (Some c) (mem s1)) (freed_vals s)).
  assert (match final ls1 None with
    | Some _ => s ← set_next s1 (final ls1 None) (Some c); Some (s, head l)
    | None => Some (s1, Some c) end = Some (s2, first (ls1 ++ ls2) None)) as ->.
  { rewrite first_app, Ec, Hh1. destruct ls1 as [|[b w] ls1]; [done|].
    destruct (final_some ((b, w) :: ls1) ltac:(done)) as (e & Ee & He). unfold s2. rewrite Ee, set_next_ok; [done|].
    cbn [s1 mem]. apply m_prev_some. exact (dll_lookup _ _ _ _ _ D1 He). }
  cbn [mbind option_bind]. do 3 eexists. split; [done|]. split; [|split].
  - split; cbn [mem head tail len with_ends s2 s1]; auto.
    + rewrite fmap_app. apply NoDup_app. by split_and!.
    + apply dll_app. rewrite Ec. split.
      * eapply dll_set_final; [done|]. apply (dll_m_prev (Some c)); [|done]. intros a [= ->] Ha. by apply (Hdis a).
      * apply dll_m_next; [by apply avoids_final|]. rewrite <- Ec. by eapply dll_set_first.
    + rewrite final_app. destruct ls2 as [|[]]; done.
    + rewrite wrap_id by (unfold in_u; lia). rewrite length_app. lia.
    + rewrite length_app. lia.
  - by split; try constructor.
  - split; [|by rewrite app_nil_r]. intros a Ha. rewrite fmap_app, not_elem_of_app in Ha. cbn [s2 s1 mem].
    rewrite m_next_ne by (apply avoids_final_ne; tauto). apply m_prev_ne. intros [= ->]. tauto.
Qed.

(** *** Duplication *)

Definition dup_value (l : alist) (v : V) : option V := match dup_method l with Some f => f v | None => Some v end.

Lemma is_list_frame s s' l (ls : nodes) : is_list s l ls -> (forall a, a ∈ ls.*1 -> mem s' !! a = mem s !! a) -> is_list s' l ls.
Proof. intros [] Hf. split; auto. by eapply dll_frame. Qed.

Lemma dup_loop_spec : forall (rest : nodes) addrs s copy (cs : nodes) p fuel,
  dll (mem s) p rest None -> is_list s copy cs -> (forall a, a ∈ rest.*1 -> a ∉ cs.*1) ->
  NoDup addrs -> (forall a, a ∈ addrs -> mem s !! a = None) -> (length rest <= length addrs)%nat ->
  Z.of_nat (length cs + length rest) < 2 ^ 64 -> (length rest < fuel)%nat ->
  exists s' r, listDup_loop fuel s copy (mk_iter (first rest None) AL_START_HEAD) (Some <$> addrs) = Some (s', r) /\
    (forall b, b ∉ cs.*1 -> b ∉ addrs -> mem s' !! b = mem s !! b) /\
    match mapM (dup_value copy) rest.*2 with
    | Some ws => exists copy', r = Some copy' /\ is_list s' copy' (cs ++ zip addrs ws) /\ freed_vals s' = freed_vals s
    | None => r = None /\ forall b, b ∈ cs.*1 \/ b ∈ addrs -> mem s' !! b = None
    end.
Proof.
  induction rest as [|[a v] rest IH]; intros addrs s copy cs p fuel HD HL Hdis HNA Hfr Hlen Hb Hf;
    (destruct fuel as [|fuel]; [simpl in Hf; lia|]); cbn [listDup_loop listNext iter_next first iter_direction].
  { cbn [mbind option_bind]. exists s, (Some copy). split; [done|]. split; [done|]. cbn. exists copy.
    replace (zip addrs []) with (@nil (loc * V)) by (by destruct addrs). by rewrite app_nil_r. }
  destruct HD as [Ha HD]. rewrite Ha. cbn [mbind option_bind nnext nvalue]. rewrite Ha. cbn [mbind option_bind nvalue].
  fold (dup_value copy v). change (mapM (dup_value copy) ((a, v) :: rest).*2) with
    (w ← dup_value copy v; ws ← mapM (dup_value copy) rest.*2; Some (w :: ws)).
  destruct (dup_value copy v) as [w|] eqn:Ew; cbn [mbind option_bind].
  - destruct addrs as [|c addrs]; [simpl in Hlen; lia|].
    change (default None ((Some <$> c :: addrs) !! 0%nat)) with (Some c). change (tl (Some <$> c :: addrs)) with (Some <$> addrs).
    apply NoDup_cons in HNA as [Hc HNA]. assert (mem s !! c = None) as Hcf by (apply Hfr; left).
    destruct (addTail_spec s copy cs c w HL Hcf) as (s1 & copy1 & -> & HL1 & [Hm1 Hf1] & HM); [simpl in Hb; lia|].
    cbn [mbind option_bind]. rewrite app_nil_r in Hf1.
    assert (forall b, b ∈ ((a, v) :: rest).*1 -> b <> c) as Hnc.
    { intros b Hb' ->. destruct (dll_lookup (mem s) p ((a, v) :: rest) None c) as [? E]; [by split|done|congruence]. }
    destruct (IH addrs s1 copy1 (cs ++ [(c, w)]) (Some a) fuel) as (s' & r & -> & Hfr' & Hr); auto.
    + eapply dll_frame; [|exact HD]. intros b Hb'. apply Hm1. apply not_elem_of_cons. split.
      * apply Hnc. by right.
      * apply Hdis. by right.
    + intros b Hb'. rewrite fmap_app, not_elem_of_app. split; [apply Hdis; by right|].
      cbn. rewrite list_elem_of_singleton. apply Hnc. by right.
    + intros b Hb'. rewrite Hm1; [apply Hfr; by right|]. apply not_elem_of_cons. split; [by intros ->|].
      intros Hin. destruct (dll_lookup _ _ _ _ b (il_dll _ _ _ HL) Hin) as [? E]. rewrite Hfr in E by (by right). done.
    + simpl in Hlen. lia.
    + rewrite length_app. simpl in *. lia.
    + simpl in Hf. lia.
    + exists s', r. split; [done|].
      assert (dup_value copy1 = dup_value copy) as Edv by (unfold dup_value; by rewrite (proj1 HM)). rewrite Edv in Hr.
      split.
      { intros b Hb1 [Hb2 Hb3]%not_elem_of_cons. rewrite Hfr'; [|rewrite fmap_app, not_elem_of_app; split; [done|by intros ?%list_elem_of_singleton]|done].
        apply Hm1. by apply not_elem_of_cons. }
      destruct (mapM (dup_value copy) rest.*2) as [ws|]; cbn [mbind option_bind].
      * destruct Hr as (copy' & -> & HL' & Hfv). exists copy'. split; [done|]. split; [|congruence].
        cbn [zip zip_with]. by rewrite <- app_assoc in HL'.
      * destruct Hr as [-> Hr]. split; [done|]. intros b Hb'. apply Hr. rewrite fmap_app, elem_of_app. cbn. rewrite list_elem_of_singleton.
        rewrite elem_of_cons in Hb'. tauto.
  - destruct (listEmpty_spec s copy cs HL) as (s' & copy' & -> & _ & _ & Hall & Hch & _). cbn [mbind option_bind].
    exists s', None. split; [done|]. split; [by intros b Hb' _; apply Hch|]. split; [done|].
    intros b Hb'. destruct (decide (b ∈ cs.*1)) as [|Hn]; [by apply Hall|]. rewrite (Hch b Hn). apply Hfr. tauto.
Qed.

(** [listDup]: with the [dup] method succeeding on every value the result is
    a list of freshly allocated nodes holding the duplicated values in order; if it fails on one of them NULL is
    returned and everything allocated is freed again.  The original list is never modified. *)
Theorem listDup_correct s orig (ls : nodes) addrs : is_list s orig ls -> NoDup addrs ->
  (forall a, a ∈ addrs -> mem s !! a = None) -> (length ls <= length addrs)%nat ->
  exists s' r, listDup s orig (Some <$> addrs) = Some (s', r) /\ is_list s' orig ls /\
    match mapM (dup_value orig) ls.*2 with
    | Some ws => exists copy, r = Some copy /\ is_list s' copy (zip addrs ws) /\ freed_vals s' = freed_vals s
    | None => r = None /\ mem s' = mem s
    end.
Proof.
  intros HL HN Hfr Hlen. unfold listDup, listRewind. rewrite (il_len _ _ _ HL), (il_head _ _ _ HL), Nat2Z.id.
  set (copy := mk_list None None (dup_method orig) (free_method orig) (match_method orig) 0).
  assert (is_list s copy []) as HC by (by split; try constructor).
  destruct (dup_loop_spec ls addrs s copy [] None (S (length ls)) (il_dll _ _ _ HL) HC) as (s' & r & -> & Hfr' & Hr); auto.
  - intros a _. apply not_elem_of_nil.
  - simpl. apply HL.
  - exists s', r. split; [done|]. split.
    + eapply is_list_frame; [exact HL|]. intros a Ha. apply Hfr'; [apply not_elem_of_nil|].
      intros Hin. destruct (dll_lookup _ _ _ _ a (il_dll _ _ _ HL) Ha) as [? E]. rewrite Hfr in E by done. done.
    + change (dup_value copy) with (dup_value orig) in Hr. destruct (mapM (dup_value orig) ls.*2) as [ws|]; [exact Hr|].
      destruct Hr as [-> Hr]. split; [done|]. apply map_eq. intros b.
      destruct (decide (b ∈ addrs)) as [Hb|Hb]; [|by apply Hfr'; [apply not_elem_of_nil|]].
      rewrite Hr by (by right). symmetry. by apply Hfr.
Qed.

(** ** Sequences of operations *)

(** The allocator: it returns an address that is not in use. *)
Context (zmalloc : gmap loc listNode -> loc) (zmalloc_fresh : forall m, m !! zmalloc m = None).

Inductive op :=
| OAddHead (v : V) | OAddTail (v : V)
| OInsert (index : Z) (v : V) (after : bool)
| ODel (index : Z)
| OIndex (index : Z) | OSearch (key : V)
| ORotateTailToHead | ORotateHeadToTail | OEmpty.

(** The value behind a node pointer. *)
Definition value_of (s : store) (n : option loc) : option (option V) :=
  match n with None => Some None | Some a => nd ← mem s !! a; Some (Some (nvalue nd)) end.

Definition run_op (s : store) (l : alist) (o : op) : option (store * alist * option V) :=
  let a := Some (zmalloc (mem s)) in
  match o with
  | OAddHead v => '(s, l, _) ← listAddNodeHead s l a v; Some (s, l, None)
  | OAddTail v => '(s, l, _) ← listAddNodeTail s l a v; Some (s, l, None)
  | OInsert i v after =>
    n ← listIndex s l i;
    match n with
    | None => Some (s, l, None)
    | Some old => '(s, l, _) ← listInsertNode s l (Some old) a v after; Some (s, l, None)
    end
  | ODel i =>
    n ← listIndex s l i;
    match n with
    | None => Some (s, l, None)
    | Some nd => '(s, l) ← listDelNode s l (Some nd); Some (s, l, None)
    end
  | OIndex i => n ← listIndex s l i; r ← value_of s n; Some (s, l, r)
  | OSearch k => n ← listSearchKey s l k; r ← value_of s n; Some (s, l, r)
  | ORotateTailToHead => '(s, l) ← listRotateTailToHead s l; Some (s, l, None)
  | ORotateHeadToTail => '(s, l) ← listRotateHeadToTail s l; Some (s, l, None)
  | OEmpty => '(s, l) ← listEmpty s l; Some (s, l, None)
  end.

(** The position a list index denotes, negative ones counting from the end. *)
Definition position (n : nat) (i : Z) : option nat :=
  if i <? 0 then if - i <=? Z.of_nat n then Some (Z.to_nat (Z.of_nat n + i)) else None
  else if i <? Z.of_nat n then Some (Z.to_nat i) else None.

(** The same operations on a plain sequence and the values handed to [free]. *)
Definition spec_op (free : bool) (m : V -> V -> bool) (st : list V * list V) (o : op) : list V * list V * option V :=
  let '(xs, fs) := st in
  match o with
  | OAddHead v => (v :: xs, fs, None)
  | OAddTail v => (xs ++ [v], fs, None)
  | OInsert i v after =>
    match position (length xs) i with
    | None => (xs, fs, None)
    | Some k => let k := if after : bool then S k else k in (take k xs ++ v :: drop k xs, fs, None)
    end
  | ODel i =>
    match position (length xs) i with
    | None => (xs, fs, None)
    | Some k => (delete k xs, fs ++ (if free then option_list (xs !! k) else []), None)
    end
  | OIndex i => (xs, fs, k ← position (length xs) i; xs !! k)
  | OSearch key => (xs, fs, List.find (m key) xs)
  | ORotateTailToHead => (match List.rev xs with [] => [] | x :: r => x :: List.rev r end, fs, None)
  | ORotateHeadToTail => (match xs with [] => [] | x :: r => r ++ [x] end, fs, None)
  | OEmpty => ([], fs ++ (if free then xs else []), None)
  end.

Lemma position_lookup {A} (ls : list A) i :
  (if i <? 0 then reverse ls !! Z.to_nat (- i - 1) else ls !! Z.to_nat i) = (k ← position (length ls) i; ls !! k).
Proof.
  unfold position. case_zb.
  - case_zb; cbn [mbind option_bind].
    + rewrite reverse_lookup by lia. f_equal. lia.
    + apply lookup_ge_None. rewrite length_reverse. lia.
  - case_zb; cbn [mbind option_bind]; [done|]. apply lookup_ge_None. lia.
Qed.

Lemma position_lt n i k : position n i = Some k -> (k < n)%nat.
Proof. unfold position. repeat case_zb; intros; simplify_eq; lia. Qed.

(** The node at a valid position, and the list around it. *)
Lemma index_split s l (ls : nodes) i : is_list s l ls ->
  match position (length ls) i with
  | None => listIndex s l i = Some None
  | Some k => exists l1 a v l2, ls = l1 ++ (a, v) :: l2 /\ length l1 = k /\ listIndex s l i = Some (Some a)
  end.
Proof.
  intros HL. rewrite (listIndex_spec s l ls i HL), position_lookup, length_fmap.
  destruct (position (length ls) i) as [k|] eqn:E; [|done]. apply position_lt in E. cbn [mbind option_bind].
  destruct (lookup_lt_is_Some_2 ls k E) as [[a v] Hk].
  exists (take k ls), a, v, (drop (S k) ls). rewrite list_lookup_fmap, Hk. split; [|split; [|done]].
  - by rewrite take_drop_middle.
  - rewrite length_take. lia.
Qed.

Definition models (s : store) (l : alist) (xs : list V) : Prop := exists ls, is_list s l ls /\ ls.*2 = xs.

Lemma value_of_node s l l1 a v l2 : is_list s l (l1 ++ (a, v) :: l2) -> value_of s (Some a) = Some (Some v).
Proof. intros HL. cbn. by rewrite (dll_node _ _ _ _ _ (il_dll _ _ _ HL)). Qed.

Lemma find_split (f : V -> bool) (ls : nodes) :
  match List.find (fun av => f av.2) ls with
  | None => List.find f ls.*2 = None
  | Some (a, v) => exists l1 l2, ls = l1 ++ (a, v) :: l2 /\ List.find f ls.*2 = Some v
  end.
Proof.
  induction ls as [|[a v] ls IH]; [done|]. cbn [List.find fmap list_fmap snd]. destruct (f v) eqn:E.
  - by exists [], ls.
  - destruct (List.find _ ls) as [[b w]|]; [|exact IH].
    destruct IH as (l1 & l2 & -> & ?). by exists ((a, v) :: l1), l2.
Qed.

(** [same_methods] and the number of freed values, packaged for the simulation. *)
Definition simulates (l : alist) (fs : list V) (xs : list V) (r : option V)
    (res : option (store * alist * option V)) : Prop :=
  exists s' l', res = Some (s', l', r) /\ models s' l' xs /\ freed_vals s' = fs /\ same_methods l l'.

(** The list after splitting it around a node, at the level of values. *)
Lemma simulates_intro l s' l' (ls' : nodes) fs xs r res : res = Some (s', l', r) -> is_list s' l' ls' -> ls'.*2 = xs ->
  freed_vals s' = fs -> same_methods l l' -> simulates l fs xs r res.
Proof. intros -> HL <- Hf HM. exists s', l'. split; [done|]. split; [by exists ls'|done]. Qed.

Lemma insert_correct s l ls i v after : is_list s l ls -> Z.of_nat (length ls) < 2 ^ 64 - 1 ->
  let '(xs', fs', r) := spec_op (free_method l) (matches l) (ls.*2, freed_vals s) (OInsert i v after) in
  simulates l fs' xs' r (run_op s l (OInsert i v after)).
Proof.
  intros HL Hb. pose proof (zmalloc_fresh (mem s)) as Hfr. cbn [spec_op run_op]. rewrite length_fmap.
  pose proof (index_split s l ls i HL) as HI. destruct (position (length ls) i) as [k|].
  - destruct HI as (l1 & a & w & l2 & -> & Hk & ->). cbn [mbind option_bind].
    destruct (insertNode_spec s l l1 a w l2 _ v after HL Hfr Hb) as (s' & l' & -> & HL' & [_ Hf] & HM). rewrite app_nil_r in Hf.
    cbn [mbind option_bind]. eapply simulates_intro; [done|exact HL'| |done|done].
    assert (length l1.*2 = k) as Hk2 by (by rewrite length_fmap).
    destruct after; rewrite !fmap_app, !fmap_cons; cbn [snd].
    + replace (l1.*2 ++ w :: l2.*2) with ((l1.*2 ++ [w]) ++ l2.*2) by (by rewrite <- app_assoc).
      rewrite take_app_length', drop_app_length' by (rewrite length_app; simpl; lia). by rewrite <- app_assoc.
    + by rewrite take_app_length', drop_app_length'.
  - rewrite HI. cbn [mbind option_bind]. by eapply simulates_intro.
Qed.

Lemma del_correct s l ls i : is_list s l ls ->
  let '(xs', fs', r) := spec_op (free_method l) (matches l) (ls.*2, freed_vals s) (ODel i) in
  simulates l fs' xs' r (run_op s l (ODel i)).
Proof.
  intros HL. cbn [spec_op run_op]. rewrite length_fmap.
  pose proof (index_split s l ls i HL) as HI. destruct (position (length ls) i) as [k|].
  - destruct HI as (l1 & a & w & l2 & -> & Hk & ->). cbn [mbind option_bind].
    destruct (delNode_spec s l l1 a w l2 HL) as (s' & l' & -> & HL' & _ & [_ Hf] & HM).
    assert (length l1.*2 = k) as <- by (by rewrite length_fmap).
    cbn [mbind option_bind]. rewrite !fmap_app, !fmap_cons. cbn [snd]. eapply simulates_intro; [done|exact HL'| | |done].
    + by rewrite fmap_app, delete_middle.
    + by rewrite Hf, list_lookup_middle.
  - rewrite HI. cbn [mbind option_bind]. by eapply simulates_intro.
Qed.

Lemma access_correct s l ls o : is_list s l ls -> (exists i, o = OIndex i) \/ (exists k, o = OSearch k) ->
  let '(xs', fs', r) := spec_op (free_method l) (matches l) (ls.*2, freed_vals s) o in
  simulates l fs' xs' r (run_op s l o).
Proof.
  intros HL [[i ->]|[k ->]]; cbn [spec_op run_op].
  - rewrite length_fmap. pose proof (index_split s l ls i HL) as HI. destruct (position (length ls) i) as [k|].
    + destruct HI as (l1 & a & w & l2 & -> & Hk & ->). cbn [mbind option_bind]. rewrite (value_of_node _ _ _ _ _ _ HL).
      cbn [mbind option_bind]. eapply simulates_intro; [|exact HL|done|done|done].
      by rewrite fmap_app, fmap_cons, list_lookup_middle by (by rewrite length_fmap).
    + rewrite HI. cbn. by eapply simulates_intro.
  - rewrite (listSearchKey_spec s l ls k HL). cbn [mbind option_bind]. pose proof (find_split (matches l k) ls) as HF.
    destruct (List.find _ ls) as [[a w]|].
    + destruct HF as (l1 & l2 & -> & ->). cbn [fmap option_fmap option_map fst]. rewrite (value_of_node _ _ _ _ _ _ HL).
      cbn [mbind option_bind]. by eapply simulates_intro.
    + rewrite HF. cbn. by eapply simulates_intro.
Qed.

Lemma rotate_correct s l ls o : is_list s l ls -> o = ORotateTailToHead \/ o = ORotateHeadToTail ->
  let '(xs', fs', r) := spec_op (free_method l) (matches l) (ls.*2, freed_vals s) o in
  simulates l fs' xs' r (run_op s l o).
Proof.
  intros HL [->| ->]; cbn [spec_op run_op].
  - destruct ls as [|[a v] l1 _] using rev_ind.
    + unfold listRotateTailToHead. rewrite (il_len _ _ _ HL). cbn. by eapply simulates_intro.
    + destruct (rotateTailToHead_spec s l l1 a v HL) as (s' & l' & -> & HL' & [_ Hf] & HM). rewrite app_nil_r in Hf.
      cbn [mbind option_bind]. eapply simulates_intro; [done|exact HL'| |done|done].
      rewrite fmap_app. cbn [fmap list_fmap snd]. rewrite rev_app_distr. cbn [List.rev app]. by rewrite rev_involutive.
  - destruct ls as [|[a v] l2].
    + unfold listRotateHeadToTail. rewrite (il_len _ _ _ HL). cbn. by eapply simulates_intro.
    + destruct (rotateHeadToTail_spec s l a v l2 HL) as (s' & l' & -> & HL' & [_ Hf] & HM). rewrite app_nil_r in Hf.
      cbn [mbind option_bind]. eapply simulates_intro; [done|exact HL'| |done|done]. by rewrite fmap_app.
Qed.

Lemma alist_op_correct s l xs o : models s l xs -> Z.of_nat (length xs) < 2 ^ 64 - 1 ->
  let '(xs', fs', r) := spec_op (free_method l) (matches l) (xs, freed_vals s) o in
  simulates l fs' xs' r (run_op s l o).
Proof.
  intros (ls & HL & <-) Hb. rewrite length_fmap in Hb. pose proof (zmalloc_fresh (mem s)) as Hfr.
  destruct o as [v|v|i v after|i|i|k| | |].
  - cbn [spec_op run_op]. destruct (addHead_spec s l ls _ v HL Hfr Hb) as (s' & l' & -> & HL' & [_ Hf] & HM).
    rewrite app_nil_r in Hf. cbn [mbind option_bind]. by eapply simulates_intro.
  - cbn [spec_op run_op]. destruct (addTail_spec s l ls _ v HL Hfr Hb) as (s' & l' & -> & HL' & [_ Hf] & HM).
    rewrite app_nil_r in Hf. cbn [mbind option_bind]. eapply simulates_intro; [done|exact HL'| |done|done]. by rewrite fmap_app.
  - by apply insert_correct.
  - by apply del_correct.
  - apply access_correct; eauto.
  - apply access_correct; eauto.
  - apply rotate_correct; eauto.
  - apply rotate_correct; eauto.
  - cbn [spec_op run_op]. destruct (listEmpty_spec s l ls HL) as (s' & l' & -> & HL' & HM & _ & [_ Hf]).
    cbn [mbind option_bind]. by eapply simulates_intro.
Qed.

Fixpoint run (s : store) (l : alist) (os : list op) : option (store * alist * list (option V)) :=
  match os with
  | [] => Some (s, l, [])
  | o :: os => '(s, l, r) ← run_op s l o; '(s, l, rs) ← run s l os; Some (s, l, r :: rs)
  end.

Fixpoint spec_run (free : bool) (m : V -> V -> bool) (st : list V * list V) (os : list op)
    : list V * list V * list (option V) :=
  match os with
  | [] => (st, [])
  | o :: os => let '(st, r) := spec_op free m st o in let '(st, rs) := spec_run free m st os in (st, r :: rs)
  end.

Lemma spec_op_length free m st o : (length (spec_op free m st o).1.1 <= S (length st.1))%nat.
Proof.
  destruct st as [xs fs], o as [v|v|i v after|i|i|k| | |]; cbn [spec_op fst snd length]; rewrite ?length_app; simpl; try lia.
  - destruct (position _ _); cbn [fst]; [|lia]. rewrite length_app, length_take. cbn [length]. rewrite length_drop. lia.
  - destruct (position _ _) as [k|]; cbn [fst]; [|lia]. destruct (decide (k < length xs)%nat) as [Hk|].
    + rewrite length_delete by (by apply lookup_lt_is_Some). lia.
    + rewrite delete_take_drop, take_ge, drop_ge, app_nil_r by lia. lia.
  - destruct (List.rev xs) as [|x r] eqn:E; [simpl; lia|]. apply (f_equal length) in E. rewrite length_rev in E. simpl in *. rewrite length_rev. lia.
  - destruct xs; simpl; rewrite ?length_app; simpl; lia.
Qed.

(** C20. adlist.c implements sequences: every sequence of additions at either
    end, insertions before or after a node, deletions, accesses by (also negative) index, searches, rotations and
    clearings, as long as the length fits 64 bits, runs without touching memory that is not the list's, returns
    what the same operations on a plain sequence return, ends with its contents,
    and calls [free] on exactly the values that are dropped. *)
Theorem adlist_refines_sequence os : forall s l xs, models s l xs -> Z.of_nat (length xs + length os) < 2 ^ 64 - 1 ->
  exists s' l', run s l os = Some (s', l', (spec_run (free_method l) (matches l) (xs, freed_vals s) os).2) /\
    models s' l' (spec_run (free_method l) (matches l) (xs, freed_vals s) os).1.1 /\
    freed_vals s' = (spec_run (free_method l) (matches l) (xs, freed_vals s) os).1.2.
Proof.
  induction os as [|o os IH]; intros s l xs HM Hb; cbn [run spec_run length] in *; [by exists s, l|].
  pose proof (alist_op_correct s l xs o HM ltac:(lia)) as HO.
  pose proof (spec_op_length (free_method l) (matches l) (xs, freed_vals s) o) as Hlen. cbn [fst] in Hlen.
  destruct (spec_op (free_method l) (matches l) (xs, freed_vals s) o) as [[xs1 fs1] r1].
  destruct HO as (s1 & l1 & -> & HM1 & <- & (_ & Hfm & Hmm)). cbn [mbind option_bind fst] in *.
  destruct (IH s1 l1 xs1 HM1) as (s' & l' & -> & HM' & Hf'); [lia|].
  assert (matches l1 = matches l) as Em by (unfold matches; by rewrite Hmm). rewrite Hfm, Em in *.
  cbn [mbind option_bind]. exists s', l'. destruct (spec_run _ _ (xs1, freed_vals s1) os) as [[xs2 fs2] rs]. done.
Qed.
End Refinement.

(** ** Witnesses *)
Definition ex_malloc (m : gmap loc (listNode Z)) : loc := fresh (dom m : gset loc).

Lemma ex_malloc_fresh m : m !! ex_malloc m = None.
Proof. apply not_elem_of_dom. exact (is_fresh (dom m : gset loc)). Qed.

(** An empty list with a [free] method, and the list 10, 20. *)
Definition ex_l0 : alist Z := mk_list None None None true None 0.
Definition ex_s0 : store Z := mk_store ∅ [].
Definition ex_s1 : store Z := mk_store {[1%positive := mk_node None (Some 2%positive) 10; 2%positive := mk_node (Some 1%positive) None 20]} [].
Definition ex_l1 : alist Z := mk_list (Some 1%positive) (Some 2%positive) (Some (fun v => if v <? 0 then None else Some (v + 1))) true None 2.

Lemma ex_l0_models : models ex_s0 ex_l0 [].
Proof. exists []. split; [by split; try constructor|done]. Qed.

Lemma ex_l1_is : is_list ex_s1 ex_l1 [(1%positive, 10); (2%positive, 20)].
Proof. split; try done. apply (bool_decide_unpack _). by vm_compute. Qed.

Lemma adlist_refines_sequence_witness :
  exists s' l', run ex_malloc ex_s0 ex_l0
      [OAddTail 1; OAddHead 2; OInsert (-1) 3 true; ODel 0; ORotateTailToHead; OIndex 1; OSearch 3]
    = Some (s', l', [None; None; None; None; None; Some 1; Some 3]) /\ models s' l' [3; 1] /\ freed_vals s' = [2].
Proof.
  destruct (adlist_refines_sequence ex_malloc ex_malloc_fresh
    [OAddTail 1; OAddHead 2; OInsert (-1) 3 true; ODel 0; ORotateTailToHead; OIndex 1; OSearch 3] ex_s0 ex_l0 [] ex_l0_models)
    as (s' & l' & E & HM & Hf); [done|].
  exists s', l'. split; [exact E|]. split; [exact HM|exact Hf].
Defined.

(** The same store with a second list, 30. *)
Definition ex_s2 : store Z := mk_store (<[3%positive := mk_node None None 30]> (mem ex_s1)) [].
Definition ex_l2 : alist Z := mk_list (Some 3%positive) (Some 3%positive) None false None 1.

