(* ===== verification/Glob.v ===== *)
(** * Glob: the pattern matcher of util.c

    Model of [stringmatchlen_impl], [stringmatchlen] and [stringmatch].  A pattern and a string are the
    lists of their characters ([char] being signed); the byte behind the pattern is its NUL
    terminator, as for every sds string, so reading it stops every scan.  The
    matcher's backtracking with early termination is proved equivalent to a
    grammar of patterns and the meaning of its elements. *)

From Stdlib Require Import ZArith Lia ZifyBool.
From stdpp Require Import base gmap numbers option list.
From S2P Require Import Prelude.

Local Open Scope Z_scope.

(** Character constants. *)
Definition ch_star : Z := 42.
Definition ch_question : Z := 63.
Definition ch_open : Z := 91.
Definition ch_backslash : Z := 92.
Definition ch_close : Z := 93.
Definition ch_caret : Z := 94.
Definition ch_dash : Z := 45.

(** [tolower] in the C locale. *)
Definition tolower (c : Z) : Z := if (65 <=? c) && (c <=? 90) then c + 32 else c.

Definition char_eq (nocase : bool) (a b : Z) : bool :=
  if negb nocase then a =? b else tolower a =? tolower b.

Definition range_match (nocase : bool) (start stop c : Z) : bool :=
  let '(start, stop) := if start >? stop then (stop, start) else (start, stop) in
  let '(start, stop, c) := if nocase then (tolower start, tolower stop, tolower c) else (start, stop, c) in
  (c >=? start) && (c <=? stop).

(** The [while(1)] loop over a character class: whether [c] matched, and the
    pattern after the class.  An unterminated class ends with the pattern. *)
Fixpoint class_loop (nocase : bool) (c : Z) (p : list Z) (matched : bool) : bool * list Z :=
  match p with
  | [] => (matched, [])
  | x :: p1 =>
    match p1 with
    | y :: p2 =>
      if x =? ch_backslash then class_loop nocase c p2 (matched || (y =? c))
      else if x =? ch_close then (matched, p1)
      else
        match p2 with
        | z :: p3 =>
          if y =? ch_dash then class_loop nocase c p3 (matched || range_match nocase x z c)
          else class_loop nocase c p1 (matched || char_eq nocase x c)
        | [] => class_loop nocase c p1 (matched || char_eq nocase x c)
        end
    | [] =>
      if x =? ch_close then (matched, p1) else class_loop nocase c p1 (matched || char_eq nocase x c)
    end
  end.

(** The [switch] on a pattern that does not start with a star: whether its
    first element matches the character, and the pattern after it. *)
Definition match_one (nocase : bool) (p : list Z) (c : Z) : bool * list Z :=
  match p with
  | [] => (false, [])
  | x :: p1 =>
    if x =? ch_question then (true, p1)
    else if x =? ch_open then
      let 'not := match p1 with y :: _ => y =? ch_caret | [] => false end in
      let '(m, rest) := class_loop nocase c (if not : bool then tl p1 else p1) false in
      (if not : bool then negb m else m, rest)
    else if (x =? ch_backslash) && negb (bool_decide (p1 = [])) then
      match p1 with y :: p2 => (char_eq nocase y c, p2) | [] => (false, []) end
    else (char_eq nocase x c, p1)
  end.

Fixpoint drop_stars (p : list Z) : list Z :=
  match p with
  | x :: p1 => if x =? ch_star then drop_stars p1 else p
  | [] => []
  end.

(** The loop over the suffixes of the string after a star; the flag is [*skipLongerMatches]. *)
Fixpoint star_loop (f : list Z -> bool -> bool * bool) (s : list Z) (skip : bool) : bool * bool :=
  match s with
  | [] => (false, true)
  | _ :: s' =>
    let '(r, skip) := f s skip in
    if r : bool then (true, skip) else if skip : bool then (false, skip) else star_loop f s' skip
  end.

Fixpoint stringmatchlen_impl (fuel : nat) (nocase : bool) (p s : list Z) (skip : bool) : bool * bool :=
  match fuel with
  | O => (false, skip)
  | S fuel =>
    match p, s with
    | x :: p1, c :: s1 =>
      if x =? ch_star then
        let rest := drop_stars p1 in
        if bool_decide (rest = []) then (true, skip)
        else star_loop (stringmatchlen_impl fuel nocase rest) s skip
      else
        let '(ok, p) := match_one nocase p c in
        if negb ok then (false, skip) else
        if bool_decide (s1 = []) then (bool_decide (drop_stars p = []), skip)
        else stringmatchlen_impl fuel nocase p s1 skip
    | [], [] => (true, skip)
    | _, _ => (false, skip)
    end
  end.

(** Every round and every recursive call shortens the pattern. *)
Definition stringmatchlen (p s : list Z) (nocase : bool) : bool :=
  (stringmatchlen_impl (S (length p)) nocase p s false).1.

(** [strlen] stops at the first NUL. *)
Fixpoint cstring (s : list Z) : list Z :=
  match s with [] => [] | c :: s => if c =? 0 then [] else c :: cstring s end.

Definition stringmatch (p s : list Z) (nocase : bool) : bool := stringmatchlen (cstring p) (cstring s) nocase.

(** ** What patterns mean

    A pattern is read as a sequence of elements.  Each of them but the star
    stands for a set of characters, and the text of a pattern says which; none
    of this refers to the matcher. *)

(** In a character class: a character behind a backslash, which stands for
    itself in either case mode, a character, or a range given by its ends in
    either order. *)
Inductive class_item := IExact (y : Z) | IChar (x : Z) | IRange (a b : Z).

Inductive element := EAny | EChar (x : Z) | EClass (negated : bool) (items : list class_item).

(** Capital letters count as small ones when case is ignored. *)
Definition fold_case (nocase : bool) (c : Z) : Z :=
  if nocase && bool_decide (65 <= c <= 90) then c + 32 else c.

Definition item_matches (nocase : bool) (c : Z) (i : class_item) : Prop :=
  match i with
  | IExact y => y = c
  | IChar x => fold_case nocase x = fold_case nocase c
  | IRange a b => fold_case nocase (Z.min a b) <= fold_case nocase c <= fold_case nocase (Z.max a b)
  end.

Definition element_matches (nocase : bool) (c : Z) (e : element) : Prop :=
  match e with
  | EAny => True
  | EChar x => fold_case nocase x = fold_case nocase c
  | EClass negated items =>
      if negated then Forall (fun i => ~ item_matches nocase c i) items else Exists (item_matches nocase c) items
  end.

(** The text of a class behind its bracket and the caret, its items, and the
    text behind the class.  A class that is not closed ends with the pattern. *)
Inductive class_text : list Z -> list class_item -> list Z -> Prop :=
| ct_open : class_text [] [] []
| ct_close p : class_text (ch_close :: p) [] p
| ct_escape y p items r : class_text p items r -> class_text (ch_backslash :: y :: p) (IExact y :: items) r
| ct_range a b p items r : a <> ch_close -> a <> ch_backslash ->
    class_text p items r -> class_text (a :: ch_dash :: b :: p) (IRange a b :: items) r
| ct_char x p items r : x <> ch_close -> (x = ch_backslash -> p = []) -> (forall b q, p <> ch_dash :: b :: q) ->
    class_text p items r -> class_text (x :: p) (IChar x :: items) r.

(** The text of a pattern that starts with an element, and what is behind it. *)
Inductive element_text : list Z -> element -> list Z -> Prop :=
| et_any p : element_text (ch_question :: p) EAny p
| et_class p items r : head p <> Some ch_caret -> class_text p items r -> element_text (ch_open :: p) (EClass false items) r
| et_negated p items r : class_text p items r -> element_text (ch_open :: ch_caret :: p) (EClass true items) r
| et_escape y p : element_text (ch_backslash :: y :: p) (EChar y) p
| et_char x p : x <> ch_star -> x <> ch_question -> x <> ch_open -> (x = ch_backslash -> p = []) ->
    element_text (x :: p) (EChar x) p.

Inductive gmatch (nocase : bool) : list Z -> list Z -> Prop :=
| gm_nil : gmatch nocase [] []
| gm_star_stop p s : gmatch nocase p s -> gmatch nocase (ch_star :: p) s
| gm_star_more p c s : gmatch nocase (ch_star :: p) s -> gmatch nocase (ch_star :: p) (c :: s)
| gm_one p e p' c s : element_text p e p' -> element_matches nocase c e -> gmatch nocase p' s -> gmatch nocase p (c :: s).

Lemma class_loop_cons nocase c x p1 m : class_loop nocase c (x :: p1) m =
  if (x =? ch_backslash) && negb (bool_decide (p1 = [])) then class_loop nocase c (tl p1) (m || (default 0 (head p1) =? c))
  else if x =? ch_close then (m, p1)
  else if negb (bool_decide (tl p1 = [])) && (default 0 (head p1) =? ch_dash)
       then class_loop nocase c (tl (tl p1)) (m || range_match nocase x (default 0 (head (tl p1))) c)
       else class_loop nocase c p1 (m || char_eq nocase x c).
Proof.
  destruct p1 as [|y [|z p3]]; simpl; [by destruct (x =? ch_backslash)|..]; by destruct (x =? ch_backslash).
Qed.

(** The length of what an element consumes does not depend on the character. *)
Lemma class_loop_rest nocase c c' n : forall p m m', (length p <= n)%nat ->
  (class_loop nocase c p m).2 = (class_loop nocase c' p m').2 /\
  (length (class_loop nocase c p m).2 <= length p)%nat.
Proof.
  induction n as [|n IH]; intros p m m' Hn.
  { destruct p; [done|simpl in Hn; lia]. }
  assert (forall q m1 m2, (length q < length p)%nat ->
    (class_loop nocase c q m1).2 = (class_loop nocase c' q m2).2 /\ (length (class_loop nocase c q m1).2 <= length p)%nat) as IH'.
  { intros q m1 m2 Hq. destruct (IH q m1 m2) as [E1 E2]; [lia|]. split; [exact E1|lia]. }
  destruct p as [|x p1]; [done|]. rewrite !class_loop_cons.
  repeat match goal with |- context [if ?b then _ else _] => destruct b end; cbn [snd];
    first [apply IH'; destruct p1 as [|? []]; simpl; lia | split; [done|simpl; lia]].
Qed.

Lemma match_one_rest nocase p c c' : (match_one nocase p c).2 = (match_one nocase p c').2.
Proof.
  destruct p as [|x p1]; [done|]. cbn [match_one]. destruct (x =? ch_question); [done|]. destruct (x =? ch_open).
  - set (q := if _ : bool then tl p1 else p1). pose proof (proj1 (class_loop_rest nocase c c' (length q) q false false (le_n _))) as E.
    destruct (class_loop nocase c q false), (class_loop nocase c' q false). exact E.
  - destruct (_ && _); [|done]. by destruct p1.
Qed.

Lemma match_one_shorter nocase x p1 c : (length (match_one nocase (x :: p1) c).2 < length (x :: p1))%nat.
Proof.
  cbn [match_one]. destruct (x =? ch_question); [simpl; lia|]. destruct (x =? ch_open).
  - set (q := if _ : bool then tl p1 else p1).
    assert (length q <= length p1)%nat as Hq by (unfold q; destruct (match p1 with [] => _ | _ => _ end); destruct p1; simpl; lia).
    pose proof (proj2 (class_loop_rest nocase c c (length q) q false false (le_n _))) as Hr.
    destruct (class_loop nocase c q false). simpl in *. lia.
  - destruct (_ && _); [destruct p1|]; simpl; lia.
Qed.

(** *** Stars *)

Lemma suffix_cons_case (t : list Z) c s : t `suffix_of` c :: s -> t = c :: s \/ t `suffix_of` s.
Proof. destruct t; [right; apply suffix_nil|apply suffix_cons_inv]. Qed.

Lemma drop_stars_head p x q : drop_stars p = x :: q -> x <> ch_star.
Proof. induction p as [|y p IH]; cbn [drop_stars]; [done|]. case_zb; [done|]. by intros [= <- <-]. Qed.

Lemma drop_stars_length p : (length (drop_stars p) <= length p)%nat.
Proof. induction p as [|y p IH]; cbn [drop_stars]; [done|]. case_zb; simpl; lia. Qed.

Lemma gmatch_empty nocase p : gmatch nocase p [] <-> drop_stars p = [].
Proof.
  split.
  - intros H. remember [] as s eqn:Es. revert Es. induction H; intros Es; try done. cbn [drop_stars]. rewrite Z.eqb_refl. auto.
  - induction p as [|x p IH]; [constructor|]. cbn [drop_stars]. case_zb; [|done]. subst x. intros E. by apply gm_star_stop, IH.
Qed.

Lemma element_text_star p e r : ~ element_text (ch_star :: p) e r.
Proof. inversion 1; done. Qed.

(** A star matches iff the rest matches some suffix. *)
Lemma gmatch_star nocase p s : gmatch nocase (ch_star :: p) s <-> exists t, t `suffix_of` s /\ gmatch nocase p t.
Proof.
  split.
  - intros H. remember (ch_star :: p) as q eqn:Eq. revert Eq. induction H as [|q' s H _|q' c s H IH|q' e p' c s He Hm H _]; intros Eq; simplify_eq.
    + by exists s.
    + destruct IH as (t & Ht & Hg); [done|]. exists t. split; [by apply suffix_cons_r|done].
    + by apply element_text_star in He.
  - intros (t & [k ->] & Hg). induction k as [|c k IH]; [by apply gm_star_stop|by apply gm_star_more].
Qed.

Lemma gmatch_drop_stars nocase p s : gmatch nocase (ch_star :: p) s <-> gmatch nocase (ch_star :: drop_stars p) s.
Proof.
  induction p as [|x p IH]; [done|]. cbn [drop_stars]. case_zb; [|done]. subst x. rewrite <- IH, !gmatch_star. split.
  - intros (t & Ht & Hg). apply gmatch_star in Hg as (u & Hu & Hg). exists u. split; [by etrans|done].
  - intros (t & Ht & Hg). exists t. split; [done|]. by apply gm_star_stop.
Qed.

(** *** Elements *)

#[export] Instance item_matches_dec nocase c i : Decision (item_matches nocase c i).
Proof. destruct i; simpl; apply _. Defined.

#[export] Instance element_matches_dec nocase c e : Decision (element_matches nocase c e).
Proof. destruct e as [| |[] ?]; simpl; apply _. Defined.

Lemma char_eq_spec nocase x c : char_eq nocase x c = bool_decide (fold_case nocase x = fold_case nocase c).
Proof. unfold char_eq, fold_case, tolower. destruct nocase; cbn [negb andb]; repeat (case_bool_decide || case_match); lia. Qed.

Lemma range_match_spec nocase a b c : range_match nocase a b c = bool_decide (item_matches nocase c (IRange a b)).
Proof.
  apply eq_true_iff_eq. rewrite bool_decide_eq_true. unfold range_match. cbn [item_matches]. destruct (a >? b) eqn:E; [rewrite (Z.min_r a b), (Z.max_l a b) by lia|rewrite (Z.min_l a b), (Z.max_r a b) by lia];
    unfold fold_case, tolower; destruct nocase; cbn [andb]; repeat (case_bool_decide || case_match); lia.
Qed.

Lemma class_text_total p : exists items r, class_text p items r.
Proof.
  remember (length p) as n eqn:Hn. revert p Hn. induction (lt_wf n) as [n _ IH]. intros [|x p] ->; [by repeat econstructor|].
  assert (forall q, (length q < length (x :: p))%nat -> exists items r, class_text q items r) as IH' by (intros q Hq; by eapply IH).
  destruct (decide (x = ch_close)) as [->|Hc]; [by repeat econstructor|].
  destruct (decide (x = ch_backslash)) as [->|Hb].
  - destruct p as [|y p].
    + exists [IChar ch_backslash], []. by repeat constructor.
    + destruct (IH' p) as (items & r & H); [simpl; lia|]. exists (IExact y :: items), r. by constructor.
  - destruct (IH' p) as (items & r & H); [simpl; lia|].
    destruct p as [|y [|z p]]; try (exists (IChar x :: items), r; by constructor).
    destruct (decide (y = ch_dash)) as [->|Hd]; [|exists (IChar x :: items), r; constructor; naive_solver].
    destruct (IH' p) as (items' & r' & H'); [simpl; lia|]. exists (IRange x z :: items'), r'. by constructor.
Qed.

Lemma class_loop_text nocase c p items r : class_text p items r -> forall m,
  class_loop nocase c p m = (m || bool_decide (Exists (item_matches nocase c) items), r).
Proof.
  assert (forall i items (m : bool), (m || bool_decide (item_matches nocase c i)) || bool_decide (Exists (item_matches nocase c) items) =
    m || bool_decide (Exists (item_matches nocase c) (i :: items))) as Hcons.
  { intros i l m. rewrite <- orb_assoc. f_equal. rewrite <- bool_decide_or. apply bool_decide_ext. by rewrite Exists_cons. }
  induction 1 as [|p|y p items r H IH|a b p items r Ha Hb H IH|x p items r Hx Hb Hd H IH]; intros m.
  - by rewrite orb_false_r.
  - rewrite class_loop_cons. by rewrite orb_false_r.
  - rewrite class_loop_cons. cbn [head tl default]. rewrite bool_decide_eq_false_2 by done. cbn [negb andb Z.eqb ch_backslash Pos.eqb].
    rewrite IH, <- Hcons. do 3 f_equal. apply eq_true_iff_eq. rewrite bool_decide_eq_true. cbn [item_matches id]. lia.
  - rewrite class_loop_cons. cbn [head tl default]. zb_false (a =? ch_backslash). zb_false (a =? ch_close). rewrite !bool_decide_eq_false_2 by done.
    cbn [negb andb]. change (id ch_dash =? ch_dash) with true. cbn [id]. rewrite range_match_spec, IH. by rewrite Hcons.
  - rewrite class_loop_cons. zb_false (x =? ch_close).
    assert ((x =? ch_backslash) && negb (bool_decide (p = [])) = false) as ->.
    { destruct (Z.eqb_spec x ch_backslash); [|done]. by rewrite bool_decide_eq_true_2 by auto. }
    assert (negb (bool_decide (tl p = [])) && (default 0 (head p) =? ch_dash) = false) as ->.
    { destruct p as [|y [|z q]]; [done..|]. cbn. destruct (Z.eqb_spec y ch_dash) as [->|]; [by destruct (Hd z q)|done]. }
    rewrite char_eq_spec, IH. by rewrite <- (Hcons (IChar x)).
Qed.

Lemma element_text_total x p : x <> ch_star -> exists e r, element_text (x :: p) e r.
Proof.
  intros Hx. destruct (decide (x = ch_question)) as [->|Hq]; [by repeat econstructor|].
  destruct (decide (x = ch_open)) as [->|Ho].
  - destruct (decide (head p = Some ch_caret)) as [Hh|Hh].
    + destruct p as [|y p]; [done|]. injection Hh as ->. destruct (class_text_total p) as (items & r & H). exists (EClass true items), r. by constructor.
    + destruct (class_text_total p) as (items & r & H). exists (EClass false items), r. by constructor.
  - destruct (decide (x = ch_backslash)) as [->|Hb]; [|exists (EChar x), p; by constructor].
    destruct p as [|y p]; [exists (EChar ch_backslash), []|exists (EChar y), p]; by constructor.
Qed.

(** What the matcher does with the first element is what the element means. *)
Lemma match_one_text nocase c p e r : element_text p e r -> match_one nocase p c = (bool_decide (element_matches nocase c e), r).
Proof.
  destruct 1 as [p|p items r Hh H|p items r H|y p|x p Hs Hq Ho Hb]; cbn [match_one].
  - done.
  - change (ch_open =? ch_question) with false. change (ch_open =? ch_open) with true.
    assert (match p with y :: _ => y =? ch_caret | [] => false end = false) as ->.
    { destruct p as [|y p]; [done|]. destruct (Z.eqb_spec y ch_caret) as [->|]; done. }
    by rewrite (class_loop_text nocase c p items r H).
  - change (ch_open =? ch_question) with false. change (ch_open =? ch_open) with true. change (ch_caret =? ch_caret) with true. cbn [tl].
    rewrite (class_loop_text nocase c p items r H). cbn [orb element_matches]. f_equal.
    rewrite <- bool_decide_not. apply bool_decide_ext. by rewrite Forall_Exists_neg.
  - change (ch_backslash =? ch_question) with false. change (ch_backslash =? ch_open) with false. change (ch_backslash =? ch_backslash) with true.
    rewrite bool_decide_eq_false_2 by done. by rewrite char_eq_spec.
  - zb_false (x =? ch_question). zb_false (x =? ch_open).
    assert ((x =? ch_backslash) && negb (bool_decide (p = [])) = false) as ->.
    { destruct (Z.eqb_spec x ch_backslash); [|done]. by rewrite bool_decide_eq_true_2 by auto. }
    by rewrite char_eq_spec.
Qed.

(** An element takes exactly one character. *)
Lemma gmatch_one nocase x p1 c s : x <> ch_star ->
  gmatch nocase (x :: p1) (c :: s) <-> (match_one nocase (x :: p1) c).1 = true /\ gmatch nocase (match_one nocase (x :: p1) c).2 s.
Proof.
  intros Hx. split.
  - inversion 1; simplify_eq. erewrite match_one_text by done. cbn [fst snd]. by rewrite bool_decide_eq_true.
  - destruct (element_text_total x p1 Hx) as (e & r & He). rewrite (match_one_text nocase c _ e r He). cbn [fst snd].
    rewrite bool_decide_eq_true. intros [H1 H2]. by eapply gm_one.
Qed.

(** ** The matcher is correct

    A failure that raises the flag rules out every suffix of the string. *)
Definition impl_ok nocase (p s : list Z) (res : bool * bool) : Prop :=
  (res.1 = true <-> gmatch nocase p s) /\ (res = (false, true) -> forall t, t `suffix_of` s -> ~ gmatch nocase p t).

Lemma star_loop_correct nocase q f : drop_stars q = q -> q <> [] ->
  (forall s, s <> [] -> impl_ok nocase q s (f s false)) -> forall s,
  impl_ok nocase (ch_star :: q) s (star_loop f s false).
Proof.
  intros Hd Hq Hf. induction s as [|c s IH]; cbn [star_loop].
  { assert (~ gmatch nocase (ch_star :: q) []) as Hn.
    { rewrite gmatch_empty. cbn [drop_stars]. by rewrite Z.eqb_refl, Hd. }
    split; [done|]. intros _ t ->%suffix_nil_inv. done. }
  destruct (Hf (c :: s) ltac:(done)) as [Hr Hs]. destruct (f (c :: s) false) as [r sk].
  destruct r; cbn [fst] in *.
  { split; [|done]. split; [|done]. intros _. apply gm_star_stop. by apply Hr. }
  assert (~ gmatch nocase q (c :: s)) as Hn by (rewrite <- Hr; done).
  destruct sk.
  - assert (forall t, t `suffix_of` c :: s -> ~ gmatch nocase (ch_star :: q) t) as Hall.
    { intros t Ht. rewrite gmatch_star. intros (u & Hu & Hg). eapply (Hs eq_refl u); [by etrans|done]. }
    split; [split; [done|]|done]. intros Hg. by apply Hall in Hg.
  - destruct IH as [IH1 IH2].
    assert (gmatch nocase (ch_star :: q) (c :: s) -> gmatch nocase (ch_star :: q) s) as Hdown.
    { rewrite !gmatch_star. intros (u & Hu & Hg). apply suffix_cons_case in Hu as [->|Hu]; [done|]. by exists u. }
    split.
    + rewrite IH1. split; [by apply gm_star_more|done].
    + intros E t Ht. apply suffix_cons_case in Ht as [->|Ht]; [|by apply IH2]. intros Hg%Hdown. by apply (IH2 E s).
Qed.

Lemma drop_stars_idem p : drop_stars (drop_stars p) = drop_stars p.
Proof. induction p as [|x p IH]; [done|]. cbn [drop_stars]. case_zb; [done|]. cbn [drop_stars]. by zb. Qed.

Lemma impl_correct nocase fuel : forall p s, (length p < fuel)%nat -> s <> [] ->
  impl_ok nocase p s (stringmatchlen_impl fuel nocase p s false).
Proof.
  induction fuel as [|fuel IH]; intros p s Hf Hs; [lia|]. cbn [stringmatchlen_impl].
  destruct p as [|x p1], s as [|c s1]; try done.
  { split; [split; [done|]|done]. intros H. inversion_clear H as [| | |? ? ? ? ? He]. inversion He. }
  destruct (Z.eqb_spec x ch_star) as [->|Hx].
  - case_bool_decide as Er.
    + split; [|done]. split; [|done]. intros _. apply gmatch_drop_stars. rewrite Er. apply gmatch_star. exists [].
      split; [apply suffix_nil|constructor].
    + pose proof (drop_stars_length p1). pose proof (star_loop_correct nocase (drop_stars p1)
        (stringmatchlen_impl fuel nocase (drop_stars p1)) (drop_stars_idem p1) Er) as HS.
      destruct (HS ltac:(intros s Hs'; apply IH; [simpl in Hf; lia|done]) (c :: s1)) as [H1 H2].
      split; [rewrite H1; symmetry; apply gmatch_drop_stars|]. intros E t Ht. rewrite gmatch_drop_stars. by apply H2.
  - pose proof (match_one_shorter nocase x p1 c) as Hsh. pose proof (gmatch_one nocase x p1 c s1 Hx) as HG.
    pose proof (match_one_rest nocase (x :: p1) c) as Hrest.
    destruct (match_one nocase (x :: p1) c) as [ok p']. cbn [fst snd] in *. destruct ok; cbn [negb].
    2:{ split; [|done]. rewrite HG. by split; [|intros []]. }
    case_bool_decide as Es1.
    + subst s1. split; [|done]. cbn [fst]. rewrite bool_decide_eq_true, HG, gmatch_empty. tauto.
    + destruct (IH p' s1) as [H1 H2]; [simpl in *; lia|done|].
      split; [rewrite H1, HG; tauto|]. intros E t Ht Hg. destruct t as [|c' t].
      { apply gmatch_empty in Hg. cbn [drop_stars] in Hg. revert Hg. by zb. }
      apply gmatch_one in Hg as [_ Hg]; [|done]. rewrite <- (Hrest c') in Hg.
      apply (H2 E t); [|done]. apply suffix_cons_case in Ht as [[= -> ->]|Ht]; [done|]. by eapply suffix_cons_l.
Qed.

(** C27. Glob matching: on a non-empty string the matcher, with its pruning of
    the backtracking, accepts exactly the strings the pattern describes: a star
    stands for any characters, [?] for one, a class for one character that some
    item of it (or, with a caret, none) describes, a backslash for the character
    behind it and any other character for itself, up to case when that is asked
    for. *)
Theorem stringmatchlen_correct p s nocase : s <> [] ->
  stringmatchlen p s nocase = true <-> gmatch nocase p s.
Proof. intros Hs. exact (proj1 (impl_correct nocase (S (length p)) p s ltac:(lia) Hs)). Qed.

(** On the empty string only the empty pattern is accepted: [*] describes the
    empty string, but the matcher returns 0 for it. *)
Theorem stringmatchlen_empty p nocase :
  (stringmatchlen p [] nocase = true <-> p = []) /\
  gmatch nocase [ch_star] [] /\ stringmatchlen [ch_star] [] nocase = false.
Proof.
  split; [|split; [apply gm_star_stop; constructor|done]]. unfold stringmatchlen. by destruct p.
Qed.

Lemma stringmatchlen_correct_witness :
  stringmatchlen [104; 42; 91; 97; 45; 99; 93; 63] [104; 101; 108; 98; 111] false = true /\
  gmatch false [104; 42; 91; 97; 45; 99; 93; 63] [104; 101; 108; 98; 111].
Proof.
  split; [by vm_compute|].
  apply (stringmatchlen_correct [104; 42; 91; 97; 45; 99; 93; 63] [104; 101; 108; 98; 111] false); [done|by vm_compute].
Defined.
