(* ===== verification/Numstr.v ===== *)
(** * Numstr: integers as strings (util.c)

    Model of [digits10], [sdigits10], [ull2string], [ll2string], [string2ll],
    [string2l], [memtoull], [mempbrk] and [memmapchars].  The table-driven printer and the strict parser
    are proved inverse to each other: the parser accepts exactly the printer's output. *)

From Stdlib Require Import ZArith Lia ZifyBool Ascii String.
From stdpp Require Import base gmap numbers option list.
From S2P Require Import Prelude.

Local Open Scope Z_scope.

Definition LONG_STR_SIZE : Z := 21.
Definition LLONG_MAX : Z := INT64_MAX.
Definition LLONG_MIN : Z := INT64_MIN.
Definition ULLONG_MAX : Z := UINT64_MAX.

(** The bytes of a string literal. *)
Definition chars (s : string) : list Z := (fun a => Z.of_nat (nat_of_ascii a)) <$> list_ascii_of_string s.

(** The recursion divides by 10^12: two levels cover 64 bits. *)
Fixpoint digits10_rec (fuel : nat) (v : Z) : Z :=
  match fuel with
  | O => 0
  | S fuel =>
    if v <? 10 then 1 else
    if v <? 100 then 2 else
    if v <? 1000 then 3 else
    if v <? 1000000000000 then
      if v <? 100000000 then
        if v <? 1000000 then
          if v <? 10000 then 4 else 5 + b2z (v >=? 100000)
        else 7 + b2z (v >=? 10000000)
      else if v <? 10000000000 then 9 + b2z (v >=? 1000000000)
      else 11 + b2z (v >=? 100000000000)
    else 12 + digits10_rec fuel (v / 1000000000000)
  end.
Definition digits10 (v : Z) : Z := digits10_rec 2 v.

Definition sdigits10 (v : Z) : Z :=
  if v <? 0 then
    let uv := if negb (v =? LLONG_MIN) then u64 (- v) else u64 (LLONG_MAX + 1) in
    digits10 uv + 1
  else digits10 v.

Definition digits : list Z := chars
  ("0001020304050607080910111213141516171819" ++
   "2021222324252627282930313233343536373839" ++
   "4041424344454647484950515253545556575859" ++
   "6061626364656667686970717273747576777879" ++
   "8081828384858687888990919293949596979899")%string.

(** [dst] points at offset [dst] of the buffer [b]; the [while (value >= 100)]
    loop of [ull2string] and the last one or two digits. *)
Fixpoint ull2string_loop (fuel : nat) (b : list Z) (dst next value : Z) : option (list Z) :=
  match fuel with
  | O => None
  | S fuel =>
    if value >=? 100 then
      let i := value mod 100 * 2 in
      let value := value / 100 in
      c1 ← get digits (i + 1);
      b ← put b (dst + next) c1;
      c0 ← get digits i;
      b ← put b (dst + (next - 1)) c0;
      ull2string_loop fuel b dst (u32 (next - 2)) value
    else if value <? 10 then put b (dst + next) (48 + value)
    else
      let i := value * 2 in
      c1 ← get digits (i + 1);
      b ← put b (dst + next) c1;
      c0 ← get digits i;
      put b (dst + (next - 1)) c0
  end.

Definition null_term (b : list Z) (dst dstlen : Z) : option (list Z) :=
  if dstlen >? 0 then put b dst 0 else Some b.

(** Returns the buffer and the length written, 0 when it does not fit. *)
Definition ull2string (b : list Z) (dst dstlen value : Z) : option (list Z * Z) :=
  let length := digits10 value in
  if length >=? dstlen then b ← null_term b dst dstlen; Some (b, 0) else
  let next := length - 1 in
  b ← put b (dst + (next + 1)) 0;
  b ← ull2string_loop 11 b dst next value;
  Some (b, length).

Definition ll2string (b : list Z) (dst dstlen svalue : Z) : option (list Z * Z) :=
  if svalue <? 0 then
    let value := if negb (svalue =? LLONG_MIN) then u64 (- svalue) else u64 (LLONG_MAX + 1) in
    if dstlen <? 2 then b ← null_term b dst dstlen; Some (b, 0) else
    b ← put b dst 45;
    '(b, length) ← ull2string b (dst + 1) (dstlen - 1) value;
    if length =? 0 then Some (b, 0) else Some (b, length + 1)
  else
    '(b, length) ← ull2string b dst dstlen svalue;
    if length =? 0 then Some (b, 0) else Some (b, length).

Definition is_digit (c : Z) : bool := (c >=? 48) && (c <=? 57).

(** The digit loop of [string2ll]; stopping before the end fails. *)
Fixpoint string2ll_loop (p : list Z) (v : Z) : option Z :=
  match p with
  | [] => Some v
  | c :: p =>
    if is_digit c then
      if v >? ULLONG_MAX / 10 then None else
      let v := u64 (v * 10) in
      if v >? u64 (ULLONG_MAX - (c - 48)) then None else
      string2ll_loop p (u64 (v + (c - 48)))
    else None
  end.

(** [None] is the return value 0. *)
Definition string2ll (s : list Z) : option Z :=
  let slen := Z.of_nat (length s) in
  if (slen =? 0) || (slen >=? LONG_STR_SIZE) then None else
  if (slen =? 1) && bool_decide (head s = Some 48) then Some 0 else
  let negative := bool_decide (head s = Some 45) in
  let p := if negative then tl s else s in
  match p with
  | [] => None
  | c :: p =>
    if (c >=? 49) && (c <=? 57) then
      v ← string2ll_loop p (c - 48);
      if negative then
        if v >? - (LLONG_MIN + 1) + 1 then None else Some (s64 (- v))
      else if v >? LLONG_MAX then None else Some v
    else None
  end.

(** [long] is 64 bits wide. *)
Definition string2l (s : list Z) : option Z :=
  llval ← string2ll s;
  if (llval <? INT64_MIN) || (llval >? INT64_MAX) then None else Some llval.

(** [strtoull] on a string of digits: the value, saturated. *)
Definition strtoull_digits (ds : list Z) : Z :=
  Z.min (foldl (fun v c => v * 10 + (c - 48)) 0 ds) ULLONG_MAX.

Definition lower (c : Z) : Z := if (65 <=? c) && (c <=? 90) then c + 32 else c.

(** The unit multiplier of [memtoull]; [strcasecmp] is equality of the lower-case strings. *)
Definition unit_mul (u : list Z) : option Z :=
  let l := lower <$> u in
  if bool_decide (l = []) || bool_decide (l = chars "b") then Some 1
  else if bool_decide (l = chars "k") then Some 1000
  else if bool_decide (l = chars "kb") then Some 1024
  else if bool_decide (l = chars "m") then Some (1000 * 1000)
  else if bool_decide (l = chars "mb") then Some (1024 * 1024)
  else if bool_decide (l = chars "g") then Some (1000 * 1000 * 1000)
  else if bool_decide (l = chars "gb") then Some (1024 * 1024 * 1024)
  else None.

Fixpoint split_digits (p : list Z) : list Z * list Z :=
  match p with
  | c :: q => if is_digit c then let '(ds, u) := split_digits q in (c :: ds, u) else ([], p)
  | [] => ([], [])
  end.

(** [p] is the string without its NUL; [None] is [*err = 1]. *)
Definition memtoull (p : list Z) : option Z :=
  if bool_decide (head p = Some 45) then None else
  let '(ds, u) := split_digits p in
  mul ← unit_mul u;
  if Z.of_nat (length ds) >=? 128 then None else
  Some (u64 (strtoull_digits ds * mul)).

(** The index of the first byte of [s] that is one of [chars]. *)
Fixpoint mempbrk (s cs : list Z) : option nat :=
  match s with
  | [] => None
  | c :: s => if existsb (Z.eqb c) cs then Some O else S <$> mempbrk s cs
  end.

Fixpoint map_char (c : Z) (from to : list Z) : Z :=
  match from, to with
  | f :: from, t :: to => if c =? f then t else map_char c from to
  | _, _ => c
  end.
Definition memmapchars (s from to : list Z) : list Z := (fun c => map_char c from to) <$> s.

(** ** Decimal notation *)

Fixpoint udec_rec (fuel : nat) (v : Z) : list Z :=
  match fuel with
  | O => []
  | S fuel => if v <? 10 then [48 + v] else udec_rec fuel (v / 10) ++ [48 + v mod 10]
  end.

(** The canonical decimal digits of a 64-bit unsigned integer, and of a signed one. *)
Definition udec (v : Z) : list Z := udec_rec 20 v.
Definition dec (v : Z) : list Z := if v <? 0 then 45 :: udec (- v) else udec v.

(** The number a digit string denotes. *)
Definition dval (ds : list Z) : Z := foldl (fun v c => v * 10 + (c - 48)) 0 ds.

Lemma udec_rec_fuel n : forall m v, 0 <= v < 10 ^ Z.of_nat n -> (n <= m)%nat -> (0 < n)%nat -> udec_rec m v = udec_rec n v.
Proof.
  induction n as [|n IH]; intros m v Hv Hm Hn; [lia|]. destruct m as [|m]; [lia|]. cbn [udec_rec].
  case_zb; [done|]. rewrite Nat2Z.inj_succ, Z.pow_succ_r in Hv by lia. f_equal. destruct n as [|n].
  - simpl in Hv. lia.
  - apply IH; [|lia|lia]. split; [apply Z.div_pos; lia|apply Z.div_lt_upper_bound; lia].
Qed.

Lemma udec_small v : 0 <= v < 10 -> udec v = [48 + v].
Proof. intros. unfold udec. cbn [udec_rec]. by zb. Qed.

(** Appending a digit. *)
Lemma udec_snoc v d : 1 <= v -> 0 <= d < 10 -> v * 10 + d < 10 ^ 20 -> udec (v * 10 + d) = udec v ++ [48 + d].
Proof.
  intros Hv Hd Hb. unfold udec at 1. cbn [udec_rec]. zb.
  assert ((v * 10 + d) / 10 = v) as -> by (symmetry; apply (Z.div_unique _ _ _ d); lia).
  assert ((v * 10 + d) mod 10 = d) as -> by (symmetry; apply (Z.mod_unique _ _ v); lia).
  assert (udec v = udec_rec 19 v) as ->; [|reflexivity].
  unfold udec. rewrite (udec_rec_fuel 19 20); [reflexivity| |lia|lia].
  change (10 ^ Z.of_nat 19) with (10 ^ 19). change (10 ^ 20) with (10 * 10 ^ 19) in Hb. lia.
Qed.

#[local] Opaque udec.

Lemma udec_unfold v : 10 <= v < 10 ^ 20 -> udec v = udec (v / 10) ++ [48 + v mod 10].
Proof.
  intros Hv. pose proof (Z.mod_pos_bound v 10). pose proof (Z.div_mod v 10).
  rewrite <- udec_snoc; [f_equal; lia| |lia|lia]. apply Z.div_le_lower_bound; lia.
Qed.

Lemma dval_app a b : dval (a ++ b) = dval a * 10 ^ Z.of_nat (length b) + dval b.
Proof.
  unfold dval. rewrite foldl_app. generalize (foldl (fun v c => v * 10 + (c - 48)) 0 a). intros x. revert x.
  induction b as [|c b IH] using rev_ind; intros x; [simpl; lia|].
  rewrite !foldl_app, IH, length_app, Nat2Z.inj_add, Z.pow_add_r by lia. simpl. lia.
Qed.

Lemma udec_props v : 0 <= v < 10 ^ 20 -> dval (udec v) = v /\ Forall (fun c => 48 <= c <= 57) (udec v) /\
  (1 <= length (udec v))%nat /\ (v <> 0 -> exists c ds, udec v = c :: ds /\ 49 <= c) /\
  v < 10 ^ Z.of_nat (length (udec v)) /\ (10 <= v -> 10 ^ (Z.of_nat (length (udec v)) - 1) <= v).
Proof.
  intros Hv. assert (exists n, v < 10 ^ Z.of_nat n /\ (n <= 20)%nat) as (n & Hn & Hn20) by (exists 20%nat; split; [apply Hv|lia]).
  revert v Hv Hn. induction n as [|n IH]; intros v Hv Hn.
  { simpl in Hn. assert (v = 0) as -> by lia. rewrite udec_small by lia.
    split_and!; [done|repeat constructor; lia|simpl; lia|lia|simpl; lia|lia]. }
  destruct (decide (v < 10)).
  { rewrite udec_small by lia. split_and!; [unfold dval; simpl; lia|repeat constructor; lia|simpl; lia| |simpl; lia|lia].
    intros. exists (48 + v), []. split; [done|lia]. }
  assert (0 <= v / 10) by (apply Z.div_pos; lia). assert (1 <= v / 10) by (apply Z.div_le_lower_bound; lia).
  pose proof (Z.div_mod v 10 ltac:(lia)). pose proof (Z.mod_pos_bound v 10 ltac:(lia)).
  rewrite Nat2Z.inj_succ, Z.pow_succ_r in Hn by lia.
  destruct (IH ltac:(lia) (v / 10)) as (I1 & I2 & I3 & I4 & I5 & I6); [lia|lia|].
  rewrite udec_unfold, dval_app, length_app by lia. cbn [length]. split_and!.
  - rewrite I1. unfold dval. simpl. lia.
  - apply Forall_app_2; [done|]. repeat constructor; lia.
  - lia.
  - intros _. destruct I4 as (c & ds & -> & Hc); [lia|]. by exists c, (ds ++ [48 + v mod 10]).
  - rewrite Nat2Z.inj_add, Z.pow_add_r by lia. change (10 ^ Z.of_nat 1) with 10. lia.
  - intros _. replace (Z.of_nat (length (udec (v / 10)) + 1) - 1) with (Z.of_nat (length (udec (v / 10)))) by lia.
    destruct (decide (10 <= v / 10)).
    + specialize (I6 ltac:(lia)). replace (Z.of_nat (length (udec (v / 10)))) with (Z.succ (Z.of_nat (length (udec (v / 10))) - 1)) by lia.
      rewrite Z.pow_succ_r by lia. lia.
    + rewrite udec_small by lia. simpl. lia.
Qed.

Lemma udec_length v k : 0 <= v < 10 ^ 20 -> 1 <= k -> v < 10 ^ k -> (k = 1 \/ 10 ^ (k - 1) <= v) ->
  Z.of_nat (length (udec v)) = k.
Proof.
  intros Hv Hk Hhi Hlo. destruct (udec_props v Hv) as (_ & _ & H1 & _ & Hb & Hl).
  set (n := Z.of_nat (length (udec v))) in *. destruct (Z.lt_trichotomy n k) as [Hlt|[|Hgt]]; [|done|].
  - exfalso. destruct Hlo as [->|Hlo]; [lia|]. pose proof (Z.pow_le_mono_r 10 n (k - 1)). lia.
  - exfalso. pose proof (Z.pow_le_mono_r 10 k (n - 1) ltac:(lia) ltac:(lia)) as Hm.
    pose proof (Z.pow_le_mono_r 10 1 k ltac:(lia) ltac:(lia)).
    destruct (decide (10 <= v)); [specialize (Hl ltac:(lia)); lia|].
    unfold n in *. rewrite udec_small in Hgt by lia. simpl in Hgt. lia.
Qed.

(** The first level of [digits10], below 10^12. *)
Lemma digits10_low fuel v : 0 <= v < 10 ^ 12 ->
  let k := digits10_rec (S fuel) v in 1 <= k <= 12 /\ v < 10 ^ k /\ (k = 1 \/ 10 ^ (k - 1) <= v).
Proof.
  intros Hv. cbn [digits10_rec]. unfold b2z. rewrite !Z.geb_leb.
  repeat case_zb; simpl; lia.
Qed.

Lemma digits10_correct v : in_u 64 v -> digits10 v = Z.of_nat (length (udec v)).
Proof.
  intros [H0 H1]. symmetry. assert (v < 10 ^ 20) by (eapply Z.lt_trans; [exact H1|done]).
  destruct (decide (v < 10 ^ 12)) as [Hlt|Hge].
  - destruct (digits10_low 1 v) as (? & ? & ?); [lia|]. unfold digits10. apply udec_length; lia || done.
  - assert (digits10 v = 12 + digits10_rec 1 (v / 10 ^ 12)) as ->.
    { unfold digits10. cbn [digits10_rec]. zb. done. }
    assert (0 <= v / 10 ^ 12 < 10 ^ 8) as Hq by (split; [apply Z.div_pos; lia|apply Z.div_lt_upper_bound; lia]).
    destruct (digits10_low 0 (v / 10 ^ 12)) as (Hk & Hhi & Hlo); [lia|].
    set (k := digits10_rec 1 (v / 10 ^ 12)) in *. pose proof (Z.div_mod v (10 ^ 12) ltac:(lia)).
    pose proof (Z.mod_pos_bound v (10 ^ 12) ltac:(lia)).
    apply udec_length; [lia|lia| |right].
    + rewrite Z.pow_add_r by lia. nia.
    + replace (12 + k - 1) with (12 + (k - 1)) by lia. rewrite Z.pow_add_r by lia.
      destruct Hlo as [->|Hlo]; [|nia]. simpl (10 ^ (1 - 1)). assert (1 <= v / 10 ^ 12) by (apply Z.div_le_lower_bound; lia). nia.
Qed.

(** *** The printer *)

Lemma digits_pair d : 0 <= d < 100 -> get digits (d * 2) = Some (48 + d / 10) /\ get digits (d * 2 + 1) = Some (48 + d mod 10).
Proof.
  intros Hd. assert (forallb (fun n => let d := Z.of_nat n in
    bool_decide (get digits (d * 2) = Some (48 + d / 10)) && bool_decide (get digits (d * 2 + 1) = Some (48 + d mod 10))) (seq 0 100) = true) as HA
    by (by vm_compute).
  rewrite forallb_forall in HA. specialize (HA (Z.to_nat d)). rewrite Z2Nat.id in HA by lia.
  assert (List.In (Z.to_nat d) (seq 0 100)) as Hin by (apply in_seq; lia). specialize (HA Hin).
  apply andb_true_iff in HA as [?%bool_decide_eq_true ?%bool_decide_eq_true]. done.
Qed.

Lemma udec_pair v : 100 <= v < 10 ^ 20 -> udec v = udec (v / 100) ++ [48 + v mod 100 / 10; 48 + v mod 100 mod 10].
Proof.
  intros Hv. assert (1 <= v / 100) by (apply Z.div_le_lower_bound; lia).
  pose proof (Z.div_mod v 100 ltac:(lia)). pose proof (Z.mod_pos_bound v 100 ltac:(lia)).
  pose proof (Z.div_mod (v mod 100) 10 ltac:(lia)). pose proof (Z.mod_pos_bound (v mod 100) 10 ltac:(lia)).
  assert (0 <= v mod 100 / 10 < 10) by (split; [apply Z.div_pos; lia|apply Z.div_lt_upper_bound; lia]).
  replace v with ((v / 100 * 10 + v mod 100 / 10) * 10 + v mod 100 mod 10) at 1 by lia.
  rewrite udec_snoc by lia. rewrite udec_snoc by lia. by rewrite <- app_assoc.
Qed.

Lemma udec_two v : 10 <= v < 100 -> udec v = [48 + v / 10; 48 + v mod 10].
Proof. intros. rewrite udec_unfold by lia. rewrite udec_small; [done|]. split; [apply Z.div_pos; lia|apply Z.div_lt_upper_bound; lia]. Qed.

Lemma put_pair (pre J post : list Z) x y a b dst next : dst = Z.of_nat (length pre) -> next = Z.of_nat (length J) + 1 ->
  0 <= a < 256 -> 0 <= b < 256 ->
  (m ← put (pre ++ J ++ x :: y :: post) (dst + next) b; put m (dst + (next - 1)) a) = Some (pre ++ J ++ a :: b :: post).
Proof.
  intros -> -> Ha Hb. rewrite !app_assoc. change (x :: y :: post) with ([x] ++ y :: post). rewrite (app_assoc (pre ++ J)).
  rewrite put_app by (rewrite !length_app; simpl; lia). cbn [mbind option_bind]. rewrite <- (app_assoc (pre ++ J)). cbn [app].
  rewrite put_app by (rewrite !length_app; simpl; lia). by rewrite !wrap_id by (unfold in_u; simpl; lia).
Qed.

Lemma udec_len20 v : 0 <= v < 10 ^ 20 -> (length (udec v) <= 20)%nat.
Proof.
  intros Hv. destruct (udec_props v Hv) as (_ & _ & _ & _ & _ & Hl).
  destruct (decide (10 <= v)) as [H10|]; [|rewrite udec_small by lia; simpl; lia].
  assert (Z.of_nat (length (udec v)) - 1 < 20); [|lia]. apply (Z.pow_lt_mono_r_iff 10); [lia|lia|]. specialize (Hl H10). lia.
Qed.

Lemma split_last2 {A} (J : list A) n : length J = (n + 2)%nat -> exists J' x y, J = J' ++ [x; y] /\ length J' = n.
Proof.
  intros H. exists (take n J). destruct (drop n J) as [|x [|y [|z r]]] eqn:E; apply (f_equal length) in E as E';
    rewrite length_drop in E'; simpl in E'; try lia.
  exists x, y. rewrite <- E, take_drop, length_take. split; [done|lia].
Qed.

(** Writing the two digits of [d] at the end of [J]. *)
Lemma write_pair (pre J post : list Z) n d : length J = (n + 2)%nat -> 0 <= d < 100 ->
  exists J', length J' = n /\
  (c1 ← get digits (d * 2 + 1);
   b ← put (pre ++ J ++ post) (Z.of_nat (length pre) + (Z.of_nat (length J) - 1)) c1;
   c0 ← get digits (d * 2);
   put b (Z.of_nat (length pre) + (Z.of_nat (length J) - 1 - 1)) c0) =
  Some (pre ++ J' ++ [48 + d / 10; 48 + d mod 10] ++ post).
Proof.
  intros HJ Hd. destruct (split_last2 J n HJ) as (J' & x & y & -> & HJ'). exists J'. split; [done|].
  destruct (digits_pair d Hd) as [E0 E1]. rewrite E1. cbn [mbind option_bind]. rewrite E0. cbn [mbind option_bind].
  pose proof (Z.mod_pos_bound d 10 ltac:(lia)).
  assert (0 <= d / 10 < 10) by (split; [apply Z.div_pos; lia|apply Z.div_lt_upper_bound; lia]).
  rewrite <- app_assoc. cbn [app]. apply put_pair; rewrite ?length_app; simpl; lia.
Qed.

(** The loop fills the [next + 1] bytes in front of [post] with the digits. *)
Lemma ull2string_loop_spec fuel : forall v (pre J post : list Z), 0 <= v < 10 ^ 20 -> v < 100 ^ Z.of_nat fuel ->
  length J = length (udec v) -> (0 < fuel)%nat ->
  ull2string_loop fuel (pre ++ J ++ post) (Z.of_nat (length pre)) (Z.of_nat (length J) - 1) v = Some (pre ++ udec v ++ post).
Proof.
  induction fuel as [|fuel IH]; intros v pre J post Hv Hf HJ Hpos; [lia|]. cbn [ull2string_loop]. rewrite Z.geb_leb.
  pose proof (udec_len20 v Hv) as Hlen.
  destruct (Z.leb_spec 100 v); [|destruct (Z.ltb_spec v 10)].
  - rewrite udec_pair in HJ by lia. rewrite length_app in HJ. cbn [length] in HJ.
    destruct (write_pair pre J post _ (v mod 100) HJ) as (J' & HJ' & EP); [apply Z.mod_pos_bound; lia|].
    destruct (get digits (v mod 100 * 2 + 1)) as [c1|]; [|done]. cbn [mbind option_bind] in EP |- *.
    destruct (put _ _ c1) as [b1|]; [|done]. cbn [mbind option_bind] in EP |- *.
    destruct (get digits (v mod 100 * 2)) as [c0|]; [|done]. cbn [mbind option_bind] in EP |- *. rewrite EP. cbn [mbind option_bind].
    assert (1 <= v / 100) by (apply Z.div_le_lower_bound; lia). assert (v / 100 < 10 ^ 20) by (apply Z.div_lt_upper_bound; lia).
    destruct (udec_props (v / 100) ltac:(lia)) as (_ & _ & Hl1 & _).
    pose proof (udec_len20 (v / 100) ltac:(lia)). rewrite wrap_id by (unfold in_u; lia). replace (Z.of_nat (length J) - 1 - 2) with (Z.of_nat (length J') - 1) by lia.
    rewrite IH; [by rewrite (udec_pair v), <- app_assoc by lia|lia| |done|].
    + rewrite Nat2Z.inj_succ, Z.pow_succ_r in Hf by lia. apply Z.div_lt_upper_bound; lia.
    + destruct fuel; [|lia]. simpl in Hf. lia.
  - rewrite udec_small in HJ |- * by lia. destruct J as [|x [|]]; try done.
    replace (Z.of_nat (length pre) + (Z.of_nat (length [x]) - 1)) with (Z.of_nat (length pre)) by (simpl; lia). cbn [app].
    rewrite put_app by done. by rewrite wrap_id by (unfold in_u; simpl; lia).
  - rewrite udec_two in HJ |- * by lia. cbn [length] in HJ.
    destruct (write_pair pre J post 0 v HJ) as (J' & HJ' & EP); [lia|]. destruct J'; [|done]. exact EP.
Qed.

(** What a failing call leaves: nothing is written past [dstlen]. *)
Definition untouched_after (n : Z) (b b' : list Z) : Prop :=
  length b' = length b /\ drop (Z.to_nat n) b' = drop (Z.to_nat n) b.

Lemma null_term_spec (pre B : list Z) dstlen : 0 <= dstlen <= Z.of_nat (length B) ->
  exists B', null_term (pre ++ B) (Z.of_nat (length pre)) dstlen = Some (pre ++ B') /\ untouched_after dstlen B B'.
Proof.
  intros Hd. unfold null_term. rewrite Z.gtb_ltb. case_zb; [|by exists B].
  destruct B as [|x B]; [simpl in Hd; lia|]. rewrite put_app by done. eexists. split; [done|]. split; [done|].
  by replace (Z.to_nat dstlen) with (S (Z.to_nat (dstlen - 1))) by lia.
Qed.

Lemma ull2string_spec (pre B : list Z) dstlen v : in_u 64 v -> 0 <= dstlen <= Z.of_nat (length B) ->
  if Z.of_nat (length (udec v)) <? dstlen
  then ull2string (pre ++ B) (Z.of_nat (length pre)) dstlen v =
         Some (pre ++ udec v ++ 0 :: drop (S (length (udec v))) B, Z.of_nat (length (udec v)))
  else exists B', ull2string (pre ++ B) (Z.of_nat (length pre)) dstlen v = Some (pre ++ B', 0) /\ untouched_after dstlen B B'.
Proof.
  intros Hv Hd. assert (0 <= v < 10 ^ 20) as Hv20 by (destruct Hv; split; [lia|eapply Z.lt_trans; [eassumption|done]]).
  unfold ull2string. rewrite digits10_correct, Z.geb_leb by done. case_zb.
  - zb. set (n := length (udec v)) in *.
    assert (B = take n B ++ default 0 (B !! n) :: drop (S n) B) as EB.
    { destruct (lookup_lt_is_Some_2 B n ltac:(lia)) as [x Hx]. rewrite Hx. symmetry. by apply take_drop_middle. }
    assert (length (take n B) = n) as HL by (rewrite length_take; lia).
    rewrite EB at 1. rewrite app_assoc.
    replace (Z.of_nat (length pre) + (Z.of_nat n - 1 + 1)) with (Z.of_nat (length (pre ++ take n B))) by (rewrite length_app; lia).
    rewrite put_app by done. cbn [mbind option_bind]. change (u8 0) with 0. rewrite <- app_assoc.
    replace (Z.of_nat n - 1) with (Z.of_nat (length (take n B)) - 1) by lia.
    rewrite ull2string_loop_spec; [done|done| |done|lia].
    change (100 ^ Z.of_nat 11) with (10 ^ 22). lia.
  - destruct (null_term_spec pre B dstlen Hd) as (B' & -> & HB'). zb. by exists B'.
Qed.

Lemma dec_length_pos v : in_s 64 v -> (1 <= length (dec v))%nat.
Proof.
  intros [H1 H2]. change (2 ^ (64 - 1)) with (2 ^ 63) in *. unfold dec. case_zb; [simpl; lia|]. apply udec_props. lia.
Qed.

Lemma ll2string_spec (b : list Z) dstlen v : in_s 64 v -> 0 <= dstlen <= Z.of_nat (length b) ->
  if Z.of_nat (length (dec v)) <? dstlen
  then ll2string b 0 dstlen v = Some (dec v ++ 0 :: drop (S (length (dec v))) b, Z.of_nat (length (dec v)))
  else exists b', ll2string b 0 dstlen v = Some (b', 0) /\ untouched_after dstlen b b'.
Proof.
  intros [H1 H2] Hd. change (2 ^ (64 - 1)) with (2 ^ 63) in *. unfold ll2string, dec. destruct (Z.ltb_spec v 0) as [Hneg|Hpos].
  - assert ((if negb (v =? LLONG_MIN) then u64 (- v) else u64 (LLONG_MAX + 1)) = - v) as ->.
    { unfold LLONG_MIN, LLONG_MAX, INT64_MIN, INT64_MAX. destruct (Z.eqb_spec v (- 2 ^ 63)) as [->|]; [done|]. cbn [negb].
      apply wrap_id. unfold in_u. lia. }
    cbn [length]. destruct (Z.ltb_spec dstlen 2) as [Hs|Hs].
    + destruct (udec_props (- v)) as (_ & _ & Hl & _); [lia|]. zb.
      destruct (null_term_spec [] b dstlen Hd) as (B' & E & HB'). change (Z.of_nat (length [])) with 0 in E. cbn [app] in E. rewrite E. by exists B'.
    + destruct b as [|x b]; [simpl in Hd; lia|]. pose proof (put_app [] x 45 b 0 eq_refl) as EP. cbn [app] in EP. change (u8 45) with 45 in EP. rewrite EP. cbn [mbind option_bind].
      pose proof (ull2string_spec [45] b (dstlen - 1) (- v)) as HU. cbn [length app] in HU, Hd. change (Z.of_nat 1) with 1 in HU.
      change (0 + 1) with 1. specialize (HU ltac:(unfold in_u; lia) ltac:(lia)). destruct (udec_props (- v)) as (_ & _ & Hl & _); [lia|].
      revert HU. destruct (Z.ltb_spec (Z.of_nat (length (udec (- v)))) (dstlen - 1)) as [Hf|Hf]; intros HU.
      * zb. rewrite HU. cbn [mbind option_bind]. zb. cbn [app drop]. do 2 f_equal. lia.
      * zb. destruct HU as (B' & -> & HB1 & HB2). cbn [mbind option_bind Z.eqb]. exists (45 :: B'). split; [done|]. split; [simpl; lia|].
        replace (Z.to_nat dstlen) with (S (Z.to_nat (dstlen - 1))) by lia. exact HB2.
  - pose proof (ull2string_spec [] b dstlen v) as HU. change (Z.of_nat (length [])) with 0 in HU. cbn [app] in HU. specialize (HU ltac:(unfold in_u; lia) ltac:(lia)).
    destruct (udec_props v) as (_ & _ & Hl & _); [lia|]. revert HU. case_zb; intros HU.
    + rewrite HU. cbn [mbind option_bind]. by zb.
    + destruct HU as (B' & -> & HB). cbn [mbind option_bind Z.eqb]. by exists B'.
Qed.

(** *** The parser *)

Lemma u64_lt20 v : 0 <= v <= ULLONG_MAX -> 0 <= v < 10 ^ 20.
Proof. unfold ULLONG_MAX, UINT64_MAX. intros. split; [lia|]. assert (2 ^ 64 - 1 < 10 ^ 20) by done. lia. Qed.

Lemma udec_inj v w : 0 <= v < 10 ^ 20 -> 0 <= w < 10 ^ 20 -> udec v = udec w -> v = w.
Proof. intros Hv Hw E. rewrite <- (proj1 (udec_props v Hv)), <- (proj1 (udec_props w Hw)). by f_equal. Qed.

Lemma dval_nonneg p : Forall (fun c => 48 <= c <= 57) p -> 0 <= dval p.
Proof.
  induction p as [|c p IH] using rev_ind; intros HF; [done|]. apply Forall_app in HF as [HF [Hc _]%Forall_cons].
  rewrite dval_app. specialize (IH HF). unfold dval at 2. simpl. lia.
Qed.

(** A number is at least its leading digits. *)
Lemma dval_prefix a p : Forall (fun c => 48 <= c <= 57) (a ++ p) -> dval a <= dval (a ++ p).
Proof.
  intros HF. apply Forall_app in HF as [Ha%dval_nonneg Hp%dval_nonneg]. rewrite dval_app.
  assert (1 <= 10 ^ Z.of_nat (length p)) by (pose proof (Z.pow_pos_nonneg 10 (Z.of_nat (length p))); lia). nia.
Qed.

Lemma string2ll_loop_spec p : forall v0 v, 1 <= v0 <= ULLONG_MAX ->
  string2ll_loop p v0 = Some v <-> 1 <= v <= ULLONG_MAX /\ udec v = udec v0 ++ p.
Proof.
  induction p as [|c p IH]; intros v0 v H0; cbn [string2ll_loop].
  { rewrite app_nil_r. split; [by intros [= ->]|]. intros [Hv E]. f_equal. apply udec_inj in E; [done|apply u64_lt20; lia..]. }
  assert (ULLONG_MAX / 10 = 1844674407370955161) as -> by done.
  assert (is_digit c = true -> v0 <= 1844674407370955161 -> 0 <= c - 48 < 10 /\ u64 (v0 * 10) = v0 * 10 /\
    u64 (ULLONG_MAX - (c - 48)) = ULLONG_MAX - (c - 48)) as Hd.
  { unfold is_digit, ULLONG_MAX, UINT64_MAX. intros. split; [lia|]. split; apply wrap_id; unfold in_u; lia. }
  split.
  - intros H. destruct (is_digit c) eqn:Ec; [|done]. revert H. rewrite Z.gtb_ltb. case_zb; [done|].
    destruct (Hd eq_refl) as (Hc & -> & ->); [lia|]. rewrite Z.gtb_ltb. case_zb; [done|].
    rewrite wrap_id by (unfold in_u, ULLONG_MAX, UINT64_MAX in *; lia). intros HI. apply IH in HI as [Hv E]; [|lia].
    split; [done|]. rewrite E, udec_snoc, <- app_assoc; [by replace (48 + (c - 48)) with c by lia|lia|lia|apply u64_lt20; lia].
  - intros [Hv E]. destruct (udec_props v) as (_ & HF & _); [apply u64_lt20; lia|]. rewrite E in HF.
    apply Forall_app in HF as [_ [Hc _]%Forall_cons]. assert (is_digit c = true) as Ec by (unfold is_digit; lia). rewrite Ec.
    assert (v0 * 10 + (c - 48) < 10 ^ 21).
    { unfold ULLONG_MAX, UINT64_MAX in *. assert (2 ^ 64 - 1 < 2 * 10 ^ 19) by done. lia. }
    assert (v0 * 10 + (c - 48) <= v) as Hle.
    { destruct (udec_props v) as (Ev & HF & _); [apply u64_lt20; lia|].
      destruct (udec_props v0) as (Ev0 & _); [apply u64_lt20; lia|].
      rewrite E in Ev, HF. change (c :: p) with ([c] ++ p) in Ev, HF. rewrite app_assoc in Ev, HF.
      apply dval_prefix in HF. rewrite Ev, dval_app, Ev0 in HF. unfold dval in HF. simpl in HF. lia. }
    rewrite Z.gtb_ltb. assert (v0 <= 1844674407370955161) by (unfold ULLONG_MAX, UINT64_MAX in *; lia). zb.
    destruct (Hd Ec ltac:(lia)) as (Hc' & -> & _).
    rewrite wrap_id by (unfold in_u, ULLONG_MAX, UINT64_MAX in *; lia). apply IH; [lia|]. split; [done|].
    rewrite E, udec_snoc, <- app_assoc; [by replace (48 + (c - 48)) with c by lia|lia|lia|apply u64_lt20; lia].
Qed.

Lemma dec_neg_head v : in_s 64 v -> head (dec v) = Some 45 <-> v < 0.
Proof.
  intros [H1 H2]. change (2 ^ (64 - 1)) with (2 ^ 63) in *. unfold dec. case_zb; [done|].
  destruct (udec_props v) as (_ & HF & _); [lia|]. destruct (udec v); split; try done; try lia.
  intros [= ->]. apply Forall_cons in HF as [? _]. lia.
Qed.

(** The parser on the digits of a non-zero number. *)
Lemma parse_digits p v : 0 <= v -> (exists c q, p = c :: q /\ (c >=? 49) && (c <=? 57) = true /\ string2ll_loop q (c - 48) = Some v) <->
  (1 <= v <= ULLONG_MAX /\ p = udec v).
Proof.
  intros Hv0. split.
  - intros (c & q & -> & Hc & HL). apply string2ll_loop_spec in HL as [Hv E]; [|unfold ULLONG_MAX, UINT64_MAX; lia].
    split; [done|]. rewrite E, udec_small by lia. cbn [app]. f_equal. lia.
  - intros [Hv ->]. destruct (udec_props v) as (_ & HF & _ & Hn & _); [apply u64_lt20; lia|].
    destruct Hn as (c & q & E & Hc); [lia|]. rewrite E in *. apply Forall_cons in HF as [Hc' _].
    exists c, q. split; [done|]. split; [lia|]. apply string2ll_loop_spec; [unfold ULLONG_MAX, UINT64_MAX; lia|].
    split; [done|]. rewrite E, udec_small by lia. cbn [app]. f_equal. lia.
Qed.

(** The bound on the length of the digits. *)
Lemma udec_length_le v n : 0 <= v < 10 ^ Z.of_nat n -> (0 < n <= 20)%nat -> (length (udec v) <= n)%nat.
Proof.
  intros Hv Hn. assert (10 ^ Z.of_nat n <= 10 ^ 20) by (apply Z.pow_le_mono_r; lia).
  destruct (udec_props v) as (_ & _ & _ & _ & _ & Hl); [lia|].
  destruct (decide (10 <= v)) as [H10|]; [|rewrite udec_small by lia; simpl; lia].
  assert (Z.of_nat (length (udec v)) - 1 < Z.of_nat n); [|lia]. apply (Z.pow_lt_mono_r_iff 10); [lia|lia|]. specialize (Hl H10). lia.
Qed.

Lemma dec_length v : in_s 64 v -> Z.of_nat (length (dec v)) < 21.
Proof.
  intros [H1 H2]. change (2 ^ (64 - 1)) with (2 ^ 63) in *. assert (2 ^ 63 < 10 ^ Z.of_nat 19) by done. unfold dec. case_zb.
  - cbn [length]. pose proof (udec_length_le (- v) 19). lia.
  - pose proof (udec_length_le v 19). lia.
Qed.

Lemma string2ll_sound s v : string2ll s = Some v -> in_s 64 v /\ s = dec v.
Proof.
  unfold string2ll. rewrite Z.geb_leb. unfold LONG_STR_SIZE.
  destruct (_ || _); [done|]. destruct ((_ =? 1) && _) eqn:E1.
  { intros [= <-]. apply andb_true_iff in E1 as [Hl Hh%bool_decide_eq_true]. destruct s as [|c [|c1 s]]; cbn [head length] in *; simplify_eq; [done|lia]. }
  clear E1. destruct (if bool_decide (head s = Some 45) then tl s else s) as [|c q] eqn:Ep; [done|]. destruct ((c >=? 49) && (c <=? 57)) eqn:Ec; [|done].
  destruct (string2ll_loop q (c - 48)) as [w|] eqn:EL; [|done]. cbn [mbind option_bind].
  assert (0 <= w) as Hw by (apply string2ll_loop_spec in EL; [lia|unfold ULLONG_MAX, UINT64_MAX; lia]).
  destruct (proj1 (parse_digits (c :: q) w Hw)) as [Hr E]; [eauto 10|]. unfold in_s, dec. change (2 ^ (64 - 1)) with (2 ^ 63).
  revert Ep. case_bool_decide as Hneg; intros Ep; rewrite Z.gtb_ltb; case_zb; try done; intros [= <-].
  - unfold LLONG_MIN, INT64_MIN in *. rewrite swrap_id by (lia || (unfold in_s; change (2 ^ (64 - 1)) with (2 ^ 63); lia)).
    split; [lia|]. zb. rewrite Z.opp_involutive, <- E, <- Ep. destruct s; simpl in *; congruence.
  - unfold LLONG_MAX, INT64_MAX in *. split; [lia|]. zb. congruence.
Qed.

Lemma string2ll_complete v : in_s 64 v -> string2ll (dec v) = Some v.
Proof.
  intros Hv. pose proof (dec_length v Hv). pose proof (dec_length_pos v Hv). pose proof (dec_neg_head v Hv) as Hnh.
  destruct Hv as [H1 H2]. change (2 ^ (64 - 1)) with (2 ^ 63) in *. unfold string2ll. rewrite Z.geb_leb. unfold LONG_STR_SIZE. zb. cbn [orb].
  destruct (decide (v = 0)) as [->|Hv0]; [done|].
  set (p := if bool_decide _ then tl (dec v) else dec v).
  assert (p = udec (Z.abs v)) as Hp.
  { unfold p. case_bool_decide as Hh; rewrite Hnh in Hh; unfold dec; zb; [cbn [tl]|]; f_equal; lia. }
  destruct (proj2 (parse_digits p (Z.abs v) ltac:(lia))) as (c & q & Ecq & Hc & HL); [split; [unfold ULLONG_MAX, UINT64_MAX; lia|done]|].
  assert ((Z.of_nat (length (dec v)) =? 1) && bool_decide (head (dec v) = Some 48) = false) as ->.
  { apply andb_false_iff. right. apply bool_decide_eq_false. intros Hh. unfold p in *. case_bool_decide as H45; [congruence|].
    rewrite Ecq in Hh. simpl in Hh. injection Hh as ->. lia. }
  rewrite Ecq, Hc, HL. cbn [mbind option_bind]. unfold LLONG_MIN, LLONG_MAX, INT64_MIN, INT64_MAX. rewrite !Z.gtb_ltb.
  case_bool_decide as Hh; rewrite Hnh in Hh; zb.
  - rewrite Z.abs_neq, Z.opp_involutive by lia. f_equal. apply swrap_id; [lia|]. unfold in_s. change (2 ^ (64 - 1)) with (2 ^ 63). lia.
  - f_equal. lia.
Qed.

(** C32. [string2ll] accepts exactly the canonical decimal representations of
    64-bit signed integers, and returns the integer represented: no spaces, plus signs, leading
    zeroes or out-of-range numbers. *)
Theorem string2ll_correct s v : string2ll s = Some v <-> in_s 64 v /\ s = dec v.
Proof. split; [apply string2ll_sound|intros [Hv ->]; by apply string2ll_complete]. Qed.

Lemma sdigits10_correct v : in_s 64 v -> sdigits10 v = Z.of_nat (length (dec v)).
Proof.
  intros Hv. destruct Hv as [H1 H2]. change (2 ^ (64 - 1)) with (2 ^ 63) in *. unfold sdigits10, dec, LLONG_MIN, LLONG_MAX, INT64_MIN, INT64_MAX.
  destruct (Z.ltb_spec v 0); [|apply digits10_correct; unfold in_u; lia].
  assert ((if negb (v =? - 2 ^ 63) then u64 (- v) else u64 (2 ^ 63 - 1 + 1)) = - v) as ->.
  { destruct (Z.eqb_spec v (- 2 ^ 63)) as [->|]; [done|]. apply wrap_id. unfold in_u. lia. }
  rewrite digits10_correct by (unfold in_u; lia). cbn [length]. lia.
Qed.

(** [ll2string] writes the canonical decimal representation and its NUL when the
    buffer has room for both, and then [string2ll] reads the same integer back; otherwise it returns 0.
    It never writes outside the [dstlen] bytes. *)
Theorem ll2string_roundtrip (b : list Z) dstlen v : in_s 64 v -> 0 <= dstlen <= Z.of_nat (length b) ->
  exists b' n, ll2string b 0 dstlen v = Some (b', n) /\ untouched_after dstlen b b' /\
    (if sdigits10 v <? dstlen
     then n = sdigits10 v /\ take (S (Z.to_nat n)) b' = dec v ++ [0] /\ string2ll (take (Z.to_nat n) b') = Some v
     else n = 0).
Proof.
  intros Hv Hd. pose proof (ll2string_spec b dstlen v Hv Hd) as HS.
  rewrite (sdigits10_correct v Hv).
  revert HS. case_zb; intros HS.
  - rewrite HS. do 2 eexists. split; [done|]. split; [|split; [done|split]].
    + split.
      * rewrite length_app. cbn [length]. rewrite length_drop. lia.
      * rewrite drop_app_ge by lia. replace (Z.to_nat dstlen - length (dec v))%nat with (S (Z.to_nat dstlen - S (length (dec v)))) by lia.
        cbn [drop]. rewrite drop_drop. f_equal. lia.
    + rewrite Nat2Z.id. change (dec v ++ 0 :: drop (S (length (dec v))) b) with (dec v ++ [0] ++ drop (S (length (dec v))) b).
      rewrite app_assoc. rewrite take_app_length'; [done|]. rewrite length_app. simpl. lia.
    + rewrite Nat2Z.id, take_app_length. by apply string2ll_complete.
  - destruct HS as (b' & -> & HB). eauto.
Qed.

Lemma ll2string_roundtrip_witness :
  exists b' n, ll2string (replicate 32 170) 0 32 (-9223372036854775808) = Some (b', n) /\ n = 20 /\
    string2ll (take (Z.to_nat n) b') = Some (-9223372036854775808).
Proof.
  destruct (ll2string_roundtrip (replicate 32 170) 32 (-9223372036854775808)) as (b' & n & E & _ & Hn & _ & Hr).
  - done.
  - simpl. lia.
  - exists b', n. split; [exact E|]. split; [exact Hn|exact Hr].
Defined.

(** *** Amounts of memory *)

Lemma split_digits_app ds u : Forall (fun c => 48 <= c <= 57) ds -> match u with c :: _ => is_digit c = false | [] => True end ->
  split_digits (ds ++ u) = (ds, u).
Proof.
  induction 1 as [|c ds Hc _ IH]; intros Hu; cbn [app split_digits].
  - destruct u as [|c u]; [done|]. cbn [split_digits]. by rewrite Hu.
  - assert (is_digit c = true) as -> by (unfold is_digit; lia). by rewrite IH.
Qed.

Lemma unit_mul_head u mul : unit_mul u = Some mul -> match u with c :: _ => is_digit c = false | [] => True end.
Proof.
  destruct u as [|c u]; [done|]. unfold unit_mul. rewrite fmap_cons. intros H.
  assert (98 <= lower c \/ lower c < 48) as Hl; [|unfold lower, is_digit in *; destruct (Z.leb_spec 65 c), (Z.leb_spec c 90); simpl in *; lia].
  revert H. generalize (lower c), (lower <$> u). intros x l H.
  repeat case_bool_decide; simplify_eq/=;
    match goal with E : x :: l = chars _ |- _ => apply (f_equal head) in E; vm_compute in E; injection E; lia end.
Qed.

(** [memtoull] multiplies the decimal number in front by its unit ([k] and
    [kb], [m] and [mb], [g] and [gb] being decimal and binary), modulo 2^64:
    a product that fits is exact, and one that does not is no error but wraps
    (the witness parses 3 gibibytes, and 16 exbibytes as 0). *)
Theorem memtoull_correct n u mul : in_u 64 n -> unit_mul u = Some mul ->
  memtoull (udec n ++ u) = Some (u64 (n * mul)).
Proof.
  intros Hn Hu. assert (0 <= n < 10 ^ 20) as Hn20 by (apply u64_lt20; destruct Hn; unfold ULLONG_MAX, UINT64_MAX; lia).
  destruct (udec_props n Hn20) as (Hd & HF & Hl & _). pose proof (udec_len20 n Hn20). unfold memtoull.
  rewrite bool_decide_eq_false_2.
  2:{ destruct (udec n) as [|c ds]; [simpl in Hl; lia|]. intros [= ->]. apply Forall_cons in HF as [? _]. lia. }
  rewrite split_digits_app; [|done|by eapply unit_mul_head]. rewrite Hu. cbn [mbind option_bind]. rewrite Z.geb_leb. zb.
  unfold strtoull_digits. fold (dval (udec n)). rewrite Hd. destruct Hn.
  by rewrite Z.min_l by (unfold ULLONG_MAX, UINT64_MAX; lia).
Qed.

Lemma memtoull_correct_witness :
  memtoull (chars "3Gb") = Some 3221225472 /\ memtoull (chars "17179869184gb") = Some 0.
Proof.
  split.
  - assert (chars "3Gb" = udec 3 ++ chars "Gb") as -> by (by vm_compute).
    exact (memtoull_correct 3 (chars "Gb") 1073741824 ltac:(done) ltac:(by vm_compute)).
  - assert (chars "17179869184gb" = udec 17179869184 ++ chars "gb") as -> by (by vm_compute).
    exact (memtoull_correct 17179869184 (chars "gb") 1073741824 ltac:(done) ltac:(by vm_compute)).
Defined.
