(* ===== verification/Listpack.v ===== *)
(** * Listpack: the byte-packed list of strings and integers (listpack.c)

    Model of every operation of listpack.c but the random selections.  A
    listpack is the list of the bytes of its allocation, which may be longer
    than the listpack; a pointer into it is an offset, and a [NULL] result is an inner
    [None].  The outer [None] is a failed assertion or an access outside the
    allocation.  The allocator is a parameter: [alloc n] is the usable size of a block
    requested with [n] bytes and [undef] the initial content of fresh bytes. *)

From Stdlib Require Import ZArith Lia ZifyBool.
From stdpp Require Import base gmap numbers option list.
From S2P Require Import Prelude Numstr.

Local Open Scope Z_scope.

Notation LP_HDR_SIZE := 6%Z (only parsing).
Notation LP_HDR_NUMELE_UNKNOWN := 65535%Z (only parsing).
Notation LP_INTBUF_SIZE := 21%Z (only parsing).
Notation LP_EOF := 0xFF%Z (only parsing).
Notation LISTPACK_MAX_SAFETY_SIZE := (Z.shiftl 1 30)%Z (only parsing).

(** [assert] *)
Definition assert_ (c : bool) : option unit := if c then Some tt else None.

(** ** Encodings *)

Notation LP_ENCODING_13BIT_INT := 0xC0%Z (only parsing).
Notation LP_ENCODING_16BIT_INT := 0xF1%Z (only parsing).
Notation LP_ENCODING_24BIT_INT := 0xF2%Z (only parsing).
Notation LP_ENCODING_32BIT_INT := 0xF3%Z (only parsing).
Notation LP_ENCODING_64BIT_INT := 0xF4%Z (only parsing).
Notation LP_ENCODING_6BIT_STR := 0x80%Z (only parsing).
Notation LP_ENCODING_12BIT_STR := 0xE0%Z (only parsing).
Notation LP_ENCODING_32BIT_STR := 0xF0%Z (only parsing).

Notation LP_ENCODING_IS_7BIT_UINT x := (Z.land x 0x80 =? 0)%Z (only parsing).
Notation LP_ENCODING_IS_6BIT_STR x := (Z.land x 0xC0 =? LP_ENCODING_6BIT_STR)%Z (only parsing).
Notation LP_ENCODING_IS_13BIT_INT x := (Z.land x 0xE0 =? LP_ENCODING_13BIT_INT)%Z (only parsing).
Notation LP_ENCODING_IS_12BIT_STR x := (Z.land x 0xF0 =? LP_ENCODING_12BIT_STR)%Z (only parsing).
Notation LP_ENCODING_IS_16BIT_INT x := (Z.land x 0xFF =? LP_ENCODING_16BIT_INT)%Z (only parsing).
Notation LP_ENCODING_IS_24BIT_INT x := (Z.land x 0xFF =? LP_ENCODING_24BIT_INT)%Z (only parsing).
Notation LP_ENCODING_IS_32BIT_INT x := (Z.land x 0xFF =? LP_ENCODING_32BIT_INT)%Z (only parsing).
Notation LP_ENCODING_IS_64BIT_INT x := (Z.land x 0xFF =? LP_ENCODING_64BIT_INT)%Z (only parsing).
Notation LP_ENCODING_IS_32BIT_STR x := (Z.land x 0xFF =? LP_ENCODING_32BIT_STR)%Z (only parsing).

Definition LP_ENCODING_6BIT_STR_LEN (b : list Z) (p : Z) : option Z := x ← get b p; Some (Z.land x 0x3F).
Definition LP_ENCODING_12BIT_STR_LEN (b : list Z) (p : Z) : option Z :=
  x ← get b p; y ← get b (p + 1); Some (Z.lor (Z.shiftl (Z.land x 0xF) 8) y).

(** Bytes [p .. p+3], little endian. *)
Definition get32 (b : list Z) (p : Z) : option Z :=
  x0 ← get b p; x1 ← get b (p + 1); x2 ← get b (p + 2); x3 ← get b (p + 3);
  Some (Z.lor (Z.lor (Z.lor x0 (Z.shiftl x1 8)) (Z.shiftl x2 16)) (Z.shiftl x3 24)).
Definition LP_ENCODING_32BIT_STR_LEN (b : list Z) (p : Z) : option Z := get32 b (p + 1).

Definition lpGetTotalBytes (b : list Z) : option Z := get32 b 0.
Definition lpGetNumElements (b : list Z) : option Z :=
  x0 ← get b 4; x1 ← get b 5; Some (Z.lor x0 (Z.shiftl x1 8)).

Definition lpSetTotalBytes (b : list Z) (v : Z) : option (list Z) :=
  b ← put b 0 (Z.land v 0xff);
  b ← put b 1 (Z.land (Z.shiftr v 8) 0xff);
  b ← put b 2 (Z.land (Z.shiftr v 16) 0xff);
  put b 3 (Z.land (Z.shiftr v 24) 0xff).
Definition lpSetNumElements (b : list Z) (v : Z) : option (list Z) :=
  b ← put b 4 (Z.land v 0xff);
  put b 5 (Z.land (Z.shiftr v 8) 0xff).

Definition lpBytes (b : list Z) : option Z := lpGetTotalBytes b.

Definition ASSERT_INTEGRITY (b : list Z) (p : Z) : option unit :=
  total ← lpGetTotalBytes b; assert_ ((LP_HDR_SIZE <=? p) && (p <? total)).
Definition ASSERT_INTEGRITY_LEN (b : list Z) (p len : Z) : option unit :=
  total ← lpGetTotalBytes b; assert_ ((LP_HDR_SIZE <=? p) && (p + len <? total)).

(** [None] is a [NULL] listpack. *)
Definition lpSafeToAdd (lp : option (list Z)) (add : Z) : option bool :=
  len ← match lp with Some b => lpGetTotalBytes b | None => Some 0 end;
  Some (negb (u64 (len + add) >? LISTPACK_MAX_SAFETY_SIZE)).

(** The digit loop of [lpStringToInt64]; stopping before the end fails. *)
Fixpoint lpStringToInt64_loop (p : list Z) (v : Z) : option Z :=
  match p with
  | [] => Some v
  | c :: p =>
    if (c >=? 48) && (c <=? 57) then
      if v >? UINT64_MAX / 10 then None else
      let v := u64 (v * 10) in
      if v >? u64 (UINT64_MAX - (c - 48)) then None else
      lpStringToInt64_loop p (u64 (v + (c - 48)))
    else None
  end.

(** [None] is the return value 0. *)
Definition lpStringToInt64 (s : list Z) : option Z :=
  let slen := Z.of_nat (length s) in
  if (slen =? 0) || (slen >=? LONG_STR_SIZE) then None else
  if (slen =? 1) && bool_decide (head s = Some 48) then Some 0 else
  let negative := bool_decide (head s = Some 45) in
  let p := if negative then tl s else s in
  match p with
  | [] => None
  | c :: p =>
    if (c >=? 49) && (c <=? 57) then
      v ← lpStringToInt64_loop p (c - 48);
      if negative then
        if v >? - (INT64_MIN + 1) + 1 then None else Some (s64 (- v))
      else if v >? INT64_MAX then None else Some v
    else None
  end.

(** [intenc] filled with the encoded integer; its length is [*enclen]. *)
Definition lpEncodeIntegerGetType (v : Z) : list Z :=
  if (v >=? 0) && (v <=? 127) then [u8 v]
  else if (v >=? -4096) && (v <=? 4095) then
    let v := if v <? 0 then Z.shiftl 1 13 + v else v in
    [u8 (Z.lor (Z.shiftr v 8) LP_ENCODING_13BIT_INT); Z.land v 0xff]
  else if (v >=? -32768) && (v <=? 32767) then
    let v := if v <? 0 then Z.shiftl 1 16 + v else v in
    [LP_ENCODING_16BIT_INT; Z.land v 0xff; u8 (Z.shiftr v 8)]
  else if (v >=? -8388608) && (v <=? 8388607) then
    let v := if v <? 0 then Z.shiftl 1 24 + v else v in
    [LP_ENCODING_24BIT_INT; Z.land v 0xff; Z.land (Z.shiftr v 8) 0xff; u8 (Z.shiftr v 16)]
  else if (v >=? -2147483648) && (v <=? 2147483647) then
    let v := if v <? 0 then Z.shiftl 1 32 + v else v in
    [LP_ENCODING_32BIT_INT; Z.land v 0xff; Z.land (Z.shiftr v 8) 0xff; Z.land (Z.shiftr v 16) 0xff; u8 (Z.shiftr v 24)]
  else
    let uv := u64 v in
    [LP_ENCODING_64BIT_INT; Z.land uv 0xff; Z.land (Z.shiftr uv 8) 0xff; Z.land (Z.shiftr uv 16) 0xff;
     Z.land (Z.shiftr uv 24) 0xff; Z.land (Z.shiftr uv 32) 0xff; Z.land (Z.shiftr uv 40) 0xff;
     Z.land (Z.shiftr uv 48) 0xff; u8 (Z.shiftr uv 56)].

(** The encoded integer for [LP_ENCODING_INT], [None] for [LP_ENCODING_STRING]; and [*enclen]. *)
Definition lpEncodeGetType (ele : list Z) : option (list Z) * Z :=
  let size := Z.of_nat (length ele) in
  match lpStringToInt64 ele with
  | Some v => let intenc := lpEncodeIntegerGetType v in (Some intenc, Z.of_nat (length intenc))
  | None =>
    (None, if size <? 64 then 1 + size else if size <? 4096 then 2 + size else 5 + size)
  end.

(** The return value of [lpEncodeBacklen]; its effect with a null [buf]. *)
Definition lpEncodeBacklenSize (l : Z) : Z :=
  if l <=? 127 then 1 else if l <? 16383 then 2 else if l <? 2097151 then 3 else if l <? 268435455 then 4 else 5.

(** The bytes [lpEncodeBacklen] stores. *)
Definition lpEncodeBacklen (l : Z) : list Z :=
  if l <=? 127 then [u8 l]
  else if l <? 16383 then [u8 (Z.shiftr l 7); Z.lor (Z.land l 127) 128]
  else if l <? 2097151 then [u8 (Z.shiftr l 14); Z.lor (Z.land (Z.shiftr l 7) 127) 128; Z.lor (Z.land l 127) 128]
  else if l <? 268435455 then
    [u8 (Z.shiftr l 21); Z.lor (Z.land (Z.shiftr l 14) 127) 128; Z.lor (Z.land (Z.shiftr l 7) 127) 128;
     Z.lor (Z.land l 127) 128]
  else
    [u8 (Z.shiftr l 28); Z.lor (Z.land (Z.shiftr l 21) 127) 128; Z.lor (Z.land (Z.shiftr l 14) 127) 128;
     Z.lor (Z.land (Z.shiftr l 7) 127) 128; Z.lor (Z.land l 127) 128].

(** The loop runs at most five times: then [shift > 28]. *)
Fixpoint lpDecodeBacklen_loop (fuel : nat) (b : list Z) (p val shift : Z) : option Z :=
  match fuel with
  | O => None
  | S fuel =>
    x ← get b p;
    let val := Z.lor val (Z.shiftl (Z.land x 127) shift) in
    if Z.land x 128 =? 0 then Some val else
    let shift := shift + 7 in
    if shift >? 28 then Some UINT64_MAX else
    lpDecodeBacklen_loop fuel b (p - 1) val shift
  end.
Definition lpDecodeBacklen (b : list Z) (p : Z) : option Z := lpDecodeBacklen_loop 5 b p 0 0.

Definition lpEncodeString (b : list Z) (buf : Z) (s : list Z) : option (list Z) :=
  let len := Z.of_nat (length s) in
  if len <? 64 then
    b ← put b buf (Z.lor len LP_ENCODING_6BIT_STR);
    blit b (buf + 1) s
  else if len <? 4096 then
    b ← put b buf (Z.lor (Z.shiftr len 8) LP_ENCODING_12BIT_STR);
    b ← put b (buf + 1) (Z.land len 0xff);
    blit b (buf + 2) s
  else
    b ← put b buf LP_ENCODING_32BIT_STR;
    b ← put b (buf + 1) (Z.land len 0xff);
    b ← put b (buf + 2) (Z.land (Z.shiftr len 8) 0xff);
    b ← put b (buf + 3) (Z.land (Z.shiftr len 16) 0xff);
    b ← put b (buf + 4) (Z.land (Z.shiftr len 24) 0xff);
    blit b (buf + 5) s.

(** ** Navigation *)

Definition lpCurrentEncodedSizeUnsafe (b : list Z) (p : Z) : option Z :=
  x ← get b p;
  if LP_ENCODING_IS_7BIT_UINT x then Some 1
  else if LP_ENCODING_IS_6BIT_STR x then n ← LP_ENCODING_6BIT_STR_LEN b p; Some (1 + n)
  else if LP_ENCODING_IS_13BIT_INT x then Some 2
  else if LP_ENCODING_IS_16BIT_INT x then Some 3
  else if LP_ENCODING_IS_24BIT_INT x then Some 4
  else if LP_ENCODING_IS_32BIT_INT x then Some 5
  else if LP_ENCODING_IS_64BIT_INT x then Some 9
  else if LP_ENCODING_IS_12BIT_STR x then n ← LP_ENCODING_12BIT_STR_LEN b p; Some (2 + n)
  else if LP_ENCODING_IS_32BIT_STR x then n ← LP_ENCODING_32BIT_STR_LEN b p; Some (u32 (5 + n))
  else if x =? LP_EOF then Some 1
  else Some 0.

Definition lpCurrentEncodedSizeBytes (b : list Z) (p : Z) : option Z :=
  x ← get b p;
  Some (if LP_ENCODING_IS_7BIT_UINT x then 1
        else if LP_ENCODING_IS_6BIT_STR x then 1
        else if LP_ENCODING_IS_13BIT_INT x then 1
        else if LP_ENCODING_IS_16BIT_INT x then 1
        else if LP_ENCODING_IS_24BIT_INT x then 1
        else if LP_ENCODING_IS_32BIT_INT x then 1
        else if LP_ENCODING_IS_64BIT_INT x then 1
        else if LP_ENCODING_IS_12BIT_STR x then 2
        else if LP_ENCODING_IS_32BIT_STR x then 5
        else if x =? LP_EOF then 1
        else 0).

Definition lpSkip (b : list Z) (p : Z) : option Z :=
  entrylen ← lpCurrentEncodedSizeUnsafe b p;
  Some (p + (entrylen + lpEncodeBacklenSize entrylen)).

Definition OUT_OF_RANGE (lpbytes p : Z) : bool := (p <? LP_HDR_SIZE) || (p >? lpbytes - 1).

(** The return value and the new [*pp]. *)
Definition lpValidateNext (b : list Z) (pp : option Z) (lpbytes : Z) : option (bool * option Z) :=
  match pp with
  | None => Some (false, pp)
  | Some p =>
    if OUT_OF_RANGE lpbytes p then Some (false, pp) else
    x ← get b p;
    if x =? LP_EOF then Some (true, None) else
    lenbytes ← lpCurrentEncodedSizeBytes b p;
    if lenbytes =? 0 then Some (false, pp) else
    if OUT_OF_RANGE lpbytes (p + lenbytes) then Some (false, pp) else
    entrylen ← lpCurrentEncodedSizeUnsafe b p;
    let encodedBacklen := lpEncodeBacklenSize entrylen in
    let entrylen := entrylen + encodedBacklen in
    if OUT_OF_RANGE lpbytes (p + entrylen) then Some (false, pp) else
    let p := p + entrylen in
    prevlen ← lpDecodeBacklen b (p - 1);
    if negb (u64 (prevlen + encodedBacklen) =? entrylen) then Some (false, pp) else
    Some (true, Some p)
  end.

Definition lpAssertValidEntry (b : list Z) (lpbytes p : Z) : option unit :=
  '(ok, _) ← lpValidateNext b (Some p) lpbytes; assert_ ok.

Definition lpNext (b : list Z) (p : Z) : option (option Z) :=
  p ← lpSkip b p;
  x ← get b p;
  if x =? LP_EOF then Some None else
  bytes ← lpBytes b;
  _ ← lpAssertValidEntry b bytes p;
  Some (Some p).

Definition lpPrev (b : list Z) (p : Z) : option (option Z) :=
  if p =? LP_HDR_SIZE then Some None else
  let p := p - 1 in
  prevlen ← lpDecodeBacklen b p;
  let prevlen := u64 (prevlen + lpEncodeBacklenSize prevlen) in
  let p := p - (prevlen - 1) in
  bytes ← lpBytes b;
  _ ← lpAssertValidEntry b bytes p;
  Some (Some p).

Definition lpFirst (b : list Z) : option (option Z) :=
  let p := LP_HDR_SIZE in
  x ← get b p;
  if x =? LP_EOF then Some None else
  bytes ← lpBytes b;
  _ ← lpAssertValidEntry b bytes p;
  Some (Some p).

Definition lpLast (b : list Z) : option (option Z) :=
  bytes ← lpGetTotalBytes b; lpPrev b (bytes - 1).

(** The scan of [lpLength]: every element takes at least two bytes. *)
Fixpoint lpLength_loop (fuel : nat) (b : list Z) (p : option Z) (count : Z) : option Z :=
  match fuel with
  | O => None
  | S fuel =>
    match p with
    | None => Some count
    | Some p => p ← lpNext b p; lpLength_loop fuel b p (u32 (count + 1))
    end
  end.

(** The count, and the listpack with its cached count. *)
Definition lpLength (b : list Z) : option (list Z * Z) :=
  numele ← lpGetNumElements b;
  if negb (numele =? LP_HDR_NUMELE_UNKNOWN) then Some (b, numele) else
  p ← lpFirst b;
  count ← lpLength_loop (S (length b)) b p 0;
  b ← (if count <? LP_HDR_NUMELE_UNKNOWN then lpSetNumElements b count else Some b);
  Some (b, count).

(** Right-to-left and left-to-right seeking. *)
Fixpoint seek_forward (fuel : nat) (b : list Z) (ele : option Z) (index : Z) : option (option Z) :=
  match fuel with
  | O => None
  | S fuel =>
    match ele with
    | Some p => if index >? 0 then ele ← lpNext b p; seek_forward fuel b ele (index - 1) else Some ele
    | None => Some None
    end
  end.
Fixpoint seek_backward (fuel : nat) (b : list Z) (ele : option Z) (index : Z) : option (option Z) :=
  match fuel with
  | O => None
  | S fuel =>
    match ele with
    | Some p => if index <? -1 then ele ← lpPrev b p; seek_backward fuel b ele (index + 1) else Some ele
    | None => Some None
    end
  end.

Definition lpSeek_forward (b : list Z) (index : Z) : option (option Z) :=
  ele ← lpFirst b; seek_forward (S (length b)) b ele index.
Definition lpSeek_backward (b : list Z) (index : Z) : option (option Z) :=
  ele ← lpLast b; seek_backward (S (length b)) b ele index.

Definition lpSeek (b : list Z) (index : Z) : option (option Z) :=
  numele ← lpGetNumElements b;
  if negb (numele =? LP_HDR_NUMELE_UNKNOWN) then
    let index := if index <? 0 then numele + index else index in
    if index <? 0 then Some None else
    if index >=? numele then Some None else
    if index >? numele / 2 then lpSeek_backward b (index - numele)
    else lpSeek_forward b index
  else if index <? 0 then lpSeek_backward b index
  else lpSeek_forward b index.

Definition lpValidateFirst (b : list Z) : option (option Z) :=
  x ← get b LP_HDR_SIZE;
  Some (if x =? LP_EOF then None else Some LP_HDR_SIZE).

(** ** Reading elements *)

(** What [lpGet] returns: a string inside the listpack, the string of an
    integer in [intbuf], or (a [NULL] pointer and) an integer. *)
Inductive lpret :=
| RPtr (ptr count : Z)
| RBuf (intbuf : list Z) (count : Z)
| RInt (val : Z).

(** The end of [lpGetWithSize], reached for the integer encodings only. *)
Definition lpGet_int (uval negstart negmax : Z) (intbuf : option (list Z)) : option lpret :=
  let val :=
    if uval >=? negstart then
      let uval := u64 (negmax - uval) in
      let val := s64 uval in
      s64 (- val - 1)
    else s64 uval in
  match intbuf with
  | Some buf => '(buf, count) ← ll2string buf 0 LP_INTBUF_SIZE val; Some (RBuf buf count)
  | None => Some (RInt val)
  end.

(** [entry_size] is the value of [*entry_size] before the call; it is returned updated. *)
Definition lpGetWithSize (b : list Z) (p : Z) (intbuf : option (list Z)) (entry_size : Z) : option (lpret * Z) :=
  x ← get b p;
  if LP_ENCODING_IS_7BIT_UINT x then
    r ← lpGet_int (Z.land x 0x7f) UINT64_MAX 0 intbuf; Some (r, 2)
  else if LP_ENCODING_IS_6BIT_STR x then
    count ← LP_ENCODING_6BIT_STR_LEN b p;
    Some (RPtr (p + 1) count, 1 + count + lpEncodeBacklenSize (count + 1))
  else if LP_ENCODING_IS_13BIT_INT x then
    x1 ← get b (p + 1);
    r ← lpGet_int (Z.lor (Z.shiftl (Z.land x 0x1f) 8) x1) (Z.shiftl 1 12) 8191 intbuf; Some (r, 3)
  else if LP_ENCODING_IS_16BIT_INT x then
    x1 ← get b (p + 1); x2 ← get b (p + 2);
    r ← lpGet_int (Z.lor x1 (Z.shiftl x2 8)) (Z.shiftl 1 15) 65535 intbuf; Some (r, 4)
  else if LP_ENCODING_IS_24BIT_INT x then
    x1 ← get b (p + 1); x2 ← get b (p + 2); x3 ← get b (p + 3);
    r ← lpGet_int (Z.lor (Z.lor x1 (Z.shiftl x2 8)) (Z.shiftl x3 16)) (Z.shiftl 1 23) (Z.shiftr UINT32_MAX 8) intbuf;
    Some (r, 5)
  else if LP_ENCODING_IS_32BIT_INT x then
    x1 ← get b (p + 1); x2 ← get b (p + 2); x3 ← get b (p + 3); x4 ← get b (p + 4);
    r ← lpGet_int (Z.lor (Z.lor (Z.lor x1 (Z.shiftl x2 8)) (Z.shiftl x3 16)) (Z.shiftl x4 24))
          (Z.shiftl 1 31) UINT32_MAX intbuf;
    Some (r, 6)
  else if LP_ENCODING_IS_64BIT_INT x then
    x1 ← get b (p + 1); x2 ← get b (p + 2); x3 ← get b (p + 3); x4 ← get b (p + 4);
    x5 ← get b (p + 5); x6 ← get b (p + 6); x7 ← get b (p + 7); x8 ← get b (p + 8);
    r ← lpGet_int (Z.lor (Z.lor (Z.lor (Z.lor (Z.lor (Z.lor (Z.lor x1 (Z.shiftl x2 8)) (Z.shiftl x3 16))
            (Z.shiftl x4 24)) (Z.shiftl x5 32)) (Z.shiftl x6 40)) (Z.shiftl x7 48)) (Z.shiftl x8 56))
          (Z.shiftl 1 63) UINT64_MAX intbuf;
    Some (r, 10)
  else if LP_ENCODING_IS_12BIT_STR x then
    count ← LP_ENCODING_12BIT_STR_LEN b p;
    Some (RPtr (p + 2) count, 2 + count + lpEncodeBacklenSize (count + 2))
  else if LP_ENCODING_IS_32BIT_STR x then
    count ← LP_ENCODING_32BIT_STR_LEN b p;
    Some (RPtr (p + 5) count, 5 + count + lpEncodeBacklenSize (count + 5))
  else
    r ← lpGet_int (12345678900000000 + x) UINT64_MAX 0 intbuf; Some (r, entry_size).

Definition lpGet (b : list Z) (p : Z) (intbuf : option (list Z)) : option lpret :=
  '(r, _) ← lpGetWithSize b p intbuf 0; Some r.

(** [*slen] or [*lval]: a length is truncated to [unsigned int]. *)
Definition lpGetValue (b : list Z) (p : Z) : option lpret :=
  r ← lpGet b p None;
  Some (match r with RPtr ptr n => RPtr ptr (u32 n) | r => r end).

Definition lpCompare (b : list Z) (p : Z) (s : list Z) : option bool :=
  let slen := Z.of_nat (length s) in
  x ← get b p;
  if x =? LP_EOF then Some false else
  r ← lpGet b p None;
  match r with
  | RPtr ptr sz => if slen =? sz then v ← slice b ptr slen; Some (bool_decide (v = s)) else Some false
  | RInt sz => Some (match lpStringToInt64 s with Some sval => sz =? sval | None => false end)
  | RBuf _ _ => None
  end.

(** The cached result of parsing the searched string: [vencoding] 0, 1 with [vll], or [UCHAR_MAX]. *)
Inductive vencoding := VUnknown | VInt (vll : Z) | VString.

Definition lpFind_encode (s : list Z) (ve : vencoding) : vencoding :=
  match ve with
  | VUnknown =>
    let slen := Z.of_nat (length s) in
    if (slen >=? 32) || (slen =? 0) then VString
    else match lpStringToInt64 s with Some vll => VInt vll | None => VString end
  | _ => ve
  end.

(** What follows the comparison or the skip of an element: the bounds check on the new [p]. *)
Definition lpFind_check (b : list Z) (lp_bytes p : Z) : option unit :=
  if p + 8 >=? lp_bytes then lpAssertValidEntry b lp_bytes p
  else assert_ ((LP_HDR_SIZE <=? p) && (p <? lp_bytes)).

(** Whether the element at [p] equals [s]; with the new [vencoding] and [entry_size]. *)
Definition lpFind_compare (b : list Z) (lp_bytes : Z) (s : list Z) (p : Z) (ve : vencoding) (entry_size : Z) :
    option (bool * vencoding * Z) :=
  '(value, entry_size) ← lpGetWithSize b p None entry_size;
  match value with
  | RPtr ptr ll =>
    _ ← assert_ ((LP_HDR_SIZE <=? p) && (p + entry_size <? lp_bytes));
    eq ← (if Z.of_nat (length s) =? ll
          then v ← slice b ptr ll; Some (bool_decide (v = s)) else Some false);
    Some (eq, ve, entry_size)
  | RInt ll =>
    let ve := lpFind_encode s ve in
    Some (match ve with VInt vll => ll =? vll | _ => false end, ve, entry_size)
  | RBuf _ _ => None
  end.

Fixpoint lpFind_loop (fuel : nat) (b : list Z) (lp_bytes : Z) (s : list Z) (skip : Z)
    (p skipcnt : Z) (ve : vencoding) (entry_size : Z) : option (option Z) :=
  match fuel with
  | O => None
  | S fuel =>
    if skipcnt =? 0 then
      '(eq, ve, entry_size) ← lpFind_compare b lp_bytes s p ve entry_size;
      if eq : bool then Some (Some p) else
      let p := p + entry_size in
      _ ← lpFind_check b lp_bytes p;
      x ← get b p;
      if x =? LP_EOF then Some None else lpFind_loop fuel b lp_bytes s skip p (s32 skip) ve entry_size
    else
      p ← lpSkip b p;
      _ ← lpFind_check b lp_bytes p;
      x ← get b p;
      if x =? LP_EOF then Some None else lpFind_loop fuel b lp_bytes s skip p (s32 (skipcnt - 1)) ve entry_size
  end.

Definition lpFind (b : list Z) (p : Z) (s : list Z) (skip : Z) : option (option Z) :=
  lp_bytes ← lpBytes b;
  lpFind_loop (S (length b)) b lp_bytes s skip p 0 VUnknown 123456789.

(** ** Modification *)

Inductive lpwhere := LP_BEFORE | LP_AFTER | LP_REPLACE.

(** The arguments [elestr], [eleint] and [size] of [lpInsert]: a string, an
    already encoded integer, or neither (a deletion). *)
Inductive lpele :=
| EleStr (elestr : list Z)
| EleInt (eleint : list Z)
| EleNone.

Section Alloc.
Context (undef : nat -> Z) (alloc : Z -> Z).

Definition lp_malloc (n : Z) : list Z := realloc undef [] (alloc n).
Definition lp_realloc (b : list Z) (n : Z) : list Z := realloc undef b (alloc n).
Definition lp_malloc_size (b : list Z) : Z := Z.of_nat (length b).

Definition lpNew (capacity : Z) : option (list Z) :=
  let b := lp_malloc (if capacity >? LP_HDR_SIZE + 1 then capacity else LP_HDR_SIZE + 1) in
  b ← lpSetTotalBytes b (LP_HDR_SIZE + 1);
  b ← lpSetNumElements b 0;
  put b LP_HDR_SIZE LP_EOF.

Definition lpShrinkToFit (b : list Z) : option (list Z) :=
  size ← lpGetTotalBytes b;
  Some (if size <? lp_malloc_size b then lp_realloc b size else b).

(** Storing the entry at [dst], and the backlen behind it. *)
Definition lpInsert_store (b : list Z) (ele : lpele) (intenc : option (list Z)) (dst enclen : Z) (backlen : list Z) :
    option (list Z) :=
  match ele with
  | EleNone => Some b
  | EleStr elestr =>
    b ← match intenc with Some eleint => blit b dst eleint | None => lpEncodeString b dst elestr end;
    blit b (dst + enclen) backlen
  | EleInt eleint => b ← blit b dst eleint; blit b (dst + enclen) backlen
  end.

(** The update of the element count in the header. *)
Definition lpInsert_count (b : list Z) (delete replace : bool) : option (list Z) :=
  if negb replace || delete then
    num_elements ← lpGetNumElements b;
    if negb (num_elements =? LP_HDR_NUMELE_UNKNOWN) then
      if negb delete then lpSetNumElements b (num_elements + 1) else lpSetNumElements b (u32 (num_elements - 1))
    else Some b
  else Some b.

(** [replaced_len]: the size of the entry to replace. *)
Definition lpInsert_replaced (b : list Z) (p : Z) (replace : bool) : option Z :=
  if replace then
    n ← lpCurrentEncodedSizeUnsafe b p;
    let n := u32 (n + lpEncodeBacklenSize n) in
    _ ← ASSERT_INTEGRITY_LEN b p n;
    Some n
  else Some 0.

(** [p] points to the element to insert before or to replace.  The result is
    [NULL], or the listpack and [*newp]. *)
Definition lpInsert_at (b : list Z) (ele : lpele) (p : Z) (replace : bool) : option (option (list Z * option Z)) :=
  let delete := match ele with EleNone => true | _ => false end in
  let '(intenc, enclen) := match ele with
    | EleStr elestr => lpEncodeGetType elestr
    | EleInt eleint => (Some eleint, Z.of_nat (length eleint))
    | EleNone => (None, 0)
    end in
  let backlen := if delete then [] else lpEncodeBacklen enclen in
  let backlen_size := if delete then 0 else lpEncodeBacklenSize enclen in
  old_listpack_bytes ← lpGetTotalBytes b;
  replaced_len ← lpInsert_replaced b p replace;
  let new_listpack_bytes := u64 (old_listpack_bytes + enclen + backlen_size - replaced_len) in
  if new_listpack_bytes >? UINT32_MAX then Some None else
  let b := if (new_listpack_bytes >? old_listpack_bytes) && (new_listpack_bytes >? lp_malloc_size b)
           then lp_realloc b new_listpack_bytes else b in
  b ← (if negb replace
       then memmove b (p + enclen + backlen_size) p (old_listpack_bytes - p)
       else memmove b (p + enclen + backlen_size) (p + replaced_len) (old_listpack_bytes - p - replaced_len));
  let b := if new_listpack_bytes <? old_listpack_bytes then lp_realloc b new_listpack_bytes else b in
  x ← get b p;
  let newp := if delete && (x =? LP_EOF) then None else Some p in
  b ← lpInsert_store b ele intenc p enclen backlen;
  b ← lpInsert_count b delete replace;
  b ← lpSetTotalBytes b new_listpack_bytes;
  Some (Some (b, newp)).

Definition lpInsert (b : list Z) (ele : lpele) (p : Z) (where_ : lpwhere) : option (option (list Z * option Z)) :=
  match ele, where_ with
  | EleNone, _ | _, LP_REPLACE => lpInsert_at b ele p true
  | _, LP_BEFORE => lpInsert_at b ele p false
  | _, LP_AFTER =>
    p ← lpSkip b p;
    _ ← ASSERT_INTEGRITY b p;
    lpInsert_at b ele p false
  end.

Definition lpInsertString (b s : list Z) (p : Z) (where_ : lpwhere) := lpInsert b (EleStr s) p where_.
Definition lpInsertInteger (b : list Z) (lval p : Z) (where_ : lpwhere) :=
  lpInsert b (EleInt (lpEncodeIntegerGetType lval)) p where_.

(** The wrappers that pass no [newp]. *)
Definition drop_newp (r : option (option (list Z * option Z))) : option (option (list Z)) :=
  match r with Some (Some (b, _)) => Some (Some b) | Some None => Some None | None => None end.

Definition lpAppend (b ele : list Z) : option (option (list Z)) :=
  listpack_bytes ← lpGetTotalBytes b;
  drop_newp (lpInsert b (EleStr ele) (listpack_bytes - 1) LP_BEFORE).
Definition lpAppendInteger (b : list Z) (lval : Z) : option (option (list Z)) :=
  listpack_bytes ← lpGetTotalBytes b;
  drop_newp (lpInsertInteger b lval (listpack_bytes - 1) LP_BEFORE).

Definition lpPrepend (b s : list Z) : option (option (list Z)) :=
  p ← lpFirst b;
  match p with
  | None => lpAppend b s
  | Some p => drop_newp (lpInsert b (EleStr s) p LP_BEFORE)
  end.
Definition lpPrependInteger (b : list Z) (lval : Z) : option (option (list Z)) :=
  p ← lpFirst b;
  match p with
  | None => lpAppendInteger b lval
  | Some p => drop_newp (lpInsertInteger b lval p LP_BEFORE)
  end.

Definition lpReplace (b : list Z) (p : Z) (s : list Z) := lpInsert b (EleStr s) p LP_REPLACE.
Definition lpReplaceInteger (b : list Z) (p lval : Z) := lpInsertInteger b lval p LP_REPLACE.
Definition lpDelete (b : list Z) (p : Z) := lpInsert b EleNone p LP_REPLACE.

(** The [while (num--)] loop: the end of the deleted range and [deleted]. *)
Fixpoint delete_range_loop (fuel : nat) (b : list Z) (bytes num tail deleted : Z) : option (Z * Z) :=
  match fuel with
  | O => None
  | S fuel =>
    if num =? 0 then Some (tail, deleted) else
    let deleted := deleted + 1 in
    tail ← lpSkip b tail;
    x ← get b tail;
    if x =? LP_EOF then Some (tail, deleted) else
    _ ← lpAssertValidEntry b bytes tail;
    delete_range_loop fuel b bytes (num - 1) tail deleted
  end.

(** The end of a deletion: the new size, the new count and the shrinking of the block. *)
Definition lpShorten (b : list Z) (total deleted : Z) : option (list Z) :=
  b ← lpSetTotalBytes b total;
  numele ← lpGetNumElements b;
  b ← (if negb (numele =? LP_HDR_NUMELE_UNKNOWN) then lpSetNumElements b (u64 (numele - deleted)) else Some b);
  lpShrinkToFit b.

(** The new listpack and the new [*p]. *)
Definition lpDeleteRangeWithEntry (b : list Z) (p num : Z) : option (list Z * option Z) :=
  bytes ← lpBytes b;
  let eofptr := bytes - 1 in
  let first := p in
  if num =? 0 then Some (b, Some p) else
  '(tail, deleted) ← delete_range_loop (S (length b)) b bytes num first 0;
  b ← memmove b first tail (eofptr - tail + 1);
  b ← lpShorten b (bytes - (tail - first)) deleted;
  x ← get b first;
  Some (b, if x =? LP_EOF then None else Some first).

Definition lpDeleteRange (b : list Z) (index num : Z) : option (list Z) :=
  numele ← lpGetNumElements b;
  if num =? 0 then Some b else
  p ← lpSeek b index;
  match p with
  | None => Some b
  | Some p =>
    let known := negb (numele =? LP_HDR_NUMELE_UNKNOWN) in
    let index := if known && (index <? 0) then numele + index else index in
    if known && (u64 (numele - index) <=? num) then
      b ← put b p LP_EOF;
      b ← lpSetTotalBytes b (p + 1);
      b ← lpSetNumElements b index;
      lpShrinkToFit b
    else '(b, _) ← lpDeleteRangeWithEntry b p num; Some b
  end.

(** The loop over the pointers [ps], the first being [ps[i]]. *)
Fixpoint batch_delete_loop (b : list Z) (lp_end dst : Z) (ps : list Z) : option (list Z * Z) :=
  match ps with
  | [] => Some (b, dst)
  | skip :: ps =>
    x ← get b skip;
    _ ← assert_ (negb (x =? LP_EOF));
    keep_start ← lpSkip b skip;
    match ps with
    | keep_end :: _ =>
      if keep_start =? keep_end then batch_delete_loop b lp_end dst ps else
      _ ← assert_ (keep_end >? keep_start);
      b ← memmove b dst keep_start (keep_end - keep_start);
      batch_delete_loop b lp_end (dst + (keep_end - keep_start)) ps
    | [] =>
      _ ← assert_ (lp_end >? keep_start);
      b ← memmove b dst keep_start (lp_end - keep_start);
      Some (b, dst + (lp_end - keep_start))
    end
  end.

Definition lpBatchDelete (b : list Z) (ps : list Z) : option (list Z) :=
  match ps with
  | [] => Some b
  | dst :: _ =>
    total_bytes ← lpGetTotalBytes b;
    let lp_end := total_bytes in
    x ← get b (lp_end - 1);
    _ ← assert_ (x =? LP_EOF);
    '(b, dst) ← batch_delete_loop b lp_end dst ps;
    let total_bytes := u64 (total_bytes - (lp_end - dst)) in
    x ← get b (total_bytes - 1);
    _ ← assert_ (x =? LP_EOF);
    lpShorten b total_bytes (Z.of_nat (length ps))
  end.

(** Merging two distinct listpacks.  The result and whether it is kept in
    [*first] ([*second] being freed), or the other way around. *)
Definition lpMerge (first second : list Z) : option (list Z * bool) :=
  first_bytes ← lpBytes first;
  '(first, first_len) ← lpLength first;
  second_bytes ← lpBytes second;
  '(second, second_len) ← lpLength second;
  let append := first_bytes >=? second_bytes in
  let '(target, target_bytes, source, source_bytes) :=
    if append then (first, first_bytes, second, second_bytes) else (second, second_bytes, first, first_bytes) in
  let lpbytes := u64 (first_bytes + second_bytes - LP_HDR_SIZE - 1) in
  _ ← assert_ (lpbytes <? UINT32_MAX);
  let lplength := first_len + second_len in
  let lplength := if lplength <? 65535 then lplength else 65535 in
  let target := lp_realloc target lpbytes in
  target ← (if append then
      s ← slice source LP_HDR_SIZE (source_bytes - LP_HDR_SIZE);
      blit target (target_bytes - 1) s
    else
      target ← memmove target (source_bytes - 1) LP_HDR_SIZE (target_bytes - LP_HDR_SIZE);
      s ← slice source 0 (source_bytes - 1);
      blit target 0 s);
  target ← lpSetNumElements target lplength;
  target ← lpSetTotalBytes target lpbytes;
  Some (target, append).

Definition lpDup (b : list Z) : option (list Z) :=
  lpbytes ← lpBytes b;
  s ← slice b 0 lpbytes;
  blit (lp_malloc lpbytes) 0 s.
End Alloc.

Definition lpEstimateBytesRepeatedInteger (lval rep : Z) : Z :=
  let enclen := Z.of_nat (length (lpEncodeIntegerGetType lval)) in
  let backlen := lpEncodeBacklenSize enclen in
  u64 (LP_HDR_SIZE + (enclen + backlen) * rep + 1).

(** ** Integrity *)

(** The optional callback, with its user data of type [U]. *)
Section Validate.
Context {U : Type} (entry_cb : option (U -> Z -> Z -> bool * U)).

Fixpoint validate_loop (fuel : nat) (b : list Z) (bytes numele : Z) (p : option Z) (count : Z) (u : U) :
    option (option (option Z * Z)) :=
  match fuel with
  | O => None
  | S fuel =>
    match p with
    | None => Some (Some (None, count))
    | Some p0 =>
      x ← get b p0;
      if x =? LP_EOF then Some (Some (Some p0, count)) else
      '(ok, p) ← lpValidateNext b (Some p0) bytes;
      if negb ok then Some None else
      let '(ok, u) := match entry_cb with Some cb => cb u p0 numele | None => (true, u) end in
      if negb ok then Some None else
      validate_loop fuel b bytes numele p (u32 (count + 1)) u
    end
  end.

Definition lpValidateIntegrity (b : list Z) (size : Z) (deep : bool) (u : U) : option bool :=
  if size <? LP_HDR_SIZE + 1 then Some false else
  bytes ← lpGetTotalBytes b;
  if negb (bytes =? size) then Some false else
  x ← get b (size - 1);
  if negb (x =? LP_EOF) then Some false else
  if negb deep then Some true else
  numele ← lpGetNumElements b;
  r ← validate_loop (S (length b)) b bytes numele (Some LP_HDR_SIZE) 0 u;
  match r with
  | None => Some false
  | Some (p, count) =>
    if negb (bool_decide (p = Some (size - 1))) then Some false else
    if negb (numele =? LP_HDR_NUMELE_UNKNOWN) && negb (numele =? count) then Some false else
    Some true
  end.
End Validate.

(** [r] is the result of [rand()]; the key and, when asked for, the value. *)
Definition lpRandomPair (b : list Z) (total_count : Z) (r : Z) (want_val : bool) : option (lpret * option lpret) :=
  _ ← assert_ (negb (total_count =? 0));
  let r := s32 (r mod total_count * 2) in
  p ← lpSeek b r;
  p ← p;
  key ← lpGetValue b p;
  if negb want_val then Some (key, None) else
  p ← lpNext b p;
  p ← p;
  val ← lpGetValue b p;
  Some (key, Some val).
