(* ===== verification/ListpackCodec.v ===== *)
(** * ListpackCodec: the encodings of listpack elements

    Lemmas on the header fields, the integer and string encodings and the
    reverse-encoded length of listpack.c.  The [body] of an element is its
    encoding without the backlen; [body_ok] says that the encoding byte is
    valid and announces the right length.  Decoding an encoded integer or string
    gives it back. *)

From Stdlib Require Import ZArith Lia ZifyBool.
From stdpp Require Import base gmap numbers option list.
From S2P Require Import Prelude Numstr Listpack.

Local Open Scope Z_scope.

(** ** Bit operations as arithmetic *)

Lemma lor_128 a : 0 <= a < 128 -> Z.lor a 128 = a + 128.
Proof. intros. by apply (lor_shiftl a 1 7). Qed.

Lemma wrap_mod_u8 a : u8 (a mod 256) = a mod 256.
Proof. apply wrap_id. apply Z.mod_pos_bound. lia. Qed.

(** A property of bytes that holds by enumeration. *)
Lemma byte_forall (P : Z -> bool) : forallb P (Z.of_nat <$> seq 0 256) = true -> forall x, byteZ x -> P x = true.
Proof.
  intros H x [H0 H1]. rewrite forallb_forall in H. apply H. apply list_elem_of_In, list_elem_of_fmap.
  exists (Z.to_nat x). split; [lia|]. apply elem_of_seq. lia.
Qed.

Lemma enc_classes x : byteZ x ->
  LP_ENCODING_IS_7BIT_UINT x = (x <? 128) /\
  LP_ENCODING_IS_6BIT_STR x = (128 <=? x) && (x <? 192) /\
  LP_ENCODING_IS_13BIT_INT x = (192 <=? x) && (x <? 224) /\
  LP_ENCODING_IS_12BIT_STR x = (224 <=? x) && (x <? 240) /\
  LP_ENCODING_IS_16BIT_INT x = (x =? 241) /\ LP_ENCODING_IS_24BIT_INT x = (x =? 242) /\
  LP_ENCODING_IS_32BIT_INT x = (x =? 243) /\ LP_ENCODING_IS_64BIT_INT x = (x =? 244) /\
  LP_ENCODING_IS_32BIT_STR x = (x =? 240).
Proof.
  intros Hx. repeat split; apply eqb_prop; revert x Hx; by apply byte_forall.
Qed.

(** ** Reads and writes in a longer block *)

Lemma get_lt b i x : get b i = Some x -> 0 <= i < Z.of_nat (length b).
Proof. unfold get. case_zb; [|done]. intros Hl%lookup_lt_Some. lia. Qed.

Lemma get_mid A e B i x : get e i = Some x -> get (A ++ e ++ B) (Z.of_nat (length A) + i) = Some x.
Proof.
  intros H. pose proof (get_lt _ _ _ H). unfold get in *. zb. revert H. zb. intros H.
  replace (Z.to_nat (Z.of_nat (length A) + i)) with (length A + Z.to_nat i)%nat by lia.
  rewrite lookup_app_r by lia. rewrite Nat.add_comm, Nat.add_sub. by apply lookup_app_l_Some.
Qed.

Lemma get_is_Some b i : 0 <= i < Z.of_nat (length b) -> exists x, get b i = Some x.
Proof. intros. unfold get. zb. apply lookup_lt_is_Some. lia. Qed.

Lemma get_byte b i x : Forall byteZ b -> get b i = Some x -> byteZ x.
Proof. unfold get. case_zb; [|done]. intros HF Hx. by eapply Forall_lookup_1. Qed.

Lemma get_app_r b S i x : get b i = Some x -> get (b ++ S) i = Some x.
Proof. intros H. apply (get_mid [] b S i x H). Qed.

Lemma slice_mid A e B i n s : slice e i n = Some s -> slice (A ++ e ++ B) (Z.of_nat (length A) + i) n = Some s.
Proof.
  unfold slice. destruct (_ && _) eqn:E; [|done]. intros [= <-].
  rewrite !length_app. zb. f_equal. replace (Z.to_nat (Z.of_nat (length A) + i)) with (length A + Z.to_nat i)%nat by lia.
  rewrite <- drop_drop, drop_app_length, drop_app_le by lia. apply take_app_le. rewrite length_drop. lia.
Qed.

Lemma slice_tail p s i n : i = Z.of_nat (length p) -> n = Z.of_nat (length s) -> slice (p ++ s) i n = Some s.
Proof. intros. rewrite <- (app_nil_r s) at 1. by apply slice_app. Qed.

(** ** The header *)

Lemma get32_le A v B : in_u 32 v -> get32 (A ++ le_bytes 4 v ++ B) (Z.of_nat (length A)) = Some v.
Proof.
  intros Hv. unfold get32. cbn [le_bytes app].
  pose proof (Z.mod_pos_bound v 256). pose proof (Z.mod_pos_bound (v / 256) 256).
  pose proof (Z.mod_pos_bound (v / 256 / 256) 256). pose proof (Z.mod_pos_bound (v / 256 / 256 / 256) 256).
  set (e := [v mod 256; v / 256 mod 256; v / 256 / 256 mod 256; v / 256 / 256 / 256 mod 256]).
  change (v mod 256 :: _) with (e ++ B).
  pose proof (get_mid A e B 0 _ eq_refl) as E0. rewrite Z.add_0_r in E0.
  rewrite E0, (get_mid A e B 1 _ eq_refl), (get_mid A e B 2 _ eq_refl), (get_mid A e B 3 _ eq_refl). cbn [mbind option_bind].
  f_equal. rewrite (lor_shiftl _ _ 8) by (unfold in_u; lia).
  rewrite (lor_shiftl _ _ 16) by (unfold in_u; lia). rewrite (lor_shiftl _ _ 24) by (unfold in_u; lia).
  unfold in_u in Hv. Z.div_mod_to_equations. lia.
Qed.

Lemma lp_get_total t n rest : in_u 32 t -> lpGetTotalBytes (le_bytes 4 t ++ le_bytes 2 n ++ rest) = Some t.
Proof. apply (get32_le []). Qed.

Lemma get_numele t n rest : in_u 16 n -> lpGetNumElements (le_bytes 4 t ++ le_bytes 2 n ++ rest) = Some n.
Proof.
  intros Hn. unfold lpGetNumElements. cbn [le_bytes app get mbind option_bind].
  change (Some (Z.lor (n mod 256) (Z.shiftl (n / 256 mod 256) 8)) = Some n). f_equal.
  pose proof (Z.mod_pos_bound n 256). rewrite lor_shiftl by (unfold in_u; lia). unfold in_u in Hn. Z.div_mod_to_equations. lia.
Qed.

Lemma put_0 x q y : put (x :: q) 0 y = Some (u8 y :: q).
Proof. by apply (put_app [] x). Qed.

Lemma put_cons x q i y : 0 < i -> put (x :: q) i y = cons x <$> put q (i - 1) y.
Proof.
  intros Hi. unfold put, blit. cbn [length]. destruct (Z.leb_spec (i - 1 + Z.of_nat 1) (Z.of_nat (length q))); zb; [|done].
  cbn [fmap option_fmap option_map]. f_equal. replace (Z.to_nat i) with (S (Z.to_nat (i - 1))) by lia. done.
Qed.

Ltac put_steps := repeat (progress (repeat (rewrite put_cons by lia; cbn [Z.sub Z.add Z.opp Z.pos_sub Pos.pred_double]);
  rewrite ?put_0; cbn [fmap option_fmap option_map mbind option_bind])).

Lemma set_total t n rest v : lpSetTotalBytes (le_bytes 4 t ++ le_bytes 2 n ++ rest) v = Some (le_bytes 4 v ++ le_bytes 2 n ++ rest).
Proof.
  unfold lpSetTotalBytes. cbn [le_bytes app]. rewrite !land_255, !Z.shiftr_div_pow2 by lia.
  put_steps. rewrite !wrap_mod_u8.
  rewrite !Z.div_div by lia. done.
Qed.

Lemma set_numele t n rest v : lpSetNumElements (le_bytes 4 t ++ le_bytes 2 n ++ rest) v = Some (le_bytes 4 t ++ le_bytes 2 v ++ rest).
Proof.
  unfold lpSetNumElements. cbn [le_bytes app]. rewrite !land_255, !Z.shiftr_div_pow2 by lia.
  put_steps. by rewrite !wrap_mod_u8.
Qed.

(** ** The backlen *)

Lemma length_backlen l : Z.of_nat (length (lpEncodeBacklen l)) = lpEncodeBacklenSize l.
Proof. unfold lpEncodeBacklen, lpEncodeBacklenSize. by repeat case_zb. Qed.

Lemma backlen_size_range l : 1 <= lpEncodeBacklenSize l <= 5.
Proof. unfold lpEncodeBacklenSize. repeat case_zb; lia. Qed.

Lemma backlen_last b p val shift x : get b p = Some x -> 0 <= x < 128 -> 0 <= shift -> in_u shift val ->
  forall fuel, lpDecodeBacklen_loop (S fuel) b p val shift = Some (val + x * 2 ^ shift).
Proof.
  intros Hg Hx Hs Hv fuel. cbn [lpDecodeBacklen_loop]. rewrite Hg. cbn [mbind option_bind].
  assert (Z.land x 128 = 0) as ->.
  { pose proof (byte_forall (fun x => negb (x <? 128) || (Z.land x 128 =? 0)) eq_refl x ltac:(unfold byteZ; lia)) as HB.
    revert HB. zb. lia. }
  cbn [Z.eqb]. rewrite land_127, (Z.mod_small x) by lia. f_equal. by apply lor_shiftl.
Qed.

Lemma backlen_more b p val shift c : get b p = Some (c + 128) -> 0 <= c < 128 -> 0 <= shift <= 21 -> in_u shift val ->
  forall fuel, lpDecodeBacklen_loop (S fuel) b p val shift = lpDecodeBacklen_loop fuel b (p - 1) (val + c * 2 ^ shift) (shift + 7).
Proof.
  intros Hg Hx Hs Hv fuel. cbn [lpDecodeBacklen_loop]. rewrite Hg. cbn [mbind option_bind].
  assert (Z.land (c + 128) 128 = 128) as ->.
  { pose proof (byte_forall (fun x => (x <? 128) || (Z.land x 128 =? 128)) eq_refl (c + 128) ltac:(unfold byteZ; lia)) as HB.
    revert HB. zb. lia. }
  cbn [Z.eqb]. rewrite Z.gtb_ltb. zb. f_equal. rewrite land_127.
  replace ((c + 128) mod 128) with c by (Z.div_mod_to_equations; lia). apply lor_shiftl; [lia|done].
Qed.

(** The encoding with [k + 1] bytes: groups of seven bits, the least significant last. *)
Fixpoint back_bytes (k : nat) (l : Z) : list Z :=
  match k with O => [l] | S k => back_bytes k (l / 128) ++ [l mod 128 + 128] end.

Lemma length_back_bytes k l : length (back_bytes k l) = S k.
Proof. revert l. induction k; intros; cbn [back_bytes]; [done|]. rewrite length_app, IHk. simpl. lia. Qed.

Lemma backlen_bytes l : 0 <= l < 2 ^ 35 ->
  exists k, lpEncodeBacklen l = back_bytes k l /\ (k <= 4)%nat /\ 0 <= l < 128 ^ Z.of_nat (S k).
Proof.
  intros Hl. unfold lpEncodeBacklen. rewrite !land_127, !Z.shiftr_div_pow2 by lia.
  rewrite !lor_128 by (apply Z.mod_pos_bound; lia).
  destruct (Z.leb_spec l 127); [exists 0%nat|destruct (Z.ltb_spec l 16383); [exists 1%nat|
    destruct (Z.ltb_spec l 2097151); [exists 2%nat|destruct (Z.ltb_spec l 268435455); [exists 3%nat|exists 4%nat]]]];
  cbn [back_bytes app]; rewrite ?Z.div_div by lia; rewrite wrap_id by (unfold in_u; Z.div_mod_to_equations; lia);
  (split; [done|split; [lia|simpl; lia]]).
Qed.

Lemma decode_back_bytes k : forall l A B fuel val shift, 0 <= l < 128 ^ Z.of_nat (S k) -> 0 <= shift ->
  shift + 7 * Z.of_nat k <= 28 -> in_u shift val -> (k < fuel)%nat ->
  lpDecodeBacklen_loop fuel (A ++ back_bytes k l ++ B) (Z.of_nat (length A) + Z.of_nat k) val shift = Some (val + l * 2 ^ shift).
Proof.
  induction k as [|k IH]; intros l A B fuel val shift Hl Hs Hk Hv Hf; (destruct fuel as [|fuel]; [lia|]); cbn [back_bytes].
  - apply backlen_last; [by apply (get_mid A [l] B 0)|simpl in Hl; lia|done|done].
  - rewrite <- app_assoc.
    rewrite (backlen_more _ _ val shift (l mod 128)); [|..|done].
    + replace (Z.of_nat (length A) + Z.of_nat (S k) - 1) with (Z.of_nat (length A) + Z.of_nat k) by lia.
      rewrite IH; [f_equal|..|lia].
      * rewrite Z.pow_add_r by lia. change (2 ^ 7) with 128. rewrite (Z.div_mod l 128) at 3 by lia. ring.
      * rewrite (Nat2Z.inj_succ (S k)), Z.pow_succ_r in Hl by lia. Z.div_mod_to_equations. nia.
      * lia.
      * lia.
      * pose proof (Z.mod_pos_bound l 128). unfold in_u in *. rewrite Z.pow_add_r by lia. nia.
    + rewrite app_assoc. apply get_app. rewrite length_app, length_back_bytes. lia.
    + apply Z.mod_pos_bound. lia.
    + lia.
Qed.

Lemma decode_backlen A l B : 0 <= l < 2 ^ 35 ->
  lpDecodeBacklen (A ++ lpEncodeBacklen l ++ B) (Z.of_nat (length A) + lpEncodeBacklenSize l - 1) = Some l.
Proof.
  intros Hl. rewrite <- length_backlen. destruct (backlen_bytes l Hl) as (k & -> & Hk & Hlk).
  rewrite length_back_bytes. replace (Z.of_nat (length A) + Z.of_nat (S k) - 1) with (Z.of_nat (length A) + Z.of_nat k) by lia.
  unfold lpDecodeBacklen. rewrite decode_back_bytes; [f_equal; lia|done|lia|lia|done|lia].
Qed.

Lemma backlen_byte l : 0 <= l < 2 ^ 35 -> Forall byteZ (lpEncodeBacklen l).
Proof.
  intros Hl. unfold lpEncodeBacklen. rewrite !land_127, !Z.shiftr_div_pow2 by lia.
  rewrite !lor_128 by (apply Z.mod_pos_bound; lia).
  repeat case_zb; repeat constructor; try apply wrap_range; try lia; Z.div_mod_to_equations; lia.
Qed.

(** ** The format of elements *)

Inductive lpval := ValInt (v : Z) | ValStr (s : list Z).

(** [enc e v]: the bytes [e] are a valid encoding, not necessarily the
    shortest, of the value [v]. *)
Inductive enc : list Z -> lpval -> Prop :=
| enc_7bit_uint x : 0 <= x < 128 -> enc [x] (ValInt x)
| enc_13bit_int h y : 0 <= h < 32 -> byteZ y -> enc [192 + h; y] (ValInt (swrap 13 (y + 256 * h)))
| enc_int c n bs : In (c, n) [(241, 2%nat); (242, 3%nat); (243, 4%nat); (244, 8%nat)] -> Forall byteZ bs -> length bs = n ->
    enc (c :: bs) (ValInt (swrap (8 * Z.of_nat n) (le_val bs)))
| enc_6bit_str s : Forall byteZ s -> Z.of_nat (length s) < 64 -> enc (128 + Z.of_nat (length s) :: s) (ValStr s)
| enc_12bit_str s : Forall byteZ s -> Z.of_nat (length s) < 4096 ->
    enc (224 + Z.of_nat (length s) / 256 :: Z.of_nat (length s) mod 256 :: s) (ValStr s)
| enc_32bit_str s : Forall byteZ s -> Z.of_nat (length s) + 5 < 2 ^ 32 ->
    enc (240 :: le_bytes 4 (Z.of_nat (length s)) ++ s) (ValStr s).

Lemma enc_bytes e v : enc e v -> Forall byteZ e.
Proof.
  destruct 1 as [| |c n bs Hin| | |]; (apply Forall_cons; split); auto; try (unfold byteZ in *; lia).
  - simpl in Hin. unfold byteZ. intuition; simplify_eq; lia.
  - unfold byteZ. Z.div_mod_to_equations. lia.
  - apply Forall_cons. split; [|done]. apply Z.mod_pos_bound. lia.
  - apply Forall_app. split; [apply le_bytes_byte|done].
Qed.

Lemma enc_head e v : enc e v -> exists x t, e = x :: t /\ 0 <= x < 245.
Proof.
  destruct 1 as [| |c n bs Hin| | |]; do 2 eexists; (split; [reflexivity|]); try lia.
  - simpl in Hin. intuition; simplify_eq; lia.
  - Z.div_mod_to_equations. lia.
Qed.

Lemma enc_length e v : enc e v -> 1 <= Z.of_nat (length e) < 2 ^ 32.
Proof.
  destruct 1 as [| |c n bs Hin| | |]; cbn [length]; rewrite ?length_app, ?length_le_bytes; try lia.
  simpl in Hin. intuition; simplify_eq; lia.
Qed.

(** Reading bytes of an element inside a block. *)
Lemma get_head A e B x : get e 0 = Some x -> get (A ++ e ++ B) (Z.of_nat (length A)) = Some x.
Proof. intros H. rewrite <- (Z.add_0_r (Z.of_nat (length A))). by apply get_mid. Qed.

Ltac enc_tests x := let H := fresh in pose proof (enc_classes x) as H; destruct H as (-> & -> & -> & -> & -> & -> & -> & -> & ->);
  [unfold byteZ in *; try lia|].

Lemma str6_len A s B : Z.of_nat (length s) < 64 ->
  LP_ENCODING_6BIT_STR_LEN (A ++ (128 + Z.of_nat (length s) :: s) ++ B) (Z.of_nat (length A)) = Some (Z.of_nat (length s)).
Proof.
  intros. unfold LP_ENCODING_6BIT_STR_LEN. rewrite (get_head A (_ :: s) B _ eq_refl). cbn [mbind option_bind].
  f_equal. rewrite (land_ones_mod _ 6) by done. Z.div_mod_to_equations. lia.
Qed.

Lemma str12_len A s B : Z.of_nat (length s) < 4096 ->
  LP_ENCODING_12BIT_STR_LEN (A ++ (224 + Z.of_nat (length s) / 256 :: Z.of_nat (length s) mod 256 :: s) ++ B) (Z.of_nat (length A)) =
  Some (Z.of_nat (length s)).
Proof.
  intros. unfold LP_ENCODING_12BIT_STR_LEN. rewrite (get_head A (_ :: _ :: s) B _ eq_refl), (get_mid A (_ :: _ :: s) B 1 _ eq_refl).
  cbn [mbind option_bind]. f_equal. rewrite (land_ones_mod _ 4) by done. pose proof (Z.mod_pos_bound (Z.of_nat (length s)) 256).
  rewrite shiftl_lor by (unfold in_u; lia). Z.div_mod_to_equations. lia.
Qed.

Lemma str32_len A s B : Z.of_nat (length s) < 2 ^ 32 ->
  LP_ENCODING_32BIT_STR_LEN (A ++ (240 :: le_bytes 4 (Z.of_nat (length s)) ++ s) ++ B) (Z.of_nat (length A)) = Some (Z.of_nat (length s)).
Proof.
  intros. unfold LP_ENCODING_32BIT_STR_LEN.
  replace (A ++ _ ++ B) with ((A ++ [240]) ++ le_bytes 4 (Z.of_nat (length s)) ++ (s ++ B)) by (by rewrite <- !app_assoc).
  replace (Z.of_nat (length A) + 1) with (Z.of_nat (length (A ++ [240]))) by (rewrite length_app; simpl; lia).
  apply get32_le. unfold in_u. lia.
Qed.

Lemma str12_class n : 0 <= n < 4096 -> 0 <= n / 256 < 16.
Proof. intros. Z.div_mod_to_equations. lia. Qed.

(** Case analysis on an element: the tests on its first byte become comparisons. *)
Ltac enc_case A e B v He :=
  let x := fresh "x" in let t := fresh "t" in let E := fresh "E" in let Hx := fresh "Hx" in
  destruct (enc_head e v He) as (x & t & E & Hx);
  rewrite (get_head A e B x) by (by rewrite E); cbn [mbind option_bind]; enc_tests x;
  destruct He as [?y|?h ?y|?c ?n ?bs ?Hin|?s|?s ?Hs ?Hl|?s]; injection E as <- <-;
  try (pose proof (str12_class _ (conj (Nat2Z.is_nonneg _) Hl))).

Lemma size_enc A e B v : enc e v -> lpCurrentEncodedSizeUnsafe (A ++ e ++ B) (Z.of_nat (length A)) = Some (Z.of_nat (length e)).
Proof.
  intros He. unfold lpCurrentEncodedSizeUnsafe. enc_case A e B v He; cbn [length]; try (zb; done).
  - simpl in Hin. intuition; simplify_eq; by match goal with E : _ = length bs |- _ => rewrite <- E end.
  - zb. rewrite str6_len by done. cbn [mbind option_bind]. f_equal. lia.
  - zb. rewrite str12_len by done. cbn [mbind option_bind]. f_equal. lia.
  - zb. rewrite str32_len by lia. cbn [mbind option_bind]. rewrite wrap_id by (unfold in_u; lia).
    rewrite length_app, length_le_bytes. f_equal. lia.
Qed.

Lemma sizeBytes_enc A e B v : enc e v -> exists k,
  lpCurrentEncodedSizeBytes (A ++ e ++ B) (Z.of_nat (length A)) = Some k /\ 1 <= k <= Z.of_nat (length e).
Proof.
  intros He. unfold lpCurrentEncodedSizeBytes. enc_case A e B v He; cbn [length];
    try (eexists; split; [zb; done|rewrite ?length_app, ?length_le_bytes; lia]).
  simpl in Hin. eexists. split; [|split; [|instantiate (1 := 1); lia]]; [|lia].
  intuition; simplify_eq; done.
Qed.

(** ** Decoding *)

(** What [lpGet] does with an integer. *)
Definition int_ret (intbuf : option (list Z)) (z : Z) : option lpret :=
  match intbuf with
  | Some buf => '(buf, count) ← ll2string buf 0 LP_INTBUF_SIZE z; Some (RBuf buf count)
  | None => Some (RInt z)
  end.

Lemma s64_id z : in_s 64 z -> s64 z = z.
Proof. intros. by apply swrap_id. Qed.

Lemma pow2_64 k : 0 <= k <= 64 -> 2 ^ k <= 2 ^ 64.
Proof. intros. apply Z.pow_le_mono_r; lia. Qed.

Lemma lpGet_int_spec k u intbuf : 0 < k <= 64 -> in_u k u ->
  lpGet_int u (2 ^ (k - 1)) (2 ^ k - 1) intbuf = int_ret intbuf (swrap k u) /\ in_s 64 (swrap k u).
Proof.
  intros Hk Hu. pose proof (pow2_half k). assert (2 ^ (k - 1) <= 2 ^ 63) by (apply Z.pow_le_mono_r; lia).
  unfold in_u in Hu. unfold lpGet_int. rewrite Z.geb_leb.
  assert (swrap k u = if 2 ^ (k - 1) <=? u then u - 2 ^ k else u) as ->.
  { unfold swrap. case_zb; [|rewrite Z.mod_small; lia].
    replace (u + 2 ^ (k - 1)) with (u + 2 ^ (k - 1) - 2 ^ k + 1 * 2 ^ k) by lia.
    rewrite Z.mod_add, Z.mod_small; lia. }
  case_zb; (split; [|unfold in_s; change (2 ^ (64 - 1)) with (2 ^ 63); lia]).
  - rewrite wrap_id by (unfold in_u; lia). rewrite (s64_id (2 ^ k - 1 - u)) by (unfold in_s; change (2 ^ (64 - 1)) with (2 ^ 63); lia).
    rewrite s64_id by (unfold in_s; change (2 ^ (64 - 1)) with (2 ^ 63); lia).
    by replace (- (2 ^ k - 1 - u) - 1) with (u - 2 ^ k) by lia.
  - by rewrite s64_id by (unfold in_s; change (2 ^ (64 - 1)) with (2 ^ 63); lia).
Qed.

(** What [lpGetWithSize] finds at [p] where the element [e] is stored. *)
Definition get_ok (b : list Z) (p : Z) (intbuf : option (list Z)) (n es : Z) (v : lpval) : Prop :=
  match v with
  | ValInt z => in_s 64 z /\ lpGetWithSize b p intbuf es = (r ← int_ret intbuf z; Some (r, n))
  | ValStr s => exists ptr, lpGetWithSize b p intbuf es = Some (RPtr ptr (Z.of_nat (length s)), n) /\
      slice b ptr (Z.of_nat (length s)) = Some s
  end.

Lemma enc_int_size c n : In (c, n) [(241, 2%nat); (242, 3%nat); (243, 4%nat); (244, 8%nat)] ->
  lpEncodeBacklenSize (Z.of_nat (S n)) = 1.
Proof. simpl. intuition; simplify_eq; done. Qed.

Ltac le_gets A B :=
  repeat match goal with |- context [get (A ++ ?e ++ B) (Z.of_nat (length A) + ?i)] => rewrite (get_mid A e B i _ eq_refl) end;
  cbn [mbind option_bind].

Lemma getWithSize_int A c n bs B intbuf es : In (c, n) [(241, 2%nat); (242, 3%nat); (243, 4%nat); (244, 8%nat)] ->
  Forall byteZ bs -> length bs = n ->
  get_ok (A ++ (c :: bs) ++ B) (Z.of_nat (length A)) intbuf (Z.of_nat (S (S n))) es (ValInt (swrap (8 * Z.of_nat n) (le_val bs))).
Proof.
  intros Hin Hb Hn. pose proof (le_val_range bs Hb) as Hr. rewrite Hn, pow256 in Hr by lia.
  destruct (lpGet_int_spec (8 * Z.of_nat n) (le_val bs) intbuf) as [HG HI]; [simpl in Hin; intuition; simplify_eq; lia|exact Hr|].
  split; [done|]. rewrite <- HG. clear HG. unfold lpGetWithSize. rewrite (get_head A (c :: bs) B _ eq_refl). cbn [mbind option_bind].
  clear Hr HI. subst n. simpl in Hin. destruct Hin as [[= <- Hn]|[[= <- Hn]|[[= <- Hn]|[[= <- Hn]|[]]]]];
    repeat (destruct bs as [|? bs]; cbn [length] in Hn; [first [discriminate Hn|idtac]|first [discriminate Hn|idtac]]); le_gets A B;
    rewrite ?lor_le8 by done; rewrite !Forall_cons in Hb; destruct_and?; rewrite ?lor_le4, ?lor_le3, ?lor_le2 by done; reflexivity.
Qed.

Lemma lpGet_int_nonneg u intbuf : 0 <= u < 2 ^ 63 -> lpGet_int u UINT64_MAX 0 intbuf = int_ret intbuf u.
Proof.
  intros. unfold lpGet_int, UINT64_MAX. rewrite Z.geb_leb. zb.
  by rewrite s64_id by (unfold in_s; change (2 ^ (64 - 1)) with (2 ^ 63); lia).
Qed.

(** Reading an element finds its value and the size of its entry. *)
Lemma getWithSize_enc A e B v intbuf es : enc e v ->
  get_ok (A ++ e ++ B) (Z.of_nat (length A)) intbuf (Z.of_nat (length e) + lpEncodeBacklenSize (Z.of_nat (length e))) es v.
Proof.
  intros He. destruct He as [x Hx|h y Hh Hy|c n bs Hin Hbs Hn|s Hs Hl|s Hs Hl|s Hs Hl].
  - split; [unfold in_s; change (2 ^ (64 - 1)) with (2 ^ 63); lia|]. unfold lpGetWithSize. rewrite (get_head A [x] B _ eq_refl).
    cbn [mbind option_bind]. enc_tests x. zb. rewrite land_127, Z.mod_small by lia. by rewrite lpGet_int_nonneg by lia.
  - destruct (lpGet_int_spec 13 (y + 256 * h) intbuf) as [HG HI]; [lia|unfold in_u, byteZ in *; lia|].
    split; [done|]. rewrite <- HG. unfold lpGetWithSize. rewrite (get_head A [192 + h; y] B _ eq_refl).
    cbn [mbind option_bind]. enc_tests (192 + h). zb. le_gets A B. unfold byteZ in Hy.
    rewrite (land_ones_mod _ 5) by done. replace ((192 + h) mod 2 ^ 5) with h by (Z.div_mod_to_equations; lia).
    rewrite shiftl_lor by (unfold in_u; lia). rewrite (Z.mul_comm h). reflexivity.
  - pose proof (enc_int_size c n Hin) as HS. cbn [length]. rewrite Hn, HS.
    replace (Z.of_nat (S n) + 1) with (Z.of_nat (S (S n))) by lia. by apply getWithSize_int.
  - exists (Z.of_nat (length A) + 1). split; [|by apply slice_mid, (slice_tail [_])].
    unfold lpGetWithSize. rewrite (get_head A (_ :: s) B _ eq_refl). cbn [mbind option_bind]. enc_tests (128 + Z.of_nat (length s)).
    zb. rewrite str6_len by done. cbn [mbind option_bind length]. repeat f_equal; lia.
  - pose proof (str12_class _ (conj (Nat2Z.is_nonneg _) Hl)).
    exists (Z.of_nat (length A) + 2). split; [|by apply slice_mid, (slice_tail [_; _])].
    unfold lpGetWithSize. rewrite (get_head A (_ :: _ :: s) B _ eq_refl). cbn [mbind option_bind].
    enc_tests (224 + Z.of_nat (length s) / 256). zb. rewrite str12_len by done. cbn [mbind option_bind length]. repeat f_equal; lia.
  - exists (Z.of_nat (length A) + 5). split; [|by apply slice_mid, (slice_tail (240 :: le_bytes 4 _))].
    unfold lpGetWithSize. rewrite (get_head A (240 :: _) B _ eq_refl). cbn [mbind option_bind].
    enc_tests 240. zb. rewrite str32_len by lia. cbn [mbind option_bind length]. rewrite length_app, length_le_bytes. repeat f_equal; lia.
Qed.

(** ** Encoding *)

Lemma le_val_id n x : 0 <= x < 256 ^ Z.of_nat n -> le_val (le_bytes n x) = x.
Proof. intros. rewrite le_val_bytes. by apply Z.mod_small. Qed.

Lemma swrap_of_wrap w v : 0 < w -> in_s w v -> swrap w (if v <? 0 then 2 ^ w + v else v) = v.
Proof.
  intros Hw Hv. pose proof (pow2_half w Hw). unfold in_s in Hv. unfold swrap. case_zb.
  - replace (2 ^ w + v + 2 ^ (w - 1)) with (v + 2 ^ (w - 1) + 1 * 2 ^ w) by lia. rewrite Z.mod_add, Z.mod_small; lia.
  - rewrite Z.mod_small; lia.
Qed.

(** The encoded integer with a type byte: the two's complement bytes. *)
Lemma enc_int_bytes c n v u : In (c, n) [(241, 2%nat); (242, 3%nat); (243, 4%nat); (244, 8%nat)] ->
  in_s (8 * Z.of_nat n) v -> u = (if v <? 0 then 2 ^ (8 * Z.of_nat n) + v else v) -> enc (c :: le_bytes n u) (ValInt v).
Proof.
  intros Hin Hv Hu. assert (0 < 8 * Z.of_nat n) as Hn by (simpl in Hin; intuition; simplify_eq; lia).
  pose proof (pow2_half _ Hn). pose proof Hv as Hv'. unfold in_s in Hv'.
  pose proof (enc_int c n (le_bytes n u) Hin (le_bytes_byte n u) (length_le_bytes n u)) as HE.
  rewrite le_val_id in HE by (rewrite pow256 by lia; subst u; case_zb; lia). subst u. by rewrite swrap_of_wrap in HE.
Qed.

Lemma lpEncodeIntegerGetType_enc v : in_s 64 v -> enc (lpEncodeIntegerGetType v) (ValInt v).
Proof.
  intros Hv. unfold lpEncodeIntegerGetType. rewrite !land_255, !Z.geb_leb, !Z.shiftl_mul_pow2, !Z.shiftr_div_pow2 by lia.
  destruct (_ && _) eqn:E7. { rewrite wrap_id by (unfold in_u; lia). constructor. lia. }
  destruct ((-4096 <=? v) && _) eqn:E13.
  { pose proof (swrap_of_wrap 13 v ltac:(lia) ltac:(unfold in_s; simpl; lia)) as HW. change (1 * 2 ^ 13) with (2 ^ 13).
    set (u := if v <? 0 then 2 ^ 13 + v else v) in *. assert (0 <= u < 2 ^ 13) by (unfold u; case_zb; lia).
    pose proof (enc_13bit_int (u / 256) (u mod 256)) as HE. rewrite <- HW.
    replace (u mod 256 + 256 * (u / 256)) with u in HE by (Z.div_mod_to_equations; lia).
    assert (0 <= u / 256 < 32) by (Z.div_mod_to_equations; lia).
    change (2 ^ 8) with 256.
    change 192 with (Z.shiftl 3 6) at 1. rewrite (lor_shiftl _ 3 6) by (unfold in_u; simpl; lia).
    change (3 * 2 ^ 6) with 192. rewrite wrap_id, Z.add_comm by (unfold in_u; lia).
    apply HE; [done|]. apply Z.mod_pos_bound. lia. }
  destruct ((-32768 <=? v) && _) eqn:E16.
  { set (u := if v <? 0 then 1 * 2 ^ 16 + v else v). replace [_; _; _] with (241 :: le_bytes 2 u) by reflexivity.
    apply enc_int_bytes; [simpl; tauto|unfold in_s; simpl; lia|done]. }
  destruct ((-8388608 <=? v) && _) eqn:E24.
  { set (u := if v <? 0 then 1 * 2 ^ 24 + v else v).
    replace [_; _; _; _] with (242 :: le_bytes 3 u) by (cbn [le_bytes]; rewrite !Z.div_div by lia; reflexivity).
    apply enc_int_bytes; [simpl; tauto|unfold in_s; simpl; lia|done]. }
  destruct ((-2147483648 <=? v) && _) eqn:E32.
  { set (u := if v <? 0 then 1 * 2 ^ 32 + v else v).
    replace [_; _; _; _; _] with (243 :: le_bytes 4 u) by (cbn [le_bytes]; rewrite !Z.div_div by lia; reflexivity).
    apply enc_int_bytes; [simpl; tauto|unfold in_s; simpl; lia|done]. }
  replace [_; _; _; _; _; _; _; _; _] with (244 :: le_bytes 8 (u64 v)) by (cbn [le_bytes]; rewrite !Z.div_div by lia; reflexivity).
  apply enc_int_bytes; [simpl; tauto|done|]. destruct Hv as [Hv1 Hv2]. change (2 ^ (64 - 1)) with (2 ^ 63) in *.
  change (8 * Z.of_nat 8) with 64. unfold wrap. case_zb; [|apply Z.mod_small; lia].
  rewrite <- (Z.mod_add v 1) by lia. rewrite Z.mod_small; lia.
Qed.

Definition str_body (s : list Z) : list Z :=
  let n := Z.of_nat (length s) in
  if n <? 64 then 128 + n :: s else if n <? 4096 then 224 + n / 256 :: n mod 256 :: s else 240 :: le_bytes 4 n ++ s.

Lemma str_body_enc s : Forall byteZ s -> Z.of_nat (length s) + 5 < 2 ^ 32 -> enc (str_body s) (ValStr s).
Proof. intros Hs Hl. unfold str_body. repeat case_zb; by constructor. Qed.

Lemma length_str_body s : Z.of_nat (length (str_body s)) =
  let n := Z.of_nat (length s) in if n <? 64 then 1 + n else if n <? 4096 then 2 + n else 5 + n.
Proof. unfold str_body. cbv zeta. repeat case_zb; cbn [length]; rewrite ?length_app, ?length_le_bytes; lia. Qed.

Lemma lpEncodeString_spec A J B s : length J = length (str_body s) -> Z.of_nat (length s) < 2 ^ 32 ->
  lpEncodeString (A ++ J ++ B) (Z.of_nat (length A)) s = Some (A ++ str_body s ++ B).
Proof.
  intros HJ Hs. pose proof (length_str_body s) as HL. rewrite <- HJ in HL. cbv zeta in HL.
  unfold lpEncodeString, str_body. rewrite !land_255, !Z.shiftr_div_pow2 by lia. revert HL. case_zb; [|case_zb]; intros HL.
  - destruct J as [|j0 J]; cbn [length] in HL; [lia|].
    rewrite (put_next A [] j0 (J ++ B)) by (simpl; lia). cbn [mbind option_bind].
    rewrite (blit_next A _ J B) by (simpl; lia).
    rewrite (lor_disjoint _ 2 6), wrap_id by (unfold in_u; simpl; lia). cbn [app]. by rewrite Z.add_comm.
  - pose proof (str12_class (Z.of_nat (length s)) ltac:(lia)). destruct J as [|j0 [|j1 J]]; cbn [length] in HL; [lia|lia|].
    rewrite (put_next A [] j0 ((j1 :: J) ++ B)) by (simpl; lia). cbn [mbind option_bind].
    rewrite (put_next A _ j1 (J ++ B)) by (simpl; lia). cbn [mbind option_bind].
    rewrite (blit_next A _ J B) by (simpl; lia). change (2 ^ 8) with 256.
    rewrite (lor_disjoint _ 14 4), wrap_id, wrap_mod_u8 by (unfold in_u; simpl; lia). cbn [app]. by rewrite Z.add_comm.
  - destruct J as [|j0 [|j1 [|j2 [|j3 [|j4 J]]]]]; cbn [length] in HL; [lia..|].
    rewrite (put_next A [] j0 ((j1 :: j2 :: j3 :: j4 :: J) ++ B)) by (simpl; lia). cbn [mbind option_bind].
    rewrite (put_next A _ j1 ((j2 :: j3 :: j4 :: J) ++ B)) by (simpl; lia). cbn [mbind option_bind].
    rewrite (put_next A _ j2 ((j3 :: j4 :: J) ++ B)) by (simpl; lia). cbn [mbind option_bind].
    rewrite (put_next A _ j3 ((j4 :: J) ++ B)) by (simpl; lia). cbn [mbind option_bind].
    rewrite (put_next A _ j4 (J ++ B)) by (simpl; lia). cbn [mbind option_bind].
    rewrite (blit_next A _ J B) by (simpl; lia). rewrite !wrap_mod_u8.
    cbn [le_bytes app]. rewrite !Z.div_div by lia. done.
Qed.

(** ** Strings *)

Lemma lpStringToInt64_loop_eq p : forall v, lpStringToInt64_loop p v = string2ll_loop p v.
Proof. induction p as [|c p IH]; intros; [done|]. cbn [lpStringToInt64_loop string2ll_loop]. unfold is_digit. by rewrite IH. Qed.

(** The private copy of [string2ll] agrees with it. *)
Lemma lpStringToInt64_eq s : lpStringToInt64 s = string2ll s.
Proof.
  unfold lpStringToInt64, string2ll. destruct (if bool_decide _ then tl s else s) as [|c p]; [done|].
  by rewrite lpStringToInt64_loop_eq.
Qed.

(** The body stored for a string, and the string an element stands for. *)
Definition str_enc (s : list Z) : list Z :=
  match string2ll s with Some v => lpEncodeIntegerGetType v | None => str_body s end.
Definition val_str (v : lpval) : list Z := match v with ValInt z => dec z | ValStr s => s end.

Lemma str_enc_enc s : Forall byteZ s -> Z.of_nat (length (str_enc s)) < 2 ^ 32 -> exists v, enc (str_enc s) v /\ val_str v = s.
Proof.
  intros Hs Hl. unfold str_enc in *. destruct (string2ll s) as [z|] eqn:E.
  - destruct (string2ll_sound s z E) as [Hz ->]. exists (ValInt z). split; [by apply lpEncodeIntegerGetType_enc|done].
  - exists (ValStr s). split; [|done]. apply str_body_enc; [done|]. rewrite length_str_body in Hl. cbv zeta in Hl.
    revert Hl. repeat case_zb; lia.
Qed.

Lemma lpEncodeGetType_spec s :
  lpEncodeGetType s = (lpEncodeIntegerGetType <$> string2ll s, Z.of_nat (length (str_enc s))).
Proof.
  unfold lpEncodeGetType, str_enc. rewrite lpStringToInt64_eq. destruct (string2ll s); [done|].
  cbn [fmap option_fmap option_map]. by rewrite length_str_body.
Qed.
