(* ===== verification/ListpackProof.v ===== *)
(** * ListpackProof: navigation and modification of listpacks

    The representation predicate [lp_rep b es]: the block [b] starts with a
    well-formed listpack whose elements have the bodies [es].  Moving, seeking,
    reading, inserting, replacing and deleting are proved
    against it for every operation of listpack.c that does not fail an assertion. *)

From Stdlib Require Import ZArith Lia ZifyBool.
From stdpp Require Import base gmap numbers option list.
From S2P Require Import Prelude Numstr Listpack ListpackCodec.

Local Open Scope Z_scope.

(** ** Representation *)

Definition is_enc (e : list Z) : Prop := exists v, enc e v.

(** An element followed by its backlen. *)
Definition entry (e : list Z) : list Z := e ++ lpEncodeBacklen (Z.of_nat (length e)).
Definition entry_size (e : list Z) : Z := Z.of_nat (length e) + lpEncodeBacklenSize (Z.of_nat (length e)).
Definition bytes_of (es : list (list Z)) : list Z := concat (entry <$> es).

(** The offset behind the elements [es], and the size of a listpack. *)
Definition pos (es : list (list Z)) : Z := 6 + Z.of_nat (length (bytes_of es)).
Definition lp_total (es : list (list Z)) : Z := pos es + 1.

Definition image (n : Z) (es : list (list Z)) : list Z :=
  le_bytes 4 (lp_total es) ++ le_bytes 2 n ++ bytes_of es ++ [255].

(** The cached count: exact, or unknown. *)
Definition count_ok (n : Z) (es : list (list Z)) : Prop :=
  n = 65535 \/ (n = Z.of_nat (length es) /\ Z.of_nat (length es) < 65535).

Record lp_rep (b : list Z) (es : list (list Z)) : Prop := {
  rep_view : exists n slack, b = image n es ++ slack /\ count_ok n es;
  rep_enc : Forall is_enc es;
  rep_total : lp_total es <= UINT32_MAX }.

Lemma length_entry e : Z.of_nat (length (entry e)) = entry_size e.
Proof. unfold entry, entry_size. rewrite length_app, Nat2Z.inj_add, length_backlen. done. Qed.

Lemma bytes_of_app l r : bytes_of (l ++ r) = bytes_of l ++ bytes_of r.
Proof. unfold bytes_of. by rewrite fmap_app, concat_app. Qed.

Lemma bytes_of_cons e r : bytes_of (e :: r) = e ++ lpEncodeBacklen (Z.of_nat (length e)) ++ bytes_of r.
Proof. unfold bytes_of. rewrite fmap_cons. cbn [concat]. unfold entry. by rewrite <- app_assoc. Qed.

Lemma pos_app l r : pos (l ++ r) = pos l + Z.of_nat (length (bytes_of r)).
Proof. unfold pos. rewrite bytes_of_app, length_app. lia. Qed.

Lemma pos_snoc l e : pos (l ++ [e]) = pos l + entry_size e.
Proof. rewrite pos_app. f_equal. unfold bytes_of. cbn. rewrite app_nil_r. apply length_entry. Qed.

Lemma bytes_of_len_cons e r : Z.of_nat (length (bytes_of (e :: r))) = entry_size e + Z.of_nat (length (bytes_of r)).
Proof. rewrite <- length_entry. unfold bytes_of. rewrite fmap_cons. cbn [concat]. rewrite length_app. lia. Qed.

Lemma entry_size_pos e : is_enc e -> 2 <= entry_size e.
Proof.
  intros [v He]. pose proof (enc_length e v He). pose proof (backlen_size_range (Z.of_nat (length e))). unfold entry_size. lia.
Qed.

Lemma length_bytes_of es : Forall is_enc es -> 2 * Z.of_nat (length es) <= Z.of_nat (length (bytes_of es)).
Proof.
  induction 1 as [|e es He _ IH]; [done|]. rewrite bytes_of_len_cons. pose proof (entry_size_pos e He). cbn [length]. lia.
Qed.

Lemma pos_ge es : 6 <= pos es.
Proof. unfold pos. lia. Qed.

Lemma count_ok_u16 n es : count_ok n es -> in_u 16 n.
Proof. unfold count_ok, in_u. lia. Qed.

(** The part of a listpack in front of the position behind [l]. *)
Definition front (n : Z) (es l : list (list Z)) : list Z := le_bytes 4 (lp_total es) ++ le_bytes 2 n ++ bytes_of l.

Lemma length_front n es l : Z.of_nat (length (front n es l)) = pos l.
Proof. unfold front, pos. rewrite !length_app, !length_le_bytes. lia. Qed.

Lemma image_split n l r : image n (l ++ r) = front n (l ++ r) l ++ bytes_of r ++ [255].
Proof. unfold image, front. by rewrite bytes_of_app, <- !app_assoc. Qed.

(** A listpack seen from the position of one of its elements. *)
Lemma image_at n l e r slack : image n (l ++ e :: r) ++ slack =
  front n (l ++ e :: r) l ++ e ++ lpEncodeBacklen (Z.of_nat (length e)) ++ bytes_of r ++ [255] ++ slack.
Proof. rewrite image_split, bytes_of_cons, <- !app_assoc. done. Qed.

Lemma image_end n es slack : image n es ++ slack = front n es es ++ 255 :: slack.
Proof. pose proof (image_split n es []) as E. rewrite app_nil_r in E. rewrite E, <- app_assoc. done. Qed.

Lemma total_u32 es : lp_total es <= UINT32_MAX -> in_u 32 (lp_total es).
Proof. unfold lp_total, UINT32_MAX, in_u. pose proof (pos_ge es). lia. Qed.

Lemma rep_total_bytes b es : lp_rep b es -> lpGetTotalBytes b = Some (lp_total es).
Proof. intros [(n & slack & -> & _) _ Ht]. unfold image. rewrite <- !app_assoc. apply lp_get_total. by apply total_u32. Qed.

Lemma rep_numele b es : lp_rep b es -> exists n, lpGetNumElements b = Some n /\ count_ok n es.
Proof.
  intros [(n & slack & -> & Hn) _ _]. exists n. split; [|done]. unfold image. rewrite <- !app_assoc.
  apply get_numele. by eapply count_ok_u16.
Qed.

Lemma rep_length b es : lp_rep b es -> lp_total es <= Z.of_nat (length b).
Proof.
  intros [(n & slack & -> & _) _ _]. unfold image, lp_total, pos. rewrite !length_app, !length_le_bytes. simpl. lia.
Qed.

(** The byte at a position: the end marker, or the first byte of an element. *)
Lemma rep_get_end b es : lp_rep b es -> get b (pos es) = Some 255.
Proof. intros [(n & slack & -> & _) _ _]. rewrite image_end. apply get_app. by rewrite length_front. Qed.

Lemma rep_get b l e r : lp_rep b (l ++ e :: r) -> exists x, get b (pos l) = Some x /\ (x =? LP_EOF) = false.
Proof.
  intros [(n & slack & -> & _) HE _]. apply Forall_app in HE as [_ [[v He] _]%Forall_cons].
  destruct (enc_head e v He) as (x & t & -> & Hx). exists x. split; [|lia].
  rewrite image_at, <- (length_front n (l ++ (x :: t) :: r) l). by apply get_head.
Qed.

(** ** Moving *)

Lemma rep_is_enc b l e r : lp_rep b (l ++ e :: r) -> is_enc e.
Proof. intros [_ HE _]. by apply Forall_app in HE as [_ [? _]%Forall_cons]. Qed.

Lemma rep_size b l e r : lp_rep b (l ++ e :: r) -> lpCurrentEncodedSizeUnsafe b (pos l) = Some (Z.of_nat (length e)).
Proof.
  intros HR. destruct (rep_is_enc _ _ _ _ HR) as [v He]. destruct HR as [(n & slack & -> & _) _ _].
  rewrite image_at, <- (length_front n (l ++ e :: r) l). by eapply size_enc.
Qed.

Lemma lpSkip_spec b l e r : lp_rep b (l ++ e :: r) -> lpSkip b (pos l) = Some (pos (l ++ [e])).
Proof. intros HR. unfold lpSkip. rewrite (rep_size b l e r HR). cbn [mbind option_bind]. by rewrite pos_snoc. Qed.

Lemma is_enc_backlen e : is_enc e -> 0 <= Z.of_nat (length e) < 2 ^ 35.
Proof. intros [v He]. pose proof (enc_length e v He). lia. Qed.

Lemma rep_backlen b l e r : lp_rep b (l ++ e :: r) -> lpDecodeBacklen b (pos (l ++ [e]) - 1) = Some (Z.of_nat (length e)).
Proof.
  intros HR. pose proof (is_enc_backlen e (rep_is_enc _ _ _ _ HR)) as He. destruct HR as [(n & slack & -> & _) _ _].
  rewrite image_at, app_assoc, pos_snoc. unfold entry_size.
  replace (pos l + _ - 1) with (Z.of_nat (length (front n (l ++ e :: r) l ++ e)) + lpEncodeBacklenSize (Z.of_nat (length e)) - 1)
    by (rewrite length_app, Nat2Z.inj_add, length_front; lia).
  by apply decode_backlen.
Qed.

Lemma pos_lt_total l e r : Forall is_enc (l ++ e :: r) -> pos l < pos (l ++ [e]) <= lp_total (l ++ e :: r) - 1.
Proof.
  intros HE. apply Forall_app in HE as [_ [He HE]%Forall_cons]. pose proof (entry_size_pos e He).
  unfold lp_total. rewrite pos_snoc, pos_app, bytes_of_len_cons. lia.
Qed.

Lemma in_range t p : 6 <= p <= t - 1 -> OUT_OF_RANGE t p = false.
Proof. unfold OUT_OF_RANGE. intros. lia. Qed.

(** Validation of an element of a listpack, and of its end. *)
Lemma lpValidateNext_spec b l e r : lp_rep b (l ++ e :: r) ->
  lpValidateNext b (Some (pos l)) (lp_total (l ++ e :: r)) = Some (true, Some (pos (l ++ [e]))).
Proof.
  intros HR. pose proof (pos_ge l). pose proof (pos_lt_total l e r (rep_enc _ _ HR)). pose proof (pos_snoc l e) as Hp.
  destruct (rep_get b l e r HR) as (x & Hx & Heof). unfold lpValidateNext.
  rewrite in_range by lia. rewrite Hx. cbn [mbind option_bind]. rewrite Heof.
  assert (exists k, lpCurrentEncodedSizeBytes b (pos l) = Some k /\ 1 <= k <= Z.of_nat (length e)) as (k & -> & Hk).
  { destruct (rep_is_enc _ _ _ _ HR) as [v He]. destruct HR as [(n & slack & -> & _) _ _].
    rewrite image_at, <- (length_front n (l ++ e :: r) l). by eapply sizeBytes_enc. }
  cbn [mbind option_bind]. zb. pose proof (backlen_size_range (Z.of_nat (length e))). unfold entry_size in Hp.
  rewrite in_range by lia. rewrite (rep_size b l e r HR). cbn [mbind option_bind]. rewrite in_range by lia.
  rewrite <- Hp, (rep_backlen b l e r HR). cbn [mbind option_bind].
  pose proof (is_enc_backlen e (rep_is_enc _ _ _ _ HR)). rewrite wrap_id by (unfold in_u; lia).
  zb. done.
Qed.

Lemma lpValidateNext_end b es : lp_rep b es -> lpValidateNext b (Some (pos es)) (lp_total es) = Some (true, None).
Proof.
  intros HR. unfold lpValidateNext. pose proof (pos_ge es). rewrite in_range by (unfold lp_total; lia).
  by rewrite (rep_get_end b es HR).
Qed.

Lemma lpAssertValidEntry_spec b l r : lp_rep b (l ++ r) -> lpAssertValidEntry b (lp_total (l ++ r)) (pos l) = Some tt.
Proof.
  intros HR. unfold lpAssertValidEntry. destruct r as [|e r].
  - rewrite app_nil_r in HR |- *. by rewrite lpValidateNext_end.
  - by rewrite lpValidateNext_spec.
Qed.

(** The position of [r] in [l ++ r], [NULL] at the end. *)
Definition ptr (l r : list (list Z)) : option Z := match r with [] => None | _ => Some (pos l) end.

(** Landing on a position that is either the end or an element. *)
Lemma land_spec b l r : lp_rep b (l ++ r) ->
  (x ← get b (pos l);
   if x =? LP_EOF then Some None else
   bytes ← lpBytes b; _ ← lpAssertValidEntry b bytes (pos l); Some (Some (pos l))) = Some (ptr l r).
Proof.
  intros HR. unfold lpBytes. destruct r as [|e r].
  - rewrite app_nil_r in HR. by rewrite (rep_get_end b l HR).
  - destruct (rep_get b l e r HR) as (x & -> & Hx). cbn [mbind option_bind]. rewrite Hx, (rep_total_bytes _ _ HR). cbn [mbind option_bind].
    by rewrite lpAssertValidEntry_spec.
Qed.

Lemma lpNext_spec b l e r : lp_rep b (l ++ e :: r) -> lpNext b (pos l) = Some (ptr (l ++ [e]) r).
Proof.
  intros HR. unfold lpNext. rewrite (lpSkip_spec b l e r HR). cbn [mbind option_bind]. apply land_spec. by rewrite <- app_assoc.
Qed.

Lemma lpFirst_spec b es : lp_rep b es -> lpFirst b = Some (ptr [] es).
Proof. intros HR. unfold lpFirst. by apply (land_spec b []). Qed.

(** [None] in front of the first element. *)
Definition prev_ptr (l : list (list Z)) : option Z :=
  match l with [] => None | _ => Some (pos (removelast l)) end.

Lemma prev_ptr_snoc l e : prev_ptr (l ++ [e]) = Some (pos l).
Proof. unfold prev_ptr. rewrite removelast_last. by destruct l. Qed.

Lemma lpPrev_spec b l r : lp_rep b (l ++ r) -> lpPrev b (pos l) = Some (prev_ptr l).
Proof.
  intros HR. unfold lpPrev. destruct l as [|e l _] using rev_ind; [done|].
  rewrite prev_ptr_snoc. rewrite <- app_assoc in HR. cbn [app] in HR.
  pose proof (pos_lt_total l e r (rep_enc _ _ HR)). pose proof (pos_ge l). zb.
  rewrite (rep_backlen b l e r HR). cbn [mbind option_bind].
  pose proof (is_enc_backlen e (rep_is_enc _ _ _ _ HR)). pose proof (backlen_size_range (Z.of_nat (length e))).
  rewrite wrap_id by (unfold in_u; lia). unfold lpBytes. rewrite (rep_total_bytes _ _ HR). cbn [mbind option_bind].
  replace (pos (l ++ [e]) - 1 - _) with (pos l) by (rewrite pos_snoc; unfold entry_size; lia).
  by rewrite lpAssertValidEntry_spec.
Qed.

Lemma lpLast_spec b es : lp_rep b es -> lpLast b = Some (prev_ptr es).
Proof.
  intros HR. unfold lpLast. rewrite (rep_total_bytes _ _ HR). cbn [mbind option_bind].
  unfold lp_total. rewrite Z.add_simpl_r. apply (lpPrev_spec b es []). by rewrite app_nil_r.
Qed.

(** ** Counting and seeking *)

Lemma rep_count_u32 b es : lp_rep b es -> Z.of_nat (length es) < 2 ^ 31.
Proof.
  intros [_ HE Ht]. pose proof (length_bytes_of es HE). unfold lp_total, pos, UINT32_MAX in Ht. lia.
Qed.

Lemma rep_fuel b l r : lp_rep b (l ++ r) -> (length r < S (length b))%nat.
Proof.
  intros HR. pose proof (rep_length _ _ HR) as HL. pose proof (length_bytes_of _ (rep_enc _ _ HR)) as HB.
  unfold lp_total, pos in HL. rewrite length_app in HB. lia.
Qed.

Lemma lpLength_loop_spec b : forall r l count fuel, lp_rep b (l ++ r) -> (length r < fuel)%nat -> 0 <= count ->
  count + Z.of_nat (length r) < 2 ^ 32 -> lpLength_loop fuel b (ptr l r) count = Some (count + Z.of_nat (length r)).
Proof.
  induction r as [|e r IH]; intros l count fuel HR Hf Hc Hlt; (destruct fuel as [|fuel]; [lia|]).
  - simpl. f_equal. lia.
  - cbn [lpLength_loop ptr]. rewrite (lpNext_spec b l e r HR). cbn [mbind option_bind length] in *.
    rewrite wrap_id by (unfold in_u; lia). rewrite (IH (l ++ [e])); [f_equal; lia|by rewrite <- app_assoc|lia|lia|lia].
Qed.

Lemma set_numele_image n es slack v : lpSetNumElements (image n es ++ slack) v = Some (image v es ++ slack).
Proof. unfold image. rewrite <- !app_assoc. apply set_numele. Qed.

Lemma lpLength_spec b es : lp_rep b es ->
  exists b', lpLength b = Some (b', Z.of_nat (length es)) /\ lp_rep b' es /\ length b' = length b.
Proof.
  intros HR. pose proof (rep_count_u32 b es HR). unfold lpLength. destruct (rep_numele b es HR) as (n & -> & Hn). cbn [mbind option_bind].
  destruct (Z.eqb_spec n 65535) as [->|Hne]; cbn [negb].
  2:{ destruct Hn as [->|[-> _]]; [done|]. by exists b. }
  rewrite (lpFirst_spec b es HR). cbn [mbind option_bind]. rewrite (lpLength_loop_spec b es []); [|done|by apply (rep_fuel b [] es)|lia|lia].
  cbn [mbind option_bind]. rewrite Z.add_0_l. case_zb; [|by exists b].
  destruct HR as [(n & slack & -> & _) HE Ht]. rewrite set_numele_image. eexists. split; [reflexivity|].
  split; [split; [|done|done]|by rewrite !length_app; unfold image; rewrite !length_app, !length_le_bytes].
  do 2 eexists. split; [done|]. right. lia.
Qed.

Lemma seek_forward_spec b : forall r l index fuel, lp_rep b (l ++ r) -> (length r < fuel)%nat -> 0 <= index ->
  seek_forward fuel b (ptr l r) index = Some (ptr (l ++ take (Z.to_nat index) r) (drop (Z.to_nat index) r)).
Proof.
  induction r as [|e r IH]; intros l index fuel HR Hf Hi; (destruct fuel as [|fuel]; [lia|]).
  - cbn [seek_forward ptr]. by rewrite drop_nil.
  - cbn [seek_forward ptr]. rewrite Z.gtb_ltb. case_zb.
    + rewrite (lpNext_spec b l e r HR). cbn [mbind option_bind length] in *.
      rewrite (IH (l ++ [e])); [|by rewrite <- app_assoc|lia|lia].
      replace (Z.to_nat index) with (S (Z.to_nat (index - 1))) by lia. cbn [take drop]. by rewrite <- app_assoc.
    + replace index with 0 by lia. cbn. by rewrite app_nil_r.
Qed.

Lemma seek_backward_spec b : forall l r index fuel, lp_rep b (l ++ r) -> (length l < fuel)%nat -> index < 0 ->
  seek_backward fuel b (prev_ptr l) index = Some (prev_ptr (take (length l - Z.to_nat (-1 - index)) l)).
Proof.
  intros l. induction l as [|e l IH] using rev_ind; intros r index fuel HR Hf Hi; (destruct fuel as [|fuel]; [lia|]); [done|].
  cbn [seek_backward]. rewrite prev_ptr_snoc, length_app in *. cbn [length] in *. case_zb.
  - rewrite <- app_assoc in HR. rewrite (lpPrev_spec b l ([e] ++ r) HR). cbn [mbind option_bind].
    rewrite (IH ([e] ++ r)); [|done|lia|lia]. rewrite take_app_le by lia. do 3 f_equal. lia.
  - replace index with (-1) by lia. change (Z.to_nat (-1 - -1)) with O. rewrite Nat.sub_0_r.
    rewrite take_ge by (rewrite length_app; simpl; lia). by rewrite prev_ptr_snoc.
Qed.

(** The element an index denotes, negative indexes counting from the end. *)
Definition seek_index (len : nat) (index : Z) : option nat :=
  let i := if index <? 0 then Z.of_nat len + index else index in
  if (0 <=? i) && (i <? Z.of_nat len) then Some (Z.to_nat i) else None.

Definition ptr_at (es : list (list Z)) (i : option nat) : option Z := (fun i => pos (take i es)) <$> i.

Lemma lpSeek_forward_spec b es index : lp_rep b es -> 0 <= index ->
  lpSeek_forward b index = Some (ptr_at es (seek_index (length es) index)).
Proof.
  intros HR Hi. unfold lpSeek_forward. rewrite (lpFirst_spec b es HR). cbn [mbind option_bind].
  rewrite (seek_forward_spec b es [] index); [|done|by apply (rep_fuel b [] es)|done].
  unfold seek_index. zb. case_zb; cbn [ptr_at fmap option_fmap option_map app].
  - destruct (drop (Z.to_nat index) es) eqn:E; [|done]. apply (f_equal length) in E. rewrite length_drop in E. simpl in E. lia.
  - by rewrite drop_ge by lia.
Qed.

Lemma lpSeek_backward_spec b es index : lp_rep b es -> index < 0 ->
  lpSeek_backward b index = Some (ptr_at es (seek_index (length es) index)).
Proof.
  intros HR Hi. unfold lpSeek_backward. rewrite (lpLast_spec b es HR). cbn [mbind option_bind].
  pose proof (rep_fuel b [] es HR).
  rewrite (seek_backward_spec b es [] index); [|by rewrite app_nil_r|done|done].
  unfold seek_index. zb. destruct (Z.leb_spec 0 (Z.of_nat (length es) + index)); zb; cbn [ptr_at fmap option_fmap option_map].
  - replace (length es - Z.to_nat (-1 - index))%nat with (S (Z.to_nat (Z.of_nat (length es) + index))) by lia.
    destruct (lookup_lt_is_Some_2 es (Z.to_nat (Z.of_nat (length es) + index))) as [e He]; [lia|].
    erewrite take_S_r by exact He. by rewrite prev_ptr_snoc.
  - replace (length es - Z.to_nat (-1 - index))%nat with O by lia. done.
Qed.

Lemma lpSeek_spec b es index : lp_rep b es -> lpSeek b index = Some (ptr_at es (seek_index (length es) index)).
Proof.
  intros HR. unfold lpSeek. destruct (rep_numele b es HR) as (n & -> & Hn). cbn [mbind option_bind].
  destruct (Z.eqb_spec n 65535) as [->|Hne]; cbn [negb].
  { destruct (Z.ltb_spec index 0); [by apply lpSeek_backward_spec|by apply lpSeek_forward_spec]. }
  destruct Hn as [?|[-> Hlt]]; [done|].
  assert (seek_index (length es) index = seek_index (length es) (if index <? 0 then Z.of_nat (length es) + index else index) \/
    (if index <? 0 then Z.of_nat (length es) + index else index) < 0 /\ seek_index (length es) index = None) as Heq.
  { unfold seek_index. destruct (Z.ltb_spec index 0); [|zb; by left]. destruct (Z.ltb_spec (Z.of_nat (length es) + index) 0); [right|left; done].
    split; [lia|]. by zb. }
  set (j := if index <? 0 then _ else index) in *. destruct (Z.ltb_spec j 0).
  { destruct Heq as [Hs|[_ ->]]; [|done]. unfold j in *. destruct (Z.ltb_spec index 0); [|lia].
    unfold seek_index. zb. by destruct (0 <=? Z.of_nat (length es) + index) eqn:?; [lia|]. }
  destruct Heq as [->|[? _]]; [|lia]. rewrite Z.geb_leb, Z.gtb_ltb. destruct (Z.leb_spec (Z.of_nat (length es)) j).
  { unfold seek_index. zb. done. }
  destruct (Z.ltb_spec (Z.of_nat (length es) / 2) j); [|by apply lpSeek_forward_spec].
  rewrite (lpSeek_backward_spec b es) by (done || lia). unfold seek_index. zb. do 3 f_equal. lia.
Qed.

(** ** Reading *)

(** The value of an element, and the string it stands for. *)
Definition elt_val (e : list Z) : lpval :=
  match lpGetWithSize e 0 None 0 with
  | Some (RInt z, _) => ValInt z
  | Some (RPtr p n, _) => ValStr (take (Z.to_nat n) (drop (Z.to_nat p) e))
  | _ => ValStr []
  end.
Definition elt_str (e : list Z) : list Z := val_str (elt_val e).

Lemma elt_val_enc e v : enc e v -> elt_val e = v.
Proof.
  intros He. pose proof (getWithSize_enc [] e [] v None 0 He) as HG. rewrite app_nil_r in HG. cbn [app length] in HG.
  unfold elt_val. destruct v as [z|s]; cbn [get_ok] in HG.
  - destruct HG as [_ HG]. change (Z.of_nat 0) with 0 in HG. by rewrite HG.
  - destruct HG as (p & HG & HS). change (Z.of_nat 0) with 0 in HG. rewrite HG. f_equal. unfold slice in HS.
    destruct (_ && _); [|done]. congruence.
Qed.

Lemma is_enc_val e : is_enc e -> enc e (elt_val e).
Proof. intros [v He]. by rewrite (elt_val_enc e v He). Qed.

Lemma rep_getWithSize b l e r intbuf es0 : lp_rep b (l ++ e :: r) -> get_ok b (pos l) intbuf (entry_size e) es0 (elt_val e).
Proof.
  intros HR. pose proof (is_enc_val e (rep_is_enc _ _ _ _ HR)) as He. destruct HR as [(n & slack & -> & _) _ _].
  rewrite image_at, <- (length_front n (l ++ e :: r) l). by apply getWithSize_enc.
Qed.

(** ** Blocks of memory *)

Lemma memmove_gap A O B S n : Z.of_nat (length (A ++ B)) + n <= Z.of_nat (length (A ++ O ++ B ++ S)) -> 0 <= n ->
  exists J S', memmove (A ++ O ++ B ++ S) (Z.of_nat (length A) + n) (Z.of_nat (length A) + Z.of_nat (length O)) (Z.of_nat (length B)) =
    Some (A ++ J ++ B ++ S') /\ Z.of_nat (length J) = n /\ length (A ++ J ++ B ++ S') = length (A ++ O ++ B ++ S).
Proof.
  intros Hfit Hn. rewrite length_app, !length_app in Hfit. unfold memmove.
  assert (slice (A ++ O ++ B ++ S) (Z.of_nat (length A) + Z.of_nat (length O)) (Z.of_nat (length B)) = Some B) as ->
    by (rewrite app_assoc; apply slice_app; rewrite ?length_app; lia).
  cbn [mbind option_bind]. set (X := O ++ B ++ S).
  assert (length X = length O + length B + length S)%nat as HX by (unfold X; rewrite !length_app; lia).
  exists (take (Z.to_nat n) X), (drop (Z.to_nat n + length B) X).
  assert (X = take (Z.to_nat n) X ++ take (length B) (drop (Z.to_nat n) X) ++ drop (Z.to_nat n + length B) X) as EX.
  { rewrite <- drop_drop, take_drop, take_drop. done. }
  split; [|split].
  - rewrite EX, app_assoc, (blit_app _ _ B).
    + by rewrite <- app_assoc, <- EX.
    + rewrite length_app, length_take. lia.
    + rewrite length_take, length_drop. lia.
  - rewrite length_take. lia.
  - rewrite !length_app, length_take, length_drop. lia.
Qed.

Section Insert.
Context (undef : nat -> Z) (alloc : Z -> Z) (Halloc : forall n, 0 <= n -> n <= alloc n).

Lemma lp_realloc_prefix P S n : Z.of_nat (length P) <= n -> exists S',
  lp_realloc undef alloc (P ++ S) n = P ++ S' /\ n <= Z.of_nat (length (P ++ S')).
Proof.
  intros Hn. pose proof (Halloc n ltac:(lia)). pose proof (length_realloc undef (P ++ S) (alloc n) ltac:(lia)) as HL.
  unfold lp_realloc, realloc in *. rewrite take_app_ge in * by lia. rewrite <- app_assoc in *. eexists. split; [done|]. lia.
Qed.

(** The body stored for an element. *)
Definition ele_new (ele : lpele) : list (list Z) :=
  match ele with EleStr s => [str_enc s] | EleInt e => [e] | EleNone => [] end.

Definition ele_ok (ele : lpele) : Prop :=
  match ele with EleStr s => Forall byteZ s /\ in_u 32 (Z.of_nat (length s)) | EleInt e => is_enc e | EleNone => True end.

Definition ele_enc (ele : lpele) : option (list Z) * Z :=
  match ele with
  | EleStr elestr => lpEncodeGetType elestr
  | EleInt eleint => (Some eleint, Z.of_nat (length eleint))
  | EleNone => (None, 0)
  end.

Definition ele_delete (ele : lpele) : bool := match ele with EleNone => true | _ => false end.

Lemma store_body (J e : list Z) : length J = length (entry e) ->
  exists J1 J2, J = J1 ++ J2 /\ length J1 = length e /\ length J2 = length (lpEncodeBacklen (Z.of_nat (length e))).
Proof.
  intros HJ. unfold entry in HJ. rewrite length_app in HJ. exists (take (length e) J), (drop (length e) J).
  rewrite take_drop, length_take, length_drop. split; [done|]. lia.
Qed.

Lemma lpInsert_store_spec A J B ele : ele_ok ele -> length J = length (bytes_of (ele_new ele)) ->
  let '(intenc, enclen) := ele_enc ele in
  lpInsert_store (A ++ J ++ B) ele intenc (Z.of_nat (length A)) enclen (lpEncodeBacklen enclen) =
  Some (A ++ bytes_of (ele_new ele) ++ B).
Proof.
  intros Hok HJ. destruct ele as [s|e|]; cbn [ele_enc ele_new] in *.
  - rewrite lpEncodeGetType_spec. unfold bytes_of in *. cbn [fmap list_fmap concat] in *. rewrite app_nil_r in *.
    destruct (store_body J _ HJ) as (J1 & J2 & -> & H1 & H2). cbn [lpInsert_store].
    assert (match lpEncodeIntegerGetType <$> string2ll s with
            | Some eleint => blit (A ++ (J1 ++ J2) ++ B) (Z.of_nat (length A)) eleint
            | None => lpEncodeString (A ++ (J1 ++ J2) ++ B) (Z.of_nat (length A)) s
            end = Some (A ++ str_enc s ++ (J2 ++ B))) as ->.
    { rewrite <- app_assoc. unfold str_enc in *. destruct (string2ll s) as [z|]; cbn [fmap option_fmap option_map].
      - by apply blit_app.
      - apply lpEncodeString_spec; [done|apply Hok]. }
    cbn [mbind option_bind]. rewrite (blit_next A _ J2 B) by (done || lia). done.
  - unfold bytes_of in *. cbn [fmap list_fmap concat] in *. rewrite app_nil_r in *.
    destruct (store_body J _ HJ) as (J1 & J2 & -> & H1 & H2). cbn [lpInsert_store]. rewrite <- app_assoc.
    rewrite (blit_app A J1 e) by done. cbn [mbind option_bind]. rewrite (blit_next A _ J2 B) by (done || lia). done.
  - unfold bytes_of in *. destruct J; [done|]. simpl in HJ. lia.
Qed.

Lemma bytes_of_one e : bytes_of [e] = entry e.
Proof. unfold bytes_of. cbn. apply app_nil_r. Qed.

Lemma ele_enc_len ele intenc enclen : ele_enc ele = (intenc, enclen) -> ele_ok ele ->
  enclen + (if ele_delete ele then 0 else lpEncodeBacklenSize enclen) = Z.of_nat (length (bytes_of (ele_new ele))) /\
  0 <= enclen < 2 ^ 33.
Proof.
  destruct ele as [s|e|]; cbn [ele_enc ele_delete ele_new ele_ok]; rewrite ?lpEncodeGetType_spec; intros [= <- <-] Hok;
    rewrite ?bytes_of_one, ?length_entry; [|by destruct Hok as [v Hv]; pose proof (enc_length e v Hv); unfold entry_size; split; lia|done].
  split; [done|]. destruct Hok as [_ [_ Hs]]. unfold str_enc. destruct (string2ll s) as [z|] eqn:E.
  - destruct (string2ll_sound s z E) as [Hz _]. pose proof (enc_length _ _ (lpEncodeIntegerGetType_enc z Hz)). lia.
  - rewrite length_str_body. cbv zeta. repeat case_zb; lia.
Qed.

Lemma ele_new_enc ele l r : ele_ok ele -> lp_total (l ++ ele_new ele ++ r) <= UINT32_MAX -> Forall is_enc (ele_new ele).
Proof.
  intros Hok Ht. destruct ele as [s|e|]; cbn [ele_new ele_ok] in *; [|by repeat constructor|constructor].
  constructor; [|constructor]. destruct (str_enc_enc s) as (v & Hv & _); [apply Hok| |by exists v].
  unfold lp_total in Ht. cbn [app] in Ht. rewrite pos_app, bytes_of_len_cons in Ht. pose proof (pos_ge l).
  pose proof (backlen_size_range (Z.of_nat (length (str_enc s)))). unfold entry_size, UINT32_MAX in *. lia.
Qed.

Definition olist (o : option (list Z)) : list (list Z) := match o with Some e => [e] | None => [] end.

(** The new count in the header. *)
Definition count_after (n : Z) (delete replace : bool) : Z :=
  if negb replace || delete then
    if negb (n =? LP_HDR_NUMELE_UNKNOWN) then if negb delete then n + 1 else u32 (n - 1) else n
  else n.

Lemma lpInsert_count_spec t n rest delete replace : in_u 16 n ->
  lpInsert_count (le_bytes 4 t ++ le_bytes 2 n ++ rest) delete replace =
  Some (le_bytes 4 t ++ le_bytes 2 (count_after n delete replace) ++ rest).
Proof.
  intros Hn. unfold lpInsert_count, count_after. destruct (negb replace || delete); [|done].
  rewrite get_numele by done. cbn [mbind option_bind]. destruct (negb (n =? _)); [|done].
  by destruct delete; cbn [negb]; rewrite set_numele.
Qed.

Lemma count_after_ok n l (o : option (list Z)) r ele : count_ok n (l ++ olist o ++ r) -> (ele = EleNone -> o <> None) ->
  count_ok (count_after n (ele_delete ele) (match o with Some _ => true | None => false end)) (l ++ ele_new ele ++ r).
Proof.
  intros Hn Ho. unfold count_after, count_ok in *. rewrite !length_app in *.
  destruct o as [e|], ele as [s|e'|]; try (by specialize (Ho eq_refl)); cbn [olist length ele_new ele_delete negb orb] in *;
    rewrite ?length_app in *; cbn [length] in *; repeat case_zb; cbn [negb]; try lia.
  rewrite wrap_id by (unfold in_u; lia). lia.
Qed.

(** The block is large enough when the bytes are moved. *)
Lemma grow_spec A O B S new old : old = Z.of_nat (length (A ++ O ++ B)) -> 0 <= new ->
  exists S', (if (new >? old) && (new >? lp_malloc_size (A ++ O ++ B ++ S)) then lp_realloc undef alloc (A ++ O ++ B ++ S) new
              else A ++ O ++ B ++ S) = A ++ O ++ B ++ S' /\ new <= Z.of_nat (length (A ++ O ++ B ++ S')).
Proof.
  intros -> Hnew. unfold lp_malloc_size. rewrite !Z.gtb_ltb.
  destruct (_ && _) eqn:E.
  - replace (A ++ O ++ B ++ S) with ((A ++ O ++ B) ++ S) in * by (by rewrite <- !app_assoc).
    destruct (lp_realloc_prefix (A ++ O ++ B) S new) as (S' & -> & HS); [lia|]. exists S'. by rewrite <- !app_assoc in *.
  - exists S. split; [done|]. rewrite !length_app in *. lia.
Qed.

Lemma shrink_spec A J B S new old : new = Z.of_nat (length (A ++ J ++ B)) ->
  exists S', (if new <? old then lp_realloc undef alloc (A ++ J ++ B ++ S) new else A ++ J ++ B ++ S) = A ++ J ++ B ++ S'.
Proof.
  intros ->. case_zb; [|by exists S]. replace (A ++ J ++ B ++ S) with ((A ++ J ++ B) ++ S) by (by rewrite <- !app_assoc).
  destruct (lp_realloc_prefix (A ++ J ++ B) S (Z.of_nat (length (A ++ J ++ B)))) as (S' & -> & _); [lia|]. exists S'. by rewrite <- !app_assoc.
Qed.

Lemma total_split l o r : lp_total (l ++ o ++ r) =
  pos l + Z.of_nat (length (bytes_of o)) + Z.of_nat (length (bytes_of r ++ [255])).
Proof. unfold lp_total. rewrite !pos_app, bytes_of_app, !length_app. cbn [length]. lia. Qed.

Lemma rep_split b l o r : lp_rep b (l ++ o ++ r) -> exists n slack, count_ok n (l ++ o ++ r) /\
  b = front n (l ++ o ++ r) l ++ bytes_of o ++ (bytes_of r ++ [255]) ++ slack.
Proof.
  intros [(n & slack & -> & Hn) _ _]. exists n, slack. split; [done|]. by rewrite image_split, bytes_of_app, <- !app_assoc.
Qed.

(** The replaced element: its size is found and lies inside the listpack. *)
Lemma replaced_spec b l o r : lp_rep b (l ++ olist o ++ r) ->
  lpInsert_replaced b (pos l) (match o with Some _ => true | None => false end) =
  Some (Z.of_nat (length (bytes_of (olist o)))).
Proof.
  intros HR. unfold lpInsert_replaced. destruct o as [e|]; cbn [olist app] in *; [|done]. rewrite (rep_size b l e r HR). cbn [mbind option_bind].
  change (Z.of_nat (length e) + _) with (entry_size e). rewrite bytes_of_one, length_entry.
  pose proof (rep_total _ _ HR). pose proof (pos_lt_total l e r (rep_enc _ _ HR)) as Hp. pose proof (pos_ge l). rewrite pos_snoc in Hp.
  rewrite wrap_id by (unfold in_u, UINT32_MAX in *; lia). unfold ASSERT_INTEGRITY_LEN. rewrite (rep_total_bytes _ _ HR).
  cbn [mbind option_bind]. unfold assert_. zb. done.
Qed.

(** What follows the position, once the bytes are moved. *)
Lemma get_behind A J r S (delete : bool) : (delete = true -> J = []) -> (J <> [] \/ Forall is_enc r) -> exists x,
  get (A ++ J ++ (bytes_of r ++ [255]) ++ S) (Z.of_nat (length A)) = Some x /\
  (if delete && (x =? LP_EOF) then None else Some (Z.of_nat (length A))) =
  (if delete then match r with [] => None | _ => Some (Z.of_nat (length A)) end else Some (Z.of_nat (length A))).
Proof.
  intros HJ Hr. destruct J as [|j J].
  - destruct Hr as [?|Hr]; [done|]. destruct r as [|e r]; cbn [app].
    + exists 255. split; [by apply get_app|]. by destruct delete.
    + apply Forall_cons in Hr as [[v He] _]. destruct (enc_head e v He) as (x & t & -> & Hx). exists x. split; [|].
      * rewrite bytes_of_cons, <- !app_assoc. by apply get_app.
      * destruct delete; [|done]. zb. done.
  - destruct delete; [by specialize (HJ eq_refl)|]. exists j. split; [by apply get_app|done].
Qed.

(** A modification that leads to the elements [es'] and the pointer [newp]: it
    returns [NULL] exactly when the listpack would exceed 2^32-1 bytes. *)
Definition modifies (res : option (option (list Z * option Z))) (es' : list (list Z)) (newp : option Z) : Prop :=
  if UINT32_MAX <? lp_total es' then res = Some None else exists b', res = Some (Some (b', newp)) /\ lp_rep b' es'.

Lemma lpInsert_at_spec b ele l o r : lp_rep b (l ++ olist o ++ r) -> ele_ok ele -> (ele = EleNone -> o <> None) ->
  modifies (lpInsert_at undef alloc b ele (pos l) (match o with Some _ => true | None => false end))
    (l ++ ele_new ele ++ r) (if ele_delete ele then ptr l r else Some (pos l)).
Proof.
  intros HR Hok Ho. unfold modifies, lpInsert_at. set (es' := l ++ ele_new ele ++ r). fold (ele_enc ele). fold (ele_delete ele).
  destruct (ele_enc ele) as [intenc enclen] eqn:EE. destruct (ele_enc_len ele intenc enclen EE Hok) as [Hlen Hencl].
  rewrite (rep_total_bytes _ _ HR). cbn [mbind option_bind]. rewrite (replaced_spec b l o r HR). cbn [mbind option_bind].
  pose proof (rep_total _ _ HR) as Ht. pose proof (pos_ge l). pose proof (total_split l (olist o) r) as Hts.
  pose proof (total_split l (ele_new ele) r : lp_total es' = _) as Hts'.
  set (size := if ele_delete ele then 0 else lpEncodeBacklenSize enclen) in *.
  assert (0 <= size <= 5) by (unfold size; pose proof (backlen_size_range enclen); destruct (ele_delete ele); lia).
  assert (u64 (lp_total (l ++ olist o ++ r) + enclen + size - Z.of_nat (length (bytes_of (olist o)))) = lp_total es') as ->.
  { rewrite wrap_id; [lia|]. unfold in_u. unfold UINT32_MAX in *. lia. }
  rewrite Z.gtb_ltb. destruct (Z.ltb_spec UINT32_MAX (lp_total es')) as [|Hfit]; [done|].
  destruct (rep_split b l (olist o) r HR) as (n & slack & Hn & ->).
  set (es := l ++ olist o ++ r) in *. set (A := front n es l). set (O := bytes_of (olist o)) in *. set (B := bytes_of r ++ [255]) in *.
  assert (pos l = Z.of_nat (length A)) as HA by (symmetry; apply length_front). rewrite HA.
  destruct (grow_spec A O B slack (lp_total es') (lp_total es)) as (S1 & -> & HS1); [rewrite !length_app; lia|lia|].
  destruct (memmove_gap A O B S1 (enclen + size)) as (J & S2 & HM & HJ & _); [rewrite !length_app in *; lia|lia|].
  assert ((if negb (match o with Some _ => true | None => false end)
           then memmove (A ++ O ++ B ++ S1) (Z.of_nat (length A) + enclen + size) (Z.of_nat (length A)) (lp_total es - Z.of_nat (length A))
           else memmove (A ++ O ++ B ++ S1) (Z.of_nat (length A) + enclen + size) (Z.of_nat (length A) + Z.of_nat (length O))
             (lp_total es - Z.of_nat (length A) - Z.of_nat (length O))) = Some (A ++ J ++ B ++ S2)) as ->.
  { rewrite <- HM. replace (Z.of_nat (length A) + enclen + size) with (Z.of_nat (length A) + (enclen + size)) by lia.
    destruct o; cbn [negb]; [f_equal; lia|]. change (length O) with 0%nat in *. f_equal; lia. }
  cbn [mbind option_bind].
  destruct (shrink_spec A J B S2 (lp_total es') (lp_total es)) as (S3 & ->); [rewrite !length_app; lia|].
  destruct (get_behind A J r S3 (ele_delete ele)) as (x & Hx & Hnewp).
  { intros Hd. destruct ele; try done. by apply length_zero_iff_nil; change (length (bytes_of (ele_new EleNone))) with 0%nat in *; lia. }
  { right. pose proof (rep_enc _ _ HR) as HE. by apply Forall_app in HE as [_ [_ ?]%Forall_app]. }
  fold B in Hx. rewrite Hx. cbn [mbind option_bind]. rewrite Hnewp.
  pose proof (lpInsert_store_spec A J (B ++ S3) ele Hok ltac:(lia)) as HS. rewrite EE in HS.
  replace (lpInsert_store _ ele intenc _ enclen _) with (Some (A ++ bytes_of (ele_new ele) ++ B ++ S3)).
  2:{ rewrite <- HS. by destruct ele. }
  cbn [mbind option_bind].
  assert (forall X, A ++ X = le_bytes 4 (lp_total es) ++ le_bytes 2 n ++ bytes_of l ++ X) as EA
    by (intros; unfold A, front; by rewrite <- !app_assoc).
  rewrite EA, lpInsert_count_spec by (by eapply count_ok_u16).
  cbn [mbind option_bind]. rewrite set_total. cbn [mbind option_bind]. eexists. split; [by rewrite <- HA|].
  split; [|pose proof (rep_enc _ _ HR) as HE; apply Forall_app in HE as [? [_ ?]%Forall_app]; repeat apply Forall_app_2;
           [done|by eapply ele_new_enc|done]|done].
  do 2 eexists. split; [|by apply count_after_ok]. unfold image, es', B. rewrite !bytes_of_app, <- !app_assoc. reflexivity.
Qed.

(** The elements after [lpInsert] at the [i]-th, and the index of the inserted one. *)
Definition ins_at (i : nat) (where_ : lpwhere) : nat := match where_ with LP_AFTER => S i | _ => i end.
Definition ins_where (ele : lpele) (where_ : lpwhere) : lpwhere := if ele_delete ele then LP_REPLACE else where_.
Definition ins_elts (es : list (list Z)) (ele : lpele) (i : nat) (where_ : lpwhere) : list (list Z) :=
  take (ins_at i where_) es ++ ele_new ele ++ drop (match where_ with LP_BEFORE => i | _ => S i end) es.

Lemma split_at (es : list (list Z)) i e : es !! i = Some e -> es = take i es ++ e :: drop (S i) es.
Proof. intros. symmetry. by apply take_drop_middle. Qed.

Lemma lpInsert_spec b es ele i e where_ : lp_rep b es -> es !! i = Some e -> ele_ok ele ->
  let w := ins_where ele where_ in
  modifies (lpInsert undef alloc b ele (pos (take i es)) where_) (ins_elts es ele i w)
    (if ele_delete ele then ptr (take i es) (drop (S i) es) else Some (pos (take (ins_at i w) es))).
Proof.
  intros HR Hi Hok w. pose proof (split_at es i e Hi) as ES.
  assert (lp_rep b (take i es ++ olist (Some e) ++ drop (S i) es)) as HRi by (cbn [olist app]; by rewrite <- ES).
  assert (lp_rep b (take i es ++ olist None ++ drop i es)) as HRb by (cbn [olist app]; by rewrite take_drop).
  destruct ele as [s|x|]; [| |by apply (lpInsert_at_spec b EleNone (take i es) (Some e))];
    (destruct where_; cbn [lpInsert ins_where ele_delete] in w; subst w;
     [lazymatch type of Hok with ele_ok ?x => exact (lpInsert_at_spec b x (take i es) None (drop i es) HRb Hok ltac:(done)) end| |
      lazymatch type of Hok with ele_ok ?x => exact (lpInsert_at_spec b x (take i es) (Some e) (drop (S i) es) HRi Hok ltac:(done)) end]);
    cbn [lpInsert]; cbn [olist app] in HRi; rewrite (lpSkip_spec b _ e _ HRi); cbn [mbind option_bind];
    unfold ASSERT_INTEGRITY; rewrite (rep_total_bytes _ _ HR); cbn [mbind option_bind];
    (replace (take i es ++ [e]) with (take (S i) es) by (by apply take_S_r));
    (assert (pos (take (S i) es) < lp_total es) as Hlt
       by (rewrite <- (take_drop (S i) es) at 2; unfold lp_total; rewrite pos_app; lia));
    pose proof (pos_ge (take (S i) es)); unfold assert_; zb; cbn [mbind option_bind];
    lazymatch type of Hok with ele_ok ?x => refine (lpInsert_at_spec b x (take (S i) es) None (drop (S i) es) _ Hok ltac:(done)) end;
    cbn [olist app]; by rewrite take_drop.
Qed.

Definition modifies_lp (res : option (option (list Z))) (es' : list (list Z)) : Prop :=
  if UINT32_MAX <? lp_total es' then res = Some None else exists b', res = Some (Some b') /\ lp_rep b' es'.

Lemma drop_newp_spec res es' newp : modifies res es' newp -> modifies_lp (drop_newp res) es'.
Proof.
  unfold modifies, modifies_lp. case_zb; [by intros ->|]. intros (b' & -> & HR). by exists b'.
Qed.

Lemma append_spec b es ele : lp_rep b es -> ele_ok ele -> ele <> EleNone ->
  modifies_lp (listpack_bytes ← lpGetTotalBytes b; drop_newp (lpInsert undef alloc b ele (listpack_bytes - 1) LP_BEFORE)) (es ++ ele_new ele).
Proof.
  intros HR Hok Hne. rewrite (rep_total_bytes _ _ HR). cbn [mbind option_bind]. unfold lp_total. rewrite Z.add_simpl_r.
  assert (lp_rep b (es ++ olist None ++ [])) as HR' by (cbn [olist app]; by rewrite app_nil_r).
  pose proof (lpInsert_at_spec b ele es None [] HR' Hok ltac:(done)) as HI. rewrite app_nil_r in HI.
  eapply drop_newp_spec. destruct ele; [exact HI|exact HI|done].
Qed.

Lemma lpEncodeInteger_ok v : in_s 64 v -> ele_ok (EleInt (lpEncodeIntegerGetType v)).
Proof. intros Hv. exists (ValInt v). by apply lpEncodeIntegerGetType_enc. Qed.

Lemma lpAppend_spec b es s : lp_rep b es -> ele_ok (EleStr s) -> modifies_lp (lpAppend undef alloc b s) (es ++ [str_enc s]).
Proof. intros. by apply (append_spec b es (EleStr s)). Qed.

Lemma lpAppendInteger_spec b es v : lp_rep b es -> in_s 64 v ->
  modifies_lp (lpAppendInteger undef alloc b v) (es ++ [lpEncodeIntegerGetType v]).
Proof. intros. apply (append_spec b es (EleInt (lpEncodeIntegerGetType v))); [done|by apply lpEncodeInteger_ok|done]. Qed.

Lemma prepend_spec b e es ele : lp_rep b (e :: es) -> ele_ok ele -> ele <> EleNone ->
  modifies_lp (drop_newp (lpInsert undef alloc b ele (pos []) LP_BEFORE)) (ele_new ele ++ e :: es).
Proof.
  intros HR Hok Hne. pose proof (lpInsert_spec b (e :: es) ele 0 e LP_BEFORE HR eq_refl Hok) as HI. cbv zeta in HI.
  eapply drop_newp_spec. unfold ins_where, ins_elts in HI. destruct ele; [exact HI|exact HI|done].
Qed.

Lemma lpPrepend_spec b es s : lp_rep b es -> ele_ok (EleStr s) -> modifies_lp (lpPrepend undef alloc b s) (str_enc s :: es).
Proof.
  intros HR Hok. unfold lpPrepend. rewrite (lpFirst_spec b es HR). cbn [mbind option_bind].
  destruct es as [|e es]; [by apply (lpAppend_spec b [] s)|]. by apply (prepend_spec b e es (EleStr s)).
Qed.

Lemma lpPrependInteger_spec b es v : lp_rep b es -> in_s 64 v ->
  modifies_lp (lpPrependInteger undef alloc b v) (lpEncodeIntegerGetType v :: es).
Proof.
  intros HR Hv. unfold lpPrependInteger. rewrite (lpFirst_spec b es HR). cbn [mbind option_bind].
  destruct es as [|e es]; [by apply (lpAppendInteger_spec b [] v)|].
  apply (prepend_spec b e es (EleInt (lpEncodeIntegerGetType v))); [done|by apply lpEncodeInteger_ok|done].
Qed.
End Insert.
