(* ===== verification/ListpackRange.v ===== *)
(** * ListpackRange: creation, ranges, batches and merges of listpacks

    The operations of listpack.c that rebuild a listpack as a whole:
    [lpNew], [lpShrinkToFit], [lpDup], [lpDeleteRangeWithEntry], [lpDeleteRange],
    [lpBatchDelete] and [lpMerge]. *)

From Stdlib Require Import ZArith Lia ZifyBool.
From stdpp Require Import base gmap numbers option list.
From S2P Require Import Prelude Numstr Listpack ListpackCodec ListpackProof.

Local Open Scope Z_scope.

Section Range.
Context (undef : nat -> Z) (alloc : Z -> Z) (Halloc : forall n, 0 <= n -> n <= alloc n).

Lemma image_length n es : Z.of_nat (length (image n es)) = lp_total es.
Proof. unfold image, lp_total, pos. rewrite !length_app, !length_le_bytes. simpl. lia. Qed.

Lemma get_total_image n es slack : lp_total es <= UINT32_MAX -> lpGetTotalBytes (image n es ++ slack) = Some (lp_total es).
Proof. intros. unfold image. rewrite <- !app_assoc. apply lp_get_total. by apply total_u32. Qed.

Lemma get_numele_image n es slack : in_u 16 n -> lpGetNumElements (image n es ++ slack) = Some n.
Proof. intros. unfold image. rewrite <- !app_assoc. by apply get_numele. Qed.

(** ** Creation and copies *)

Lemma malloc_length n : 0 <= n -> n <= Z.of_nat (length (lp_malloc undef alloc n)).
Proof. intros Hn. pose proof (Halloc n Hn). unfold lp_malloc. rewrite length_realloc; lia. Qed.

Lemma lpNew_spec capacity : exists b, lpNew undef alloc capacity = Some b /\ lp_rep b [].
Proof.
  unfold lpNew. rewrite Z.gtb_ltb. set (m := if _ <? _ then _ else _).
  assert (7 <= m) as Hm by (unfold m; case_zb; lia). pose proof (malloc_length m ltac:(lia)) as HL.
  destruct (lp_malloc undef alloc m) as [|x0 [|x1 [|x2 [|x3 [|x4 [|x5 [|x6 slack]]]]]]]; cbn [length] in HL; try lia.
  unfold lpSetTotalBytes, lpSetNumElements. put_steps. cbn [fmap option_fmap option_map mbind option_bind]. put_steps.
  eexists. split; [reflexivity|]. split; [|constructor|done]. exists 0, slack. split; [reflexivity|]. right. done.
Qed.

Lemma lpShrinkToFit_image n es slack : lp_total es <= UINT32_MAX ->
  exists slack', lpShrinkToFit undef alloc (image n es ++ slack) = Some (image n es ++ slack').
Proof.
  intros Ht. unfold lpShrinkToFit. rewrite get_total_image by done. cbn [mbind option_bind]. case_zb; [|by exists slack].
  destruct (lp_realloc_prefix undef alloc Halloc (image n es) slack (lp_total es)) as (S' & -> & _); [rewrite image_length; lia|].
  by exists S'.
Qed.

Lemma blit_0 s s' q : length s = length s' -> blit (s ++ q) 0 s' = Some (s' ++ q).
Proof. intros. by apply (blit_app []). Qed.

Lemma lpDup_spec b es : lp_rep b es -> exists b', lpDup undef alloc b = Some b' /\ lp_rep b' es.
Proof.
  intros HR. unfold lpDup, lpBytes. rewrite (rep_total_bytes _ _ HR). cbn [mbind option_bind].
  pose proof (malloc_length (lp_total es)) as HL. pose proof (pos_ge es). destruct HR as [(n & slack & -> & Hn) HE Ht].
  rewrite (slice_app [] (image n es) slack) by (rewrite ?image_length; done). cbn [mbind option_bind].
  set (m := lp_malloc undef alloc (lp_total es)) in *. specialize (HL ltac:(unfold lp_total; lia)).
  pose proof (image_length n es). rewrite <- (take_drop (length (image n es)) m).
  rewrite blit_0 by (rewrite length_take; lia).
  eexists. split; [done|]. split; [|done|done]. by exists n, (drop (length (image n es)) m).
Qed.

(** ** Ranges *)

Lemma memmove_close A O B S : exists J,
  memmove (A ++ O ++ B ++ S) (Z.of_nat (length A)) (Z.of_nat (length A) + Z.of_nat (length O)) (Z.of_nat (length B)) =
  Some (A ++ B ++ J ++ S) /\ length J = length O.
Proof.
  unfold memmove. assert (slice (A ++ O ++ B ++ S) (Z.of_nat (length A) + Z.of_nat (length O)) (Z.of_nat (length B)) = Some B) as ->
    by (rewrite app_assoc; apply slice_app; rewrite ?length_app; lia). cbn [mbind option_bind].
  exists (drop (length B) (O ++ B)). rewrite length_drop, length_app. split; [|lia].
  rewrite (app_assoc O B S), <- (take_drop (length B) (O ++ B)) at 1. rewrite <- app_assoc. rewrite (blit_app A _ B); [done|done|].
  rewrite length_take, length_app. lia.
Qed.

Lemma delete_range_loop_spec b es : lp_rep b es -> forall r l num deleted fuel, es = l ++ r -> r <> [] -> 0 <= num -> (length r < fuel)%nat ->
  delete_range_loop fuel b (lp_total es) num (pos l) deleted =
  Some (pos (l ++ take (Z.to_nat num) r), deleted + Z.of_nat (length (take (Z.to_nat num) r))).
Proof.
  intros HR. induction r as [|e r IH]; intros l num deleted fuel -> Hne Hnum Hf; [done|]. destruct fuel as [|fuel]; [lia|].
  cbn [delete_range_loop]. destruct (Z.eqb_spec num 0) as [->|Hn0].
  { cbn [Z.to_nat take length]. by rewrite app_nil_r, Z.add_0_r. }
  rewrite (lpSkip_spec b l e r HR). cbn [mbind option_bind].
  replace (Z.to_nat num) with (S (Z.to_nat (num - 1))) by lia. cbn [take].
  destruct r as [|e' r].
  - rewrite (rep_get_end b _ HR). cbn [mbind option_bind]. rewrite Z.eqb_refl, take_nil. done.
  - assert (lp_rep b ((l ++ [e]) ++ e' :: r)) as HR' by (by rewrite <- app_assoc).
    destruct (rep_get b (l ++ [e]) e' r HR') as (x & -> & Hx). cbn [mbind option_bind]. rewrite Hx.
    pose proof (lpAssertValidEntry_spec b _ _ HR') as HV. rewrite <- app_assoc in HV. cbn [app] in HV. rewrite HV. cbn [mbind option_bind length] in *.
    rewrite (IH (l ++ [e])); [|by rewrite <- app_assoc|done|lia|lia]. rewrite <- app_assoc. cbn [app length]. do 2 f_equal. lia.
Qed.

(** The header and the tail after the bytes of [o] are removed. *)
Lemma lpShorten_spec n (l r : list (list Z)) t slack deleted : Forall is_enc (l ++ r) -> lp_total (l ++ r) <= UINT32_MAX ->
  in_u 16 n -> (n <> 65535 -> n = Z.of_nat (length (l ++ r)) + deleted) -> 0 <= deleted ->
  exists b', lpShorten undef alloc (le_bytes 4 t ++ le_bytes 2 n ++ bytes_of l ++ (bytes_of r ++ [255]) ++ slack) (lp_total (l ++ r)) deleted =
    Some b' /\ lp_rep b' (l ++ r).
Proof.
  intros HE Ht Hu Hn Hd. unfold lpShorten. rewrite set_total. cbn [mbind option_bind]. rewrite get_numele by done. cbn [mbind option_bind].
  assert (forall m, le_bytes 4 (lp_total (l ++ r)) ++ le_bytes 2 m ++ bytes_of l ++ (bytes_of r ++ [255]) ++ slack = image m (l ++ r) ++ slack) as EI.
  { intros m. unfold image. by rewrite bytes_of_app, <- !app_assoc. }
  assert (forall m, count_ok m (l ++ r) -> exists b', lpShrinkToFit undef alloc (image m (l ++ r) ++ slack) = Some b' /\ lp_rep b' (l ++ r)) as HF.
  { intros m Hm. destruct (lpShrinkToFit_image m (l ++ r) slack Ht) as (S' & ->). eexists. split; [done|].
    split; [by exists m, S'|done|done]. }
  destruct (Z.eqb_spec n 65535) as [->|Hne]; cbn [negb].
  - rewrite EI. cbn [mbind option_bind]. apply HF. by left.
  - rewrite set_numele. cbn [mbind option_bind]. rewrite EI. apply HF. right. specialize (Hn Hne). unfold in_u in Hu.
    rewrite wrap_id by (unfold in_u; lia). lia.
Qed.

Lemma total_le_app l o r : lp_total (l ++ r) <= lp_total (l ++ o ++ r).
Proof. unfold lp_total. rewrite !pos_app, bytes_of_app, length_app. lia. Qed.

Lemma front_app n es l X : front n es l ++ X = le_bytes 4 (lp_total es) ++ le_bytes 2 n ++ bytes_of l ++ X.
Proof. unfold front. by rewrite <- !app_assoc. Qed.

Lemma enc_app_sub (l o r : list (list Z)) : Forall is_enc (l ++ o ++ r) -> Forall is_enc (l ++ r).
Proof. rewrite !Forall_app. tauto. Qed.

Lemma land_ptr b l r : lp_rep b (l ++ r) ->
  (x ← get b (pos l); Some (if x =? LP_EOF then None else Some (pos l))) = Some (ptr l r).
Proof.
  intros HR. destruct r as [|e r].
  - rewrite app_nil_r in HR. by rewrite (rep_get_end b l HR).
  - destruct (rep_get b l e r HR) as (x & -> & Hx). cbn [mbind option_bind]. by rewrite Hx.
Qed.

Lemma lpDeleteRangeWithEntry_spec b l r num : lp_rep b (l ++ r) -> r <> [] -> 0 <= num ->
  exists b', lpDeleteRangeWithEntry undef alloc b (pos l) num = Some (b', ptr l (drop (Z.to_nat num) r)) /\
    lp_rep b' (l ++ drop (Z.to_nat num) r).
Proof.
  intros HR Hne Hnum. unfold lpDeleteRangeWithEntry, lpBytes. rewrite (rep_total_bytes _ _ HR). cbn [mbind option_bind].
  destruct (Z.eqb_spec num 0) as [->|Hn0]. { exists b. split; [|done]. by destruct r. }
  rewrite (delete_range_loop_spec b _ HR r l num 0) by (done || by apply (rep_fuel b l r)). cbn [mbind option_bind].
  set (o := take (Z.to_nat num) r). set (r' := drop (Z.to_nat num) r).
  assert (r = o ++ r') as Er by (symmetry; apply take_drop). rewrite Er in HR |- *.
  destruct (rep_split b l o r' HR) as (n & slack & Hn & ->). pose proof (length_front n (l ++ o ++ r') l) as HA.
  assert (lp_total (l ++ o ++ r') = pos (l ++ o) + Z.of_nat (length (bytes_of r' ++ [255]))) as Hsz.
  { rewrite total_split, pos_app. lia. }
  replace (lp_total (l ++ o ++ r') - 1 - pos (l ++ o) + 1) with (Z.of_nat (length (bytes_of r' ++ [255]))) by lia.
  rewrite (pos_app l o), <- HA. destruct (memmove_close (front n (l ++ o ++ r') l) (bytes_of o) (bytes_of r' ++ [255]) slack) as (J & -> & HJ).
  cbn [mbind option_bind].
  replace (lp_total (l ++ o ++ r') - _) with (lp_total (l ++ r')) by (rewrite !HA; unfold lp_total; rewrite !pos_app, bytes_of_app, length_app; lia).
  rewrite front_app.
  destruct (lpShorten_spec n l r' (lp_total (l ++ o ++ r')) (J ++ slack) (0 + Z.of_nat (length o))) as (b' & -> & HR').
  { by eapply enc_app_sub, (rep_enc _ _ HR). }
  { pose proof (rep_total _ _ HR). pose proof (total_le_app l o r'). lia. }
  { by eapply count_ok_u16. }
  { intros Hne'. destruct Hn as [?|[-> Hlt]]; [done|]. rewrite !length_app in *. lia. }
  { lia. }
  cbn [mbind option_bind]. exists b'. split; [|done].
  rewrite HA. pose proof (land_ptr b' l r' HR') as HL. destruct (get b' (pos l)) as [x|]; [|done]. cbn [mbind option_bind] in *. congruence.
Qed.

(** The elements left by [lpDeleteRange]. *)
Definition delete_range {A} (es : list A) (index num : Z) : list A :=
  match seek_index (length es) index with
  | Some j => take j es ++ drop (Z.to_nat num) (drop j es)
  | None => es
  end.

Lemma seek_index_spec len index j : seek_index len index = Some j ->
  (j < len)%nat /\ (if index <? 0 then Z.of_nat len + index else index) = Z.of_nat j.
Proof. unfold seek_index. destruct (_ && _) eqn:E; [|done]. intros [= <-]. revert E. case_zb; intros; lia. Qed.

(** Moving the end marker drops the rest. *)
Lemma truncate_spec b l e r : lp_rep b (l ++ e :: r) -> Z.of_nat (length l) < 65535 ->
  exists b', (b ← put b (pos l) LP_EOF; b ← lpSetTotalBytes b (pos l + 1);
    b ← lpSetNumElements b (Z.of_nat (length l)); lpShrinkToFit undef alloc b) = Some b' /\ lp_rep b' l.
Proof.
  intros HR Hl. destruct (rep_is_enc _ _ _ _ HR) as [v He]. destruct (enc_head e v He) as (x & t & -> & _).
  pose proof HR as [(n & slack & -> & _) HE Ht]. rewrite image_at. cbn [app].
  rewrite put_app by (by rewrite length_front). cbn [mbind option_bind]. rewrite front_app, set_total.
  cbn [mbind option_bind]. rewrite set_numele. cbn [mbind option_bind].
  assert (lp_total l <= UINT32_MAX) as Htl.
  { unfold lp_total in *. rewrite pos_app in Ht. lia. }
  set (rest := t ++ _). replace (_ ++ _ ++ bytes_of l ++ _) with (image (Z.of_nat (length l)) l ++ rest)
    by (unfold image; by rewrite <- !app_assoc).
  destruct (lpShrinkToFit_image (Z.of_nat (length l)) l rest Htl) as (S' & ->). eexists. split; [done|].
  split; [|by apply Forall_app in HE as [? _]|done]. do 2 eexists. split; [done|]. by right.
Qed.

Lemma lpDeleteRange_spec b es index num : lp_rep b es -> 0 <= num ->
  exists b', lpDeleteRange undef alloc b index num = Some b' /\ lp_rep b' (delete_range es index num).
Proof.
  intros HR Hnum. unfold lpDeleteRange, delete_range. destruct (rep_numele b es HR) as (n & -> & Hn). cbn [mbind option_bind].
  destruct (Z.eqb_spec num 0) as [->|Hn0].
  { exists b. split; [done|]. destruct (seek_index _ _); [|done]. by rewrite drop_0, take_drop. }
  rewrite (lpSeek_spec b es index HR). cbn [mbind option_bind]. destruct (seek_index (length es) index) as [j|] eqn:Ej;
    cbn [ptr_at fmap option_fmap option_map]; [|by exists b].
  destruct (seek_index_spec _ _ _ Ej) as [Hj Hix]. destruct (lookup_lt_is_Some_2 es j Hj) as [e He].
  assert (drop j es = e :: drop (S j) es) as Ed by (by apply drop_S).
  assert (lp_rep b (take j es ++ drop j es)) as HRj by (by rewrite take_drop).
  destruct (_ && (u64 _ <=? num)) eqn:Ek.
  - assert (n <> 65535) as Hne by lia. destruct Hn as [?|[-> Hlt]]; [done|].
    assert ((if negb (Z.of_nat (length es) =? LP_HDR_NUMELE_UNKNOWN) && (index <? 0) then Z.of_nat (length es) + index else index) = Z.of_nat j) as ->.
    { zb. done. }
    assert (length (take j es) = j) as Hlj by (rewrite length_take; lia).
    rewrite Ed in HRj. destruct (truncate_spec b (take j es) e (drop (S j) es) HRj) as (b' & HB & HR'); [lia|].
    rewrite Hlj in HB. exists b'. split; [done|]. rewrite (drop_ge (drop j es)); [by rewrite app_nil_r|].
    rewrite length_drop. revert Ek. zb. rewrite Hix. rewrite wrap_id by (unfold in_u; lia). lia.
  - destruct (lpDeleteRangeWithEntry_spec b (take j es) (drop j es) num HRj) as (b' & -> & HR'); [by rewrite Ed|done|].
    by exists b'.
Qed.

(** ** Batches *)

(** The pointers to the elements selected by a mask, and the other elements. *)
Fixpoint marked (p : Z) (es : list (list Z)) (mask : list bool) : list Z :=
  match es, mask with
  | e :: es, m :: mask => (if m : bool then [p] else []) ++ marked (p + entry_size e) es mask
  | _, _ => []
  end.
Fixpoint kept {A} (es : list A) (mask : list bool) : list A :=
  match es, mask with
  | e :: es, m :: mask => (if m : bool then [] else [e]) ++ kept es mask
  | _, _ => es
  end.

(** Deleted elements, each with the elements kept behind it. *)
Notation segs := (list (list Z * list (list Z))).
Definition flat (ss : segs) : list (list Z) := concat ((fun '(e, k) => e :: k) <$> ss).
Definition flat_kept (ss : segs) : list (list Z) := concat (snd <$> ss).
Fixpoint marks (p : Z) (ss : segs) : list Z :=
  match ss with
  | [] => []
  | (e, k) :: ss => p :: marks (p + entry_size e + Z.of_nat (length (bytes_of k))) ss
  end.

Lemma mask_segs es : forall mask p, length mask = length es -> exists k0 (ss : segs),
  es = k0 ++ flat ss /\ kept es mask = k0 ++ flat_kept ss /\ marked p es mask = marks (p + Z.of_nat (length (bytes_of k0))) ss.
Proof.
  induction es as [|e es IH]; intros [|m mask] p Hl; simplify_eq/=; [by exists [], []|].
  destruct (IH mask (p + entry_size e) ltac:(lia)) as (k0 & ss & -> & -> & ->). destruct m.
  - exists [], ((e, k0) :: ss). unfold flat, flat_kept. cbn [fmap list_fmap concat snd app marks]. split; [done|]. split; [done|].
    cbn [bytes_of fmap list_fmap concat length]. change (Z.of_nat 0) with 0. by rewrite Z.add_0_r.
  - exists (e :: k0), ss. split; [done|]. split; [done|]. rewrite bytes_of_len_cons. cbn [app]. f_equal. lia.
Qed.

Lemma lpSkip_raw P e B : is_enc e -> lpSkip (P ++ e ++ B) (Z.of_nat (length P)) = Some (Z.of_nat (length P) + entry_size e) /\
  exists x, get (P ++ e ++ B) (Z.of_nat (length P)) = Some x /\ (x =? LP_EOF) = false.
Proof.
  intros [v He]. split; [unfold lpSkip; by rewrite (size_enc P e B v He)|].
  destruct (enc_head e v He) as (x & t & -> & Hx). exists x. split; [by apply get_head|]. lia.
Qed.

Lemma flat_cons e k (ss : segs) : flat ((e, k) :: ss) = e :: k ++ flat ss.
Proof. done. Qed.

Lemma batch_delete_loop_spec (ss : segs) : forall A G slack, ss <> [] -> Forall is_enc (flat ss) ->
  exists G', batch_delete_loop (A ++ G ++ bytes_of (flat ss) ++ 255 :: slack)
      (Z.of_nat (length (A ++ G)) + Z.of_nat (length (bytes_of (flat ss))) + 1) (Z.of_nat (length A)) (marks (Z.of_nat (length (A ++ G))) ss) =
    Some (A ++ bytes_of (flat_kept ss) ++ 255 :: G', Z.of_nat (length A) + Z.of_nat (length (bytes_of (flat_kept ss))) + 1).
Proof.
  induction ss as [|[e k] ss IH]; intros A G slack Hne HE; [done|]. clear Hne.
  rewrite flat_cons in *. apply Forall_cons in HE as [He HE]. apply Forall_app in HE as [Hk HE].
  set (b := A ++ G ++ bytes_of (e :: k ++ flat ss) ++ 255 :: slack).
  assert (b = (A ++ G) ++ e ++ (lpEncodeBacklen (Z.of_nat (length e)) ++ bytes_of k ++ bytes_of (flat ss) ++ 255 :: slack)) as V1.
  { unfold b. by rewrite bytes_of_cons, bytes_of_app, <- !app_assoc. }
  assert (b = A ++ (G ++ entry e) ++ bytes_of k ++ bytes_of (flat ss) ++ 255 :: slack) as V2.
  { unfold b, entry. by rewrite bytes_of_cons, bytes_of_app, <- !app_assoc. }
  destruct (lpSkip_raw (A ++ G) e (lpEncodeBacklen (Z.of_nat (length e)) ++ bytes_of k ++ bytes_of (flat ss) ++ 255 :: slack) He)
    as [HS (x & Hx & Heof)]. rewrite <- V1 in HS, Hx.
  cbn [marks batch_delete_loop]. rewrite Hx. cbn [mbind option_bind]. rewrite Heof. cbn [negb assert_ mbind option_bind]. rewrite HS.
  cbn [mbind option_bind]. rewrite bytes_of_len_cons, bytes_of_app, (length_app (bytes_of k)).
  pose proof (length_entry e) as Hle. clear V1 HS Hx Heof x. clearbody b. destruct ss as [|[e' k'] ss].
  - unfold flat_kept. cbn [marks fmap list_fmap concat snd]. rewrite !app_nil_r. change (bytes_of (flat [])) with (@nil Z) in *. cbn [length].
    unfold assert_. rewrite Z.gtb_ltb. zb. cbn [mbind option_bind].
    destruct (memmove_close A (G ++ entry e) (bytes_of k ++ [255]) slack) as (J & HM & _). exists (J ++ slack).
    replace (memmove b _ _ _) with (Some (A ++ (bytes_of k ++ [255]) ++ J ++ slack)).
    { cbn [mbind option_bind]. rewrite <- app_assoc. do 2 f_equal. lia. }
    rewrite <- HM. assert (b = A ++ (G ++ entry e) ++ (bytes_of k ++ [255]) ++ slack) as -> by (rewrite V2; by rewrite <- (app_assoc (bytes_of k))).
    f_equal; rewrite ?length_app; cbn [length]; lia.
  - set (ss' := (e', k') :: ss) in *. set (p1 := Z.of_nat (length (A ++ G)) + entry_size e + Z.of_nat (length (bytes_of k))).
    change (marks p1 ss') with (p1 :: marks (p1 + entry_size e' + Z.of_nat (length (bytes_of k'))) ss) at 1. cbv iota.
    change (p1 :: marks (p1 + entry_size e' + Z.of_nat (length (bytes_of k'))) ss) with (marks p1 ss').
    change (flat_kept ((e, k) :: ss')) with (k ++ flat_kept ss'). rewrite bytes_of_app, (length_app (bytes_of k)). unfold p1. destruct k as [|k0 k].
    + change (bytes_of []) with (@nil Z) in *. cbn [length app] in *. rewrite Z.add_0_r, Z.eqb_refl.
      destruct (IH A (G ++ entry e) slack) as (G' & HI); [done|done|]. exists G'. rewrite V2. refine (eq_trans _ HI).
      f_equal; [|f_equal]; rewrite ?length_app; lia.
    + pose proof (bytes_of_len_cons k0 k) as Hlk. pose proof (entry_size_pos k0 (proj1 (proj1 (Forall_cons _ _ _) Hk))).
      unfold assert_. rewrite Z.gtb_ltb. zb. cbn [mbind option_bind].
      destruct (memmove_close A (G ++ entry e) (bytes_of (k0 :: k)) (bytes_of (flat ss') ++ 255 :: slack)) as (J & HM & HJ).
      replace (memmove b _ _ _) with (Some (A ++ bytes_of (k0 :: k) ++ J ++ bytes_of (flat ss') ++ 255 :: slack))
        by (rewrite <- HM, V2; f_equal; rewrite ?length_app; lia).
      cbn [mbind option_bind]. destruct (IH (A ++ bytes_of (k0 :: k)) J slack) as (G' & HI); [done|done|]. exists G'.
      rewrite <- !app_assoc in HI. rewrite length_app in HJ. transitivity (Some (A ++ bytes_of (k0 :: k) ++ bytes_of (flat_kept ss') ++ 255 :: G',
        Z.of_nat (length (A ++ bytes_of (k0 :: k))) + Z.of_nat (length (bytes_of (flat_kept ss'))) + 1)).
      * rewrite <- HI. f_equal; [|f_equal|f_equal]; rewrite ?length_app; lia.
      * f_equal. f_equal; [by rewrite <- app_assoc|]. rewrite length_app. lia.
Qed.

Lemma flat_length (ss : segs) : length (flat ss) = (length ss + length (flat_kept ss))%nat.
Proof.
  induction ss as [|[e k] ss IH]; [done|]. rewrite flat_cons. change (flat_kept ((e, k) :: ss)) with (k ++ flat_kept ss).
  cbn [length]. rewrite !length_app, IH. lia.
Qed.

Lemma flat_kept_enc (ss : segs) : Forall is_enc (flat ss) -> Forall is_enc (flat_kept ss).
Proof.
  induction ss as [|[e k] ss IH]; [done|]. rewrite flat_cons. change (flat_kept ((e, k) :: ss)) with (k ++ flat_kept ss).
  rewrite Forall_cons, !Forall_app. tauto.
Qed.

Lemma flat_kept_total l (ss : segs) : Forall is_enc (flat ss) -> lp_total (l ++ flat_kept ss) <= lp_total (l ++ flat ss).
Proof.
  unfold lp_total. rewrite !pos_app. intros HE. enough (length (bytes_of (flat_kept ss)) <= length (bytes_of (flat ss)))%nat by lia.
  clear HE. induction ss as [|[e k] ss IH]; [done|]. rewrite flat_cons. change (flat_kept ((e, k) :: ss)) with (k ++ flat_kept ss).
  rewrite bytes_of_cons, !bytes_of_app, !length_app. lia.
Qed.

Lemma length_marks (ss : segs) : forall p, length (marks p ss) = length ss.
Proof. induction ss as [|[e k] ss IH]; intros; [done|]. cbn [marks length]. by rewrite IH. Qed.

Lemma lpBatchDelete_spec b es mask : lp_rep b es -> length mask = length es ->
  exists b', lpBatchDelete undef alloc b (marked LP_HDR_SIZE es mask) = Some b' /\ lp_rep b' (kept es mask).
Proof.
  intros HR Hm. destruct (mask_segs es mask LP_HDR_SIZE Hm) as (k0 & ss & -> & -> & ->).
  change (6 + _) with (pos k0). destruct ss as [|[e k] ss]; [by exists b|]. set (ss' := (e, k) :: ss) in *.
  assert (marks (pos k0) ss' <> []) as Hne by done. unfold lpBatchDelete.
  pose proof (length_marks ss' (pos k0)) as Hlm. destruct (marks (pos k0) ss') as [|dst ps] eqn:Ep; [done|].
  assert (dst = pos k0) as -> by (unfold ss' in Ep; cbn [marks] in Ep; congruence). rewrite <- Ep in *.
  rewrite (rep_total_bytes _ _ HR). cbn [mbind option_bind].
  replace (lp_total (k0 ++ flat ss') - 1) with (pos (k0 ++ flat ss')) by (unfold lp_total; lia). rewrite (rep_get_end _ _ HR).
  cbn [mbind option_bind]. change (assert_ (255 =? LP_EOF)) with (Some tt). cbn [mbind option_bind]. destruct (rep_view _ _ HR) as (n & slack & -> & Hn). pose proof (rep_enc _ _ HR) as HE.
  pose proof (rep_total _ _ HR) as Ht. apply Forall_app in HE as [HE0 HEs].
  pose proof (length_front n (k0 ++ flat ss') k0) as HA. set (A := front n (k0 ++ flat ss') k0) in *.
  rewrite image_split, <- app_assoc. fold A. cbn [app].
  destruct (batch_delete_loop_spec ss' A [] slack) as (G' & HB); [done|done|]. rewrite app_nil_r in HB. cbn [app] in HB.
  rewrite HA in HB. replace (pos k0 + _ + 1) with (lp_total (k0 ++ flat ss')) in HB by (unfold lp_total; rewrite pos_app; lia).
  rewrite <- app_assoc. cbn [app]. rewrite HB. cbn [mbind option_bind].
  pose proof (flat_kept_total k0 ss' HEs) as Hk. pose proof (pos_ge k0).
  assert (pos k0 + Z.of_nat (length (bytes_of (flat_kept ss'))) + 1 = lp_total (k0 ++ flat_kept ss')) as ->
    by (unfold lp_total; rewrite pos_app; lia).
  replace (lp_total (k0 ++ flat ss') - (lp_total (k0 ++ flat ss') - _)) with (lp_total (k0 ++ flat_kept ss')) by lia.
  pose proof (total_u32 (k0 ++ flat_kept ss') ltac:(lia)) as Hu. rewrite wrap_id by (unfold in_u in *; lia).
  rewrite app_assoc, get_app by (unfold lp_total; rewrite pos_app, length_app; lia). cbn [mbind option_bind].
  change (assert_ (255 =? LP_EOF)) with (Some tt). cbn [mbind option_bind]. rewrite <- app_assoc. unfold A. rewrite front_app, Hlm.
  replace (bytes_of (flat_kept ss') ++ 255 :: G') with ((bytes_of (flat_kept ss') ++ [255]) ++ G') by (by rewrite <- app_assoc).
  apply lpShorten_spec; [apply Forall_app; split; [done|by apply flat_kept_enc]|lia|by eapply count_ok_u16| |lia].
  intros Hne'. destruct Hn as [?|[-> _]]; [done|]. rewrite !length_app, flat_length. lia.
Qed.

(** ** Merging *)

Lemma lpMerge_append n1 es1 s1 n2 es2 s2 lpbytes : lpbytes = lp_total (es1 ++ es2) ->
  exists s', (s ← slice (image n2 es2 ++ s2) LP_HDR_SIZE (lp_total es2 - LP_HDR_SIZE);
    blit (lp_realloc undef alloc (image n1 es1 ++ s1) lpbytes) (lp_total es1 - 1) s) =
    Some (le_bytes 4 (lp_total es1) ++ le_bytes 2 n1 ++ bytes_of (es1 ++ es2) ++ [255] ++ s').
Proof.
  intros ->. assert (slice (image n2 es2 ++ s2) 6 (lp_total es2 - 6) = Some (bytes_of es2 ++ [255])) as ->.
  { unfold image. replace (_ ++ s2) with ((le_bytes 4 (lp_total es2) ++ le_bytes 2 n2) ++ (bytes_of es2 ++ [255]) ++ s2) by (by rewrite <- !app_assoc).
    apply slice_app; [by rewrite length_app, !length_le_bytes|]. unfold lp_total, pos. rewrite length_app. simpl. lia. }
  cbn [mbind option_bind].
  destruct (lp_realloc_prefix undef alloc Halloc (image n1 es1) s1 (lp_total (es1 ++ es2))) as (S' & -> & HS).
  { rewrite image_length. unfold lp_total. rewrite pos_app. lia. }
  rewrite length_app, Nat2Z.inj_add, image_length in HS. rewrite image_end.
  assert (length (bytes_of es2) <= length S')%nat by (unfold lp_total in HS; rewrite pos_app in HS; lia).
  replace (255 :: S') with ((255 :: take (length (bytes_of es2)) S') ++ drop (length (bytes_of es2)) S') by (cbn [app]; by rewrite take_drop).
  rewrite (blit_app (front n1 es1 es1) _ (bytes_of es2 ++ [255])).
  - eexists. rewrite front_app, bytes_of_app, <- !app_assoc. reflexivity.
  - rewrite length_front. unfold lp_total. lia.
  - cbn [length]. rewrite length_take, length_app. simpl. lia.
Qed.

Lemma lpMerge_prepend n1 es1 s1 n2 es2 s2 lpbytes : lpbytes = lp_total (es1 ++ es2) ->
  exists s', (target ← memmove (lp_realloc undef alloc (image n2 es2 ++ s2) lpbytes) (lp_total es1 - 1) LP_HDR_SIZE (lp_total es2 - LP_HDR_SIZE);
    s ← slice (image n1 es1 ++ s1) 0 (lp_total es1 - 1);
    blit target 0 s) = Some (le_bytes 4 (lp_total es1) ++ le_bytes 2 n1 ++ bytes_of (es1 ++ es2) ++ [255] ++ s').
Proof.
  intros ->.
  destruct (lp_realloc_prefix undef alloc Halloc (image n2 es2) s2 (lp_total (es1 ++ es2))) as (S' & -> & HS).
  { rewrite image_length. unfold lp_total. rewrite !pos_app. unfold pos. lia. }
  rewrite length_app, Nat2Z.inj_add, image_length in HS.
  set (H6 := le_bytes 4 (lp_total es2) ++ le_bytes 2 n2). set (B := bytes_of es2 ++ [255]).
  assert (length H6 = 6%nat) as HH by (unfold H6; by rewrite length_app, !length_le_bytes).
  assert (Z.of_nat (length B) = lp_total es2 - 6) as HB by (unfold B, lp_total, pos; rewrite length_app; simpl; lia).
  destruct (memmove_gap H6 [] B S' (Z.of_nat (length (bytes_of es1)))) as (J & S2 & HM & HJ & _).
  { rewrite !length_app, HH. cbn [length]. unfold lp_total in *. rewrite pos_app in HS. unfold pos in *. lia. }
  { lia. }
  replace (image n2 es2 ++ S') with (H6 ++ [] ++ B ++ S') by (unfold image, H6, B; cbn [app]; by rewrite <- !app_assoc).
  rewrite <- HB. replace (lp_total es1 - 1) with (Z.of_nat (length H6) + Z.of_nat (length (bytes_of es1))) by (rewrite HH; unfold lp_total, pos; lia).
  replace (memmove _ _ 6 _) with (Some (H6 ++ J ++ B ++ S2)) by (rewrite <- HM, HH; reflexivity). cbn [mbind option_bind].
  rewrite image_end. rewrite (slice_app [] (front n1 es1 es1) (255 :: s1)).
  - cbn [mbind option_bind]. rewrite app_assoc, blit_0.
    + eexists. unfold B. rewrite front_app, bytes_of_app, <- !app_assoc. reflexivity.
    + apply Nat2Z.inj. rewrite length_front, length_app. unfold pos. lia.
  - done.
  - rewrite length_front, HH. unfold pos. lia.
Qed.

Lemma total_app es1 es2 : lp_total (es1 ++ es2) = lp_total es1 + lp_total es2 - 6 - 1.
Proof. unfold lp_total. rewrite pos_app. unfold pos. lia. Qed.

Lemma lpMerge_spec b1 b2 es1 es2 : lp_rep b1 es1 -> lp_rep b2 es2 ->
  if lp_total (es1 ++ es2) <? UINT32_MAX
  then exists t, lpMerge undef alloc b1 b2 = Some (t, lp_total es1 >=? lp_total es2) /\ lp_rep t (es1 ++ es2)
  else lpMerge undef alloc b1 b2 = None.
Proof.
  intros HR1 HR2. unfold lpMerge, lpBytes. rewrite (rep_total_bytes _ _ HR1), (rep_total_bytes _ _ HR2). cbn [mbind option_bind].
  destruct (lpLength_spec b1 es1 HR1) as (b1' & -> & HR1' & _). cbn [mbind option_bind].
  destruct (lpLength_spec b2 es2 HR2) as (b2' & -> & HR2' & _). cbn [mbind option_bind].
  pose proof (total_u32 _ (rep_total _ _ HR1)) as Hu1. pose proof (total_u32 _ (rep_total _ _ HR2)) as Hu2.
  pose proof (total_app es1 es2) as Hta. pose proof (pos_ge (es1 ++ es2)) as Hpg.
  unfold in_u in *. rewrite <- Hta, wrap_id by (unfold in_u, lp_total in *; lia).
  set (append := lp_total es1 >=? lp_total es2).
  destruct (Z.ltb_spec (lp_total (es1 ++ es2)) UINT32_MAX) as [Hlt|]; [|by destruct append]. cbn [assert_ mbind option_bind].
  destruct (rep_view _ _ HR1') as (n1 & s1 & -> & _). destruct (rep_view _ _ HR2') as (n2 & s2 & -> & _).
  destruct (lpMerge_append n1 es1 s1 n2 es2 s2 _ eq_refl) as (sa & HA). destruct (lpMerge_prepend n1 es1 s1 n2 es2 s2 _ eq_refl) as (sp & HP).
  set (len := if Z.of_nat (length es1) + Z.of_nat (length es2) <? 65535 then _ else 65535).
  assert (forall s', exists t, (target ← Some (le_bytes 4 (lp_total es1) ++ le_bytes 2 n1 ++ bytes_of (es1 ++ es2) ++ [255] ++ s');
    target ← lpSetNumElements target len;
    target ← lpSetTotalBytes target (lp_total (es1 ++ es2));
    Some (target, append)) = Some (t, append) /\ lp_rep t (es1 ++ es2)) as HF.
  { intros s'. cbn [mbind option_bind]. rewrite set_numele. cbn [mbind option_bind]. rewrite set_total. cbn [mbind option_bind].
    eexists. split; [done|]. split; [|apply Forall_app; split; [apply (rep_enc _ _ HR1)|apply (rep_enc _ _ HR2)]|lia].
    exists len, s'. split; [unfold image; by rewrite <- !app_assoc|]. unfold count_ok, len. rewrite length_app. case_zb; lia. }
  destruct append; [rewrite HA; apply HF|]. destruct (memmove _ _ _ _) as [t|]; [|done]. cbn [mbind option_bind] in *.
  destruct (slice _ 0 _) as [s|]; [|done]. cbn [mbind option_bind] in *. rewrite HP. apply HF.
Qed.
End Range.
