(* ===== verification/ListpackValidate.v ===== *)
(** * ListpackValidate: the integrity check of listpacks

    [lpValidateIntegrity] accepts every well-formed listpack; on arbitrary
    bytes it never reads outside the block, and what it accepts can be
    traversed from left to right.  It does not check that the backlens are the ones the library writes. *)

From Stdlib Require Import ZArith Lia ZifyBool.
From stdpp Require Import base gmap numbers option list.
From S2P Require Import Prelude Numstr Listpack ListpackCodec ListpackProof ListpackRange.

Local Open Scope Z_scope.

(** ** Well-formed listpacks are accepted *)

Section Callback.
Context {U : Type} (entry_cb : option (U -> Z -> Z -> bool * U)) (numele : Z).

(** The callback on the elements [r] behind [l], in order, until it refuses one. *)
Fixpoint run_cb (u : U) (l r : list (list Z)) : bool :=
  match r with
  | [] => true
  | e :: r =>
    let '(ok, u) := match entry_cb with Some cb => cb u (pos l) numele | None => (true, u) end in
    if ok : bool then run_cb u (l ++ [e]) r else false
  end.

Lemma lp_validate_loop_spec b : forall r l count u fuel, lp_rep b (l ++ r) -> (length r < fuel)%nat -> 0 <= count ->
  count + Z.of_nat (length r) < 2 ^ 32 ->
  validate_loop entry_cb fuel b (lp_total (l ++ r)) numele (Some (pos l)) count u =
  Some (if run_cb u l r then Some (Some (pos (l ++ r)), count + Z.of_nat (length r)) else None).
Proof.
  induction r as [|e r IH]; intros l count u fuel HR Hf Hc Hlt; (destruct fuel as [|fuel]; [lia|]); cbn [validate_loop run_cb].
  - rewrite app_nil_r in *. rewrite (rep_get_end b l HR). cbn [mbind option_bind]. rewrite Z.eqb_refl. by rewrite Z.add_0_r.
  - destruct (rep_get b l e r HR) as (x & -> & Hx). cbn [mbind option_bind]. rewrite Hx.
    rewrite (lpValidateNext_spec b l e r HR). cbn [mbind option_bind negb].
    destruct (match entry_cb with Some cb => cb u (pos l) numele | None => (true, u) end) as [[] u']; [|done]. cbn [negb length] in *.
    rewrite wrap_id by (unfold in_u; lia).
    replace (l ++ e :: r) with ((l ++ [e]) ++ r) in * by (by rewrite <- app_assoc).
    rewrite (IH (l ++ [e])); [|done|lia|lia|lia]. by replace (count + 1 + Z.of_nat (length r)) with (count + Z.of_nat (S (length r))) by lia.
Qed.
End Callback.

(** ** Arbitrary bytes *)

Lemma get_suffix P Q i : 0 <= i -> get (P ++ Q) (Z.of_nat (length P) + i) = get Q i.
Proof.
  intros Hi. unfold get. zb. replace (Z.to_nat (Z.of_nat (length P) + i)) with (length P + Z.to_nat i)%nat by lia.
  rewrite lookup_app_r by lia. f_equal. lia.
Qed.

Lemma get_suffix0 P Q : get (P ++ Q) (Z.of_nat (length P)) = get Q 0.
Proof. rewrite <- (get_suffix P Q 0) by lia. f_equal. lia. Qed.

Lemma sizeBytes_suffix P Q : lpCurrentEncodedSizeBytes (P ++ Q) (Z.of_nat (length P)) = lpCurrentEncodedSizeBytes Q 0.
Proof. unfold lpCurrentEncodedSizeBytes. by rewrite get_suffix0. Qed.

Lemma size_suffix P Q : lpCurrentEncodedSizeUnsafe (P ++ Q) (Z.of_nat (length P)) = lpCurrentEncodedSizeUnsafe Q 0.
Proof.
  unfold lpCurrentEncodedSizeUnsafe, LP_ENCODING_6BIT_STR_LEN, LP_ENCODING_12BIT_STR_LEN, LP_ENCODING_32BIT_STR_LEN, get32.
  rewrite get_suffix0, <- !Z.add_assoc, !get_suffix by lia. done.
Qed.

(** The bytes an encoding announces: an element, or a 32-bit string length
    whose sum with the length of its header wraps around. *)
Definition wrapped_len (Q : list Z) (n : Z) : Prop :=
  0 <= n <= 4 /\ exists rest, Q = 240 :: le_bytes 4 (2 ^ 32 - 5 + n) ++ rest.

Lemma take_enc (Q e : list Z) n : (exists rest, Q = e ++ rest) -> Z.of_nat (length e) = n -> take (Z.to_nat n) Q = e.
Proof. intros (rest & ->) <-. rewrite Nat2Z.id. apply take_app_length. Qed.

Lemma split_n (Q : list Z) n : 0 <= n <= Z.of_nat (length Q) -> exists s rest, Q = s ++ rest /\ Z.of_nat (length s) = n.
Proof. intros. exists (take (Z.to_nat n) Q), (drop (Z.to_nat n) Q). rewrite take_drop, length_take. split; [done|lia]. Qed.

Definition parses (Q : list Z) (n : Z) : Prop :=
  n <= Z.of_nat (length Q) -> exists e rest, Q = e ++ rest /\ Z.of_nat (length e) = n /\ is_enc e.

(** An integer encoding of [1 + m] bytes. *)
Lemma parses_int c m Q : In (c, m) [(241, 2%nat); (242, 3%nat); (243, 4%nat); (244, 8%nat)] -> Forall byteZ Q ->
  parses (c :: Q) (1 + Z.of_nat m).
Proof.
  intros Hin HQ Hl. cbn [length] in Hl. destruct (split_n Q (Z.of_nat m)) as (bs & rest & -> & Hbs); [lia|].
  exists (c :: bs), rest. split; [done|]. split; [cbn [length]; lia|]. apply Forall_app in HQ as [HQ _].
  eexists. apply (enc_int c m); [done|done|lia].
Qed.

Lemma parses_str (hd Q : list Z) m : 0 <= m -> Forall byteZ Q -> (forall s, Forall byteZ s -> Z.of_nat (length s) = m -> is_enc (hd ++ s)) ->
  parses (hd ++ Q) (Z.of_nat (length hd) + m).
Proof.
  intros Hm HQ Henc Hl. rewrite length_app in Hl. destruct (split_n Q m) as (s & rest & -> & Hs); [lia|].
  exists (hd ++ s), rest. rewrite <- app_assoc, length_app. split; [done|]. split; [lia|]. apply Henc; [|done]. by apply Forall_app in HQ as [? _].
Qed.

Lemma byte_div_mod h y : 0 <= h -> byteZ y -> (y + h * 256) / 256 = h /\ (y + h * 256) mod 256 = y.
Proof. unfold byteZ. intros. Z.div_mod_to_equations. lia. Qed.

Lemma parse_enc Q x k : Forall byteZ Q -> get Q 0 = Some x -> x <> 255 -> lpCurrentEncodedSizeBytes Q 0 = Some k -> k <> 0 ->
  k < Z.of_nat (length Q) ->
  exists n, lpCurrentEncodedSizeUnsafe Q 0 = Some n /\ 0 <= n < 2 ^ 32 /\ (wrapped_len Q n \/ parses Q n).
Proof.
  intros HQ Hx Hne Hk Hk0 Hlen. pose proof (get_byte Q 0 x HQ Hx) as Hxb. destruct Q as [|x' Q]; [done|].
  assert (get (x' :: Q) 0 = Some x') as Eg by done. rewrite Eg in Hx. injection Hx as ->.
  apply Forall_cons in HQ as [_ HQ]. unfold lpCurrentEncodedSizeUnsafe, lpCurrentEncodedSizeBytes in *.
  rewrite Eg in Hk |- *. cbn [mbind option_bind length] in *. revert Hk. enc_tests x. unfold byteZ in Hxb.
  destruct (Z.ltb_spec x 128).
  { intros _. exists 1. split; [done|]. split; [lia|]. right. intros _. exists [x], Q. split; [done|]. split; [done|].
    exists (ValInt x). constructor. lia. }
  destruct (Z.ltb_spec x 192); zb.
  { intros _. unfold LP_ENCODING_6BIT_STR_LEN. rewrite Eg. cbn [mbind option_bind].
    exists (1 + (x - 128)). rewrite (land_ones_mod _ 6) by done.
    replace (x mod 2 ^ 6) with (x - 128) by (Z.div_mod_to_equations; lia).
    split; [done|]. split; [lia|]. right. apply (parses_str [x] Q (x - 128)); [lia|done|]. intros s Hs Hm.
    exists (ValStr s). cbn [app]. replace x with (128 + Z.of_nat (length s)) by lia. constructor; [done|lia]. }
  destruct (Z.ltb_spec x 224); zb.
  { intros _. exists 2. split; [done|]. split; [lia|]. right. intros Hl. destruct Q as [|y Q]; [simpl in Hl; lia|].
    exists [x; y], Q. split; [done|]. split; [done|]. apply Forall_cons in HQ as [Hy _]. eexists.
    replace x with (192 + (x - 192)) at 1 by lia. constructor; [lia|done]. }
  destruct (Z.eqb_spec x 241) as [->|]; [intros _; exists 3; split; [done|]; split; [lia|]; right; by apply (parses_int 241 2); [simpl; tauto|]|].
  destruct (Z.eqb_spec x 242) as [->|]; [intros _; exists 4; split; [done|]; split; [lia|]; right; by apply (parses_int 242 3); [simpl; tauto|]|].
  destruct (Z.eqb_spec x 243) as [->|]; [intros _; exists 5; split; [done|]; split; [lia|]; right; by apply (parses_int 243 4); [simpl; tauto|]|].
  destruct (Z.eqb_spec x 244) as [->|]; [intros _; exists 9; split; [done|]; split; [lia|]; right; by apply (parses_int 244 8); [simpl; tauto|]|].
  destruct (Z.ltb_spec x 240); zb.
  { intros [= <-]. destruct Q as [|y Q]; [simpl in Hlen; lia|]. apply Forall_cons in HQ as [Hy HQ].
    unfold LP_ENCODING_12BIT_STR_LEN. rewrite Eg. change (get (x :: y :: Q) (0 + 1)) with (Some y). cbn [mbind option_bind].
    rewrite (land_ones_mod _ 4) by done. replace (x mod 2 ^ 4) with (x - 224) by (Z.div_mod_to_equations; lia).
    rewrite shiftl_lor by (unfold in_u, byteZ in *; lia). change (2 ^ 8) with 256. unfold byteZ in Hy.
    exists (2 + (y + (x - 224) * 256)). split; [done|]. split; [lia|]. right.
    apply (parses_str [x; y] Q); [lia|done|]. intros s Hs Hm. destruct (byte_div_mod (x - 224) y) as [Hd Hmod]; [lia|done|].
    exists (ValStr s). pose proof (enc_12bit_str s Hs ltac:(lia)) as HE. rewrite Hm, Hd, Hmod in HE.
    by replace (224 + (x - 224)) with x in HE by lia. }
  destruct (Z.eqb_spec x 240) as [->|]; [|zb; intros [= <-]; lia]. intros [= <-].
  destruct Q as [|a [|b [|c [|d Q]]]]; cbn [length] in Hlen; try lia. unfold LP_ENCODING_32BIT_STR_LEN, get32.
  change (get _ (0 + 1)) with (Some a). change (get _ (0 + 1 + 1)) with (Some b). change (get _ (0 + 1 + 2)) with (Some c).
  change (get _ (0 + 1 + 3)) with (Some d). cbn [mbind option_bind]. rewrite !Forall_cons in HQ. destruct HQ as (Ha & Hb & Hc & Hd & HQ).
  rewrite lor_le4 by done. set (bs := [a; b; c; d]). assert (Forall byteZ bs) as Hbs by (unfold bs; by rewrite !Forall_cons).
  pose proof (le_val_range bs Hbs) as Hr. change (256 ^ Z.of_nat (length bs)) with (2 ^ 32) in Hr. pose proof (le_bytes_val bs Hbs) as Hle.
  change (length bs) with 4%nat in Hle. eexists. split; [reflexivity|]. split; [apply wrap_range; lia|].
  destruct (Z.lt_ge_cases (5 + le_val bs) (2 ^ 32)).
  - right. rewrite wrap_id by (unfold in_u; lia). apply (parses_str (240 :: bs) Q (le_val bs)); [lia|done|].
    intros s Hs Hm. exists (ValStr s). pose proof (enc_32bit_str s Hs ltac:(lia)) as HE. rewrite Hm, Hle in HE. exact HE.
  - left. assert (u32 (5 + le_val bs) = 5 + le_val bs - 2 ^ 32) as ->.
    { unfold wrap. replace (5 + le_val bs) with (5 + le_val bs - 2 ^ 32 + 1 * 2 ^ 32) at 1 by lia. rewrite Z.mod_add, Z.mod_small; lia. }
    split; [lia|]. exists Q. replace (2 ^ 32 - 5 + (5 + le_val bs - 2 ^ 32)) with (le_val bs) by lia. by rewrite Hle.
Qed.

(** Decoding a backlen from arbitrary bytes: it stays inside five bytes, and
    the last one determines the low bits of the result. *)
Lemma decode_loop_total b : Forall byteZ b -> forall fuel p val shift, shift = 35 - 7 * Z.of_nat fuel -> (1 <= fuel <= 5)%nat ->
  Z.of_nat fuel - 1 <= p < Z.of_nat (length b) -> in_u shift val -> exists v, lpDecodeBacklen_loop fuel b p val shift = Some v /\
    (v = UINT64_MAX \/ 0 <= v < 2 ^ 35 /\ v mod 2 ^ shift = val).
Proof.
  intros Hb. induction fuel as [|fuel IH]; intros p val shift Hs Hf Hp Hv; [lia|]. cbn [lpDecodeBacklen_loop].
  destruct (get_is_Some b p) as [x Hx]; [lia|]. rewrite Hx. cbn [mbind option_bind]. rewrite land_127, lor_shiftl by (done || lia).
  pose proof (Z.mod_pos_bound x 128 eq_refl) as Hm. assert (2 ^ (shift + 7) = 2 ^ shift * 128) as Hp7 by (by rewrite Z.pow_add_r by lia).
  assert (2 ^ (shift + 7) <= 2 ^ 35) by (apply Z.pow_le_mono_r; lia). unfold in_u in Hv.
  assert ((val + x mod 128 * 2 ^ shift) mod 2 ^ shift = val) as Hval by (rewrite Z.mod_add, Z.mod_small; lia).
  destruct (Z.land x 128 =? 0); [eexists; split; [done|right; split; [nia|done]]|]. rewrite Z.gtb_ltb.
  destruct (Z.ltb_spec 28 (shift + 7)); [eexists; split; [done|by left]|].
  destruct (IH (p - 1) (val + x mod 128 * 2 ^ shift) (shift + 7)) as (v & Hv' & HV); [lia|lia|lia|unfold in_u; nia|].
  exists v. split; [done|]. destruct HV as [->|[Hr HV]]; [by left|]. right. split; [done|].
  rewrite <- Hval, <- HV, Hp7. symmetry. rewrite Z.rem_mul_r by lia. rewrite Z.mul_comm, Z.mod_add by lia. apply Z.mod_mod. lia.
Qed.

Lemma decode_total b q : Forall byteZ b -> 4 <= q < Z.of_nat (length b) -> exists v x, lpDecodeBacklen b q = Some v /\ get b q = Some x /\
  (v = UINT64_MAX \/ 0 <= v < 2 ^ 35 /\ v mod 128 = x mod 128).
Proof.
  intros Hb Hq. destruct (get_is_Some b q) as [x Hx]; [lia|]. unfold lpDecodeBacklen. cbn [lpDecodeBacklen_loop].
  rewrite Hx. cbn [mbind option_bind]. rewrite land_127, Z.shiftl_0_r, Z.lor_0_l. pose proof (Z.mod_pos_bound x 128 eq_refl) as Hm.
  destruct (Z.land x 128 =? 0). { exists (x mod 128), x. split; [done|]. split; [done|]. right. rewrite Z.mod_mod by lia. lia. }
  cbn [Z.add Z.gtb Z.compare Pos.compare Pos.compare_cont].
  destruct (decode_loop_total b Hb 4 (q - 1) (x mod 128) 7) as (v & Hv & HV); [done|lia|lia|exact Hm|].
  exists v, x. split; [exact Hv|]. by split.
Qed.

(** The backlen cannot match when the size has wrapped around. *)
Lemma wrapped_last Q n y : wrapped_len Q n -> get Q n = Some y -> y mod 128 = n -> False.
Proof.
  intros [Hn (rest & ->)] Hy Hm. assert (n = 0 \/ n = 1 \/ n = 2 \/ n = 3 \/ n = 4) as HN by lia.
  destruct HN as [->|[->|[->|[->| ->]]]]; cbv in Hy; injection Hy as <-; by vm_compute in Hm.
Qed.

Lemma in_range_inv t p : OUT_OF_RANGE t p = false -> 6 <= p <= t - 1.
Proof. unfold OUT_OF_RANGE. lia. Qed.

(** One step of the validation on arbitrary bytes: the entry is refused, or an
    element and as many bytes as its backlen needs are skipped. *)
Lemma lpValidateNext_sound P Q size : Forall byteZ (P ++ Q) -> size = Z.of_nat (length (P ++ Q)) -> size < 2 ^ 63 -> 6 <= Z.of_nat (length P) ->
  Q <> [] -> head Q <> Some 255 ->
  lpValidateNext (P ++ Q) (Some (Z.of_nat (length P))) size = Some (false, Some (Z.of_nat (length P))) \/
  exists e back rest, Q = e ++ back ++ rest /\ is_enc e /\ Z.of_nat (length back) = lpEncodeBacklenSize (Z.of_nat (length e)) /\ rest <> [] /\
    lpValidateNext (P ++ Q) (Some (Z.of_nat (length P))) size = Some (true, Some (Z.of_nat (length (P ++ e ++ back)))).
Proof.
  intros Hb Hsize Hs63 HP HQ Hhd. destruct Q as [|x Q']; [done|]. set (Q := x :: Q') in *. rewrite length_app in Hsize.
  assert (1 <= Z.of_nat (length Q)) as HQ1 by (unfold Q; cbn [length]; lia).
  assert (get Q 0 = Some x) as Ex by done. assert (x <> 255) as Hx255 by (intros ->; by apply Hhd).
  unfold lpValidateNext. rewrite in_range by lia. rewrite get_suffix0, Ex. cbn [mbind option_bind]. zb.
  rewrite sizeBytes_suffix. destruct (lpCurrentEncodedSizeBytes Q 0) as [k|] eqn:Ek.
  2:{ unfold lpCurrentEncodedSizeBytes in Ek. by rewrite Ex in Ek. }
  cbn [mbind option_bind]. destruct (Z.eqb_spec k 0) as [|Hk0]; [by left|].
  destruct (OUT_OF_RANGE size (_ + k)) eqn:Er; [by left|]. apply in_range_inv in Er. apply Forall_app in Hb as HbQ. destruct HbQ as [_ HbQ].
  destruct (parse_enc Q x k HbQ Ex Hx255 Ek ltac:(done) ltac:(lia)) as (n & Hn & Hn32 & HC).
  rewrite size_suffix, Hn. cbn [mbind option_bind]. pose proof (backlen_size_range n) as Hbs.
  destruct (OUT_OF_RANGE size (_ + (n + _))) eqn:Er2; [by left|]. apply in_range_inv in Er2.
  destruct (decode_total (P ++ Q) (Z.of_nat (length P) + (n + lpEncodeBacklenSize n) - 1) Hb) as (v & y & -> & Hy & Hv); [rewrite length_app; lia|].
  cbn [mbind option_bind]. destruct (negb _) eqn:Em; [by left|]. apply negb_false_iff, Z.eqb_eq in Em.
  assert (v = n) as ->.
  { destruct Hv as [->|[Hv _]]; [|rewrite wrap_id in Em by (unfold in_u; lia); lia].
    exfalso. unfold wrap, UINT64_MAX in Em. replace (2 ^ 64 - 1 + lpEncodeBacklenSize n) with (lpEncodeBacklenSize n - 1 + 1 * 2 ^ 64) in Em by lia.
    rewrite Z.mod_add, Z.mod_small in Em by lia. lia. }
  right. destruct HC as [HW|HPar].
  - exfalso. destruct HW as [Hn4 HW]. assert (lpEncodeBacklenSize n = 1) as E1 by (unfold lpEncodeBacklenSize; by zb).
    rewrite E1 in Hy. destruct Hv as [->|[_ Hv]]; [unfold UINT64_MAX in *; lia|]. apply (wrapped_last Q n y); [done| |].
    + rewrite <- Hy, <- (get_suffix P Q n) by lia. f_equal. lia.
    + rewrite <- Hv. apply Z.mod_small. lia.
  - destruct (HPar ltac:(lia)) as (e & rest & EQ & He & Henc). subst n.
    destruct (split_n rest (lpEncodeBacklenSize (Z.of_nat (length e)))) as (back & rest' & -> & Hback).
    { apply (f_equal length) in EQ. rewrite length_app in EQ. lia. }
    exists e, back, rest'. split; [done|]. split; [done|]. split; [done|]. split.
    + intros ->. apply (f_equal length) in EQ. rewrite app_nil_r, length_app in EQ. lia.
    + rewrite !length_app. do 3 f_equal. lia.
Qed.

(** An element and the bytes in the place of its backlen. *)
Definition raw_ok (er : list Z * list Z) : Prop :=
  is_enc er.1 /\ Z.of_nat (length er.2) = lpEncodeBacklenSize (Z.of_nat (length er.1)).
Definition raw_bytes (rs : list (list Z * list Z)) : list Z := concat ((fun er => er.1 ++ er.2) <$> rs).

Lemma raw_bytes_snoc rs e back : raw_bytes (rs ++ [(e, back)]) = raw_bytes rs ++ e ++ back.
Proof. unfold raw_bytes. rewrite fmap_app, concat_app. cbn. by rewrite app_nil_r. Qed.

Lemma raw_bytes_length rs : Forall raw_ok rs -> Z.of_nat (length rs) <= Z.of_nat (length (raw_bytes rs)).
Proof.
  induction 1 as [|[e back] rs [[v He] _] _ IH]; [done|]. unfold raw_bytes in *. rewrite fmap_cons. cbn [concat length fst snd].
  pose proof (enc_length e v He). rewrite !length_app. cbn [fst] in *. lia.
Qed.

Lemma validate_loop_sound H numele size : length H = 6%nat -> size < 2 ^ 32 -> forall fuel rs Q, Forall raw_ok rs -> Q <> [] ->
  Forall byteZ (H ++ raw_bytes rs ++ Q) -> size = Z.of_nat (length (H ++ raw_bytes rs ++ Q)) -> (length Q < fuel)%nat ->
  exists res, validate_loop None fuel (H ++ raw_bytes rs ++ Q) size numele (Some (6 + Z.of_nat (length (raw_bytes rs)))) (Z.of_nat (length rs)) tt = Some res /\
    (res = None \/ exists rs' Q', H ++ raw_bytes rs ++ Q = H ++ raw_bytes rs' ++ 255 :: Q' /\ Forall raw_ok rs' /\
      res = Some (Some (6 + Z.of_nat (length (raw_bytes rs'))), Z.of_nat (length rs'))).
Proof.
  intros HH Hs32. induction fuel as [|fuel IH]; intros rs Q Hrs HQ Hb Hsize Hf; [lia|]. cbn [validate_loop].
  assert (6 + Z.of_nat (length (raw_bytes rs)) = Z.of_nat (length (H ++ raw_bytes rs))) as Hp by (rewrite length_app; lia).
  destruct Q as [|x Q]; [done|]. rewrite Hp, app_assoc, get_suffix0. change (get (x :: Q) 0) with (Some x). cbn [mbind option_bind].
  destruct (Z.eqb_spec x 255) as [->|Hx].
  { eexists. split; [done|]. right. exists rs, Q. rewrite <- app_assoc. split; [done|]. split; [done|]. by rewrite Hp. }
  rewrite app_assoc in Hb, Hsize.
  destruct (lpValidateNext_sound (H ++ raw_bytes rs) (x :: Q) size) as [->|(e & back & rest & EQ & He & Hback & Hrest & ->)]; try done; try lia.
  { intros [=]. done. }
  { eexists. split; [done|]. by left. }
  rewrite EQ in *. clear EQ HQ Hx. cbn [mbind option_bind negb]. pose proof (raw_bytes_length rs Hrs). rewrite !length_app in Hsize.
  rewrite wrap_id by (unfold in_u; lia).
  assert (Forall raw_ok (rs ++ [(e, back)])) as Hrs' by (apply Forall_app; split; [done|by repeat constructor]).
  assert ((H ++ raw_bytes rs) ++ e ++ back ++ rest = H ++ raw_bytes (rs ++ [(e, back)]) ++ rest) as EB
    by (rewrite raw_bytes_snoc, <- !app_assoc; done).
  rewrite EB in *. destruct He as [v Hv]. pose proof (enc_length e v Hv) as Hle.
  destruct (IH (rs ++ [(e, back)]) rest Hrs' Hrest Hb) as (res & HI & HR).
  { rewrite <- EB, !length_app. lia. }
  { rewrite !length_app in Hf. lia. }
  exists res. split; [|exact HR].
  rewrite <- HI. f_equal; [|rewrite length_app; simpl; lia].
  f_equal. rewrite raw_bytes_snoc, !length_app. lia.
Qed.

(** ** What the check guarantees *)

(** Integrity check, completeness: the deep check accepts every well-formed
    listpack, with or without unused space behind it, unless the caller's callback refuses
    one of its elements; the callback sees every element once, in order. *)
Theorem lpValidateIntegrity_complete {U} (cb : option (U -> Z -> Z -> bool * U)) b es n (u : U) : lp_rep b es -> lpGetNumElements b = Some n ->
  lpValidateIntegrity cb b (lp_total es) true u = Some (run_cb cb n u [] es).
Proof.
  intros HR Hn. unfold lpValidateIntegrity. pose proof (pos_ge es). pose proof (rep_count_u32 b es HR).
  assert (7 <= lp_total es) by (unfold lp_total; lia). zb.
  rewrite (rep_total_bytes _ _ HR). cbn [mbind option_bind]. rewrite Z.eqb_refl. cbn [negb].
  replace (lp_total es - 1) with (pos es) by (unfold lp_total; lia). rewrite (rep_get_end _ _ HR). cbn [mbind option_bind].
  change (255 =? LP_EOF) with true. cbn [negb]. rewrite Hn. cbn [mbind option_bind].
  pose proof (lp_validate_loop_spec cb n b es [] 0 u (S (length b)) HR (rep_fuel b [] es HR) ltac:(lia) ltac:(lia)) as HV.
  cbn [app] in HV. change (pos []) with 6 in HV. rewrite HV. cbn [mbind option_bind].
  destruct (run_cb cb n u [] es); [|done]. rewrite bool_decide_eq_true_2 by done. cbn [negb app].
  destruct (rep_numele b es HR) as (n' & Hn' & Hok). rewrite Hn in Hn'. injection Hn' as <-.
  unfold count_ok in *. destruct Hok as [->|[-> _]]; [done|]. rewrite Z.add_0_l, Z.eqb_refl. by rewrite andb_false_r.
Qed.

(** C25. Integrity check, soundness: on any bytes the deep check returns without
    reading outside the block, and what it accepts is a header with the exact size, valid
    encodings each followed by as many bytes as its backlen takes, and the end marker at the very end,
    their number agreeing with the header. *)
Theorem lpValidateIntegrity_sound b : Forall byteZ b ->
  exists r, lpValidateIntegrity None b (Z.of_nat (length b)) true tt = Some r /\
    (r = true -> exists n rs, b = le_bytes 4 (Z.of_nat (length b)) ++ le_bytes 2 n ++ raw_bytes rs ++ [255] /\
      Forall raw_ok rs /\ (n = 65535 \/ n = Z.of_nat (length rs))).
Proof.
  intros Hb. unfold lpValidateIntegrity. destruct (Z.ltb_spec (Z.of_nat (length b)) (6 + 1)) as [|Hge]; [by exists false|].
  destruct b as [|a0 [|a1 [|a2 [|a3 [|n0 [|n1 Q]]]]]]; cbn [length] in *; try lia.
  set (H := [a0; a1; a2; a3; n0; n1]). change (a0 :: a1 :: a2 :: a3 :: n0 :: n1 :: Q) with (H ++ raw_bytes [] ++ Q) in *.
  pose proof Hb as Hb'. unfold H in Hb'. cbn [app] in Hb'. rewrite !Forall_cons in Hb'. destruct Hb' as (? & ? & ? & ? & ? & ? & _).
  set (size := Z.of_nat (S _)) in *. unfold lpGetTotalBytes, get32.
  change (get _ 0) with (Some a0). change (get _ (0 + 1)) with (Some a1). change (get _ (0 + 2)) with (Some a2). change (get _ (0 + 3)) with (Some a3).
  cbn [mbind option_bind]. rewrite lor_le4 by done. set (bs := [a0; a1; a2; a3]).
  assert (Forall byteZ bs) as Hbs by (unfold bs; by rewrite !Forall_cons). pose proof (le_val_range bs Hbs) as Hr.
  change (256 ^ Z.of_nat (length bs)) with (2 ^ 32) in Hr. pose proof (le_bytes_val bs Hbs) as Hle. change (length bs) with 4%nat in Hle.
  destruct (Z.eqb_spec (le_val bs) size) as [Esz|]; cbn [negb]; [|by exists false].
  assert (size = Z.of_nat (length (H ++ raw_bytes [] ++ Q))) as Hlen by done.
  destruct (get_is_Some (H ++ raw_bytes [] ++ Q) (size - 1)) as [x ->]; [lia|]. cbn [mbind option_bind].
  destruct (negb (x =? LP_EOF)); [by exists false|]. cbn [negb].
  assert (lpGetNumElements (H ++ raw_bytes [] ++ Q) = Some (Z.lor n0 (Z.shiftl n1 8))) as -> by done. rewrite lor_le2 by done. cbn [mbind option_bind].
  destruct (validate_loop_sound H (le_val [n0; n1]) size eq_refl ltac:(lia) (S (length (H ++ raw_bytes [] ++ Q))) [] Q) as (res & HL & HR);
    [constructor|intros ->; simpl in *; lia|done|done|rewrite !length_app; lia|].
  change (Z.of_nat (length (raw_bytes []))) with 0 in HL. change (Z.of_nat (length (@nil (list Z * list Z)))) with 0 in HL. rewrite Z.add_0_r in HL.
  rewrite Esz. change (S (S (S (S (S (S (S (length Q)))))))) with (S (length (H ++ raw_bytes [] ++ Q))). rewrite HL.
  cbn [mbind option_bind]. destruct HR as [->|(rs & Q' & EQ & Hrs & ->)]; [by exists false|].
  destruct (bool_decide _) eqn:Ep; cbn [negb]; [|by exists false]. apply bool_decide_eq_true in Ep. injection Ep as Ep.
  destruct Q' as [|y Q']; [|exfalso; rewrite EQ, !length_app in Hlen; cbn [length] in Hlen; change (length H) with 6%nat in Hlen; lia].
  pose proof (le_bytes_val [n0; n1] ltac:(by rewrite !Forall_cons)) as Hn. change (length [n0; n1]) with 2%nat in Hn.
  destruct (_ && _) eqn:Ec; [by exists false|]. exists true. split; [done|]. intros _.
  exists (le_val [n0; n1]), rs. rewrite <- Esz, Hle, Hn. split; [by rewrite EQ|]. split; [done|]. lia.
Qed.

Lemma lpValidateIntegrity_sound_witness :
  exists n rs, image 1 [[5]] = le_bytes 4 9 ++ le_bytes 2 n ++ raw_bytes rs ++ [255] /\ Forall raw_ok rs.
Proof.
  destruct (lpValidateIntegrity_sound (image 1 [[5]])) as (r & HE & HS).
  - apply (bool_decide_unpack _). by vm_compute.
  - assert (lpValidateIntegrity None (image 1 [[5]]) (Z.of_nat (length (image 1 [[5]]))) true tt = Some true) as HT by (by vm_compute).
    rewrite HT in HE. injection HE as <-. destruct (HS eq_refl) as (n & rs & E & Hrs & _). exists n, rs. split; [exact E|exact Hrs].
Defined.

(** ** Backlens the library does not write *)

(** A canonical element validates whatever the bytes around it are. *)
Lemma lpValidateNext_entry P e Q size : is_enc e -> 6 <= Z.of_nat (length P) -> Z.of_nat (length P) + entry_size e <= size - 1 ->
  lpValidateNext (P ++ entry e ++ Q) (Some (Z.of_nat (length P))) size = Some (true, Some (Z.of_nat (length P) + entry_size e)).
Proof.
  intros He HP Hfit. pose proof (entry_size_pos e He). pose proof (is_enc_backlen e He). destruct He as [v He].
  pose proof (backlen_size_range (Z.of_nat (length e))). unfold entry, entry_size in *. rewrite <- app_assoc. unfold lpValidateNext.
  rewrite in_range by lia. destruct (enc_head e v He) as (x & t & Ee & Hx).
  rewrite (get_head P e _ x) by (by subst e). cbn [mbind option_bind]. change LP_EOF with 255. zb.
  destruct (sizeBytes_enc P e (lpEncodeBacklen (Z.of_nat (length e)) ++ Q) v He) as (k & -> & Hk). cbn [mbind option_bind]. zb.
  rewrite in_range by lia. rewrite (size_enc P e _ v He). cbn [mbind option_bind]. rewrite in_range by lia.
  rewrite app_assoc.
  replace (_ - 1) with (Z.of_nat (length (P ++ e)) + lpEncodeBacklenSize (Z.of_nat (length e)) - 1) by (rewrite length_app; lia).
  rewrite decode_backlen by done. cbn [mbind option_bind]. rewrite wrap_id by (unfold in_u; lia). by rewrite Z.eqb_refl.
Qed.

(** The empty string with the backlen byte 0x81: its continuation bit leads
    through the element into the bytes in front of it. *)
Definition odd_entry : list Z := [0x80; 0x81].

Lemma odd_decode A k l Q : (k <= 2)%nat -> 0 <= l < 128 ^ Z.of_nat (S k) ->
  lpDecodeBacklen (A ++ back_bytes k l ++ odd_entry ++ Q) (Z.of_nat (length (A ++ back_bytes k l)) + 1) = Some (1 + l * 2 ^ 14).
Proof.
  intros Hk Hl. unfold lpDecodeBacklen. rewrite (app_assoc A). set (P := A ++ back_bytes k l).
  rewrite (backlen_more _ _ 0 0 1); [|by apply (get_mid P odd_entry Q 1)|lia|lia|done].
  rewrite (backlen_more _ _ _ _ 0); [|rewrite Z.add_simpl_r; by apply (get_head P odd_entry Q)|lia|lia|done].
  unfold P. rewrite <- app_assoc. replace (_ - 1) with (Z.of_nat (length A) + Z.of_nat k)
    by (rewrite length_app, length_back_bytes; lia).
  rewrite decode_back_bytes by (done || lia). f_equal.
Qed.

(** The check accepts it behind a zero byte only. *)
Lemma odd_validate A k l Q size : (k <= 2)%nat -> 0 <= l < 128 ^ Z.of_nat (S k) -> 6 <= Z.of_nat (length (A ++ back_bytes k l)) ->
  Z.of_nat (length (A ++ back_bytes k l)) + 2 <= size - 1 ->
  let p := Z.of_nat (length (A ++ back_bytes k l)) in
  lpValidateNext (A ++ back_bytes k l ++ odd_entry ++ Q) (Some p) size = Some (l =? 0, Some (if l =? 0 then p + 2 else p)).
Proof.
  intros Hk Hl HP Hfit p. pose proof (odd_decode A k l Q Hk Hl) as HD. assert (128 ^ Z.of_nat (S k) <= 2 ^ 21) as Hl21.
  { change (2 ^ 21) with (128 ^ 3). apply Z.pow_le_mono_r; lia. }
  unfold lpValidateNext. rewrite in_range by lia. rewrite (app_assoc A) in *. fold p in HD.
  assert (get ((A ++ back_bytes k l) ++ odd_entry ++ Q) p = Some 0x80) as -> by (by apply (get_head _ odd_entry Q)).
  cbn [mbind option_bind]. change (0x80 =? LP_EOF) with false. unfold p. rewrite sizeBytes_suffix, size_suffix.
  change (lpCurrentEncodedSizeBytes _ 0) with (Some 1). change (lpCurrentEncodedSizeUnsafe _ 0) with (Some 1).
  cbn [mbind option_bind]. change (1 =? 0) with false. fold p. change (lpEncodeBacklenSize 1) with 1. rewrite !in_range by lia.
  replace (p + (1 + 1) - 1) with (p + 1) by lia. rewrite HD. cbn [mbind option_bind]. rewrite wrap_id by (unfold in_u; lia).
  destruct (Z.eqb_spec l 0) as [->|Hne]; [done|]. zb. done.
Qed.

Lemma validate_entry numele P e Q size fuel count : is_enc e -> 6 <= Z.of_nat (length P) -> Z.of_nat (length P) + entry_size e <= size - 1 ->
  validate_loop None (S fuel) (P ++ entry e ++ Q) size numele (Some (Z.of_nat (length P))) count tt =
  validate_loop None fuel ((P ++ entry e) ++ Q) size numele (Some (Z.of_nat (length (P ++ entry e)))) (u32 (count + 1)) tt.
Proof.
  intros He HP Hfit. cbn [validate_loop]. pose proof He as [v Hv]. destruct (enc_head e v Hv) as (x & t & Ee & Hx).
  rewrite (get_head P (entry e) _ x) by (by unfold entry; rewrite Ee). cbn [mbind option_bind]. change LP_EOF with 255. zb.
  rewrite lpValidateNext_entry by (done || lia). cbn [mbind option_bind negb].
  by rewrite <- app_assoc, length_app, Nat2Z.inj_add, length_entry.
Qed.

Lemma validate_entries numele S : forall r P size count fuel, Forall is_enc r -> 6 <= Z.of_nat (length P) ->
  size = Z.of_nat (length (P ++ bytes_of r)) + 1 -> (length r < fuel)%nat -> 0 <= count -> count + Z.of_nat (length r) < 2 ^ 32 ->
  validate_loop None fuel (P ++ bytes_of r ++ 255 :: S) size numele (Some (Z.of_nat (length P))) count tt =
  Some (Some (Some (size - 1), count + Z.of_nat (length r))).
Proof.
  induction r as [|e r IH]; intros P size count fuel Hr HP Hsize Hf Hc Hlt; (destruct fuel as [|fuel]; [lia|]).
  - rewrite app_nil_r in Hsize. cbn [validate_loop app bytes_of concat fmap list_fmap length]. rewrite (get_app P 255) by done.
    cbn [mbind option_bind]. change (255 =? LP_EOF) with true. do 4 f_equal; lia.
  - apply Forall_cons in Hr as [He Hr]. pose proof (bytes_of_len_cons e r) as HL. rewrite length_app in Hsize. cbn [length] in *.
    assert (bytes_of (e :: r) ++ (255 :: S) = entry e ++ bytes_of r ++ (255 :: S)) as ->
      by (rewrite bytes_of_cons; unfold entry; by rewrite <- !app_assoc).
    rewrite validate_entry by (done || lia). rewrite wrap_id by (unfold in_u; lia).
    rewrite IH; [do 3 f_equal; lia|done|..|lia|lia|lia]; rewrite !length_app; pose proof (length_entry e); lia.
Qed.

(** One round of the loop at the odd element. *)
Lemma validate_odd A k l Q size numele fuel count : (k <= 2)%nat -> 0 <= l < 128 ^ Z.of_nat (S k) ->
  6 <= Z.of_nat (length (A ++ back_bytes k l)) -> Z.of_nat (length (A ++ back_bytes k l)) + 2 <= size - 1 ->
  validate_loop None (S fuel) (A ++ back_bytes k l ++ odd_entry ++ Q) size numele (Some (Z.of_nat (length (A ++ back_bytes k l)))) count tt =
  if l =? 0 then validate_loop None fuel (A ++ back_bytes k l ++ odd_entry ++ Q) size numele
                   (Some (Z.of_nat (length (A ++ back_bytes k l)) + 2)) (u32 (count + 1)) tt
  else Some None.
Proof.
  intros Hk Hl HP Hfit. cbn [validate_loop].
  assert (get (A ++ back_bytes k l ++ odd_entry ++ Q) (Z.of_nat (length (A ++ back_bytes k l))) = Some 0x80) as ->
    by (rewrite app_assoc; by apply (get_head _ odd_entry Q)).
  cbn [mbind option_bind]. change (0x80 =? LP_EOF) with false. cbv iota. rewrite odd_validate by done. cbn [mbind option_bind].
  by destruct (l =? 0).
Qed.

(** A listpack whose element behind [l] is the empty string with that backlen. *)
Definition odd_listpack (n : Z) (l r : list (list Z)) : list Z :=
  front n (l ++ [0x80] :: r) l ++ odd_entry ++ bytes_of r ++ [255].

Lemma odd_total l r : lp_total (l ++ [0x80] :: r) = pos l + 2 + Z.of_nat (length (bytes_of r)) + 1.
Proof. unfold lp_total. rewrite pos_app, bytes_of_len_cons. change (entry_size [0x80]) with 2. lia. Qed.

Lemma odd_header n l r S : lp_total (l ++ [0x80] :: r) <= UINT32_MAX -> in_u 16 n ->
  lpGetTotalBytes (odd_listpack n l r ++ S) = Some (lp_total (l ++ [0x80] :: r)) /\
  lpGetNumElements (odd_listpack n l r ++ S) = Some n /\
  get (odd_listpack n l r ++ S) (lp_total (l ++ [0x80] :: r) - 1) = Some 255.
Proof.
  intros Ht Hn. split; [|split].
  - unfold odd_listpack, front. rewrite <- !app_assoc. apply lp_get_total. by apply total_u32.
  - unfold odd_listpack, front. rewrite <- !app_assoc. by apply get_numele.
  - rewrite odd_total. unfold odd_listpack. rewrite !app_assoc, <- (app_assoc _ [255]). cbn [app]. apply get_app.
    rewrite !length_app, !Nat2Z.inj_add, length_front. cbn [length odd_entry]. lia.
Qed.

(** In front of the first element is the high byte of the count, zero below 256. *)
Lemma odd_first n r : 0 <= n < 256 -> exists A, odd_listpack n [] r = A ++ back_bytes 0 0 ++ odd_entry ++ bytes_of r ++ [255] /\
  Z.of_nat (length (A ++ back_bytes 0 0)) = 6.
Proof.
  intros Hn. exists (le_bytes 4 (lp_total ([0x80] :: r)) ++ [n mod 256]). split; [|done].
  unfold odd_listpack, front. cbn [app bytes_of concat fmap list_fmap back_bytes le_bytes].
  replace (n / 256 mod 256) with 0 by (Z.div_mod_to_equations; lia). done.
Qed.

Lemma odd_accepted r : Forall is_enc r -> (length r < 255)%nat -> lp_total ([0x80] :: r) <= UINT32_MAX ->
  lpValidateIntegrity None (odd_listpack (Z.of_nat (S (length r))) [] r) (lp_total ([0x80] :: r)) true tt = Some true.
Proof.
  intros Hr Hlen Ht. set (n := Z.of_nat (S (length r))). set (b := odd_listpack n [] r). pose proof (odd_total [] r) as HT. cbn [app] in HT.
  change (pos []) with 6 in HT. destruct (odd_header n [] r [] Ht) as (Htot & Hnum & Heof); [unfold in_u, n; lia|].
  rewrite app_nil_r in *. fold b in Htot, Hnum, Heof. cbn [app] in *. set (size := lp_total ([0x80] :: r)) in *.
  unfold lpValidateIntegrity. zb. rewrite Htot. cbn [mbind option_bind]. rewrite Z.eqb_refl, Heof, Hnum. cbn [negb mbind option_bind].
  change (255 =? LP_EOF) with true. cbn [negb].
  destruct (odd_first n r) as (A & Eb & HA); [unfold n; lia|]. fold b in Eb.
  pose proof (validate_odd A 0 0 (bytes_of r ++ [255]) size n (length b) 0 ltac:(lia) ltac:(done) ltac:(lia) ltac:(lia)) as HV.
  rewrite HA, <- Eb in HV. change LP_HDR_SIZE with 6. rewrite HV. change (0 =? 0) with true. cbv iota.
  assert (b = (A ++ back_bytes 0 0 ++ odd_entry) ++ bytes_of r ++ [255]) as Eb' by (rewrite Eb, <- !app_assoc; done).
  pose proof (length_bytes_of r Hr).
  assert (Z.of_nat (length (A ++ back_bytes 0 0 ++ odd_entry)) = 6 + 2) as HA2 by (rewrite app_assoc, length_app; cbn [odd_entry length] in *; lia).
  assert (length r < length b)%nat as Hlb by (rewrite Eb', !length_app; cbn [length]; lia).
  rewrite <- HA2. rewrite Eb' at 2.
  rewrite validate_entries; [|done|lia|rewrite length_app; lia|lia|done|].
  2:{ change (u32 (0 + 1)) with 1. lia. }
  cbn [mbind option_bind]. rewrite bool_decide_eq_true_2 by done. cbn [negb]. change (u32 (0 + 1)) with 1.
  replace (n =? 1 + Z.of_nat (length r)) with true by (unfold n; lia). by rewrite andb_false_r.
Qed.

Lemma odd_front n l e r : (Z.of_nat (length e) < 2 ^ 21 - 1) -> exists k A, (k <= 2)%nat /\ 0 <= Z.of_nat (length e) < 128 ^ Z.of_nat (S k) /\
  front n (l ++ [e] ++ [0x80] :: r) (l ++ [e]) = A ++ back_bytes k (Z.of_nat (length e)) /\
  A = front n (l ++ [e] ++ [0x80] :: r) l ++ e.
Proof.
  intros He. destruct (backlen_bytes (Z.of_nat (length e)) ltac:(lia)) as (k & Ek & Hk & Hl). exists k, (front n (l ++ [e] ++ [0x80] :: r) l ++ e).
  split; [|split; [done|split; [|done]]].
  - apply (f_equal length) in Ek. rewrite length_back_bytes in Ek. pose proof (length_backlen (Z.of_nat (length e))) as HB.
    unfold lpEncodeBacklenSize in HB. revert HB. repeat case_zb; lia.
  - unfold front. rewrite bytes_of_app, bytes_of_one. unfold entry. by rewrite Ek, <- !app_assoc.
Qed.

(** Behind another element it is refused, and stepping back over it fails. *)
Lemma odd_refused n e r S : Forall is_enc (e :: r) -> in_u 16 n -> Z.of_nat (length e) < 2 ^ 21 - 1 -> lp_total (e :: [0x80] :: r) <= UINT32_MAX ->
  let b := odd_listpack n [e] r ++ S in
  lpValidateIntegrity None b (lp_total (e :: [0x80] :: r)) true tt = Some false /\ lpPrev b (pos [e; [0x80]]) = None.
Proof.
  intros [He Hr]%Forall_cons Hn Hlen Ht b. destruct (odd_header n [e] r S Ht Hn) as (Htot & Hnum & Heof). fold b in Htot, Hnum, Heof.
  pose proof (odd_total [e] r) as HT. cbn [app] in *. set (size := lp_total (e :: [0x80] :: r)) in *.
  destruct (odd_front n [] e r Hlen) as (k & A & Hk & Hl & EF & EA). cbn [app] in EF, EA.
  assert (b = A ++ back_bytes k (Z.of_nat (length e)) ++ odd_entry ++ (bytes_of r ++ [255] ++ S)) as Eb.
  { unfold b, odd_listpack. cbn [app]. rewrite EF, <- !app_assoc. done. }
  assert (Z.of_nat (length (A ++ back_bytes k (Z.of_nat (length e)))) = pos [e]) as HA by (rewrite <- EF; apply length_front).
  pose proof (pos_snoc [] e) as Hp. cbn [app] in Hp. change (pos []) with 6 in Hp. pose proof (entry_size_pos e He).
  pose proof (is_enc_backlen e He) as He0. destruct He as [v Hv]. pose proof (enc_length e v Hv).
  split.
  - unfold lpValidateIntegrity. zb. rewrite Htot. cbn [mbind option_bind]. rewrite Z.eqb_refl, Heof, Hnum. cbn [negb mbind option_bind].
    change (255 =? LP_EOF) with true. cbn [negb].
    pose proof (validate_entry n (front n (e :: [0x80] :: r) []) e (odd_entry ++ bytes_of r ++ [255] ++ S) size (length b) 0
      ltac:(by exists v)) as HV. rewrite length_front in HV. change (pos []) with 6 in HV. change LP_HDR_SIZE with 6.
    assert (front n (e :: [0x80] :: r) [] ++ entry e = A ++ back_bytes k (Z.of_nat (length e))) as EE.
    { rewrite <- EF. unfold front. rewrite bytes_of_one. by rewrite <- !app_assoc. }
    rewrite app_assoc, EE, HA, <- app_assoc, <- Eb in HV. rewrite HV by lia. clear HV.
    destruct (length b) as [|f] eqn:EL; [rewrite Eb, app_assoc, length_app in EL; lia|].
    rewrite <- HA, Eb, validate_odd by (done || lia). by zb.
  - unfold lpPrev. pose proof (pos_snoc [e] [0x80]) as Hp2. cbn [app] in Hp2. change (entry_size [0x80]) with 2 in Hp2. zb.
    replace (pos [e; [0x80]] - 1) with (Z.of_nat (length (A ++ back_bytes k (Z.of_nat (length e)))) + 1) by lia.
    rewrite Eb, odd_decode by done. rewrite <- Eb. cbn [mbind option_bind]. remember (1 + Z.of_nat (length e) * 2 ^ 14) as d eqn:Ed. pose proof (backlen_size_range d).
    unfold lpBytes. rewrite wrap_id by (unfold in_u; lia). rewrite Htot. cbn [mbind option_bind]. unfold lpAssertValidEntry, lpValidateNext.
    pose proof (backlen_size_range (Z.of_nat (length e))). unfold entry_size in *.
    unfold OUT_OF_RANGE. change LP_HDR_SIZE with 6. zb. done.
Qed.

(** ** What the insertion in front of it stores *)

Section Gap.
Context (undef : nat -> Z) (alloc : Z -> Z) (Halloc : forall n, 0 <= n -> n <= alloc n).

(** Inserting in front of whatever the listpack holds. *)
Lemma lpInsert_front n s (body : list Z) : let t := 6 + Z.of_nat (length body) in let e := str_enc s in
  ele_ok (EleStr s) -> in_u 16 n -> t + entry_size e <= UINT32_MAX -> n <> 65535 ->
  exists slack, lpInsert_at undef alloc (le_bytes 4 t ++ le_bytes 2 n ++ body) (EleStr s) 6 false =
    Some (Some (le_bytes 4 (t + entry_size e) ++ le_bytes 2 (n + 1) ++ entry e ++ body ++ slack, Some 6)).
Proof.
  intros t e Hok Hn Hfit Hun. unfold lpInsert_at. fold (ele_enc (EleStr s)).
  destruct (ele_enc (EleStr s)) as [intenc enclen] eqn:EE. destruct (ele_enc_len (EleStr s) intenc enclen EE Hok) as [Hlen Hencl].
  cbn [ele_delete ele_new] in Hlen. rewrite bytes_of_one, length_entry in Hlen. fold e in Hlen.
  pose proof (backlen_size_range enclen). unfold UINT32_MAX in *.
  rewrite lp_get_total by (unfold in_u, t in *; lia). cbn [mbind option_bind lpInsert_replaced].
  rewrite Z.sub_0_r. rewrite wrap_id by (unfold in_u, t in *; lia). replace (t + enclen + _) with (t + entry_size e) by lia.
  replace (t + entry_size e >? UINT32_MAX) with false by (unfold UINT32_MAX; lia). set (A := le_bytes 4 t ++ le_bytes 2 n).
  assert (Z.of_nat (length A) = 6) as HA by done.
  assert (le_bytes 4 t ++ le_bytes 2 n ++ body = A ++ [] ++ body ++ []) as -> by (unfold A; by rewrite app_nil_r, <- app_assoc).
  destruct (grow_spec undef alloc Halloc A [] body [] (t + entry_size e) t) as (S1 & -> & HS1); [rewrite !length_app; cbn [length]; lia|lia|].
  destruct (memmove_gap A [] body S1 (enclen + lpEncodeBacklenSize enclen)) as (J & S2 & HM & HJ & _);
    [rewrite !length_app in *; cbn [length] in *; lia|lia|]. rewrite HA in HM. cbn [length negb] in *.
  replace (6 + enclen + _) with (6 + (enclen + lpEncodeBacklenSize enclen)) by lia.
  replace (t - 6) with (Z.of_nat (length body)) by lia. rewrite Z.add_0_r in HM. rewrite HM. cbn [mbind option_bind]. zb.
  destruct J as [|j J]; [cbn [length] in HJ; lia|].
  assert (get (A ++ (j :: J) ++ body ++ S2) 6 = Some j) as -> by (rewrite <- HA; by apply get_app). cbn [mbind option_bind andb].
  pose proof (lpInsert_store_spec A (j :: J) (body ++ S2) (EleStr s) Hok) as HS. rewrite EE, HA in HS. cbn [ele_new] in HS.
  rewrite bytes_of_one in HS. fold e in HS. rewrite HS by (pose proof (length_entry e); lia). cbn [mbind option_bind]. unfold A. rewrite <- app_assoc.
  rewrite lpInsert_count_spec by done. cbn [mbind option_bind]. rewrite set_total. cbn [mbind option_bind].
  unfold count_after. cbn [negb orb]. change LP_HDR_NUMELE_UNKNOWN with 65535. zb. by exists S2.
Qed.

(** C38. Integrity check, gap: the check decodes a backlen without comparing it to the
    bytes the library writes.  So it accepts every listpack of at most 255 elements, whatever the other
    ones, whose first element is the empty string with a backlen that is read across the element into the header.
    Once [lpPrepend] puts another element, of less than 2^21-1 bytes, in front of it, the same bytes
    are refused, and [lpPrev] from the element behind, or [lpLast] when there is none,
    fails its assertion and aborts the process. *)
Theorem lpValidateIntegrity_gap r s : Forall is_enc r -> (length r < 255)%nat -> ele_ok (EleStr s) ->
  Z.of_nat (length (str_enc s)) < 2 ^ 21 - 1 -> lp_total (str_enc s :: [0x80] :: r) <= UINT32_MAX ->
  let b := odd_listpack (Z.of_nat (S (length r))) [] r in
  lpValidateIntegrity None b (lp_total ([0x80] :: r)) true tt = Some true /\
  exists b', lpPrepend undef alloc b s = Some (Some b') /\
    lpValidateIntegrity None b' (lp_total (str_enc s :: [0x80] :: r)) true tt = Some false /\
    lpPrev b' (pos [str_enc s; [0x80]]) = None /\
    (r = [] -> lpLast b' = None).
Proof.
  intros Hr Hlen Hok Hs Ht b. set (e := str_enc s) in *. set (n := Z.of_nat (S (length r))) in *.
  pose proof (odd_total [] r) as HT. pose proof (odd_total [e] r) as HT'. pose proof (pos_snoc [] e) as Hp. cbn [app] in HT, HT', Hp.
  change (pos []) with 6 in *. assert (Forall is_enc [e]) as [He _]%Forall_cons by (by apply (ele_new_enc (EleStr s) [] ([0x80] :: r))).
  pose proof (entry_size_pos e He). split; [apply odd_accepted; [done|done|lia]|].
  assert (lpFirst b = Some (Some 6)) as EF.
  { destruct (odd_header n [] r [] ltac:(cbn [app]; lia)) as (Htot & _ & _); [unfold in_u, n; lia|]. rewrite app_nil_r in Htot. fold b in Htot.
    destruct (odd_first n r) as (A & Eb & HA); [unfold n; lia|]. fold b in Eb.
    pose proof (odd_validate A 0 0 (bytes_of r ++ [255]) (lp_total ([0x80] :: r)) ltac:(lia) ltac:(done) ltac:(lia) ltac:(lia)) as HV.
    cbv zeta in HV. rewrite HA, <- Eb in HV. unfold lpFirst. change LP_HDR_SIZE with 6.
    assert (get b 6 = Some 0x80) as -> by (rewrite Eb, app_assoc, <- HA; by apply get_app). cbn [mbind option_bind].
    change (0x80 =? LP_EOF) with false. cbv iota. unfold lpBytes. rewrite Htot. cbn [mbind option_bind app]. unfold lpAssertValidEntry. by rewrite HV. }
  destruct (lpInsert_front n s (odd_entry ++ bytes_of r ++ [255])) as (slack & HI); [done|unfold in_u, n; lia|..|unfold n; lia|].
  { rewrite !length_app. cbn [length odd_entry]. fold e. lia. }
  exists (odd_listpack (n + 1) [e] r ++ slack).
  assert (lpPrepend undef alloc b s = Some (Some (odd_listpack (n + 1) [e] r ++ slack))) as ->.
  { unfold lpPrepend. rewrite EF. cbn [mbind option_bind lpInsert].
    replace (6 + Z.of_nat (length (odd_entry ++ bytes_of r ++ [255]))) with (lp_total ([0x80] :: r)) in HI
      by (rewrite !length_app; cbn [length odd_entry]; lia).
    change b with (le_bytes 4 (lp_total ([0x80] :: r)) ++ le_bytes 2 n ++ odd_entry ++ bytes_of r ++ [255]).
    rewrite HI. cbn [drop_newp]. do 2 f_equal. unfold odd_listpack, front. cbn [app]. rewrite bytes_of_one, <- !app_assoc. fold e.
    replace (lp_total ([0x80] :: r) + entry_size e) with (lp_total (e :: [0x80] :: r)) by lia. done. }
  split; [done|]. destruct (odd_refused (n + 1) e r slack) as [HV HP]; [by constructor|unfold in_u, n; lia|done|done|].
  split; [done|]. split; [done|]. intros ->. unfold lpLast.
  destruct (odd_header (n + 1) [e] [] slack Ht) as (-> & _ & _); [unfold in_u, n; simpl; lia|]. cbn [mbind option_bind].
  unfold lp_total. rewrite Z.add_simpl_r. exact HP.
Qed.
End Gap.

Lemma lpValidateIntegrity_gap_witness :
  lpValidateIntegrity None [11; 0; 0; 0; 2; 0; 0x80; 0x81; 5; 1; 255] 11 true tt = Some true /\
  lpValidateIntegrity None [9; 0; 0; 0; 1; 0; 0x80; 0x81; 255] 9 true tt = Some true /\
  exists b', lpPrepend (fun _ => 0) (fun n => n) [9; 0; 0; 0; 1; 0; 0x80; 0x81; 255] [97] = Some (Some b') /\ lpLast b' = None.
Proof.
  split.
  - apply (lpValidateIntegrity_gap (fun _ => 0) (fun n => n) ltac:(done) [[5]] [97]); [|simpl; lia|split; [by repeat constructor|done]|done|done].
    constructor; [|constructor]. exists (ValInt 5). constructor. lia.
  - destruct (lpValidateIntegrity_gap (fun _ => 0) (fun n => n) ltac:(done) [] [97]) as (HA & b' & HP & _ & _ & HL);
      [constructor|simpl; lia|split; [by repeat constructor|done]|done|done|].
    split; [exact HA|]. exists b'. split; [exact HP|by apply HL].
Defined.
