(* ===== verification/ListpackSpec.v ===== *)
(** * ListpackSpec: what listpacks promise

    The properties of listpack.c: a listpack refines a list of strings under
    every sequence of operations; searching, batch deletion and merging; and what the
    integrity check of untrusted listpacks guarantees. *)

From Stdlib Require Import ZArith Lia ZifyBool String.
From stdpp Require Import base gmap numbers option list.
From S2P Require Import Prelude Numstr Listpack ListpackCodec ListpackProof ListpackRange.

Local Open Scope Z_scope.

(** ** Comparing and searching *)

Lemma elt_str_str_enc s : Forall byteZ s -> Z.of_nat (length (str_enc s)) < 2 ^ 32 -> elt_str (str_enc s) = s.
Proof. intros Hs Hl. destruct (str_enc_enc s Hs Hl) as (v & Hv & Es). unfold elt_str. by rewrite (elt_val_enc _ _ Hv). Qed.

Lemma elt_str_int v : in_s 64 v -> elt_str (lpEncodeIntegerGetType v) = dec v.
Proof. intros Hv. unfold elt_str. by rewrite (elt_val_enc _ _ (lpEncodeIntegerGetType_enc v Hv)). Qed.

(** An integer element equals a string when the string is its decimal representation. *)
Lemma int_eq_str z s : in_s 64 z -> (match string2ll s with Some v => z =? v | None => false end) = bool_decide (dec z = s).
Proof.
  intros Hz. destruct (string2ll s) as [v|] eqn:E.
  - destruct (string2ll_sound s v E) as [Hv ->]. destruct (Z.eqb_spec z v) as [->|Hne].
    + symmetry. by apply bool_decide_eq_true.
    + symmetry. apply bool_decide_eq_false. intros Ed. apply Hne. pose proof (string2ll_complete z Hz). pose proof (string2ll_complete v Hv). congruence.
  - symmetry. apply bool_decide_eq_false. intros <-. by rewrite string2ll_complete in E.
Qed.

Lemma str_eq_slice b p s s' : slice b p (Z.of_nat (length s')) = Some s' ->
  (if Z.of_nat (length s) =? Z.of_nat (length s') then v ← slice b p (Z.of_nat (length s')); Some (bool_decide (v = s)) else Some false) =
  Some (bool_decide (s' = s)).
Proof.
  intros HS. destruct (Z.eqb_spec (Z.of_nat (length s)) (Z.of_nat (length s'))); [by rewrite HS|].
  f_equal. symmetry. apply bool_decide_eq_false. intros ->. lia.
Qed.

Lemma lpCompare_spec b l e r s : lp_rep b (l ++ e :: r) -> lpCompare b (pos l) s = Some (bool_decide (elt_str e = s)).
Proof.
  intros HR. unfold lpCompare, lpGet. destruct (rep_get b l e r HR) as (x & -> & Hx). cbn [mbind option_bind]. rewrite Hx.
  pose proof (rep_getWithSize b l e r None 0 HR) as HG. unfold elt_str. destruct (elt_val e) as [z|s']; cbn [get_ok val_str] in *.
  - destruct HG as [Hz ->]. cbn [int_ret mbind option_bind]. rewrite lpStringToInt64_eq. by rewrite int_eq_str.
  - destruct HG as (p & -> & HS). cbn [mbind option_bind]. rewrite <- (str_eq_slice b p s s' HS).
    destruct (Z.eqb_spec (Z.of_nat (length s)) (Z.of_nat (length s'))) as [E|]; [by rewrite E|done].
Qed.

(** The cached parse of the searched string is up to date. *)
Definition ve_ok (s : list Z) (ve : vencoding) : Prop := ve = VUnknown \/ ve = lpFind_encode s VUnknown.

Lemma lpFind_encode_spec s ve : ve_ok s ve ->
  ve_ok s (lpFind_encode s ve) /\ lpFind_encode s ve = match string2ll s with Some v => VInt v | None => VString end.
Proof.
  assert (lpFind_encode s VUnknown = match string2ll s with Some v => VInt v | None => VString end) as E.
  { unfold lpFind_encode. rewrite lpStringToInt64_eq. destruct (string2ll s) as [v|] eqn:E.
    - destruct (string2ll_sound s v E) as [Hv ->]. pose proof (dec_length v Hv). pose proof (dec_length_pos v Hv). rewrite Z.geb_leb. zb. done.
    - by destruct (_ || _). }
  intros [->| ->]; [split; [by right|done]|]. rewrite E. split; [right; rewrite E; by destruct (string2ll s)|by destruct (string2ll s)].
Qed.

Lemma lpFind_compare_spec b l e r s ve es0 : lp_rep b (l ++ e :: r) -> ve_ok s ve -> exists ve',
  lpFind_compare b (lp_total (l ++ e :: r)) s (pos l) ve es0 = Some (bool_decide (elt_str e = s), ve', entry_size e) /\ ve_ok s ve'.
Proof.
  intros HR Hve. unfold lpFind_compare. pose proof (rep_getWithSize b l e r None es0 HR) as HG. unfold elt_str.
  destruct (elt_val e) as [z|s']; cbn [get_ok val_str] in *.
  - destruct HG as [Hz ->]. cbn [int_ret mbind option_bind]. destruct (lpFind_encode_spec s ve Hve) as [Hve' E].
    eexists. split; [|exact Hve']. rewrite E, <- int_eq_str by done. by destruct (string2ll s).
  - destruct HG as (p & -> & HS). cbn [mbind option_bind]. pose proof (pos_ge l). pose proof (pos_lt_total l e r (rep_enc _ _ HR)) as Hp.
    rewrite pos_snoc in Hp. unfold assert_. zb. cbn [mbind option_bind]. rewrite (str_eq_slice b p s s' HS). by exists ve.
Qed.

Lemma lpFind_check_spec b l r : lp_rep b (l ++ r) -> lpFind_check b (lp_total (l ++ r)) (pos l) = Some tt.
Proof.
  intros HR. unfold lpFind_check. rewrite Z.geb_leb. destruct (Z.leb_spec (lp_total (l ++ r)) (pos l + 8)); [by apply lpAssertValidEntry_spec|].
  pose proof (pos_ge l). unfold assert_. by zb.
Qed.

(** The first element equal to [s] among those [skip] apart, [cnt] elements being left to skip. *)
Fixpoint find_every (skip cnt : nat) (s : list Z) (r : list (list Z)) : option nat :=
  match r with
  | [] => None
  | x :: r =>
    match cnt with
    | O => if bool_decide (x = s) then Some O else S <$> find_every skip skip s r
    | S cnt => S <$> find_every skip cnt s r
    end
  end.

Definition found_at (l r : list (list Z)) (j : option nat) : option Z := (fun j => pos (l ++ take j r)) <$> j.

(** After an element: the end, or the next round. *)
Lemma lpFind_next b l e r (k : Z -> option (option Z)) res : lp_rep b (l ++ e :: r) ->
  (r = [] -> res = None) -> (r <> [] -> k (pos (l ++ [e])) = Some res) ->
  (_ ← lpFind_check b (lp_total (l ++ e :: r)) (pos (l ++ [e]));
   x ← get b (pos (l ++ [e])); if x =? LP_EOF then Some None else k (pos (l ++ [e]))) = Some res.
Proof.
  intros HR H0 H1. assert (l ++ e :: r = (l ++ [e]) ++ r) as E by (by rewrite <- app_assoc). rewrite E in *.
  rewrite lpFind_check_spec by done. cbn [mbind option_bind]. destruct r as [|e' r].
  - rewrite app_nil_r in HR. rewrite (rep_get_end b _ HR). cbn [mbind option_bind]. by rewrite (H0 eq_refl).
  - destruct (rep_get b _ e' r HR) as (x & -> & Hx). cbn [mbind option_bind]. rewrite Hx. by apply H1.
Qed.

Lemma found_at_S l e r j : found_at (l ++ [e]) r j = found_at l (e :: r) (S <$> j).
Proof. destruct j; [|done]. cbn. by rewrite <- app_assoc. Qed.

Lemma lpFind_loop_spec b es s skip : lp_rep b es -> 0 <= skip < 2 ^ 31 ->
  forall r l cnt ve es0 fuel, es = l ++ r -> r <> [] -> ve_ok s ve -> (length r <= fuel)%nat -> 0 <= cnt <= skip ->
  lpFind_loop fuel b (lp_total es) s skip (pos l) cnt ve es0 =
  Some (found_at l r (find_every (Z.to_nat skip) (Z.to_nat cnt) s (elt_str <$> r))).
Proof.
  intros HR Hskip. assert (s32 skip = skip) as Es by (apply swrap_id; unfold in_s; simpl; lia).
  induction r as [|e r IH]; intros l cnt ve es0 fuel -> Hne Hve Hf Hc; [done|]. destruct fuel as [|fuel]; [simpl in Hf; lia|].
  assert (l ++ e :: r = (l ++ [e]) ++ r) as EL by (by rewrite <- app_assoc).
  cbn [lpFind_loop fmap list_fmap find_every length] in *. destruct (Z.eqb_spec cnt 0) as [->|Hn0].
  - destruct (lpFind_compare_spec b l e r s ve es0 HR Hve) as (ve' & -> & Hve'). cbn [mbind option_bind].
    change (Z.to_nat 0) with O. cbv iota. case_bool_decide as Heq; [cbn; by rewrite app_nil_r|].
    rewrite <- pos_snoc, Es. apply (lpFind_next b l e r (fun p => lpFind_loop fuel b _ s skip p skip ve' _)); [done|by intros ->|].
    intros Hr. rewrite <- found_at_S. apply IH; [done|done|done|lia|lia].
  - rewrite (lpSkip_spec b l e r HR). cbn [mbind option_bind].
    replace (s32 (cnt - 1)) with (cnt - 1) by (symmetry; apply swrap_id; unfold in_s; simpl; lia).
    replace (Z.to_nat cnt) with (S (Z.to_nat (cnt - 1))) by lia. cbv iota.
    apply (lpFind_next b l e r (fun p => lpFind_loop fuel b _ s skip p (cnt - 1) ve es0)); [done|by intros ->|].
    intros Hr. rewrite <- found_at_S. apply IH; [done|done|done|lia|lia].
Qed.

(** ** Sequences of operations *)

Inductive lpop :=
| OpInsert (i : Z) (where_ : lpwhere) (s : list Z)
| OpInsertInt (i : Z) (where_ : lpwhere) (v : Z)
| OpDelete (i : Z)
| OpAppend (s : list Z)
| OpAppendInt (v : Z)
| OpPrepend (s : list Z)
| OpPrependInt (v : Z)
| OpDeleteRange (i num : Z)
| OpGet (i : Z)
| OpLength
| OpFind (i : Z) (s : list Z) (skip : Z)
| OpShrink.

(** What an operation answers: [NULL] from a modification that would not fit;
    no element at the index; a pointer; a string; a length. *)
Inductive lpres := ResNull | ResAbsent | ResPtr (p : option Z) | ResStr (s : list Z) | ResLen (n : Z) | ResDone.

Section Run.
Context (undef : nat -> Z) (alloc : Z -> Z).

Definition at_index (b : list Z) (i : Z) (k : Z -> option (list Z * lpres)) : option (list Z * lpres) :=
  p ← lpSeek b i; match p with None => Some (b, ResAbsent) | Some p => k p end.

Definition modified (b : list Z) (r : option (option (list Z * option Z))) : option (list Z * lpres) :=
  match r with Some (Some (b', newp)) => Some (b', ResPtr newp) | Some None => Some (b, ResNull) | None => None end.

Definition replaced (b : list Z) (r : option (option (list Z))) : option (list Z * lpres) :=
  match r with Some (Some b') => Some (b', ResDone) | Some None => Some (b, ResNull) | None => None end.

(** The element as a string, through a buffer of [LP_INTBUF_SIZE] bytes. *)
Definition read_str (b : list Z) (p : Z) : option (list Z) :=
  r ← lpGet b p (Some (replicate 21 0));
  match r with
  | RPtr ptr count => slice b ptr count
  | RBuf buf count => slice buf 0 count
  | RInt _ => None
  end.

Definition run_op (b : list Z) (op : lpop) : option (list Z * lpres) :=
  match op with
  | OpInsert i w s => at_index b i (fun p => modified b (lpInsertString undef alloc b s p w))
  | OpInsertInt i w v => at_index b i (fun p => modified b (lpInsertInteger undef alloc b v p w))
  | OpDelete i => at_index b i (fun p => modified b (lpDelete undef alloc b p))
  | OpAppend s => replaced b (lpAppend undef alloc b s)
  | OpAppendInt v => replaced b (lpAppendInteger undef alloc b v)
  | OpPrepend s => replaced b (lpPrepend undef alloc b s)
  | OpPrependInt v => replaced b (lpPrependInteger undef alloc b v)
  | OpDeleteRange i num => b ← lpDeleteRange undef alloc b i num; Some (b, ResDone)
  | OpGet i => at_index b i (fun p => s ← read_str b p; Some (b, ResStr s))
  | OpLength => '(b, n) ← lpLength b; Some (b, ResLen n)
  | OpFind i s skip => at_index b i (fun p => r ← lpFind b p s skip; Some (b, ResPtr r))
  | OpShrink => b ← lpShrinkToFit undef alloc b; Some (b, ResDone)
  end.

Fixpoint run_ops (b : list Z) (ops : list lpop) : option (list Z * list lpres) :=
  match ops with
  | [] => Some (b, [])
  | op :: ops => '(b, r) ← run_op b op; '(b, rs) ← run_ops b ops; Some (b, r :: rs)
  end.
End Run.

(** *** The specification: a list of strings, each with the bytes it takes *)

Notation aelt := (list Z * Z)%type.
Definition asize (l : list aelt) : Z := foldr (fun x n => x.2 + n) 0 l.
Definition aptr (l : list aelt) : Z := 6 + asize l.
Definition anew (s : list Z) : aelt := (s, entry_size (str_enc s)).
Definition anew_int (v : Z) : aelt := (dec v, entry_size (lpEncodeIntegerGetType v)).

(** The new list [l'] when it fits 2^32-1 bytes. *)
Definition fit (l l' : list aelt) (r : lpres) : list aelt * lpres :=
  if UINT32_MAX <? aptr l' + 1 then (l, ResNull) else (l', r).

Definition at_elt (l : list aelt) (i : Z) (k : nat -> list aelt * lpres) : list aelt * lpres :=
  match seek_index (length l) i with Some j => k j | None => (l, ResAbsent) end.

Definition spec_insert (l : list aelt) (j : nat) (where_ : lpwhere) (x : aelt) : list aelt * lpres :=
  let at_ := ins_at j where_ in
  fit l (take at_ l ++ x :: drop (match where_ with LP_BEFORE => j | _ => S j end) l) (ResPtr (Some (aptr (take at_ l)))).

Definition spec_op (l : list aelt) (op : lpop) : list aelt * lpres :=
  match op with
  | OpInsert i w s => at_elt l i (fun j => spec_insert l j w (anew s))
  | OpInsertInt i w v => at_elt l i (fun j => spec_insert l j w (anew_int v))
  | OpDelete i => at_elt l i (fun j => (take j l ++ drop (S j) l,
      ResPtr (match drop (S j) l with [] => None | _ => Some (aptr (take j l)) end)))
  | OpAppend s => fit l (l ++ [anew s]) ResDone
  | OpAppendInt v => fit l (l ++ [anew_int v]) ResDone
  | OpPrepend s => fit l (anew s :: l) ResDone
  | OpPrependInt v => fit l (anew_int v :: l) ResDone
  | OpDeleteRange i num => (delete_range l i num, ResDone)
  | OpGet i => at_elt l i (fun j => (l, match l !! j with Some x => ResStr x.1 | None => ResAbsent end))
  | OpLength => (l, ResLen (Z.of_nat (length l)))
  | OpFind i s skip => at_elt l i (fun j =>
      (l, ResPtr ((fun k => aptr (take (j + k) l)) <$> find_every (Z.to_nat skip) 0 s (fst <$> drop j l))))
  | OpShrink => (l, ResDone)
  end.

Fixpoint spec_ops (l : list aelt) (ops : list lpop) : list aelt * list lpres :=
  match ops with
  | [] => (l, [])
  | op :: ops => let '(l, r) := spec_op l op in let '(l, rs) := spec_ops l ops in (l, r :: rs)
  end.

(** Strings of less than 2^32 bytes, 64-bit integers, and counts in their range. *)
Definition op_ok (op : lpop) : Prop :=
  match op with
  | OpInsert _ _ s | OpAppend s | OpPrepend s => Forall byteZ s /\ in_u 32 (Z.of_nat (length s))
  | OpInsertInt _ _ v | OpAppendInt v | OpPrependInt v => in_s 64 v
  | OpDeleteRange _ num => 0 <= num
  | OpFind _ _ skip => 0 <= skip < 2 ^ 31
  | _ => True
  end.

(** *** The refinement *)

Definition abs (e : list Z) : aelt := (elt_str e, entry_size e).

Lemma asize_bytes (l : list aelt) es : snd <$> l = entry_size <$> es -> asize l = Z.of_nat (length (bytes_of es)).
Proof.
  revert es. induction l as [|x l IH]; intros [|e es] H; simplify_eq/=; [done|]. rewrite bytes_of_len_cons. f_equal; [done|by apply IH].
Qed.

Lemma aptr_pos (l : list aelt) es : snd <$> l = entry_size <$> es -> aptr l = pos es.
Proof. intros H. unfold aptr, pos. by rewrite (asize_bytes l es H). Qed.

Lemma snd_abs (es : list (list Z)) : snd <$> (abs <$> es) = entry_size <$> es.
Proof. rewrite <- list_fmap_compose. by apply list_fmap_ext. Qed.

Lemma fst_abs (es : list (list Z)) : fst <$> (abs <$> es) = elt_str <$> es.
Proof. rewrite <- list_fmap_compose. by apply list_fmap_ext. Qed.

Lemma aptr_abs (es : list (list Z)) : aptr (abs <$> es) = pos es.
Proof. apply aptr_pos, snd_abs. Qed.

Lemma abs_str s es l r : es = l ++ str_enc s :: r -> Forall byteZ s -> lp_total es <= UINT32_MAX -> abs (str_enc s) = anew s.
Proof.
  intros -> Hs Ht. unfold abs, anew. rewrite elt_str_str_enc; [done|done|]. unfold lp_total in Ht. rewrite pos_app, bytes_of_len_cons in Ht.
  pose proof (pos_ge l). pose proof (backlen_size_range (Z.of_nat (length (str_enc s)))). unfold entry_size, UINT32_MAX in *. lia.
Qed.

Lemma abs_int v : in_s 64 v -> abs (lpEncodeIntegerGetType v) = anew_int v.
Proof. intros Hv. unfold abs, anew_int. by rewrite elt_str_int. Qed.

(** Simulation of one operation: same answer, related states. *)
Definition simulates (run : option (list Z * lpres)) (spec : list aelt * lpres) : Prop :=
  exists b' es' r, run = Some (b', r) /\ lp_rep b' es' /\ spec = (abs <$> es', r).

Lemma simulates_fit b es es' l' r : lp_rep b es -> snd <$> l' = entry_size <$> es' -> (lp_total es' <= UINT32_MAX -> abs <$> es' = l') ->
  (if UINT32_MAX <? lp_total es' then fit (abs <$> es) l' r = (abs <$> es, ResNull) else fit (abs <$> es) l' r = (abs <$> es', r)).
Proof.
  intros HR Hsz Habs. unfold fit. rewrite (aptr_pos l' es' Hsz). fold (lp_total es'). case_zb; [done|]. by rewrite Habs.
Qed.

Lemma modified_sim b es res es' newp l' : lp_rep b es -> modifies res es' newp -> snd <$> l' = entry_size <$> es' ->
  (lp_total es' <= UINT32_MAX -> abs <$> es' = l') -> simulates (modified b res) (fit (abs <$> es) l' (ResPtr newp)).
Proof.
  intros HR HM Hsz Habs. pose proof (simulates_fit b es es' l' (ResPtr newp) HR Hsz Habs) as HF. revert HM HF. unfold modifies. case_zb.
  - intros -> ->. by exists b, es, ResNull.
  - intros (b' & -> & HR') ->. by exists b', es', (ResPtr newp).
Qed.

Lemma replaced_sim b es res es' l' : lp_rep b es -> modifies_lp res es' -> snd <$> l' = entry_size <$> es' ->
  (lp_total es' <= UINT32_MAX -> abs <$> es' = l') -> simulates (replaced b res) (fit (abs <$> es) l' ResDone).
Proof.
  intros HR HM Hsz Habs. pose proof (simulates_fit b es es' l' ResDone HR Hsz Habs) as HF. revert HM HF. unfold modifies_lp. case_zb.
  - intros -> ->. by exists b, es, ResNull.
  - intros (b' & -> & HR') ->. by exists b', es', ResDone.
Qed.

Lemma at_index_sim b es i k ks : lp_rep b es ->
  (forall j e, es !! j = Some e -> simulates (k (pos (take j es))) (ks j)) -> simulates (at_index b i k) (at_elt (abs <$> es) i ks).
Proof.
  intros HR Hk. unfold at_index, at_elt. rewrite (lpSeek_spec b es i HR), length_fmap. cbn [mbind option_bind].
  destruct (seek_index (length es) i) as [j|] eqn:Ej; cbn [ptr_at fmap option_fmap option_map].
  - destruct (seek_index_spec _ _ _ Ej) as [Hj _]. destruct (lookup_lt_is_Some_2 es j Hj) as [e He]. by apply (Hk j e).
  - by exists b, es, ResAbsent.
Qed.

Lemma read_str_spec b l e r : lp_rep b (l ++ e :: r) -> read_str b (pos l) = Some (elt_str e).
Proof.
  intros HR. unfold read_str, lpGet. pose proof (rep_getWithSize b l e r (Some (replicate 21 0)) 0 HR) as HG. unfold elt_str.
  destruct (elt_val e) as [z|s]; cbn [get_ok val_str] in *.
  - destruct HG as [Hz ->]. unfold int_ret. pose proof (ll2string_spec (replicate 21 0) 21 z Hz ltac:(simpl; lia)) as HL.
    pose proof (dec_length z Hz). revert HL. zb. intros ->. cbn [mbind option_bind]. by apply (slice_app []).
  - destruct HG as (p & -> & HS). exact HS.
Qed.

Section Refine.
Context (undef : nat -> Z) (alloc : Z -> Z) (Halloc : forall n, 0 <= n -> n <= alloc n).

Lemma insert_sim b es ele w j e body x : lp_rep b es -> es !! j = Some e -> ele_ok ele -> ele_new ele = [body] -> ele_delete ele = false ->
  x.2 = entry_size body -> (forall es' l r, es' = l ++ body :: r -> lp_total es' <= UINT32_MAX -> abs body = x) ->
  simulates (modified b (lpInsert undef alloc b ele (pos (take j es)) w)) (spec_insert (abs <$> es) j w x).
Proof.
  intros HR Hj Hok Hnew Hdel Hx Habs. pose proof (lpInsert_spec undef alloc Halloc b es ele j e w HR Hj Hok) as HM. cbv zeta in HM.
  unfold ins_where in HM. rewrite Hdel in HM. unfold ins_elts in HM. rewrite Hnew in HM. cbn [app] in HM.
  unfold spec_insert. rewrite <- !fmap_take, <- fmap_drop, aptr_abs.
  eapply modified_sim; [done|exact HM| |].
  - rewrite !fmap_app, !fmap_cons, !snd_abs. by rewrite Hx.
  - intros Ht. rewrite !fmap_app, !fmap_cons. by rewrite (Habs _ _ _ eq_refl Ht).
Qed.

Lemma delete_sim b es j e : lp_rep b es -> es !! j = Some e ->
  simulates (modified b (lpDelete undef alloc b (pos (take j es))))
    (take j (abs <$> es) ++ drop (S j) (abs <$> es),
     ResPtr (match drop (S j) (abs <$> es) with [] => None | _ => Some (aptr (take j (abs <$> es))) end)).
Proof.
  intros HR Hj. pose proof (lpInsert_spec undef alloc Halloc b es EleNone j e LP_REPLACE HR Hj I) as HM. cbv zeta in HM.
  cbn [ins_where ele_delete] in HM. unfold ins_elts in HM. cbn [ins_at ele_new app] in HM. unfold modifies in HM.
  pose proof (rep_total _ _ HR) as Ht. rewrite (split_at es j e Hj) in Ht. pose proof (total_le_app (take j es) [e] (drop (S j) es)) as Hle.
  cbn [app] in Hle. revert HM. zb. intros (b' & HD & HR'). unfold lpDelete. rewrite HD.
  exists b', (take j es ++ drop (S j) es), (ResPtr (ptr (take j es) (drop (S j) es))). split; [done|]. split; [done|].
  rewrite <- !fmap_take, <- fmap_drop, <- fmap_app, aptr_abs. do 2 f_equal. unfold ptr. by destruct (drop (S j) es).
Qed.

Lemma find_sim b es j e s skip : lp_rep b es -> es !! j = Some e -> 0 <= skip < 2 ^ 31 ->
  lpFind b (pos (take j es)) s skip =
  Some ((fun k => pos (take (j + k) es)) <$> find_every (Z.to_nat skip) 0 s (elt_str <$> drop j es)).
Proof.
  intros HR Hj Hs. unfold lpFind, lpBytes. rewrite (rep_total_bytes _ _ HR). cbn [mbind option_bind].
  rewrite (lpFind_loop_spec b es s skip HR Hs (drop j es) (take j es) 0); [| |by rewrite (drop_S _ _ _ Hj)|by left| |lia].
  - unfold found_at. change (Z.to_nat 0) with O. f_equal. apply option_fmap_ext. intros k. by rewrite take_take_drop.
  - by rewrite take_drop.
  - pose proof (rep_fuel b (take j es) (drop j es)) as Hf. rewrite take_drop in Hf. specialize (Hf HR). lia.
Qed.

Lemma delete_range_fmap (es : list (list Z)) i num : delete_range (abs <$> es) i num = abs <$> delete_range es i num.
Proof.
  unfold delete_range. rewrite length_fmap. destruct (seek_index _ _); [|done]. by rewrite fmap_app, fmap_take, !fmap_drop.
Qed.

Lemma run_op_sim b es op : lp_rep b es -> op_ok op -> simulates (run_op undef alloc b op) (spec_op (abs <$> es) op).
Proof.
  intros HR Hok. destruct op as [i w s|i w v|i|s|v|s|v|i num|i| |i s skip|]; cbn [run_op spec_op op_ok] in *.
  - apply at_index_sim; [done|]. intros j e Hj. apply (insert_sim b es (EleStr s) w j e (str_enc s)); try done.
    intros es' l r -> Ht. eapply abs_str; [done|apply Hok|done].
  - apply at_index_sim; [done|]. intros j e Hj. apply (insert_sim b es (EleInt _) w j e (lpEncodeIntegerGetType v)); try done.
    + by apply lpEncodeInteger_ok.
    + intros. by apply abs_int.
  - apply at_index_sim; [done|]. intros j e Hj. by eapply delete_sim.
  - apply (replaced_sim b es _ (es ++ [str_enc s])); [done|by apply lpAppend_spec|by rewrite !fmap_app, snd_abs|].
    intros Ht. rewrite fmap_app. cbn. by rewrite (abs_str s _ es [] eq_refl (proj1 Hok) Ht).
  - apply (replaced_sim b es _ (es ++ [lpEncodeIntegerGetType v])); [done|by apply lpAppendInteger_spec|by rewrite !fmap_app, snd_abs|].
    intros Ht. rewrite fmap_app. cbn. by rewrite abs_int.
  - apply (replaced_sim b es _ (str_enc s :: es)); [done|by apply lpPrepend_spec|by rewrite !fmap_cons, snd_abs|].
    intros Ht. rewrite fmap_cons. by rewrite (abs_str s _ [] es eq_refl (proj1 Hok) Ht).
  - apply (replaced_sim b es _ (lpEncodeIntegerGetType v :: es)); [done|by apply lpPrependInteger_spec|by rewrite !fmap_cons, snd_abs|].
    intros Ht. rewrite fmap_cons. by rewrite abs_int.
  - destruct (lpDeleteRange_spec undef alloc Halloc b es i num HR Hok) as (b' & -> & HR'). eexists _, _, _. split; [done|]. split; [done|].
    by rewrite delete_range_fmap.
  - apply at_index_sim; [done|]. intros j e Hj. pose proof HR as HR'. rewrite (split_at es j e Hj) in HR'.
    rewrite (read_str_spec b _ e _ HR'). cbn [mbind option_bind]. eexists _, es, _. split; [done|]. split; [done|].
    rewrite list_lookup_fmap, Hj. done.
  - destruct (lpLength_spec b es HR) as (b' & -> & HR' & _). eexists _, _, _. split; [done|]. split; [done|]. by rewrite length_fmap.
  - apply at_index_sim; [done|]. intros j e Hj. rewrite (find_sim b es j e s skip HR Hj Hok). cbn [mbind option_bind].
    eexists _, es, _. split; [done|]. split; [done|]. rewrite <- fmap_drop, fst_abs.
    destruct (find_every _ _ _ _); [|done]. cbn [fmap option_fmap option_map]. by rewrite <- fmap_take, aptr_abs.
  - destruct HR as [(n & slack & -> & Hn) HE Ht]. destruct (lpShrinkToFit_image undef alloc Halloc n es slack Ht) as (S' & ->).
    eexists _, es, _. split; [done|]. split; [|done]. split; [by exists n, S'|done|done].
Qed.

Lemma run_ops_sim ops : forall b es, lp_rep b es -> Forall op_ok ops -> exists b' es' rs,
  run_ops undef alloc b ops = Some (b', rs) /\ lp_rep b' es' /\ spec_ops (abs <$> es) ops = (abs <$> es', rs).
Proof.
  induction ops as [|op ops IH]; intros b es HR Hok; [by exists b, es, []|]. apply Forall_cons in Hok as [Hop Hok]. cbn [run_ops spec_ops].
  destruct (run_op_sim b es op HR Hop) as (b1 & es1 & r & -> & HR1 & ->). cbn [mbind option_bind].
  destruct (IH b1 es1 HR1 Hok) as (b2 & es2 & rs & -> & HR2 & ->). cbn [mbind option_bind]. by exists b2, es2, (r :: rs).
Qed.
End Refine.

(** ** Properties *)

(** C3. Listpack refinement: starting from a new listpack, whatever the allocator
    does, every sequence of insertions, replacements, deletions, appends, reads, searches and counts succeeds without a
    failed assertion or an access outside the block and answers what a list of strings would answer;
    integers are stored and found as their decimal strings, and a modification is
    refused exactly when the encoded list would exceed 2^32-1 bytes. *)
Theorem listpack_refines_strings undef alloc capacity ops : (forall n, 0 <= n -> n <= alloc n) -> Forall op_ok ops ->
  exists b b' l rs, lpNew undef alloc capacity = Some b /\ run_ops undef alloc b ops = Some (b', rs) /\
    spec_ops [] ops = (l, rs) /\ exists es, lp_rep b' es /\ l = abs <$> es.
Proof.
  intros Halloc Hok. destruct (lpNew_spec undef alloc Halloc capacity) as (b & HN & HR).
  destruct (run_ops_sim undef alloc Halloc ops b [] HR Hok) as (b' & es' & rs & Hrun & HR' & Hspec).
  exists b, b', (abs <$> es'), rs. split; [done|]. split; [done|]. split; [exact Hspec|]. by exists es'.
Qed.

Definition ex_ops : list lpop :=
  [OpAppend (chars "hello"); OpAppend (chars "-123"); OpPrependInt 100000; OpInsert (-1) LP_AFTER (replicate 70 65);
   OpGet 2; OpGet (-1); OpFind 0 (chars "-123") 0; OpInsert 0 LP_REPLACE (chars "x"); OpDelete 1; OpLength; OpDeleteRange (-2) 5; OpGet 0].

Lemma listpack_refines_strings_witness :
  exists b b' l rs, lpNew (fun _ => 170) (fun n => n + n mod 16) 0 = Some b /\ run_ops (fun _ => 170) (fun n => n + n mod 16) b ex_ops = Some (b', rs) /\
    spec_ops [] ex_ops = (l, rs) /\ rs !! 6%nat = Some (ResPtr (Some 18)).
Proof.
  destruct (listpack_refines_strings (fun _ => 170) (fun n => n + n mod 16) 0 ex_ops) as (b & b' & l & rs & H1 & H2 & H3 & _).
  - intros n Hn. pose proof (Z.mod_pos_bound n 16). lia.
  - repeat apply Forall_cons_2; cbn [op_ok]; try exact I;
      lazymatch goal with
      | |- Forall op_ok [] => constructor
      | |- Forall _ _ /\ _ => split; [apply (bool_decide_unpack _); vm_compute; exact I|split; vm_compute; [discriminate|reflexivity]]
      | |- in_s _ _ => split; vm_compute; discriminate || reflexivity
      | |- _ => lia
      end.
  - exists b, b', l, rs. split; [exact H1|]. split; [exact H2|]. split; [exact H3|].
    assert (spec_ops [] ex_ops = (l, rs)) as E by exact H3. vm_compute in E. injection E as _ <-. reflexivity.
Defined.

(** Search: from the [j]-th element, [lpFind] returns the first of the elements
    [skip] apart whose string is [s], comparing integers with their decimal representation,
    or [NULL] when there is none. *)
Theorem lpFind_correct b es j e s skip : lp_rep b es -> es !! j = Some e -> 0 <= skip < 2 ^ 31 ->
  lpFind b (pos (take j es)) s skip =
  Some ((fun k => pos (take (j + k) es)) <$> find_every (Z.to_nat skip) 0 s (elt_str <$> drop j es)).
Proof. apply find_sim. Qed.

(** A hash of two fields as [t_hash.c] stores it. *)
Definition ex_elts : list (list Z) := [str_enc (chars "a"); str_enc (chars "1"); str_enc (chars "1"); str_enc (chars "-5000")].

Lemma ex_elts_rep : lp_rep (image 4 ex_elts) ex_elts.
Proof.
  split; [|repeat constructor|by vm_compute].
  - exists 4, []. split; [by rewrite app_nil_r|by right].
  - exists (ValStr (chars "a")). apply (enc_6bit_str (chars "a")); [|done]. apply (bool_decide_unpack _). by vm_compute.
  - exists (ValInt 1). by apply (enc_7bit_uint 1).
  - exists (ValInt 1). by apply (enc_7bit_uint 1).
  - exists (ValInt (-5000)). by apply (lpEncodeIntegerGetType_enc (-5000)).
Qed.


(** Batch deletion: given pointers to any subset of the elements, in order,
    [lpBatchDelete] leaves a well-formed listpack of the other elements. *)
Theorem lpBatchDelete_correct undef alloc b es mask : (forall n, 0 <= n -> n <= alloc n) -> lp_rep b es -> length mask = length es ->
  exists b', lpBatchDelete undef alloc b (marked LP_HDR_SIZE es mask) = Some b' /\ lp_rep b' (kept es mask).
Proof. intros Halloc. by apply lpBatchDelete_spec. Qed.

Lemma lpBatchDelete_correct_witness :
  exists b', lpBatchDelete (fun _ => 0) (fun n => n) (image 4 ex_elts) [6; 11] = Some b' /\ lp_rep b' [str_enc (chars "1"); str_enc (chars "-5000")].
Proof.
  exact (lpBatchDelete_correct (fun _ => 0) (fun n => n) (image 4 ex_elts) ex_elts [true; false; true; false]
    (fun n _ => Z.le_refl n) ex_elts_rep eq_refl).
Defined.

(** Merge: merging two listpacks gives the elements of the first followed by those of
    the second, in the larger of the two blocks, unless the result would
    reach 2^32-1 bytes, when the assertion fails. *)
Theorem lpMerge_correct undef alloc b1 b2 es1 es2 : (forall n, 0 <= n -> n <= alloc n) -> lp_rep b1 es1 -> lp_rep b2 es2 ->
  if lp_total (es1 ++ es2) <? UINT32_MAX
  then exists t, lpMerge undef alloc b1 b2 = Some (t, lp_total es1 >=? lp_total es2) /\ lp_rep t (es1 ++ es2)
  else lpMerge undef alloc b1 b2 = None.
Proof. intros Halloc. by apply lpMerge_spec. Qed.
