(* ===== verification/SdsCmp.v ===== *)
(** * Comparison of strings ([sds.c], [sdscmp])

    [memcmp] on the common length, then the lengths; the order it defines. *)

From Stdlib Require Import ZArith Lia ZifyBool.
From stdpp Require Import base gmap numbers option list.
From S2P Require Import Prelude.

Local Open Scope Z_scope.

Fixpoint memcmp (n : nat) (s1 s2 : list Z) : Z :=
  match n, s1, s2 with
  | S n, x :: s1, y :: s2 =>
    if x <? y then -1 else if y <? x then 1 else memcmp n s1 s2
  | _, _, _ => 0
  end.

Definition sdscmp (s1 s2 : list Z) : Z :=
  let l1 := Z.of_nat (length s1) in
  let l2 := Z.of_nat (length s2) in
  let minlen := if l1 <? l2 then l1 else l2 in
  let cmp := memcmp (Z.to_nat minlen) s1 s2 in
  if cmp =? 0 then (if l2 <? l1 then 1 else if l1 <? l2 then -1 else 0) else cmp.

(** ** The order of strings *)

Lemma sdscmp_cons x a y b :
  sdscmp (x :: a) (y :: b) = if x <? y then -1 else if y <? x then 1 else sdscmp a b.
Proof.
  unfold sdscmp. cbn [length].
  replace (Z.to_nat (if Z.of_nat (S (length a)) <? Z.of_nat (S (length b))
                     then Z.of_nat (S (length a)) else Z.of_nat (S (length b))))
    with (S (Z.to_nat (if Z.of_nat (length a) <? Z.of_nat (length b) then Z.of_nat (length a) else Z.of_nat (length b)))).
  2: { destruct (Z.ltb_spec (Z.of_nat (length a)) (Z.of_nat (length b))),
        (Z.ltb_spec (Z.of_nat (S (length a))) (Z.of_nat (S (length b)))); lia. }
  cbn [memcmp]. destruct (x <? y); [done|]. destruct (y <? x); [done|].
  replace (Z.of_nat (S (length b)) <? Z.of_nat (S (length a))) with (Z.of_nat (length b) <? Z.of_nat (length a)) by lia.
  by replace (Z.of_nat (S (length a)) <? Z.of_nat (S (length b))) with (Z.of_nat (length a) <? Z.of_nat (length b)) by lia.
Qed.

Lemma sdscmp_nil_cons y b : sdscmp [] (y :: b) = -1.
Proof. done. Qed.

Lemma sdscmp_cons_nil x a : sdscmp (x :: a) [] = 1.
Proof. done. Qed.

Lemma sdscmp_refl a : sdscmp a a = 0.
Proof. induction a as [|x a IH]; [done|]. rewrite sdscmp_cons, Z.ltb_irrefl. done. Qed.

Lemma sdscmp_opp a b : sdscmp b a = - sdscmp a b.
Proof.
  revert b. induction a as [|x a IH]; intros [|y b]; try done.
  rewrite !sdscmp_cons, IH. destruct (Z.ltb_spec x y), (Z.ltb_spec y x); lia.
Qed.

Lemma sdscmp_eq0 a b : sdscmp a b = 0 -> a = b.
Proof.
  revert b. induction a as [|x a IH]; intros [|y b]; try done.
  rewrite sdscmp_cons. destruct (Z.ltb_spec x y); [done|]. destruct (Z.ltb_spec y x); [done|].
  intros H1%IH. f_equal; [lia|done].
Qed.

Lemma sdscmp_trans a b c : sdscmp a b < 0 -> sdscmp b c < 0 -> sdscmp a c < 0.
Proof.
  revert b c. induction a as [|x a IH]; intros [|y b] [|z c];
    rewrite ?sdscmp_cons, ?sdscmp_nil_cons, ?sdscmp_cons_nil; try done.
  destruct (Z.ltb_spec x y), (Z.ltb_spec y x), (Z.ltb_spec y z), (Z.ltb_spec z y), (Z.ltb_spec x z), (Z.ltb_spec z x);
    try lia. apply IH.
Qed.
