(* ===== verification/Zskiplist.v ===== *)
(** * Zskiplist: the skip list of the sorted set type (t_zset.c)

    Nodes live in a store from addresses to [zskiplistNode]; a pointer is an
    [option loc] and dereferencing an address that is not allocated, or a
    level a node does not have, makes the model fail.  A score is the 64-bit
    pattern of an IEEE double, compared as the hardware does, NaN included; an
    sds string is its bytes.  The values of [random()] are an explicit stream,
    the address [zmalloc] chose is an argument, and [dictDelete] calls are
    returned as the list of the elements they were made on, in order. *)

From Stdlib Require Import ZArith Lia ZifyBool.
From stdpp Require Import base gmap numbers option list.
From S2P Require Import Prelude SdsCmp.

Local Open Scope Z_scope.

Notation loc := positive.

(** ** Doubles: the comparisons of C on IEEE-754 binary64 bit patterns *)

(** The bits below the sign. *)
Definition dmag (d : Z) : Z := Z.land d (2 ^ 63 - 1).
Definition isnan (d : Z) : bool := 0x7FF0000000000000 <? dmag d.

(** Sign and magnitude as one integer: monotone in the value of the double, and
    equal on the two zeros. *)
Definition dkey (d : Z) : Z := if Z.testbit d 63 then - dmag d else dmag d.

Definition dlt (x y : Z) : bool := negb (isnan x) && negb (isnan y) && (dkey x <? dkey y).
Definition dle (x y : Z) : bool := negb (isnan x) && negb (isnan y) && (dkey x <=? dkey y).
Definition deq (x y : Z) : bool := negb (isnan x) && negb (isnan y) && (dkey x =? dkey y).

(** ** Data *)

Definition ZSKIPLIST_MAXLEVEL : nat := 32.

(** [level] is the flexible array of (forward, span) pairs.  Spans and the
    length are [unsigned long]s that count nodes, so they never wrap. *)
Record zskiplistNode := mk_znode {
  ele : option (list Z);
  score : Z;
  backward : option loc;
  level : list (option loc * Z)
}.

Record zskiplist := mk_zsl {
  zheader : loc;
  ztail : option loc;
  zlength : Z;
  zlevel : nat
}.

Notation zmem := (gmap loc zskiplistNode).

Definition get_level (m : zmem) (x : loc) (i : nat) : option (option loc * Z) :=
  n ← m !! x; level n !! i.
Definition set_level (m : zmem) (x : loc) (i : nat) (c : option loc * Z) : option zmem :=
  n ← m !! x; _ ← level n !! i;
  Some (<[x := mk_znode (ele n) (score n) (backward n) (<[i := c]> (level n))]> m).
Definition set_backward (m : zmem) (x : loc) (p : option loc) : option zmem :=
  n ← m !! x; Some (<[x := mk_znode (ele n) (score n) p (level n)]> m).
Definition set_score (m : zmem) (x : loc) (d : Z) : option zmem :=
  n ← m !! x; Some (<[x := mk_znode (ele n) d (backward n) (level n)]> m).

(** [for (j = i; j < i + n; j++)] over the levels of nodes. *)
Fixpoint for_levels (body : nat -> zmem -> option zmem) (i n : nat) (m : zmem) : option zmem :=
  match n with
  | O => Some m
  | S n => m ← body i m; for_levels body (S i) n m
  end.

(** ** Creation and release *)

Section Zskiplist.
(** What fresh memory holds. *)
Context (junk_level : nat -> option loc * Z) (junk_back : option loc).

Definition zslCreateNode (m : zmem) (a : loc) (lv : nat) (d : Z) (e : option (list Z)) : zmem :=
  <[a := mk_znode e d junk_back (junk_level <$> seq 0 lv)]> m.

Definition zslCreate (m : zmem) (h : loc) : option (zmem * zskiplist) :=
  let m := zslCreateNode m h ZSKIPLIST_MAXLEVEL 0 None in
  m ← for_levels (fun j m => set_level m h j (None, 0)) 0 ZSKIPLIST_MAXLEVEL m;
  m ← set_backward m h None;
  Some (m, mk_zsl h None 0 1).

Definition zslFreeNode (m : zmem) (x : loc) : zmem := delete x m.

Fixpoint zslFree_loop (fuel : nat) (m : zmem) (node : option loc) : option zmem :=
  match node with
  | None => Some m
  | Some x =>
    match fuel with
    | O => None
    | S fuel =>
      '(next, _) ← get_level m x 0;
      zslFree_loop fuel (zslFreeNode m x) next
    end
  end.

Definition zslFree (m : zmem) (zsl : zskiplist) : option zmem :=
  '(node, _) ← get_level m (zheader zsl) 0;
  zslFree_loop (size m) (delete (zheader zsl) m) node.

(** ** Random levels *)

(** [ZSKIPLIST_P * RAND_MAX], with glibc's [RAND_MAX] of 2^31-1. *)
Definition zsl_threshold : Z := 536870911.

(** The stream is the values [random()] returns; [None] when it ends inside the loop. *)
Fixpoint zslRandomLevel_loop (lv : nat) (rs : list Z) : option (nat * list Z) :=
  match rs with
  | [] => None
  | r :: rs => if r <? zsl_threshold then zslRandomLevel_loop (S lv) rs else Some (lv, rs)
  end.

Definition zslRandomLevel (rs : list Z) : option (nat * list Z) :=
  '(lv, rs) ← zslRandomLevel_loop 1 rs;
  Some (if (lv <? ZSKIPLIST_MAXLEVEL)%nat then lv else ZSKIPLIST_MAXLEVEL, rs).

(** ** The descent shared by the operations *)

(** [while (x->level[i].forward && cond) { rank += span; x = forward; }]: [cond]
    reads the rank of the forward node and the node. *)
Fixpoint zsl_walk (fuel : nat) (m : zmem) (cond : Z -> zskiplistNode -> option bool) (i : nat) (x : loc) (rank : Z)
    : option (loc * Z) :=
  match fuel with
  | O => None
  | S fuel =>
    '(forward, span) ← get_level m x i;
    match forward with
    | None => Some (x, rank)
    | Some y =>
      n ← m !! y;
      c ← cond (rank + span) n;
      if c : bool then zsl_walk fuel m cond i y (rank + span) else Some (x, rank)
    end
  end.

(** [for (i = zsl->level-1; i >= 0; i--)]: [update] and [rank], indexed by the level. *)
Fixpoint zsl_descend (fuel : nat) (m : zmem) (cond : Z -> zskiplistNode -> option bool) (i : nat) (x : loc) (rank : Z)
    : option (list (loc * Z)) :=
  match i with
  | O => Some []
  | S i =>
    '(x, rank) ← zsl_walk fuel m cond i x rank;
    update ← zsl_descend fuel m cond i x rank;
    Some (update ++ [(x, rank)])
  end.

Definition zsl_search (m : zmem) (zsl : zskiplist) (cond : Z -> zskiplistNode -> option bool) : option (list (loc * Z)) :=
  zsl_descend (S (size m)) m cond (zlevel zsl) (zheader zsl) 0.

(** [n->score < d || (n->score == d && sdscmp(n->ele, e) < 0)] *)
Definition node_before (d : Z) (e : list Z) (_ : Z) (n : zskiplistNode) : option bool :=
  if dlt (score n) d then Some true
  else if deq (score n) d then s ← ele n; Some (sdscmp s e <? 0)
  else Some false.

(** [d == n->score && sdscmp(n->ele, e) == 0] *)
Definition node_is (d : Z) (e : list Z) (n : zskiplistNode) : option bool :=
  if deq d (score n) then s ← ele n; Some (sdscmp s e =? 0) else Some false.

(** ** Insertion *)

(** The bodies of the three loops of [zslInsert]. *)
Definition zslInsert_grow (h : loc) (len : Z) (i : nat) (m : zmem) : option zmem :=
  '(forward, _) ← get_level m h i;
  set_level m h i (forward, len).

Definition zslInsert_link (x : loc) (update : list (loc * Z)) (rank0 : Z) (i : nat) (m : zmem) : option zmem :=
  '(u, rank) ← update !! i;
  '(forward, span) ← get_level m u i;
  m ← set_level m x i (forward, span - (rank0 - rank));
  set_level m u i (Some x, rank0 - rank + 1).

Definition zslInsert_incr (update : list (loc * Z)) (i : nat) (m : zmem) : option zmem :=
  '(u, _) ← update !! i;
  '(forward, span) ← get_level m u i;
  set_level m u i (forward, span + 1).

(** [x->backward = ...] and the backward pointer, or the tail, after it. *)
Definition zslInsert_back (m : zmem) (zsl : zskiplist) (x u0 : loc) (zlev : nat) : option (zmem * zskiplist) :=
  m ← set_backward m x (if bool_decide (u0 = zheader zsl) then None else Some u0);
  '(forward, _) ← get_level m x 0;
  match forward with
  | Some y =>
    m ← set_backward m y (Some x);
    Some (m, mk_zsl (zheader zsl) (ztail zsl) (zlength zsl + 1) zlev)
  | None => Some (m, mk_zsl (zheader zsl) (Some x) (zlength zsl + 1) zlev)
  end.

Definition zslInsert (m : zmem) (zsl : zskiplist) (a : loc) (rs : list Z) (d : Z) (e : list Z)
    : option (zmem * zskiplist * list Z) :=
  if isnan d then None else
  update ← zsl_search m zsl (node_before d e);
  '(lv, rs) ← zslRandomLevel rs;
  '(m, update, zlev) ←
    (if (zlevel zsl <? lv)%nat then
       m ← for_levels (zslInsert_grow (zheader zsl) (zlength zsl)) (zlevel zsl) (lv - zlevel zsl) m;
       Some (m, update ++ replicate (lv - zlevel zsl) (zheader zsl, 0), lv)
     else Some (m, update, zlevel zsl));
  let m := zslCreateNode m a lv d (Some e) in
  '(u0, rank0) ← update !! 0%nat;
  m ← for_levels (zslInsert_link a update rank0) 0 lv m;
  m ← for_levels (zslInsert_incr update) lv (zlev - lv) m;
  '(m, zsl) ← zslInsert_back m zsl a u0 zlev;
  Some (m, zsl, rs).

(** ** Deletion *)

(** The body of the loop of [zslDeleteNode]. *)
Definition zslDeleteNode_unlink (x : loc) (update : list (loc * Z)) (i : nat) (m : zmem) : option zmem :=
  '(u, _) ← update !! i;
  '(forward, span) ← get_level m u i;
  if bool_decide (forward = Some x) then
    '(xforward, xspan) ← get_level m x i;
    set_level m u i (xforward, span + (xspan - 1))
  else set_level m u i (forward, span - 1).

(** The backward pointer after [n], or the tail. *)
Definition zslDeleteNode_back (m : zmem) (n : zskiplistNode) (tail : option loc) : option (zmem * option loc) :=
  '(forward, _) ← level n !! 0%nat;
  match forward with
  | Some y => m ← set_backward m y (backward n); Some (m, tail)
  | None => Some (m, backward n)
  end.

(** [while (zsl->level > 1 && header->level[zsl->level-1].forward == NULL) zsl->level--] *)
Fixpoint zslDeleteNode_level (m : zmem) (h : loc) (lv : nat) : option nat :=
  match lv with
  | S (S k as lv') =>
    '(forward, _) ← get_level m h lv';
    match forward with
    | None => zslDeleteNode_level m h lv'
    | Some _ => Some lv
    end
  | _ => Some lv
  end.

Definition zslDeleteNode (m : zmem) (zsl : zskiplist) (x : loc) (update : list (loc * Z)) : option (zmem * zskiplist) :=
  m ← for_levels (zslDeleteNode_unlink x update) 0 (zlevel zsl) m;
  n ← m !! x;
  '(m, tail) ← zslDeleteNode_back m n (ztail zsl);
  lv ← zslDeleteNode_level m (zheader zsl) (zlevel zsl);
  Some (m, mk_zsl (zheader zsl) tail (zlength zsl - 1) lv).

(** The node after the one the descent stopped at. *)
Definition zsl_next (m : zmem) (update : list (loc * Z)) : option (option loc) :=
  '(x, _) ← update !! 0%nat;
  '(forward, _) ← get_level m x 0;
  Some forward.

(** [keep] is a non-NULL [node] argument: the node is unlinked but not freed. *)
Definition zslDelete (m : zmem) (zsl : zskiplist) (d : Z) (e : list Z) (keep : bool)
    : option (zmem * zskiplist * option loc * bool) :=
  update ← zsl_search m zsl (node_before d e);
  x ← zsl_next m update;
  match x with
  | None => Some (m, zsl, None, false)
  | Some x =>
    n ← m !! x;
    found ← node_is d e n;
    if found : bool then
      '(m, zsl) ← zslDeleteNode m zsl x update;
      Some (if keep then (m, zsl, Some x, true) else (zslFreeNode m x, zsl, None, true))
    else Some (m, zsl, None, false)
  end.

(** [p == NULL || cond(p->score)] *)
Definition null_or (m : zmem) (p : option loc) (cond : Z -> bool) : option bool :=
  match p with
  | None => Some true
  | Some q => n ← m !! q; Some (cond (score n))
  end.

Definition zslUpdateScore (m : zmem) (zsl : zskiplist) (a : loc) (rs : list Z) (curscore : Z) (e : list Z) (newscore : Z)
    : option (zmem * zskiplist * list Z) :=
  update ← zsl_search m zsl (node_before curscore e);
  x ← zsl_next m update;
  x ← x;
  n ← m !! x;
  found ← node_is curscore e n;
  if negb found then None else
  '(forward, _) ← level n !! 0%nat;
  before ← null_or m (backward n) (fun s => dlt s newscore);
  after ← null_or m forward (fun s => dlt newscore s);
  if before && after then
    m ← set_score m x newscore;
    Some (m, zsl, rs)
  else
    '(m, zsl) ← zslDeleteNode m zsl x update;
    s ← ele n;
    '(m, zsl, rs) ← zslInsert m zsl a rs newscore s;
    Some (zslFreeNode m x, zsl, rs).

(** ** Score ranges *)

Record zrangespec := mk_zrange { zmin : Z; zmax : Z; minex : bool; maxex : bool }.

Definition zslValueGteMin (value : Z) (spec : zrangespec) : bool :=
  if minex spec then dlt (zmin spec) value else dle (zmin spec) value.
Definition zslValueLteMax (value : Z) (spec : zrangespec) : bool :=
  if maxex spec then dlt value (zmax spec) else dle value (zmax spec).

Definition zslIsInRange (m : zmem) (zsl : zskiplist) (range : zrangespec) : option bool :=
  if dlt (zmax range) (zmin range) ||
     (deq (zmin range) (zmax range) && (minex range || maxex range))
  then Some false else
  match ztail zsl with
  | None => Some false
  | Some x =>
    n ← m !! x;
    if negb (zslValueGteMin (score n) range) then Some false else
    '(forward, _) ← get_level m (zheader zsl) 0;
    match forward with
    | None => Some false
    | Some x => n ← m !! x; Some (zslValueLteMax (score n) range)
    end
  end.

Definition zslFirstInRange (m : zmem) (zsl : zskiplist) (range : zrangespec) : option (option loc) :=
  inside ← zslIsInRange m zsl range;
  if negb inside then Some None else
  update ← zsl_search m zsl (fun _ n => Some (negb (zslValueGteMin (score n) range)));
  x ← zsl_next m update;
  x ← x;
  n ← m !! x;
  Some (if negb (zslValueLteMax (score n) range) then None else Some x).

Definition zslLastInRange (m : zmem) (zsl : zskiplist) (range : zrangespec) : option (option loc) :=
  inside ← zslIsInRange m zsl range;
  if negb inside then Some None else
  update ← zsl_search m zsl (fun _ n => Some (zslValueLteMax (score n) range));
  '(x, _) ← update !! 0%nat;
  n ← m !! x;
  Some (if negb (zslValueGteMin (score n) range) then None else Some x).

(** The deletion loop of the three range deletions: [cond] reads [traversed]
    and the node; the elements [dictDelete] is called on come out in order. *)
Fixpoint zslDeleteRange_loop (fuel : nat) (m : zmem) (zsl : zskiplist) (cond : Z -> zskiplistNode -> option bool)
    (update : list (loc * Z)) (traversed : Z) (x : option loc) : option (zmem * zskiplist * list (list Z)) :=
  match x with
  | None => Some (m, zsl, [])
  | Some x =>
    match fuel with
    | O => None
    | S fuel =>
      n ← m !! x;
      c ← cond traversed n;
      if c : bool then
        '(next, _) ← level n !! 0%nat;
        '(m, zsl) ← zslDeleteNode m zsl x update;
        e ← ele n;
        '(m, zsl, removed) ← zslDeleteRange_loop fuel (zslFreeNode m x) zsl cond update (traversed + 1) next;
        Some (m, zsl, e :: removed)
      else Some (m, zsl, [])
    end
  end.

Definition zslDeleteRangeByScore (m : zmem) (zsl : zskiplist) (range : zrangespec)
    : option (zmem * zskiplist * list (list Z)) :=
  update ← zsl_search m zsl (fun _ n => Some (negb (zslValueGteMin (score n) range)));
  x ← zsl_next m update;
  zslDeleteRange_loop (size m) m zsl (fun _ n => Some (zslValueLteMax (score n) range)) update 0 x.

(** [start] and [end] are [unsigned int]s. *)
Definition zslDeleteRangeByRank (m : zmem) (zsl : zskiplist) (start end_ : Z)
    : option (zmem * zskiplist * list (list Z)) :=
  update ← zsl_search m zsl (fun traversed _ => Some (traversed <? u32 start));
  '(_, traversed) ← update !! 0%nat;
  x ← zsl_next m update;
  zslDeleteRange_loop (size m) m zsl (fun traversed _ => Some (traversed <=? u32 end_)) update (traversed + 1) x.

(** ** Ranks *)

Definition node_upto (d : Z) (e : list Z) (_ : Z) (n : zskiplistNode) : option bool :=
  if dlt (score n) d then Some true
  else if deq (score n) d then s ← ele n; Some (sdscmp s e <=? 0)
  else Some false.

Fixpoint zslGetRank_loop (fuel : nat) (m : zmem) (d : Z) (e : list Z) (i : nat) (x : loc) (rank : Z) : option Z :=
  match i with
  | O => Some 0
  | S i =>
    '(x, rank) ← zsl_walk fuel m (node_upto d e) i x rank;
    n ← m !! x;
    match ele n with
    | Some s =>
      if deq (score n) d && (sdscmp s e =? 0) then Some rank
      else zslGetRank_loop fuel m d e i x rank
    | None => zslGetRank_loop fuel m d e i x rank
    end
  end.

Definition zslGetRank (m : zmem) (zsl : zskiplist) (d : Z) (e : list Z) : option Z :=
  zslGetRank_loop (S (size m)) m d e (zlevel zsl) (zheader zsl) 0.

Fixpoint zslGetElementByRank_loop (fuel : nat) (m : zmem) (rank : Z) (i : nat) (x : loc) (traversed : Z)
    : option (option loc) :=
  match i with
  | O => Some None
  | S i =>
    '(x, traversed) ← zsl_walk fuel m (fun t _ => Some (t <=? rank)) i x traversed;
    if traversed =? rank then Some (Some x)
    else zslGetElementByRank_loop fuel m rank i x traversed
  end.

Definition zslGetElementByRank (m : zmem) (zsl : zskiplist) (rank : Z) : option (option loc) :=
  zslGetElementByRank_loop (S (size m)) m rank (zlevel zsl) (zheader zsl) 0.

(** ** Lexicographic ranges *)

(** A string of a range, or one of the two shared strings, which the code
    recognises by their addresses. *)
Inductive lexstr := minstring | maxstring | lexsds (s : list Z).

Record zlexrangespec := mk_zlex { lmin : lexstr; lmax : lexstr; lminex : bool; lmaxex : bool }.

(** An object of the command line: an integer-encoded one, or a string. *)
Inductive lexobj := lexint | lexraw (s : list Z).

(** Reads past the string hit its terminating zero. *)
Definition zslParseLexRangeItem (c : list Z) : option (lexstr * bool) :=
  let c0 := default 0 (c !! 0%nat) in
  let c1 := default 0 (c !! 1%nat) in
  if c0 =? 43 then (if negb (c1 =? 0) then None else Some (maxstring, true))
  else if c0 =? 45 then (if negb (c1 =? 0) then None else Some (minstring, true))
  else if c0 =? 40 then Some (lexsds (drop 1 c), true)
  else if c0 =? 91 then Some (lexsds (drop 1 c), false)
  else None.

Definition zslParseLexRange (min max : lexobj) : option zlexrangespec :=
  match min, max with
  | lexraw min, lexraw max =>
    '(smin, minex) ← zslParseLexRangeItem min;
    '(smax, maxex) ← zslParseLexRangeItem max;
    Some (mk_zlex smin smax minex maxex)
  | _, _ => None
  end.

Definition sdscmplex (a b : lexstr) : Z :=
  match a, b with
  | minstring, minstring | maxstring, maxstring => 0
  | minstring, _ | _, maxstring => -1
  | maxstring, _ | _, minstring => 1
  | lexsds a, lexsds b => sdscmp a b
  end.

Definition zslLexValueGteMin (value : list Z) (spec : zlexrangespec) : bool :=
  if lminex spec then 0 <? sdscmplex (lexsds value) (lmin spec) else 0 <=? sdscmplex (lexsds value) (lmin spec).
Definition zslLexValueLteMax (value : list Z) (spec : zlexrangespec) : bool :=
  if lmaxex spec then sdscmplex (lexsds value) (lmax spec) <? 0 else sdscmplex (lexsds value) (lmax spec) <=? 0.

Definition zslIsInLexRange (m : zmem) (zsl : zskiplist) (range : zlexrangespec) : option bool :=
  let cmp := sdscmplex (lmin range) (lmax range) in
  if (0 <? cmp) || ((cmp =? 0) && (lminex range || lmaxex range)) then Some false else
  match ztail zsl with
  | None => Some false
  | Some x =>
    n ← m !! x;
    e ← ele n;
    if negb (zslLexValueGteMin e range) then Some false else
    '(forward, _) ← get_level m (zheader zsl) 0;
    match forward with
    | None => Some false
    | Some x => n ← m !! x; e ← ele n; Some (zslLexValueLteMax e range)
    end
  end.

Definition zslFirstInLexRange (m : zmem) (zsl : zskiplist) (range : zlexrangespec) : option (option loc) :=
  inside ← zslIsInLexRange m zsl range;
  if negb inside then Some None else
  update ← zsl_search m zsl (fun _ n => e ← ele n; Some (negb (zslLexValueGteMin e range)));
  x ← zsl_next m update;
  x ← x;
  n ← m !! x;
  e ← ele n;
  Some (if negb (zslLexValueLteMax e range) then None else Some x).

Definition zslLastInLexRange (m : zmem) (zsl : zskiplist) (range : zlexrangespec) : option (option loc) :=
  inside ← zslIsInLexRange m zsl range;
  if negb inside then Some None else
  update ← zsl_search m zsl (fun _ n => e ← ele n; Some (zslLexValueLteMax e range));
  '(x, _) ← update !! 0%nat;
  n ← m !! x;
  e ← ele n;
  Some (if negb (zslLexValueGteMin e range) then None else Some x).

Definition zslDeleteRangeByLex (m : zmem) (zsl : zskiplist) (range : zlexrangespec)
    : option (zmem * zskiplist * list (list Z)) :=
  update ← zsl_search m zsl (fun _ n => e ← ele n; Some (negb (zslLexValueGteMin e range)));
  x ← zsl_next m update;
  zslDeleteRange_loop (size m) m zsl (fun _ n => e ← ele n; Some (zslLexValueLteMax e range)) update 0 x.

End Zskiplist.
