(* ===== verification/ZskiplistProof.v ===== *)
(** * ZskiplistProof: the shape of a skip list, and the structural operations

    [zsl_rep m zsl xs] says that the nodes reachable from [zsl] are those of
    [xs], in this order: every level of every node links to the next node that
    is at least as high, with the span that distance, [backward], [tail] and
    [length] are those of the list.  Searching, linking a node at a position
    and unlinking the node at a position are shown to act on [xs] as a search
    for a cut point, an insertion and a removal.  Positions count the header
    as 0, so that position [S p] is the node [xs !! p]. *)

From Stdlib Require Import ZArith Lia ZifyBool.
From stdpp Require Import base gmap numbers option list.
From S2P Require Import Prelude SdsCmp Zskiplist.

Local Open Scope Z_scope.

(** ** Nodes and links *)

Record anode := mk_anode { aloc : loc; ascore : Z; aele : list Z; aheight : nat }.

(** The (forward, span) pair of level [i] of a node followed by [rest]. *)
Fixpoint link (i : nat) (rest : list anode) : option loc * Z :=
  match rest with
  | [] => (None, 0)
  | a :: rest =>
    if (i <? aheight a)%nat then (Some (aloc a), 1) else (fst (link i rest), snd (link i rest) + 1)
  end.

Definition links (h : nat) (rest : list anode) : list (option loc * Z) :=
  (fun i => link i rest) <$> seq 0 h.

Lemma links_length h rest : length (links h rest) = h.
Proof. unfold links. by rewrite length_fmap, length_seq. Qed.

Lemma links_lookup h rest i : (i < h)%nat -> links h rest !! i = Some (link i rest).
Proof.
  intros Hi. unfold links. rewrite list_lookup_fmap.
  by rewrite lookup_seq_lt by lia.
Qed.

Lemma links_ge h rest i : (h <= i)%nat -> links h rest !! i = None.
Proof. intros. apply lookup_ge_None. by rewrite links_length. Qed.

Definition low (i : nat) (a : anode) : Prop := (aheight a <= i)%nat.
#[export] Instance low_dec i a : Decision (low i a).
Proof. unfold low. apply _. Defined.

Lemma link_low i P Q :
  Forall (low i) P -> link i (P ++ Q) = (fst (link i Q), snd (link i Q) + Z.of_nat (length P)).
Proof.
  induction P as [|a P IH]; intros HP; cbn [app link length].
  - destruct (link i Q) as [f s]; cbn [fst snd]. f_equal. lia.
  - apply Forall_cons in HP as [Ha HP]. unfold low in Ha.
    destruct (Nat.ltb_spec i (aheight a)); [lia|].
    rewrite IH by done. cbn [fst snd]. f_equal. lia.
Qed.

Lemma link_high i a Q : (i < aheight a)%nat -> link i (a :: Q) = (Some (aloc a), 1).
Proof. intros. cbn [link]. by destruct (Nat.ltb_spec i (aheight a)); [|lia]. Qed.

Lemma link_app_same i P Q Q' : ~ Forall (low i) P -> link i (P ++ Q) = link i (P ++ Q').
Proof.
  induction P as [|a P IH]; intros HP; [by destruct HP|].
  cbn [app link]. destruct (Nat.ltb_spec i (aheight a)) as [|Ha]; [done|].
  rewrite IH; [done|]. contradict HP. by constructor.
Qed.

(** The next node level [i] reaches from position [p]. *)
Lemma link_next i (xs : list anode) p : (p <= length xs)%nat ->
  (Forall (low i) (drop p xs) /\ link i (drop p xs) = (None, Z.of_nat (length xs - p))) \/
  exists q a, (p <= q)%nat /\ xs !! q = Some a /\ (i < aheight a)%nat /\
    (forall j b, (p <= j < q)%nat -> xs !! j = Some b -> low i b) /\
    link i (drop p xs) = (Some (aloc a), Z.of_nat (S q - p)).
Proof.
  remember (length xs - p)%nat as n eqn:Hn. revert p Hn.
  induction n as [|n IH]; intros p Hn Hp.
  - left. rewrite drop_ge by lia. split; [constructor | done].
  - destruct (lookup_lt_is_Some_2 xs p) as [a Ha]; [lia|].
    rewrite (drop_S _ _ _ Ha). cbn [link].
    destruct (Nat.ltb_spec i (aheight a)) as [Hi|Hi].
    + right. exists p, a. repeat split; try done; [intros; lia|]. do 2 f_equal. lia.
    + destruct (IH (S p)) as [[HF Hl]|(q & b & Hq & Hb & Hh & Hj & Hl)]; [lia|lia| |].
      * left. split; [by constructor|]. rewrite Hl. cbn [fst snd]. f_equal. lia.
      * right. exists q, b. rewrite Hl. cbn [fst snd]. repeat split; try done; [lia| |f_equal; lia].
        intros j c Hjr Hc. destruct (decide (j = p)) as [->|]; [by simplify_eq|].
        apply (Hj j); [lia|done].
Qed.

(** ** The representation *)

(** The address and the height at a position. *)
Definition locat (h : loc) (xs : list anode) (p : nat) : loc :=
  match p with O => h | S q => default h (aloc <$> xs !! q) end.
Definition high (zlev : nat) (xs : list anode) (i p : nat) : Prop :=
  match p with O => (i < zlev)%nat | S q => exists a, xs !! q = Some a /\ (i < aheight a)%nat end.

(** The predecessor pointer of [xs !! p]. *)
Definition prevloc (xs : list anode) (p : nat) : option loc :=
  match p with O => None | S q => aloc <$> xs !! q end.

Definition cell (xs : list anode) (p : nat) (a : anode) : zskiplistNode :=
  mk_znode (Some (aele a)) (ascore a) (prevloc xs p) (links (aheight a) (drop (S p) xs)).

Record zsl_rep (m : zmem) (zsl : zskiplist) (xs : list anode) : Prop := {
  rep_header : exists junk,
    m !! zheader zsl = Some (mk_znode None 0 None (links (zlevel zsl) xs ++ junk)) /\
    length junk = (ZSKIPLIST_MAXLEVEL - zlevel zsl)%nat /\ Forall (fun c => fst c = None) junk;
  rep_nodes : forall p a, xs !! p = Some a -> m !! aloc a = Some (cell xs p a);
  rep_nodup : NoDup (zheader zsl :: (aloc <$> xs));
  rep_heights : Forall (fun a => 1 <= aheight a <= zlevel zsl)%nat xs;
  rep_level : (1 <= zlevel zsl <= ZSKIPLIST_MAXLEVEL)%nat;
  rep_length : zlength zsl = Z.of_nat (length xs);
  rep_tail : ztail zsl = last (aloc <$> xs)
}.

Lemma last_prevloc (xs : list anode) : last (aloc <$> xs) = prevloc xs (length xs).
Proof.
  induction xs as [|a xs _] using rev_ind; [done|].
  rewrite fmap_app, length_app. cbn [length fmap list_fmap]. rewrite last_snoc.
  replace (length xs + 1)%nat with (S (length xs)) by lia. cbn [prevloc].
  by rewrite list_lookup_middle.
Qed.

Lemma locat_lookup h (xs : list anode) p : (p <= length xs)%nat -> (h :: (aloc <$> xs)) !! p = Some (locat h xs p).
Proof.
  intros Hp. destruct p as [|p]; [done|].
  change ((h :: (aloc <$> xs)) !! S p) with ((aloc <$> xs) !! p).
  destruct (lookup_lt_is_Some_2 xs p) as [a Ha]; [lia|].
  rewrite list_lookup_fmap. cbn [locat]. by rewrite Ha.
Qed.

Section Rep.
Context {m : zmem} {zsl : zskiplist} {xs : list anode} (HR : zsl_rep m zsl xs).

Lemma locat_at p a : xs !! p = Some a -> locat (zheader zsl) xs (S p) = aloc a.
Proof. intros H. cbn [locat]. by rewrite H. Qed.

Lemma locat_inj p q : (p <= length xs)%nat -> (q <= length xs)%nat ->
  locat (zheader zsl) xs p = locat (zheader zsl) xs q -> p = q.
Proof using HR.
  intros Hp Hq He. apply (NoDup_lookup _ p q (locat (zheader zsl) xs p) (rep_nodup _ _ _ HR)).
  - by apply locat_lookup.
  - rewrite He. by apply locat_lookup.
Qed.

(** Every level a position has holds its link. *)
Lemma level_at p i : (p <= length xs)%nat -> high (zlevel zsl) xs i p ->
  get_level m (locat (zheader zsl) xs p) i = Some (link i (drop p xs)).
Proof using HR.
  intros Hp Hh. unfold get_level. destruct p as [|p]; cbn [high locat] in *.
  - destruct (rep_header _ _ _ HR) as (junk & Hm & _). rewrite Hm. cbn [mbind option_bind level].
    rewrite lookup_app_l by (by rewrite links_length). by rewrite links_lookup, drop_0.
  - destruct Hh as (a & Ha & Hi). rewrite Ha. cbn [fmap option_fmap option_map from_option id].
    rewrite (rep_nodes _ _ _ HR p a Ha). cbn [mbind option_bind cell level].
    by rewrite links_lookup.
Qed.

Lemma locat_in p : (p <= length xs)%nat -> is_Some (m !! locat (zheader zsl) xs p).
Proof using HR.
  intros Hp. destruct p as [|p].
  - destruct (rep_header _ _ _ HR) as (junk & Hm & _). by eexists.
  - destruct (lookup_lt_is_Some_2 xs p) as [a Ha]; [lia|].
    rewrite (locat_at p a Ha). eexists. by apply (rep_nodes _ _ _ HR p).
Qed.

Lemma zsl_rep_size : (length xs < size m)%nat.
Proof using HR.
  pose proof (rep_nodup _ _ _ HR) as Hn.
  assert (list_to_set (zheader zsl :: (aloc <$> xs)) ⊆ dom m) as Hs.
  { intros l Hl. apply elem_of_list_to_set in Hl. apply elem_of_dom.
    apply elem_of_cons in Hl as [->|Hl].
    - destruct (rep_header _ _ _ HR) as (junk & Hm & _). by eexists.
    - apply list_elem_of_fmap in Hl as (a & -> & Ha). apply list_elem_of_lookup in Ha as [p Hp].
      eexists. by apply (rep_nodes _ _ _ HR p). }
  apply subseteq_size in Hs. rewrite size_dom in Hs.
  rewrite (size_list_to_set (C := gset loc)) in Hs by done. cbn [length] in Hs. rewrite length_fmap in Hs. lia.
Qed.

End Rep.

(** ** The descent *)

(** The last position up to [k] that has level [i]. *)
Fixpoint ppos (xs : list anode) (i k : nat) : nat :=
  match k with
  | O => O
  | S k => if (i <? from_option aheight 0 (xs !! k))%nat then S k else ppos xs i k
  end.

Lemma ppos_le xs i k : (ppos xs i k <= k)%nat.
Proof. induction k as [|k IH]; cbn [ppos]; [done|]. destruct (_ <? _)%nat; lia. Qed.

Lemma ppos_high zlev xs i k : (i < zlev)%nat -> high zlev xs i (ppos xs i k).
Proof.
  intros Hz. induction k as [|k IH]; cbn [ppos high]; [done|].
  destruct (Nat.ltb_spec i (from_option aheight 0%nat (xs !! k))) as [Hi|]; [|done]. cbn [high].
  destruct (xs !! k) as [a|]; cbn in Hi; [by exists a | lia].
Qed.

Lemma ppos_stop zlev xs i p k : high zlev xs i p -> (p <= k)%nat ->
  (forall j b, (p <= j < k)%nat -> xs !! j = Some b -> low i b) -> ppos xs i k = p.
Proof.
  intros Hp. induction k as [|k IH]; intros Hk Hl; cbn [ppos]; [lia|].
  destruct (Nat.ltb_spec i (from_option aheight 0%nat (xs !! k))) as [Hi|Hi].
  - destruct (decide (p = S k)) as [->|]; [done|].
    destruct (xs !! k) as [a|] eqn:E; cbn in Hi; [|lia].
    specialize (Hl k a ltac:(lia) E). unfold low in Hl. lia.
  - destruct (decide (p = S k)) as [->|]; [|apply IH; [lia | intros j b Hj; apply Hl; lia]].
    destruct Hp as (a & Ha & Hi'). rewrite Ha in Hi. cbn in Hi. lia.
Qed.

Lemma ppos_stop_inv xs i k j b : (ppos xs i k <= j < k)%nat -> xs !! j = Some b -> low i b.
Proof.
  induction k as [|k IH]; cbn [ppos]; [lia|].
  destruct (Nat.ltb_spec i (from_option aheight 0%nat (xs !! k))) as [Hi|Hi]; [lia|].
  intros Hj Hb. destruct (decide (j = k)) as [->|]; [|apply IH; [lia|done]].
  rewrite Hb in Hi. exact Hi.
Qed.

(** [cond] holds of the first [k] nodes and of no other. *)
Definition cuts (m : zmem) (cond : Z -> zskiplistNode -> option bool) (xs : list anode) (k : nat) : Prop :=
  (k <= length xs)%nat /\
  forall j a n, xs !! j = Some a -> m !! aloc a = Some n -> cond (Z.of_nat (S j)) n = Some (bool_decide (j < k)%nat).

Section Descent.
Context {m : zmem} {zsl : zskiplist} {xs : list anode} (HR : zsl_rep m zsl xs).
Context {cond : Z -> zskiplistNode -> option bool} {k : nat} (Hcut : cuts m cond xs k).
Notation at_ := (locat (zheader zsl) xs).

Lemma zsl_walk_spec fuel i p : high (zlevel zsl) xs i p -> (p <= k)%nat -> (k - p < fuel)%nat ->
  zsl_walk fuel m cond i (at_ p) (Z.of_nat p) = Some (at_ (ppos xs i k), Z.of_nat (ppos xs i k)).
Proof using HR Hcut.
  destruct Hcut as [Hk Hc]. revert p. induction fuel as [|fuel IH]; intros p Hh Hp Hf; [lia|].
  cbn [zsl_walk]. rewrite (level_at HR) by (done || lia). cbn [mbind option_bind].
  destruct (link_next i xs p) as [[HF Hl]|(q & a & Hq & Ha & Hi & Hj & Hl)]; [lia| |]; rewrite Hl.
  - rewrite (ppos_stop (zlevel zsl) xs i p k); [done|done|done|].
    intros j b Hj Hb. rewrite Forall_lookup in HF. apply (HF (j - p)%nat).
    rewrite lookup_drop. replace (p + (j - p))%nat with j by lia. done.
  - pose proof (rep_nodes _ _ _ HR q a Ha) as Hm. rewrite Hm. cbn [mbind option_bind].
    replace (Z.of_nat p + Z.of_nat (S q - p)) with (Z.of_nat (S q)) by lia.
    rewrite (Hc q a _ Ha Hm). cbn [mbind option_bind]. case_bool_decide as Hqk.
    + replace (aloc a) with (at_ (S q)) by (by apply locat_at).
      apply IH; [by exists a | lia | lia].
    + rewrite (ppos_stop (zlevel zsl) xs i p k); [done|done|done|].
      intros j b Hjr. apply Hj. lia.
Qed.

Lemma zsl_descend_spec fuel i p : (i <= zlevel zsl)%nat -> (p <= k)%nat -> (k < fuel)%nat ->
  (forall j, (j < i)%nat -> high (zlevel zsl) xs j p) ->
  zsl_descend fuel m cond i (at_ p) (Z.of_nat p) =
  Some ((fun j => (at_ (ppos xs j k), Z.of_nat (ppos xs j k))) <$> seq 0 i).
Proof using HR Hcut.
  revert p. induction i as [|i IH]; intros p Hi Hp Hf Hh; cbn [zsl_descend]; [done|].
  rewrite zsl_walk_spec by (auto with lia). cbn [mbind option_bind].
  pose proof (ppos_le xs i k). rewrite IH; [|lia|lia|lia|].
  - cbn [mbind option_bind]. by rewrite seq_S, fmap_app.
  - intros j Hj. pose proof (ppos_high (zlevel zsl) xs i k ltac:(lia)) as H'.
    destruct (ppos xs i k) as [|q]; cbn [high] in *; [lia|].
    destruct H' as (a & Ha & ?). exists a. split; [done|lia].
Qed.

(** The array [update] of a descent that stops before position [S k]. *)
Definition updates (h : loc) (xs : list anode) (k lev : nat) : list (loc * Z) :=
  (fun j => (locat h xs (ppos xs j k), Z.of_nat (ppos xs j k))) <$> seq 0 lev.

Lemma zsl_search_spec : zsl_search m zsl cond = Some (updates (zheader zsl) xs k (zlevel zsl)).
Proof using HR Hcut.
  unfold zsl_search. pose proof (zsl_rep_size HR). pose proof (proj1 Hcut).
  rewrite (zsl_descend_spec (S (size m)) (zlevel zsl) 0); [done|lia|lia|lia|].
  intros j Hj. exact Hj.
Qed.

End Descent.

Lemma updates_lookup h xs k lev i : (i < lev)%nat ->
  updates h xs k lev !! i = Some (locat h xs (ppos xs i k), Z.of_nat (ppos xs i k)).
Proof. intros Hi. unfold updates. rewrite list_lookup_fmap. by rewrite lookup_seq_lt. Qed.

(** ** Loops over the levels *)

(** The node with the levels [f] names overwritten. *)
Definition relev (f : nat -> option (option loc * Z)) (n : zskiplistNode) : zskiplistNode :=
  mk_znode (ele n) (score n) (backward n) (imap (fun i c => default c (f i)) (level n)).

Definition relev_mem (m m' : zmem) (F : loc -> nat -> option (option loc * Z)) : Prop :=
  forall l, m' !! l = relev (F l) <$> m !! l.

Lemma relev_ext f g n : (forall i, (i < length (level n))%nat -> f i = g i) -> relev f n = relev g n.
Proof.
  intros H. unfold relev. f_equal. apply list_eq. intros i. rewrite !list_lookup_imap.
  destruct (level n !! i) as [c|] eqn:E; [|done]. apply lookup_lt_Some in E. cbn. by rewrite H.
Qed.

Lemma relev_none f n : (forall i, (i < length (level n))%nat -> f i = None) -> relev f n = n.
Proof.
  intros H. rewrite (relev_ext f (fun _ => None)) by done. unfold relev. destruct n as [e d b l]; cbn.
  f_equal. apply list_eq. intros i. rewrite list_lookup_imap. by destruct (l !! i).
Qed.

Lemma relev_relev f g n :
  relev g (relev f n) = relev (fun i => match g i with Some c => Some c | None => f i end) n.
Proof.
  unfold relev. cbn [ele score backward level]. f_equal. apply list_eq. intros i. rewrite !list_lookup_imap.
  destruct (level n !! i); [|done]. cbn. by destruct (g i).
Qed.

Lemma relev_mem_ext m m' F G : (forall l i, F l i = G l i) -> relev_mem m m' F -> relev_mem m m' G.
Proof. intros H HF l. rewrite (HF l). destruct (m !! l); [|done]. cbn. f_equal. by apply relev_ext. Qed.

Lemma relev_mem_refl m : relev_mem m m (fun _ _ => None).
Proof. intros l. destruct (m !! l); [|done]. cbn. by rewrite relev_none. Qed.

Lemma relev_mem_trans m m1 m2 F G : relev_mem m m1 F -> relev_mem m1 m2 G ->
  relev_mem m m2 (fun l i => match G l i with Some c => Some c | None => F l i end).
Proof.
  intros HF HG l. rewrite (HG l), (HF l). destruct (m !! l); [|done]. cbn. by rewrite relev_relev.
Qed.

Lemma relev_mem_dom m m' F : relev_mem m m' F -> dom m' = dom m.
Proof.
  intros HF. apply set_eq. intros l. rewrite !elem_of_dom, (HF l). by rewrite fmap_is_Some.
Qed.

Lemma get_level_relev m m' F l i : relev_mem m m' F ->
  get_level m' l i = (fun c => default c (F l i)) <$> get_level m l i.
Proof.
  intros HF. unfold get_level. rewrite (HF l). destruct (m !! l) as [n|]; [|done].
  cbn [fmap option_fmap option_map mbind option_bind relev level]. by rewrite list_lookup_imap.
Qed.

Lemma set_level_relev m x i c c0 : get_level m x i = Some c0 ->
  exists m', set_level m x i c = Some m' /\
    relev_mem m m' (fun l j => if decide (l = x /\ j = i) then Some c else None).
Proof.
  unfold get_level, set_level. intros H. destruct (m !! x) as [n|] eqn:Hn; [|done].
  cbn [mbind option_bind] in *. rewrite H. cbn [mbind option_bind]. eexists. split; [done|].
  intros l. destruct (decide (l = x)) as [->|Hl].
  - rewrite lookup_insert_eq, Hn. cbn [fmap option_fmap option_map]. unfold relev. do 2 f_equal.
    apply list_eq. intros j. rewrite list_lookup_imap. destruct (decide (j = i)) as [->|Hj].
    + rewrite list_lookup_insert_eq by (by eapply lookup_lt_Some). rewrite H. cbn. by rewrite decide_True.
    + rewrite list_lookup_insert_ne by done. destruct (level n !! j); [|done]. cbn.
      by rewrite decide_False by tauto.
  - rewrite lookup_insert_ne by done. destruct (m !! l); [|done]. cbn. rewrite relev_none; [done|].
    intros. by rewrite decide_False by tauto.
Qed.

Lemma for_levels_relev body F : forall n i m,
  (forall j m1, (i <= j < i + n)%nat ->
    relev_mem m m1 (fun l k => if decide (i <= k < j)%nat then F l k else None) ->
    exists m2, body j m1 = Some m2 /\ relev_mem m1 m2 (fun l k => if decide (k = j) then F l k else None)) ->
  exists m', for_levels body i n m = Some m' /\
    relev_mem m m' (fun l k => if decide (i <= k < i + n)%nat then F l k else None).
Proof.
  induction n as [|n IH]; intros i m Hb; cbn [for_levels].
  - exists m. split; [done|]. apply (relev_mem_ext _ _ (fun _ _ => None)); [|apply relev_mem_refl].
    intros. by rewrite decide_False by lia.
  - destruct (Hb i m) as (m1 & E & H1); [lia| |].
    { apply (relev_mem_ext _ _ (fun _ _ => None)); [|apply relev_mem_refl].
      intros. by rewrite decide_False by lia. }
    rewrite E. cbn [mbind option_bind]. destruct (IH (S i) m1) as (m' & E' & H').
    + intros j m2 Hj H2. apply Hb; [lia|]. eapply relev_mem_ext; [|exact (relev_mem_trans _ _ _ _ _ H1 H2)].
      intros l k. cbv beta. destruct (decide (S i <= k < j)%nat).
      * rewrite (decide_False (P := (k = i))) by lia. rewrite decide_True by lia. by destruct (F l k).
      * destruct (decide (k = i)); [by rewrite decide_True by lia | by rewrite decide_False by lia].
    + exists m'. split; [done|]. eapply relev_mem_ext; [|exact (relev_mem_trans _ _ _ _ _ H1 H')].
      intros l k. cbv beta. destruct (decide (S i <= k < S i + n)%nat).
      * rewrite (decide_False (P := (k = i))) by lia. rewrite decide_True by lia. by destruct (F l k).
      * destruct (decide (k = i)); [by rewrite decide_True by lia | by rewrite decide_False by lia].
Qed.

(** A body that overwrites one cell. *)
Lemma set_level_body m1 u j c c0 F :
  get_level m1 u j = Some c0 -> (forall l, F l = if decide (l = u) then Some c else None) ->
  exists m2, set_level m1 u j c = Some m2 /\ relev_mem m1 m2 (fun l k => if decide (k = j) then F l else None).
Proof.
  intros Hg HF. destruct (set_level_relev m1 u j c c0 Hg) as (m2 & E & H2). exists m2. split; [done|].
  eapply relev_mem_ext; [|exact H2]. intros l k. cbn. rewrite HF.
  destruct (decide (k = j)), (decide (l = u)); first [by rewrite decide_True by tauto | by rewrite decide_False by tauto].
Qed.

Lemma relinks f h R R' : (forall i, (i < h)%nat -> default (link i R) (f i) = link i R') ->
  imap (fun i c => default c (f i)) (links h R) = links h R'.
Proof.
  intros H. apply list_eq. intros i. rewrite list_lookup_imap. destruct (decide (i < h)%nat).
  - rewrite !links_lookup by done. cbn. by rewrite H.
  - by rewrite !links_ge by lia.
Qed.

(** ** Insertion at a position *)

Definition ins (k : nat) (A : anode) (xs : list anode) : list anode := take k xs ++ A :: drop k xs.

Section Ins.
Context (k : nat) (A : anode) (xs : list anode) (Hk : (k <= length xs)%nat).

Lemma ins_length : length (ins k A xs) = S (length xs).
Proof using Hk. unfold ins. rewrite length_app, length_take. cbn [length]. rewrite length_drop. lia. Qed.

Lemma ins_lookup_lt p : (p < k)%nat -> ins k A xs !! p = xs !! p.
Proof using Hk.
  intros Hp. unfold ins. rewrite lookup_app_l by (rewrite length_take; lia). by apply lookup_take_lt.
Qed.

Lemma ins_lookup_eq : ins k A xs !! k = Some A.
Proof using Hk. unfold ins. apply list_lookup_middle. rewrite length_take. lia. Qed.

Lemma ins_lookup_gt p : (k <= p)%nat -> ins k A xs !! S p = xs !! p.
Proof using Hk.
  intros Hp. unfold ins. rewrite lookup_app_r by (rewrite length_take; lia).
  rewrite length_take_le by done. replace (S p - k)%nat with (S (p - k)) by lia.
  cbn [lookup list_lookup]. change (drop k xs !! (p - k)%nat = xs !! p).
  rewrite lookup_drop. f_equal. lia.
Qed.

Lemma ins_drop_le p : (p <= k)%nat -> drop p (ins k A xs) = drop p (take k xs) ++ A :: drop k xs.
Proof using Hk. intros Hp. unfold ins. by rewrite drop_app_le by (rewrite length_take; lia). Qed.

Lemma drop_split p : (p <= k)%nat -> drop p xs = drop p (take k xs) ++ drop k xs.
Proof using Hk.
  intros Hp. rewrite <- (take_drop k xs) at 1. by rewrite drop_app_le by (rewrite length_take; lia).
Qed.

Lemma ins_drop_gt p : (k <= p)%nat -> drop (S p) (ins k A xs) = drop p xs.
Proof using Hk.
  intros Hp. unfold ins. rewrite drop_app_ge by (rewrite length_take; lia).
  rewrite length_take_le by done. replace (S p - k)%nat with (S (p - k)) by lia.
  cbn [drop]. rewrite drop_drop. f_equal. lia.
Qed.

Lemma seg_low i p :
  Forall (low i) (drop p (take k xs)) <-> forall j b, (p <= j < k)%nat -> xs !! j = Some b -> low i b.
Proof using Hk.
  rewrite Forall_lookup. split.
  - intros H j b Hj Hb. apply (H (j - p)%nat). rewrite lookup_drop.
    replace (p + (j - p))%nat with j by lia. by rewrite lookup_take_lt by lia.
  - intros H j b Hb. rewrite lookup_drop in Hb. apply lookup_take_Some in Hb as [Hb ?].
    by apply (H (p + j)%nat); [lia|].
Qed.

Lemma seg_length p : (p <= k)%nat -> length (drop p (take k xs)) = (k - p)%nat.
Proof using Hk. intros. rewrite length_drop, length_take. lia. Qed.

(** What an insertion does to the links of a position before it. *)
Lemma link_ins zlev i p : (p <= k)%nat -> high zlev xs i p ->
  link i (drop p (ins k A xs)) =
  if decide (ppos xs i k = p) then
    if (i <? aheight A)%nat then (Some (aloc A), Z.of_nat (k - p) + 1)
    else (fst (link i (drop p xs)), snd (link i (drop p xs)) + 1)
  else link i (drop p xs).
Proof using Hk.
  intros Hp Hh. rewrite ins_drop_le, (drop_split p) by done.
  destruct (decide (Forall (low i) (drop p (take k xs)))) as [Hl|Hl].
  - rewrite decide_True; [|apply (ppos_stop zlev); [done|done|by apply seg_low]].
    rewrite !link_low, seg_length by done. cbn [fst snd link].
    destruct (i <? aheight A)%nat; cbn [fst snd]; f_equal; lia.
  - rewrite decide_False; [by apply link_app_same|].
    intros He. apply Hl, seg_low. intros j b Hj. apply (ppos_stop_inv xs i k). lia.
Qed.

(** The link of the position that the descent stopped at. *)
Lemma link_ppos i :
  link i (drop (ppos xs i k) xs) =
  (fst (link i (drop k xs)), snd (link i (drop k xs)) + Z.of_nat (k - ppos xs i k)).
Proof using Hk.
  pose proof (ppos_le xs i k). rewrite (drop_split (ppos xs i k)) by done.
  rewrite link_low, seg_length; [done|done|]. apply seg_low. intros j b. apply ppos_stop_inv.
Qed.

Lemma prevloc_ins p : (k <= p)%nat -> prevloc (ins k A xs) (S (S p)) = prevloc xs (S p).
Proof using Hk. intros Hp. cbn [prevloc]. by rewrite ins_lookup_gt. Qed.

Lemma prevloc_ins_lt p : (p <= k)%nat -> prevloc (ins k A xs) p = prevloc xs p.
Proof using Hk. intros Hp. destruct p; cbn [prevloc]; [done|]. by rewrite ins_lookup_lt by lia. Qed.

Lemma ppos_ins i j : (j <= k)%nat -> ppos (ins k A xs) i j = ppos xs i j.
Proof using Hk.
  induction j as [|j IH]; intros Hj; cbn [ppos]; [done|]. rewrite ins_lookup_lt by lia. by rewrite IH by lia.
Qed.

Lemma locat_ins h p : (p <= k)%nat -> locat h (ins k A xs) p = locat h xs p.
Proof using Hk. intros Hp. destruct p; cbn [locat]; [done|]. by rewrite ins_lookup_lt by lia. Qed.

End Ins.

Lemma ins_perm h k A (xs : list anode) : h :: (aloc <$> ins k A xs) ≡ₚ aloc A :: h :: (aloc <$> xs).
Proof.
  unfold ins. rewrite fmap_app, fmap_cons, <- Permutation_middle, <- fmap_app, take_drop. apply Permutation_swap.
Qed.

Lemma last_ins k A (xs : list anode) :
  last (aloc <$> ins k A xs) = if (k <? length xs)%nat then last (aloc <$> xs) else Some (aloc A).
Proof.
  destruct (Nat.ltb_spec k (length xs)) as [Hk|Hk].
  - rewrite !last_prevloc, ins_length by lia. destruct (length xs) as [|n] eqn:E; [lia|].
    by rewrite prevloc_ins by lia.
  - unfold ins. rewrite drop_ge, fmap_app by lia. cbn [fmap list_fmap]. by rewrite last_snoc.
Qed.

Lemma ppos_all xs k : Forall (fun a => 1 <= aheight a)%nat xs -> (k <= length xs)%nat -> ppos xs 0 k = k.
Proof.
  intros HF Hk. destruct k as [|k]; [done|]. cbn [ppos].
  destruct (lookup_lt_is_Some_2 xs k) as [a Ha]; [lia|]. rewrite Ha. cbn [from_option].
  rewrite Forall_lookup in HF. specialize (HF k a Ha).
  by destruct (Nat.ltb_spec 0 (aheight a)); [|lia].
Qed.

Lemma ppos_above xs i k n : Forall (fun a => aheight a <= n)%nat xs -> (n <= i)%nat -> ppos xs i k = O.
Proof.
  intros HF Hi. induction k as [|k IH]; cbn [ppos]; [done|].
  destruct (xs !! k) as [a|] eqn:Ha; cbn [from_option]; [|done].
  rewrite Forall_lookup in HF. specialize (HF k a Ha).
  by destruct (Nat.ltb_spec i (aheight a)); [lia|].
Qed.

Lemma link_above xs i n : Forall (fun a => aheight a <= n)%nat xs -> (n <= i)%nat -> link i xs = (None, Z.of_nat (length xs)).
Proof.
  intros HF Hi. rewrite <- (app_nil_r xs) at 1. rewrite link_low; [done|].
  eapply Forall_impl; [exact HF|]. unfold low. cbn. lia.
Qed.

Section Grow.
Context {m : zmem} {zsl : zskiplist} {xs : list anode} (HR : zsl_rep m zsl xs).

Lemma aloc_header p a : xs !! p = Some a -> aloc a <> zheader zsl.
Proof using HR.
  intros Ha He. pose proof (rep_nodup _ _ _ HR) as Hn. apply NoDup_cons in Hn as [Hn _]. apply Hn.
  rewrite <- He. apply list_elem_of_fmap. exists a. split; [done|]. by eapply list_elem_of_lookup_2.
Qed.

Lemma heights_le : Forall (fun a => aheight a <= zlevel zsl)%nat xs.
Proof using HR. eapply Forall_impl; [exact (rep_heights _ _ _ HR)|]. cbn. lia. Qed.

Lemma heights_pos : Forall (fun a => 1 <= aheight a)%nat xs.
Proof using HR. eapply Forall_impl; [exact (rep_heights _ _ _ HR)|]. cbn. lia. Qed.

(** The levels of the header that are not in use yet. *)
Lemma header_unused i : (zlevel zsl <= i < ZSKIPLIST_MAXLEVEL)%nat ->
  exists s, get_level m (zheader zsl) i = Some (None, s).
Proof using HR.
  intros Hi. destruct (rep_header _ _ _ HR) as (junk & Hm & Hj & HF). unfold get_level. rewrite Hm.
  cbn [mbind option_bind level]. rewrite lookup_app_r, links_length by (rewrite links_length; lia).
  destruct (lookup_lt_is_Some_2 junk (i - zlevel zsl)) as [[f s] Hc]; [lia|].
  rewrite Forall_lookup in HF. specialize (HF _ _ Hc). cbn in HF. subst f. by exists s.
Qed.

Lemma grow_links lv junk : (zlevel zsl <= lv <= ZSKIPLIST_MAXLEVEL)%nat ->
  length junk = (ZSKIPLIST_MAXLEVEL - zlevel zsl)%nat ->
  imap (fun i c => default c (if decide (zlevel zsl <= i < zlevel zsl + (lv - zlevel zsl))%nat
                              then Some (None, zlength zsl) else None)) (links (zlevel zsl) xs ++ junk) =
  links lv xs ++ drop (lv - zlevel zsl) junk.
Proof using HR.
  intros Hlv Hj. apply list_eq. intros i. rewrite list_lookup_imap.
  destruct (decide (i < zlevel zsl)%nat).
  - rewrite !lookup_app_l, !links_lookup by (rewrite ?links_length; lia). cbn. by rewrite decide_False by lia.
  - rewrite (lookup_app_r (links (zlevel zsl) xs)), links_length by (rewrite links_length; lia).
    destruct (decide (i < lv)%nat).
    + rewrite lookup_app_l, links_lookup by (rewrite ?links_length; lia).
      destruct (lookup_lt_is_Some_2 junk (i - zlevel zsl)) as [c Hc]; [lia|]. rewrite Hc. cbn.
      rewrite decide_True by lia. cbn. rewrite (link_above xs i (zlevel zsl)); [|apply heights_le|lia].
      by rewrite (rep_length _ _ _ HR).
    + rewrite lookup_app_r, links_length, lookup_drop by (rewrite links_length; lia).
      replace (lv - zlevel zsl + (i - lv))%nat with (i - zlevel zsl)%nat by lia.
      destruct (junk !! _); [|done]. cbn. by rewrite decide_False by lia.
Qed.

Lemma zslInsert_grow_spec lv : (zlevel zsl <= lv <= ZSKIPLIST_MAXLEVEL)%nat ->
  exists m', for_levels (zslInsert_grow (zheader zsl) (zlength zsl)) (zlevel zsl) (lv - zlevel zsl) m = Some m' /\
    zsl_rep m' (mk_zsl (zheader zsl) (ztail zsl) (zlength zsl) lv) xs /\ dom m' = dom m.
Proof using HR.
  intros Hlv.
  destruct (for_levels_relev (zslInsert_grow (zheader zsl) (zlength zsl))
    (fun l _ => if decide (l = zheader zsl) then Some (None, zlength zsl) else None)
    (lv - zlevel zsl) (zlevel zsl) m) as (m' & E & H').
  { intros j m1 Hj H1. unfold zslInsert_grow. rewrite (get_level_relev _ _ _ _ _ H1).
    rewrite (decide_False (P := (zlevel zsl <= j < j)%nat)) by lia.
    destruct (header_unused j) as [s Hs]; [lia|]. rewrite Hs. cbn [fmap option_fmap option_map mbind option_bind from_option id].
    apply (set_level_body _ _ _ _ (None, s)); [|done].
    rewrite (get_level_relev _ _ _ _ _ H1), Hs. by rewrite decide_False by lia. }
  exists m'. split; [done|]. split; [|by eapply relev_mem_dom].
  destruct (rep_header _ _ _ HR) as (junk & Hm & Hj & HF). constructor; cbn [zheader zlevel ztail zlength].
  - exists (drop (lv - zlevel zsl) junk). rewrite (H' (zheader zsl)), Hm. cbn [fmap option_fmap option_map].
    unfold relev. cbn [ele score backward level]. split; [|split].
    + do 2 f_equal. rewrite <- grow_links by done. apply imap_ext. intros i c Hc.
      by rewrite (decide_True (P := (zheader zsl = zheader zsl))) by done.
    + rewrite length_drop. lia.
    + by apply Forall_drop.
  - intros p a Ha. rewrite (H' (aloc a)), (rep_nodes _ _ _ HR p a Ha). cbn [fmap option_fmap option_map].
    rewrite relev_none; [done|]. intros i _. rewrite (decide_False (P := (aloc a = _))) by (by eapply aloc_header).
    by case_decide.
  - apply HR.
  - eapply Forall_impl; [exact (rep_heights _ _ _ HR)|]. cbn. lia.
  - pose proof (rep_level _ _ _ HR). lia.
  - apply HR.
  - apply HR.
Qed.

Lemma updates_grow k lv : (zlevel zsl <= lv)%nat ->
  updates (zheader zsl) xs k (zlevel zsl) ++ replicate (lv - zlevel zsl) (zheader zsl, 0) = updates (zheader zsl) xs k lv.
Proof using HR.
  intros Hlv. unfold updates.
  replace (seq 0 lv) with (seq 0 (zlevel zsl) ++ seq (zlevel zsl) (lv - zlevel zsl)).
  2: { rewrite <- seq_app. f_equal. lia. }
  rewrite fmap_app. f_equal. apply replicate_as_Forall. split.
  - by rewrite length_fmap, length_seq.
  - apply Forall_fmap, Forall_forall. intros i Hi. apply elem_of_seq in Hi. cbn.
    by rewrite (ppos_above xs i k (zlevel zsl)) by (apply heights_le || lia).
Qed.

End Grow.

Section Link.
Context (junk_level : nat -> option loc * Z) (junk_back : option loc).
Context {m : zmem} {zsl : zskiplist} {xs : list anode} (HR : zsl_rep m zsl xs).
Context (k : nat) (A : anode) (Hk : (k <= length xs)%nat).
Context (Hfresh : m !! aloc A = None) (HA : (1 <= aheight A <= zlevel zsl)%nat).
Notation at_ := (locat (zheader zsl) xs).
Notation upds := (updates (zheader zsl) xs k (zlevel zsl)).

Lemma locat_fresh p : (p <= length xs)%nat -> at_ p <> aloc A.
Proof using HR Hk Hfresh HA. intros Hp He. destruct (locat_in HR p Hp) as [n Hn]. rewrite He in Hn. congruence. Qed.

Lemma ppos_bound i : (ppos xs i k <= length xs)%nat.
Proof using Hk HA. pose proof (ppos_le xs i k). lia. Qed.

Notation m0 := (zslCreateNode junk_level junk_back m (aloc A) (aheight A) (ascore A) (Some (aele A))).

Lemma get_level_new_ne l i : l <> aloc A -> get_level m0 l i = get_level m l i.
Proof using. intros Hl. unfold get_level, zslCreateNode. by rewrite lookup_insert_ne by done. Qed.

Lemma get_level_new i : (i < aheight A)%nat -> get_level m0 (aloc A) i = Some (junk_level i).
Proof using.
  intros Hi. unfold get_level, zslCreateNode. rewrite lookup_insert_eq. cbn [mbind option_bind level].
  rewrite list_lookup_fmap. by rewrite lookup_seq_lt.
Qed.

(** What the two loops write: on the levels of the new node, and above. *)
Definition linked (l : loc) (i : nat) : option (option loc * Z) :=
  if decide (l = aloc A) then Some (link i (drop k xs))
  else if decide (l = at_ (ppos xs i k)) then Some (Some (aloc A), Z.of_nat (k - ppos xs i k) + 1) else None.
Definition crossed (l : loc) (i : nat) : option (option loc * Z) :=
  if decide (l = at_ (ppos xs i k)) then
    Some (fst (link i (drop (ppos xs i k) xs)), snd (link i (drop (ppos xs i k) xs)) + 1)
  else None.

Lemma link_body j m1 : (j < aheight A)%nat ->
  relev_mem m0 m1 (fun l k => if decide (0 <= k < j)%nat then linked l k else None) ->
  exists m2, zslInsert_link (aloc A) upds (Z.of_nat k) j m1 = Some m2 /\
    relev_mem m1 m2 (fun l i => if decide (i = j) then linked l i else None).
Proof using HR Hk Hfresh HA.
  intros Hj H1. unfold zslInsert_link. rewrite updates_lookup by lia. cbn [mbind option_bind].
  pose proof (ppos_bound j) as Hb. pose proof (locat_fresh _ Hb) as Hne.
  pose proof (ppos_high (zlevel zsl) xs j k ltac:(lia)) as Hh.
  assert (forall l, get_level m1 l j = get_level m0 l j) as Hg.
  { intros l. rewrite (get_level_relev _ _ _ _ _ H1). rewrite decide_False by lia. by destruct (get_level m0 l j). }
  rewrite Hg, get_level_new_ne, (level_at HR) by done. cbn [mbind option_bind].
  rewrite link_ppos by done.
  destruct (set_level_relev m1 (aloc A) j (fst (link j (drop k xs)), snd (link j (drop k xs)) +
      Z.of_nat (k - ppos xs j k) - (Z.of_nat k - Z.of_nat (ppos xs j k))) (junk_level j)) as (m2 & E2 & H2).
  { by rewrite Hg, get_level_new. }
  rewrite E2. cbn [mbind option_bind].
  destruct (set_level_relev m2 (at_ (ppos xs j k)) j (Some (aloc A), Z.of_nat k - Z.of_nat (ppos xs j k) + 1)
    (link j (drop (ppos xs j k) xs))) as (m3 & E3 & H3).
  { rewrite (get_level_relev _ _ _ _ _ H2), Hg, get_level_new_ne, (level_at HR) by done.
    by rewrite decide_False by tauto. }
  exists m3. split; [done|]. eapply relev_mem_ext; [|exact (relev_mem_trans _ _ _ _ _ H2 H3)].
  pose proof (ppos_le xs j k). intros l i. cbv beta. unfold linked.
  destruct (decide (i = j)) as [->|]; [|by rewrite !decide_False by tauto].
  destruct (decide (l = aloc A)) as [->|].
  - rewrite decide_False by (intros [? _]; congruence). rewrite decide_True by done. f_equal.
    rewrite (surjective_pairing (link j (drop k xs))) at 3. f_equal. lia.
  - destruct (decide (l = at_ (ppos xs j k))) as [->|].
    + rewrite decide_True by done. do 2 f_equal. lia.
    + by rewrite !decide_False by tauto.
Qed.

Lemma incr_body j m1 : (aheight A <= j < zlevel zsl)%nat ->
  relev_mem m0 m1 (fun l i => if decide (i < j)%nat then if decide (i < aheight A)%nat then linked l i else crossed l i else None) ->
  exists m2, zslInsert_incr upds j m1 = Some m2 /\
    relev_mem m1 m2 (fun l i => if decide (i = j) then crossed l i else None).
Proof using HR Hk Hfresh HA.
  intros Hj H1. unfold zslInsert_incr. rewrite updates_lookup by lia. cbn [mbind option_bind].
  pose proof (ppos_bound j) as Hb. pose proof (locat_fresh _ Hb) as Hne.
  pose proof (ppos_high (zlevel zsl) xs j k ltac:(lia)) as Hh.
  assert (get_level m1 (at_ (ppos xs j k)) j = Some (link j (drop (ppos xs j k) xs))) as Hg.
  { rewrite (get_level_relev _ _ _ _ _ H1). rewrite decide_False by lia.
    by rewrite get_level_new_ne, (level_at HR) by done. }
  rewrite Hg. cbn [mbind option_bind].
  destruct (link j (drop (ppos xs j k) xs)) as [f s] eqn:El.
  destruct (set_level_body m1 (at_ (ppos xs j k)) j (f, s + 1) (f, s) (fun l => crossed l j)) as (m2 & E & H2).
  - done.
  - intros l. unfold crossed. by rewrite El.
  - exists m2. split; [done|]. eapply relev_mem_ext; [|exact H2]. intros l i. cbv beta. by case_decide; subst.
Qed.

Definition written (l : loc) (i : nat) : option (option loc * Z) :=
  if decide (i < zlevel zsl)%nat then if decide (i < aheight A)%nat then linked l i else crossed l i else None.

Lemma zslInsert_loops : exists m1 m2,
  for_levels (zslInsert_link (aloc A) upds (Z.of_nat k)) 0 (aheight A) m0 = Some m1 /\
  for_levels (zslInsert_incr upds) (aheight A) (zlevel zsl - aheight A) m1 = Some m2 /\
  relev_mem m0 m2 written.
Proof using HR Hk Hfresh HA.
  destruct (for_levels_relev (zslInsert_link (aloc A) upds (Z.of_nat k)) linked (aheight A) 0 m0) as (m1 & E1 & H1).
  { intros j m1 Hj. apply link_body. lia. }
  destruct (for_levels_relev (zslInsert_incr upds) crossed (zlevel zsl - aheight A) (aheight A) m1) as (m2 & E2 & H2).
  { intros j m2 Hj H2. apply incr_body; [lia|].
    eapply relev_mem_ext; [|exact (relev_mem_trans _ _ _ _ _ H1 H2)].
    intros l i. cbv beta. destruct (decide (i < aheight A)%nat).
    - rewrite (decide_False (P := (aheight A <= i < j)%nat)) by lia. by rewrite !decide_True by lia.
    - rewrite (decide_False (P := (0 <= i < 0 + aheight A)%nat)) by lia.
      destruct (decide (i < j)%nat); [rewrite decide_True by lia; by destruct (crossed l i) | by rewrite decide_False by lia]. }
  exists m1, m2. split; [done|]. split; [done|].
  eapply relev_mem_ext; [|exact (relev_mem_trans _ _ _ _ _ H1 H2)].
  intros l i. cbv beta. unfold written. destruct (decide (i < aheight A)%nat).
  - rewrite (decide_False (P := (aheight A <= i < _)%nat)) by lia. by rewrite !decide_True by lia.
  - rewrite (decide_False (P := (0 <= i < 0 + aheight A)%nat)) by lia.
    destruct (decide (i < zlevel zsl)%nat); [rewrite decide_True by lia; by destruct (crossed l i) | by rewrite decide_False by lia].
Qed.

(** The position of an old node after the insertion. *)
Definition shifted (p : nat) : nat := if (p <=? k)%nat then p else S p.

Lemma high_level i p : high (zlevel zsl) xs i p -> (i < zlevel zsl)%nat.
Proof using HR.
  destruct p as [|p]; cbn [high]; [done|]. intros (a & Ha & Hi).
  pose proof (heights_le HR) as HF. rewrite Forall_lookup in HF. specialize (HF p a Ha). cbn in HF.
  clear - Hi HF. lia.
Qed.

Lemma written_link p i : (p <= length xs)%nat -> high (zlevel zsl) xs i p ->
  default (link i (drop p xs)) (written (at_ p) i) = link i (drop (shifted p) (ins k A xs)).
Proof using HR Hk Hfresh HA.
  intros Hp Hh. unfold written, shifted. rewrite decide_True by (by eapply high_level).
  pose proof (locat_fresh p Hp). pose proof (ppos_bound i). pose proof (ppos_le xs i k).
  unfold linked, crossed. rewrite (decide_False (P := (at_ p = aloc A))) by done.
  destruct (Nat.leb_spec p k).
  - rewrite (link_ins k A xs Hk (zlevel zsl)) by done.
    destruct (decide (ppos xs i k = p)) as [He|Hne].
    + rewrite He, !(decide_True (P := (at_ p = at_ p))) by done.
      destruct (Nat.ltb_spec i (aheight A)); [by rewrite decide_True | by rewrite decide_False by lia].
    + assert (at_ p <> at_ (ppos xs i k)) by (intros Heq; by apply (locat_inj HR) in Heq).
      rewrite !(decide_False (P := (at_ p = _))) by done. by case_decide.
  - assert (at_ p <> at_ (ppos xs i k)) by (intros Heq; apply (locat_inj HR) in Heq; lia).
    rewrite !(decide_False (P := (at_ p = _))) by done. rewrite ins_drop_gt by lia. by case_decide.
Qed.

Context {m2 : zmem} (H2 : relev_mem m0 m2 written).

Lemma written_node p b : xs !! p = Some b ->
  m2 !! aloc b = Some (mk_znode (Some (aele b)) (ascore b) (prevloc xs p)
                         (links (aheight b) (drop (shifted (S p)) (ins k A xs)))).
Proof using HR Hk Hfresh HA H2.
  intros Hb. rewrite (H2 (aloc b)). assert (S p <= length xs)%nat as Hp.
  { apply lookup_lt_Some in Hb. lia. }
  pose proof (locat_fresh (S p) Hp) as Hne. rewrite (locat_at p b Hb) in Hne.
  unfold zslCreateNode. rewrite lookup_insert_ne by done.
  rewrite (rep_nodes _ _ _ HR p b Hb). cbn [fmap option_fmap option_map]. unfold relev, cell.
  cbn [ele score backward level]. do 2 f_equal. apply relinks. intros i Hi.
  rewrite <- (locat_at (zsl := zsl) p b Hb). apply written_link; [done|]. by exists b.
Qed.

Lemma written_header : exists junk,
  m2 !! zheader zsl = Some (mk_znode None 0 None (links (zlevel zsl) (ins k A xs) ++ junk)) /\
  length junk = (ZSKIPLIST_MAXLEVEL - zlevel zsl)%nat /\ Forall (fun c => fst c = None) junk.
Proof using HR Hk Hfresh HA H2.
  destruct (rep_header _ _ _ HR) as (junk & Hm & Hj & HF). exists junk. split; [|done].
  rewrite (H2 (zheader zsl)). pose proof (locat_fresh 0 ltac:(lia)) as Hne. cbn [locat] in Hne.
  unfold zslCreateNode. rewrite lookup_insert_ne by done. rewrite Hm.
  cbn [fmap option_fmap option_map]. unfold relev. cbn [ele score backward level]. do 2 f_equal.
  rewrite imap_app. f_equal.
  - apply relinks. intros i Hi. apply (written_link 0 i); [lia|exact Hi].
  - apply list_eq. intros i. rewrite list_lookup_imap, links_length. destruct (junk !! i); [|done].
    cbn. unfold written. by rewrite decide_False by lia.
Qed.

Lemma written_new :
  m2 !! aloc A = Some (mk_znode (Some (aele A)) (ascore A) junk_back (links (aheight A) (drop k xs))).
Proof using HR Hk Hfresh HA H2.
  rewrite (H2 (aloc A)). unfold zslCreateNode. rewrite lookup_insert_eq. cbn [fmap option_fmap option_map].
  unfold relev. cbn [ele score backward level]. do 2 f_equal. apply list_eq. intros i.
  rewrite list_lookup_imap, list_lookup_fmap. destruct (decide (i < aheight A)%nat).
  - rewrite lookup_seq_lt by lia. rewrite links_lookup by lia. cbn. unfold written, linked.
    by rewrite !decide_True by (done || lia).
  - rewrite links_ge by lia. by rewrite lookup_seq_ge by lia.
Qed.

(** [zslInsert_back] on the result of the loops. *)
Lemma zslInsert_back_spec : exists m3 zsl3,
  zslInsert_back m2 zsl (aloc A) (at_ k) (zlevel zsl) = Some (m3, zsl3) /\
  zheader zsl3 = zheader zsl /\ zlevel zsl3 = zlevel zsl /\ zlength zsl3 = zlength zsl + 1 /\
  ztail zsl3 = last (aloc <$> ins k A xs) /\ dom m3 = dom m2 /\
  m3 !! aloc A = Some (cell (ins k A xs) k A) /\
  (forall b, xs !! k = Some b -> m3 !! aloc b = Some (cell (ins k A xs) (S k) b)) /\
  (forall l, l <> aloc A -> (forall b, xs !! k = Some b -> l <> aloc b) -> m3 !! l = m2 !! l).
Proof using HR Hk Hfresh HA H2.
  assert ((if bool_decide (at_ k = zheader zsl) then None else Some (at_ k)) = prevloc xs k) as Hb.
  { destruct k as [|k']; [by rewrite bool_decide_true|].
    destruct (lookup_lt_is_Some_2 xs k') as [a Ha]; [lia|].
    rewrite (locat_at k' a Ha). cbn [prevloc]. rewrite Ha.
    by rewrite bool_decide_false by (by eapply (aloc_header HR)). }
  unfold zslInsert_back. rewrite Hb. unfold set_backward. rewrite written_new.
  cbn [mbind option_bind ele score level]. unfold get_level. rewrite lookup_insert_eq.
  cbn [mbind option_bind level]. rewrite links_lookup by lia.
  assert (cell (ins k A xs) k A = mk_znode (Some (aele A)) (ascore A) (prevloc xs k) (links (aheight A) (drop k xs))) as Hc.
  { unfold cell. by rewrite prevloc_ins_lt, ins_drop_gt by lia. }
  destruct (xs !! k) as [b|] eqn:Hbk.
  - assert (aloc b <> aloc A) as Hne.
    { rewrite <- (locat_at (zsl := zsl) k b Hbk). apply locat_fresh. apply lookup_lt_Some in Hbk. lia. }
    rewrite (drop_S _ _ _ Hbk), link_high by (pose proof (heights_pos HR) as HF;
      rewrite Forall_lookup in HF; specialize (HF k b Hbk); cbn in HF; lia).
    cbn [mbind option_bind]. rewrite lookup_insert_ne by done.
    rewrite (written_node k b Hbk). cbn [mbind option_bind ele score level].
    eexists _, _. split; [done|]. cbn [zheader zlevel zlength ztail]. repeat split.
    + rewrite (rep_tail _ _ _ HR), last_ins. apply lookup_lt_Some in Hbk.
      by destruct (Nat.ltb_spec k (length xs)); [|lia].
    + rewrite !dom_insert_lookup_L; [done| |].
      * rewrite written_new. by eexists.
      * rewrite lookup_insert_ne by done. rewrite (written_node k b Hbk). by eexists.
    + rewrite lookup_insert_ne, lookup_insert_eq by done. by rewrite Hc, (drop_S _ _ _ Hbk).
    + intros b' [= <-]. rewrite lookup_insert_eq. unfold cell, shifted. cbn [prevloc].
      rewrite ins_lookup_eq by done. by destruct (Nat.leb_spec (S k) k); [lia|].
    + intros l Hl1 Hl2. by rewrite !lookup_insert_ne by (auto using not_eq_sym).
  - apply lookup_ge_None in Hbk. assert (k = length xs) as Hkl by lia.
    rewrite drop_ge by lia. cbn [link mbind option_bind].
    eexists _, _. split; [done|]. cbn [zheader zlevel zlength ztail]. repeat split.
    + rewrite last_ins. by destruct (Nat.ltb_spec k (length xs)); [lia|].
    + rewrite dom_insert_lookup_L; [done|]. rewrite written_new. by eexists.
    + rewrite lookup_insert_eq. by rewrite Hc, drop_ge by lia.
    + done.
    + intros l Hl1 Hl2. by rewrite lookup_insert_ne by (auto using not_eq_sym).
Qed.

Lemma ins_nodup : NoDup (zheader zsl :: (aloc <$> ins k A xs)).
Proof using HR Hk Hfresh HA.
  rewrite ins_perm, NoDup_cons. split; [|apply HR]. intros Hl. apply list_elem_of_lookup in Hl as [p Hl].
  assert (p <= length xs)%nat as Hle.
  { apply lookup_lt_Some in Hl. cbn [length] in Hl. rewrite length_fmap in Hl. lia. }
  rewrite locat_lookup in Hl by done. injection Hl as Hl. by apply (locat_fresh p).
Qed.

Lemma zslInsert_rep m3 zsl3 :
  zslInsert_back m2 zsl (aloc A) (at_ k) (zlevel zsl) = Some (m3, zsl3) ->
  zsl_rep m3 zsl3 (ins k A xs) /\ dom m3 = {[aloc A]} ∪ dom m /\ zheader zsl3 = zheader zsl.
Proof using HR Hk Hfresh HA H2.
  intros E. destruct zslInsert_back_spec as (m3' & zsl3' & E' & Hh & Hlv & Hlen & Ht & Hd & HcA & HcB & Ho).
  rewrite E in E'. injection E' as <- <-. split; [|split; [|done]].
  2: { rewrite Hd, (relev_mem_dom _ _ _ H2). unfold zslCreateNode. by rewrite dom_insert_L. }
  constructor.
  - rewrite Hh, Hlv, Ho; [apply written_header| |].
    + apply (locat_fresh 0). lia.
    + intros b Hb He. by apply (aloc_header HR k b Hb).
  - intros p a Ha. destruct (Nat.lt_trichotomy p k) as [Hp|[->|Hp]].
    + rewrite ins_lookup_lt in Ha by done. pose proof (lookup_lt_Some _ _ _ Ha) as Hpl.
      rewrite Ho, (written_node p a Ha).
      * unfold cell, shifted. rewrite prevloc_ins_lt by lia. by destruct (Nat.leb_spec (S p) k); [|lia].
      * rewrite <- (locat_at (zsl := zsl) p a Ha). apply locat_fresh. lia.
      * intros b Hb He. pose proof (lookup_lt_Some _ _ _ Hb).
        rewrite <- (locat_at (zsl := zsl) p a Ha), <- (locat_at (zsl := zsl) k b Hb) in He.
        apply (locat_inj HR) in He; lia.
    + rewrite ins_lookup_eq in Ha by done. by injection Ha as <-.
    + destruct p as [|p]; [lia|]. rewrite ins_lookup_gt in Ha by lia.
      pose proof (lookup_lt_Some _ _ _ Ha) as Hpl.
      destruct (decide (p = k)) as [->|Hpk]; [by apply HcB|].
      rewrite Ho, (written_node p a Ha).
      * unfold cell, shifted. destruct (Nat.leb_spec (S p) k); [lia|].
        destruct p as [|p]; [lia|]. by rewrite prevloc_ins by lia.
      * rewrite <- (locat_at (zsl := zsl) p a Ha). apply locat_fresh. lia.
      * intros b Hb He. pose proof (lookup_lt_Some _ _ _ Hb).
        rewrite <- (locat_at (zsl := zsl) p a Ha), <- (locat_at (zsl := zsl) k b Hb) in He.
        apply (locat_inj HR) in He; lia.
  - rewrite Hh. apply ins_nodup.
  - rewrite Hlv. unfold ins. pose proof (rep_heights _ _ _ HR) as HF. apply Forall_app. split; [by apply Forall_take|].
    constructor; [done|]. by apply Forall_drop.
  - rewrite Hlv. apply HR.
  - rewrite Hlen, ins_length, (rep_length _ _ _ HR) by done. lia.
  - exact Ht.
Qed.
End Link.

Lemma zslRandomLevel_bounds rs lv rs' : zslRandomLevel rs = Some (lv, rs') -> (1 <= lv <= ZSKIPLIST_MAXLEVEL)%nat.
Proof.
  unfold zslRandomLevel. destruct (zslRandomLevel_loop 1 rs) as [[l r]|] eqn:E; [|done]. cbn [mbind option_bind].
  assert (1 <= l)%nat.
  { enough (forall rs n, zslRandomLevel_loop n rs = Some (l, r) -> (n <= l)%nat) as H by (by apply (H rs)).
    clear. induction rs as [|x rs IH]; intros n; cbn [zslRandomLevel_loop]; [done|].
    destruct (x <? zsl_threshold); [|intros [= <- <-]; lia]. intros H%IH. lia. }
  intros [= <- <-]. unfold ZSKIPLIST_MAXLEVEL. destruct (Nat.ltb_spec l 32); lia.
Qed.

(** [zslInsert] links the new node at the cut point of its search. *)
Lemma zslInsert_at jl jb m zsl xs a rs d e k lv rs' :
  zsl_rep m zsl xs -> cuts m (node_before d e) xs k -> isnan d = false -> m !! a = None ->
  zslRandomLevel rs = Some (lv, rs') ->
  exists m' zsl', zslInsert jl jb m zsl a rs d e = Some (m', zsl', rs') /\
    zsl_rep m' zsl' (ins k (mk_anode a d e lv) xs) /\ dom m' = {[a]} ∪ dom m /\ zheader zsl' = zheader zsl.
Proof.
  intros HR Hcut Hnan Hf Hrs. pose proof (zslRandomLevel_bounds _ _ _ Hrs) as Hlv.
  unfold zslInsert. rewrite Hnan, (zsl_search_spec HR Hcut). cbn [mbind option_bind]. rewrite Hrs. cbn [mbind option_bind].
  set (A := mk_anode a d e lv).
  assert (exists m1 zlev,
    (if (zlevel zsl <? lv)%nat then
       m1 ← for_levels (zslInsert_grow (zheader zsl) (zlength zsl)) (zlevel zsl) (lv - zlevel zsl) m;
       Some (m1, updates (zheader zsl) xs k (zlevel zsl) ++ replicate (lv - zlevel zsl) (zheader zsl, 0), lv)
     else Some (m, updates (zheader zsl) xs k (zlevel zsl), zlevel zsl)) =
      Some (m1, updates (zheader zsl) xs k zlev, zlev) /\ (lv <= zlev)%nat /\
    zsl_rep m1 (mk_zsl (zheader zsl) (ztail zsl) (zlength zsl) zlev) xs /\ dom m1 = dom m) as (m1 & zlev & -> & Hzl & HR1 & Hd).
  { destruct (Nat.ltb_spec (zlevel zsl) lv).
    - destruct (zslInsert_grow_spec HR lv) as (m1 & -> & HR1 & Hd); [lia|]. exists m1, lv.
      cbn [mbind option_bind]. by rewrite (updates_grow HR) by lia.
    - exists m, (zlevel zsl). split; [done|]. split; [done|]. split; [|done]. by destruct zsl. }
  cbn [mbind option_bind]. assert (m1 !! aloc A = None) as Hf1.
  { apply not_elem_of_dom. rewrite Hd. by apply not_elem_of_dom. }
  pose proof (proj1 Hcut) as Hk.
  rewrite updates_lookup by lia. cbn [mbind option_bind].
  rewrite (ppos_all xs k) by (done || apply (heights_pos HR)).
  destruct (zslInsert_loops jl jb HR1 k A Hk Hf1 ltac:(cbn; lia)) as (m2 & m3 & E2 & E3 & H3).
  change (aloc A) with a in *. change (aheight A) with lv in *. change (ascore A) with d in *. change (aele A) with e in *.
  cbn [zheader zlevel] in *. rewrite E2. cbn [mbind option_bind]. rewrite E3. cbn [mbind option_bind].
  destruct (zslInsert_back_spec jl jb HR1 k A Hk Hf1 ltac:(cbn; lia) H3) as (m4 & zsl4 & E4 & _).
  destruct (zslInsert_rep jl jb HR1 k A Hk Hf1 ltac:(cbn; lia) H3 _ _ E4) as (HR4 & Hd4 & Hh4).
  exists m4, zsl4. change (aloc A) with a in *. cbn [zheader zlevel] in *.
  assert (forall l t n v v' x u z, zslInsert_back l (mk_zsl t n v v') x u z = zslInsert_back l (mk_zsl t n v z) x u z) as Hback by done.
  destruct zsl as [zh zt zn zl]. cbn [zheader ztail zlength zlevel] in *. rewrite Hback, E4. cbn [mbind option_bind].
  split; [done|]. split; [done|]. by rewrite Hd4, Hd.
Qed.
