(* ===== verification/ZskiplistDelete.v ===== *)
(** * ZskiplistDelete: unlinking nodes of a skip list

    [zslDeleteNode] on the node after a cut point removes it from the list the
    skip list represents; freeing it afterwards leaves the list alone, and the
    loop of the range deletions removes a whole segment. *)

From Stdlib Require Import ZArith Lia ZifyBool.
From stdpp Require Import base gmap numbers option list.
From S2P Require Import Prelude SdsCmp Zskiplist ZskiplistProof.

Local Open Scope Z_scope.

Lemma link_fst_in i R l : fst (link i R) = Some l -> l ∈ aloc <$> R.
Proof.
  induction R as [|a R IH]; cbn [link fmap list_fmap]; [done|].
  destruct (i <? aheight a)%nat; cbn [fst]; intros H; apply elem_of_cons; [left; congruence | right; auto].
Qed.

Lemma link_none_low i R : fst (link i R) = None -> Forall (low i) R.
Proof.
  induction R as [|a R IH]; cbn [link]; [constructor|].
  destruct (Nat.ltb_spec i (aheight a)) as [|Ha]; cbn [fst]; [done|]. intros H. constructor; [exact Ha | auto].
Qed.

Lemma links_take n h R : (n <= h)%nat -> take n (links h R) = links n R.
Proof.
  intros Hn. unfold links. rewrite <- fmap_take. f_equal. rewrite take_seq. f_equal. lia.
Qed.

Lemma links_drop_none n h R : Forall (fun a => aheight a <= n)%nat R -> Forall (fun c => fst c = None) (drop n (links h R)).
Proof.
  intros HF. apply Forall_lookup. intros i c Hc. rewrite lookup_drop in Hc.
  destruct (decide (n + i < h)%nat); [|by rewrite links_ge in Hc by lia].
  rewrite links_lookup in Hc by done. injection Hc as <-. by rewrite (link_above R _ n) by (done || lia).
Qed.

Lemma zslDeleteNode_level_S m h n :
  zslDeleteNode_level m h (S (S n)) =
  '(forward, _) ← get_level m h (S n);
  match forward with None => zslDeleteNode_level m h (S n) | Some _ => Some (S (S n)) end.
Proof. reflexivity. Qed.

Lemma zslDeleteNode_level_ext m m' h n :
  m !! h = m' !! h -> zslDeleteNode_level m h n = zslDeleteNode_level m' h n.
Proof.
  intros Hm. induction n as [|[|n] IH]; [done|done|]. rewrite !zslDeleteNode_level_S, IH.
  unfold get_level. by rewrite Hm.
Qed.

Section Unlink.
Context {m : zmem} {zsl : zskiplist} {ys : list anode} {A : anode} {k : nat} (Hk : (k <= length ys)%nat).
Notation xs := (ins k A ys).
Context (HR : zsl_rep m zsl xs).
Notation at_ := (locat (zheader zsl) xs).

Lemma high_ins i p : (p <= k)%nat -> high (zlevel zsl) xs i p -> high (zlevel zsl) ys i p.
Proof using Hk. intros Hp. destruct p as [|p]; cbn [high]; [done|]. by rewrite ins_lookup_lt by lia. Qed.

Lemma unlink_A : aloc A = at_ (S k).
Proof using Hk. symmetry. apply locat_at. by apply ins_lookup_eq. Qed.

Lemma unlink_fresh : aloc A ∉ zheader zsl :: (aloc <$> ys).
Proof using Hk HR.
  pose proof (rep_nodup _ _ _ HR) as Hn.
  rewrite ins_perm in Hn. by apply NoDup_cons in Hn as [Hn _].
Qed.

Lemma unlink_nodup : NoDup (zheader zsl :: (aloc <$> ys)).
Proof using Hk HR.
  pose proof (rep_nodup _ _ _ HR) as Hn.
  rewrite ins_perm in Hn. by apply NoDup_cons in Hn as [_ Hn].
Qed.

Lemma A_height : (1 <= aheight A <= zlevel zsl)%nat.
Proof using Hk HR.
  pose proof (rep_heights _ _ _ HR) as HF. rewrite Forall_lookup in HF. apply (HF k). by apply ins_lookup_eq.
Qed.

(** What the loop of [zslDeleteNode] writes. *)
Definition unlinked (l : loc) (i : nat) : option (option loc * Z) :=
  if decide (l = at_ (ppos ys i k)) then Some (link i (drop (ppos ys i k) ys)) else None.

Lemma unlink_body N j m1 : (j < zlevel zsl <= N)%nat ->
  relev_mem m m1 (fun l k => if decide (0 <= k < j)%nat then unlinked l k else None) ->
  exists m2, zslDeleteNode_unlink (aloc A) (updates (zheader zsl) xs k N) j m1 = Some m2 /\
    relev_mem m1 m2 (fun l i => if decide (i = j) then unlinked l i else None).
Proof using Hk HR.
  intros [Hj HN] H1. unfold zslDeleteNode_unlink. rewrite updates_lookup by lia. cbn [mbind option_bind].
  pose proof (ins_length k A ys Hk) as Hlen. rewrite ppos_ins by done.
  pose proof (ppos_le ys j k) as Hp. pose proof (ppos_high (zlevel zsl) xs j k Hj) as Hh. rewrite ppos_ins in Hh by done.
  assert (forall l, get_level m1 l j = get_level m l j) as Hg.
  { intros l. rewrite (get_level_relev _ _ _ _ _ H1), decide_False by lia. by destruct (get_level m l j). }
  assert (get_level m1 (at_ (ppos ys j k)) j = Some (link j (drop (ppos ys j k) xs))) as Hu.
  { rewrite Hg. apply (level_at HR); [lia|done]. }
  rewrite Hu, (link_ins k A ys Hk (zlevel zsl)) by (done || by apply high_ins).
  rewrite decide_True by done.
  assert (forall c, c = link j (drop (ppos ys j k) ys) -> exists m2, set_level m1 (at_ (ppos ys j k)) j c = Some m2 /\
    relev_mem m1 m2 (fun l i => if decide (i = j) then unlinked l i else None)) as Hset.
  { intros c ->. destruct (set_level_body m1 (at_ (ppos ys j k)) j (link j (drop (ppos ys j k) ys)) _
      (fun l => unlinked l j) Hu) as (m2 & E & H2); [done|].
    exists m2. split; [done|]. eapply relev_mem_ext; [|exact H2]. intros l i. cbv beta. by case_decide; subst. }
  destruct (Nat.ltb_spec j (aheight A)) as [HjA|HjA]; cbn [mbind option_bind].
  - rewrite bool_decide_true by done. rewrite Hg, unlink_A, (level_at HR); [|lia|].
    2: { exists A. split; [by apply ins_lookup_eq | done]. }
    cbn [mbind option_bind]. rewrite ins_drop_gt by lia.
    destruct (link j (drop k ys)) as [f s] eqn:El. cbn [mbind option_bind]. apply Hset.
    rewrite link_ppos, El by done. cbn [fst snd]. f_equal. lia.
  - rewrite bool_decide_false.
    + apply Hset. destruct (link j (drop (ppos ys j k) ys)); cbn [fst snd]. f_equal. lia.
    + intros Hf. apply link_fst_in in Hf. apply unlink_fresh, elem_of_cons. right.
      rewrite <- (take_drop (ppos ys j k) ys), fmap_app. apply elem_of_app. by right.
Qed.

Lemma unlink_loop N : (zlevel zsl <= N)%nat -> exists m2,
  for_levels (zslDeleteNode_unlink (aloc A) (updates (zheader zsl) xs k N)) 0 (zlevel zsl) m = Some m2 /\
  relev_mem m m2 (fun l i => if decide (i < zlevel zsl)%nat then unlinked l i else None).
Proof using Hk HR.
  intros HN. destruct (for_levels_relev (zslDeleteNode_unlink (aloc A) (updates (zheader zsl) xs k N)) unlinked (zlevel zsl) 0 m) as (m2 & E & H2).
  { intros j m1 Hj. apply unlink_body. lia. }
  exists m2. split; [done|]. eapply relev_mem_ext; [|exact H2]. intros l i. cbv beta.
  destruct (decide (i < zlevel zsl)%nat); [by rewrite decide_True by lia | by rewrite decide_False by lia].
Qed.

Lemma unlinked_link p i : (p <= S (length ys))%nat -> p <> S k -> high (zlevel zsl) xs i p ->
  default (link i (drop p xs)) (if decide (i < zlevel zsl)%nat then unlinked (at_ p) i else None) =
  link i (drop (if (p <=? k)%nat then p else (p - 1)%nat) ys).
Proof using Hk HR.
  intros Hp Hne Hh. rewrite decide_True by (by eapply (high_level HR)). unfold unlinked.
  pose proof (ppos_le ys i k). pose proof (ins_length k A ys Hk) as Hlen.
  destruct (Nat.leb_spec p k).
  - rewrite (link_ins k A ys Hk (zlevel zsl)) by (done || by apply high_ins).
    destruct (decide (ppos ys i k = p)) as [He|Hn]; [by rewrite decide_True, He by congruence|].
    rewrite decide_False; [done|]. intros Heq. apply (locat_inj HR) in Heq; lia.
  - rewrite decide_False by (intros Heq; apply (locat_inj HR) in Heq; lia).
    destruct p as [|p]; [lia|]. cbn [from_option]. rewrite ins_drop_gt by lia. do 2 f_equal. lia.
Qed.

Context {m2 : zmem}.
Context (H2 : relev_mem m m2 (fun l i => if decide (i < zlevel zsl)%nat then unlinked l i else None)).

(** The index in [xs] of an element of [ys]. *)
Definition unshifted (p : nat) : nat := if (p <? k)%nat then p else S p.

Lemma lookup_unshifted p : xs !! unshifted p = ys !! p.
Proof using Hk.
  unfold unshifted. destruct (Nat.ltb_spec p k); [by apply ins_lookup_lt | by apply ins_lookup_gt].
Qed.

Lemma unlinked_node p b : ys !! p = Some b ->
  m2 !! aloc b = Some (mk_znode (Some (aele b)) (ascore b) (prevloc xs (unshifted p)) (links (aheight b) (drop (S p) ys))).
Proof using Hk HR H2.
  intros Hb. pose proof (lookup_lt_Some _ _ _ Hb) as Hp. rewrite (H2 (aloc b)).
  pose proof (lookup_unshifted p) as Hu. rewrite Hb in Hu. rewrite (rep_nodes _ _ _ HR _ _ Hu).
  cbn [fmap option_fmap option_map]. unfold relev, cell. cbn [ele score backward level]. do 2 f_equal.
  apply relinks. intros i Hi. rewrite <- (locat_at (zsl := zsl) _ b Hu). rewrite unlinked_link.
  - unfold unshifted. do 2 f_equal. destruct (Nat.ltb_spec p k).
    + destruct (Nat.leb_spec (S p) k); lia.
    + destruct (Nat.leb_spec (S (S p)) k); lia.
  - unfold unshifted. destruct (Nat.ltb_spec p k); lia.
  - unfold unshifted. destruct (Nat.ltb_spec p k); lia.
  - by exists b.
Qed.

Lemma unlinked_header : exists junk,
  m2 !! zheader zsl = Some (mk_znode None 0 None (links (zlevel zsl) ys ++ junk)) /\
  length junk = (ZSKIPLIST_MAXLEVEL - zlevel zsl)%nat /\ Forall (fun c => fst c = None) junk.
Proof using Hk HR H2.
  destruct (rep_header _ _ _ HR) as (junk & Hm & Hj & HF). exists junk. split; [|done].
  rewrite (H2 (zheader zsl)), Hm. cbn [fmap option_fmap option_map]. unfold relev. cbn [ele score backward level].
  do 2 f_equal. rewrite imap_app. f_equal.
  - apply relinks. intros i Hi. apply (unlinked_link 0 i); [lia|lia|exact Hi].
  - apply list_eq. intros i. rewrite list_lookup_imap, links_length. destruct (junk !! i); [|done].
    cbn. by rewrite decide_False by lia.
Qed.

Lemma unlinked_A : m2 !! aloc A = Some (cell xs k A).
Proof using Hk HR H2.
  rewrite (H2 (aloc A)), (rep_nodes _ _ _ HR k A) by (by apply ins_lookup_eq).
  cbn [fmap option_fmap option_map]. rewrite relev_none; [done|]. intros i _. case_decide; [|done].
  unfold unlinked. pose proof (ppos_le ys i k). pose proof (ins_length k A ys Hk) as Hlen.
  rewrite decide_False; [done|]. rewrite unlink_A. intros Heq. apply (locat_inj HR) in Heq; lia.
Qed.

Lemma unlink_back_spec : exists m3,
  zslDeleteNode_back m2 (cell xs k A) (ztail zsl) = Some (m3, last (aloc <$> ys)) /\ dom m3 = dom m2 /\
  (forall p b, ys !! p = Some b -> m3 !! aloc b = Some (cell ys p b)) /\
  m3 !! zheader zsl = m2 !! zheader zsl /\ m3 !! aloc A = m2 !! aloc A.
Proof using Hk HR H2.
  pose proof A_height as HA. pose proof unlink_fresh as HfA.
  assert (forall p b, p <> k -> ys !! p = Some b -> m2 !! aloc b = Some (cell ys p b)) as Ho.
  { intros p b Hp Hb. rewrite (unlinked_node p b Hb). unfold cell, unshifted. do 2 f_equal.
    destruct (Nat.ltb_spec p k); [by rewrite prevloc_ins_lt by lia|].
    destruct p as [|p]; [lia|]. by rewrite prevloc_ins by lia. }
  unfold zslDeleteNode_back. change (level (cell xs k A)) with (links (aheight A) (drop (S k) xs)). rewrite links_lookup, ins_drop_gt by lia. cbn [mbind option_bind].
  rewrite (rep_tail _ _ _ HR), last_ins. destruct (ys !! k) as [b|] eqn:Hb.
  - pose proof (lookup_lt_Some _ _ _ Hb). destruct (Nat.ltb_spec k (length ys)); [|lia].
    assert (1 <= aheight b)%nat.
    { pose proof (heights_pos HR) as HF. rewrite Forall_lookup in HF. apply (HF (S k)). by rewrite ins_lookup_gt. }
    rewrite (drop_S _ _ _ Hb), link_high by lia. unfold set_backward.
    rewrite (unlinked_node k b Hb). cbn [mbind option_bind ele score level cell backward].
    eexists. split; [done|]. split; [|split; [|split]].
    + rewrite dom_insert_lookup_L; [done|]. rewrite (unlinked_node k b Hb). by eexists.
    + intros p c Hc. destruct (decide (p = k)) as [->|Hp].
      * rewrite Hb in Hc. injection Hc as <-. rewrite lookup_insert_eq. unfold cell. by rewrite prevloc_ins_lt by lia.
      * rewrite lookup_insert_ne; [by apply Ho|]. intros He. pose proof (lookup_unshifted p) as Hx1. rewrite Hc in Hx1.
        pose proof (lookup_unshifted k) as Hx3. rewrite Hb in Hx3.
        rewrite <- (locat_at (zsl := zsl) _ _ Hx1), <- (locat_at (zsl := zsl) _ _ Hx3) in He.
        pose proof (lookup_lt_Some _ _ _ Hx1). pose proof (lookup_lt_Some _ _ _ Hx3).
        apply (locat_inj HR) in He; [|lia|lia]. revert He. unfold unshifted.
        destruct (Nat.ltb_spec p k), (Nat.ltb_spec k k); lia.
    + rewrite lookup_insert_ne; [done|]. apply (aloc_header HR (S k)). by rewrite ins_lookup_gt.
    + rewrite lookup_insert_ne; [done|]. intros He. apply HfA. rewrite <- He. apply elem_of_cons. right.
      apply list_elem_of_fmap. exists b. split; [done|]. by eapply list_elem_of_lookup_2.
  - apply lookup_ge_None in Hb. rewrite drop_ge by lia. cbn [link]. eexists. split; [|split; [done|split; [|done]]].
    + do 2 f_equal. cbn [cell backward]. rewrite prevloc_ins_lt by lia. rewrite last_prevloc. f_equal. lia.
    + intros p b Hp. apply Ho; [|done]. apply lookup_lt_Some in Hp. lia.
Qed.

Lemma zslDeleteNode_level_spec n : (1 <= n <= zlevel zsl)%nat -> Forall (fun a => aheight a <= n)%nat ys ->
  exists lv, zslDeleteNode_level m2 (zheader zsl) n = Some lv /\ (1 <= lv <= n)%nat /\
    Forall (fun a => aheight a <= lv)%nat ys.
Proof using Hk HR H2.
  destruct unlinked_header as (junk & Hm & _).
  induction n as [|[|n] IH]; intros Hn HF; [lia | exists 1%nat; cbn [zslDeleteNode_level]; auto with lia |].
  rewrite zslDeleteNode_level_S. unfold get_level. rewrite Hm. cbn [mbind option_bind level].
  rewrite lookup_app_l, links_lookup by (rewrite ?links_length; lia). cbn [mbind option_bind].
  destruct (link (S n) ys) as [[y|] s] eqn:El.
  - exists (S (S n)). split; [done|]. split; [lia|done].
  - destruct IH as (lv & E & Hlv & HF'); [lia| |].
    + apply (link_none_low (S n) ys). by rewrite El.
    + exists lv. split; [done|]. split; [lia|done].
Qed.
End Unlink.

(** [zslDeleteNode] removes the node after the cut point of the descent. *)
Lemma zslDeleteNode_spec m zsl ys A k N :
  (k <= length ys)%nat -> zsl_rep m zsl (ins k A ys) -> (zlevel zsl <= N)%nat ->
  exists m' zsl', zslDeleteNode m zsl (aloc A) (updates (zheader zsl) (ins k A ys) k N) = Some (m', zsl') /\
    zsl_rep m' zsl' ys /\ dom m' = dom m /\ m' !! aloc A = m !! aloc A /\ zheader zsl' = zheader zsl /\
    (zlevel zsl' <= zlevel zsl)%nat.
Proof.
  intros Hk HR HN. unfold zslDeleteNode. destruct (unlink_loop Hk HR N HN) as (m2 & E2 & H2). rewrite E2.
  cbn [mbind option_bind]. rewrite (unlinked_A Hk HR H2). cbn [mbind option_bind].
  destruct (unlink_back_spec Hk HR H2) as (m3 & -> & Hd & Hn & Hh & HA). cbn [mbind option_bind].
  assert (Forall (fun a => aheight a <= zlevel zsl)%nat ys) as HF.
  { pose proof (heights_le HR) as HF. unfold ins in HF. apply Forall_app in HF as [HF1 HF2].
    apply Forall_cons in HF2 as [_ HF2]. rewrite <- (take_drop k ys). by apply Forall_app. }
  pose proof (rep_level _ _ _ HR) as Hlev.
  destruct (zslDeleteNode_level_spec Hk HR H2 (zlevel zsl)) as (lv & El & Hlv & HFl); [lia|done|].
  assert (zslDeleteNode_level m3 (zheader zsl) (zlevel zsl) = Some lv) as ->.
  { by rewrite (zslDeleteNode_level_ext m3 m2) by done. }
  cbn [mbind option_bind]. eexists _, _. split; [done|]. cbn [zheader zlevel]. split.
  - destruct (unlinked_header Hk HR H2) as (junk & Hm & Hj & HFj). constructor; cbn [zheader zlevel zlength ztail].
    + exists (drop lv (links (zlevel zsl) ys) ++ junk). rewrite Hh, Hm, app_assoc. split; [|split].
      * do 3 f_equal. rewrite <- (take_drop lv (links (zlevel zsl) ys)) at 1. f_equal. apply links_take. lia.
      * rewrite length_app, length_drop, links_length. lia.
      * apply Forall_app. split; [|done]. by apply links_drop_none.
    + done.
    + by apply (unlink_nodup Hk HR).
    + pose proof (heights_pos HR) as HFp. unfold ins in HFp. apply Forall_app in HFp as [HF1 HF2].
      apply Forall_cons in HF2 as [_ HF2]. assert (Forall (fun a => 1 <= aheight a)%nat ys) as HFp.
      { rewrite <- (take_drop k ys). by apply Forall_app. }
      apply Forall_and. by split.
    + lia.
    + rewrite (rep_length _ _ _ HR), ins_length by done. lia.
    + done.
  - repeat split; [|rewrite HA, (unlinked_A Hk HR H2), (rep_nodes _ _ _ HR k A); [done|by apply ins_lookup_eq]|lia].
    rewrite Hd. by eapply relev_mem_dom.
Qed.

(** ** Ownership: the store holds the skip list and nothing else *)

Definition zsl_own (m : zmem) (zsl : zskiplist) (xs : list anode) : Prop :=
  zsl_rep m zsl xs /\ dom m = list_to_set (zheader zsl :: (aloc <$> xs)).

Lemma zslFreeNode_rep m zsl xs a : zsl_rep m zsl xs -> a ∉ zheader zsl :: (aloc <$> xs) -> zsl_rep (zslFreeNode m a) zsl xs.
Proof.
  intros HR Ha. unfold zslFreeNode. constructor; try apply HR.
  - destruct (rep_header _ _ _ HR) as (junk & Hm & Hj). exists junk. split; [|done].
    rewrite lookup_delete_ne; [done|]. intros ->. apply Ha, elem_of_cons. by left.
  - intros p b Hb. rewrite lookup_delete_ne; [by apply HR|]. intros ->. apply Ha, elem_of_cons. right.
    apply list_elem_of_fmap. exists b. split; [done|]. by eapply list_elem_of_lookup_2.
Qed.

(** Unlinking and freeing. *)
Lemma zslDeleteNode_own m zsl ys A k N :
  (k <= length ys)%nat -> zsl_own m zsl (ins k A ys) -> (zlevel zsl <= N)%nat ->
  exists m' zsl', zslDeleteNode m zsl (aloc A) (updates (zheader zsl) (ins k A ys) k N) = Some (m', zsl') /\
    zsl_rep m' zsl' ys /\ dom m' = dom m /\ m' !! aloc A = m !! aloc A /\
    zsl_own (zslFreeNode m' (aloc A)) zsl' ys /\ zheader zsl' = zheader zsl /\ (zlevel zsl' <= zlevel zsl)%nat.
Proof.
  intros Hk [HR Hd] HN. destruct (zslDeleteNode_spec m zsl ys A k N Hk HR HN) as (m' & zsl' & E & HR' & Hd' & HA & Hh & Hl).
  exists m', zsl'. split; [done|]. split; [done|]. split; [done|]. split; [done|]. split; [|done]. split.
  - apply zslFreeNode_rep; [done|]. rewrite Hh. by apply (unlink_fresh Hk HR).
  - unfold zslFreeNode. rewrite dom_delete_L, Hd', Hd, Hh. pose proof (unlink_fresh Hk HR) as Hf.
    apply set_eq. intros l. rewrite elem_of_difference, !elem_of_list_to_set, ins_perm, elem_of_singleton.
    rewrite (elem_of_cons (zheader zsl :: (aloc <$> ys)) l (aloc A)). split; [tauto|]. intros Hl'.
    split; [by right|]. by intros ->.
Qed.

Lemma updates_ins h k A ys N : (k <= length ys)%nat -> updates h (ins k A ys) k N = updates h ys k N.
Proof.
  intros Hk. unfold updates. apply list_fmap_ext. intros i j _. pose proof (ppos_le ys j k).
  by rewrite ppos_ins, locat_ins by lia.
Qed.

Lemma zsl_next_spec m zsl xs k N : zsl_rep m zsl xs -> (k <= length xs)%nat -> (zlevel zsl <= N)%nat ->
  zsl_next m (updates (zheader zsl) xs k N) = Some (aloc <$> xs !! k).
Proof.
  intros HR Hk HN. unfold zsl_next. pose proof (rep_level _ _ _ HR). rewrite updates_lookup by lia. cbn [mbind option_bind].
  rewrite (ppos_all xs k) by (done || apply (heights_pos HR)).
  assert (high (zlevel zsl) xs 0 k) as Hh.
  { rewrite <- (ppos_all xs k (heights_pos HR) Hk). apply ppos_high. lia. }
  rewrite (level_at HR) by done. cbn [mbind option_bind]. destruct (xs !! k) as [b|] eqn:Hb.
  - rewrite (drop_S _ _ _ Hb), link_high; [done|]. pose proof (heights_pos HR) as HF. rewrite Forall_lookup in HF.
    specialize (HF k b Hb). cbn in HF. lia.
  - rewrite drop_ge; [done|]. by apply lookup_ge_None.
Qed.

(** The loop of the range deletions, from the first node after [L]. *)
Lemma zslDeleteRange_loop_spec cond L R N : forall S fuel m zsl t,
  zsl_own m zsl (L ++ S ++ R) -> (zlevel zsl <= N)%nat -> (length S < fuel)%nat ->
  (forall j a c, (S ++ R) !! j = Some a -> ele c = Some (aele a) -> score c = ascore a ->
     (j <= length S)%nat -> cond (t + Z.of_nat j) c = Some (bool_decide (j < length S)%nat)) ->
  exists m' zsl',
    zslDeleteRange_loop fuel m zsl cond (updates (zheader zsl) (L ++ S ++ R) (length L) N) t
      (aloc <$> (S ++ R) !! 0%nat) = Some (m', zsl', aele <$> S) /\
    zsl_own m' zsl' (L ++ R).
Proof.
  induction S as [|A S IH]; intros fuel m zsl t HO HN Hf Hc.
  - cbn [app] in *. destruct R as [|b R]; destruct fuel as [|fuel]; try (cbn in Hf; lia).
    + exists m, zsl. by rewrite app_nil_r in *.
    + cbn [lookup list_lookup fmap option_fmap option_map zslDeleteRange_loop].
      rewrite (rep_nodes _ _ _ (proj1 HO) (length L) b) by (by apply list_lookup_middle).
      cbn [mbind option_bind]. specialize (Hc 0%nat b (cell (L ++ b :: R) (length L) b) eq_refl eq_refl eq_refl).
      rewrite Z.add_0_r in Hc. rewrite Hc by (cbn; lia). exists m, zsl. done.
  - assert (L ++ (A :: S) ++ R = ins (length L) A (L ++ S ++ R)) as Hins.
    { unfold ins. by rewrite take_app_length, drop_app_length. }
    destruct fuel as [|fuel]; [cbn in Hf; lia|].
    cbn [app lookup list_lookup fmap option_fmap option_map zslDeleteRange_loop list_fmap].
    assert (m !! aloc A = Some (cell (L ++ A :: S ++ R) (length L) A)) as HA.
    { apply (rep_nodes _ _ _ (proj1 HO)). by apply list_lookup_middle. }
    rewrite HA. cbn [mbind option_bind].
    pose proof (Hc 0%nat A (cell (L ++ A :: S ++ R) (length L) A) eq_refl eq_refl eq_refl) as Hc0.
    rewrite Z.add_0_r in Hc0. rewrite Hc0 by (cbn; lia). cbn [mbind option_bind length].
    rewrite bool_decide_true by lia. cbn [cell level ele].
    change (L ++ A :: S ++ R) with (L ++ (A :: S) ++ R). rewrite Hins in *.
    assert (length L <= length (L ++ S ++ R))%nat as HkL by (rewrite length_app; lia).
    pose proof (A_height HkL (proj1 HO)) as HAh.
    rewrite links_lookup, ins_drop_gt by lia. cbn [mbind option_bind].
    destruct (zslDeleteNode_own m zsl _ A (length L) N HkL HO HN) as (m1 & zsl1 & -> & HR1 & _ & _ & HO1 & Hh1 & Hl1).
    cbn [mbind option_bind]. rewrite updates_ins by done. rewrite <- Hh1.
    destruct (IH fuel (zslFreeNode m1 (aloc A)) zsl1 (t + 1) HO1) as (m2 & zsl2 & E2 & HO2); [lia|cbn in Hf; lia| |].
    { intros j a c Ha He Hs Hj. replace (t + 1 + Z.of_nat j) with (t + Z.of_nat (Datatypes.S j)) by lia.
      rewrite (Hc (Datatypes.S j) a c Ha He Hs ltac:(cbn; lia)). cbn [length]. f_equal.
      apply bool_decide_ext. lia. }
    pose proof (zsl_next_spec _ _ _ (length L) (zlevel zsl1) HR1 HkL ltac:(done)) as Hnx.
    assert (fst (link 0 (drop (length L) (L ++ S ++ R))) = aloc <$> (S ++ R) !! 0%nat) as Hlk.
    { rewrite drop_app_length. destruct (S ++ R) as [|b l] eqn:E; [done|]. rewrite link_high; [done|].
      pose proof (heights_pos HR1) as HF. apply Forall_app in HF as [_ HF]. by inversion HF. }
    destruct (link 0 (drop (length L) (L ++ S ++ R))) as [f sp]. cbn [fst] in Hlk. subst f.
    rewrite E2. cbn [mbind option_bind]. exists m2, zsl2. done.
Qed.
