(* ===== verification/ZskiplistSpec.v ===== *)
(** * ZskiplistSpec: the skip list implements a sorted list of (score, element) pairs

    The order of the sorted set, on non-NaN scores; the specification of every
    operation as a function on the strictly sorted list of the pairs, written
    with filters; and the proof that a run of skip list operations, from
    [zslCreate] on, returns what the specification returns and leaves a store
    that holds the skip list of the specified pairs and nothing else. *)

From Stdlib Require Import ZArith Lia ZifyBool Sorted.
From stdpp Require Import base gmap numbers option list.
From S2P Require Import Prelude SdsCmp Zskiplist ZskiplistProof ZskiplistDelete.

Local Open Scope Z_scope.

(** ** The order of pairs *)

Notation zpair := (Z * list Z)%type.

Definition zlt (p q : zpair) : bool := dlt (fst p) (fst q) || (deq (fst p) (fst q) && (sdscmp (snd p) (snd q) <? 0)).
Definition zeq (p q : zpair) : bool := deq (fst p) (fst q) && (sdscmp (snd p) (snd q) =? 0).
Definition num (p : zpair) : Prop := isnan (fst p) = false.

Lemma dlt_key x y : isnan x = false -> isnan y = false -> dlt x y = (dkey x <? dkey y).
Proof. intros Hx Hy. unfold dlt. by rewrite Hx, Hy. Qed.
Lemma dle_key x y : isnan x = false -> isnan y = false -> dle x y = (dkey x <=? dkey y).
Proof. intros Hx Hy. unfold dle. by rewrite Hx, Hy. Qed.
Lemma deq_key x y : isnan x = false -> isnan y = false -> deq x y = (dkey x =? dkey y).
Proof. intros Hx Hy. unfold deq. by rewrite Hx, Hy. Qed.

Lemma zlt_key p q : num p -> num q ->
  zlt p q = (dkey (fst p) <? dkey (fst q)) || ((dkey (fst p) =? dkey (fst q)) && (sdscmp (snd p) (snd q) <? 0)).
Proof. intros Hp Hq. unfold zlt. by rewrite dlt_key, deq_key. Qed.
Lemma zeq_key p q : num p -> num q ->
  zeq p q = (dkey (fst p) =? dkey (fst q)) && (sdscmp (snd p) (snd q) =? 0).
Proof. intros Hp Hq. unfold zeq. by rewrite deq_key. Qed.

Lemma zlt_trans p q r : num p -> num q -> num r -> zlt p q = true -> zlt q r = true -> zlt p r = true.
Proof.
  intros Hp Hq Hr. rewrite !zlt_key by done. pose proof (sdscmp_trans (snd p) (snd q) (snd r)). lia.
Qed.

Lemma zlt_irrefl p : num p -> zlt p p = false.
Proof. intros Hp. rewrite zlt_key, sdscmp_refl by done. lia. Qed.

Lemma zlt_asym p q : num p -> num q -> zlt p q = true -> zlt q p = false.
Proof. intros Hp Hq. rewrite !zlt_key by done. pose proof (sdscmp_opp (snd p) (snd q)). lia. Qed.

Lemma zlt_total p q : num p -> num q -> zlt p q = false -> zeq p q = false -> zlt q p = true.
Proof. intros Hp Hq. rewrite !zlt_key, zeq_key by done. pose proof (sdscmp_opp (snd p) (snd q)). lia. Qed.

Lemma zeq_zlt p q r : num p -> num q -> num r -> zlt p q = true -> zeq q r = true -> zlt p r = true.
Proof.
  intros Hp Hq Hr. rewrite !zlt_key, zeq_key by done. intros H1 H2.
  assert (snd q = snd r) as He by (apply sdscmp_eq0; lia). rewrite He in H1. lia.
Qed.

Lemma zlt_zeq p q : num p -> num q -> zlt p q = true -> zeq p q = false.
Proof. intros Hp Hq. rewrite zlt_key, zeq_key by done. lia. Qed.

Lemma zeq_refl p : num p -> zeq p p = true.
Proof. intros Hp. rewrite zeq_key, sdscmp_refl by done. lia. Qed.

(** ** Sorted lists *)

Definition zsorted (l : list zpair) : Prop := StronglySorted (fun p q => zlt p q = true) l /\ Forall num l.

Notation pick P l := (filter (fun p => P p = true) l).
Notation drop_if P l := (filter (fun p => P p = false) l).

(** A predicate that holds of everything before what it holds of cuts a sorted list. *)
Definition closed (P : zpair -> bool) (l : list zpair) : Prop :=
  forall p q, p ∈ l -> q ∈ l -> zlt p q = true -> P q = true -> P p = true.

Lemma sorted_cut P l : zsorted l -> closed P l ->
  pick P l = take (length (pick P l)) l /\ drop_if P l = drop (length (pick P l)) l /\
  (length (pick P l) <= length l)%nat /\
  forall j p, l !! j = Some p -> P p = bool_decide (j < length (pick P l))%nat.
Proof.
  induction l as [|p l IH]; intros [Hs Hn] HP; [by repeat split|].
  inversion Hs as [|? ? Hs' Hp]; subst. inversion Hn as [|? ? Hn1 Hn']; subst.
  assert (closed P l) as HP'.
  { intros a b Ha Hb. apply HP; apply elem_of_cons; by right. }
  destruct (IH (conj Hs' Hn') HP') as (H1 & H2 & H3 & H4).
  rewrite !filter_cons. destruct (P p) eqn:Ep.
  - rewrite decide_True, decide_False by done. cbn [length take drop]. split; [by f_equal|]. split; [done|].
    split; [cbn; lia|]. intros [|j] q Hq.
    + injection Hq as <-. rewrite Ep. by rewrite bool_decide_true by lia.
    + rewrite (H4 j q Hq). apply bool_decide_ext. lia.
  - rewrite decide_False, decide_True by done.
    assert (forall q, q ∈ l -> P q = false) as Hall.
    { intros q Hq. destruct (P q) eqn:Eq; [|done]. rewrite Forall_forall in Hp.
      rewrite (HP p q) in Ep; [done|by left|by right|by apply Hp|done]. }
    assert (pick P l = []) as H0.
    { destruct (pick P l) as [|q r] eqn:E; [done|].
      assert (q ∈ pick P l) as Hq by (rewrite E; by left). apply list_elem_of_filter in Hq as [Hq1 Hq2].
      rewrite Hall in Hq1; done. }
    rewrite H0 in *. cbn [length take drop] in *. split; [done|]. split; [by rewrite H2, drop_0|]. split; [lia|].
    intros [|j] q Hq; [injection Hq as <-; done|]. rewrite Hall; [done|]. by eapply list_elem_of_lookup_2.
Qed.

Lemma zsorted_lookup l i j p q : zsorted l -> (i < j)%nat -> l !! i = Some p -> l !! j = Some q -> zlt p q = true.
Proof.
  intros [Hs _]. revert i j. induction Hs as [|a l Hs IH Ha]; intros i j Hij Hi Hj; [done|].
  destruct i as [|i], j as [|j]; try lia.
  - injection Hi as <-. rewrite Forall_forall in Ha. apply Ha. by eapply list_elem_of_lookup_2.
  - apply (IH i j); [lia|done|done].
Qed.

Lemma zsorted_num l p : zsorted l -> p ∈ l -> num p.
Proof. intros [_ Hn] Hp. rewrite Forall_forall in Hn. by apply Hn. Qed.

Lemma zsorted_app l r : zsorted l -> zsorted r -> (forall p q, p ∈ l -> q ∈ r -> zlt p q = true) -> zsorted (l ++ r).
Proof.
  intros [Hs Hn] [Hs' Hn'] H. split; [|by apply Forall_app]. clear Hn. induction Hs as [|a l Hs IH Ha]; cbn [app]; [done|].
  constructor; [apply IH; intros; apply H; [by right|done]|]. apply Forall_app. split; [done|].
  apply Forall_forall. intros q Hq. apply H; [by left|done].
Qed.

Lemma Forall_filter_of {A} (P Q : A -> Prop) `{forall p, Decision (P p)} l : Forall Q l -> Forall Q (filter P l).
Proof. rewrite !Forall_forall. intros HQ x [_ Hx]%list_elem_of_filter. by apply HQ. Qed.

Lemma zsorted_filter (P : zpair -> Prop) `{forall p, Decision (P p)} l : zsorted l -> zsorted (filter P l).
Proof.
  intros [Hs Hn]. split; [|by apply Forall_filter_of]. clear Hn. induction Hs as [|a l Hs IH Ha]; [constructor|].
  rewrite filter_cons. case_decide; [|done]. constructor; [done|]. by apply Forall_filter_of.
Qed.

Lemma closed_lt l p : zsorted l -> num p -> closed (fun q => zlt q p) l.
Proof.
  intros Hl Hp a b Ha Hb Hab Hbp. eapply zlt_trans; [| | |exact Hab|exact Hbp]; try done; by eapply zsorted_num.
Qed.

Lemma filter_all {A} (P : A -> Prop) `{forall p, Decision (P p)} l : Forall P l -> filter P l = l.
Proof. induction 1 as [|x l Hx Hl IH]; [done|]. rewrite filter_cons, decide_True by done. by f_equal. Qed.

Lemma filter_none {A} (P : A -> Prop) `{forall p, Decision (P p)} l : Forall (fun x => ~ P x) l -> filter P l = [].
Proof. induction 1 as [|x l Hx Hl IH]; [done|]. by rewrite filter_cons, decide_False by done. Qed.

Lemma seg_split {A} (l : list A) a b : l = take a l ++ drop a (take b l) ++ drop (Nat.max a b) l.
Proof.
  destruct (decide (a <= b)%nat).
  - rewrite <- (take_drop a l) at 1. f_equal. rewrite Nat.max_r by done. rewrite skipn_firstn_comm.
    rewrite <- (take_drop (b - a) (drop a l)) at 1. f_equal. rewrite drop_drop. f_equal. lia.
  - rewrite Nat.max_l by lia. rewrite (drop_ge (take b l)) by (rewrite length_take; lia). cbn [app]. by rewrite take_drop.
Qed.

(** The elements with index in [a, b). *)
Lemma pick_segment P (l : list zpair) a b :
  (forall j p, l !! j = Some p -> P p = bool_decide (a <= j < b)%nat) ->
  pick P l = drop a (take b l) /\ drop_if P l = take a l ++ drop (Nat.max a b) l.
Proof.
  intros H. pose proof (seg_split l a b) as Hl.
  assert (Forall (fun p => P p = false) (take a l)) as H1.
  { apply Forall_lookup. intros j p [Hp Hj]%lookup_take_Some. rewrite (H j p Hp). apply bool_decide_false. lia. }
  assert (Forall (fun p => P p = true) (drop a (take b l))) as H2.
  { apply Forall_lookup. intros j p Hp. rewrite lookup_drop in Hp. apply lookup_take_Some in Hp as [Hp Hj].
    rewrite (H _ p Hp). apply bool_decide_true. lia. }
  assert (Forall (fun p => P p = false) (drop (Nat.max a b) l)) as H3.
  { apply Forall_lookup. intros j p Hp. rewrite lookup_drop in Hp. rewrite (H _ p Hp). apply bool_decide_false. lia. }
  split; rewrite Hl at 1; rewrite !filter_app.
  - rewrite (filter_none _ (take a l)), (filter_all _ (drop a _)), (filter_none _ (drop (Nat.max a b) l)), app_nil_r; [done| |done|].
    + eapply Forall_impl; [exact H3|]. cbn. intros. congruence.
    + eapply Forall_impl; [exact H1|]. cbn. intros. congruence.
  - rewrite (filter_all _ (take a l)), (filter_none _ (drop a _)), (filter_all _ (drop (Nat.max a b) l)); [done|done| |done].
    eapply Forall_impl; [exact H2|]. cbn. intros. congruence.
Qed.

(** ** The specification *)

Definition zins (p : zpair) (l : list zpair) : list zpair :=
  pick (fun q => zlt q p) l ++ p :: drop_if (fun q => zlt q p) l.
Definition zdel (p : zpair) (l : list zpair) : list zpair := drop_if (fun q => zeq q p) l.
Definition zmem_in (p : zpair) (l : list zpair) : bool := existsb (fun q => zeq q p) l.

Lemma zmem_in_spec p l : zmem_in p l = false <-> Forall (fun q => zeq q p = false) l.
Proof.
  unfold zmem_in. induction l as [|q l IH]; cbn [existsb]; [split; [constructor|done]|].
  rewrite Forall_cons, <- IH. destruct (zeq q p), (existsb _ l); cbn; naive_solver.
Qed.

Lemma zins_cut p l : zsorted l -> num p ->
  zins p l = take (length (pick (fun q => zlt q p) l)) l ++ p :: drop (length (pick (fun q => zlt q p) l)) l.
Proof.
  intros Hl Hp. destruct (sorted_cut (fun q => zlt q p) l Hl (closed_lt l p Hl Hp)) as (H1 & H2 & _).
  unfold zins. by rewrite H1 at 1; rewrite H2 at 1.
Qed.

Lemma zins_sorted p l : zsorted l -> num p -> zmem_in p l = false -> zsorted (zins p l).
Proof.
  intros Hl Hp Hm. apply zmem_in_spec in Hm. unfold zins.
  assert (forall q, q ∈ drop_if (fun q => zlt q p) l -> zlt p q = true) as Hgt.
  { intros q [Hq1 Hq2]%list_elem_of_filter. rewrite Forall_forall in Hm.
    apply zlt_total; [by eapply zsorted_num|done|done|by apply Hm]. }
  apply zsorted_app; [by apply zsorted_filter| |].
  - apply (zsorted_app [p]); [|by apply zsorted_filter|].
    + split; [repeat constructor|by constructor].
    + intros ? q ->%list_elem_of_singleton. apply Hgt.
  - intros q r [Hq1 Hq2]%list_elem_of_filter Hr. apply elem_of_cons in Hr as [->|Hr]; [done|].
    eapply zlt_trans; [| | |exact Hq1|by apply Hgt]; try done; [by eapply zsorted_num|].
    apply list_elem_of_filter in Hr as [_ Hr]. by eapply zsorted_num.
Qed.

(** Where the deletion looks. *)
Lemma zdel_cut p l : zsorted l -> num p ->
  let k := length (pick (fun q => zlt q p) l) in
  match l !! k with
  | Some q =>
    if zeq q p then zdel p l = take k l ++ drop (S k) l /\ zmem_in p l = true
    else zdel p l = l /\ zmem_in p l = false
  | None => zdel p l = l /\ zmem_in p l = false
  end.
Proof.
  intros Hl Hp k. destruct (sorted_cut (fun q => zlt q p) l Hl (closed_lt l p Hl Hp)) as (_ & _ & Hk & H4). fold k in Hk, H4.
  assert (forall j r, l !! j = Some r -> (j < k)%nat -> zeq r p = false) as Hlo.
  { intros j r Hr Hj. specialize (H4 j r Hr). rewrite bool_decide_true in H4 by done.
    apply zlt_zeq; [by eapply zsorted_num, list_elem_of_lookup_2|done|done]. }
  assert (forall j r, l !! j = Some r -> (k < j)%nat -> zeq r p = false) as Hhi.
  { intros j r Hr Hj. destruct (zeq r p) eqn:E; [|done].
    destruct (lookup_lt_is_Some_2 l k) as [q Hq]; [apply lookup_lt_Some in Hr; lia|].
    pose proof (H4 k q Hq) as Hqp. rewrite bool_decide_false in Hqp by lia.
    rewrite (zeq_zlt q r p) in Hqp; [done| | | |by eapply zsorted_lookup|done]; try done; by eapply zsorted_num, list_elem_of_lookup_2. }
  assert (forall q, l !! k = Some q -> zeq q p = false -> zdel p l = l /\ zmem_in p l = false) as Hmiss.
  { intros q Hq E. assert (Forall (fun q => zeq q p = false) l) as HF.
    { apply Forall_lookup. intros j r Hr. destruct (Nat.lt_trichotomy j k) as [?|[->|?]]; [by eapply Hlo| |by eapply Hhi]. congruence. }
    split; [by apply filter_all | by apply zmem_in_spec]. }
  destruct (l !! k) as [q|] eqn:Hq.
  - destruct (zeq q p) eqn:E; [|by apply (Hmiss q)]. split.
    + unfold zdel. destruct (pick_segment (fun q => zeq q p) l k (S k)) as [_ Hd].
      * intros j r Hr. destruct (Nat.lt_trichotomy j k) as [?|[->|?]].
        -- rewrite (Hlo j r) by done. by rewrite bool_decide_false by lia.
        -- rewrite bool_decide_true by lia. congruence.
        -- rewrite (Hhi j r) by done. by rewrite bool_decide_false by lia.
      * rewrite Hd. do 2 f_equal. lia.
    + destruct (zmem_in p l) eqn:Em; [done|]. apply zmem_in_spec in Em. rewrite Forall_lookup in Em.
      specialize (Em k q Hq). cbn in Em. congruence.
  - assert (Forall (fun q => zeq q p = false) l) as HF.
    { apply Forall_lookup. intros j r Hr. apply lookup_ge_None in Hq. pose proof (lookup_lt_Some _ _ _ Hr).
      apply (Hlo j r Hr). lia. }
    split; [by apply filter_all | by apply zmem_in_spec].
Qed.

(** ** The pairs of a skip list *)

Definition apair (a : anode) : zpair := (ascore a, aele a).
Definition view (xs : list anode) : list zpair := apair <$> xs.

Lemma view_ins k A xs : view (ins k A xs) = take k (view xs) ++ apair A :: drop k (view xs).
Proof. unfold view, ins. by rewrite fmap_app, fmap_cons, fmap_take, fmap_drop. Qed.

Lemma view_lookup xs k : view xs !! k = apair <$> xs !! k.
Proof. apply list_lookup_fmap. Qed.

Lemma ins_remove (xs : list anode) k A : xs !! k = Some A ->
  xs = ins k A (take k xs ++ drop (S k) xs) /\ (k <= length (take k xs ++ drop (S k) xs))%nat.
Proof.
  intros HA. pose proof (lookup_lt_Some _ _ _ HA) as Hk. assert (length (take k xs) = k) as Hlen by (rewrite length_take; lia).
  split; [|rewrite length_app; lia]. unfold ins.
  rewrite take_app_length' by done. rewrite drop_app_length' by done. symmetry. by apply take_drop_middle.
Qed.

(** A condition that reads only the pair of a node. *)
Definition reads (cond : Z -> zskiplistNode -> option bool) (P : zpair -> bool) : Prop :=
  forall t n e, ele n = Some e -> cond t n = Some (P (score n, e)).

Lemma cuts_view m zsl xs cond P : zsl_rep m zsl xs -> zsorted (view xs) -> closed P (view xs) -> reads cond P ->
  cuts m cond xs (length (pick P (view xs))).
Proof.
  intros HR Hs HP Hc. destruct (sorted_cut P (view xs) Hs HP) as (_ & _ & Hk & H4).
  split; [unfold view in Hk at 2; by rewrite length_fmap in Hk|].
  intros j a n Ha Hn. rewrite (rep_nodes _ _ _ HR j a Ha) in Hn. injection Hn as <-.
  rewrite (Hc _ _ (aele a)) by done. f_equal. apply H4. by rewrite view_lookup, Ha.
Qed.

Lemma reads_before d e : reads (node_before d e) (fun q => zlt q (d, e)).
Proof.
  intros t n s Hs. unfold node_before, zlt. cbn [fst snd]. destruct (dlt (score n) d); [done|].
  destruct (deq (score n) d); [|done]. by rewrite Hs.
Qed.

Lemma deq_sym x y : deq x y = deq y x.
Proof. unfold deq. rewrite Z.eqb_sym. by destruct (isnan x), (isnan y). Qed.

Lemma node_is_spec d e n s : ele n = Some s -> node_is d e n = Some (zeq (score n, s) (d, e)).
Proof. intros Hs. unfold node_is, zeq. cbn [fst snd]. rewrite deq_sym. destruct (deq _ _); [|done]. by rewrite Hs. Qed.

Lemma zslInsert_own jl jb m zsl xs a rs d e lv rs' :
  zsl_own m zsl xs -> zsorted (view xs) -> num (d, e) -> m !! a = None -> zslRandomLevel rs = Some (lv, rs') ->
  exists m' zsl' xs', zslInsert jl jb m zsl a rs d e = Some (m', zsl', rs') /\
    zsl_own m' zsl' xs' /\ view xs' = zins (d, e) (view xs).
Proof.
  intros [HR Hd] Hs Hp Ha Hrs.
  pose proof (cuts_view m zsl xs _ _ HR Hs (closed_lt _ _ Hs Hp) (reads_before d e)) as Hcut.
  destruct (zslInsert_at jl jb m zsl xs a rs d e _ lv rs' HR Hcut Hp Ha Hrs) as (m' & zsl' & E & HR' & Hd' & Hh).
  eexists m', zsl', _. split; [done|]. split; [split; [exact HR'|]|].
  - rewrite Hd', Hd, Hh. apply set_eq. intros l.
    rewrite elem_of_union, elem_of_singleton, !elem_of_list_to_set, ins_perm.
    by rewrite (elem_of_cons (zheader zsl :: (aloc <$> xs)) l).
  - rewrite view_ins, zins_cut by done. done.
Qed.

(** The search for an existing pair. *)
Lemma zsl_find m zsl xs d e : zsl_rep m zsl xs -> zsorted (view xs) -> num (d, e) ->
  let k := length (pick (fun q => zlt q (d, e)) (view xs)) in
  (k <= length xs)%nat /\
  zsl_search m zsl (node_before d e) = Some (updates (zheader zsl) xs k (zlevel zsl)) /\
  zsl_next m (updates (zheader zsl) xs k (zlevel zsl)) = Some (aloc <$> xs !! k).
Proof.
  intros HR Hs Hp k.
  pose proof (cuts_view m zsl xs _ _ HR Hs (closed_lt _ _ Hs Hp) (reads_before d e)) as Hcut.
  split; [exact (proj1 Hcut)|]. split; [by apply zsl_search_spec|]. apply zsl_next_spec; [done|exact (proj1 Hcut)|done].
Qed.

Lemma zslDelete_own m zsl xs d e :
  zsl_own m zsl xs -> zsorted (view xs) -> num (d, e) ->
  exists m' zsl' xs', zslDelete m zsl d e false = Some (m', zsl', None, zmem_in (d, e) (view xs)) /\
    zsl_own m' zsl' xs' /\ view xs' = zdel (d, e) (view xs).
Proof.
  intros HO Hs Hp. pose proof (proj1 HO) as HR. destruct (zsl_find m zsl xs d e HR Hs Hp) as (Hk & E1 & E2).
  pose proof (zdel_cut (d, e) (view xs) Hs Hp) as Hd. cbv zeta in Hd.
  set (k := length (pick (fun q => zlt q (d, e)) (view xs))) in *. rewrite view_lookup in Hd.
  unfold zslDelete. rewrite E1. cbn [mbind option_bind]. rewrite E2. cbn [mbind option_bind].
  destruct (xs !! k) as [A|] eqn:HA; cbn [fmap option_fmap option_map] in *.
  - rewrite (rep_nodes _ _ _ HR k A HA). cbn [mbind option_bind].
    rewrite (node_is_spec d e _ (aele A)) by done. change (score (cell xs k A), aele A) with (apair A).
    cbn [mbind option_bind]. destruct (zeq (apair A) (d, e)).
    + destruct (ins_remove xs k A HA) as [Hx Hk']. rewrite Hx in HO.
      destruct (zslDeleteNode_own m zsl _ A k (zlevel zsl) Hk' HO ltac:(done)) as (m' & zsl' & E & _ & _ & _ & HO' & _).
      rewrite <- Hx in E. rewrite E. cbn [mbind option_bind]. eexists _, _, _. rewrite (proj2 Hd). split; [done|]. split; [exact HO'|].
      rewrite (proj1 Hd). unfold view. by rewrite fmap_app, fmap_take, fmap_drop.
    + exists m, zsl, xs. by rewrite (proj1 Hd), (proj2 Hd).
  - exists m, zsl, xs. by rewrite (proj1 Hd), (proj2 Hd).
Qed.

(** ** Updating a score *)

Lemma link_shape i R R' : (fun a => (aloc a, aheight a)) <$> R = (fun a => (aloc a, aheight a)) <$> R' -> link i R = link i R'.
Proof.
  revert R'. induction R as [|a R IH]; intros [|a' R'] H; try done. injection H as H1 H2 H3.
  cbn [link]. by rewrite H1, H2, (IH R' H3).
Qed.

Lemma rescore_own m zsl xs k A d : zsl_own m zsl xs -> xs !! k = Some A ->
  exists m', set_score m (aloc A) d = Some m' /\
    zsl_own m' zsl (<[k := mk_anode (aloc A) d (aele A) (aheight A)]> xs).
Proof.
  intros [HR Hd] HA. set (A' := mk_anode (aloc A) d (aele A) (aheight A)).
  unfold set_score. rewrite (rep_nodes _ _ _ HR k A HA). cbn [mbind option_bind]. eexists. split; [done|].
  assert ((fun a => (aloc a, aheight a)) <$> <[k := A']> xs = (fun a => (aloc a, aheight a)) <$> xs) as Hshape.
  { rewrite list_fmap_insert. apply list_insert_id. by rewrite list_lookup_fmap, HA. }
  assert (aloc <$> <[k := A']> xs = aloc <$> xs) as Hloc.
  { rewrite list_fmap_insert. apply list_insert_id. by rewrite list_lookup_fmap, HA. }
  assert (forall i p, link i (drop p (<[k := A']> xs)) = link i (drop p xs)) as Hlink.
  { intros i p. apply link_shape. by rewrite !fmap_drop, Hshape. }
  assert (forall h p, links h (drop p (<[k := A']> xs)) = links h (drop p xs)) as Hlinks.
  { intros h p. unfold links. apply list_fmap_ext. intros. apply Hlink. }
  assert (forall p, prevloc (<[k := A']> xs) p = prevloc xs p) as Hprev.
  { intros [|p]; [done|]. cbn [prevloc]. by rewrite <- !list_lookup_fmap, Hloc. }
  split.
  - constructor; try apply HR.
    + destruct (rep_header _ _ _ HR) as (junk & Hm & Hj). exists junk. split; [|done].
      rewrite lookup_insert_ne by (by eapply aloc_header). rewrite Hm. do 3 f_equal.
      pose proof (Hlinks (zlevel zsl) 0%nat) as H0. by rewrite !drop_0 in H0.
    + intros p a Ha. unfold cell. rewrite Hlinks, Hprev. destruct (decide (p = k)) as [->|Hp].
      * rewrite list_lookup_insert_eq in Ha by (by eapply lookup_lt_Some). injection Ha as <-.
        cbn [aloc aele ascore aheight A']. by rewrite lookup_insert_eq.
      * rewrite list_lookup_insert_ne in Ha by done. rewrite lookup_insert_ne; [by apply HR|].
        intros He. rewrite <- (locat_at (zsl := zsl) k A HA), <- (locat_at (zsl := zsl) p a Ha) in He.
        apply (locat_inj HR) in He; [lia| |]; [apply lookup_lt_Some in HA|apply lookup_lt_Some in Ha]; lia.
    + rewrite Hloc. apply HR.
    + apply Forall_insert; [apply HR|]. pose proof (rep_heights _ _ _ HR) as HF. rewrite Forall_lookup in HF. apply (HF k A HA).
    + rewrite length_insert. apply HR.
    + rewrite Hloc. apply HR.
  - rewrite dom_insert_lookup_L, Hloc; [done|]. rewrite (rep_nodes _ _ _ HR k A HA). by eexists.
Qed.

Lemma zins_at p l k : (forall j q, l !! j = Some q -> zlt q p = bool_decide (j < k)%nat) ->
  zins p l = take k l ++ p :: drop k l.
Proof.
  intros H. unfold zins. destruct (pick_segment (fun q => zlt q p) l 0 k) as [H1 H2].
  - intros j q Hq. rewrite (H j q Hq). apply bool_decide_ext. lia.
  - by rewrite H1, H2, drop_0.
Qed.

Lemma zlt_score p q : num p -> num q -> zlt p q = true -> dkey (fst p) <= dkey (fst q).
Proof. intros Hp Hq. rewrite zlt_key by done. lia. Qed.

(** The scores around index [k] bound those before and after it. *)
Lemma rescore_between l k cur d e : zsorted l -> num (d, e) -> l !! k = Some cur ->
  (forall q, l !! (k - 1)%nat = Some q -> (0 < k)%nat -> dlt (fst q) d = true) ->
  (forall q, l !! S k = Some q -> dlt d (fst q) = true) ->
  zins (d, e) (take k l ++ drop (S k) l) = take k l ++ (d, e) :: drop (S k) l.
Proof.
  intros Hl Hp Hk Hlo Hhi. pose proof (lookup_lt_Some _ _ _ Hk) as Hkl.
  assert (forall j q, l !! j = Some q -> num q) as Hn by (intros j q Hq; by eapply zsorted_num, list_elem_of_lookup_2).
  assert (length (take k l) = k) as Hlen by (rewrite length_take; lia).
  rewrite (zins_at _ _ k).
  - by rewrite take_app_length', drop_app_length' by done.
  - intros j q Hq. destruct (decide (j < k)%nat) as [Hj|Hj].
    + rewrite bool_decide_true by done. rewrite lookup_app_l, lookup_take_lt in Hq by lia.
      destruct (lookup_lt_is_Some_2 l (k - 1)) as [r Hr]; [lia|]. specialize (Hlo r Hr ltac:(lia)).
      rewrite dlt_key in Hlo by (exact Hp || by eapply (Hn _ r)).
      assert (dkey (fst q) <= dkey (fst r)).
      { destruct (decide (j = k - 1)%nat) as [->|]; [replace q with r by congruence; lia|].
        apply zlt_score; [by eapply Hn|by eapply Hn|]. eapply zsorted_lookup; [done| |done|done]. lia. }
      rewrite zlt_key by (done || by eapply Hn). cbn [fst]. lia.
    + rewrite bool_decide_false by done. rewrite lookup_app_r, lookup_drop, Hlen in Hq by lia.
      pose proof (lookup_lt_Some _ _ _ Hq).
      destruct (lookup_lt_is_Some_2 l (S k)) as [r Hr]; [lia|]. specialize (Hhi r Hr).
      rewrite dlt_key in Hhi by (exact Hp || by eapply (Hn _ r)).
      assert (dkey (fst r) <= dkey (fst q)).
      { destruct (decide (j = k)%nat) as [->|].
        - replace (S k + (k - k))%nat with (S k) in Hq by lia. replace q with r by congruence. lia.
        - apply zlt_score; [by eapply Hn|by eapply Hn|]. eapply zsorted_lookup; [done| |done|done]. lia. }
      rewrite zlt_key by (done || by eapply Hn). cbn [fst]. lia.
Qed.

Lemma null_or_at m zsl xs p c : zsl_rep m zsl xs ->
  null_or m (aloc <$> xs !! p) c = Some (from_option (fun b => c (ascore b)) true (xs !! p)).
Proof.
  intros HR. destruct (xs !! p) as [b|] eqn:Hb; [|done]. cbn [fmap option_fmap option_map null_or].
  by rewrite (rep_nodes _ _ _ HR p b Hb).
Qed.

Lemma link0_fst m zsl xs p : zsl_rep m zsl xs -> fst (link 0 (drop p xs)) = aloc <$> xs !! p.
Proof.
  intros HR. destruct (xs !! p) as [b|] eqn:Hb.
  - rewrite (drop_S _ _ _ Hb), link_high; [done|]. pose proof (heights_pos HR) as HF.
    rewrite Forall_lookup in HF. by specialize (HF p b Hb).
  - rewrite drop_ge; [done|]. by apply lookup_ge_None.
Qed.

(** The test of [zslUpdateScore] that the node can stay. *)
Lemma update_stays m zsl xs k A d e : zsl_rep m zsl xs -> zsorted (view xs) -> num (d, e) -> xs !! k = Some A ->
  exists before after,
    null_or m (prevloc xs k) (fun s => dlt s d) = Some before /\
    null_or m (fst (link 0 (drop (S k) xs))) (fun s => dlt d s) = Some after /\
    (before && after = true ->
     zins (d, e) (take k (view xs) ++ drop (S k) (view xs)) = take k (view xs) ++ (d, e) :: drop (S k) (view xs)).
Proof.
  intros HR Hs Hp HA. rewrite (link0_fst m zsl) by done. rewrite (null_or_at m zsl xs (S k)) by done.
  assert (null_or m (prevloc xs k) (fun s => dlt s d) =
    Some (if decide (0 < k)%nat then from_option (fun b => dlt (ascore b) d) true (xs !! (k - 1)%nat) else true)) as ->.
  { destruct k as [|k]; [done|]. cbn [prevloc]. rewrite (null_or_at m zsl xs k) by done.
    replace (S k - 1)%nat with k by lia. by rewrite decide_True by lia. }
  eexists _, _. split; [done|]. split; [done|]. intros [Hb Ha]%andb_true_iff.
  apply (rescore_between _ _ (apair A)); [done|done|by rewrite view_lookup, HA| |].
  - intros q Hq Hk. rewrite decide_True in Hb by done. rewrite view_lookup in Hq.
    destruct (xs !! (k - 1)%nat); [|done]. by injection Hq as <-.
  - intros q Hq. rewrite view_lookup in Hq. destruct (xs !! S k); [|done]. by injection Hq as <-.
Qed.

(** Insertion while an unlinked node is still allocated, which is then freed. *)
Lemma reinsert_own jl jb (m m1 : zmem) zsl ys x a rs d e lv rs' :
  zsl_rep m1 zsl ys -> zsl_own (zslFreeNode m1 x) zsl ys -> dom m1 = dom m -> m !! a = None -> is_Some (m !! x) ->
  zsorted (view ys) -> num (d, e) -> zslRandomLevel rs = Some (lv, rs') ->
  exists m2 zsl2 xs2, zslInsert jl jb m1 zsl a rs d e = Some (m2, zsl2, rs') /\
    zsl_own (zslFreeNode m2 x) zsl2 xs2 /\ view xs2 = zins (d, e) (view ys).
Proof.
  intros HR [_ HO] Hd Ha Hx Hs Hp Hrs.
  assert (m1 !! a = None) as Ha1 by (apply not_elem_of_dom; rewrite Hd; by apply not_elem_of_dom).
  assert (x <> a) as Hxa by (intros ->; rewrite Ha in Hx; by destruct Hx).
  pose proof (cuts_view m1 zsl ys _ _ HR Hs (closed_lt _ _ Hs Hp) (reads_before d e)) as Hcut.
  destruct (zslInsert_at jl jb m1 zsl ys a rs d e _ lv rs' HR Hcut Hp Ha1 Hrs) as (m2 & zsl2 & E & HR2 & Hd2 & Hh2).
  exists m2, zsl2, (ins (length (pick (fun q => zlt q (d, e)) (view ys))) (mk_anode a d e lv) ys).
  split; [done|]. split; [|by rewrite view_ins, zins_cut by done].
  assert (x ∉ zheader zsl2 :: (aloc <$> ins (length (pick (fun q => zlt q (d, e)) (view ys))) (mk_anode a d e lv) ys)) as Hnx.
  { rewrite ins_perm, elem_of_cons, Hh2. intros [?|Hin]; [done|]. apply (elem_of_list_to_set (C := gset loc)) in Hin.
    rewrite <- HO in Hin. unfold zslFreeNode in Hin. rewrite dom_delete_L in Hin. set_solver. }
  split; [by apply zslFreeNode_rep|]. unfold zslFreeNode in *. rewrite dom_delete_L in *. rewrite Hd2, Hh2.
  apply set_eq. intros l. rewrite elem_of_list_to_set, ins_perm, elem_of_cons.
  rewrite <- (elem_of_list_to_set (C := gset loc)), <- HO. cbn [aloc]. set_solver.
Qed.

Lemma zslUpdateScore_own jl jb m zsl xs a rs cur e d lv rs' :
  zsl_own m zsl xs -> zsorted (view xs) -> num (cur, e) -> num (d, e) -> m !! a = None ->
  zslRandomLevel rs = Some (lv, rs') -> zmem_in (cur, e) (view xs) = true ->
  exists m' zsl' xs' rs2, zslUpdateScore jl jb m zsl a rs cur e d = Some (m', zsl', rs2) /\
    zsl_own m' zsl' xs' /\ view xs' = zins (d, e) (zdel (cur, e) (view xs)) /\ (rs2 = rs \/ rs2 = rs').
Proof.
  intros HO Hs Hc Hp Ha Hrs Hin. pose proof (proj1 HO) as HR. destruct (zsl_find m zsl xs cur e HR Hs Hc) as (Hk & E1 & E2).
  pose proof (zdel_cut (cur, e) (view xs) Hs Hc) as Hd. cbv zeta in Hd.
  set (k := length (pick (fun q => zlt q (cur, e)) (view xs))) in *. pose proof (view_lookup xs k) as Hvk. rewrite Hvk in Hd.
  unfold zslUpdateScore. rewrite E1. cbn [mbind option_bind]. rewrite E2. cbn [mbind option_bind].
  destruct (xs !! k) as [A|] eqn:HA; cbn [fmap option_fmap option_map] in *; [|by destruct Hd; congruence].
  cbn [mbind option_bind]. rewrite (rep_nodes _ _ _ HR k A HA). cbn [mbind option_bind]. rewrite (node_is_spec cur e _ (aele A)) by done.
  change (score (cell xs k A), aele A) with (apair A). cbn [mbind option_bind].
  destruct (zeq (apair A) (cur, e)) eqn:Eq; [|by destruct Hd; congruence]. destruct Hd as [Hd _]. cbn [negb].
  assert (aele A = e) as He by (unfold zeq in Eq; apply sdscmp_eq0; cbn [apair snd] in Eq; lia).
  assert (1 <= aheight A)%nat as Hh.
  { pose proof (heights_pos HR) as HF. rewrite Forall_lookup in HF. by apply (HF k A). }
  cbn [cell level backward ele]. rewrite links_lookup by lia. cbn [mbind option_bind].
  destruct (update_stays m zsl xs k A d e HR Hs Hp HA) as (bef & aft & Eb & Ea & Hstay).
  destruct (link 0 (drop (S k) xs)) as [f sp]. cbn [fst] in Ea. rewrite Eb. cbn [mbind option_bind].
  rewrite Ea. cbn [mbind option_bind]. destruct (bef && aft).
  - destruct (rescore_own m zsl xs k A d HO HA) as (m' & E & HO'). rewrite E. cbn [mbind option_bind].
    eexists m', zsl, _, rs. split; [done|]. split; [exact HO'|]. split; [|by left].
    rewrite Hd, Hstay by done. unfold view. rewrite list_fmap_insert. cbn [apair ascore aele]. rewrite He.
    apply insert_take_drop. rewrite length_fmap. by eapply lookup_lt_Some.
  - destruct (ins_remove xs k A HA) as [Hx Hk'].
    assert (zsl_own m zsl (ins k A (take k xs ++ drop (S k) xs))) as HOi by (by rewrite <- Hx).
    destruct (zslDeleteNode_own m zsl _ A k (zlevel zsl) Hk' HOi ltac:(done)) as (m1 & zsl1 & E & HR1 & Hd1 & HA1 & HO1 & Hh1 & _).
    rewrite <- Hx in E. rewrite E. cbn [mbind option_bind]. rewrite He.
    set (ys := take k xs ++ drop (S k) xs) in *.
    assert (view ys = zdel (cur, e) (view xs)) as Hvy.
    { rewrite Hd. unfold view, ys. by rewrite fmap_app, fmap_take, fmap_drop. }
    assert (zsorted (view ys)) as Hsy by (rewrite Hvy; by apply zsorted_filter).
    assert (is_Some (m !! aloc A)) as HAin by (rewrite (rep_nodes _ _ _ HR k A HA); by eexists).
    destruct (reinsert_own jl jb m m1 zsl1 ys (aloc A) a rs d e lv rs' HR1 HO1 Hd1 Ha HAin Hsy Hp Hrs)
      as (m2 & zsl2 & xs2 & E2' & HO2 & Hv2).
    rewrite E2'. cbn [mbind option_bind]. exists (zslFreeNode m2 (aloc A)), zsl2, xs2, rs'. rewrite Hv2, Hvy. auto.
Qed.
