(* ===== verification/ZskiplistRange.v ===== *)
(** * ZskiplistRange: ranges and ranks of a skip list

    Ranges by score and by string share one argument: a lower test and an upper
    test that each cut the sorted list select a segment of it.  Then the two
    rank queries, which use the spans, and the deletion by rank. *)

From Stdlib Require Import ZArith Lia ZifyBool Sorted.
From stdpp Require Import base gmap numbers option list.
From S2P Require Import Prelude SdsCmp Zskiplist ZskiplistProof ZskiplistDelete ZskiplistSpec.

Local Open Scope Z_scope.

(** The pair of a node pointer; NULL is [None]. *)
Definition node_pair (m : zmem) (r : option loc) : option (option zpair) :=
  match r with
  | None => Some None
  | Some x => n ← m !! x; e ← ele n; Some (Some (score n, e))
  end.

Lemma node_pair_at m zsl xs p : zsl_rep m zsl xs -> node_pair m (aloc <$> xs !! p) = Some (view xs !! p).
Proof.
  intros HR. rewrite view_lookup. destruct (xs !! p) as [a|] eqn:Ha; [|done].
  cbn [fmap option_fmap option_map node_pair]. by rewrite (rep_nodes _ _ _ HR p a Ha).
Qed.

(** The first and last nodes, as the code reaches them. *)
Lemma tail_at m zsl xs : zsl_rep m zsl xs -> ztail zsl = aloc <$> xs !! pred (length xs).
Proof. intros HR. rewrite (rep_tail _ _ _ HR), last_lookup, length_fmap. apply list_lookup_fmap. Qed.

Lemma first_at m zsl xs : zsl_rep m zsl xs ->
  exists s, get_level m (zheader zsl) 0 = Some (aloc <$> xs !! 0%nat, s).
Proof.
  intros HR. pose proof (rep_level _ _ _ HR). pose proof (level_at HR 0 0 ltac:(lia)) as Hl. cbn [locat high] in Hl.
  rewrite Hl by lia. rewrite drop_0. pose proof (link0_fst m zsl xs 0 HR) as Hf. rewrite drop_0 in Hf.
  destruct (link 0 xs) as [f s]. cbn [fst] in Hf. subst f. by exists s.
Qed.

Lemma update0_at m zsl xs k : zsl_rep m zsl xs -> (k <= length xs)%nat ->
  updates (zheader zsl) xs k (zlevel zsl) !! 0%nat = Some (locat (zheader zsl) xs k, Z.of_nat k).
Proof.
  intros HR Hk. pose proof (rep_level _ _ _ HR). rewrite updates_lookup by lia.
  by rewrite (ppos_all xs k) by (done || apply (heights_pos HR)).
Qed.

(** The common shape of the three queries on a range, over the test [clo] that a
    node is below the range and the test [chi] that it is not above. *)
Definition isin_body (m : zmem) (zsl : zskiplist) (clo chi : Z -> zskiplistNode -> option bool) : option bool :=
  match ztail zsl with
  | None => Some false
  | Some x =>
    n ← m !! x;
    below ← clo 0 n;
    if (below : bool) then Some false else
    '(forward, _) ← get_level m (zheader zsl) 0;
    match forward with
    | None => Some false
    | Some x => n ← m !! x; chi 0 n
    end
  end.

Definition first_body (m : zmem) (zsl : zskiplist) (clo chi : Z -> zskiplistNode -> option bool) : option (option loc) :=
  update ← zsl_search m zsl clo;
  x ← zsl_next m update;
  x ← x;
  n ← m !! x;
  h ← chi 0 n;
  Some (if negb h then None else Some x).

Definition last_body (m : zmem) (zsl : zskiplist) (clo chi : Z -> zskiplistNode -> option bool) : option (option loc) :=
  update ← zsl_search m zsl chi;
  '(x, _) ← update !! 0%nat;
  n ← m !! x;
  below ← clo 0 n;
  Some (if (below : bool) then None else Some x).

(** Not below, and not above. *)
Definition in_seg (lo hi : zpair -> bool) (p : zpair) : bool := negb (lo p) && hi p.

Section Segment.
Context {m : zmem} {zsl : zskiplist} {xs : list anode} (HO : zsl_own m zsl xs) (Hs : zsorted (view xs)).
(** Below the range, and not above it. *)
Context {lo hi : zpair -> bool} (Hlo : closed lo (view xs)) (Hhi : closed hi (view xs)).
Context {clo chi : Z -> zskiplistNode -> option bool} (Rlo : reads clo lo) (Rhi : reads chi hi).
Notation inside := (in_seg lo hi).
Notation k1 := (length (pick lo (view xs))).
Notation kh := (length (pick hi (view xs))).

Lemma view_length : length (view xs) = length xs.
Proof using. apply length_fmap. Qed.

Lemma bounds_le : (k1 <= length xs)%nat /\ (kh <= length xs)%nat.
Proof using Hs Hlo Hhi.
  destruct (sorted_cut lo _ Hs Hlo) as (_ & _ & H1 & _). destruct (sorted_cut hi _ Hs Hhi) as (_ & _ & H2 & _).
  pose proof view_length. lia.
Qed.

Lemma lo_at j p : view xs !! j = Some p -> lo p = bool_decide (j < k1)%nat.
Proof using Hs Hlo. destruct (sorted_cut lo _ Hs Hlo) as (_ & _ & _ & H). apply H. Qed.

Lemma hi_at j p : view xs !! j = Some p -> hi p = bool_decide (j < kh)%nat.
Proof using Hs Hhi. destruct (sorted_cut hi _ Hs Hhi) as (_ & _ & _ & H). apply H. Qed.

Lemma inside_segment :
  pick inside (view xs) = drop k1 (take kh (view xs)) /\
  drop_if inside (view xs) = take k1 (view xs) ++ drop (Nat.max k1 kh) (view xs).
Proof using Hs Hlo Hhi.
  apply pick_segment. intros j p Hp. unfold in_seg. rewrite (lo_at j p Hp), (hi_at j p Hp).
  destruct (decide (j < k1)%nat), (decide (j < kh)%nat); repeat case_bool_decide; cbn; lia.
Qed.

Lemma segment_search :
  zsl_search m zsl clo = Some (updates (zheader zsl) xs k1 (zlevel zsl)) /\
  zsl_search m zsl chi = Some (updates (zheader zsl) xs kh (zlevel zsl)) /\
  zsl_next m (updates (zheader zsl) xs k1 (zlevel zsl)) = Some (aloc <$> xs !! k1).
Proof using HO Hs Hlo Hhi Rlo Rhi.
  destruct HO as [HR _]. pose proof bounds_le as [H1 _].
  pose proof (cuts_view m zsl xs clo lo HR Hs Hlo Rlo) as C1. pose proof (cuts_view m zsl xs chi hi HR Hs Hhi Rhi) as C2.
  split; [by apply zsl_search_spec|]. split; [by apply zsl_search_spec|]. by apply zsl_next_spec.
Qed.

(** The deletion loop removes the segment. *)
Lemma segment_delete : exists m' zsl' xs',
  zslDeleteRange_loop (size m) m zsl chi (updates (zheader zsl) xs k1 (zlevel zsl)) 0 (aloc <$> xs !! k1)
    = Some (m', zsl', snd <$> pick inside (view xs)) /\
  zsl_own m' zsl' xs' /\ view xs' = drop_if inside (view xs).
Proof using HO Hs Hlo Hhi Rhi.
  pose proof bounds_le as [Hk1 Hkh]. pose proof (zsl_rep_size (proj1 HO)) as Hsz.
  pose proof (seg_split xs k1 kh) as Hx. pose proof HO as HO'. rewrite Hx in HO'.
  assert (length (take k1 xs) = k1) as HL by (rewrite length_take; lia).
  assert (length (drop k1 (take kh xs)) = kh - k1)%nat as HS by (rewrite length_drop, length_take; lia).
  assert (drop k1 (take kh xs) ++ drop (Nat.max k1 kh) xs = drop k1 xs) as Hd.
  { pose proof (f_equal (drop k1) Hx) as Hd. by rewrite drop_app_length' in Hd by done. }
  destruct (zslDeleteRange_loop_spec chi (take k1 xs) (drop (Nat.max k1 kh) xs) (zlevel zsl)
    (drop k1 (take kh xs)) (size m) m zsl 0 HO') as (m' & zsl' & E & HO2); [done|lia| |].
  { intros j a c Ha He Hsc _. rewrite Hd, lookup_drop in Ha. rewrite (Rhi _ c (aele a) He), HS, Hsc. f_equal.
    rewrite (hi_at (k1 + j)) by (by rewrite view_lookup, Ha). apply bool_decide_ext. lia. }
  rewrite <- Hx, HL, Hd, lookup_drop, Nat.add_0_r in E.
  exists m', zsl', (take k1 xs ++ drop (Nat.max k1 kh) xs). destruct inside_segment as [Hp Hdi]. split; [|split; [done|]].
  - rewrite E, Hp. do 2 f_equal. unfold view. by rewrite <- fmap_take, <- fmap_drop, <- list_fmap_compose.
  - rewrite Hdi. unfold view. by rewrite fmap_app, fmap_take, fmap_drop.
Qed.

(** The ends of a segment that is not ruled out by the first and last node. *)
Lemma ends_segment :
  (forall p, last (view xs) = Some p -> lo p = true) \/ (forall p, head (view xs) = Some p -> hi p = false) ->
  pick inside (view xs) = [].
Proof using Hs Hlo Hhi.
  intros H. rewrite (proj1 inside_segment). pose proof bounds_le. pose proof view_length as Hl.
  apply nil_length_inv. rewrite length_drop, length_take. destruct H as [H|H].
  - destruct (last (view xs)) as [p|] eqn:E.
    + specialize (H p eq_refl). rewrite last_lookup in E. rewrite (lo_at _ p E) in H. apply bool_decide_eq_true in H. lia.
    + apply last_None in E. rewrite E in *. cbn in *. lia.
  - destruct (head (view xs)) as [p|] eqn:E.
    + specialize (H p eq_refl). rewrite head_lookup in E. rewrite (hi_at _ p E) in H. apply bool_decide_eq_false in H. lia.
    + rewrite head_lookup, lookup_ge_None in E. lia.
Qed.

Lemma segment_head p : view xs !! k1 = Some p -> head (pick inside (view xs)) = if hi p then Some p else None.
Proof using Hs Hlo Hhi.
  intros Hp. rewrite (proj1 inside_segment), head_lookup, lookup_drop, Nat.add_0_r, (hi_at _ p Hp).
  case_bool_decide; [by rewrite lookup_take_lt | by rewrite lookup_take_ge by lia].
Qed.

Lemma segment_last k p : kh = S k -> view xs !! k = Some p ->
  last (pick inside (view xs)) = if lo p then None else Some p.
Proof using Hs Hlo Hhi.
  intros Hk Hp. rewrite (proj1 inside_segment), (lo_at _ p Hp).
  rewrite last_lookup, lookup_drop, length_drop, length_take. pose proof (lookup_lt_Some _ _ _ Hp).
  case_bool_decide.
  - rewrite lookup_ge_None_2; [done|]. rewrite length_take. lia.
  - rewrite lookup_take_lt by lia. rewrite <- Hp. f_equal. lia.
Qed.

Lemma cond_at p a : xs !! p = Some a -> clo 0 (cell xs p a) = Some (lo (apair a)) /\ chi 0 (cell xs p a) = Some (hi (apair a)).
Proof using Rlo Rhi. intros Ha. split; [by apply Rlo | by apply Rhi]. Qed.

Lemma segment_isin : exists b, isin_body m zsl clo chi = Some b /\
  (b = false -> pick inside (view xs) = []) /\
  (b = true -> (k1 < length xs)%nat /\ (0 < kh)%nat).
Proof using HO Hs Hlo Hhi Rlo Rhi.
  pose proof (proj1 HO) as HR. pose proof ends_segment as Hends. unfold isin_body.
  rewrite (tail_at m zsl xs HR). rewrite last_lookup, head_lookup, view_length, !view_lookup in *.
  destruct (xs !! pred (length xs)) as [t|] eqn:Ht; cbn [fmap option_fmap option_map] in *.
  2: { exists false. split; [done|]. split; [|done]. intros _. apply Hends. by left. }
  rewrite (rep_nodes _ _ _ HR _ t Ht). cbn [mbind option_bind]. rewrite (proj1 (cond_at _ t Ht)). cbn [mbind option_bind].
  pose proof (lo_at (pred (length xs)) (apair t)) as Hl. rewrite view_lookup, Ht in Hl. specialize (Hl eq_refl).
  destruct (lo (apair t)) eqn:El.
  { exists false. split; [done|]. split; [|done]. intros _. apply Hends. left. by intros p [= <-]. }
  destruct (first_at m zsl xs HR) as [s ->]. cbn [mbind option_bind].
  destruct (xs !! 0%nat) as [f|] eqn:Hf; cbn [fmap option_fmap option_map] in *.
  2: { exists false. split; [done|]. split; [|done]. intros _. apply Hends. by right. }
  rewrite (rep_nodes _ _ _ HR _ f Hf). cbn [mbind option_bind]. rewrite (proj2 (cond_at _ f Hf)).
  exists (hi (apair f)). split; [done|]. split.
  - intros Hh. apply Hends. right. by intros p [= <-].
  - intros Hh. rewrite (hi_at 0 (apair f)) in Hh by (by rewrite view_lookup, Hf).
    apply bool_decide_eq_true in Hh. symmetry in Hl. apply bool_decide_eq_false in Hl. apply lookup_lt_Some in Ht. lia.
Qed.

Lemma segment_first : (k1 < length xs)%nat ->
  exists r, first_body m zsl clo chi = Some r /\ node_pair m r = Some (head (pick inside (view xs))).
Proof using HO Hs Hlo Hhi Rlo Rhi.
  intros Hk. pose proof (proj1 HO) as HR. destruct segment_search as (E & _ & Hn).
  unfold first_body. rewrite E. cbn [mbind option_bind]. rewrite Hn. cbn [mbind option_bind].
  destruct (lookup_lt_is_Some_2 xs k1) as [x Hx]; [done|].
  rewrite (segment_head (apair x)) by (by rewrite view_lookup, Hx).
  pose proof (node_pair_at m zsl xs k1 HR) as Hnp. rewrite view_lookup in Hnp.
  rewrite Hx in *. cbn [fmap option_fmap option_map mbind option_bind] in *.
  rewrite (rep_nodes _ _ _ HR _ x Hx). cbn [mbind option_bind]. rewrite (proj2 (cond_at _ x Hx)). cbn [mbind option_bind].
  destruct (hi (apair x)); eexists; (split; [done|]); done.
Qed.

Lemma segment_final : (0 < kh)%nat ->
  exists r, last_body m zsl clo chi = Some r /\ node_pair m r = Some (last (pick inside (view xs))).
Proof using HO Hs Hlo Hhi Rlo Rhi.
  intros Hk. pose proof (proj1 HO) as HR. destruct segment_search as (_ & E & _). pose proof bounds_le as [_ Hkh].
  unfold last_body. rewrite E. cbn [mbind option_bind]. rewrite (update0_at m zsl xs) by done. cbn [mbind option_bind].
  destruct kh as [|k] eqn:Ek; [lia|].
  destruct (lookup_lt_is_Some_2 xs k) as [x Hx]; [lia|]. rewrite (locat_at k x Hx).
  rewrite (segment_last k (apair x) Ek) by (by rewrite view_lookup, Hx).
  pose proof (node_pair_at m zsl xs k HR) as Hnp. rewrite view_lookup, Hx in Hnp. cbn [fmap option_fmap option_map] in Hnp.
  rewrite (rep_nodes _ _ _ HR _ x Hx). cbn [mbind option_bind]. rewrite (proj1 (cond_at _ x Hx)). cbn [mbind option_bind].
  destruct (lo (apair x)); eexists; (split; [done|]); done.
Qed.
End Segment.

Section ScoreRange.
Context (range : zrangespec).

Definition lo_score (p : zpair) : bool := negb (zslValueGteMin (fst p) range).
Definition hi_score (p : zpair) : bool := zslValueLteMax (fst p) range.

Lemma closed_lo_score l : zsorted l -> closed lo_score l.
Proof using.
  intros Hl p q Hp Hq Hpq. pose proof (zsorted_num _ _ Hl Hp) as Np. pose proof (zsorted_num _ _ Hl Hq) as Nq.
  apply zlt_score in Hpq; [|done|done]. unfold lo_score, zslValueGteMin, dlt, dle. unfold num in *.
  rewrite Np, Nq. destruct (minex range), (isnan (zmin range)); cbn; lia.
Qed.

Lemma closed_hi_score l : zsorted l -> closed hi_score l.
Proof using.
  intros Hl p q Hp Hq Hpq. pose proof (zsorted_num _ _ Hl Hp) as Np. pose proof (zsorted_num _ _ Hl Hq) as Nq.
  apply zlt_score in Hpq; [|done|done]. unfold hi_score, zslValueLteMax, dlt, dle. unfold num in *.
  rewrite Np, Nq. destruct (maxex range), (isnan (zmax range)); cbn; lia.
Qed.

Lemma empty_score l : zsorted l ->
  dlt (zmax range) (zmin range) || (deq (zmin range) (zmax range) && (minex range || maxex range)) = true ->
  pick (in_seg lo_score hi_score) l = [].
Proof using.
  intros Hl He. apply filter_none, Forall_forall. intros p Hp. pose proof (zsorted_num _ _ Hl Hp) as Np.
  unfold in_seg, lo_score, hi_score, zslValueGteMin, zslValueLteMax, dlt, dle, deq in *. unfold num in Np. rewrite Np.
  destruct (isnan (zmin range)), (isnan (zmax range)), (minex range), (maxex range); cbn in *; lia.
Qed.

Lemma reads_lo_score : reads (fun _ n => Some (negb (zslValueGteMin (score n) range))) lo_score.
Proof using. by intros t n e He. Qed.
Lemma reads_hi_score : reads (fun _ n => Some (zslValueLteMax (score n) range)) hi_score.
Proof using. by intros t n e He. Qed.

Lemma zslIsInRange_eq m zsl :
  zslIsInRange m zsl range =
  if dlt (zmax range) (zmin range) || (deq (zmin range) (zmax range) && (minex range || maxex range)) then Some false
  else isin_body m zsl (fun _ n => Some (negb (zslValueGteMin (score n) range))) (fun _ n => Some (zslValueLteMax (score n) range)).
Proof using. reflexivity. Qed.

Lemma zslIsInRange_spec m zsl xs : zsl_own m zsl xs -> zsorted (view xs) ->
  exists b, zslIsInRange m zsl range = Some b /\
    (b = false -> pick (in_seg lo_score hi_score) (view xs) = []) /\
    (b = true -> (length (pick lo_score (view xs)) < length xs)%nat /\ (0 < length (pick hi_score (view xs)))%nat).
Proof using.
  intros HO Hs. rewrite zslIsInRange_eq. destruct (_ || _) eqn:Em.
  - exists false. split; [done|]. split; [intros _; by apply empty_score|done].
  - apply (segment_isin HO Hs (closed_lo_score _ Hs) (closed_hi_score _ Hs) reads_lo_score reads_hi_score).
Qed.

Lemma zslFirstInRange_spec m zsl xs : zsl_own m zsl xs -> zsorted (view xs) ->
  exists r, zslFirstInRange m zsl range = Some r /\
    node_pair m r = Some (head (pick (in_seg lo_score hi_score) (view xs))).
Proof using.
  intros HO Hs. destruct (zslIsInRange_spec m zsl xs HO Hs) as (b & E & H0 & H1).
  unfold zslFirstInRange. rewrite E. cbn [mbind option_bind]. destruct b; cbn [negb].
  - apply (segment_first HO Hs (closed_lo_score _ Hs) (closed_hi_score _ Hs) reads_lo_score reads_hi_score). by apply H1.
  - exists None. split; [done|]. by rewrite H0.
Qed.

Lemma zslLastInRange_spec m zsl xs : zsl_own m zsl xs -> zsorted (view xs) ->
  exists r, zslLastInRange m zsl range = Some r /\
    node_pair m r = Some (last (pick (in_seg lo_score hi_score) (view xs))).
Proof using.
  intros HO Hs. destruct (zslIsInRange_spec m zsl xs HO Hs) as (b & E & H0 & H1).
  unfold zslLastInRange. rewrite E. cbn [mbind option_bind]. destruct b; cbn [negb].
  - apply (segment_final HO Hs (closed_lo_score _ Hs) (closed_hi_score _ Hs) reads_lo_score reads_hi_score). by apply H1.
  - exists None. split; [done|]. by rewrite H0.
Qed.

Lemma zslDeleteRangeByScore_spec m zsl xs : zsl_own m zsl xs -> zsorted (view xs) ->
  exists m' zsl' xs', zslDeleteRangeByScore m zsl range =
      Some (m', zsl', snd <$> pick (in_seg lo_score hi_score) (view xs)) /\
    zsl_own m' zsl' xs' /\ view xs' = drop_if (in_seg lo_score hi_score) (view xs).
Proof using.
  intros HO Hs. pose proof (closed_lo_score _ Hs) as Clo. pose proof (closed_hi_score _ Hs) as Chi.
  destruct (segment_search HO Hs Clo Chi reads_lo_score reads_hi_score) as (E & _ & Hn).
  unfold zslDeleteRangeByScore. rewrite E. cbn [mbind option_bind]. rewrite Hn. cbn [mbind option_bind].
  apply (segment_delete HO Hs Clo Chi reads_hi_score).
Qed.
End ScoreRange.

(** ** Ranges by string, on elements of one score *)

Definition same_score (l : list zpair) : Prop := forall p q, p ∈ l -> q ∈ l -> dkey (fst p) = dkey (fst q).

Lemma sdscmp_mono a b s : sdscmp a b < 0 -> sdscmp b s <= 0 -> sdscmp a s < 0.
Proof.
  intros Hab Hbs. destruct (decide (sdscmp b s = 0)) as [He|He].
  - apply sdscmp_eq0 in He. by subst.
  - apply (sdscmp_trans a b s); lia.
Qed.

Section LexRange.
Context (range : zlexrangespec).

Definition lo_lex (p : zpair) : bool := negb (zslLexValueGteMin (snd p) range).
Definition hi_lex (p : zpair) : bool := zslLexValueLteMax (snd p) range.

Lemma same_score_lt l p q : zsorted l -> same_score l -> p ∈ l -> q ∈ l -> zlt p q = true -> sdscmp (snd p) (snd q) < 0.
Proof using.
  intros Hl Hsc Hp Hq. rewrite zlt_key by (by eapply zsorted_num). pose proof (Hsc p q Hp Hq). lia.
Qed.

Lemma closed_lo_lex l : zsorted l -> same_score l -> closed lo_lex l.
Proof using.
  intros Hl Hsc p q Hp Hq Hpq. apply (same_score_lt l) in Hpq; [|done..].
  unfold lo_lex, zslLexValueGteMin. destruct (lmin range) as [| |s]; cbn [sdscmplex]; [by destruct (lminex range) ..|].
  pose proof (sdscmp_mono (snd p) (snd q) s Hpq). destruct (lminex range); lia.
Qed.

Lemma closed_hi_lex l : zsorted l -> same_score l -> closed hi_lex l.
Proof using.
  intros Hl Hsc p q Hp Hq Hpq. apply (same_score_lt l) in Hpq; [|done..].
  unfold hi_lex, zslLexValueLteMax. destruct (lmax range) as [| |s]; cbn [sdscmplex]; [by destruct (lmaxex range) ..|].
  pose proof (sdscmp_mono (snd p) (snd q) s Hpq). destruct (lmaxex range); lia.
Qed.

Lemma empty_lex (l : list zpair) :
  (0 <? sdscmplex (lmin range) (lmax range)) ||
    ((sdscmplex (lmin range) (lmax range) =? 0) && (lminex range || lmaxex range)) = true ->
  pick (in_seg lo_lex hi_lex) l = [].
Proof using.
  intros He. apply filter_none, Forall_forall. intros [d v] _.
  unfold in_seg, lo_lex, hi_lex, zslLexValueGteMin, zslLexValueLteMax. cbn [snd]. rewrite negb_involutive.
  destruct (lmin range) as [| |a], (lmax range) as [| |b]; cbn [sdscmplex] in *;
    try (destruct (lminex range), (lmaxex range); cbn in *; lia).
  pose proof (sdscmp_opp a v). pose proof (sdscmp_opp a b). pose proof (sdscmp_mono v b a). pose proof (sdscmp_opp b v).
  destruct (decide (sdscmp v b = 0)) as [Hz|]; [apply sdscmp_eq0 in Hz; subst v; destruct (lminex range), (lmaxex range); lia|].
  destruct (lminex range), (lmaxex range); lia.
Qed.

Lemma reads_lo_lex : reads (fun _ n => e ← ele n; Some (negb (zslLexValueGteMin e range))) lo_lex.
Proof using. intros t n e He. by rewrite He. Qed.
Lemma reads_hi_lex : reads (fun _ n => e ← ele n; Some (zslLexValueLteMax e range)) hi_lex.
Proof using. intros t n e He. by rewrite He. Qed.

Lemma zslIsInLexRange_eq m zsl :
  zslIsInLexRange m zsl range =
  if (0 <? sdscmplex (lmin range) (lmax range)) ||
     ((sdscmplex (lmin range) (lmax range) =? 0) && (lminex range || lmaxex range)) then Some false
  else isin_body m zsl (fun _ n => e ← ele n; Some (negb (zslLexValueGteMin e range)))
                       (fun _ n => e ← ele n; Some (zslLexValueLteMax e range)).
Proof using.
  unfold zslIsInLexRange, isin_body. cbv zeta. destruct (_ || _); [done|]. destruct (ztail zsl) as [x|]; [|done].
  destruct (m !! x) as [n|]; [|done]. cbn [mbind option_bind]. by destruct (ele n).
Qed.

Section Queries.
Context {m : zmem} {zsl : zskiplist} {xs : list anode}.
Context (HO : zsl_own m zsl xs) (Hs : zsorted (view xs)) (Hsc : same_score (view xs)).

Lemma zslIsInLexRange_spec :
  exists b, zslIsInLexRange m zsl range = Some b /\
    (b = false -> pick (in_seg lo_lex hi_lex) (view xs) = []) /\
    (b = true -> (length (pick lo_lex (view xs)) < length xs)%nat /\ (0 < length (pick hi_lex (view xs)))%nat).
Proof using HO Hs Hsc.
  rewrite zslIsInLexRange_eq. destruct (_ || _) eqn:Em.
  - exists false. split; [done|]. split; [intros _; by apply empty_lex|done].
  - apply (segment_isin HO Hs (closed_lo_lex _ Hs Hsc) (closed_hi_lex _ Hs Hsc) reads_lo_lex reads_hi_lex).
Qed.

Lemma first_lex_eq : zslFirstInLexRange m zsl range =
  inside ← zslIsInLexRange m zsl range;
  if negb inside then Some None
  else first_body m zsl (fun _ n => e ← ele n; Some (negb (zslLexValueGteMin e range)))
                        (fun _ n => e ← ele n; Some (zslLexValueLteMax e range)).
Proof using.
  unfold zslFirstInLexRange, first_body. destruct (zslIsInLexRange m zsl range) as [[]|]; [|done|done].
  cbn [mbind option_bind negb]. destruct (zsl_search _ _ _) as [u|]; [|done]. cbn [mbind option_bind].
  destruct (zsl_next m u) as [[x|]|]; try done. cbn [mbind option_bind]. destruct (m !! x) as [n|]; [|done].
  cbn [mbind option_bind]. by destruct (ele n).
Qed.

Lemma last_lex_eq : zslLastInLexRange m zsl range =
  inside ← zslIsInLexRange m zsl range;
  if negb inside then Some None
  else last_body m zsl (fun _ n => e ← ele n; Some (negb (zslLexValueGteMin e range)))
                       (fun _ n => e ← ele n; Some (zslLexValueLteMax e range)).
Proof using.
  unfold zslLastInLexRange, last_body. destruct (zslIsInLexRange m zsl range) as [[]|]; [|done|done].
  cbn [mbind option_bind negb]. destruct (zsl_search _ _ _) as [u|]; [|done]. cbn [mbind option_bind].
  destruct (u !! 0%nat) as [[x r]|]; [|done]. cbn [mbind option_bind]. destruct (m !! x) as [n|]; [|done].
  cbn [mbind option_bind]. by destruct (ele n).
Qed.

Lemma zslFirstInLexRange_spec :
  exists r, zslFirstInLexRange m zsl range = Some r /\
    node_pair m r = Some (head (pick (in_seg lo_lex hi_lex) (view xs))).
Proof using HO Hs Hsc.
  rewrite first_lex_eq. destruct zslIsInLexRange_spec as (b & E & H0 & H1). rewrite E. cbn [mbind option_bind].
  destruct b; cbn [negb].
  - apply (segment_first HO Hs (closed_lo_lex _ Hs Hsc) (closed_hi_lex _ Hs Hsc) reads_lo_lex reads_hi_lex). by apply H1.
  - exists None. split; [done|]. by rewrite H0.
Qed.

Lemma zslLastInLexRange_spec :
  exists r, zslLastInLexRange m zsl range = Some r /\
    node_pair m r = Some (last (pick (in_seg lo_lex hi_lex) (view xs))).
Proof using HO Hs Hsc.
  rewrite last_lex_eq. destruct zslIsInLexRange_spec as (b & E & H0 & H1). rewrite E. cbn [mbind option_bind].
  destruct b; cbn [negb].
  - apply (segment_final HO Hs (closed_lo_lex _ Hs Hsc) (closed_hi_lex _ Hs Hsc) reads_lo_lex reads_hi_lex). by apply H1.
  - exists None. split; [done|]. by rewrite H0.
Qed.

Lemma zslDeleteRangeByLex_spec :
  exists m' zsl' xs', zslDeleteRangeByLex m zsl range =
      Some (m', zsl', snd <$> pick (in_seg lo_lex hi_lex) (view xs)) /\
    zsl_own m' zsl' xs' /\ view xs' = drop_if (in_seg lo_lex hi_lex) (view xs).
Proof using HO Hs Hsc.
  pose proof (closed_lo_lex _ Hs Hsc) as Clo. pose proof (closed_hi_lex _ Hs Hsc) as Chi.
  destruct (segment_search HO Hs Clo Chi reads_lo_lex reads_hi_lex) as (E & _ & Hn).
  unfold zslDeleteRangeByLex. rewrite E. cbn [mbind option_bind]. rewrite Hn. cbn [mbind option_bind].
  apply (segment_delete HO Hs Clo Chi reads_hi_lex).
Qed.
End Queries.
End LexRange.

(** ** Ranks *)

Definition zle (p q : zpair) : bool := dlt (fst p) (fst q) || (deq (fst p) (fst q) && (sdscmp (snd p) (snd q) <=? 0)).

Lemma zle_zlt p q : zle p q = zlt p q || zeq p q.
Proof. unfold zle, zlt, zeq. destruct (dlt _ _), (deq _ _); cbn; try done; lia. Qed.

Lemma closed_le l p : zsorted l -> num p -> closed (fun q => zle q p) l.
Proof.
  intros Hl Hp a b Ha Hb Hab. pose proof (zsorted_num _ _ Hl Ha). pose proof (zsorted_num _ _ Hl Hb).
  rewrite !zle_zlt. intros [Hbp|Hbp]%orb_true_iff.
  - by rewrite (zlt_trans a b p).
  - by rewrite (zeq_zlt a b p).
Qed.

Lemma reads_upto d e : reads (node_upto d e) (fun q => zle q (d, e)).
Proof.
  intros t n s Hs. unfold node_upto, zle. cbn [fst snd]. destruct (dlt (score n) d); [done|].
  destruct (deq (score n) d); [|done]. by rewrite Hs.
Qed.

(** The rank of a pair: how many are not above it, if it is one of them. *)
Definition zrank (p : zpair) (l : list zpair) : Z := if zmem_in p l then Z.of_nat (length (pick (fun q => zle q p) l)) else 0.

Lemma zeq_rank p l j q : zsorted l -> num p -> l !! j = Some q -> zeq q p = true ->
  length (pick (fun q => zle q p) l) = S j.
Proof.
  intros Hl Hp Hq He. destruct (sorted_cut (fun q => zle q p) l Hl (closed_le l p Hl Hp)) as (_ & _ & Hk & H4).
  pose proof (H4 j q Hq) as Hj. rewrite zle_zlt, He, orb_true_r in Hj. symmetry in Hj. apply bool_decide_eq_true in Hj.
  set (k := length (pick (fun q => zle q p) l)) in *.
  destruct (decide (k = S j)) as [|Hne]; [done|]. destruct (lookup_lt_is_Some_2 l (S j)) as [r Hr]; [lia|].
  pose proof (H4 (S j) r Hr) as Hr'. rewrite bool_decide_true in Hr' by lia.
  pose proof (zsorted_lookup l j (S j) q r Hl ltac:(lia) Hq Hr) as Hqr.
  pose proof (zsorted_num l q Hl ltac:(by eapply list_elem_of_lookup_2)) as Nq.
  pose proof (zsorted_num l r Hl ltac:(by eapply list_elem_of_lookup_2)) as Nr.
  exfalso. rewrite zle_zlt in Hr'. apply orb_true_iff in Hr' as [Hr'|Hr'].
  - pose proof (zlt_trans q r p Nq Nr Hp Hqr Hr'). by rewrite (zlt_zeq q p) in He.
  - pose proof (zeq_zlt q r p Nq Nr Hp Hqr Hr'). by rewrite (zlt_zeq q p) in He.
Qed.

Lemma high_lower zlev xs i j p : high zlev xs i p -> (j <= i)%nat -> high zlev xs j p.
Proof. destruct p as [|p]; cbn [high]; [lia|]. intros (a & Ha & ?) Hj. exists a. split; [done|lia]. Qed.

Lemma zmem_in_at p l : zmem_in p l = true -> exists j q, l !! j = Some q /\ zeq q p = true.
Proof.
  unfold zmem_in. rewrite existsb_exists. intros (q & Hq & He). apply list_elem_of_In, list_elem_of_lookup in Hq as [j Hj]. eauto.
Qed.

Section Rank.
Context {m : zmem} {zsl : zskiplist} {xs : list anode} (HR : zsl_rep m zsl xs) (Hs : zsorted (view xs)).
Notation at_ := (locat (zheader zsl) xs).

Lemma zslGetRank_loop_spec d e fuel i p : num (d, e) ->
  let k := length (pick (fun q => zle q (d, e)) (view xs)) in
  (S i <= zlevel zsl)%nat -> (p <= k < fuel)%nat -> high (zlevel zsl) xs i p ->
  zslGetRank_loop fuel m d e (S i) (at_ p) (Z.of_nat p) = Some (zrank (d, e) (view xs)).
Proof using HR Hs.
  intros Hp k. assert (cuts m (node_upto d e) xs k) as Hcut by (eapply cuts_view; eauto using closed_le, reads_upto).
  pose proof (proj1 Hcut) as Hkl. revert p. induction i as [|i IH]; intros p Hi Hpk Hh; cbn [zslGetRank_loop].
  all: rewrite (zsl_walk_spec HR Hcut) by (done || lia); cbn [mbind option_bind].
  - rewrite (ppos_all xs k) by (done || apply (heights_pos HR)). unfold zrank. fold k. destruct k as [|k'] eqn:Ek.
    + cbn [locat]. destruct (rep_header _ _ _ HR) as (junk & -> & _). cbn [mbind option_bind ele]. by destruct (zmem_in _ _).
    + destruct (lookup_lt_is_Some_2 xs k') as [b Hb]; [lia|]. rewrite (locat_at k' b Hb), (rep_nodes _ _ _ HR _ b Hb).
      cbn [mbind option_bind cell ele score]. change (deq (ascore b) d && (sdscmp (aele b) e =? 0)) with (zeq (apair b) (d, e)).
      assert (view xs !! k' = Some (apair b)) as Hv by (by rewrite view_lookup, Hb).
      destruct (zmem_in (d, e) (view xs)) eqn:Em.
      * apply zmem_in_at in Em as (j & q & Hj & He). pose proof (zeq_rank _ _ j q Hs Hp Hj He) as Hk.
        replace j with k' in Hj by (unfold k in Ek; lia). rewrite Hv in Hj. injection Hj as ->. by rewrite He.
      * apply zmem_in_spec in Em. rewrite Forall_lookup in Em. specialize (Em _ _ Hv). cbn beta in Em. by rewrite Em.
  - pose proof (ppos_le xs (S i) k) as Hq. pose proof (ppos_high (zlevel zsl) xs (S i) k ltac:(lia)) as Hqh.
    assert (zslGetRank_loop fuel m d e (S i) (at_ (ppos xs (S i) k)) (Z.of_nat (ppos xs (S i) k)) = Some (zrank (d, e) (view xs))) as HI.
    { apply IH; [lia|lia|]. eapply high_lower; [exact Hqh|lia]. }
    cbn [zslGetRank_loop] in HI.
    destruct (ppos xs (S i) k) as [|q] eqn:Eq.
    + cbn [locat] in *. destruct (rep_header _ _ _ HR) as (junk & Hm & _). rewrite Hm. cbn [mbind option_bind ele]. exact HI.
    + destruct (lookup_lt_is_Some_2 xs q) as [b Hb]; [lia|]. rewrite (locat_at q b Hb) in *. rewrite (rep_nodes _ _ _ HR _ b Hb).
      cbn [mbind option_bind cell ele score]. change (deq (ascore b) d && (sdscmp (aele b) e =? 0)) with (zeq (apair b) (d, e)).
      destruct (zeq (apair b) (d, e)) eqn:He; [|exact HI].
      assert (view xs !! q = Some (apair b)) as Hv by (by rewrite view_lookup, Hb).
      unfold zrank. destruct (zmem_in (d, e) (view xs)) eqn:Em.
      * by rewrite (zeq_rank _ _ q (apair b)).
      * apply zmem_in_spec in Em. rewrite Forall_lookup in Em. specialize (Em _ _ Hv). cbn beta in Em. congruence.
Qed.

Lemma zslGetRank_spec d e : num (d, e) -> zslGetRank m zsl d e = Some (zrank (d, e) (view xs)).
Proof using HR Hs.
  intros Hp. unfold zslGetRank. pose proof (rep_level _ _ _ HR). pose proof (zsl_rep_size HR).
  assert (cuts m (node_upto d e) xs (length (pick (fun q => zle q (d, e)) (view xs)))) as [Hk _]
    by (eapply cuts_view; eauto using closed_le, reads_upto).
  destruct (zlevel zsl) as [|i] eqn:Ei; [lia|].
  apply (zslGetRank_loop_spec d e (S (size m)) i 0); [done|lia|lia|cbn; lia].
Qed.

Lemma zslGetElementByRank_loop_spec r fuel i p : (p <= Nat.min r (length xs) < fuel)%nat ->
  (S i <= zlevel zsl)%nat -> high (zlevel zsl) xs i p ->
  zslGetElementByRank_loop fuel m (Z.of_nat r) (S i) (at_ p) (Z.of_nat p) =
  Some (if (r <=? length xs)%nat then Some (at_ r) else None).
Proof using HR.
  assert (cuts m (fun t _ => Some (t <=? Z.of_nat r)) xs (Nat.min r (length xs))) as Hcut.
  { split; [lia|]. intros j a n Ha _. apply lookup_lt_Some in Ha. f_equal.
    destruct (decide (j < Nat.min r (length xs))%nat); [rewrite bool_decide_true by done | rewrite bool_decide_false by done]; lia. }
  revert p. induction i as [|i IH]; intros p Hp Hi Hh; cbn [zslGetElementByRank_loop];
    rewrite (zsl_walk_spec HR Hcut) by (done || lia); cbn [mbind option_bind].
  - rewrite (ppos_all xs) by (lia || apply (heights_pos HR)).
    destruct (Z.eqb_spec (Z.of_nat (Nat.min r (length xs))) (Z.of_nat r)), (Nat.leb_spec r (length xs)); try lia; [|done].
    do 3 f_equal. lia.
  - pose proof (ppos_le xs (S i) (Nat.min r (length xs))) as Hq.
    pose proof (ppos_high (zlevel zsl) xs (S i) (Nat.min r (length xs)) ltac:(lia)) as Hqh.
    destruct (Z.eqb_spec (Z.of_nat (ppos xs (S i) (Nat.min r (length xs)))) (Z.of_nat r)) as [He|He].
    + apply Nat2Z.inj in He. rewrite He. by destruct (Nat.leb_spec r (length xs)); [|lia].
    + apply IH; [lia|lia|]. eapply high_lower; [exact Hqh|lia].
Qed.

Lemma zslGetElementByRank_spec rank : 1 <= rank ->
  exists r, zslGetElementByRank m zsl rank = Some r /\ node_pair m r = Some (view xs !! Z.to_nat (rank - 1)).
Proof using HR.
  intros Hr. unfold zslGetElementByRank. pose proof (rep_level _ _ _ HR). pose proof (zsl_rep_size HR).
  destruct (zlevel zsl) as [|i] eqn:Ei; [lia|].
  pose proof (zslGetElementByRank_loop_spec (Z.to_nat rank) (S (size m)) i 0) as H'. cbn [locat] in H'.
  rewrite Z2Nat.id in H' by lia. change (Z.of_nat 0) with 0 in H'. rewrite H' by (cbn [high]; lia). eexists. split; [done|].
  rewrite <- (node_pair_at m zsl) by done. destruct (Nat.leb_spec (Z.to_nat rank) (length xs)) as [Hle|Hgt].
  - destruct (lookup_lt_is_Some_2 xs (Z.to_nat (rank - 1))) as [a Ha]; [lia|]. rewrite Ha.
    replace (Z.to_nat rank) with (S (Z.to_nat (rank - 1))) by lia. by rewrite (locat_at _ a Ha).
  - rewrite (lookup_ge_None_2 xs) by lia. done.
Qed.
End Rank.

(** Deletion by rank: 1-based, [start] and [end_] below 2^32. *)
Lemma zslDeleteRangeByRank_spec m zsl xs start end_ : zsl_own m zsl xs -> in_u 32 start -> in_u 32 end_ ->
  let k := Nat.min (Z.to_nat (start - 1)) (length xs) in
  let l := view xs in
  exists m' zsl' xs', zslDeleteRangeByRank m zsl start end_ =
      Some (m', zsl', snd <$> drop k (take (Z.to_nat end_) l)) /\
    zsl_own m' zsl' xs' /\ view xs' = take k l ++ drop (Nat.max k (Z.to_nat end_)) l.
Proof.
  intros HO Hst Hen k l. pose proof (proj1 HO) as HR. pose proof (zsl_rep_size HR) as Hsz.
  assert (u32 start = start) as E1 by (by apply wrap_id).
  assert (u32 end_ = end_) as E2 by (by apply wrap_id).
  assert (0 <= start /\ 0 <= end_) as [Hs0 He0] by (unfold in_u in *; lia).
  unfold zslDeleteRangeByRank. rewrite E1, E2.
  assert (cuts m (fun t _ => Some (t <? start)) xs k) as Hcut.
  { split; [lia|]. intros j a n Ha _. apply lookup_lt_Some in Ha. f_equal.
    destruct (decide (j < k)%nat); [rewrite bool_decide_true by done | rewrite bool_decide_false by done]; lia. }
  rewrite (zsl_search_spec HR Hcut). cbn [mbind option_bind]. rewrite (update0_at m zsl) by (done || lia). cbn [mbind option_bind].
  rewrite (zsl_next_spec m zsl xs k) by (done || lia). cbn [mbind option_bind].
  set (b := Z.to_nat end_). pose proof (seg_split xs k b) as Hx. pose proof HO as HO'. rewrite Hx in HO'.
  assert (length (take k xs) = k) as HL by (rewrite length_take; lia).
  assert (length (drop k (take b xs)) = Nat.min b (length xs) - k)%nat as HS by (rewrite length_drop, length_take; lia).
  assert (drop k (take b xs) ++ drop (Nat.max k b) xs = drop k xs) as Hd.
  { pose proof (f_equal (drop k) Hx) as Hd. by rewrite drop_app_length' in Hd by done. }
  destruct (zslDeleteRange_loop_spec (fun t _ => Some (t <=? end_)) (take k xs) (drop (Nat.max k b) xs) (zlevel zsl)
    (drop k (take b xs)) (size m) m zsl (Z.of_nat k + 1) HO') as (m' & zsl' & E & HO2); [done|lia| |].
  { intros j a c Ha _ _ _. rewrite Hd, lookup_drop in Ha. apply lookup_lt_Some in Ha. rewrite HS. f_equal.
    destruct (decide (j < Nat.min b (length xs) - k)%nat); [rewrite bool_decide_true by done | rewrite bool_decide_false by done]; lia. }
  rewrite <- Hx, HL, Hd, lookup_drop, Nat.add_0_r in E.
  exists m', zsl', (take k xs ++ drop (Nat.max k b) xs). split; [|split; [done|]].
  - rewrite E. do 2 f_equal. unfold l, view. by rewrite <- fmap_take, <- fmap_drop, <- list_fmap_compose.
  - unfold l, view. by rewrite fmap_app, fmap_take, fmap_drop.
Qed.
