(* ===== verification/ZskiplistRefine.v ===== *)
(** * ZskiplistRefine: sequences of skip list operations

    Creation and release of a skip list, the operations as commands with their
    specification on sorted lists, and the refinement theorem. *)

From Stdlib Require Import ZArith Lia ZifyBool Sorted.
From stdpp Require Import base gmap numbers option list.
From S2P Require Import Prelude SdsCmp Zskiplist ZskiplistProof ZskiplistDelete ZskiplistSpec ZskiplistRange.

Local Open Scope Z_scope.

(** ** Creation and release *)

Lemma zslCreate_own jl jb h : exists m zsl, zslCreate jl jb ∅ h = Some (m, zsl) /\ zsl_own m zsl [].
Proof.
  unfold zslCreate, zslCreateNode. set (m0 := <[h := _]> ∅).
  assert (forall j, (j < 32)%nat -> get_level m0 h j = Some (jl j)) as Hg.
  { intros j Hj. unfold get_level, m0. rewrite lookup_insert_eq. cbn [mbind option_bind level].
    rewrite list_lookup_fmap. by rewrite lookup_seq_lt by done. }
  destruct (for_levels_relev (fun j m => set_level m h j (None, 0)) (fun l _ => if decide (l = h) then Some (None, 0) else None)
    ZSKIPLIST_MAXLEVEL 0 m0) as (m1 & E & H1).
  { intros j m1 Hj H1. unfold ZSKIPLIST_MAXLEVEL in Hj. apply (set_level_body _ _ _ _ (jl j)); [|done].
    rewrite (get_level_relev _ _ _ _ _ H1), Hg by lia. by rewrite decide_False by lia. }
  rewrite E. cbn [mbind option_bind].
  assert (m1 !! h = Some (mk_znode None 0 jb (replicate ZSKIPLIST_MAXLEVEL (None, 0)))) as Hh.
  { rewrite (H1 h). unfold m0. rewrite lookup_insert_eq. reflexivity || (cbn; by rewrite !decide_True). }
  unfold set_backward. rewrite Hh. cbn [mbind option_bind ele score level]. eexists _, _. split; [done|]. split.
  - constructor; cbn [zheader zlevel zlength ztail]; try done; try (unfold ZSKIPLIST_MAXLEVEL; lia).
    + exists (replicate 31 (None, 0)). rewrite lookup_insert_eq. split; [done|]. split; [done|]. by apply Forall_replicate.
    + apply NoDup_singleton.
  - rewrite dom_insert_lookup_L by (rewrite Hh; by eexists). rewrite (relev_mem_dom _ _ _ H1). unfold m0.
    cbn [zheader]. set_solver.
Qed.

Lemma zslFree_loop_spec : forall xs m fuel, (length xs <= fuel)%nat -> NoDup (aloc <$> xs) ->
  dom m = list_to_set (aloc <$> xs) ->
  (forall p a, xs !! p = Some a -> exists s, get_level m (aloc a) 0 = Some (aloc <$> xs !! S p, s)) ->
  zslFree_loop fuel m (aloc <$> xs !! 0%nat) = Some ∅.
Proof.
  induction xs as [|a xs IH]; intros m fuel Hf Hn Hd Hl.
  - cbn. destruct fuel; cbn [zslFree_loop]; f_equal; apply dom_empty_inv_L; by rewrite Hd.
  - destruct fuel as [|fuel]; [cbn in Hf; lia|]. cbn [lookup list_lookup fmap option_fmap option_map zslFree_loop].
    destruct (Hl 0%nat a eq_refl) as [s ->]. cbn [mbind option_bind].
    cbn [fmap list_fmap] in Hn. apply NoDup_cons in Hn as [Ha Hn].
    change ((a :: xs) !! 1%nat) with (xs !! 0%nat). apply IH; [cbn in Hf; lia|done| |].
    + unfold zslFreeNode. rewrite dom_delete_L, Hd. cbn [fmap list_fmap].
      apply set_eq. intros l. rewrite elem_of_difference, !elem_of_list_to_set, elem_of_cons, elem_of_singleton.
      split; [tauto|]. intros Hin. split; [by right|]. intros ->. by apply Ha.
    + intros p b Hb. destruct (Hl (S p) b Hb) as [s' Hs']. exists s'. etransitivity; [|exact Hs']. unfold get_level, zslFreeNode.
      rewrite lookup_delete_ne; [done|]. intros He. apply Ha. rewrite He. apply list_elem_of_fmap. exists b. split; [done|].
      by eapply list_elem_of_lookup_2.
Qed.

Lemma zslFree_spec m zsl xs : zsl_own m zsl xs -> zslFree m zsl = Some ∅.
Proof.
  intros [HR Hd]. unfold zslFree. destruct (first_at m zsl xs HR) as [s ->]. cbn [mbind option_bind].
  pose proof (rep_nodup _ _ _ HR) as Hn. apply NoDup_cons in Hn as [Hh Hn]. pose proof (zsl_rep_size HR).
  apply zslFree_loop_spec; [lia|done| |].
  - rewrite dom_delete_L, Hd. apply set_eq. intros l.
    rewrite elem_of_difference, !elem_of_list_to_set, elem_of_cons, elem_of_singleton.
    split; [tauto|]. intros Hin. split; [by right|]. intros ->. by apply Hh.
  - intros p a Ha. pose proof (aloc_header HR p a Ha) as Hne.
    pose proof (heights_pos HR) as HF. rewrite Forall_lookup in HF. specialize (HF p a Ha). cbn in HF.
    pose proof (lookup_lt_Some _ _ _ Ha).
    pose proof (level_at HR (S p) 0 ltac:(lia)) as Hlv. rewrite (locat_at p a Ha) in Hlv.
    pose proof (link0_fst m zsl xs (S p) HR) as Hf. destruct (link 0 (drop (S p) xs)) as [f sp]. cbn [fst] in Hf. subst f.
    exists sp. rewrite <- Hlv by (exists a; split; [done|lia]). unfold get_level. by rewrite lookup_delete_ne by done.
Qed.

Lemma zsorted_sublist l l' : zsorted l -> sublist l' l -> zsorted l'.
Proof.
  intros [Hs Hn] Hsub. split; [|by eapply Forall_sublist || (rewrite Forall_forall in *; intros p Hp; apply Hn; by eapply elem_of_sublist)].
  revert l' Hsub. clear Hn. induction Hs as [|p l Hs IH Hp]; intros l' Hsub.
  - apply sublist_nil_r in Hsub. subst. constructor.
  - apply sublist_cons_r in Hsub as [Hsub|(k & -> & Hsub)]; [by apply IH|]. constructor; [by apply IH|].
    rewrite Forall_forall in *. intros q Hq. apply Hp. by eapply sublist_elem_of || by eapply elem_of_sublist.
Qed.

Lemma zsorted_cut l a b : zsorted l -> zsorted (take a l ++ drop (Nat.max a b) l).
Proof.
  intros Hl. apply (zsorted_sublist l); [done|].
  rewrite <- (take_drop a l) at 3. apply sublist_app; [done|].
  replace (Nat.max a b) with (a + (Nat.max a b - a))%nat by lia. rewrite <- drop_drop. apply sublist_drop.
Qed.

(** ** Commands *)

Inductive zop :=
| ZInsert (d : Z) (e : list Z) (rs : list Z)
| ZDelete (d : Z) (e : list Z)
| ZUpdateScore (curscore : Z) (e : list Z) (newscore : Z) (rs : list Z)
| ZDeleteRangeByScore (range : zrangespec)
| ZDeleteRangeByLex (range : zlexrangespec)
| ZDeleteRangeByRank (start end_ : Z)
| ZGetRank (d : Z) (e : list Z)
| ZGetElementByRank (rank : Z)
| ZFirstInRange (range : zrangespec)
| ZLastInRange (range : zrangespec)
| ZFirstInLexRange (range : zlexrangespec)
| ZLastInLexRange (range : zlexrangespec).

Inductive zres :=
| RUnit
| RFound (b : bool)
| RRemoved (es : list (list Z))
| RRank (r : Z)
| RNode (p : option zpair).

Definition same_scoreb (l : list zpair) : bool :=
  match l with [] => true | p :: l => forallb (fun q => dkey (fst p) =? dkey (fst q)) l end.

Lemma same_scoreb_spec l : same_scoreb l = true -> same_score l.
Proof.
  destruct l as [|r l]; cbn [same_scoreb]; [by intros _ p q Hp%elem_of_nil|].
  rewrite forallb_forall. intros H.
  assert (forall p, p ∈ r :: l -> dkey (fst r) = dkey (fst p)) as Hr.
  { intros p [->|Hp]%elem_of_cons; [done|]. specialize (H p (proj1 (list_elem_of_In _ _) Hp)). lia. }
  intros p q Hp Hq. by rewrite <- (Hr p), <- (Hr q).
Qed.

(** What each command means on the sorted list of pairs; [None] when the caller
    breaks the contract: a NaN, an element inserted twice, an update of an
    element that is not there, a rank that is not 1-based, a string range on
    elements of several scores. *)
Definition spec_zop (l : list zpair) (op : zop) : option (list zpair * zres) :=
  match op with
  | ZInsert d e rs =>
    if isnan d || zmem_in (d, e) l || negb (bool_decide (is_Some (zslRandomLevel rs))) then None
    else Some (zins (d, e) l, RUnit)
  | ZDelete d e => if isnan d then None else Some (zdel (d, e) l, RFound (zmem_in (d, e) l))
  | ZUpdateScore cur e d rs =>
    if isnan cur || isnan d || negb (zmem_in (cur, e) l) || zmem_in (d, e) (zdel (cur, e) l) ||
       negb (bool_decide (is_Some (zslRandomLevel rs))) then None
    else Some (zins (d, e) (zdel (cur, e) l), RUnit)
  | ZDeleteRangeByScore range =>
    let inside := in_seg (lo_score range) (hi_score range) in
    Some (drop_if inside l, RRemoved (snd <$> pick inside l))
  | ZDeleteRangeByLex range =>
    let inside := in_seg (lo_lex range) (hi_lex range) in
    if same_scoreb l then Some (drop_if inside l, RRemoved (snd <$> pick inside l)) else None
  | ZDeleteRangeByRank start end_ =>
    if (0 <=? start) && (start <? 2 ^ 32) && (0 <=? end_) && (end_ <? 2 ^ 32) then
      let k := Nat.min (Z.to_nat (start - 1)) (length l) in
      Some (take k l ++ drop (Nat.max k (Z.to_nat end_)) l, RRemoved (snd <$> drop k (take (Z.to_nat end_) l)))
    else None
  | ZGetRank d e => if isnan d then None else Some (l, RRank (zrank (d, e) l))
  | ZGetElementByRank rank => if 1 <=? rank then Some (l, RNode (l !! Z.to_nat (rank - 1))) else None
  | ZFirstInRange range => Some (l, RNode (head (pick (in_seg (lo_score range) (hi_score range)) l)))
  | ZLastInRange range => Some (l, RNode (last (pick (in_seg (lo_score range) (hi_score range)) l)))
  | ZFirstInLexRange range =>
    if same_scoreb l then Some (l, RNode (head (pick (in_seg (lo_lex range) (hi_lex range)) l))) else None
  | ZLastInLexRange range =>
    if same_scoreb l then Some (l, RNode (last (pick (in_seg (lo_lex range) (hi_lex range)) l))) else None
  end.

Fixpoint spec_zops (l : list zpair) (ops : list zop) : option (list zpair * list zres) :=
  match ops with
  | [] => Some (l, [])
  | op :: ops => '(l, r) ← spec_zop l op; '(l, rs) ← spec_zops l ops; Some (l, r :: rs)
  end.

Section Run.
Context (jl : nat -> option loc * Z) (jb : option loc) (newloc : zmem -> loc).

Definition run_zop (m : zmem) (zsl : zskiplist) (op : zop) : option (zmem * zskiplist * zres) :=
  match op with
  | ZInsert d e rs => '(m, zsl, _) ← zslInsert jl jb m zsl (newloc m) rs d e; Some (m, zsl, RUnit)
  | ZDelete d e => '(m, zsl, _, found) ← zslDelete m zsl d e false; Some (m, zsl, RFound found)
  | ZUpdateScore cur e d rs => '(m, zsl, _) ← zslUpdateScore jl jb m zsl (newloc m) rs cur e d; Some (m, zsl, RUnit)
  | ZDeleteRangeByScore range => '(m, zsl, es) ← zslDeleteRangeByScore m zsl range; Some (m, zsl, RRemoved es)
  | ZDeleteRangeByLex range => '(m, zsl, es) ← zslDeleteRangeByLex m zsl range; Some (m, zsl, RRemoved es)
  | ZDeleteRangeByRank start end_ => '(m, zsl, es) ← zslDeleteRangeByRank m zsl start end_; Some (m, zsl, RRemoved es)
  | ZGetRank d e => r ← zslGetRank m zsl d e; Some (m, zsl, RRank r)
  | ZGetElementByRank rank => x ← zslGetElementByRank m zsl rank; p ← node_pair m x; Some (m, zsl, RNode p)
  | ZFirstInRange range => x ← zslFirstInRange m zsl range; p ← node_pair m x; Some (m, zsl, RNode p)
  | ZLastInRange range => x ← zslLastInRange m zsl range; p ← node_pair m x; Some (m, zsl, RNode p)
  | ZFirstInLexRange range => x ← zslFirstInLexRange m zsl range; p ← node_pair m x; Some (m, zsl, RNode p)
  | ZLastInLexRange range => x ← zslLastInLexRange m zsl range; p ← node_pair m x; Some (m, zsl, RNode p)
  end.

Fixpoint run_zops (m : zmem) (zsl : zskiplist) (ops : list zop) : option (zmem * zskiplist * list zres) :=
  match ops with
  | [] => Some (m, zsl, [])
  | op :: ops =>
    '(m, zsl, r) ← run_zop m zsl op;
    '(m, zsl, rs) ← run_zops m zsl ops;
    Some (m, zsl, r :: rs)
  end.

Definition run_from_empty (ops : list zop) : option (zmem * zskiplist * list zres) :=
  '(m, zsl) ← zslCreate jl jb ∅ (newloc ∅);
  run_zops m zsl ops.

Context (Hnew : forall m, m !! newloc m = None).

Lemma run_zop_refines m zsl xs op l r : zsl_own m zsl xs -> zsorted (view xs) -> spec_zop (view xs) op = Some (l, r) ->
  exists m' zsl' xs', run_zop m zsl op = Some (m', zsl', r) /\ zsl_own m' zsl' xs' /\ view xs' = l /\ zsorted l.
Proof using Hnew.
  intros HO Hs Hsp. pose proof (proj1 HO) as HR. destruct op; cbn [spec_zop run_zop] in *; cbv zeta in Hsp.
  - destruct (isnan d) eqn:Hd; [done|]. destruct (zmem_in (d, e) (view xs)) eqn:Hm; [done|].
    case_bool_decide as Hrs; [|done]. destruct Hrs as [[lv rs'] Hrs]. injection Hsp as <- <-.
    destruct (zslInsert_own jl jb m zsl xs (newloc m) rs d e lv rs' HO Hs Hd (Hnew m) Hrs) as (m' & zsl' & xs' & -> & HO' & Hv).
    exists m', zsl', xs'. split; [done|]. split; [done|]. split; [done|]. by apply zins_sorted.
  - destruct (isnan d) eqn:Hd; [done|]. injection Hsp as <- <-.
    destruct (zslDelete_own m zsl xs d e HO Hs Hd) as (m' & zsl' & xs' & -> & HO' & Hv).
    exists m', zsl', xs'. split; [done|]. split; [done|]. split; [done|]. by apply zsorted_filter.
  - destruct (isnan curscore) eqn:Hc; [done|]. destruct (isnan newscore) eqn:Hd; [done|].
    destruct (zmem_in (curscore, e) (view xs)) eqn:Hin; [|done]. destruct (zmem_in (newscore, e) _) eqn:Hm; [done|].
    case_bool_decide as Hrs; [|done]. destruct Hrs as [[lv rs'] Hrs]. injection Hsp as <- <-.
    destruct (zslUpdateScore_own jl jb m zsl xs (newloc m) rs curscore e newscore lv rs' HO Hs Hc Hd (Hnew m) Hrs Hin)
      as (m' & zsl' & xs' & rs2 & -> & HO' & Hv & _).
    exists m', zsl', xs'. split; [done|]. split; [done|]. split; [done|]. apply zins_sorted; [by apply zsorted_filter|done|done].
  - injection Hsp as <- <-. destruct (zslDeleteRangeByScore_spec range m zsl xs HO Hs) as (m' & zsl' & xs' & -> & HO' & Hv).
    exists m', zsl', xs'. split; [done|]. split; [done|]. split; [done|]. by apply zsorted_filter.
  - destruct (same_scoreb (view xs)) eqn:Hsc; [|done]. apply same_scoreb_spec in Hsc. injection Hsp as <- <-.
    destruct (zslDeleteRangeByLex_spec range HO Hs Hsc) as (m' & zsl' & xs' & -> & HO' & Hv).
    exists m', zsl', xs'. split; [done|]. split; [done|]. split; [done|]. by apply zsorted_filter.
  - destruct (_ && _) eqn:Hb; [|done]. injection Hsp as <- <-.
    destruct (zslDeleteRangeByRank_spec m zsl xs start end_ HO) as (m' & zsl' & xs' & -> & HO' & Hv); [unfold in_u; lia|unfold in_u; lia|].
    rewrite view_length. exists m', zsl', xs'. split; [done|]. split; [done|]. split; [done|].
    by apply zsorted_cut.
  - destruct (isnan d) eqn:Hd; [done|]. injection Hsp as <- <-. rewrite (zslGetRank_spec HR Hs d e) by done. eauto 10.
  - destruct (Z.leb_spec 1 rank); [|done]. injection Hsp as <- <-.
    destruct (zslGetElementByRank_spec HR rank) as (x & -> & Hx); [done|]. cbn [mbind option_bind]. rewrite Hx. eauto 10.
  - injection Hsp as <- <-. destruct (zslFirstInRange_spec range m zsl xs HO Hs) as (x & -> & Hx). cbn [mbind option_bind]. rewrite Hx. eauto 10.
  - injection Hsp as <- <-. destruct (zslLastInRange_spec range m zsl xs HO Hs) as (x & -> & Hx). cbn [mbind option_bind]. rewrite Hx. eauto 10.
  - destruct (same_scoreb (view xs)) eqn:Hsc; [|done]. apply same_scoreb_spec in Hsc. injection Hsp as <- <-.
    destruct (zslFirstInLexRange_spec range HO Hs Hsc) as (x & -> & Hx). cbn [mbind option_bind]. rewrite Hx. eauto 10.
  - destruct (same_scoreb (view xs)) eqn:Hsc; [|done]. apply same_scoreb_spec in Hsc. injection Hsp as <- <-.
    destruct (zslLastInLexRange_spec range HO Hs Hsc) as (x & -> & Hx). cbn [mbind option_bind]. rewrite Hx. eauto 10.
Qed.

Lemma run_zops_refines ops : forall m zsl xs l rs,
  zsl_own m zsl xs -> zsorted (view xs) -> spec_zops (view xs) ops = Some (l, rs) ->
  exists m' zsl' xs', run_zops m zsl ops = Some (m', zsl', rs) /\ zsl_own m' zsl' xs' /\ view xs' = l /\ zsorted l.
Proof using Hnew.
  induction ops as [|op ops IH]; intros m zsl xs l rs HO Hs Hsp; cbn [spec_zops run_zops] in *.
  - injection Hsp as <- <-. eauto 10.
  - destruct (spec_zop (view xs) op) as [[l1 r]|] eqn:E1; [|done]. cbn [mbind option_bind] in Hsp.
    destruct (spec_zops l1 ops) as [[l2 rs2]|] eqn:E2; [|done]. cbn [mbind option_bind] in Hsp. injection Hsp as <- <-.
    destruct (run_zop_refines m zsl xs op l1 r HO Hs E1) as (m1 & zsl1 & xs1 & -> & HO1 & Hv1 & Hs1). cbn [mbind option_bind].
    subst l1. destruct (IH m1 zsl1 xs1 l2 rs2 HO1 Hs1 E2) as (m2 & zsl2 & xs2 & -> & HO2 & Hv2 & Hs2). cbn [mbind option_bind]. eauto 10.
Qed.
End Run.

(** C7. The skip list of sorted sets refines strictly sorted lists of (score,
    element) pairs.  Whatever levels are drawn and whatever addresses the
    allocator returns, a sequence of insertions, deletions, score updates, range
    deletions by score, string and rank, and queries by rank and range that
    respects the contract of the list specification runs without touching
    foreign memory, returns exactly what the specification returns, and leaves a
    store that holds a well-formed skip list of the specified pairs and nothing
    else, so that [zslFree] then leaves no memory behind. *)
Theorem zskiplist_refines_sorted_list jl jb newloc ops l rs :
  (forall m, m !! newloc m = None) ->
  spec_zops [] ops = Some (l, rs) ->
  exists m zsl xs, run_from_empty jl jb newloc ops = Some (m, zsl, rs) /\
    zsl_own m zsl xs /\ view xs = l /\ zsorted l /\ zslFree m zsl = Some ∅.
Proof.
  intros Hnew Hsp. unfold run_from_empty. destruct (zslCreate_own jl jb (newloc ∅)) as (m0 & zsl0 & -> & HO0).
  cbn [mbind option_bind].
  destruct (run_zops_refines jl jb newloc Hnew ops m0 zsl0 [] l rs HO0) as (m & zsl & xs & E & HO & Hv & Hs);
    [by split; constructor|done|].
  exists m, zsl, xs. split; [done|]. split; [done|]. split; [done|]. split; [done|]. by eapply zslFree_spec.
Qed.

Example zskiplist_refines_sorted_list_witness :
  let one := 0x3FF0000000000000 in
  let two := 0x4000000000000000 in
  let three := 0x4008000000000000 in
  let ops :=
    [ZInsert two [98] [9; 9; 2147483647]; ZInsert one [97] [2147483647]; ZInsert two [97; 97] [9; 2147483647];
     ZGetRank two [98]; ZUpdateScore one [97] three [2147483647]; ZGetElementByRank 1;
     ZFirstInRange (mk_zrange two three true false); ZDeleteRangeByRank 2 2; ZDelete three [99]] in
  exists m zsl xs,
    run_from_empty (fun _ => (None, 0)) None (fun m => fresh (dom m)) ops =
      Some (m, zsl, [RUnit; RUnit; RUnit; RRank 3; RUnit; RNode (Some (two, [97; 97])); RNode (Some (three, [97]));
                     RRemoved [[98]]; RFound false]) /\
    zsl_own m zsl xs /\ view xs = [(two, [97; 97]); (three, [97])] /\
    zsorted [(two, [97; 97]); (three, [97])] /\ zslFree m zsl = Some ∅.
Proof.
  cbv zeta. apply zskiplist_refines_sorted_list.
  - intros m. apply not_elem_of_dom, is_fresh.
  - vm_compute. reflexivity.
Defined.
