(* ===== verification/Strobj.v ===== *)
(** * String objects ([object.c])

    A string object holds its bytes in a string of its own ([OBJ_ENCODING_RAW]),
    in a string allocated with the object ([OBJ_ENCODING_EMBSTR]), or as an
    integer ([OBJ_ENCODING_INT]).  Creation, the choice of the encoding,
    decoding, length, comparison and conversion to integers; [None] is a failed
    assertion or an access outside a buffer.  The shared integer objects are
    integer objects like the others.  [undef] is the content of the local
    character buffers before they are written. *)

From Stdlib Require Import ZArith Lia ZifyBool.
From stdpp Require Import base gmap numbers option list.
From S2P Require Import Prelude SdsCmp Numstr.

Local Open Scope Z_scope.

Inductive strobj := StrRaw (s : list Z) | StrEmb (s : list Z) | StrInt (v : Z).

Notation OBJ_ENCODING_EMBSTR_SIZE_LIMIT := 44%Z (only parsing).
Notation OBJ_SHARED_INTEGERS := 10000%Z (only parsing).

(** [LL2STROBJ_AUTO], [LL2STROBJ_NO_SHARED], [LL2STROBJ_NO_INT_ENC] *)
Inductive ll2strobj := LL2STROBJ_AUTO | LL2STROBJ_NO_SHARED | LL2STROBJ_NO_INT_ENC.

Definition sdsEncodedObject (o : strobj) : option (list Z) :=
  match o with StrRaw s | StrEmb s => Some s | StrInt _ => None end.

Definition createRawStringObject (s : list Z) : strobj := StrRaw s.
Definition createEmbeddedStringObject (s : list Z) : strobj := StrEmb s.

Definition createStringObject (s : list Z) : strobj :=
  if Z.of_nat (length s) <=? OBJ_ENCODING_EMBSTR_SIZE_LIMIT
  then createEmbeddedStringObject s else createRawStringObject s.

(** A local buffer of [n] characters, and [ll2string] into it: the characters
    written and the length returned. *)
Definition local_buffer (undef : nat -> Z) (n : Z) : list Z := undef <$> seq 0 (Z.to_nat n).

Definition ll2string_local (undef : nat -> Z) (size v : Z) : option (list Z * Z) :=
  ll2string (local_buffer undef size) 0 size v.

Section Objects.
Context (undef : nat -> Z).

Definition createStringObjectFromLongLongWithOptions (value : Z) (flag : ll2strobj) : option strobj :=
  let auto := match flag with LL2STROBJ_AUTO => true | _ => false end in
  let int_enc := match flag with LL2STROBJ_NO_INT_ENC => false | _ => true end in
  if (value >=? 0) && (value <? OBJ_SHARED_INTEGERS) && auto then Some (StrInt value)
  else if (value >=? INT64_MIN) && (value <=? INT64_MAX) && int_enc then Some (StrInt value)
  else
    '(buf, len) ← ll2string_local undef LONG_STR_SIZE value;
    s ← slice buf 0 len;
    Some (createStringObject s).

Definition createStringObjectFromLongLong (value : Z) : option strobj :=
  createStringObjectFromLongLongWithOptions value LL2STROBJ_AUTO.

(** [no_shared]: the eviction policy needs objects of their own. *)
Definition createStringObjectFromLongLongForValue (no_shared : bool) (value : Z) : option strobj :=
  createStringObjectFromLongLongWithOptions value
    (if no_shared then LL2STROBJ_NO_SHARED else LL2STROBJ_AUTO).

Definition createStringObjectFromLongLongWithSds (value : Z) : option strobj :=
  createStringObjectFromLongLongWithOptions value LL2STROBJ_NO_INT_ENC.

Definition dupStringObject (o : strobj) : strobj :=
  match o with
  | StrRaw s => createRawStringObject s
  | StrEmb s => createEmbeddedStringObject s
  | StrInt v => StrInt v
  end.

Definition isSdsRepresentableAsLongLong (s : list Z) : option Z := string2ll s.

Definition isObjectRepresentableAsLongLong (o : strobj) : option Z :=
  match o with
  | StrInt v => Some v
  | StrRaw s | StrEmb s => isSdsRepresentableAsLongLong s
  end.

Definition tryObjectEncodingEx (no_shared : bool) (o : strobj) (refcount : Z) : option strobj :=
  match o with
  | StrInt _ => Some o
  | StrRaw s | StrEmb s =>
      if refcount >? 1 then Some o
      else
        let len := Z.of_nat (length s) in
        match (if len <=? 20 then string2l s else None) with
        | Some value =>
            if negb no_shared && (value >=? 0) && (value <? OBJ_SHARED_INTEGERS)
            then Some (StrInt value)
            else
              match o with
              | StrEmb _ => createStringObjectFromLongLongForValue no_shared value
              | _ => Some (StrInt value)
              end
        | None =>
            if len <=? OBJ_ENCODING_EMBSTR_SIZE_LIMIT
            then match o with StrEmb _ => Some o | _ => Some (createEmbeddedStringObject s) end
            else Some o
        end
  end.

(** [strlen] of a buffer. *)
Fixpoint strlen (b : list Z) : option Z :=
  match b with
  | [] => None
  | c :: b => if c =? 0 then Some 0 else n ← strlen b; Some (n + 1)
  end.

Definition getDecodedObject (o : strobj) : option strobj :=
  match o with
  | StrRaw _ | StrEmb _ => Some o
  | StrInt v =>
      '(buf, _) ← ll2string_local undef 32 v;
      n ← strlen buf;
      s ← slice buf 0 n;
      Some (createStringObject s)
  end.

(** The bytes to compare, in the object or in a local buffer. *)
Definition comparand (o : strobj) : option (list Z * Z) :=
  match sdsEncodedObject o with
  | Some s => Some (s, Z.of_nat (length s))
  | None => match o with StrInt v => ll2string_local undef 128 v | _ => None end
  end.

(** The binary comparison; [same] tells whether the two pointers are equal.
    The difference of the lengths is returned as an [int]. *)
Definition compareStringObjects (same : bool) (a b : strobj) : option Z :=
  if same then Some 0
  else
    '(astr, alen) ← comparand a;
    '(bstr, blen) ← comparand b;
    let minlen := if alen <? blen then alen else blen in
    let cmp := memcmp (Z.to_nat minlen) astr bstr in
    if cmp =? 0 then Some (s32 (u64 (alen - blen))) else Some cmp.

Definition equalStringObjects (same : bool) (a b : strobj) : option bool :=
  match a, b with
  | StrInt v, StrInt w => Some (v =? w)
  | _, _ => c ← compareStringObjects same a b; Some (c =? 0)
  end.

Definition stringObjectLen (o : strobj) : Z :=
  match o with
  | StrRaw s | StrEmb s => Z.of_nat (length s)
  | StrInt v => sdigits10 v
  end.

(** [o] is [None] for a missing key. *)
Definition getLongLongFromObject (o : option strobj) : option Z :=
  match o with
  | None => Some 0
  | Some (StrRaw s | StrEmb s) => string2ll s
  | Some (StrInt v) => Some v
  end.

Definition getLongFromObject (o : option strobj) : option Z :=
  value ← getLongLongFromObject o;
  if (value <? INT64_MIN) || (value >? INT64_MAX) then None else Some value.

Definition getRangeLongFromObject (o : option strobj) (min max : Z) : option Z :=
  target ← getLongFromObject o;
  if (target <? min) || (target >? max) then None else Some target.
End Objects.

(** ** Correctness *)

(** The string an object stands for. *)
Definition str_value (o : strobj) : list Z :=
  match o with StrRaw s | StrEmb s => s | StrInt v => dec v end.

(** Embedded strings are short; integers are of type [long]. *)
Definition strobj_ok (o : strobj) : Prop :=
  match o with
  | StrRaw s => Forall byteZ s
  | StrEmb s => Forall byteZ s /\ Z.of_nat (length s) <= 44
  | StrInt v => in_s 64 v
  end.

Lemma createStringObject_ok s : Forall byteZ s ->
  strobj_ok (createStringObject s) /\ str_value (createStringObject s) = s.
Proof.
  intros Hs. unfold createStringObject. case_zb; simpl; auto.
Qed.

Lemma dec_bytes v : in_s 64 v -> Forall byteZ (dec v) /\ Forall (fun c => c <> 0) (dec v).
Proof.
  intros Hv. destruct Hv as [H1 H2]. change (2 ^ (64 - 1)) with (2 ^ 63) in *.
  assert (Hu : forall u, 0 <= u < 10 ^ 20 -> Forall byteZ (udec u) /\ Forall (fun c => c <> 0) (udec u)).
  { intros u Hu. destruct (udec_props u Hu) as (_ & Hd & _). unfold byteZ.
    split; (eapply Forall_impl; [exact Hd|]); simpl; intros; lia. }
  unfold dec. case_zb; [|apply Hu; lia]. destruct (Hu (- v) ltac:(lia)). unfold byteZ.
  split; (constructor; [lia|done]).
Qed.

(** Printing an integer into a local buffer that is large enough. *)
Lemma ll2string_local_spec undef size v : in_s 64 v -> 21 <= size ->
  exists q, ll2string_local undef size v = Some (dec v ++ 0 :: q, Z.of_nat (length (dec v))).
Proof.
  intros Hv Hs. unfold ll2string_local.
  assert (Hl : Z.of_nat (length (local_buffer undef size)) = size)
    by (unfold local_buffer; rewrite length_fmap, length_seq; lia).
  pose proof (ll2string_spec (local_buffer undef size) size v Hv ltac:(lia)) as HS.
  pose proof (dec_length v Hv). revert HS. zb. intros ->. by eexists.
Qed.

Lemma strlen_app s q : Forall (fun c => c <> 0) s -> strlen (s ++ 0 :: q) = Some (Z.of_nat (length s)).
Proof.
  induction 1 as [|c s Hc Hs IH]; [done|]. cbn [strlen app]. zb. rewrite IH. cbn [mbind option_bind length]. f_equal. lia.
Qed.

Lemma slice_prefix s q n : n = Z.of_nat (length s) -> slice (s ++ q) 0 n = Some s.
Proof. intros ->. by apply (slice_app [] s q). Qed.

Lemma createStringObjectFromLongLong_spec undef v flag : in_s 64 v ->
  createStringObjectFromLongLongWithOptions undef v flag =
    Some (match flag with LL2STROBJ_NO_INT_ENC => createStringObject (dec v) | _ => StrInt v end).
Proof.
  intros Hv. unfold createStringObjectFromLongLongWithOptions, INT64_MIN, INT64_MAX.
  pose proof Hv as [H1 H2]. change (2 ^ (64 - 1)) with (2 ^ 63) in *.
  destruct flag; rewrite ?andb_true_r, ?andb_false_r; zb; try done; [by destruct (_ && _)|].
  destruct (ll2string_local_spec undef 21 v Hv) as (q & E); [lia|]. unfold LONG_STR_SIZE. rewrite E.
  cbn [mbind option_bind]. by rewrite slice_prefix.
Qed.

Lemma string2l_eq s : string2l s = string2ll s.
Proof.
  unfold string2l. destruct (string2ll s) as [v|] eqn:E; [|done]. cbn [mbind option_bind].
  apply string2ll_sound in E as [[H1 H2] _]. change (2 ^ (64 - 1)) with (2 ^ 63) in *.
  unfold INT64_MIN, INT64_MAX. by zb.
Qed.

Lemma string2ll_value o : strobj_ok o -> string2ll (str_value o) = isObjectRepresentableAsLongLong o.
Proof. destruct o; simpl; try done. apply string2ll_complete. Qed.

Lemma string2ll_short s v : string2ll s = Some v -> Z.of_nat (length s) <= 20 /\ in_s 64 v /\ s = dec v.
Proof. intros [Hv ->]%string2ll_sound. pose proof (dec_length v Hv). repeat split; (apply Hv || lia || done). Qed.

(** Strings that are not integers keep their bytes. *)
Lemma tryObjectEncodingEx_spec undef no_shared o refcount : strobj_ok o -> refcount <= 1 ->
  tryObjectEncodingEx undef no_shared o refcount = Some
    (match string2ll (str_value o) with
     | Some v => StrInt v
     | None => createStringObject (str_value o)
     end).
Proof.
  intros Ho Hr. assert (Hnone : forall b : bool, (if b then @None Z else None) = None) by (by intros []).
  destruct o as [s|s|v]; [..|simpl in *; by rewrite string2ll_complete]; simpl in *;
    rewrite Z.gtb_ltb; zb; rewrite string2l_eq; destruct (string2ll s) as [v|] eqn:E.
  1,3: apply string2ll_short in E as (Hl & Hv & ->); zb; destruct (_ && _); [done|];
    unfold createStringObjectFromLongLongForValue; rewrite ?createStringObjectFromLongLong_spec by done;
    by destruct no_shared.
  - rewrite Hnone. unfold createStringObject. by destruct (_ <=? _).
  - rewrite Hnone. unfold createStringObject. destruct Ho. by zb.
Qed.

Lemma str_value_bytes o : strobj_ok o -> Forall byteZ (str_value o).
Proof. destruct o; simpl; [done|tauto|by apply dec_bytes]. Qed.

Lemma tryObjectEncodingEx_value undef no_shared o refcount : strobj_ok o ->
  exists o', tryObjectEncodingEx undef no_shared o refcount = Some o' /\ strobj_ok o' /\
    str_value o' = str_value o /\ (refcount <= 1 -> forall v, o' = StrInt v <-> string2ll (str_value o) = Some v).
Proof.
  intros Ho. destruct (Z.le_gt_cases refcount 1).
  - eexists. split; [by apply tryObjectEncodingEx_spec|]. destruct (string2ll (str_value o)) as [v|] eqn:E.
    + apply string2ll_short in E as (_ & Hv & ->). split; [done|]. split; [done|]. intros _ w. split; congruence.
    + destruct (createStringObject_ok _ (str_value_bytes o Ho)) as [H1 H2]. split; [done|]. split; [done|]. intros _ w.
      unfold createStringObject. split; [|done]. by destruct (_ <=? _).
  - exists o. split; [|split; [done|split; [done|lia]]]. destruct o; simpl; [..|done]; rewrite Z.gtb_ltb; by zb.
Qed.

Lemma getDecodedObject_spec undef o : strobj_ok o ->
  getDecodedObject undef o = Some (match o with StrInt v => createStringObject (dec v) | _ => o end).
Proof.
  intros Ho. destruct o as [s|s|v]; [done..|]. simpl in *.
  destruct (ll2string_local_spec undef 32 v Ho) as (q & ->); [lia|]. cbn [mbind option_bind].
  rewrite strlen_app by (by apply dec_bytes). cbn [mbind option_bind]. by rewrite slice_prefix.
Qed.

(** C31. String objects are well formed and stand for the same string whatever
    their encoding.  Choosing the encoding of an object keeps its string, gives
    a well-formed object, and encodes an unshared object as an integer exactly
    when its string is the canonical representation of one; decoding,
    duplication, the length and the conversion to an integer agree with the
    string. *)
Theorem string_object_encoding (undef : nat -> Z) (no_shared : bool) (o : strobj) (refcount : Z) :
  strobj_ok o ->
  (exists o', tryObjectEncodingEx undef no_shared o refcount = Some o' /\ strobj_ok o' /\
     str_value o' = str_value o /\
     (refcount <= 1 -> forall v, o' = StrInt v <-> string2ll (str_value o) = Some v)) /\
  (exists o', getDecodedObject undef o = Some o' /\ strobj_ok o' /\ sdsEncodedObject o' = Some (str_value o)) /\
  (strobj_ok (dupStringObject o) /\ str_value (dupStringObject o) = str_value o) /\
  stringObjectLen o = Z.of_nat (length (str_value o)) /\
  getLongLongFromObject (Some o) = string2ll (str_value o).
Proof.
  intros Ho. pose proof (str_value_bytes o Ho) as Hb. split; [|split; [|split; [|split]]].
  - by apply tryObjectEncodingEx_value.
  - eexists. split; [by apply getDecodedObject_spec|]. destruct o as [s|s|v]; [done..|].
    destruct (createStringObject_ok (dec v) Hb) as [H1 H2]. split; [done|]. simpl.
    unfold createStringObject. by destruct (_ <=? _).
  - by destruct o.
  - destruct o; [done..|]. by apply sdigits10_correct.
  - destruct o; [done..|]. simpl. by rewrite string2ll_complete.
Qed.

Lemma string_object_encoding_witness :
  strobj_ok (StrRaw [49; 50]) /\ exists o', tryObjectEncodingEx (fun _ => 0) false (StrRaw [49; 50]) 1 = Some o' /\
    str_value o' = [49; 50].
Proof.
  assert (strobj_ok (StrRaw [49; 50])) as Ho by (repeat constructor; vm_compute; congruence).
  split; [exact Ho|]. destruct (string_object_encoding (fun _ => 0) false _ 1 Ho) as [(o' & H1 & _ & H3 & _) _].
  exists o'. split; [exact H1|exact H3].
Defined.

(** ** Comparison *)

Lemma comparand_spec undef o : strobj_ok o -> exists q,
  comparand undef o = Some (str_value o ++ q, Z.of_nat (length (str_value o))).
Proof.
  intros Ho. destruct o as [s|s|v]; [exists []; simpl; by rewrite app_nil_r..|].
  unfold comparand. simpl. destruct (ll2string_local_spec undef 128 v Ho) as (q & E); [lia|]. by exists (0 :: q).
Qed.

Lemma memcmp_app n : forall s t p q, (n <= length s)%nat -> (n <= length t)%nat ->
  memcmp n (s ++ p) (t ++ q) = memcmp n s t.
Proof.
  induction n as [|n IH]; intros s t p q Hs Ht; [done|].
  destruct s as [|x s], t as [|y t]; simpl in *; try lia. by rewrite IH by lia.
Qed.

(** What the comparison computes. *)
Lemma compareStringObjects_spec undef a b : strobj_ok a -> strobj_ok b ->
  let la := Z.of_nat (length (str_value a)) in
  let lb := Z.of_nat (length (str_value b)) in
  let cmp := memcmp (Z.to_nat (if la <? lb then la else lb)) (str_value a) (str_value b) in
  compareStringObjects undef false a b = Some (if cmp =? 0 then s32 (u64 (la - lb)) else cmp).
Proof.
  intros Ha Hb la lb cmp. unfold compareStringObjects.
  destruct (comparand_spec undef a Ha) as (p & ->). destruct (comparand_spec undef b Hb) as (q & ->).
  cbn [mbind option_bind]. fold la lb. rewrite memcmp_app by (case_zb; lia). fold cmp. by destruct (cmp =? 0).
Qed.

(** Below 2^31 bytes, the comparison of string objects is the order of
    their strings, and two objects are equal exactly when their strings are,
    whatever their encodings. *)
Theorem string_object_comparison (undef : nat -> Z) (same : bool) (a b : strobj) :
  strobj_ok a -> strobj_ok b -> (same = true -> a = b) ->
  Z.of_nat (length (str_value a)) < 2 ^ 31 -> Z.of_nat (length (str_value b)) < 2 ^ 31 ->
  (exists c, compareStringObjects undef same a b = Some c /\ Z.sgn c = sdscmp (str_value a) (str_value b)) /\
  (exists e, equalStringObjects undef same a b = Some e /\ (e = true <-> str_value a = str_value b)).
Proof.
  intros Ha Hb Hsame Hla Hlb.
  assert (Hc : exists c, compareStringObjects undef same a b = Some c /\ Z.sgn c = sdscmp (str_value a) (str_value b)).
  { destruct same; [exists 0; split; [done|]; by rewrite Hsame, sdscmp_refl|].
    eexists. split; [by apply compareStringObjects_spec|]. unfold sdscmp.
    set (la := Z.of_nat (length (str_value a))) in *. set (lb := Z.of_nat (length (str_value b))) in *.
    assert (Hm : forall n s t, memcmp n s t = -1 \/ memcmp n s t = 0 \/ memcmp n s t = 1).
    { induction n as [|n IH]; intros s t; [auto|]. destruct s, t; simpl; auto. repeat case_zb; auto. }
    destruct (Hm (Z.to_nat (if la <? lb then la else lb)) (str_value a) (str_value b)) as [->|[->| ->]]; try done.
    simpl. rewrite swrap_wrap_le, swrap_id by (unfold in_s; lia). repeat case_zb; lia. }
  split; [exact Hc|]. destruct Hc as (c & Hc & Hs).
  assert (Hz : (c =? 0) = true <-> str_value a = str_value b).
  { rewrite Z.eqb_eq. split.
    - intros ->. apply sdscmp_eq0. by rewrite <- Hs.
    - intros E. rewrite E, sdscmp_refl in Hs. lia. }
  destruct a as [s|s|v], b as [t|t|w]; cbn [equalStringObjects]; rewrite ?Hc; try (eexists; split; [done|exact Hz]).
  eexists. split; [done|]. simpl. rewrite Z.eqb_eq. split; [by intros ->|]. intros E.
  assert (Some v = Some w) as [= ->]; [|done]. rewrite <- (string2ll_complete v), <- (string2ll_complete w) by done. by rewrite E.
Qed.


Lemma memcmp_prefix s : forall t, memcmp (length s) s (s ++ t) = 0.
Proof. induction s as [|x s IH]; intros t; [done|]. cbn. rewrite Z.ltb_irrefl. apply IH. Qed.

Lemma memcmp_prefix_r s : forall t, memcmp (length s) (s ++ t) s = 0.
Proof. induction s as [|x s IH]; intros t; [done|]. cbn. rewrite Z.ltb_irrefl. apply IH. Qed.

(** C39. The difference of the lengths is truncated to 32 bits.  A string against
    the same string with [d > 0] more bytes behind it compares as smaller exactly when [d mod 2^32] is
    between 1 and 2^31, as equal exactly when it is 0, and as greater otherwise; in the other
    order it compares as greater exactly when [d mod 2^32] is between 1 and 2^31-1, as equal exactly when it is 0,
    and as smaller otherwise.  [equalStringObjects] takes the two for equal exactly when 2^32 divides [d]. *)
Theorem string_object_comparison_overflow (undef : nat -> Z) (s t : list Z) :
  Forall byteZ (s ++ t) -> t <> [] ->
  let m := Z.of_nat (length t) mod 2 ^ 32 in
  (exists c, compareStringObjects undef false (StrRaw s) (StrRaw (s ++ t)) = Some c /\
    (c < 0 <-> 0 < m <= 2 ^ 31) /\ (c = 0 <-> m = 0) /\ (0 < c <-> 2 ^ 31 < m)) /\
  (exists c, compareStringObjects undef false (StrRaw (s ++ t)) (StrRaw s) = Some c /\
    (0 < c <-> 0 < m < 2 ^ 31) /\ (c = 0 <-> m = 0) /\ (c < 0 <-> 2 ^ 31 <= m)) /\
  equalStringObjects undef false (StrRaw s) (StrRaw (s ++ t)) = Some (m =? 0).
Proof.
  intros Hb Ht m. pose proof Hb as [Hs _]%Forall_app. set (d := Z.of_nat (length t)) in *.
  assert (0 < d) as Hd by (unfold d; destruct t; [done|cbn [length]; lia]).
  assert (compareStringObjects undef false (StrRaw s) (StrRaw (s ++ t)) = Some (s32 (- d))) as E1.
  { rewrite compareStringObjects_spec by done. cbn [str_value]. rewrite length_app. zb.
    rewrite Nat2Z.id, memcmp_prefix, Nat2Z.inj_add. cbn [Z.eqb]. rewrite swrap_wrap_le by lia. do 2 f_equal. unfold d. lia. }
  assert (compareStringObjects undef false (StrRaw (s ++ t)) (StrRaw s) = Some (s32 d)) as E2.
  { rewrite compareStringObjects_spec by done. cbn [str_value]. rewrite length_app. zb.
    rewrite Nat2Z.id, memcmp_prefix_r, Nat2Z.inj_add. cbn [Z.eqb]. rewrite swrap_wrap_le by lia. do 2 f_equal. unfold d. lia. }
  split; [|split].
  - eexists. split; [exact E1|]. unfold swrap, m. change (32 - 1) with 31. Z.div_mod_to_equations. lia.
  - eexists. split; [exact E2|]. unfold swrap, m. change (32 - 1) with 31. Z.div_mod_to_equations. lia.
  - cbn [equalStringObjects]. rewrite E1. cbn [mbind option_bind]. f_equal. apply eq_true_iff_eq. rewrite !Z.eqb_eq.
    unfold swrap, m. change (32 - 1) with 31. Z.div_mod_to_equations. lia.
Qed.

Lemma string_object_comparison_overflow_witness :
  equalStringObjects (fun _ => 0) false (StrRaw []) (StrRaw ([] ++ replicate (Z.to_nat (2 ^ 32)) 0)) = Some true.
Proof.
  destruct (string_object_comparison_overflow (fun _ => 0) [] (replicate (Z.to_nat (2 ^ 32)) 0)) as (_ & _ & HE).
  - apply Forall_replicate. split; vm_compute; congruence.
  - intros E. apply (f_equal (fun l => Z.of_nat (length l))) in E. rewrite length_replicate, Z2Nat.id in E; [discriminate E|].
    vm_compute; congruence.
  - rewrite length_replicate, Z2Nat.id in HE; [exact HE|vm_compute; congruence].
Defined.
