(* ===== verification/SdsArgs.v ===== *)
(** * SdsArgs: quoting and splitting of command lines (sds.c)

    [sdscatrepr] quotes a binary string, [sdssplitargs] splits a line into
    arguments and undoes the quoting.  A C string is the list of the bytes from
    the pointer on, without the terminating zero: reading at or after the end
    gives 0, and a zero byte inside ends the string as well. *)

From Stdlib Require Import ZArith Lia ZifyBool.
From stdpp Require Import base numbers option list.
From S2P Require Import Prelude.

Local Open Scope Z_scope.

(** The character at [p+i]. *)
Definition peek (p : list Z) (i : nat) : Z := default 0 (p !! i).

(** <ctype.h> in the C locale. *)
Definition isspace (c : Z) : bool := (c =? 32) || ((9 <=? c) && (c <=? 13)).
Definition isprint (c : Z) : bool := (32 <=? c) && (c <=? 126).

Definition is_hex_digit (c : Z) : bool :=
  ((48 <=? c) && (c <=? 57)) || ((97 <=? c) && (c <=? 102)) || ((65 <=? c) && (c <=? 70)).

Definition hex_digit_to_int (c : Z) : Z :=
  if (48 <=? c) && (c <=? 57) then c - 48
  else if (97 <=? c) && (c <=? 102) then c - 97 + 10
  else if (65 <=? c) && (c <=? 70) then c - 65 + 10
  else 0.

(** The characters after a backslash. *)
Definition unescape (c : Z) : Z :=
  if c =? 110 then 10 else if c =? 114 then 13 else if c =? 116 then 9
  else if c =? 98 then 8 else if c =? 97 then 7 else c.

(** [inq] and [insq] are never both set. *)
Inductive quoting := plain | inq | insq.

Inductive tokstep :=
| TErr
| TDone (p current : list Z)
| TNext (q : quoting) (p current : list Z).

(** One round of [while(!done)], with the final step past a character that is not the end. *)
Definition token_step (q : quoting) (p current : list Z) : tokstep :=
  let c := peek p 0 in
  match q with
  | inq =>
    if (c =? 92) && (peek p 1 =? 120) && is_hex_digit (peek p 2) && is_hex_digit (peek p 3) then
      TNext inq (drop 4 p) (current ++ [u8 (hex_digit_to_int (peek p 2) * 16 + hex_digit_to_int (peek p 3))])
    else if (c =? 92) && negb (peek p 1 =? 0) then TNext inq (drop 2 p) (current ++ [unescape (peek p 1)])
    else if c =? 34 then
      if negb (peek p 1 =? 0) && negb (isspace (peek p 1)) then TErr else TDone (drop 1 p) current
    else if c =? 0 then TErr
    else TNext inq (drop 1 p) (current ++ [c])
  | insq =>
    if (c =? 92) && (peek p 1 =? 39) then TNext insq (drop 2 p) (current ++ [39])
    else if c =? 39 then
      if negb (peek p 1 =? 0) && negb (isspace (peek p 1)) then TErr else TDone (drop 1 p) current
    else if c =? 0 then TErr
    else TNext insq (drop 1 p) (current ++ [c])
  | plain =>
    if (c =? 32) || (c =? 10) || (c =? 13) || (c =? 9) then TDone (drop 1 p) current
    else if c =? 0 then TDone p current
    else if c =? 34 then TNext inq (drop 1 p) current
    else if c =? 39 then TNext insq (drop 1 p) current
    else TNext plain (drop 1 p) (current ++ [c])
  end.

(** The outer option is fuel, the inner one the [err] label. *)
Fixpoint token (fuel : nat) (q : quoting) (p current : list Z) : option (option (list Z * list Z)) :=
  match fuel with
  | O => None
  | S fuel =>
    match token_step q p current with
    | TErr => Some None
    | TDone p current => Some (Some (p, current))
    | TNext q p current => token fuel q p current
    end
  end.

(** Blanks in front of a token. *)
Fixpoint skip_blanks (p : list Z) : list Z :=
  match p with
  | [] => []
  | c :: p' => if negb (c =? 0) && isspace c then skip_blanks p' else p
  end.

Fixpoint splitargs_loop (fuel : nat) (p : list Z) (vector : list (list Z)) : option (option (list (list Z))) :=
  match fuel with
  | O => None
  | S fuel =>
    let p := skip_blanks p in
    if negb (peek p 0 =? 0) then
      r ← token (S (length p)) plain p [];
      match r with
      | None => Some None
      | Some (p, current) => splitargs_loop fuel p (vector ++ [current])
      end
    else Some (Some vector)
  end.

Definition sdssplitargs (line : list Z) : option (option (list (list Z))) :=
  splitargs_loop (S (length line)) line [].

(** A lower-case hexadecimal digit of [%02x]. *)
Definition hexchar (n : Z) : Z := if n <? 10 then 48 + n else 87 + n.

(** What [sdscatrepr] appends for one byte. *)
Definition repr_char (c : Z) : list Z :=
  if (c =? 92) || (c =? 34) then [92; c]
  else if c =? 10 then [92; 110] else if c =? 13 then [92; 114] else if c =? 9 then [92; 116]
  else if c =? 7 then [92; 97] else if c =? 8 then [92; 98]
  else if isprint c then [c]
  else [92; 120; hexchar (c / 16); hexchar (c mod 16)].

Definition sdscatrepr (s p : list Z) : list Z := s ++ [34] ++ concat (repr_char <$> p) ++ [34].

Definition sdsneedsrepr (s : list Z) : bool :=
  existsb (fun c => (c =? 92) || (c =? 34) || (c =? 10) || (c =? 13) || (c =? 9) || (c =? 7) || (c =? 8) ||
                    negb (isprint c) || isspace c) s.

(** ** Totality: the split returns on every line *)

Definition advances (p : list Z) (t : tokstep) : Prop :=
  match t with
  | TErr => True
  | TDone p' _ => (length p' <= length p)%nat
  | TNext _ p' _ => (length p' < length p)%nat
  end.

Lemma peek_nonzero p : peek p 0 <> 0 -> (0 < length p)%nat.
Proof. destruct p; cbn; lia. Qed.

Ltac split_tests :=
  repeat match goal with |- context [if ?b then _ else _] => destruct b eqn:? end.

Lemma token_step_advances q p current : advances p (token_step q p current).
Proof.
  destruct (decide (peek p 0 = 0)) as [Hz|Hz].
  - unfold token_step. rewrite Hz. destruct q; cbn; lia.
  - pose proof (peek_nonzero p Hz). unfold token_step.
    destruct q; split_tests; cbn [advances]; rewrite ?length_drop; lia.
Qed.

Lemma token_total : forall fuel q p current, (length p < fuel)%nat ->
  exists r, token fuel q p current = Some r /\
    match r with Some (p', _) => (length p' <= length p)%nat | None => True end.
Proof.
  induction fuel as [|fuel IH]; intros q p current Hf; [lia|]. cbn [token].
  pose proof (token_step_advances q p current) as Ha. destruct (token_step q p current) as [|p' cur|q' p' cur]; cbn in Ha.
  - by eexists.
  - by eexists.
  - destruct (IH q' p' cur) as (r & E & Hr); [lia|]. exists r. split; [done|]. destruct r as [[p'' ?]|]; [lia|done].
Qed.

Lemma skip_blanks_length p : (length (skip_blanks p) <= length p)%nat.
Proof. induction p as [|c p IH]; cbn [skip_blanks]; [done|]. destruct (_ && _); cbn [length]; lia. Qed.

Lemma token_plain_shorter p : peek p 0 <> 0 -> isspace (peek p 0) = false ->
  exists r, token (S (length p)) plain p [] = Some r /\
    match r with Some (p', _) => (length p' < length p)%nat | None => True end.
Proof.
  intros Hz Hs. pose proof (peek_nonzero p Hz) as Hl. cbn [token].
  assert (exists q p' cur, token_step plain p [] = TNext q p' cur) as (q & p' & cur & E).
  { unfold token_step. unfold isspace in Hs.
    assert ((peek p 0 =? 32) || (peek p 0 =? 10) || (peek p 0 =? 13) || (peek p 0 =? 9) = false) as -> by lia.
    assert (peek p 0 =? 0 = false) as -> by lia. split_tests; eauto. }
  pose proof (token_step_advances plain p []) as Ha. rewrite E in *. cbn in Ha.
  destruct (token_total (length p) q p' cur) as (r & Er & Hr); [lia|]. exists r. split; [done|].
  destruct r as [[p'' ?]|]; [lia|done].
Qed.

Lemma skip_blanks_head p : peek (skip_blanks p) 0 <> 0 -> isspace (peek (skip_blanks p) 0) = false.
Proof.
  induction p as [|c p IH]; cbn [skip_blanks]; [done|]. destruct (negb (c =? 0) && isspace c) eqn:E; [done|].
  cbn. destruct (isspace c); [|done]. lia.
Qed.

Lemma splitargs_total : forall fuel p vector, (length p < fuel)%nat ->
  exists r, splitargs_loop fuel p vector = Some r.
Proof.
  induction fuel as [|fuel IH]; intros p vector Hf; [lia|]. cbn [splitargs_loop].
  destruct (Z.eqb_spec (peek (skip_blanks p) 0) 0) as [|Hz]; cbn [negb]; [by eexists|].
  destruct (token_plain_shorter _ Hz (skip_blanks_head p Hz)) as (r & -> & Hr). cbn [mbind option_bind].
  pose proof (skip_blanks_length p). destruct r as [[p' cur]|]; [apply IH; lia | by eexists].
Qed.

(** ** Round trip *)

Lemma byte_cases (P : Z -> Prop) : (forall n, (n < 256)%nat -> P (Z.of_nat n)) -> forall c, byteZ c -> P c.
Proof. intros H c [H0 H1]. rewrite <- (Z2Nat.id c) by done. apply H. lia. Qed.

(** Inside double quotes, what [sdscatrepr] wrote for a byte reads back as that byte. *)
Lemma token_repr_char c rest current : byteZ c ->
  token_step inq (repr_char c ++ rest) current = TNext inq rest (current ++ [c]).
Proof.
  revert c. apply byte_cases. intros n Hn. do 256 (destruct n as [|n]; [reflexivity|]). lia.
Qed.

(** Runs of the token loop, without the fuel. *)
Inductive tokens : quoting -> list Z -> list Z -> list Z -> list Z -> Prop :=
| tokens_done q p cur p' cur' : token_step q p cur = TDone p' cur' -> tokens q p cur p' cur'
| tokens_next q p cur q1 p1 cur1 p' cur' :
    token_step q p cur = TNext q1 p1 cur1 -> tokens q1 p1 cur1 p' cur' -> tokens q p cur p' cur'.

Lemma tokens_run q p cur p' cur' fuel : tokens q p cur p' cur' -> (length p < fuel)%nat ->
  token fuel q p cur = Some (Some (p', cur')).
Proof.
  intros H. revert fuel. induction H as [q p cur p' cur' E|q p cur q1 p1 cur1 p' cur' E H IH]; intros fuel Hf;
    (destruct fuel as [|fuel]; [lia|]); cbn [token]; rewrite E; [done|].
  apply IH. pose proof (token_step_advances q p cur) as Ha. rewrite E in Ha. cbn in Ha. lia.
Qed.

Lemma tokens_quoted s rest cur : Forall byteZ s -> (rest = [] \/ exists c r, rest = c :: r /\ isspace c = true) ->
  tokens inq (concat (repr_char <$> s) ++ [34] ++ rest) cur rest (cur ++ s).
Proof.
  intros Hs Hr. revert cur. induction Hs as [|c s Hc Hs IH]; intros cur; cbn [fmap list_fmap concat app].
  - rewrite app_nil_r. apply tokens_done. unfold token_step, peek.
    destruct Hr as [->|(c & r & -> & Hc)]; [reflexivity|]. cbn. rewrite Hc. by destruct (c =? 0).
  - rewrite <- app_assoc. eapply tokens_next; [by apply token_repr_char|].
    replace (cur ++ c :: s) with ((cur ++ [c]) ++ s) by (by rewrite <- app_assoc). apply IH.
Qed.

(** Arguments separated by single spaces. *)
Fixpoint join_spaces (args : list (list Z)) : list Z :=
  match args with
  | [] => []
  | [a] => a
  | a :: args => a ++ 32 :: join_spaces args
  end.

Definition quote_args (args : list (list Z)) : list Z := join_spaces (sdscatrepr [] <$> args).

Lemma quote_args_cons a args :
  exists rest, quote_args (a :: args) = 34 :: concat (repr_char <$> a) ++ [34] ++ rest /\
    (rest = [] \/ exists c r, rest = c :: r /\ isspace c = true) /\ skip_blanks rest = skip_blanks (quote_args args).
Proof.
  destruct args as [|b args].
  - exists []. cbn. rewrite ?app_nil_r. repeat split. by left.
  - exists (32 :: quote_args (b :: args)). split; [|split].
    + unfold quote_args. cbn [fmap list_fmap join_spaces]. unfold sdscatrepr at 1. cbn [app].
      by rewrite <- app_assoc.
    + right. by eexists _, _.
    + reflexivity.
Qed.

Lemma splitargs_quoted : forall args fuel p vector, Forall (Forall byteZ) args -> (length args < fuel)%nat ->
  skip_blanks p = skip_blanks (quote_args args) -> splitargs_loop fuel p vector = Some (Some (vector ++ args)).
Proof.
  induction args as [|a args IH]; intros fuel p vector Hb Hf Hp;
    (destruct fuel as [|fuel]; [cbn in Hf; lia|]); cbn [splitargs_loop]; rewrite Hp.
  - cbn. by rewrite app_nil_r.
  - apply Forall_cons in Hb as [Ha Hb]. destruct (quote_args_cons a args) as (rest & E & Hr & Hs). rewrite E.
    set (body := concat (repr_char <$> a) ++ [34] ++ rest) in *.
    change (skip_blanks (34 :: body)) with (34 :: body). change (negb (peek (34 :: body) 0 =? 0)) with true. cbv iota.
    rewrite (tokens_run plain (34 :: body) [] rest a); [|eapply tokens_next; [reflexivity|]; by apply tokens_quoted|lia].
    cbn [mbind option_bind]. rewrite (IH fuel rest (vector ++ [a])); [by rewrite <- app_assoc|done|cbn in Hf; lia|done].
Qed.

Lemma quote_args_length args : (length args <= length (quote_args args))%nat.
Proof.
  induction args as [|a [|b args] IH]; cbn [length] in *; [lia| |].
  - unfold quote_args. cbn. lia.
  - unfold quote_args in *. cbn [fmap list_fmap join_spaces] in *. rewrite length_app. cbn [length]. lia.
Qed.

(** C33. Quoting and splitting are inverse: for any list of binary strings, the
    line made of their [sdscatrepr] forms separated by spaces is split by
    [sdssplitargs] into exactly these strings. *)
Theorem sdssplitargs_roundtrip (args : list (list Z)) : Forall (Forall byteZ) args ->
  sdssplitargs (quote_args args) = Some (Some args).
Proof.
  intros Hb. unfold sdssplitargs. rewrite (splitargs_quoted args _ (quote_args args) []); try done.
  pose proof (quote_args_length args). lia.
Qed.

Example sdssplitargs_roundtrip_witness :
  sdssplitargs (quote_args [[104; 105]; []; [34; 92; 0; 10; 255; 32]]) = Some (Some [[104; 105]; []; [34; 92; 0; 10; 255; 32]]).
Proof. apply sdssplitargs_roundtrip. apply (bool_decide_unpack _). by vm_compute. Defined.
