(* ===== verification/Resp.v ===== *)
(** * Resp: reading client requests (networking.c)

    The query buffer of a client and the parsers of the two request formats:
    inline commands, and RESP arrays of bulk strings, which resume where they
    stopped when more data arrives.  The command executor is a parameter: it
    gets the client with its argument vector and says how the execution went.
    Flags of the client that the parsers neither set nor read, logging, memory
    accounting and the connection are left out. *)

From Stdlib Require Import ZArith Lia ZifyBool.
From stdpp Require Import base numbers option list.
From S2P Require Import Prelude Numstr SdsArgs.

Local Open Scope Z_scope.

Notation PROTO_INLINE_MAX_SIZE := (1024 * 64)%Z (only parsing).
Notation PROTO_MBULK_BIG_ARG := (1024 * 32)%Z (only parsing).
Notation PROTO_REQ_INLINE := 1%Z (only parsing).
Notation PROTO_REQ_MULTIBULK := 2%Z (only parsing).
Definition INT_MAX : Z := 2 ^ 31 - 1.

(** The errors of [setProtocolError]. *)
Inductive proto_error :=
| too_big_inline_request
| unbalanced_quotes
| master_using_inline
| too_big_mbulk_count
| invalid_mbulk_count
| unauth_mbulk_count
| too_big_bulk_count
| expected_dollar (got : Z)
| invalid_bulk_length
| unauth_bulk_length.

(** The fields of [client] that request parsing uses.  [argv] holds the [argc]
    arguments, [argv_len] is the size of the array.  [closing] stands for
    [CLIENT_CLOSE_AFTER_REPLY] and [CLIENT_CLOSE_ASAP]; [repl_stream] is what was
    passed to [replicationFeedStreamFromMasterStream]. *)
Record client := mk_client {
  querybuf : list Z; qb_pos : Z;
  reqtype : Z; multibulklen : Z; bulklen : Z;
  argv : list (list Z); argv_len : Z; argv_len_sum : Z;
  blocked : bool; pending_command : bool; closing : bool; auth_required : bool;
  repl_ack_time : Z; reploff : Z; read_reploff : Z; repl_applied : Z;
  repl_stream : list Z; errors : list proto_error
}.

(** What does not change while a request is read. *)
Record config := mk_config {
  master : bool;
  slave : bool;
  proto_max_bulk_len : Z;
  client_max_querybuf_len : Z;
  unixtime : Z;
  io_threads_idle : bool;
  long_command : bool
}.

(** ** Updates of the record *)

Definition set_qb (c : client) (b : list Z) (p : Z) : client :=
  mk_client b p (reqtype c) (multibulklen c) (bulklen c) (argv c) (argv_len c) (argv_len_sum c)
    (blocked c) (pending_command c) (closing c) (auth_required c)
    (repl_ack_time c) (reploff c) (read_reploff c) (repl_applied c) (repl_stream c) (errors c).
Definition set_pos (c : client) (p : Z) : client := set_qb c (querybuf c) p.
Definition set_req (c : client) (rt mb bl : Z) : client :=
  mk_client (querybuf c) (qb_pos c) rt mb bl (argv c) (argv_len c) (argv_len_sum c)
    (blocked c) (pending_command c) (closing c) (auth_required c)
    (repl_ack_time c) (reploff c) (read_reploff c) (repl_applied c) (repl_stream c) (errors c).
Definition set_argv (c : client) (av : list (list Z)) (al sum : Z) : client :=
  mk_client (querybuf c) (qb_pos c) (reqtype c) (multibulklen c) (bulklen c) av al sum
    (blocked c) (pending_command c) (closing c) (auth_required c)
    (repl_ack_time c) (reploff c) (read_reploff c) (repl_applied c) (repl_stream c) (errors c).
Definition set_flags (c : client) (bl pend cl auth : bool) : client :=
  mk_client (querybuf c) (qb_pos c) (reqtype c) (multibulklen c) (bulklen c)
    (argv c) (argv_len c) (argv_len_sum c) bl pend cl auth
    (repl_ack_time c) (reploff c) (read_reploff c) (repl_applied c) (repl_stream c) (errors c).
Definition set_repl (c : client) (ack off roff app : Z) (st : list Z) : client :=
  mk_client (querybuf c) (qb_pos c) (reqtype c) (multibulklen c) (bulklen c)
    (argv c) (argv_len c) (argv_len_sum c) (blocked c) (pending_command c) (closing c) (auth_required c)
    ack off roff app st (errors c).

Definition setProtocolError (e : proto_error) (c : client) : client :=
  mk_client (querybuf c) (qb_pos c) (reqtype c) (multibulklen c) (bulklen c)
    (argv c) (argv_len c) (argv_len_sum c) (blocked c) (pending_command c) true (auth_required c)
    (repl_ack_time c) (reploff c) (read_reploff c) (repl_applied c) (repl_stream c) (errors c ++ [e]).

(** [c->argv[c->argc++] = arg], where [len] is added to the sum of the lengths;
    [None] is a write outside the array. *)
Definition store_arg (c : client) (arg : list Z) (len : Z) : option client :=
  if Z.of_nat (length (argv c)) <? argv_len c
  then Some (set_argv c (argv c ++ [arg]) (argv_len c) (argv_len_sum c + len)) else None.

Fixpoint store_args (c : client) (args : list (list Z)) : option client :=
  match args with
  | [] => Some c
  | arg :: args => c ← store_arg c arg (Z.of_nat (length arg)); store_args c args
  end.

(** ** Reading the buffer *)

(** The bytes at [querybuf+qb_pos], and how many they are. *)
Definition unread (c : client) : list Z := drop (Z.to_nat (qb_pos c)) (querybuf c).
Definition avail (c : client) : Z := Z.of_nat (length (querybuf c)) - qb_pos c.

(** [strchr], for a character other than zero: the buffer is followed by a zero. *)
Fixpoint strchr (s : list Z) (c : Z) : option nat :=
  match s with
  | [] => None
  | x :: s => if x =? c then Some O else if x =? 0 then None else S <$> strchr s c
  end.

(** ** Inline requests *)

Definition processInlineBuffer (cf : config) (c : client) : option (client * bool) :=
  match strchr (unread c) 10 with
  | None =>
    Some (if PROTO_INLINE_MAX_SIZE <? avail c then setProtocolError too_big_inline_request c else c, false)
  | Some newline =>
    let '(querylen, linefeed_chars) :=
      if negb (newline =? 0)%nat && (peek (unread c) (newline - 1) =? 13) then ((newline - 1)%nat, 2) else (newline, 1) in
    split ← sdssplitargs (take querylen (unread c));
    match split with
    | None => Some (setProtocolError unbalanced_quotes c, false)
    | Some args =>
      let c := if (querylen =? 0)%nat && slave cf
               then set_repl c (unixtime cf) (reploff c) (read_reploff c) (repl_applied c) (repl_stream c) else c in
      if negb (querylen =? 0)%nat && master cf then Some (setProtocolError master_using_inline c, false) else
      let c := set_pos c (qb_pos c + Z.of_nat querylen + linefeed_chars) in
      let argc := Z.of_nat (length args) in
      let c := if negb (argc =? 0) then set_argv c (argv c) argc 0 else c in
      c ← store_args (set_argv c [] (argv_len c) (argv_len_sum c)) args;
      Some (c, true)
    end
  end.

(** ** RESP requests *)

(** The multi bulk count: [Some b] returns [b], [None] goes on to the arguments. *)
Definition multibulk_count (c : client) : option (client * option bool) :=
  if negb (multibulklen c =? 0) then Some (c, None) else
  if negb (Z.of_nat (length (argv c)) =? 0) then None else
  match strchr (unread c) 13 with
  | None =>
    Some (if PROTO_INLINE_MAX_SIZE <? avail c then setProtocolError too_big_mbulk_count c else c, Some false)
  | Some newline =>
    if avail c - 2 <? Z.of_nat newline then Some (c, Some false) else
    if negb (peek (unread c) 0 =? 42) then None else
    match string2ll (take (newline - 1) (drop 1 (unread c))) with
    | None => Some (setProtocolError invalid_mbulk_count c, Some false)
    | Some ll =>
      if INT_MAX <? ll then Some (setProtocolError invalid_mbulk_count c, Some false) else
      if (10 <? ll) && auth_required c then Some (setProtocolError unauth_mbulk_count c, Some false) else
      let c := set_pos c (qb_pos c + Z.of_nat newline + 2) in
      if ll <=? 0 then Some (c, Some true) else
      let c := set_req c (reqtype c) ll (bulklen c) in
      Some (set_argv c (argv c) (Z.min ll 1024) 0, None)
    end
  end.

Inductive bulk_result := BBreak (c : client) | BReturn (c : client) | BGo (c : client).

Definition bulk_length (cf : config) (c : client) : bulk_result :=
  if negb (bulklen c =? -1) then BGo c else
  match strchr (unread c) 13 with
  | None =>
    if PROTO_INLINE_MAX_SIZE <? avail c then BReturn (setProtocolError too_big_bulk_count c) else BBreak c
  | Some newline =>
    if avail c - 2 <? Z.of_nat newline then BBreak c else
    if negb (peek (unread c) 0 =? 36) then BReturn (setProtocolError (expected_dollar (peek (unread c) 0)) c) else
    match string2ll (take (newline - 1) (drop 1 (unread c))) with
    | None => BReturn (setProtocolError invalid_bulk_length c)
    | Some ll =>
      if (ll <? 0) || (negb (master cf) && (proto_max_bulk_len cf <? ll))
      then BReturn (setProtocolError invalid_bulk_length c) else
      if (16384 <? ll) && auth_required c then BReturn (setProtocolError unauth_bulk_length c) else
      let c := set_pos c (qb_pos c + Z.of_nat newline + 2) in
      let c := if negb (master cf) && (PROTO_MBULK_BIG_ARG <=? ll) && (avail c <=? ll + 2)
               then set_qb c (unread c) 0 else c in
      BGo (set_req c (reqtype c) (multibulklen c) ll)
    end
  end.

(** The size of the argument array once there is space for another argument. *)
Definition grow_argv (c : client) : Z :=
  let argc := Z.of_nat (length (argv c)) in
  if argv_len c <=? argc
  then Z.min (if argv_len c <? INT_MAX / 2 then argv_len c * 2 else INT_MAX) (argc + multibulklen c)
  else argv_len c.

(** [None] is a read outside the query buffer or a write outside the argument array. *)
Definition bulk_argument (cf : config) (c : client) : option bulk_result :=
  if avail c <? bulklen c + 2 then Some (BBreak c) else
  let c := set_argv c (argv c) (grow_argv c) (argv_len_sum c) in
  let big := negb (master cf) && (qb_pos c =? 0) && (PROTO_MBULK_BIG_ARG <=? bulklen c) &&
             (Z.of_nat (length (querybuf c)) =? bulklen c + 2) in
  arg ← slice (querybuf c) (qb_pos c) (bulklen c);
  c' ← store_arg c arg (bulklen c);
  let c' := if big then set_qb c' [] 0 else set_pos c' (qb_pos c + bulklen c + 2) in
  Some (BGo (set_req c' (reqtype c) (multibulklen c - 1) (-1))).

(** [while(c->multibulklen)] *)
Fixpoint multibulk_loop (fuel : nat) (cf : config) (c : client) : option (client * bool) :=
  if multibulklen c =? 0 then Some (c, true) else
  match fuel with
  | O => None
  | S fuel =>
    match bulk_length cf c with
    | BBreak c | BReturn c => Some (c, false)
    | BGo c =>
      b ← bulk_argument cf c;
      match b with
      | BBreak c | BReturn c => Some (c, false)
      | BGo c => multibulk_loop fuel cf c
      end
    end
  end.

Definition processMultibulkBuffer (cf : config) (c : client) : option (client * bool) :=
  '(c, r) ← multibulk_count c;
  match r with
  | Some b => Some (c, b)
  | None => if 0 <? multibulklen c then multibulk_loop (Z.to_nat (multibulklen c)) cf c else None
  end.

(** ** Running commands *)

Definition freeClientArgv (c : client) : client := set_argv c [] 0 0.
Definition resetClient (c : client) : client := set_req (freeClientArgv c) 0 0 (-1).

(** What [processCommand] did: whether it returned [C_OK], whether the client
    was freed, and the flags it leaves. *)
Record cmd_result := mk_result {
  cr_ok : bool; cr_dead : bool; cr_blocked : bool; cr_closing : bool; cr_multi : bool; cr_auth_required : bool
}.

Definition commandProcessed (cf : config) (multi : bool) (c : client) : client :=
  if blocked c then c else
  let c := resetClient c in
  let prev_offset := reploff c in
  let off := if master cf && negb multi then read_reploff c - Z.of_nat (length (querybuf c)) + qb_pos c else reploff c in
  let applied := off - prev_offset in
  let c := set_repl c (repl_ack_time c) off (read_reploff c) (repl_applied c) (repl_stream c) in
  if master cf && negb (applied =? 0) then
    set_repl c (repl_ack_time c) off (read_reploff c) (repl_applied c + applied)
      (repl_stream c ++ take (Z.to_nat applied) (drop (Z.to_nat (repl_applied c)) (querybuf c)))
  else c.

Section Run.
Context {App : Type} (cf : config) (processCommand : App -> client -> App * cmd_result).

(** The flag tells whether the client is still alive. *)
Definition processCommandAndResetClient (app : App) (c : client) : App * client * bool :=
  let '(app, r) := processCommand app c in
  let c := set_flags c (cr_blocked r) (pending_command c) (closing c || cr_closing r) (cr_auth_required r) in
  let c := if cr_ok r then commandProcessed cf (cr_multi r) c else c in
  (app, c, negb (cr_dead r)).

(** [while(c->qb_pos < sdslen(c->querybuf))] *)
Fixpoint input_loop (fuel : nat) (app : App) (c : client) : option (App * client * bool) :=
  if negb (qb_pos c <? Z.of_nat (length (querybuf c))) then Some (app, c, true) else
  match fuel with
  | O => None
  | S fuel =>
    if blocked c || pending_command c || (long_command cf && master cf) || closing c then Some (app, c, true) else
    let c := if reqtype c =? 0
             then set_req c (if peek (unread c) 0 =? 42 then PROTO_REQ_MULTIBULK else PROTO_REQ_INLINE)
                    (multibulklen c) (bulklen c)
             else c in
    '(c, ok) ← (if reqtype c =? PROTO_REQ_INLINE then processInlineBuffer cf c
                else if reqtype c =? PROTO_REQ_MULTIBULK then processMultibulkBuffer cf c else None);
    if negb ok then Some (app, c, true) else
    if Z.of_nat (length (argv c)) =? 0 then input_loop fuel app (resetClient c) else
    if negb (io_threads_idle cf) then
      Some (app, set_flags c (blocked c) true (closing c) (auth_required c), true)
    else
      let '(app, c, alive) := processCommandAndResetClient app c in
      if alive : bool then input_loop fuel app c else Some (app, c, false)
  end.

(** The final trimming of the buffer. *)
Definition trim_querybuf (c : client) : client :=
  if master cf then
    if negb (repl_applied c =? 0) then
      set_repl (set_qb c (drop (Z.to_nat (repl_applied c)) (querybuf c)) (qb_pos c - repl_applied c))
        (repl_ack_time c) (reploff c) (read_reploff c) 0 (repl_stream c)
    else c
  else if negb (qb_pos c =? 0) then set_qb c (unread c) 0 else c.

Definition processInputBuffer (app : App) (c : client) : option (App * client * bool) :=
  '(app, c, alive) ← input_loop (length (querybuf c)) app c;
  Some (app, if (alive : bool) then trim_querybuf c else c, alive).

Definition processPendingCommandAndInputBuffer (app : App) (c : client) : option (App * client * bool) :=
  let '(app, c, alive) :=
    if pending_command c
    then processCommandAndResetClient app (set_flags c (blocked c) false (closing c) (auth_required c))
    else (app, c, true) in
  if negb alive then Some (app, c, false) else
  if negb (Z.of_nat (length (querybuf c)) =? 0) then processInputBuffer app c else Some (app, c, true).

(** [readQueryFromClient] once [connRead] has delivered [data], of at least a byte. *)
Definition readQueryFromClient (app : App) (c : client) (data : list Z) : option (App * client * bool) :=
  let nread := Z.of_nat (length data) in
  let buf := querybuf c ++ data in
  let qblen := Z.of_nat (length buf) in
  let c := set_qb c buf (qb_pos c) in
  let c := if master cf then set_repl c (repl_ack_time c) (reploff c) (read_reploff c + nread) (repl_applied c) (repl_stream c)
           else c in
  if negb (master cf) && (client_max_querybuf_len cf <? qblen)
  then Some (app, set_flags c (blocked c) (pending_command c) true (auth_required c), true)
  else processInputBuffer app c.

(** Data arriving in pieces, while the client is alive. *)
Fixpoint read_all (app : App) (c : client) (chunks : list (list Z)) : option (App * client * bool) :=
  match chunks with
  | [] => Some (app, c, true)
  | data :: chunks =>
    '(app, c, alive) ← readQueryFromClient app c data;
    if alive : bool then read_all app c chunks else Some (app, c, false)
  end.
End Run.

(** A client as [createClient] leaves it. *)
Definition new_client : client :=
  mk_client [] 0 0 0 (-1) [] 0 0 false false false false 0 0 0 0 [] [].
