(* ===== verification/RespProof.v ===== *)
(** * RespProof: the request parser on arbitrary input

    Whatever bytes arrive, in whatever pieces, reading them never fails an
    assertion, never reads outside the query buffer and never writes outside
    the argument array; and what a replica forwards of its master's stream is
    exactly what it received and applied. *)

From Stdlib Require Import ZArith Lia ZifyBool.
From stdpp Require Import base numbers option list.
From S2P Require Import Prelude Numstr SdsArgs Resp.

Local Open Scope Z_scope.

Lemma strchr_lookup s c n : strchr s c = Some n -> s !! n = Some c.
Proof.
  revert n. induction s as [|x s IH]; intros n; cbn [strchr]; [done|].
  destruct (Z.eqb_spec x c) as [->|]; [by intros [= <-]|]. destruct (x =? 0); [done|].
  destruct (strchr s c) as [k|]; [|done]. intros [= <-]. by apply IH.
Qed.

Lemma strchr_lt s c n : strchr s c = Some n -> (n < length s)%nat.
Proof. intros H%strchr_lookup. by eapply lookup_lt_Some. Qed.

(** ** Invariants *)

Definition waiting (c : client) : bool := blocked c || pending_command c.

Definition pos_ok (c : client) : Prop := 0 <= qb_pos c <= Z.of_nat (length (querybuf c)).

(** In the middle of a RESP request: there is a slot for the next argument after
    the growth, and the counts fit an [int]. *)
Definition args_ok (c : client) : Prop :=
  Z.of_nat (length (argv c)) <= argv_len c /\ 1 <= argv_len c <= INT_MAX /\
  Z.of_nat (length (argv c)) + multibulklen c <= INT_MAX.

Record client_ok (c : client) : Prop := {
  ok_pos : pos_ok c;
  ok_bulk : -1 <= bulklen c;
  ok_count : 0 <= multibulklen c;
  ok_type : reqtype c = 0 \/ reqtype c = PROTO_REQ_INLINE \/ reqtype c = PROTO_REQ_MULTIBULK;
  ok_busy : 0 < multibulklen c -> reqtype c = PROTO_REQ_MULTIBULK /\ args_ok c;
  ok_idle : waiting c = false -> multibulklen c = 0 ->
    argv c = [] /\ (reqtype c = PROTO_REQ_MULTIBULK -> peek (unread c) 0 = 42)
}.

(** The stream of a master: what was forwarded, then what is not applied yet. *)
Definition repl_ok (cf : config) (received : list Z) (c : client) : Prop :=
  master cf = true ->
  reploff c = read_reploff c - Z.of_nat (length (querybuf c)) + repl_applied c /\
  0 <= repl_applied c <= qb_pos c /\
  repl_stream c ++ drop (Z.to_nat (repl_applied c)) (querybuf c) = received.

(** What parsing may do to the buffer and to the fields it does not own. *)
Record moved (cf : config) (c c' : client) : Prop := {
  mv_buf : master cf = true -> querybuf c' = querybuf c /\ qb_pos c <= qb_pos c';
  mv_repl : reploff c' = reploff c /\ read_reploff c' = read_reploff c /\
    repl_applied c' = repl_applied c /\ repl_stream c' = repl_stream c;
  mv_flags : blocked c' = blocked c /\ pending_command c' = pending_command c /\ auth_required c' = auth_required c;
  mv_len : (length (unread c') <= length (unread c))%nat
}.

Lemma moved_refl cf c : moved cf c c.
Proof. constructor; auto with lia. Qed.

Lemma client_moved_trans cf a b c : moved cf a b -> moved cf b c -> moved cf a c.
Proof.
  intros [H1 H2 H3 H4] [H1' H2' H3' H4']. constructor; [|intuition congruence|intuition congruence|by etransitivity].
  intros Hm. destruct (H1 Hm) as [E1 L1], (H1' Hm) as [E2 L2]. split; [congruence|by etransitivity].
Qed.

Lemma moved_repl cf r c c' : moved cf c c' -> repl_ok cf r c -> repl_ok cf r c'.
Proof.
  intros [H1 H2 _ _] HR Hm. destruct (H1 Hm) as [E ?], (HR Hm) as (Ho & Ha & Hs), H2 as (E1 & E2 & E3 & E4).
  rewrite E, E1, E2, E3, E4. repeat split; try done; lia.
Qed.

Lemma length_unread c : pos_ok c -> Z.of_nat (length (unread c)) = avail c.
Proof. intros H. unfold unread, avail, pos_ok in *. rewrite length_drop. lia. Qed.

(** Steps that only move the position. *)
Lemma unread_set_pos c p : qb_pos c <= p -> 0 <= qb_pos c -> unread (set_pos c p) = drop (Z.to_nat (p - qb_pos c)) (unread c).
Proof. intros H H0. unfold unread. cbn [qb_pos querybuf set_pos set_qb]. rewrite drop_drop. f_equal. lia. Qed.

Ltac simp_client :=
  cbn [querybuf qb_pos reqtype multibulklen bulklen argv argv_len argv_len_sum blocked pending_command closing
       auth_required repl_ack_time reploff read_reploff repl_applied repl_stream errors
       set_qb set_pos set_req set_argv set_flags set_repl setProtocolError freeClientArgv resetClient] in *.

(** A complete request: the arguments are in [argv]. *)
Definition parsed_ok (c : client) : Prop :=
  pos_ok c /\ -1 <= bulklen c /\ multibulklen c = 0 /\ (reqtype c = PROTO_REQ_INLINE \/ reqtype c = PROTO_REQ_MULTIBULK).

(** ** Inline requests *)

Lemma store_args_spec args : forall c, Z.of_nat (length (argv c)) + Z.of_nat (length args) <= argv_len c ->
  store_args c args = Some (set_argv c (argv c ++ args) (argv_len c) (argv_len_sum c + Z.of_nat (length (concat args)))).
Proof.
  induction args as [|a args IH]; intros c Hc; cbn [store_args concat length] in *.
  - rewrite app_nil_r, Z.add_0_r. by destruct c.
  - unfold store_arg. zb_true (Z.of_nat (length (argv c)) <? argv_len c). cbn [mbind option_bind]. rewrite IH.
    + simp_client. rewrite <- app_assoc, length_app. unfold set_argv. simp_client. do 2 f_equal. lia.
    + simp_client. rewrite length_app. cbn [length]. lia.
Qed.

(** The array of an inline request has a slot for each argument. *)
Lemma inline_args (c : client) args :
  exists al s, store_args (set_argv (if negb (Z.of_nat (length args) =? 0) then set_argv c (argv c) (Z.of_nat (length args)) 0 else c) []
      (argv_len (if negb (Z.of_nat (length args) =? 0) then set_argv c (argv c) (Z.of_nat (length args)) 0 else c))
      (argv_len_sum (if negb (Z.of_nat (length args) =? 0) then set_argv c (argv c) (Z.of_nat (length args)) 0 else c))) args =
    Some (set_argv c args al s).
Proof.
  destruct args as [|a args]; [by eexists _, _|].
  assert (negb (Z.of_nat (length (a :: args)) =? 0) = true) as -> by (cbn [length]; lia).
  rewrite store_args_spec by (simp_client; cbn [length]; lia). by eexists _, _.
Qed.

Lemma processInlineBuffer_total cf c : client_ok c -> waiting c = false -> reqtype c = PROTO_REQ_INLINE ->
  exists c' ok, processInlineBuffer cf c = Some (c', ok) /\ moved cf c c' /\
    (ok = false -> client_ok c') /\
    (ok = true -> parsed_ok c' /\ (length (unread c') < length (unread c))%nat).
Proof.
  intros Hok Hw Ht. pose proof (ok_pos c Hok) as Hp. unfold processInlineBuffer.
  assert (multibulklen c = 0) as Hmb.
  { pose proof (ok_count c Hok). destruct (decide (0 < multibulklen c)) as [Hb|]; [|lia].
    destruct (ok_busy c Hok Hb). lia. }
  assert (forall e, client_ok (setProtocolError e c)) as Herr.
  { intros e. destruct Hok. constructor; simp_client; done. }
  assert (forall e, moved cf c (setProtocolError e c)) as Hmerr by (intros e; constructor; simp_client; auto with lia).
  destruct (strchr (unread c) 10) as [newline|] eqn:En.
  2: { destruct (_ <? _); eexists _, false; (split; [done|]); (split; [by auto using moved_refl|]); (split; [by auto|done]). }
  apply strchr_lt in En. pose proof (length_unread c Hp) as Hl.
  destruct (if negb (newline =? 0)%nat && (peek (unread c) (newline - 1) =? 13) then ((newline - 1)%nat, 2) else (newline, 1))
    as [querylen lf] eqn:Eq.
  assert (Z.of_nat querylen + lf = Z.of_nat newline + 1) as Hq by (destruct (_ && _) eqn:Eb; injection Eq as <- <-; lia).
  clear Eq. destruct (splitargs_total (S (length (take querylen (unread c)))) (take querylen (unread c)) []) as [r Er]; [lia|].
  unfold sdssplitargs. rewrite Er. cbn [mbind option_bind]. destruct r as [args|].
  2: { eexists _, false. split; [done|]. split; [apply Hmerr|]. split; [intros _; apply Herr|done]. }
  set (c1 := if _ && slave cf then _ else c).
  assert (moved cf c c1) as Hm1 by (unfold c1; destruct (_ && slave cf); [constructor; simp_client; auto with lia | apply moved_refl]).
  assert (client_ok c1) as Hok1.
  { unfold c1. destruct (_ && slave cf); [|done]. destruct Hok. constructor; simp_client; done. }
  assert (unread c1 = unread c /\ qb_pos c1 = qb_pos c /\ querybuf c1 = querybuf c /\ reqtype c1 = reqtype c /\ multibulklen c1 = 0)
    as (Hu & Hpos & Hqb & Hrt & Hmb1).
  { unfold c1. by destruct (_ && slave cf). }
  destruct (_ && master cf).
  { eexists _, false. split; [done|]. split; [|split; [|done]].
    - eapply client_moved_trans; [exact Hm1|]. constructor; simp_client; auto with lia.
    - intros _. destruct Hok1. constructor; simp_client; done. }
  cbv zeta. clearbody c1.
  destruct (inline_args (set_pos c1 (qb_pos c1 + Z.of_nat querylen + lf)) args) as (al & s & ->). cbn [mbind option_bind].
  eexists _, true. split; [done|]. unfold avail in Hl. unfold pos_ok in *.
  assert (length (unread (set_argv (set_pos c1 (qb_pos c1 + Z.of_nat querylen + lf)) args al s)) < length (unread c))%nat as Hlt.
  { change (unread (set_argv (set_pos c1 (qb_pos c1 + Z.of_nat querylen + lf)) args al s))
      with (unread (set_pos c1 (qb_pos c1 + Z.of_nat querylen + lf))).
    rewrite unread_set_pos, Hu, length_drop by lia. lia. }
  split; [|split; [done|]].
  - destruct Hm1 as [M1 M2 M3 M4]. constructor; simp_client; [|done|done|by apply Nat.lt_le_incl]. intros Hma. split; [by apply M1|]. clear - Hq Hpos Hp. lia.
  - intros _. split; [|done]. unfold parsed_ok, pos_ok. simp_client. rewrite Hqb, Hpos, Hrt, Hmb1, Ht.
    pose proof (ok_bulk c1 Hok1). repeat split; auto; clear - Hp Hl En Hq; lia.
Qed.

(** ** RESP requests *)

(** Inside a RESP request, the count possibly down to zero. *)
Record mid_ok (c : client) : Prop := {
  mid_pos : pos_ok c;
  mid_bulk : -1 <= bulklen c;
  mid_count : 0 <= multibulklen c;
  mid_type : reqtype c = PROTO_REQ_MULTIBULK;
  mid_args : args_ok c
}.

Lemma mid_client c : mid_ok c -> 0 < multibulklen c -> client_ok c.
Proof. intros [H1 H2 H3 H4 H5] Hm. constructor; auto. intros _ H0. clear - Hm H0. lia. Qed.

Lemma client_mid c : client_ok c -> 0 < multibulklen c -> mid_ok c.
Proof. intros [H1 H2 H3 H4 H5 H6] Hm. destruct (H5 Hm). by constructor. Qed.

Lemma error_client e c : client_ok c -> client_ok (setProtocolError e c).
Proof. intros []. constructor; simp_client; done. Qed.

Lemma error_moved cf e c : moved cf c (setProtocolError e c).
Proof. constructor; simp_client; auto with lia. Qed.

(** Passing a line of the unread bytes. *)
Lemma line_pos c newline ch : pos_ok c -> strchr (unread c) ch = Some newline -> (avail c - 2 <? Z.of_nat newline) = false ->
  pos_ok (set_pos c (qb_pos c + Z.of_nat newline + 2)) /\
  (length (unread (set_pos c (qb_pos c + Z.of_nat newline + 2))) < length (unread c))%nat.
Proof.
  intros Hp Hn Ha. apply strchr_lt in Hn. pose proof (length_unread c Hp) as Hl. unfold pos_ok, avail in *. simp_client.
  split; [lia|]. rewrite unread_set_pos, length_drop by lia. lia.
Qed.

Lemma set_pos_moved cf c p : pos_ok c -> qb_pos c <= p -> moved cf c (set_pos c p).
Proof.
  intros Hp Hle. constructor; simp_client; auto. unfold pos_ok in Hp. rewrite unread_set_pos, length_drop by lia. lia.
Qed.

Lemma multibulk_count_total cf c : client_ok c -> waiting c = false -> reqtype c = PROTO_REQ_MULTIBULK ->
  exists c' r, multibulk_count c = Some (c', r) /\ moved cf c c' /\
    match r with
    | Some false => client_ok c'
    | Some true => parsed_ok c' /\ (length (unread c') < length (unread c))%nat
    | None => mid_ok c' /\ 0 < multibulklen c'
    end.
Proof.
  intros Hok Hw Ht. unfold multibulk_count. destruct (Z.eqb_spec (multibulklen c) 0) as [Hmb|Hmb]; cbn [negb].
  2: { exists c, None. split; [done|]. split; [apply moved_refl|]. pose proof (ok_count c Hok).
       assert (0 < multibulklen c) by lia. auto using client_mid. }
  destruct (ok_idle c Hok Hw Hmb) as [Hav Hstar]. rewrite Hav. cbn [length]. change (negb (Z.of_nat 0 =? 0)) with false. cbv iota.
  pose proof (ok_pos c Hok) as Hp. pose proof (error_client) as Herr. pose proof (error_moved cf) as Hmv.
  destruct (strchr (unread c) 13) as [newline|] eqn:En.
  2: { destruct (_ <? _); eexists _, (Some false); (split; [done|]); auto using moved_refl. }
  destruct (avail c - 2 <? Z.of_nat newline) eqn:Ea; [exists c, (Some false); auto using moved_refl|].
  rewrite (Hstar Ht). cbn [Z.eqb negb Pos.eqb].
  destruct (string2ll _) as [ll|] eqn:Ell; [|eexists _, (Some false); auto].
  destruct (INT_MAX <? ll) eqn:Emax; [eexists _, (Some false); auto|].
  destruct ((10 <? ll) && auth_required c); [eexists _, (Some false); auto|].
  destruct (line_pos c newline 13 Hp En Ea) as [Hp' Hlt]. cbv zeta.
  assert (moved cf c (set_pos c (qb_pos c + Z.of_nat newline + 2))) as Hm by (apply set_pos_moved; [done|lia]).
  destruct (Z.leb_spec ll 0) as [Hll|Hll].
  - eexists _, (Some true). split; [done|]. split; [done|]. split; [|done]. pose proof (ok_bulk c Hok).
    unfold parsed_ok. simp_client. auto.
  - eexists _, None. split; [done|]. split; [by destruct Hm; constructor|]. simp_client. split; [|done].
    pose proof (ok_bulk c Hok). constructor; simp_client; try done; [lia|]. unfold args_ok. simp_client.
    rewrite Hav. cbn [length]. unfold INT_MAX in *. lia.
Qed.

Lemma bulk_length_total cf c : mid_ok c -> 0 < multibulklen c ->
  match bulk_length cf c with
  | BBreak c' | BReturn c' => client_ok c' /\ moved cf c c'
  | BGo c' => mid_ok c' /\ moved cf c c' /\ 0 <= bulklen c' /\ multibulklen c' = multibulklen c /\ argv c' = argv c /\
              closing c' = closing c
  end.
Proof.
  intros Hok Hm. unfold bulk_length. destruct (Z.eqb_spec (bulklen c) (-1)) as [Hb|Hb]; cbn [negb].
  2: { pose proof (mid_bulk c Hok). split; [done|]. split; [apply moved_refl|]. split; [lia|done]. }
  pose proof (mid_client c Hok Hm) as Hcl. pose proof (mid_pos c Hok) as Hp.
  pose proof (fun e => conj (error_client e c Hcl) (error_moved cf e c)) as Herr.
  destruct (strchr (unread c) 13) as [newline|] eqn:En.
  2: { destruct (_ <? _); auto using moved_refl. }
  destruct (avail c - 2 <? Z.of_nat newline) eqn:Ea; [auto using moved_refl|].
  destruct (negb (_ =? 36)); [auto|]. destruct (string2ll _) as [ll|]; [|auto].
  destruct ((ll <? 0) || _) eqn:Ell; [auto|]. destruct ((16384 <? ll) && _); [auto|].
  destruct (line_pos c newline 13 Hp En Ea) as [Hp' Hlt].
  assert (moved cf c (set_pos c (qb_pos c + Z.of_nat newline + 2))) as Hmv by (apply set_pos_moved; [done|lia]).
  cbv zeta. set (c1 := set_pos c _) in *. assert (0 <= ll) as Hll by lia. clear Ell.
  destruct (negb (master cf) && (PROTO_MBULK_BIG_ARG <=? ll) && (avail c1 <=? ll + 2)) eqn:Ebig.
  - assert (master cf = false) as Hma by (by destruct (master cf)).
    destruct Hok. split; [|split; [|simp_client; auto]].
    + constructor; simp_client; try done; [|lia]. unfold pos_ok. simp_client. lia.
    + destruct Hmv as [M1 M2 M3 M4]. constructor; simp_client; try done. by rewrite Hma.
  - destruct Hok. split; [|split; [|simp_client; auto]].
    + constructor; simp_client; try done. lia.
    + destruct Hmv. by constructor.
Qed.

(** The array has a slot for the next argument after it has grown. *)
Lemma grow_argv_room c : args_ok c -> 0 < multibulklen c -> Z.of_nat (length (argv c)) + 1 <= grow_argv c <= INT_MAX.
Proof.
  intros (A1 & A2 & A3) Hm. unfold grow_argv. destruct (Z.leb_spec (argv_len c) (Z.of_nat (length (argv c)))); [|lia].
  destruct (Z.ltb_spec (argv_len c) (INT_MAX / 2)); unfold INT_MAX in *; lia.
Qed.

(** With a slot and enough bytes, no access of the step fails. *)
Lemma bulk_argument_step cf c : pos_ok c -> args_ok c -> 0 < multibulklen c -> 0 <= bulklen c -> bulk_argument cf c = Some (
  if avail c <? bulklen c + 2 then BBreak c else
  let big := negb (master cf) && (qb_pos c =? 0) && (PROTO_MBULK_BIG_ARG <=? bulklen c) &&
             (Z.of_nat (length (querybuf c)) =? bulklen c + 2) in
  let c' := set_argv c (argv c ++ [take (Z.to_nat (bulklen c)) (unread c)]) (grow_argv c) (argv_len_sum c + bulklen c) in
  let c' := if big then set_qb c' [] 0 else set_pos c' (qb_pos c + bulklen c + 2) in
  BGo (set_req c' (reqtype c) (multibulklen c - 1) (-1))).
Proof.
  intros Hp Ha Hm Hb. pose proof (grow_argv_room c Ha Hm) as Hg. unfold bulk_argument. destruct (Z.ltb_spec (avail c) (bulklen c + 2)) as [|Hv]; [done|].
  cbv zeta. unfold pos_ok, avail in *. unfold slice, store_arg, unread. simp_client. zb. done.
Qed.

Lemma bulk_argument_total cf c : mid_ok c -> 0 < multibulklen c -> 0 <= bulklen c ->
  exists b, bulk_argument cf c = Some b /\
  match b with
  | BBreak c' | BReturn c' => client_ok c' /\ moved cf c c'
  | BGo c' => mid_ok c' /\ moved cf c c' /\ multibulklen c' = multibulklen c - 1 /\
              length (argv c') = S (length (argv c)) /\
              (length (unread c') < length (unread c))%nat /\ closing c' = closing c
  end.
Proof.
  intros Hok Hm Hb. pose proof (mid_client c Hok Hm) as Hcl. eexists. split; [by apply bulk_argument_step; [apply Hok..|done|done]|].
  destruct (Z.ltb_spec (avail c) (bulklen c + 2)) as [|Ha]; [auto using moved_refl|].
  pose proof (grow_argv_room c (mid_args c Hok) Hm) as Hal.
  destruct Hok as [Hp H2 H3 H4 (A1 & A2 & A3)]. pose proof (length_unread c Hp) as Hl.
  set (al := grow_argv c) in *. clearbody al. cbv zeta. destruct (_ && (_ =? bulklen c + 2)) eqn:Ebig; cbv zeta.
  - assert (master cf = false) as Hma by (by destruct (master cf)).
    match goal with |- context [set_qb ?x [] 0] => set (c1 := x) end.
    assert (forall rt mb bl, unread (set_req (set_qb c1 [] 0) rt mb bl) = []) as Hun by (intros; apply drop_nil).
    assert (0 < length (unread c))%nat as Hpos by (clear - Hl Ha Hb; lia).
    split; [|split; [|rewrite Hun; subst c1; simp_client; rewrite length_app; cbn [length]; split; [lia|split; [lia|split; [done|done]]]]].
    + constructor; subst c1; simp_client; try done;
        first [unfold args_ok; simp_client; rewrite length_app; cbn [length]; lia | unfold pos_ok; simp_client; cbn; lia | lia].
    + constructor; [by rewrite Hma|by subst c1|by subst c1|]. rewrite Hun. apply Nat.le_0_l.
  - set (c1 := set_argv c _ _ _).
    assert (length (unread (set_pos c1 (qb_pos c + bulklen c + 2))) < length (unread c))%nat as Hlt.
    { change (unread c) with (unread c1). change (qb_pos c) with (qb_pos c1). unfold pos_ok in Hp.
      rewrite unread_set_pos, length_drop by (change (qb_pos c1) with (qb_pos c); lia).
      change (unread c1) with (unread c). change (qb_pos c1) with (qb_pos c). unfold avail in *. lia. }
    split; [|split; [|split; [done|split; [subst c1; simp_client; rewrite length_app; cbn [length]; lia|split; [exact Hlt|done]]]]].
    + constructor; subst c1; simp_client; try done;
        first [unfold args_ok; simp_client; rewrite length_app; cbn [length]; lia | unfold pos_ok, avail in *; simp_client; lia | lia].
    + constructor; simp_client; try done; [|by apply Nat.lt_le_incl]. intros _. split; [done|lia].
Qed.

Lemma multibulk_loop_total cf : forall fuel c, mid_ok c -> Z.to_nat (multibulklen c) = fuel ->
  exists c' ok, multibulk_loop fuel cf c = Some (c', ok) /\ moved cf c c' /\
    (ok = false -> client_ok c') /\
    (ok = true -> parsed_ok c' /\ (0 < multibulklen c -> (length (unread c') < length (unread c))%nat)).
Proof.
  induction fuel as [|fuel IH]; intros c Hok Hf; cbn [multibulk_loop]; pose proof (mid_count c Hok) as Hc.
  - assert (multibulklen c = 0) as Hz by (clear - Hf Hc; lia). rewrite Hz. cbn [Z.eqb].
    exists c, true. split; [done|]. split; [apply moved_refl|]. split; [done|]. intros _.
    split; [destruct Hok; unfold parsed_ok; auto|]. clear. lia.
  - destruct (Z.eqb_spec (multibulklen c) 0); [lia|]. assert (0 < multibulklen c) as Hm by lia.
    pose proof (bulk_length_total cf c Hok Hm) as H1. destruct (bulk_length cf c) as [c1|c1|c1].
    1,2: exists c1, false; destruct H1; (split; [done|]); (split; [done|]); by split.
    destruct H1 as (Hok1 & Hmv1 & Hb1 & Hm1 & _ & Hc1).
    destruct (bulk_argument_total cf c1 Hok1 ltac:(congruence) Hb1) as (b & -> & H2). cbn [mbind option_bind]. destruct b as [c2|c2|c2].
    1,2: exists c2, false; destruct H2; (split; [done|]); (split; [by eapply client_moved_trans|]); by split.
    destruct H2 as (Hok2 & Hmv2 & Hm2 & _ & Hl2 & Hc2).
    destruct (IH c2 Hok2) as (c3 & ok & E & Hmv3 & Hf3 & Ht3); [clear - Hm2 Hm1 Hf Hm; lia|].
    exists c3, ok. split; [done|]. split; [eauto using client_moved_trans|]. split; [done|]. intros Htrue.
    destruct (Ht3 Htrue) as (P1 & _). split; [done|]. intros _.
    pose proof (mv_len _ _ _ Hmv3). pose proof (mv_len _ _ _ Hmv1). clear - H H0 Hl2. lia.
Qed.

Lemma processMultibulkBuffer_total cf c : client_ok c -> waiting c = false -> reqtype c = PROTO_REQ_MULTIBULK ->
  exists c' ok, processMultibulkBuffer cf c = Some (c', ok) /\ moved cf c c' /\
    (ok = false -> client_ok c') /\
    (ok = true -> parsed_ok c' /\ (length (unread c') < length (unread c))%nat).
Proof.
  intros Hok Hw Ht. unfold processMultibulkBuffer.
  destruct (multibulk_count_total cf c Hok Hw Ht) as (c1 & r & -> & Hmv & Hr). cbn [mbind option_bind].
  destruct r as [[|]|].
  - exists c1, true. split; [done|]. split; [done|]. by split.
  - exists c1, false. split; [done|]. split; [done|]. by split.
  - destruct Hr as (Hok1 & Hm). destruct (Z.ltb_spec 0 (multibulklen c1)) as [|Hn]; [|clear - Hn Hm; lia].
    destruct (multibulk_loop_total cf _ c1 Hok1 eq_refl) as (c2 & ok & -> & Hmv2 & Hf2 & Ht2).
    exists c2, ok. split; [done|]. split; [eauto using client_moved_trans|]. split; [done|]. intros Htrue.
    destruct (Ht2 Htrue) as (P1 & P4). split; [done|].
    pose proof (mv_len _ _ _ Hmv) as L. specialize (P4 Hm). clear - L P4. lia.
Qed.

(** ** The input loop *)

Lemma reset_ok c : pos_ok c -> client_ok (resetClient c).
Proof.
  intros Hp. constructor; simp_client; try done. by left.
Qed.

Lemma waiting_ok c : parsed_ok c -> waiting c = true -> client_ok c.
Proof.
  intros (Hp & Hb & Hm & Ht) Hw. constructor; try done; [by rewrite Hm|by right|clear - Hm; lia|]. by rewrite Hw.
Qed.

Lemma commandProcessed_ok cf multi r c : parsed_ok c -> repl_ok cf r c ->
  client_ok (commandProcessed cf multi c) /\ repl_ok cf r (commandProcessed cf multi c) /\
  unread (commandProcessed cf multi c) = unread c.
Proof.
  intros Hp HR. unfold commandProcessed. destruct (blocked c) eqn:Eb.
  { split; [|done]. apply waiting_ok; [done|]. unfold waiting. by rewrite Eb. }
  pose proof (reset_ok c (proj1 Hp)) as Hok.
  set (off := if master cf && negb multi then _ else _). cbv zeta.
  destruct (master cf) eqn:Em; cbn [andb] in *.
  2: { split; [destruct Hok; by constructor|]. split; [|done]. unfold repl_ok. by rewrite Em. }
  destruct (HR Em) as (Ho & Ha & Hs). destruct Hp as (Hp & _). unfold pos_ok in Hp. simp_client.
  assert (off = reploff c \/ off = read_reploff c - Z.of_nat (length (querybuf c)) + qb_pos c) as Hoff
    by (unfold off; destruct (negb multi); auto).
  clearbody off. destruct (Z.eqb_spec (off - reploff c) 0) as [Hz|Hz]; cbn [negb].
  - split; [destruct Hok; by constructor|]. split; [|done]. intros _. simp_client. repeat split; try done; lia.
  - split; [destruct Hok; by constructor|]. split; [|done]. intros _. simp_client.
    assert (off - reploff c = qb_pos c - repl_applied c) as Hd by lia. repeat split; try lia.
    rewrite <- Hs, <- app_assoc, Hd. f_equal.
    replace (Z.to_nat (repl_applied c + (qb_pos c - repl_applied c)))
      with (Z.to_nat (repl_applied c) + Z.to_nat (qb_pos c - repl_applied c))%nat by lia.
    rewrite <- drop_drop. apply take_drop.
Qed.

Section Total.
Context {App : Type} (cf : config) (processCommand : App -> client -> App * cmd_result).
(** [processCommand] returns [C_ERR] only when it freed the client. *)
Context (Hdead : forall app c, cr_ok (snd (processCommand app c)) = false -> cr_dead (snd (processCommand app c)) = true).

Lemma execute_ok app c r : parsed_ok c -> repl_ok cf r c ->
  exists app' c' alive, processCommandAndResetClient cf processCommand app c = (app', c', alive) /\
    (alive = true -> client_ok c' /\ repl_ok cf r c' /\ unread c' = unread c).
Proof using Hdead.
  intros Hp HR. unfold processCommandAndResetClient. pose proof (Hdead app c) as Hd.
  destruct (processCommand app c) as [app' res]. cbn [snd] in Hd. eexists _, _, _. split; [done|].
  intros Ha. destruct (cr_ok res); [|by rewrite Hd in Ha].
  destruct (commandProcessed_ok cf (cr_multi res) r
    (set_flags c (cr_blocked res) (pending_command c) (closing c || cr_closing res) (cr_auth_required res)) Hp HR) as (H1 & H2 & H3).
  done.
Qed.

(** The request type of the next request. *)
Lemma typed_ok c : client_ok c -> qb_pos c < Z.of_nat (length (querybuf c)) ->
  let c' := if reqtype c =? 0
            then set_req c (if peek (unread c) 0 =? 42 then PROTO_REQ_MULTIBULK else PROTO_REQ_INLINE) (multibulklen c) (bulklen c)
            else c in
  client_ok c' /\ moved cf c c' /\ (reqtype c' = PROTO_REQ_INLINE \/ reqtype c' = PROTO_REQ_MULTIBULK) /\ unread c' = unread c.
Proof using.
  intros Hok Hp. cbv zeta. destruct (Z.eqb_spec (reqtype c) 0) as [Ht|Ht].
  - assert (multibulklen c = 0) as Hm.
    { pose proof (ok_count c Hok). destruct (decide (0 < multibulklen c)) as [Hb|]; [|lia].
      destruct (ok_busy c Hok Hb). lia. }
    split; [|split; [|split; [|done]]].
    + destruct Hok. constructor; simp_client; try done.
      * destruct (_ =? 42); auto.
      * clear - Hm. lia.
      * intros Hw _. destruct (ok_idle0 Hw Hm) as [Hav _]. split; [done|]. intros Hrt.
        change (peek (unread c) 0 = 42). destruct (Z.eqb_spec (peek (unread c) 0) 42); [done|].
        done.
    + constructor; simp_client; auto. by unfold unread.
    + simp_client. destruct (_ =? 42); auto.
  - split; [done|]. split; [apply moved_refl|]. split; [|done]. destruct (ok_type c Hok); [done|auto].
Qed.

Lemma input_loop_total : forall fuel app c r, client_ok c -> repl_ok cf r c -> (length (unread c) <= fuel)%nat ->
  exists app' c' alive, input_loop cf processCommand fuel app c = Some (app', c', alive) /\
    (alive = true -> client_ok c' /\ repl_ok cf r c').
Proof using Hdead.
  induction fuel as [|fuel IH]; intros app c r Hok HR Hf; cbn [input_loop]; pose proof (ok_pos c Hok) as Hp;
    pose proof (length_unread c Hp) as Hl; unfold avail in Hl.
  - destruct (Z.ltb_spec (qb_pos c) (Z.of_nat (length (querybuf c)))); [clear - H Hl Hf; lia|]. cbn [negb]. by eexists _, _, _.
  - destruct (Z.ltb_spec (qb_pos c) (Z.of_nat (length (querybuf c)))) as [Hlt|]; cbn [negb]; [|by eexists _, _, _].
    destruct (_ || closing c) eqn:Eflags; [by eexists _, _, _|].
    assert (waiting c = false) as Hw by (unfold waiting; destruct (blocked c), (pending_command c); done).
    destruct (typed_ok c Hok Hlt) as (Hok1 & Hmv1 & Ht1 & Hu1). cbv zeta in *.
    set (c1 := if reqtype c =? 0 then _ else c) in *. clearbody c1.
    assert (waiting c1 = false) as Hw1.
    { destruct (mv_flags _ _ _ Hmv1) as (E1 & E2 & _). unfold waiting in *. by rewrite E1, E2. }
    assert (exists c2 ok, (if reqtype c1 =? PROTO_REQ_INLINE then processInlineBuffer cf c1
        else if reqtype c1 =? PROTO_REQ_MULTIBULK then processMultibulkBuffer cf c1 else None) = Some (c2, ok) /\
      moved cf c1 c2 /\ (ok = false -> client_ok c2) /\
      (ok = true -> parsed_ok c2 /\ (length (unread c2) < length (unread c1))%nat)) as (c2 & ok & -> & Hmv2 & Hf2 & Ht2).
    { destruct Ht1 as [Ht|Ht]; rewrite Ht; [apply processInlineBuffer_total | apply processMultibulkBuffer_total]; done. }
    cbn [mbind option_bind]. pose proof (moved_repl _ r _ _ (client_moved_trans _ _ _ _ Hmv1 Hmv2) HR) as HR2.
    destruct ok; cbn [negb]; [|by eexists _, _, _; auto].
    destruct (Ht2 eq_refl) as (Hp2 & Hlt2). rewrite Hu1 in Hlt2.
    destruct (Z.of_nat (length (argv c2)) =? 0).
    { apply (IH app (resetClient c2) r); [by apply reset_ok, Hp2 | exact HR2|]. change (unread (resetClient c2)) with (unread c2). clear - Hlt2 Hf. lia. }
    destruct (io_threads_idle cf); cbn [negb].
    2: { eexists _, _, _. split; [done|]. intros _. split; [|exact HR2]. apply waiting_ok; [exact Hp2|]. apply orb_true_r. }
    destruct (execute_ok app c2 r Hp2 HR2) as (app3 & c3 & alive & -> & Hal).
    destruct alive; [|by eexists _, _, _]. destruct (Hal eq_refl) as (Hok3 & HR3 & Hu3).
    apply IH; [done|done|]. rewrite Hu3. clear - Hlt2 Hf. lia.
Qed.

Lemma trim_ok c r : client_ok c -> repl_ok cf r c ->
  client_ok (trim_querybuf cf c) /\ repl_ok cf r (trim_querybuf cf c).
Proof using.
  intros Hok HR. unfold trim_querybuf. destruct (master cf) eqn:Em.
  - destruct (Z.eqb_spec (repl_applied c) 0) as [|Hz]; cbn [negb]; [done|]. destruct (HR Em) as (Ho & Ha & Hs).
    pose proof (ok_pos c Hok) as Hp. unfold pos_ok in Hp.
    assert (unread (set_repl (set_qb c (drop (Z.to_nat (repl_applied c)) (querybuf c)) (qb_pos c - repl_applied c))
      (repl_ack_time c) (reploff c) (read_reploff c) 0 (repl_stream c)) = unread c) as Hu.
    { unfold unread. simp_client. rewrite drop_drop. f_equal. lia. }
    split.
    + destruct Hok. constructor; rewrite ?Hu; simp_client; try done. unfold pos_ok. simp_client. rewrite length_drop. lia.
    + intros _. simp_client. rewrite length_drop, drop_0. repeat split; try done; lia.
  - destruct (Z.eqb_spec (qb_pos c) 0) as [|Hz]; cbn [negb]; [done|]. split.
    + destruct Hok. constructor; simp_client; try done. unfold pos_ok. simp_client. lia.
    + unfold repl_ok. by rewrite Em.
Qed.

Lemma processInputBuffer_total app c r : client_ok c -> repl_ok cf r c ->
  exists app' c' alive, processInputBuffer cf processCommand app c = Some (app', c', alive) /\
    (alive = true -> client_ok c' /\ repl_ok cf r c').
Proof using Hdead.
  intros Hok HR. unfold processInputBuffer.
  destruct (input_loop_total (length (querybuf c)) app c r Hok HR) as (app' & c' & alive & -> & H).
  { unfold unread. rewrite length_drop. clear. lia. }
  cbn [mbind option_bind]. eexists _, _, _. split; [done|]. intros ->. destruct (H eq_refl). by apply trim_ok.
Qed.

Lemma readQueryFromClient_total app c r data : client_ok c -> repl_ok cf r c ->
  exists app' c' alive, readQueryFromClient cf processCommand app c data = Some (app', c', alive) /\
    (alive = true -> client_ok c' /\ repl_ok cf (r ++ data) c').
Proof using Hdead.
  intros Hok HR. unfold readQueryFromClient. cbv zeta.
  set (c1 := if master cf then _ else set_qb c (querybuf c ++ data) (qb_pos c)).
  assert (client_ok c1 /\ repl_ok cf (r ++ data) c1) as [Hok1 HR1].
  { pose proof (ok_pos c Hok) as Hp. unfold pos_ok in Hp.
    assert (client_ok (set_qb c (querybuf c ++ data) (qb_pos c))) as H0.
    { destruct Hok. constructor; simp_client; try done.
      - unfold pos_ok. simp_client. rewrite length_app. lia.
      - intros Hw Hm. destruct (ok_idle0 Hw Hm) as [Hav Hst]. split; [done|]. intros Ht. specialize (Hst Ht).
        unfold peek, unread in *. simp_client. rewrite drop_app_le by lia.
        destruct (drop (Z.to_nat (qb_pos c)) (querybuf c)); done. }
    unfold c1, repl_ok. destruct (master cf) eqn:Em; [|done]. split; [destruct H0; by constructor|]. intros _. simp_client.
    destruct (HR Em) as (Ho & Ha & Hs). rewrite length_app, drop_app_le by lia. rewrite app_assoc, Hs.
    repeat split; try done; lia. }
  clearbody c1. destruct (_ && _); [|by apply processInputBuffer_total].
  eexists _, _, _. split; [done|]. intros _. split; [|done]. destruct Hok1. constructor; simp_client; done.
Qed.

Lemma read_all_total : forall chunks app c r, client_ok c -> repl_ok cf r c ->
  exists app' c' alive, read_all cf processCommand app c chunks = Some (app', c', alive) /\
    (alive = true -> client_ok c' /\ repl_ok cf (r ++ concat chunks) c').
Proof using Hdead.
  induction chunks as [|data chunks IH]; intros app c r Hok HR; cbn [read_all concat].
  - rewrite app_nil_r. by eexists _, _, _.
  - destruct (readQueryFromClient_total app c r data Hok HR) as (app1 & c1 & alive & -> & H1). cbn [mbind option_bind].
    destruct alive; [|by eexists _, _, _]. destruct (H1 eq_refl) as [Hok1 HR1].
    rewrite app_assoc. by apply IH.
Qed.
End Total.

Lemma new_client_ok cf : client_ok new_client /\ repl_ok cf [] new_client.
Proof.
  split; [constructor; unfold pos_ok; cbn; try done; by left|]. intros _. cbn. done.
Qed.

(** A processor that records the commands and does nothing else. *)
Definition record_command (log : list (list (list Z))) (c : client) : list (list (list Z)) * cmd_result :=
  (log ++ [argv c], mk_result true false false false false (auth_required c)).

(** C21. Reading requests is safe on arbitrary input: whatever bytes arrive from
    a client, in whatever pieces, and whatever the commands do, the parser
    fails no assertion, copies only bytes of the query buffer and stores every
    argument in an allocated slot of the argument array, which is the result that
    the model gives when no access fails; the client stays well formed; and on
    the link to a master, what was forwarded to sub-replicas followed by what
    is buffered is exactly the stream received. *)
Theorem client_input_safe {App : Type} (cf : config) (processCommand : App -> client -> App * cmd_result)
    (app : App) (chunks : list (list Z)) :
  (forall app c, cr_ok (snd (processCommand app c)) = false -> cr_dead (snd (processCommand app c)) = true) ->
  exists app' c' alive, read_all cf processCommand app new_client chunks = Some (app', c', alive) /\
    (alive = true -> client_ok c' /\ repl_ok cf (concat chunks) c').
Proof.
  intros Hd. destruct (new_client_ok cf) as [H1 H2].
  exact (read_all_total cf processCommand Hd chunks app new_client [] H1 H2).
Qed.

Example client_input_safe_witness :
  let chunks := [[42; 49; 13]; [10; 36; 52; 13; 10; 80; 73]; [78; 71; 13; 10; 80; 73; 78; 71; 10; 42; 13; 10]] in
  let cf := mk_config true false 512 1024 0 true false in
  exists log c alive, read_all cf record_command [] new_client chunks = Some (log, c, alive) /\
    (alive = true -> client_ok c /\ repl_ok cf (concat chunks) c).
Proof. cbv zeta. apply client_input_safe. done. Defined.
