(* ===== verification/RespStream.v ===== *)
(** * RespStream: well-formed request streams

    The RESP encoding of commands, and the proof that the parser reads a stream
    of encoded commands back exactly, however the stream is cut into reads. *)

From Stdlib Require Import ZArith Lia ZifyBool.
From stdpp Require Import base numbers option list.
From S2P Require Import Prelude Numstr SdsArgs Resp RespProof.

Local Open Scope Z_scope.

Definition CRLF : list Z := [13; 10].
Definition enc_len {A} (l : list A) : list Z := dec (Z.of_nat (length l)).
Definition enc_bulk (a : list Z) : list Z := 36 :: enc_len a ++ CRLF ++ a ++ CRLF.
Definition enc_bulks (args : list (list Z)) : list Z := concat (enc_bulk <$> args).
Definition enc_cmd (args : list (list Z)) : list Z := 42 :: enc_len args ++ CRLF ++ enc_bulks args.
Definition enc_stream (cmds : list (list (list Z))) : list Z := concat (enc_cmd <$> cmds).

(** ** Lines *)

Lemma strchr_found p c q : Forall (fun x => x <> c /\ x <> 0) p -> strchr (p ++ c :: q) c = Some (length p).
Proof.
  induction 1 as [|x p [Hx Hz] Hp IH]; cbn [app strchr length]; [by rewrite Z.eqb_refl|].
  apply Z.eqb_neq in Hx, Hz. by rewrite Hx, Hz, IH.
Qed.

Lemma strchr_absent p c : Forall (fun x => x <> c) p -> strchr p c = None.
Proof.
  induction 1 as [|x p Hx Hp IH]; cbn [strchr]; [done|]. apply Z.eqb_neq in Hx. rewrite Hx, IH. by destruct (x =? 0).
Qed.

Lemma enc_len_props {A} (l : list A) : Z.of_nat (length l) < 2 ^ 63 ->
  Forall (fun c => 48 <= c <= 57) (enc_len l) /\ (length (enc_len l) <= 20)%nat /\
  string2ll (enc_len l) = Some (Z.of_nat (length l)).
Proof.
  intros Hl. unfold enc_len. assert (in_s 64 (Z.of_nat (length l))) as Hs by (unfold in_s; lia).
  split; [|split].
  - unfold dec. destruct (Z.ltb_spec (Z.of_nat (length l)) 0); [lia|]. apply udec_props. lia.
  - pose proof (dec_length _ Hs). lia.
  - by apply string2ll_complete.
Qed.

(** A line [hd digits CRLF] of which the buffer [B] holds a part, or all. *)
Lemma line_cases hd d U (B F : list Z) : hd <> 13 -> hd <> 0 -> Forall (fun c => 48 <= c <= 57) d ->
  B ++ F = hd :: d ++ CRLF ++ U ->
  (strchr B 13 = None /\ (length B <= S (length d))%nat /\ F <> []) \/
  (exists nl, strchr B 13 = Some nl /\ length B = S nl /\ F <> []) \/
  (exists B', B = hd :: d ++ CRLF ++ B' /\ B' ++ F = U /\ strchr B 13 = Some (S (length d))).
Proof.
  intros H13 H0 Hd He.
  assert (Forall (fun x => x <> 13 /\ x <> 0) (hd :: d)) as Hn.
  { constructor; [done|]. eapply Forall_impl; [exact Hd|]. cbn. lia. }
  assert (B ++ F = (hd :: d) ++ 13 :: 10 :: U) as He' by (by rewrite He).
  destruct (decide (length B <= S (length d))%nat) as [Hb|Hb].
  - left. assert (B = take (length B) (hd :: d)) as HB.
    { rewrite <- (take_app_length B F) at 1. rewrite He'. rewrite take_app_le by (cbn; lia). done. }
    split; [|split; [done|]].
    + rewrite HB. apply strchr_absent. apply Forall_take. eapply Forall_impl; [exact Hn|]. by intros x [].
    + intros ->. apply (f_equal length) in He'. rewrite app_nil_r, length_app in He'. cbn [length] in He'. lia.
  - right. assert (exists B1, B = (hd :: d) ++ 13 :: B1) as [B1 HB].
    { exists (drop (S (S (length d))) B). rewrite <- (take_drop (S (S (length d))) B) at 1.
      assert (take (S (S (length d))) (B ++ F) = (hd :: d) ++ [13]) as Ht.
      { rewrite He'. change (13 :: 10 :: U) with ([13] ++ 10 :: U). rewrite app_assoc.
        apply take_app_length'. rewrite length_app. cbn. lia. }
      rewrite take_app_le in Ht by lia. by rewrite Ht, <- app_assoc. }
    assert (strchr B 13 = Some (S (length d))) as Hs by (rewrite HB; by apply strchr_found).
    rewrite HB, <- app_assoc in He'. apply app_inv_head in He'. cbn [app] in He'. injection He' as He'.
    destruct B1 as [|x B']; cbn [app] in He'.
    + left. exists (S (length d)). rewrite HB at 2. rewrite length_app. cbn [length]. split; [done|]. split; [lia|]. by intros ->.
    + right. injection He' as -> He'. exists B'. split; [by rewrite HB|done].
Qed.

(** ** States of the parser inside a stream *)

(** The fields that request parsing leaves alone when nothing goes wrong. *)
Definition calm (c : client) : Prop :=
  blocked c = false /\ pending_command c = false /\ closing c = false /\ auth_required c = false /\
  repl_ack_time c = 0 /\ reploff c = 0 /\ read_reploff c = 0 /\ repl_applied c = 0 /\ repl_stream c = [] /\ errors c = [].

Lemma stream_len_avail c : pos_ok c -> avail c = Z.of_nat (length (unread c)).
Proof. intros Hp. symmetry. by apply length_unread. Qed.

(** Passing a line whose rest is [B']. *)
Lemma unread_pass c hd d B' : pos_ok c -> unread c = hd :: d ++ CRLF ++ B' ->
  unread (set_pos c (qb_pos c + Z.of_nat (S (length d)) + 2)) = B' /\
  pos_ok (set_pos c (qb_pos c + Z.of_nat (S (length d)) + 2)).
Proof.
  intros Hp Hu. pose proof (length_unread c Hp) as Hl. unfold avail in Hl. unfold pos_ok in *.
  rewrite Hu in Hl. cbn [length] in Hl. rewrite !length_app in Hl. cbn [length CRLF] in Hl. split.
  - rewrite unread_set_pos by lia. rewrite Hu.
    replace (Z.to_nat (qb_pos c + Z.of_nat (S (length d)) + 2 - qb_pos c)) with (length ((hd :: d) ++ CRLF)).
    + change (hd :: d ++ CRLF ++ B') with ((hd :: d) ++ CRLF ++ B'). rewrite app_assoc. apply drop_app_length.
    + rewrite length_app. cbn [length CRLF]. lia.
  - simp_client. lia.
Qed.

Lemma take_line hd (d B' : list Z) : take (S (length d) - 1) (drop 1 (hd :: d ++ CRLF ++ B')) = d.
Proof. cbn [drop]. replace (S (length d) - 1)%nat with (length d) by lia. apply take_app_length. Qed.

Lemma enc_lengths a t args rest :
  (length a + 2 <= length (enc_bulk a))%nat /\
  length (enc_bulks (a :: t)) = (length (enc_bulk a) + length (enc_bulks t))%nat /\
  (length (enc_bulks args) <= length (enc_cmd args))%nat /\
  length (enc_stream (args :: rest)) = (length (enc_cmd args) + length (enc_stream rest))%nat /\
  enc_bulks (args ++ t) = enc_bulks args ++ enc_bulks t.
Proof.
  split; [|split; [|split; [|split]]].
  - unfold enc_bulk. cbn [length]. rewrite !length_app. cbn [length CRLF]. lia.
  - unfold enc_bulks. cbn [fmap list_fmap concat]. apply length_app.
  - unfold enc_cmd. cbn [length]. rewrite !length_app. lia.
  - unfold enc_stream. cbn [fmap list_fmap concat]. apply length_app.
  - unfold enc_bulks. by rewrite fmap_app, concat_app.
Qed.

(** The array after an argument was stored. *)
Lemma stored_room c c' arg : args_ok c -> 0 < multibulklen c ->
  argv c' = argv c ++ [arg] -> argv_len c' = grow_argv c -> multibulklen c' = multibulklen c - 1 -> args_ok c'.
Proof.
  intros Hroom Hm E1 E2 E3. pose proof (grow_argv_room c Hroom Hm). destruct Hroom as (_ & _ & ?). unfold args_ok.
  rewrite E1, E2, E3, length_app. cbn [length]. lia.
Qed.

Section Stream.
Context (cf : config) (Hnm : master cf = false) (Hmax : proto_max_bulk_len cf < 2 ^ 63).

Definition arg_fits (a : list Z) : Prop := Z.of_nat (length a) <= proto_max_bulk_len cf.
Definition cmd_fits (args : list (list Z)) : Prop :=
  args <> [] /\ Z.of_nat (length args) <= INT_MAX /\ Forall arg_fits args.

(** Between two commands; [F] is what has not been received yet. *)
Record idle_at (c : client) (cmds : list (list (list Z))) (F : list Z) : Prop := {
  idle_calm : calm c;
  idle_pos : pos_ok c;
  idle_req : multibulklen c = 0 /\ bulklen c = -1;
  idle_argv : argv c = [] /\ argv_len c = 0 /\ argv_len_sum c = 0;
  idle_type : reqtype c = 0 \/ (reqtype c = PROTO_REQ_MULTIBULK /\ unread c <> []);
  idle_stream : unread c ++ F = enc_stream cmds
}.

(** Inside a command: [argv] is read, [todo] is not. *)
Record busy_at (c : client) (todo : list (list Z)) (cmds : list (list (list Z))) (F : list Z) : Prop := {
  busy_calm : calm c;
  busy_pos : pos_ok c;
  busy_type : reqtype c = PROTO_REQ_MULTIBULK;
  busy_count : multibulklen c = Z.of_nat (length todo);
  busy_fits : Forall arg_fits todo;
  busy_room : args_ok c;
  busy_stream :
    (bulklen c = -1 /\ unread c ++ F = enc_bulks todo ++ enc_stream cmds) \/
    (exists a t, todo = a :: t /\ bulklen c = Z.of_nat (length a) /\
       unread c ++ F = a ++ CRLF ++ enc_bulks t ++ enc_stream cmds)
}.

Lemma bulk_length_stream c todo cmds F a t : busy_at c todo cmds F -> todo = a :: t ->
  (bulk_length cf c = BBreak c /\ F <> []) \/
  (exists c', bulk_length cf c = BGo c' /\ busy_at c' todo cmds F /\ bulklen c' = Z.of_nat (length a) /\ argv c' = argv c /\
     unread c' ++ F = a ++ CRLF ++ enc_bulks t ++ enc_stream cmds).
Proof using Hnm Hmax.
  intros Hb Ht. pose proof Hb as [Hcalm Hp Hty Hcnt Hfit Hroom Hst]. unfold bulk_length. destruct Hst as [[Hbl Hst]|(a' & t' & Ht' & Hbl & Hst)].
  2: { rewrite Ht in Ht'. injection Ht' as <- <-. right. exists c. rewrite Hbl.
       destruct (Z.eqb_spec (Z.of_nat (length a)) (-1)); [lia|]. done. }
  rewrite Hbl. cbn [Z.eqb negb]. change (Pos.eqb 1 1) with true. cbn [negb].
  subst todo. apply Forall_cons in Hfit as [Ha Hft]. unfold arg_fits in Ha.
  destruct (enc_len_props a) as (Hd & Hdl & H2ll); [lia|].
  assert (unread c ++ F = 36 :: enc_len a ++ CRLF ++ (a ++ CRLF ++ enc_bulks t ++ enc_stream cmds)) as Hl.
  { rewrite Hst. unfold enc_bulks. cbn [fmap list_fmap concat]. unfold enc_bulk at 1. cbn [app]. by rewrite <- !app_assoc. }
  rewrite (stream_len_avail c Hp).
  destruct (line_cases 36 (enc_len a) _ (unread c) F ltac:(done) ltac:(done) Hd Hl) as [(Hs & Hlen & HF)|[(nl & Hs & Hlen & HF)|(B' & HB & HF & Hs)]].
  - left. rewrite Hs. destruct (Z.ltb_spec (1024 * 64) (Z.of_nat (length (unread c)))); [lia|done].
  - left. rewrite Hs. destruct (Z.ltb_spec (Z.of_nat (length (unread c)) - 2) (Z.of_nat nl)); [done|lia].
  - right. rewrite Hs. destruct (unread_pass c 36 (enc_len a) B' Hp HB) as [Hu Hp'].
    assert (Z.of_nat (length (unread c)) - 2 <? Z.of_nat (S (length (enc_len a))) = false) as ->.
    { rewrite HB. cbn [length]. rewrite !length_app. cbn [length CRLF]. lia. }
    assert (peek (unread c) 0 =? 36 = true) as -> by (by rewrite HB). cbn [negb].
    assert (string2ll (take (S (length (enc_len a)) - 1) (drop 1 (unread c))) = Some (Z.of_nat (length a))) as ->
      by (by rewrite HB, take_line).
    destruct Hcalm as (C1 & C2 & C3 & C4 & C5). rewrite Hnm, C4, andb_false_r. cbn [negb andb].
    assert ((Z.of_nat (length a) <? 0) || (proto_max_bulk_len cf <? Z.of_nat (length a)) = false) as -> by lia.
    set (c1 := set_pos c _) in *. cbv zeta. destruct (_ && _).
    + eexists. split; [done|]. split; [|split; [done|split; [done|]]].
      * constructor; simp_client; try done.
        -- unfold pos_ok. simp_client. lia.
        -- by constructor.
        -- right. exists a, t. split; [done|]. split; [done|]. change (unread c1 ++ F = a ++ CRLF ++ enc_bulks t ++ enc_stream cmds). by rewrite Hu.
      * change (unread c1 ++ F = a ++ CRLF ++ enc_bulks t ++ enc_stream cmds). by rewrite Hu.
    + eexists. split; [done|]. split; [|split; [done|split; [done|]]].
      * constructor; simp_client; try done.
        -- by constructor.
        -- right. exists a, t. split; [done|]. split; [done|]. change (unread c1 ++ F = a ++ CRLF ++ enc_bulks t ++ enc_stream cmds). by rewrite Hu.
      * change (unread c1 ++ F = a ++ CRLF ++ enc_bulks t ++ enc_stream cmds). by rewrite Hu.
Qed.

Lemma bulk_argument_stream c a t cmds F : busy_at c (a :: t) cmds F -> bulklen c = Z.of_nat (length a) ->
  unread c ++ F = a ++ CRLF ++ enc_bulks t ++ enc_stream cmds ->
  (bulk_argument cf c = Some (BBreak c) /\ F <> []) \/
  (exists c', bulk_argument cf c = Some (BGo c') /\ busy_at c' t cmds F /\ argv c' = argv c ++ [a] /\ bulklen c' = -1).
Proof using Hnm Hmax.
  intros Hb Hbl Hst. pose proof Hb as [Hcalm Hp Hty Hcnt Hfit Hroom _].
  assert (0 < multibulklen c) as Hm by (rewrite Hcnt; cbn [length]; lia). pose proof (grow_argv_room c Hroom Hm) as Hg.
  rewrite bulk_argument_step by (done || lia). rewrite (stream_len_avail c Hp), Hbl. destruct (Z.ltb_spec (Z.of_nat (length (unread c))) (Z.of_nat (length a) + 2)) as [Hs|Hs].
  { left. split; [done|]. intros ->. apply (f_equal length) in Hst. rewrite app_nil_r, !length_app in Hst. cbn [length CRLF] in Hst. lia. }
  right. assert (exists B', unread c = a ++ CRLF ++ B' /\ B' ++ F = enc_bulks t ++ enc_stream cmds) as (B' & HB & HF).
  { exists (drop (length a + 2) (unread c)). rewrite !app_assoc in Hst. rewrite <- (app_assoc (a ++ CRLF)) in Hst.
    assert (take (length a + 2) (unread c) = a ++ CRLF) as Ht.
    { rewrite <- (take_app_le (unread c) F) by lia. rewrite Hst. apply take_app_length'. rewrite length_app. cbn. lia. }
    split; [rewrite <- (take_drop (length a + 2) (unread c)) at 1; by rewrite Ht, <- app_assoc|].
    rewrite <- (take_drop (length a + 2) (unread c)), Ht, <- app_assoc in Hst. by apply app_inv_head in Hst. }
  cbv zeta. rewrite Nat2Z.id, Hnm. cbn [negb andb].
  apply Forall_cons in Hfit as [_ Hft]. cbn [length] in Hcnt.
  destruct ((qb_pos c =? 0) && (PROTO_MBULK_BIG_ARG <=? Z.of_nat (length a)) &&
            (Z.of_nat (length (querybuf c)) =? Z.of_nat (length a) + 2)) eqn:Ebig.
  - assert (qb_pos c = 0) as Hq by lia. assert (unread c = querybuf c) as Hu by (unfold unread; rewrite Hq; apply drop_0).
    assert (B' = []) as ->.
    { apply nil_length_inv. rewrite <- Hu, HB, !length_app in Ebig. cbn [length CRLF] in Ebig. lia. }
    eexists. split; [done|]. split; [|simp_client; rewrite HB, take_app_length; done].
    constructor; simp_client; try done; [lia|by eapply (stored_room c)|]. left. split; [done|]. exact HF.
  - eexists. split; [done|]. split; [|simp_client; rewrite HB, take_app_length; done].
    set (c1 := set_argv c _ _ _). pose proof (length_unread c Hp) as Hl. unfold avail in Hl.
    assert (unread (set_pos c1 (qb_pos c + Z.of_nat (length a) + 2)) = B') as Hu.
    { unfold pos_ok in Hp. change (qb_pos c) with (qb_pos c1). rewrite unread_set_pos by (change (qb_pos c1) with (qb_pos c); lia).
      change (unread c1) with (unread c). rewrite HB.
      replace (Z.to_nat (qb_pos c1 + Z.of_nat (length a) + 2 - qb_pos c1)) with (length (a ++ CRLF)) by (rewrite length_app; cbn; lia).
      rewrite app_assoc. apply drop_app_length. }
    rewrite HB, !length_app in Hl. cbn [length CRLF] in Hl. unfold pos_ok in Hp.
    constructor; try done.
    + unfold pos_ok. simp_client. subst c1. simp_client. lia.
    + simp_client. lia.
    + by eapply (stored_room c).
    + left. split; [done|]. change (unread (set_pos c1 (qb_pos c + Z.of_nat (length a) + 2)) ++ F = enc_bulks t ++ enc_stream cmds).
      by rewrite Hu.
Qed.

Lemma multibulk_loop_stream : forall todo c cmds F, busy_at c todo cmds F ->
  exists c' ok, multibulk_loop (length todo) cf c = Some (c', ok) /\
    (ok = true -> calm c' /\ pos_ok c' /\ argv c' = argv c ++ todo /\ unread c' ++ F = enc_stream cmds) /\
    (ok = false -> F <> [] /\ exists todo', argv c' ++ todo' = argv c ++ todo /\ todo' <> [] /\ busy_at c' todo' cmds F).
Proof using Hnm Hmax.
  induction todo as [|a t IH]; intros c cmds F Hb; pose proof (busy_count _ _ _ _ Hb) as Hc; cbn [multibulk_loop length] in *.
  - rewrite Hc. change (Z.of_nat 0 =? 0) with true. cbv iota. exists c, true. split; [done|]. split; [|done]. intros _. rewrite app_nil_r.
    destruct Hb as [B1 B2 _ _ _ _ B6]. split; [done|]. split; [done|]. split; [done|].
    destruct B6 as [[_ B6]|(? & ? & ? & _)]; [exact B6|done].
  - destruct (Z.eqb_spec (multibulklen c) 0); [lia|].
    destruct (bulk_length_stream c (a :: t) cmds F a t Hb eq_refl) as [[E HF]|(c1 & E & Hb1 & Hbl & Hav & Hst)]; rewrite E.
    { exists c, false. split; [done|]. split; [done|]. intros _. split; [done|]. by exists (a :: t). }
    destruct (bulk_argument_stream c1 a t cmds F Hb1 Hbl Hst) as [[E2 HF]|(c2 & E2 & Hb2 & Hav2 & _)]; rewrite E2.
    { exists c1, false. split; [done|]. split; [done|]. intros _. split; [done|]. exists (a :: t). by rewrite Hav. }
    destruct (IH c2 cmds F Hb2) as (c3 & ok & E3 & H1 & H2). exists c3, ok. split; [done|].
    rewrite Hav2, Hav, <- app_assoc in H1, H2. done.
Qed.

Lemma multibulk_count_stream c args cmds F : idle_at c (args :: cmds) F -> cmd_fits args -> reqtype c = PROTO_REQ_MULTIBULK ->
  unread c <> [] ->
  (multibulk_count c = Some (c, Some false) /\ F <> []) \/
  (exists c', multibulk_count c = Some (c', None) /\ busy_at c' args cmds F /\ argv c' = []).
Proof using Hnm Hmax.
  intros [Hcalm Hp [Hmb Hbl] (Hav & _) _ Hst] (Hne & Hle & Hfit) Hty Hun. unfold multibulk_count.
  rewrite Hmb, Hav. cbn [Z.eqb negb length]. change (Z.of_nat 0 =? 0) with true. cbn [negb].
  destruct (enc_len_props args) as (Hd & Hdl & H2ll); [unfold INT_MAX in Hle; lia|].
  assert (unread c ++ F = 42 :: enc_len args ++ CRLF ++ (enc_bulks args ++ enc_stream cmds)) as Hl.
  { rewrite Hst. unfold enc_stream. cbn [fmap list_fmap concat]. unfold enc_cmd at 1. cbn [app]. by rewrite <- !app_assoc. }
  rewrite (stream_len_avail c Hp).
  destruct (line_cases 42 (enc_len args) _ (unread c) F ltac:(done) ltac:(done) Hd Hl) as [(Hs & Hlen & HF)|[(nl & Hs & Hlen & HF)|(B' & HB & HF & Hs)]]; rewrite Hs.
  - left. destruct (Z.ltb_spec (1024 * 64) (Z.of_nat (length (unread c)))); [lia|done].
  - left. destruct (Z.ltb_spec (Z.of_nat (length (unread c)) - 2) (Z.of_nat nl)); [done|lia].
  - right. destruct (unread_pass c 42 (enc_len args) B' Hp HB) as [Hu Hp'].
    assert (Z.of_nat (length (unread c)) - 2 <? Z.of_nat (S (length (enc_len args))) = false) as ->.
    { rewrite HB. cbn [length]. rewrite !length_app. cbn [length CRLF]. lia. }
    assert (peek (unread c) 0 =? 42 = true) as -> by (by rewrite HB). cbn [negb].
    assert (string2ll (take (S (length (enc_len args)) - 1) (drop 1 (unread c))) = Some (Z.of_nat (length args))) as ->
      by (by rewrite HB, take_line).
    destruct Hcalm as (C1 & C2 & C3 & C4 & C5). rewrite C4, andb_false_r.
    assert (INT_MAX <? Z.of_nat (length args) = false) as -> by lia.
    assert (Z.of_nat (length args) <=? 0 = false) as -> by (destruct args; [done|cbn [length]; lia]).
    eexists. split; [done|]. split; [|done]. constructor; simp_client; try done.
    { unfold args_ok. simp_client. rewrite Hav. destruct args as [|a args]; [done|]. cbn [length] in *. unfold INT_MAX in *. lia. }
    left. split; [done|]. change (unread (set_pos c (qb_pos c + Z.of_nat (S (length (enc_len args))) + 2)) ++ F = enc_bulks args ++ enc_stream cmds).
    by rewrite Hu.
Qed.

(** A state of the parser inside a stream of commands. *)
Definition at_state (c : client) (cmds : list (list (list Z))) (F : list Z) : Prop :=
  (idle_at c cmds F /\ Forall cmd_fits cmds) \/
  (exists todo rest, cmds = (argv c ++ todo) :: rest /\ todo <> [] /\ busy_at c todo rest F /\ Forall cmd_fits rest).

Lemma enc_bulks_nonempty todo : todo <> [] -> enc_bulks todo <> [].
Proof using. by destruct todo. Qed.

Lemma at_state_drained c cmds : at_state c cmds [] -> unread c = [] -> cmds = [].
Proof using.
  intros [[Hi _]|(todo & rest & _ & Hne & Hb & _)] Hu.
  - pose proof (idle_stream _ _ _ Hi) as Hst. rewrite Hu in Hst. by destruct cmds.
  - exfalso. destruct (busy_stream _ _ _ _ Hb) as [[_ Hst]|(a & t & -> & _ & Hst)]; rewrite Hu in Hst; cbn [app] in Hst.
    + apply (enc_bulks_nonempty todo Hne). by destruct (enc_bulks todo).
    + destruct a; discriminate Hst.
Qed.

(** One request: the parser stops for lack of data, or it has read the command. *)
Lemma process_stream c cmds F : at_state c cmds F -> reqtype c = PROTO_REQ_MULTIBULK -> unread c <> [] ->
  exists c' ok, processMultibulkBuffer cf c = Some (c', ok) /\
    (ok = false -> at_state c' cmds F /\ F <> []) /\
    (ok = true -> exists args rest, cmds = args :: rest /\ args <> [] /\ Forall cmd_fits rest /\ argv c' = args /\
       calm c' /\ pos_ok c' /\ unread c' ++ F = enc_stream rest /\ (length (unread c') < length (unread c))%nat).
Proof using Hnm Hmax.
  intros Hst Hty Hun. unfold processMultibulkBuffer.
  assert (forall c1 todo rest, busy_at c1 todo rest F -> todo <> [] -> Forall cmd_fits rest -> cmds = (argv c1 ++ todo) :: rest ->
    (length (enc_stream rest) < length (unread c) + length F)%nat ->
    exists c' ok, multibulk_loop (Z.to_nat (multibulklen c1)) cf c1 = Some (c', ok) /\
    (ok = false -> at_state c' cmds F /\ F <> []) /\
    (ok = true -> exists args rest, cmds = args :: rest /\ args <> [] /\ Forall cmd_fits rest /\ argv c' = args /\
       calm c' /\ pos_ok c' /\ unread c' ++ F = enc_stream rest /\ (length (unread c') < length (unread c))%nat)) as Hloop.
  { intros c1 todo rest Hb Hne Hfr Hcm Hlt. rewrite (busy_count _ _ _ _ Hb), Nat2Z.id.
    destruct (multibulk_loop_stream todo c1 rest F Hb) as (c2 & ok & E & H1 & H2). exists c2, ok. split; [done|]. split.
    - intros Hf. destruct (H2 Hf) as (HF & todo' & Happ & Hne' & Hb'). split; [|done]. right. exists todo', rest.
      rewrite Happ. done.
    - intros Htr. destruct (H1 Htr) as (Q1 & Q2 & Q3 & Q4). exists (argv c1 ++ todo), rest.
      assert (argv c1 ++ todo <> []) by (by destruct (argv c1), todo).
      repeat (split; [done|]). apply (f_equal length) in Q4. rewrite length_app in Q4. clear - Q4 Hlt. lia. }
  destruct Hst as [[Hi Hfit]|(todo & rest & Hcm & Hne & Hb & Hfr)].
  - destruct cmds as [|args rest].
    { pose proof (idle_stream _ _ _ Hi) as Hst. cbn in Hst. by apply app_eq_nil in Hst as [? _]. }
    apply Forall_cons in Hfit as [Hfa Hfr].
    destruct (multibulk_count_stream c args rest F Hi Hfa Hty Hun) as [[-> HF]|(c1 & -> & Hb & Hav)]; cbn [mbind option_bind].
    + exists c, false. split; [done|]. split; [|done]. intros _. split; [|done]. left. split; [done|by constructor].
    + destruct Hfa as (Hne & _).
      assert (0 <? multibulklen c1 = true) as ->.
      { rewrite (busy_count _ _ _ _ Hb). destruct args; [done|]. cbn [length]. clear. lia. }
      apply (Hloop c1 args rest); try done; [by rewrite Hav|].
      pose proof (f_equal length (idle_stream _ _ _ Hi)) as Hl. unfold enc_stream in Hl at 1. cbn [fmap list_fmap concat] in Hl.
      rewrite !length_app in Hl. unfold enc_cmd at 1 in Hl. cbn [length] in Hl. fold (enc_stream rest) in Hl. clear - Hl. lia.
  - unfold multibulk_count. pose proof (busy_count _ _ _ _ Hb) as Hc.
    assert (0 < multibulklen c) as Hpos by (destruct todo; [done|cbn [length] in Hc; clear - Hc; lia]).
    destruct (Z.eqb_spec (multibulklen c) 0) as [Hz|Hz]; [clear - Hz Hpos; lia|]. cbn [negb mbind option_bind].
    destruct (Z.ltb_spec 0 (multibulklen c)) as [|Hz']; [|clear - Hz' Hpos; lia].
    apply (Hloop c todo rest); try done.
    destruct (busy_stream _ _ _ _ Hb) as [[_ Hs]|(a & t & _ & _ & Hs)]; apply (f_equal length) in Hs; rewrite !length_app in Hs.
    + assert (0 < length (enc_bulks todo))%nat as Hbp by (pose proof (enc_bulks_nonempty todo Hne); destruct (enc_bulks todo); [done|cbn; lia]).
      clear - Hs Hbp. lia.
    + cbn [length CRLF] in Hs. clear - Hs. lia.
Qed.

Context (Hio : io_threads_idle cf = true).

(** Executing the command that was read. *)
Lemma execute_stream log c rest F : argv c <> [] -> calm c -> pos_ok c -> unread c ++ F = enc_stream rest -> Forall cmd_fits rest ->
  exists c', processCommandAndResetClient cf record_command log c = (log ++ [argv c], c', true) /\
    at_state c' rest F /\ unread c' = unread c.
Proof using Hnm.
  intros Hav Hcalm Hp Hst Hfit. unfold processCommandAndResetClient, record_command. cbn [cr_ok cr_dead cr_blocked cr_closing cr_multi cr_auth_required].
  destruct Hcalm as (C1 & C2 & C3 & C4 & C5 & C6 & C7 & C8 & C9 & C10).
  unfold commandProcessed. rewrite Hnm. simp_client. cbn [andb negb]. cbv zeta. eexists. split; [done|]. split; [|done].
  left. split; [|done]. constructor; simp_client; try done; [|by left].
  unfold calm. simp_client. rewrite C3. done.
Qed.

Lemma at_state_type c cmds F : at_state c cmds F -> unread c <> [] ->
  let c' := if reqtype c =? 0
            then set_req c (if peek (unread c) 0 =? 42 then PROTO_REQ_MULTIBULK else PROTO_REQ_INLINE) (multibulklen c) (bulklen c)
            else c in
  at_state c' cmds F /\ reqtype c' = PROTO_REQ_MULTIBULK /\ unread c' = unread c.
Proof using.
  intros Hst Hun. cbv zeta. destruct Hst as [[Hi Hfit]|(todo & rest & Hcm & Hne & Hb & Hfr)].
  - destruct Hi as [H1 H2 H3 H4 [H5|[H5 _]] H6]; rewrite H5; cbn [Z.eqb].
    + assert (peek (unread c) 0 = 42) as ->.
      { destruct cmds as [|args cmds]; [by apply app_eq_nil in H6 as [? _]|].
        destruct (unread c) as [|x u]; [done|]. cbn in H6. by injection H6 as -> _. }
      cbn [Z.eqb]. change (Pos.eqb 42 42) with true. cbv iota. split; [|done]. left. split; [|done]. constructor; simp_client; try done. by right.
    + split; [|done]. left. split; [|done]. constructor; try done. by right.
  - rewrite (busy_type _ _ _ _ Hb). cbn [Z.eqb]. split; [|split; [by apply Hb|done]]. right. by exists todo, rest.
Qed.

Lemma at_state_calm c cmds F : at_state c cmds F -> calm c /\ pos_ok c.
Proof using. intros [[[] _]|(? & ? & _ & _ & [] & _)]; done. Qed.

Lemma input_loop_stream : forall fuel log c cmds F, at_state c cmds F -> (length (unread c) <= fuel)%nat ->
  exists c' cmds1 cmds2, cmds = cmds1 ++ cmds2 /\
    input_loop cf record_command fuel log c = Some (log ++ cmds1, c', true) /\ at_state c' cmds2 F /\
    (F = [] -> unread c' = []).
Proof using Hnm Hmax Hio.
  induction fuel as [|fuel IH]; intros log c cmds F Hst Hf; destruct (at_state_calm c cmds F Hst) as [Hcalm Hp];
    pose proof (length_unread c Hp) as Hl; unfold avail in Hl; cbn [input_loop].
  - assert (unread c = []) as Hu by (apply nil_length_inv; clear - Hf; lia). rewrite Hu in Hl. cbn [length] in Hl.
    destruct (Z.ltb_spec (qb_pos c) (Z.of_nat (length (querybuf c)))) as [Hlt|]; [clear - Hlt Hl; lia|]. cbn [negb].
    exists c, [], cmds. rewrite app_nil_r. done.
  - destruct (Z.ltb_spec (qb_pos c) (Z.of_nat (length (querybuf c)))) as [Hlt|Hge]; cbn [negb].
    2: { exists c, [], cmds. rewrite app_nil_r. split; [done|]. split; [done|]. split; [done|]. intros _.
         apply nil_length_inv. clear - Hge Hl. lia. }
    destruct Hcalm as (C1 & C2 & C3 & C4 & _). rewrite C1, C2, C3, Hnm, andb_false_r. cbn [orb].
    assert (unread c <> []) as Hun by (intros Hu; rewrite Hu in Hl; cbn in Hl; clear - Hl Hlt; lia).
    destruct (at_state_type c cmds F Hst Hun) as (Hst1 & Hty1 & Hu1). cbv zeta in *.
    set (c1 := if reqtype c =? 0 then _ else c) in *. clearbody c1. rewrite Hty1.
    change (PROTO_REQ_MULTIBULK =? PROTO_REQ_INLINE) with false. change (PROTO_REQ_MULTIBULK =? PROTO_REQ_MULTIBULK) with true. cbv iota.
    destruct (process_stream c1 cmds F Hst1 Hty1) as (c2 & ok & -> & H1 & H2); [by rewrite Hu1|]. cbn [mbind option_bind].
    destruct ok; cbn [negb].
    2: { destruct (H1 eq_refl) as [Hst2 HF]. exists c2, [], cmds. rewrite app_nil_r. done. }
    destruct (H2 eq_refl) as (args & rest & -> & Hne & Hfr & Hav & Hcalm2 & Hp2 & Hs2 & Hlt2).
    destruct (Z.eqb_spec (Z.of_nat (length (argv c2))) 0) as [Hz|_]; [rewrite Hav in Hz; destruct args; [done|cbn in Hz; clear - Hz; lia]|].
    rewrite Hio. cbn [negb]. rewrite <- Hav in Hne.
    destruct (execute_stream log c2 rest F Hne Hcalm2 Hp2 Hs2 Hfr) as (c3 & -> & Hst3 & Hu3).
    destruct (IH (log ++ [argv c2]) c3 rest F Hst3) as (c4 & cmds1 & cmds2 & -> & -> & Hst4 & HF4).
    { rewrite Hu3. rewrite Hu1 in Hlt2. clear - Hlt2 Hf. lia. }
    exists c4, (args :: cmds1), cmds2. split; [done|]. rewrite Hav, <- app_assoc. done.
Qed.

Lemma trim_stream c cmds F : at_state c cmds F ->
  at_state (trim_querybuf cf c) cmds F /\ unread (trim_querybuf cf c) = unread c /\ qb_pos (trim_querybuf cf c) = 0.
Proof using Hnm.
  intros Hst. unfold trim_querybuf. rewrite Hnm. destruct (Z.eqb_spec (qb_pos c) 0) as [|Hz]; cbn [negb]; [done|].
  split; [|done]. assert (pos_ok (set_qb c (unread c) 0)) as Hp by (unfold pos_ok; simp_client; clear; lia).
  destruct Hst as [[[H1 H2 H3 H4 H5 H6] Hfit]|(todo & rest & Hcm & Hne & [B1 B2 B3 B4 B5 Br B6] & Hfr)].
  - left. split; [|done]. by constructor.
  - right. exists todo, rest. split; [done|]. split; [done|]. split; [|done]. by constructor.
Qed.

Lemma append_stream c cmds data F : at_state c cmds (data ++ F) -> at_state (set_qb c (querybuf c ++ data) (qb_pos c)) cmds F.
Proof using.
  intros Hst. destruct (at_state_calm c cmds _ Hst) as [_ Hp]. unfold pos_ok in Hp.
  assert (unread (set_qb c (querybuf c ++ data) (qb_pos c)) = unread c ++ data) as Hu.
  { unfold unread. simp_client. apply drop_app_le. clear - Hp. lia. }
  assert (pos_ok (set_qb c (querybuf c ++ data) (qb_pos c))) as Hp' by (unfold pos_ok; simp_client; rewrite length_app; clear - Hp; lia).
  destruct Hst as [[[H1 H2 H3 H4 H5 H6] Hfit]|(todo & rest & Hcm & Hne & [B1 B2 B3 B4 B5 Br B6] & Hfr)].
  - left. split; [|done]. constructor; try done.
    + destruct H5 as [H5|[H5 Hu5]]; [by left|right]. split; [done|]. rewrite Hu. by destruct (unread c).
    + by rewrite Hu, <- app_assoc.
  - right. exists todo, rest. split; [done|]. split; [done|]. split; [|done]. constructor; try done.
    rewrite Hu, <- app_assoc. exact B6.
Qed.

Lemma at_state_length c cmds F : at_state c cmds F -> (length (unread c ++ F) <= length (enc_stream cmds))%nat.
Proof using.
  intros [[Hi _]|(todo & rest & -> & _ & Hb & _)]; [by rewrite (idle_stream _ _ _ Hi)|].
  destruct (enc_lengths [] [] (argv c ++ todo) rest) as (_ & _ & H1 & H2 & _).
  destruct (enc_lengths [] todo (argv c) rest) as (_ & _ & _ & _ & H3). rewrite H3, length_app in H1.
  destruct (busy_stream _ _ _ _ Hb) as [[_ ->]|(a & t & -> & _ & ->)].
  - rewrite length_app. clear - H1 H2. lia.
  - destruct (enc_lengths a t [] []) as (H4 & H5 & _). rewrite !length_app. cbn [length CRLF]. clear - H1 H2 H4 H5. lia.
Qed.

Lemma read_all_stream : forall chunks log c cmds, at_state c cmds (concat chunks) -> qb_pos c = 0 ->
  (concat chunks = [] -> unread c = []) ->
  Z.of_nat (length (enc_stream cmds)) <= client_max_querybuf_len cf ->
  exists c', read_all cf record_command log c chunks = Some (log ++ cmds, c', true) /\
    at_state c' [] [] /\ qb_pos c' = 0 /\ unread c' = [].
Proof using Hnm Hmax Hio.
  induction chunks as [|data chunks IH]; intros log c cmds Hst Hq Hd Hlen; cbn [read_all concat] in *.
  - specialize (Hd eq_refl). pose proof (at_state_drained c cmds Hst Hd) as ->. rewrite app_nil_r. by exists c.
  - unfold readQueryFromClient. rewrite Hnm. cbn [negb andb]. cbv zeta.
    assert (unread c = querybuf c) as Huq by (unfold unread; rewrite Hq; apply drop_0).
    destruct (Z.ltb_spec (client_max_querybuf_len cf) (Z.of_nat (length (querybuf c ++ data)))) as [Hbad|_].
    { exfalso. pose proof (at_state_length _ _ _ Hst) as Hsl. rewrite Huq, !length_app in Hsl. rewrite length_app in Hbad.
      clear - Hlen Hsl Hbad. lia. }
    pose proof (append_stream c cmds data (concat chunks) Hst) as Hst1. set (c1 := set_qb c (querybuf c ++ data) (qb_pos c)) in *.
    unfold processInputBuffer.
    destruct (input_loop_stream (length (querybuf c1)) log c1 cmds (concat chunks) Hst1) as (c2 & cmds1 & cmds2 & -> & -> & Hst2 & HF2).
    { unfold unread. rewrite length_drop. clear. lia. }
    cbn [mbind option_bind]. destruct (trim_stream c2 cmds2 _ Hst2) as (Hst3 & Hu3 & Hq3).
    destruct (IH (log ++ cmds1) (trim_querybuf cf c2) cmds2 Hst3 Hq3) as (c4 & -> & H4).
    + intros HF. rewrite Hu3. by apply HF2.
    + unfold enc_stream in Hlen. rewrite fmap_app, concat_app, length_app in Hlen. unfold enc_stream. clear - Hlen. lia.
    + exists c4. by rewrite <- app_assoc.
Qed.
End Stream.

(** C10. The RESP parser inverts the encoding, whatever the network does: a
    stream of encoded commands, cut into reads at any places, makes a normal
    client execute exactly these commands in order and leaves it as it was
    created, with an empty buffer and no error.  The commands have at least one
    argument and respect the limits of the protocol. *)
Theorem resp_stream_roundtrip (cf : config) (cmds : list (list (list Z))) (chunks : list (list Z)) :
  master cf = false -> io_threads_idle cf = true -> proto_max_bulk_len cf < 2 ^ 63 ->
  Forall (cmd_fits cf) cmds ->
  concat chunks = enc_stream cmds ->
  Z.of_nat (length (enc_stream cmds)) <= client_max_querybuf_len cf ->
  read_all cf record_command [] new_client chunks = Some (cmds, new_client, true).
Proof.
  intros Hm Hio Hmax Hfit Hc Hlen.
  assert (at_state cf new_client cmds (concat chunks)) as Hst.
  { left. split; [|done]. constructor; first [done | by left | by rewrite Hc]. }
  destruct (read_all_stream cf Hm Hmax Hio chunks [] new_client cmds Hst eq_refl ltac:(done) Hlen) as (c' & -> & Hst' & Hq & Hu).
  cbn [app]. do 3 f_equal.
  destruct Hst' as [[[(C1 & C2 & C3 & C4 & C5 & C6 & C7 & C8 & C9 & C10) _ [Hm1 Hm2] (Ha1 & Ha2 & Ha3) Ht _] _]|(? & ? & ? & _)]; [|done].
  assert (querybuf c' = []) as Hb by (unfold unread in Hu; rewrite Hq in Hu; by rewrite drop_0 in Hu).
  destruct Ht as [Ht|[_ Ht]]; [|done]. destruct c'. cbn in *. by subst.
Qed.

Example resp_stream_roundtrip_witness :
  let cf := mk_config false false 512 1000000 0 true false in
  let get_k := [[71; 69; 84]; [107]] in
  let set_k := [[83; 69; 84]; [107]; [13; 10; 0; 36]] in
  read_all cf record_command [] new_client
    [[42]; [50; 13; 10; 36; 51; 13; 10; 71; 69; 84; 13; 10; 36; 49; 13]; [10; 107; 13]; [10; 42; 51; 13; 10; 36; 51; 13; 10; 83; 69];
     [84; 13; 10; 36; 49; 13; 10; 107; 13; 10; 36; 52; 13; 10; 13; 10; 0]; [36; 13; 10]] = Some ([get_k; set_k], new_client, true).
Proof.
  cbv zeta. apply resp_stream_roundtrip; try reflexivity.
  - repeat constructor; try discriminate; vm_compute; discriminate.
  - vm_compute. discriminate.
Defined.
