(* ===== verification/Lzf.v ===== *)
(** * LZF compression ([lzf_c.c], [lzf_d.c], [lzfP.h])

    The compressor and the decompressor on byte buffers, as configured by
    [lzfP.h] ([HLOG] 16, [VERY_FAST], [CHECK_INPUT], no [INIT_HTAB], hash slots
    that hold pointers).  The hash table of the compressor is a local array
    that is never initialised: its initial content is an arbitrary function, so
    that a slot may hold any pointer value.  Positions in the input and the
    output are offsets from the start of the buffer; the pointers of the hash
    table are addresses, [in_data] being the one of the input.  [None] is an
    access outside a buffer or the table, or the end of the fuel. *)

From Stdlib Require Import ZArith Lia ZifyBool.
From stdpp Require Import base gmap numbers option list.
From S2P Require Import Prelude.

Local Open Scope Z_scope.

Notation HLOG := 16%Z (only parsing).
Notation HSIZE := (Z.shiftl 1 HLOG)%Z (only parsing).
Notation MAX_LIT := (Z.shiftl 1 5)%Z (only parsing).
Notation MAX_OFF := (Z.shiftl 1 13)%Z (only parsing).
Notation MAX_REF := (Z.shiftl 1 8 + Z.shiftl 1 3)%Z (only parsing).

(** ** The hash of three bytes *)

Definition FRST (p : list Z) (i : Z) : option Z :=
  a ← get p i; b ← get p (i + 1); Some (Z.lor (Z.shiftl a 8) b).

Definition NEXT (v : Z) (p : list Z) (i : Z) : option Z :=
  c ← get p (i + 2); Some (Z.lor (u32 (Z.shiftl v 8)) c).

Definition IDX (h : Z) : Z :=
  Z.land (u32 (Z.shiftr h (3 * 8 - HLOG) - u32 (h * 5))) (HSIZE - 1).

(** ** The compressor *)

Definition htab_get (t : Z -> Z) (i : Z) : option Z :=
  if (0 <=? i) && (i <? HSIZE) then Some (t i) else None.

Definition htab_set (t : Z -> Z) (i p : Z) : option (Z -> Z) :=
  if (0 <=? i) && (i <? HSIZE) then Some (fun j => if j =? i then p else t j) else None.

Record lzf := Lzf {
  ip : Z;
  op : Z;
  lit : Z;
  hval : Z;
  htab : Z -> Z;
  out : list Z
}.

(** How a pass of the main loop ends. *)
Inductive pass := Continue | Break | Return0.

Section Compress.
Context (inp : list Z) (in_data : Z).

Definition in_len : Z := Z.of_nat (length inp).

(** [ref[k]], for the address [ref]. *)
Definition at_ref (ref k : Z) : option Z := get inp (ref - in_data + k).

(** The condition of the match: its offset when it holds. *)
Definition find_match (i ref : Z) : option (option Z) :=
  let off := u64 (in_data + i - ref - 1) in
  if negb (off <? MAX_OFF) then Some None
  else if negb (in_data <? ref) then Some None
  else
    r2 ← at_ref ref 2; i2 ← get inp (i + 2);
    if negb (r2 =? i2) then Some None
    else
      r0 ← at_ref ref 0; r1 ← at_ref ref 1;
      i0 ← get inp i; i1 ← get inp (i + 1);
      if Z.lor (Z.shiftl r1 8) r0 =? Z.lor (Z.shiftl i1 8) i0
      then Some (Some off) else Some None.

(** The [n] unrolled comparisons: the length, and whether one of them failed. *)
Fixpoint compare_unrolled (n : nat) (i ref len : Z) : option (Z * bool) :=
  match n with
  | O => Some (len, false)
  | S n =>
      let len := len + 1 in
      r ← at_ref ref len; x ← get inp (i + len);
      if negb (r =? x) then Some (len, true) else compare_unrolled n i ref len
  end.

(** [do len++; while (len < maxlen && ref[len] == ip[len])]. *)
Fixpoint compare_rest (fuel : nat) (i ref len maxlen : Z) : option Z :=
  match fuel with
  | O => None
  | S fuel =>
      let len := len + 1 in
      if len <? maxlen then
        r ← at_ref ref len; x ← get inp (i + len);
        if r =? x then compare_rest fuel i ref len maxlen else Some len
      else Some len
  end.

Definition match_length (i ref : Z) : option Z :=
  let len := 2 in
  let maxlen := in_len - i - len in
  let maxlen := if maxlen >? MAX_REF then MAX_REF else maxlen in
  '(len, stop) ← (if maxlen >? 16 then compare_unrolled 16 i ref len else Some (len, false));
  if stop : bool then Some len
  else compare_rest (Z.to_nat MAX_REF) i ref len maxlen.

(** The bytes of a back reference of [len] octets less two. *)
Definition put_ref (o : list Z) (p off len : Z) : option (list Z * Z) :=
  '(o, p) ← (if len <? 7
    then o ← put o p (Z.shiftr off 8 + Z.shiftl len 5); Some (o, p + 1)
    else o ← put o p (Z.shiftr off 8 + Z.shiftl 7 5);
         o ← put o (p + 1) (len - 7); Some (o, p + 2));
  o ← put o p off;
  Some (o, p + 1).

(** Entering the last two positions of a match into the hash table. *)
Definition rehash_after (s : lzf) : option lzf :=
  let i := ip s - 1 - 1 in
  h ← FRST inp i;
  h ← NEXT h inp i;
  t ← htab_set (htab s) (IDX h) (in_data + i);
  let i := i + 1 in
  h ← NEXT h inp i;
  t ← htab_set t (IDX h) (in_data + i);
  Some (Lzf (i + 1) (op s) (lit s) h t (out s)).

(** A match at [ref]. *)
Definition emit_match (out_len : Z) (s : lzf) (ref off : Z) : option (lzf * pass) :=
  if (op s + 3 + 1 >=? out_len) && (op s - b2z (lit s =? 0) + 3 + 1 >=? out_len)
  then Some (s, Return0)
  else
    o ← put (out s) (op s - lit s - 1) (lit s - 1);
    let p := op s - b2z (lit s =? 0) in
    len ← match_length (ip s) ref;
    let len := len - 2 in
    let i := ip s + 1 in
    '(o, p) ← put_ref o p off len;
    let p := p + 1 in
    let i := i + (len + 1) in
    let s := Lzf i p 0 (hval s) (htab s) o in
    if i >=? in_len - 2 then Some (s, Break)
    else s ← rehash_after s; Some (s, Continue).

(** One more literal byte; the run stops when it is full. *)
Definition copy_literal (s : lzf) : option lzf :=
  x ← get inp (ip s);
  o ← put (out s) (op s) x;
  let l := lit s + 1 in
  let p := op s + 1 in
  let i := ip s + 1 in
  if l =? MAX_LIT
  then o ← put o (p - l - 1) (l - 1); Some (Lzf i (p + 1) 0 (hval s) (htab s) o)
  else Some (Lzf i p l (hval s) (htab s) o).

Definition emit_literal (out_len : Z) (s : lzf) : option (lzf * pass) :=
  if op s >=? out_len then Some (s, Return0)
  else s ← copy_literal s; Some (s, Continue).

(** The body of the main loop. *)
Definition compress_pass (out_len : Z) (s : lzf) : option (lzf * pass) :=
  h ← NEXT (hval s) inp (ip s);
  ref ← htab_get (htab s) (IDX h);
  t ← htab_set (htab s) (IDX h) (in_data + ip s);
  let s := Lzf (ip s) (op s) (lit s) h t (out s) in
  m ← find_match (ip s) ref;
  match m with
  | Some off => emit_match out_len s ref off
  | None => emit_literal out_len s
  end.

Fixpoint compress_loop (fuel : nat) (out_len : Z) (s : lzf) : option (lzf * pass) :=
  if ip s <? in_len - 2 then
    match fuel with
    | O => None
    | S fuel =>
        '(s, r) ← compress_pass out_len s;
        match r with
        | Continue => compress_loop fuel out_len s
        | _ => Some (s, r)
        end
    end
  else Some (s, Break).

(** The last literals. *)
Fixpoint compress_tail (fuel : nat) (s : lzf) : option lzf :=
  if ip s <? in_len then
    match fuel with
    | O => None
    | S fuel => s ← copy_literal s; compress_tail fuel s
    end
  else Some s.

(** The output buffer and the number of bytes written, 0 when the compressed
    input does not fit. *)
Definition lzf_compress (htab0 : Z -> Z) (out_data : list Z) : option (list Z * Z) :=
  let out_len := Z.of_nat (length out_data) in
  if (in_len =? 0) || (out_len =? 0) then Some (out_data, 0)
  else
    h ← FRST inp 0;
    '(s, r) ← compress_loop (length inp) out_len (Lzf 0 1 0 h htab0 out_data);
    match r with
    | Return0 => Some (out s, 0)
    | _ =>
        if op s + 3 >? out_len then Some (out s, 0)
        else
          s ← compress_tail (length inp) s;
          o ← put (out s) (op s - lit s - 1) (lit s - 1);
          Some (o, op s - b2z (lit s =? 0))
    end.
End Compress.

(** ** The decompressor *)

Inductive lzf_error := E2BIG | EINVAL.

(** [n] times [*op++ = *ip++]. *)
Fixpoint copy_in (n : nat) (inp : list Z) (i : Z) (o : list Z) (p : Z) : option (list Z) :=
  match n with
  | O => Some o
  | S n => x ← get inp i; o ← put o p x; copy_in n inp (i + 1) o (p + 1)
  end.

(** [n] times [*op++ = *ref++], both in the output buffer. *)
Fixpoint copy_octets (n : nat) (o : list Z) (p ref : Z) : option (list Z) :=
  match n with
  | O => Some o
  | S n => x ← get o ref; o ← put o p x; copy_octets n o (p + 1) (ref + 1)
  end.

(** The copy of a back reference: the cases of the [switch] fall through, the
    long ones use [memcpy] when the areas are disjoint. *)
Definition copy_ref (o : list Z) (p ref len : Z) : option (list Z) :=
  if (0 <=? len) && (len <=? 9) then copy_octets (Z.to_nat (len + 2)) o p ref
  else
    let len := len + 2 in
    if p >=? ref + len then s ← slice o ref len; blit o p s
    else copy_octets (Z.to_nat len) o p ref.

Section Decompress.
Context (inp : list Z) (out_len : Z).

Definition in_end : Z := Z.of_nat (length inp).

Definition literal_run (i : Z) (o : list Z) (p ctrl : Z) :
    option (list Z * (Z * Z + lzf_error)) :=
  let ctrl := ctrl + 1 in
  if p + ctrl >? out_len then Some (o, inr E2BIG)
  else if i + ctrl >? in_end then Some (o, inr EINVAL)
  else o ← copy_in (Z.to_nat ctrl) inp i o p; Some (o, inl (i + ctrl, p + ctrl)).

(** The end of a back reference, [i] being at the low byte of the offset. *)
Definition finish_ref (i : Z) (o : list Z) (p ref len : Z) :
    option (list Z * (Z * Z + lzf_error)) :=
  x ← get inp i;
  let i := i + 1 in
  let ref := ref - x in
  if p + len + 2 >? out_len then Some (o, inr E2BIG)
  else if ref <? 0 then Some (o, inr EINVAL)
  else o ← copy_ref o p ref len; Some (o, inl (i, p + (len + 2))).

Definition back_reference (i : Z) (o : list Z) (p ctrl : Z) :
    option (list Z * (Z * Z + lzf_error)) :=
  let len := Z.shiftr ctrl 5 in
  let ref := p - Z.shiftl (Z.land ctrl 31) 8 - 1 in
  if i >=? in_end then Some (o, inr EINVAL)
  else if len =? 7 then
    x ← get inp i;
    let len := len + x in
    let i := i + 1 in
    if i >=? in_end then Some (o, inr EINVAL) else finish_ref i o p ref len
  else finish_ref i o p ref len.

(** The body of the loop. *)
Definition decompress_pass (i : Z) (o : list Z) (p : Z) :
    option (list Z * (Z * Z + lzf_error)) :=
  ctrl ← get inp i;
  let i := i + 1 in
  if ctrl <? Z.shiftl 1 5 then literal_run i o p ctrl else back_reference i o p ctrl.

Fixpoint decompress_loop (fuel : nat) (i : Z) (o : list Z) (p : Z) :
    option (list Z * (Z + lzf_error)) :=
  if i <? in_end then
    match fuel with
    | O => None
    | S fuel =>
        '(o, r) ← decompress_pass i o p;
        match r with
        | inl (i, p) => decompress_loop fuel i o p
        | inr e => Some (o, inr e)
        end
    end
  else Some (o, inl p).
End Decompress.

(** The output buffer, and the number of bytes written or the error. *)
Definition lzf_decompress (inp out_data : list Z) : option (list Z * (Z + lzf_error)) :=
  decompress_loop inp (Z.of_nat (length out_data)) (length inp) 0 out_data 0.
