(* ===== verification/LzfDecode.v ===== *)
(** * The LZF decompressor accepts exactly the LZF format

    The format as a list of tokens with their bytes and their effect on the
    output, and the proof that the decompressor is total on arbitrary bytes,
    stays in its buffers, succeeds exactly on the token streams whose output
    fits, and otherwise reports the error of the first token that does not. *)

From Stdlib Require Import ZArith Lia ZifyBool.
From stdpp Require Import base gmap numbers option list.
From S2P Require Import Prelude Lzf.

Local Open Scope Z_scope.

(** ** The format *)

(** A run of literals, or [len] octets copied from [off + 1] octets back. *)
Inductive token := TLit (bs : list Z) | TRef (off len : Z).

Definition token_bytes (t : token) : list Z :=
  match t with
  | TLit bs => (Z.of_nat (length bs) - 1) :: bs
  | TRef off len =>
      if len <? 9 then [off / 256 + (len - 2) * 32; off mod 256]
      else [off / 256 + 224; len - 9; off mod 256]
  end.

(** [n] octets, each a copy of the one [k] positions before it. *)
Fixpoint extend (n k : nat) (o : list Z) : list Z :=
  match n with
  | O => o
  | S n => extend n k (o ++ [o !!! (length o - k)%nat])
  end.

Definition expand (o : list Z) (t : token) : list Z :=
  match t with
  | TLit bs => o ++ bs
  | TRef off len => extend (Z.to_nat len) (Z.to_nat (off + 1)) o
  end.

Definition token_ok (o : list Z) (t : token) : Prop :=
  match t with
  | TLit bs => 1 <= Z.of_nat (length bs) <= 32 /\ Forall byteZ bs
  | TRef off len => 0 <= off < 8192 /\ off < Z.of_nat (length o) /\ 3 <= len <= 264
  end.

Fixpoint tokens_ok (o : list Z) (ts : list token) : Prop :=
  match ts with
  | [] => True
  | t :: ts => token_ok o t /\ tokens_ok (expand o t) ts
  end.

Definition tokens_bytes (ts : list token) : list Z := concat (token_bytes <$> ts).
Definition tokens_expand (o : list Z) (ts : list token) : list Z := foldl expand o ts.

(** Why the bytes that follow the output [o] are no token that can be expanded
    in a buffer of [room] octets: a run of literals or a copy that does not fit
    is too big; otherwise it is invalid to end inside a token or to refer to
    what is in front of the output. *)
Inductive token_error (room : Z) (o : list Z) : list Z -> lzf_error -> Prop :=
| te_literals_big c rest : 0 <= c < 32 -> room < Z.of_nat (length o) + (c + 1) -> token_error room o (c :: rest) E2BIG
| te_literals_end c rest : 0 <= c < 32 -> Z.of_nat (length o) + (c + 1) <= room -> Z.of_nat (length rest) < c + 1 ->
    token_error room o (c :: rest) EINVAL
| te_ref_end c : 32 <= c -> token_error room o [c] EINVAL
| te_long_ref_end c x : 224 <= c -> token_error room o [c; x] EINVAL
| te_ref_big off len rest : 0 <= off < 8192 -> 3 <= len <= 264 -> room < Z.of_nat (length o) + len ->
    token_error room o (token_bytes (TRef off len) ++ rest) E2BIG
| te_ref_before off len rest : 0 <= off < 8192 -> 3 <= len <= 264 -> Z.of_nat (length o) + len <= room ->
    Z.of_nat (length o) <= off -> token_error room o (token_bytes (TRef off len) ++ rest) EINVAL.

(** ** Copying inside the output *)

Lemma length_extend n k o : length (extend n k o) = (length o + n)%nat.
Proof. revert o. induction n as [|n IH]; intros o; simpl; [lia|]. rewrite IH, length_app. simpl. lia. Qed.

Lemma length_expand o t : token_ok o t ->
  Z.of_nat (length (expand o t)) = Z.of_nat (length o) +
    match t with TLit bs => Z.of_nat (length bs) | TRef _ len => len end.
Proof. destruct t; simpl; intros; [rewrite length_app|rewrite length_extend]; lia. Qed.

Lemma bytes_total (o : list Z) i : Forall byteZ o -> byteZ (o !!! i).
Proof.
  intros Ho. destruct (decide (i < length o)%nat).
  - eapply Forall_lookup_1; [done|]. by apply list_lookup_lookup_total_lt.
  - rewrite list_lookup_total_alt, lookup_ge_None_2 by lia. by vm_compute.
Qed.

Lemma bytes_extend n k o : Forall byteZ o -> Forall byteZ (extend n k o).
Proof.
  revert o. induction n as [|n IH]; intros o Ho; simpl; [done|].
  apply IH, Forall_app. split; [done|]. constructor; [by apply bytes_total|constructor].
Qed.

Lemma bytes_expand o t : token_ok o t -> Forall byteZ o -> Forall byteZ (expand o t).
Proof.
  destruct t; simpl; intros Ht Ho; [|by apply bytes_extend].
  apply Forall_app. by destruct Ht.
Qed.

Lemma copy_octets_extend n k o junk p ref :
  Forall byteZ o -> (1 <= k <= length o)%nat -> (n <= length junk)%nat ->
  p = Z.of_nat (length o) -> ref = p - Z.of_nat k ->
  copy_octets n (o ++ junk) p ref = Some (extend n k o ++ drop n junk).
Proof.
  revert o junk p ref. induction n as [|n IH]; intros o junk p ref Ho Hk Hn -> ->; simpl.
  - done.
  - rewrite get_total by (rewrite length_app; lia). cbn [mbind option_bind].
    rewrite lookup_total_app_l by lia.
    replace (Z.to_nat (Z.of_nat (length o) - Z.of_nat k)) with (length o - k)%nat by lia.
    destruct junk as [|j junk]; simpl in Hn; [lia|].
    rewrite put_app, u8_byte by auto using bytes_total. cbn [mbind option_bind].
    rewrite (app_assoc o [_] junk : o ++ _ :: junk = _). apply IH.
    + apply Forall_app. split; [done|]. constructor; [by apply bytes_total|constructor].
    + rewrite length_app; simpl; lia.
    + lia.
    + rewrite length_app; simpl; lia.
    + lia.
Qed.

(** A copy that does not reach its own output is a plain one. *)
Lemma extend_disjoint n m k o : (n + m <= k <= length o)%nat ->
  extend n k (o ++ take m (drop (length o - k) o)) = o ++ take (m + n) (drop (length o - k) o).
Proof.
  revert m. induction n as [|n IH]; intros m H; simpl; [by rewrite Nat.add_0_r|].
  set (b := drop (length o - k) o) in *.
  assert (length b = k) as Hb by (unfold b; rewrite length_drop; lia).
  replace (length (o ++ take m b) - k)%nat with (length o - k + m)%nat
    by (rewrite length_app, length_take; lia).
  rewrite lookup_total_app_l by lia. rewrite <- app_assoc.
  replace (o !!! (length o - k + m)%nat) with (b !!! m)
    by (unfold b; by rewrite lookup_total_drop).
  rewrite <- (take_S_r b m (b !!! m)) by (apply list_lookup_lookup_total_lt; lia).
  rewrite IH by lia. do 2 f_equal. lia.
Qed.

Lemma copy_ref_extend o junk p ref len k :
  Forall byteZ o -> (1 <= k <= length o)%nat -> 1 <= len -> len + 2 <= Z.of_nat (length junk) ->
  p = Z.of_nat (length o) -> ref = p - Z.of_nat k ->
  copy_ref (o ++ junk) p ref len =
    Some (extend (Z.to_nat (len + 2)) k o ++ drop (Z.to_nat (len + 2)) junk).
Proof.
  intros Ho Hk Hlen Hj -> ->. unfold copy_ref. zb.
  destruct (len <=? 9) eqn:E; [by apply copy_octets_extend; try lia|].
  rewrite Z.geb_leb. case_zb; [|by apply copy_octets_extend; try lia].
  set (n := Z.to_nat (len + 2)). assert (len + 2 = Z.of_nat n) as -> by lia.
  pose proof (extend_disjoint n 0 k o ltac:(lia)) as Hx. simpl in Hx. rewrite app_nil_r in Hx.
  rewrite Hx. set (b := drop (length o - k) o) in *.
  assert (length b = k) by (unfold b; rewrite length_drop; lia).
  replace (o ++ junk) with (take (length o - k) o ++ take n b ++ (drop n b ++ junk)) at 1
    by (rewrite (app_assoc (take n b)), take_drop, app_assoc; unfold b; by rewrite take_drop).
  rewrite slice_app by (rewrite length_take; lia). cbn [mbind option_bind].
  rewrite <- (take_drop n junk) at 1. rewrite <- app_assoc. apply blit_app; [done|].
  rewrite !length_take. lia.
Qed.

Lemma copy_in_app bs : forall pre post o junk i p,
  Forall byteZ bs -> (length bs <= length junk)%nat ->
  i = Z.of_nat (length pre) -> p = Z.of_nat (length o) ->
  copy_in (length bs) (pre ++ bs ++ post) i (o ++ junk) p =
    Some ((o ++ bs) ++ drop (length bs) junk).
Proof.
  induction bs as [|b bs IH]; intros pre post o junk i p Hb Hj -> ->; simpl.
  - by rewrite app_nil_r.
  - apply Forall_cons in Hb as [Hb Hbs]. destruct junk as [|j junk]; simpl in *; [lia|].
    rewrite get_app by done. cbn [mbind option_bind].
    rewrite put_app, u8_byte by done. cbn [mbind option_bind].
    rewrite (app_assoc o [b] junk : o ++ b :: junk = _), (app_assoc pre [b] (bs ++ post) : pre ++ b :: bs ++ post = _).
    rewrite IH; [|done|lia|rewrite length_app; simpl; lia|rewrite length_app; simpl; lia].
    by rewrite <- (app_assoc o [b] bs).
Qed.

(** The control byte of a back reference. *)
Lemma ctrl_split a b : 0 <= a < 32 -> 0 <= b ->
  Z.shiftr (a + b * 32) 5 = b /\ Z.land (a + b * 32) 31 = a.
Proof.
  intros. rewrite Z.shiftr_div_pow2 by lia. change 31 with (Z.ones 5). rewrite Z.land_ones by lia.
  change (2 ^ 5) with 32. split; [rewrite Z.div_add by lia|rewrite Z.mod_add by lia].
  - rewrite Z.div_small; lia.
  - apply Z.mod_small. lia.
Qed.

(** ** One pass of the loop *)

Section Pass.
Context (inp : list Z) (out_len : Z).

(** The end of a back reference to [off]. *)
Lemma finish_ref_token pre x post o junk off len i p ref :
  inp = pre ++ x :: post -> i = Z.of_nat (length pre) ->
  Forall byteZ o -> token_ok o (TRef off len) -> out_len = Z.of_nat (length (o ++ junk)) ->
  Z.of_nat (length o) + len <= out_len ->
  p = Z.of_nat (length o) -> ref - x = p - (off + 1) ->
  finish_ref inp out_len i (o ++ junk) p ref (len - 2) =
    Some (expand o (TRef off len) ++ drop (Z.to_nat len) junk, inl (i + 1, p + len)).
Proof.
  intros -> -> Ho [? []] Hout Hfit -> Hr. rewrite length_app in Hout. unfold finish_ref.
  rewrite get_app by done. cbn [mbind option_bind]. rewrite Hr. zb.
  rewrite (copy_ref_extend o junk _ _ _ (Z.to_nat (off + 1))) by (try done; lia).
  cbn [mbind option_bind]. simpl. replace (len - 2 + 2) with len by lia. done.
Qed.

Lemma decompress_pass_token pre t post o junk :
  inp = pre ++ token_bytes t ++ post -> Forall byteZ o -> token_ok o t ->
  out_len = Z.of_nat (length (o ++ junk)) -> Z.of_nat (length (expand o t)) <= out_len ->
  decompress_pass inp out_len (Z.of_nat (length pre)) (o ++ junk) (Z.of_nat (length o)) =
    Some (expand o t ++ drop (length (expand o t) - length o) junk,
          inl (Z.of_nat (length (pre ++ token_bytes t)), Z.of_nat (length (expand o t)))).
Proof.
  intros Hinp Ho Ht Hout Hfit. rewrite length_app in Hout.
  pose proof (length_expand o t Ht) as Hl. unfold decompress_pass.
  change (Z.shiftl 1 5) with 32. destruct t as [bs|off len]; simpl in Hinp.
  - destruct Ht as [Hb Hbs]. rewrite Hinp at 1. rewrite get_app by done. cbn [mbind option_bind]. zb.
    unfold literal_run, in_end. rewrite Hinp, length_app. cbn [length]. rewrite length_app. zb.
    replace (Z.to_nat _) with (length bs) by lia.
    rewrite (app_assoc pre [_] _ : pre ++ _ :: bs ++ post = _), copy_in_app;
      [|done|lia|rewrite length_app; simpl; lia|done].
    cbn [mbind option_bind expand token_bytes]. rewrite !length_app. cbn [length].
    repeat f_equal; lia.
  - assert (Hlen : Z.of_nat (length o) + len <= out_len) by lia. pose proof Ht as [? []].
    replace (length (expand o (TRef off len)) - length o)%nat with (Z.to_nat len) by lia.
    rewrite Hl. cbn [token_bytes].
    assert (0 <= off / 256 < 32) by (split; [apply Z.div_pos|apply Z.div_lt_upper_bound]; lia).
    pose proof (Z.div_mod off 256).
    revert Hinp. destruct (Z.ltb_spec len 9); cbn [app]; intros Hinp.
    + destruct (ctrl_split (off / 256) (len - 2)) as [E1 E2]; [lia..|].
      rewrite Hinp at 1. rewrite get_app by done. cbn [mbind option_bind]. zb.
      unfold back_reference, in_end. rewrite E1, E2, Z.shiftl_mul_pow2, Hinp, length_app by lia.
      cbn [length app]. zb. rewrite <- Hinp.
      rewrite (finish_ref_token (pre ++ [off / 256 + (len - 2) * 32]) (off mod 256) post o junk off len);
        [|by rewrite <- app_assoc|rewrite length_app; simpl; lia|done|done|rewrite length_app; lia|done|done|lia].
      rewrite length_app. cbn [length]. repeat f_equal. lia.
    + destruct (ctrl_split (off / 256) 7) as [E1 E2]; [lia..|]. change (7 * 32) with 224 in *.
      rewrite Hinp at 1. rewrite get_app by done. cbn [mbind option_bind]. zb.
      unfold back_reference, in_end. rewrite E1, E2, Z.shiftl_mul_pow2, Hinp, length_app by lia.
      cbn [length app]. zb.
      rewrite (app_assoc pre [_] _ : pre ++ _ :: _ = _), get_app by (rewrite length_app; simpl; lia).
      cbn [mbind option_bind]. zb. rewrite <- app_assoc. cbn [app]. rewrite <- Hinp.
      replace (7 + (len - 9)) with (len - 2) by lia.
      rewrite (finish_ref_token (pre ++ [off / 256 + 224; len - 9]) (off mod 256) post o junk off len);
        [|by rewrite <- app_assoc|rewrite length_app; simpl; lia|done|done|rewrite length_app; lia|done|done|lia].
      rewrite length_app. cbn [length]. repeat f_equal. lia.
Qed.

(** On other bytes the pass reports an error and leaves the output alone. *)
Lemma finish_ref_total pre x post o junk i p ref len :
  inp = pre ++ x :: post -> i = Z.of_nat (length pre) ->
  p = Z.of_nat (length o) -> out_len = Z.of_nat (length (o ++ junk)) ->
  (finish_ref inp out_len i (o ++ junk) p ref len = Some (o ++ junk, inr E2BIG) /\ out_len < p + len + 2) \/
  (finish_ref inp out_len i (o ++ junk) p ref len = Some (o ++ junk, inr EINVAL) /\ p + len + 2 <= out_len /\ ref - x < 0) \/
  p + len + 2 <= out_len /\ 0 <= ref - x.
Proof.
  intros -> -> -> ->. unfold finish_ref. rewrite get_app by done. cbn [mbind option_bind].
  rewrite Z.gtb_ltb. case_zb; [by left|right]. case_zb; [by left|right; lia].
Qed.

Lemma back_reference_total pre c rest o junk :
  inp = pre ++ c :: rest -> 32 <= c < 256 -> Forall byteZ rest ->
  out_len = Z.of_nat (length (o ++ junk)) ->
  (exists e, back_reference inp out_len (Z.of_nat (length pre) + 1) (o ++ junk)
               (Z.of_nat (length o)) c = Some (o ++ junk, inr e) /\ token_error out_len o (c :: rest) e) \/
  (exists t post, c :: rest = token_bytes t ++ post /\ token_ok o t /\
     Z.of_nat (length (expand o t)) <= out_len).
Proof.
  intros Hinp Hc Hr Hout.
  pose proof (Z.div_mod c 32 ltac:(lia)) as Hdm. pose proof (Z.mod_pos_bound c 32 ltac:(lia)) as Ha.
  set (a := c mod 32) in *. set (l := c / 32) in *.
  destruct (ctrl_split a l) as [E1 E2]; [lia..|].
  replace (a + l * 32) with c in E1, E2 by lia.
  assert (Hin : in_end inp = Z.of_nat (length pre) + 1 + Z.of_nat (length rest)).
  { unfold in_end. rewrite Hinp, length_app. simpl. lia. }
  unfold back_reference. rewrite E1, E2, Z.shiftl_mul_pow2, Hin, Z.geb_leb by lia. change (2 ^ 8) with 256.
  destruct rest as [|x rest]; simpl length; [zb; left; exists EINVAL; split; [done|apply te_ref_end; lia]|]. zb.
  apply Forall_cons in Hr as [Hx Hr]. unfold byteZ in Hx.
  assert (Htok : forall y post len, 0 <= y < 256 -> 3 <= len <= 264 ->
    token_bytes (TRef (a * 256 + y) len) ++ post =
      (if len <? 9 then a + (len - 2) * 32 :: y :: post else a + 224 :: len - 9 :: y :: post)).
  { intros y post len Hy Hlen. unfold token_bytes.
    replace (a * 256 + y) with (y + a * 256) by lia.
    rewrite Z.div_add, Z.mod_add, Z.div_small, Z.mod_small by lia. by case_zb. }
  destruct (Z.eqb_spec l 7).
  - rewrite Hinp, (app_assoc pre [c] (x :: rest) : pre ++ c :: _ = _), get_app
      by (rewrite length_app; simpl; lia).
    cbn [mbind option_bind]. rewrite <- app_assoc. cbn [app]. rewrite <- Hinp, Z.geb_leb.
    destruct rest as [|y rest]; simpl length; [zb; left; exists EINVAL; split; [done|apply te_long_ref_end; lia]|]. zb.
    apply Forall_cons in Hr as [Hy Hr]. unfold byteZ in Hy.
    assert (c :: x :: y :: rest = token_bytes (TRef (a * 256 + y) (x + 9)) ++ rest) as Hlong.
    { rewrite Htok by lia. zb. repeat f_equal; lia. }
    destruct (finish_ref_total (pre ++ [c; x]) y rest o junk (Z.of_nat (length pre) + 1 + 1)
      (Z.of_nat (length o)) (Z.of_nat (length o) - a * 256 - 1) (7 + x)) as [[He H1]|[(He & H1 & H2)|[H1 H2]]];
      [by rewrite <- app_assoc|rewrite length_app; simpl; lia|done|done| | |].
    + left. exists E2BIG. rewrite e. split; [done|]. rewrite Hlong. apply te_ref_big; lia.
    + left. exists EINVAL. rewrite e. split; [done|]. rewrite Hlong. apply te_ref_before; lia.
    + assert (Hok : token_ok o (TRef (a * 256 + y) (x + 9))) by (simpl; lia).
      right. exists (TRef (a * 256 + y) (x + 9)), rest. rewrite (length_expand _ _ Hok). split; [done|]. split; [done|lia].
  - assert (c :: x :: rest = token_bytes (TRef (a * 256 + x) (l + 2)) ++ rest) as Hshort.
    { rewrite Htok by lia. zb. repeat f_equal; lia. }
    destruct (finish_ref_total (pre ++ [c]) x rest o junk (Z.of_nat (length pre) + 1)
      (Z.of_nat (length o)) (Z.of_nat (length o) - a * 256 - 1) l) as [[He H1]|[(He & H1 & H2)|[H1 H2]]];
      [by rewrite <- app_assoc|rewrite length_app; simpl; lia|done|done| | |].
    { left. exists E2BIG. split; [done|]. rewrite Hshort. apply te_ref_big; lia. }
    { left. exists EINVAL. split; [done|]. rewrite Hshort. apply te_ref_before; lia. }
    assert (Hok : token_ok o (TRef (a * 256 + x) (l + 2))) by (simpl; lia).
    right. exists (TRef (a * 256 + x) (l + 2)), rest. rewrite (length_expand _ _ Hok). split; [done|]. split; [done|lia].
Qed.

Lemma decompress_pass_total pre c rest o junk :
  inp = pre ++ c :: rest -> Forall byteZ inp ->
  out_len = Z.of_nat (length (o ++ junk)) ->
  (exists e, decompress_pass inp out_len (Z.of_nat (length pre)) (o ++ junk)
               (Z.of_nat (length o)) = Some (o ++ junk, inr e) /\ token_error out_len o (c :: rest) e) \/
  (exists t post, c :: rest = token_bytes t ++ post /\ token_ok o t /\
     Z.of_nat (length (expand o t)) <= out_len).
Proof.
  intros Hinp Hb Hout. pose proof Hb as Hb'. rewrite Hinp in Hb'.
  apply Forall_app in Hb' as [_ Hb']. apply Forall_cons in Hb' as [Hc Hr]. unfold byteZ in Hc.
  unfold decompress_pass. change (Z.shiftl 1 5) with 32.
  replace (get inp _) with (Some c) by (by rewrite Hinp, get_app). cbn [mbind option_bind].
  case_zb; [|apply back_reference_total; (done || lia)].
  unfold literal_run, in_end. rewrite !Z.gtb_ltb.
  assert (length inp = length pre + 1 + length rest)%nat by (rewrite Hinp, length_app; simpl; lia).
  case_zb; [left; exists E2BIG; split; [done|apply te_literals_big; lia]|].
  case_zb; [left; exists EINVAL; split; [done|apply te_literals_end; lia]|]. right.
  set (n := Z.to_nat (c + 1)).
  assert (Hok : token_ok o (TLit (take n rest))).
  { split; [rewrite length_take; lia|]. by apply Forall_take. }
  exists (TLit (take n rest)), (drop n rest). rewrite (length_expand _ _ Hok).
  cbn [token_bytes app]. rewrite take_drop, length_take. split; [f_equal; lia|]. split; [done|lia].
Qed.
End Pass.

(** ** The whole input *)

Lemma token_bytes_nonempty t : (1 <= length (token_bytes t))%nat.
Proof. destruct t; simpl; [|destruct (_ <? _); simpl]; lia. Qed.

Lemma length_expand_le o t : token_ok o t -> (length o <= length (expand o t))%nat.
Proof. intros Ht. pose proof (length_expand o t Ht). destruct t; simpl in Ht; lia. Qed.

Lemma length_tokens_expand_le ts : forall o, tokens_ok o ts -> (length o <= length (tokens_expand o ts))%nat.
Proof.
  induction ts as [|t ts IH]; intros o; [done|]. intros [Ht Hts].
  pose proof (length_expand_le o t Ht). specialize (IH _ Hts). unfold tokens_expand in *. simpl. lia.
Qed.

Lemma bytes_tokens_expand ts : forall o, tokens_ok o ts -> Forall byteZ o -> Forall byteZ (tokens_expand o ts).
Proof.
  induction ts as [|t ts IH]; intros o; [done|]. intros [Ht Hts] Ho. apply (IH (expand o t) Hts). by apply bytes_expand.
Qed.

Lemma decompress_loop_unfold inp out_len fuel i o p :
  decompress_loop inp out_len (S fuel) i o p =
    if i <? in_end inp then
      '(o, r) ← decompress_pass inp out_len i o p;
      match r with
      | inl (i, p) => decompress_loop inp out_len fuel i o p
      | inr e => Some (o, inr e)
      end
    else Some (o, inl p).
Proof. done. Qed.

Lemma decompress_loop_end inp out_len fuel o p :
  decompress_loop inp out_len fuel (Z.of_nat (length inp)) o p = Some (o, inl p).
Proof. destruct fuel; simpl; unfold in_end; by zb. Qed.

Lemma decompress_loop_tokens inp out_len ts : forall fuel pre o junk,
  inp = pre ++ tokens_bytes ts -> (length (tokens_bytes ts) <= fuel)%nat ->
  Forall byteZ o -> tokens_ok o ts -> out_len = Z.of_nat (length (o ++ junk)) ->
  Z.of_nat (length (tokens_expand o ts)) <= out_len ->
  decompress_loop inp out_len fuel (Z.of_nat (length pre)) (o ++ junk) (Z.of_nat (length o)) =
    Some (tokens_expand o ts ++ drop (length (tokens_expand o ts) - length o) junk,
          inl (Z.of_nat (length (tokens_expand o ts)))).
Proof.
  induction ts as [|t ts IH]; intros fuel pre o junk Hinp Hf Ho Hok Hout Hfit.
  - unfold tokens_bytes in Hinp. simpl in Hinp. rewrite app_nil_r in Hinp. subst pre.
    rewrite decompress_loop_end. simpl. by rewrite Nat.sub_diag.
  - destruct Hok as [Ht Hts]. pose proof (token_bytes_nonempty t).
    change (tokens_bytes (t :: ts)) with (token_bytes t ++ tokens_bytes ts) in *.
    change (tokens_expand o (t :: ts)) with (tokens_expand (expand o t) ts) in *.
    rewrite length_app in Hf. pose proof (length_tokens_expand_le ts _ Hts).
    destruct fuel as [|fuel]; [lia|]. rewrite decompress_loop_unfold.
    pose proof (length_expand_le o t Ht). rewrite length_app in Hout.
    unfold in_end. rewrite Hinp at 1. rewrite !length_app. zb.
    rewrite (decompress_pass_token _ _ pre t (tokens_bytes ts)); [|done..|by rewrite length_app|lia].
    cbn [mbind option_bind].
    rewrite (IH fuel (pre ++ token_bytes t)); [| |lia| |done| |lia].
    + rewrite drop_drop. do 4 f_equal. lia.
    + by rewrite <- app_assoc.
    + by apply bytes_expand.
    + rewrite length_app, length_drop. lia.
Qed.

Lemma decompress_loop_total inp out_len : Forall byteZ inp -> forall fuel pre rest o junk,
  inp = pre ++ rest -> (length rest <= fuel)%nat ->
  Forall byteZ o -> out_len = Z.of_nat (length (o ++ junk)) ->
  exists ts bad, rest = tokens_bytes ts ++ bad /\ tokens_ok o ts /\ Z.of_nat (length (tokens_expand o ts)) <= out_len /\
    (bad = [] \/ exists e, token_error out_len (tokens_expand o ts) bad e /\
       decompress_loop inp out_len fuel (Z.of_nat (length pre)) (o ++ junk) (Z.of_nat (length o)) =
         Some (tokens_expand o ts ++ drop (length (tokens_expand o ts) - length o) junk, inr e)).
Proof.
  intros Hb fuel. induction fuel as [|fuel IH]; intros pre rest o junk Hinp Hf Ho Hout;
    (destruct rest as [|c rest];
     [exists [], []; split; [done|]; split; [done|]; split; [rewrite Hout, length_app; simpl; lia|by left]|]);
    simpl in Hf; [lia|].
  destruct (decompress_pass_total inp out_len pre c rest o junk Hinp Hb Hout)
    as [(e & He & Hbad)|(t & post & Hrest & Ht & Hfit)].
  - exists [], (c :: rest). split; [done|]. split; [done|]. split; [rewrite Hout, length_app; simpl; lia|].
    right. exists e. split; [done|]. rewrite decompress_loop_unfold, He.
    unfold in_end. rewrite Hinp at 1. rewrite length_app. simpl length. zb. cbn. by rewrite Nat.sub_diag.
  - pose proof (token_bytes_nonempty t). pose proof (length_expand_le o t Ht).
    assert (Hl : S (length rest) = (length (token_bytes t) + length post)%nat)
      by (rewrite <- length_app, <- Hrest; done).
    rewrite Hrest in Hinp. rewrite length_app in Hout.
    destruct (IH (pre ++ token_bytes t) post (expand o t) (drop (length (expand o t) - length o) junk))
      as (ts & bad & -> & Hts & Hfit' & Hend).
    + by rewrite <- app_assoc.
    + lia.
    + by apply bytes_expand.
    + rewrite length_app, length_drop. lia.
    + pose proof (length_tokens_expand_le ts _ Hts).
      exists (t :: ts), bad. rewrite Hrest. split; [by rewrite (app_assoc (token_bytes t))|]. split; [done|]. split; [done|].
      destruct Hend as [->|(e & Hbad & He)]; [by left|right]. exists e. split; [done|].
      rewrite decompress_loop_unfold. unfold in_end. rewrite Hinp at 1. rewrite !length_app. zb.
      rewrite (decompress_pass_token _ _ pre t (tokens_bytes ts ++ bad)); [|done..|by rewrite length_app|done].
      cbn [mbind option_bind]. rewrite He, drop_drop.
      change (tokens_expand o (t :: ts)) with (tokens_expand (expand o t) ts). do 4 f_equal. lia.
Qed.

Lemma lzf_decompress_tokens (inp out_data : list Z) ts :
  inp = tokens_bytes ts -> tokens_ok [] ts -> (length (tokens_expand [] ts) <= length out_data)%nat ->
  lzf_decompress inp out_data =
    Some (tokens_expand [] ts ++ drop (length (tokens_expand [] ts)) out_data, inl (Z.of_nat (length (tokens_expand [] ts)))).
Proof.
  intros Hi Hok Hfit. unfold lzf_decompress.
  rewrite (decompress_loop_tokens inp _ ts (length inp) [] [] out_data); simpl;
    [by rewrite Nat.sub_0_r|done|by rewrite <- Hi|constructor|done|done|lia].
Qed.

Lemma lzf_decompress_spec (inp out_data : list Z) :
  Forall byteZ inp ->
  exists out' r ts bad, lzf_decompress inp out_data = Some (out', r) /\
    inp = tokens_bytes ts ++ bad /\ tokens_ok [] ts /\
    (length (tokens_expand [] ts) <= length out_data)%nat /\
    out' = tokens_expand [] ts ++ drop (length (tokens_expand [] ts)) out_data /\
    match r with
    | inl n => bad = [] /\ n = Z.of_nat (length (tokens_expand [] ts))
    | inr e => token_error (Z.of_nat (length out_data)) (tokens_expand [] ts) bad e /\
        ~ exists ts, inp = tokens_bytes ts /\ tokens_ok [] ts /\
            (length (tokens_expand [] ts) <= length out_data)%nat
    end.
Proof.
  intros Hb.
  destruct (decompress_loop_total inp (Z.of_nat (length out_data)) Hb (length inp) [] inp [] out_data)
    as (ts & bad & Hi & Hok & Hfit & [->|(e & Hbad & He)]); try done.
  - rewrite app_nil_r in Hi. eexists _, _, ts, []. rewrite (lzf_decompress_tokens inp out_data ts) by (done || lia).
    rewrite app_nil_r. repeat split; (done || lia).
  - cbn [length Z.of_nat app] in He. rewrite Nat.sub_0_r in He.
    eexists _, _, ts, bad. split; [exact He|]. repeat split; [done..|lia|done|].
    intros (ts' & Hi' & Hok' & Hfit'). pose proof (eq_trans (eq_sym (lzf_decompress_tokens inp out_data ts' Hi' Hok' Hfit')) He). done.
Qed.


