(* ===== verification/LzfProof.v ===== *)
(** * LZF compression is lossless

    The compressor stays in its buffers whatever its uninitialised hash table
    holds, it succeeds when the output buffer has room for incompressible
    input, and the decompressor restores what it has compressed. *)

From Stdlib Require Import ZArith Lia ZifyBool.
From stdpp Require Import base gmap numbers option list.
From S2P Require Import Prelude Lzf LzfDecode.

Local Open Scope Z_scope.

(** ** Token sequences *)

Lemma tokens_bytes_snoc ts t : tokens_bytes (ts ++ [t]) = tokens_bytes ts ++ token_bytes t.
Proof. unfold tokens_bytes. rewrite fmap_app, concat_app. simpl. by rewrite app_nil_r. Qed.

Lemma tokens_expand_snoc o ts t : tokens_expand o (ts ++ [t]) = expand (tokens_expand o ts) t.
Proof. unfold tokens_expand. by rewrite foldl_app. Qed.

Lemma tokens_ok_snoc ts : forall o t,
  tokens_ok o ts -> token_ok (tokens_expand o ts) t -> tokens_ok o (ts ++ [t]).
Proof. induction ts as [|u ts IH]; intros o t; simpl; [done|]. intros [? ?] ?. auto. Qed.

Lemma token_bytes_byte o t : token_ok o t -> Forall byteZ (token_bytes t).
Proof.
  destruct t as [bs|off len]; simpl.
  - intros [Hl Hb]. constructor; [unfold byteZ; lia|done].
  - intros [Ho [_ Hl]].
    assert (0 <= off / 256 < 32) by (split; [apply Z.div_pos|apply Z.div_lt_upper_bound]; lia).
    pose proof (Z.mod_pos_bound off 256 ltac:(lia)).
    case_zb; repeat (constructor; [unfold byteZ; lia|]); constructor.
Qed.

Lemma tokens_bytes_byte ts : forall o, tokens_ok o ts -> Forall byteZ (tokens_bytes ts).
Proof.
  induction ts as [|t ts IH]; intros o; [constructor|]. intros [Ht Hts].
  apply Forall_app. split; [by apply (token_bytes_byte o)|by apply (IH (expand o t))].
Qed.

(** ** Back references *)

Section Match.
Context (inp : list Z).

(** The [n] octets at [r] and at [i] are the same. *)
Definition agree (i r n : Z) : Prop := forall j, 0 <= j < n -> get inp (r + j) = get inp (i + j).

Lemma agree_S i r n : 0 <= n -> agree i r n -> get inp (r + n) = get inp (i + n) -> agree i r (n + 1).
Proof. intros Hn Ha He j Hj. destruct (decide (j = n)) as [->|]; [done|]. apply Ha. lia. Qed.

Lemma extend_agree n : forall i k,
  (1 <= k <= i)%nat -> (i + n <= length inp)%nat -> agree (Z.of_nat i) (Z.of_nat (i - k)) (Z.of_nat n) ->
  extend n k (take i inp) = take (i + n) inp.
Proof.
  induction n as [|n IH]; intros i k Hk Hn Ha; simpl; [by rewrite Nat.add_0_r|].
  rewrite length_take_le, lookup_total_take, decide_True by lia.
  assert (Hi : inp !! i = Some (inp !!! (i - k)%nat)).
  { specialize (Ha 0 ltac:(lia)). rewrite !Z.add_0_r in Ha. unfold get in Ha. revert Ha. zb.
    rewrite !Nat2Z.id. intros <-. apply list_lookup_lookup_total_lt. lia. }
  rewrite <- (take_S_r _ _ _ Hi), IH; [f_equal; lia|lia|lia|].
  intros j Hj. specialize (Ha (j + 1) ltac:(lia)).
  replace (Z.of_nat (S i - k) + j) with (Z.of_nat (i - k) + (j + 1)) by lia.
  rewrite Ha. f_equal. lia.
Qed.

Context (in_data : Z).

Lemma at_ref_get r j : at_ref inp in_data (in_data + r) j = get inp (r + j).
Proof. unfold at_ref. f_equal. lia. Qed.

Lemma compare_unrolled_spec n : forall i r len,
  0 <= r < i -> 0 <= len -> i + len + Z.of_nat n < in_len inp -> agree i r (len + 1) ->
  exists len' stop, compare_unrolled inp in_data n i (in_data + r) len = Some (len', stop) /\
    len <= len' <= len + Z.of_nat n /\
    if stop : bool then agree i r len' /\ len < len' else agree i r (len' + 1).
Proof.
  induction n as [|n IH]; intros i r len Hr Hlen Hn Ha; simpl.
  - exists len, false. split; [done|]. split; [lia|done].
  - unfold in_len in *. rewrite at_ref_get, !get_total by lia. cbn [mbind option_bind].
    destruct (Z.eqb_spec (inp !!! Z.to_nat (r + (len + 1))) (inp !!! Z.to_nat (i + (len + 1)))) as [E|E];
      cbn [negb].
    + destruct (IH i r (len + 1)) as (len' & stop & -> & Hl & Hs); [lia..| |].
      { apply agree_S; [lia|done|]. rewrite !get_total by lia. by f_equal. }
      exists len', stop. split; [done|]. split; [lia|]. destruct stop; [|done]. split; [apply Hs|lia].
    + exists (len + 1), true. split; [done|]. split; [lia|]. split; [done|lia].
Qed.

Lemma compare_rest_spec fuel : forall i r len maxlen,
  0 <= r < i -> 0 <= len -> i + maxlen < in_len inp -> maxlen - len < Z.of_nat fuel -> (0 < fuel)%nat ->
  agree i r (len + 1) ->
  exists len', compare_rest inp in_data fuel i (in_data + r) len maxlen = Some len' /\
    len < len' /\ len' <= Z.max (len + 1) maxlen /\ agree i r len'.
Proof.
  induction fuel as [|fuel IH]; intros i r len maxlen Hr Hlen Hm Hf Hf0 Ha; [lia|]. simpl.
  destruct (Z.ltb_spec (len + 1) maxlen).
  - unfold in_len in *. rewrite at_ref_get, !get_total by lia. cbn [mbind option_bind].
    destruct (Z.eqb_spec (inp !!! Z.to_nat (r + (len + 1))) (inp !!! Z.to_nat (i + (len + 1)))) as [E|E].
    + destruct (IH i r (len + 1) maxlen) as (len' & -> & ? & ? & ?); [lia..| |].
      { apply agree_S; [lia|done|]. rewrite !get_total by lia. by f_equal. }
      exists len'. repeat split; (done || lia).
    + exists (len + 1). repeat split; (done || lia).
  - exists (len + 1). repeat split; (done || lia).
Qed.

Lemma match_length_spec i r :
  0 <= r < i -> i + 2 < in_len inp -> agree i r 3 ->
  exists len, match_length inp in_data i (in_data + r) = Some len /\
    3 <= len <= 264 /\ i + len <= in_len inp /\ agree i r len.
Proof.
  intros Hr Hi Ha. unfold match_length. change MAX_REF with 264. rewrite !Z.gtb_ltb.
  set (maxlen := if 264 <? in_len inp - i - 2 then 264 else in_len inp - i - 2).
  assert (Hm : maxlen <= 264 /\ i + maxlen + 2 <= in_len inp) by (unfold maxlen; case_zb; lia).
  case_zb.
  - destruct (compare_unrolled_spec 16 i r 2) as (len & stop & -> & Hl & Hs); [lia..|done|].
    cbn [mbind option_bind]. destruct stop.
    + exists len. destruct Hs. repeat split; (done || lia).
    + destruct (compare_rest_spec (Z.to_nat 264) i r len maxlen) as (len' & -> & ? & ? & ?); [lia..|done|].
      exists len'. repeat split; (done || lia).
  - cbn [mbind option_bind].
    destruct (compare_rest_spec (Z.to_nat 264) i r 2 maxlen) as (len' & -> & ? & ? & ?); [lia..|done|].
    assert (1 <= maxlen) by (unfold maxlen; case_zb; lia).
    exists len'. repeat split; (done || lia).
Qed.
End Match.

Lemma IDX_range h : 0 <= IDX h < HSIZE.
Proof.
  unfold IDX. change HSIZE with (2 ^ 16). change (2 ^ 16 - 1) with (Z.ones 16).
  rewrite Z.land_ones by lia. apply Z.mod_pos_bound. lia.
Qed.

Lemma pair_inj a b c d : byteZ b -> byteZ d ->
  Z.lor (Z.shiftl a 8) b = Z.lor (Z.shiftl c 8) d -> a = c /\ b = d.
Proof.
  unfold byteZ. intros Hb Hd. rewrite !shiftl_lor by (unfold in_u; lia). change (2 ^ 8) with 256. lia.
Qed.

(** An object does not start in the first two pages of the address space, and
    ends before its end. *)
Definition address_ok (inp : list Z) (in_data : Z) : Prop :=
  8192 < in_data /\ in_data + in_len inp < 2 ^ 64.

(** Whatever pointer the slot held, an accepted match is inside the input. *)
Lemma find_match_spec inp in_data i ref :
  Forall byteZ inp -> address_ok inp in_data -> in_u 64 ref -> 0 <= i -> i + 2 < in_len inp ->
  find_match inp in_data i ref = Some None \/
  exists r, ref = in_data + r /\ 0 <= r < i /\ i - r - 1 < 8192 /\ agree inp i r 3 /\
    find_match inp in_data i ref = Some (Some (i - r - 1)).
Proof.
  intros Hb [Hd1 Hd2] Href Hi Hlen. unfold find_match. change MAX_OFF with 8192.
  destruct (Z.ltb_spec (u64 (in_data + i - ref - 1)) 8192) as [Ho|]; [|by left]. cbn [negb].
  destruct (Z.ltb_spec in_data ref); [|by left]. cbn [negb].
  assert (Hr : ref <= in_data + i - 1).
  { destruct (Z.le_gt_cases ref (in_data + i - 1)); [done|]. exfalso.
    unfold wrap in Ho. unfold in_u in Href.
    rewrite <- (Z.mod_add _ 1), Z.mod_small in Ho by lia. lia. }
  assert (exists r, ref = in_data + r) as [r ->] by (exists (ref - in_data); lia).
  rewrite wrap_id by (unfold in_u in *; lia). unfold in_len in *.
  rewrite !at_ref_get, !get_total by lia. cbn [mbind option_bind].
  case_zb; cbn [negb]; [|by left]. case_zb; [|by left]. right. exists r.
  split; [done|]. split; [lia|].
  assert (i - r - 1 < 8192) by (unfold wrap in Ho; rewrite Z.mod_small in Ho; unfold in_u in *; lia).
  split; [done|]. split; [|do 2 f_equal; lia].
  match goal with H : Z.lor _ _ = _ |- _ => apply pair_inj in H; [|by apply bytes_total..] end.
  intros j Hj. rewrite !get_total by lia. f_equal.
  assert (j = 0 \/ j = 1 \/ j = 2) as [->|[->| ->]] by lia; try tauto.
  rewrite (Z.add_0_r i). tauto.
Qed.

Lemma put_ref_spec E tl off len p :
  p = Z.of_nat (length E) -> (3 <= length tl)%nat -> 0 <= off < 8192 -> 3 <= len <= 264 ->
  exists tl', put_ref (E ++ tl) p off (len - 2) =
    Some (E ++ token_bytes (TRef off len) ++ tl', p + Z.of_nat (length (token_bytes (TRef off len)))) /\
    (length tl = length (token_bytes (TRef off len)) + length tl')%nat.
Proof.
  intros -> Htl Hoff Hlen. unfold put_ref, token_bytes.
  assert (0 <= off / 256 < 32) by (split; [apply Z.div_pos|apply Z.div_lt_upper_bound]; lia).
  rewrite !Z.shiftr_div_pow2, !Z.shiftl_mul_pow2 by lia. change (2 ^ 8) with 256. change (2 ^ 5) with 32.
  change (7 * 32) with 224.
  destruct tl as [|t0 [|t1 [|t2 tl]]]; simpl in Htl; try lia.
  destruct (Z.ltb_spec (len - 2) 7); zb.
  - rewrite put_app, u8_small by lia. cbn [mbind option_bind].
    rewrite (app_assoc E [_] _ : E ++ _ :: t1 :: _ = _), put_app by (rewrite length_app; simpl; lia).
    cbn [mbind option_bind]. rewrite <- app_assoc. exists (t2 :: tl). simpl.
    split; [|done]. change (off mod 256) with (u8 off). do 2 f_equal. lia.
  - rewrite put_app, u8_small by lia. cbn [mbind option_bind].
    rewrite (app_assoc E [_] _ : E ++ _ :: t1 :: _ = _), put_app, u8_small by (rewrite ?length_app; simpl; lia).
    cbn [mbind option_bind]. rewrite <- app_assoc. simpl.
    rewrite (app_assoc E [_; _] _ : E ++ _ :: _ :: t2 :: _ = _), put_app by (rewrite length_app; simpl; lia).
    cbn [mbind option_bind]. rewrite <- app_assoc. exists tl. simpl.
    split; [|done]. change (off mod 256) with (u8 off). do 2 f_equal; [|lia]. do 3 f_equal. lia.
Qed.

(** ** The invariant of the compressor *)

Section Compressor.
Context (inp : list Z) (in_data out_len : Z).
Hypothesis inp_bytes : Forall byteZ inp.
Hypothesis inp_address : address_ok inp in_data.

(** The output starts with the tokens for the input up to the current run of
    literals; then come the header of the run, not yet written, and the
    literals.  When the run is empty its header may lie behind the buffer. *)
Record run_at (s : lzf) (ts : list token) (A L B tl : list Z) : Prop := {
  run_inp : inp = A ++ L ++ B;
  run_ok : tokens_ok [] ts;
  run_expand : tokens_expand [] ts = A;
  run_ip : ip s = Z.of_nat (length A + length L);
  run_lit : lit s = Z.of_nat (length L);
  run_short : lit s < 32;
  run_op : op s = Z.of_nat (length (tokens_bytes ts)) + 1 + lit s;
  run_out : out s = tokens_bytes ts ++ tl;
  run_tail : L = [] /\ tl = [] \/ exists h rest, tl = h :: L ++ rest;
  run_len : Z.of_nat (length (out s)) = out_len;
  run_cost : 32 * (op s - 1) + lit s <= 33 * ip s;
  run_htab : forall i, in_u 64 (htab s i)
}.

Definition run (s : lzf) : Prop := exists ts A L B tl, run_at s ts A L B tl.

Lemma run_ip_range s : run s -> 0 <= ip s <= in_len inp.
Proof.
  intros (ts & A & L & B & tl & []). unfold in_len. rewrite run_inp0, !length_app. lia.
Qed.

(** The hash value and the table do not matter. *)
Lemma run_hash s h t : run s -> (forall i, in_u 64 (t i)) -> run (Lzf (ip s) (op s) (lit s) h t (out s)).
Proof. intros (ts & A & L & B & tl & []) Ht. exists ts, A, L, B, tl. by constructor. Qed.

Lemma bytes_split A L B : inp = A ++ L ++ B -> Forall byteZ A /\ Forall byteZ L /\ Forall byteZ B.
Proof using inp_bytes. intros E. by rewrite E, !Forall_app in inp_bytes. Qed.

Lemma token_lit_bytes L : token_bytes (TLit L) = (Z.of_nat (length L) - 1) :: L.
Proof. done. Qed.

(** Stopping the run: the tokens now cover the input up to [ip]. *)
Lemma stop_run s : run s -> (lit s = 0 -> op s <= out_len) -> exists ts tl,
  put (out s) (op s - lit s - 1) (lit s - 1) = Some (tokens_bytes ts ++ tl) /\
  tokens_ok [] ts /\ tokens_expand [] ts = take (Z.to_nat (ip s)) inp /\
  Z.of_nat (length (tokens_bytes ts)) = op s - b2z (lit s =? 0) /\
  Z.of_nat (length (tokens_bytes ts ++ tl)) = out_len.
Proof using inp_bytes.
  intros (ts & A & L & B & tl & []) Hop.
  destruct (bytes_split _ _ _ run_inp0) as (HA & HL & HB).
  assert (Htake : take (Z.to_nat (ip s)) inp = A ++ L).
  { rewrite run_inp0, run_ip0, Nat2Z.id, app_assoc. apply take_app_length'. by rewrite length_app. }
  assert (exists h rest, tl = h :: L ++ rest) as (h & rest & ->).
  { destruct run_tail0 as [[-> ->]|]; [|done]. rewrite run_out0, app_nil_r in run_len0.
    simpl in run_lit0. lia. }
  rewrite run_out0, put_app by lia. rewrite Htake. rewrite run_out0, !length_app in run_len0. simpl in run_len0.
  rewrite length_app in run_len0.
  destruct L as [|l L].
  - exists ts, (u8 (lit s - 1) :: rest). rewrite run_lit0 in *. simpl in *.
    rewrite app_nil_r, !length_app. simpl. repeat split; (done || lia).
  - exists (ts ++ [TLit (l :: L)]), rest.
    rewrite tokens_bytes_snoc, tokens_expand_snoc, run_expand0, token_lit_bytes, run_lit0, u8_small by (simpl in *; lia).
    lens. cbn [length] in *. rewrite <- app_assoc.
    repeat split; [|zb; simpl; lia|lia].
    + apply tokens_ok_snoc; [done|]. rewrite run_expand0. split; [simpl; lia|done].
Qed.

(** A new empty run after some tokens. *)
Lemma new_run i p h t o ts tl :
  tokens_ok [] ts -> tokens_expand [] ts = take (Z.to_nat i) inp -> 0 <= i <= in_len inp ->
  p = Z.of_nat (length (tokens_bytes ts)) + 1 -> o = tokens_bytes ts ++ tl ->
  Z.of_nat (length o) = out_len -> 32 * (p - 1) <= 33 * i -> (forall j, in_u 64 (t j)) ->
  run (Lzf i p 0 h t o).
Proof.
  intros. exists ts, (take (Z.to_nat i) inp), [], (drop (Z.to_nat i) inp), tl. unfold in_len in *.
  constructor; simpl; try done; try lia.
  - by rewrite take_drop.
  - rewrite length_take. lia.
  - destruct tl; [by left|]. right. by eexists _, _.
Qed.

Lemma copy_literal_spec s : run s -> ip s < in_len inp -> op s < out_len ->
  exists s', copy_literal inp s = Some s' /\ run s' /\ ip s' = ip s + 1 /\ op s' <= op s + 2 /\
    (lit s' <> 0 -> op s' = op s + 1) /\ (lit s' = 0 -> lit s = 31).
Proof using inp_bytes.
  intros (ts & A & L & B & tl & []) Hip Hop. unfold in_len in Hip.
  pose proof run_inp0 as Hinp. destruct (bytes_split _ _ _ Hinp) as (HA & HL & HB).
  destruct B as [|x B]; [rewrite Hinp, !length_app in Hip; simpl in Hip; lia|].
  apply Forall_cons in HB as [Hx HB].
  assert (exists h r rest, tl = h :: L ++ r :: rest) as (h & r & rest & ->).
  { rewrite run_out0, length_app in run_len0. destruct run_tail0 as [[-> ->]|(h & rest & ->)].
    - simpl in *. lia.
    - simpl in run_len0. rewrite length_app in run_len0. destruct rest as [|r rest]; [simpl in *; lia|].
      by eexists _, _, _. }
  assert (Hfull : tokens_ok [] (ts ++ [TLit (L ++ [x])])).
  { apply tokens_ok_snoc; [done|]. split; [rewrite length_app; simpl; lia|].
    apply Forall_app. split; [done|by constructor]. }
  unfold copy_literal. change MAX_LIT with 32.
  rewrite Hinp, app_assoc, get_app by (rewrite length_app; lia). cbn [mbind option_bind].
  rewrite run_out0, (app_assoc _ (h :: L) (r :: rest) : tokens_bytes ts ++ h :: L ++ r :: rest = _), put_app
    by (rewrite length_app; simpl; lia).
  cbn [mbind option_bind]. rewrite u8_byte, <- app_assoc by done.
  rewrite run_out0, length_app in run_len0. simpl in run_len0. rewrite length_app in run_len0. simpl in run_len0.
  case_zb.
  - cbn [app]. rewrite put_app by lia. cbn [mbind option_bind]. eexists. split; [done|]. simpl.
    split; [|split; [done|lia]].
    apply (new_run _ _ _ _ _ (ts ++ [TLit (L ++ [x])]) rest); try done.
    + rewrite tokens_expand_snoc, run_expand0. simpl.
      symmetry. replace inp with ((A ++ L ++ [x]) ++ B) by (by rewrite Hinp, <- !app_assoc).
      apply take_app_length'. lens. lia.
    + unfold in_len. lia.
    + rewrite tokens_bytes_snoc, length_app, token_lit_bytes. cbn [length]. rewrite length_app. cbn [length]. lia.
    + rewrite tokens_bytes_snoc, token_lit_bytes, u8_small by lia. rewrite <- !app_assoc. cbn [app].
      rewrite <- app_assoc. do 2 f_equal. rewrite length_app. cbn [length]. lia.
    + lens. lia.
    + lia.
  - eexists. split; [done|]. simpl. split; [|split; [done|lia]].
    exists ts, A, (L ++ [x]), B, (h :: (L ++ [x]) ++ rest). constructor; simpl; try done; try lia.
    + by rewrite <- app_assoc.
    + rewrite length_app. simpl. lia.
    + rewrite length_app. simpl. lia.
    + by rewrite <- app_assoc.
    + right. by eexists _, _.
    + lens. lia.
Qed.

Lemma htab_set_ok t k p : 0 <= k < HSIZE -> (forall i, in_u 64 (t i)) -> in_u 64 p ->
  exists t', htab_set t k p = Some t' /\ forall i, in_u 64 (t' i).
Proof. intros Hk Ht Hp. unfold htab_set. zb. eexists. split; [done|]. intros i. simpl. by case_zb. Qed.

Lemma address_in_u i : 0 <= i <= in_len inp -> in_u 64 (in_data + i).
Proof using inp_address. unfold in_u. destruct inp_address. lia. Qed.

Lemma rehash_after_spec s : run s -> 2 <= ip s -> ip s + 2 < in_len inp ->
  exists h t, rehash_after inp in_data s = Some (Lzf (ip s) (op s) (lit s) h t (out s)) /\
    forall i, in_u 64 (t i).
Proof using inp_address.
  intros Hs H2 Hip. unfold rehash_after, FRST, NEXT.
  assert (forall i, in_u 64 (htab s i)) as Ht by (destruct Hs as (ts & A & L & B & tl & []); done).
  unfold in_len in Hip. rewrite !get_total by lia. cbn [mbind option_bind].
  edestruct (htab_set_ok (htab s)) as (t1 & -> & Ht1); [apply IDX_range|done|apply address_in_u; unfold in_len; lia|].
  cbn [mbind option_bind].
  edestruct (htab_set_ok t1) as (t2 & -> & Ht2); [apply IDX_range|done|apply address_in_u; unfold in_len; lia|].
  cbn [mbind option_bind]. replace (ip s - 1 - 1 + 1 + 1) with (ip s) by lia. by eexists _, _.
Qed.

(** What a pass of the main loop may do: give up only when the buffer is
    small, else advance. *)
Definition pass_ok (s : lzf) (r : option (lzf * pass)) : Prop :=
  match r with
  | Some (s', Continue) => run s' /\ ip s < ip s'
  | Some (s', Break) => run s' /\ in_len inp - 2 <= ip s'
  | Some (s', Return0) => Z.of_nat (length (out s')) = out_len /\ 32 * out_len <= 33 * in_len inp + 96
  | None => False
  end.

Lemma run_small s k : run s -> ip s + 2 < in_len inp -> out_len <= op s + k -> k <= 4 ->
  Z.of_nat (length (out s)) = out_len /\ 32 * out_len <= 33 * in_len inp + 96.
Proof. intros (ts & A & L & B & tl & []) ???. split; [done|]. lia. Qed.

Lemma emit_match_spec s r : run s -> ip s + 2 < in_len inp ->
  0 <= r < ip s -> ip s - r - 1 < 8192 -> agree inp (ip s) r 3 ->
  pass_ok s (emit_match inp in_data out_len s (in_data + r) (ip s - r - 1)).
Proof using inp_bytes inp_address.
  intros Hs Hip Hr Hoff Ha. unfold emit_match. rewrite !Z.geb_leb.
  destruct (_ && _) eqn:E; [apply andb_true_iff in E as [E1%Z.leb_le _]; apply (run_small s 4); (done || lia)|].
  assert (Hop : op s - b2z (lit s =? 0) + 4 < out_len).
  { unfold b2z in *. destruct (lit s =? 0); lia. }
  destruct (stop_run s Hs ltac:(intros Hz; rewrite Hz in Hop; simpl in Hop; lia)) as (ts & tl & -> & Hok & Hex & Hl1 & Hl2). cbn [mbind option_bind].
  destruct (match_length_spec inp in_data (ip s) r) as (len & -> & Hlen & Hin & Hag); [done..|].
  cbn [mbind option_bind]. rewrite length_app in Hl2.
  destruct (put_ref_spec (tokens_bytes ts) tl (ip s - r - 1) len (op s - b2z (lit s =? 0)))
    as (tl' & -> & Hl3); [done|lia..|]. cbn [mbind option_bind].
  replace (ip s + 1 + (len - 2 + 1)) with (ip s + len) by lia.
  set (t := TRef (ip s - r - 1) len) in *.
  assert (Htok : token_ok (tokens_expand [] ts) t).
  { rewrite Hex. simpl. rewrite length_take. unfold in_len in *. lia. }
  assert (Hex' : tokens_expand [] (ts ++ [t]) = take (Z.to_nat (ip s + len)) inp).
  { rewrite tokens_expand_snoc, Hex. cbn [expand t].
    rewrite (extend_agree inp) by (unfold in_len in *; try lia;
      replace (Z.of_nat (Z.to_nat (ip s))) with (ip s) by lia;
      replace (Z.of_nat (Z.to_nat (ip s) - Z.to_nat (ip s - r - 1 + 1))) with r by lia;
      by replace (Z.of_nat (Z.to_nat len)) with len by lia).
    f_equal. lia. }
  assert (Hrun : forall h tb, (forall i, in_u 64 (tb i)) ->
    run (Lzf (ip s + len) (op s - b2z (lit s =? 0) + Z.of_nat (length (token_bytes t)) + 1) 0 h tb
      (tokens_bytes ts ++ token_bytes t ++ tl'))).
  { intros h tb Htb. apply (new_run _ _ _ _ _ (ts ++ [t]) tl'); try done.
    - by apply tokens_ok_snoc.
    - lia.
    - rewrite tokens_bytes_snoc, length_app. lia.
    - by rewrite tokens_bytes_snoc, <- app_assoc.
    - lens. lia.
    - destruct Hs as (ts0 & A & L & B & tl0 & []). unfold t. cbn [token_bytes].
      unfold b2z. case_zb; case_zb; cbn [length]; lia. }
  assert (Ht : forall i, in_u 64 (htab s i)) by (destruct Hs as (ts0 & A & L & B & tl0 & []); done).
  rewrite Z.geb_leb. case_zb; [split; [by apply Hrun|simpl; lia]|].
  destruct (rehash_after_spec _ (Hrun (hval s) (htab s) Ht)) as (h & tb & -> & Htb); simpl; [lia..|].
  split; [by apply Hrun|lia].
Qed.

Lemma compress_pass_spec s : run s -> ip s + 2 < in_len inp ->
  pass_ok s (compress_pass inp in_data out_len s).
Proof using inp_bytes inp_address.
  intros Hs Hip. pose proof (run_ip_range s Hs) as Hr. unfold compress_pass, NEXT.
  assert (Ht : forall i, in_u 64 (htab s i)) by (destruct Hs as (ts0 & A & L & B & tl0 & []); done).
  unfold in_len in Hip, Hr. rewrite get_total by lia. cbn [mbind option_bind].
  set (h := Z.lor _ _). pose proof (IDX_range h). unfold htab_get. zb. cbn [mbind option_bind].
  destruct (htab_set_ok (htab s) (IDX h) (in_data + ip s)) as (t & -> & Ht1);
    [done|done|apply address_in_u; unfold in_len; lia|]. cbn [mbind option_bind].
  pose proof (run_hash s h t Hs Ht1) as Hs1. cbn [ip].
  destruct (find_match_spec inp in_data (ip s) (htab s (IDX h))) as [->|(r & -> & H1 & H2 & H3 & ->)];
    [done..|lia|unfold in_len; lia| |].
  - cbn [mbind option_bind]. unfold emit_literal. rewrite Z.geb_leb. cbn [op].
    case_zb; [apply (run_small _ 0 Hs1); simpl; unfold in_len; lia|].
    destruct (copy_literal_spec _ Hs1) as (s' & -> & Hs' & Hi & _); simpl; [unfold in_len; lia|done|].
    cbn [mbind option_bind pass_ok]. split; [done|]. simpl in Hi. lia.
  - cbn [mbind option_bind].
    pose proof (emit_match_spec _ r Hs1 ltac:(simpl; unfold in_len; lia) H1 H2 H3) as Hp. exact Hp.
Qed.

Lemma compress_loop_spec fuel : forall s, run s -> in_len inp - ip s <= Z.of_nat fuel ->
  exists s' r, compress_loop inp in_data fuel out_len s = Some (s', r) /\
    match r with
    | Return0 => Z.of_nat (length (out s')) = out_len /\ 32 * out_len <= 33 * in_len inp + 96
    | _ => run s' /\ in_len inp - 2 <= ip s'
    end.
Proof using inp_bytes inp_address.
  induction fuel as [|fuel IH]; intros s Hs Hf; simpl.
  - zb. exists s, Break. split; [done|]. split; [done|lia].
  - case_zb; [|exists s, Break; split; [done|]; split; [done|lia]].
    pose proof (compress_pass_spec s Hs ltac:(lia)) as Hp.
    destruct (compress_pass _ _ _ _) as [[s1 []]|]; [..|done]; cbn [mbind option_bind]; simpl in Hp.
    + apply IH; [tauto|lia].
    + by exists s1, Break.
    + by exists s1, Return0.
Qed.

(** At most two literals are left, and at most one run ends among them. *)
Lemma compress_tail_spec fuel s : run s -> in_len inp - ip s <= Z.of_nat fuel ->
  in_len inp - 2 <= ip s -> op s + 3 <= out_len ->
  exists s', compress_tail inp fuel s = Some s' /\ run s' /\ ip s' = in_len inp /\
    (lit s' = 0 -> op s' <= out_len).
Proof using inp_bytes.
  assert (Hend : forall fuel s, run s -> ip s = in_len inp -> (lit s = 0 -> op s <= out_len) ->
    exists s', compress_tail inp fuel s = Some s' /\ run s' /\ ip s' = in_len inp /\
      (lit s' = 0 -> op s' <= out_len)).
  { intros f s' Hs Hi Ho. exists s'. destruct f; simpl; zb; done. }
  intros Hs Hf Hi Ho. pose proof (run_ip_range s Hs).
  destruct (Z.eq_dec (ip s) (in_len inp)); [apply Hend; (done || lia)|].
  destruct fuel as [|fuel]; [lia|]. simpl. zb.
  destruct (copy_literal_spec s Hs) as (s1 & -> & Hs1 & Hi1 & Ho1 & Hl1 & Hz1); [lia..|]. cbn [mbind option_bind].
  destruct (Z.eq_dec (ip s1) (in_len inp)); [apply Hend; (done || lia)|].
  destruct fuel as [|fuel]; [lia|]. simpl. zb.
  destruct (copy_literal_spec s1 Hs1) as (s2 & -> & Hs2 & Hi2 & Ho2 & Hl2 & Hz2); [lia..|]. cbn [mbind option_bind].
  apply Hend; [done|lia|]. lia.
Qed.
End Compressor.

(** ** The whole compressor *)

(** Whatever the hash table holds: the compressor terminates inside its
    buffers, and a result is a token sequence that expands to the input. *)
Lemma lzf_compress_spec inp in_data htab0 out_data :
  Forall byteZ inp -> 2 <= in_len inp -> address_ok inp in_data -> (forall i, in_u 64 (htab0 i)) ->
  exists out' n, lzf_compress inp in_data htab0 out_data = Some (out', n) /\
    length out' = length out_data /\
    (33 * in_len inp + 96 < 32 * Z.of_nat (length out_data) -> n <> 0) /\
    (n = 0 \/ exists ts tl, out' = tokens_bytes ts ++ tl /\ n = Z.of_nat (length (tokens_bytes ts)) /\
      tokens_ok [] ts /\ tokens_expand [] ts = inp).
Proof.
  intros Hb Hlen Ha Ht. unfold lzf_compress. zb.
  set (out_len := Z.of_nat (length out_data)).
  destruct (Z.eqb_spec out_len 0) as [E|E].
  { exists out_data, 0. split; [done|]. split; [done|]. split; [lia|by left]. }
  unfold FRST. unfold in_len in Hlen. rewrite !get_total by lia. cbn [mbind option_bind].
  set (h := Z.lor _ _).
  assert (Hs0 : run inp out_len (Lzf 0 1 0 h htab0 out_data)).
  { apply (new_run _ _ _ _ _ _ _ [] out_data); try done; unfold in_len; lia. }
  destruct (compress_loop_spec inp in_data out_len Hb Ha (length inp) _ Hs0) as (s & r & -> & Hr);
    [simpl; unfold in_len; lia|]. cbn [mbind option_bind].
  assert (Hfin : run inp out_len s /\ in_len inp - 2 <= ip s -> exists out' n,
    (if op s + 3 >? out_len then Some (out s, 0)
     else s ← compress_tail inp (length inp) s;
          o ← put (out s) (op s - lit s - 1) (lit s - 1); Some (o, op s - b2z (lit s =? 0)))
    = Some (out', n) /\ length out' = length out_data /\
    (33 * in_len inp + 96 < 32 * Z.of_nat (length out_data) -> n <> 0) /\
    (n = 0 \/ exists ts tl, out' = tokens_bytes ts ++ tl /\ n = Z.of_nat (length (tokens_bytes ts)) /\
      tokens_ok [] ts /\ tokens_expand [] ts = inp)).
  { intros [Hs Hi]. pose proof (run_ip_range _ _ s Hs). rewrite Z.gtb_ltb. case_zb.
    - exists (out s), 0. split; [done|]. destruct Hs as (ts & A & L & B & tl & []).
      split; [lia|]. split; [lia|by left].
    - destruct (compress_tail_spec inp out_len Hb (length inp) s Hs) as (s' & -> & Hs' & Hi' & Ho);
        [unfold in_len in *; lia|done|lia|]. cbn [mbind option_bind].
      destruct (stop_run inp out_len Hb s' Hs' Ho) as (ts & tl & -> & Hok & Hex & Hl1 & Hl2).
      cbn [mbind option_bind]. eexists _, _. split; [done|]. split; [lia|].
      rewrite Hi' in Hex. unfold in_len in Hex. rewrite Nat2Z.id, firstn_all in Hex.
      split; [|right; exists ts, tl; done]. intros _ Hz. rewrite Hz in Hl1.
      destruct ts as [|t ts]; [by rewrite <- Hex in Hlen|].
      pose proof (token_bytes_nonempty t). unfold tokens_bytes in Hl1. cbn in Hl1. rewrite length_app in Hl1. lia. }
  destruct r; [by apply Hfin..|].
  exists (out s), 0. destruct Hr. split; [done|]. split; [lia|]. split; [lia|by left].
Qed.

(** C14. Compression is lossless, whatever the uninitialised hash table of the
    compressor holds.  On an input of at least two bytes the compressor
    terminates without leaving its buffers; it returns a length that is not 0
    when the output buffer is larger than the input by a 32nd and four bytes;
    and from the bytes it has written the decompressor restores the input into
    any buffer that is large enough. *)
Theorem lzf_roundtrip (inp out_data : list Z) (in_data : Z) (htab0 : Z -> Z) :
  Forall byteZ inp -> 2 <= Z.of_nat (length inp) -> address_ok inp in_data ->
  (forall i, in_u 64 (htab0 i)) ->
  exists out' n, lzf_compress inp in_data htab0 out_data = Some (out', n) /\
    length out' = length out_data /\ 0 <= n <= Z.of_nat (length out_data) /\
    (33 * Z.of_nat (length inp) + 96 < 32 * Z.of_nat (length out_data) -> n <> 0) /\
    (n <> 0 -> forall dst, (length inp <= length dst)%nat ->
      lzf_decompress (take (Z.to_nat n) out') dst =
        Some (inp ++ drop (length inp) dst, inl (Z.of_nat (length inp)))).
Proof.
  intros Hb Hlen Ha Ht.
  destruct (lzf_compress_spec inp in_data htab0 out_data Hb Hlen Ha Ht) as (out' & n & -> & Hl & Hn & Hr).
  exists out', n. split; [done|]. split; [done|].
  destruct Hr as [->|(ts & tl & -> & -> & Hok & Hex)]; [split; [lia|]; split; [exact Hn|done]|].
  rewrite length_app in Hl. split; [lia|]. split; [exact Hn|]. intros _ dst Hd.
  rewrite Nat2Z.id, take_app_length. unfold lzf_decompress.
  pose proof (decompress_loop_tokens (tokens_bytes ts) (Z.of_nat (length dst)) ts
    (length (tokens_bytes ts)) [] [] dst) as Hdec.
  rewrite Hex in Hdec. simpl in Hdec. rewrite Nat.sub_0_r in Hdec. apply Hdec; auto; lia.
Qed.

Lemma lzf_roundtrip_witness :
  let inp := [1; 2; 3; 4; 1; 2; 3; 4; 1; 2; 3; 4; 1; 2; 3; 4] in
  exists out' n, lzf_compress inp 65536 (fun _ => 65537) (replicate 30 0) = Some (out', n) /\
    length out' = 30%nat /\ 0 <= n <= 30 /\ (33 * 16 + 96 < 32 * 30 -> n <> 0).
Proof.
  intros inp. destruct (lzf_roundtrip inp (replicate 30 0) 65536 (fun _ => 65537))
    as (o & n & H1 & H2 & H3 & H4 & _).
  - repeat constructor; vm_compute; congruence.
  - vm_compute; congruence.
  - split; vm_compute; congruence.
  - intros i. split; vm_compute; congruence.
  - exists o, n. split; [exact H1|]. split; [exact H2|]. split; [exact H3|exact H4].
Defined.
