(* ===== verification/Crc64.v ===== *)
(** * The CRC-64 checksum ([crc64.c], [crcspeed.c])

    The bit-by-bit definition [_crc64], the table construction and the
    slice-by-8 computation for little-endian and big-endian machines.  A table
    is its eight rows of 256 words; [None] is an access outside it.  The
    address of the buffer is an argument, since the byte loop runs up to the
    next aligned address.  The 16-bit variants of [crcspeed.c] are not used by
    the server and not modelled. *)

From Stdlib Require Import ZArith Lia ZifyBool.
From stdpp Require Import base gmap numbers option list.
From S2P Require Import Prelude.

Local Open Scope Z_scope.

Notation POLY := 0xad93d23594c935a9%Z (only parsing).

(** ** The definition *)

Fixpoint crc_reflect_loop (n : nat) (data ret : Z) : Z :=
  match n with
  | O => ret
  | S n =>
      let data := Z.shiftr data 1 in
      crc_reflect_loop n data (Z.lor (u64 (Z.shiftl ret 1)) (Z.land data 1))
  end.

Definition crc_reflect (data : Z) (data_len : nat) : Z :=
  crc_reflect_loop (data_len - 1) data (Z.land data 1).

(** The loop over the bits of the byte [c]; [i] is the mask, of eight bits. *)
Fixpoint crc64_bits (fuel : nat) (i c crc : Z) : option Z :=
  if Z.land i 255 =? 0 then Some crc
  else
    match fuel with
    | O => None
    | S fuel =>
        let bit := negb (Z.land crc 0x8000000000000000 =? 0) in
        let bit := if negb (Z.land c i =? 0) then negb bit else bit in
        let crc := u64 (Z.shiftl crc 1) in
        let crc := if bit : bool then Z.lxor crc POLY else crc in
        crc64_bits fuel (u8 (Z.shiftl i 1)) c crc
    end.

Fixpoint crc64_loop (data : list Z) (crc : Z) : option Z :=
  match data with
  | [] => Some crc
  | c :: data =>
      crc ← crc64_bits 8 1 c crc;
      crc64_loop data (Z.land crc 0xffffffffffffffff)
  end.

Definition _crc64 (crc : Z) (in_data : list Z) : option Z :=
  crc ← crc64_loop in_data crc;
  let crc := Z.land crc 0xffffffffffffffff in
  Some (Z.lxor (crc_reflect crc 64) 0).

(** ** The tables *)

Notation table := (list (list Z)).

Definition table_get (t : table) (k : nat) (n : Z) : option Z := row ← t !! k; get row n.

(** The first row: the checksums of the single bytes. *)
Definition first_row (crcfn : Z -> list Z -> option Z) : option (list Z) :=
  mapM (fun n : nat => crcfn 0 [u8 (Z.of_nat n)]) (seq 0 256).

(** One more row, from the first and the previous one. *)
Definition next_row (row0 row : list Z) : option (list Z) :=
  mapM (fun crc => t ← get row0 (Z.land crc 255); Some (Z.lxor t (Z.shiftr crc 8))) row.

Fixpoint more_rows (k : nat) (row0 row : list Z) : option table :=
  match k with
  | O => Some []
  | S k => r ← next_row row0 row; rs ← more_rows k row0 r; Some (r :: rs)
  end.

Definition crcspeed64little_init (crcfn : Z -> list Z -> option Z) : option table :=
  row0 ← first_row crcfn;
  rows ← more_rows 7 row0 row0;
  Some (row0 :: rows).

(** Reversing the bytes of a word. *)
Definition rev8 (a : Z) : Z :=
  let m := 0xff00ff00ff00ff in
  let a := Z.lor (Z.land (Z.shiftr a 8) m) (u64 (Z.shiftl (Z.land a m) 8)) in
  let m := 0xffff0000ffff in
  let a := Z.lor (Z.land (Z.shiftr a 16) m) (u64 (Z.shiftl (Z.land a m) 16)) in
  Z.lor (Z.shiftr a 32) (u64 (Z.shiftl a 32)).

Definition crcspeed64big_init (fn : Z -> list Z -> option Z) : option table :=
  big_table ← crcspeed64little_init fn;
  Some (map (map rev8) big_table : table).

(** ** The computation with the tables *)

Section Little.
Context (little_table : table).

Definition little_step (crc b : Z) : option Z :=
  t ← table_get little_table 0 (Z.land (Z.lxor crc b) 255);
  Some (Z.lxor t (Z.shiftr crc 8)).

(** Single bytes, up to an aligned address. *)
Fixpoint little_head (crc next : Z) (s : list Z) : option (Z * list Z) :=
  match s with
  | [] => Some (crc, [])
  | b :: s' =>
      if Z.land next 7 =? 0 then Some (crc, s)
      else crc ← little_step crc b; little_head crc (next + 1) s'
  end.

(** Eight bytes at once. *)
Definition little_word (crc : Z) (w : list Z) : option Z :=
  let crc := Z.lxor crc (le_val w) in
  t7 ← table_get little_table 7 (Z.land crc 255);
  t6 ← table_get little_table 6 (Z.land (Z.shiftr crc 8) 255);
  t5 ← table_get little_table 5 (Z.land (Z.shiftr crc 16) 255);
  t4 ← table_get little_table 4 (Z.land (Z.shiftr crc 24) 255);
  t3 ← table_get little_table 3 (Z.land (Z.shiftr crc 32) 255);
  t2 ← table_get little_table 2 (Z.land (Z.shiftr crc 40) 255);
  t1 ← table_get little_table 1 (Z.land (Z.shiftr crc 48) 255);
  t0 ← table_get little_table 0 (Z.shiftr crc 56);
  Some (Z.lxor (Z.lxor (Z.lxor (Z.lxor (Z.lxor (Z.lxor (Z.lxor t7 t6) t5) t4) t3) t2) t1) t0).

Fixpoint little_words (crc : Z) (s : list Z) : option (Z * list Z) :=
  match s with
  | b0 :: b1 :: b2 :: b3 :: b4 :: b5 :: b6 :: b7 :: s =>
      crc ← little_word crc [b0; b1; b2; b3; b4; b5; b6; b7];
      little_words crc s
  | _ => Some (crc, s)
  end.

Fixpoint little_tail (crc : Z) (s : list Z) : option Z :=
  match s with
  | [] => Some crc
  | b :: s => crc ← little_step crc b; little_tail crc s
  end.

Definition crcspeed64little (crc buf : Z) (s : list Z) : option Z :=
  '(crc, s) ← little_head crc buf s;
  '(crc, s) ← little_words crc s;
  little_tail crc s.
End Little.

Section Big.
Context (big_table : table).

Definition big_step (crc b : Z) : option Z :=
  t ← table_get big_table 0 (Z.lxor (Z.shiftr crc 56) b);
  Some (Z.lxor t (u64 (Z.shiftl crc 8))).

Fixpoint big_head (crc next : Z) (s : list Z) : option (Z * list Z) :=
  match s with
  | [] => Some (crc, [])
  | b :: s' =>
      if Z.land next 7 =? 0 then Some (crc, s)
      else crc ← big_step crc b; big_head crc (next + 1) s'
  end.

(** The word is loaded with its first byte as the most significant one. *)
Definition big_word (crc : Z) (w : list Z) : option Z :=
  let crc := Z.lxor crc (le_val (reverse w)) in
  t0 ← table_get big_table 0 (Z.land crc 255);
  t1 ← table_get big_table 1 (Z.land (Z.shiftr crc 8) 255);
  t2 ← table_get big_table 2 (Z.land (Z.shiftr crc 16) 255);
  t3 ← table_get big_table 3 (Z.land (Z.shiftr crc 24) 255);
  t4 ← table_get big_table 4 (Z.land (Z.shiftr crc 32) 255);
  t5 ← table_get big_table 5 (Z.land (Z.shiftr crc 40) 255);
  t6 ← table_get big_table 6 (Z.land (Z.shiftr crc 48) 255);
  t7 ← table_get big_table 7 (Z.shiftr crc 56);
  Some (Z.lxor (Z.lxor (Z.lxor (Z.lxor (Z.lxor (Z.lxor (Z.lxor t0 t1) t2) t3) t4) t5) t6) t7).

Fixpoint big_words (crc : Z) (s : list Z) : option (Z * list Z) :=
  match s with
  | b0 :: b1 :: b2 :: b3 :: b4 :: b5 :: b6 :: b7 :: s =>
      crc ← big_word crc [b0; b1; b2; b3; b4; b5; b6; b7];
      big_words crc s
  | _ => Some (crc, s)
  end.

Fixpoint big_tail (crc : Z) (s : list Z) : option Z :=
  match s with
  | [] => Some crc
  | b :: s => crc ← big_step crc b; big_tail crc s
  end.

Definition crcspeed64big (crc buf : Z) (s : list Z) : option Z :=
  let crc := rev8 crc in
  '(crc, s) ← big_head crc buf s;
  '(crc, s) ← big_words crc s;
  crc ← big_tail crc s;
  Some (rev8 crc).
End Big.

(** ** The entry points, on either kind of machine *)

Definition crcspeed64native_init (little : bool) (fn : Z -> list Z -> option Z) : option table :=
  if little then crcspeed64little_init fn else crcspeed64big_init fn.

Definition crcspeed64native (little : bool) (t : table) (crc buf : Z) (s : list Z) : option Z :=
  if little then crcspeed64little t crc buf s else crcspeed64big t crc buf s.

Definition crc64_init (little : bool) : option table := crcspeed64native_init little _crc64.

(** [crc64] with the table that [crc64_init] leaves, [s] being at address [buf]. *)
Definition crc64 (little : bool) (crc buf : Z) (s : list Z) : option Z :=
  crc64_table ← crc64_init little;
  crcspeed64native little crc64_table crc buf s.
