(* ===== verification/Crc64Proof.v ===== *)
(** * The table-driven CRC-64 computes the bit-by-bit definition

    The checksum is linear over exclusive or: a word of any length is a sum of
    its bits, and the register after some input is the sum of what each bit
    contributes.  From this follow the equivalence of the slice-by-8 tables
    with the definition, on little-endian and big-endian machines and for any
    alignment, and that no error confined to eight bytes goes undetected. *)

From Stdlib Require Import ZArith Lia ZifyBool.
From stdpp Require Import base gmap numbers option list.
From S2P Require Import Prelude Crc64.

Local Open Scope Z_scope.

(** ** Exclusive or *)

Lemma lxor_4 a b c d : Z.lxor (Z.lxor a b) (Z.lxor c d) = Z.lxor (Z.lxor a c) (Z.lxor b d).
Proof. rewrite !Z.lxor_assoc. f_equal. rewrite <- !Z.lxor_assoc. f_equal. apply Z.lxor_comm. Qed.

Lemma odd_lxor a b : Z.odd (Z.lxor a b) = xorb (Z.odd a) (Z.odd b).
Proof. by rewrite <- !Z.bit0_odd, Z.lxor_spec. Qed.

Lemma lxor_high a b k : 0 <= k -> in_u k a -> a + b * 2 ^ k = Z.lxor a (Z.shiftl b k).
Proof.
  intros Hk Ha. rewrite <- (lor_shiftl a b k Hk Ha).
  apply Z.bits_inj_iff'. intros i Hi. rewrite Z.lxor_spec, Z.lor_spec, Z.shiftl_spec by done.
  destruct (Z.lt_ge_cases i k).
  - rewrite (Z.testbit_neg_r b) by lia. by destruct (Z.testbit a i).
  - by rewrite (in_u_high k a i).
Qed.

(** A word is its lowest bits and the others. *)
Lemma lxor_split x k : 0 <= k -> x = Z.lxor (x mod 2 ^ k) (Z.shiftl (Z.shiftr x k) k).
Proof.
  intros Hk. rewrite <- lxor_high.
  - rewrite Z.shiftr_div_pow2 by done. pose proof (Z.div_mod x (2 ^ k) ltac:(lia)). lia.
  - done.
  - apply Z.mod_pos_bound. lia.
Qed.

Lemma lxor_neq x y : x <> y -> Z.lxor x y <> 0.
Proof. intros H E%Z.lxor_eq. done. Qed.

(** ** The register, one bit at a time, in reflected order *)

Definition RPOLY : Z := 0x95ac9329ac4bc9b5.

(** Sealed, so that conversion does not unfold it. *)
Definition sbit_aux : seal (fun x => Z.lxor (Z.shiftr x 1) (if Z.odd x then RPOLY else 0)).
Proof. by eexists. Qed.
Definition sbit : Z -> Z := unseal sbit_aux.
Lemma sbit_unseal x : sbit x = Z.lxor (Z.shiftr x 1) (if Z.odd x then RPOLY else 0).
Proof. unfold sbit. by rewrite (seal_eq sbit_aux). Qed.

Definition sbits (n : nat) (x : Z) : Z := Nat.iter n sbit x.

Definition step (r b : Z) : Z := sbits 8 (Z.lxor r b).

(** The checksum of [s] starting from [r]. *)
Definition crc64_spec (r : Z) (s : list Z) : Z := foldl step r s.

Lemma sbit_lxor x y : sbit (Z.lxor x y) = Z.lxor (sbit x) (sbit y).
Proof.
  rewrite !sbit_unseal, lxor_4, Z.shiftr_lxor, odd_lxor. f_equal.
  destruct (Z.odd x), (Z.odd y); cbn [xorb]; by rewrite ?Z.lxor_nilpotent, ?Z.lxor_0_l, ?Z.lxor_0_r.
Qed.

Lemma sbits_S n x : sbits (S n) x = sbits n (sbit x).
Proof. unfold sbits. rewrite Nat.iter_succ_r. done. Qed.

Lemma sbits_add n m x : sbits (n + m) x = sbits n (sbits m x).
Proof. unfold sbits. by rewrite Nat.iter_add. Qed.

Lemma sbits_lxor n : forall x y, sbits n (Z.lxor x y) = Z.lxor (sbits n x) (sbits n y).
Proof. induction n as [|n IH]; intros x y; [done|]. by rewrite !sbits_S, sbit_lxor, IH. Qed.

Lemma sbits_0 n : sbits n 0 = 0.
Proof. induction n as [|n IH]; [done|]. rewrite sbits_S, sbit_unseal. exact IH. Qed.

Lemma sbit_double x : sbit (Z.shiftl x 1) = x.
Proof.
  rewrite !sbit_unseal, Z.shiftr_shiftl_l, Z.sub_diag, Z.shiftl_0_r by lia.
  rewrite <- Z.bit0_odd, Z.shiftl_spec, Z.testbit_neg_r, Z.lxor_0_r by lia. done.
Qed.

Lemma sbits_shiftl n : forall x, sbits n (Z.shiftl x (Z.of_nat n)) = x.
Proof.
  induction n as [|n IH]; intros x; [apply Z.shiftl_0_r|].
  rewrite sbits_S. replace (Z.of_nat (S n)) with (Z.of_nat n + 1) by lia.
  rewrite <- Z.shiftl_shiftl by lia. by rewrite sbit_double.
Qed.

Lemma sbit_in_u x : in_u 64 x -> in_u 64 (sbit x).
Proof.
  intros H. rewrite sbit_unseal. apply lxor_in_u; [lia|by apply shiftr_in_u|]. destruct (Z.odd x); split; vm_compute; congruence.
Qed.

Lemma sbits_in_u n x : in_u 64 x -> in_u 64 (sbits n x).
Proof. intros H. induction n; [done|]. simpl. by apply sbit_in_u. Qed.

(** The register is never lost: the polynomial has its highest bit set. *)
Lemma sbit_nonzero x : in_u 64 x -> x <> 0 -> sbit x <> 0.
Proof.
  intros Hx H0 Hs. rewrite sbit_unseal in Hs. apply Z.lxor_eq in Hs. pose proof (shiftr_in_u 63 x 1) as Hr.
  assert (Z.testbit (Z.shiftr x 1) 63 = false) as Hb
    by (rewrite Z.shiftr_spec by lia; apply (in_u_high 64); (done || lia)).
  destruct (Z.odd x) eqn:Ho.
  - rewrite Hs in Hb. vm_compute in Hb. done.
  - apply H0. rewrite (lxor_split x 1) by lia. rewrite Hs, Z.shiftl_0_l, Z.lxor_0_r.
    change (2 ^ 1) with 2. rewrite Zmod_odd, Ho. done.
Qed.

Lemma sbits_nonzero n x : in_u 64 x -> x <> 0 -> sbits n x <> 0.
Proof.
  intros Hx H0. induction n as [|n IH]; [done|]. simpl. apply sbit_nonzero; [by apply sbits_in_u|done].
Qed.

(** ** Bytes *)

Lemma byte_in_u b w : byteZ b -> 8 <= w -> in_u w b.
Proof. unfold byteZ, in_u. intros. assert (2 ^ 8 <= 2 ^ w) by (apply Z.pow_le_mono_r; lia). lia. Qed.

Lemma step_in_u r b : in_u 64 r -> byteZ b -> in_u 64 (step r b).
Proof. intros. apply sbits_in_u, lxor_in_u; [lia|done|]. apply byte_in_u; (done || lia). Qed.

Lemma crc64_spec_in_u s : forall r, in_u 64 r -> Forall byteZ s -> in_u 64 (crc64_spec r s).
Proof.
  induction s as [|b s IH]; intros r Hr Hs; [done|]. apply Forall_cons in Hs as [].
  apply IH; [by apply step_in_u|done].
Qed.

Lemma crc64_spec_app r s1 s2 : crc64_spec r (s1 ++ s2) = crc64_spec (crc64_spec r s1) s2.
Proof. apply foldl_app. Qed.

Lemma le_val_lxor b w : byteZ b -> le_val (b :: w) = Z.lxor b (Z.shiftl (le_val w) 8).
Proof.
  intros. rewrite <- lxor_high; [|lia|by apply byte_in_u; [|lia]].
  change (2 ^ 8) with 256. simpl. lia.
Qed.

(** A string enters the register as one number. *)
Lemma crc64_spec_word w : forall r, Forall byteZ w ->
  crc64_spec r w = sbits (8 * length w) (Z.lxor r (le_val w)).
Proof.
  induction w as [|b w IH]; intros r Hw; [by rewrite Z.lxor_0_r|].
  apply Forall_cons in Hw as [Hb Hw]. change (crc64_spec r (b :: w)) with (crc64_spec (step r b) w).
  rewrite IH, le_val_lxor by done. change (8 * length (b :: w))%nat with (8 * S (length w))%nat.
  replace (8 * S (length w))%nat with (8 * length w + 8)%nat by lia.
  rewrite sbits_add, <- Z.lxor_assoc, (sbits_lxor 8). f_equal. unfold step. f_equal.
  symmetry. apply (sbits_shiftl 8).
Qed.

(** What the tables hold: a byte, and the rest of the register shifted. *)
Lemma sbits_low m x :
  sbits (8 * S m) x = Z.lxor (sbits (8 * S m) (Z.land x 255)) (sbits (8 * m) (Z.shiftr x 8)).
Proof.
  rewrite (lxor_split x 8) at 1 by lia. rewrite sbits_lxor, land_255. change (2 ^ 8) with 256. f_equal.
  replace (8 * S m)%nat with (8 * m + 8)%nat by lia. rewrite sbits_add. f_equal. apply (sbits_shiftl 8).
Qed.

Lemma sbits_shift m k k' x : 0 <= k -> k' = k + 8 ->
  sbits (8 * S m) (Z.shiftr x k) =
    Z.lxor (sbits (8 * S m) (Z.land (Z.shiftr x k) 255)) (sbits (8 * m) (Z.shiftr x k')).
Proof. intros Hk ->. rewrite sbits_low. by rewrite Z.shiftr_shiftr by lia. Qed.

Lemma step_table r b : byteZ b ->
  step r b = Z.lxor (sbits 8 (Z.land (Z.lxor r b) 255)) (Z.shiftr r 8).
Proof.
  intros Hb. unfold step. rewrite (sbits_low 0). f_equal. cbn [Nat.mul sbits Nat.iter].
  rewrite Z.shiftr_lxor. rewrite (Z.shiftr_div_pow2 b) by lia. rewrite Z.div_small, Z.lxor_0_r; [done|].
  exact Hb.
Qed.

(** ** The bit-by-bit definition *)

Lemma land_1_range x : in_u 1 (Z.land x 1).
Proof. rewrite (land_ones_mod x 1) by (done || lia). apply Z.mod_pos_bound. lia. Qed.

Lemma crc_reflect_loop_bit n : forall data ret k i,
  in_u k ret -> 0 <= k -> k + Z.of_nat n <= 64 -> 0 <= i ->
  Z.testbit (crc_reflect_loop n data ret) i =
    if i <? Z.of_nat n then Z.testbit data (Z.of_nat n - i) else Z.testbit ret (i - Z.of_nat n).
Proof.
  induction n as [|n IH]; intros data ret k i Hret Hk Hn Hi; cbn [crc_reflect_loop].
  - zb. f_equal. lia.
  - assert (Hs : in_u 64 (Z.shiftl ret 1)).
    { unfold in_u in *. rewrite Z.shiftl_mul_pow2 by lia.
      assert (2 ^ (k + 1) <= 2 ^ 64) by (apply Z.pow_le_mono_r; lia). rewrite Z.pow_add_r in * by lia. lia. }
    rewrite wrap_id by done.
    assert (Hd : 0 <= Z.land (Z.shiftr data 1) 1 < 2).
    { apply land_1_range. }
    rewrite (IH _ _ (k + 1)); [| |lia..].
    + destruct (Z.ltb_spec i (Z.of_nat n)); zb.
      * rewrite Z.shiftr_spec by lia. f_equal. lia.
      * rewrite Z.lor_spec, Z.shiftl_spec, Z.land_spec by lia.
        destruct (Z.ltb_spec i (Z.of_nat (S n))).
        -- replace i with (Z.of_nat n) by lia. rewrite Z.sub_diag, Z.testbit_neg_r, Z.shiftr_spec by lia.
           cbn [orb]. rewrite andb_true_r. f_equal. lia.
        -- rewrite (in_u_high 1 1) by (unfold in_u; lia). rewrite andb_false_r, orb_false_r. f_equal. lia.
    + replace (Z.lor (Z.shiftl ret 1) (Z.land (Z.shiftr data 1) 1)) with
        (Z.land (Z.shiftr data 1) 1 + ret * 2 ^ 1) by (by rewrite shiftl_lor by (unfold in_u; lia)).
      unfold in_u in *. rewrite Z.pow_add_r by lia. lia.
Qed.

(** Sealed, so that conversion does not unfold it. *)
Definition refl_aux : seal (fun x => crc_reflect x 64).
Proof. by eexists. Qed.
Definition refl : Z -> Z := unseal refl_aux.
Lemma refl_unseal x : refl x = crc_reflect x 64.
Proof. unfold refl. by rewrite (seal_eq refl_aux). Qed.

Lemma refl_bit x i : 0 <= i < 64 -> Z.testbit (refl x) i = Z.testbit x (63 - i).
Proof.
  intros Hi. rewrite refl_unseal. unfold crc_reflect.
  assert (Hx : in_u 1 (Z.land x 1)).
  { apply land_1_range. }
  rewrite (crc_reflect_loop_bit _ _ _ 1) by (done || lia). simpl. case_zb; [done|].
  replace i with 63 by lia. rewrite Z.land_spec. simpl. apply andb_true_r.
Qed.

Lemma refl_in_u x : in_u 64 (refl x).
Proof.
  assert (Hx : in_u 1 (Z.land x 1)).
  { apply land_1_range. }
  assert (Hnn : forall n d r, 0 <= r -> 0 <= crc_reflect_loop n d r).
  { induction n as [|n IH]; intros d r Hr; [done|]. simpl. apply IH. apply Z.lor_nonneg. split.
    - apply wrap_range. lia.
    - apply Z.land_nonneg. lia. }
  rewrite refl_unseal. unfold crc_reflect. apply in_u_of_bits; [lia|apply Hnn, Hx|]. intros i Hi.
  rewrite (crc_reflect_loop_bit _ _ _ 1) by (done || lia). simpl. zb.
  apply (in_u_high 1); (done || lia).
Qed.

Lemma refl_refl x : in_u 64 x -> refl (refl x) = x.
Proof.
  intros Hx. apply (bits_ext 64); [lia|apply refl_in_u|done|]. intros i Hi.
  rewrite !refl_bit by lia. f_equal. lia.
Qed.

Lemma refl_lxor x y : refl (Z.lxor x y) = Z.lxor (refl x) (refl y).
Proof.
  apply (bits_ext 64); [lia|apply refl_in_u|apply lxor_in_u; [lia|apply refl_in_u..]|].
  intros i Hi. by rewrite Z.lxor_spec, !refl_bit, Z.lxor_spec.
Qed.

Lemma refl_shift x : in_u 64 x -> refl (u64 (Z.shiftl x 1)) = Z.shiftr (refl x) 1.
Proof.
  intros Hx. apply (bits_ext 64); [lia|apply refl_in_u|apply shiftr_in_u; (lia || apply refl_in_u)|].
  intros i Hi. rewrite refl_bit, wrap_bit, Z.shiftl_spec, Z.shiftr_spec by lia.
  destruct (Z.lt_ge_cases i 63).
  - rewrite refl_bit by lia. f_equal. lia.
  - rewrite Z.testbit_neg_r by lia. symmetry. apply (in_u_high 64); [lia|apply refl_in_u|lia].
Qed.

Lemma land_pow2_bit x k : 0 <= k -> (Z.land x (2 ^ k) =? 0) = negb (Z.testbit x k).
Proof.
  intros Hk. destruct (Z.testbit x k) eqn:E; cbn [negb].
  - apply Z.eqb_neq. intros H. assert (Z.testbit (Z.land x (2 ^ k)) k = false) as Hb by (by rewrite H, Z.bits_0).
    by rewrite Z.land_spec, E, Z.pow2_bits_true in Hb.
  - apply Z.eqb_eq. apply Z.bits_inj_iff'. intros i Hi. rewrite Z.land_spec, Z.bits_0.
    destruct (decide (i = k)) as [->|]; [by rewrite E|]. rewrite Z.pow2_bits_false by lia. apply andb_false_r.
Qed.

(** One bit [b] of input in the original order. *)
Definition ubit (b : bool) (crc : Z) : Z :=
  if xorb b (Z.testbit crc 63) then Z.lxor (u64 (Z.shiftl crc 1)) POLY else u64 (Z.shiftl crc 1).

Lemma ubit_in_u b crc : in_u 64 (ubit b crc).
Proof.
  unfold ubit. destruct (xorb _ _); [apply lxor_in_u; [lia| |split; vm_compute; congruence]|]; apply wrap_range; lia.
Qed.

Lemma refl_ubit b crc : in_u 64 crc -> refl (ubit b crc) = sbit (Z.lxor (refl crc) (b2z b)).
Proof.
  intros Hc. unfold ubit. rewrite sbit_unseal, odd_lxor, Z.shiftr_lxor.
  replace (Z.odd (b2z b)) with b by (by destruct b).
  replace (Z.shiftr (b2z b) 1) with 0 by (by destruct b).
  rewrite Z.lxor_0_r, <- (Z.bit0_odd (refl crc)), refl_bit by lia. change (63 - 0) with 63.
  rewrite xorb_comm. destruct (xorb _ _).
  - rewrite refl_lxor, refl_shift by done. f_equal. rewrite refl_unseal. by vm_compute.
  - by rewrite refl_shift, Z.lxor_0_r.
Qed.

(** The bits of a byte, lowest first, are the byte added at once. *)
Fixpoint feed (n : nat) (k : Z) (c r : Z) : Z :=
  match n with
  | O => r
  | S n => feed n (k + 1) c (sbit (Z.lxor r (b2z (Z.testbit c k))))
  end.

Lemma feed_S n k c r : feed (S n) k c r = feed n (k + 1) c (sbit (Z.lxor r (b2z (Z.testbit c k)))).
Proof. reflexivity. Qed.

Lemma feed_lxor n : forall k c r, 0 <= k -> in_u (k + Z.of_nat n) c ->
  feed n k c r = sbits n (Z.lxor r (Z.shiftr c k)).
Proof.
  induction n as [|n IH]; intros k c r Hk Hc; cbn [feed].
  - rewrite Z.shiftr_div_pow2, Z.div_small, Z.lxor_0_r; [done| |done].
    unfold in_u in Hc. rewrite Z.add_0_r in Hc. done.
  - rewrite IH; [|lia|by replace (k + 1 + Z.of_nat n) with (k + Z.of_nat (S n)) by lia].
    rewrite sbits_S. f_equal.
    rewrite (lxor_split (Z.shiftr c k) 1) by lia. rewrite <- Z.lxor_assoc, (sbit_lxor (Z.lxor _ _)), sbit_double.
    rewrite Z.shiftr_shiftr by lia. do 3 f_equal. change (2 ^ 1) with 2.
    rewrite Zmod_odd, <- Z.bit0_odd, Z.shiftr_spec by lia. rewrite Z.add_0_l. by destruct (Z.testbit c k).
Qed.

Lemma crc64_bits_step fuel k c crc : 0 <= k < 8 ->
  crc64_bits (S fuel) (2 ^ k) c crc =
    crc64_bits fuel (u8 (2 ^ (k + 1))) c (ubit (Z.testbit c k) crc).
Proof.
  intros Hk. cbn [crc64_bits]. rewrite land_255.
  assert (0 < 2 ^ k < 256) by (split; [lia|]; change 256 with (2 ^ 8); apply Z.pow_lt_mono_r; lia).
  rewrite Z.mod_small by lia. zb.
  change 0x8000000000000000 with (2 ^ 63). rewrite !land_pow2_bit, !negb_involutive by lia.
  rewrite Z.shiftl_mul_pow2, <- Z.pow_add_r by lia. unfold ubit.
  by destruct (Z.testbit c k), (Z.testbit crc 63).
Qed.

Lemma crc64_bits_feed n c : forall k crc, 0 <= k -> k + Z.of_nat n = 8 -> in_u 64 crc ->
  exists crc', crc64_bits n (u8 (2 ^ k)) c crc = Some crc' /\ in_u 64 crc' /\
    refl crc' = feed n k c (refl crc).
Proof.
  induction n as [|n IH]; intros k crc Hk Hn Hc.
  - replace k with 8 by lia. exists crc. split; [reflexivity|]. split; [done|reflexivity].
  - assert (in_u 8 (2 ^ k)) as Hu by (split; [lia|apply Z.pow_lt_mono_r; lia]).
    rewrite wrap_id, crc64_bits_step by (done || lia).
    destruct (IH (k + 1) (ubit (Z.testbit c k) crc)) as (crc' & -> & H' & Hs); [lia..|apply ubit_in_u|].
    rewrite refl_ubit in Hs by done. exists crc'. split; [reflexivity|]. split; [exact H'|].
    rewrite feed_S. exact Hs.
Qed.

Lemma crc64_byte c crc : in_u 64 crc -> byteZ c ->
  exists crc', crc64_bits 8 1 c crc = Some crc' /\ in_u 64 crc' /\ refl crc' = step (refl crc) c.
Proof.
  intros Hc Hb. destruct (crc64_bits_feed 8 c 0 crc) as (crc' & E & H' & Hs); [lia..|done|].
  exists crc'. split; [exact E|]. split; [done|].
  rewrite Hs, feed_lxor, Z.shiftr_0_r; [reflexivity|lia|].
  by apply byte_in_u; [|lia].
Qed.

Lemma crc64_loop_spec data : forall crc, in_u 64 crc -> Forall byteZ data ->
  exists crc', crc64_loop data crc = Some crc' /\ in_u 64 crc' /\ refl crc' = crc64_spec (refl crc) data.
Proof.
  induction data as [|c data IH]; intros crc Hc Hd; [by exists crc|].
  apply Forall_cons in Hd as [Hb Hd]. cbn [crc64_loop].
  destruct (crc64_byte c crc Hc Hb) as (crc1 & -> & H1 & Hs). cbn [mbind option_bind].
  rewrite (land_ones_mod _ 64) by (done || lia). rewrite Z.mod_small by done.
  destruct (IH crc1 H1 Hd) as (crc2 & -> & H2 & Hs2). exists crc2. by rewrite Hs2, Hs.
Qed.

Lemma _crc64_spec crc data : in_u 64 crc -> Forall byteZ data ->
  _crc64 crc data = Some (crc64_spec (refl crc) data).
Proof.
  intros Hc Hd. unfold _crc64. destruct (crc64_loop_spec data crc Hc Hd) as (crc' & -> & H' & Hs).
  cbn [mbind option_bind]. rewrite (land_ones_mod _ 64) by (done || lia). rewrite Z.mod_small by done.
  rewrite Z.lxor_0_r. f_equal. by rewrite <- refl_unseal.
Qed.

(** ** The tables *)

Lemma mapM_total {A B} (f : A -> option B) (g : A -> B) l :
  Forall (fun x => f x = Some (g x)) l -> mapM f l = Some (g <$> l).
Proof.
  induction 1 as [|x l Hx Hl IH]; [done|]. cbn. rewrite Hx. cbn. by rewrite IH.
Qed.

(** Row [k]: the contribution of each byte after [k + 1] bytes. *)
Definition row (k : nat) : list Z := (fun n => sbits (8 * S k) (Z.of_nat n)) <$> seq 0 256.

Lemma row_get k n : 0 <= n < 256 -> get (row k) n = Some (sbits (8 * S k) n).
Proof.
  intros Hn. unfold get, row. zb. rewrite list_lookup_fmap, lookup_seq_lt by lia.
  cbn [fmap option_fmap option_map]. by rewrite Nat.add_0_l, Z2Nat.id by lia.
Qed.

Lemma seq_bytes (P : nat -> Prop) : (forall n, byteZ (Z.of_nat n) -> P n) -> Forall P (seq 0 256).
Proof. intros H. apply Forall_seq. intros n Hn. apply H. unfold byteZ. lia. Qed.

Lemma first_row_spec : first_row _crc64 = Some (row 0).
Proof.
  apply mapM_total, seq_bytes. intros n Hn. rewrite wrap_id by exact Hn.
  rewrite _crc64_spec; [|split; vm_compute; congruence|by constructor].
  replace (refl 0) with 0 by (by rewrite refl_unseal). cbn. unfold step. by rewrite Z.lxor_0_l.
Qed.

Lemma mask_range x : 0 <= Z.land x 255 < 256.
Proof. rewrite land_255. apply Z.mod_pos_bound. lia. Qed.

Lemma next_row_spec k : next_row (row 0) (row k) = Some (row (S k)).
Proof.
  unfold next_row, row at 2. erewrite (mapM_total _ (fun crc => sbits 8 crc)).
  - f_equal. unfold row. rewrite <- list_fmap_compose. apply list_fmap_ext. intros i n _. unfold compose.
    replace (8 * S (S k))%nat with (8 + 8 * S k)%nat by lia. by rewrite (sbits_add 8).
  - apply Forall_fmap, seq_bytes. intros n Hn. simpl compose. unfold compose.
    rewrite row_get by apply mask_range. cbn [mbind option_bind].
    f_equal. symmetry. exact (sbits_low 0 _).
Qed.

Lemma more_rows_spec m : forall k, more_rows m (row 0) (row k) = Some (row <$> seq (S k) m).
Proof.
  induction m as [|m IH]; intros k; [done|]. cbn [more_rows]. rewrite next_row_spec. cbn [mbind option_bind].
  by rewrite IH.
Qed.

Definition rows : table := row <$> seq 0 8.

Lemma crcspeed64little_init_spec : crcspeed64little_init _crc64 = Some rows.
Proof. unfold crcspeed64little_init. rewrite first_row_spec. cbn [mbind option_bind]. by rewrite more_rows_spec. Qed.

Lemma rows_get k n : (k < 8)%nat -> 0 <= n < 256 -> table_get rows k n = Some (sbits (8 * S k) n).
Proof.
  intros Hk Hn. unfold table_get, rows. rewrite list_lookup_fmap, lookup_seq_lt by lia.
  cbn [fmap option_fmap option_map mbind option_bind]. by apply row_get.
Qed.

Lemma little_step_spec r b : byteZ b -> little_step rows r b = Some (step r b).
Proof.
  intros Hb. unfold little_step. rewrite rows_get by (lia || apply mask_range). cbn [mbind option_bind].
  by rewrite step_table.
Qed.

Lemma shiftr_byte r k : 0 <= k -> in_u (k + 8) r -> 0 <= Z.shiftr r k < 256.
Proof.
  intros Hk Hr. unfold in_u in Hr. rewrite Z.shiftr_div_pow2 by done. rewrite Z.pow_add_r in Hr by lia.
  split; [apply Z.div_pos; lia|]. apply Z.div_lt_upper_bound; lia.
Qed.

Lemma le_val_in_u w : Forall byteZ w -> in_u (8 * Z.of_nat (length w)) (le_val w).
Proof. intros Hw. unfold in_u. rewrite <- pow256 by lia. by apply le_val_range. Qed.

(** The eight table entries of a word. *)
Lemma crc64_spec_word8 r w : in_u 64 r -> Forall byteZ w -> length w = 8%nat ->
  let x := Z.lxor r (le_val w) in
  let t k b := sbits (8 * S k) (Z.land (Z.shiftr x b) 255) in
  in_u 64 x /\
  crc64_spec r w = Z.lxor (t 7%nat 0) (Z.lxor (t 6%nat 8) (Z.lxor (t 5%nat 16) (Z.lxor (t 4%nat 24)
    (Z.lxor (t 3%nat 32) (Z.lxor (t 2%nat 40) (Z.lxor (t 1%nat 48) (sbits (8 * 1) (Z.shiftr x 56)))))))).
Proof.
  intros Hr Hw Hl x t. pose proof (le_val_in_u w Hw) as Hv. rewrite Hl in Hv.
  assert (in_u 64 x) as Hx by (apply lxor_in_u; (lia || done)). split; [done|]. unfold t.
  rewrite crc64_spec_word, Hl, Z.shiftr_0_r by done. fold x.
  by rewrite (sbits_low 7 x), (sbits_shift 6 8 16), (sbits_shift 5 16 24), (sbits_shift 4 24 32),
    (sbits_shift 3 32 40), (sbits_shift 2 40 48), (sbits_shift 1 48 56) by lia.
Qed.

Lemma little_word_spec r w : in_u 64 r -> Forall byteZ w -> length w = 8%nat ->
  little_word rows r w = Some (crc64_spec r w).
Proof.
  intros Hr Hw Hl. destruct (crc64_spec_word8 r w Hr Hw Hl) as [Hx ->]. unfold little_word.
  rewrite !rows_get by (lia || apply mask_range || (apply shiftr_byte; (lia || done))).
  cbn [mbind option_bind]. by rewrite !Z.lxor_assoc, Z.shiftr_0_r.
Qed.

Lemma little_head_spec s : forall r next, in_u 64 r -> Forall byteZ s ->
  exists r' s', little_head rows r next s = Some (r', s') /\ in_u 64 r' /\ Forall byteZ s' /\
    crc64_spec r s = crc64_spec r' s'.
Proof.
  induction s as [|b s IH]; intros r next Hr Hs; cbn [little_head]; [by exists r, []|].
  destruct (_ =? _); [by exists r, (b :: s)|]. apply Forall_cons in Hs as [Hb Hs].
  rewrite little_step_spec by done. cbn [mbind option_bind].
  destruct (IH (step r b) (next + 1)) as (r' & s' & -> & H1 & H2 & H3); [by apply step_in_u|done|].
  by exists r', s'.
Qed.

Lemma little_words_spec n : forall r s, (length s <= n)%nat -> in_u 64 r -> Forall byteZ s ->
  exists r' s', little_words rows r s = Some (r', s') /\ in_u 64 r' /\ Forall byteZ s' /\
    crc64_spec r s = crc64_spec r' s'.
Proof.
  induction n as [|n IH]; intros r s Hn Hr Hs.
  - destruct s; simpl in Hn; [|lia]. by exists r, [].
  - do 8 (destruct s as [|? s]; [by eexists r, _|]). cbn [little_words].
    match goal with |- context [little_word _ _ ?w] => set (w8 := w) in * end.
    assert (Forall byteZ w8 /\ Forall byteZ s) as [Hw Hs'].
    { repeat match goal with H : Forall _ (_ :: _) |- _ => apply Forall_cons in H as [] end.
      split; [|done]. unfold w8. repeat (apply Forall_cons; split; [done|]). constructor. }
    rewrite little_word_spec by done. cbn [mbind option_bind].
    destruct (IH (crc64_spec r w8) s) as (r' & s' & E & H1 & H2 & H3);
      [simpl in Hn; lia|by apply crc64_spec_in_u|done|].
    exists r', s'. rewrite <- H3. done.
Qed.

Lemma little_tail_spec s : forall r, Forall byteZ s -> little_tail rows r s = Some (crc64_spec r s).
Proof.
  induction s as [|b s IH]; intros r Hs; [done|]. apply Forall_cons in Hs as [Hb Hs]. cbn [little_tail].
  rewrite little_step_spec by done. cbn [mbind option_bind]. by rewrite IH.
Qed.

Lemma crcspeed64little_spec r buf s : in_u 64 r -> Forall byteZ s ->
  crcspeed64little rows r buf s = Some (crc64_spec r s).
Proof.
  intros Hr Hs. unfold crcspeed64little.
  destruct (little_head_spec s r buf Hr Hs) as (r1 & s1 & -> & H1 & Hs1 & ->). cbn [mbind option_bind].
  destruct (little_words_spec (length s1) r1 s1) as (r2 & s2 & -> & H2 & Hs2 & ->); [done..|].
  cbn [mbind option_bind]. by apply little_tail_spec.
Qed.

(** ** Big-endian machines *)

Lemma wrap_testbit w x i : 0 <= w -> Z.testbit (wrap w x) i = (i <? w) && Z.testbit x i.
Proof.
  intros Hw. destruct (Z.lt_ge_cases i 0).
  - rewrite !Z.testbit_neg_r by lia. by rewrite andb_false_r.
  - case_zb; [by rewrite wrap_bit by lia|by rewrite wrap_bit_high by lia].
Qed.

Lemma shiftr_testbit a n m : Z.testbit (Z.shiftr a n) m = (0 <=? m) && Z.testbit a (m + n).
Proof. case_zb; [by apply Z.shiftr_spec|by apply Z.testbit_neg_r]. Qed.

Lemma shiftl_testbit a n m : 0 <= n -> Z.testbit (Z.shiftl a n) m = Z.testbit a (m - n).
Proof.
  intros Hn. destruct (Z.lt_ge_cases m 0); [by rewrite !Z.testbit_neg_r by lia|by apply Z.shiftl_spec].
Qed.

Lemma land_testbit a m i : Z.testbit (Z.land a m) i = Z.testbit m i && Z.testbit a i.
Proof. rewrite Z.land_spec. apply andb_comm. Qed.

(** Bit by bit, for each of the 64 positions. *)
Lemma rev8_bit a i : 0 <= i < 64 -> Z.testbit (rev8 a) i = Z.testbit a (56 - 8 * (i / 8) + i mod 8).
Proof.
  intros Hi. unfold rev8.
  repeat (rewrite ?Z.lor_spec, ?land_testbit, ?shiftr_testbit, ?wrap_testbit, ?shiftl_testbit by lia).
  generalize (Z.testbit a). intros f.
  assert (exists n, i = Z.of_nat n /\ (n < 64)%nat) as (n & -> & Hn) by (exists (Z.to_nat i); lia). clear Hi.
  do 64 (destruct n as [|n]; [vm_compute; by destruct (f _)|apply Nat.succ_lt_mono in Hn]).
  by apply Nat.nlt_0_r in Hn.
Qed.

Lemma rev8_in_u a : in_u 64 (rev8 a).
Proof.
  unfold rev8. set (b := Z.lor _ _). apply lor_in_u; [lia| |apply wrap_range; lia].
  apply shiftr_in_u; [lia..|]. apply lor_in_u; [lia| |apply wrap_range; lia].
  apply land_in_u_r; [lia|]. split; vm_compute; congruence.
Qed.

Lemma rev8_range i : 0 <= i < 64 -> 0 <= 56 - 8 * (i / 8) + i mod 8 < 64.
Proof. intros. pose proof (Z.div_mod i 8 ltac:(lia)). pose proof (Z.mod_pos_bound i 8 ltac:(lia)). lia. Qed.

Lemma rev8_rev8 a : in_u 64 a -> rev8 (rev8 a) = a.
Proof.
  intros Ha. apply (bits_ext 64); [lia|apply rev8_in_u|done|]. intros i Hi.
  rewrite !rev8_bit by (try apply rev8_range; lia). f_equal.
  pose proof (Z.div_mod i 8 ltac:(lia)). pose proof (Z.mod_pos_bound i 8 ltac:(lia)).
  replace (56 - 8 * (i / 8) + i mod 8) with (i mod 8 + (7 - i / 8) * 8) by lia.
  rewrite Z.div_add, Z.mod_add, Z.div_small, Z.mod_small by lia. lia.
Qed.

Lemma rev8_lxor a b : rev8 (Z.lxor a b) = Z.lxor (rev8 a) (rev8 b).
Proof.
  apply (bits_ext 64); [lia|apply rev8_in_u|apply lxor_in_u; [lia|apply rev8_in_u..]|].
  intros i Hi. by rewrite Z.lxor_spec, !rev8_bit, Z.lxor_spec.
Qed.

Lemma rev8_shift a : in_u 64 a -> rev8 (Z.shiftr a 8) = u64 (Z.shiftl (rev8 a) 8).
Proof.
  intros Ha. apply (bits_ext 64); [lia|apply rev8_in_u|apply wrap_range; lia|]. intros i Hi.
  pose proof (rev8_range i Hi). rewrite rev8_bit, wrap_bit, shiftl_testbit, Z.shiftr_spec by lia.
  destruct (Z.lt_ge_cases i 8).
  - rewrite (Z.testbit_neg_r (rev8 a)), Z.div_small, Z.mod_small by lia. apply (in_u_high 64); (done || lia).
  - rewrite rev8_bit by lia. f_equal. replace i with (i - 8 + 1 * 8) at 1 2 by lia.
    rewrite Z.div_add, Z.mod_add by lia. lia.
Qed.

(** Byte [j] of the reversed word is byte [7 - j]. *)
Lemma rev8_byte a j : 0 <= j < 8 ->
  Z.land (Z.shiftr (rev8 a) (8 * j)) 255 = Z.land (Z.shiftr a (56 - 8 * j)) 255.
Proof.
  intros Hj. apply Z.bits_inj_iff'. intros i Hi. rewrite !Z.land_spec, !Z.shiftr_spec by lia.
  destruct (Z.lt_ge_cases i 8).
  - rewrite rev8_bit by lia. do 2 f_equal. replace (i + 8 * j) with (i + j * 8) by lia.
    rewrite Z.div_add, Z.mod_add, Z.div_small, Z.mod_small by lia. lia.
  - rewrite (in_u_high 8 255 i) by (unfold in_u; lia). by rewrite !andb_false_r.
Qed.

Lemma le_val_bit w : forall i, Forall byteZ w -> 0 <= i ->
  Z.testbit (le_val w) i = match w !! Z.to_nat (i / 8) with Some b => Z.testbit b (i mod 8) | None => false end.
Proof.
  induction w as [|b w IH]; intros i Hw Hi; [by rewrite Z.bits_0|].
  apply Forall_cons in Hw as [Hb Hw]. rewrite le_val_lxor, Z.lxor_spec, Z.shiftl_spec by done.
  destruct (Z.lt_ge_cases i 8).
  - rewrite (Z.testbit_neg_r (le_val w)), Z.div_small, Z.mod_small, xorb_false_r by lia. done.
  - rewrite (in_u_high 8 b i), xorb_false_l, IH by (done || lia).
    assert (i / 8 = (i - 8) / 8 + 1 /\ i mod 8 = (i - 8) mod 8) as [-> ->].
    { replace i with (i - 8 + 1 * 8) at 1 3 by lia. by rewrite Z.div_add, Z.mod_add by lia. }
    assert (0 <= (i - 8) / 8) by (apply Z.div_pos; lia).
    replace (Z.to_nat ((i - 8) / 8 + 1)) with (S (Z.to_nat ((i - 8) / 8))) by lia. done.
Qed.

Lemma le_val_reverse w : Forall byteZ w -> length w = 8%nat -> le_val (reverse w) = rev8 (le_val w).
Proof.
  intros Hw Hl. assert (Hr : Forall byteZ (reverse w)) by (by apply Forall_reverse).
  apply (bits_ext 64); [lia| |apply rev8_in_u|].
  - pose proof (le_val_in_u _ Hr) as Hu. by rewrite length_reverse, Hl in Hu.
  - intros i Hi. pose proof (rev8_range i Hi). rewrite rev8_bit, !le_val_bit by (done || lia).
    pose proof (Z.div_mod i 8 ltac:(lia)). pose proof (Z.mod_pos_bound i 8 ltac:(lia)).
    assert (0 <= i / 8 < 8) by (split; [apply Z.div_pos|apply Z.div_lt_upper_bound]; lia).
    replace (56 - 8 * (i / 8) + i mod 8) with (i mod 8 + (7 - i / 8) * 8) by lia.
    rewrite Z.div_add, Z.mod_add, (Z.div_small (i mod 8)), (Z.mod_small (i mod 8)) by lia.
    rewrite reverse_lookup, Hl by lia.
    by replace (8 - S (Z.to_nat (i / 8)))%nat with (Z.to_nat (0 + (7 - i / 8))) by lia.
Qed.

Definition big_rows : table := map (map rev8) rows.

Lemma big_rows_get k n : (k < 8)%nat -> 0 <= n < 256 ->
  table_get big_rows k n = Some (rev8 (sbits (8 * S k) n)).
Proof.
  intros Hk Hn. pose proof (rows_get k n Hk Hn) as E. unfold table_get, big_rows, get in *.
  rewrite list_lookup_fmap. destruct (rows !! k) as [r|]; [|done].
  cbn [fmap option_fmap option_map mbind option_bind] in *. revert E. zb. intros E.
  by rewrite list_lookup_fmap, E.
Qed.

Lemma rev8_top a : in_u 64 a -> Z.shiftr (rev8 a) 56 = Z.land a 255.
Proof.
  intros Ha. pose proof (rev8_byte a 7 ltac:(lia)) as E. change (8 * 7) with 56 in E.
  change (56 - 56) with 0 in E. rewrite Z.shiftr_0_r in E. rewrite <- E, land_255, Z.mod_small; [done|].
  apply shiftr_byte; [lia|apply rev8_in_u].
Qed.

Lemma big_step_spec r b : in_u 64 r -> byteZ b -> big_step big_rows (rev8 r) b = Some (rev8 (step r b)).
Proof.
  intros Hr Hb. unfold big_step. rewrite rev8_top by done.
  replace (Z.lxor (Z.land r 255) b) with (Z.land (Z.lxor r b) 255).
  - rewrite big_rows_get by (lia || apply mask_range). cbn [mbind option_bind].
    by rewrite step_table, rev8_lxor, rev8_shift.
  - apply Z.bits_inj_iff'. intros i Hi. rewrite !Z.land_spec, !Z.lxor_spec, Z.land_spec.
    destruct (Z.lt_ge_cases i 8).
    + assert (Z.testbit 255 i = true) as -> by (change 255 with (Z.ones 8); apply Z.ones_spec_low; lia).
      by rewrite !andb_true_r.
    + rewrite (in_u_high 8 255 i), (in_u_high 8 b i) by (unfold in_u, byteZ in *; lia).
      by rewrite !andb_false_r.
Qed.

Lemma lxor_swap8 a b c d e f g h :
  Z.lxor (Z.lxor (Z.lxor (Z.lxor (Z.lxor (Z.lxor (Z.lxor h g) f) e) d) c) b) a =
  Z.lxor a (Z.lxor b (Z.lxor c (Z.lxor d (Z.lxor e (Z.lxor f (Z.lxor g h)))))).
Proof.
  rewrite (Z.lxor_comm h g), (Z.lxor_comm _ f), (Z.lxor_comm _ e), (Z.lxor_comm _ d), (Z.lxor_comm _ c),
    (Z.lxor_comm _ b), (Z.lxor_comm _ a). done.
Qed.

Lemma big_word_spec r w : in_u 64 r -> Forall byteZ w -> length w = 8%nat ->
  big_word big_rows (rev8 r) w = Some (rev8 (crc64_spec r w)).
Proof.
  intros Hr Hw Hl. destruct (crc64_spec_word8 r w Hr Hw Hl) as [Hx ->]. unfold big_word.
  rewrite le_val_reverse, <- rev8_lxor by done. set (x := Z.lxor r (le_val w)) in *.
  assert (Hb : forall k k', 0 <= k' -> k' mod 8 = 0 -> k = 56 - k' -> 0 <= k ->
    Z.land (Z.shiftr (rev8 x) k) 255 = Z.land (Z.shiftr x k') 255).
  { intros k k' H1 H2 -> H3. pose proof (Z.div_mod k' 8 ltac:(lia)) as E.
    replace (56 - k') with (8 * (7 - k' / 8)) by lia. rewrite rev8_byte by lia. do 2 f_equal. lia. }
  assert (H0 := Hb 0 56). rewrite Z.shiftr_0_r in H0. rewrite (rev8_top x Hx), H0, (Hb 8 48), (Hb 16 40), (Hb 24 32),
    (Hb 32 24), (Hb 40 16), (Hb 48 8) by (done || lia).
  rewrite !big_rows_get by (lia || apply mask_range). cbn [mbind option_bind]. rewrite <- !rev8_lxor.
  rewrite (land_255 (Z.shiftr x 56)), Z.mod_small by (apply shiftr_byte; (lia || done)).
  by rewrite lxor_swap8, Z.shiftr_0_r.
Qed.

Lemma big_head_spec s : forall r next, in_u 64 r -> Forall byteZ s ->
  exists r' s', big_head big_rows (rev8 r) next s = Some (rev8 r', s') /\ in_u 64 r' /\ Forall byteZ s' /\
    crc64_spec r s = crc64_spec r' s'.
Proof.
  induction s as [|b s IH]; intros r next Hr Hs; cbn [big_head]; [by exists r, []|].
  destruct (_ =? _); [by exists r, (b :: s)|]. apply Forall_cons in Hs as [Hb Hs].
  rewrite big_step_spec by done. cbn [mbind option_bind].
  destruct (IH (step r b) (next + 1)) as (r' & s' & -> & H1 & H2 & H3); [by apply step_in_u|done|].
  by exists r', s'.
Qed.

Lemma big_words_spec n : forall r s, (length s <= n)%nat -> in_u 64 r -> Forall byteZ s ->
  exists r' s', big_words big_rows (rev8 r) s = Some (rev8 r', s') /\ in_u 64 r' /\ Forall byteZ s' /\
    crc64_spec r s = crc64_spec r' s'.
Proof.
  induction n as [|n IH]; intros r s Hn Hr Hs.
  - destruct s; simpl in Hn; [|lia]. by exists r, [].
  - do 8 (destruct s as [|? s]; [by eexists r, _|]). cbn [big_words].
    match goal with |- context [big_word _ _ ?w] => set (w8 := w) in * end.
    assert (Forall byteZ w8 /\ Forall byteZ s) as [Hw Hs'].
    { repeat match goal with H : Forall _ (_ :: _) |- _ => apply Forall_cons in H as [] end.
      split; [|done]. unfold w8. repeat (apply Forall_cons; split; [done|]). constructor. }
    rewrite big_word_spec by done. cbn [mbind option_bind].
    destruct (IH (crc64_spec r w8) s) as (r' & s' & E & H1 & H2 & H3);
      [simpl in Hn; lia|by apply crc64_spec_in_u|done|].
    exists r', s'. rewrite <- H3. done.
Qed.

Lemma big_tail_spec s : forall r, in_u 64 r -> Forall byteZ s ->
  big_tail big_rows (rev8 r) s = Some (rev8 (crc64_spec r s)).
Proof.
  induction s as [|b s IH]; intros r Hr Hs; [done|]. apply Forall_cons in Hs as [Hb Hs]. cbn [big_tail].
  rewrite big_step_spec by done. cbn [mbind option_bind]. by rewrite IH by (done || by apply step_in_u).
Qed.

Lemma crcspeed64big_spec r buf s : in_u 64 r -> Forall byteZ s ->
  crcspeed64big big_rows r buf s = Some (crc64_spec r s).
Proof.
  intros Hr Hs. unfold crcspeed64big.
  destruct (big_head_spec s r buf Hr Hs) as (r1 & s1 & -> & H1 & Hs1 & ->). cbn [mbind option_bind].
  destruct (big_words_spec (length s1) r1 s1) as (r2 & s2 & -> & H2 & Hs2 & ->); [done..|].
  cbn [mbind option_bind]. rewrite big_tail_spec by done. cbn [mbind option_bind].
  by rewrite rev8_rev8 by (by apply crc64_spec_in_u).
Qed.

(** ** The checksum of the server *)

Lemma crc64_eq little crc buf s : in_u 64 crc -> Forall byteZ s ->
  crc64 little crc buf s = Some (crc64_spec crc s).
Proof.
  intros Hc Hs. unfold crc64, crc64_init, crcspeed64native_init, crcspeed64big_init.
  rewrite crcspeed64little_init_spec. destruct little; cbn [mbind option_bind].
  - by apply crcspeed64little_spec.
  - by apply crcspeed64big_spec.
Qed.

(** A zero register stays zero: the checksum of a string followed by its
    checksum, least significant byte first, is 0. *)
Lemma crc64_spec_residue crc s : in_u 64 crc -> Forall byteZ s ->
  crc64_spec crc (s ++ le_bytes 8 (crc64_spec crc s)) = 0.
Proof.
  intros Hc Hs. rewrite crc64_spec_app, crc64_spec_word, length_le_bytes by apply le_bytes_byte.
  rewrite le_val_bytes, Z.mod_small, Z.lxor_nilpotent by (by apply crc64_spec_in_u).
  apply sbits_0.
Qed.

(** Registers that differ still do so after the same input. *)
Lemma crc64_spec_differ s : forall r1 r2, in_u 64 r1 -> in_u 64 r2 -> Forall byteZ s -> r1 <> r2 ->
  crc64_spec r1 s <> crc64_spec r2 s.
Proof.
  intros r1 r2 H1 H2 Hs Hne E. rewrite !crc64_spec_word in E by done.
  rewrite !sbits_lxor in E. apply (f_equal (fun z => Z.lxor z (sbits (8 * length s) (le_val s)))) in E.
  rewrite !Z.lxor_assoc, !Z.lxor_nilpotent, !Z.lxor_0_r in E.
  apply (sbits_nonzero (8 * length s) (Z.lxor r1 r2)); [by apply lxor_in_u; [lia|..]|by apply lxor_neq|].
  by rewrite sbits_lxor, E, Z.lxor_nilpotent.
Qed.

Lemma le_val_inj x y : Forall byteZ x -> Forall byteZ y -> length x = length y -> le_val x = le_val y -> x = y.
Proof. intros Hx Hy Hl E. by rewrite <- (le_bytes_val x Hx), <- (le_bytes_val y Hy), E, Hl. Qed.

Lemma crc64_spec_burst crc p x y q : in_u 64 crc -> Forall byteZ (p ++ x ++ q) -> Forall byteZ y ->
  length x = length y -> (length x <= 8)%nat -> x <> y ->
  crc64_spec crc (p ++ x ++ q) <> crc64_spec crc (p ++ y ++ q).
Proof.
  rewrite !Forall_app. intros Hc (Hp & Hx & Hq) Hy Hl H8 Hne. rewrite !crc64_spec_app.
  pose proof (crc64_spec_in_u p crc Hc Hp) as Hr. generalize dependent (crc64_spec crc p).
  intros r Hr. apply crc64_spec_differ; [by apply crc64_spec_in_u..|done|].
  rewrite !crc64_spec_word, <- Hl by done. intros E.
  assert (Hle : forall z, Forall byteZ z -> length z = length x -> in_u 64 (le_val z)).
  { intros z Hz Hlz. pose proof (le_val_in_u z Hz) as H. unfold in_u in *.
    assert (2 ^ (8 * Z.of_nat (length z)) <= 2 ^ 64) by (apply Z.pow_le_mono_r; lia). lia. }
  apply (sbits_nonzero (8 * length x) (Z.lxor (le_val x) (le_val y))).
  - apply lxor_in_u; [lia|by apply Hle..].
  - apply lxor_neq. intros E'. by apply Hne, le_val_inj.
  - rewrite sbits_lxor. rewrite !sbits_lxor in E.
    apply (f_equal (Z.lxor (sbits (8 * length x) r))) in E.
    rewrite <- !Z.lxor_assoc, !Z.lxor_nilpotent, !Z.lxor_0_l in E. by rewrite E, Z.lxor_nilpotent.
Qed.

(** C18. The table-driven checksum is the bit-by-bit definition: with the tables
    the initialisation builds, on little-endian and on big-endian machines and
    for any alignment of the buffer, [crc64] never leaves its tables and
    returns what [_crc64] computes from the reflected register; and it can be
    computed in pieces. *)
Theorem crc64_correct (little : bool) (crc buf : Z) (s1 s2 : list Z) :
  in_u 64 crc -> Forall byteZ s1 -> Forall byteZ s2 ->
  crc64 little crc buf s1 = _crc64 (crc_reflect crc 64) s1 /\
  crc64 little 0 buf s1 = _crc64 0 s1 /\
  (r ← crc64 little crc buf s1; crc64 little r (buf + Z.of_nat (length s1)) s2) =
    crc64 little crc buf (s1 ++ s2).
Proof.
  intros Hc H1 H2. assert (in_u 64 0) as Hz by (split; vm_compute; congruence).
  rewrite !crc64_eq, <- refl_unseal, !_crc64_spec by (done || apply refl_in_u || by apply Forall_app).
  rewrite refl_refl by done. replace (refl 0) with 0 by (by rewrite refl_unseal).
  cbn [mbind option_bind]. rewrite crc64_eq by (done || by apply crc64_spec_in_u).
  by rewrite crc64_spec_app.
Qed.

Lemma crc64_correct_witness :
  in_u 64 5 /\ Forall byteZ [49; 50; 51] /\
  crc64 true 5 1 [49; 50; 51] = _crc64 (crc_reflect 5 64) [49; 50; 51].
Proof.
  assert (in_u 64 5) as H1 by (split; vm_compute; congruence).
  assert (Forall byteZ [49; 50; 51]) as H2 by (repeat constructor; vm_compute; congruence).
  split; [exact H1|]. split; [exact H2|]. exact (proj1 (crc64_correct true 5 1 [49; 50; 51] [] H1 H2 (Forall_nil_2 _))).
Defined.
