(* ===== verification/Rio.v ===== *)
(** * Stream I/O ([rio.h], [rio.c])

    A [rio] object is a stream with a checksum, error flags and a limit on the
    size of a single transfer, over a backend with its own read and write
    methods.  The methods are the class [RioBackend]; what the users of a
    stream rely on is the class [RioStream], which the in-memory buffer of
    [rio.c] implements.  The file, connection and descriptor backends are
    system calls and are not modelled. *)

From Stdlib Require Import ZArith Lia ZifyBool.
From stdpp Require Import base gmap numbers option list.
From S2P Require Import Prelude Crc64 Crc64Proof.

Local Open Scope Z_scope.

(** ** The methods of a backend *)

(** A method returns what it transferred, or failure, and the new state. *)
Class RioBackend (B : Type) := {
  rio_read : B -> Z -> option (list Z) * B;
  rio_write : B -> list Z -> bool * B
}.

Record rio (B : Type) := Rio {
  io : B;
  update_cksum : option (Z -> list Z -> option Z);
  cksum : Z;
  read_error : bool;
  write_error : bool;
  processed_bytes : Z;
  max_processing_chunk : Z
}.
Arguments Rio {B}.
Arguments io {B}.
Arguments update_cksum {B}.
Arguments cksum {B}.
Arguments read_error {B}.
Arguments write_error {B}.
Arguments processed_bytes {B}.
Arguments max_processing_chunk {B}.

(** ** Reading and writing in chunks *)

Section Ops.
Context {B : Type} `{RioBackend B}.

Definition chunk (r : rio B) (len : Z) : Z :=
  if negb (max_processing_chunk r =? 0) && (max_processing_chunk r <? len)
  then max_processing_chunk r else len.

Definition run_cksum (r : rio B) (buf : list Z) : option Z :=
  match update_cksum r with Some f => f (cksum r) buf | None => Some (cksum r) end.

(** The stream after a transfer of [n] bytes. *)
Definition processed (r : rio B) (b : B) (ck n : Z) : rio B :=
  Rio b (update_cksum r) ck (read_error r) (write_error r) (u64 (processed_bytes r + n))
    (max_processing_chunk r).

Definition write_failed (r : rio B) (b : B) (ck : Z) : rio B :=
  Rio b (update_cksum r) ck (read_error r) true (processed_bytes r) (max_processing_chunk r).

Definition read_failed (r : rio B) (b : B) : rio B :=
  Rio b (update_cksum r) (cksum r) true (write_error r) (processed_bytes r) (max_processing_chunk r).

Fixpoint rioWrite_loop (fuel : nat) (r : rio B) (buf : list Z) : option (bool * rio B) :=
  if Z.of_nat (length buf) =? 0 then Some (true, r)
  else
    match fuel with
    | O => None
    | S fuel =>
        let bytes_to_write := chunk r (Z.of_nat (length buf)) in
        let part := take (Z.to_nat bytes_to_write) buf in
        ck ← run_cksum r part;
        let '(ok, b) := rio_write (io r) part in
        if ok : bool
        then rioWrite_loop fuel (processed r b ck bytes_to_write) (drop (Z.to_nat bytes_to_write) buf)
        else Some (false, write_failed r b ck)
    end.

Definition rioWrite (r : rio B) (buf : list Z) : option (bool * rio B) :=
  if write_error r then Some (false, r) else rioWrite_loop (length buf) r buf.

(** The bytes read are returned; [None] inside is a failed read. *)
Fixpoint rioRead_loop (fuel : nat) (r : rio B) (len : Z) (buf : list Z) :
    option (option (list Z) * rio B) :=
  if len =? 0 then Some (Some buf, r)
  else
    match fuel with
    | O => None
    | S fuel =>
        let bytes_to_read := chunk r len in
        let '(part, b) := rio_read (io r) bytes_to_read in
        match part with
        | None => Some (None, read_failed r b)
        | Some part =>
            ck ← run_cksum r part;
            rioRead_loop fuel (processed r b ck bytes_to_read) (len - bytes_to_read) (buf ++ part)
        end
    end.

Definition rioRead (r : rio B) (len : Z) : option (option (list Z) * rio B) :=
  if read_error r then Some (None, r) else rioRead_loop (Z.to_nat len) r len [].

Definition rioGetReadError (r : rio B) : bool := read_error r.
Definition rioGetWriteError (r : rio B) : bool := write_error r.

Definition rioClearErrors (r : rio B) : rio B :=
  Rio (io r) (update_cksum r) (cksum r) false false (processed_bytes r) (max_processing_chunk r).
End Ops.

(** [rioGenericUpdateChecksum], on either kind of machine; [addr] tells where
    in memory each chunk is. *)
Definition rioGenericUpdateChecksum (little : bool) (addr : list Z -> Z) (ck : Z) (buf : list Z) : option Z :=
  crc64 little ck (addr buf) buf.

(** ** The in-memory buffer *)

Record rio_buffer := RioBuffer { ptr : list Z; pos : Z }.

Definition rioBufferWrite (b : rio_buffer) (buf : list Z) : bool * rio_buffer :=
  (true, RioBuffer (ptr b ++ buf) (pos b + Z.of_nat (length buf))).

(** The difference of two [size_t] values. *)
Definition size_sub (x y : Z) : Z := if x - y <? 0 then x - y + 2 ^ 64 else x - y.

Definition rioBufferRead (b : rio_buffer) (len : Z) : option (list Z) * rio_buffer :=
  if size_sub (Z.of_nat (length (ptr b))) (pos b) <? len then (None, b)
  else (slice (ptr b) (pos b) len, RioBuffer (ptr b) (pos b + len)).

#[export] Instance rioBufferIO : RioBackend rio_buffer := {|
  rio_read := rioBufferRead;
  rio_write := rioBufferWrite
|}.

Definition rioBufferTell (r : rio rio_buffer) : Z := pos (io r).

Definition rioInitWithBuffer (s : list Z) : rio rio_buffer :=
  Rio (RioBuffer s 0) None 0 false false 0 0.

(** ** What a stream promises *)

(** The bytes still to be read and those written so far; reads deliver them in
    order and fail when there are too few; writes append. *)
Class RioStream (B : Type) `{!RioBackend B} := {
  rio_ok : B -> Prop;
  rio_unread : B -> list Z;
  rio_written : B -> list Z;
  rio_read_law b n : rio_ok b -> 0 < n ->
    if n <=? Z.of_nat (length (rio_unread b))
    then exists b', rio_read b n = (Some (take (Z.to_nat n) (rio_unread b)), b') /\ rio_ok b' /\
      rio_unread b' = drop (Z.to_nat n) (rio_unread b)
    else exists b', rio_read b n = (None, b') /\ rio_ok b';
  rio_write_law b s : rio_ok b -> exists b', rio_write b s = (true, b') /\ rio_ok b' /\
    rio_written b' = rio_written b ++ s
}.

(** The position of a buffer never passes its end. *)
Definition buffer_ok (b : rio_buffer) : Prop := 0 <= pos b <= Z.of_nat (length (ptr b)).

#[export] Program Instance rioBufferStream : RioStream rio_buffer := {|
  rio_ok := buffer_ok;
  rio_unread b := drop (Z.to_nat (pos b)) (ptr b);
  rio_written := ptr
|}.
Next Obligation.
  intros b n [H1 H2] Hn. cbn beta. rewrite length_drop. unfold rio_read, rioBufferIO, rioBufferRead, size_sub.
  zb. destruct (Z.leb_spec n (Z.of_nat (length (ptr b) - Z.to_nat (pos b)))); zb; eexists.
  - unfold slice. zb. split; [done|]. simpl. split; [split; simpl; lia|]. rewrite drop_drop. f_equal. lia.
  - split; [done|]. by split.
Qed.
Next Obligation.
  intros b s [H1 H2]. eexists. split; [done|]. split; [|done]. split; simpl; rewrite ?length_app; lia.
Qed.

(** ** Transfers over any stream *)

Section Laws.
Context {B : Type} `{RioStream B}.

(** A checksum that can be computed in pieces. *)
Definition additive (f : Z -> list Z -> option Z) (g : Z -> list Z -> Z) : Prop :=
  (forall c s, Forall byteZ s -> in_u 64 c -> f c s = Some (g c s) /\ in_u 64 (g c s)) /\
  (forall c, g c [] = c) /\ forall c s1 s2, g c (s1 ++ s2) = g (g c s1) s2.

Definition cksum_is (r : rio B) (g : Z -> list Z -> Z) : Prop :=
  match update_cksum r with
  | Some f => additive f g
  | None => forall c s, g c s = c
  end.

(** A stream in use: the backend is consistent, and the checksum is [g]. *)
Record rio_wf (g : Z -> list Z -> Z) (r : rio B) : Prop := {
  wf_io : rio_ok (io r);
  wf_cksum : cksum_is r g;
  wf_in : in_u 64 (cksum r);
  wf_chunk : 0 <= max_processing_chunk r;
  wf_processed : in_u 64 (processed_bytes r)
}.

Lemma chunk_range (r : rio B) len : 0 <= max_processing_chunk r -> 0 < len -> 0 < chunk r len <= len.
Proof. intros. unfold chunk. destruct (Z.eqb_spec (max_processing_chunk r) 0); simpl; [lia|]. case_zb; lia. Qed.

Lemma run_cksum_spec g r s : rio_wf g r -> Forall byteZ s ->
  run_cksum r s = Some (g (cksum r) s) /\ in_u 64 (g (cksum r) s).
Proof.
  intros [] Hs. unfold run_cksum, cksum_is in *. destruct (update_cksum r) as [f|].
  - destruct wf_cksum0 as [Hf _]. by apply Hf.
  - by rewrite wf_cksum0.
Qed.

Lemma cksum_app g r c s1 s2 : cksum_is r g -> g c (s1 ++ s2) = g (g c s1) s2.
Proof.
  unfold cksum_is. destruct (update_cksum r).
  - intros (_ & _ & E). apply E.
  - intros E. by rewrite !E.
Qed.

Lemma cksum_nil g r c : cksum_is r g -> g c [] = c.
Proof. unfold cksum_is. destruct (update_cksum r); [by intros (_ & E & _)|by intros E]. Qed.

Lemma processed_wf g r b ck n : rio_wf g r -> rio_ok b -> in_u 64 ck -> rio_wf g (processed r b ck n).
Proof. intros [] Hb Hc. constructor; simpl; try done. apply wrap_range. lia. Qed.

(** Writing: everything is appended, whatever the size of the chunks. *)
Lemma rioWrite_loop_spec g fuel : forall r s,
  (length s <= fuel)%nat -> rio_wf g r -> Forall byteZ s ->
  exists r', rioWrite_loop fuel r s = Some (true, r') /\ rio_wf g r' /\
    rio_written (io r') = rio_written (io r) ++ s /\ cksum r' = g (cksum r) s /\
    processed_bytes r' = u64 (processed_bytes r + Z.of_nat (length s)) /\
    write_error r' = write_error r.
Proof.
  induction fuel as [|fuel IH]; intros r s Hf Hr Hs; cbn [rioWrite_loop]; destruct (Z.eqb_spec (Z.of_nat (length s)) 0) as [E|E].
  1,3: destruct s; [|done]; exists r; rewrite app_nil_r, (cksum_nil g r), Z.add_0_r, wrap_id by apply Hr; done.
  - lia.
  - pose proof (chunk_range r (Z.of_nat (length s)) (wf_chunk _ _ Hr) ltac:(lia)) as Hc.
    set (n := chunk r (Z.of_nat (length s))) in *.
    destruct (run_cksum_spec g r (take (Z.to_nat n) s) Hr) as [-> Hck]; [by apply Forall_take|].
    cbn [mbind option_bind].
    destruct (rio_write_law (io r) (take (Z.to_nat n) s) (wf_io _ _ Hr)) as (b & -> & Hb & Hw).
    destruct (IH (processed r b (g (cksum r) (take (Z.to_nat n) s)) n) (drop (Z.to_nat n) s))
      as (r' & -> & Hr' & Hw' & Hk' & Hp' & He'); [rewrite length_drop; lia|by apply processed_wf|by apply Forall_drop|].
    exists r'. simpl in Hw', Hk', Hp', He'. rewrite Hw', Hw, Hk', Hp', <- app_assoc, take_drop.
    rewrite <- (cksum_app g r) by apply Hr. rewrite take_drop, length_drop.
    repeat split; try done; try apply Hr'. unfold wrap. rewrite Z.add_mod_idemp_l by lia. f_equal. lia.
Qed.

Lemma rioWrite_spec g r s : rio_wf g r -> write_error r = false -> Forall byteZ s ->
  exists r', rioWrite r s = Some (true, r') /\ rio_wf g r' /\
    rio_written (io r') = rio_written (io r) ++ s /\ cksum r' = g (cksum r) s /\
    processed_bytes r' = u64 (processed_bytes r + Z.of_nat (length s)) /\
    write_error r' = false.
Proof.
  intros Hr He Hs. unfold rioWrite. rewrite He.
  destruct (rioWrite_loop_spec g (length s) r s) as (r' & -> & H1 & H2 & H3 & H4 & H5); [lia|done..|].
  exists r'. rewrite H5. auto 8.
Qed.

(** Reading: the next bytes in order, whatever the size of the chunks, or a
    failure that is remembered. *)
Lemma rioRead_loop_spec g fuel : forall r n buf,
  0 <= n <= Z.of_nat fuel -> rio_wf g r -> Forall byteZ (rio_unread (io r)) ->
  exists r', rio_wf g r' /\
    if n <=? Z.of_nat (length (rio_unread (io r)))
    then rioRead_loop fuel r n buf = Some (Some (buf ++ take (Z.to_nat n) (rio_unread (io r))), r') /\
      rio_unread (io r') = drop (Z.to_nat n) (rio_unread (io r)) /\
      cksum r' = g (cksum r) (take (Z.to_nat n) (rio_unread (io r))) /\
      processed_bytes r' = u64 (processed_bytes r + n) /\ read_error r' = read_error r
    else rioRead_loop fuel r n buf = Some (None, r') /\ read_error r' = true.
Proof.
  induction fuel as [|fuel IH]; intros r n buf Hn Hr Hu; cbn [rioRead_loop]; destruct (Z.eqb_spec n 0) as [->|].
  1,3: exists r; zb; simpl; rewrite app_nil_r, (cksum_nil g r), Z.add_0_r, wrap_id by apply Hr; done.
  - lia.
  - pose proof (chunk_range r n (wf_chunk _ _ Hr) ltac:(lia)) as Hc. set (k := chunk r n) in *.
    pose proof (rio_read_law (io r) k (wf_io _ _ Hr) ltac:(lia)) as Hrd.
    destruct (Z.leb_spec k (Z.of_nat (length (rio_unread (io r))))).
    + destruct Hrd as (b & -> & Hb & Hub).
      destruct (run_cksum_spec g r (take (Z.to_nat k) (rio_unread (io r))) Hr) as [-> Hck]; [by apply Forall_take|].
      cbn [mbind option_bind].
      destruct (IH (processed r b (g (cksum r) (take (Z.to_nat k) (rio_unread (io r)))) k) (n - k)
        (buf ++ take (Z.to_nat k) (rio_unread (io r)))) as (r' & Hr' & Hres);
        [lia|by apply processed_wf|simpl; rewrite Hub; by apply Forall_drop|].
      exists r'. split; [done|]. simpl in Hres. rewrite Hub, length_drop in Hres. revert Hres.
      set (u := rio_unread (io r)) in *.
      assert (Ht : take (Z.to_nat k) u ++ take (Z.to_nat (n - k)) (drop (Z.to_nat k) u) = take (Z.to_nat n) u).
      { rewrite take_take_drop. f_equal. lia. }
      destruct (Z.leb_spec n (Z.of_nat (length u))); zb.
      * intros (-> & Q1 & Q2 & Q3 & Q4). rewrite <- app_assoc, Ht, Q1, drop_drop, Q2, Q3.
        rewrite <- (cksum_app g r), Ht by apply Hr. repeat split; try done.
        -- f_equal. lia.
        -- unfold wrap. rewrite Z.add_mod_idemp_l by lia. f_equal. lia.
      * intros (-> & Q1). done.
    + destruct Hrd as (b & -> & Hb). zb. exists (read_failed r b). split; [|done].
      destruct Hr. by constructor.
Qed.

Lemma rioRead_spec g r n : rio_wf g r -> read_error r = false -> 0 <= n ->
  Forall byteZ (rio_unread (io r)) ->
  exists r', rio_wf g r' /\
    if n <=? Z.of_nat (length (rio_unread (io r)))
    then rioRead r n = Some (Some (take (Z.to_nat n) (rio_unread (io r))), r') /\
      rio_unread (io r') = drop (Z.to_nat n) (rio_unread (io r)) /\
      cksum r' = g (cksum r) (take (Z.to_nat n) (rio_unread (io r))) /\
      processed_bytes r' = u64 (processed_bytes r + n) /\ read_error r' = false
    else rioRead r n = Some (None, r') /\ read_error r' = true.
Proof.
  intros Hr He Hn Hu. unfold rioRead. rewrite He.
  destruct (rioRead_loop_spec g (Z.to_nat n) r n []) as (r' & Hr' & Hres); [lia|done..|].
  exists r'. split; [done|]. by rewrite He in Hres.
Qed.
End Laws.

(** The checksum of the server is additive. *)
Lemma crc64_additive little addr : additive (rioGenericUpdateChecksum little addr) crc64_spec.
Proof.
  split; [|split].
  - intros c s Hs Hc. split; [by apply crc64_eq|by apply crc64_spec_in_u].
  - done.
  - apply crc64_spec_app.
Qed.
