(* ===== verification/Rdb.v ===== *)
(** * The RDB format: lengths, integers and strings ([rdb.c], [rdb.h])

    Saving to and loading from a stream ([Rio]): types, lengths, times,
    doubles, and strings in their integer, compressed and verbatim forms.
    A save function returns the number of bytes written or -1, and works on an
    optional stream: without one it only counts.  A load function returns
    [None] inside for the error value of the code ([NULL], -1); a corrupt file
    is reported and then treated as such an error.  The outer [None] is a failed
    assertion, an access outside a buffer or the end of the fuel. *)

From Stdlib Require Import ZArith Lia ZifyBool.
From stdpp Require Import base gmap numbers option list.
From S2P Require Import Prelude Numstr Strobj Lzf Rio.

Local Open Scope Z_scope.

Notation RDB_6BITLEN := 0%Z (only parsing).
Notation RDB_14BITLEN := 1%Z (only parsing).
Notation RDB_32BITLEN := 0x80%Z (only parsing).
Notation RDB_64BITLEN := 0x81%Z (only parsing).
Notation RDB_ENCVAL := 3%Z (only parsing).
Notation RDB_LENERR := UINT64_MAX%Z (only parsing).
Notation RDB_ENC_INT8 := 0%Z (only parsing).
Notation RDB_ENC_INT16 := 1%Z (only parsing).
Notation RDB_ENC_INT32 := 2%Z (only parsing).
Notation RDB_ENC_LZF := 3%Z (only parsing).
Notation RDB_LOAD_NONE := 0%Z (only parsing).
Notation RDB_LOAD_ENC := 1%Z (only parsing).
Notation RDB_LOAD_PLAIN := 2%Z (only parsing).
Notation RDB_LOAD_SDS := 4%Z (only parsing).

(** What saving and loading need besides the stream: the configuration, the
    allocator and the content of memory that has not been written. *)
Record rdb_env := {
  rdb_compression : bool;
  no_shared_integers : bool;
  ztrymalloc : Z -> bool;
  undef : nat -> Z;
  stack_htab : Z -> Z;
  data_addr : Z
}.

(** ** Allocating strings ([sds.c]) *)

Inductive sds_type := SDS_TYPE_5 | SDS_TYPE_8 | SDS_TYPE_16 | SDS_TYPE_32 | SDS_TYPE_64.

Definition sdsHdrSize (type : sds_type) : Z :=
  match type with SDS_TYPE_5 => 1 | SDS_TYPE_8 => 3 | SDS_TYPE_16 => 5 | SDS_TYPE_32 => 9 | SDS_TYPE_64 => 17 end.

Definition sdsReqType (string_size : Z) : sds_type :=
  if string_size <? Z.shiftl 1 5 then SDS_TYPE_5
  else if string_size <? Z.shiftl 1 8 then SDS_TYPE_8
  else if string_size <? Z.shiftl 1 16 then SDS_TYPE_16
  else if string_size <? Z.shiftl 1 32 then SDS_TYPE_32
  else SDS_TYPE_64.

(** Whether the allocation of an uninitialised string succeeds; [None] is the
    failed assertion on the overflow of its size. *)
Definition sdstrynewlen (env : rdb_env) (initlen : Z) : option bool :=
  let type := match sdsReqType initlen with
              | SDS_TYPE_5 => if initlen =? 0 then SDS_TYPE_8 else SDS_TYPE_5
              | type => type
              end in
  let hdrlen := sdsHdrSize type in
  if u64 (initlen + hdrlen + 1) >? initlen then Some (ztrymalloc env (u64 (hdrlen + initlen + 1))) else None.

(** A short string is embedded in its object, for which [zmalloc] does not fail. *)
Definition tryCreateStringObject (env : rdb_env) (len : Z) : option bool :=
  if len <=? OBJ_ENCODING_EMBSTR_SIZE_LIMIT then Some true else sdstrynewlen env len.

(** The bytes of a number in network order. *)
Definition be_bytes (n : nat) (x : Z) : list Z := reverse (le_bytes n x).
Definition be_val (s : list Z) : Z := le_val (reverse s).

(** What [rdbGenericLoadStringObject] returns: a plain buffer, a string or an object. *)
Inductive loaded := LoadedPlain (s : list Z) | LoadedSds (s : list Z) | LoadedObj (o : strobj).

Section Save.
Context {B : Type} `{RioBackend B}.

(** The rest of a save function after a step that may fail. *)
Definition save_bind (m : option (Z * option (rio B))) (k : Z -> option (rio B) -> option (Z * option (rio B))) :
    option (Z * option (rio B)) :=
  '(n, rdb) ← m; if n =? -1 then Some (-1, rdb) else k n rdb.

Definition rdbWriteRaw (rdb : option (rio B)) (p : list Z) : option (Z * option (rio B)) :=
  let len := Z.of_nat (length p) in
  match rdb with
  | None => Some (len, None)
  | Some r => '(ok, r) ← rioWrite r p; Some (if ok : bool then len else -1, Some r)
  end.

Definition rdbSaveType (rdb : option (rio B)) (type : Z) : option (Z * option (rio B)) :=
  rdbWriteRaw rdb [u8 type].

Definition rdbSaveMillisecondTime (rdb : option (rio B)) (t : Z) : option (Z * option (rio B)) :=
  rdbWriteRaw rdb (le_bytes 8 t).

(** A double is its bits. *)
Definition rdbSaveBinaryDoubleValue (rdb : option (rio B)) (val : Z) : option (Z * option (rio B)) :=
  rdbWriteRaw rdb (le_bytes 8 val).

Definition rdbSaveLen (rdb : option (rio B)) (len : Z) : option (Z * option (rio B)) :=
  if len <? Z.shiftl 1 6 then
    save_bind (rdbWriteRaw rdb [u8 (Z.lor (Z.land len 255) (Z.shiftl RDB_6BITLEN 6))])
      (fun _ rdb => Some (1, rdb))
  else if len <? Z.shiftl 1 14 then
    save_bind (rdbWriteRaw rdb
        [u8 (Z.lor (Z.land (Z.shiftr len 8) 255) (Z.shiftl RDB_14BITLEN 6)); u8 (Z.land len 255)])
      (fun _ rdb => Some (2, rdb))
  else if len <=? UINT32_MAX then
    save_bind (rdbWriteRaw rdb [RDB_32BITLEN]) (fun _ rdb =>
    save_bind (rdbWriteRaw rdb (be_bytes 4 len)) (fun _ rdb => Some (1 + 4, rdb)))
  else
    save_bind (rdbWriteRaw rdb [RDB_64BITLEN]) (fun _ rdb =>
    save_bind (rdbWriteRaw rdb (be_bytes 8 len)) (fun _ rdb => Some (1 + 8, rdb))).

(** The encoding of an integer, empty when it needs more than 32 bits. *)
Definition rdbEncodeInteger (value : Z) : list Z :=
  if (value >=? - Z.shiftl 1 7) && (value <=? Z.shiftl 1 7 - 1) then
    [Z.lor (Z.shiftl RDB_ENCVAL 6) RDB_ENC_INT8; Z.land value 255]
  else if (value >=? - Z.shiftl 1 15) && (value <=? Z.shiftl 1 15 - 1) then
    [Z.lor (Z.shiftl RDB_ENCVAL 6) RDB_ENC_INT16; Z.land value 255; Z.land (Z.shiftr value 8) 255]
  else if (value >=? - Z.shiftl 1 31) && (value <=? Z.shiftl 1 31 - 1) then
    [Z.lor (Z.shiftl RDB_ENCVAL 6) RDB_ENC_INT32; Z.land value 255; Z.land (Z.shiftr value 8) 255;
     Z.land (Z.shiftr value 16) 255; Z.land (Z.shiftr value 24) 255]
  else [].

Definition rdbTryIntegerEncoding (s : list Z) : list Z :=
  match string2ll s with Some value => rdbEncodeInteger value | None => [] end.

Definition rdbSaveLzfBlob (rdb : option (rio B)) (data : list Z) (original_len : Z) :
    option (Z * option (rio B)) :=
  let byte := Z.lor (Z.shiftl RDB_ENCVAL 6) RDB_ENC_LZF in
  save_bind (rdbWriteRaw rdb [byte]) (fun n1 rdb =>
  save_bind (rdbSaveLen rdb (Z.of_nat (length data))) (fun n2 rdb =>
  save_bind (rdbSaveLen rdb original_len) (fun n3 rdb =>
  save_bind (rdbWriteRaw rdb data) (fun n4 rdb => Some (n1 + n2 + n3 + n4, rdb))))).

(** 0 when the string does not compress. *)
Definition rdbSaveLzfStringObject (env : rdb_env) (rdb : option (rio B)) (s : list Z) :
    option (Z * option (rio B)) :=
  let len := Z.of_nat (length s) in
  if len <=? 4 then Some (0, rdb)
  else
    let outlen := len - 4 in
    '(out, comprlen) ← lzf_compress s (data_addr env) (stack_htab env) (local_buffer (undef env) outlen);
    if comprlen =? 0 then Some (0, rdb)
    else data ← slice out 0 comprlen; rdbSaveLzfBlob rdb data len.

(** The string as it is, behind its length. *)
Definition save_verbatim (rdb : option (rio B)) (s : list Z) : option (Z * option (rio B)) :=
  let len := Z.of_nat (length s) in
  save_bind (rdbSaveLen rdb len) (fun n rdb =>
  if len >? 0 then save_bind (rdbWriteRaw rdb s) (fun _ rdb => Some (n + len, rdb))
  else Some (n, rdb)).

(** The string compressed when that is enabled and helps. *)
Definition save_compressed (env : rdb_env) (rdb : option (rio B)) (s : list Z) :
    option (Z * option (rio B)) :=
  if rdb_compression env && (Z.of_nat (length s) >? 20) then
    save_bind (rdbSaveLzfStringObject env rdb s) (fun n rdb =>
    if n >? 0 then Some (n, rdb) else save_verbatim rdb s)
  else save_verbatim rdb s.

Definition rdbSaveRawString (env : rdb_env) (rdb : option (rio B)) (s : list Z) :
    option (Z * option (rio B)) :=
  if Z.of_nat (length s) <=? 11 then
    let buf := rdbTryIntegerEncoding s in
    let enclen := Z.of_nat (length buf) in
    if enclen >? 0 then save_bind (rdbWriteRaw rdb buf) (fun _ rdb => Some (enclen, rdb))
    else save_compressed env rdb s
  else save_compressed env rdb s.

Definition rdbSaveLongLongAsStringObject (env : rdb_env) (rdb : option (rio B)) (value : Z) :
    option (Z * option (rio B)) :=
  let buf := rdbEncodeInteger value in
  if Z.of_nat (length buf) >? 0 then rdbWriteRaw rdb buf
  else
    '(buf, enclen) ← ll2string_local (undef env) 32 value;
    if enclen <? 32 then
      save_bind (rdbSaveLen rdb enclen) (fun n1 rdb =>
      data ← slice buf 0 enclen;
      save_bind (rdbWriteRaw rdb data) (fun n2 rdb => Some (n1 + n2, rdb)))
    else None.

Definition rdbSaveStringObject (env : rdb_env) (rdb : option (rio B)) (o : strobj) :
    option (Z * option (rio B)) :=
  match o with
  | StrInt v => rdbSaveLongLongAsStringObject env rdb v
  | StrRaw s | StrEmb s => rdbSaveRawString env rdb s
  end.
End Save.

Section Load.
Context {B : Type} `{RioBackend B}.

(** The rest of a load function after a read that may fail. *)
Definition load_bind {A A'} (m : option (option A * rio B)) (k : A -> rio B -> option (option A' * rio B)) :
    option (option A' * rio B) :=
  '(a, rdb) ← m; match a with Some a => k a rdb | None => Some (None, rdb) end.

Definition rdbLoadType (rdb : rio B) : option (option Z * rio B) :=
  load_bind (rioRead rdb 1) (fun buf rdb => t ← get buf 0; Some (Some t, rdb)).

(** [LLONG_MAX] on a failed read.  [little] is the byte order of the machine:
    the bytes of a number in memory, reversed on a big endian machine only for
    the versions of the format that store it in little endian. *)
Definition rdbLoadMillisecondTime (little : bool) (rdb : rio B) (rdbver : Z) : option (Z * rio B) :=
  '(buf, rdb) ← rioRead rdb 8;
  match buf with
  | None => Some (LLONG_MAX, rdb)
  | Some buf =>
      let buf := if (rdbver >=? 9) && negb little then reverse buf else buf in
      Some (s64 (le_val (if little then buf else reverse buf)), rdb)
  end.

Definition rdbLoadBinaryDoubleValue (rdb : rio B) : option (option Z * rio B) :=
  load_bind (rioRead rdb 8) (fun buf rdb => Some (Some (le_val buf), rdb)).

(** Whether the length is an encoding type, and the length. *)
Definition rdbLoadLenByRef (rdb : rio B) : option (option (bool * Z) * rio B) :=
  load_bind (rioRead rdb 1) (fun buf rdb =>
  b0 ← get buf 0;
  let type := Z.shiftr (Z.land b0 0xC0) 6 in
  if type =? RDB_ENCVAL then Some (Some (true, Z.land b0 0x3F), rdb)
  else if type =? RDB_6BITLEN then Some (Some (false, Z.land b0 0x3F), rdb)
  else if type =? RDB_14BITLEN then
    load_bind (rioRead rdb 1) (fun buf rdb =>
    b1 ← get buf 0;
    Some (Some (false, Z.lor (Z.shiftl (Z.land b0 0x3F) 8) b1), rdb))
  else if b0 =? RDB_32BITLEN then
    load_bind (rioRead rdb 4) (fun buf rdb => Some (Some (false, be_val buf), rdb))
  else if b0 =? RDB_64BITLEN then
    load_bind (rioRead rdb 8) (fun buf rdb => Some (Some (false, be_val buf), rdb))
  else Some (None, rdb)).

(** The length, [RDB_LENERR] on failure, and whether it is an encoding type. *)
Definition rdbLoadLen (rdb : rio B) : option ((Z * bool) * rio B) :=
  '(r, rdb) ← rdbLoadLenByRef rdb;
  match r with
  | Some (isencoded, len) => Some ((len, isencoded), rdb)
  | None => Some ((RDB_LENERR, false), rdb)
  end.

Definition flag (flags f : Z) : bool := negb (Z.land flags f =? 0).

(** The value of an encoded integer. *)
Definition load_integer (rdb : rio B) (enctype : Z) : option (option Z * rio B) :=
  if enctype =? RDB_ENC_INT8 then
    load_bind (rioRead rdb 1) (fun enc rdb => e0 ← get enc 0; Some (Some (s8 e0), rdb))
  else if enctype =? RDB_ENC_INT16 then
    load_bind (rioRead rdb 2) (fun enc rdb =>
    e0 ← get enc 0; e1 ← get enc 1;
    Some (Some (s16 (Z.lor e0 (Z.shiftl e1 8))), rdb))
  else if enctype =? RDB_ENC_INT32 then
    load_bind (rioRead rdb 4) (fun enc rdb =>
    e0 ← get enc 0; e1 ← get enc 1; e2 ← get enc 2; e3 ← get enc 3;
    Some (Some (s32 (Z.lor (Z.lor (Z.lor e0 (Z.shiftl e1 8)) (Z.shiftl e2 16)) (Z.shiftl e3 24))), rdb))
  else Some (None, rdb).

Definition rdbLoadIntegerObject (env : rdb_env) (rdb : rio B) (enctype flags : Z) :
    option (option loaded * rio B) :=
  let plain := flag flags RDB_LOAD_PLAIN in
  let sds := flag flags RDB_LOAD_SDS in
  let encode := flag flags RDB_LOAD_ENC in
  load_bind (load_integer rdb enctype) (fun val rdb =>
  if plain || sds then
    '(buf, len) ← ll2string_local (undef env) LONG_STR_SIZE val;
    p ← slice buf 0 len;
    Some (Some (if plain then LoadedPlain p else LoadedSds p), rdb)
  else if encode then
    o ← createStringObjectFromLongLongForValue (undef env) (no_shared_integers env) val;
    Some (Some (LoadedObj o), rdb)
  else
    o ← createStringObjectFromLongLongWithSds (undef env) val;
    Some (Some (LoadedObj o), rdb)).

(** [createObject(OBJ_STRING,val)] makes a raw object. *)
Definition rdbLoadLzfStringObject (env : rdb_env) (rdb : rio B) (flags : Z) :
    option (option loaded * rio B) :=
  let plain := flag flags RDB_LOAD_PLAIN in
  let sds := flag flags RDB_LOAD_SDS in
  '((clen, _), rdb) ← rdbLoadLen rdb;
  if clen =? RDB_LENERR then Some (None, rdb) else
  '((len, _), rdb) ← rdbLoadLen rdb;
  if len =? RDB_LENERR then Some (None, rdb) else
  if negb (ztrymalloc env clen) then Some (None, rdb) else
  val ← (if plain then Some (ztrymalloc env len) else sdstrynewlen env len);
  if negb val then Some (None, rdb) else
  load_bind (rioRead rdb clen) (fun c rdb =>
  '(val, r) ← lzf_decompress c (local_buffer (undef env) len);
  let n := match r with inl n => n | inr _ => 0 end in
  if negb (n =? len) then Some (None, rdb)
  else Some (Some (if plain then LoadedPlain val else if sds then LoadedSds val
                   else LoadedObj (createRawStringObject val)), rdb)).

Definition rdbGenericLoadStringObject (env : rdb_env) (rdb : rio B) (flags : Z) :
    option (option loaded * rio B) :=
  let plain := flag flags RDB_LOAD_PLAIN in
  let sds := flag flags RDB_LOAD_SDS in
  '((len, isencoded), rdb) ← rdbLoadLen rdb;
  if len =? RDB_LENERR then Some (None, rdb)
  else if isencoded : bool then
    if (len =? RDB_ENC_INT8) || (len =? RDB_ENC_INT16) || (len =? RDB_ENC_INT32)
    then rdbLoadIntegerObject env rdb len flags
    else if len =? RDB_ENC_LZF then rdbLoadLzfStringObject env rdb flags
    else Some (None, rdb)
  else
    buf ← (if plain then Some (ztrymalloc env len)
           else if sds then sdstrynewlen env len
           else tryCreateStringObject env len);
    if negb buf then Some (None, rdb)
    else
      load_bind (if len =? 0 then Some (Some [], rdb) else rioRead rdb len) (fun buf rdb =>
      Some (Some (if plain then LoadedPlain buf else if sds then LoadedSds buf
                  else LoadedObj (createStringObject buf)), rdb)).

Definition rdbLoadStringObject (env : rdb_env) (rdb : rio B) : option (option loaded * rio B) :=
  rdbGenericLoadStringObject env rdb RDB_LOAD_NONE.

Definition rdbLoadEncodedStringObject (env : rdb_env) (rdb : rio B) : option (option loaded * rio B) :=
  rdbGenericLoadStringObject env rdb RDB_LOAD_ENC.
End Load.
