(* ===== verification/RdbProof.v ===== *)
(** * Saving and loading the strings of an RDB file

    What each save function writes and what each load function reads, over any
    stream; a string that was saved is loaded again, whatever its form, and
    loading arbitrary bytes is safe. *)

From Stdlib Require Import ZArith Lia ZifyBool.
From stdpp Require Import base gmap numbers option list.
From S2P Require Import Prelude Numstr Strobj Lzf LzfDecode LzfProof Rio Rdb.

Local Open Scope Z_scope.

(** ** Writing *)

Section Writes.
Context {B : Type} `{RioStream B}.

(** [f] writes the bytes [e] and returns [n], which without a stream it only
    computes. *)
Definition writes (f : option (rio B) -> option (Z * option (rio B))) (e : list Z) (n : Z) : Prop :=
  f None = Some (n, None) /\
  forall g r, rio_wf g r -> write_error r = false -> exists r',
    f (Some r) = Some (n, Some r') /\ rio_wf g r' /\ write_error r' = false /\
    rio_written (io r') = rio_written (io r) ++ e /\ cksum r' = g (cksum r) e.

Lemma writes_raw p : Forall byteZ p -> writes (fun rdb => rdbWriteRaw rdb p) p (Z.of_nat (length p)).
Proof.
  intros Hp. split; [done|]. intros g r Hr He. unfold rdbWriteRaw.
  destruct (rioWrite_spec g r p Hr He Hp) as (r' & -> & H1 & H2 & H3 & H4 & H5). by exists r'.
Qed.

Lemma writes_ret n : writes (fun rdb => Some (n, rdb)) [] n.
Proof.
  split; [done|]. intros g r Hr He. exists r. rewrite app_nil_r, (cksum_nil g r) by apply Hr. done.
Qed.

Lemma writes_bind f k e1 e2 n1 n2 : 0 <= n1 -> writes f e1 n1 -> writes (k n1) e2 n2 ->
  writes (fun rdb => save_bind (f rdb) k) (e1 ++ e2) n2.
Proof.
  intros Hn [Hf0 Hf] [Hk0 Hk]. split.
  - unfold save_bind. rewrite Hf0. cbn [mbind option_bind]. zb. exact Hk0.
  - intros g r Hr He. destruct (Hf g r Hr He) as (r1 & E1 & Hr1 & He1 & Hw1 & Hc1).
    destruct (Hk g r1 Hr1 He1) as (r2 & E2 & Hr2 & He2 & Hw2 & Hc2).
    exists r2. unfold save_bind. rewrite E1. cbn [mbind option_bind]. zb. rewrite E2, Hw2, Hw1, Hc2, Hc1, <- app_assoc.
    rewrite <- (cksum_app g r) by apply Hr. done.
Qed.

(** The last step of a save function. *)
Lemma writes_last f k e n m : 0 <= n -> writes f e n -> (forall rdb, k n rdb = Some (m, rdb)) ->
  writes (fun rdb => save_bind (f rdb) k) e m.
Proof.
  intros Hn Hf Hk. rewrite <- (app_nil_r e). apply (writes_bind f k e [] n m Hn Hf).
  split; [by rewrite Hk|]. intros g r. rewrite Hk. apply writes_ret.
Qed.
End Writes.

(** ** Reading *)

Section Reads.
Context {B : Type} `{RioStream B}.

(** [f] reads exactly the bytes [e] from the front of the stream and returns [a]. *)
Definition reads {A} (f : rio B -> option (A * rio B)) (e : list Z) (a : A) : Prop :=
  forall g r rest, rio_wf g r -> read_error r = false -> Forall byteZ (rio_unread (io r)) ->
    rio_unread (io r) = e ++ rest -> exists r',
    f r = Some (a, r') /\ rio_wf g r' /\ read_error r' = false /\
    rio_unread (io r') = rest /\ cksum r' = g (cksum r) e.

Lemma reads_rio e n : n = Z.of_nat (length e) -> reads (fun r => rioRead r n) e (Some e).
Proof.
  intros -> g r rest Hr He Hb Hu.
  destruct (rioRead_spec g r (Z.of_nat (length e)) Hr He ltac:(lia) Hb) as (r' & Hr' & Hres).
  rewrite Hu in Hres. rewrite length_app in Hres. revert Hres. zb. rewrite Nat2Z.id, take_app_length, drop_app_length.
  intros (E & Hu' & Hc & _ & He'). by exists r'.
Qed.

Lemma reads_ret {A} (a : A) : reads (fun r => Some (a, r)) [] a.
Proof. intros g r rest Hr He Hb Hu. exists r. by rewrite (cksum_nil g r) by apply Hr. Qed.

Lemma reads_ext {A} (f f' : rio B -> option (A * rio B)) e a :
  (forall r, f' r = f r) -> reads f e a -> reads f' e a.
Proof. intros E Hf g r rest. rewrite E. apply Hf. Qed.

Lemma reads_bind {A A'} (f : rio B -> option (A * rio B)) (k : A -> rio B -> option (A' * rio B)) e1 e2 a a' :
  reads f e1 a -> reads (k a) e2 a' -> reads (fun r => '(x, r) ← f r; k x r) (e1 ++ e2) a'.
Proof.
  intros Hf Hk g r rest Hr He Hb Hu. rewrite <- app_assoc in Hu.
  destruct (Hf g r (e2 ++ rest) Hr He Hb Hu) as (r1 & E1 & Hr1 & He1 & Hu1 & Hc1).
  assert (Forall byteZ (rio_unread (io r1))) as Hb1 by (rewrite Hu1; rewrite Hu in Hb; by apply Forall_app in Hb as []).
  destruct (Hk g r1 rest Hr1 He1 Hb1 Hu1) as (r2 & E2 & Hr2 & He2 & Hu2 & Hc2).
  exists r2. rewrite E1. cbn [mbind option_bind]. rewrite E2, Hc2, Hc1.
  rewrite <- (cksum_app g r) by apply Hr. done.
Qed.

Lemma reads_load {A A'} (f : rio B -> option (option A * rio B)) (k : A -> rio B -> option (option A' * rio B)) e1 e2 a a' :
  reads f e1 (Some a) -> reads (k a) e2 a' -> reads (fun r => load_bind (f r) k) (e1 ++ e2) a'.
Proof.
  intros Hf Hk. unfold load_bind.
  apply (reads_bind f (fun a rdb => match a with Some a => k a rdb | None => Some (None, rdb) end) e1 e2 (Some a) a' Hf Hk).
Qed.

(** The last step of a load function. *)
Lemma reads_last {A A'} (f : rio B -> option (option A * rio B)) (k : A -> rio B -> option (option A' * rio B)) e a a' :
  reads f e (Some a) -> (forall r, k a r = Some (a', r)) -> reads (fun r => load_bind (f r) k) e a'.
Proof.
  intros Hf Hk. rewrite <- (app_nil_r e). apply (reads_load f k e [] a); [done|].
  apply (reads_ext (fun r => Some (a', r))); [done|apply reads_ret].
Qed.
End Reads.

(** ** Lengths *)

Definition len_bytes (n : Z) : list Z :=
  if n <? 64 then [n]
  else if n <? 16384 then [n / 256 + 64; n mod 256]
  else if n <? 2 ^ 32 then 128 :: be_bytes 4 n
  else 129 :: be_bytes 8 n.

Lemma be_bytes_byte n x : Forall byteZ (be_bytes n x).
Proof. apply Forall_reverse, le_bytes_byte. Qed.

Lemma length_be_bytes n x : length (be_bytes n x) = n.
Proof. unfold be_bytes. by rewrite length_reverse, length_le_bytes. Qed.

Lemma be_val_bytes n x : be_val (be_bytes n x) = x mod 256 ^ Z.of_nat n.
Proof. unfold be_val, be_bytes. by rewrite reverse_involutive, le_val_bytes. Qed.

Lemma len_bytes_byte n : 0 <= n -> Forall byteZ (len_bytes n).
Proof.
  intros Hn. unfold len_bytes. pose proof be_bytes_byte.
  assert (n < 16384 -> 0 <= n / 256 < 64) by (split; [apply Z.div_pos|apply Z.div_lt_upper_bound]; lia).
  pose proof (Z.mod_pos_bound n 256 ltac:(lia)).
  repeat case_zb; repeat (constructor; [unfold byteZ; lia|]); auto.
Qed.

Lemma rdbSaveLen_writes {B} `{RioStream B} n : in_u 64 n ->
  writes (fun rdb => rdbSaveLen rdb n) (len_bytes n) (Z.of_nat (length (len_bytes n))).
Proof.
  intros [Hn0 Hn]. unfold rdbSaveLen, len_bytes, UINT32_MAX.
  change (Z.shiftl 1 6) with 64. change (Z.shiftl 1 14) with 16384. change (Z.shiftl 0 6) with 0.
  assert (Hl : forall x, Forall byteZ x -> forall m, writes (fun rdb => save_bind (rdbWriteRaw rdb x) (fun _ rdb => Some (m, rdb))) x m).
  { intros x Hx m. eapply (writes_last (fun rdb => rdbWriteRaw rdb x)); [|by apply writes_raw|done]. lia. }
  destruct (Z.ltb_spec n 64); [|destruct (Z.ltb_spec n 16384); [|destruct (Z.ltb_spec n (2 ^ 32))]]; zb.
  - rewrite land_255, Z.lor_0_r, Z.mod_small, u8_small by lia. apply Hl. repeat constructor; lia.
  - rewrite !land_255, Z.shiftr_div_pow2 by lia. change (2 ^ 8) with 256.
    assert (0 <= n / 256 < 64) by (split; [apply Z.div_pos|apply Z.div_lt_upper_bound]; lia).
    pose proof (Z.mod_pos_bound n 256 ltac:(lia)).
    assert (Hor : Z.lor (n / 256) 64 = n / 256 + 64) by (apply (lor_disjoint (n / 256) 1 6); unfold in_u; lia).
    rewrite (Z.mod_small (n / 256)), Hor, !u8_small by lia. apply Hl. repeat constructor; lia.
  - cbn [length]. rewrite length_be_bytes.
    apply (writes_bind (fun rdb => rdbWriteRaw rdb [RDB_32BITLEN])
      (fun _ rdb => save_bind (rdbWriteRaw rdb (be_bytes 4 n)) (fun _ rdb => Some (5, rdb))) [128] (be_bytes 4 n) 1); [lia| |].
    + apply writes_raw. repeat constructor; vm_compute; congruence.
    + apply Hl, be_bytes_byte.
  - cbn [length]. rewrite length_be_bytes.
    apply (writes_bind (fun rdb => rdbWriteRaw rdb [RDB_64BITLEN])
      (fun _ rdb => save_bind (rdbWriteRaw rdb (be_bytes 8 n)) (fun _ rdb => Some (9, rdb))) [129] (be_bytes 8 n) 1); [lia| |].
    + apply writes_raw. repeat constructor; vm_compute; congruence.
    + apply Hl, be_bytes_byte.
Qed.

(** The two highest bits of the first byte, and the others. *)
Lemma len_type b : byteZ b -> Z.shiftr (Z.land b 0xC0) 6 = b / 64 /\ Z.land b 0x3F = b mod 64.
Proof.
  unfold byteZ. intros Hb. split.
  - rewrite Z.shiftr_land. change (Z.shiftr 0xC0 6) with (Z.ones 2). rewrite Z.land_ones, Z.shiftr_div_pow2 by lia.
    apply Z.mod_small. split; [apply Z.div_pos; lia|]. apply Z.div_lt_upper_bound; lia.
  - by apply (land_ones_mod b 6).
Qed.

(** The text of a length: six bits, an encoding type, fourteen bits, or four or
    eight bytes behind a marker. *)
Inductive length_text : list Z -> Z * bool -> Prop :=
| lt_6 b : 0 <= b < 64 -> length_text [b] (b, false)
| lt_encoding b : 192 <= b < 256 -> length_text [b] (b - 192, true)
| lt_14 b b' : 64 <= b < 128 -> byteZ b' -> length_text [b; b'] ((b - 64) * 256 + b', false)
| lt_32 s : Forall byteZ s -> length s = 4%nat -> length_text (128 :: s) (be_val s, false)
| lt_64 s : Forall byteZ s -> length s = 8%nat -> length_text (129 :: s) (be_val s, false).

Lemma len_bytes_text n : in_u 64 n -> length_text (len_bytes n) (n, false).
Proof.
  intros [Hn0 Hn]. unfold len_bytes. case_zb; [by apply lt_6|]. case_zb; [|case_zb].
  - assert (0 <= n / 256 < 64) by (split; [apply Z.div_pos|apply Z.div_lt_upper_bound]; lia).
    pose proof (Z.mod_pos_bound n 256 ltac:(lia)). pose proof (Z.div_mod n 256 ltac:(lia)).
    replace n with ((n / 256 + 64 - 64) * 256 + n mod 256) at 3 by lia. constructor; [lia|unfold byteZ; lia].
  - replace n with (be_val (be_bytes 4 n)) at 2 by (rewrite be_val_bytes; apply Z.mod_small; exact (conj Hn0 ltac:(done))).
    constructor; [apply be_bytes_byte|apply length_be_bytes].
  - replace n with (be_val (be_bytes 8 n)) at 2 by (rewrite be_val_bytes; apply Z.mod_small; exact (conj Hn0 Hn)).
    constructor; [apply be_bytes_byte|apply length_be_bytes].
Qed.

Section Lengths.
Context {B : Type} `{RioStream B}.

(** A byte is read and looked at. *)
Lemma reads_byte {A} (k : Z -> rio B -> option (option A * rio B)) b e a : reads (k b) e a ->
  reads (fun r => load_bind (rioRead r 1) (fun buf rdb => b ← get buf 0; k b rdb)) (b :: e) a.
Proof. intros Hk. apply (reads_load (fun r => rioRead r 1) _ [b] e [b]); [by apply reads_rio|exact Hk]. Qed.

Lemma rdbLoadLenByRef_reads e n b : length_text e (n, b) -> reads (B:=B) rdbLoadLenByRef e (Some (b, n)).
Proof.
  intros He. unfold rdbLoadLenByRef. remember (n, b) as x eqn:Ex. destruct He as [c Hc|c Hc|c c' Hc Hc'|s Hs Hl|s Hs Hl];
    injection Ex as <- <-; apply reads_byte; cbv beta.
  1-3: destruct (len_type c) as [-> ->]; [unfold byteZ; lia|]; pose proof (Z.div_mod c 64 ltac:(lia)); pose proof (Z.mod_pos_bound c 64 ltac:(lia)).
  - zb. rewrite Z.mod_small by lia. apply reads_ret.
  - zb. replace (c mod 64) with (c - 192) by lia. apply reads_ret.
  - zb. apply reads_byte. cbv beta. unfold byteZ in Hc'. rewrite shiftl_lor by (unfold in_u; lia).
    change (2 ^ 8) with 256. replace (c mod 64) with (c - 64) by lia. rewrite Z.add_comm. apply reads_ret.
  - cbn -[be_val]. eapply (reads_last (fun r => rioRead r 4)); [apply reads_rio; by rewrite Hl|done].
  - cbn -[be_val]. eapply (reads_last (fun r => rioRead r 8)); [apply reads_rio; by rewrite Hl|done].
Qed.

Lemma rdbLoadLen_of_ref e b n : reads (B:=B) rdbLoadLenByRef e (Some (b, n)) -> reads (B:=B) rdbLoadLen e (n, b).
Proof.
  intros Hr. unfold rdbLoadLen. rewrite <- (app_nil_r e).
  apply (reads_bind rdbLoadLenByRef (fun r rdb => match r with
    | Some (isencoded, len) => Some ((len, isencoded), rdb)
    | None => Some ((RDB_LENERR, false), rdb) end) e [] (Some (b, n))); [done|apply reads_ret].
Qed.

Lemma rdbLoadLen_text e x : length_text e x -> reads (B:=B) rdbLoadLen e x.
Proof. destruct x. intros He. by apply rdbLoadLen_of_ref, rdbLoadLenByRef_reads. Qed.

Lemma rdbLoadLen_reads n : in_u 64 n -> reads (B:=B) rdbLoadLen (len_bytes n) (n, false).
Proof. intros Hn. by apply rdbLoadLen_text, len_bytes_text. Qed.

(** The first byte of an encoded string. *)
Lemma rdbLoadLen_encoded t : 0 <= t < 64 -> reads (B:=B) rdbLoadLen [192 + t] (t, true).
Proof. intros Ht. apply rdbLoadLen_text. replace t with (192 + t - 192) at 2 by lia. constructor. lia. Qed.
End Lengths.

(** ** Integers *)

(** The encoding is a type byte and the two's complement of the value. *)
Lemma rdbEncodeInteger_spec v : in_s 64 v -> rdbEncodeInteger v = [] \/
  exists t n, 0 <= t < 3 /\ rdbEncodeInteger v = (192 + t) :: le_bytes n v /\
    (t = 0 /\ n = 1%nat /\ in_s 8 v \/ t = 1 /\ n = 2%nat /\ in_s 16 v \/ t = 2 /\ n = 4%nat /\ in_s 32 v).
Proof.
  intros Hv. unfold rdbEncodeInteger. rewrite !Z.geb_leb, !Z.shiftl_mul_pow2 by lia. rewrite !land_255.
  destruct (_ && _) eqn:E1; [|destruct ((- (1 * 2 ^ 15) <=? v) && _) eqn:E2; [|destruct ((- (1 * 2 ^ 31) <=? v) && _) eqn:E3; [|by left]]];
    right; [exists 0, 1%nat|exists 1, 2%nat|exists 2, 4%nat]; (split; [lia|]).
  - split; [done|]. left. unfold in_s. lia.
  - split; [cbn; rewrite Z.shiftr_div_pow2 by lia; done|]. right; left. unfold in_s. lia.
  - split; [|right; right; unfold in_s; lia]. cbn. rewrite !Z.shiftr_div_pow2, !Z.div_div by lia. done.
Qed.

Section Integers.
Context {B : Type} `{RioStream B}.

Lemma load_integer_reads v t n : in_s 64 v ->
  (t = 0 /\ n = 1%nat /\ in_s 8 v \/ t = 1 /\ n = 2%nat /\ in_s 16 v \/ t = 2 /\ n = 4%nat /\ in_s 32 v) ->
  reads (B:=B) (fun rdb => load_integer rdb t) (le_bytes n v) (Some v).
Proof.
  intros Hv64 Hc. unfold load_integer.
  assert (Hmod : forall w, 0 < w -> in_s w v -> swrap w (v mod 2 ^ w) = v).
  { intros w Hw Hv. fold (wrap w v). by rewrite swrap_wrap, swrap_id. }
  assert (Hm : forall x, byteZ (x mod 256)) by (intros; apply Z.mod_pos_bound; lia).
  destruct Hc as [(-> & -> & Hv)|[(-> & -> & Hv)|(-> & -> & Hv)]]; cbn -[le_bytes get].
  - eapply (reads_last (fun r => rioRead r 1)); [by apply reads_rio|]. intros r.
    change (get (le_bytes 1 v) 0) with (Some (v mod 256)). cbn [mbind option_bind]. do 3 f_equal. by apply (Hmod 8).
  - eapply (reads_last (fun r => rioRead r 2)); [by apply reads_rio|]. intros r.
    change (get (le_bytes 2 v) 0) with (Some (v mod 256)). change (get (le_bytes 2 v) 1) with (Some (v / 256 mod 256)).
    cbn [mbind option_bind]. do 3 f_equal. rewrite lor_le2 by apply Hm.
    rewrite (le_val_bytes 2 v : le_val [_; _] = _). by apply (Hmod 16).
  - eapply (reads_last (fun r => rioRead r 4)); [by apply reads_rio|]. intros r.
    change (get (le_bytes 4 v) 0) with (Some (v mod 256)). change (get (le_bytes 4 v) 1) with (Some (v / 256 mod 256)).
    change (get (le_bytes 4 v) 2) with (Some (v / 256 / 256 mod 256)).
    change (get (le_bytes 4 v) 3) with (Some (v / 256 / 256 / 256 mod 256)).
    cbn [mbind option_bind]. do 3 f_equal. rewrite lor_le4 by apply Hm.
    rewrite (le_val_bytes 4 v : le_val [_; _; _; _] = _). by apply (Hmod 32).
Qed.
End Integers.

(** ** Strings *)

(** The forms of the string [s] in a file. *)
Inductive string_bytes (s : list Z) : list Z -> Prop :=
| bytes_int v t n : in_s 64 v -> s = dec v ->
    (t = 0 /\ n = 1%nat /\ in_s 8 v \/ t = 1 /\ n = 2%nat /\ in_s 16 v \/ t = 2 /\ n = 4%nat /\ in_s 32 v) ->
    string_bytes s ((192 + t) :: le_bytes n v)
| bytes_lzf c : Forall byteZ c -> (length c <= length s)%nat ->
    (forall dst, length dst = length s -> lzf_decompress c dst = Some (s, inl (Z.of_nat (length s)))) ->
    string_bytes s ([195] ++ len_bytes (Z.of_nat (length c)) ++ len_bytes (Z.of_nat (length s)) ++ c)
| bytes_verbatim : string_bytes s (len_bytes (Z.of_nat (length s)) ++ s).

(** The memory the string is saved from: it is not at the ends of the address
    space, and the hash table of the compressor holds anything. *)
Definition env_ok (env : rdb_env) (s : list Z) : Prop :=
  address_ok s (data_addr env) /\ forall i, in_u 64 (stack_htab env i).

Section SaveStrings.
Context {B : Type} `{RioStream B}.

Lemma address_len s a : address_ok s a -> in_u 64 (Z.of_nat (length s)).
Proof. intros [H1 H2]. unfold in_len, in_u in *. lia. Qed.

Lemma rdbSaveLzfBlob_writes data olen : Forall byteZ data -> in_u 64 (Z.of_nat (length data)) -> in_u 64 olen ->
  let e := [195] ++ len_bytes (Z.of_nat (length data)) ++ len_bytes olen ++ data in
  writes (B:=B) (fun rdb => rdbSaveLzfBlob rdb data olen) e (Z.of_nat (length e)).
Proof.
  intros Hd Hl Ho e. unfold rdbSaveLzfBlob, e.
  apply (writes_bind (fun rdb => rdbWriteRaw rdb [195]) _ [195] _ 1); [lia|apply writes_raw; repeat constructor; lia|].
  eapply (writes_bind (fun rdb => rdbSaveLen rdb (Z.of_nat (length data)))); [|by apply rdbSaveLen_writes|]; [lia|].
  eapply (writes_bind (fun rdb => rdbSaveLen rdb olen)); [|by apply rdbSaveLen_writes|]; [lia|].
  eapply (writes_last (fun rdb => rdbWriteRaw rdb data)); [|by apply writes_raw|]; [lia|].
  intros rdb. do 2 f_equal. rewrite !length_app. simpl length. lia.
Qed.

Lemma rdbSaveLzf_spec env s : Forall byteZ s -> env_ok env s -> 4 < Z.of_nat (length s) ->
  (forall rdb, rdbSaveLzfStringObject (B:=B) env rdb s = Some (0, rdb)) \/
  exists e, string_bytes s e /\ Forall byteZ e /\ (0 < length e)%nat /\
    writes (B:=B) (fun rdb => rdbSaveLzfStringObject env rdb s) e (Z.of_nat (length e)).
Proof.
  intros Hs [Ha Ht] Hlen. pose proof (address_len _ _ Ha) as Hu.
  destruct (lzf_compress_spec s (data_addr env) (stack_htab env)
    (local_buffer (undef env) (Z.of_nat (length s) - 4))) as (out & n & E & Hl & _ & Hr); [done|unfold in_len; lia|done..|].
  assert (Hlo : Z.of_nat (length (local_buffer (undef env) (Z.of_nat (length s) - 4))) = Z.of_nat (length s) - 4)
    by (unfold local_buffer; rewrite length_fmap, length_seq; lia).
  destruct Hr as [->|(ts & tl & -> & -> & Hok & Hex)].
  { left. intros rdb. unfold rdbSaveLzfStringObject. zb. by rewrite E. }
  destruct (Z.eq_dec (Z.of_nat (length (tokens_bytes ts))) 0) as [Hz|Hz].
  { left. intros rdb. unfold rdbSaveLzfStringObject. zb. rewrite E. cbn [mbind option_bind]. by zb. }
  rewrite length_app in Hl. right.
  assert (Hb : Forall byteZ (tokens_bytes ts)) by (by apply (tokens_bytes_byte ts [])).
  set (c := tokens_bytes ts) in *.
  exists ([195] ++ len_bytes (Z.of_nat (length c)) ++ len_bytes (Z.of_nat (length s)) ++ c).
  assert (Hdec : forall dst, length dst = length s -> lzf_decompress c dst = Some (s, inl (Z.of_nat (length s)))).
  { intros dst Hd. pose proof (decompress_loop_tokens c (Z.of_nat (length dst)) ts (length c) [] [] dst) as HD.
    rewrite Hex, Nat.sub_0_r in HD. unfold lzf_decompress. simpl in HD.
    etransitivity; [apply HD; (auto; lia)|]. by rewrite drop_ge, app_nil_r by lia. }
  split; [constructor; (done || lia)|].
  split; [apply Forall_app; split; [repeat constructor; lia|]; rewrite !Forall_app; split; [|split];
    (done || apply len_bytes_byte; lia)|].
  split; [simpl; lia|].
  assert (He : forall rdb, rdbSaveLzfStringObject (B:=B) env rdb s = rdbSaveLzfBlob rdb c (Z.of_nat (length s))).
  { intros rdb. unfold rdbSaveLzfStringObject. zb. rewrite E. cbn [mbind option_bind]. zb.
    rewrite slice_prefix by done. done. }
  destruct (rdbSaveLzfBlob_writes c (Z.of_nat (length s)) Hb) as [W1 W2]; [unfold in_u in *; lia|done|].
  split; [by rewrite He|]. intros g r. rewrite He. apply W2.
Qed.

Lemma writes_ext f f' e n : (forall rdb : option (rio B), f' rdb = f rdb) -> writes f e n -> writes f' e n.
Proof. intros E [W1 W2]. split; [by rewrite E|]. intros g r. rewrite E. apply W2. Qed.

(** The string behind its length. *)
Lemma verbatim_writes s : Forall byteZ s -> in_u 64 (Z.of_nat (length s)) ->
  let e := len_bytes (Z.of_nat (length s)) ++ s in
  Forall byteZ e /\
  writes (B:=B) (fun rdb => save_verbatim rdb s) e (Z.of_nat (length e)).
Proof.
  intros Hs Hl e. split; [apply Forall_app; split; [apply len_bytes_byte; lia|done]|]. unfold e, save_verbatim.
  eapply (writes_bind (fun rdb => rdbSaveLen rdb (Z.of_nat (length s)))); [|by apply rdbSaveLen_writes|]; [lia|].
  rewrite Z.gtb_ltb, length_app. case_zb.
  - eapply (writes_last (fun rdb => rdbWriteRaw rdb s)); [|by apply writes_raw|]; [lia|].
    intros rdb. do 2 f_equal. lia.
  - destruct s; [|simpl in *; lia]. rewrite Nat.add_0_r. apply writes_ret.
Qed.

Lemma rdbSaveRawString_writes env s : Forall byteZ s -> env_ok env s ->
  exists e, string_bytes s e /\ Forall byteZ e /\
    writes (B:=B) (fun rdb => rdbSaveRawString env rdb s) e (Z.of_nat (length e)).
Proof.
  intros Hs He. pose proof (address_len _ _ (proj1 He)) as Hl.
  destruct (verbatim_writes s Hs Hl) as [Hvb Hv]. pose proof (bytes_verbatim s) as Hvs.
  assert (Hcomp : exists e, string_bytes s e /\ Forall byteZ e /\
    writes (B:=B) (fun rdb => save_compressed env rdb s) e (Z.of_nat (length e))).
  { unfold save_compressed. rewrite Z.gtb_ltb. destruct (rdb_compression env && _) eqn:E; [|by eexists].
    destruct (rdbSaveLzf_spec env s Hs He) as [Hz|(e & H1 & H2 & H3 & H4)]; [lia| |].
    - eexists. split; [exact Hvs|]. split; [exact Hvb|].
      apply (writes_ext (fun rdb => save_verbatim rdb s)); [|exact Hv]. intros rdb. unfold save_bind. by rewrite Hz.
    - exists e. split; [done|]. split; [done|]. eapply (writes_last (fun rdb => rdbSaveLzfStringObject env rdb s));
        [|exact H4|]; [lia|]. intros rdb. rewrite Z.gtb_ltb. by zb. }
  unfold rdbSaveRawString.
  case_zb; [|exact Hcomp]. rewrite Z.gtb_ltb. case_zb; [|exact Hcomp].
  unfold rdbTryIntegerEncoding in *. destruct (string2ll s) as [v|] eqn:E; [|simpl in *; lia].
  apply string2ll_sound in E as [Hv64 ->].
  destruct (rdbEncodeInteger_spec v Hv64) as [E|(t & n & Ht & E & Hc)]; rewrite E in *; [simpl in *; lia|].
  assert (Hb : Forall byteZ ((192 + t) :: le_bytes n v)) by (constructor; [unfold byteZ; lia|apply le_bytes_byte]).
  eexists. split; [by econstructor|]. split; [done|].
  eapply (writes_last (fun rdb => rdbWriteRaw rdb _)); [|by apply writes_raw|done]. lia.
Qed.

Lemma rdbSaveLongLong_writes env v : in_s 64 v ->
  exists e, string_bytes (dec v) e /\ Forall byteZ e /\
    writes (B:=B) (fun rdb => rdbSaveLongLongAsStringObject env rdb v) e (Z.of_nat (length e)).
Proof.
  intros Hv. unfold rdbSaveLongLongAsStringObject. rewrite Z.gtb_ltb.
  destruct (rdbEncodeInteger_spec v Hv) as [E|(t & n & Ht & E & Hc)]; rewrite E.
  - simpl length. zb. destruct (ll2string_local_spec (undef env) 32 v Hv) as (q & E2); [lia|].
    pose proof (dec_length v Hv). destruct (dec_bytes v Hv) as [Hb _].
    exists (len_bytes (Z.of_nat (length (dec v))) ++ dec v). split; [constructor|].
    split; [apply Forall_app; split; [apply len_bytes_byte; lia|done]|].
    apply (writes_ext (fun rdb => save_bind (rdbSaveLen rdb (Z.of_nat (length (dec v)))) (fun n1 rdb =>
      save_bind (rdbWriteRaw rdb (dec v)) (fun n2 rdb => Some (n1 + n2, rdb))))).
    { intros rdb. rewrite E2. cbn [mbind option_bind]. zb. by rewrite slice_prefix by done. }
    eapply (writes_bind (fun rdb => rdbSaveLen rdb _)); [|apply rdbSaveLen_writes; unfold in_u; lia|]; [lia|].
    eapply (writes_last (fun rdb => rdbWriteRaw rdb _)); [|by apply writes_raw|]; [lia|].
    intros rdb. do 2 f_equal. rewrite length_app. lia.
  - assert (Hb : Forall byteZ ((192 + t) :: le_bytes n v)) by (constructor; [unfold byteZ; lia|apply le_bytes_byte]).
    eexists. split; [by econstructor|]. split; [done|]. simpl length. zb. by apply writes_raw.
Qed.

Lemma rdbSaveStringObject_writes env o : strobj_ok o -> env_ok env (str_value o) ->
  exists e, string_bytes (str_value o) e /\ Forall byteZ e /\
    writes (B:=B) (fun rdb => rdbSaveStringObject env rdb o) e (Z.of_nat (length e)).
Proof.
  intros Ho He. destruct o as [s|s|v]; simpl in *; [by apply rdbSaveRawString_writes| |by apply rdbSaveLongLong_writes].
  destruct Ho. by apply rdbSaveRawString_writes.
Qed.
End SaveStrings.

Definition loaded_value (l : loaded) : list Z :=
  match l with LoadedPlain s | LoadedSds s => s | LoadedObj o => str_value o end.

(** The kind of the result is the one the flags ask for, and it is well formed. *)
Definition loaded_ok (flags : Z) (l : loaded) : Prop :=
  Forall byteZ (loaded_value l) /\
  match l with
  | LoadedPlain _ => flag flags RDB_LOAD_PLAIN = true
  | LoadedSds _ => flag flags RDB_LOAD_PLAIN = false /\ flag flags RDB_LOAD_SDS = true
  | LoadedObj o => flag flags RDB_LOAD_PLAIN = false /\ flag flags RDB_LOAD_SDS = false /\ strobj_ok o
  end.

(** What the flags make of an integer and of a string. *)
Definition make_integer (flags v : Z) : loaded :=
  if flag flags RDB_LOAD_PLAIN then LoadedPlain (dec v)
  else if flag flags RDB_LOAD_SDS then LoadedSds (dec v)
  else if flag flags RDB_LOAD_ENC then LoadedObj (StrInt v) else LoadedObj (createStringObject (dec v)).

Definition make_string (flags : Z) (mk : list Z -> strobj) (s : list Z) : loaded :=
  if flag flags RDB_LOAD_PLAIN then LoadedPlain s
  else if flag flags RDB_LOAD_SDS then LoadedSds s else LoadedObj (mk s).

Lemma make_integer_ok flags v : in_s 64 v ->
  loaded_ok flags (make_integer flags v) /\ loaded_value (make_integer flags v) = dec v.
Proof.
  intros Hv. destruct (dec_bytes v Hv) as [Hb _]. destruct (createStringObject_ok (dec v) Hb).
  unfold make_integer, loaded_ok. destruct (flag flags RDB_LOAD_PLAIN) eqn:E1; [done|].
  destruct (flag flags RDB_LOAD_SDS) eqn:E2; [done|]. destruct (flag flags RDB_LOAD_ENC); simpl; [done|].
  split; [|done]. split; [congruence|done].
Qed.

Lemma make_string_ok flags mk s : Forall byteZ s -> strobj_ok (mk s) /\ str_value (mk s) = s ->
  loaded_ok flags (make_string flags mk s) /\ loaded_value (make_string flags mk s) = s.
Proof.
  intros Hs [H1 H2]. unfold make_string, loaded_ok. destruct (flag flags RDB_LOAD_PLAIN) eqn:E1; [done|].
  destruct (flag flags RDB_LOAD_SDS) eqn:E2; [done|]. simpl. split; [|done]. split; [congruence|done].
Qed.

(** The largest length for which the size of a string with its header does not
    overflow. *)
Notation SDS_MAX_LEN := (UINT64_MAX - 18)%Z (only parsing).

Lemma sdstrynewlen_spec env n : 0 <= n <= SDS_MAX_LEN -> exists m, 0 <= m <= n + 18 /\ sdstrynewlen env n = Some (ztrymalloc env m).
Proof.
  intros Hn. unfold sdstrynewlen, UINT64_MAX in *. set (type := match sdsReqType n with SDS_TYPE_5 => _ | _ => _ end).
  assert (1 <= sdsHdrSize type <= 17) by (destruct type; simpl; lia).
  exists (sdsHdrSize type + n + 1). split; [lia|]. rewrite !wrap_id by (unfold in_u; lia).
  by zb_true (n + sdsHdrSize type + 1 >? n).
Qed.

Lemma sdstrynewlen_aborts env n : SDS_MAX_LEN < n <= UINT64_MAX -> sdstrynewlen env n = None.
Proof.
  intros Hn. unfold sdstrynewlen, sdsReqType, UINT64_MAX in *. rewrite !Z.shiftl_1_l. zb. cbn [sdsHdrSize].
  assert (u64 (n + 17 + 1) = n + 18 - 2 ^ 64) as -> by (unfold wrap; rewrite <- (Z.mod_add _ (-1)) by done; rewrite Z.mod_small; lia).
  by zb_false (n + 18 - 2 ^ 64 >? n).
Qed.

Lemma sds_allocated env n : 0 <= n <= SDS_MAX_LEN -> (forall m, 0 <= m <= n + 18 -> ztrymalloc env m = true) ->
  sdstrynewlen env n = Some true.
Proof. intros Hn Ha. destruct (sdstrynewlen_spec env n Hn) as (m & Hm & ->). by rewrite Ha. Qed.

Section LoadStrings.
Context {B : Type} `{RioStream B} (env : rdb_env) (flags : Z).

(** What an integer becomes, once it has been read. *)
Lemma integer_result v (r : rio B) : in_s 64 v ->
  (if flag flags RDB_LOAD_PLAIN || flag flags RDB_LOAD_SDS then
     '(buf, len) ← ll2string_local (undef env) LONG_STR_SIZE v;
     p ← slice buf 0 len;
     Some (Some (if flag flags RDB_LOAD_PLAIN then LoadedPlain p else LoadedSds p), r)
   else if flag flags RDB_LOAD_ENC then
     o ← createStringObjectFromLongLongForValue (undef env) (no_shared_integers env) v;
     Some (Some (LoadedObj o), r)
   else
     o ← createStringObjectFromLongLongWithSds (undef env) v;
     Some (Some (LoadedObj o), r)) = Some (Some (make_integer flags v), r).
Proof.
  intros Hv. unfold make_integer, createStringObjectFromLongLongForValue, createStringObjectFromLongLongWithSds.
  rewrite !createStringObjectFromLongLong_spec by done.
  destruct (ll2string_local_spec (undef env) LONG_STR_SIZE v Hv) as (q & E); [unfold LONG_STR_SIZE; lia|].
  rewrite E. cbn [mbind option_bind]. rewrite slice_prefix by done.
  destruct (flag flags RDB_LOAD_PLAIN), (flag flags RDB_LOAD_SDS), (flag flags RDB_LOAD_ENC), (no_shared_integers env); done.
Qed.

Lemma rdbLoadIntegerObject_reads v t n : in_s 64 v ->
  (t = 0 /\ n = 1%nat /\ in_s 8 v \/ t = 1 /\ n = 2%nat /\ in_s 16 v \/ t = 2 /\ n = 4%nat /\ in_s 32 v) ->
  reads (B:=B) (fun rdb => rdbLoadIntegerObject env rdb t flags) (le_bytes n v) (Some (make_integer flags v)).
Proof.
  intros Hv Hc. unfold rdbLoadIntegerObject.
  eapply (reads_last (fun rdb => load_integer rdb t)); [by apply load_integer_reads|].
  intros r. by apply integer_result.
Qed.

(** The continuation after a length. *)
Lemma reads_len {A} (k : Z * bool -> rio B -> option (A * rio B)) e1 e2 n b a :
  reads rdbLoadLen e1 (n, b) -> reads (k (n, b)) e2 a ->
  reads (fun r => '(x, r) ← rdbLoadLen r; k x r) (e1 ++ e2) a.
Proof. apply reads_bind. Qed.

Lemma rdbLoadLzf_reads c s : Forall byteZ s ->
  (length c <= length s)%nat -> Z.of_nat (length s) <= SDS_MAX_LEN ->
  (forall n, 0 <= n <= Z.of_nat (length s) + 18 -> ztrymalloc env n = true) ->
  (forall dst, length dst = length s -> lzf_decompress c dst = Some (s, inl (Z.of_nat (length s)))) ->
  reads (B:=B) (fun rdb => rdbLoadLzfStringObject env rdb flags)
    (len_bytes (Z.of_nat (length c)) ++ len_bytes (Z.of_nat (length s)) ++ c)
    (Some (make_string flags createRawStringObject s)).
Proof.
  intros Hs Hc Hl Ha Hd. pose proof (sds_allocated env (Z.of_nat (length s)) ltac:(lia) Ha) as Hsds. unfold UINT64_MAX in *.
  assert (Hu : forall n, 0 <= n <= Z.of_nat (length s) -> in_u 64 n) by (unfold in_u; intros; lia).
  eapply (reads_ext (fun rdb => '(x, rdb) ← rdbLoadLen rdb; (fun x rdb =>
     if x.1 =? RDB_LENERR then Some (None, rdb) else
     '(y, rdb) ← rdbLoadLen rdb; (fun y rdb =>
       if y.1 =? RDB_LENERR then Some (None, rdb) else
       if negb (ztrymalloc env x.1) then Some (None, rdb) else
       val ← (if flag flags RDB_LOAD_PLAIN then Some (ztrymalloc env y.1) else sdstrynewlen env y.1);
       if negb val then Some (None, rdb) else
       load_bind (rioRead rdb x.1) (fun c rdb =>
       '(val, r) ← lzf_decompress c (local_buffer (undef env) y.1);
       if negb (match r with inl n => n | inr _ => 0 end =? y.1) then Some (None, rdb)
       else Some (Some (make_string flags createRawStringObject val), rdb))) y rdb) x rdb)).
  { intros r. unfold rdbLoadLzfStringObject. destruct (rdbLoadLen r) as [[[clen e1] r1]|]; [|done].
    cbn [mbind option_bind fst]. destruct (_ =? _); [done|].
    destruct (rdbLoadLen r1) as [[[len e2] r2]|]; [|done]. cbn [mbind option_bind fst]. destruct (_ =? _); [done|].
    unfold make_string. done. }
  apply (reads_len _ _ _ (Z.of_nat (length c)) false); [apply rdbLoadLen_reads, Hu; lia|].
  cbn [fst]. unfold UINT64_MAX. zb.
  apply (reads_len _ _ _ (Z.of_nat (length s)) false); [apply rdbLoadLen_reads, Hu; lia|].
  cbn [fst]. zb. rewrite !Ha, Hsds by lia. cbn [negb].
  replace (if flag flags RDB_LOAD_PLAIN then Some true else Some true) with (Some true) by (by destruct (flag _ _)). cbn [mbind option_bind negb].
  eapply (reads_last (fun r => rioRead r _)); [by apply reads_rio|]. intros r.
  rewrite Hd by (unfold local_buffer; rewrite length_fmap, length_seq; lia).
  cbn [mbind option_bind]. by zb.
Qed.

Lemma rdbGenericLoad_reads s e : string_bytes s e -> Forall byteZ s -> Z.of_nat (length s) <= SDS_MAX_LEN ->
  (forall n, 0 <= n <= Z.of_nat (length s) + 18 -> ztrymalloc env n = true) ->
  exists o, reads (B:=B) (fun rdb => rdbGenericLoadStringObject env rdb flags) e (Some o) /\
    loaded_ok flags o /\ loaded_value o = s.
Proof.
  intros He Hs Hl Ha. unfold rdbGenericLoadStringObject.
  assert (Hu : in_u 64 (Z.of_nat (length s))) by (unfold UINT64_MAX, in_u in *; lia).
  destruct He as [v t n Hv Hdec Hc|c Hc Hcl Hd|].
  - exists (make_integer flags v). rewrite Hdec. split; [|by apply make_integer_ok].
    apply (reads_bind rdbLoadLen (fun x rdb => _) [192 + t] (le_bytes n v) (t, true)); [apply rdbLoadLen_encoded; lia|].
    cbv beta iota. unfold UINT64_MAX.
    assert ((t =? 2 ^ 64 - 1) = false) as -> by lia.
    assert ((t =? 0) || (t =? 1) || (t =? 2) = true) as -> by lia. by apply rdbLoadIntegerObject_reads.
  - exists (make_string flags createRawStringObject s). split; [|by apply make_string_ok].
    apply (reads_bind rdbLoadLen (fun x rdb => _) [195] _ (3, true)); [by apply (rdbLoadLen_encoded 3)|].
    cbv beta iota. by apply rdbLoadLzf_reads.
  - exists (make_string flags createStringObject s). split; [|apply make_string_ok; [done|by apply createStringObject_ok]].
    apply (reads_bind rdbLoadLen (fun x rdb => _) (len_bytes _) s (Z.of_nat (length s), false)); [by apply rdbLoadLen_reads|].
    cbv beta iota. zb_false (Z.of_nat (length s) =? RDB_LENERR). rewrite Ha by lia. unfold tryCreateStringObject. rewrite sds_allocated by (done || lia).
    replace (if flag flags RDB_LOAD_PLAIN then _ else _) with (Some true) by (destruct (flag _ _); [done|]; destruct (flag _ _); [done|]; by destruct (_ <=? _)).
    cbn [mbind option_bind negb]. case_zb.
    + destruct s; [|done]. eapply (reads_last (fun r => Some (Some [], r))); [apply reads_ret|done].
    + eapply (reads_last (fun r => rioRead r _)); [by apply reads_rio|done].
Qed.
End LoadStrings.

(** C15. A string object saved to any stream is loaded back from any other
    stream as the same string.  Saving writes the same number of bytes as it
    returns, and as it computes when called without a stream; loading consumes
    exactly the bytes written and returns a buffer, a string or an object as
    the flags ask, whether the string was stored as an integer, compressed or
    as it is, and whatever the chunks of the two streams.  Memory for the string
    and its header is available when it is loaded, and the size does not overflow. *)
Theorem rdb_string_roundtrip {B B'} `{RioStream B, RioStream B'} (env env' : rdb_env) (o : strobj) (flags : Z)
    (g g' : Z -> list Z -> Z) (r : rio B) :
  strobj_ok o -> env_ok env (str_value o) -> Z.of_nat (length (str_value o)) <= SDS_MAX_LEN ->
  (forall n, 0 <= n <= Z.of_nat (length (str_value o)) + 18 -> ztrymalloc env' n = true) ->
  rio_wf g r -> write_error r = false ->
  exists e r1, rdbSaveStringObject env (Some r) o = Some (Z.of_nat (length e), Some r1) /\
    rdbSaveStringObject (B:=B) env None o = Some (Z.of_nat (length e), None) /\
    rio_written (io r1) = rio_written (io r) ++ e /\ cksum r1 = g (cksum r) e /\
    forall (r' : rio B') rest, rio_wf g' r' -> read_error r' = false -> Forall byteZ rest ->
      rio_unread (io r') = e ++ rest ->
      exists l r2, rdbGenericLoadStringObject env' r' flags = Some (Some l, r2) /\
        loaded_ok flags l /\ loaded_value l = str_value o /\
        rio_unread (io r2) = rest /\ cksum r2 = g' (cksum r') e.
Proof.
  intros Ho He Hl Ha Hr Hw. destruct (rdbSaveStringObject_writes (B:=B) env o Ho He) as (e & Hs & Hb & W1 & W2).
  destruct (W2 g r Hr Hw) as (r1 & E1 & _ & _ & Hw1 & Hc1). exists e, r1.
  repeat (split; [done|]). intros r' rest Hr' He' Hrest Hu.
  assert (Hbo : Forall byteZ (str_value o)) by (by apply str_value_bytes).
  destruct (rdbGenericLoad_reads (B:=B') env' flags _ _ Hs Hbo Hl Ha) as (l & Hrd & Hok & Hv).
  destruct (Hrd g' r' rest Hr' He') as (r2 & E2 & _ & _ & Hu2 & Hc2); [rewrite Hu; by apply Forall_app|done|].
  exists l, r2. done.
Qed.

Lemma init_buffer_wf s : rio_wf (fun c _ => c) (rioInitWithBuffer s).
Proof. constructor; simpl; try done; [|by split..]. split; simpl; lia. Qed.

Lemma rdb_string_roundtrip_witness :
  let s := replicate 30 97 in
  let env := Build_rdb_env true false (fun _ => true) (fun _ => 0) (fun _ => 0) 65536 in
  exists e r1, rdbSaveStringObject env (Some (rioInitWithBuffer [])) (StrRaw s) = Some (Z.of_nat (length e), Some r1) /\
    forall r', r' = rioInitWithBuffer (e ++ []) ->
      exists l r2, rdbGenericLoadStringObject env r' RDB_LOAD_SDS = Some (Some l, r2) /\ loaded_value l = s.
Proof.
  intros s env.
  destruct (rdb_string_roundtrip (B:=rio_buffer) (B':=rio_buffer) env env (StrRaw s) RDB_LOAD_SDS
    (fun c _ => c) (fun c _ => c) (rioInitWithBuffer [])) as (e & r1 & H1 & _ & _ & _ & H2).
  - apply Forall_replicate. split; vm_compute; congruence.
  - split; [split; vm_compute; congruence|]. intros i. split; vm_compute; congruence.
  - vm_compute. congruence.
  - intros n _. reflexivity.
  - apply init_buffer_wf.
  - reflexivity.
  - exists e, r1. split; [exact H1|]. intros r' ->.
    destruct (H2 (rioInitWithBuffer (e ++ [])) []) as (l & r2 & H3 & _ & H4 & _);
      [apply init_buffer_wf|reflexivity|constructor|reflexivity|].
    exists l, r2. split; [exact H3|exact H4].
Defined.

(** ** Arbitrary bytes *)

(** The size of a string of this length overflows. *)
Definition oversized (n : Z) : Prop := SDS_MAX_LEN < n < RDB_LENERR.

(** The inputs on which the assertion of [sdstrynewlen] fails: a string of such
    a length is to be made, as it is or from a compressed one. *)
Inductive aborts (env : rdb_env) (flags : Z) : list Z -> Prop :=
| aborts_verbatim e n rest : flag flags RDB_LOAD_PLAIN = false -> length_text e (n, false) -> oversized n ->
    aborts env flags (e ++ rest)
| aborts_lzf e1 clen b1 e2 n b2 rest : flag flags RDB_LOAD_PLAIN = false ->
    length_text e1 (clen, b1) -> clen <> RDB_LENERR -> length_text e2 (n, b2) -> ztrymalloc env clen = true -> oversized n ->
    aborts env flags (195 :: e1 ++ e2 ++ rest).

Section Safe.
Context {B : Type} `{RioStream B}.

(** [f] never fails, reads only from the front of the stream, and what it
    returns satisfies [P]; after a failed read the stream is marked. *)
Definition safe {A} (f : rio B -> option (A * rio B)) (P : A -> Prop) : Prop :=
  forall g r, rio_wf g r -> (read_error r = false -> Forall byteZ (rio_unread (io r))) ->
    exists a r', f r = Some (a, r') /\ rio_wf g r' /\ P a /\
      (read_error r' = false -> read_error r = false /\ exists c, rio_unread (io r) = c ++ rio_unread (io r')).

Lemma safe_ret {A} (a : A) (P : A -> Prop) : P a -> safe (fun r => Some (a, r)) P.
Proof. intros Ha g r Hr Hb. exists a, r. repeat split; try done; try apply Hr. by exists []. Qed.

Lemma safe_rio n : 0 <= n -> safe (fun r => rioRead r n)
  (fun x => match x with Some s => Forall byteZ s /\ Z.of_nat (length s) = n | None => True end).
Proof.
  intros Hn g r Hr Hb. destruct (read_error r) eqn:He.
  - exists None, r. unfold rioRead. rewrite He. repeat split; try apply Hr; congruence.
  - specialize (Hb eq_refl). destruct (rioRead_spec g r n Hr He Hn Hb) as (r' & Hr' & Hres).
    revert Hres. case_zb.
    + intros (E & Hu & _ & _ & He'). eexists _, r'. split; [exact E|]. split; [done|].
      split; [split; [by apply Forall_take|rewrite length_take; lia]|].
      intros _. split; [done|]. rewrite Hu. eexists. symmetry. apply take_drop.
    + intros (E & He'). exists None, r'. split; [done|]. split; [done|]. split; [done|]. congruence.
Qed.

Lemma safe_bind {A A'} (f : rio B -> option (A * rio B)) (k : A -> rio B -> option (A' * rio B)) P Q :
  safe f P -> (forall a, P a -> safe (k a) Q) -> safe (fun r => '(x, r) ← f r; k x r) Q.
Proof.
  intros Hf Hk g r Hr Hb. destruct (Hf g r Hr Hb) as (a & r1 & E1 & Hr1 & Ha & Hs1).
  destruct (Hk a Ha g r1 Hr1) as (a' & r2 & E2 & Hr2 & Ha2 & Hs2).
  { intros He. destruct (Hs1 He) as [He0 (c & Hc)]. specialize (Hb He0). rewrite Hc in Hb. by apply Forall_app in Hb as []. }
  exists a', r2. rewrite E1. cbn [mbind option_bind]. rewrite E2. repeat split; try done; try apply Hr2;
    intros; destruct (Hs2 ltac:(done)) as [He1 (c2 & Hc2)]; destruct (Hs1 He1) as [He0 (c1 & Hc1)]; [done|].
  exists (c1 ++ c2). by rewrite Hc1, Hc2, app_assoc.
Qed.

Lemma safe_load {A A'} (f : rio B -> option (option A * rio B)) (k : A -> rio B -> option (option A' * rio B))
    (P : A -> Prop) (Q : option A' -> Prop) :
  safe f (fun x => match x with Some a => P a | None => True end) -> Q None -> (forall a, P a -> safe (k a) Q) ->
  safe (fun r => load_bind (f r) k) Q.
Proof.
  intros Hf HQ Hk. unfold load_bind.
  eapply (safe_bind f (fun a rdb => match a with Some a => k a rdb | None => Some (None, rdb) end)); [exact Hf|].
  intros [a|] Ha; [by apply Hk|by apply safe_ret].
Qed.

Lemma safe_ext {A} (f f' : rio B -> option (A * rio B)) P : (forall r, f' r = f r) -> safe f P -> safe f' P.
Proof. intros E Hf g r. rewrite E. apply Hf. Qed.

Lemma byte_at s n i : Forall byteZ s -> Z.of_nat (length s) = n -> 0 <= i < n -> exists b, get s i = Some b /\ byteZ b.
Proof. intros Hs Hl Hi. exists (s !!! Z.to_nat i). split; [apply get_total; lia|by apply bytes_total]. Qed.

Lemma be_val_range s n : Forall byteZ s -> Z.of_nat (length s) = n -> n <= 8 -> in_u 64 (be_val s).
Proof.
  intros Hs Hl Hn. unfold be_val, in_u. pose proof (le_val_range (reverse s)) as Hr.
  rewrite length_reverse, Hl in Hr. specialize (Hr ltac:(by apply Forall_reverse)).
  assert (256 ^ n <= 256 ^ 8) by (apply Z.pow_le_mono_r; lia). change (2 ^ 64) with (256 ^ 8). lia.
Qed.

(** A read gives the next bytes, or marks the stream. *)
Lemma rioRead_cases n g r : 0 <= n -> rio_wf g r -> (read_error r = false -> Forall byteZ (rio_unread (io r))) ->
  exists x r', rioRead r n = Some (x, r') /\ rio_wf g r' /\
    match x with
    | Some s => read_error r = false /\ read_error r' = false /\ Forall byteZ s /\ Z.of_nat (length s) = n /\
        rio_unread (io r) = s ++ rio_unread (io r')
    | None => read_error r' = true
    end.
Proof.
  intros Hn Hr Hb. destruct (read_error r) eqn:He.
  - exists None, r. unfold rioRead. by rewrite He.
  - specialize (Hb eq_refl). destruct (rioRead_spec g r n Hr He Hn Hb) as (r' & Hr' & Hres). revert Hres. case_zb.
    + intros (E & Hu & _ & _ & He'). eexists _, r'. split; [exact E|]. split; [done|]. split; [done|]. split; [done|].
      split; [by apply Forall_take|]. split; [rewrite length_take; lia|]. by rewrite Hu, take_drop.
    + intros (E & He'). by exists None, r'.
Qed.

(** [r'] is [r] after some reads. *)
Definition read_on (r r' : rio B) : Prop :=
  read_error r' = false -> read_error r = false /\ exists c, rio_unread (io r) = c ++ rio_unread (io r').

(** A length is found at the front of the stream, or an error. *)
Definition length_read (r r' : rio B) (x : Z * bool) : Prop :=
  read_on r r' /\
  (x = (RDB_LENERR, false) \/ read_error r' = false /\ exists e, length_text e x /\ rio_unread (io r) = e ++ rio_unread (io r')).

Lemma length_read_error r r' : read_on r r' -> length_read r r' (RDB_LENERR, false).
Proof. intros Hr. split; [done|by left]. Qed.

Lemma length_read_text (r r' : rio B) e x : read_error r = false -> rio_unread (io r) = e ++ rio_unread (io r') ->
  read_error r' = false -> length_text e x -> length_read r r' x.
Proof. intros He E He' Hx. split; [intros _; split; [done|by exists e]|right; split; [done|by exists e]]. Qed.

Lemma rdbLoadLen_cases g r : rio_wf g r -> (read_error r = false -> Forall byteZ (rio_unread (io r))) ->
  exists x r', rdbLoadLen r = Some (x, r') /\ rio_wf g r' /\ length_read r r' x.
Proof.
  intros Hr Hb. unfold rdbLoadLen, rdbLoadLenByRef, load_bind.
  destruct (rioRead_cases 1 g r ltac:(lia) Hr Hb) as (x & r1 & -> & Hr1 & H1). cbn [mbind option_bind].
  destruct x as [buf|]; [|eexists _, r1; split; [done|]; split; [done|]; apply length_read_error; intros ?; congruence].
  destruct H1 as (He & He1 & Hbuf & Hl & E). destruct buf as [|b0 [|]]; simpl in Hl; [lia| |lia].
  apply Forall_cons in Hbuf as [Hb0 _]. change (get [b0] 0) with (Some b0). cbn [mbind option_bind].
  destruct (len_type b0 Hb0) as [-> ->]. unfold byteZ in Hb0. pose proof (Z.div_mod b0 64 ltac:(lia)). pose proof (Z.mod_pos_bound b0 64 ltac:(lia)).
  assert (read_error r1 = false -> Forall byteZ (rio_unread (io r1))) as Hb1.
  { intros _. specialize (Hb He). rewrite E in Hb. by apply Forall_app in Hb as [_ Hb]. }
  assert (forall n, 0 <= n -> exists x r2, rioRead r1 n = Some (x, r2) /\ rio_wf g r2 /\
    match x with
    | Some s => read_error r2 = false /\ Forall byteZ s /\ Z.of_nat (length s) = n /\ rio_unread (io r) = (b0 :: s) ++ rio_unread (io r2)
    | None => read_error r2 = true
    end) as Hmore.
  { intros n Hn. destruct (rioRead_cases n g r1 Hn Hr1 Hb1) as (x & r2 & E2 & Hr2 & H2). exists x, r2. split; [done|]. split; [done|].
    destruct x as [s|]; [|done]. destruct H2 as (_ & ? & ? & ? & H2). rewrite E, H2. done. }
  case_zb; [eexists _, r1; split; [done|]; split; [done|]; eapply length_read_text; [done..|]; replace (b0 mod 64) with (b0 - 192) by lia; constructor; lia|].
  case_zb; [eexists _, r1; split; [done|]; split; [done|]; eapply length_read_text; [done..|]; replace (b0 mod 64) with b0 by lia; constructor; lia|].
  case_zb; [|case_zb; [|case_zb]].
  4: { eexists _, r1. split; [done|]. split; [done|]. apply length_read_error. intros _. by eauto. }
  1: destruct (Hmore 1 ltac:(lia)) as (x & r2 & -> & Hr2 & H2).
  2: destruct (Hmore 4 ltac:(lia)) as (x & r2 & -> & Hr2 & H2).
  3: destruct (Hmore 8 ltac:(lia)) as (x & r2 & -> & Hr2 & H2).
  all: cbn [mbind option_bind]; destruct x as [buf|]; [|eexists _, r2; split; [done|]; split; [done|]; apply length_read_error; intros ?; congruence].
  all: destruct H2 as (He2 & Hbuf & Hl2 & E2).
  - destruct buf as [|b' [|]]; simpl in Hl2; [lia| |lia]. apply Forall_cons in Hbuf as [Hb' _].
    change (get [b'] 0) with (Some b'). cbn [mbind option_bind]. eexists _, r2. split; [done|]. split; [done|].
    eapply length_read_text; [done..|]. rewrite shiftl_lor by (unfold byteZ in Hb'; unfold in_u; lia).
    change (2 ^ 8) with 256. replace (b0 mod 64) with (b0 - 64) by lia. rewrite Z.add_comm. constructor; (done || lia).
  - eexists _, r2. split; [done|]. split; [done|]. eapply length_read_text; [done..|]. subst b0. constructor; (done || lia).
  - eexists _, r2. split; [done|]. split; [done|]. eapply length_read_text; [done..|]. subst b0. constructor; (done || lia).
Qed.

Lemma length_text_range e x : length_text e x -> in_u 64 x.1.
Proof.
  destruct 1 as [b Hb|b Hb|b b' Hb Hb'|s Hs Hl|s Hs Hl]; cbn [fst]; try (unfold byteZ in *; unfold in_u; lia);
    (eapply be_val_range; [done|done|lia]).
Qed.

Lemma load_integer_safe t : safe (fun rdb => load_integer rdb t) (fun x =>
  match x with Some v => in_s 64 v | None => True end).
Proof.
  assert (Hs : forall w x, 0 < w <= 64 -> in_s 64 (swrap w x)).
  { intros w x Hw. pose proof (swrap_range w x ltac:(lia)) as Hr. unfold in_s in *.
    assert (2 ^ (w - 1) <= 2 ^ (64 - 1)) by (apply Z.pow_le_mono_r; lia). lia. }
  unfold load_integer. destruct (_ =? _); [|destruct (_ =? _); [|destruct (_ =? _); [|by apply safe_ret]]];
    (eapply safe_load; [apply safe_rio; lia|done|]; intros buf [Hb Hl]).
  - destruct (byte_at buf 1 0 Hb Hl) as (b0 & -> & _); [lia|]. apply safe_ret, Hs. lia.
  - destruct (byte_at buf 2 0 Hb Hl) as (b0 & -> & _); [lia|]. destruct (byte_at buf 2 1 Hb Hl) as (b1 & -> & _); [lia|].
    apply safe_ret, Hs. lia.
  - destruct (byte_at buf 4 0 Hb Hl) as (b0 & -> & _); [lia|]. destruct (byte_at buf 4 1 Hb Hl) as (b1 & -> & _); [lia|].
    destruct (byte_at buf 4 2 Hb Hl) as (b2 & -> & _); [lia|]. destruct (byte_at buf 4 3 Hb Hl) as (b3 & -> & _); [lia|].
    apply safe_ret, Hs. lia.
Qed.

(** The result of loading: an error, or what the flags ask for. *)
Definition result_ok (flags : Z) (x : option loaded) : Prop :=
  match x with Some l => loaded_ok flags l | None => True end.

Lemma rdbLoadIntegerObject_safe env t flags :
  safe (fun rdb => rdbLoadIntegerObject env rdb t flags) (result_ok flags).
Proof.
  unfold rdbLoadIntegerObject. eapply safe_load; [apply load_integer_safe|done|]. intros v Hv.
  eapply (safe_ext (fun r => Some (Some (make_integer flags v), r))); [intros r; by apply integer_result|].
  apply safe_ret. by apply make_integer_ok.
Qed.

(** A result: the function returns after some reads, or fails if [Bad]. *)
Definition outcome {A} (g : Z -> list Z -> Z) (r : rio B) (Bad : Prop) (P : A -> Prop) (res : option (A * rio B)) : Prop :=
  match res with
  | Some (a, r') => rio_wf g r' /\ P a /\ read_on r r'
  | None => Bad
  end.

Lemma safe_outcome {A} (f : rio B -> option (A * rio B)) P g r Bad : safe f P ->
  rio_wf g r -> (read_error r = false -> Forall byteZ (rio_unread (io r))) -> outcome g r Bad P (f r).
Proof. intros Hf Hr Hb. by destruct (Hf g r Hr Hb) as (a & r' & -> & H1). Qed.

(** From a later position to an earlier one. *)
Lemma outcome_after {A} g r r1 Bad Bad1 (P : A -> Prop) res : read_on r r1 -> (Bad1 -> Bad) ->
  outcome g r1 Bad1 P res -> outcome g r Bad P res.
Proof.
  intros Hr HB. destruct res as [[a r']|]; [|exact HB]. intros (Hr' & Ha & Hs). split; [done|]. split; [done|]. intros He.
  destruct (Hs He) as [He1 (c2 & Hc2)]. destruct (Hr He1) as [He0 (c1 & Hc1)]. split; [done|]. exists (c1 ++ c2). by rewrite Hc1, Hc2, app_assoc.
Qed.

(** The continuation after a length. *)
Lemma outcome_len {A} (k : Z * bool -> rio B -> option (A * rio B)) g r (Bad : list Z -> Prop) (P : A -> Prop) :
  rio_wf g r -> (read_error r = false -> Forall byteZ (rio_unread (io r))) ->
  (forall r', rio_wf g r' -> outcome g r' False P (k (RDB_LENERR, false) r')) ->
  (forall e x r', length_text e x -> rio_wf g r' -> (read_error r' = false -> Forall byteZ (rio_unread (io r'))) ->
    outcome g r' (Bad (e ++ rio_unread (io r'))) P (k x r')) ->
  outcome g r (Bad (rio_unread (io r))) P ('(x, r) ← rdbLoadLen r; k x r).
Proof.
  intros Hr Hb Herr Hk. destruct (rdbLoadLen_cases g r Hr Hb) as (x & r1 & -> & Hr1 & Hon & Hx). cbn [mbind option_bind].
  destruct Hx as [->|(He1 & e & He & Hu)]; [eapply outcome_after; [done| |by apply Herr]; done|].
  eapply outcome_after; [done| |apply (Hk e); [done|done|]]; [by rewrite Hu|].
  intros _. destruct (Hon He1) as [He0 _]. specialize (Hb He0). rewrite Hu in Hb. by apply Forall_app in Hb as [].
Qed.

Lemma outcome_ret {A} g (r : rio B) Bad (P : A -> Prop) a : rio_wf g r -> P a -> outcome g r Bad P (Some (a, r)).
Proof. intros Hr Ha. split; [done|]. split; [done|]. intros He. split; [done|by exists []]. Qed.

(** What an allocation of a string does to a result. *)
Lemma outcome_alloc {A} g (r : rio B) (m : option bool) Bad (k : option (option A * rio B)) Q :
  rio_wf g r -> Q None -> (m = None -> Bad) -> (m = Some true -> outcome g r Bad Q k) ->
  outcome g r Bad Q (b ← m; if negb b then Some (None, r) else k).
Proof. intros Hr HQ HN Hk. destruct m as [[]|]; cbn [mbind option_bind negb]; [by apply Hk|by apply outcome_ret|by apply HN]. Qed.

Lemma sdstrynewlen_none env n : in_u 64 n -> n <> RDB_LENERR -> sdstrynewlen env n = None -> oversized n.
Proof.
  intros Hn Hne E. destruct (Z.le_gt_cases n SDS_MAX_LEN) as [Hle|Hgt].
  - destruct (sdstrynewlen_spec env n) as (m & _ & E'); [split; [apply Hn|done]|]. congruence.
  - split; [lia|]. unfold in_u, UINT64_MAX in *. lia.
Qed.

Lemma rdbLoadLzf_outcome env flags g r : rio_wf g r -> (read_error r = false -> Forall byteZ (rio_unread (io r))) ->
  outcome g r (aborts env flags (195 :: rio_unread (io r))) (result_ok flags) (rdbLoadLzfStringObject env r flags).
Proof.
  intros Hr Hb. unfold rdbLoadLzfStringObject.
  apply (outcome_len (fun x rdb => _) g r (fun s => aborts env flags (195 :: s))); [done..| |].
  { intros r' Hr'. by apply outcome_ret. }
  intros e1 [clen b1] r1 He1 Hr1 Hb1. cbv beta iota. destruct (Z.eqb_spec clen RDB_LENERR) as [|Hc]; [by apply outcome_ret|].
  apply (outcome_len (fun x rdb => _) g r1 (fun s => aborts env flags (195 :: e1 ++ s))); [done..| |].
  { intros r' Hr'. by apply outcome_ret. }
  intros e2 [len b2] r2 He2 Hr2 Hb2. cbv beta iota. destruct (Z.eqb_spec len RDB_LENERR) as [|Hl]; [by apply outcome_ret|].
  pose proof (length_text_range _ _ He1) as Hclen. pose proof (length_text_range _ _ He2) as Hlen. cbn [fst] in Hclen, Hlen.
  destruct (ztrymalloc env clen) eqn:Hz; cbn [negb]; [|by apply outcome_ret].
  apply outcome_alloc; [done..| |].
  { destruct (flag flags RDB_LOAD_PLAIN) eqn:Hp; [done|]. intros Hn. econstructor; [done..|]. by eapply sdstrynewlen_none. }
  intros _. match goal with |- outcome _ _ _ _ (load_bind _ ?k) => apply (safe_outcome (fun rdb => load_bind (rioRead rdb clen) k)); [|done..] end.
  eapply safe_load; [apply safe_rio; apply Hclen|done|]. intros c [Hc' Hl'].
  destruct (lzf_decompress_spec c (local_buffer (undef env) len) Hc') as (val & x & ts & bad & E & _ & Hok & Hfit & Hval & Hx).
  rewrite E. cbn [mbind option_bind]. destruct (Z.eqb_spec (match x with inl n => n | inr _ => 0 end) len) as [En|];
    cbn [negb]; [|by apply safe_ret].
  apply safe_ret. fold (make_string flags createRawStringObject val).
  assert (Hbv : Forall byteZ val); [|by apply make_string_ok].
  assert (Hlo : length (local_buffer (undef env) len) = Z.to_nat len)
    by (unfold local_buffer; by rewrite length_fmap, length_seq).
  rewrite Hval, drop_ge, app_nil_r; [by apply bytes_tokens_expand|]. destruct x as [n|err]; [destruct Hx|]; lia.
Qed.

Lemma verbatim_safe flags len : 0 <= len -> safe (fun rdb =>
  load_bind (if len =? 0 then Some (Some [], rdb) else rioRead rdb len) (fun buf rdb =>
    Some (Some (if flag flags RDB_LOAD_PLAIN then LoadedPlain buf else if flag flags RDB_LOAD_SDS then LoadedSds buf
                else LoadedObj (createStringObject buf)), rdb))) (result_ok flags).
Proof.
  intros Hlen. eapply (safe_load (fun rdb => if len =? 0 then Some (Some [], rdb) else rioRead rdb len) _ (Forall byteZ)); [|done|].
  - destruct (len =? 0); [by apply safe_ret|]. intros g r Hr Hb.
    destruct (safe_rio len Hlen g r Hr Hb) as (a & r' & E & Hr' & Ha & Hs). exists a, r'.
    split; [done|]. split; [done|]. split; [|done]. destruct a; [apply Ha|done].
  - intros buf Hb. apply safe_ret. fold (make_string flags createStringObject buf).
    apply make_string_ok; [done|by apply createStringObject_ok].
Qed.

Lemma rdbGenericLoad_outcome env flags g r : rio_wf g r -> (read_error r = false -> Forall byteZ (rio_unread (io r))) ->
  outcome g r (aborts env flags (rio_unread (io r))) (result_ok flags) (rdbGenericLoadStringObject env r flags).
Proof.
  intros Hr Hb. unfold rdbGenericLoadStringObject.
  apply (outcome_len (fun x rdb => _) g r (aborts env flags)); [done..| |].
  { intros r' Hr'. by apply outcome_ret. }
  intros e [len enc] r1 He Hr1 Hb1. cbv beta iota. destruct (Z.eqb_spec len RDB_LENERR) as [|Hl]; [by apply outcome_ret|].
  pose proof (length_text_range _ _ He) as Hlen. cbn [fst] in Hlen. destruct enc.
  - destruct (_ || _); [apply (safe_outcome (fun rdb => rdbLoadIntegerObject env rdb len flags)); [apply rdbLoadIntegerObject_safe|done..]|].
    destruct (Z.eqb_spec len RDB_ENC_LZF) as [->|]; [|by apply outcome_ret].
    assert (e = [195]) as -> by (inversion He; f_equal; lia). by apply rdbLoadLzf_outcome.
  - apply outcome_alloc; [done..| |].
    + destruct (flag flags RDB_LOAD_PLAIN) eqn:Hp; [done|]. intros Hn. econstructor; [done..|]. apply (sdstrynewlen_none env); [done..|].
      destruct (flag flags RDB_LOAD_SDS); [done|]. unfold tryCreateStringObject in Hn. by destruct (_ <=? _).
    + intros _. exact (safe_outcome _ _ g r1 _ (verbatim_safe flags len (proj1 Hlen)) Hr1 Hb1).
Qed.

(** The assertion does fail on these inputs. *)
Lemma aborts_fails env flags g r : rio_wf g r -> read_error r = false -> Forall byteZ (rio_unread (io r)) ->
  aborts env flags (rio_unread (io r)) -> rdbGenericLoadStringObject env r flags = None.
Proof.
  intros Hr He Hb. remember (rio_unread (io r)) as u eqn:Hu. symmetry in Hu.
  assert (forall n, oversized n -> (n =? RDB_LENERR) = false /\ (n <=? OBJ_ENCODING_EMBSTR_SIZE_LIMIT) = false /\ sdstrynewlen env n = None) as Hov.
  { intros n [H1 H2]. split; [lia|]. split; [unfold UINT64_MAX in *; lia|]. apply sdstrynewlen_aborts. lia. }
  destruct 1 as [e n rest Hp Ht Hn|e1 clen b1 e2 n b2 rest Hp Ht1 Hc Ht2 Hz Hn]; unfold rdbGenericLoadStringObject.
  - destruct (rdbLoadLen_text e _ Ht g r rest Hr He) as (r1 & -> & _); [by rewrite Hu|done|]. cbn [mbind option_bind].
    destruct (Hov n Hn) as (-> & E & ->). rewrite Hp. unfold tryCreateStringObject. rewrite E. destruct (Hov n Hn) as (_ & _ & ->). by destruct (flag flags RDB_LOAD_SDS).
  - destruct (rdbLoadLen_encoded 3 ltac:(lia) g r (e1 ++ e2 ++ rest) Hr He) as (r1 & -> & Hr1 & He1 & Hu1 & _); [by rewrite Hu|done|].
    cbn [mbind option_bind]. change (3 =? RDB_LENERR) with false. cbn [Z.eqb Pos.eqb orb].
    unfold rdbLoadLzfStringObject. apply Forall_cons in Hb as [_ Hb].
    destruct (rdbLoadLen_text e1 _ Ht1 g r1 (e2 ++ rest) Hr1 He1) as (r2 & -> & Hr2 & He2 & Hu2 & _); [by rewrite Hu1|done|].
    cbn [mbind option_bind]. zb_false (clen =? RDB_LENERR). apply Forall_app in Hb as [_ Hb].
    destruct (rdbLoadLen_text e2 _ Ht2 g r2 rest Hr2 He2) as (r3 & -> & _); [by rewrite Hu2|done|].
    cbn [mbind option_bind]. destruct (Hov n Hn) as (-> & _ & ->). by rewrite Hz, Hp.
Qed.
End Safe.


