(* ===== verification/Dump.v ===== *)
(** * DUMP payloads ([cluster.c], and the objects of [rdb.c])

    The serialization that DUMP, RESTORE and MIGRATE exchange: the type and the
    body of the object as in an RDB file, the RDB version and a CRC-64.  Saving
    covers strings, lists, sets, sorted sets and hashes in all their encodings;
    loading covers strings.  Streams and module values are not modelled.  The elements of a hash table are in the order
    the iterator gives them; those of a skip list from the tail. *)

From Stdlib Require Import ZArith Lia ZifyBool.
From stdpp Require Import base gmap numbers option list.
From S2P Require Import Prelude Numstr Intset Listpack Strobj Lzf LzfDecode LzfProof Crc64 Crc64Proof Rio Rdb RdbProof.

Local Open Scope Z_scope.

Notation RDB_VERSION := 11%Z (only parsing).
Notation RDB_TYPE_STRING := 0%Z (only parsing).
Notation RDB_TYPE_SET := 2%Z (only parsing).
Notation RDB_TYPE_HASH := 4%Z (only parsing).
Notation RDB_TYPE_ZSET_2 := 5%Z (only parsing).
Notation RDB_TYPE_SET_INTSET := 11%Z (only parsing).
Notation RDB_TYPE_HASH_LISTPACK := 16%Z (only parsing).
Notation RDB_TYPE_ZSET_LISTPACK := 17%Z (only parsing).
Notation RDB_TYPE_LIST_QUICKLIST_2 := 18%Z (only parsing).
Notation RDB_TYPE_SET_LISTPACK := 20%Z (only parsing).
Notation QUICKLIST_NODE_CONTAINER_PACKED := 2%Z (only parsing).

Definition rdbIsObjectType (t : Z) : bool :=
  ((t >=? 0) && (t <=? 7)) || ((t >=? 9) && (t <=? 21)).

(** A node of a quicklist: its container, and its bytes, as they are or
    compressed, with the size they have uncompressed. *)
Inductive ql_entry := NodeRaw (entry : list Z) | NodeLzf (data : list Z) (sz : Z).

(** An object by its type and encoding. *)
Inductive robj :=
| ObjString (o : strobj)
| ObjListQuicklist (nodes : list (Z * ql_entry))
| ObjListListpack (lp : list Z)
| ObjSetHt (members : list (list Z))
| ObjSetIntset (iset : intset)
| ObjSetListpack (lp : list Z)
| ObjZsetListpack (lp : list Z)
| ObjZsetSkiplist (nodes : list (list Z * Z))
| ObjHashListpack (lp : list Z)
| ObjHashHt (pairs : list (list Z * list Z)).

(** ** Saving *)

Section Save.
Context {B : Type} `{RioBackend B}.

Definition rdbSaveObjectType (rdb : option (rio B)) (o : robj) : option (Z * option (rio B)) :=
  rdbSaveType rdb
    match o with
    | ObjString _ => RDB_TYPE_STRING
    | ObjListQuicklist _ | ObjListListpack _ => RDB_TYPE_LIST_QUICKLIST_2
    | ObjSetIntset _ => RDB_TYPE_SET_INTSET
    | ObjSetHt _ => RDB_TYPE_SET
    | ObjSetListpack _ => RDB_TYPE_SET_LISTPACK
    | ObjZsetListpack _ => RDB_TYPE_ZSET_LISTPACK
    | ObjZsetSkiplist _ => RDB_TYPE_ZSET_2
    | ObjHashListpack _ => RDB_TYPE_HASH_LISTPACK
    | ObjHashHt _ => RDB_TYPE_HASH
    end.

Context (env : rdb_env).

(** A listpack as one string. *)
Definition save_listpack (rdb : option (rio B)) (lp : list Z) : option (Z * option (rio B)) :=
  l ← lpBytes lp;
  data ← slice lp 0 l;
  rdbSaveRawString env rdb data.

(** The loop over the nodes of a quicklist. *)
Definition save_entry (rdb : option (rio B)) (entry : ql_entry) : option (Z * option (rio B)) :=
  match entry with
  | NodeLzf data sz => rdbSaveLzfBlob rdb data sz
  | NodeRaw entry => rdbSaveRawString env rdb entry
  end.

Fixpoint save_quicklist (rdb : option (rio B)) (nwritten : Z) (nodes : list (Z * ql_entry)) :
    option (Z * option (rio B)) :=
  match nodes with
  | [] => Some (nwritten, rdb)
  | (container, entry) :: nodes =>
      save_bind (rdbSaveLen rdb container) (fun n1 rdb =>
      save_bind (save_entry rdb entry) (fun n2 rdb =>
      save_quicklist rdb (nwritten + n1 + n2) nodes))
  end.

(** The loop over the members of a set. *)
Fixpoint save_members (rdb : option (rio B)) (nwritten : Z) (members : list (list Z)) :
    option (Z * option (rio B)) :=
  match members with
  | [] => Some (nwritten, rdb)
  | ele :: members =>
      save_bind (rdbSaveRawString env rdb ele) (fun n rdb => save_members rdb (nwritten + n) members)
  end.

(** The loop over the nodes of a skip list. *)
Fixpoint save_nodes (rdb : option (rio B)) (nwritten : Z) (nodes : list (list Z * Z)) :
    option (Z * option (rio B)) :=
  match nodes with
  | [] => Some (nwritten, rdb)
  | (ele, score) :: nodes =>
      save_bind (rdbSaveRawString env rdb ele) (fun n1 rdb =>
      save_bind (rdbSaveBinaryDoubleValue rdb score) (fun n2 rdb =>
      save_nodes rdb (nwritten + n1 + n2) nodes))
  end.

(** The loop over the fields of a hash. *)
Fixpoint save_fields (rdb : option (rio B)) (nwritten : Z) (pairs : list (list Z * list Z)) :
    option (Z * option (rio B)) :=
  match pairs with
  | [] => Some (nwritten, rdb)
  | (field, value) :: pairs =>
      save_bind (rdbSaveRawString env rdb field) (fun n1 rdb =>
      save_bind (rdbSaveRawString env rdb value) (fun n2 rdb =>
      save_fields rdb (nwritten + n1 + n2) pairs))
  end.

Definition rdbSaveObject (rdb : option (rio B)) (o : robj) : option (Z * option (rio B)) :=
  match o with
  | ObjString o => rdbSaveStringObject env rdb o
  | ObjListQuicklist nodes =>
      save_bind (rdbSaveLen rdb (Z.of_nat (length nodes))) (fun n rdb => save_quicklist rdb n nodes)
  | ObjListListpack lp =>
      save_bind (rdbSaveLen rdb 1) (fun n1 rdb =>
      save_bind (rdbSaveLen rdb QUICKLIST_NODE_CONTAINER_PACKED) (fun n2 rdb =>
      save_bind (save_listpack rdb lp) (fun n3 rdb => Some (n1 + n2 + n3, rdb))))
  | ObjSetHt members =>
      save_bind (rdbSaveLen rdb (Z.of_nat (length members))) (fun n rdb => save_members rdb n members)
  | ObjSetIntset iset =>
      data ← slice (blob iset) 0 (intsetBlobLen iset);
      rdbSaveRawString env rdb data
  | ObjSetListpack lp | ObjZsetListpack lp | ObjHashListpack lp => save_listpack rdb lp
  | ObjZsetSkiplist nodes =>
      save_bind (rdbSaveLen rdb (Z.of_nat (length nodes))) (fun n rdb => save_nodes rdb n nodes)
  | ObjHashHt pairs =>
      save_bind (rdbSaveLen rdb (Z.of_nat (length pairs))) (fun n rdb => save_fields rdb n pairs)
  end.
End Save.

(** [rdbSavedObjectLen]: saving without a stream, which must not fail. *)
Definition rdbSavedObjectLen (env : rdb_env) (o : robj) : option Z :=
  '(len, _) ← rdbSaveObject (B:=rio_buffer) env None o;
  if len =? -1 then None else Some len.

(** The payload; [None] when an assertion fails.  [little] is the byte order of
    the machine, [addr] the address of the payload. *)
Definition createDumpPayload (little : bool) (addr : Z) (env : rdb_env) (o : robj) : option (list Z) :=
  '(n, payload) ← rdbSaveObjectType (Some (rioInitWithBuffer [])) o;
  if n =? 0 then None else
  '(n, payload) ← rdbSaveObject env payload o;
  if n =? 0 then None else
  payload ← payload;
  let buf := [u8 (Z.land RDB_VERSION 255); u8 (Z.land (Z.shiftr RDB_VERSION 8) 255)] in
  let p := ptr (io payload) ++ buf in
  crc ← crc64 little 0 addr p;
  Some (p ++ le_bytes 8 crc).

(** ** Checking and loading *)

(** Whether the payload is accepted, and its version when it has one. *)
Definition verifyDumpPayload (little skip_checksum_validation : bool) (addr : Z) (p : list Z) :
    option (bool * option Z) :=
  let len := Z.of_nat (length p) in
  if len <? 10 then Some (false, None)
  else
    let footer := len - 10 in
    f0 ← get p footer;
    f1 ← get p (footer + 1);
    let rdbver := u16 (Z.lor (Z.shiftl f1 8) f0) in
    if rdbver >? RDB_VERSION then Some (false, Some rdbver)
    else if skip_checksum_validation then Some (true, Some rdbver)
    else
      data ← slice p 0 (len - 8);
      crc ← crc64 little 0 addr data;
      stored ← slice p (footer + 2) 8;
      Some (bool_decide (le_bytes 8 crc = stored), Some rdbver).

Definition rdbLoadObjectType {B} `{RioBackend B} (rdb : rio B) : option (option Z * rio B) :=
  load_bind (rdbLoadType rdb) (fun type rdb =>
  if negb (rdbIsObjectType type) then Some (None, rdb) else Some (Some type, rdb)).

(** The string case of [rdbLoadObject]. *)
Definition rdbLoadObject_string {B} `{RioBackend B} (env : rdb_env) (rdb : rio B) :
    option (option strobj * rio B) :=
  load_bind (rdbLoadEncodedStringObject env rdb) (fun l rdb =>
  match l with
  | LoadedObj o => o ← tryObjectEncodingEx (undef env) (no_shared_integers env) o 1; Some (Some o, rdb)
  | _ => None
  end).

(** What RESTORE makes of a payload: [None] inside when it is refused.  Only
    strings are loaded; for the other types the outcome is left open. *)
Definition restore_string (little skip : bool) (addr : Z) (env : rdb_env) (p : list Z) : option (option strobj) :=
  '(ok, _) ← verifyDumpPayload little skip addr p;
  if negb ok then Some None
  else
    '(t, payload) ← rdbLoadObjectType (rioInitWithBuffer p);
    match t with
    | Some t =>
        if t =? RDB_TYPE_STRING
        then '(o, _) ← rdbLoadObject_string env payload; Some o
        else None
    | None => Some None
    end.

(** ** What saving writes *)

(** The strings in an object, as they are written. *)
Definition saved_strings (o : robj) : option (list (list Z)) :=
  match o with
  | ObjString o => Some [str_value o]
  | ObjListQuicklist nodes => Some (omap (fun n => match snd n with NodeRaw e => Some e | _ => None end) nodes)
  | ObjListListpack lp | ObjSetListpack lp | ObjZsetListpack lp | ObjHashListpack lp =>
      l ← lpBytes lp; data ← slice lp 0 l; Some [data]
  | ObjSetHt members => Some members
  | ObjSetIntset iset => data ← slice (blob iset) 0 (intsetBlobLen iset); Some [data]
  | ObjZsetSkiplist nodes => Some (fst <$> nodes)
  | ObjHashHt pairs => Some (concat ((fun p => [fst p; snd p]) <$> pairs))
  end.

(** The sizes and the compressed bytes of a node are what the fields can hold. *)
Definition node_ok (n : Z * ql_entry) : Prop :=
  in_u 64 (fst n) /\
  match snd n with
  | NodeLzf data sz => Forall byteZ data /\ in_u 64 (Z.of_nat (length data)) /\ in_u 64 sz
  | NodeRaw _ => True
  end.

(** An object that can be saved: its strings are bytes in memory, and the
    listpack or intset block is as long as it says. *)
Definition robj_ok (env : rdb_env) (o : robj) : Prop :=
  match o with ObjString o => strobj_ok o | _ => True end /\
  match o with
  | ObjListQuicklist l => in_u 64 (Z.of_nat (length l)) /\ Forall node_ok l
  | ObjSetHt l => in_u 64 (Z.of_nat (length l))
  | ObjZsetSkiplist l => in_u 64 (Z.of_nat (length l))
  | ObjHashHt l => in_u 64 (Z.of_nat (length l))
  | _ => True
  end /\
  exists ss, saved_strings o = Some ss /\ Forall (fun s => Forall byteZ s /\ env_ok env s) ss.

Section Writes.
Context {B : Type} `{RioStream B} (env : rdb_env).

(** A step that writes some bytes and continues with a larger count. *)
Lemma writes_step (f : option (rio B) -> option (Z * option (rio B))) k e1 e2 n :
  writes f e1 (Z.of_nat (length e1)) -> writes (k (Z.of_nat (length e1))) e2 (n + Z.of_nat (length e1) + Z.of_nat (length e2)) ->
  writes (fun rdb => save_bind (f rdb) k) (e1 ++ e2) (n + Z.of_nat (length (e1 ++ e2))).
Proof.
  intros Hf Hk. rewrite length_app, Nat2Z.inj_add, Z.add_assoc.
  eapply writes_bind; [|exact Hf|exact Hk]. lia.
Qed.

Definition saves (f : option (rio B) -> option (Z * option (rio B))) : Prop :=
  exists e, Forall byteZ e /\ (0 < length e)%nat /\ writes f e (Z.of_nat (length e)).

Lemma string_bytes_nonempty s e : string_bytes s e -> (0 < length e)%nat.
Proof.
  intros []; cbn [length app]; try lia. unfold len_bytes. repeat case_zb; cbn [length app]; lia.
Qed.

Lemma rawstring_saves s : Forall byteZ s -> env_ok env s -> saves (fun rdb => rdbSaveRawString env rdb s).
Proof.
  intros Hs He. destruct (rdbSaveRawString_writes (B:=B) env s Hs He) as (e & H1 & H2 & H3).
  exists e. split; [done|]. split; [by eapply string_bytes_nonempty|done].
Qed.

(** A loop that adds to the count [n]. *)
Definition adds (f : option (rio B) -> Z -> option (Z * option (rio B))) : Prop :=
  exists e, Forall byteZ e /\ forall n, 0 <= n -> writes (fun rdb => f rdb n) e (n + Z.of_nat (length e)).

Lemma adds_ret : adds (fun rdb n => Some (n, rdb)).
Proof. exists []. split; [constructor|]. intros n Hn. rewrite Z.add_0_r. apply writes_ret. Qed.

Lemma adds_cons f (k : option (rio B) -> Z -> option (Z * option (rio B))) :
  saves f -> adds k -> adds (fun rdb n => save_bind (f rdb) (fun m rdb => k rdb (n + m))).
Proof.
  intros (e1 & Hb1 & _ & W1) (e2 & Hb2 & W2). exists (e1 ++ e2). split; [by apply Forall_app|].
  intros n Hn. apply writes_step; [done|]. apply W2. lia.
Qed.

Lemma saves_adds f (k : option (rio B) -> Z -> option (Z * option (rio B))) :
  saves f -> adds k -> saves (fun rdb => save_bind (f rdb) (fun m rdb => k rdb m)).
Proof.
  intros (e1 & Hb1 & Hl1 & W1) (e2 & Hb2 & W2). exists (e1 ++ e2). split; [by apply Forall_app|].
  split; [rewrite length_app; lia|]. rewrite length_app, Nat2Z.inj_add.
  eapply (writes_bind f); [|exact W1|]; [lia|]. apply W2. lia.
Qed.

Lemma adds_ext (f f' : option (rio B) -> Z -> option (Z * option (rio B))) :
  (forall rdb n, f' rdb n = f rdb n) -> adds f -> adds f'.
Proof.
  intros E (e & Hb & W). exists e. split; [done|]. intros n Hn.
  apply (writes_ext (fun rdb => f rdb n)); [intros; apply E|by apply W].
Qed.

Lemma len_saves n : in_u 64 n -> saves (fun rdb => rdbSaveLen rdb n).
Proof.
  intros Hn. exists (len_bytes n). split; [apply len_bytes_byte; apply Hn|].
  split; [unfold len_bytes; repeat case_zb; simpl; lia|by apply rdbSaveLen_writes].
Qed.

Lemma double_saves d : saves (fun rdb => rdbSaveBinaryDoubleValue rdb d).
Proof.
  exists (le_bytes 8 d). split; [apply le_bytes_byte|]. split; [rewrite length_le_bytes; lia|].
  apply writes_raw, le_bytes_byte.
Qed.

Lemma blob_saves data sz : Forall byteZ data -> in_u 64 (Z.of_nat (length data)) -> in_u 64 sz ->
  saves (fun rdb => rdbSaveLzfBlob rdb data sz).
Proof.
  intros Hb Hl Hz. eexists. split; [|split; [|by apply rdbSaveLzfBlob_writes]].
  - repeat (apply Forall_app; split); try done; [repeat constructor; vm_compute; congruence|..];
      apply len_bytes_byte; [apply Hl|apply Hz].
  - cbn [length app]. lia.
Qed.

Lemma members_adds members : Forall (fun s => Forall byteZ s /\ env_ok env s) members ->
  adds (fun rdb n => save_members env rdb n members).
Proof.
  induction 1 as [|s members [Hb He] _ IH]; [apply adds_ret|].
  cbn [save_members].
  apply (adds_cons (fun rdb => rdbSaveRawString env rdb s) (fun rdb n => save_members env rdb n members));
    [by apply rawstring_saves|exact IH].
Qed.

Lemma adds_cons2 f f2 (k : option (rio B) -> Z -> option (Z * option (rio B))) :
  saves f -> saves f2 -> adds k ->
  adds (fun rdb n => save_bind (f rdb) (fun n1 rdb => save_bind (f2 rdb) (fun n2 rdb => k rdb (n + n1 + n2)))).
Proof. intros H1 H2 H3. apply (adds_cons f _ H1 (adds_cons f2 _ H2 H3)). Qed.

Lemma quicklist_adds nodes : Forall node_ok nodes ->
  Forall (fun s => Forall byteZ s /\ env_ok env s) (omap (fun n => match snd n with NodeRaw e => Some e | _ => None end) nodes) ->
  adds (fun rdb n => save_quicklist env rdb n nodes).
Proof.
  intros Hn. induction Hn as [|[c e] nodes [Hc He] _ IH]; [intros _; apply adds_ret|]. intros Hs.
  cbn [save_quicklist]. apply (adds_cons2 (fun rdb => rdbSaveLen rdb c) (fun rdb => save_entry env rdb e)
    (fun rdb n => save_quicklist env rdb n nodes)); [by apply len_saves| |].
  - destruct e as [e|data sz]; simpl in Hs, He; [inversion_clear Hs as [|? ? [Hb Hv] _]; by apply rawstring_saves|].
    destruct He as (Hb & Hl & Hz). by apply blob_saves.
  - apply IH. destruct e; simpl in Hs; [by inversion_clear Hs|done].
Qed.

Lemma nodes_adds nodes : Forall (fun s => Forall byteZ s /\ env_ok env s) (fst <$> nodes) ->
  adds (fun rdb n => save_nodes env rdb n nodes).
Proof.
  induction nodes as [|[s d] nodes IH]; [intros _; apply adds_ret|]. rewrite fmap_cons, Forall_cons. intros [[Hb He] Hn].
  cbn [save_nodes].
  apply (adds_cons2 (fun rdb => rdbSaveRawString env rdb s) (fun rdb => rdbSaveBinaryDoubleValue rdb d)
    (fun rdb n => save_nodes env rdb n nodes));
    [by apply rawstring_saves|apply double_saves|by apply IH].
Qed.

Lemma fields_adds pairs : Forall (fun s => Forall byteZ s /\ env_ok env s) (concat ((fun p => [fst p; snd p]) <$> pairs)) ->
  adds (fun rdb n => save_fields env rdb n pairs).
Proof.
  induction pairs as [|[f v] pairs IH]; [intros _; apply adds_ret|].
  rewrite fmap_cons. cbn [concat app fst snd]. rewrite !Forall_cons. intros ([Hb He] & [Hb' He'] & Hn).
  cbn [save_fields].
  apply (adds_cons2 (fun rdb => rdbSaveRawString env rdb f) (fun rdb => rdbSaveRawString env rdb v)
    (fun rdb n => save_fields env rdb n pairs));
    [by apply rawstring_saves..|by apply IH].
Qed.

Lemma saves_ext (f f' : option (rio B) -> option (Z * option (rio B))) : (forall rdb, f' rdb = f rdb) -> saves f -> saves f'.
Proof. intros E (e & Hb & Hl & W). exists e. split; [done|]. split; [done|]. by apply (writes_ext f). Qed.

Lemma listpack_saves lp ss : (l ← lpBytes lp; data ← slice lp 0 l; Some [data]) = Some ss ->
  Forall (fun s => Forall byteZ s /\ env_ok env s) ss -> saves (fun rdb => save_listpack env rdb lp).
Proof.
  intros E Hss. unfold save_listpack. destruct (lpBytes lp) as [l|]; [|done]. cbn [mbind option_bind] in *.
  destruct (slice lp 0 l) as [data|]; [|done]. simplify_eq/=. inversion_clear Hss as [|? ? [Hb He] _].
  by apply rawstring_saves.
Qed.

(** Saving an object never fails and writes at least a byte. *)
Lemma rdbSaveObject_saves o : robj_ok env o -> saves (fun rdb => rdbSaveObject env rdb o).
Proof.
  intros (Hs & Hlen & ss & E & Hss). destruct o; simpl in E, Hlen, Hs |- *; simplify_eq.
  - inversion_clear Hss as [|? ? [Hb He] _]. destruct (rdbSaveStringObject_writes (B:=B) env o Hs He) as (e & H1 & H2 & H3).
    exists e. split; [done|]. split; [by eapply string_bytes_nonempty|done].
  - destruct Hlen. apply (saves_adds (fun rdb => rdbSaveLen rdb _) (fun rdb n => save_quicklist env rdb n nodes));
      [by apply len_saves|by apply quicklist_adds].
  - apply (saves_adds (fun rdb => rdbSaveLen rdb 1) (fun rdb n1 => save_bind (rdbSaveLen rdb QUICKLIST_NODE_CONTAINER_PACKED)
      (fun n2 rdb => save_bind (save_listpack env rdb lp) (fun n3 rdb => Some (n1 + n2 + n3, rdb)))));
      [by apply len_saves|].
    apply (adds_cons2 (fun rdb => rdbSaveLen rdb QUICKLIST_NODE_CONTAINER_PACKED) (fun rdb => save_listpack env rdb lp)
      (fun rdb n => Some (n, rdb))); [by apply len_saves|by eapply listpack_saves|apply adds_ret].
  - apply (saves_adds (fun rdb => rdbSaveLen rdb _) (fun rdb n => save_members env rdb n _));
      [by apply len_saves|by apply members_adds].
  - destruct (slice _ _ _) as [data|]; [|done]. simplify_eq/=. inversion_clear Hss as [|? ? [Hb He] _].
    by apply rawstring_saves.
  - by eapply listpack_saves.
  - by eapply listpack_saves.
  - apply (saves_adds (fun rdb => rdbSaveLen rdb _) (fun rdb n => save_nodes env rdb n nodes));
      [by apply len_saves|by apply nodes_adds].
  - by eapply listpack_saves.
  - apply (saves_adds (fun rdb => rdbSaveLen rdb _) (fun rdb n => save_fields env rdb n pairs));
      [by apply len_saves|by apply fields_adds].
Qed.

(** The type byte. *)
Definition type_byte (o : robj) : Z :=
  match o with
  | ObjString _ => 0 | ObjSetHt _ => 2 | ObjHashHt _ => 4 | ObjZsetSkiplist _ => 5 | ObjSetIntset _ => 11
  | ObjHashListpack _ => 16 | ObjZsetListpack _ => 17 | ObjListQuicklist _ | ObjListListpack _ => 18 | ObjSetListpack _ => 20
  end.

Lemma type_byte_ok o : byteZ (type_byte o) /\ rdbIsObjectType (type_byte o) = true.
Proof. by destruct o. Qed.

Lemma rdbSaveObjectType_writes o : writes (B:=B) (fun rdb => rdbSaveObjectType rdb o) [type_byte o] 1.
Proof.
  apply (writes_ext (fun rdb => rdbWriteRaw rdb [type_byte o])); [by destruct o|].
  apply (writes_raw [type_byte o]). constructor; [apply type_byte_ok|constructor].
Qed.
End Writes.

(** ** Payloads *)

Lemma crc_bytes little addr p : Forall byteZ p -> crc64 little 0 addr p = Some (crc64_spec 0 p).
Proof. intros Hp. apply crc64_eq; [split; vm_compute; congruence|done]. Qed.

(** The layout of a payload. *)
Definition payload_of (t : Z) (e : list Z) : list Z :=
  let p := (t :: e) ++ [11; 0] in p ++ le_bytes 8 (crc64_spec 0 p).

Lemma createDumpPayload_spec little addr env o e :
  Forall byteZ e -> (0 < length e)%nat -> writes (B:=rio_buffer) (fun rdb => rdbSaveObject env rdb o) e (Z.of_nat (length e)) ->
  createDumpPayload little addr env o = Some (payload_of (type_byte o) e).
Proof.
  intros Hb Hl [_ W]. destruct (rdbSaveObjectType_writes (B:=rio_buffer) o) as [_ W0].
  destruct (W0 _ _ (init_buffer_wf []) eq_refl) as (r0 & E0 & Hr0 & He0 & Hw0 & _).
  destruct (W _ _ Hr0 He0) as (r1 & E1 & _ & _ & Hw1 & _).
  unfold createDumpPayload. rewrite E0. cbn [mbind option_bind]. rewrite E1. cbn [mbind option_bind]. zb.
  change (rio_written (io ?r)) with (ptr (io r)) in Hw0, Hw1. rewrite Hw1, Hw0. simpl app at 1.
  rewrite crc_bytes; [done|]. repeat constructor; [apply type_byte_ok..|]. apply Forall_app. split; [done|].
  repeat constructor; vm_compute; congruence.
Qed.

(** The checksum at the end is right exactly when the whole has checksum 0. *)
Lemma crc_trailer d c : Forall byteZ d -> Forall byteZ c -> length c = 8%nat ->
  crc64_spec 0 (d ++ c) = 0 <-> le_bytes 8 (crc64_spec 0 d) = c.
Proof.
  intros Hd Hc Hl. assert (Hz : in_u 64 0) by (split; vm_compute; congruence). split.
  - intros E. rewrite crc64_spec_app, crc64_spec_word in E by done.
    pose proof (crc64_spec_in_u d 0 Hz Hd) as Hr. pose proof (le_val_in_u c Hc) as Hv. rewrite Hl in Hv.
    destruct (decide (crc64_spec 0 d = le_val c)) as [->|Hne]; [by rewrite <- Hl, le_bytes_val|].
    destruct (sbits_nonzero (8 * length c) (Z.lxor (crc64_spec 0 d) (le_val c))); [|by apply lxor_neq|done].
    by apply lxor_in_u; [lia|..].
  - intros <-. by apply crc64_spec_residue.
Qed.

(** What the check accepts: a version that is not newer, and a right checksum. *)
Lemma verifyDumpPayload_spec little addr d ver c : Forall byteZ (d ++ ver ++ c) -> length ver = 2%nat -> length c = 8%nat ->
  verifyDumpPayload little false addr (d ++ ver ++ c) =
    Some ((le_val ver <=? RDB_VERSION) && (crc64_spec 0 (d ++ ver ++ c) =? 0), Some (le_val ver)).
Proof.
  intros Hp Hv Hc. destruct ver as [|f0 [|f1 [|]]]; try done. set (p := d ++ [f0; f1] ++ c) in *.
  assert (Hl : length p = (length d + 10)%nat) by (unfold p; lens; lia).
  assert (get p (Z.of_nat (length d)) = Some f0) as G0 by (by apply get_app).
  assert (get p (Z.of_nat (length d) + 1) = Some f1) as G1.
  { unfold p. rewrite (app_assoc d [f0] (f1 :: c) : d ++ [f0; f1] ++ c = _). apply get_app. lens. lia. }
  assert (slice p 0 (Z.of_nat (length d) + 2) = Some (d ++ [f0; f1])) as S0.
  { unfold p. rewrite app_assoc. apply (slice_app []); [done|lens; lia]. }
  assert (slice p (Z.of_nat (length d) + 2) 8 = Some c) as S1.
  { pose proof (slice_app (d ++ [f0; f1]) c [] (Z.of_nat (length d) + 2) 8) as E.
    rewrite app_nil_r, <- app_assoc in E. apply E; lens; lia. }
  pose proof Hp as Hp'. unfold p in Hp. rewrite !Forall_app, !Forall_cons in Hp. destruct Hp as (Hbd & (Hb0 & Hb1 & _) & Hbc).
  unfold verifyDumpPayload. zb. replace (Z.of_nat (length p) - 10) with (Z.of_nat (length d)) by lia.
  replace (Z.of_nat (length p) - 8) with (Z.of_nat (length d) + 2) by lia.
  rewrite G0, G1, S0, S1. cbn [mbind option_bind].
  assert (Hver : u16 (Z.lor (Z.shiftl f1 8) f0) = le_val [f0; f1]).
  { rewrite Z.lor_comm, lor_le2 by done. apply wrap_id. unfold byteZ, in_u in *. cbn [le_val]. lia. }
  assert (Hdv : Forall byteZ (d ++ [f0; f1])) by (rewrite Forall_app, !Forall_cons; done).
  rewrite Hver, crc_bytes by done. cbn [mbind option_bind].
  case_zb; zb; [|done]. do 2 f_equal.
  unfold p. rewrite (app_assoc d [f0; f1] c).
  destruct (crc_trailer (d ++ [f0; f1]) c) as [T1 T2]; [done..|].
  case_bool_decide as E; [by rewrite T2|]. symmetry. apply Z.eqb_neq. tauto.
Qed.

(** The payload of a saved object is accepted. *)
Lemma verify_payload little addr t e : byteZ t -> Forall byteZ e ->
  Forall byteZ (payload_of t e) /\ verifyDumpPayload little false addr (payload_of t e) = Some (true, Some 11).
Proof.
  intros Ht He. assert (Hp : Forall byteZ ((t :: e) ++ [11; 0])).
  { apply Forall_app. split; [by constructor|]. repeat constructor; vm_compute; congruence. }
  assert (Hb : Forall byteZ (payload_of t e)) by (apply Forall_app; split; [done|apply le_bytes_byte]).
  split; [done|]. unfold payload_of in *. rewrite <- app_assoc in Hb |- *.
  rewrite verifyDumpPayload_spec by (done || by rewrite length_le_bytes). rewrite app_assoc.
  rewrite crc64_spec_residue by (done || split; vm_compute; congruence). done.
Qed.

(** A payload long enough for a footer, in parts. *)
Lemma split_payload (p : list Z) : (10 <= length p)%nat ->
  exists d ver c, p = d ++ ver ++ c /\ length ver = 2%nat /\ length c = 8%nat.
Proof.
  intros Hl. exists (take (length p - 10) p), (take 2 (drop (length p - 10) p)), (drop 2 (drop (length p - 10) p)).
  rewrite !take_drop. rewrite length_take, !length_drop. split; [done|]. lia.
Qed.

(** Accepted: long enough, a known version, and checksum 0 over the whole. *)
Lemma verify_accepts little addr p : Forall byteZ p ->
  exists ok v, verifyDumpPayload little false addr p = Some (ok, v) /\ (ok = true -> crc64_spec 0 p = 0).
Proof.
  intros Hp. destruct (decide (10 <= length p)%nat) as [Hl|Hl].
  - destruct (split_payload p Hl) as (d & ver & c & -> & Hv & Hc). eexists _, _.
    split; [by apply verifyDumpPayload_spec|]. lia.
  - exists false, None. unfold verifyDumpPayload. by zb.
Qed.

Lemma type_reads {B} `{RioStream B} t : byteZ t -> rdbIsObjectType t = true -> reads (B:=B) rdbLoadObjectType [t] (Some t).
Proof.
  intros Ht Hobj. unfold rdbLoadObjectType, rdbLoadType.
  apply (reads_last (fun rdb => load_bind (rioRead rdb 1) _) _ [t] t); [|intros r; by rewrite Hobj].
  by apply (reads_last (fun rdb => rioRead rdb 1) _ [t] [t]); [apply reads_rio|].
Qed.

(** The bytes of an object, in the case of a string a form of the string. *)
Lemma object_body env o : robj_ok env o -> exists e, Forall byteZ e /\ (0 < length e)%nat /\
  writes (B:=rio_buffer) (fun rdb => rdbSaveObject env rdb o) e (Z.of_nat (length e)) /\
  forall s, o = ObjString s -> strobj_ok s /\ string_bytes (str_value s) e.
Proof.
  intros Ho. assert ((exists s, o = ObjString s) \/ forall s, o <> ObjString s) as [[s ->]|Hn]
    by (destruct o; [left; by eexists|by right..]).
  - destruct Ho as (Hs & _ & ss & E & Hss). simpl in E. simplify_eq. inversion_clear Hss as [|? ? [Hb He] _].
    destruct (rdbSaveStringObject_writes (B:=rio_buffer) env s Hs He) as (e & H1 & H2 & H3).
    exists e. split; [done|]. split; [by eapply string_bytes_nonempty|]. split; [done|]. intros s' [= <-]. done.
  - destruct (rdbSaveObject_saves (B:=rio_buffer) env o Ho) as (e & H1 & H2 & H3). exists e.
    repeat (split; [done|]). intros s ->. by destruct (Hn s).
Qed.

(** Loading the body of a string. *)
Lemma rdbLoadObject_string_reads {B} `{RioStream B} env s e : strobj_ok s -> string_bytes (str_value s) e ->
  Z.of_nat (length (str_value s)) <= SDS_MAX_LEN ->
  (forall n, 0 <= n <= Z.of_nat (length (str_value s)) + 18 -> ztrymalloc env n = true) ->
  exists s', reads (B:=B) (rdbLoadObject_string env) e (Some s') /\ strobj_ok s' /\ str_value s' = str_value s.
Proof.
  intros Hs He Hl Ha. pose proof (str_value_bytes s Hs) as Hb.
  destruct (rdbGenericLoad_reads (B:=B) env RDB_LOAD_ENC _ _ He Hb Hl Ha) as (l & Hr & [_ Hk] & Hv).
  destruct l as [?|?|l]; [done|by destruct Hk|]. simpl in Hv. destruct Hk as (_ & _ & Hok).
  pose proof (tryObjectEncodingEx_value (undef env) (no_shared_integers env) l 1 Hok) as (s' & E & Hok' & Hv' & _).
  exists s'. rewrite Hv'. split; [|done]. unfold rdbLoadObject_string.
  eapply (reads_last (fun rdb => rdbLoadEncodedStringObject env rdb)); [exact Hr|]. intros r. cbv beta iota. by rewrite E.
Qed.

(** C16. DUMP, then RESTORE: the payload of any object that can be saved is made
    without a failed assertion, and its check accepts it on a machine of either
    byte order; the length computed without writing is that of the body; and
    a string is restored with its value, if memory for it and its header is
    available. *)
Theorem dump_restore_roundtrip (little little' : bool) (addr addr' : Z) (env env' : rdb_env) (o : robj) :
  robj_ok env o ->
  exists body p : list Z, rdbSavedObjectLen env o = Some (Z.of_nat (length body)) /\
    createDumpPayload little addr env o = Some p /\ length p = (length body + 11)%nat /\
    verifyDumpPayload little' false addr' p = Some (true, Some RDB_VERSION) /\
    forall s, o = ObjString s -> Z.of_nat (length (str_value s)) <= SDS_MAX_LEN ->
      (forall n, 0 <= n <= Z.of_nat (length (str_value s)) + 18 -> ztrymalloc env' n = true) ->
      exists s', restore_string little' false addr' env' p = Some (Some s') /\ strobj_ok s' /\ str_value s' = str_value s.
Proof.
  intros Ho. destruct (object_body env o Ho) as (e & Hb & Hl & W & Hstr).
  destruct (type_byte_ok o) as [Ht Hobj]. destruct (verify_payload little' addr' (type_byte o) e Ht Hb) as [Hp Hv].
  exists e, (payload_of (type_byte o) e). split.
  { unfold rdbSavedObjectLen. destruct W as [-> _]. cbn [mbind option_bind]. by zb. }
  split; [by apply createDumpPayload_spec|]. split; [unfold payload_of; lens; rewrite length_le_bytes; lia|].
  split; [done|]. intros s -> Hlen Ha. change (type_byte (ObjString s)) with 0 in *. destruct (Hstr s eq_refl) as [Hs Hsb].
  destruct (rdbLoadObject_string_reads (B:=rio_buffer) env' s e Hs Hsb Hlen Ha) as (s' & Hr & Hs' & Hv').
  exists s'. split; [|done]. unfold restore_string. rewrite Hv. cbn [mbind option_bind negb].
  destruct (type_reads (B:=rio_buffer) 0 Ht Hobj _ _ (e ++ [11; 0] ++ le_bytes 8 (crc64_spec 0 ((0 :: e) ++ [11; 0])))
    (init_buffer_wf (payload_of 0 e)) eq_refl) as (r1 & -> & Hr1 & He1 & Hu1 & _);
    [done|unfold payload_of; by rewrite <- app_assoc|].
  cbn [mbind option_bind]. destruct (fun H => Hr _ r1 _ Hr1 He1 H Hu1) as (r2 & E2 & _).
  - rewrite Hu1. unfold payload_of in Hp. rewrite <- app_assoc in Hp. by inversion_clear Hp.
  - change (0 =? RDB_TYPE_STRING) with true. cbv iota. by rewrite E2.
Qed.

(** C26. The check finds every burst of errors: if a payload is accepted, then
    changing any bytes within eight adjacent ones, the footer included, makes
    RESTORE refuse it. *)
Theorem verifyDumpPayload_detects (little little' : bool) (addr addr' : Z) (env : rdb_env) (a x y b : list Z) (v : option Z) :
  Forall byteZ (a ++ x ++ b) -> Forall byteZ y -> length x = length y -> (length x <= 8)%nat -> x <> y ->
  verifyDumpPayload little false addr (a ++ x ++ b) = Some (true, v) ->
  (exists v', verifyDumpPayload little' false addr' (a ++ y ++ b) = Some (false, v')) /\
  restore_string little' false addr' env (a ++ y ++ b) = Some None.
Proof.
  intros Hp Hy Hl H8 Hne Hv. destruct (verify_accepts little addr (a ++ x ++ b) Hp) as (ok & v1 & E1 & C1).
  assert (Hq : Forall byteZ (a ++ y ++ b)) by (rewrite !Forall_app in *; tauto).
  destruct (verify_accepts little' addr' (a ++ y ++ b) Hq) as (ok' & v2 & E2 & C2). unfold restore_string. rewrite E2.
  destruct ok'; [|by split; [exists v2|]]. exfalso.
  apply (crc64_spec_burst 0 a x y b); [split; vm_compute; congruence|done..|].
  rewrite C2 by done. apply C1. congruence.
Qed.

(** A payload of each kind of object, and the first of them corrupted. *)
Lemma dump_restore_roundtrip_witness :
  let env := Build_rdb_env true false (fun _ => true) (fun _ => 0) (fun _ => 0) 65536 in
  (exists p, createDumpPayload true 0 env (ObjString (StrRaw [97; 98])) = Some p /\
    exists s', restore_string false false 1 env p = Some (Some s') /\ str_value s' = [97; 98]) /\
  exists p, createDumpPayload true 0 env (ObjHashHt [([97], [49]); ([98], [50])]) = Some p /\
    verifyDumpPayload true false 0 p = Some (true, Some RDB_VERSION).
Proof.
  intros env.
  assert (Hok : forall s, Forall byteZ s -> (length s <= 4)%nat -> Forall byteZ s /\ env_ok env s).
  { intros s Hs Hl. split; [exact Hs|]. split; [|intros i; split; vm_compute; congruence].
    unfold address_ok, in_len. cbn [data_addr env]. lia. }
  split.
  - destruct (dump_restore_roundtrip true false 0 1 env env (ObjString (StrRaw [97; 98])))
      as (body & p & _ & H1 & _ & _ & H2).
    + split; [repeat constructor; vm_compute; congruence|]. split; [exact I|]. exists [[97; 98]].
      split; [reflexivity|]. repeat constructor; try (vm_compute; congruence); apply Hok; try (simpl; lia);
        repeat constructor; vm_compute; congruence.
    + exists p. split; [exact H1|]. destruct (H2 _ eq_refl) as (s' & H3 & _ & H4);
        [vm_compute; congruence|reflexivity|]. exists s'. split; [exact H3|exact H4].
  - destruct (dump_restore_roundtrip true true 0 0 env env (ObjHashHt [([97], [49]); ([98], [50])]))
      as (body & p & _ & H1 & _ & H2 & _).
    + split; [exact I|]. split; [split; vm_compute; congruence|]. exists [[97]; [49]; [98]; [50]]. split; [reflexivity|].
      repeat apply Forall_cons_2; try apply Forall_nil_2; apply Hok; try (simpl; lia);
        repeat constructor; vm_compute; congruence.
    + exists p. split; [exact H1|exact H2].
Defined.

Lemma verifyDumpPayload_detects_witness :
  let env := Build_rdb_env true false (fun _ => true) (fun _ => 0) (fun _ => 0) 65536 in
  exists a x b, createDumpPayload true 0 env (ObjString (StrInt 7)) = Some (a ++ x ++ b) /\
    restore_string true false 0 env (a ++ [8] ++ b) = Some None.
Proof.
  intros env.
  let c := eval vm_compute in (from_option (le_bytes 8) [] (crc64 true 0 0 [0; 192; 7; 11; 0])) in
  exists [0; 192], [7], (11 :: 0 :: c).
  split; [vm_compute; reflexivity|].
  eapply (verifyDumpPayload_detects true true 0 0 env [0; 192] [7] [8]).
  - repeat constructor; vm_compute; congruence.
  - repeat constructor; vm_compute; congruence.
  - reflexivity.
  - cbn [length]. lia.
  - congruence.
  - vm_compute. reflexivity.
Defined.
