(* ===== verification/RaxNode.v ===== *)
(** * Nodes of the radix tree ([rax.c], [rax.h])

    A node is one block: a header of four bytes with the bit fields, then the
    characters of the edges, padding up to the alignment of pointers, the
    pointers to the children and, when the node is a key with a value that is
    not NULL, the value.  [data] is the block behind the header, and every
    access to it is checked.  Addresses are 64-bit numbers; nodes live in a
    heap from addresses to nodes.  [rax_malloc] is [zmalloc], which does not
    return when memory is exhausted, so the branches for a NULL result are
    never taken and are left out; the addresses it chooses, whether a
    reallocation moves a block, and the content of fresh memory are the class
    [RaxAlloc].  [None] is an access outside a block or to a block that is not
    allocated, or a failed assertion. *)

From Stdlib Require Import ZArith Lia ZifyBool.
From stdpp Require Import base gmap numbers option list.
From S2P Require Import Prelude.

Local Open Scope Z_scope.

(** ** Data *)

Record raxNode := mk_rnode {
  iskey : bool;
  isnull : bool;
  iscompr : bool;
  rsize : Z;
  data : list Z
}.

Definition set_iskey (n : raxNode) (b : bool) : raxNode := mk_rnode b (isnull n) (iscompr n) (rsize n) (data n).
Definition set_isnull (n : raxNode) (b : bool) : raxNode := mk_rnode (iskey n) b (iscompr n) (rsize n) (data n).
Definition set_iscompr (n : raxNode) (b : bool) : raxNode := mk_rnode (iskey n) (isnull n) b (rsize n) (data n).
(** A bit field of 29 bits. *)
Definition set_size (n : raxNode) (x : Z) : raxNode := mk_rnode (iskey n) (isnull n) (iscompr n) (wrap 29 x) (data n).
Definition set_data (n : raxNode) (d : list Z) : raxNode := mk_rnode (iskey n) (isnull n) (iscompr n) (rsize n) d.

Notation heap := (gmap Z raxNode).
Notation RAX_NODE_MAX_SIZE := (Z.shiftl 1 29 - 1)%Z (only parsing).

Class RaxAlloc := {
  malloc_at : heap -> Z;
  realloc_at : heap -> Z -> Z;
  rax_undef : nat -> Z
}.

(** ** Layout: offsets from the start of the node *)

Definition raxPadding (nodesize : Z) : Z := Z.land (8 - (nodesize + 4) mod 8) 7.

Definition has_value (n : raxNode) : bool := iskey n && negb (isnull n).

Definition raxNodeCurrentLength (n : raxNode) : Z :=
  4 + rsize n + raxPadding (rsize n) + (if iscompr n then 8 else 8 * rsize n) + (if has_value n then 8 else 0).

Definition raxNodeLastChildPtr (n : raxNode) : Z :=
  raxNodeCurrentLength n - 8 - (if has_value n then 8 else 0).

Definition raxNodeFirstChildPtr (n : raxNode) : Z := 4 + rsize n + raxPadding (rsize n).

Definition node_read (n : raxNode) (off len : Z) : option (list Z) := slice (data n) (off - 4) len.
Definition node_write (n : raxNode) (off : Z) (bs : list Z) : option raxNode :=
  d ← blit (data n) (off - 4) bs; Some (set_data n d).
Definition node_move (n : raxNode) (dst src len : Z) : option raxNode :=
  d ← memmove (data n) (dst - 4) (src - 4) len; Some (set_data n d).

Definition read_ptr (n : raxNode) (off : Z) : option Z := bs ← node_read n off 8; Some (le_val bs).
Definition write_ptr (n : raxNode) (off p : Z) : option raxNode := node_write n off (le_bytes 8 p).

(** ** Values *)

Definition raxSetData (n : raxNode) (d : Z) : option raxNode :=
  let n := set_iskey n true in
  if negb (d =? 0) then
    let n := set_isnull n false in
    write_ptr n (raxNodeCurrentLength n - 8) d
  else Some (set_isnull n true).

Definition raxGetData (n : raxNode) : option Z :=
  if isnull n then Some 0 else read_ptr n (raxNodeCurrentLength n - 8).

Section RaxNode.
Context `{RaxAlloc}.

(** ** Allocation *)

(** A block of [nodesize] bytes whose header is not yet written. *)
Definition rax_malloc (H : heap) (nodesize : Z) : heap * Z :=
  let a := malloc_at H in
  (<[a := mk_rnode false false false 0 (rax_undef <$> seq 0 (Z.to_nat (nodesize - 4)))]> H, a).

Definition rax_realloc (H : heap) (a nodesize : Z) : option (heap * Z) :=
  n ← H !! a;
  let a' := realloc_at H a in
  Some (<[a' := set_data n (realloc rax_undef (data n) (nodesize - 4))]> (delete a H), a').

Definition rax_free (H : heap) (a : Z) : option heap := _ ← H !! a; Some (delete a H).

Definition upd_node (H : heap) (a : Z) (f : raxNode -> option raxNode) : option heap :=
  n ← H !! a; n ← f n; Some (<[a := n]> H).

Definition raxNewNode (H : heap) (children : Z) (datafield : bool) : heap * Z :=
  let nodesize := 4 + children + raxPadding children + 8 * children in
  let nodesize := if datafield then nodesize + 8 else nodesize in
  let a := malloc_at H in
  (<[a := mk_rnode false false false (wrap 29 children) (rax_undef <$> seq 0 (Z.to_nat (nodesize - 4)))]> H, a).

Definition raxReallocForData (H : heap) (a d : Z) : option (heap * Z) :=
  if d =? 0 then Some (H, a) else
  n ← H !! a; rax_realloc H a (raxNodeCurrentLength n + 8).

(** ** Children *)

(** The place of a pointer to a node: the head of the tree, or an offset in a node. *)
Inductive link := LHead | LSlot (a off : Z).

(** [for (pos = 0; pos < n->size; pos++) if (n->data[pos] > c) break;] *)
Fixpoint child_pos (cs : list Z) (c : Z) : Z :=
  match cs with
  | [] => 0
  | x :: cs => if x >? c then 0 else 1 + child_pos cs c
  end.

(** The bytes of [raxAddChild], on the node that has been reallocated. *)
Definition add_child (n : raxNode) (c child curlen newlen : Z) : option (raxNode * Z) :=
  cs ← node_read n 4 (rsize n);
  let pos := child_pos cs c in
  n ← (if has_value n then node_move n (newlen - 8) (curlen - 8) 8 else Some n);
  let shift := newlen - curlen - 8 in
  let src := 4 + rsize n + raxPadding (rsize n) + 8 * pos in
  n ← node_move n (src + shift + 8) src (8 * (rsize n - pos));
  n ← (if negb (shift =? 0) then
         let src := raxNodeFirstChildPtr n in node_move n (src + shift) src (8 * pos)
       else Some n);
  n ← node_move n (4 + pos + 1) (4 + pos) (rsize n - pos);
  n ← node_write n (4 + pos) [c];
  let n := set_size n (rsize n + 1) in
  n ← write_ptr n (raxNodeFirstChildPtr n + 8 * pos) child;
  Some (n, pos).

(** The heap, the node, the new child and the link to it. *)
Definition raxAddChild (H : heap) (a c : Z) : option (heap * Z * Z * link) :=
  n ← H !! a;
  if iscompr n then None else
  let curlen := raxNodeCurrentLength n in
  let newlen := raxNodeCurrentLength (set_size n (rsize n + 1)) in
  let '(H, child) := raxNewNode H 0 false in
  '(H, a) ← rax_realloc H a newlen;
  n ← H !! a;
  '(n, pos) ← add_child n c child curlen newlen;
  Some (<[a := n]> H, a, child, LSlot a (raxNodeFirstChildPtr n + 8 * pos)).

(** The heap, the node and the new child. *)
Definition raxCompressNode (H : heap) (a : Z) (s : list Z) : option (heap * Z * Z) :=
  n ← H !! a;
  if negb ((rsize n =? 0) && negb (iscompr n)) then None else
  let len := Z.of_nat (length s) in
  let '(H, child) := raxNewNode H 0 false in
  let newsize := 4 + len + raxPadding len + 8 in
  d ← (if iskey n then raxGetData n else Some 0);
  let newsize := if iskey n && negb (isnull n) then newsize + 8 else newsize in
  '(H, a) ← rax_realloc H a newsize;
  n ← H !! a;
  let n := set_size (set_iscompr n true) len in
  n ← node_write n 4 s;
  n ← (if iskey n then raxSetData n d else Some n);
  n ← write_ptr n (raxNodeLastChildPtr n) child;
  Some (<[a := n]> H, a, child).

(** The index of a pointer in the array of pointers at [off]; the code scans
    until it finds it. *)
Fixpoint ptr_index (fuel : nat) (n : raxNode) (off p : Z) : option Z :=
  match fuel with
  | O => None
  | S fuel =>
      q ← read_ptr n off;
      if q =? p then Some 0 else i ← ptr_index fuel n (off + 8) p; Some (1 + i)
  end.

Definition raxFindParentLink (H : heap) (parent child : Z) : option link :=
  n ← H !! parent;
  let cp := raxNodeFirstChildPtr n in
  i ← ptr_index (length (data n)) n cp child;
  Some (LSlot parent (cp + 8 * i)).

(** The bytes of [raxRemoveChild], before the reallocation. *)
Definition remove_child (n : raxNode) (child : Z) : option raxNode :=
  let cp := raxNodeFirstChildPtr n in
  i ← ptr_index (length (data n)) n cp child;
  let c := cp + 8 * i in
  let e := 4 + i in
  let taillen := rsize n - i - 1 in
  n ← node_move n e (e + 1) taillen;
  let shift := if (rsize n + 4) mod 8 =? 1 then 8 else 0 in
  n ← (if negb (shift =? 0) then node_move n (cp - shift) cp (8 * (rsize n - taillen - 1)) else Some n);
  let valuelen := if has_value n then 8 else 0 in
  n ← node_move n (c - shift) (c + 8) (8 * taillen + valuelen);
  Some (set_size n (rsize n - 1)).

Definition raxRemoveChild (H : heap) (parent child : Z) : option (heap * Z) :=
  n ← H !! parent;
  if iscompr n then
    d ← (if iskey n then raxGetData n else Some 0);
    let n := set_size (set_iscompr (set_isnull n false) false) 0 in
    n ← (if iskey n then raxSetData n d else Some n);
    Some (<[parent := n]> H, parent)
  else
    n ← remove_child n child;
    rax_realloc (<[parent := n]> H) parent (raxNodeCurrentLength n).
End RaxNode.
