(* ===== verification/RaxNodeProof.v ===== *)
(** * The layout of radix tree nodes

    [node_rep n key compr cs kids]: the block of [n] holds the characters [cs],
    the pointers [kids] and the value of [key], with the flags of the header to
    match.  The lemmas give what the operations on one node do to it. *)

From Stdlib Require Import ZArith Lia ZifyBool.
From stdpp Require Import base gmap numbers option list.
From S2P Require Import Prelude RaxNode.

Local Open Scope Z_scope.

(** ** Padding *)

Lemma raxPadding_mod x : raxPadding x = (8 - (x + 4) mod 8) mod 8.
Proof. unfold raxPadding. by apply (land_ones_mod _ 3). Qed.

Lemma raxPadding_range x : 0 <= raxPadding x <= 7.
Proof. rewrite raxPadding_mod. pose proof (Z.mod_pos_bound (8 - (x + 4) mod 8) 8). lia. Qed.

Lemma raxPadding_succ x : raxPadding (x + 1) = if raxPadding x =? 0 then 7 else raxPadding x - 1.
Proof.
  rewrite !raxPadding_mod. pose proof (Z.div_mod (x + 4) 8). pose proof (Z.mod_pos_bound (x + 4) 8).
  assert ((x + 1 + 4) mod 8 = if (x + 4) mod 8 =? 7 then 0 else (x + 4) mod 8 + 1) as ->.
  { destruct (Z.eqb_spec ((x + 4) mod 8) 7).
    - symmetry. apply (Z.mod_unique_pos _ _ ((x + 4) / 8 + 1)); lia.
    - symmetry. apply (Z.mod_unique_pos _ _ ((x + 4) / 8)); lia. }
  assert (forall r, 1 <= r <= 7 -> (8 - r) mod 8 = 8 - r) as Hs by (intros; apply Z.mod_small; lia).
  destruct (Z.eq_dec ((x + 4) mod 8) 0) as [E|]; [rewrite E; reflexivity|].
  rewrite (Hs ((x + 4) mod 8)) by lia. destruct (Z.eqb_spec ((x + 4) mod 8) 7) as [->|]; [reflexivity|].
  rewrite Hs by lia. zb. lia.
Qed.

Lemma raxPadding_7 x : ((x + 4) mod 8 =? 1) = (raxPadding x =? 7).
Proof.
  rewrite raxPadding_mod. pose proof (Z.mod_pos_bound (x + 4) 8).
  destruct (Z.eq_dec ((x + 4) mod 8) 0) as [E|]; [rewrite E; reflexivity|].
  rewrite (Z.mod_small (8 - (x + 4) mod 8)) by lia. lia.
Qed.

(** ** Layout *)

Definition ptrs (ps : list Z) : list Z := mjoin (le_bytes 8 <$> ps).

Lemma ptrs_cons p ps : ptrs (p :: ps) = le_bytes 8 p ++ ptrs ps.
Proof. done. Qed.

Lemma length_ptrs ps : length (ptrs ps) = (8 * length ps)%nat.
Proof. induction ps as [|p ps IH]; [done|]. rewrite ptrs_cons, length_app, IH, length_le_bytes. cbn [length]. lia. Qed.

Lemma ptrs_app ps qs : ptrs (ps ++ qs) = ptrs ps ++ ptrs qs.
Proof. unfold ptrs. by rewrite fmap_app, join_app. Qed.

Lemma le_ptr p : in_u 64 p -> le_val (le_bytes 8 p) = p.
Proof. intros. rewrite le_val_bytes. apply Z.mod_small. unfold in_u in *. lia. Qed.

Definition val_bytes (key : option Z) : list Z :=
  match key with Some v => if v =? 0 then [] else le_bytes 8 v | None => [] end.

Lemma length_val_bytes key : Z.of_nat (length (val_bytes key)) = match key with Some v => if v =? 0 then 0 else 8 | None => 0 end.
Proof. destruct key as [v|]; [|done]. simpl. by destruct (v =? 0). Qed.

Record layout (n : raxNode) (compr : bool) (cs P rest : list Z) : Prop := {
  lay_compr : iscompr n = compr;
  lay_size : rsize n = Z.of_nat (length cs);
  lay_max : Z.of_nat (length cs) < 2 ^ 29;
  lay_ptrs : Z.of_nat (length P) = if compr then 8 else 8 * Z.of_nat (length cs);
  lay_data : exists pad, data n = cs ++ pad ++ P ++ rest /\ Z.of_nat (length pad) = raxPadding (Z.of_nat (length cs))
}.

Record key_flags (n : raxNode) (key : option Z) : Prop := {
  kf_key : iskey n = bool_decide (is_Some key);
  kf_null : forall v, key = Some v -> isnull n = (v =? 0);
  kf_val : forall v, key = Some v -> in_u 64 v
}.

Record node_rep (n : raxNode) (key : option Z) (compr : bool) (cs kids : list Z) : Prop := {
  nr_flags : key_flags n key;
  nr_layout : exists slack, layout n compr cs (ptrs kids) (val_bytes key ++ slack);
  nr_chars : Forall byteZ cs;
  nr_kids : Forall (in_u 64) kids
}.

Lemma has_value_flags n key : key_flags n key -> (if has_value n then 8 else 0) = Z.of_nat (length (val_bytes key)).
Proof.
  intros [Hk Hn _]. rewrite length_val_bytes. unfold has_value. rewrite Hk. destruct key as [v|]; [|done].
  rewrite (Hn v eq_refl). simpl. by destruct (v =? 0).
Qed.

Lemma nr_size n key compr cs kids : node_rep n key compr cs kids -> rsize n = Z.of_nat (length cs).
Proof. intros [_ [? L] _ _]. by apply L. Qed.
Lemma nr_compr n key compr cs kids : node_rep n key compr cs kids -> iscompr n = compr.
Proof. intros [_ [? L] _ _]. by apply L. Qed.
Lemma nr_key n key compr cs kids : node_rep n key compr cs kids -> iskey n = bool_decide (is_Some key).
Proof. intros [F _ _ _]. by apply F. Qed.
Lemma nr_max n key compr cs kids : node_rep n key compr cs kids -> Z.of_nat (length cs) < 2 ^ 29.
Proof. intros [_ [? L] _ _]. by apply L. Qed.
Lemma nr_length n key compr cs kids : node_rep n key compr cs kids -> length kids = if compr then 1%nat else length cs.
Proof. intros [_ [? L] _ _]. pose proof (lay_ptrs _ _ _ _ _ L) as Hl. rewrite length_ptrs in Hl. destruct compr; lia. Qed.

Lemma current_length n compr cs P rest : layout n compr cs P rest ->
  raxNodeCurrentLength n = 4 + Z.of_nat (length cs) + raxPadding (Z.of_nat (length cs)) + Z.of_nat (length P) + (if has_value n then 8 else 0).
Proof. intros [Hc Hs _ Hp _]. unfold raxNodeCurrentLength. rewrite Hc, Hs, Hp. done. Qed.

Lemma read_chars n compr cs P rest : layout n compr cs P rest -> node_read n 4 (rsize n) = Some cs.
Proof. intros [_ Hs _ _ (pad & Hd & Hp)]. unfold node_read. rewrite Hd, Hs. by apply (slice_app [] cs). Qed.

(** The area of the pointers. *)
Lemma read_area n compr cs P1 P2 P3 rest off len : layout n compr cs (P1 ++ P2 ++ P3) rest ->
  off = raxNodeFirstChildPtr n + Z.of_nat (length P1) -> len = Z.of_nat (length P2) ->
  node_read n off len = Some P2.
Proof.
  intros [_ Hs _ _ (pad & Hd & Hp)] -> ->. unfold node_read, raxNodeFirstChildPtr. rewrite Hd, Hs.
  replace (cs ++ pad ++ (P1 ++ P2 ++ P3) ++ rest) with ((cs ++ pad ++ P1) ++ P2 ++ P3 ++ rest) by (by rewrite <- !app_assoc).
  apply slice_app; [rewrite !length_app; lia|done].
Qed.

Lemma write_area n compr cs P1 P2 P2' P3 rest off : layout n compr cs (P1 ++ P2 ++ P3) rest ->
  off = raxNodeFirstChildPtr n + Z.of_nat (length P1) -> length P2 = length P2' ->
  exists d, node_write n off P2' = Some (set_data n d) /\ layout (set_data n d) compr cs (P1 ++ P2' ++ P3) rest.
Proof.
  intros [Hc Hs Hm Hl (pad & Hd & Hp)] -> HP. unfold node_write, raxNodeFirstChildPtr. rewrite Hd, Hs.
  replace (cs ++ pad ++ (P1 ++ P2 ++ P3) ++ rest) with ((cs ++ pad ++ P1) ++ P2 ++ P3 ++ rest) by (by rewrite <- !app_assoc).
  rewrite (blit_app _ P2 P2') by (rewrite ?length_app; lia). cbn [mbind option_bind]. eexists. split; [done|].
  split; try done; cbn [rsize iscompr data set_data]; [rewrite !length_app in *; lia|]. exists pad. by rewrite <- !app_assoc.
Qed.

(** ** Values *)

Lemma raxGetData_spec n v compr cs kids : node_rep n (Some v) compr cs kids -> raxGetData n = Some v.
Proof.
  intros [F (slack & L) _ _]. unfold raxGetData. rewrite (kf_null _ _ F v eq_refl). pose proof (kf_val _ _ F v eq_refl) as Hv.
  destruct (Z.eqb_spec v 0) as [->|Hne]; [done|]. unfold read_ptr, node_read. rewrite (current_length _ _ _ _ _ L), (has_value_flags _ _ F).
  destruct L as [_ _ _ _ (pad & Hd & Hp)]. rewrite Hd. rewrite length_val_bytes. revert Hd. cbn [val_bytes].
  destruct (Z.eqb_spec v 0) as [|_]; [lia|]. intros _.
  replace (cs ++ pad ++ ptrs kids ++ le_bytes 8 v ++ slack) with ((cs ++ pad ++ ptrs kids) ++ le_bytes 8 v ++ slack) by (by rewrite <- !app_assoc).
  rewrite slice_app by (rewrite ?length_le_bytes, ?length_app; lia). cbn [mbind option_bind]. by rewrite le_ptr.
Qed.

Lemma raxSetData_layout n compr cs P rest d : layout n compr cs P rest -> in_u 64 d -> (d <> 0 -> 8 <= Z.of_nat (length rest)) ->
  exists n' slack, raxSetData n d = Some n' /\ layout n' compr cs P (val_bytes (Some d) ++ slack) /\ key_flags n' (Some d).
Proof.
  intros L Hd Hr. unfold raxSetData. destruct (Z.eqb_spec d 0) as [->|Hne]; cbn [negb].
  - eexists _, rest. split; [done|]. split; [by destruct L; split|]. by split; [done|intros ? [= <-]..].
  - set (n0 := set_isnull (set_iskey n true) false).
    assert (layout n0 compr cs P rest) as L0 by (by destruct L; split).
    rewrite (current_length _ _ _ _ _ L0). cbn [has_value n0 iskey isnull set_iskey set_isnull negb andb].
    destruct L0 as [Hc Hs Hm Hl (pad & Hdt & Hp)]. unfold write_ptr, node_write. rewrite Hdt.
    specialize (Hr Hne). rewrite <- (take_drop 8 rest).
    replace (cs ++ pad ++ P ++ take 8 rest ++ drop 8 rest) with ((cs ++ pad ++ P) ++ take 8 rest ++ drop 8 rest) by (by rewrite <- !app_assoc).
    rewrite (blit_app _ (take 8 rest) (le_bytes 8 d)) by (rewrite ?length_take, ?length_le_bytes, ?length_app; lia).
    cbn [mbind option_bind]. eexists _, (drop 8 rest). split; [done|]. split.
    + split; try done. exists pad. split; [|done]. cbn [val_bytes set_data data]. destruct (Z.eqb_spec d 0); [done|]. by rewrite <- !app_assoc.
    + split; [done| |by intros ? [= <-]]. intros ? [= <-]. cbn. lia.
Qed.

Lemma raxSetData_spec n key compr cs kids d : node_rep n key compr cs kids -> in_u 64 d ->
  (d <> 0 -> raxNodeCurrentLength n - (if has_value n then 8 else 0) + 8 <= 4 + Z.of_nat (length (data n))) ->
  exists n', raxSetData n d = Some n' /\ node_rep n' (Some d) compr cs kids.
Proof.
  intros [F (slack & L) Hcs Hk] Hd Hr. destruct (raxSetData_layout _ _ _ _ _ d L Hd) as (n' & slack' & E & L' & F').
  - intros Hne. specialize (Hr Hne). rewrite (current_length _ _ _ _ _ L) in Hr. destruct L as [_ _ _ _ (pad & Hdt & Hp)].
    rewrite Hdt, !length_app in Hr. rewrite length_app. lia.
  - exists n'. split; [done|]. split; [done|by exists slack'|done|done].
Qed.

(** Clearing the key leaves its value behind. *)
Lemma clear_key n key compr cs kids : node_rep n key compr cs kids -> node_rep (set_iskey n false) None compr cs kids.
Proof.
  intros [F (slack & L) Hcs Hk]. split; [by split|exists (val_bytes key ++ slack); by destruct L; split|done|done].
Qed.

(** ** Pointers *)

Lemma read_last n compr cs P p rest : layout n compr cs (P ++ le_bytes 8 p) rest -> in_u 64 p ->
  read_ptr n (raxNodeLastChildPtr n) = Some p.
Proof.
  intros L Hp. unfold read_ptr. rewrite (read_area n compr cs P (le_bytes 8 p) [] rest).
  - cbn [mbind option_bind]. by rewrite le_ptr.
  - by rewrite app_nil_r.
  - unfold raxNodeLastChildPtr, raxNodeFirstChildPtr. rewrite (current_length _ _ _ _ _ L), length_app, length_le_bytes, (lay_size _ _ _ _ _ L). lia.
  - by rewrite length_le_bytes.
Qed.

Lemma write_last n compr cs P J p rest : layout n compr cs (P ++ J) rest -> length J = 8%nat ->
  exists d, write_ptr n (raxNodeLastChildPtr n) p = Some (set_data n d) /\ layout (set_data n d) compr cs (P ++ le_bytes 8 p) rest.
Proof.
  intros L HJ. destruct (write_area n compr cs P J (le_bytes 8 p) [] rest (raxNodeLastChildPtr n)) as (d & E & L').
  - by rewrite app_nil_r.
  - unfold raxNodeLastChildPtr, raxNodeFirstChildPtr. rewrite (current_length _ _ _ _ _ L), length_app, (lay_size _ _ _ _ _ L). lia.
  - by rewrite length_le_bytes.
  - exists d. rewrite app_nil_r in L'. done.
Qed.

Lemma read_nth n compr cs l p r rest : layout n compr cs (ptrs (l ++ p :: r)) rest -> in_u 64 p ->
  read_ptr n (raxNodeFirstChildPtr n + 8 * Z.of_nat (length l)) = Some p.
Proof.
  intros L Hp. unfold read_ptr. rewrite (read_area n compr cs (ptrs l) (le_bytes 8 p) (ptrs r) rest).
  - cbn [mbind option_bind]. by rewrite le_ptr.
  - by rewrite ptrs_app, ptrs_cons in L.
  - rewrite length_ptrs. lia.
  - by rewrite length_le_bytes.
Qed.

Lemma write_nth n key compr cs l p r q : node_rep n key compr cs (l ++ p :: r) -> in_u 64 q ->
  exists n', write_ptr n (raxNodeFirstChildPtr n + 8 * Z.of_nat (length l)) q = Some n' /\ node_rep n' key compr cs (l ++ q :: r).
Proof.
  intros [F (slack & L) Hcs Hk] Hq. rewrite ptrs_app, ptrs_cons in L.
  destruct (write_area _ _ _ _ _ (le_bytes 8 q) _ _ (raxNodeFirstChildPtr n + 8 * Z.of_nat (length l)) L) as (d & E & L').
  - rewrite length_ptrs. lia.
  - by rewrite !length_le_bytes.
  - eexists. split; [exact E|]. split; [by destruct F; split|exists slack; by rewrite ptrs_app, ptrs_cons|done|].
    rewrite Forall_app, Forall_cons in *. tauto.
Qed.

Lemma ptr_index_spec n compr cs p r rest : in_u 64 p -> forall l l0 fuel, p ∉ l -> Forall (in_u 64) l ->
  layout n compr cs (ptrs (l0 ++ l ++ p :: r)) rest -> (length l < fuel)%nat ->
  ptr_index fuel n (raxNodeFirstChildPtr n + 8 * Z.of_nat (length l0)) p = Some (Z.of_nat (length l)).
Proof.
  intros Hp. induction l as [|q l IH]; intros l0 [|fuel] Hn Hu L Hf; try (simpl in Hf; lia); cbn [ptr_index].
  - rewrite (read_nth _ _ _ l0 p r rest L Hp). cbn [mbind option_bind]. by rewrite Z.eqb_refl.
  - apply Forall_cons in Hu as [Hq Hu]. rewrite not_elem_of_cons in Hn. destruct Hn as [Hpq Hn].
    rewrite (read_nth _ _ _ l0 q (l ++ p :: r) rest L Hq). cbn [mbind option_bind]. destruct (Z.eqb_spec q p); [congruence|].
    rewrite <- Z.add_assoc. replace (8 * Z.of_nat (length l0) + 8) with (8 * Z.of_nat (length (l0 ++ [q]))) by (rewrite length_app; simpl; lia).
    rewrite (IH (l0 ++ [q]) fuel Hn Hu); [cbn [mbind option_bind length]; f_equal; lia| |simpl in Hf; lia]. by rewrite <- app_assoc.
Qed.

Lemma layout_length n compr cs P rest : layout n compr cs P rest ->
  Z.of_nat (length (data n)) = Z.of_nat (length cs) + raxPadding (Z.of_nat (length cs)) + Z.of_nat (length P) + Z.of_nat (length rest).
Proof. intros [_ _ _ _ (pad & -> & Hp)]. rewrite !length_app. lia. Qed.

Lemma layout_room n compr cs P rest : layout n compr cs P rest -> (length P <= length (data n))%nat.
Proof. intros [_ _ _ _ (pad & -> & _)]. rewrite !length_app. lia. Qed.

Lemma raxFindParentLink_spec H parent n key compr cs l p r : H !! parent = Some n -> node_rep n key compr cs (l ++ p :: r) -> p ∉ l ->
  raxFindParentLink H parent p = Some (LSlot parent (raxNodeFirstChildPtr n + 8 * Z.of_nat (length l))).
Proof.
  intros E [_ (slack & L) _ Hk] Hn. apply Forall_app in Hk as [Hl [Hp _]%Forall_cons]. unfold raxFindParentLink. rewrite E. cbn [mbind option_bind].
  pose proof (ptr_index_spec n compr cs p r _ Hp l [] (length (data n)) Hn Hl L) as Hi. rewrite Z.mul_0_r, Z.add_0_r in Hi. rewrite Hi; [done|].
  pose proof (layout_room _ _ _ _ _ L) as Hr. rewrite length_ptrs, length_app in Hr. simpl in Hr. lia.
Qed.

(** ** Moves inside a block *)

Lemma memmove_right_in A B X D dst src n :
  src = Z.of_nat (length A) -> dst = Z.of_nat (length A + length X) -> n = Z.of_nat (length B) ->
  exists J, memmove (A ++ B ++ X ++ D) dst src n = Some (A ++ J ++ B ++ D) /\ length J = length X.
Proof.
  intros -> -> ->. unfold memmove. rewrite slice_app by done. cbn [mbind option_bind].
  exists (take (length X) (B ++ X)). rewrite length_take, length_app. split; [|lia].
  rewrite (app_assoc B), <- (take_drop (length X) (B ++ X)) at 1. rewrite <- app_assoc, (app_assoc A).
  rewrite (blit_app _ _ B); [by rewrite <- app_assoc| |]; rewrite ?length_app, ?length_take, ?length_drop, ?length_app; lia.
Qed.

Lemma memmove_left_in A B X D dst src n :
  dst = Z.of_nat (length A) -> src = Z.of_nat (length A + length X) -> n = Z.of_nat (length B) ->
  exists J, memmove (A ++ X ++ B ++ D) dst src n = Some (A ++ B ++ J ++ D) /\ length J = length X.
Proof.
  intros -> -> ->. unfold memmove.
  pose proof (slice_app (A ++ X) B D _ _ eq_refl eq_refl) as E. rewrite <- app_assoc, length_app in E. rewrite E. cbn [mbind option_bind].
  exists (drop (length B) (X ++ B)). rewrite length_drop, length_app. split; [|lia].
  rewrite (app_assoc X), <- (take_drop (length B) (X ++ B)) at 1. rewrite <- app_assoc.
  apply blit_app; [done|]. rewrite length_take, length_app. lia.
Qed.

Lemma node_move_right n A B X D dst src len : data n = A ++ B ++ X ++ D ->
  src = 4 + Z.of_nat (length A) -> dst = src + Z.of_nat (length X) -> len = Z.of_nat (length B) ->
  exists J, node_move n dst src len = Some (set_data n (A ++ J ++ B ++ D)) /\ length J = length X.
Proof.
  intros E -> -> ->. unfold node_move. rewrite E.
  destruct (memmove_right_in A B X D (4 + Z.of_nat (length A) + Z.of_nat (length X) - 4) (4 + Z.of_nat (length A) - 4) (Z.of_nat (length B))) as (J & EJ & HJ); [lia..|].
  exists J. rewrite EJ. done.
Qed.

Lemma node_move_left n A B X D dst src len : data n = A ++ X ++ B ++ D ->
  dst = 4 + Z.of_nat (length A) -> src = dst + Z.of_nat (length X) -> len = Z.of_nat (length B) ->
  exists J, node_move n dst src len = Some (set_data n (A ++ B ++ J ++ D)) /\ length J = length X.
Proof.
  intros E -> -> ->. unfold node_move. rewrite E.
  destruct (memmove_left_in A B X D (4 + Z.of_nat (length A) - 4) (4 + Z.of_nat (length A) + Z.of_nat (length X) - 4) (Z.of_nat (length B))) as (J & EJ & HJ); [lia..|].
  exists J. rewrite EJ. done.
Qed.

Lemma node_write_in n A X B off s : data n = A ++ X ++ B -> off = 4 + Z.of_nat (length A) -> length X = length s ->
  node_write n off s = Some (set_data n (A ++ s ++ B)).
Proof. intros E -> HX. unfold node_write. rewrite E, (blit_app A X s) by lia. done. Qed.

(** ** Adding a child *)

Lemma add_child_value n key A J curlen newlen : key_flags n key -> data n = A ++ val_bytes key ++ J ->
  curlen = 4 + Z.of_nat (length (A ++ val_bytes key)) -> newlen = curlen + Z.of_nat (length J) ->
  exists J', (if has_value n then node_move n (newlen - 8) (curlen - 8) 8 else Some n) = Some (set_data n (A ++ J' ++ val_bytes key)) /\
    length J' = length J.
Proof.
  intros F E Hcur Hnew. pose proof (has_value_flags n key F) as Hv. rewrite length_app in Hcur. destruct (has_value n).
  - destruct (node_move_right n A (val_bytes key) J [] (newlen - 8) (curlen - 8) 8) as (J' & EJ & HJ'); [by rewrite app_nil_r|lia..|].
    exists J'. by rewrite EJ, app_nil_r.
  - destruct (val_bytes key) eqn:Ev; [|simpl in Hv; lia]. exists J. split; [|done]. rewrite app_nil_l in E. rewrite app_nil_r, <- E. by destruct n.
Qed.

(** Moving a part to the right by [shift], which may be nothing. *)
Lemma node_shift_right n A B J D dst src len shift : data n = A ++ B ++ J ++ D -> src = 4 + Z.of_nat (length A) ->
  dst = src + shift -> len = Z.of_nat (length B) -> 0 <= shift <= Z.of_nat (length J) ->
  exists K J', (if negb (shift =? 0) then node_move n dst src len else Some n) = Some (set_data n (A ++ K ++ B ++ J' ++ D)) /\
    Z.of_nat (length K) = shift /\ Z.of_nat (length J') = Z.of_nat (length J) - shift.
Proof.
  intros E Hsrc Hdst Hlen Hsh. destruct (Z.eqb_spec shift 0) as [->|Hne]; cbn [negb].
  - exists [], J. split; [|simpl; lia]. rewrite app_nil_l, <- E. by destruct n.
  - rewrite <- (take_drop (Z.to_nat shift) J), <- app_assoc in E.
    destruct (node_move_right n A B (take (Z.to_nat shift) J) (drop (Z.to_nat shift) J ++ D) dst src len) as (K & EK & HK);
      [done|done|rewrite length_take; lia|done|].
    exists K, (drop (Z.to_nat shift) J). rewrite EK, HK, length_take, length_drop. split; [done|lia].
Qed.

Lemma add_child_spec n key cl cr kl kr c child J curlen newlen :
  key_flags n key -> layout n false (cl ++ cr) (ptrs (kl ++ kr)) (val_bytes key ++ J) -> length kl = length cl ->
  child_pos (cl ++ cr) c = Z.of_nat (length cl) -> Z.of_nat (length (cl ++ cr)) + 1 < 2 ^ 29 ->
  curlen = raxNodeCurrentLength n -> newlen = raxNodeCurrentLength (set_size n (rsize n + 1)) ->
  newlen = curlen + Z.of_nat (length J) ->
  exists n', add_child n c child curlen newlen = Some (n', Z.of_nat (length cl)) /\
    layout n' false (cl ++ c :: cr) (ptrs (kl ++ child :: kr)) (val_bytes key) /\ key_flags n' key.
Proof.
  intros F L Hl Hpos Hmax Hcur Hnew HJ. pose proof (lay_ptrs _ _ _ _ _ L) as HP. rewrite length_ptrs, !length_app in HP.
  pose proof (read_chars _ _ _ _ _ L) as Hrd.
  rewrite (current_length _ _ _ _ _ L), (has_value_flags _ _ F), length_ptrs, (length_app kl) in Hcur. destruct L as [Hc Hs _ _ (pad & Hd & Hp)].
  pose proof (length_app cl cr) as Hlen. set (sz := length (cl ++ cr)) in *.
  pose proof (raxPadding_succ (Z.of_nat sz)) as Hps. pose proof (raxPadding_range (Z.of_nat sz)) as Hpr.
  assert (Z.of_nat (length J) = 8 + raxPadding (Z.of_nat sz + 1) + 1 - raxPadding (Z.of_nat sz)) as HJ'.
  { revert Hnew. unfold raxNodeCurrentLength. change (has_value (set_size _ _)) with (has_value n). cbn [rsize iscompr set_size].
    rewrite Hs, Hc, (wrap_id 29), (has_value_flags _ _ F) by (unfold in_u; lia). lia. }
  rewrite ptrs_app, <- !app_assoc in Hd. unfold add_child. rewrite Hrd. cbn [mbind option_bind]. rewrite Hpos.
  destruct (add_child_value n key (cl ++ cr ++ pad ++ ptrs kl ++ ptrs kr) J curlen newlen) as (J1 & -> & HJ1);
    [done|rewrite Hd; by rewrite <- !app_assoc|rewrite Hcur, !length_app, !length_ptrs; lia|done|]. cbn [mbind option_bind rsize set_data].
  rewrite Hs, <- !app_assoc.
  edestruct (node_move_right (set_data n (cl ++ cr ++ pad ++ ptrs kl ++ ptrs kr ++ J1 ++ val_bytes key)) (cl ++ cr ++ pad ++ ptrs kl) (ptrs kr) J1 (val_bytes key))
    as (J2 & E & HJ2); [..|rewrite E; clear E]; [by rewrite <- !app_assoc|rewrite !length_app, length_ptrs; lia|lia|rewrite length_ptrs; lia|].
  cbn [mbind option_bind].
  edestruct (node_shift_right (set_data (set_data n (cl ++ cr ++ pad ++ ptrs kl ++ ptrs kr ++ J1 ++ val_bytes key)) ((cl ++ cr ++ pad ++ ptrs kl) ++ J2 ++ ptrs kr ++ val_bytes key)) (cl ++ cr ++ pad) (ptrs kl) J2 (ptrs kr ++ val_bytes key))
    as (K & J3 & E & HK & HJ3); [..|rewrite E; clear E];
    [by rewrite <- !app_assoc|unfold raxNodeFirstChildPtr; cbn [rsize set_data]; rewrite Hs, !length_app; lia|reflexivity|rewrite length_ptrs; lia|destruct (raxPadding _ =? 0); lia|].
  cbn [mbind option_bind rsize set_data]. rewrite Hs.
  pose proof (raxPadding_range (Z.of_nat sz + 1)). assert (1 <= Z.of_nat (length (pad ++ K))) as HpK by (rewrite length_app; lia).
  destruct (pad ++ K) as [|x Q] eqn:EQ; [simpl in HpK; lia|].
  assert (Z.of_nat (length Q) = raxPadding (Z.of_nat sz + 1)) as HQ.
  { assert (length (pad ++ K) = S (length Q)) as HQ by (by rewrite EQ). rewrite length_app in HQ. lia. }
  replace ((cl ++ cr ++ pad) ++ K ++ ptrs kl ++ J3 ++ ptrs kr ++ val_bytes key) with (cl ++ cr ++ [x] ++ Q ++ ptrs kl ++ J3 ++ ptrs kr ++ val_bytes key)
    by (rewrite <- !app_assoc, (app_assoc pad), EQ; done).
  edestruct (node_move_right (set_data (set_data (set_data n (cl ++ cr ++ pad ++ ptrs kl ++ ptrs kr ++ J1 ++ val_bytes key)) ((cl ++ cr ++ pad ++ ptrs kl) ++ J2 ++ ptrs kr ++ val_bytes key))
    (cl ++ cr ++ [x] ++ Q ++ ptrs kl ++ J3 ++ ptrs kr ++ val_bytes key)) cl cr [x]) as (X & E & HX); [reflexivity|..|rewrite E; clear E]; [reflexivity|reflexivity|lia|].
  cbn [mbind option_bind].
  erewrite node_write_in; [|reflexivity|reflexivity|done]. cbn [mbind option_bind rsize set_data set_size]. rewrite Hs.
  unfold write_ptr. erewrite (node_write_in _ (cl ++ [c] ++ cr ++ Q ++ ptrs kl) J3 (ptrs kr ++ val_bytes key));
    [|cbn [data set_data set_size]; by rewrite <- !app_assoc|..].
  - cbn [mbind option_bind]. eexists. split; [reflexivity|]. split; [|by destruct F; split].
    split; cbn [iscompr rsize set_data set_size data].
    + done.
    + rewrite wrap_id by (unfold in_u; lia). rewrite length_app in *. simpl. lia.
    + rewrite length_app in *. simpl. lia.
    + rewrite length_ptrs, !length_app in *. simpl. lia.
    + exists Q. rewrite ptrs_app, ptrs_cons. split; [by rewrite <- !app_assoc|]. rewrite HQ. f_equal. rewrite length_app. simpl. lia.
  - unfold raxNodeFirstChildPtr. cbn [rsize set_data set_size]. rewrite (wrap_id 29) by (unfold in_u; lia).
    rewrite !length_app, length_ptrs. simpl. lia.
  - rewrite length_le_bytes. lia.
Qed.

(** ** Removing a child *)

(** Closing the gap of the removed pointer, and of a word of padding when the
    removed character leaves one. *)
Lemma remove_child_moves n key cl cr X pad kl p kr slack P fp :
  data n = cl ++ cr ++ X ++ pad ++ ptrs kl ++ le_bytes 8 p ++ ptrs kr ++ val_bytes key ++ slack -> key_flags n key ->
  length X = 1%nat -> Z.of_nat (length pad) = P -> length kl = length cl -> length kr = length cr ->
  fp = 4 + Z.of_nat (length cl) + Z.of_nat (length cr) + 1 + P ->
  exists pad' J n0,
    (if negb ((if P =? 7 then 8 else 0) =? 0) then node_move n (fp - (if P =? 7 then 8 else 0)) fp (8 * Z.of_nat (length cl)) else Some n) = Some n0 /\
    has_value n0 = has_value n /\ rsize n0 = rsize n /\
    node_move n0 (fp + 8 * Z.of_nat (length cl) - (if P =? 7 then 8 else 0)) (fp + 8 * Z.of_nat (length cl) + 8)
      (8 * Z.of_nat (length cr) + (if has_value n then 8 else 0)) =
      Some (set_data n (cl ++ cr ++ pad' ++ ptrs kl ++ ptrs kr ++ val_bytes key ++ J)) /\
    Z.of_nat (length pad') = if P =? 7 then 0 else P + 1.
Proof.
  intros Hd F HX Hpad Hl Hr ->. destruct (Z.eqb_spec P 7) as [HP7|HP7]; cbn [negb Z.eqb].
  - edestruct (node_move_left n (cl ++ cr) (ptrs kl) (X ++ pad)) as (J8 & E & HJ8);
      [rewrite Hd, <- !app_assoc; reflexivity|..|rewrite E; clear E];
      [rewrite length_app; lia|rewrite length_app, HX; simpl; lia|rewrite length_ptrs; lia|].
    set (n0 := set_data n _).
    edestruct (node_move_left n0 (cl ++ cr ++ ptrs kl) (ptrs kr ++ val_bytes key) (J8 ++ le_bytes 8 p)) as (J & E & HJ);
      [cbn [n0 data set_data]; rewrite <- !app_assoc; reflexivity|..
      |exists [], (J ++ slack), n0; split_and!; [done..|etransitivity; [exact E|]; cbn [n0]; by rewrite <- !app_assoc|done]];
      [rewrite !length_app, length_ptrs; lia|rewrite length_app, HJ8, length_app, HX, length_le_bytes; simpl; lia
      |rewrite length_app, length_ptrs, (has_value_flags _ _ F); lia].
  - edestruct (node_move_left n (cl ++ cr ++ X ++ pad ++ ptrs kl) (ptrs kr ++ val_bytes key) (le_bytes 8 p)) as (J & E & HJ);
      [rewrite Hd, <- !app_assoc; reflexivity|..
      |exists (X ++ pad), (J ++ slack), n; split_and!; [done..|etransitivity; [exact E|]; by rewrite <- !app_assoc|rewrite length_app, HX; simpl; lia]];
      [rewrite !length_app, length_ptrs, HX; simpl; lia|rewrite length_le_bytes; simpl; lia|rewrite length_app, length_ptrs, (has_value_flags _ _ F); lia].
Qed.

Lemma remove_child_spec n key cl c cr kl p kr : node_rep n key false (cl ++ c :: cr) (kl ++ p :: kr) -> length kl = length cl -> p ∉ kl ->
  exists n', remove_child n p = Some n' /\ node_rep n' key false (cl ++ cr) (kl ++ kr).
Proof.
  intros Hrep Hl Hnp. pose proof Hrep as [F (slack & L) Hcs Hk].
  pose proof (nr_length _ _ _ _ _ Hrep) as Hkl. rewrite !length_app in Hkl. cbn [length] in Hkl.
  apply Forall_app in Hk as [Hkl' [Hp Hkr]%Forall_cons]. apply Forall_app in Hcs as [Hcl [Hc Hcr]%Forall_cons].
  pose proof (layout_room _ _ _ _ _ L) as Hroom. rewrite length_ptrs, length_app in Hroom.
  unfold remove_child. pose proof (ptr_index_spec n false (cl ++ c :: cr) p kr _ Hp kl [] (length (data n)) Hnp Hkl' L ltac:(simpl in Hroom; lia)) as Hi.
  rewrite Z.mul_0_r, Z.add_0_r in Hi. rewrite Hi. cbn [mbind option_bind]. rewrite Hl.
  destruct L as [Hcm Hs Hm _ (pad & Hd & Hpad)]. rewrite Hs. rewrite ptrs_app, ptrs_cons, <- !app_assoc in Hd. cbn [app] in Hd.
  assert (length (cl ++ c :: cr) = (length cl + length cr + 1)%nat) as Hlen by (rewrite length_app; simpl; lia).
  edestruct (node_move_left n cl cr [c] (pad ++ ptrs kl ++ le_bytes 8 p ++ ptrs kr ++ val_bytes key ++ slack)) as (X & E & HX);
    [rewrite Hd; reflexivity|..|rewrite E; clear E]; [reflexivity|reflexivity|lia|]. cbn [mbind option_bind].
  set (n1 := set_data n _). change (rsize n1) with (rsize n). rewrite Hs, raxPadding_7. set (P := raxPadding (Z.of_nat (length (cl ++ c :: cr)))) in *.
  replace (Z.of_nat (length (cl ++ c :: cr)) - (Z.of_nat (length (cl ++ c :: cr)) - Z.of_nat (length cl) - 1) - 1) with (Z.of_nat (length cl)) by lia.
  replace (Z.of_nat (length (cl ++ c :: cr)) - Z.of_nat (length cl) - 1) with (Z.of_nat (length cr)) by lia.
  destruct (remove_child_moves n1 key cl cr X pad kl p kr slack P (raxNodeFirstChildPtr n)) as (pad' & J & n0 & -> & Hv & Hs0 & E & Hpad');
    [done|by destruct F; split|done|done|done|lia|unfold raxNodeFirstChildPtr; rewrite Hs; fold P; lia|].
  cbn [mbind option_bind]. rewrite Hv. change (has_value n1) with (has_value n) in *. rewrite E. cbn [mbind option_bind]. eexists. split; [reflexivity|].
  split; [by destruct F; split| |by apply Forall_app|by apply Forall_app]. exists J.
  split; cbn [iscompr rsize data set_size set_data n1]; rewrite ?Hs, ?Hlen, ?length_ptrs, ?length_app, ?wrap_id by (unfold in_u; lia); try (done || lia).
  exists pad'. rewrite ptrs_app, <- !app_assoc. split; [done|]. rewrite Hpad'.
  pose proof (raxPadding_succ (Z.of_nat (length cl + length cr))) as Hsu. pose proof (raxPadding_range (Z.of_nat (length cl + length cr))) as Hra.
  replace (Z.of_nat (length cl + length cr) + 1) with (Z.of_nat (length (cl ++ c :: cr))) in Hsu by lia. fold P in Hsu.
  destruct (Z.eqb_spec (raxPadding (Z.of_nat (length cl + length cr))) 0); case_zb; lia.
Qed.

(** ** Reallocation *)

Lemma layout_realloc undef n compr cs P V slack len : layout n compr cs P (V ++ slack) ->
  4 + Z.of_nat (length (cs ++ P ++ V)) + raxPadding (Z.of_nat (length cs)) <= len ->
  exists slack', layout (set_data n (realloc undef (data n) (len - 4))) compr cs P (V ++ slack') /\
    Z.of_nat (length slack') = len - (4 + Z.of_nat (length (cs ++ P ++ V)) + raxPadding (Z.of_nat (length cs))).
Proof.
  intros [Hc Hs Hm Hp (pad & Hd & Hpad)] Hlen. rewrite !length_app in Hlen.
  assert (exists slack', realloc undef (data n) (len - 4) = cs ++ pad ++ P ++ V ++ slack') as (slack' & E).
  { unfold realloc. rewrite Hd. replace (cs ++ pad ++ P ++ V ++ slack) with ((cs ++ pad ++ P ++ V) ++ slack) by (by rewrite <- !app_assoc).
    rewrite take_app_ge by (rewrite !length_app; lia). rewrite <- !app_assoc. eauto. }
  exists slack'. split; [split; try done; exists pad; by rewrite E|].
  assert (length (realloc undef (data n) (len - 4)) = length (cs ++ pad ++ P ++ V ++ slack')) as Hl by (by rewrite E).
  pose proof (length_realloc undef (data n) (len - 4) ltac:(lia)). rewrite !length_app in *. lia.
Qed.

Lemma node_realloc undef n key compr cs kids len : node_rep n key compr cs kids -> raxNodeCurrentLength n <= len ->
  node_rep (set_data n (realloc undef (data n) (len - 4))) key compr cs kids /\
  4 + Z.of_nat (length (realloc undef (data n) (len - 4))) = len.
Proof.
  intros [F (slack & L) Hcs Hk] Hlen. rewrite (current_length _ _ _ _ _ L), (has_value_flags _ _ F) in Hlen.
  pose proof (raxPadding_range (Z.of_nat (length cs))).
  destruct (layout_realloc undef _ _ _ _ _ _ len L) as (slack' & L' & _); [rewrite !length_app; lia|].
  split; [|rewrite length_realloc by lia; lia]. split; [by destruct F; split|by exists slack'|done|done].
Qed.

(** Characters written to a block of the right size. *)
Lemma fill_layout n compr s N : iscompr n = compr -> rsize n = Z.of_nat (length s) -> Z.of_nat (length s) < 2 ^ 29 -> 0 <= N ->
  Z.of_nat (length (data n)) = Z.of_nat (length s) + raxPadding (Z.of_nat (length s)) + (if compr then 8 else 8 * Z.of_nat (length s)) + N ->
  exists P rest d, node_write n 4 s = Some (set_data n d) /\ layout (set_data n d) compr s P rest /\ Z.of_nat (length rest) = N.
Proof.
  intros Hc Hs Hm HN Hl. pose proof (raxPadding_range (Z.of_nat (length s))). set (k := if compr then 8 else 8 * Z.of_nat (length s)) in *.
  assert (0 <= k) by (unfold k; destruct compr; lia).
  pose proof (take_drop (length s) (data n)) as E. set (D := drop (length s) (data n)) in *.
  assert (Z.of_nat (length D) = raxPadding (Z.of_nat (length s)) + k + N) as HD by (unfold D; rewrite length_drop; lia).
  set (p := Z.to_nat (raxPadding (Z.of_nat (length s)))). rewrite <- (take_drop p D), <- (take_drop (Z.to_nat k) (drop p D)) in E.
  eexists (take (Z.to_nat k) (drop p D)), (drop (Z.to_nat k) (drop p D)), _. split.
  - apply (node_write_in n [] _ _ 4 s (eq_sym E) eq_refl). rewrite length_take. lia.
  - split; [split; try done|rewrite !length_drop; lia].
    + rewrite length_take, length_drop. unfold p. lia.
    + exists (take p D). split; [done|]. rewrite length_take. lia.
Qed.

(** ** The heap *)

Class RaxAllocOk `{RaxAlloc} := {
  malloc_ok : forall H : heap, Z.of_nat (size H) < 2 ^ 48 -> H !! malloc_at H = None /\ 0 < malloc_at H < 2 ^ 64;
  realloc_ok : forall (H : heap) a, is_Some (H !! a) -> Z.of_nat (size H) < 2 ^ 48 ->
    realloc_at H a = a \/ H !! realloc_at H a = None /\ 0 < realloc_at H a < 2 ^ 64
}.

Section Heap.
Context `{alloc : RaxAlloc} {alloc_ok : RaxAllocOk}.

Definition addr (a : Z) : Prop := 0 < a < 2 ^ 64.

Lemma addr_in_u a : addr a -> in_u 64 a.
Proof. unfold addr, in_u. lia. Qed.

Definition leaf_node : raxNode := mk_rnode false false false 0 (rax_undef <$> seq 0 4).

Lemma leaf_rep : node_rep leaf_node None false [] [].
Proof.
  split; [by split| |done|done]. exists []. split; try done. exists (rax_undef <$> seq 0 4). by rewrite app_nil_r.
Qed.

Lemma raxNewNode_0 H : raxNewNode H 0 false = (<[malloc_at H := leaf_node]> H, malloc_at H).
Proof. done. Qed.

(** What a reallocation did: [a'] is the same block or a fresh one. *)
Definition moved (H : heap) (a a' : Z) : Prop := a' = a \/ H !! a' = None.

Lemma rax_realloc_spec H a n key compr cs kids len : H !! a = Some n -> node_rep n key compr cs kids -> addr a ->
  Z.of_nat (size H) < 2 ^ 48 -> raxNodeCurrentLength n <= len ->
  exists a' n', rax_realloc H a len = Some (<[a' := n']> (delete a H), a') /\ moved H a a' /\ addr a' /\
    node_rep n' key compr cs kids /\ 4 + Z.of_nat (length (data n')) = len /\ n' = set_data n (data n').
Proof.
  intros E Hrep Ha Hsz Hlen. unfold rax_realloc. rewrite E. cbn [mbind option_bind].
  destruct (node_realloc rax_undef n key compr cs kids len Hrep Hlen) as [Hrep' Hl].
  eexists _, _. split; [reflexivity|]. destruct (realloc_ok H a ltac:(eauto) Hsz) as [->|[Hn Hb]]; (split; [by (left + right)|]); (split; [done|]); done.
Qed.

Lemma raxReallocForData_spec H a n key compr cs kids d : H !! a = Some n -> node_rep n key compr cs kids -> addr a ->
  Z.of_nat (size H) < 2 ^ 48 -> in_u 64 d -> has_value n = false ->
  exists a' n', raxReallocForData H a d = Some (<[a' := n']> (delete a H), a') /\ moved H a a' /\ addr a' /\
    node_rep n' key compr cs kids /\ exists n'', raxSetData n' d = Some n'' /\ node_rep n'' (Some d) compr cs kids.
Proof.
  intros E Hrep Ha Hsz Hd Hv. unfold raxReallocForData. destruct (Z.eqb_spec d 0) as [->|Hne].
  - exists a, n. rewrite insert_delete_id by done. split; [done|]. split; [by left|]. split; [done|]. split; [done|].
    apply (raxSetData_spec n key compr cs kids 0); [done|done|lia].
  - rewrite E. cbn [mbind option_bind].
    destruct (rax_realloc_spec H a n key compr cs kids (raxNodeCurrentLength n + 8) E Hrep Ha Hsz ltac:(lia)) as (a' & n' & -> & Hm & Ha' & Hrep' & Hl & En).
    exists a', n'. split; [done|]. split; [done|]. split; [done|]. split; [done|].
    apply (raxSetData_spec n' key compr cs kids d); [done|done|]. intros _. rewrite Hl, En. unfold raxNodeCurrentLength, has_value in *. cbn. rewrite Hv. lia.
Qed.

Lemma child_pos_range cs c : 0 <= child_pos cs c <= Z.of_nat (length cs).
Proof. induction cs as [|x cs IH]; simpl; [lia|]. destruct (x >? c); lia. Qed.

Lemma raxAddChild_spec H a n key cs kids c (k := Z.to_nat (child_pos cs c)) :
  H !! a = Some n -> node_rep n key false cs kids -> addr a -> Z.of_nat (size H) + 1 < 2 ^ 48 -> Z.of_nat (length cs) + 1 < 2 ^ 29 -> byteZ c ->
  exists a' child n', raxAddChild H a c =
      Some (<[a' := n']> (delete a (<[child := leaf_node]> H)), a', child, LSlot a' (raxNodeFirstChildPtr n' + 8 * child_pos cs c)) /\
    H !! child = None /\ addr child /\ moved H a a' /\ a' <> child /\ addr a' /\
    node_rep n' key false (take k cs ++ c :: drop k cs) (take k kids ++ child :: drop k kids).
Proof.
  intros E Hrep Ha Hsz Hlen Hc. unfold raxAddChild. rewrite E. cbn [mbind option_bind]. rewrite (nr_compr _ _ _ _ _ Hrep), raxNewNode_0.
  destruct (malloc_ok H ltac:(lia)) as [Hch Hca]. set (child := malloc_at H) in *.
  assert (a <> child) by congruence. pose proof (child_pos_range cs c) as Hpos.
  pose proof (nr_length _ _ _ _ _ Hrep) as Hkl. cbn in Hkl.
  set (newlen := raxNodeCurrentLength (set_size n (rsize n + 1))).
  assert (raxNodeCurrentLength n <= newlen) as Hle.
  { unfold newlen, raxNodeCurrentLength. change (has_value (set_size _ _)) with (has_value n). cbn [rsize iscompr set_size].
    rewrite (nr_compr _ _ _ _ _ Hrep), (nr_size _ _ _ _ _ Hrep), wrap_id by (unfold in_u; lia).
    pose proof (raxPadding_range (Z.of_nat (length cs) + 1)). pose proof (raxPadding_range (Z.of_nat (length cs))). lia. }
  destruct (rax_realloc_spec (<[child := leaf_node]> H) a n key false cs kids newlen) as (a' & n1 & -> & Hm & Ha' & Hrep1 & Hl1 & En1);
    [by rewrite lookup_insert_ne by done|done|done|rewrite map_size_insert_None by done; lia|done|].
  cbn [mbind option_bind]. rewrite lookup_insert_eq. cbn [mbind option_bind].
  destruct Hrep1 as [F1 (J & L1) Hcs Hks]. rewrite <- (take_drop k cs), <- (take_drop k kids) in L1.
  destruct (add_child_spec n1 key (take k cs) (drop k cs) (take k kids) (drop k kids) c child J (raxNodeCurrentLength n) newlen) as (n2 & -> & L2 & F2).
  - done.
  - done.
  - rewrite !length_take, Hkl. done.
  - rewrite take_drop, length_take. unfold k. lia.
  - by rewrite take_drop.
  - rewrite En1. done.
  - rewrite En1. done.
  - pose proof (current_length _ _ _ _ _ L1) as Hcl. replace (raxNodeCurrentLength n) with (raxNodeCurrentLength n1) by (by rewrite En1).
    rewrite Hcl, (has_value_flags _ _ F1). pose proof (layout_length _ _ _ _ _ L1) as Hll. rewrite (length_app (val_bytes key)) in Hll. lia.
  - cbn [mbind option_bind]. rewrite insert_insert_eq. exists a', child, n2.
    replace (Z.of_nat (length (take k cs))) with (child_pos cs c) by (rewrite length_take; unfold k; lia). split; [done|]. split; [done|]. split; [done|].
    destruct Hm as [->|Hm]; [split; [by left|]; split; [done|]|rewrite lookup_insert_None in Hm; destruct Hm; split; [by right|]; split; [done|]]; (split; [done|]).
    all: split; [done|exists []; by rewrite app_nil_r| |]; rewrite Forall_app, Forall_cons; split_and!; try (by apply Forall_take || by apply Forall_drop); done || by apply addr_in_u.
Qed.

(** Restoring the key of a node whose characters have been replaced. *)
Lemma restore_key n key compr cs P rest : layout n compr cs P rest -> iskey n = bool_decide (is_Some key) ->
  (forall v, key = Some v -> in_u 64 v) -> Z.of_nat (length (val_bytes key)) <= Z.of_nat (length rest) ->
  exists n' slack, (if iskey n then raxSetData n (default 0 key) else Some n) = Some n' /\
    layout n' compr cs P (val_bytes key ++ slack) /\ key_flags n' key.
Proof.
  intros L Hk Hv Hr. rewrite Hk. destruct key as [v|]; cbn [bool_decide].
  - rewrite bool_decide_true by eauto. cbn [default from_option id]. apply (raxSetData_layout n compr cs P rest v L (Hv v eq_refl)).
    intros Hne. rewrite length_val_bytes in Hr. destruct (Z.eqb_spec v 0); [done|lia].
  - exists n, rest. rewrite bool_decide_false by (by intros [? ?]). split; [done|]. split; [done|]. by split.
Qed.

Lemma get_key n key compr cs kids : node_rep n key compr cs kids ->
  (if iskey n then raxGetData n else Some 0) = Some (default 0 key).
Proof.
  intros Hrep. rewrite (nr_key _ _ _ _ _ Hrep). destruct key as [v|]; [|done]. rewrite bool_decide_true by eauto. by rewrite (raxGetData_spec _ _ _ _ _ Hrep).
Qed.

Lemma raxCompressNode_spec H a n key s : H !! a = Some n -> node_rep n key false [] [] -> addr a ->
  Z.of_nat (size H) + 1 < 2 ^ 48 -> Z.of_nat (length s) < 2 ^ 29 -> Forall byteZ s ->
  exists a' child n', raxCompressNode H a s = Some (<[a' := n']> (delete a (<[child := leaf_node]> H)), a', child) /\
    H !! child = None /\ addr child /\ moved H a a' /\ a' <> child /\ addr a' /\ node_rep n' key true s [child].
Proof.
  intros E Hrep Ha Hsz Hlen Hs. unfold raxCompressNode. rewrite E. cbn [mbind option_bind]. rewrite (nr_compr _ _ _ _ _ Hrep), (nr_size _ _ _ _ _ Hrep), raxNewNode_0.
  cbn [length Z.of_nat Z.eqb andb negb].
  destruct (malloc_ok H ltac:(lia)) as [Hch Hca]. set (child := malloc_at H) in *. assert (a <> child) by congruence.
  rewrite (get_key _ _ _ _ _ Hrep). cbn [mbind option_bind].
  change (iskey n && negb (isnull n)) with (has_value n). set (len := Z.of_nat (length s)). pose proof (raxPadding_range len).
  set (newsize := if has_value n then 4 + len + raxPadding len + 8 + 8 else 4 + len + raxPadding len + 8).
  pose proof (has_value_flags n key (nr_flags _ _ _ _ _ Hrep)) as Hv.
  assert (newsize = 4 + len + raxPadding len + 8 + Z.of_nat (length (val_bytes key))) as Hnew by (unfold newsize; destruct (has_value n); lia).
  destruct (rax_realloc_spec (<[child := leaf_node]> H) a n key false [] [] newsize) as (a' & n1 & -> & Hm & Ha' & Hrep1 & Hl1 & En1);
    [by rewrite lookup_insert_ne by done|done|done|rewrite map_size_insert_None by done; lia| |].
  { unfold raxNodeCurrentLength. rewrite (nr_compr _ _ _ _ _ Hrep), (nr_size _ _ _ _ _ Hrep), Hnew, Hv. change (raxPadding (Z.of_nat (length []))) with 4. simpl. lia. }
  cbn [mbind option_bind]. rewrite lookup_insert_eq. cbn [mbind option_bind].
  set (n2 := set_size (set_iscompr n1 true) len).
  destruct (fill_layout n2 true s (Z.of_nat (length (val_bytes key)))) as (P & rest & d & -> & L3 & Hr);
    [done|unfold n2, len; cbn; by rewrite wrap_id by (unfold in_u; lia)|done|lia|cbn [n2 data set_size set_iscompr]; fold len; lia|].
  cbn [mbind option_bind]. destruct (restore_key (set_data n2 d) key true s P rest L3) as (n4 & slack & -> & L4 & F4);
    [by apply (nr_key _ _ _ _ _ Hrep1)|by apply (nr_flags _ _ _ _ _ Hrep)|lia|]. cbn [mbind option_bind].
  destruct (write_last n4 true s [] P child (val_bytes key ++ slack) L4) as (d5 & -> & L5); [pose proof (lay_ptrs _ _ _ _ _ L4); simpl in *; lia|].
  cbn [mbind option_bind]. rewrite insert_insert_eq. eexists a', child, _. split; [reflexivity|]. split; [done|]. split; [done|].
  assert (node_rep (set_data n4 d5) key true s [child]) by (split; [by destruct F4; split|by exists slack|done|apply Forall_singleton, addr_in_u; done]).
  destruct Hm as [->|Hm]; [split_and!; try done; by left|]. rewrite lookup_insert_None in Hm. destruct Hm. split_and!; try done. by right.
Qed.

Lemma raxPadding_4 x : 0 <= x -> 4 <= x + raxPadding x.
Proof.
  intros. pose proof (raxPadding_range x). destruct (Z.le_gt_cases 4 x); [lia|].
  assert (x = 0 \/ x = 1 \/ x = 2 \/ x = 3) as [-> | [-> | [-> | ->]]] by lia; vm_compute; discriminate.
Qed.

Lemma raxRemoveChild_compr H a n key cs p : H !! a = Some n -> node_rep n key true cs [p] ->
  exists n', raxRemoveChild H a p = Some (<[a := n']> H, a) /\ node_rep n' key false [] [].
Proof.
  intros E Hrep. unfold raxRemoveChild. rewrite E. cbn [mbind option_bind]. rewrite (nr_compr _ _ _ _ _ Hrep), (get_key _ _ _ _ _ Hrep). cbn [mbind option_bind].
  set (n0 := set_size _ _). destruct Hrep as [F (slack & L) _ _]. pose proof (layout_length _ _ _ _ _ L) as Hl. rewrite !length_app, length_ptrs in Hl.
  pose proof (raxPadding_4 (Z.of_nat (length cs)) ltac:(lia)).
  assert (layout n0 false [] [] (drop 4 (data n))) as L0.
  { split; try done. exists (take 4 (data n)). cbn [n0 data set_size set_iscompr set_isnull app]. split; [by rewrite take_drop|]. rewrite length_take. change (raxPadding _) with 4. simpl in Hl. lia. }
  destruct (restore_key n0 key false [] [] _ L0) as (n1 & slack' & -> & L1 & F1); [by apply F|by apply F|rewrite length_drop; simpl in Hl; lia|].
  cbn [mbind option_bind]. exists n1. split; [done|]. split; [done|by exists slack'|done|done].
Qed.

Lemma raxRemoveChild_node H a n key cl c cr kl p kr : H !! a = Some n -> node_rep n key false (cl ++ c :: cr) (kl ++ p :: kr) ->
  length kl = length cl -> p ∉ kl -> addr a -> Z.of_nat (size H) < 2 ^ 48 ->
  exists a' n', raxRemoveChild H a p = Some (<[a' := n']> (delete a H), a') /\ moved H a a' /\ addr a' /\ node_rep n' key false (cl ++ cr) (kl ++ kr).
Proof.
  intros E Hrep Hl Hp Ha Hsz. unfold raxRemoveChild. rewrite E. cbn [mbind option_bind]. rewrite (nr_compr _ _ _ _ _ Hrep).
  destruct (remove_child_spec _ _ _ _ _ _ _ _ Hrep Hl Hp) as (n1 & -> & Hrep1). cbn [mbind option_bind].
  destruct (rax_realloc_spec (<[a := n1]> H) a n1 key false (cl ++ cr) (kl ++ kr) (raxNodeCurrentLength n1)) as (a' & n' & -> & Hm & Ha' & Hrep' & _);
    [by rewrite lookup_insert_eq|done|done|rewrite map_size_insert_Some by eauto; lia|lia|].
  exists a', n'. rewrite delete_insert_eq. split; [done|]. split; [|done]. destruct Hm as [->|Hm]; [by left|]. rewrite lookup_insert_None in Hm. right. tauto.
Qed.
End Heap.
