(* ===== verification/Rax.v ===== *)
(** * The radix tree ([rax.c])

    Lookup, insertion and removal over a heap of nodes.  A pointer to a pointer
    (the parent link) is a [link]; every write through one is explicit, as is
    every release of a node, and an access to a released node makes the model
    fail.  The parent stack is a list, its top first; it grows without failing,
    as [zmalloc] does.  [numele] and [numnodes] count objects in memory and
    never wrap.  The value of a key is a pointer, 0 being NULL. *)

From Stdlib Require Import ZArith Lia ZifyBool.
From stdpp Require Import base gmap numbers option list.
From S2P Require Import Prelude RaxNode.

Local Open Scope Z_scope.

Record rax := mk_rax { rhead : Z; numele : Z; numnodes : Z }.

Definition set_head (r : rax) (a : Z) : rax := mk_rax a (numele r) (numnodes r).
Definition add_ele (r : rax) (k : Z) : rax := mk_rax (rhead r) (numele r + k) (numnodes r).
Definition add_nodes (r : rax) (k : Z) : rax := mk_rax (rhead r) (numele r) (numnodes r + k).

(** [memcpy(parentlink, &p, sizeof(p))] *)
Definition write_link (H : heap) (r : rax) (l : link) (p : Z) : option (heap * rax) :=
  match l with
  | LHead => Some (H, set_head r p)
  | LSlot a off => H ← upd_node H a (fun n => write_ptr n off p); Some (H, r)
  end.

(** Neither a key nor with other than one child: part of a chain. *)
Definition in_chain (n : raxNode) : bool := negb (iskey n || negb (iscompr n) && negb (rsize n =? 1)).

(** ** Walking *)

(** [for (j = 0; j < h->size && i < len; j++, i++) if (v[j] != s[i]) break;] *)
Fixpoint compr_match (v s : list Z) : nat :=
  match v, s with
  | x :: v, y :: s => if x =? y then S (compr_match v s) else O
  | _, _ => O
  end.

(** [for (j = 0; j < h->size; j++) if (v[j] == s[i]) break;] *)
Fixpoint edge_index (v : list Z) (c : Z) : option nat :=
  match v with
  | [] => None
  | x :: v => if x =? c then Some O else S <$> edge_index v c
  end.

(** What the walk returns: the characters consumed, the node it stopped at, the
    link to it, the split position and the parents. *)
Record walk := mk_walk { w_i : Z; w_stop : Z; w_link : link; w_j : Z; w_stack : list Z }.

(** [s] is what is left of the string. *)
Fixpoint raxLowWalk_loop (fuel : nat) (H : heap) (h : Z) (parentlink : link) (s : list Z) (i j : Z) (ts : list Z) : option walk :=
  match fuel with
  | O => None
  | S fuel =>
      n ← H !! h;
      let stop i j := Some (mk_walk i h parentlink (if iscompr n then j else 0) ts) in
      let next k s i :=
        let cp := raxNodeFirstChildPtr n + 8 * k in
        h' ← read_ptr n cp; raxLowWalk_loop fuel H h' (LSlot h cp) s i 0 (h :: ts) in
      match s with
      | [] => stop i j
      | c :: s' =>
          if rsize n =? 0 then stop i j else
          v ← node_read n 4 (rsize n);
          if iscompr n then
            let m := compr_match v s in
            if negb (Z.of_nat m =? rsize n) then stop (i + Z.of_nat m) (Z.of_nat m)
            else next 0 (drop m s) (i + Z.of_nat m)
          else
            match edge_index v c with
            | None => stop i (rsize n)
            | Some k => next (Z.of_nat k) s' (i + 1)
            end
      end
  end.

Definition raxLowWalk (H : heap) (r : rax) (s : list Z) : option walk :=
  raxLowWalk_loop (S (length s)) H (rhead r) LHead s 0 0 [].

(** ** Lookup *)

(** The inner [None] is [raxNotFound]. *)
Definition raxFind (H : heap) (r : rax) (s : list Z) : option (option Z) :=
  w ← raxLowWalk H r s;
  h ← H !! w_stop w;
  if negb (w_i w =? Z.of_nat (length s)) || (iscompr h && negb (w_j w =? 0)) || negb (iskey h) then Some None
  else d ← raxGetData h; Some (Some d).

Section Rax.
Context `{RaxAlloc}.

Definition raxNew (H : heap) : heap * rax :=
  let '(H, h) := raxNewNode H 0 false in (H, mk_rax h 0 1).

(** ** Insertion

    The results are the heap, the tree, what the function returns, and the old
    value when the key was there. *)

(** The node that stands for the key exists. *)
Definition insert_existing (H : heap) (r : rax) (h : Z) (parentlink : link) (d : Z) (overwrite : bool) :
    option (heap * rax * Z * option Z) :=
  n ← H !! h;
  '(H, r, h) ← (if negb (iskey n) || (isnull n && overwrite) then
                  '(H, h) ← raxReallocForData H h d;
                  '(H, r) ← write_link H r parentlink h; Some (H, r, h)
                else Some (H, r, h));
  n ← H !! h;
  if iskey n then
    old ← raxGetData n;
    H ← (if overwrite then upd_node H h (fun n => raxSetData n d) else Some H);
    Some (H, r, 0, Some old)
  else
    H ← upd_node H h (fun n => raxSetData n d);
    Some (H, add_ele r 1, 1, None).

(** The size of a node with one child. *)
Definition single_size (len : Z) (value : bool) : Z := 4 + len + raxPadding len + 8 + (if value then 8 else 0).

(** A node with the characters [cs] and one child. *)
Definition chain_node (n : raxNode) (cs : list Z) : option raxNode :=
  let len := Z.of_nat (length cs) in node_write (set_iscompr (set_size n len) (len >? 1)) 4 cs.

(** Step 3 of algorithm 1: the split node takes the place of the old one [n], or
    of its characters from [j] on, the others being in the trimmed node. *)
Definition split_top (H : heap) (r : rax) (n : raxNode) (v : list Z) (parentlink : link) (j splitnode trimmed : Z) :
    option (heap * rax * link) :=
  if j =? 0 then
    H ← (if iskey n then d ← raxGetData n; upd_node H splitnode (fun m => raxSetData m d) else Some H);
    '(H, r) ← write_link H r parentlink splitnode;
    Some (H, r, parentlink)
  else
    t ← H !! trimmed;
    t ← chain_node t (take (Z.to_nat j) v);
    let t := set_isnull (set_iskey t (iskey n)) (isnull n) in
    t ← (if has_value n then d ← raxGetData n; raxSetData t d else Some t);
    let cp := raxNodeLastChildPtr t in
    t ← write_ptr t cp splitnode;
    '(H, r) ← write_link (<[trimmed := t]> H) r parentlink trimmed;
    Some (H, add_nodes r 1, LSlot trimmed cp).

(** Step 4: the node for the characters behind the split character. *)
Definition split_postfix (H : heap) (r : rax) (cs : list Z) (next postfix : Z) : option (heap * rax * Z) :=
  if negb (Z.of_nat (length cs) =? 0) then
    p ← H !! postfix;
    p ← chain_node (set_isnull (set_iskey p false) false) cs;
    p ← write_ptr p (raxNodeLastChildPtr p) next;
    Some (<[postfix := p]> H, add_nodes r 1, postfix)
  else Some (H, r, next).

(** Algorithm 1: a mismatch at position [j] of the compressed node [h].  The
    results are the heap, the tree, the split node and the link to it. *)
Definition insert_split (H : heap) (r : rax) (h : Z) (parentlink : link) (j : Z) : option (heap * rax * Z * link) :=
  n ← H !! h;
  next ← read_ptr n (raxNodeLastChildPtr n);
  v ← node_read n 4 (rsize n);
  let trimmedlen := j in
  let postfixlen := rsize n - j - 1 in
  let split_node_is_key := (trimmedlen =? 0) && iskey n && negb (isnull n) in
  let '(H, splitnode) := raxNewNode H 1 split_node_is_key in
  let '(H, trimmed) := if negb (trimmedlen =? 0) then rax_malloc H (single_size trimmedlen (has_value n)) else (H, 0) in
  let '(H, postfix) := if negb (postfixlen =? 0) then rax_malloc H (single_size postfixlen false) else (H, 0) in
  c ← get v j;
  H ← upd_node H splitnode (fun m => node_write m 4 [c]);
  '(H, r, parentlink) ← split_top H r n v parentlink j splitnode trimmed;
  '(H, r, postfix) ← split_postfix H r (drop (Z.to_nat j + 1) v) next postfix;
  H ← upd_node H splitnode (fun m => write_ptr m (raxNodeLastChildPtr m) postfix);
  H ← rax_free H h;
  Some (H, r, splitnode, parentlink).

(** Algorithm 2: the key ends at position [j] of the compressed node [h]. *)
Definition insert_cut (H : heap) (r : rax) (h : Z) (parentlink : link) (j d : Z) : option (heap * rax * Z * option Z) :=
  n ← H !! h;
  let postfixlen := rsize n - j in
  let '(H, postfix) := rax_malloc H (single_size postfixlen (negb (d =? 0))) in
  let '(H, trimmed) := rax_malloc H (single_size j (has_value n)) in
  next ← read_ptr n (raxNodeLastChildPtr n);
  v ← node_read n 4 (rsize n);
  p ← H !! postfix;
  p ← chain_node (set_isnull (set_iskey p true) false) (drop (Z.to_nat j) v);
  p ← raxSetData p d;
  p ← write_ptr p (raxNodeLastChildPtr p) next;
  t ← H !! trimmed;
  t ← chain_node (set_isnull (set_iskey t false) false) (take (Z.to_nat j) v);
  '(H, r) ← write_link (<[trimmed := t]> (<[postfix := p]> H)) (add_nodes r 1) parentlink trimmed;
  H ← (if iskey n then aux ← raxGetData n; upd_node H trimmed (fun t => raxSetData t aux) else Some H);
  H ← upd_node H trimmed (fun t => write_ptr t (raxNodeLastChildPtr t) postfix);
  H ← rax_free H h;
  Some (H, add_ele r 1, 1, None).

(** The missing nodes: [while(i < len)]. *)
Fixpoint insert_nodes (fuel : nat) (H : heap) (r : rax) (h : Z) (parentlink : link) (s : list Z) : option (heap * rax * Z * link) :=
  match fuel with
  | O => None
  | S fuel =>
      match s with
      | [] => Some (H, r, h, parentlink)
      | c :: s' =>
          n ← H !! h;
          let len := Z.of_nat (length s) in
          if (rsize n =? 0) && (len >? 1) then
            let comprsize := if len >? RAX_NODE_MAX_SIZE then RAX_NODE_MAX_SIZE else len in
            '(H, h, child) ← raxCompressNode H h (take (Z.to_nat comprsize) s);
            '(H, r) ← write_link H r parentlink h;
            m ← H !! h;
            insert_nodes fuel H (add_nodes r 1) child (LSlot h (raxNodeLastChildPtr m)) (drop (Z.to_nat comprsize) s)
          else
            '(H, h, child, new_parentlink) ← raxAddChild H h c;
            '(H, r) ← write_link H r parentlink h;
            insert_nodes fuel H (add_nodes r 1) child new_parentlink s'
      end
  end.

Definition insert_new (H : heap) (r : rax) (h : Z) (parentlink : link) (s : list Z) (d : Z) : option (heap * rax * Z * option Z) :=
  '(H, r, h, parentlink) ← insert_nodes (S (length s)) H r h parentlink s;
  '(H, h) ← raxReallocForData H h d;
  n ← H !! h;
  let r := if iskey n then r else add_ele r 1 in
  H ← upd_node H h (fun n => raxSetData n d);
  '(H, r) ← write_link H r parentlink h;
  Some (H, r, 1, None).

Definition raxGenericInsert (H : heap) (r : rax) (s : list Z) (d : Z) (overwrite : bool) : option (heap * rax * Z * option Z) :=
  w ← raxLowWalk H r s;
  let '(i, h, parentlink, j) := (w_i w, w_stop w, w_link w, w_j w) in
  n ← H !! h;
  let len := Z.of_nat (length s) in
  if (i =? len) && (negb (iscompr n) || (j =? 0)) then insert_existing H r h parentlink d overwrite
  else if iscompr n && negb (i =? len) then
    '(H, r, h, parentlink) ← insert_split H r h parentlink j;
    insert_new H r h parentlink (drop (Z.to_nat i) s) d
  else if iscompr n && (i =? len) then insert_cut H r h parentlink j d
  else insert_new H r h parentlink (drop (Z.to_nat i) s) d.

Definition raxInsert (H : heap) (r : rax) (s : list Z) (d : Z) : option (heap * rax * Z * option Z) := raxGenericInsert H r s d true.
Definition raxTryInsert (H : heap) (r : rax) (s : list Z) (d : Z) : option (heap * rax * Z * option Z) := raxGenericInsert H r s d false.

(** ** Removal *)

(** [while(h != rax->head)]: nodes that lead nowhere are released, from the leaf up. *)
Fixpoint remove_leaf (H : heap) (r : rax) (h : Z) (ts : list Z) (child : option Z) : option (heap * rax * Z * option Z * list Z) :=
  if h =? rhead r then Some (H, r, h, child, ts) else
  H ← rax_free H h;
  match ts with
  | [] => None
  | h' :: ts =>
      n ← H !! h';
      if negb (in_chain n) then Some (H, add_nodes r (-1), h', Some h, ts)
      else remove_leaf H (add_nodes r (-1)) h' ts (Some h)
  end.

(** The results are the heap, the tree, and the node to compress with its parents, if any. *)
Definition unlink_child (H : heap) (r : rax) (h : Z) (ts : list Z) (child : Z) : option (heap * rax * option (Z * list Z)) :=
  '(H, new) ← raxRemoveChild H h child;
  '(H, r) ← (if negb (new =? h) then
               parentlink ← match ts with [] => Some LHead | parent :: _ => raxFindParentLink H parent h end;
               write_link H r parentlink new
             else Some (H, r));
  n ← H !! new;
  Some (H, r, if (rsize n =? 1) && negb (iskey n) then Some (new, ts) else None).

(** The highest node of the chain, and its parent. *)
Fixpoint chain_start (H : heap) (h : Z) (ts : list Z) : option (Z * option Z) :=
  match ts with
  | [] => Some (h, None)
  | parent :: ts => n ← H !! parent; if negb (in_chain n) then Some (h, Some parent) else chain_start H parent ts
  end.

(** The characters and the nodes of the chain below [h]. *)
Fixpoint chain_scan (fuel : nat) (H : heap) (h comprsize nodes : Z) : option (Z * Z) :=
  match fuel with
  | O => None
  | S fuel =>
      n ← H !! h;
      if rsize n =? 0 then Some (comprsize, nodes) else
      h ← read_ptr n (raxNodeLastChildPtr n);
      n ← H !! h;
      if negb (in_chain n) then Some (comprsize, nodes) else
      if comprsize + rsize n >? RAX_NODE_MAX_SIZE then Some (comprsize, nodes) else
      chain_scan fuel H h (comprsize + rsize n) (nodes + 1)
  end.

(** The characters of the chain are copied to [new] and its nodes released. *)
Fixpoint chain_copy (fuel : nat) (H : heap) (r : rax) (new h comprsize : Z) : option (heap * rax * Z) :=
  match fuel with
  | O => None
  | S fuel =>
      n ← H !! h;
      if rsize n =? 0 then Some (H, r, h) else
      v ← node_read n 4 (rsize n);
      H ← upd_node H new (fun m => node_write m (4 + comprsize) v);
      h' ← read_ptr n (raxNodeLastChildPtr n);
      H ← rax_free H h;
      n' ← H !! h';
      if negb (in_chain n') then Some (H, add_nodes r (-1), h')
      else chain_copy fuel H (add_nodes r (-1)) new h' (comprsize + rsize n)
  end.

Definition recompress (H : heap) (r : rax) (h : Z) (ts : list Z) : option (heap * rax) :=
  '(start, parent) ← chain_start H h ts;
  n ← H !! start;
  '(comprsize, nodes) ← chain_scan (S (size H)) H start (rsize n) 1;
  if negb (nodes >? 1) then Some (H, r) else
  let fuel := size H in
  let '(H, new) := rax_malloc H (single_size comprsize false) in
  H ← upd_node H new (fun m => Some (set_size (set_iscompr (set_isnull (set_iskey m false) false) true) comprsize));
  '(H, r, h) ← chain_copy fuel H (add_nodes r 1) new start 0;
  H ← upd_node H new (fun m => write_ptr m (raxNodeLastChildPtr m) h);
  match parent with
  | Some parent => parentlink ← raxFindParentLink H parent start; write_link H r parentlink new
  | None => Some (H, set_head r new)
  end.

Definition raxRemove (H : heap) (r : rax) (s : list Z) : option (heap * rax * Z * option Z) :=
  w ← raxLowWalk H r s;
  let h := w_stop w in
  n ← H !! h;
  if negb (w_i w =? Z.of_nat (length s)) || (iscompr n && negb (w_j w =? 0)) || negb (iskey n) then Some (H, r, 0, None) else
  old ← raxGetData n;
  let H := <[h := set_iskey n false]> H in
  let r := add_ele r (-1) in
  '(H, r, trycompress) ←
    (if rsize n =? 0 then
       '(H, r, h, child, ts) ← remove_leaf H r h (w_stack w) None;
       match child with
       | Some child => unlink_child H r h ts child
       | None => Some (H, r, None)
       end
     else Some (H, r, if rsize n =? 1 then Some (h, w_stack w) else None));
  '(H, r) ← match trycompress with Some (h, ts) => recompress H r h ts | None => Some (H, r) end;
  Some (H, r, 1, Some old).

(** ** Release

    The values the callback is called on are returned, in order. *)
Fixpoint free_children (free : heap -> rax -> Z -> option (heap * rax * list Z)) (n : raxNode) (numchildren : nat) (H : heap) (r : rax) (cp : Z) (out : list Z) :
    option (heap * rax * list Z) :=
  match numchildren with
  | O => Some (H, r, out)
  | S numchildren =>
      child ← read_ptr n cp;
      '(H, r, out') ← free H r child;
      free_children free n numchildren H r (cp - 8) (out ++ out')
  end.

Fixpoint raxRecursiveFree (fuel : nat) (H : heap) (r : rax) (a : Z) : option (heap * rax * list Z) :=
  match fuel with
  | O => None
  | S fuel =>
      n ← H !! a;
      '(H, r, out) ← free_children (raxRecursiveFree fuel) n (if iscompr n then 1%nat else Z.to_nat (rsize n)) H r (raxNodeLastChildPtr n) [];
      d ← (if iskey n && negb (isnull n) then d ← raxGetData n; Some [d] else Some []);
      H ← rax_free H a;
      Some (H, add_nodes r (-1), out ++ d)
  end.

(** [None] also when the assertion that no node is left fails. *)
Definition raxFreeWithCallback (H : heap) (r : rax) : option (heap * list Z) :=
  '(H, r, out) ← raxRecursiveFree (S (size H)) H r (rhead r);
  if numnodes r =? 0 then Some (H, out) else None.
End Rax.
