(* ===== verification/RaxTree.v ===== *)
(** * Radix trees as data

    The tree a heap holds, without addresses: a node is a key or not, has the
    characters of its edges and its children, and is compressed (one child
    below all its characters) or not (a child for each character).  A context is
    the path from the root to a hole, the innermost frame first. *)

From Stdlib Require Import ZArith Lia ZifyBool Sorted.
From stdpp Require Import base gmap numbers option list.
From S2P Require Import Prelude RaxNode RaxNodeProof Rax.

Local Open Scope Z_scope.

Inductive rtree := RT (key : option Z) (compr : bool) (cs : list Z) (ts : list rtree).

Definition tkey (t : rtree) : option Z := let '(RT key _ _ _) := t in key.

(** What is left of [s] behind [p]. *)
Fixpoint strip (p s : list Z) : option (list Z) :=
  match p, s with
  | [], s => Some s
  | x :: p, y :: s => if x =? y then strip p s else None
  | _ :: _, [] => None
  end.

Fixpoint tfind (t : rtree) (s : list Z) : option Z :=
  let '(RT key compr cs ts) := t in
  match s with
  | [] => key
  | c :: s' =>
      if compr then
        match ts with
        | u :: _ => match strip cs s with Some s'' => tfind u s'' | None => None end
        | [] => None
        end
      else
        (fix go (cs : list Z) (ts : list rtree) {struct ts} :=
           match ts, cs with
           | u :: ts, x :: cs => if x =? c then tfind u s' else go cs ts
           | _, _ => None
           end) cs ts
  end.

(** The child for a character. *)
Fixpoint edge {A} (cs : list Z) (ts : list A) (c : Z) : option A :=
  match cs, ts with
  | x :: cs, u :: ts => if x =? c then Some u else edge cs ts c
  | _, _ => None
  end.

Lemma tfind_nil key compr cs ts : tfind (RT key compr cs ts) [] = key.
Proof. done. Qed.

Lemma tfind_compr key cs u s : s <> [] -> tfind (RT key true cs [u]) s = (s' ← strip cs s; tfind u s').
Proof. by destruct s. Qed.

Lemma tfind_node key cs ts c s : tfind (RT key false cs ts) (c :: s) = (u ← edge cs ts c; tfind u s).
Proof. cbn [tfind]. revert ts. induction cs as [|x cs IH]; intros [|u ts]; try done. cbn [edge]. destruct (x =? c); [done|apply IH]. Qed.

Lemma strip_app p s : strip p (p ++ s) = Some s.
Proof. induction p as [|x p IH]; [done|]. simpl. by rewrite Z.eqb_refl. Qed.

Lemma strip_Some p s s' : strip p s = Some s' -> s = p ++ s'.
Proof.
  revert s. induction p as [|x p IH]; intros [|y s]; simpl; try congruence. destruct (Z.eqb_spec x y) as [->|]; [|done].
  intros ->%IH. done.
Qed.

Lemma strip_app_l p q s : strip (p ++ q) s = (s' ← strip p s; strip q s').
Proof. revert s. induction p as [|x p IH]; intros [|y s]; simpl; try done. destruct (x =? y); [apply IH|done]. Qed.

Lemma edge_app {A} cl (tl : list A) cr tr c : length tl = length cl -> edge (cl ++ cr) (tl ++ tr) c =
  match edge cl tl c with Some u => Some u | None => edge cr tr c end.
Proof.
  revert tl. induction cl as [|x cl IH]; intros [|u tl] Hl; try (simpl in Hl; lia); [done|]. cbn [app edge].
  destruct (x =? c); [done|]. apply IH. simpl in Hl. lia.
Qed.

Lemma edge_notin {A} cs (ts : list A) c : c ∉ cs -> edge cs ts c = None.
Proof.
  revert ts. induction cs as [|x cs IH]; intros [|u ts] Hc; try done. cbn [edge]. rewrite not_elem_of_cons in Hc. destruct Hc.
  destruct (Z.eqb_spec x c); [congruence|]. by apply IH.
Qed.

(** ** Contexts *)

Inductive frame :=
| FC (key : option Z) (cs : list Z)
| FN (key : option Z) (cl : list Z) (c : Z) (cr : list Z) (tl tr : list rtree).

Definition fill (f : frame) (t : rtree) : rtree :=
  match f with
  | FC key cs => RT key true cs [t]
  | FN key cl c cr tl tr => RT key false (cl ++ c :: cr) (tl ++ t :: tr)
  end.

Definition fpath (f : frame) : list Z := match f with FC _ cs => cs | FN _ _ c _ _ _ => [c] end.

Fixpoint plug (fs : list frame) (t : rtree) : rtree := match fs with [] => t | f :: fs => plug fs (fill f t) end.
Fixpoint path (fs : list frame) : list Z := match fs with [] => [] | f :: fs => path fs ++ fpath f end.

(** The characters of a frame are told apart, and a compressed one has some. *)
Definition frame_ok (f : frame) : Prop :=
  match f with
  | FC _ cs => cs <> []
  | FN _ cl c cr tl _ => c ∉ cl /\ length tl = length cl
  end.

Lemma fill_inside f t s : frame_ok f -> tfind (fill f t) (fpath f ++ s) = tfind t s.
Proof.
  destruct f as [key cs|key cl c cr tl tr]; cbn [fill fpath frame_ok].
  - intros Hne. rewrite tfind_compr by (by destruct cs). by rewrite strip_app.
  - intros [Hc Hl]. cbn [app]. rewrite tfind_node, edge_app by done. rewrite (edge_notin cl) by done. cbn [edge]. by rewrite Z.eqb_refl.
Qed.

Lemma fill_outside f t t' s : frame_ok f -> strip (fpath f) s = None -> tfind (fill f t) s = tfind (fill f t') s.
Proof.
  destruct f as [key cs|key cl c cr tl tr]; cbn [fill fpath frame_ok].
  - intros _ Hs. destruct s as [|x s]; [done|]. rewrite !tfind_compr by done. by rewrite Hs.
  - intros [Hc Hl] Hs. destruct s as [|x s]; [done|]. rewrite !tfind_node, !edge_app by done. destruct (edge cl tl x); [done|].
    cbn [edge]. cbn [strip] in Hs. destruct (c =? x); [done|done].
Qed.

Lemma plug_inside fs t s : Forall frame_ok fs -> tfind (plug fs t) (path fs ++ s) = tfind t s.
Proof.
  intros Hf. revert t s. induction Hf as [|f fs Hf _ IH]; intros t s; [done|]. cbn [plug path].
  rewrite <- app_assoc, IH. by apply fill_inside.
Qed.

Lemma plug_outside fs t t' s : Forall frame_ok fs -> strip (path fs) s = None -> tfind (plug fs t) s = tfind (plug fs t') s.
Proof.
  intros Hf. revert t t'. induction Hf as [|f fs Hf Hfs IH]; intros t t' Hs; [done|]. cbn [plug path] in *.
  rewrite strip_app_l in Hs. destruct (strip (path fs) s) as [s'|] eqn:E; [|by apply IH]. cbn [mbind option_bind] in Hs.
  apply strip_Some in E. subst s. rewrite !plug_inside by done. by apply fill_outside.
Qed.

(** Replacing what is in the hole changes the keys below the path as it changes them. *)
Lemma plug_update fs t t' s v : Forall frame_ok fs ->
  (forall s', tfind t' s' = if decide (s' = s) then v else tfind t s') ->
  forall s', tfind (plug fs t') s' = if decide (s' = path fs ++ s) then v else tfind (plug fs t) s'.
Proof.
  intros Hf Ht s'. destruct (strip (path fs) s') as [x|] eqn:E.
  - apply strip_Some in E. subst s'. rewrite !plug_inside, Ht by done. repeat case_decide; simplify_eq; done.
  - rewrite (plug_outside fs t' t) by done. case_decide; [|done]. subst. by rewrite strip_app in E.
Qed.

(** ** Shape

    Characters of a node are in increasing order, a compressed node has at
    least two, and every node but the root is a key or leads to one. *)

Definition live (t : rtree) : Prop := let '(RT key _ _ ts) := t in is_Some key \/ ts <> [].

Inductive wf : rtree -> Prop :=
| wf_compr key cs u : (2 <= length cs)%nat -> wf u -> live u -> wf (RT key true cs [u])
| wf_node key cs ts : StronglySorted Z.lt cs -> length ts = length cs -> Forall (fun u => wf u /\ live u) ts -> wf (RT key false cs ts).

Definition wf_frame (f : frame) : Prop :=
  match f with
  | FC _ cs => (2 <= length cs)%nat
  | FN _ cl c cr tl tr => StronglySorted Z.lt (cl ++ c :: cr) /\ length tl = length cl /\ length tr = length cr /\
      Forall (fun u => wf u /\ live u) tl /\ Forall (fun u => wf u /\ live u) tr
  end.

Section rtree_ind.
Context (P : rtree -> Prop) (IH : forall key compr cs ts, Forall P ts -> P (RT key compr cs ts)).
Fixpoint rtree_ind' (t : rtree) : P t :=
  match t with
  | RT key compr cs ts => IH key compr cs ts
      ((fix go (ts : list rtree) : Forall P ts :=
          match ts with [] => Forall_nil_2 P | t :: ts => Forall_cons_2 P t ts (rtree_ind' t) (go ts) end) ts)
  end.
End rtree_ind.

Lemma sorted_notin cl c cr : StronglySorted Z.lt (cl ++ c :: cr) -> c ∉ cl /\ c ∉ cr.
Proof.
  induction cl as [|x cl IH]; cbn [app].
  - intros [_ Hc]%StronglySorted_inv. split; [set_solver|]. intros Hin. rewrite Forall_forall in Hc. specialize (Hc c Hin). lia.
  - intros [Hs Hx]%StronglySorted_inv. destruct (IH Hs) as [H1 H2]. split; [|done]. rewrite not_elem_of_cons. split; [|done].
    rewrite Forall_forall in Hx. specialize (Hx c ltac:(set_solver)). lia.
Qed.

Lemma wf_frame_ok f : wf_frame f -> frame_ok f.
Proof.
  destruct f as [key cs|key cl c cr tl tr]; cbn.
  - intros ? ->. simpl in *. lia.
  - intros (Hs & Hl & _). split; [|done]. by destruct (sorted_notin _ _ _ Hs).
Qed.

Lemma wf_frames_ok fs : Forall wf_frame fs -> Forall frame_ok fs.
Proof. intros Hf. eapply Forall_impl; [done|]. apply wf_frame_ok. Qed.

Lemma fill_wf f t : wf_frame f -> wf t -> live t -> wf (fill f t) /\ live (fill f t).
Proof.
  destruct f as [key cs|key cl c cr tl tr]; cbn [fill wf_frame live].
  - intros. split; [by constructor|by right].
  - intros (Hs & Hl & Hr & Htl & Htr) Hw Hli. split; [|right; by destruct tl]. constructor; [done|rewrite !length_app; simpl; lia|].
    rewrite Forall_app, Forall_cons. done.
Qed.

Lemma plug_wf fs : forall t, Forall wf_frame fs -> wf t -> fs = [] \/ live t -> wf (plug fs t).
Proof.
  induction fs as [|f fs IH]; intros t Hf Hw Hl; [done|]. apply Forall_cons in Hf as [Hf Hfs]. destruct Hl as [|Hl]; [done|].
  destruct (fill_wf f t Hf Hw Hl). cbn [plug]. apply IH; [done|done|by right].
Qed.

(** Where a walk stops: the string that is left at the node, and how much of it
    the node matches. *)
Inductive stops : rtree -> list Z -> Z -> Prop :=
| stop_here t : stops t [] 0
| stop_compr key c1 y c2 u r : c1 ++ r <> [] -> (forall x, head r = Some x -> x <> y) ->
    stops (RT key true (c1 ++ y :: c2) [u]) (c1 ++ r) (Z.of_nat (length c1))
| stop_node key cs ts c r : c ∉ cs -> stops (RT key false cs ts) (c :: r) 0.

Lemma compr_match_spec v s : exists c1 v' s', v = c1 ++ v' /\ s = c1 ++ s' /\ compr_match v s = length c1 /\
  (v' = [] \/ forall x y, head v' = Some y -> head s' = Some x -> x <> y).
Proof.
  revert s. induction v as [|x v IH]; intros [|y s].
  - exists [], [], []. split_and!; try done. by left.
  - exists [], [], (y :: s). split_and!; try done. by left.
  - exists [], (x :: v), []. split_and!; [done..|]. by right.
  - cbn [compr_match]. destruct (Z.eqb_spec x y) as [->|Hne].
    + destruct (IH s) as (c1 & v' & s' & -> & -> & -> & Hor). exists (y :: c1), v', s'. done.
    + exists [], (x :: v), (y :: s). split_and!; [done..|]. right. cbn. congruence.
Qed.

Lemma edge_index_Some v c k : edge_index v c = Some k -> exists cl cr, v = cl ++ c :: cr /\ length cl = k.
Proof.
  revert k. induction v as [|x v IH]; intros k; [done|]. cbn [edge_index]. destruct (Z.eqb_spec x c) as [->|].
  - intros [= <-]. by exists [], v.
  - rewrite fmap_Some. intros (k' & (cl & cr & -> & <-)%IH & ->). by exists (x :: cl), cr.
Qed.

Lemma edge_index_None v c : edge_index v c = None -> c ∉ v.
Proof.
  induction v as [|x v IH]; [set_solver|]. cbn [edge_index]. destruct (Z.eqb_spec x c) as [->|]; [done|]. rewrite fmap_None. set_solver.
Qed.

(** ** Adding a child *)

Definition leaf_tree : rtree := RT None false [] [].

Lemma leaf_find s : tfind leaf_tree s = None.
Proof. by destruct s. Qed.

Lemma fill_leaf_compr key cs s : cs <> [] -> tfind (fill (FC key cs) leaf_tree) s = tfind (RT key false [] []) s.
Proof.
  intros Hne. destruct s as [|c s]; [done|]. cbn [fill]. rewrite tfind_compr by done. destruct (strip cs (c :: s)); [|done]. apply leaf_find.
Qed.

Lemma fill_leaf_node key cl c cr tl tr s : c ∉ cl -> c ∉ cr -> length tl = length cl ->
  tfind (fill (FN key cl c cr tl tr) leaf_tree) s = tfind (RT key false (cl ++ cr) (tl ++ tr)) s.
Proof.
  intros Hl Hr Hlen. destruct s as [|x s]; [done|]. cbn [fill]. rewrite !tfind_node, !edge_app by done. destruct (edge cl tl x); [done|].
  cbn [edge]. destruct (Z.eqb_spec c x) as [<-|]; [|done]. rewrite (edge_notin cr) by done. apply leaf_find.
Qed.

Lemma plug_ext fs t t' : Forall frame_ok fs -> (forall s, tfind t s = tfind t' s) -> forall s, tfind (plug fs t) s = tfind (plug fs t') s.
Proof.
  intros Hf Ht s. destruct (strip (path fs) s) as [x|] eqn:E; [|by apply plug_outside].
  apply strip_Some in E. subst s. by rewrite !plug_inside.
Qed.

Lemma child_pos_sorted cs c (k := Z.to_nat (child_pos cs c)) : StronglySorted Z.lt cs -> c ∉ cs -> StronglySorted Z.lt (take k cs ++ c :: drop k cs).
Proof.
  unfold k. clear k. induction 1 as [|x cs Hs IH Hx]; intros Hc; [repeat constructor|].
  rewrite not_elem_of_cons in Hc. destruct Hc as [Hne Hc]. cbn [child_pos]. rewrite Z.gtb_ltb. destruct (Z.ltb_spec c x).
  - change (Z.to_nat 0) with 0%nat. cbn [take drop app]. constructor; [by constructor|]. constructor; [done|].
    eapply Forall_impl; [done|]. cbn. lia.
  - replace (Z.to_nat (1 + child_pos cs c)) with (S (Z.to_nat (child_pos cs c))) by (pose proof (child_pos_range cs c); lia).
    cbn [take drop app]. constructor; [by apply IH|]. rewrite <- (take_drop (Z.to_nat (child_pos cs c)) cs) in Hx at 1.
    rewrite Forall_app in Hx. rewrite Forall_app, Forall_cons. split; [tauto|]. split; [lia|tauto].
Qed.

(** Characters are bytes, so there are at most 256. *)
Lemma sorted_length cs : StronglySorted Z.lt cs -> Forall byteZ cs -> (length cs <= 256)%nat.
Proof.
  intros Hs Hb. assert (NoDup cs) as Hn.
  { clear Hb. induction Hs as [|x cs Hs IH Hx]; constructor; [|done]. intros Hin. rewrite Forall_forall in Hx. specialize (Hx x Hin). lia. }
  replace 256%nat with (length (seqZ 0 256)) by done. apply submseteq_length, NoDup_submseteq; [done|].
  intros x Hx. rewrite Forall_forall in Hb. specialize (Hb x Hx). rewrite elem_of_seqZ. unfold byteZ in Hb. lia.
Qed.
