(* ===== verification/RaxHeap.v ===== *)
(** * Radix trees in the heap

    [tree_at H a t fp]: the nodes at the addresses [fp] are the tree [t] with root
    [a], no two parts sharing a node.  [ctx_at H root fs x stk fp]: the nodes at [fp]
    are the context [fs], with a pointer to [x] in its hole and the addresses
    [stk] on its path.  The walk of [rax.c] finds the context and the subtree
    where a string ends. *)

From Stdlib Require Import ZArith Lia ZifyBool Sorted.
From stdpp Require Import base gmap numbers option list sets.
From S2P Require Import Prelude RaxNode RaxNodeProof Rax RaxTree.

Local Open Scope Z_scope.

Inductive tree_at (H : heap) : Z -> rtree -> gset Z -> Prop :=
| tree_at_node a n key compr cs kids ts fp :
    H !! a = Some n -> node_rep n key compr cs kids -> addr a -> trees_at H kids ts fp -> a ∉ fp ->
    tree_at H a (RT key compr cs ts) ({[a]} ∪ fp)
with trees_at (H : heap) : list Z -> list rtree -> gset Z -> Prop :=
| trees_at_nil : trees_at H [] [] ∅
| trees_at_cons a t fp kids ts fps :
    tree_at H a t fp -> trees_at H kids ts fps -> fp ## fps -> trees_at H (a :: kids) (t :: ts) (fp ∪ fps).

Scheme tree_at_mut := Minimality for tree_at Sort Prop
  with trees_at_mut := Minimality for trees_at Sort Prop.

Lemma tree_at_agree H H' a t fp : tree_at H a t fp -> (forall b, b ∈ fp -> H' !! b = H !! b) -> tree_at H' a t fp.
Proof.
  intros Ht. revert Ht. apply (tree_at_mut H
    (fun a t fp => (forall b, b ∈ fp -> H' !! b = H !! b) -> tree_at H' a t fp)
    (fun kids ts fp => (forall b, b ∈ fp -> H' !! b = H !! b) -> trees_at H' kids ts fp)).
  - intros ???????? E Hrep Ha _ IH Hn Hag. apply (tree_at_node H' a0 n key compr cs kids ts fp0); [rewrite Hag by set_solver; done|done|done| |done].
    apply IH. set_solver.
  - constructor.
  - intros ?????? _ IH _ IHs Hd Hag. constructor; [apply IH|apply IHs|done]; set_solver.
Qed.

Lemma trees_at_agree H H' kids ts fp : trees_at H kids ts fp -> (forall b, b ∈ fp -> H' !! b = H !! b) -> trees_at H' kids ts fp.
Proof.
  induction 1 as [|a t fp kids ts fps Ht Hts IH Hd]; intros Hag; [constructor|].
  constructor; [|apply IH; set_solver|done]. apply (tree_at_agree H); [done|set_solver].
Qed.

Lemma tree_at_inv H a key compr cs ts fp : tree_at H a (RT key compr cs ts) fp ->
  exists n kids fps, H !! a = Some n /\ node_rep n key compr cs kids /\ addr a /\ trees_at H kids ts fps /\ a ∉ fps /\ fp = {[a]} ∪ fps.
Proof. inversion 1; subst. eauto 10. Qed.

Lemma tree_at_root H a t fp : tree_at H a t fp -> a ∈ fp /\ addr a.
Proof. inversion 1; subst. set_solver. Qed.

Lemma trees_at_length H kids ts fp : trees_at H kids ts fp -> length kids = length ts.
Proof. induction 1; simpl; lia. Qed.

Lemma trees_at_app H k1 t1 f1 k2 t2 f2 : trees_at H k1 t1 f1 -> trees_at H k2 t2 f2 -> f1 ## f2 -> trees_at H (k1 ++ k2) (t1 ++ t2) (f1 ∪ f2).
Proof.
  induction 1 as [|a t fp kids ts fps Ht Hts IH Hd]; intros H2 Hd2; [rewrite (left_id_L ∅ (∪)); exact H2|].
  rewrite <- (assoc_L (∪)). cbn [app]. constructor; [done|apply IH; set_solver|set_solver].
Qed.

Lemma trees_at_cons_inv H kids t ts fp : trees_at H kids (t :: ts) fp -> exists a kids' f fs, kids = a :: kids' /\
  tree_at H a t f /\ trees_at H kids' ts fs /\ f ## fs /\ fp = f ∪ fs.
Proof. inversion 1; subst. eauto 10. Qed.

Lemma trees_at_app_inv H t1 : forall kids t2 fp, trees_at H kids (t1 ++ t2) fp -> exists k1 k2 f1 f2, kids = k1 ++ k2 /\
  trees_at H k1 t1 f1 /\ trees_at H k2 t2 f2 /\ f1 ## f2 /\ fp = f1 ∪ f2.
Proof.
  induction t1 as [|t t1 IH]; intros kids t2 fp Hk.
  - exists [], kids, ∅, fp. split_and!; [done|constructor|done|set_solver|set_solver].
  - cbn [app] in Hk. destruct (trees_at_cons_inv _ _ _ _ _ Hk) as (a & kids' & f & fs & -> & Ht & Hts & Hd' & ->).
    destruct (IH _ _ _ Hts) as (k1 & k2 & f1 & f2 & -> & H1 & H2 & Hd & ->).
    exists (a :: k1), k2, (f ∪ f1), f2. split_and!; [done|constructor; [done|done|set_solver]|done|set_solver|set_solver].
Qed.

Lemma trees_at_in H kids ts fp b : trees_at H kids ts fp -> b ∈ kids -> b ∈ fp /\ addr b.
Proof.
  induction 1 as [|a t fp kids ts fps Ht Hts IH Hd]; [set_solver|]. rewrite elem_of_cons. intros [->|Hb].
  - destruct (tree_at_root _ _ _ _ Ht). set_solver.
  - destruct (IH Hb). set_solver.
Qed.

(** ** Contexts *)

Inductive ctx_at (H : heap) (root : Z) : list frame -> Z -> list Z -> gset Z -> Prop :=
| ctx_at_nil : ctx_at H root [] root [] ∅
| ctx_at_compr fs a stk fp n key cs x : ctx_at H root fs a stk fp -> H !! a = Some n -> node_rep n key true cs [x] -> addr a -> a ∉ fp ->
    ctx_at H root (FC key cs :: fs) x (a :: stk) ({[a]} ∪ fp)
| ctx_at_node fs a stk fp n key cl c cr kl x kr tl tr fl fr : ctx_at H root fs a stk fp -> H !! a = Some n ->
    node_rep n key false (cl ++ c :: cr) (kl ++ x :: kr) -> addr a -> a ∉ fp ->
    trees_at H kl tl fl -> trees_at H kr tr fr -> length tl = length cl -> length tr = length cr -> x ∉ kl ->
    fl ## fr -> a ∉ fl ∪ fr -> fl ∪ fr ## fp ->
    ctx_at H root (FN key cl c cr tl tr :: fs) x (a :: stk) ({[a]} ∪ (fl ∪ fr) ∪ fp).

Lemma ctx_compr_inv H root key cs fs x stk fp : ctx_at H root (FC key cs :: fs) x stk fp -> exists a stk' fp' n,
  stk = a :: stk' /\ fp = {[a]} ∪ fp' /\ ctx_at H root fs a stk' fp' /\ H !! a = Some n /\ node_rep n key true cs [x] /\ addr a /\ a ∉ fp'.
Proof. inversion 1; subst. eauto 12. Qed.

Lemma ctx_node_inv H root key cl c cr tl tr fs x stk fp : ctx_at H root (FN key cl c cr tl tr :: fs) x stk fp -> exists a stk' fp' n kl kr fl fr,
  stk = a :: stk' /\ fp = {[a]} ∪ (fl ∪ fr) ∪ fp' /\ ctx_at H root fs a stk' fp' /\ H !! a = Some n /\
  node_rep n key false (cl ++ c :: cr) (kl ++ x :: kr) /\ addr a /\ a ∉ fp' /\ trees_at H kl tl fl /\ trees_at H kr tr fr /\
  length tl = length cl /\ length tr = length cr /\ x ∉ kl /\ fl ## fr /\ a ∉ fl ∪ fr /\ fl ∪ fr ## fp'.
Proof. inversion 1; subst. do 8 eexists. split_and!; done. Qed.

Definition slots (cs : list Z) : Z := 4 + Z.of_nat (length cs) + raxPadding (Z.of_nat (length cs)).

Lemma first_child n key compr cs kids : node_rep n key compr cs kids -> raxNodeFirstChildPtr n = slots cs.
Proof. intros Hr. unfold raxNodeFirstChildPtr, slots. by rewrite (nr_size _ _ _ _ _ Hr). Qed.

Definition link_of (fs : list frame) (stk : list Z) : link :=
  match fs, stk with
  | FC _ cs :: _, a :: _ => LSlot a (slots cs)
  | FN _ cl c cr _ _ :: _, a :: _ => LSlot a (slots (cl ++ c :: cr) + 8 * Z.of_nat (length cl))
  | _, _ => LHead
  end.

Lemma ctx_at_agree H H' root fs x stk fp : ctx_at H root fs x stk fp -> (forall b, b ∈ fp -> H' !! b = H !! b) -> ctx_at H' root fs x stk fp.
Proof.
  induction 1 as [|fs a stk fp n key cs x Hc IH E Hrep Ha Hn|fs a stk fp n key cl c cr kl x kr tl tr fl fr Hc IH E Hrep Ha Hn Hl Hr Hll Hlr Hx Hd Han Hdd]; intros Hag.
  - constructor.
  - apply (ctx_at_compr _ _ _ _ _ _ n); [apply IH; set_solver|rewrite Hag by set_solver|..]; done.
  - apply (ctx_at_node _ _ _ _ _ _ n key cl c cr kl x kr); [apply IH; set_solver|rewrite Hag by set_solver; done|done|done|done| | |done..].
    + apply (trees_at_agree H); [done|set_solver].
    + apply (trees_at_agree H); [done|set_solver].
Qed.

(** Writing the link replaces the hole. *)
Lemma ctx_write H r fs x stk fp p : ctx_at H (rhead r) fs x stk fp -> addr p -> p ∉ fp ->
  exists H' r', write_link H r (link_of fs stk) p = Some (H', r') /\ ctx_at H' (rhead r') fs p stk fp /\
    (forall b, b ∉ fp -> H' !! b = H !! b) /\ dom H' = dom H /\ numele r' = numele r /\ numnodes r' = numnodes r.
Proof.
  intros Hc Hp Hnp. inversion Hc; subst; cbn [link_of write_link].
  - eexists _, _. split; [done|]. split; [constructor|done].
  - unfold upd_node. rewrite H1. cbn [mbind option_bind].
    destruct (write_nth n key true cs [] x [] p H2) as (n' & E & Hrep'); [by apply addr_in_u|]. cbn [app] in Hrep'.
    rewrite (first_child _ _ _ _ _ H2), Z.mul_0_r, Z.add_0_r in E. rewrite E. cbn [mbind option_bind]. eexists _, _. split; [done|]. split_and!; [|..|done|done].
    + apply (ctx_at_compr _ _ _ _ _ _ n'); [apply (ctx_at_agree H); [done|]|by rewrite lookup_insert_eq|done..].
      intros b Hb. apply lookup_insert_ne. set_solver.
    + intros b Hb. apply lookup_insert_ne. set_solver.
    + rewrite dom_insert_lookup_L; eauto.
  - unfold upd_node. rewrite H1. cbn [mbind option_bind].
    destruct (write_nth n key false _ kl x kr p H2) as (n' & E & Hrep'); [by apply addr_in_u|].
    rewrite (first_child _ _ _ _ _ H2), (trees_at_length _ _ _ _ H5), H7 in E. rewrite E. cbn [mbind option_bind]. eexists _, _. split; [done|]. split_and!; [|..|done|done].
    + apply (ctx_at_node _ _ _ _ _ _ n' key cl c cr kl p kr); [apply (ctx_at_agree H); [done|]|by rewrite lookup_insert_eq|done|done|done| | |done|done| |done..].
      * intros b Hb. apply lookup_insert_ne. set_solver.
      * apply (trees_at_agree H); [done|]. intros b Hb. apply lookup_insert_ne. set_solver.
      * apply (trees_at_agree H); [done|]. intros b Hb. apply lookup_insert_ne. set_solver.
      * intros Hin. destruct (trees_at_in _ _ _ _ _ H5 Hin). set_solver.
    + intros b Hb. apply lookup_insert_ne. set_solver.
    + rewrite dom_insert_lookup_L; eauto.
Qed.

(** Filling the hole. *)
Lemma plug_at H root fs : forall x stk fp t ft, ctx_at H root fs x stk fp -> tree_at H x t ft -> ft ## fp -> tree_at H root (plug fs t) (ft ∪ fp).
Proof.
  induction fs as [|f fs IH]; intros x stk fp t ft Hc Ht Hd; inversion Hc; subst; cbn [plug].
  - by rewrite (right_id_L ∅ (∪)).
  - replace (ft ∪ ({[a]} ∪ fp0)) with (({[a]} ∪ (ft ∪ ∅)) ∪ fp0) by set_solver. eapply IH; [eassumption| |set_solver].
    cbn [fill]. eapply tree_at_node; [done|done|done| |set_solver]. constructor; [done|constructor|set_solver].
  - replace (ft ∪ ({[a]} ∪ (fl ∪ fr) ∪ fp0)) with (({[a]} ∪ (fl ∪ (ft ∪ fr))) ∪ fp0) by set_solver. eapply IH; [eassumption| |set_solver].
    cbn [fill]. eapply tree_at_node; [done|done|done| |set_solver]. apply trees_at_app; [done| |set_solver]. constructor; [done|done|set_solver].
Qed.

(** ** The walk *)

Lemma list_split_at {A} (l : list A) k : (k < length l)%nat -> exists l1 x l2, l = l1 ++ x :: l2 /\ length l1 = k.
Proof.
  intros Hk. destruct (lookup_lt_is_Some_2 l k Hk) as [x Hx]. exists (take k l), x, (drop (S k) l).
  rewrite take_drop_middle by done. rewrite length_take. split; [done|lia].
Qed.

Lemma walk_spec H root : forall fuel s fs a stk fpc t fpt, ctx_at H root fs a stk fpc -> tree_at H a t fpt -> fpt ## fpc ->
  wf t -> Forall wf_frame fs -> fs = [] \/ live t -> (length s < fuel)%nat ->
  exists fs' x stk' fpc' t' fpt' s' j,
    raxLowWalk_loop fuel H a (link_of fs stk) s (Z.of_nat (length (path fs))) 0 stk =
      Some (mk_walk (Z.of_nat (length (path fs')) + j) x (link_of fs' stk') j stk') /\
    ctx_at H root fs' x stk' fpc' /\ tree_at H x t' fpt' /\ fpt' ## fpc' /\ wf t' /\ Forall wf_frame fs' /\ (fs' = [] \/ live t') /\
    plug fs' t' = plug fs t /\ path fs' ++ s' = path fs ++ s /\ fpt' ∪ fpc' = fpt ∪ fpc /\ stops t' s' j.
Proof.
  induction fuel as [|fuel IH]; intros s fs a stk fpc t fpt Hc Ht Hd Hw Hf Hl Hfu; [lia|].
  destruct t as [key compr cs ts]. destruct (tree_at_inv _ _ _ _ _ _ _ Ht) as (n & kids & fps & E & Hrep & Ha & Hts & Han & ->).
  cbn [raxLowWalk_loop]. rewrite E. cbn [mbind option_bind]. rewrite (nr_size _ _ _ _ _ Hrep), (nr_compr _ _ _ _ _ Hrep).
  assert (forall s' j, stops (RT key compr cs ts) s' j -> s = s' -> exists fs' x stk' fpc' t' fpt' s' j',
    Some (mk_walk (Z.of_nat (length (path fs)) + j) a (link_of fs stk) j stk) =
      Some (mk_walk (Z.of_nat (length (path fs')) + j') x (link_of fs' stk') j' stk') /\
    ctx_at H root fs' x stk' fpc' /\ tree_at H x t' fpt' /\ fpt' ## fpc' /\ wf t' /\ Forall wf_frame fs' /\ (fs' = [] \/ live t') /\
    plug fs' t' = plug fs (RT key compr cs ts) /\ path fs' ++ s' = path fs ++ s /\ fpt' ∪ fpc' = {[a]} ∪ fps ∪ fpc /\ stops t' s' j') as Hstop.
  { intros s' j Hs ->. exists fs, a, stk, fpc, (RT key compr cs ts), ({[a]} ∪ fps), s', j. by split_and!. }
  destruct s as [|c s].
  { specialize (Hstop [] 0 (stop_here _) eq_refl). rewrite Z.add_0_r in Hstop. destruct compr; apply Hstop. }
  pose proof Hrep as [_ (slack & L) _ Hk].
  inversion Hw as [key' cs' u Hlen Hwu Hlu|key' cs' ts' Hso Hlen Hall]; subst.
  - destruct (Z.eqb_spec (Z.of_nat (length cs)) 0); [lia|]. pose proof (read_chars _ _ _ _ _ L) as Hrd. rewrite (nr_size _ _ _ _ _ Hrep) in Hrd. rewrite Hrd.
    cbn [mbind option_bind]. destruct (compr_match_spec cs (c :: s)) as (c1 & v' & s' & Ecs & Es & -> & Hor).
    destruct v' as [|y c2].
    + rewrite app_nil_r in Ecs. subst c1. rewrite Z.eqb_refl. cbn [negb]. rewrite (first_child _ _ _ _ _ Hrep), Z.mul_0_r, Z.add_0_r.
      pose proof (nr_length _ _ _ _ _ Hrep) as Hkl. destruct kids as [|x [|]]; try done.
      pose proof (read_nth n true cs [] x [] _ L ltac:(by inversion Hk)) as Hx. rewrite (first_child _ _ _ _ _ Hrep), Z.mul_0_r, Z.add_0_r in Hx. rewrite Hx. cbn [mbind option_bind].
      rewrite Es, drop_app_length.
      destruct (trees_at_cons_inv _ _ _ _ _ Hts) as (x' & k' & f & f' & [= <- <-] & Htx & Hnil & Hdf & ->). inversion Hnil; subst.
      destruct (IH s' (FC key cs :: fs) x (a :: stk) ({[a]} ∪ fpc) u f) as (fs' & x' & stk' & fpc' & t' & fpt' & s'' & j & Er & ? & ? & ? & ? & ? & ? & ? & Ep & Ef & ?).
      * apply (ctx_at_compr _ _ _ _ _ _ n); try done. clear -Hd. set_solver.
      * done.
      * clear -Hd Han. set_solver.
      * done.
      * by constructor.
      * by right.
      * assert (length (c :: s) = length (cs ++ s')) as Hls by (by rewrite Es). rewrite length_app in Hls. simpl in Hls, Hfu. lia.
      * cbn [link_of path fpath plug fill] in *. rewrite length_app, Nat2Z.inj_add in Er. exists fs', x', stk', fpc', t', fpt', s'', j.
        split_and!; try done; [by rewrite Ep, <- app_assoc|]. rewrite Ef. clear. set_solver.
    + assert (Z.of_nat (length c1) =? Z.of_nat (length cs) = false) as -> by (rewrite Ecs, length_app; simpl; lia). cbn [negb].
      rewrite Ecs in *. apply (Hstop (c1 ++ s') (Z.of_nat (length c1))); [|done]. constructor; [by rewrite <- Es|].
      destruct Hor as [|Hor]; [done|]. intros x Hx. by apply Hor.
  - destruct (Z.eqb_spec (Z.of_nat (length cs)) 0) as [E0|Hne].
    { destruct cs; [|simpl in E0; lia]. specialize (Hstop (c :: s) 0 ltac:(constructor; apply not_elem_of_nil) eq_refl). rewrite Z.add_0_r in Hstop. apply Hstop. }
    pose proof (read_chars _ _ _ _ _ L) as Hrd. rewrite (nr_size _ _ _ _ _ Hrep) in Hrd. rewrite Hrd. cbn [mbind option_bind].
    destruct (edge_index cs c) as [k|] eqn:Ek; [|specialize (Hstop (c :: s) 0 ltac:(constructor; by apply edge_index_None) eq_refl); rewrite Z.add_0_r in Hstop; apply Hstop].
    apply edge_index_Some in Ek as (cl & cr & -> & <-). pose proof (sorted_notin _ _ _ Hso) as [Hncl Hncr].
    rewrite length_app in Hlen. cbn [length] in Hlen. destruct (list_split_at ts (length cl)) as (tl & u & tr & -> & Hlt); [lia|].
    rewrite length_app in Hlen. cbn [length] in Hlen. rewrite Forall_app, Forall_cons in Hall. destruct Hall as (Htl & [Hwu Hlu] & Htr).
    destruct (trees_at_app_inv _ _ _ _ _ Hts) as (kl & k2 & fl & f2 & -> & Hkl & Hk2 & Hd1 & ->).
    destruct (trees_at_cons_inv _ _ _ _ _ Hk2) as (x & kr & f & fr & -> & Htx & Hkr & Hd2 & ->).
    rewrite (first_child _ _ _ _ _ Hrep). rewrite Forall_app, Forall_cons in Hk.
    pose proof (read_nth n false _ kl x kr _ L ltac:(tauto)) as Hx. rewrite (first_child _ _ _ _ _ Hrep), (trees_at_length _ _ _ _ Hkl), Hlt in Hx. rewrite Hx.
    cbn [mbind option_bind].
    destruct (IH s (FN key cl c cr tl tr :: fs) x (a :: stk) ({[a]} ∪ (fl ∪ fr) ∪ fpc) u f) as (fs' & x' & stk' & fpc' & t' & fpt' & s'' & j & Er & ? & ? & ? & ? & ? & ? & ? & Ep & Ef & ?).
    + clear IH Hstop. apply (ctx_at_node _ _ _ _ _ _ n key cl c cr kl x kr); try done.
      * clear -Hd. set_solver.
      * lia.
      * intros Hin. destruct (trees_at_in _ _ _ _ _ Hkl Hin) as [Hi _]. destruct (tree_at_root _ _ _ _ Htx) as [Hi' _]. clear -Hi Hi' Hd1. set_solver.
      * clear -Hd1. set_solver.
      * clear -Han. set_solver.
      * clear -Hd. set_solver.
    + done.
    + clear -Hd Hd1 Hd2 Han. set_solver.
    + done.
    + constructor; [|done]. cbn. split_and!; try done. lia.
    + by right.
    + simpl in Hfu. lia.
    + cbn [link_of path fpath plug fill] in *. rewrite length_app, Nat2Z.inj_add in Er. exists fs', x', stk', fpc', t', fpt', s'', j.
      split_and!; try done; [by rewrite Ep, <- app_assoc|]. rewrite Ef. clear. set_solver.
Qed.
