(* ===== verification/RaxInsert.v ===== *)
(** * Insertion into the radix tree

    Each part of [raxGenericInsert] is shown to turn the tree in the heap into
    one that finds the new key, and every other key as before. *)

From Stdlib Require Import ZArith Lia ZifyBool Sorted.
From stdpp Require Import base gmap numbers option list sets.
From S2P Require Import Prelude RaxNode RaxNodeProof Rax RaxTree RaxHeap.

Local Open Scope Z_scope.

(** ** Footprints *)

Lemma tree_at_dom H a t fp : tree_at H a t fp -> fp ⊆ dom H.
Proof.
  apply (tree_at_mut H (fun _ _ fp => fp ⊆ dom H) (fun _ _ fp => fp ⊆ dom H)); [|set_solver|set_solver].
  intros a' n ?????? E ?? _ IH _. apply elem_of_dom_2 in E. set_solver.
Qed.

Lemma trees_at_dom H kids ts fp : trees_at H kids ts fp -> fp ⊆ dom H.
Proof. induction 1 as [|?????? Ht]; [set_solver|]. apply tree_at_dom in Ht. set_solver. Qed.

Lemma ctx_at_dom H root fs x stk fp : ctx_at H root fs x stk fp -> fp ⊆ dom H.
Proof.
  induction 1 as [|????????? IH E|????????????????? IH E ??? Hl%trees_at_dom Hr%trees_at_dom]; [set_solver|apply elem_of_dom_2 in E; set_solver..].
Qed.

(** A fresh address is in no footprint. *)
Lemma fresh_not_in_fp {H : heap} {fp : gset Z} {a} : fp ⊆ dom H -> H !! a = None -> a ∉ fp.
Proof. intros Hs Hn Ha. apply Hs, elem_of_dom in Ha. rewrite Hn in Ha. by destruct Ha. Qed.

(** A node in place of another one over the same children. *)
Lemma node_at H H' x' n' key compr cs kids ts fps : trees_at H kids ts fps -> (forall b, b ∈ fps -> H' !! b = H !! b) ->
  H' !! x' = Some n' -> node_rep n' key compr cs kids -> addr x' -> x' ∉ fps -> tree_at H' x' (RT key compr cs ts) ({[x']} ∪ fps).
Proof. intros Hts Hag E Hrep Ha Hn. eapply tree_at_node; [done..| |done]. by apply (trees_at_agree H). Qed.

Lemma relink H H1 r fs x stk fpc x' t' ft : ctx_at H (rhead r) fs x stk fpc -> (forall b, b ∈ fpc -> H1 !! b = H !! b) ->
  tree_at H1 x' t' ft -> ft ## fpc ->
  exists H2 r2, write_link H1 r (link_of fs stk) x' = Some (H2, r2) /\ ctx_at H2 (rhead r2) fs x' stk fpc /\ tree_at H2 x' t' ft /\
    (forall b, b ∉ fpc -> H2 !! b = H1 !! b) /\ dom H2 = dom H1 /\ numele r2 = numele r /\ numnodes r2 = numnodes r.
Proof.
  intros Hc Hag Ht Hd. destruct (tree_at_root _ _ _ _ Ht) as [Hx Ha].
  destruct (ctx_write H1 r fs x stk fpc x') as (H2 & r2 & E & Hc2 & Hag2 & Hdom & Hn & Hm); [by apply (ctx_at_agree H)|done|set_solver|].
  exists H2, r2. split_and!; try done. apply (tree_at_agree H1); [done|]. intros b Hb. apply Hag2. set_solver.
Qed.

(** ** Chains *)

Definition chain_tree (key : option Z) (cs : list Z) (u : rtree) : rtree := RT key (Z.of_nat (length cs) >? 1) cs [u].

Definition chain_frame (key : option Z) (cs : list Z) : frame :=
  match cs with [c] => FN key [] c [] [] [] | _ => FC key cs end.

Lemma fill_chain key cs u : cs <> [] -> fill (chain_frame key cs) u = chain_tree key cs u.
Proof. destruct cs as [|c [|c' cs]]; [done|done|]. intros _. unfold chain_tree. simpl. f_equal. lia. Qed.

Lemma fpath_chain key cs : cs <> [] -> fpath (chain_frame key cs) = cs.
Proof. by destruct cs as [|c [|c' cs]]. Qed.

Lemma chain_frame_wf key cs : cs <> [] -> wf_frame (chain_frame key cs).
Proof.
  destruct cs as [|c [|c' cs]]; [done| |simpl; lia]. intros _. cbn. split_and!; try done. repeat constructor.
Qed.

Lemma chain_wf key cs u : cs <> [] -> wf u -> live u -> wf (chain_tree key cs u) /\ live (chain_tree key cs u).
Proof. intros Hne Hw Hl. rewrite <- fill_chain by done. by apply fill_wf; [apply chain_frame_wf|..]. Qed.

Lemma tfind_chain key cs u s : cs <> [] -> s <> [] -> tfind (chain_tree key cs u) s = (s' ← strip cs s; tfind u s').
Proof.
  intros Hc Hs. destruct (strip cs s) as [s'|] eqn:E.
  - apply strip_Some in E. subst s. rewrite <- fill_chain by done. rewrite <- (fpath_chain key cs Hc) at 2.
    rewrite fill_inside; [done|]. by apply wf_frame_ok, chain_frame_wf.
  - destruct cs as [|c [|c' cs]]; [done| |].
    + destruct s as [|x s]; [done|]. unfold chain_tree. cbn [length]. change (Z.of_nat 1 >? 1) with false. rewrite tfind_node. cbn [edge].
      cbn [strip] in E. by destruct (c =? x).
    + unfold chain_tree. replace (Z.of_nat (length (c :: c' :: cs)) >? 1) with true by (simpl; lia). rewrite tfind_compr by done. by rewrite E.
Qed.

Lemma last_child n key compr cs x : node_rep n key compr cs [x] -> raxNodeLastChildPtr n = slots cs.
Proof.
  intros [F (slack & L) _ _]. unfold raxNodeLastChildPtr. rewrite (current_length _ _ _ _ _ L), length_ptrs. unfold slots. simpl. lia.
Qed.

Lemma link_chain key cs fs a stk : cs <> [] -> link_of (chain_frame key cs :: fs) (a :: stk) = LSlot a (slots cs).
Proof. destruct cs as [|c [|c' cs]]; [done| |done]. intros _. cbn. by rewrite Z.add_0_r. Qed.

(** A frame of a chain on top of a context. *)
Lemma ctx_chain H root fs a stk fp n key cs x : ctx_at H root fs a stk fp -> H !! a = Some n ->
  node_rep n key (Z.of_nat (length cs) >? 1) cs [x] -> cs <> [] -> addr a -> a ∉ fp ->
  ctx_at H root (chain_frame key cs :: fs) x (a :: stk) ({[a]} ∪ fp).
Proof.
  intros Hc E Hrep Hne Ha Hn. destruct cs as [|c [|c' cs]]; [done| |].
  - replace ({[a]} ∪ fp) with ({[a]} ∪ (∅ ∪ ∅) ∪ fp) by set_solver.
    apply (ctx_at_node _ _ _ _ _ _ n key [] c [] [] x []); try done; try constructor; set_solver.
  - apply (ctx_at_compr _ _ _ _ _ _ n); try done. replace true with (Z.of_nat (length (c :: c' :: cs)) >? 1) by (simpl; lia). done.
Qed.

Lemma chain_node_spec n cs N : cs <> [] -> Z.of_nat (length cs) < 2 ^ 29 -> 0 <= N -> 4 + Z.of_nat (length (data n)) = single_size (Z.of_nat (length cs)) false + N ->
  exists n' P rest, chain_node n cs = Some n' /\ layout n' (Z.of_nat (length cs) >? 1) cs P rest /\ length P = 8%nat /\ Z.of_nat (length rest) = N /\
    iskey n' = iskey n /\ isnull n' = isnull n.
Proof.
  intros Hne Hm HN Hl. unfold chain_node. set (n0 := set_iscompr _ _).
  destruct (fill_layout n0 (Z.of_nat (length cs) >? 1) cs N) as (P & rest & d & E & L & Hr); [done|cbn; by rewrite wrap_id by (unfold in_u; lia)|done|done| |].
  - cbn [n0 data set_iscompr set_size]. unfold single_size in Hl. destruct cs as [|c [|c' cs]]; [done|simpl in *; lia|].
    replace (Z.of_nat (length (c :: c' :: cs)) >? 1) with true by (simpl; lia). lia.
  - exists (set_data n0 d), P, rest. split_and!; try done. pose proof (lay_ptrs _ _ _ _ _ L) as HP.
    destruct cs as [|c [|c' cs]]; [done|simpl in HP; lia|]. replace (Z.of_nat (length (c :: c' :: cs)) >? 1) with true in HP by (simpl; lia). lia.
Qed.

(** ** The state of the tree around a node *)

Definition hole_at (H : heap) (root : Z) (fs : list frame) (x : Z) (stk : list Z) (t : rtree) (fpt fpc : gset Z) : Prop :=
  ctx_at H root fs x stk fpc /\ tree_at H x t fpt /\ fpt ## fpc /\ dom H = fpt ∪ fpc.

Definition hole (H : heap) (r : rax) (fs : list frame) (x : Z) (stk : list Z) (t : rtree) : Prop :=
  (exists fpt fpc, hole_at H (rhead r) fs x stk t fpt fpc) /\ numnodes r = Z.of_nat (size H).

Lemma moved_dom (H : heap) x n x' n' : H !! x = Some n -> moved H x x' ->
  dom (<[x' := n']> (delete x H)) = {[x']} ∪ dom H ∖ {[x]} /\ size (<[x' := n']> (delete x H)) = size H.
Proof.
  intros E Hm. split; [rewrite dom_insert_L, dom_delete_L; done|]. destruct Hm as [->|Hm].
  - rewrite insert_delete_eq, map_size_insert_Some by eauto. done.
  - rewrite map_size_insert_None by (rewrite lookup_delete_ne by congruence; done). rewrite map_size_delete_Some by eauto.
    assert (size H <> 0)%nat by (intros Hs%map_size_empty_inv; subst; by rewrite lookup_empty in E). lia.
Qed.

Lemma moved_fresh (H : heap) x x' fp : moved H x x' -> x ∉ fp -> fp ⊆ dom H -> x' ∉ fp.
Proof. intros [->|Hn] Hx Hs; [done|]. by apply (fresh_not_in_fp Hs). Qed.

Lemma moved_agree (H : heap) x x' n' b : b <> x -> b <> x' -> <[x' := n']> (delete x H) !! b = H !! b.
Proof. intros. rewrite lookup_insert_ne, lookup_delete_ne by done. done. Qed.

Lemma dom_size (H H' : heap) : dom H' = dom H -> size H' = size H.
Proof. intros E. by rewrite <- !size_dom, E. Qed.

Section Insert.
Context `{alloc : RaxAlloc} {alloc_ok : RaxAllocOk}.

(** A node that was moved to [x'], and its link. *)
Lemma hole_moved H r fs x stk compr cs ts n kids fps fpc x' n' key' :
  ctx_at H (rhead r) fs x stk fpc -> H !! x = Some n -> trees_at H kids ts fps -> x ∉ fps -> ({[x]} ∪ fps) ## fpc -> dom H = {[x]} ∪ fps ∪ fpc ->
  moved H x x' -> addr x' -> node_rep n' key' compr cs kids ->
  exists H2 r2, write_link (<[x' := n']> (delete x H)) r (link_of fs stk) x' = Some (H2, r2) /\
    hole_at H2 (rhead r2) fs x' stk (RT key' compr cs ts) ({[x']} ∪ fps) fpc /\ H2 !! x' = Some n' /\ trees_at H2 kids ts fps /\ x' ∉ fps /\
    size H2 = size H /\ numele r2 = numele r /\ numnodes r2 = numnodes r.
Proof.
  intros Hc E Hts Hxf Hd Hdom Hm Ha' Hrep'. pose proof (trees_at_dom _ _ _ _ Hts) as Hfd. pose proof (ctx_at_dom _ _ _ _ _ _ Hc) as Hcd.
  pose proof (moved_fresh _ _ _ _ Hm Hxf Hfd) as Hx'f. assert (x ∉ fpc) as Hxc by set_solver. pose proof (moved_fresh _ _ _ _ Hm Hxc Hcd) as Hx'c.
  destruct (moved_dom H x n x' n' E Hm) as [Hdm Hsz]. set (H1 := <[x' := n']> (delete x H)) in *.
  assert (forall b, b ∈ fps -> H1 !! b = H !! b) as Hag by (intros b Hb; apply moved_agree; congruence).
  assert (tree_at H1 x' (RT key' compr cs ts) ({[x']} ∪ fps)) as Ht1 by (by eapply (node_at H); [..|apply lookup_insert_eq| | |]).
  destruct (relink H H1 r fs x stk fpc x' (RT key' compr cs ts) ({[x']} ∪ fps) Hc) as (H2 & r2 & Ew & Hc2 & Ht2 & Hag2 & Hdom2 & Hn2 & Hm2);
    [intros b Hb; apply moved_agree; congruence|done|clear -Hd Hx'c; set_solver|].
  exists H2, r2. split; [done|]. split; [|split; [|split; [|split; [done|]]]].
  - split_and!; try done; [clear -Hd Hx'c; set_solver|]. rewrite Hdom2, Hdm, Hdom. clear -Hd Hxf. set_solver.
  - rewrite Hag2 by done. by apply lookup_insert_eq.
  - apply (trees_at_agree H); [done|]. intros b Hb. rewrite Hag2 by (clear -Hd Hb; set_solver). by apply Hag.
  - rewrite (dom_size _ _ Hdom2). done.
Qed.

(** A node changed in place. *)
Lemma hole_update H root fs x stk key compr cs ts kids fps fpc n' key' :
  hole_at H root fs x stk (RT key compr cs ts) ({[x]} ∪ fps) fpc -> trees_at H kids ts fps -> x ∉ fps -> node_rep n' key' compr cs kids -> addr x ->
  hole_at (<[x := n']> H) root fs x stk (RT key' compr cs ts) ({[x]} ∪ fps) fpc /\ size (<[x := n']> H) = size H.
Proof.
  intros (Hc & Ht & Hd & Hdom) Hts Hxf Hrep Ha. assert (is_Some (H !! x)) as Hx by (apply elem_of_dom; rewrite Hdom; clear; set_solver).
  split; [split_and!|by rewrite map_size_insert_Some].
  - apply (ctx_at_agree H); [done|]. intros b Hb. apply lookup_insert_ne. clear -Hd Hb. set_solver.
  - eapply (node_at H); [done| |by apply lookup_insert_eq|done..]. intros b Hb. apply lookup_insert_ne. congruence.
  - done.
  - rewrite dom_insert_lookup_L by done. done.
Qed.

Lemma has_value_None n compr cs kids : node_rep n None compr cs kids -> has_value n = false.
Proof. intros Hr. unfold has_value. by rewrite (nr_key _ _ _ _ _ Hr). Qed.

Lemma insert_existing_spec H r fs x stk key compr cs ts d overwrite :
  hole H r fs x stk (RT key compr cs ts) -> in_u 64 d -> Z.of_nat (size H) < 2 ^ 48 ->
  exists H' r' x', insert_existing H r x (link_of fs stk) d overwrite = Some (H', r', b2z (bool_decide (key = None)), key) /\
    hole H' r' fs x' stk (RT (if bool_decide (is_Some key) && negb overwrite then key else Some d) compr cs ts) /\
    numele r' = numele r + b2z (bool_decide (key = None)) /\ size H' = size H.
Proof.
  intros [(fpt & fpc & Hh) Hnn] Hd Hsz. pose proof Hh as (Hc & Ht & Hdj & Hdom).
  destruct (tree_at_inv _ _ _ _ _ _ _ Ht) as (n & kids & fps & E & Hrep & Ha & Hts & Hxf & ->).
  unfold insert_existing. rewrite E. cbn [mbind option_bind]. rewrite (nr_key _ _ _ _ _ Hrep).
  destruct (negb (bool_decide (is_Some key)) || isnull n && overwrite) eqn:Ec.
  - assert (has_value n = false) as Hv.
    { unfold has_value. rewrite (nr_key _ _ _ _ _ Hrep). destruct (bool_decide (is_Some key)); [|done]. cbn in *. by destruct (isnull n). }
    destruct (raxReallocForData_spec H x n key compr cs kids d E Hrep Ha Hsz Hd Hv) as (x' & n' & -> & Hm & Ha' & Hrep' & n'' & Es & Hrep'').
    cbn [mbind option_bind].
    destruct (hole_moved H r fs x stk compr cs ts n kids fps fpc x' n' key Hc E Hts Hxf Hdj Hdom Hm Ha' Hrep') as (H2 & r2 & -> & Hh2 & E2 & Hts2 & Hxf2 & Hsz2 & Hne & Hnn2).
    cbn [mbind option_bind]. rewrite E2. cbn [mbind option_bind]. rewrite (nr_key _ _ _ _ _ Hrep'). unfold upd_node. rewrite E2. cbn [mbind option_bind]. rewrite Es. cbn [mbind option_bind].
    destruct (hole_update H2 (rhead r2) fs x' stk key compr cs ts kids fps fpc n'' (Some d) Hh2 Hts2 Hxf2 Hrep'' Ha') as [Hh3 Hsz3].
    destruct key as [v|].
    + rewrite (raxGetData_spec _ _ _ _ _ Hrep'). destruct overwrite; [|by rewrite andb_false_r in Ec]. cbn.
      eexists _, r2, x'. split; [done|]. split; [split; [eauto|rewrite Hsz3; lia]|]. split; [lia|]. lia.
    + cbn. eexists _, (add_ele r2 1), x'. split; [done|]. split; [split; [eauto|cbn; rewrite Hsz3; lia]|]. cbn. lia.
  - cbn [mbind option_bind]. rewrite E. cbn [mbind option_bind]. rewrite (nr_key _ _ _ _ _ Hrep). destruct key as [v|]; [|done]. cbn in Ec |- *.
    rewrite (raxGetData_spec _ _ _ _ _ Hrep). cbn [mbind option_bind]. destruct overwrite; cbn.
    + assert (has_value n = true) as Hv by (unfold has_value; rewrite (nr_key _ _ _ _ _ Hrep); cbn; by destruct (isnull n)).
      destruct (raxSetData_spec n (Some v) compr cs kids d Hrep Hd) as (n' & Es & Hrep').
      { intros _. rewrite Hv. destruct Hrep as [F (slack & L) _ _]. pose proof (layout_length _ _ _ _ _ L) as Hl. rewrite length_app in Hl.
        rewrite (current_length _ _ _ _ _ L), (has_value_flags _ _ F). pose proof (has_value_flags _ _ F). rewrite Hv in *. lia. }
      unfold upd_node. rewrite E. cbn [mbind option_bind]. rewrite Es. cbn [mbind option_bind].
      destruct (hole_update H (rhead r) fs x stk (Some v) compr cs ts kids fps fpc n' (Some d) Hh Hts Hxf Hrep' Ha) as [Hh3 Hsz3].
      eexists _, r, x. split; [done|]. split; [split; [eauto|by rewrite Hsz3]|]. split; [lia|done].
    + eexists H, r, x. split; [done|]. split; [split; [eauto|done]|]. split; [lia|done].
Qed.

(** ** New nodes *)

(** A node that moved to [x'] and got a child, and its link. *)
Lemma push_child H r fs x stk n kids ts fps fpc x' child n' :
  ctx_at H (rhead r) fs x stk fpc -> H !! x = Some n -> trees_at H kids ts fps -> x ∉ fps -> ({[x]} ∪ fps) ## fpc -> dom H = {[x]} ∪ fps ∪ fpc ->
  H !! child = None -> moved H x x' -> x' <> child -> addr x' ->
  exists H2 r2, write_link (<[x' := n']> (delete x (<[child := leaf_node]> H))) r (link_of fs stk) x' = Some (H2, r2) /\
    ctx_at H2 (rhead r2) fs x' stk fpc /\ H2 !! x' = Some n' /\ H2 !! child = Some leaf_node /\ trees_at H2 kids ts fps /\
    x' ∉ fps /\ x' ∉ fpc /\ child ∉ fps /\ child ∉ fpc /\ dom H2 = {[child]} ∪ ({[x']} ∪ fps ∪ fpc) /\ size H2 = S (size H) /\
    numele r2 = numele r /\ numnodes r2 = numnodes r.
Proof.
  intros Hc E Hts Hxf Hd Hdom Hch Hm Hne Ha'. pose proof (trees_at_dom _ _ _ _ Hts) as Hfd. pose proof (ctx_at_dom _ _ _ _ _ _ Hc) as Hcd.
  assert (x <> child) as Hxch by congruence. assert (x ∉ fpc) as Hxc by (clear -Hd; set_solver).
  pose proof (moved_fresh _ _ _ _ Hm Hxf Hfd) as Hx'f. pose proof (moved_fresh _ _ _ _ Hm Hxc Hcd) as Hx'c.
  pose proof (fresh_not_in_fp Hfd Hch) as Hcf. pose proof (fresh_not_in_fp Hcd Hch) as Hcc.
  destruct (moved_dom (<[child := leaf_node]> H) x n x' n') as [Hdm Hsz];
    [by rewrite lookup_insert_ne by done|destruct Hm as [->|Hm]; [by left|right; by rewrite lookup_insert_ne by done]|].
  set (H1 := <[x' := n']> (delete x (<[child := leaf_node]> H))) in *.
  assert (forall b, b <> x -> b <> x' -> b <> child -> H1 !! b = H !! b) as Hag by (intros b ???; unfold H1; rewrite moved_agree, lookup_insert_ne by done; done).
  destruct (ctx_write H1 r fs x stk fpc x') as (H2 & r2 & Ew & Hc2 & Hag2 & Hdom2 & Hn2 & Hm2);
    [apply (ctx_at_agree H); [done|intros b Hb; apply Hag; congruence]|done|done|].
  exists H2, r2. split_and!; try done.
  - rewrite Hag2 by done. apply lookup_insert_eq.
  - rewrite Hag2 by done. unfold H1. rewrite lookup_insert_ne, lookup_delete_ne, lookup_insert_eq by done. done.
  - apply (trees_at_agree H); [done|]. intros b Hb. rewrite Hag2 by (clear -Hd Hb; set_solver). apply Hag; congruence.
  - rewrite Hdom2, Hdm, dom_insert_L, Hdom. clear -Hxf Hd Hxch. set_solver.
  - rewrite (dom_size _ _ Hdom2), Hsz. by apply map_size_insert_None.
Qed.

Lemma leaf_at H a : H !! a = Some leaf_node -> addr a -> tree_at H a leaf_tree ({[a]} ∪ ∅).
Proof. intros E Ha. eapply tree_at_node; [done|apply leaf_rep|done|constructor|set_solver]. Qed.

Lemma insert_nodes_nil fuel H r x l : (0 < fuel)%nat -> insert_nodes fuel H r x l [] = Some (H, r, x, l).
Proof. by destruct fuel; [lia|]. Qed.

(** One round of the loop. *)
Lemma insert_nodes_step fuel H r fs x stk key cs ts c s :
  hole H r fs x stk (RT key false cs ts) -> wf (RT key false cs ts) -> Forall wf_frame fs -> c ∉ cs -> Forall byteZ (c :: s) ->
  Z.of_nat (size H) + 1 < 2 ^ 48 ->
  exists H' r' f x' stk' s', insert_nodes (S fuel) H r x (link_of fs stk) (c :: s) = insert_nodes fuel H' r' x' (link_of (f :: fs) stk') s' /\
    hole H' r' (f :: fs) x' stk' leaf_tree /\ wf_frame f /\ c :: s = fpath f ++ s' /\ (length s' <= length s)%nat /\
    (forall s', tfind (fill f leaf_tree) s' = tfind (RT key false cs ts) s') /\ numele r' = numele r /\ size H' = S (size H).
Proof.
  intros [(fpt & fpc & Hc & Ht & Hd & Hdom) Hnn] Hw Hf Hcc Hb Hsz.
  destruct (tree_at_inv _ _ _ _ _ _ _ Ht) as (n & kids & fps & E & Hrep & Ha & Hts & Hxf & ->).
  inversion Hw as [|key' cs' ts' Hso Hlen Hall]; subst. cbn [insert_nodes]. rewrite E. cbn [mbind option_bind]. rewrite (nr_size _ _ _ _ _ Hrep).
  destruct ((Z.of_nat (length cs) =? 0) && (Z.of_nat (length (c :: s)) >? 1)) eqn:Eb.
  - destruct cs as [|]; [|simpl in Eb; lia]. destruct ts as [|]; [|done]. inversion Hts; subst.
    set (k := Z.to_nat (if Z.of_nat (length (c :: s)) >? _ then _ else _)).
    assert (2 <= k <= length (c :: s))%nat as Hk by (unfold k; simpl length in *; change (Z.shiftl 1 29) with (2 ^ 29); destruct (Z.gtb_spec (Z.of_nat (S (length s))) (2 ^ 29 - 1)); lia).
    assert (Z.of_nat k < 2 ^ 29) as Hk2 by (unfold k; change (Z.shiftl 1 29) with (2 ^ 29); destruct (Z.gtb_spec (Z.of_nat (length (c :: s))) (2 ^ 29 - 1)); lia).
    destruct (raxCompressNode_spec H x n key (take k (c :: s)) E Hrep Ha Hsz) as (x' & child & n' & -> & Hch & Hac & Hm & Hne & Ha' & Hrep');
      [rewrite length_take; lia|by apply Forall_take|]. cbn [mbind option_bind].
    destruct (push_child H r fs x stk n [] [] ∅ fpc x' child n') as (H2 & r2 & -> & Hc2 & E2 & Ec2 & Hts2 & H5 & H6 & H7 & H8 & Hdom2 & Hsz2 & Hn2 & Hm2); try done.
    cbn [mbind option_bind]. rewrite E2. cbn [mbind option_bind]. rewrite (last_child _ _ _ _ _ Hrep').
    eexists H2, (add_nodes r2 1), (FC key (take k (c :: s))), child, (x' :: stk), (drop k (c :: s)). split; [done|].
    assert (take k (c :: s) <> []) as Hnil by (destruct k; [lia|done]).
    split_and!; try done; [|cbn [wf_frame]; rewrite length_take; lia|cbn [fpath]; by rewrite take_drop|rewrite length_drop; simpl length in *; lia|intros s'; by apply fill_leaf_compr].
    split; [|cbn; lia]. exists ({[child]} ∪ ∅), ({[x']} ∪ fpc). split_and!.
    + apply (ctx_at_compr _ _ _ _ _ _ n'); done.
    + by apply leaf_at.
    + clear -H8 Hne. set_solver.
    + rewrite Hdom2. clear. set_solver.
  - apply Forall_cons in Hb as [Hbc Hbs]. pose proof (sorted_length cs Hso (nr_chars _ _ _ _ _ Hrep)) as H256.
    destruct (raxAddChild_spec H x n key cs kids c E Hrep Ha Hsz) as (x' & child & n' & -> & Hch & Hac & Hm & Hne & Ha' & Hrep'); [lia|done|].
    cbn [mbind option_bind]. set (k := Z.to_nat (child_pos cs c)) in *. pose proof (child_pos_range cs c) as Hkr.
    destruct (push_child H r fs x stk n kids ts fps fpc x' child n') as (H2 & r2 & -> & Hc2 & E2 & Ec2 & Hts2 & H5 & H6 & H7 & H8 & Hdom2 & Hsz2 & Hn2 & Hm2); try done.
    cbn [mbind option_bind]. rewrite (first_child _ _ _ _ _ Hrep').
    eexists H2, (add_nodes r2 1), (FN key (take k cs) c (drop k cs) (take k ts) (drop k ts)), child, (x' :: stk), s.
    assert (length (take k cs) = k) as Hlk by (rewrite length_take; lia).
    split; [cbn [link_of]; rewrite Hlk; replace (Z.of_nat k) with (child_pos cs c) by lia; done|].
    pose proof (child_pos_sorted cs c Hso Hcc) as Hso'. fold k in Hso'. destruct (sorted_notin _ _ _ Hso') as [Hn1 Hn2'].
    split_and!; try done.
    + split; [|cbn; lia]. rewrite <- (take_drop k ts) in Hts2. destruct (trees_at_app_inv _ _ _ _ _ Hts2) as (kl & kr & fl & fr & Ek & Hl & Hr & Hdlr & ->).
      assert (length kl = k) as Hkl by (rewrite (trees_at_length _ _ _ _ Hl), length_take; lia).
      assert (take k kids = kl) as Etk by (by rewrite Ek, <- Hkl, take_app_length). assert (drop k kids = kr) as Edk by (by rewrite Ek, <- Hkl, drop_app_length).
      rewrite Etk, Edk in Hrep'. exists ({[child]} ∪ ∅), ({[x']} ∪ (fl ∪ fr) ∪ fpc). split_and!.
      * apply (ctx_at_node _ _ _ _ _ _ n' key (take k cs) c (drop k cs) kl child kr); try done; [rewrite !length_take; lia|rewrite !length_drop; lia| |clear -Hd; set_solver].
        intros Hin. destruct (trees_at_in _ _ _ _ _ Hl Hin) as [Hi _]. clear -Hi H7. set_solver.
      * by apply leaf_at.
      * clear -H7 H8 Hne. set_solver.
      * rewrite Hdom2. clear. set_solver.
    + cbn [wf_frame]. split_and!; [done|rewrite !length_take; lia|rewrite !length_drop; lia|by apply Forall_take|by apply Forall_drop].
    + intros s'. rewrite fill_leaf_node by (try done; rewrite !length_take; lia). by rewrite !take_drop.
Qed.

Lemma insert_nodes_spec fuel : forall H r fs x stk key cs ts c s,
  hole H r fs x stk (RT key false cs ts) -> wf (RT key false cs ts) -> Forall wf_frame fs -> c ∉ cs -> Forall byteZ (c :: s) ->
  Z.of_nat (size H + length (c :: s)) < 2 ^ 48 -> (length (c :: s) < fuel)%nat ->
  exists H' r' fs' x' stk', insert_nodes fuel H r x (link_of fs stk) (c :: s) = Some (H', r', x', link_of fs' stk') /\
    hole H' r' fs' x' stk' leaf_tree /\ Forall wf_frame fs' /\ path fs' = path fs ++ c :: s /\
    (forall s', tfind (plug fs' leaf_tree) s' = tfind (plug fs (RT key false cs ts)) s') /\
    numele r' = numele r /\ (size H' <= size H + length (c :: s))%nat.
Proof.
  induction fuel as [|fuel IH]; intros H r fs x stk key cs ts c s Hh Hw Hf Hc Hb Hsz Hfu; [lia|].
  destruct (insert_nodes_step fuel H r fs x stk key cs ts c s Hh Hw Hf Hc Hb) as (H1 & r1 & f & x1 & stk1 & s1 & -> & Hh1 & Hwf & Es & Hls & Hfi & Hn1 & Hs1);
    [simpl in Hsz; lia|].
  assert (forall s', tfind (plug (f :: fs) leaf_tree) s' = tfind (plug fs (RT key false cs ts)) s') as Hpl by (cbn [plug]; apply plug_ext; [by apply wf_frames_ok|done]).
  destruct s1 as [|c1 s1].
  - rewrite insert_nodes_nil by (simpl in Hfu; lia). exists H1, r1, (f :: fs), x1, stk1. split_and!; try done; [by constructor|cbn [path]; by rewrite Es, app_nil_r|simpl; lia].
  - assert (Forall byteZ (c1 :: s1)) as Hb1 by (rewrite Es, Forall_app in Hb; tauto).
    destruct (IH H1 r1 (f :: fs) x1 stk1 None [] [] c1 s1) as (H' & r' & fs' & x' & stk' & -> & Hh' & Hf' & Ep & Hfi' & Hn' & Hs'); try done.
    + by repeat constructor.
    + by constructor.
    + apply not_elem_of_nil.
    + simpl length in *. lia.
    + simpl length in *. lia.
    + exists H', r', fs', x', stk'. split_and!; try done.
      * rewrite Ep, Es. cbn [path]. by rewrite <- app_assoc.
      * intros s'. rewrite Hfi'. apply Hpl.
      * lia.
      * simpl length in *. lia.
Qed.

Lemma insert_new_spec H r fs x stk key cs ts c s d :
  hole H r fs x stk (RT key false cs ts) -> wf (RT key false cs ts) -> Forall wf_frame fs -> c ∉ cs -> Forall byteZ (c :: s) -> in_u 64 d ->
  Z.of_nat (size H + length (c :: s)) < 2 ^ 48 ->
  exists H' r' fs' x' stk', insert_new H r x (link_of fs stk) (c :: s) d = Some (H', r', 1, None) /\
    hole H' r' fs' x' stk' (RT (Some d) false [] []) /\ Forall wf_frame fs' /\
    (forall s', tfind (plug fs' (RT (Some d) false [] [])) s' = if decide (s' = path fs ++ c :: s) then Some d else tfind (plug fs (RT key false cs ts)) s') /\
    numele r' = numele r + 1 /\ (size H' <= size H + length (c :: s))%nat.
Proof.
  intros Hh Hw Hf Hc Hb Hd Hsz. unfold insert_new.
  destruct (insert_nodes_spec (S (length (c :: s))) H r fs x stk key cs ts c s Hh Hw Hf Hc Hb Hsz ltac:(lia)) as (H1 & r1 & fs1 & x1 & stk1 & -> & Hh1 & Hf1 & Ep & Hfi & Hn1 & Hs1).
  cbn [mbind option_bind]. destruct Hh1 as [(fpt & fpc & Hc1 & Ht1 & Hdj & Hdom) Hnn].
  destruct (tree_at_inv _ _ _ _ _ _ _ Ht1) as (n & kids & fps & E & Hrep & Ha & Hts & Hxf & ->).
  destruct (raxReallocForData_spec H1 x1 n None false [] kids d E Hrep Ha ltac:(lia) Hd (has_value_None _ _ _ _ Hrep)) as (x' & n' & -> & Hm & Ha' & Hrep' & n'' & Es & Hrep'').
  cbn [mbind option_bind]. rewrite lookup_insert_eq. cbn [mbind option_bind]. rewrite (nr_key _ _ _ _ _ Hrep'). cbn [bool_decide].
  unfold upd_node. rewrite lookup_insert_eq. cbn [mbind option_bind]. rewrite Es. cbn [mbind option_bind]. rewrite insert_insert_eq.
  destruct (hole_moved H1 (add_ele r1 1) fs1 x1 stk1 false [] [] n kids fps fpc x' n'' (Some d) Hc1 E Hts Hxf Hdj Hdom Hm Ha' Hrep'') as (H2 & r2 & Ew & Hh2 & E2 & Hts2 & Hxf2 & Hsz2 & Hne & Hnn2).
  assert (bool_decide (is_Some (@None Z)) = false) as -> by done. cbn [mbind option_bind]. rewrite Ew. cbn [mbind option_bind].
  exists H2, r2, fs1, x', stk1. split; [done|]. split; [split; [eauto|cbn in *; lia]|]. split; [done|]. split; [|cbn in *; lia].
  intros s'. rewrite (plug_update fs1 leaf_tree _ [] (Some d) (wf_frames_ok _ Hf1)).
  - rewrite app_nil_r, Ep. by rewrite Hfi.
  - intros [|y s2]; cbn; [done|]. by rewrite decide_False.
Qed.

(** ** Splitting a compressed node *)

(** A value read from one node is written to a new one. *)
Lemma copy_key m key compr cs P rest n : layout m compr cs P rest -> key_flags n key -> raxGetData n = Some (default 0 key) \/ key = None ->
  iskey m = bool_decide (is_Some key) -> Z.of_nat (length (val_bytes key)) <= Z.of_nat (length rest) -> isnull m = isnull n ->
  exists m' slack, (if has_value n then d ← raxGetData n; raxSetData m d else Some m) = Some m' /\
    layout m' compr cs P (val_bytes key ++ slack) /\ key_flags m' key.
Proof.
  intros L F Hg Hk Hr Hn. pose proof (has_value_flags n key F) as Hv. destruct (has_value n) eqn:Ev.
  - destruct key as [v|]; [|simpl in Hv; lia]. destruct Hg as [->|]; [|done]. cbn [default from_option mbind option_bind id].
    apply (raxSetData_layout m compr cs P rest v L); [by apply F|]. intros _. rewrite <- Hv in Hr. lia.
  - exists m, rest. split; [done|]. destruct (val_bytes key) eqn:Eb; [|simpl in Hv; lia]. split; [done|]. split; [done| |apply F].
    intros v ->. rewrite Hn. by apply F.
Qed.

Lemma split_postfix_spec H r cs next postfix p0 : addr next -> Forall byteZ cs -> Z.of_nat (length cs) < 2 ^ 29 ->
  (cs <> [] -> H !! postfix = Some p0 /\ 4 + Z.of_nat (length (data p0)) = single_size (Z.of_nat (length cs)) false) ->
  exists p', split_postfix H r cs next postfix =
      Some (if bool_decide (cs = []) then (H, r, next) else (<[postfix := p']> H, add_nodes r 1, postfix)) /\
    (cs <> [] -> node_rep p' None (Z.of_nat (length cs) >? 1) cs [next]).
Proof.
  intros Ha Hb Hm Hp. unfold split_postfix. destruct cs as [|c cs']; [by exists p0|]. set (cs := c :: cs') in *. assert (cs <> []) as Hne by done.
  destruct (Hp Hne) as [E Hl]. replace (Z.of_nat (length cs) =? 0) with false by (simpl; lia). cbn [negb]. rewrite E. cbn [mbind option_bind].
  destruct (chain_node_spec (set_isnull (set_iskey p0 false) false) cs 0 Hne Hm ltac:(lia)) as (n1 & P & rest & -> & L1 & HP & Hr & Hk1 & Hn1); [cbn [data set_isnull set_iskey]; lia|].
  cbn [mbind option_bind]. destruct (write_last n1 _ cs [] P next rest L1 HP) as (d & -> & L2). cbn [mbind option_bind].
  exists (set_data n1 d). split; [done|]. intros _. split; [by split|by exists rest|done|]. by apply Forall_singleton, addr_in_u.
Qed.

(** What the trimmed node adds above the split node. *)
Definition top_frames (key : option Z) (c1 : list Z) (fs : list frame) : list frame := match c1 with [] => fs | _ => chain_frame key c1 :: fs end.
Definition top_stk (c1 : list Z) (tr : Z) (stk : list Z) : list Z := match c1 with [] => stk | _ => tr :: stk end.
Definition top_fp (c1 : list Z) (tr : Z) : gset Z := match c1 with [] => ∅ | _ => {[tr]} end.
Definition top_key (key : option Z) (c1 : list Z) : option Z := match c1 with [] => key | _ => None end.

Lemma split_top_spec H r fs x stk fpc n key c1 y c2 k sp tr m0 P rest t0 :
  ctx_at H (rhead r) fs x stk fpc -> node_rep n key true (c1 ++ y :: c2) [k] ->
  H !! sp = Some m0 -> layout m0 false [y] P rest -> iskey m0 = false -> addr sp -> sp ∉ fpc ->
  (c1 = [] -> Z.of_nat (length (val_bytes key)) <= Z.of_nat (length rest)) ->
  (c1 <> [] -> H !! tr = Some t0 /\ 4 + Z.of_nat (length (data t0)) = single_size (Z.of_nat (length c1)) (has_value n) /\ addr tr /\ tr ∉ fpc /\ tr <> sp) ->
  exists H' r' m' slack, split_top H r n (c1 ++ y :: c2) (link_of fs stk) (Z.of_nat (length c1)) sp tr =
      Some (H', r', link_of (top_frames key c1 fs) (top_stk c1 tr stk)) /\
    ctx_at H' (rhead r') (top_frames key c1 fs) sp (top_stk c1 tr stk) (top_fp c1 tr ∪ fpc) /\
    H' !! sp = Some m' /\ layout m' false [y] P (val_bytes (top_key key c1) ++ slack) /\ key_flags m' (top_key key c1) /\
    (forall b, b ∉ fpc -> b <> sp -> b ∉ top_fp c1 tr -> H' !! b = H !! b) /\ dom H' = dom H /\
    numele r' = numele r /\ numnodes r' = numnodes r + Z.of_nat (size (top_fp c1 tr)).
Proof.
  intros Hc Hrep Em L Hk Hsp Hspc Hr0 Ht0. unfold split_top. pose proof (nr_flags _ _ _ _ _ Hrep) as F. pose proof (get_key _ _ _ _ _ Hrep) as Hg.
  pose proof (nr_key _ _ _ _ _ Hrep) as Hik. pose proof (nr_chars _ _ _ _ _ Hrep) as Hb. pose proof (nr_max _ _ _ _ _ Hrep) as Hmx. rewrite length_app in Hmx. cbn [length] in Hmx.
  destruct c1 as [|c c1']; [|set (c1 := c :: c1') in *; assert (c1 <> []) as Hne by done].
  - assert (exists m' slack, (if iskey n then d ← raxGetData n; upd_node H sp (fun m => raxSetData m d) else Some H) = Some (<[sp := m']> H) /\
      layout m' false [y] P (val_bytes key ++ slack) /\ key_flags m' key) as (m' & slack & -> & L' & F').
    { destruct (iskey n) eqn:Ek.
      - rewrite Hg. cbn [mbind option_bind]. unfold upd_node. rewrite Em. cbn [mbind option_bind].
        symmetry in Hik. apply bool_decide_eq_true in Hik as [v ->]. cbn [default from_option id].
        destruct (raxSetData_layout m0 false [y] P rest v L) as (m' & slack & -> & L' & F'); [by apply F| |by exists m', slack].
        intros Hv. specialize (Hr0 eq_refl). rewrite length_val_bytes in Hr0. destruct (Z.eqb_spec v 0); lia.
      - exists m0, rest. symmetry in Hik. apply bool_decide_eq_false in Hik. destruct key; [by destruct Hik|]. rewrite insert_id by done. by split_and!. }
    cbn [mbind option_bind length Z.of_nat Z.eqb].
    destruct (ctx_write (<[sp := m']> H) r fs x stk fpc sp) as (H2 & r2 & -> & Hc2 & Hag2 & Hdom2 & Hn2 & Hm2);
      [apply (ctx_at_agree H); [done|intros b Hb'; apply lookup_insert_ne; congruence]|done|done|].
    cbn [mbind option_bind]. exists H2, r2, m', slack. cbn [top_frames top_stk top_fp top_key]. split_and!; try done.
    + by rewrite (left_id_L ∅ (∪)).
    + rewrite Hag2 by done. apply lookup_insert_eq.
    + intros b Hb1 Hb2 _. rewrite Hag2 by done. by apply lookup_insert_ne.
    + rewrite Hdom2. apply dom_insert_lookup_L. eauto.
    + rewrite size_empty. lia.
  - destruct (Ht0 Hne) as (Et & Hl & Hatr & Htrc & Htrs). replace (Z.of_nat (length c1) =? 0) with false by (simpl; lia). rewrite Et. cbn [mbind option_bind].
    rewrite Nat2Z.id, take_app_length.
    destruct (chain_node_spec t0 c1 (if has_value n then 8 else 0) Hne) as (n1 & P1 & rest1 & -> & L1 & HP1 & Hr1 & _); [lia|destruct (has_value n); lia|unfold single_size in *; lia|].
    cbn [mbind option_bind]. set (n2 := set_isnull _ _).
    destruct (copy_key n2 key (Z.of_nat (length c1) >? 1) c1 P1 rest1 n) as (n3 & slack & -> & L3 & F3); [by destruct L1; split|done| |done|rewrite <- (has_value_flags n key F); lia|done|].
    { destruct key as [v|]; [left|by right]. rewrite Hik in Hg. done. }
    cbn [mbind option_bind]. destruct (write_last n3 _ c1 [] P1 sp _ L3 HP1) as (d & -> & L4). cbn [mbind option_bind].
    assert (node_rep (set_data n3 d) key (Z.of_nat (length c1) >? 1) c1 [sp]) as Hrep4.
    { split; [by destruct F3; split|by exists slack|rewrite Forall_app in Hb; tauto|by apply Forall_singleton, addr_in_u]. }
    set (n4 := set_data n3 d) in *. assert (raxNodeLastChildPtr n3 = slots c1) as -> by (rewrite <- (last_child _ _ _ _ _ Hrep4); done).
    destruct (ctx_write (<[tr := n4]> H) r fs x stk fpc tr) as (H2 & r2 & -> & Hc2 & Hag2 & Hdom2 & Hn2 & Hm2);
      [apply (ctx_at_agree H); [done|intros b Hb'; apply lookup_insert_ne; congruence]|done|done|].
    cbn [mbind option_bind]. exists H2, (add_nodes r2 1), m0, rest. unfold c1. cbn [top_frames top_stk top_fp top_key]. fold c1. rewrite link_chain by done. split_and!; try done.
    + apply (ctx_chain _ _ _ _ _ _ n4); try done. rewrite Hag2 by done. apply lookup_insert_eq.
    + rewrite Hag2, lookup_insert_ne by done. done.
    + intros b Hb1 Hb2 Hb3. rewrite Hag2 by done. apply lookup_insert_ne. clear -Hb3. set_solver.
    + rewrite Hdom2. apply dom_insert_lookup_L. eauto.
    + rewrite size_singleton. cbn. lia.
Qed.

Lemma opt_malloc H (b : bool) sz : Z.of_nat (size H) < 2 ^ 48 -> exists H' a n,
  (if b then rax_malloc H sz else (H, 0)) = (H', a) /\ (forall c, c ∈ dom H -> H' !! c = H !! c) /\
  (b = true -> a ∉ dom H /\ addr a /\ H' !! a = Some n /\ length (data n) = Z.to_nat (sz - 4)) /\
  dom H' = (if b then {[a]} else ∅) ∪ dom H /\ (size H' <= S (size H))%nat.
Proof.
  intros Hsz. destruct b.
  - destruct (malloc_ok H Hsz) as [Hn Ha]. unfold rax_malloc. eexists _, (malloc_at H), _. split; [done|]. split_and!.
    + intros c Hc. apply lookup_insert_ne. intros <-. by apply not_elem_of_dom in Hn.
    + intros _. split_and!; [by apply not_elem_of_dom|done|by apply lookup_insert_eq|]. cbn [data]. by rewrite length_fmap, length_seq.
    + apply dom_insert_L.
    + rewrite map_size_insert_None by done. done.
  - exists H, 0, leaf_node. split_and!; try done; [set_solver|lia].
Qed.

(** The subtree behind the split character. *)
Definition post_tree (c2 : list Z) (u : rtree) : rtree := match c2 with [] => u | _ => chain_tree None c2 u end.
Definition split_tree (key : option Z) (c1 : list Z) (y : Z) (c2 : list Z) (u : rtree) : rtree := RT (top_key key c1) false [y] [post_tree c2 u].

Lemma post_find c2 u s : tfind (post_tree c2 u) s = (s' ← strip c2 s; tfind u s').
Proof.
  destruct c2 as [|c c2]; [done|]. cbn [post_tree]. destruct s as [|x s]; [done|]. by apply tfind_chain.
Qed.

Lemma split_find key c1 y c2 u fs s : Forall frame_ok fs ->
  tfind (plug (top_frames key c1 fs) (split_tree key c1 y c2 u)) s = tfind (plug fs (RT key true (c1 ++ y :: c2) [u])) s.
Proof.
  intros Hf. assert (forall k x s, tfind (RT k false [y] [post_tree c2 u]) (x :: s) = (s' ← strip (y :: c2) (x :: s); tfind u s')) as Hsp.
  { intros k x s0. rewrite tfind_node. cbn [edge strip]. destruct (y =? x); [apply post_find|done]. }
  destruct c1 as [|c c1]; cbn [top_frames top_key split_tree].
  - apply plug_ext; [done|]. intros [|x s']; [done|]. unfold split_tree. cbn [top_key]. rewrite Hsp, tfind_compr by done. done.
  - cbn [plug]. rewrite fill_chain by done. apply plug_ext; [done|]. intros [|x s']; [done|].
    rewrite tfind_chain by done. rewrite (tfind_compr key ((c :: c1) ++ y :: c2)), strip_app_l by done. destruct (strip (c :: c1) (x :: s')) as [[|z s2]|]; [done|apply Hsp|done].
Qed.

Lemma split_wf key c1 y c2 u : wf u -> live u -> wf (split_tree key c1 y c2 u).
Proof.
  intros Hw Hl. constructor; [repeat constructor|done|]. apply Forall_singleton. destruct c2; [done|]. by apply chain_wf.
Qed.

Lemma top_wf key c1 fs : Forall wf_frame fs -> Forall wf_frame (top_frames key c1 fs).
Proof. destruct c1; [done|]. intros. constructor; [by apply chain_frame_wf|done]. Qed.

Lemma top_path key c1 fs : path (top_frames key c1 fs) = path fs ++ c1.
Proof. destruct c1 as [|c c1]; [by rewrite app_nil_r|]. cbn [top_frames path]. by rewrite fpath_chain. Qed.

(** The new node behind the split character, in the heap. *)
Lemma post_at H kx u fu c2 postfix p' : tree_at H kx u fu -> (c2 <> [] -> node_rep p' None (Z.of_nat (length c2) >? 1) c2 [kx] /\ addr postfix /\ postfix ∉ fu) ->
  tree_at (if bool_decide (c2 = []) then H else <[postfix := p']> H) (if bool_decide (c2 = []) then kx else postfix) (post_tree c2 u)
    ((if bool_decide (c2 = []) then ∅ else {[postfix]}) ∪ fu).
Proof.
  intros Hu Hp. destruct c2 as [|c c2]; cbn [post_tree]; [by rewrite bool_decide_true, (left_id_L ∅ (∪)) by done|].
  rewrite bool_decide_false by done. destruct (Hp ltac:(done)) as (Hrep & Ha & Hn). rewrite <- (right_id_L ∅ (∪) fu).
  eapply tree_at_node; [by apply lookup_insert_eq|done|done| |set_solver].
  constructor; [|constructor|set_solver]. apply (tree_at_agree H); [done|]. intros b Hb. apply lookup_insert_ne. congruence.
Qed.

(** The blocks the split needs, with the split character written. *)
Lemma split_alloc H key c1 y c2 kx n : node_rep n key true (c1 ++ y :: c2) [kx] -> Z.of_nat (size H) + 3 < 2 ^ 48 ->
  exists sp tr po H1 H2 H3 m0 P rest t0 p0,
    raxNewNode H 1 ((Z.of_nat (length c1) =? 0) && iskey n && negb (isnull n)) = (H1, sp) /\
    (if negb (Z.of_nat (length c1) =? 0) then rax_malloc H1 (single_size (Z.of_nat (length c1)) (has_value n)) else (H1, 0)) = (H2, tr) /\
    (if negb (Z.of_nat (length c2) =? 0) then rax_malloc H2 (single_size (Z.of_nat (length c2)) false) else (H2, 0)) = (H3, po) /\
    upd_node H3 sp (fun m => node_write m 4 [y]) = Some (<[sp := m0]> H3) /\
    layout m0 false [y] P rest /\ iskey m0 = false /\ addr sp /\ sp ∉ dom H /\
    (c1 = [] -> Z.of_nat (length (val_bytes key)) <= Z.of_nat (length rest)) /\
    (c1 <> [] -> H3 !! tr = Some t0 /\ 4 + Z.of_nat (length (data t0)) = single_size (Z.of_nat (length c1)) (has_value n) /\ addr tr /\ tr ∉ dom H /\ tr <> sp) /\
    (c2 <> [] -> H3 !! po = Some p0 /\ 4 + Z.of_nat (length (data p0)) = single_size (Z.of_nat (length c2)) false /\ addr po /\ po ∉ dom H /\ po <> sp /\ po ∉ top_fp c1 tr) /\
    (forall b, b ∈ dom H -> H3 !! b = H !! b) /\ dom H3 = {[sp]} ∪ top_fp c1 tr ∪ top_fp c2 po ∪ dom H.
Proof.
  intros Hrep Hsz. destruct (malloc_ok H ltac:(lia)) as [Hsp Hasp]. apply not_elem_of_dom in Hsp. set (sp := malloc_at H) in *.
  unfold raxNewNode. fold sp. set (b := (Z.of_nat (length c1) =? 0) && iskey n && negb (isnull n)). set (m := mk_rnode _ _ _ _ _).
  assert (size (<[sp := m]> H) = S (size H)) as Hs1 by (apply map_size_insert_None; by apply not_elem_of_dom).
  destruct (opt_malloc (<[sp := m]> H) (negb (Z.of_nat (length c1) =? 0)) (single_size (Z.of_nat (length c1)) (has_value n))) as (H2 & tr & t0 & E2 & Hag2 & Htr & Hd2 & Hs2); [lia|].
  destruct (opt_malloc H2 (negb (Z.of_nat (length c2) =? 0)) (single_size (Z.of_nat (length c2)) false)) as (H3 & po & p0 & E3 & Hag3 & Hpo & Hd3 & Hs3); [lia|].
  rewrite dom_insert_L in Hd2, Hag2, Htr.
  assert (H3 !! sp = Some m) as Em by (rewrite Hag3, Hag2 by (rewrite ?Hd2; set_solver); apply lookup_insert_eq).
  destruct (fill_layout m false [y] (if b then 8 else 0)) as (P & rest & d & Ew & L & Hr); [done|done|done|by destruct b| |].
  { cbn [m data]. rewrite length_fmap, length_seq. change (raxPadding (Z.of_nat (length [y]))) with 3. change (raxPadding 1) with 3. simpl. destruct b; lia. }
  assert (forall c : list Z, single_size (Z.of_nat (length c)) false >= 4) as Hss by (intros c; unfold single_size; pose proof (raxPadding_range (Z.of_nat (length c))); lia).
  exists sp, tr, po, (<[sp := m]> H), H2, H3, (set_data m d), P, rest, t0, p0. split_and!; try done.
  - unfold upd_node. rewrite Em. cbn [mbind option_bind]. rewrite Ew. done.
  - intros ->. assert (b = has_value n) as Hb by done. rewrite Hb in Hr.
    rewrite <- (has_value_flags n key (nr_flags _ _ _ _ _ Hrep)). lia.
  - intros Hne. destruct c1 as [|c c1]; [done|]. destruct Htr as (Hn & Ha & Et & Hl); [done|]. split_and!; [|rewrite Hl; specialize (Hss (c :: c1)); unfold single_size in *; destruct (has_value n); lia|done|set_solver|set_solver].
    rewrite Hag3; [done|]. rewrite Hd2. cbn. set_solver.
  - intros Hne. destruct c2 as [|c c2]; [done|]. destruct Hpo as (Hn & Ha & Et & Hl); [done|]. rewrite Hd2 in Hn.
    split_and!; [done|rewrite Hl; specialize (Hss (c :: c2)); lia|done|set_solver|set_solver|]. destruct c1; cbn in *; set_solver.
  - intros c Hc. rewrite Hag3 by (rewrite Hd2; set_solver). rewrite Hag2 by set_solver. apply lookup_insert_ne. congruence.
  - rewrite Hd3, Hd2. destruct c1, c2; cbn; set_solver.
Qed.

(** Steps 4 and 5: the postfix node is made and linked, and the old node released. *)
Lemma split_finish H r root fs sp stk fpc key m P slack y c2 u fu kx po p0 x :
  ctx_at H root fs sp stk fpc -> H !! sp = Some m -> layout m false [y] P (val_bytes key ++ slack) -> key_flags m key -> byteZ y -> addr sp ->
  tree_at H kx u fu -> Forall byteZ c2 -> Z.of_nat (length c2) < 2 ^ 29 ->
  (c2 <> [] -> H !! po = Some p0 /\ 4 + Z.of_nat (length (data p0)) = single_size (Z.of_nat (length c2)) false /\ addr po) ->
  dom H = {[x]} ∪ ({[sp]} ∪ (top_fp c2 po ∪ fu) ∪ fpc) -> x ∉ {[sp]} ∪ (top_fp c2 po ∪ fu) ∪ fpc -> sp ∉ top_fp c2 po ∪ fu ->
  top_fp c2 po ## fu -> {[sp]} ∪ (top_fp c2 po ∪ fu) ## fpc ->
  exists H', ('(H, r, postfix) ← split_postfix H r c2 kx po; H ← upd_node H sp (fun m => write_ptr m (raxNodeLastChildPtr m) postfix); H ← rax_free H x; Some (H, r)) =
      Some (H', add_nodes r (Z.of_nat (size (top_fp c2 po)))) /\
    hole_at H' root fs sp stk (RT key false [y] [post_tree c2 u]) ({[sp]} ∪ (top_fp c2 po ∪ fu)) fpc /\ size H = S (size H').
Proof.
  intros Hc Em L F Hy Hasp Htu Hb Hm Hpo Hdom Hx Hsp Hdu Hd. destruct (tree_at_root _ _ _ _ Htu) as [_ Hakx].
  destruct (split_postfix_spec H r c2 kx po p0 Hakx Hb Hm) as (p' & -> & Hp'); [intros Hne; by destruct (Hpo Hne) as (? & ? & ?)|].
  set (H6 := if bool_decide (c2 = []) then H else <[po := p']> H). set (post := if bool_decide (c2 = []) then kx else po).
  replace (if bool_decide (c2 = []) then (H, r, kx) else (<[po := p']> H, add_nodes r 1, po)) with (H6, add_nodes r (Z.of_nat (size (top_fp c2 po))), post).
  2:{ unfold H6, post. destruct c2; cbn [top_fp]; [rewrite bool_decide_true, size_empty by done|rewrite bool_decide_false, size_singleton by done; done].
      f_equal. f_equal. destruct r; unfold add_nodes; cbn. by rewrite Z.add_0_r. }
  assert (tree_at H6 post (post_tree c2 u) (top_fp c2 po ∪ fu)) as Hpt.
  { replace (top_fp c2 po) with (if bool_decide (c2 = []) then ∅ else {[po]} : gset Z) by (destruct c2; [by rewrite bool_decide_true|by rewrite bool_decide_false]).
    apply post_at; [done|]. intros Hne. split_and!; [by apply Hp'|by apply Hpo|]. destruct c2; [done|]. cbn in Hdu. clear -Hdu. set_solver. }
  assert (dom H6 = dom H /\ (forall b, b ∉ top_fp c2 po -> H6 !! b = H !! b)) as [Hdom6 Hag6].
  { unfold H6. destruct c2; [by rewrite bool_decide_true|rewrite bool_decide_false by done]. destruct (Hpo ltac:(done)) as (Ep & _). split.
    - apply dom_insert_lookup_L. eauto.
    - intros b Hb'. apply lookup_insert_ne. cbn in Hb'. clear -Hb'. set_solver. }
  cbn [mbind option_bind]. unfold upd_node. rewrite Hag6 by (clear -Hsp; set_solver). rewrite Em. cbn [mbind option_bind].
  destruct (write_last m false [y] [] P post _ L) as (d & -> & L'); [pose proof (lay_ptrs _ _ _ _ _ L); simpl in *; lia|]. cbn [mbind option_bind].
  assert (x ∈ dom H6) as Hx6 by (rewrite Hdom6, Hdom; clear; set_solver). apply elem_of_dom in Hx6 as [nx Ex].
  unfold rax_free. rewrite lookup_insert_ne, Ex by (clear -Hx; set_solver). cbn [mbind option_bind].
  set (m2 := set_data m d) in *. exists (delete x (<[sp := m2]> H6)). split; [done|].
  assert (forall b, b <> x -> b <> sp -> delete x (<[sp := m2]> H6) !! b = H6 !! b) as Hag by (intros b ??; by rewrite lookup_delete_ne, lookup_insert_ne by done).
  destruct (tree_at_root _ _ _ _ Hpt) as [_ Hapo]. split; [split_and!|].
  - apply (ctx_at_agree H); [done|]. intros b Hb'. rewrite Hag by (clear -Hb' Hx Hd; set_solver). apply Hag6. clear -Hb' Hd. set_solver.
  - apply (tree_at_node _ sp m2 key false [y] [post]); [|split; [by destruct F; split|by exists slack|by apply Forall_singleton|by apply Forall_singleton, addr_in_u]|done| |done].
    + rewrite lookup_delete_ne, lookup_insert_eq by (clear -Hx; set_solver). done.
    + rewrite <- (right_id_L ∅ (∪) (top_fp c2 po ∪ fu)). constructor; [|constructor|set_solver].
      apply (tree_at_agree H6); [done|]. intros b Hb'. apply Hag; [clear -Hb' Hx; set_solver|intros ->; done].
  - done.
  - rewrite dom_delete_L, dom_insert_lookup_L by (rewrite Hag6 by (clear -Hsp; set_solver); eauto). rewrite Hdom6, Hdom. clear -Hx. set_solver.
  - rewrite map_size_delete_Some by (rewrite lookup_insert_ne by (clear -Hx; set_solver); eauto). rewrite map_size_insert_Some by (rewrite Hag6 by (clear -Hsp; set_solver); eauto).
    rewrite <- (dom_size _ _ Hdom6). assert (size H6 <> 0)%nat by (intros Hs%map_size_empty_inv; rewrite Hs in Ex; by rewrite lookup_empty in Ex). lia.
Qed.

Lemma insert_split_spec H r fs x stk key c1 y c2 u :
  hole H r fs x stk (RT key true (c1 ++ y :: c2) [u]) -> Z.of_nat (size H) + 3 < 2 ^ 48 ->
  exists H' r' sp stk', insert_split H r x (link_of fs stk) (Z.of_nat (length c1)) = Some (H', r', sp, link_of (top_frames key c1 fs) stk') /\
    hole H' r' (top_frames key c1 fs) sp stk' (split_tree key c1 y c2 u) /\ numele r' = numele r /\ (size H' <= size H + 2)%nat.
Proof.
  intros [(fpt & fpc & Hc & Ht & Hd & Hdom) Hnn] Hsz.
  destruct (tree_at_inv _ _ _ _ _ _ _ Ht) as (n & kids & fps & E & Hrep & Ha & Hts & Hxf & ->).
  destruct (trees_at_cons_inv _ _ _ _ _ Hts) as (kx & k' & fu & f' & -> & Htu & Hnil & _ & ->). inversion Hnil; subst.
  rewrite (right_id_L ∅ (∪)) in *. destruct (tree_at_root _ _ _ _ Htu) as [_ Hakx]. pose proof Hrep as [_ (slack0 & L0) Hb _]. rewrite ptrs_cons in L0.
  pose proof (ctx_at_dom _ _ _ _ _ _ Hc) as Hcd. pose proof (tree_at_dom _ _ _ _ Htu) as Hud. assert (x ∈ dom H) as Hxd by (by apply elem_of_dom_2 in E).
  unfold insert_split. rewrite E. cbn [mbind option_bind]. rewrite (read_last n true _ [] kx _ L0) by (by apply addr_in_u). cbn [mbind option_bind].
  rewrite (read_chars _ _ _ _ _ L0), (nr_size _ _ _ _ _ Hrep). cbn [mbind option_bind].
  replace (Z.of_nat (length (c1 ++ y :: c2)) - Z.of_nat (length c1) - 1) with (Z.of_nat (length c2)) by (rewrite length_app; simpl; lia).
  destruct (split_alloc H key c1 y c2 kx n Hrep Hsz) as (sp & tr & po & H1 & H2 & H3 & m0 & P & rest & t0 & p0 & -> & -> & -> & Eu & Lm & Hkm & Hasp & Hspd & Hr0 & Htr & Hpo & Hag3 & Hdom3).
  rewrite (get_app c1 y c2) by done. cbn [mbind option_bind]. rewrite Eu. cbn [mbind option_bind]. clear Eu.
  assert (sp ∉ fpc) as Hspc by (clear -Hcd Hspd; set_solver).
  destruct (split_top_spec (<[sp := m0]> H3) r fs x stk fpc n key c1 y c2 kx sp tr m0 P rest t0) as (H5 & r5 & m' & slack & -> & Hc5 & Em5 & L5 & F5 & Hag5 & Hdom5 & Hne5 & Hnn5); try done.
  { apply (ctx_at_agree H); [done|]. intros b Hb'. rewrite lookup_insert_ne by congruence. apply Hag3, Hcd, Hb'. }
  { apply lookup_insert_eq. }
  { intros Hne. destruct (Htr Hne) as (? & ? & ? & Hn & ?). split_and!; try done; [by rewrite lookup_insert_ne|clear -Hcd Hn; set_solver]. }
  cbn [mbind option_bind]. rewrite Nat2Z.id, <- drop_drop, drop_app_length. change (drop 1 (y :: c2)) with c2.
  rewrite Forall_app, Forall_cons in Hb. pose proof (nr_max _ _ _ _ _ Hrep) as Hmx. rewrite length_app in Hmx. cbn [length] in Hmx.
  assert (top_fp c1 tr ## {[sp]} ∪ dom H /\ top_fp c2 po ## {[sp]} ∪ top_fp c1 tr ∪ dom H) as [Hf1 Hf2].
  { split; [destruct c1; [cbn; clear; set_solver|destruct (Htr ltac:(done)) as (_ & _ & _ & Hn & Hn'); cbn; clear -Hn Hn'; set_solver]|].
    destruct c2; [cbn; clear; set_solver|]. destruct (Hpo ltac:(done)) as (_ & _ & _ & Hn & Hn' & Hn''). cbn. clear -Hn Hn' Hn''. set_solver. }
  rewrite dom_insert_L, Hdom3 in Hdom5.
  destruct (split_finish H5 r5 (rhead r5) (top_frames key c1 fs) sp (top_stk c1 tr stk) (top_fp c1 tr ∪ fpc) (top_key key c1) m' P slack y c2 u fu kx po p0 x) as (H' & Ef & Hh' & Hsz'); try tauto.
  { apply (tree_at_agree H); [done|]. intros b Hb'. rewrite Hag5, lookup_insert_ne; [apply Hag3, Hud, Hb'|clear -Hud Hb' Hspd|clear -Hb' Hd|clear -Hud Hb' Hspd|clear -Hud Hb' Hf1]; set_solver. }
  { lia. }
  { intros Hne. destruct (Hpo Hne) as (Ep & ? & ? & Hn & ? & ?). split_and!; try done. rewrite Hag5 by (try done; clear -Hcd Hn; set_solver). by rewrite lookup_insert_ne. }
  { rewrite Hdom5, Hdom. clear. set_solver. }
  { clear -Hxd Hspd Hf1 Hf2 Hxf Hd. set_solver. }
  { clear -Hud Hspd Hf2. set_solver. }
  { clear -Hud Hf2. set_solver. }
  { clear -Hud Hcd Hspd Hf1 Hf2 Hd. set_solver. }
  destruct (split_postfix H5 r5 c2 kx po) as [[[H6 r6] post]|]; [|discriminate Ef]. cbn [mbind option_bind] in Ef |- *.
  destruct (upd_node H6 sp _) as [H7|]; [|discriminate Ef]. cbn [mbind option_bind] in Ef |- *.
  destruct (rax_free H7 x) as [H8|]; [|discriminate Ef]. cbn [mbind option_bind] in Ef |- *. simplify_eq.
  exists H', (add_nodes r5 (Z.of_nat (size (top_fp c2 po)))), sp, (top_stk c1 tr stk). split; [done|].
  assert (size H5 = S (size (top_fp c1 tr) + size (top_fp c2 po) + size H))%nat as Hs5.
  { rewrite <- !size_dom, Hdom5. replace ({[sp]} ∪ ({[sp]} ∪ top_fp c1 tr ∪ top_fp c2 po ∪ dom H)) with ({[sp]} ∪ (top_fp c1 tr ∪ (top_fp c2 po ∪ dom H))) by (clear; set_solver).
    rewrite !size_union by (clear -Hspd Hf1 Hf2; set_solver). rewrite size_singleton. lia. }
  split; [split; [exists ({[sp]} ∪ (top_fp c2 po ∪ fu)), (top_fp c1 tr ∪ fpc); exact Hh'|cbn; lia]|]. split; [done|].
  assert (size (top_fp c1 tr) <= 1 /\ size (top_fp c2 po) <= 1)%nat by (destruct c1, c2; cbn [top_fp]; rewrite ?size_empty, ?size_singleton; lia). lia.
Qed.

(** ** Cutting a compressed node *)

Lemma rax_malloc_spec H sz : Z.of_nat (size H) < 2 ^ 48 -> exists a n, rax_malloc H sz = (<[a := n]> H, a) /\
  H !! a = None /\ addr a /\ length (data n) = Z.to_nat (sz - 4).
Proof.
  intros Hsz. destruct (malloc_ok H Hsz) as [Hn Ha]. unfold rax_malloc. eexists _, _. split; [done|]. split; [done|]. split; [done|].
  cbn [data]. by rewrite length_fmap, length_seq.
Qed.

Lemma single_size_pos cs b : 4 <= single_size (Z.of_nat (length (cs : list Z))) b.
Proof. unfold single_size. pose proof (raxPadding_range (Z.of_nat (length cs))). destruct b; lia. Qed.

(** The node for the characters from the cut on, which is the new key. *)
Lemma cut_postfix p0 cs d next : cs <> [] -> Forall byteZ cs -> Z.of_nat (length cs) < 2 ^ 29 -> in_u 64 d -> addr next ->
  length (data p0) = Z.to_nat (single_size (Z.of_nat (length cs)) (negb (d =? 0)) - 4) ->
  exists p', (p ← chain_node (set_isnull (set_iskey p0 true) false) cs; p ← raxSetData p d; write_ptr p (raxNodeLastChildPtr p) next) = Some p' /\
    node_rep p' (Some d) (Z.of_nat (length cs) >? 1) cs [next].
Proof.
  intros Hne Hb Hm Hd Hn Hl. pose proof (single_size_pos cs (negb (d =? 0))) as Hpos.
  destruct (chain_node_spec (set_isnull (set_iskey p0 true) false) cs (if negb (d =? 0) then 8 else 0) Hne Hm) as (n1 & P & rest & -> & L1 & HP & Hr & _);
    [by destruct (negb _)|cbn [data set_isnull set_iskey]; unfold single_size in *; lia|]. cbn [mbind option_bind].
  destruct (raxSetData_layout n1 _ cs P rest d L1 Hd) as (n2 & slack & -> & L2 & F2); [intros; rewrite Hr; destruct (Z.eqb_spec d 0); cbn; lia|]. cbn [mbind option_bind].
  destruct (write_last n2 _ cs [] P next _ L2 HP) as (dd & -> & L3). exists (set_data n2 dd). split; [done|].
  split; [by destruct F2; split|by exists slack|done|by apply Forall_singleton, addr_in_u].
Qed.

(** The node for the characters before the cut: its key is set after it is linked. *)
Lemma cut_trimmed t0 cs key n c2 kids : cs <> [] -> Z.of_nat (length cs) < 2 ^ 29 -> node_rep n key true c2 kids -> Forall byteZ cs ->
  length (data t0) = Z.to_nat (single_size (Z.of_nat (length cs)) (has_value n) - 4) ->
  exists t1, chain_node (set_isnull (set_iskey t0 false) false) cs = Some t1 /\
  exists t2, (if iskey n then aux ← raxGetData n; raxSetData t1 aux else Some t1) = Some t2 /\
  forall post, addr post -> exists t3, write_ptr t2 (raxNodeLastChildPtr t2) post = Some t3 /\ node_rep t3 key (Z.of_nat (length cs) >? 1) cs [post].
Proof.
  intros Hne Hm Hrep Hb Hl. pose proof (single_size_pos cs (has_value n)) as Hpos. pose proof (nr_flags _ _ _ _ _ Hrep) as F. pose proof (has_value_flags n key F) as Hv.
  destruct (chain_node_spec (set_isnull (set_iskey t0 false) false) cs (if has_value n then 8 else 0) Hne Hm) as (t1 & P & rest & -> & L1 & HP & Hr & Hk1 & _);
    [by destruct (has_value n)|cbn [data set_isnull set_iskey]; unfold single_size in *; lia|]. exists t1. split; [done|].
  assert (exists t2 slack, (if iskey n then aux ← raxGetData n; raxSetData t1 aux else Some t1) = Some t2 /\ layout t2 (Z.of_nat (length cs) >? 1) cs P (val_bytes key ++ slack) /\ key_flags t2 key) as (t2 & slack & E & L2 & F2).
  { rewrite (nr_key _ _ _ _ _ Hrep). destruct key as [v|].
    - rewrite bool_decide_true by eauto. rewrite (raxGetData_spec _ _ _ _ _ Hrep). cbn [mbind option_bind]. apply (raxSetData_layout t1 _ cs P rest v L1); [by apply F|].
      intros Hv'. rewrite length_val_bytes in Hv. destruct (Z.eqb_spec v 0); lia.
    - exists t1, rest. split; [done|]. split; [done|]. by split. }
  exists t2. split; [done|]. intros post Hp. destruct (write_last t2 _ cs [] P post _ L2 HP) as (dd & -> & L3). exists (set_data t2 dd). split; [done|].
  split; [by destruct F2; split|by exists slack|done|by apply Forall_singleton, addr_in_u].
Qed.

Lemma insert_cut_spec H r fs x stk key c1 c2 u d :
  hole H r fs x stk (RT key true (c1 ++ c2) [u]) -> c1 <> [] -> c2 <> [] -> in_u 64 d -> Z.of_nat (size H) + 2 < 2 ^ 48 ->
  exists H' r' x', insert_cut H r x (link_of fs stk) (Z.of_nat (length c1)) d = Some (H', r', 1, None) /\
    hole H' r' fs x' stk (chain_tree key c1 (chain_tree (Some d) c2 u)) /\ numele r' = numele r + 1 /\ size H' = S (size H).
Proof.
  intros [(fpt & fpc & Hc & Ht & Hd & Hdom) Hnn] Hne1 Hne2 Hdd Hsz.
  destruct (tree_at_inv _ _ _ _ _ _ _ Ht) as (n & kids & fps & E & Hrep & Ha & Hts & Hxf & ->).
  destruct (trees_at_cons_inv _ _ _ _ _ Hts) as (kx & k' & fu & f' & -> & Htu & Hnil & _ & ->). inversion Hnil; subst.
  rewrite (right_id_L ∅ (∪)) in *. destruct (tree_at_root _ _ _ _ Htu) as [_ Hakx]. pose proof Hrep as [_ (slack0 & L0) Hb _]. rewrite ptrs_cons in L0.
  pose proof (ctx_at_dom _ _ _ _ _ _ Hc) as Hcd. pose proof (tree_at_dom _ _ _ _ Htu) as Hud. assert (x ∈ dom H) as Hxd by (by apply elem_of_dom_2 in E).
  pose proof (nr_max _ _ _ _ _ Hrep) as Hmx. rewrite length_app in Hmx. rewrite Forall_app in Hb.
  unfold insert_cut. rewrite E. cbn [mbind option_bind]. rewrite (nr_size _ _ _ _ _ Hrep).
  replace (Z.of_nat (length (c1 ++ c2)) - Z.of_nat (length c1)) with (Z.of_nat (length c2)) by (rewrite length_app; lia).
  destruct (rax_malloc_spec H (single_size (Z.of_nat (length c2)) (negb (d =? 0)))) as (po & p0 & -> & Hpo & Hapo & Hlp); [lia|].
  destruct (rax_malloc_spec (<[po := p0]> H) (single_size (Z.of_nat (length c1)) (has_value n))) as (tr & t0 & -> & Htr & Hatr & Hlt); [rewrite map_size_insert_None by done; lia|].
  rewrite lookup_insert_None in Htr. destruct Htr as [Htr Hpt]. assert (tr <> po) as Htp by congruence.
  rewrite (read_last n true _ [] kx _ L0) by (by apply addr_in_u). cbn [mbind option_bind].
  pose proof (read_chars _ _ _ _ _ L0) as Hrd. rewrite (nr_size _ _ _ _ _ Hrep) in Hrd. rewrite Hrd. cbn [mbind option_bind]. rewrite Nat2Z.id, take_app_length, drop_app_length.
  rewrite (lookup_insert_ne _ tr po), (lookup_insert_eq H po) by done. cbn [mbind option_bind].
  destruct (cut_postfix p0 c2 d kx Hne2 ltac:(tauto) ltac:(lia) Hdd Hakx Hlp) as (p' & Ep & Hrepp).
  destruct (chain_node _ c2) as [p1|]; [|discriminate Ep]. cbn [mbind option_bind] in Ep |- *. destruct (raxSetData p1 d) as [p2|]; [|discriminate Ep]. cbn [mbind option_bind] in Ep |- *.
  rewrite Ep. cbn [mbind option_bind]. rewrite lookup_insert_eq. cbn [mbind option_bind].
  destruct (cut_trimmed t0 c1 key n (c1 ++ c2) [kx] Hne1 ltac:(lia) Hrep ltac:(tauto) Hlt) as (t1 & -> & t2 & Et2 & Ht3). cbn [mbind option_bind].
  destruct (Ht3 po Hapo) as (t3 & Et3 & Hrept).
  apply not_elem_of_dom in Hpo, Htr. set (H4 := <[tr := t1]> _).
  assert (forall b, b ∈ dom H -> H4 !! b = H !! b) as Hag4 by (intros b Hb'; unfold H4; rewrite !lookup_insert_ne by congruence; done).
  destruct (ctx_write H4 (add_nodes r 1) fs x stk fpc tr) as (H5 & r5 & -> & Hc5 & Hag5 & Hdom5 & Hne5 & Hnn5);
    [apply (ctx_at_agree H); [done|intros b Hb'; apply Hag4; auto]|done|clear -Hcd Htr; set_solver|]. cbn [mbind option_bind].
  assert (tr ∉ fpc /\ po ∉ fpc /\ x ∉ fpc /\ tr <> x /\ po <> x) as (Htrc & Hpoc & Hxc & Htrx & Hpox) by (clear -Hcd Htr Hpo Hd Hxd; set_solver).
  assert (H5 !! tr = Some t1) as E5 by (rewrite Hag5 by done; apply lookup_insert_eq).
  assert ((if iskey n then aux ← raxGetData n; upd_node H5 tr (fun t => raxSetData t aux) else Some H5) = Some (<[tr := t2]> H5)) as ->.
  { destruct (iskey n); [|simplify_eq; by rewrite insert_id]. destruct (raxGetData n) as [aux|]; [|discriminate Et2]. cbn [mbind option_bind] in Et2 |- *.
    unfold upd_node. rewrite E5. cbn [mbind option_bind]. by rewrite Et2. }
  cbn [mbind option_bind]. unfold upd_node. rewrite lookup_insert_eq. cbn [mbind option_bind]. rewrite Et3. cbn [mbind option_bind]. rewrite insert_insert_eq.
  assert (H5 !! x = Some n) as Ex5 by (rewrite Hag5, Hag4 by done; done).
  unfold rax_free. rewrite lookup_insert_ne, Ex5 by done. cbn [mbind option_bind]. set (H6 := delete x (<[tr := t3]> H5)).
  exists H6, (add_ele r5 1), tr. split; [done|].
  assert (forall b, b <> x -> b <> tr -> H6 !! b = H5 !! b) as Hag6 by (intros b ??; unfold H6; by rewrite lookup_delete_ne, lookup_insert_ne by done).
  assert (dom H6 = {[tr]} ∪ ({[po]} ∪ fu) ∪ fpc /\ size H6 = S (size H)) as [Hdom6 Hsz6].
  { assert (dom H5 = {[tr]} ∪ ({[po]} ∪ dom H)) as Hd5 by (rewrite Hdom5; unfold H4; rewrite !dom_insert_L; clear; set_solver). split.
    - unfold H6. rewrite dom_delete_L, dom_insert_lookup_L, Hd5, Hdom by eauto. clear -Hd Hxf Htrx Hpox Hxc. set_solver.
    - unfold H6. rewrite map_size_delete_Some by (rewrite lookup_insert_ne by done; eauto). rewrite map_size_insert_Some by eauto.
      rewrite <- (size_dom (D := gset Z) H5), Hd5, !size_union, !size_singleton, size_dom by (clear -Htr Hpo Hpt; set_solver). lia. }
  split; [|cbn in *; lia]. split; [|cbn in *; lia]. exists ({[tr]} ∪ ({[po]} ∪ fu)), fpc. split_and!; try done.
  - apply (ctx_at_agree H5); [done|]. intros b Hb'. apply Hag6; congruence.
  - rewrite <- (right_id_L ∅ (∪) ({[po]} ∪ fu)). apply (tree_at_node _ tr t3 key _ c1 [po]); try done; [unfold H6; rewrite lookup_delete_ne, lookup_insert_eq by done; done| |clear -Hpt Hud Htr; set_solver].
    constructor; [|constructor|clear; set_solver]. rewrite <- (right_id_L ∅ (∪) fu). apply (tree_at_node _ po p' (Some d) _ c2 [kx]); try done.
    + rewrite Hag6, Hag5 by (done || congruence). unfold H4. rewrite lookup_insert_ne, lookup_insert_eq by done. done.
    + constructor; [|constructor|clear; set_solver]. apply (tree_at_agree H); [done|]. intros b Hb'. rewrite Hag6, Hag5, Hag4; [done|auto|clear -Hd Hb'; set_solver|congruence|]. intros ->. auto.
    + clear -Hpo Hud. set_solver.
  - clear -Htrc Hpoc Hd. set_solver.
Qed.
End Insert.
