(* ===== verification/RaxSpec.v ===== *)
(** * The radix tree as a map: lookup and insertion *)

From Stdlib Require Import ZArith Lia ZifyBool Sorted.
From stdpp Require Import base gmap numbers option list sets.
From S2P Require Import Prelude RaxNode RaxNodeProof Rax RaxTree RaxHeap RaxInsert.

Local Open Scope Z_scope.

(** The heap holds the tree and nothing else, and the tree finds what is in the map. *)
Definition rax_rep (H : heap) (r : rax) (M : gmap (list Z) Z) : Prop :=
  exists t, hole H r [] (rhead r) [] t /\ wf t /\ (forall s, tfind t s = M !! s) /\ numele r = Z.of_nat (size M).

Lemma plug_hole H r fs x stk t : hole H r fs x stk t -> hole H r [] (rhead r) [] (plug fs t).
Proof.
  intros [(fpt & fpc & Hc & Ht & Hd & Hdom) Hn]. split; [|done]. exists (fpt ∪ fpc), ∅. split_and!; [constructor| |set_solver|set_solver].
  by apply (plug_at _ _ _ x stk).
Qed.

Lemma raxLowWalk_spec H r t s : hole H r [] (rhead r) [] t -> wf t ->
  exists fs x stk t' s' j, raxLowWalk H r s = Some (mk_walk (Z.of_nat (length (path fs)) + j) x (link_of fs stk) j stk) /\
    hole H r fs x stk t' /\ wf t' /\ Forall wf_frame fs /\ (fs = [] \/ live t') /\ plug fs t' = t /\ s = path fs ++ s' /\ stops t' s' j.
Proof.
  intros [(fpt & fpc & Hc & Ht & Hd & Hdom) Hn] Hw. unfold raxLowWalk.
  destruct (walk_spec H (rhead r) (S (length s)) s [] (rhead r) [] fpc t fpt Hc Ht Hd Hw (Forall_nil_2 _) (or_introl eq_refl) ltac:(lia))
    as (fs & x & stk & fpc' & t' & fpt' & s' & j & Er & Hc' & Ht' & Hd' & Hw' & Hf' & Hl & Ep & Es & Ef & Hst).
  exists fs, x, stk, t', s', j. split_and!; try done. split; [|done]. exists fpt', fpc'. split_and!; try done. by rewrite Hdom, Ef.
Qed.

Lemma stop_find t s j fs : Forall wf_frame fs -> stops t s j -> s <> [] -> tfind (plug fs t) (path fs ++ s) = None.
Proof.
  intros Hf Hst Hs. rewrite plug_inside by (by apply wf_frames_ok). destruct Hst as [t|key c1 y c2 u r Hne Hhd|key cs ts c r Hc]; [done| |].
  - rewrite tfind_compr by done. rewrite strip_app_l, strip_app. cbn [mbind option_bind].
    destruct r as [|z r]; [done|]. cbn [strip]. destruct (Z.eqb_spec y z) as [->|]; [|done]. by destruct (Hhd z eq_refl).
  - by rewrite tfind_node, edge_notin.
Qed.

(** The test of [raxFind] and [raxRemove]: the walk stopped at the node of the key. *)
Lemma stop_test H r fs x stk t s j :
  hole H r fs x stk t -> wf t -> Forall wf_frame fs -> stops t s j ->
  exists n, H !! x = Some n /\
    (negb (Z.of_nat (length (path fs)) + j =? Z.of_nat (length (path fs ++ s))) || (iscompr n && negb (j =? 0)) || negb (iskey n)) =
      bool_decide (tfind (plug fs t) (path fs ++ s) = None) /\
    (forall v, tfind (plug fs t) (path fs ++ s) = Some v -> s = [] /\ tkey t = Some v /\ raxGetData n = Some v).
Proof.
  intros [(fpt & fpc & Hc & Ht & Hd & Hdom) Hn] Hw Hf Hst. destruct t as [key compr cs ts].
  destruct (tree_at_inv _ _ _ _ _ _ _ Ht) as (n & kids & fps & E & Hrep & _). exists n. split; [done|].
  rewrite length_app, (nr_key _ _ _ _ _ Hrep), (nr_compr _ _ _ _ _ Hrep). pose proof (stop_find _ _ _ fs Hf Hst) as Hnone.
  inversion Hst as [t0|key' c1 y c2 u r0 Hne Hhd|key' cs' ts' c r0 Hc0]; subst.
  - rewrite plug_inside by (by apply wf_frames_ok). cbn [length tfind tkey]. replace (_ + 0 =? _) with true by lia. rewrite andb_false_r. cbn [negb orb].
    split; [destruct key; done|]. intros v ->. split_and!; try done. by apply (raxGetData_spec _ _ _ _ _ Hrep).
  - rewrite Hnone by done. split; [|done]. change (bool_decide (@None Z = None)) with true. rewrite length_app. destruct c1 as [|c c1].
    + destruct r0; [done|]. cbn [app length]. replace (_ =? _) with false by lia. done.
    + replace (Z.of_nat (length (c :: c1)) =? 0) with false by (simpl; lia). cbn [negb andb]. by rewrite orb_true_r.
  - rewrite Hnone by done. split; [|done]. change (bool_decide (@None Z = None)) with true. cbn [length]. replace (_ =? _) with false by lia. done.
Qed.

Lemma raxFind_spec H r M s : rax_rep H r M -> raxFind H r s = Some (M !! s).
Proof.
  intros (t & Hh & Hw & HM & _). destruct (raxLowWalk_spec H r t s Hh Hw) as (fs & x & stk & t' & s' & j & Er & Hh' & Hw' & Hf & _ & <- & -> & Hst).
  unfold raxFind. rewrite Er. cbn [mbind option_bind w_stop w_i w_j].
  destruct (stop_test H r fs x stk t' s' j Hh' Hw' Hf Hst) as (n & -> & Ht & Hv). cbn [mbind option_bind]. rewrite Ht, <- HM.
  destruct (tfind (plug fs t') (path fs ++ s')) as [v|]; [|by rewrite bool_decide_true]. rewrite bool_decide_false by done.
  destruct (Hv v eq_refl) as (_ & _ & ->). done.
Qed.

(** ** Insertion *)

Section Spec.
Context `{alloc : RaxAlloc} {alloc_ok : RaxAllocOk}.

(** Replacing the tree in the hole. *)
Lemma rep_update H r fs x stk t t0 M s v : hole H r fs x stk t -> wf t -> Forall wf_frame fs -> fs = [] \/ live t ->
  (forall s', tfind (plug fs t) s' = if decide (s' = s) then Some v else tfind t0 s') -> (forall s', tfind t0 s' = M !! s') ->
  numele r = Z.of_nat (size (<[s := v]> M)) -> rax_rep H r (<[s := v]> M).
Proof.
  intros Hh Hw Hf Hl Ht HM Hn. exists (plug fs t). split_and!; [by apply (plug_hole _ _ _ x stk)|by apply plug_wf| |done].
  intros s'. rewrite Ht. case_decide as Hs; [subst; by rewrite lookup_insert_eq|]. rewrite lookup_insert_ne by congruence. apply HM.
Qed.

(** The result of an insertion. *)
Definition inserted (H : heap) (M : gmap (list Z) Z) (s : list Z) (d : Z) (overwrite : bool) (res : option (heap * rax * Z * option Z)) : Prop :=
  exists H' r', res = Some (H', r', b2z (bool_decide (M !! s = None)), M !! s) /\
    rax_rep H' r' (if bool_decide (is_Some (M !! s)) && negb overwrite then M else <[s := d]> M) /\ (size H' <= size H + length s + 2)%nat.

(** Of a key that is not there. *)
Lemma inserted_new H M s d overwrite H' r' fs x stk t t0 : M !! s = None -> hole H' r' fs x stk t -> wf t -> Forall wf_frame fs -> fs = [] \/ live t ->
  (forall s', tfind (plug fs t) s' = if decide (s' = s) then Some d else tfind t0 s') -> (forall s', tfind t0 s' = M !! s') ->
  numele r' = Z.of_nat (size M) + 1 -> (size H' <= size H + length s + 2)%nat -> inserted H M s d overwrite (Some (H', r', 1, None)).
Proof.
  intros Hn Hh Hw Hf Hl Ht HM Hne Hsz. exists H', r'. rewrite Hn. split; [done|]. split; [|done]. cbn.
  apply (rep_update H' r' fs x stk t t0); try done. rewrite map_size_insert_None by done. lia.
Qed.

Section Cases.
Context (H : heap) (r : rax) (fs : list frame) (x : Z) (stk : list Z) (M : gmap (list Z) Z) (d : Z) (overwrite : bool).
Context (Hf : Forall wf_frame fs) (Hne : numele r = Z.of_nat (size M)) (Hd : in_u 64 d).

Lemma insert_here key compr cs ts : hole H r fs x stk (RT key compr cs ts) -> wf (RT key compr cs ts) -> fs = [] \/ live (RT key compr cs ts) ->
  (forall s', tfind (plug fs (RT key compr cs ts)) s' = M !! s') -> Z.of_nat (size H) + 3 < 2 ^ 48 ->
  inserted H M (path fs) d overwrite (insert_existing H r x (link_of fs stk) d overwrite).
Proof.
  intros Hh Hw Hl HM Hsz. pose proof (wf_frames_ok fs Hf) as Hfo.
  destruct (insert_existing_spec H r fs x stk key compr cs ts d overwrite Hh Hd) as (H' & r' & x' & -> & Hh2 & Hn2 & Hs2); [lia|].
  assert (M !! path fs = key) as Ek by (rewrite <- HM; pose proof (plug_inside fs (RT key compr cs ts) [] Hfo) as Hp; rewrite app_nil_r in Hp; by rewrite Hp).
  exists H', r'. rewrite Ek. split; [done|]. split; [|lia].
  assert (forall k, wf (RT k compr cs ts)) as Hwk by (intros k; inversion Hw; subst; by constructor).
  destruct (bool_decide (is_Some key) && negb overwrite) eqn:Ec.
  - exists (plug fs (RT key compr cs ts)). split_and!; [by apply (plug_hole _ _ _ x' stk)|by apply plug_wf|done|].
    rewrite Hn2. destruct key; [cbn; lia|done].
  - apply (rep_update H' r' fs x' stk (RT (Some d) compr cs ts) (plug fs (RT key compr cs ts))); try done; [right; left; eauto| |].
    + intros s'. rewrite (plug_update fs (RT key compr cs ts) _ [] (Some d) Hfo); [by rewrite app_nil_r|]. intros [|c s2]; done.
    + rewrite Hn2, Hne. destruct key as [v|]; cbn; [rewrite map_size_insert_Some by (rewrite Ek; eauto); lia|rewrite map_size_insert_None by done; lia].
Qed.

Lemma cut_find key c1 c2 u v s : c1 <> [] -> c2 <> [] ->
  tfind (chain_tree key c1 (chain_tree (Some v) c2 u)) s = if decide (s = c1) then Some v else tfind (RT key true (c1 ++ c2) [u]) s.
Proof.
  intros H1 H2. destruct s as [|a s2]; [by rewrite decide_False by congruence|].
  rewrite tfind_chain by done. rewrite (tfind_compr key (c1 ++ c2)), strip_app_l by done. destruct (strip c1 (a :: s2)) as [s3|] eqn:E3; cbn [mbind option_bind].
  - apply strip_Some in E3. rewrite E3. destruct s3 as [|b s3]; [by rewrite app_nil_r, decide_True by done|].
    rewrite decide_False by (intros Heq; apply (f_equal length) in Heq; rewrite length_app in Heq; simpl in Heq; lia). by apply tfind_chain.
  - rewrite decide_False; [done|]. intros Heq%(f_equal (strip c1)). pose proof (strip_app c1 []) as Hsa. rewrite app_nil_r in Hsa. congruence.
Qed.

Lemma insert_in_node key c1 c2 u : hole H r fs x stk (RT key true (c1 ++ c2) [u]) -> wf u -> live u ->
  (forall s', tfind (plug fs (RT key true (c1 ++ c2) [u])) s' = M !! s') -> c1 <> [] -> c2 <> [] -> M !! (path fs ++ c1) = None -> Z.of_nat (size H) + 3 < 2 ^ 48 ->
  inserted H M (path fs ++ c1) d overwrite (insert_cut H r x (link_of fs stk) (Z.of_nat (length c1)) d).
Proof.
  intros Hh Hwu Hlu HM H1 H2 Hn Hsz. destruct (insert_cut_spec H r fs x stk key c1 c2 u d Hh) as (H' & r' & x' & -> & Hh2 & Hn2 & Hs2); [done|done|done|lia|].
  destruct (chain_wf (Some d) c2 u H2 Hwu Hlu) as [Hw2 Hl2]. destruct (chain_wf key c1 (chain_tree (Some d) c2 u) H1 Hw2 Hl2) as [Hw3 Hl3].
  eapply (inserted_new _ _ _ _ _ _ _ fs x' stk _ (plug fs (RT key true (c1 ++ c2) [u]))); try done; [by right| |lia|lia].
  apply plug_update; [by apply wf_frames_ok|]. intros s. by apply cut_find.
Qed.

End Cases.

Lemma insert_below H r fs x stk d overwrite key cs ts c s H0 M0 : Forall wf_frame fs -> in_u 64 d -> hole H r fs x stk (RT key false cs ts) -> wf (RT key false cs ts) ->
  (forall s', tfind (plug fs (RT key false cs ts)) s' = M0 !! s') -> M0 !! (path fs ++ c :: s) = None -> numele r = Z.of_nat (size M0) ->
  c ∉ cs -> Forall byteZ (c :: s) -> Z.of_nat (size H + length (c :: s)) < 2 ^ 48 -> (size H + length (c :: s) <= size H0 + length (path fs ++ c :: s) + 2)%nat ->
  inserted H0 M0 (path fs ++ c :: s) d overwrite (insert_new H r x (link_of fs stk) (c :: s) d).
Proof.
  intros Hf Hd Hh Hw HM Hn Hne0 Hc Hb Hsz Hle.
  destruct (insert_new_spec H r fs x stk key cs ts c s d Hh Hw Hf Hc Hb Hd Hsz) as (H' & r' & fs' & x' & stk' & -> & Hh2 & Hf2 & Hfi & Hn2 & Hs2).
  eapply (inserted_new _ _ _ _ _ _ _ fs' x' stk' _ (plug fs (RT key false cs ts))); try done; [repeat constructor|right; left; eauto|lia|lia].
Qed.

Lemma raxGenericInsert_spec H r M s d overwrite : rax_rep H r M -> Forall byteZ s -> in_u 64 d -> Z.of_nat (size H + length s) + 3 < 2 ^ 48 ->
  inserted H M s d overwrite (raxGenericInsert H r s d overwrite).
Proof.
  intros (t & Hh & Hw & HM & Hne) Hb Hd Hsz.
  destruct (raxLowWalk_spec H r t s Hh Hw) as (fs & x & stk & t' & s' & j & Er & Hh' & Hw' & Hf & Hl & <- & -> & Hst).
  unfold raxGenericInsert. rewrite Er. cbn [mbind option_bind w_stop w_i w_j w_link].
  destruct t' as [key compr cs ts]. pose proof Hh' as [(fpt & fpc & Hc & Ht & _) _].
  destruct (tree_at_inv _ _ _ _ _ _ _ Ht) as (n & kids & fps & E & Hrep & _). rewrite E. cbn [mbind option_bind].
  rewrite (nr_compr _ _ _ _ _ Hrep). pose proof (stop_find _ _ _ fs Hf Hst) as Hnone. rewrite HM in Hnone.
  rewrite length_app in *. apply Forall_app in Hb as [_ Hb].
  inversion Hst as [t0|key' c1 y c2 u r0 Hne0 Hhd|key' cs' ts' c r0 Hc0]; subst.
  - rewrite app_nil_r in *. cbn [length]. replace (_ + 0 =? _) with true by lia. rewrite orb_true_r. cbn [andb].
    apply (insert_here H r fs x stk M d overwrite Hf Hne Hd key compr cs ts); try done. simpl in Hsz. lia.
  - specialize (Hnone Hne0). rewrite length_app in *. apply Forall_app in Hb as [_ Hb]. inversion Hw' as [key' cs' u' Hlen Hwu Hlu|]; subst.
    destruct r0 as [|z r0].
    + rewrite app_nil_r in *. cbn [length]. replace (_ =? _) with true by lia. replace (Z.of_nat (length c1) =? 0) with false by (destruct c1; simpl in *; [done|lia]). cbn [negb orb andb].
      apply (insert_in_node H r fs x stk M d overwrite Hf Hne Hd key c1 (y :: c2) u); try done. simpl in Hsz. lia.
    + cbn [length] in *. replace (Z.of_nat (length (path fs)) + _ =? _) with false by lia. cbn [negb orb andb].
      destruct (insert_split_spec H r fs x stk key c1 y c2 u Hh') as (H1 & r1 & sp & stk1 & -> & Hh1 & Hn1 & Hs1); [lia|]. cbn [mbind option_bind].
      replace (drop _ (path fs ++ c1 ++ z :: r0)) with (z :: r0)
        by (rewrite app_assoc, <- (drop_app_length (path fs ++ c1) (z :: r0)) at 1; f_equal; rewrite length_app; lia).
      rewrite app_assoc in Hnone |- *. rewrite <- (top_path key c1 fs) in Hnone |- *.
      apply (insert_below H1 r1 (top_frames key c1 fs) sp stk1 d overwrite (top_key key c1) [y] [post_tree c2 u]); try done.
      * by apply top_wf.
      * by apply split_wf.
      * intros s'. rewrite <- HM. apply split_find. by apply wf_frames_ok.
      * lia.
      * rewrite list_elem_of_singleton. by apply Hhd.
      * simpl length. lia.
      * rewrite length_app, top_path, length_app. simpl length. lia.
  - specialize (Hnone ltac:(done)). cbn [length] in *. cbn [orb andb negb]. replace (_ =? _) with false by lia. cbn [andb].
    replace (drop _ (path fs ++ c :: r0)) with (c :: r0) by (rewrite Z.add_0_r, Nat2Z.id, drop_app_length; done).
    apply (insert_below H r fs x stk d overwrite key cs ts); try done; [simpl length; lia|rewrite length_app; simpl length; lia].
Qed.
End Spec.
