(* ===== verification/RaxRemove.v ===== *)
(** * Removal from the radix tree

    Nodes that lead nowhere are released, the child is unlinked, and a chain of
    nodes with one child that are not keys becomes one compressed node. *)

From Stdlib Require Import ZArith Lia ZifyBool Sorted.
From stdpp Require Import base gmap numbers option list sets.
From S2P Require Import Prelude RaxNode RaxNodeProof Rax RaxTree RaxHeap RaxInsert RaxSpec.

Local Open Scope Z_scope.

(** ** Chains of nodes *)

Definition inchain (t : rtree) : bool := let '(RT key compr cs _) := t in negb (bool_decide (is_Some key)) && (compr || (length cs =? 1)%nat).
Definition chain_f (f : frame) : bool :=
  match f with FC None _ => true | FN None [] _ [] _ _ => true | _ => false end.

Lemma in_chain_rep n key compr cs kids ts : node_rep n key compr cs kids -> in_chain n = inchain (RT key compr cs ts).
Proof.
  intros Hr. unfold in_chain, inchain. rewrite (nr_key _ _ _ _ _ Hr), (nr_compr _ _ _ _ _ Hr), (nr_size _ _ _ _ _ Hr).
  destruct (bool_decide (is_Some key)), compr; cbn; try done. destruct (Nat.eqb_spec (length cs) 1); lia.
Qed.

Lemma inchain_fill f t : wf_frame f -> inchain (fill f t) = chain_f f.
Proof.
  destruct f as [[v|] cs|[v|] cl c cr tl tr]; try done. cbn. intros _. rewrite length_app. cbn [length].
  destruct cl as [|x [|]], cr as [|y cr]; cbn; try done; destruct (length cl + _)%nat; done || (cbn; lia).
Qed.

(** A tree at the end of a path with the nodes of the path. *)
Lemma hole_up H r f fs x a stk t : hole H r (f :: fs) x (a :: stk) t -> hole H r fs a stk (fill f t).
Proof.
  intros [(fpt & fpc & Hc & Ht & Hd & Hdom) Hn]. split; [|done]. destruct f as [key cs|key cl c cr tl tr]; cbn [fill].
  - destruct (ctx_compr_inv _ _ _ _ _ _ _ _ Hc) as (a' & stk' & fp & n & [= <- <-] & -> & Hc' & E & Hrep & Ha & Haf).
    exists ({[a]} ∪ (fpt ∪ ∅)), fp. split_and!; [done| |clear -Hd Haf; set_solver|rewrite Hdom; clear; set_solver].
    eapply tree_at_node; [done..| |clear -Hd; set_solver]. constructor; [done|constructor|clear; set_solver].
  - destruct (ctx_node_inv _ _ _ _ _ _ _ _ _ _ _ _ Hc) as (a' & stk' & fp & n & kl & kr & fl & fr & [= <- <-] & -> & Hc' & E & Hrep & Ha & Haf & Hl & Hr & _ & _ & _ & Hlr & Hal & Hlf).
    exists ({[a]} ∪ (fl ∪ (fpt ∪ fr))), fp. split_and!; [done| |clear -Hd Haf Hlf; set_solver|rewrite Hdom; clear; set_solver].
    eapply tree_at_node; [done..| |clear -Hd Hal; set_solver]. apply trees_at_app; [done| |clear -Hd Hlr; set_solver]. constructor; [done|done|clear -Hd; set_solver].
Qed.

(** The link to a node can be found in its parent. *)
Lemma find_link H root f fs x a stk fp : ctx_at H root (f :: fs) x (a :: stk) fp -> raxFindParentLink H a x = Some (link_of (f :: fs) (a :: stk)).
Proof.
  intros Hc. destruct f as [key cs|key cl c cr tl tr].
  - destruct (ctx_compr_inv _ _ _ _ _ _ _ _ Hc) as (a' & stk' & fp' & n & [= <- <-] & -> & Hc' & E & Hrep & _).
    rewrite (raxFindParentLink_spec H a n key true cs [] x [] E Hrep ltac:(apply not_elem_of_nil)). cbn [link_of length]. rewrite (first_child _ _ _ _ _ Hrep). by rewrite Z.mul_0_r, Z.add_0_r.
  - destruct (ctx_node_inv _ _ _ _ _ _ _ _ _ _ _ _ Hc) as (a' & stk' & fp' & n & kl & kr & fl & fr & [= <- <-] & -> & Hc' & E & Hrep & Ha & Haf & Hl & Hr & Hll & _ & Hx & _).
    rewrite (raxFindParentLink_spec H a n key false _ kl x kr E Hrep Hx). cbn [link_of]. rewrite (first_child _ _ _ _ _ Hrep). by rewrite (trees_at_length _ _ _ _ Hl), Hll.
Qed.

Lemma in_chain_frame H root f fs x a stk fp : ctx_at H root (f :: fs) x (a :: stk) fp -> wf_frame f -> exists n, H !! a = Some n /\ in_chain n = chain_f f.
Proof.
  intros Hc Hf. rewrite <- (inchain_fill f leaf_tree Hf). destruct f as [key cs|key cl c cr tl tr]; cbn [fill].
  - destruct (ctx_compr_inv _ _ _ _ _ _ _ _ Hc) as (a' & stk' & fp' & n & [= <- <-] & -> & Hc' & E & Hrep & _). exists n. split; [done|]. by apply (in_chain_rep _ _ _ _ _ _ Hrep).
  - destruct (ctx_node_inv _ _ _ _ _ _ _ _ _ _ _ _ Hc) as (a' & stk' & fp' & n & kl & kr & fl & fr & [= <- <-] & -> & Hc' & E & Hrep & _). exists n. split; [done|]. by apply (in_chain_rep _ _ _ _ _ _ Hrep).
Qed.

(** ** Releasing what leads nowhere *)

Lemma ctx_root H root f fs x stk fp : ctx_at H root (f :: fs) x stk fp -> root ∈ fp.
Proof.
  revert f x stk fp. induction fs as [|g fs IH]; intros f x stk fp Hc; inversion Hc; subst.
  1,2: match goal with Hc' : ctx_at _ _ [] _ _ _ |- _ => inversion Hc'; subst end; set_solver.
  all: match goal with Hc' : ctx_at _ _ (_ :: _) _ _ _ |- _ => apply IH in Hc' end; set_solver.
Qed.

Lemma ctx_parent H root f fs x stk fp : ctx_at H root (f :: fs) x stk fp -> exists a stk' fp' fps, stk = a :: stk' /\ ctx_at H root fs a stk' fp' /\
  fp = {[a]} ∪ fps ∪ fp' /\ a ∉ fp' /\ (chain_f f = true -> wf_frame f -> fps = ∅).
Proof.
  intros Hc. destruct f as [key cs|key cl c cr tl tr].
  - destruct (ctx_compr_inv _ _ _ _ _ _ _ _ Hc) as (a & stk' & fp' & n & -> & -> & Hc' & E & Hrep & _ & Ha). exists a, stk', fp', ∅. split_and!; try done. set_solver.
  - destruct (ctx_node_inv _ _ _ _ _ _ _ _ _ _ _ _ Hc) as (a & stk' & fp' & n & kl & kr & fl & fr & -> & -> & Hc' & E & Hrep & _ & Ha & Hl & Hr & Hll & Hlr & _). exists a, stk', fp', (fl ∪ fr). split_and!; try done.
    cbn. destruct key, cl, cr; try done. intros _ _. destruct tl, tr; try (simpl in Hll, Hlr; lia). inversion Hl; inversion Hr; subst. set_solver.
Qed.

Lemma remove_leaf_spec r0 fs : forall H r x stk fpc child f, ctx_at H (rhead r) (f :: fs) x stk fpc -> is_Some (H !! x) -> x ∉ fpc -> dom H = {[x]} ∪ fpc ->
  Forall wf_frame (f :: fs) -> numele r = r0 -> numnodes r = Z.of_nat (size H) ->
  exists H' r' h c stk' pre g fs', remove_leaf H r x stk child = Some (H', r', h, Some c, stk') /\ rhead r' = rhead r /\
    ctx_at H' (rhead r') (g :: fs') c (h :: stk') (dom H') /\ f :: fs = pre ++ g :: fs' /\ Forall (fun f => chain_f f = true) pre /\
    (chain_f g = false \/ fs' = []) /\ numele r' = r0 /\ numnodes r' = Z.of_nat (size H') /\ (size H' <= size H)%nat.
Proof.
  induction fs as [|g fs IH]; intros H r x stk fpc child f Hc Hx Hxf Hdom Hf He Hn; pose proof (ctx_root _ _ _ _ _ _ _ Hc) as Hroot;
    destruct (ctx_parent _ _ _ _ _ _ _ Hc) as (a & stk' & fp' & fps & -> & Hc' & Efp & Ha & Hfps).
  all: cbn [remove_leaf]; destruct (Z.eqb_spec x (rhead r)) as [Ex0|Ex0]; [congruence|]; unfold rax_free at 1; destruct Hx as [nx Ex]; rewrite Ex; cbn [mbind option_bind].
  all: assert (ctx_at (delete x H) (rhead r) (f :: _) x (a :: stk') fpc) as Hcd by (apply (ctx_at_agree H); [exact Hc|intros b Hb; apply lookup_delete_ne; congruence]).
  all: assert (dom (delete x H) = fpc) as Hdd by (rewrite dom_delete_L, Hdom; clear -Hxf; set_solver).
  all: assert (size (delete x H) = size H - 1)%nat as Hsd by (rewrite map_size_delete_Some by eauto; lia).
  all: assert (size H <> 0)%nat as Hs0 by (intros Hs%map_size_empty_inv; subst H; by rewrite lookup_empty in Ex).
  all: apply Forall_cons in Hf as [Hwf Hf]; destruct (in_chain_frame _ _ _ _ _ _ _ _ Hcd Hwf) as (n & En & Ec); rewrite En; cbn [mbind option_bind]; rewrite Ec.
  - inversion Hc'; subst. destruct (chain_f f) eqn:Ef; cbn [negb].
    + cbn [remove_leaf rhead add_nodes]; rewrite Z.eqb_refl.
      eexists (delete x H), _, _, _, _, [], f, []; split; [done|]; split_and!; try done; [by rewrite Hdd|by right|cbn; lia|lia].
    + eexists (delete x H), _, _, _, _, [], f, []. split; [done|]. split_and!; try done; [by rewrite Hdd|by right|cbn; lia|lia].
  - destruct (chain_f f) eqn:Ef; cbn [negb].
    + specialize (Hfps eq_refl Hwf). subst fps.
      destruct (IH (delete x H) (add_nodes r (-1)) a stk' fp' (Some x) g) as (H' & r' & h & c & stk2 & pre & g' & fs' & -> & Hr' & Hc2 & Eq & Hpre & Hor & He' & Hn' & Hs'); try done.
      * apply (ctx_at_agree H); [done|]. intros b Hb. apply lookup_delete_ne. clear -Hb Hxf Efp. set_solver.
      * rewrite Hdd, Efp. clear. set_solver.
      * cbn. lia.
      * exists H', r', h, c, stk2, (f :: pre), g', fs'. split; [done|]. split; [done|]. split; [done|]. split; [by rewrite Eq|]. split; [by constructor|]. split_and!; try done. lia.
    + eexists (delete x H), _, _, _, _, [], f, (g :: fs). split; [done|]. split_and!; try done; [by rewrite Hdd|by left|cbn; lia|lia].
Qed.

Lemma parent_link H root fs x stk fp : ctx_at H root fs x stk fp ->
  match stk with [] => Some LHead | a :: _ => raxFindParentLink H a x end = Some (link_of fs stk).
Proof.
  intros Hc. destruct fs as [|f fs]; [by inversion Hc|]. destruct (ctx_parent _ _ _ _ _ _ _ Hc) as (a & stk' & fp' & fps & -> & _).
  by apply (find_link _ _ _ _ _ _ _ _ Hc).
Qed.

(** The node of a frame, without the child in its hole. *)
Definition cut (f : frame) : rtree :=
  match f with FC key _ => RT key false [] [] | FN key cl _ cr tl tr => RT key false (cl ++ cr) (tl ++ tr) end.

Definition single (t : rtree) : bool := let '(RT key _ cs _) := t in (length cs =? 1)%nat && negb (bool_decide (is_Some key)).

Lemma single_rep n key compr cs kids ts : node_rep n key compr cs kids -> (rsize n =? 1) && negb (iskey n) = single (RT key compr cs ts).
Proof. intros Hr. rewrite (nr_size _ _ _ _ _ Hr), (nr_key _ _ _ _ _ Hr). cbn. f_equal. lia. Qed.

(** ** What is lost and what is kept *)

Definition dead (t : rtree) : Prop := forall s, tfind t s = None.

Lemma fill_dead f t : chain_f f = true -> wf_frame f -> dead t -> dead (fill f t).
Proof.
  intros Hc Hf Ht s. destruct (strip (fpath f) s) as [s'|] eqn:E.
  - apply strip_Some in E. subst s. rewrite fill_inside by (by apply wf_frame_ok). apply Ht.
  - rewrite (fill_outside f t leaf_tree) by (done || by apply wf_frame_ok). destruct f as [[v|] cs|[v|] [|a cl] c [|b cr] tl tr]; try done; cbn [fill].
    + destruct s as [|c s]; [done|]. rewrite tfind_compr by done. cbn [fpath] in E. by rewrite E.
    + destruct s as [|x s]; [done|]. destruct Hf as (_ & Hl & Hr & _). destruct tl, tr; try (simpl in Hl, Hr; lia). cbn [app]. rewrite tfind_node. cbn [edge].
      destruct (c =? x); [|done]. apply leaf_find.
Qed.

Lemma plug_dead fs : forall t, Forall (fun f => chain_f f = true) fs -> Forall wf_frame fs -> dead t -> dead (plug fs t).
Proof.
  induction fs as [|f fs IH]; intros t Hc Hf Ht; [done|]. apply Forall_cons in Hc as [Hc Hcs], Hf as [Hf Hfs]. by apply IH, fill_dead.
Qed.

Lemma cut_dead f t s : wf_frame f -> dead t -> tfind (fill f t) s = tfind (cut f) s.
Proof.
  intros Hf Ht. destruct s as [|x s]; [by destruct f|]. destruct f as [key cs|key cl c cr tl tr]; cbn [fill cut].
  - rewrite tfind_compr by done. destruct (strip cs (x :: s)); [apply Ht|done].
  - destruct Hf as (Hs & Hl & _). apply sorted_notin in Hs as [Hcl Hcr]. rewrite !tfind_node, !edge_app by done. destruct (edge cl tl x); [done|].
    cbn [edge]. destruct (Z.eqb_spec c x) as [<-|]; [|done]. rewrite (edge_notin cr) by done. apply Ht.
Qed.

Lemma chars_cut cl c cr : StronglySorted Z.lt (cl ++ c :: cr) -> StronglySorted Z.lt (cl ++ cr).
Proof.
  induction cl as [|x cl IH]; cbn [app]; intros [Hs Hx]%StronglySorted_inv; [done|]. constructor; [by apply IH|].
  rewrite Forall_app, Forall_cons in Hx. rewrite Forall_app. tauto.
Qed.

Lemma cut_wf f : wf_frame f -> wf (cut f).
Proof.
  destruct f as [key cs|key cl c cr tl tr]; cbn [cut]; [repeat constructor|]. intros (Hs & Hl & Hr & Htl & Htr).
  constructor; [by apply (chars_cut _ c)|rewrite !length_app; lia|by apply Forall_app].
Qed.

Lemma cut_live f : wf_frame f -> chain_f f = false -> live (cut f).
Proof.
  destruct f as [[v|] cs|[v|] cl c cr tl tr]; cbn [cut live]; intros Hf Hc; try done; try (by left; eauto). right. destruct Hf as (_ & Hl & Hr & _).
  destruct cl, cr, tl, tr; try done; simpl in Hl, Hr; lia.
Qed.

Lemma plug_app fs gs t : plug (fs ++ gs) t = plug gs (plug fs t).
Proof. revert t. induction fs as [|f fs IH]; intros t; [done|]. apply IH. Qed.

Lemma plug_live fs : forall t, Forall wf_frame fs -> wf t -> live t -> wf (plug fs t) /\ live (plug fs t).
Proof. induction fs as [|f fs IH]; intros t Hf Hw Hl; [done|]. apply Forall_cons in Hf as [Hf Hfs]. destruct (fill_wf f t Hf Hw Hl). by apply IH. Qed.

Lemma path_app fs gs : path (fs ++ gs) = path gs ++ path fs.
Proof. induction fs as [|f fs IH]; cbn [path app]; [by rewrite app_nil_r|]. by rewrite IH, app_assoc. Qed.

Lemma frames_length fs : Forall wf_frame fs -> (length fs <= length (path fs))%nat.
Proof.
  induction 1 as [|f fs Hf _ IH]; [done|]. cbn [path length]. rewrite length_app. enough (1 <= length (fpath f))%nat by lia.
  destruct f; simpl in *; lia.
Qed.

(** The keys are the same when a leaf is cut off. *)
Lemma remove_find pre g fs s : Forall (fun f => chain_f f = true) pre -> Forall wf_frame (pre ++ g :: fs) ->
  tfind (plug (pre ++ g :: fs) leaf_tree) s = tfind (plug fs (cut g)) s.
Proof.
  intros Hc Hf. apply Forall_app in Hf as [Hpre Hf]. apply Forall_cons in Hf as [Hg Hf]. rewrite plug_app. cbn [plug].
  apply plug_ext; [by apply wf_frames_ok|]. intros s'. apply cut_dead; [done|]. apply plug_dead; [done|done|exact leaf_find].
Qed.

(** A chain is one compressed node. *)
Lemma merge_find gs e s : Forall (fun f => chain_f f = true) gs -> Forall wf_frame gs -> gs <> [] -> tfind (plug gs e) s = tfind (RT None true (path gs) [e]) s.
Proof.
  intros Hc Hf Hne. assert (dead (plug gs leaf_tree)) as Hd by (apply plug_dead; [done|done|exact leaf_find]). pose proof (wf_frames_ok gs Hf) as Hfo.
  destruct s as [|c s].
  - destruct gs as [|g gs] using rev_ind; [done|]. rewrite plug_app. apply Forall_app in Hc as [_ Hc]. rewrite Forall_singleton in Hc. cbn beta in Hc. destruct g as [[v|] cs|[v|] cl c cr tl tr]; try done.
  - rewrite tfind_compr by done. destruct (strip (path gs) (c :: s)) as [s'|] eqn:E; cbn [mbind option_bind].
    + apply strip_Some in E. rewrite E. by apply plug_inside.
    + rewrite (plug_outside gs e leaf_tree) by done. apply Hd.
Qed.

(** A subtree is a chain above a node that does not belong to it. *)
Lemma unchain t : wf t -> exists gs e, t = plug gs e /\ Forall (fun f => chain_f f = true) gs /\ Forall wf_frame gs /\ wf e /\ (gs = [] \/ live e) /\ inchain e = false.
Proof.
  induction t as [key compr cs ts IH] using rtree_ind'. intros Hw. destruct (inchain (RT key compr cs ts)) eqn:Ei; [|exists [], (RT key compr cs ts); by auto 10].
  assert (exists f u, RT key compr cs ts = fill f u /\ chain_f f = true /\ wf_frame f /\ u ∈ ts /\ wf u /\ live u) as (f & u & E & Hc & Hf & Hu & Hwu & Hlu).
  { cbn in Ei. destruct key as [v|]; [done|]. inversion Hw as [k cs' u Hl Hwu Hlu|k cs' ts' Hs Hl Hts]; subst.
    - exists (FC None cs), u. split_and!; try done. set_solver.
    - cbn in Ei. destruct cs as [|c [|]]; try done. destruct ts as [|u [|]]; try done. rewrite Forall_singleton in Hts. exists (FN None [] c [] [] []), u.
      destruct Hts. split_and!; try done. all: repeat constructor. }
  rewrite Forall_forall in IH. destruct (IH u Hu Hwu) as (gs & e & -> & Hgs & Hfs & Hwe & Hle & Hie). exists (gs ++ [f]), e. rewrite plug_app, !Forall_app, !Forall_singleton.
  split_and!; try done. destruct Hle as [->|]; by right.
Qed.

(** A subtree that is not useless has a key. *)
Lemma live_key t : wf t -> live t -> exists s v, tfind t s = Some v.
Proof.
  induction t as [key compr cs ts IH] using rtree_ind'. intros Hw Hl. destruct key as [v|]; [by exists [], v|]. destruct Hl as [[]|Hne]; [done|].
  rewrite Forall_forall in IH. inversion Hw as [k cs' u Hlen Hwu Hlu|k cs' ts' Hs Hlen Hts]; subst.
  - destruct (IH u ltac:(set_solver) Hwu Hlu) as (s & v & E). exists (cs ++ s), v. rewrite tfind_compr by (destruct cs; [simpl in Hlen; lia|done]). by rewrite strip_app.
  - destruct cs as [|c cs], ts as [|u ts]; try done. apply Forall_cons in Hts as [[Hwu Hlu] _]. destruct (IH u ltac:(set_solver) Hwu Hlu) as (s & v & E).
    exists (c :: s), v. rewrite tfind_node. cbn [edge]. by rewrite Z.eqb_refl.
Qed.

Section Remove.
Context `{alloc : RaxAlloc} {alloc_ok : RaxAllocOk}.

Lemma unlink_child_spec H r f fs c h stk : ctx_at H (rhead r) (f :: fs) c (h :: stk) (dom H) -> numnodes r = Z.of_nat (size H) -> Z.of_nat (size H) < 2 ^ 48 ->
  exists H' r' h', unlink_child H r h stk c = Some (H', r', if single (cut f) then Some (h', stk) else None) /\
    hole H' r' fs h' stk (cut f) /\ numele r' = numele r /\ size H' = size H.
Proof.
  intros Hc Hn Hsz. unfold unlink_child. destruct f as [key cs|key cl ch cr tl tr]; cbn [cut].
  - destruct (ctx_compr_inv _ _ _ _ _ _ _ _ Hc) as (a' & stk' & fp & n & [= <- <-] & Hdom & Hc' & E & Hrep & Ha & Haf).
    destruct (raxRemoveChild_compr H h n key cs c E Hrep) as (n' & -> & Hrep'). cbn [mbind option_bind]. rewrite Z.eqb_refl. cbn [negb mbind option_bind].
    rewrite lookup_insert_eq. cbn [mbind option_bind]. rewrite (single_rep _ _ _ _ _ [] Hrep').
    assert (size (<[h := n']> H) = size H) as Hs by (rewrite map_size_insert_Some by eauto; done).
    exists (<[h := n']> H), r, h. split; [done|]. split; [|done]. split; [|by rewrite Hs]. exists ({[h]} ∪ ∅), fp. split_and!.
    + apply (ctx_at_agree H); [done|]. intros b Hb. apply lookup_insert_ne. congruence.
    + eapply tree_at_node; [by apply lookup_insert_eq|done|done|constructor|set_solver].
    + clear -Haf. set_solver.
    + rewrite dom_insert_lookup_L by eauto. rewrite Hdom. clear. set_solver.
  - destruct (ctx_node_inv _ _ _ _ _ _ _ _ _ _ _ _ Hc) as (a' & stk' & fp & n & kl & kr & fl & fr & [= <- <-] & Hdom & Hc' & E & Hrep & Ha & Haf & Hl & Hr & Hll & Hlr & Hx & Hdlr & Hal & Hlf).
    destruct (raxRemoveChild_node H h n key cl ch cr kl c kr E Hrep) as (h' & n' & -> & Hm & Ha' & Hrep'); try done; [by rewrite (trees_at_length _ _ _ _ Hl)|].
    cbn [mbind option_bind]. pose proof (trees_at_app _ _ _ _ _ _ _ Hl Hr Hdlr) as Hts.
    destruct (hole_moved H r fs h stk false (cl ++ cr) (tl ++ tr) n (kl ++ kr) (fl ∪ fr) fp h' n' key) as (H2 & r2 & Ew & Hh2 & E2 & _ & _ & Hs2 & Hn2 & Hm2); try done; [clear -Hlf Haf; set_solver|].
    set (H1 := <[h' := n']> (delete h H)) in *.
    pose proof (moved_fresh _ _ _ _ Hm Haf (ctx_at_dom _ _ _ _ _ _ Hc')) as Hhf.
    assert (ctx_at H1 (rhead r) fs h stk fp) as Hc1 by (apply (ctx_at_agree H); [done|]; intros b Hb; apply moved_agree; congruence).
    destruct (Z.eqb_spec h' h) as [->|Hne]; cbn [negb mbind option_bind].
    + destruct (moved_dom H h n h n' E Hm) as [Hdm Hsm]. assert (H1 !! h = Some n') as E1 by apply lookup_insert_eq. rewrite E1. cbn [mbind option_bind]. rewrite (single_rep _ _ _ _ _ (tl ++ tr) Hrep').
      exists H1, r, h. split; [done|]. split; [|done]. split; [|unfold H1; by rewrite Hsm]. exists ({[h]} ∪ (fl ∪ fr)), fp. split_and!; [done| | |].
      * eapply (node_at H); [done| |by apply lookup_insert_eq|done..]. intros b Hb. apply moved_agree; congruence.
      * clear -Haf Hlf. set_solver.
      * unfold H1. rewrite Hdm, Hdom. clear -Haf Hal. set_solver.
    + rewrite (parent_link _ _ _ _ _ _ Hc1). cbn [mbind option_bind]. rewrite Ew. cbn [mbind option_bind]. rewrite E2. cbn [mbind option_bind]. rewrite (single_rep _ _ _ _ _ (tl ++ tr) Hrep').
      exists H2, r2, h'. split; [done|]. split; [|done]. split; [eauto|]. by rewrite Hm2, Hs2.
Qed.
(** ** Compression *)

Lemma chain_start_spec H r fs : forall x stk t, hole H r fs x stk t -> Forall wf_frame fs -> exists pre fs' h stk', fs = pre ++ fs' /\
  Forall (fun f => chain_f f = true) pre /\ chain_start H x stk = Some (h, head stk') /\ hole H r fs' h stk' (plug pre t).
Proof.
  induction fs as [|f fs IH]; intros x stk t Hh Hf; pose proof Hh as [(fpt & fpc & Hc & _) _].
  - inversion Hc; subst. exists [], [], (rhead r), []. done.
  - apply Forall_cons in Hf as [Hwf Hf]. destruct (ctx_parent _ _ _ _ _ _ _ Hc) as (a & stk' & fp' & fps & -> & _).
    destruct (in_chain_frame _ _ _ _ _ _ _ _ Hc Hwf) as (n & E & Ec). cbn [chain_start]. rewrite E. cbn [mbind option_bind]. rewrite Ec.
    destruct (chain_f f) eqn:Ef; cbn [negb]; [|exists [], (f :: fs), x, (a :: stk'); by auto].
    destruct (IH a stk' (fill f t) (hole_up _ _ _ _ _ _ _ _ Hh) Hf) as (pre & fs' & h & stk2 & -> & Hpre & -> & Hh'). exists (f :: pre), fs', h, stk2. split_and!; try done. by constructor.
Qed.

(** The node at the top of a chain. *)
Lemma chain_top H h f t fp : tree_at H h (fill f t) fp -> chain_f f = true -> wf_frame f -> exists n compr p fp',
  H !! h = Some n /\ node_rep n None compr (fpath f) [p] /\ tree_at H p t fp' /\ fp = {[h]} ∪ fp' /\ h ∉ fp'.
Proof.
  intros Ht Hc Hf. destruct f as [[v|] cs|[v|] [|a cl] c [|b cr] tl tr]; try done; cbn [fill] in Ht.
  2: destruct Hf as (_ & Hl & Hr & _); destruct tl, tr; try (simpl in Hl, Hr; lia).
  all: cbn [app] in Ht; destruct (tree_at_inv _ _ _ _ _ _ _ Ht) as (n & kids & fps & E & Hrep & _ & Hts & Hn & ->).
  all: destruct (trees_at_cons_inv _ _ _ _ _ Hts) as (p & k' & fu & f' & -> & Htu & Hnil & _ & ->); inversion Hnil; subst; rewrite (right_id_L ∅ (∪)) in *; eauto 10.
Qed.

Lemma chain_step n compr cs p : node_rep n None compr cs [p] -> node_read n 4 (rsize n) = Some cs /\ read_ptr n (raxNodeLastChildPtr n) = Some p.
Proof.
  intros [_ (slack & L) _ Hp]. rewrite Forall_singleton in Hp. split; [by apply (read_chars _ _ _ _ _ L)|]. rewrite ptrs_cons in L. apply (read_last n compr cs [] p (val_bytes None ++ slack)); done.
Qed.

Lemma tree_root H h t fp : tree_at H h t fp -> exists n, H !! h = Some n /\ in_chain n = inchain t /\ rsize n = Z.of_nat (length (let '(RT _ _ cs _) := t in cs)).
Proof.
  destruct t as [key compr cs ts']. intros Ht. destruct (tree_at_inv _ _ _ _ _ _ _ Ht) as (n & kids & fps & E & Hrep & _). exists n.
  split; [done|]. split; [by apply (in_chain_rep _ _ _ _ _ _ Hrep)|by apply (nr_size _ _ _ _ _ Hrep)].
Qed.

Lemma chain_scan_spec H e gs : forall f h fp cz nodes fuel, tree_at H h (plug (gs ++ [f]) e) fp -> Forall (fun f => chain_f f = true) (gs ++ [f]) ->
  Forall wf_frame (gs ++ [f]) -> inchain e = false -> cz + Z.of_nat (length (path gs)) <= RAX_NODE_MAX_SIZE -> (length gs < fuel)%nat ->
  chain_scan fuel H h cz nodes = Some (cz + Z.of_nat (length (path gs)), nodes + Z.of_nat (length gs)).
Proof.
  induction gs as [|g gs IH] using rev_ind; intros f h fp cz nodes [|fuel] Ht Hc Hf He Hm Hfu; try lia; cbn [chain_scan].
  all: rewrite plug_app in Ht; cbn [plug] in Ht; rewrite Forall_app, Forall_singleton in Hc, Hf; destruct Hc as [Hc Hcf], Hf as [Hf Hff].
  all: destruct (chain_top _ _ _ _ _ Ht Hcf Hff) as (n & compr & p & fp' & -> & Hrep & Ht' & _); cbn [mbind option_bind].
  all: assert (rsize n <> 0) by (rewrite (nr_size _ _ _ _ _ Hrep); destruct f as [k [|]|]; simpl in *; lia).
  all: replace (rsize n =? 0) with false by lia; destruct (chain_step _ _ _ _ Hrep) as [_ ->]; cbn [mbind option_bind].
  all: destruct (tree_root _ _ _ _ Ht') as (n' & -> & Hi & Hs); cbn [mbind option_bind]; rewrite Hi.
  - cbn [plug] in *. rewrite He. cbn. do 2 f_equal; lia.
  - rewrite plug_app in Ht', Hi, Hs. cbn [plug] in *. rewrite Forall_app, Forall_singleton in Hc, Hf. destruct Hc as [Hc Hcg], Hf as [Hf Hfg].
    rewrite plug_app. cbn [plug]. rewrite inchain_fill, Hcg by done. cbn [negb].
    assert (rsize n' = Z.of_nat (length (fpath g))) as Hs' by (rewrite Hs; destruct g as [[v|] cs|[v|] [|a cl] c [|b cr] tl tr]; done).
    rewrite path_app, length_app in Hm |- *. cbn [path app] in Hm |- *. rewrite length_app in *. cbn [length] in *.
    destruct (cz + rsize n' >? _) eqn:Eg; [lia|].
    rewrite (IH g p fp'); [do 2 f_equal; lia|by rewrite plug_app|by rewrite Forall_app, Forall_singleton|by rewrite Forall_app, Forall_singleton|done|lia|lia].
Qed.

Lemma chain_size H e gs : forall h fp, tree_at H h (plug gs e) fp -> Forall (fun f => chain_f f = true) gs -> Forall wf_frame gs -> (length gs < size fp)%nat.
Proof.
  induction gs as [|g gs IH] using rev_ind; intros h fp Ht Hc Hf.
  - destruct (tree_at_root _ _ _ _ Ht) as [Hr _]. simpl. enough (size fp <> 0)%nat by lia. intros Hz%size_empty_inv. set_solver.
  - rewrite plug_app in Ht; cbn [plug] in Ht; rewrite Forall_app, Forall_singleton in Hc, Hf; destruct Hc as [Hc Hcf], Hf as [Hf Hff].
    destruct (chain_top _ _ _ _ _ Ht Hcf Hff) as (n & compr & p & fp' & _ & _ & Ht' & -> & Hn). apply IH in Ht'; [|done|done].
    rewrite length_app, size_union by set_solver. rewrite size_singleton. simpl. lia.
Qed.
(** One node of the chain: its characters are appended to what the new node has, and it is released. *)
Lemma copy_step H r f t new h fp cz fuel m D J : tree_at H h (fill f t) fp -> chain_f f = true -> wf_frame f ->
  H !! new = Some m -> new ∉ fp -> data m = D ++ J -> cz = Z.of_nat (length D) -> (length (fpath f) <= length J)%nat ->
  exists H2 p fp' J2, chain_copy (S fuel) H r new h cz =
      (if inchain t then chain_copy fuel H2 (add_nodes r (-1)) new p (cz + Z.of_nat (length (fpath f))) else Some (H2, add_nodes r (-1), p)) /\
    tree_at H2 p t fp' /\ fp = {[h]} ∪ fp' /\ h ∉ fp' /\ H2 !! new = Some (set_data m (D ++ fpath f ++ J2)) /\ (length J = length (fpath f) + length J2)%nat /\
    dom H2 = dom H ∖ {[h]} /\ (forall b, b <> new -> b <> h -> H2 !! b = H !! b) /\ S (size H2) = size H.
Proof.
  intros Ht Hc Hf Em Hnew Hd -> Hl. destruct (chain_top _ _ _ _ _ Ht Hc Hf) as (n & compr & p & fp' & E & Hrep & Ht' & -> & Hn).
  destruct (chain_step _ _ _ _ Hrep) as [Hread Hp]. cbn [chain_copy]. rewrite E. cbn [mbind option_bind].
  replace (rsize n =? 0) with false by (rewrite (nr_size _ _ _ _ _ Hrep); destruct f as [k [|]|]; simpl in *; lia).
  rewrite Hread. cbn [mbind option_bind]. unfold upd_node. rewrite Em. cbn [mbind option_bind].
  rewrite (node_write_in m D (take (length (fpath f)) J) (drop (length (fpath f)) J)) by (rewrite ?take_drop, ?length_take; done || lia).
  cbn [mbind option_bind]. rewrite Hp. cbn [mbind option_bind].
  set (H1 := <[new := _]> H). assert (new <> h) as Hnh by set_solver. assert (H1 !! h = Some n) as E1 by (unfold H1; by rewrite lookup_insert_ne).
  unfold rax_free at 1. rewrite E1. cbn [mbind option_bind].
  assert (forall b, b <> new -> b <> h -> delete h H1 !! b = H !! b) as Hag by (intros b Hb1 Hb2; unfold H1; rewrite lookup_delete_ne, lookup_insert_ne by done; done).
  assert (tree_at (delete h H1) p t fp') as Ht2 by (apply (tree_at_agree H); [done|]; intros b Hb; apply Hag; set_solver).
  destruct (tree_root _ _ _ _ Ht2) as (n' & -> & Hi & _). cbn [mbind option_bind]. rewrite Hi, (nr_size _ _ _ _ _ Hrep).
  exists (delete h H1), p, fp', (drop (length (fpath f)) J). split; [by destruct (inchain t)|]. split_and!; try done.
  - rewrite lookup_delete_ne by done. unfold H1. by rewrite lookup_insert_eq.
  - rewrite length_drop. lia.
  - unfold H1. rewrite dom_delete_L, dom_insert_lookup_L by eauto. done.
  - rewrite map_size_delete_Some by eauto. unfold H1. rewrite map_size_insert_Some by eauto.
    assert (size H <> 0)%nat by (intros Hz%map_size_empty_inv; subst; by rewrite lookup_empty in E). lia.
Qed.
Lemma chain_copy_spec e new gs : forall f H r h fp cz fuel m D J, tree_at H h (plug (gs ++ [f]) e) fp -> Forall (fun f => chain_f f = true) (gs ++ [f]) ->
  Forall wf_frame (gs ++ [f]) -> inchain e = false -> H !! new = Some m -> new ∉ fp -> data m = D ++ J -> cz = Z.of_nat (length D) ->
  (length (path (gs ++ [f])) <= length J)%nat -> (length gs < fuel)%nat ->
  exists H' r' h' J' fpe, chain_copy fuel H r new h cz = Some (H', r', h') /\ H' !! new = Some (set_data m (D ++ path (gs ++ [f]) ++ J')) /\
    (length J = length (path (gs ++ [f])) + length J')%nat /\ tree_at H' h' e fpe /\ fpe ⊆ fp /\ dom H' = dom H ∖ (fp ∖ fpe) /\
    (forall b, b <> new -> b ∉ fp -> H' !! b = H !! b) /\ (size H' + length gs + 1 = size H)%nat /\
    rhead r' = rhead r /\ numele r' = numele r /\ numnodes r' = numnodes r - Z.of_nat (length gs) - 1.
Proof.
  induction gs as [|g gs IH] using rev_ind; intros f H r h fp cz [|fuel] m D J Ht Hc Hf He Em Hnew Hd Hcz Hl Hfu; try lia.
  all: rewrite plug_app in Ht; cbn [plug] in Ht; rewrite Forall_app, Forall_singleton in Hc, Hf; destruct Hc as [Hc Hcf], Hf as [Hf Hff].
  all: rewrite path_app in Hl |- *; cbn [path app] in Hl |- *; rewrite length_app in Hl.
  all: destruct (copy_step H r f _ new h fp cz fuel m D J Ht Hcf Hff Em Hnew Hd Hcz) as (H2 & p & fp' & J2 & -> & Ht2 & -> & Hhf & Em2 & HJ2 & Hdom & Hag & Hsz); [lia|].
  - cbn [plug] in *. rewrite He. exists H2, (add_nodes r (-1)), p, J2, fp'. rewrite app_nil_r. split_and!; try done; [set_solver|rewrite Hdom; clear -Hhf; set_solver| |simpl; lia|cbn; lia].
    intros b Hb Hbf. apply Hag; [done|set_solver].
  - rewrite plug_app in Ht2 |- *. cbn [plug] in *. pose proof Hc as Hcg. pose proof Hf as Hfg. rewrite Forall_app, Forall_singleton in Hcg, Hfg. destruct Hcg as [_ Hcg], Hfg as [_ Hfg].
    rewrite inchain_fill, Hcg by done.
    destruct (IH g H2 (add_nodes r (-1)) p fp' (cz + Z.of_nat (length (fpath f))) fuel (set_data m (D ++ fpath f ++ J2)) (D ++ fpath f) J2)
      as (H' & r' & h' & J' & fpe & -> & Em' & HJ' & Hte & Hfe & Hdom' & Hag' & Hsz' & Hr & Hne & Hnn); try done.
    + by rewrite plug_app.
    + clear -Hnew. set_solver.
    + cbn. by rewrite app_assoc.
    + rewrite length_app. lia.
    + lia.
    + rewrite length_app in Hfu. simpl in Hfu. lia.
    + exists H', r', h', J', fpe. rewrite Em'. cbn [set_data rhead numele numnodes add_nodes] in *. rewrite !length_app in *. cbn [length] in *.
      split_and!; try done; [by rewrite <- !app_assoc|lia|clear -Hfe; set_solver|rewrite Hdom', Hdom; clear -Hfe Hhf; set_solver| |lia|lia].
      intros b Hb Hbf. rewrite Hag' by (done || (clear -Hbf; set_solver)). apply Hag; [done|clear -Hbf; set_solver].
Qed.
Lemma chain_bytes H e gs : forall h fp, tree_at H h (plug gs e) fp -> Forall (fun f => chain_f f = true) gs -> Forall wf_frame gs -> Forall byteZ (path gs).
Proof.
  induction gs as [|g gs IH] using rev_ind; intros h fp Ht Hc Hf; [constructor|].
  rewrite plug_app in Ht; cbn [plug] in Ht; rewrite Forall_app, Forall_singleton in Hc, Hf; destruct Hc as [Hc Hcf], Hf as [Hf Hff].
  destruct (chain_top _ _ _ _ _ Ht Hcf Hff) as (n & compr & p & fp' & _ & Hrep & Ht' & _). rewrite path_app. cbn [path app].
  apply Forall_app. split; [by apply (nr_chars _ _ _ _ _ Hrep)|]. by apply (IH p fp').
Qed.

(** The new node once the characters are copied: its pointer is the end of the chain. *)
Lemma merged_node m cs J p : iskey m = false -> isnull m = false -> iscompr m = true -> rsize m = Z.of_nat (length cs) -> Z.of_nat (length cs) < 2 ^ 29 ->
  data m = cs ++ J -> Z.of_nat (length J) = raxPadding (Z.of_nat (length cs)) + 8 -> Forall byteZ cs -> addr p ->
  exists m', write_ptr m (raxNodeLastChildPtr m) p = Some m' /\ node_rep m' None true cs [p].
Proof.
  intros Hk Hn Hc Hs Hm Hd HJ Hb Ha. pose proof (raxPadding_range (Z.of_nat (length cs))). set (k := Z.to_nat (raxPadding (Z.of_nat (length cs)))).
  assert (layout m true cs ([] ++ drop k J) []) as L.
  { split; try done; [cbn [app]; rewrite length_drop; lia|]. exists (take k J). rewrite app_nil_r. cbn [app]. rewrite take_drop. split; [done|]. rewrite length_take. lia. }
  destruct (write_last m true cs [] (drop k J) p [] L) as (d & -> & L'); [rewrite length_drop; lia|]. exists (set_data m d). split; [done|].
  split; [by split|by exists []|done|by apply Forall_singleton, addr_in_u].
Qed.

Lemma merge_chain H r fs h stk gs f e parent : hole H r fs h stk (plug (gs ++ [f]) e) -> Forall (fun f => chain_f f = true) (gs ++ [f]) ->
  Forall wf_frame (gs ++ [f]) -> inchain e = false -> Z.of_nat (size H) < 2 ^ 48 -> Z.of_nat (length (path (gs ++ [f]))) < 2 ^ 29 -> parent = head stk ->
  exists H' r' h', (let '(H1, new) := rax_malloc H (single_size (Z.of_nat (length (path (gs ++ [f])))) false) in
      H2 ← upd_node H1 new (fun m => Some (set_size (set_iscompr (set_isnull (set_iskey m false) false) true) (Z.of_nat (length (path (gs ++ [f]))))));
      '(H3, r3, h3) ← chain_copy (size H) H2 (add_nodes r 1) new h 0;
      H4 ← upd_node H3 new (fun m => write_ptr m (raxNodeLastChildPtr m) h3);
      match parent with
      | Some parent => parentlink ← raxFindParentLink H4 parent h; write_link H4 r3 parentlink new
      | None => Some (H4, set_head r3 new)
      end) = Some (H', r') /\
    hole H' r' fs h' stk (RT None true (path (gs ++ [f])) [e]) /\ numele r' = numele r /\ (size H' + length gs = size H)%nat.
Proof.
  intros [(fpt & fpc & Hc & Ht & Hd & Hdom) Hnn] Hch Hf He Hsz Hmx ->. pose proof (chain_size _ _ _ _ _ Ht Hch Hf) as Hcs. pose proof (chain_bytes _ _ _ _ _ Ht Hch Hf) as Hby.
  pose proof (raxPadding_range (Z.of_nat (length (path (gs ++ [f]))))) as Hpad. set (cs := path (gs ++ [f])) in *.
  destruct (rax_malloc_spec H (single_size (Z.of_nat (length cs)) false) Hsz) as (new & m0 & -> & Hfresh & Hanew & Hlen).
  unfold upd_node. cbv beta iota. rewrite lookup_insert_eq. cbn [mbind option_bind]. rewrite insert_insert_eq. set (m := set_size _ _).
  pose proof (tree_at_dom _ _ _ _ Ht) as Htd. pose proof (ctx_at_dom _ _ _ _ _ _ Hc) as Hcd. pose proof (fresh_not_in_fp Htd Hfresh) as Hnt. pose proof (fresh_not_in_fp Hcd Hfresh) as Hncx.
  assert (forall b, b ∈ dom H -> <[new := m]> H !! b = H !! b) as Hag1 by (intros b Hb; apply lookup_insert_ne; intros ->; by apply not_elem_of_dom in Hfresh).
  assert (size fpt <= size H)%nat as Hfs by (rewrite <- size_dom; by apply subseteq_size). rewrite length_app in Hcs. simpl in Hcs.
  destruct (chain_copy_spec e new gs f (<[new := m]> H) (add_nodes r 1) h fpt 0 (size H) m [] (data m0)) as (H3 & r3 & h3 & J & fpe & -> & Em & HJ & Hte & Hfe & Hd3 & Hag3 & Hs3 & Hr3 & Hne3 & Hnn3); try done;
    [by apply (tree_at_agree H); auto|by rewrite lookup_insert_eq|rewrite Hlen; fold cs; unfold single_size; lia|lia|].
  fold cs in HJ, Em. cbn [mbind option_bind app] in Em |- *. destruct (tree_at_root _ _ _ _ Hte) as [_ Ha3].
  destruct (merged_node (set_data m (cs ++ J)) cs J h3) as (m' & Ew & Hrep'); try done; [cbn; apply Z.mod_small; lia|unfold single_size in Hlen; lia|].
  rewrite Em. cbn [mbind option_bind]. rewrite Ew. cbn [mbind option_bind]. set (H4 := <[new := m']> H3).
  assert (forall b, b ∈ fpc -> H4 !! b = H !! b) as Hag4 by (intros b Hb; unfold H4; rewrite lookup_insert_ne by congruence; rewrite Hag3 by (congruence || (clear -Hd Hb; set_solver)); auto).
  assert (ctx_at H4 (rhead r3) fs h stk fpc) as Hc4 by (rewrite Hr3; by apply (ctx_at_agree H)).
  assert (tree_at H4 new (RT None true cs [e]) ({[new]} ∪ (fpe ∪ ∅))) as Ht4.
  { eapply (node_at H4 _ _ m'); [|done|by apply lookup_insert_eq|done|done|clear -Hnt Hfe; set_solver]. constructor; [|constructor|clear; set_solver].
    apply (tree_at_agree H3); [done|]. intros b Hb. apply lookup_insert_ne. intros ->. by apply Hnt, Hfe. }
  destruct (relink H4 H4 r3 fs h stk fpc new _ _ Hc4 ltac:(done) Ht4) as (H5 & r5 & Ew5 & Hc5 & Ht5 & _ & Hdom5 & Hne5 & Hnn5); [clear -Hncx Hfe Hd; set_solver|].
  exists H5, r5, new. split; [|split; [|split]].
  - pose proof (parent_link _ _ _ _ _ _ Hc4) as Hpl. destruct stk as [|a stk]; cbn [head]; [injection Hpl as Hpl; rewrite <- Hpl in Ew5; exact Ew5|]. rewrite Hpl. exact Ew5.
  - split; [exists ({[new]} ∪ (fpe ∪ ∅)), fpc; split_and!; [done|done|clear -Hncx Hfe Hd; set_solver|]|].
    + rewrite Hdom5. unfold H4. rewrite dom_insert_L, Hd3, dom_insert_L, Hdom. clear -Hfe Hd. apply set_eq. intros b. destruct (decide (b ∈ fpe)); set_solver.
    + rewrite (dom_size _ _ Hdom5), Hnn5, Hnn3. unfold H4. rewrite map_size_insert_Some by eauto. rewrite map_size_insert_None in Hs3 by done. cbn. lia.
  - by rewrite Hne5, Hne3.
  - rewrite (dom_size _ _ Hdom5). unfold H4. rewrite map_size_insert_Some by eauto. rewrite map_size_insert_None in Hs3 by done. lia.
Qed.
(** Compression keeps the keys, at a place of the tree that may be higher. *)
Lemma recompress_spec H r fs x stk t : hole H r fs x stk t -> Forall wf_frame fs -> wf t -> inchain t = true -> Z.of_nat (size H) < 2 ^ 48 ->
  (forall s, is_Some (tfind (plug fs t) s) -> Z.of_nat (length s) < 2 ^ 29) ->
  exists H' r' fs' x' stk' t', recompress H r x stk = Some (H', r') /\ hole H' r' fs' x' stk' t' /\ Forall wf_frame fs' /\ wf t' /\ live t' /\
    (forall s, tfind (plug fs' t') s = tfind (plug fs t) s) /\ numele r' = numele r /\ (size H' <= size H)%nat.
Proof.
  intros Hh Hf Hw Hi Hsz Hk. destruct (chain_start_spec H r fs x stk t Hh Hf) as (pre & fs' & h & stk' & -> & Hpre & Est & Hh'). rewrite Forall_app in Hf. destruct Hf as [Hfp Hf].
  destruct (unchain t Hw) as (gs & e & -> & Hgs & Hfg & Hwe & Hle & Hie). destruct Hle as [->|Hle]; [cbn [plug] in Hi; congruence|].
  rewrite <- plug_app in Hh'. rewrite <- plug_app, app_assoc in Hk. assert (gs ++ pre <> []) as Hne by (destruct gs; [cbn [plug] in Hi; congruence|done]).
  assert (Forall (fun f => chain_f f = true) (gs ++ pre)) as HG by (by apply Forall_app). assert (Forall wf_frame (gs ++ pre)) as HFG by (by apply Forall_app).
  assert (forall s, tfind (plug (pre ++ fs') (plug gs e)) s = tfind (plug fs' (plug (gs ++ pre) e)) s) as Hpl by (intros s; by rewrite <- !plug_app, <- app_assoc).
  setoid_rewrite Hpl. clear Hpl Hgs Hpre Hfg Hfp Hh Hi Hw. set (G := gs ++ pre) in *. clearbody G. clear gs pre.
  destruct G as [|f G _] using rev_ind; [done|]. destruct (live_key e Hwe Hle) as (s0 & v0 & Es0).
  assert (Z.of_nat (length (path (G ++ [f]))) < 2 ^ 29) as Hm.
  { specialize (Hk (path ((G ++ [f]) ++ fs') ++ s0)). rewrite plug_inside, Es0, !length_app in Hk by (apply wf_frames_ok, Forall_app; done).
    specialize (Hk ltac:(eauto)). rewrite path_app, length_app in Hk. lia. }
  destruct (plug_live _ _ HFG Hwe Hle) as [HwG HlG].
  unfold recompress. rewrite Est. cbn [mbind option_bind]. pose proof Hh' as [(fpt & fpc & Hc & Ht & Hd & Hdom) Hnn].
  pose proof (proj2 (proj1 (Forall_app _ _ _) HG)) as Hcf. rewrite Forall_singleton in Hcf. pose proof (proj2 (proj1 (Forall_app _ _ _) HFG)) as Hff. rewrite Forall_singleton in Hff.
  destruct (chain_top H h f (plug G e) fpt) as (n & compr & p & fp' & -> & Hrep & _); [by rewrite plug_app in Ht|done|done|]. cbn [mbind option_bind].
  rewrite (nr_size _ _ _ _ _ Hrep). pose proof Hm as Hm'. rewrite path_app, length_app in Hm'. cbn [path app] in Hm'.
  assert (size fpt <= size H)%nat as Hfs by (rewrite <- size_dom; apply subseteq_size; by apply (tree_at_dom _ _ _ _ Ht)).
  pose proof (chain_size _ _ _ _ _ Ht HG HFG) as Hcs. rewrite length_app in Hcs. simpl in Hcs.
  rewrite (chain_scan_spec H e G f h fpt) by (done || lia || (change (Z.shiftl 1 29) with (2 ^ 29); lia)). cbn [mbind option_bind].
  replace (Z.of_nat (length (fpath f)) + Z.of_nat (length (path G))) with (Z.of_nat (length (path (G ++ [f])))) by (rewrite path_app, length_app; cbn [path app]; lia).
  destruct (1 + Z.of_nat (length G) >? 1) eqn:Eg; cbn [negb].
  - destruct (merge_chain H r fs' h stk' G f e (head stk') Hh' HG HFG Hie Hsz Hm eq_refl) as (H' & r' & h' & -> & Hhm & Hne' & Hs').
    exists H', r', fs', h', stk', (RT None true (path (G ++ [f])) [e]). split_and!; try done; [|by right| |lia].
    + constructor; [|done|done]. rewrite path_app, length_app. cbn [path app]. pose proof (frames_length _ HFG). rewrite path_app, !length_app in *. cbn [path app length] in *. lia.
    + intros s. apply plug_ext; [by apply wf_frames_ok|]. intros s'. by rewrite merge_find.
  - exists H, r, fs', h, stk', (plug (G ++ [f]) e). split_and!; done || lia.
Qed.
Definition short_keys (M : gmap (list Z) Z) : Prop := forall s, is_Some (M !! s) -> Z.of_nat (length s) < 2 ^ 29.

(** The end of a removal: the tree has the keys that are left and may be compressed. *)
Lemma remove_finish H r fs x stk t M (b : bool) : hole H r fs x stk t -> Forall wf_frame fs -> wf t -> fs = [] \/ live t -> (b = true -> inchain t = true) ->
  (forall s, tfind (plug fs t) s = M !! s) -> numele r = Z.of_nat (size M) -> Z.of_nat (size H) < 2 ^ 48 -> short_keys M ->
  exists H' r', match (if b then Some (x, stk) else None) with Some (h, ts) => recompress H r h ts | None => Some (H, r) end = Some (H', r') /\
    rax_rep H' r' M /\ (size H' <= size H)%nat.
Proof.
  intros Hh Hf Hw Hl Hb HM Hn Hsz Hk. destruct b.
  - destruct (recompress_spec H r fs x stk t Hh Hf Hw (Hb eq_refl) Hsz) as (H' & r' & fs' & x' & stk' & t' & -> & Hh' & Hf' & Hw' & Hl' & Ht' & Hn' & Hs');
      [intros s; rewrite HM; apply Hk|]. exists H', r'. split; [done|]. split; [|done].
    exists (plug fs' t'). split_and!; [by apply (plug_hole _ _ _ x' stk')|apply plug_wf; auto|intros s; by rewrite Ht'|by rewrite Hn'].
  - exists H, r. split; [done|]. split; [|done]. exists (plug fs t). split_and!; [by apply (plug_hole _ _ _ x stk)|by apply plug_wf|done|done].
Qed.

(** A leaf is released with the nodes that only led to it. *)
Lemma remove_leaf_case H r fs x stk M : hole H r fs x stk leaf_tree -> Forall wf_frame fs ->
  (forall s, tfind (plug fs leaf_tree) s = M !! s) -> numele r = Z.of_nat (size M) -> Z.of_nat (size H) < 2 ^ 48 -> short_keys M ->
  exists H' r', ('(H, r, trycompress) ← ('(H, r, h, child, ts) ← remove_leaf H r x stk None; match child with Some child => unlink_child H r h ts child | None => Some (H, r, None) end);
      match trycompress with Some (h, ts) => recompress H r h ts | None => Some (H, r) end) = Some (H', r') /\
    rax_rep H' r' M /\ (size H' <= size H)%nat.
Proof.
  intros [(fpt & fpc & Hc & Ht & Hd & Hdom) Hnn] Hf HM Hn Hsz Hk. destruct fs as [|f fs].
  - inversion Hc; subst. cbn [remove_leaf]. rewrite Z.eqb_refl. cbn [mbind option_bind].
    apply (remove_finish H r [] (rhead r) [] leaf_tree M false); try done; [split; [by exists fpt, ∅|done]|repeat constructor|by left].
  - destruct (tree_at_inv _ _ _ _ _ _ _ Ht) as (n & kids & fps & E & Hrep & _ & Hts & _ & ->). inversion Hts; subst. rewrite (right_id_L ∅ (∪)) in *.
    destruct (remove_leaf_spec (numele r) fs H r x stk fpc None f) as (H1 & r1 & h & c & stk1 & pre & g & fs1 & -> & Hr1 & Hc1 & Ef & Hpre & Hor & Hn1 & Hnn1 & Hs1); try done; [clear -Hd; set_solver|].
    cbn [mbind option_bind]. rewrite Ef in Hf, HM. pose proof Hf as Hf2. rewrite Forall_app, Forall_cons in Hf2. destruct Hf2 as (_ & Hwg & Hf1).
    destruct (unlink_child_spec H1 r1 g fs1 c h stk1 Hc1 Hnn1) as (H2 & r2 & h2 & -> & Hh2 & Hn2 & Hs2); [lia|]. cbn [mbind option_bind].
    destruct (remove_finish H2 r2 fs1 h2 stk1 (cut g) M (single (cut g))) as (H3 & r3 & E3 & Hrep3 & Hs3); try done.
    + by apply cut_wf.
    + destruct Hor; [right; by apply cut_live|by left].
    + destruct (cut g) as [k co cs ts]. cbn. destruct (bool_decide _); [by rewrite andb_false_r|]. rewrite andb_true_r. intros ->. by rewrite orb_true_r.
    + intros s. by rewrite <- (remove_find pre).
    + by rewrite Hn2, Hn1.
    + lia.
    + exists H3, r3. split; [done|]. split; [done|lia].
Qed.
Lemma raxRemove_spec H r M s : rax_rep H r M -> short_keys M -> Z.of_nat (size H) < 2 ^ 48 ->
  exists H' r', raxRemove H r s = Some (H', r', b2z (bool_decide (is_Some (M !! s))), M !! s) /\ rax_rep H' r' (delete s M) /\ (size H' <= size H)%nat.
Proof.
  intros (t & Hh & Hw & HM & Hne) Hk Hsz. destruct (raxLowWalk_spec H r t s Hh Hw) as (fs & x & stk & t' & s' & j & Er & Hh' & Hw' & Hf & Hl & <- & -> & Hst).
  unfold raxRemove. rewrite Er. cbn [mbind option_bind w_stop w_i w_j w_stack].
  destruct (stop_test H r fs x stk t' s' j Hh' Hw' Hf Hst) as (n & En & Ht & Hv). rewrite En. cbn [mbind option_bind]. rewrite Ht. rewrite HM in Ht, Hv |- *.
  destruct (M !! (path fs ++ s')) as [v|] eqn:EM.
  2: { rewrite bool_decide_true by done. exists H, r. split; [done|]. rewrite delete_id by done. split; [|done]. by exists (plug fs t'). }
  rewrite bool_decide_false by done. destruct (Hv v eq_refl) as (-> & Hkey & ->). clear Hv Ht. cbn [mbind option_bind]. rewrite app_nil_r in *.
  destruct t' as [key compr cs ts]. cbn [tkey] in Hkey. subst key. destruct Hh' as [(fpt & fpc & Hha) Hnn]. pose proof Hha as (Hc & Htt & Hd & Hdom).
  destruct (tree_at_inv _ _ _ _ _ _ _ Htt) as (n' & kids & fps & En' & Hrep & Ha & Hts & Hxf & ->). rewrite En in En'. injection En' as <-.
  destruct (hole_update H (rhead r) fs x stk (Some v) compr cs ts kids fps fpc (set_iskey n false) None Hha Hts Hxf (clear_key _ _ _ _ _ Hrep) Ha) as [Hh1 Hs1].
  set (H1 := <[x := set_iskey n false]> H) in *. assert (hole H1 (add_ele r (-1)) fs x stk (RT None compr cs ts)) as Hh2 by (split; [by exists ({[x]} ∪ fps), fpc|cbn; by rewrite Hs1]).
  assert (forall s', tfind (plug fs (RT None compr cs ts)) s' = delete (path fs) M !! s') as HM'.
  { intros s'. rewrite (plug_update fs (RT (Some v) compr cs ts) _ [] None (wf_frames_ok _ Hf)) by (by intros [|]). rewrite app_nil_r, HM.
    case_decide as Hs; [subst; by rewrite lookup_delete_eq|by rewrite lookup_delete_ne]. }
  assert (numele (add_ele r (-1)) = Z.of_nat (size (delete (path fs) M))) as Hn'.
  { cbn. rewrite map_size_delete_Some by eauto. assert (size M <> 0)%nat by (intros Hz%map_size_empty_inv; subst; by rewrite lookup_empty in EM). lia. }
  assert (short_keys (delete (path fs) M)) as Hk' by (intros s' Hs'; apply Hk; destruct Hs' as [w Hw2]; rewrite lookup_delete_Some in Hw2; exists w; tauto).
  assert (wf (RT None compr cs ts)) as Hw1 by (inversion Hw'; subst; by constructor). rewrite (nr_size _ _ _ _ _ Hrep).
  destruct (Z.eqb_spec (Z.of_nat (length cs)) 0) as [Hz|Hz].
  - destruct cs; [|simpl in Hz; lia]. assert (compr = false /\ ts = []) as [-> ->] by (inversion Hw1; subst; [simpl in *; lia|by destruct ts]).
    destruct (remove_leaf_case H1 (add_ele r (-1)) fs x stk (delete (path fs) M)) as (H2 & r2 & E2 & Hrep2 & Hs2); try done; [lia|].
    destruct (remove_leaf _ _ _ _ _) as [[[[[H3 r3] h3] c3] ts3]|]; [|discriminate E2]. cbn [mbind option_bind] in E2 |- *.
    destruct (match c3 with Some child => unlink_child H3 r3 h3 ts3 child | None => _ end) as [[[H4 r4] tc]|]; [|discriminate E2]. cbn [mbind option_bind] in E2 |- *.
    rewrite E2. exists H2, r2. split; [done|]. split; [done|lia].
  - cbn [mbind option_bind]. destruct (remove_finish H1 (add_ele r (-1)) fs x stk (RT None compr cs ts) (delete (path fs) M) (Z.of_nat (length cs) =? 1)) as (H2 & r2 & -> & Hrep2 & Hs2); try done.
    + right. right. intros ->. inversion Hw1; subst. by destruct cs.
    + intros Hlen. cbn. replace (length cs =? 1)%nat with true by lia. by rewrite orb_true_r.
    + lia.
    + exists H2, r2. split; [done|]. split; [done|lia].
Qed.
End Remove.
