(* ===== verification/RaxFree.v ===== *)
(** * Creation and release of the radix tree

    The keys of a tree in their order, and the release of all its nodes: the
    callback is called on every value that is not NULL, from the last key to
    the first, and no node is left. *)

From Stdlib Require Import ZArith Lia ZifyBool Sorted.
From stdpp Require Import base gmap numbers option list sets.
From S2P Require Import Prelude RaxNode RaxNodeProof Rax RaxTree RaxHeap RaxInsert RaxSpec.

Local Open Scope Z_scope.

(** ** The keys in order *)

Definition below (p : list Z) (kv : list Z * Z) : list Z * Z := (p ++ fst kv, snd kv).

Fixpoint titems (t : rtree) : list (list Z * Z) :=
  let '(RT key compr cs ts) := t in
  match key with Some v => [([], v)] | None => [] end ++
  if compr then match ts with u :: _ => below cs <$> titems u | [] => [] end
  else (fix go (cs : list Z) (ts : list rtree) {struct ts} :=
          match ts, cs with
          | u :: ts, c :: cs => (below [c] <$> titems u) ++ go cs ts
          | _, _ => []
          end) cs ts.

Fixpoint edge_items (cs : list Z) (ts : list rtree) : list (list Z * Z) :=
  match ts, cs with
  | u :: ts, c :: cs => (below [c] <$> titems u) ++ edge_items cs ts
  | _, _ => []
  end.

Lemma titems_node key cs ts : titems (RT key false cs ts) = match key with Some v => [([], v)] | None => [] end ++ edge_items cs ts.
Proof. cbn [titems]. f_equal. revert cs. induction ts as [|u ts IH]; intros [|c cs]; try done. cbn [edge_items]. by rewrite <- IH. Qed.

Lemma titems_compr key cs u : titems (RT key true cs [u]) = match key with Some v => [([], v)] | None => [] end ++ (below cs <$> titems u).
Proof. done. Qed.

(** [memcmp], then the length. *)
Fixpoint slt (s1 s2 : list Z) : Prop :=
  match s1, s2 with
  | [], _ :: _ => True
  | x :: s1, y :: s2 => x < y \/ x = y /\ slt s1 s2
  | _, [] => False
  end.

Lemma slt_app p s1 s2 : slt s1 s2 -> slt (p ++ s1) (p ++ s2).
Proof. induction p as [|x p IH]; [done|]. intros. right. auto. Qed.

Lemma slt_irrefl s : ~ slt s s.
Proof. induction s as [|x s IH]; simpl; [tauto|]. intros [?|[_ ?]]; [lia|done]. Qed.

Lemma below_sorted p (l : list (list Z * Z)) : StronglySorted slt l.*1 -> StronglySorted slt (below p <$> l).*1.
Proof.
  induction l as [|kv l IH]; [constructor|]. cbn. intros [Hs Hx]%StronglySorted_inv. constructor; [by apply IH|]. rewrite Forall_fmap in Hx |- *.
  rewrite Forall_fmap. eapply Forall_impl; [done|]. intros x Hlt. by apply slt_app.
Qed.

Lemma sorted_app {A} (R : A -> A -> Prop) l1 l2 : StronglySorted R l1 -> StronglySorted R l2 -> (forall x y, x ∈ l1 -> y ∈ l2 -> R x y) -> StronglySorted R (l1 ++ l2).
Proof.
  induction 1 as [|x l1 Hs IH Hx]; intros H2 H12; [done|]. cbn. constructor; [apply IH; [done|]; intros; apply H12; set_solver|].
  rewrite Forall_app. split; [done|]. rewrite Forall_forall. intros. apply H12; set_solver.
Qed.

Lemma elem_below s v p (l : list (list Z * Z)) : (s, v) ∈ (below p <$> l) <-> exists s', strip p s = Some s' /\ (s', v) ∈ l.
Proof.
  rewrite list_elem_of_fmap. split.
  - intros ([s' v'] & [= -> ->] & Hin). exists s'. by rewrite strip_app.
  - intros (s' & E & Hin). apply strip_Some in E. subst s. by exists (s', v).
Qed.

Lemma elem_edge s v cs ts : (s, v) ∈ edge_items cs ts -> StronglySorted Z.lt cs -> exists c s' u, s = c :: s' /\ edge cs ts c = Some u /\ (s', v) ∈ titems u /\ c ∈ cs.
Proof.
  revert cs. induction ts as [|u ts IH]; intros [|c cs]; cbn [edge_items edge]; try (set_solver). rewrite elem_of_app, elem_below.
  intros Hin [Hs Hc]%StronglySorted_inv. destruct Hin as [(s' & E & Hin)|Hin].
  - apply strip_Some in E. exists c, s', u. rewrite Z.eqb_refl. split_and!; try done. set_solver.
  - destruct (IH cs Hin Hs) as (d & s' & w & -> & Ew & Hin' & Hd). exists d, s', w. rewrite Forall_forall in Hc. specialize (Hc d Hd).
    destruct (Z.eqb_spec c d); [lia|]. split_and!; try done. set_solver.
Qed.

Lemma edge_elem c s v cs ts u : edge cs ts c = Some u -> (s, v) ∈ titems u -> (c :: s, v) ∈ edge_items cs ts.
Proof.
  revert cs. induction ts as [|w ts IH]; intros [|d cs]; cbn [edge_items edge]; try done. rewrite elem_of_app, elem_below. destruct (Z.eqb_spec d c) as [->|].
  - intros [= ->] Hin. left. exists s. simpl. by rewrite Z.eqb_refl.
  - intros E Hin. right. by apply IH.
Qed.

(** They are the keys the tree finds, each once, in increasing order. *)
Lemma titems_find t : wf t -> forall s v, (s, v) ∈ titems t <-> tfind t s = Some v.
Proof.
  induction t as [key compr cs ts IH] using rtree_ind'. rewrite Forall_forall in IH. intros Hw s v.
  assert ((s, v) ∈ match key with Some v => [([], v)] | None => [] end <-> s = [] /\ key = Some v) as Hkey by (destruct key; set_solver).
  inversion Hw as [k cs' u Hl Hwu Hlu|k cs' ts' Hs Hl Hts]; subst.
  - rewrite titems_compr, elem_of_app, Hkey, elem_below. destruct s as [|c s].
    + cbn [tfind]. split; [|by auto]. intros [[_ ->]|(s' & E & _)]; [done|]. apply strip_Some in E. destruct cs; [simpl in Hl; lia|done].
    + rewrite tfind_compr by done. split.
      * intros [[? _]|(s' & -> & Hin)]; [done|]. cbn. by apply IH; [set_solver|..].
      * destruct (strip cs (c :: s)) as [s'|]; [|done]. cbn. intros Hf. right. exists s'. split; [done|]. by apply IH; [set_solver|..].
  - rewrite titems_node, elem_of_app, Hkey. destruct s as [|c s].
    + cbn [tfind]. split; [|by auto]. intros [[_ ->]|Hin]; [done|]. by destruct (elem_edge _ _ _ _ Hin Hs) as (? & ? & ? & ? & _).
    + rewrite tfind_node. rewrite Forall_forall in Hts. assert (forall u, edge cs ts c = Some u -> u ∈ ts) as Hed.
      { clear. revert cs. induction ts as [|w ts IH]; intros [|d cs] u; cbn [edge]; try done. destruct (d =? c); [intros [= ->]; set_solver|]. intros ?%IH. set_solver. }
      split.
      * intros [[? _]|Hin]; [done|]. destruct (elem_edge _ _ _ _ Hin Hs) as (d & s' & u & [= <- <-] & Eu & Hin' & _). rewrite Eu. cbn. apply IH; [auto| |done]. by apply Hts, Hed.
      * destruct (edge cs ts c) as [u|] eqn:Eu; [|done]. cbn. intros Hf. right. apply (edge_elem _ _ _ _ _ u Eu). apply IH; [auto| |done]. by apply Hts, Hed.
Qed.

Lemma titems_sorted t : wf t -> StronglySorted slt (titems t).*1.
Proof.
  induction t as [key compr cs ts IH] using rtree_ind'. rewrite Forall_forall in IH. intros Hw.
  inversion Hw as [k cs' u Hl Hwu Hlu|k cs' ts' Hs Hl Hts]; subst.
  - rewrite titems_compr, fmap_app. apply sorted_app; [destruct key; repeat constructor|apply below_sorted, IH; [set_solver|done]|].
    intros x y Hx (kv & -> & Hy)%list_elem_of_fmap. apply list_elem_of_fmap in Hy as (kv' & -> & _). destruct key; [|set_solver]. apply list_elem_of_singleton in Hx as ->.
    destruct cs; [simpl in Hl; lia|done].
  - rewrite titems_node, fmap_app. rewrite Forall_forall in Hts. apply sorted_app; [destruct key; repeat constructor| |].
    + clear Hw Hl. revert cs Hs. induction ts as [|u ts IHts]; intros [|c cs] Hs; try constructor. cbn [edge_items]. apply StronglySorted_inv in Hs as [Hs Hc]. rewrite fmap_app.
      apply sorted_app; [apply below_sorted, IH; [set_solver|apply Hts; set_solver]|apply IHts; [intros; apply IH; [set_solver|done]|intros; apply Hts; set_solver|done]|].
      intros x y ([sx vx] & -> & Hx)%list_elem_of_fmap ([sy vy] & -> & Hy)%list_elem_of_fmap. apply elem_below in Hx as (s' & E & _). apply strip_Some in E. cbn in *. subst.
      destruct (elem_edge _ _ _ _ Hy Hs) as (d & s2 & w & -> & _ & _ & Hd). rewrite Forall_forall in Hc. left. by apply Hc.
    + intros x y Hx ([sy vy] & -> & Hy)%list_elem_of_fmap. destruct key; [|set_solver]. apply list_elem_of_singleton in Hx as ->.
      destruct (elem_edge _ _ _ _ Hy Hs) as (d & s2 & w & -> & _). done.
Qed.

(** ** Release *)

Definition nonnull (l : list (list Z * Z)) : list Z := filter (fun v => v <> 0) l.*2.

Lemma nonnull_app l1 l2 : nonnull (l1 ++ l2) = nonnull l1 ++ nonnull l2.
Proof. unfold nonnull. by rewrite fmap_app, filter_app. Qed.

Lemma nonnull_below p l : nonnull (reverse (below p <$> l)) = nonnull (reverse l).
Proof. unfold nonnull. by rewrite <- fmap_reverse, <- list_fmap_compose. Qed.

(** The heap without the nodes of a tree. *)
Definition without (H H' : heap) (fp : gset Z) : Prop := forall b, H' !! b = if decide (b ∈ fp) then None else H !! b.

Definition freed (free : heap -> rax -> Z -> option (heap * rax * list Z)) (H : heap) (r : rax) (a : Z) (t : rtree) (fp : gset Z) : Prop :=
  exists H', free H r a = Some (H', add_nodes r (- Z.of_nat (size fp)), nonnull (reverse (titems t))) /\ without H H' fp.

Lemma edge_items_snoc cs ts c u : length ts = length cs -> edge_items (cs ++ [c]) (ts ++ [u]) = edge_items cs ts ++ (below [c] <$> titems u).
Proof.
  revert cs. induction ts as [|w ts IH]; intros [|d cs] Hl; try (simpl in Hl; lia); cbn [edge_items app]; [by rewrite app_nil_r|].
  rewrite IH by (simpl in Hl; lia). by rewrite app_assoc.
Qed.

Lemma free_children_spec free n key compr cs0 kids0 N : node_rep n key compr cs0 kids0 -> forall ts kr kids cs H r fp out,
  kids0 = kids ++ kr -> trees_at H kids ts fp -> length cs = length ts -> (size fp <= N)%nat ->
  (forall H r a t fp, t ∈ ts -> tree_at H a t fp -> (size fp <= N)%nat -> freed free H r a t fp) ->
  exists H', free_children free n (length kids) H r (raxNodeFirstChildPtr n + 8 * (Z.of_nat (length kids) - 1)) out =
      Some (H', add_nodes r (- Z.of_nat (size fp)), out ++ nonnull (reverse (edge_items cs ts))) /\ without H H' fp.
Proof.
  intros [_ (slack & L) _ Hu]. induction ts as [|u ts IH] using rev_ind; intros kr kids cs H r fp out Ek Hts Hl HN Hfree.
  - inversion Hts; subst. exists H. split; [|intros b; by rewrite decide_False by set_solver]. destruct cs; [|simpl in Hl; lia]. cbn [length free_children]. change (nonnull _) with (@nil Z). unfold add_nodes. rewrite app_nil_r, size_empty, Z.add_0_r. by destruct r.
  - destruct (trees_at_app_inv _ _ _ _ _ Hts) as (k1 & k2 & f1 & f2 & -> & Hts1 & Hts2 & Hd & ->).
    destruct (trees_at_cons_inv _ _ _ _ _ Hts2) as (p & k' & fu & f' & -> & Htu & Hnil & _ & ->). inversion Hnil; subst. rewrite (right_id_L ∅ (∪)) in *.
    destruct cs as [|c cs _] using rev_ind; [rewrite length_app in Hl; simpl in Hl; lia|]. rewrite !length_app in Hl. simpl in Hl.
    rewrite size_union in HN |- * by done. rewrite length_app, Nat.add_comm. cbn [length Nat.add free_children]. rewrite <- app_assoc in L, Hu. cbn [app] in L, Hu.
    replace (Z.of_nat (S (length k1)) - 1) with (Z.of_nat (length k1)) by lia. rewrite (read_nth n compr cs0 k1 p kr _ L) by (rewrite Forall_app, Forall_cons in Hu; tauto). cbn [mbind option_bind].
    destruct (Hfree H r p u fu ltac:(set_solver) Htu ltac:(lia)) as (H1 & -> & Hw1). cbn [mbind option_bind].
    destruct (IH (p :: kr) k1 cs H1 (add_nodes r (- Z.of_nat (size fu))) f1 (out ++ nonnull (reverse (titems u)))) as (H2 & E2 & Hw2).
    + by rewrite <- app_assoc.
    + apply (trees_at_agree H); [done|]. intros b Hb. rewrite Hw1, decide_False; [done|clear -Hd Hb; set_solver].
    + lia.
    + lia.
    + intros. apply Hfree; set_solver.
    + exists H2. replace (raxNodeFirstChildPtr n + 8 * Z.of_nat (length k1) - 8) with (raxNodeFirstChildPtr n + 8 * (Z.of_nat (length k1) - 1)) by lia. rewrite E2.
      rewrite edge_items_snoc, reverse_app, nonnull_app, nonnull_below, app_assoc by lia. split; [do 3 f_equal; unfold add_nodes; cbn; f_equal; lia|].
      intros b. rewrite Hw2, Hw1. repeat case_decide; set_solver.
Qed.

Lemma free_spec fuel : forall H r a t fp, tree_at H a t fp -> wf t -> (size fp <= fuel)%nat -> freed (raxRecursiveFree fuel) H r a t fp.
Proof.
  induction fuel as [|fuel IH]; intros H r a t fp Ht Hw Hfu; destruct (tree_at_root _ _ _ _ Ht) as [Hroot _].
  - assert (size fp = 0)%nat as Hz by lia. apply size_empty_inv in Hz. set_solver.
  - destruct t as [key compr cs ts]. destruct (tree_at_inv _ _ _ _ _ _ _ Ht) as (n & kids & fps & E & Hrep & Ha & Hts & Hxf & ->).
    rewrite size_union, size_singleton in Hfu by set_solver. unfold freed. cbn [raxRecursiveFree]. rewrite E. cbn [mbind option_bind].
    pose proof (nr_length _ _ _ _ _ Hrep) as Hkl. rewrite (trees_at_length _ _ _ _ Hts) in Hkl.
    assert (exists cs', length cs' = length ts /\ nonnull (reverse (edge_items cs' ts)) ++ match key with Some v => nonnull [([], v)] | None => [] end = nonnull (reverse (titems (RT key compr cs ts)))) as (cs' & Hcs' & Hit).
    { destruct compr; [destruct ts as [|u [|]]; try done; exists [0]|exists cs]; (split; [done|]); rewrite ?titems_node, ?titems_compr, reverse_app, nonnull_app.
      - cbn [edge_items]. rewrite app_nil_r, !nonnull_below. by destruct key.
      - by destruct key. }
    destruct (free_children_spec (raxRecursiveFree fuel) n key compr cs kids fuel Hrep ts [] kids cs' H r fps []) as (H1 & E1 & Hw1); [by rewrite app_nil_r|done|done|lia| |].
    { intros H0 r0 a0 t0 fp0 Hin Ht0 Hs0. apply IH; [done| |lia]. inversion Hw as [k cs0 u Hl0 Hwu Hlu|k cs0 ts0 Hs1 Hl0 Hts0]; subst; [set_solver|]. rewrite Forall_forall in Hts0. by apply Hts0. }
    replace (if iscompr n then 1%nat else Z.to_nat (rsize n)) with (length kids) by (rewrite (nr_compr _ _ _ _ _ Hrep), (nr_size _ _ _ _ _ Hrep), Nat2Z.id; by rewrite (nr_length _ _ _ _ _ Hrep)).
    replace (raxNodeLastChildPtr n) with (raxNodeFirstChildPtr n + 8 * (Z.of_nat (length kids) - 1))
      by (unfold raxNodeLastChildPtr, raxNodeCurrentLength, raxNodeFirstChildPtr; rewrite (nr_compr _ _ _ _ _ Hrep), (nr_size _ _ _ _ _ Hrep), (nr_length _ _ _ _ _ Hrep); destruct compr; lia).
    rewrite E1. cbn [mbind option_bind app].
    assert ((if iskey n && negb (isnull n) then d ← raxGetData n; Some [d] else Some []) = Some match key with Some v => nonnull [([], v)] | None => [] end) as ->.
    { rewrite (nr_key _ _ _ _ _ Hrep). destruct key as [v|]; [|done]. rewrite (raxGetData_spec _ _ _ _ _ Hrep), bool_decide_true by eauto.
      rewrite (kf_null _ _ (nr_flags _ _ _ _ _ Hrep) v eq_refl). unfold nonnull. cbn. destruct (Z.eqb_spec v 0) as [->|]; cbn; [done|]. by rewrite decide_True. }
    cbn [mbind option_bind]. unfold rax_free. rewrite (Hw1 a), decide_False, E by done. cbn [mbind option_bind]. rewrite Hit.
    exists (delete a H1). rewrite size_union, size_singleton by set_solver. split; [do 3 f_equal; unfold add_nodes; cbn; f_equal; lia|].
    intros b. rewrite lookup_delete. repeat case_decide; subst; try set_solver.
    all: rewrite Hw1; repeat case_decide; set_solver.
Qed.

Lemma titems_perm t M : wf t -> (forall s, tfind t s = M !! s) -> titems t ≡ₚ map_to_list M.
Proof.
  intros Hw HM. pose proof (titems_sorted t Hw) as Hs. apply NoDup_Permutation; [|apply NoDup_map_to_list|].
  - apply (NoDup_fmap_1 fst). clear -Hs. induction Hs as [|x l Hs IH Hx]; constructor; [|done]. intros Hin. rewrite Forall_forall in Hx. by apply (slt_irrefl x), Hx.
  - intros [s v]. by rewrite titems_find, elem_of_map_to_list, HM.
Qed.

(** The callback gets the values that are not NULL, from the last key to the first; every node is released. *)
Lemma raxFreeWithCallback_spec H r M : rax_rep H r M ->
  exists l, l ≡ₚ map_to_list M /\ StronglySorted slt l.*1 /\ raxFreeWithCallback H r = Some (∅, nonnull (reverse l)).
Proof.
  intros (t & [(fpt & fpc & Hc & Ht & Hd & Hdom) Hnn] & Hw & HM & _). inversion Hc; subst. rewrite (right_id_L ∅ (∪)) in Hdom.
  pose proof (titems_sorted t Hw) as Hs. exists (titems t). split; [|split; [done|]].
  - by apply titems_perm.
  - unfold raxFreeWithCallback. destruct (free_spec (S (size H)) H r (rhead r) t fpt Ht Hw) as (H' & -> & Hwo); [rewrite <- Hdom, size_dom; lia|]. cbn [mbind option_bind].
    cbn [numnodes add_nodes]. rewrite Hnn, <- Hdom, size_dom. replace (_ =? 0) with true by lia.
    assert (H' = ∅) as ->; [|done]. apply map_eq. intros b. rewrite Hwo, lookup_empty, <- Hdom. case_decide as Hb; [done|]. by apply not_elem_of_dom in Hb.
Qed.

(** ** Creation *)

Section New.
Context `{alloc : RaxAlloc} {alloc_ok : RaxAllocOk}.

Lemma raxNew_spec : rax_rep (fst (raxNew ∅)) (snd (raxNew ∅)) ∅ /\ size (fst (raxNew ∅)) = 1%nat.
Proof.
  unfold raxNew. rewrite raxNewNode_0. cbn [fst snd]. destruct (malloc_ok ∅) as [Hn Ha]; [done|]. set (a := malloc_at ∅) in *.
  assert (size (<[a := leaf_node]> (∅ : heap)) = 1%nat) as Hs by (by rewrite map_size_insert_None, map_size_empty). split; [|done].
  exists leaf_tree. split_and!; [|repeat constructor|intros s; by rewrite leaf_find, lookup_empty|done]. split; [|by rewrite Hs].
  exists ({[a]} ∪ ∅), ∅. split_and!; [constructor|apply leaf_at; [by rewrite lookup_insert_eq|done]|set_solver|]. rewrite dom_insert_L, dom_empty_L. set_solver.
Qed.
End New.
