(* ===== verification/RaxRefine.v ===== *)
(** * The radix tree refines a finite map

    Any sequence of insertions, lookups and removals on a new tree returns what
    a finite map from strings to pointers returns, keeps its counters, and the
    release at the end leaves nothing behind. *)

From Stdlib Require Import ZArith Lia ZifyBool Sorted.
From stdpp Require Import base gmap numbers option list sets.
From S2P Require Import Prelude RaxNode RaxNodeProof Rax RaxTree RaxHeap RaxInsert RaxSpec RaxRemove RaxFree.

Local Open Scope Z_scope.

(** ** Sequences of calls *)

Inductive rax_op :=
| OpInsert (s : list Z) (d : Z)
| OpTryInsert (s : list Z) (d : Z)
| OpFind (s : list Z)
| OpRemove (s : list Z).

(** What the call returns, and the value it finds or replaces. *)
Definition map_exec (M : gmap (list Z) Z) (o : rax_op) : gmap (list Z) Z * (Z * option Z) :=
  match o with
  | OpInsert s d => (<[s := d]> M, (b2z (bool_decide (M !! s = None)), M !! s))
  | OpTryInsert s d => (if M !! s then M else <[s := d]> M, (b2z (bool_decide (M !! s = None)), M !! s))
  | OpFind s => (M, (b2z (bool_decide (is_Some (M !! s))), M !! s))
  | OpRemove s => (delete s M, (b2z (bool_decide (is_Some (M !! s))), M !! s))
  end.

Fixpoint map_run (M : gmap (list Z) Z) (ops : list rax_op) : gmap (list Z) Z * list (Z * option Z) :=
  match ops with
  | [] => (M, [])
  | o :: ops => let '(M, x) := map_exec M o in let '(M, out) := map_run M ops in (M, x :: out)
  end.

(** Strings of bytes that fit the size field of a node, and pointers. *)
Definition op_ok (o : rax_op) : Prop :=
  match o with
  | OpInsert s d | OpTryInsert s d => Forall byteZ s /\ Z.of_nat (length s) < 2 ^ 29 /\ in_u 64 d
  | _ => True
  end.

(** A bound on the nodes a call adds. *)
Definition op_nodes (o : rax_op) : nat := match o with OpInsert s _ | OpTryInsert s _ => length s + 2 | _ => 0 end.

Section Refine.
Context `{alloc : RaxAlloc} {alloc_ok : RaxAllocOk}.

Definition rax_exec (H : heap) (r : rax) (o : rax_op) : option (heap * rax * (Z * option Z)) :=
  match o with
  | OpInsert s d => '(H, r, rc, old) ← raxInsert H r s d; Some (H, r, (rc, old))
  | OpTryInsert s d => '(H, r, rc, old) ← raxTryInsert H r s d; Some (H, r, (rc, old))
  | OpFind s => v ← raxFind H r s; Some (H, r, (b2z (bool_decide (is_Some v)), v))
  | OpRemove s => '(H, r, rc, old) ← raxRemove H r s; Some (H, r, (rc, old))
  end.

Fixpoint rax_run (H : heap) (r : rax) (ops : list rax_op) : option (heap * rax * list (Z * option Z)) :=
  match ops with
  | [] => Some (H, r, [])
  | o :: ops => '(H, r, x) ← rax_exec H r o; '(H, r, out) ← rax_run H r ops; Some (H, r, x :: out)
  end.

Lemma short_insert M s d : short_keys M -> Z.of_nat (length s) < 2 ^ 29 -> short_keys (<[s := d]> M).
Proof. intros Hk Hs s' [v Hv]. rewrite lookup_insert_Some in Hv. destruct Hv as [[-> _]|[_ Hv]]; [done|]. apply Hk. eauto. Qed.

Lemma exec_step H r M o : rax_rep H r M -> short_keys M -> op_ok o -> Z.of_nat (size H + op_nodes o) + 1 < 2 ^ 48 ->
  exists H' r', rax_exec H r o = Some (H', r', snd (map_exec M o)) /\ rax_rep H' r' (fst (map_exec M o)) /\ short_keys (fst (map_exec M o)) /\ (size H' <= size H + op_nodes o)%nat.
Proof.
  intros Hr Hk Ho Hsz. destruct o as [s d|s d|s|s]; cbn [op_ok op_nodes map_exec rax_exec fst snd] in *.
  - destruct Ho as (Hb & Hl & Hd). destruct (raxGenericInsert_spec H r M s d true Hr Hb Hd ltac:(lia)) as (H' & r' & E & Hr' & Hs). unfold raxInsert. rewrite E. cbn [mbind option_bind].
    rewrite andb_false_r in Hr'. exists H', r'. split_and!; [done|done|by apply short_insert|lia].
  - destruct Ho as (Hb & Hl & Hd). destruct (raxGenericInsert_spec H r M s d false Hr Hb Hd ltac:(lia)) as (H' & r' & E & Hr' & Hs). unfold raxTryInsert. rewrite E. cbn [mbind option_bind].
    exists H', r'. split; [done|]. destruct (M !! s); cbn in Hr'; split_and!; [done|done|lia|done|by apply short_insert|lia].
  - rewrite (raxFind_spec H r M s Hr). cbn [mbind option_bind]. exists H, r. split_and!; done || lia.
  - destruct (raxRemove_spec H r M s Hr Hk ltac:(lia)) as (H' & r' & E & Hr' & Hs). rewrite E. cbn [mbind option_bind]. exists H', r'. split_and!; [done|done| |lia].
    intros s' [v Hv]. rewrite lookup_delete_Some in Hv. apply Hk. exists v. tauto.
Qed.

Lemma run_spec ops : forall H r M, rax_rep H r M -> short_keys M -> Forall op_ok ops -> Z.of_nat (size H + sum_list (op_nodes <$> ops)) + 1 < 2 ^ 48 ->
  exists H' r', rax_run H r ops = Some (H', r', snd (map_run M ops)) /\ rax_rep H' r' (fst (map_run M ops)) /\ short_keys (fst (map_run M ops)).
Proof.
  induction ops as [|o ops IH]; intros H r M Hr Hk Ho Hsz; [by exists H, r|]. apply Forall_cons in Ho as [Ho Hops]. cbn [fmap list_fmap sum_list] in Hsz.
  destruct (exec_step H r M o Hr Hk Ho) as (H1 & r1 & E1 & Hr1 & Hk1 & Hs1); [simpl in Hsz; lia|]. cbn [rax_run map_run]. rewrite E1. cbn [mbind option_bind].
  destruct (map_exec M o) as [M1 x1]. cbn [fst snd] in *. destruct (IH H1 r1 M1 Hr1 Hk1 Hops) as (H2 & r2 & E2 & Hr2 & Hk2); [simpl in Hsz; unfold fmap in *; lia|].
  rewrite E2. cbn [mbind option_bind]. destruct (map_run M1 ops). by exists H2, r2.
Qed.

Lemma run_new ops : Forall op_ok ops -> Z.of_nat (sum_list (op_nodes <$> ops)) + 2 < 2 ^ 48 ->
  exists H r, rax_run (fst (raxNew ∅)) (snd (raxNew ∅)) ops = Some (H, r, snd (map_run ∅ ops)) /\ rax_rep H r (fst (map_run ∅ ops)) /\ short_keys (fst (map_run ∅ ops)).
Proof.
  intros Ho Hsz. destruct raxNew_spec as [Hr Hs]. apply (run_spec ops _ _ ∅ Hr); [intros s [v Hv]; by rewrite lookup_empty in Hv|done|lia].
Qed.

End Refine.

(** C4. Any sequence of [raxInsert], [raxTryInsert], [raxFind] and [raxRemove] calls on a
    new tree, for keys shorter than 2^29 bytes whose insertions cannot make 2^48 nodes together, and
    any allocator that returns fresh addresses, touches no released or foreign memory and returns what a
    finite map returns: 1 for a new key and 0 with the old value for one that is
    there, the value removed, the value found.  Afterwards a lookup of any
    string finds what the map has, and the tree counts its keys and nodes. *)
Theorem rax_refines_map `{alloc : RaxAlloc} {alloc_ok : RaxAllocOk} (ops : list rax_op) :
  Forall op_ok ops -> Z.of_nat (sum_list (op_nodes <$> ops)) + 2 < 2 ^ 48 ->
  exists H r, rax_run (fst (raxNew ∅)) (snd (raxNew ∅)) ops = Some (H, r, snd (map_run ∅ ops)) /\
    (forall s, raxFind H r s = Some (fst (map_run ∅ ops) !! s)) /\
    numele r = Z.of_nat (size (fst (map_run ∅ ops))) /\ numnodes r = Z.of_nat (size H).
Proof.
  intros Ho Hsz. destruct (run_new ops Ho Hsz) as (H & r & E & Hrep & _).
  exists H, r. split; [done|]. split; [intros s; by apply raxFind_spec|]. by destruct Hrep as (t & [_ Hn] & _ & _ & Hne).
Qed.

(** C24. After any such sequence of calls [raxFreeWithCallback] releases every node, its
    assertion on the node count holds, and the callback has been called once
    for each key whose value is not NULL, from the last key in the order of
    [memcmp] to the first. *)
Theorem rax_free_releases_all `{alloc : RaxAlloc} {alloc_ok : RaxAllocOk} (ops : list rax_op) :
  Forall op_ok ops -> Z.of_nat (sum_list (op_nodes <$> ops)) + 2 < 2 ^ 48 ->
  exists H r out l, rax_run (fst (raxNew ∅)) (snd (raxNew ∅)) ops = Some (H, r, out) /\
    l ≡ₚ map_to_list (fst (map_run ∅ ops)) /\ StronglySorted slt l.*1 /\
    raxFreeWithCallback H r = Some (∅, filter (fun v => v <> 0) (reverse l).*2).
Proof.
  intros Ho Hsz. destruct (run_new ops Ho Hsz) as (H & r & E & Hrep & _).
  destruct (raxFreeWithCallback_spec H r _ Hrep) as (l & Hl & Hsl & Hf). by exists H, r, (snd (map_run ∅ ops)), l.
Qed.

(** ** An allocator

    The lowest free address; a block always moves when its size changes. *)

Definition free_address (H : heap) : Z := default 0 (snd <$> list_find (fun a => H !! a = None) (seqZ 1 (Z.of_nat (S (size H))))).

Lemma free_address_ok (H : heap) : Z.of_nat (size H) < 2 ^ 48 -> H !! free_address H = None /\ 0 < free_address H < 2 ^ 64.
Proof.
  intros Hsz. unfold free_address. destruct (list_find _ _) as [[i a]|] eqn:E; cbn.
  - apply list_find_Some in E as (Ei & Hn & _). apply list_elem_of_lookup_2, elem_of_seqZ in Ei. split; [done|lia].
  - exfalso. apply list_find_None in E. assert (list_to_set (seqZ 1 (Z.of_nat (S (size H)))) ⊆ dom H) as Hsub.
    { intros a Ha. apply elem_of_list_to_set in Ha. rewrite Forall_forall in E. specialize (E a Ha). apply elem_of_dom. destruct (H !! a); [eauto|done]. }
    apply subseteq_size in Hsub. rewrite size_list_to_set, length_seqZ, size_dom in Hsub by apply NoDup_seqZ. lia.
Qed.

#[export] Instance lowest_free : RaxAlloc := {| malloc_at := free_address; realloc_at H _ := free_address H; rax_undef i := Z.of_nat i mod 256 |}.

#[export] Instance lowest_free_ok : RaxAllocOk.
Proof. split; [apply free_address_ok|]. intros H a _ Hsz. right. by apply free_address_ok. Qed.

(** The keys of the comment of [raxRemove], [foo], [foobar] and [footer], with a removal that releases, splits and joins nodes. *)
Definition demo_ops : list rax_op :=
  [OpInsert [102; 111; 111; 98; 97; 114] 7; OpInsert [102; 111; 111; 116; 101; 114] 8; OpTryInsert [102; 111; 111] 0; OpTryInsert [102; 111; 111] 5;
   OpFind [102; 111; 111]; OpRemove [102; 111; 111; 98; 97; 114]; OpRemove [102; 111; 111; 98]; OpInsert [] 9].

Ltac ops_ok :=
  repeat (constructor; [first [exact I|split; [repeat (constructor; [unfold byteZ; lia|]); constructor|split; [vm_compute; reflexivity|split; vm_compute; congruence]]]|]); constructor.

Lemma rax_refines_map_witness : exists H r, rax_run (fst (raxNew ∅)) (snd (raxNew ∅)) demo_ops = Some (H, r, [(1, None); (1, None); (1, None); (0, Some 0); (1, Some 0); (1, Some 7); (0, None); (1, None)]) /\
  raxFind H r [102; 111; 111; 116; 101; 114] = Some (Some 8) /\ numele r = 3.
Proof.
  destruct (rax_refines_map demo_ops) as (H & r & E & Hf & Hn & _).
  - ops_ok.
  - vm_compute. reflexivity.
  - exists H, r. split; [rewrite E; vm_compute; reflexivity|]. split; [rewrite Hf; vm_compute; reflexivity|rewrite Hn; vm_compute; reflexivity].
Defined.

Lemma rax_free_releases_all_witness : exists H r out, rax_run (fst (raxNew ∅)) (snd (raxNew ∅)) demo_ops = Some (H, r, out) /\
  is_Some (raxFreeWithCallback H r).
Proof.
  destruct (rax_free_releases_all demo_ops) as (H & r & out & l & E & _ & _ & Hf).
  - ops_ok.
  - vm_compute. reflexivity.
  - exists H, r, out. split; [exact E|]. rewrite Hf. by eexists.
Defined.
