(* ===== verification/RaxIter.v ===== *)
(** * Iteration over the radix tree ([rax.c])

    An iterator has the bytes of the current key in a buffer that is longer than
    the key, and the parents of the current node in an array that is longer than
    the stack: at the end of an iteration only the lengths are restored, so both
    arrays are modelled.  Allocation does not fail, as [zmalloc] does not, and
    there is no node callback.  Lengths count bytes in memory; taking more from
    the key than it has wraps around. *)

From Stdlib Require Import ZArith Lia ZifyBool.
From stdpp Require Import base gmap numbers option list.
From S2P Require Import Prelude SdsCmp RaxNode Rax.

Local Open Scope Z_scope.

Record raxIterator := mk_riter {
  just_seeked : bool;
  it_eof : bool;
  key_heap : bool; (* [it->key] is not [key_static_string] *)
  key_buf : list Z;
  key_len : Z;
  it_data : Z;
  it_node : Z;
  it_stack : list Z;
  it_items : nat
}.

Definition set_flags (it : raxIterator) (seeked eof : bool) : raxIterator :=
  mk_riter seeked eof (key_heap it) (key_buf it) (key_len it) (it_data it) (it_node it) (it_stack it) (it_items it).
Definition set_buf (it : raxIterator) (h : bool) (buf : list Z) : raxIterator :=
  mk_riter (just_seeked it) (it_eof it) h buf (key_len it) (it_data it) (it_node it) (it_stack it) (it_items it).
Definition set_key_len (it : raxIterator) (len : Z) : raxIterator :=
  mk_riter (just_seeked it) (it_eof it) (key_heap it) (key_buf it) len (it_data it) (it_node it) (it_stack it) (it_items it).
Definition set_it_data (it : raxIterator) (d : Z) : raxIterator :=
  mk_riter (just_seeked it) (it_eof it) (key_heap it) (key_buf it) (key_len it) d (it_node it) (it_stack it) (it_items it).
Definition set_it_node (it : raxIterator) (a : Z) : raxIterator :=
  mk_riter (just_seeked it) (it_eof it) (key_heap it) (key_buf it) (key_len it) (it_data it) a (it_stack it) (it_items it).
Definition set_stack (it : raxIterator) (stk : list Z) (items : nat) : raxIterator :=
  mk_riter (just_seeked it) (it_eof it) (key_heap it) (key_buf it) (key_len it) (it_data it) (it_node it) stk items.

(** ** The stack *)

Definition raxStackPush (it : raxIterator) (a : Z) : raxIterator :=
  set_stack it (take (it_items it) (it_stack it) ++ a :: drop (S (it_items it)) (it_stack it)) (S (it_items it)).

(** The node popped becomes the current one; [None] is the dereference of NULL that follows on an empty stack. *)
Definition raxStackPop (it : raxIterator) : option raxIterator :=
  match it_items it with
  | O => None
  | S items => a ← it_stack it !! items; Some (set_it_node (set_stack it (it_stack it) items) a)
  end.

Section RaxIter.
Context `{RaxAlloc}.

(** ** The key *)

Definition raxStart (node0 : Z) : raxIterator :=
  mk_riter false true false (rax_undef <$> seq 0 128) 0 0 node0 [] 0.

Definition raxIteratorAddChars (it : raxIterator) (s : list Z) : option raxIterator :=
  let len := Z.of_nat (length s) in
  if len =? 0 then Some it else
  it ← (if Z.of_nat (length (key_buf it)) <? key_len it + len then
          let new_max := (key_len it + len) * 2 in
          if key_heap it then Some (set_buf it true (realloc rax_undef (key_buf it) new_max))
          else old ← slice (key_buf it) 0 (key_len it);
               buf ← blit (realloc rax_undef [] new_max) 0 old;
               Some (set_buf it true buf)
        else Some it);
  buf ← blit (key_buf it) (key_len it) s;
  Some (set_key_len (set_buf it (key_heap it) buf) (key_len it + len)).

Definition raxIteratorDelChars (it : raxIterator) (count : Z) : raxIterator := set_key_len it (u64 (key_len it - count)).

(** ** Steps *)

(** Enter a child: the characters of its edge, the node on the stack. *)
Definition enter (it : raxIterator) (n : raxNode) (chars cp : Z) (len : Z) : option raxIterator :=
  s ← node_read n chars len;
  it ← raxIteratorAddChars (raxStackPush it (it_node it)) s;
  child ← read_ptr n cp;
  Some (set_it_node it child).

(** The inner loop: up to a node with a child after the one we come from, and into that child.
    [false] is the end of the iteration. *)
Fixpoint next_up (fuel : nat) (M : heap) (r : rax) (it : raxIterator) (noup : bool) : option (raxIterator * bool) :=
  match fuel with
  | O => None
  | S fuel =>
      if negb noup && (it_node it =? rhead r) then Some (it, false) else
      prevchild ← get (key_buf it) (key_len it - 1);
      it ← (if noup then Some it else raxStackPop it);
      n ← M !! it_node it;
      let it := raxIteratorDelChars it (if iscompr n then rsize n else 1) in
      if negb (iscompr n) && (rsize n >? (if noup then 0 else 1)) then
        cs ← node_read n 4 (rsize n);
        let i := child_pos cs prevchild in
        if negb (i =? rsize n) then it ← enter it n (4 + i) (raxNodeFirstChildPtr n + 8 * i) 1; Some (it, true)
        else next_up fuel M r it false
      else next_up fuel M r it false
  end.

(** [orig] is the iterator whose lengths and node are restored at the end. *)
Definition at_end (it orig : raxIterator) : raxIterator :=
  set_it_node (set_key_len (set_stack (set_flags it (just_seeked it) true) (it_stack it) (it_items orig)) (key_len orig)) (it_node orig).

Fixpoint next_loop (fuel : nat) (M : heap) (r : rax) (it : raxIterator) (noup : bool) (orig : raxIterator) : option raxIterator :=
  match fuel with
  | O => None
  | S fuel =>
      n ← M !! it_node it;
      let children := if iscompr n then 1 else rsize n in
      '(it, found) ← (if negb noup && negb (children =? 0)
                      then it ← enter it n 4 (raxNodeFirstChildPtr n) (if iscompr n then rsize n else 1); Some (it, true)
                      else next_up (S (S (size M))) M r it noup);
      if found : bool then
        n ← M !! it_node it;
        if iskey n then d ← raxGetData n; Some (set_it_data it d)
        else next_loop fuel M r it false orig
      else Some (at_end it orig)
  end.

Definition raxIteratorNextStep (M : heap) (r : rax) (it : raxIterator) (noup : bool) : option raxIterator :=
  if it_eof it then Some it
  else if just_seeked it then Some (set_flags it false (it_eof it))
  else next_loop (S (S (size M))) M r it noup it.

Fixpoint seek_greatest (fuel : nat) (M : heap) (it : raxIterator) : option raxIterator :=
  match fuel with
  | O => None
  | S fuel =>
      n ← M !! it_node it;
      if rsize n =? 0 then Some it else
      it ← (if iscompr n then enter it n 4 (raxNodeLastChildPtr n) (rsize n)
            else enter it n (4 + rsize n - 1) (raxNodeLastChildPtr n) 1);
      seek_greatest fuel M it
  end.

Definition raxSeekGreatest (M : heap) (it : raxIterator) : option raxIterator := seek_greatest (S (size M)) M it.

(** [for (i = size-1; i >= 0; i--) if (data[i] < c) break;] on the reversed characters. *)
Fixpoint prev_pos (rcs : list Z) (c : Z) : Z :=
  match rcs with
  | [] => -1
  | x :: rcs => if x <? c then Z.of_nat (length rcs) else prev_pos rcs c
  end.

Fixpoint prev_loop (fuel : nat) (M : heap) (r : rax) (it : raxIterator) (noup : bool) (orig : raxIterator) : option raxIterator :=
  match fuel with
  | O => None
  | S fuel =>
      if negb noup && (it_node it =? rhead r) then Some (at_end it orig) else
      prevchild ← get (key_buf it) (key_len it - 1);
      it ← (if noup then Some it else raxStackPop it);
      n ← M !! it_node it;
      let it := raxIteratorDelChars it (if iscompr n then rsize n else 1) in
      it ← (if negb (iscompr n) && (rsize n >? (if noup then 0 else 1)) then
              cs ← node_read n 4 (rsize n);
              let i := prev_pos (reverse cs) prevchild in
              if negb (i =? -1) then
                it ← enter it n (4 + i) (raxNodeLastChildPtr n - 8 * (rsize n - 1 - i)) 1;
                raxSeekGreatest M it
              else Some it
            else Some it);
      n ← M !! it_node it;
      if iskey n then d ← raxGetData n; Some (set_it_data it d)
      else prev_loop fuel M r it false orig
  end.

Definition raxIteratorPrevStep (M : heap) (r : rax) (it : raxIterator) (noup : bool) : option raxIterator :=
  if it_eof it then Some it
  else if just_seeked it then Some (set_flags it false (it_eof it))
  else prev_loop (S (S (size M))) M r it noup it.

(** ** Seeking *)

(** The node reached does not match, or the operator excludes it: go on in the direction of the operator. *)
Definition seek_mismatch (M : heap) (r : rax) (it : raxIterator) (ele : list Z) (i splitpos : Z) (lt gt : bool) : option raxIterator :=
  s ← slice ele 0 (i - splitpos);
  it ← raxIteratorAddChars it s;
  n ← M !! it_node it;
  let it := set_flags it false (it_eof it) in
  it ← (if negb (i =? Z.of_nat (length ele)) && negb (iscompr n) then
          c ← slice ele i 1;
          it ← raxIteratorAddChars it c;
          it ← (if lt then raxIteratorPrevStep M r it true else Some it);
          if gt then raxIteratorNextStep M r it true else Some it
        else if negb (i =? Z.of_nat (length ele)) && iscompr n then
          nodechar ← get (data n) splitpos;
          keychar ← get ele i;
          chars ← node_read n 4 (rsize n);
          it ← (if gt then
                  if nodechar >? keychar then raxIteratorNextStep M r it false
                  else it ← raxIteratorAddChars it chars; raxIteratorNextStep M r it true
                else Some it);
          if lt then
            if nodechar <? keychar then
              it ← raxSeekGreatest M it;
              n ← M !! it_node it;
              d ← raxGetData n; Some (set_it_data it d)
            else it ← raxIteratorAddChars it chars; raxIteratorPrevStep M r it true
          else Some it
        else if iscompr n && iskey n && negb (splitpos =? 0) && lt then
          d ← raxGetData n; Some (set_it_data it d)
        else
          it ← (if gt then raxIteratorNextStep M r it false else Some it);
          if lt then raxIteratorPrevStep M r it false else Some it);
  Some (set_flags it true (it_eof it)).

(** A lookup, which leaves the parents on the stack of the iterator, and where to go from there. *)
Definition seek_walk (M : heap) (r : rax) (it : raxIterator) (ele : list Z) (eq lt gt : bool) : option raxIterator :=
  w ← raxLowWalk M r ele;
  let ts := w_stack w in
  let it := set_it_node (set_stack it (reverse ts ++ drop (length ts) (it_stack it)) (length ts)) (w_stop w) in
  n ← M !! it_node it;
  if eq && (w_i w =? Z.of_nat (length ele)) && (negb (iscompr n) || (w_j w =? 0)) && iskey n then
    it ← raxIteratorAddChars it ele;
    d ← raxGetData n; Some (set_it_data it d)
  else if lt || gt then seek_mismatch M r it ele (w_i w) (w_j w) lt gt
  else Some (set_flags it (just_seeked it) true).

(** The operator is a C string; [None] beyond its end reads its NUL. *)
Fixpoint seek (fuel : nat) (M : heap) (r : rax) (it : raxIterator) (op ele : list Z) : option (raxIterator * Z) :=
  match fuel with
  | O => None
  | S fuel =>
      let it := set_it_node (set_key_len (set_flags (set_stack it (it_stack it) 0) true false) 0) 0 in
      let op0 := default 0 (op !! 0%nat) in
      let op1 := default 0 (op !! 1%nat) in
      let gt := op0 =? 62 in
      let lt := op0 =? 60 in
      let eq := (op0 =? 61) || ((gt || lt) && (op1 =? 61)) in
      let first := op0 =? 94 in
      let last := op0 =? 36 in
      if negb (gt || lt || eq || first || last) then Some (it, 0) else
      if numele r =? 0 then Some (set_flags it true true, 1) else
      if first then seek fuel M r it [62; 61] [] else
      if last then
        it ← raxSeekGreatest M (set_it_node it (rhead r));
        n ← M !! it_node it;
        if iskey n then d ← raxGetData n; Some (set_it_data it d, 1) else None
      else it ← seek_walk M r it ele eq lt gt; Some (it, 1)
  end.

Definition raxSeek (M : heap) (r : rax) (it : raxIterator) (op ele : list Z) : option (raxIterator * Z) := seek 2 M r it op ele.

Definition raxNext (M : heap) (r : rax) (it : raxIterator) : option (raxIterator * Z) :=
  it ← raxIteratorNextStep M r it false; Some (it, if it_eof it then 0 else 1).

Definition raxPrev (M : heap) (r : rax) (it : raxIterator) : option (raxIterator * Z) :=
  it ← raxIteratorPrevStep M r it false; Some (it, if it_eof it then 0 else 1).
(** ** Comparison *)

Definition raxCompare (it : raxIterator) (op key : list Z) : option Z :=
  let op0 := default 0 (op !! 0%nat) in
  let op1 := default 0 (op !! 1%nat) in
  let eq := (op0 =? 61) || (op1 =? 61) in
  let gt := op0 =? 62 in
  let lt := op0 =? 60 in
  if negb (gt || lt) && negb (op1 =? 61) then Some 0 else
  let klen := Z.of_nat (length key) in
  let minlen := if klen <? key_len it then klen else key_len it in
  k ← slice (key_buf it) 0 minlen;
  let cmp := memcmp (Z.to_nat minlen) k key in
  Some (b2z (if negb lt && negb gt then (cmp =? 0) && (klen =? key_len it)
             else if cmp =? 0 then
               if eq && (klen =? key_len it) then true
               else if lt then key_len it <? klen
               else key_len it >? klen
             else if cmp >? 0 then gt else lt)).
End RaxIter.
