(* ===== verification/RaxIterProof.v ===== *)
(** * Iteration over the radix tree: positions and steps

    A position is a context and the subtree in its hole.  The keys before it and
    after it are read off the context; a step forward goes to the first key
    after the position, a step backward to the last before it. *)

From Stdlib Require Import ZArith Lia ZifyBool Sorted.
From stdpp Require Import base gmap numbers option list sets.
From S2P Require Import Prelude RaxNode RaxNodeProof Rax RaxTree RaxHeap RaxInsert RaxSpec RaxRemove RaxFree RaxIter.

Local Open Scope Z_scope.

(** ** The keys around a position *)

Definition own (key : option Z) : list (list Z * Z) := match key with Some v => [([], v)] | None => [] end.

Definition kids (t : rtree) : list (list Z * Z) :=
  let '(RT _ compr cs ts) := t in if compr then match ts with u :: _ => below cs <$> titems u | [] => [] end else edge_items cs ts.

Lemma titems_kids t : titems t = own (tkey t) ++ kids t.
Proof. destruct t as [key [] cs ts]; [done|]. apply titems_node. Qed.

Definition before_f (f : frame) : list (list Z * Z) :=
  match f with FC key _ => own key | FN key cl _ _ tl _ => own key ++ edge_items cl tl end.
Definition after_f (f : frame) : list (list Z * Z) := match f with FC _ _ => [] | FN _ _ _ cr _ tr => edge_items cr tr end.

Fixpoint before (fs : list frame) : list (list Z * Z) := match fs with [] => [] | f :: fs => before fs ++ (below (path fs) <$> before_f f) end.
Fixpoint after (fs : list frame) : list (list Z * Z) := match fs with [] => [] | f :: fs => (below (path fs) <$> after_f f) ++ after fs end.

Lemma below_nil p v : below p ([], v) = (p, v).
Proof. unfold below. cbn. by rewrite app_nil_r. Qed.

Lemma below_below p q (l : list (list Z * Z)) : below p <$> (below q <$> l) = below (p ++ q) <$> l.
Proof. rewrite <- list_fmap_compose. apply list_fmap_ext. intros i [s v] _. unfold below. cbn. by rewrite app_assoc. Qed.

Lemma edge_items_app cl tl cr tr : length tl = length cl -> edge_items (cl ++ cr) (tl ++ tr) = edge_items cl tl ++ edge_items cr tr.
Proof.
  revert tl. induction cl as [|c cl IH]; intros [|u tl] Hl; try (simpl in Hl; lia); [done|]. cbn [edge_items app]. rewrite IH by (simpl in Hl; lia). by rewrite app_assoc.
Qed.

Lemma fill_items f t : wf_frame f -> titems (fill f t) = before_f f ++ (below (fpath f) <$> titems t) ++ after_f f.
Proof.
  destruct f as [key cs|key cl c cr tl tr]; cbn [fill before_f after_f fpath wf_frame].
  - intros _. by rewrite titems_compr, app_nil_r.
  - intros (_ & Hl & _). rewrite titems_node, edge_items_app by done. cbn [edge_items]. unfold own. by rewrite <- !app_assoc.
Qed.

(** The keys of the whole tree: before the position, at or below it, after it. *)
Lemma plug_items fs : forall t, Forall wf_frame fs -> titems (plug fs t) = before fs ++ (below (path fs) <$> titems t) ++ after fs.
Proof.
  induction fs as [|f fs IH]; intros t Hf.
  - cbn. rewrite app_nil_r. symmetry. rewrite <- (list_fmap_id (titems t)) at 2. apply list_fmap_ext. by intros i [s v] _.
  - apply Forall_cons in Hf as [Hf Hfs]. cbn [plug before after path]. rewrite IH, fill_items by done. rewrite !fmap_app, below_below, <- !app_assoc. done.
Qed.

Definition future (fs : list frame) (t : rtree) : list (list Z * Z) := (below (path fs) <$> kids t) ++ after fs.

Lemma plug_split fs t : Forall wf_frame fs -> titems (plug fs t) = before fs ++ (below (path fs) <$> own (tkey t)) ++ future fs t.
Proof. intros Hf. rewrite plug_items by done. by rewrite (titems_kids t), fmap_app, <- !app_assoc. Qed.

(** ** The iterator's arrays *)

Definition key_is (it : raxIterator) (k : list Z) : Prop := key_len it = Z.of_nat (length k) /\ exists rest, key_buf it = k ++ rest.
Definition stack_is (it : raxIterator) (stk : list Z) : Prop := it_items it = length stk /\ exists rest, it_stack it = reverse stk ++ rest.

Lemma push_spec it stk a : stack_is it stk -> stack_is (raxStackPush it a) (a :: stk).
Proof.
  intros [Hi (rest & Hs)]. split; [by cbn; rewrite Hi|]. exists (drop 1 rest). cbn [raxStackPush set_stack it_stack it_items]. rewrite Hi, Hs, <- (length_reverse stk), take_app_length, reverse_cons, <- app_assoc.
  f_equal. cbn. f_equal. rewrite drop_app_ge by lia. f_equal. lia.
Qed.

Lemma pop_spec it stk a : stack_is it (a :: stk) -> raxStackPop it = Some (set_it_node (set_stack it (it_stack it) (length stk)) a) /\ stack_is (set_it_node (set_stack it (it_stack it) (length stk)) a) stk.
Proof.
  intros [Hi (rest & Hs)]. rewrite reverse_cons, <- app_assoc in Hs. assert (it_stack it !! length stk = Some a) as E.
  { rewrite Hs, lookup_app_r by (rewrite length_reverse; lia). by rewrite length_reverse, Nat.sub_diag. }
  unfold raxStackPop. rewrite Hi. cbn [length]. rewrite E. split; [done|]. split; [done|]. by exists ([a] ++ rest).
Qed.

Section Key.
Context `{alloc : RaxAlloc}.

Lemma add_chars_spec it k s : key_is it k ->
  exists h buf, raxIteratorAddChars it s = Some (set_key_len (set_buf it h buf) (Z.of_nat (length (k ++ s)))) /\ exists rest, buf = (k ++ s) ++ rest.
Proof.
  intros [Hl (rest & Hb)]. unfold raxIteratorAddChars. destruct (Z.eqb_spec (Z.of_nat (length s)) 0) as [Hz|Hz].
  { destruct s; [|simpl in Hz; lia]. rewrite app_nil_r. exists (key_heap it), (key_buf it). split; [|eauto]. rewrite <- Hl. by destruct it. }
  rewrite Hl, Hb. assert (exists h buf rest', (if Z.of_nat (length (k ++ rest)) <? Z.of_nat (length k) + Z.of_nat (length s) then
      if key_heap it then Some (set_buf it true (realloc rax_undef (k ++ rest) ((Z.of_nat (length k) + Z.of_nat (length s)) * 2)))
      else old ← slice (k ++ rest) 0 (Z.of_nat (length k)); buf ← blit (realloc rax_undef [] ((Z.of_nat (length k) + Z.of_nat (length s)) * 2)) 0 old; Some (set_buf it true buf)
      else Some it) = Some (set_buf it h buf) /\ buf = k ++ rest' /\ (length s <= length rest')%nat) as (h & buf & rest' & -> & -> & Hr).
  { destruct (Z.ltb_spec (Z.of_nat (length (k ++ rest))) (Z.of_nat (length k) + Z.of_nat (length s))) as [Hlt|Hge]; rewrite length_app in *.
    - destruct (key_heap it).
      + destruct (realloc_grow rax_undef (k ++ rest) ((Z.of_nat (length k) + Z.of_nat (length s)) * 2)) as (junk & -> & Hj); [rewrite length_app; lia|]. rewrite length_app in Hj.
        eexists true, _, (rest ++ junk). split; [done|]. rewrite length_app, app_assoc. split; [done|lia].
      + rewrite (slice_app [] k rest) by (simpl; lia). cbn [mbind option_bind]. set (R := realloc _ _ _).
        assert (Z.of_nat (length R) = (Z.of_nat (length k) + Z.of_nat (length s)) * 2) as HR by (unfold R; destruct (realloc_grow rax_undef [] ((Z.of_nat (length k) + Z.of_nat (length s)) * 2)) as (junk & -> & Hj); simpl in *; lia).
        rewrite <- (take_drop (length k) R). rewrite (blit_app [] (take (length k) R) k (drop (length k) R)) by (simpl; rewrite ?length_take; lia). cbn [mbind option_bind app].
        eexists true, _, (drop (length k) R). split; [done|]. split; [done|]. rewrite length_drop. lia.
    - exists (key_heap it), (key_buf it), rest. split; [by destruct it|]. split; [done|lia]. }
  cbn [mbind option_bind key_buf key_len key_heap set_buf]. rewrite Hl. rewrite <- (take_drop (length s) rest').
  rewrite (blit_app k (take (length s) rest') s) by (rewrite ?length_take; lia). cbn [mbind option_bind].
  exists h, (k ++ s ++ drop (length s) rest'). split; [|exists (drop (length s) rest'); by rewrite app_assoc]. rewrite length_app, Nat2Z.inj_add. done.
Qed.

(** A child is entered. *)
Lemma enter_spec it n chars cp len k stk s p : key_is it k -> stack_is it stk -> node_read n chars len = Some s -> read_ptr n cp = Some p ->
  exists it', enter it n chars cp len = Some it' /\ key_is it' (k ++ s) /\ stack_is it' (it_node it :: stk) /\ it_node it' = p /\
    just_seeked it' = just_seeked it /\ it_eof it' = it_eof it.
Proof.
  intros Hk Hs Hr Hp. unfold enter. rewrite Hr. cbn [mbind option_bind].
  destruct (add_chars_spec (raxStackPush it (it_node it)) k s Hk) as (h & buf & -> & rest & ->). cbn [mbind option_bind]. rewrite Hp. cbn [mbind option_bind].
  eexists. split; [done|]. cbn. split_and!; try done; [split; [done|by exists rest]|]. apply (push_spec _ _ (it_node it)) in Hs. exact Hs.
Qed.
End Key.

Lemma del_chars_spec it k s : key_is it (k ++ s) -> Z.of_nat (length (k ++ s)) < 2 ^ 64 -> raxIteratorDelChars it (Z.of_nat (length s)) = set_key_len it (Z.of_nat (length k)) /\
  key_is (set_key_len it (Z.of_nat (length k))) k.
Proof.
  intros [Hl (rest & Hb)] Hm. unfold raxIteratorDelChars. rewrite Hl, length_app. rewrite length_app in Hm.
  assert (u64 (Z.of_nat (length k + length s) - Z.of_nat (length s)) = Z.of_nat (length k)) as -> by (unfold u64; rewrite Z.mod_small; lia).
  split; [done|]. split; [done|]. exists (s ++ rest). by rewrite app_assoc.
Qed.

(** ** Down the tree *)

Lemma hole_down_compr H r fs a stk key cs u : hole H r fs a stk (RT key true cs [u]) ->
  exists n x, H !! a = Some n /\ node_rep n key true cs [x] /\ hole H r (FC key cs :: fs) x (a :: stk) u.
Proof.
  intros [(fpt & fpc & Hc & Ht & Hd & Hdom) Hn]. destruct (tree_at_inv _ _ _ _ _ _ _ Ht) as (n & kids & fps & E & Hrep & Ha & Hts & Hxf & ->).
  destruct (trees_at_cons_inv _ _ _ _ _ Hts) as (x & k' & fu & f' & -> & Htu & Hnil & _ & ->). inversion Hnil; subst. rewrite (right_id_L ∅ (∪)) in *.
  exists n, x. split; [done|]. split; [done|]. split; [|done]. exists fu, ({[a]} ∪ fpc). split_and!; [|done|clear -Hd Hxf; set_solver|rewrite Hdom; clear; set_solver].
  eapply ctx_at_compr; try done. clear -Hd. set_solver.
Qed.

Lemma hole_down_node H r fs a stk key cl c cr tl u tr : hole H r fs a stk (RT key false (cl ++ c :: cr) (tl ++ u :: tr)) -> length tl = length cl -> length tr = length cr ->
  exists n kl x kr, H !! a = Some n /\ node_rep n key false (cl ++ c :: cr) (kl ++ x :: kr) /\ length kl = length cl /\ hole H r (FN key cl c cr tl tr :: fs) x (a :: stk) u.
Proof.
  intros [(fpt & fpc & Hc & Ht & Hd & Hdom) Hn] Hll Hlr. destruct (tree_at_inv _ _ _ _ _ _ _ Ht) as (n & kids & fps & E & Hrep & Ha & Hts & Hxf & ->).
  destruct (trees_at_app_inv _ _ _ _ _ Hts) as (kl & k2 & fl & f2 & -> & Hl & H2 & Hd2 & ->).
  destruct (trees_at_cons_inv _ _ _ _ _ H2) as (x & kr & fu & fr & -> & Htu & Hr & Hd3 & ->). destruct (tree_at_root _ _ _ _ Htu) as [Hxu _].
  exists n, kl, x, kr. split; [done|]. split; [done|]. split; [by rewrite (trees_at_length _ _ _ _ Hl)|]. split; [|done].
  exists fu, ({[a]} ∪ (fl ∪ fr) ∪ fpc). split_and!; [|done|clear -Hd Hd2 Hd3 Hxf; set_solver|rewrite Hdom; clear; set_solver].
  eapply ctx_at_node; try done; [clear -Hd; set_solver| |clear -Hd2; set_solver|clear -Hxf; set_solver|clear -Hd; set_solver].
  intros Hin. destruct (trees_at_in _ _ _ _ _ Hl Hin) as [Hin' _]. clear -Hin' Hxu Hd2. set_solver.
Qed.

Fixpoint height (t : rtree) : nat := let '(RT _ _ _ ts) := t in S (foldr (fun u m => Nat.max (height u) m) 0%nat ts).

Lemma height_size H a t fp : tree_at H a t fp -> (height t <= size fp)%nat.
Proof.
  intros Ht. revert Ht. apply (tree_at_mut H (fun _ t fp => (height t <= size fp)%nat)
    (fun _ ts fp => (foldr (fun u m => Nat.max (height u) m) 0%nat ts <= size fp)%nat)).
  - intros ???????? _ _ _ _ IH Hn. cbn [height]. rewrite size_union by set_solver. rewrite size_singleton. lia.
  - simpl. lia.
  - intros ?????? _ IH _ IHs Hd. cbn [foldr]. rewrite size_union by done. lia.
Qed.

Lemma ctx_height H root fs x stk fp : ctx_at H root fs x stk fp -> (length fs <= size fp)%nat /\ length stk = length fs.
Proof.
  induction 1 as [|fs a stk fp n key cs x Hc IH E Hrep Ha Hn|fs a stk fp n key cl c cr kl x kr tl tr fl fr Hc IH E Hrep Ha Hn Hl Hr Hll Hlr Hx Hd Han Hdd]; simpl; [lia| |].
  - rewrite size_union by set_solver. rewrite size_singleton. lia.
  - rewrite size_union by set_solver. rewrite size_union by set_solver. rewrite size_singleton. lia.
Qed.

Lemma hole_bound H r fs x stk t : hole H r fs x stk t -> (length fs + height t <= size H)%nat.
Proof.
  intros [(fpt & fpc & Hc & Ht & Hd & Hdom) Hn]. apply height_size in Ht. apply ctx_height in Hc as [Hc _]. rewrite <- size_dom, Hdom, size_union by done. lia.
Qed.

(** ** Positions *)

Definition base (it it0 : raxIterator) : Prop := it = set_it_node (set_key_len (set_stack it0 (it_stack it0) (it_items it)) (key_len it)) (it_node it).

Lemma base_end it it0 : base it it0 -> at_end it it0 = set_flags it0 (just_seeked it0) true.
Proof. intros ->. by destruct it0. Qed.

Lemma base_refl it : base it it.
Proof. by destruct it. Qed.

Lemma base_trans a b c : base a b -> base b c -> base a c.
Proof. unfold base. intros -> ->. done. Qed.

Lemma base_flags it it0 : base it it0 -> just_seeked it = just_seeked it0 /\ it_eof it = it_eof it0.
Proof. by intros ->. Qed.

Record pos (H : heap) (r : rax) (T : rtree) (it : raxIterator) (fs : list frame) (t : rtree) : Prop := {
  pos_hole : exists stk, hole H r fs (it_node it) stk t /\ stack_is it stk;
  pos_key : key_is it (path fs);
  pos_frames : Forall wf_frame fs;
  pos_wf : wf t;
  pos_live : fs = [] \/ live t;
  pos_tree : plug fs t = T
}.

Definition short_tree (T : rtree) : Prop := forall s, is_Some (tfind T s) -> Z.of_nat (length s) < 2 ^ 29.

Lemma pos_short H r T it fs t : pos H r T it fs t -> short_tree T -> Z.of_nat (length (path fs)) < 2 ^ 29.
Proof.
  intros [_ _ Hf Hw Hl <-] HT. destruct Hl as [->|Hl]; [simpl; lia|]. destruct (live_key t Hw Hl) as (s & v & E).
  specialize (HT (path fs ++ s)). rewrite plug_inside, E, length_app in HT by (by apply wf_frames_ok). specialize (HT ltac:(eauto)). lia.
Qed.

Lemma pos_root H r T it fs t : pos H r T it fs t -> (it_node it =? rhead r) = bool_decide (fs = []).
Proof.
  intros [(stk & [(fpt & fpc & Hc & Ht & Hd & _) _] & _) _ _ _ _ _]. destruct fs as [|f fs]; [inversion Hc; subst; rewrite bool_decide_true by done; lia|].
  rewrite bool_decide_false by done. apply ctx_root in Hc. apply tree_at_root in Ht as [Ht _]. apply Z.eqb_neq. intros E. rewrite E in Ht. set_solver.
Qed.

Lemma pos_node H r T it fs key compr cs ts : pos H r T it fs (RT key compr cs ts) -> exists n kids, H !! it_node it = Some n /\ node_rep n key compr cs kids.
Proof.
  intros [(stk & [(fpt & fpc & Hc & Ht & Hd & _) _] & _) _ _ _ _ _]. destruct (tree_at_inv _ _ _ _ _ _ _ Ht) as (n & kids & fps & E & Hrep & _). eauto.
Qed.

(** Up to the parent, with the last character of the path. *)
Lemma climb H r T it f fs t : pos H r T it (f :: fs) t -> short_tree T -> exists p it1 n it2, last (fpath f) = Some p /\
  get (key_buf it) (key_len it - 1) = Some p /\ raxStackPop it = Some it1 /\ H !! it_node it1 = Some n /\
  raxIteratorDelChars it1 (if iscompr n then rsize n else 1) = it2 /\ pos H r T it2 fs (fill f t) /\ base it2 it /\ it_node it2 = it_node it1.
Proof.
  intros Hp HT. pose proof (pos_short _ _ _ _ _ _ Hp HT) as Hsh. destruct Hp as [(stk & Hh & Hs) Hk Hf Hw Hl Hpl]. apply Forall_cons in Hf as [Hff Hf]. destruct Hl as [|Hl]; [done|].
  pose proof Hh as [(fpt & fpc & Hc & _) _]. destruct (ctx_parent _ _ _ _ _ _ _ Hc) as (a & stk' & fp' & fps & -> & _ & _). apply hole_up in Hh.
  destruct (pop_spec _ _ _ Hs) as [Hpop Hs1]. set (it1 := set_it_node _ a) in *. cbn [path] in Hk, Hsh.
  destruct (last (fpath f)) as [p|] eqn:Ep; [|apply last_None in Ep; destruct f; [|done]; simpl in Ep, Hff; subst; simpl in Hff; lia].
  apply last_Some in Ep as (l' & Ep). assert (exists n, H !! a = Some n /\ (if iscompr n then rsize n else 1) = Z.of_nat (length (fpath f))) as (n & E & Hlen).
  { destruct f as [key cs|key cl c cr tl tr]; cbn [fill fpath] in *; destruct Hh as [(fpt' & fpc' & Hc' & Ht' & _) _]; destruct (tree_at_inv _ _ _ _ _ _ _ Ht') as (n & kids & fps' & E & Hrep & _);
      exists n; rewrite (nr_compr _ _ _ _ _ Hrep); [by rewrite (nr_size _ _ _ _ _ Hrep)|done]. }
  assert (key_is it1 (path fs ++ fpath f)) as Hk1 by exact Hk. destruct (del_chars_spec it1 (path fs) (fpath f) Hk1 ltac:(lia)) as [Hdel Hk2].
  exists p, it1, n, (set_key_len it1 (Z.of_nat (length (path fs)))). rewrite Hlen. split_and!; try done.
  - destruct Hk as [Hkl (rest & Hkb)]. rewrite Hkb, Hkl, Ep, app_assoc, <- !app_assoc. rewrite (app_assoc (path fs)). apply get_app. rewrite !length_app. simpl. lia.
  - destruct (fill_wf f t Hff Hw Hl). split; try done; [by exists stk'|by right].
Qed.

(** ** Into a child *)

Lemma last_first n key compr cs kids : node_rep n key compr cs kids -> raxNodeLastChildPtr n = raxNodeFirstChildPtr n + 8 * (Z.of_nat (length kids) - 1).
Proof.
  intros Hrep. unfold raxNodeLastChildPtr, raxNodeCurrentLength, raxNodeFirstChildPtr. rewrite (nr_compr _ _ _ _ _ Hrep), (nr_size _ _ _ _ _ Hrep), (nr_length _ _ _ _ _ Hrep).
  destruct compr; lia.
Qed.

Lemma read_char n key compr cl c cr kids : node_rep n key compr (cl ++ c :: cr) kids -> node_read n (4 + Z.of_nat (length cl)) 1 = Some [c].
Proof.
  intros [_ (slack & L) _ _]. destruct L as [_ _ _ _ (pad & E & _)]. unfold node_read. rewrite E. rewrite <- app_assoc. cbn [app].
  change (c :: cr ++ pad ++ ptrs kids ++ val_bytes key ++ slack) with ([c] ++ cr ++ pad ++ ptrs kids ++ val_bytes key ++ slack). apply slice_app; simpl; lia.
Qed.

Lemma read_kid n key compr cs kl x kr : node_rep n key compr cs (kl ++ x :: kr) -> read_ptr n (raxNodeFirstChildPtr n + 8 * Z.of_nat (length kl)) = Some x.
Proof. intros [_ (slack & L) _ Hk]. apply (read_nth _ _ _ _ _ kr _ L). rewrite Forall_app, Forall_cons in Hk. tauto. Qed.

Section Enter.
Context `{alloc : RaxAlloc} (H : heap) (r : rax) (T : rtree).

Lemma enter_child it fs key cl c cr tl u tr n : pos H r T it fs (RT key false (cl ++ c :: cr) (tl ++ u :: tr)) -> length tl = length cl ->
  H !! it_node it = Some n -> exists it', enter it n (4 + Z.of_nat (length cl)) (raxNodeFirstChildPtr n + 8 * Z.of_nat (length cl)) 1 = Some it' /\
    pos H r T it' (FN key cl c cr tl tr :: fs) u /\ just_seeked it' = just_seeked it /\ it_eof it' = it_eof it.
Proof.
  intros [(stk & Hh & Hs) Hk Hf Hw Hl Hpl] Hlen E. assert (StronglySorted Z.lt (cl ++ c :: cr) /\ length (tl ++ u :: tr) = length (cl ++ c :: cr) /\ Forall (fun u => wf u /\ live u) (tl ++ u :: tr))
    as (Hso & Hln & Hts) by (by inversion Hw). rewrite !length_app in Hln. simpl in Hln. rewrite Forall_app, Forall_cons in Hts. destruct Hts as (Htl & [Hwu Hlu] & Htr).
  destruct (hole_down_node _ _ _ _ _ _ _ _ _ _ _ _ Hh Hlen ltac:(lia)) as (n' & kl & x & kr & E' & Hrep & Hkl & Hh'). rewrite E in E'. injection E' as <-.
  destruct (enter_spec it n (4 + Z.of_nat (length cl)) (raxNodeFirstChildPtr n + 8 * Z.of_nat (length cl)) 1 (path fs) stk [c] x Hk Hs) as (it' & -> & Hk' & Hs' & Hn' & Hj & He).
  - by apply (read_char _ _ _ _ _ _ _ Hrep).
  - rewrite <- Hkl. by apply (read_kid _ _ _ _ _ _ _ Hrep).
  - exists it'. split; [done|]. split; [|done]. split; [exists (it_node it :: stk); rewrite Hn'; done|done| |done|by right|done].
    constructor; [|done]. split_and!; try done. lia.
Qed.

Lemma enter_only it fs key cs u n : pos H r T it fs (RT key true cs [u]) -> H !! it_node it = Some n ->
  exists it', enter it n 4 (raxNodeFirstChildPtr n) (rsize n) = Some it' /\
    pos H r T it' (FC key cs :: fs) u /\ just_seeked it' = just_seeked it /\ it_eof it' = it_eof it.
Proof.
  intros [(stk & Hh & Hs) Hk Hf Hw Hl Hpl] E. inversion Hw as [k cs' u' Hlen Hwu Hlu|]; subst.
  destruct (hole_down_compr _ _ _ _ _ _ _ _ Hh) as (n' & x & E' & Hrep & Hh'). rewrite E in E'. injection E' as <-.
  destruct (enter_spec it n 4 (raxNodeFirstChildPtr n) (rsize n) (path fs) stk cs x Hk Hs) as (it' & -> & Hk' & Hs' & Hn' & Hj & He).
  - destruct Hrep as [_ (slack & L) _ _]. by apply (read_chars _ _ _ _ _ L).
  - pose proof (read_kid _ _ _ _ [] x [] Hrep) as Hrk. simpl in Hrk. by rewrite Z.add_0_r in Hrk.
  - exists it'. split; [done|]. split; [|done]. split; [exists (it_node it :: stk); rewrite Hn'; done|done|by constructor|done|by right|done].
Qed.

End Enter.

(** ** Forward *)

Lemma child_pos_after cl c cr : StronglySorted Z.lt (cl ++ cr) -> Forall (fun x => x <= c) cl -> Forall (fun x => c < x) cr -> child_pos (cl ++ cr) c = Z.of_nat (length cl).
Proof.
  intros Hs Hl Hr. induction Hl as [|x cl Hx Hl IH]; cbn [app child_pos].
  - destruct Hr as [|y cr Hy]; [done|]. cbn [child_pos]. destruct (y >? c) eqn:E; simpl; lia.
  - destruct (x >? c) eqn:E; [lia|]. apply StronglySorted_inv in Hs as [Hs _]. rewrite IH by done. simpl length. lia.
Qed.

Lemma sorted_sides cl c cr : StronglySorted Z.lt (cl ++ c :: cr) -> Forall (fun x => x < c) cl /\ Forall (fun x => c < x) cr.
Proof.
  induction cl as [|x cl IH]; cbn [app]; intros [Hs Hx]%StronglySorted_inv; [by split|]. destruct (IH Hs). split; [|done]. constructor; [|done].
  rewrite Forall_app, Forall_cons in Hx. tauto.
Qed.

Section Next.
Context `{alloc : RaxAlloc} (H : heap) (r : rax) (T : rtree) (HT : short_tree T).

(** What the inner loop reaches: the end, or a subtree that starts with the keys [l]. *)
Definition up_result (it : raxIterator) (l : list (list Z * Z)) (res : option (raxIterator * bool)) : Prop :=
  (exists it', res = Some (it', false) /\ l = [] /\ base it' it) \/
  (exists it' fs t, res = Some (it', true) /\ pos H r T it' fs t /\ live t /\ l = (below (path fs) <$> titems t) ++ after fs /\
     just_seeked it' = just_seeked it /\ it_eof it' = it_eof it).

(** The scan of a node: the children whose characters are greater than [c]. *)
Lemma next_scan fuel it it0 fs key cl cr tl tr c n : pos H r T it fs (RT key false (cl ++ cr) (tl ++ tr)) -> H !! it_node it = Some n -> base it it0 ->
  length tl = length cl -> Forall (fun x => x <= c) cl -> Forall (fun x => c < x) cr ->
  up_result it0 (after fs) (next_up fuel H r it false) ->
  up_result it0 ((below (path fs) <$> edge_items cr tr) ++ after fs)
    (cs ← node_read n 4 (rsize n); if negb (child_pos cs c =? rsize n) then it ← enter it n (4 + child_pos cs c) (raxNodeFirstChildPtr n + 8 * child_pos cs c) 1; Some (it, true) else next_up fuel H r it false).
Proof.
  intros Hp E Hb Hl Hcl Hcr Hup. destruct (pos_node _ _ _ _ _ _ _ _ _ Hp) as (n' & kids & E' & Hrep). rewrite E in E'. injection E' as <-.
  assert (StronglySorted Z.lt (cl ++ cr) /\ length (tl ++ tr) = length (cl ++ cr)) as [Hs Hln] by (pose proof (pos_wf _ _ _ _ _ _ Hp) as Hw; by inversion Hw).
  pose proof Hrep as [_ (slack & L) _ _]. rewrite (read_chars _ _ _ _ _ L). cbn [mbind option_bind]. rewrite (nr_size _ _ _ _ _ Hrep), (child_pos_after cl c cr Hs Hcl Hcr).
  rewrite !length_app in *. destruct cr as [|d cr], tr as [|u tr]; try (simpl in Hln; lia).
  - simpl length. replace (_ =? _) with true by lia. cbn [negb]. simpl. done.
  - simpl length. replace (_ =? _) with false by lia. cbn [negb].
    destruct (enter_child H r T it fs key cl d cr tl u tr n Hp Hl E) as (it' & -> & Hp' & Hj & He). cbn [mbind option_bind]. right. eexists it', _, _. split; [done|]. split; [done|].
    rewrite Hb in Hj, He. split; [by destruct (pos_live _ _ _ _ _ _ Hp')|]. split; [|done]. cbn [after path after_f fpath edge_items]. rewrite fmap_app, below_below, <- app_assoc. done.
Qed.

Lemma next_up_spec fs : forall it it0 t fuel, pos H r T it fs t -> base it it0 -> (length fs < fuel)%nat -> up_result it0 (after fs) (next_up fuel H r it false).
Proof.
  induction fs as [|f fs IH]; intros it it0 t [|fuel] Hp Hb Hfu; try (simpl in Hfu; lia); cbn [next_up negb andb]; rewrite (pos_root _ _ _ _ _ _ Hp).
  - rewrite bool_decide_true by done. left. by exists it.
  - rewrite bool_decide_false by done. destruct (climb _ _ _ _ _ _ _ Hp HT) as (p & it1 & n & it2 & Ep & -> & -> & E & Ed & Hp2 & Hb2 & En). cbn [mbind option_bind]. rewrite E. cbn [mbind option_bind].
    rewrite Ed. rewrite <- En in E. assert (base it2 it0) as Hb0 by (by eapply base_trans).
    assert (up_result it0 (after fs) (next_up fuel H r it2 false)) as Hup by (apply (IH it2 it0 (fill f t)); [done|done|simpl in Hfu; lia]).
    destruct f as [key cs|key cl c cr tl tr]; cbn [fill] in Hp2; destruct (pos_node _ _ _ _ _ _ _ _ _ Hp2) as (n' & kids & E' & Hrep); rewrite E in E'; injection E' as <-.
    all: rewrite (nr_compr _ _ _ _ _ Hrep); cbn [negb andb after after_f].
    + done.
    + cbn [fpath] in Ep. injection Ep as <-. assert (StronglySorted Z.lt (cl ++ c :: cr) /\ length tl = length cl /\ length tr = length cr) as (Hs & Hl & Hr).
      { destruct Hp as [_ _ Hf _ _ _]. apply Forall_cons in Hf as [(?&?&?&_) _]. done. }
      destruct (sorted_sides _ _ _ Hs) as [Hcl Hcr]. destruct (rsize n >? 1) eqn:Eg.
      * replace (cl ++ c :: cr) with ((cl ++ [c]) ++ cr) in Hp2 by (by rewrite <- app_assoc). replace (tl ++ t :: tr) with ((tl ++ [t]) ++ tr) in Hp2 by (by rewrite <- app_assoc).
        apply (next_scan fuel it2 it0 fs key (cl ++ [c]) cr (tl ++ [t]) tr c n); try done; [rewrite !length_app; simpl; lia|].
        rewrite Forall_app, Forall_singleton. split; [|lia]. eapply Forall_impl; [done|]. simpl. lia.
      * rewrite (nr_size _ _ _ _ _ Hrep), length_app in Eg. simpl in Eg. destruct cr, tr; try (simpl in *; lia). done.
Qed.
(** The result of a step: the end, or the first key of [l] with what follows it. *)
Definition step_result (it : raxIterator) (l : list (list Z * Z)) (res : option raxIterator) : Prop :=
  match l with
  | [] => res = Some (set_flags it (just_seeked it) true)
  | (k, v) :: rest => exists it' fs t, res = Some it' /\ pos H r T it' fs t /\ path fs = k /\ tkey t = Some v /\ future fs t = rest /\ it_data it' = v /\
      just_seeked it' = just_seeked it /\ it_eof it' = it_eof it
  end.

Lemma pos_data it fs t d : pos H r T it fs t -> pos H r T (set_it_data it d) fs t.
Proof. by intros [? ? ? ? ? ?]. Qed.

Lemma first_child_pos it fs key compr cs ts n : pos H r T it fs (RT key compr cs ts) -> ts <> [] -> H !! it_node it = Some n ->
  exists it' f u, enter it n 4 (raxNodeFirstChildPtr n) (if compr then rsize n else 1) = Some it' /\ pos H r T it' (f :: fs) u /\ live u /\ (height u < height (RT key compr cs ts))%nat /\
    future fs (RT key compr cs ts) = (below (path (f :: fs)) <$> titems u) ++ after (f :: fs) /\ just_seeked it' = just_seeked it /\ it_eof it' = it_eof it.
Proof.
  intros Hp Hne E. pose proof (pos_wf _ _ _ _ _ _ Hp) as Hw. inversion Hw as [k cs' u Hlen Hwu Hlu|k cs' ts' Hs Hl Hts]; subst.
  - destruct (enter_only H r T it fs key cs u n Hp E) as (it' & -> & Hp' & Hj & He). exists it', (FC key cs), u. split_and!; try done; [simpl; lia|].
    unfold future. cbn [kids path after after_f fpath]. by rewrite below_below.
  - destruct ts as [|u ts]; [done|]. destruct cs as [|c cs]; [done|]. destruct (enter_child H r T it fs key [] c cs [] u ts n Hp eq_refl E) as (it' & He' & Hp' & Hj & He).
    cbn [length] in He'. change (8 * Z.of_nat 0) with 0 in He'. change (4 + Z.of_nat 0) with 4 in He'. rewrite Z.add_0_r in He'. exists it', (FN key [] c cs [] ts), u. split_and!; try done; [by apply Forall_cons in Hts as [[_ ?] _]|simpl; lia|].
    unfold future. cbn [kids path after after_f fpath edge_items]. by rewrite fmap_app, below_below, <- app_assoc.
Qed.

Lemma next_arrive fuel : forall it it0 fs t, pos H r T it fs t -> live t -> (height t <= S fuel)%nat -> just_seeked it = just_seeked it0 -> it_eof it = it_eof it0 ->
  step_result it0 ((below (path fs) <$> titems t) ++ after fs)
    (n ← H !! it_node it; if iskey n then d ← raxGetData n; Some (set_it_data it d) else next_loop fuel H r it false it0).
Proof.
  induction fuel as [|fuel IH]; intros it it0 fs [key compr cs ts] Hp Hli Hh Hj He; destruct (pos_node _ _ _ _ _ _ _ _ _ Hp) as (n & kids & E & Hrep);
    rewrite E; cbn [mbind option_bind]; rewrite (nr_key _ _ _ _ _ Hrep).
  all: rewrite titems_kids; cbn [tkey]; destruct key as [v|].
  1,3: rewrite bool_decide_true by eauto; rewrite (raxGetData_spec _ _ _ _ _ Hrep); cbn [mbind option_bind own app fmap list_fmap below fst snd step_result];
    eexists _, fs, _; split; [done|]; split; [by apply pos_data|]; rewrite app_nil_r; done.
  all: rewrite bool_decide_false by (by intros [? ?]); destruct Hli as [[? ?]|Hne]; [done|]; cbn [own app].
  - destruct ts; [done|]. simpl in Hh. destruct r0; simpl in Hh; lia.
  - cbn [next_loop]. rewrite E. cbn [mbind option_bind]. pose proof (nr_compr _ _ _ _ _ Hrep) as Hc. pose proof (nr_size _ _ _ _ _ Hrep) as Hsz.
    assert ((if iscompr n then 1 else rsize n) <> 0) as Hch.
    { rewrite Hc, Hsz. destruct compr; [done|]. pose proof (pos_wf _ _ _ _ _ _ Hp) as Hw. inversion Hw; subst. destruct ts, cs; simpl in *; try done; lia. }
    replace (_ =? 0) with false by lia. cbn [negb andb]. rewrite Hc.
    destruct (first_child_pos it fs None compr cs ts n Hp Hne E) as (it' & f & u & -> & Hp' & Hlu & Hhu & Hfu & Hj' & He'). cbn [mbind option_bind].
    change (step_result it0 (future fs (RT None compr cs ts)) (n ← H !! it_node it'; if iskey n then d ← raxGetData n; Some (set_it_data it' d) else next_loop fuel H r it' false it0)).
    rewrite Hfu. apply IH; [done|done|lia|congruence|congruence].
Qed.

(** The step forward goes to the first key after the position. *)
Lemma next_step_spec it fs t : pos H r T it fs t -> it_eof it = false -> just_seeked it = false -> step_result it (future fs t) (raxIteratorNextStep H r it false).
Proof.
  intros Hp He Hj. unfold raxIteratorNextStep. rewrite He, Hj. assert (length fs + height t <= size H)%nat as Hb by (destruct (pos_hole _ _ _ _ _ _ Hp) as (stk & Hh & _); by apply hole_bound in Hh).
  remember (S (size H)) as F eqn:EF. cbn [next_loop]. destruct t as [key compr cs ts]. destruct (pos_node _ _ _ _ _ _ _ _ _ Hp) as (n & kids & E & Hrep). rewrite E. cbn [mbind option_bind].
  pose proof (nr_compr _ _ _ _ _ Hrep) as Hc. pose proof (nr_size _ _ _ _ _ Hrep) as Hsz. pose proof (pos_wf _ _ _ _ _ _ Hp) as Hw.
  assert (negb ((if iscompr n then 1 else rsize n) =? 0) = bool_decide (ts <> [])) as ->.
  { rewrite Hc, Hsz. inversion Hw as [|k cs' ts' Hs Hl Hts]; subst; [done|]. destruct ts, cs; simpl in *; try done; lia. }
  cbn [negb andb]. rewrite Hc. destruct ts as [|u ts].
  - rewrite bool_decide_false by (intros Hn; by apply Hn). assert (future fs (RT key compr cs []) = after fs) as -> by (unfold future; cbn; by destruct compr, cs).
    destruct (next_up_spec fs it it (RT key compr cs []) (S (S (size H))) Hp (base_refl it)) as [(it' & -> & -> & Hb')|(it' & fs' & t' & -> & Hp' & Hl' & -> & Hj' & He')]; [lia| |]; cbn [mbind option_bind].
    + cbn [step_result]. by rewrite (base_end _ _ Hb').
    + apply next_arrive; try done. destruct (pos_hole _ _ _ _ _ _ Hp') as (stk & Hh & _). apply hole_bound in Hh. lia.
  - rewrite bool_decide_true by done. destruct (first_child_pos it fs key compr cs (u :: ts) n Hp ltac:(done) E) as (it' & f & w & -> & Hp' & Hlu & Hhu & -> & Hj' & He'). cbn [mbind option_bind].
    apply next_arrive; try done. lia.
Qed.
(** The iterator is at a node, its key followed by [q]: the step starts with the scan of that node. *)
Record near (it : raxIterator) (fs : list frame) (t : rtree) (q : list Z) : Prop := {
  near_key : key_is it (path fs ++ q);
  near_pos : pos H r T (set_key_len it (Z.of_nat (length (path fs)))) fs t;
  near_len : Z.of_nat (length (path fs ++ q)) < 2 ^ 64
}.

Lemma near_del it fs t q : near it fs t q -> raxIteratorDelChars it (Z.of_nat (length q)) = set_key_len it (Z.of_nat (length (path fs))).
Proof. intros [Hk Hp Hl]. by apply del_chars_spec. Qed.

Lemma near_last it fs t q p : near it fs t q -> last q = Some p -> get (key_buf it) (key_len it - 1) = Some p.
Proof.
  intros [[Hkl (rest & Hkb)] _ _] (q' & ->)%last_Some. rewrite Hkb, Hkl, <- !app_assoc, app_assoc. apply get_app. rewrite !length_app. simpl. lia.
Qed.

Lemma next_noup it l fs t q : near it fs t q -> it_eof it = false -> just_seeked it = false -> up_result it l (next_up (S (S (size H))) H r it true) ->
  step_result it l (raxIteratorNextStep H r it true).
Proof.
  intros [_ Hp _] He Hj Hup. unfold raxIteratorNextStep. rewrite He, Hj. remember (S (size H)) as F eqn:EF in |- * at 1. cbn [next_loop]. destruct t as [key compr cs ts].
  destruct (pos_node _ _ _ _ _ _ _ _ _ Hp) as (n & kids & E & _). cbn [it_node set_key_len] in E. rewrite E. cbn [mbind option_bind negb andb].
  destruct Hup as [(it' & -> & -> & Hb)|(it' & fs' & t' & -> & Hp' & Hl' & -> & Hj' & He')]; cbn [mbind option_bind].
  - cbn [step_result]. by rewrite (base_end _ _ Hb).
  - apply next_arrive; try done. destruct (pos_hole _ _ _ _ _ _ Hp') as (stk & Hh & _). apply hole_bound in Hh. lia.
Qed.

Lemma next_noup_node it fs key cl cr tl tr c : near it fs (RT key false (cl ++ cr) (tl ++ tr)) [c] -> it_eof it = false -> just_seeked it = false ->
  length tl = length cl -> Forall (fun x => x <= c) cl -> Forall (fun x => c < x) cr ->
  step_result it ((below (path fs) <$> edge_items cr tr) ++ after fs) (raxIteratorNextStep H r it true).
Proof.
  intros Hn He Hj Hl Hcl Hcr. apply (next_noup it _ _ _ _ Hn He Hj). remember (S (size H)) as F eqn:EF. cbn [next_up negb andb]. rewrite (near_last _ _ _ _ _ Hn eq_refl). cbn [mbind option_bind].
  pose proof (near_pos _ _ _ _ Hn) as Hp. destruct (pos_node _ _ _ _ _ _ _ _ _ Hp) as (n & kids & E & Hrep). pose proof E as E'. cbn [it_node set_key_len] in E'. rewrite E'. cbn [mbind option_bind].
  rewrite (nr_compr _ _ _ _ _ Hrep). cbn [negb andb]. pose proof (near_del _ _ _ _ Hn) as Hdel. change (Z.of_nat (length [c])) with 1 in Hdel. rewrite Hdel.
  assert (length fs + height (RT key false (cl ++ cr) (tl ++ tr)) <= size H)%nat as Hb by (destruct (pos_hole _ _ _ _ _ _ Hp) as (stk & Hh & _); by apply hole_bound in Hh).
  assert (up_result it (after fs) (next_up F H r (set_key_len it (Z.of_nat (length (path fs)))) false)) as Hup by (eapply next_up_spec; [done|by destruct it|lia]).
  destruct (rsize n >? 0) eqn:Eg.
  - eapply (next_scan F _ it fs key cl cr tl tr c n); try done.
  - rewrite (nr_size _ _ _ _ _ Hrep), length_app in Eg. destruct cr; [|simpl in Eg; lia]. assert (edge_items [] tr = []) as -> by (by destruct tr). done.
Qed.

Lemma next_noup_compr it fs key cs u : near it fs (RT key true cs [u]) cs -> it_eof it = false -> just_seeked it = false ->
  step_result it (after fs) (raxIteratorNextStep H r it true).
Proof.
  intros Hn He Hj. apply (next_noup it _ _ _ _ Hn He Hj). remember (S (size H)) as F eqn:EF. cbn [next_up negb andb]. pose proof (near_pos _ _ _ _ Hn) as Hp.
  destruct (last cs) as [p|] eqn:Ep; [|apply last_None in Ep; pose proof (pos_wf _ _ _ _ _ _ Hp) as Hw; inversion Hw; subst; simpl in *; lia].
  rewrite (near_last _ _ _ _ _ Hn Ep). cbn [mbind option_bind].
  destruct (pos_node _ _ _ _ _ _ _ _ _ Hp) as (n & kids & E & Hrep). pose proof E as E'. cbn [it_node set_key_len] in E'. rewrite E'. cbn [mbind option_bind].
  rewrite (nr_compr _ _ _ _ _ Hrep), (nr_size _ _ _ _ _ Hrep). cbn [negb andb]. rewrite (near_del _ _ _ _ Hn).
  assert (length fs + height (RT key true cs [u]) <= size H)%nat as Hb by (destruct (pos_hole _ _ _ _ _ _ Hp) as (stk & Hh & _); by apply hole_bound in Hh).
  eapply next_up_spec; [done|by destruct it|lia].
Qed.
End Next.

(** ** Backward *)

Lemma prev_pos_before cl cr c : Forall (fun x => x < c) cl -> Forall (fun x => c <= x) cr -> prev_pos (reverse (cl ++ cr)) c = Z.of_nat (length cl) - 1.
Proof.
  intros Hl Hr. induction cr as [|x cr IH] using rev_ind.
  - rewrite app_nil_r. destruct cl as [|y cl _] using rev_ind; [done|]. rewrite reverse_snoc. cbn [prev_pos]. rewrite Forall_app, Forall_singleton in Hl.
    destruct (y <? c) eqn:E; [|lia]. rewrite length_reverse, length_app. simpl. lia.
  - rewrite Forall_app, Forall_singleton in Hr. rewrite app_assoc, reverse_snoc. cbn [prev_pos]. destruct (x <? c) eqn:E; [lia|]. apply IH. tauto.
Qed.

Section Prev.
Context `{alloc : RaxAlloc} (H : heap) (r : rax) (T : rtree) (HT : short_tree T).

(** The greatest key below a position. *)
Lemma seek_greatest_spec fuel : forall it fs t, pos H r T it fs t -> live t -> (height t <= fuel)%nat -> exists it' fs' v, seek_greatest fuel H it = Some it' /\
  pos H r T it' fs' (RT (Some v) false [] []) /\ before fs ++ (below (path fs) <$> titems t) = before fs' ++ [(path fs', v)] /\
  just_seeked it' = just_seeked it /\ it_eof it' = it_eof it.
Proof.
  induction fuel as [|fuel IH]; intros it fs [key compr cs ts] Hp Hli Hh; [simpl in Hh; lia|]. cbn [seek_greatest].
  destruct (pos_node _ _ _ _ _ _ _ _ _ Hp) as (n & kds & E & Hrep). rewrite E. cbn [mbind option_bind]. rewrite (nr_size _ _ _ _ _ Hrep), (nr_compr _ _ _ _ _ Hrep).
  pose proof (pos_wf _ _ _ _ _ _ Hp) as Hw. pose proof (nr_length _ _ _ _ _ Hrep) as Hkl. inversion Hw as [k cs' u Hlen Hwu Hlu|k cs' ts' Hs Hl Hts]; subst.
  - replace (_ =? 0) with false by lia. destruct (enter_only H r T it fs key cs u n Hp E) as (it' & Ee & Hp' & Hj & He). rewrite (nr_size _ _ _ _ _ Hrep) in Ee.
    rewrite (last_first _ _ _ _ _ Hrep), Hkl. change (8 * (Z.of_nat 1 - 1)) with 0. rewrite Z.add_0_r, Ee. cbn [mbind option_bind].
    destruct (IH it' (FC key cs :: fs) u Hp' Hlu) as (it2 & fs2 & v & -> & Hp2 & Hbe & Hj2 & He2); [simpl in Hh; lia|]. exists it2, fs2, v. split_and!; try done; [|congruence|congruence].
    rewrite <- Hbe. cbn [before before_f path fpath]. by rewrite titems_compr, fmap_app, below_below, <- app_assoc.
  - destruct cs as [|c cs _] using rev_ind.
    + destruct ts; [|done]. destruct Hli as [[v ->]|]; [|done]. exists it, fs, v. split_and!; try done. cbn [titems app fmap list_fmap]. by rewrite below_nil.
    + destruct ts as [|u ts _] using rev_ind; [rewrite length_app in Hl; simpl in Hl; lia|]. rewrite !length_app in Hl. rewrite length_app in Hkl. rewrite length_app. simpl in Hl, Hkl. simpl length.
      replace (_ =? 0) with false by lia. rewrite Forall_app, Forall_singleton in Hts. destruct Hts as [_ [Hwu Hlu]].
      destruct (enter_child H r T it fs key cs c [] ts u [] n Hp ltac:(lia) E) as (it' & Ee & Hp' & Hj & He).
      replace (4 + Z.of_nat (length cs + 1) - 1) with (4 + Z.of_nat (length cs)) by lia. rewrite (last_first _ _ _ _ _ Hrep), Hkl.
      replace (Z.of_nat (length cs + 1) - 1) with (Z.of_nat (length cs)) by lia. rewrite Ee. cbn [mbind option_bind].
      destruct (IH it' _ u Hp' Hlu) as (it2 & fs2 & v & -> & Hp2 & Hbe & Hj2 & He2).
      { cbn [height] in Hh. rewrite foldr_app in Hh. cbn [foldr] in Hh. enough (Nat.max (height u) 0 <= foldr (fun u m => Nat.max (height u) m) (Nat.max (height u) 0) ts)%nat by lia.
        clear. induction ts; simpl; lia. }
      exists it2, fs2, v. split_and!; try done; [|congruence|congruence].
      rewrite <- Hbe. cbn [before before_f path fpath]. rewrite titems_node, edge_items_snoc by lia. unfold own. by rewrite !fmap_app, below_below, <- !app_assoc.
Qed.

(** The result of a step: the end, or the last key of [l] with what precedes it. *)
Definition back_result (it : raxIterator) (l : list (list Z * Z)) (res : option raxIterator) : Prop :=
  (l = [] /\ res = Some (set_flags it (just_seeked it) true)) \/
  (exists it' fs t v, res = Some it' /\ pos H r T it' fs t /\ tkey t = Some v /\ l = before fs ++ [(path fs, v)] /\ it_data it' = v /\
    just_seeked it' = just_seeked it /\ it_eof it' = it_eof it).

(** At a node, all its children having been ruled out. *)
Lemma prev_arrive fuel it it0 fs t : pos H r T it fs t -> base it it0 -> back_result it0 (before fs) (prev_loop fuel H r it false it0) ->
  back_result it0 (before fs ++ (below (path fs) <$> own (tkey t)))
    (n ← H !! it_node it; if iskey n then d ← raxGetData n; Some (set_it_data it d) else prev_loop fuel H r it false it0).
Proof.
  intros Hp Hb Hc. destruct t as [key compr cs ts]. destruct (pos_node _ _ _ _ _ _ _ _ _ Hp) as (n & kds & E & Hrep). rewrite E. cbn [mbind option_bind]. rewrite (nr_key _ _ _ _ _ Hrep).
  destruct key as [v|]; cbn [tkey own fmap list_fmap].
  - rewrite bool_decide_true by eauto. rewrite (raxGetData_spec _ _ _ _ _ Hrep). cbn [mbind option_bind]. right. eexists _, fs, _, v. split; [done|].
    split; [by apply pos_data|]. rewrite below_nil. split_and!; try done; by rewrite Hb.
  - rewrite bool_decide_false by (by intros [? ?]). by rewrite app_nil_r.
Qed.

(** The scan of a node: the children whose characters are less than [c]. *)
Lemma prev_scan fuel it it0 fs key cl cr tl tr c n : pos H r T it fs (RT key false (cl ++ cr) (tl ++ tr)) -> H !! it_node it = Some n -> base it it0 ->
  length tl = length cl -> Forall (fun x => x < c) cl -> Forall (fun x => c <= x) cr -> back_result it0 (before fs) (prev_loop fuel H r it false it0) ->
  back_result it0 (before fs ++ (below (path fs) <$> (own key ++ edge_items cl tl)))
    (it ← (cs ← node_read n 4 (rsize n); if negb (prev_pos (reverse cs) c =? -1) then
             it ← enter it n (4 + prev_pos (reverse cs) c) (raxNodeLastChildPtr n - 8 * (rsize n - 1 - prev_pos (reverse cs) c)) 1; raxSeekGreatest H it else Some it);
     n ← H !! it_node it; if iskey n then d ← raxGetData n; Some (set_it_data it d) else prev_loop fuel H r it false it0).
Proof.
  intros Hp E Hb Hl Hcl Hcr Hc. destruct (pos_node _ _ _ _ _ _ _ _ _ Hp) as (n' & kds & E' & Hrep). rewrite E in E'. injection E' as <-.
  assert (length (tl ++ tr) = length (cl ++ cr)) as Hln by (pose proof (pos_wf _ _ _ _ _ _ Hp) as Hw; by inversion Hw).
  pose proof Hrep as [_ (slack & L) _ _]. rewrite (read_chars _ _ _ _ _ L). cbn [mbind option_bind]. rewrite (nr_size _ _ _ _ _ Hrep), (prev_pos_before cl cr c Hcl Hcr).
  destruct cl as [|d cl _] using rev_ind.
  - simpl. destruct tl; [|done]. rewrite app_nil_r. by apply (prev_arrive fuel it it0 fs _ Hp Hb Hc).
  - destruct tl as [|u tl _] using rev_ind; [rewrite length_app in Hl; simpl in Hl; lia|]. rewrite length_app. simpl length. replace (_ =? -1) with false by lia. cbn [negb].
    rewrite !length_app in Hl. simpl in Hl. rewrite <- (app_assoc tl), <- (app_assoc cl) in Hp. rewrite <- (app_assoc cl) in Hrep. cbn [app] in Hp, Hrep.
    destruct (enter_child H r T it fs key cl d cr tl u tr n Hp ltac:(lia) E) as (it' & Ee & Hp' & Hj & He). rewrite <- !app_assoc. cbn [app].
    pose proof (nr_length _ _ _ _ _ Hrep) as Hkl. rewrite (last_first _ _ _ _ _ Hrep), Hkl.
    replace (4 + (Z.of_nat (length cl + 1) - 1)) with (4 + Z.of_nat (length cl)) by lia.
    replace (raxNodeFirstChildPtr n + _ - _) with (raxNodeFirstChildPtr n + 8 * Z.of_nat (length cl)) by lia. rewrite Ee. cbn [mbind option_bind]. unfold raxSeekGreatest.
    assert (live u) as Hlu by (by destruct (pos_live _ _ _ _ _ _ Hp')).
    destruct (seek_greatest_spec (S (size H)) it' _ u Hp' Hlu) as (it2 & fs2 & v & -> & Hp2 & Hbe & Hj2 & He2).
    { destruct (pos_hole _ _ _ _ _ _ Hp') as (stk & Hh & _). apply hole_bound in Hh. lia. }
    cbn [mbind option_bind]. destruct (pos_node _ _ _ _ _ _ _ _ _ Hp2) as (n2 & kd2 & -> & Hrep2). cbn [mbind option_bind]. rewrite (nr_key _ _ _ _ _ Hrep2), bool_decide_true by eauto.
    rewrite (raxGetData_spec _ _ _ _ _ Hrep2). cbn [mbind option_bind]. right. eexists _, fs2, _, v. split; [done|]. split; [by apply pos_data|]. split; [done|]. split; [|destruct (base_flags _ _ Hb); split_and!; [done|cbn; congruence|cbn; congruence]].
    rewrite <- Hbe, edge_items_snoc by lia. cbn [before before_f path fpath]. by rewrite !fmap_app, below_below, <- !app_assoc.
Qed.

Lemma prev_loop_spec fs : forall it it0 t fuel, pos H r T it fs t -> base it it0 -> (length fs < fuel)%nat -> back_result it0 (before fs) (prev_loop fuel H r it false it0).
Proof.
  induction fs as [|f fs IH]; intros it it0 t [|fuel] Hp Hb Hfu; try (simpl in Hfu; lia); cbn [prev_loop negb andb]; rewrite (pos_root _ _ _ _ _ _ Hp).
  - rewrite bool_decide_true by done. left. split; [done|]. by rewrite (base_end _ _ Hb).
  - rewrite bool_decide_false by done. destruct (climb _ _ _ _ _ _ _ Hp HT) as (p & it1 & n & it2 & Ep & -> & -> & E & Ed & Hp2 & Hb2 & En). cbn [mbind option_bind]. rewrite E. cbn [mbind option_bind].
    rewrite Ed. rewrite <- En in E. assert (base it2 it0) as Hb0 by (by eapply base_trans).
    assert (back_result it0 (before fs) (prev_loop fuel H r it2 false it0)) as Hup by (apply (IH it2 it0 (fill f t)); [done|done|simpl in Hfu; lia]).
    destruct f as [key cs|key cl c cr tl tr]; cbn [fill] in Hp2; destruct (pos_node _ _ _ _ _ _ _ _ _ Hp2) as (n' & kds & E' & Hrep); rewrite E in E'; injection E' as <-.
    all: rewrite (nr_compr _ _ _ _ _ Hrep); cbn [negb andb before before_f].
    + cbn [mbind option_bind]. by apply (prev_arrive fuel it2 it0 fs _ Hp2).
    + cbn [fpath] in Ep. injection Ep as <-. assert (StronglySorted Z.lt (cl ++ c :: cr) /\ length tl = length cl /\ length tr = length cr) as (Hs & Hl & Hr).
      { destruct Hp as [_ _ Hf _ _ _]. apply Forall_cons in Hf as [(?&?&?&_) _]. done. }
      destruct (sorted_sides _ _ _ Hs) as [Hcl Hcr]. destruct (rsize n >? 1) eqn:Eg.
      * apply (prev_scan fuel it2 it0 fs key cl (c :: cr) tl (t :: tr) c n); try done.
        constructor; [lia|]. eapply Forall_impl; [done|]. simpl. lia.
      * rewrite (nr_size _ _ _ _ _ Hrep), length_app in Eg. simpl in Eg. destruct cl, tl; try (simpl in *; lia). cbn [edge_items mbind option_bind]. rewrite app_nil_r. by apply (prev_arrive fuel it2 it0 fs _ Hp2).
Qed.

(** The step backward goes to the last key before the position. *)
Lemma prev_step_spec it fs t : pos H r T it fs t -> it_eof it = false -> just_seeked it = false -> back_result it (before fs) (raxIteratorPrevStep H r it false).
Proof.
  intros Hp He Hj. unfold raxIteratorPrevStep. rewrite He, Hj. apply (prev_loop_spec fs it it t); [done|apply base_refl|].
  destruct (pos_hole _ _ _ _ _ _ Hp) as (stk & Hh & _). apply hole_bound in Hh. lia.
Qed.

Lemma prev_noup_node it fs key cl cr tl tr c : near H r T it fs (RT key false (cl ++ cr) (tl ++ tr)) [c] -> it_eof it = false -> just_seeked it = false ->
  length tl = length cl -> Forall (fun x => x < c) cl -> Forall (fun x => c <= x) cr ->
  back_result it (before fs ++ (below (path fs) <$> (own key ++ edge_items cl tl))) (raxIteratorPrevStep H r it true).
Proof.
  intros Hn He Hj Hl Hcl Hcr. unfold raxIteratorPrevStep. rewrite He, Hj. remember (S (size H)) as F eqn:EF. cbn [prev_loop negb andb]. rewrite (near_last _ _ _ _ _ _ _ _ Hn eq_refl). cbn [mbind option_bind].
  pose proof (near_pos _ _ _ _ _ _ _ Hn) as Hp. destruct (pos_node _ _ _ _ _ _ _ _ _ Hp) as (n & kds & E & Hrep). pose proof E as E'. cbn [it_node set_key_len] in E'. rewrite E'. cbn [mbind option_bind].
  rewrite (nr_compr _ _ _ _ _ Hrep). cbn [negb andb]. pose proof (near_del _ _ _ _ _ _ _ Hn) as Hdel. change (Z.of_nat (length [c])) with 1 in Hdel. rewrite Hdel.
  set (it2 := set_key_len it _) in *. assert (base it2 it) as Hb by (by destruct it).
  assert (back_result it (before fs) (prev_loop F H r it2 false it)) as Hup.
  { eapply prev_loop_spec; [done|done|]. destruct (pos_hole _ _ _ _ _ _ Hp) as (stk & Hh & _). apply hole_bound in Hh. lia. }
  destruct (rsize n >? 0) eqn:Eg.
  - by apply (prev_scan F it2 it fs key cl cr tl tr c n).
  - rewrite (nr_size _ _ _ _ _ Hrep), length_app in Eg. destruct cl, tl; try (simpl in *; lia). cbn [edge_items mbind option_bind]. rewrite app_nil_r. by apply (prev_arrive F it2 it fs _ Hp).
Qed.

Lemma prev_noup_compr it fs key cs u : near H r T it fs (RT key true cs [u]) cs -> it_eof it = false -> just_seeked it = false ->
  back_result it (before fs ++ (below (path fs) <$> own key)) (raxIteratorPrevStep H r it true).
Proof.
  intros Hn He Hj. unfold raxIteratorPrevStep. rewrite He, Hj. remember (S (size H)) as F eqn:EF. cbn [prev_loop negb andb]. pose proof (near_pos _ _ _ _ _ _ _ Hn) as Hp.
  destruct (last cs) as [p|] eqn:Ep; [|apply last_None in Ep; pose proof (pos_wf _ _ _ _ _ _ Hp) as Hw; inversion Hw; subst; simpl in *; lia].
  rewrite (near_last _ _ _ _ _ _ _ _ Hn Ep). cbn [mbind option_bind].
  destruct (pos_node _ _ _ _ _ _ _ _ _ Hp) as (n & kds & E & Hrep). pose proof E as E'. cbn [it_node set_key_len] in E'. rewrite E'. cbn [mbind option_bind].
  rewrite (nr_compr _ _ _ _ _ Hrep), (nr_size _ _ _ _ _ Hrep). cbn [negb andb mbind option_bind]. rewrite (near_del _ _ _ _ _ _ _ Hn). set (it2 := set_key_len it _) in *.
  assert (base it2 it) as Hb by (by destruct it). apply (prev_arrive F it2 it fs _ Hp Hb). eapply prev_loop_spec; [done|done|].
  destruct (pos_hole _ _ _ _ _ _ Hp) as (stk & Hh & _). apply hole_bound in Hh. lia.
Qed.
End Prev.
