(* ===== verification/RaxIterSpec.v ===== *)
(** * The iterator of the radix tree refines a cursor

    Seeking with any of the operators goes to the key they name in the sorted
    list of the keys; [raxNext] and [raxPrev] walk that list in either
    direction. *)

From Stdlib Require Import ZArith Lia ZifyBool Sorted.
From stdpp Require Import base gmap numbers option list sets.
From S2P Require Import Prelude SdsCmp RaxNode RaxNodeProof Rax RaxTree RaxHeap RaxInsert RaxSpec RaxRemove RaxFree RaxRefine RaxIter RaxIterProof.

Local Open Scope Z_scope.

(** ** Order around a position *)

Lemma slt_trans a : forall b c, slt a b -> slt b c -> slt a c.
Proof.
  induction a as [|x a IH]; intros [|y b] [|z c]; simpl; try done; try tauto.
  intros [?|[-> ?]] [?|[-> ?]]; [left; lia|left; lia|left; lia|right; eauto].
Qed.

Lemma slt_asym a b : slt a b -> ~ slt b a.
Proof. intros H1 H2. by apply (slt_irrefl a), (slt_trans a b a). Qed.

#[export] Instance slt_dec : RelDecision slt.
Proof. intros a. induction a as [|x a IH]; intros [|y b]; simpl; apply _. Defined.

Lemma elem_below_inv kv p (l : list (list Z * Z)) : kv ∈ (below p <$> l) -> exists k v, kv = (p ++ k, v) /\ (k, v) ∈ l.
Proof. intros ([k v] & -> & Hin)%list_elem_of_fmap. eauto. Qed.

Lemma edge_first kv cs ts : kv ∈ edge_items cs ts -> exists c k, fst kv = c :: k /\ c ∈ cs.
Proof.
  revert cs. induction ts as [|u ts IH]; intros [|c cs]; cbn [edge_items]; [by intros ?%not_elem_of_nil..|]. rewrite elem_of_app. intros [(k & v & -> & _)%elem_below_inv|Hin].
  - exists c, k. set_solver.
  - destruct (IH _ Hin) as (d & k & E & Hd). exists d, k. set_solver.
Qed.

Lemma own_elem kv key : kv ∈ own key -> fst kv = [].
Proof. destruct key; cbn; set_solver. Qed.

Lemma before_lt fs : forall q kv, Forall wf_frame fs -> kv ∈ before fs -> slt (fst kv) (path fs ++ q).
Proof.
  induction fs as [|f fs IH]; intros q kv Hf; cbn [before path]; [set_solver|]. apply Forall_cons in Hf as [Hff Hf]. rewrite elem_of_app, <- app_assoc. intros [Hin|Hin]; [by apply IH|].
  destruct (elem_below_inv _ _ _ Hin) as (k & v & -> & Hk). apply slt_app. destruct f as [key cs|key cl c cr tl tr]; cbn [before_f fpath] in *.
  - apply own_elem in Hk. simpl in Hk. subst k. destruct cs; [simpl in Hff; lia|done].
  - apply elem_of_app in Hk as [Hk|Hk]; [apply own_elem in Hk; simpl in Hk; by subst k|]. destruct (edge_first _ _ _ Hk) as (d & k' & E & Hd). simpl in E. subst k.
    destruct Hff as (Hs & _). apply sorted_sides in Hs as [Hl _]. rewrite Forall_forall in Hl. left. by apply Hl.
Qed.

Lemma after_gt fs : forall q kv, Forall wf_frame fs -> kv ∈ after fs -> slt (path fs ++ q) (fst kv).
Proof.
  induction fs as [|f fs IH]; intros q kv Hf; cbn [after path]; [set_solver|]. apply Forall_cons in Hf as [Hff Hf]. rewrite elem_of_app, <- app_assoc. intros [Hin|Hin]; [|by apply IH].
  destruct (elem_below_inv _ _ _ Hin) as (k & v & -> & Hk). apply slt_app. destruct f as [key cs|key cl c cr tl tr]; cbn [after_f fpath] in *; [set_solver|].
  destruct (edge_first _ _ _ Hk) as (d & k' & E & Hd). simpl in E. subst k. destruct Hff as (Hs & _). apply sorted_sides in Hs as [_ Hr]. rewrite Forall_forall in Hr. left. by apply Hr.
Qed.

(** The sorted keys split by a string: those before it, itself, those after it. *)
Record splits (l : list (list Z * Z)) (s : list Z) (A E B : list (list Z * Z)) : Prop := {
  split_app : l = A ++ E ++ B;
  split_lt : Forall (fun kv => slt (fst kv) s) A;
  split_eq : Forall (fun kv => fst kv = s) E;
  split_gt : Forall (fun kv => slt s (fst kv)) B
}.

Section Splits.
Context (fs : list frame) (Hf : Forall wf_frame fs).

Lemma before_all q : Forall (fun kv => slt (fst kv) (path fs ++ q)) (before fs).
Proof. apply Forall_forall. intros kv Hkv. by apply before_lt. Qed.

Lemma after_all q : Forall (fun kv => slt (path fs ++ q) (fst kv)) (after fs).
Proof. apply Forall_forall. intros kv Hkv. by apply after_gt. Qed.

Lemma below_lt q (l : list (list Z * Z)) : Forall (fun kv => slt (fst kv) q) l -> Forall (fun kv => slt (fst kv) (path fs ++ q)) (below (path fs) <$> l).
Proof. intros Hl. rewrite Forall_fmap. eapply Forall_impl; [done|]. intros [k v] Hk. by apply slt_app. Qed.

Lemma below_gt q (l : list (list Z * Z)) : Forall (fun kv => slt q (fst kv)) l -> Forall (fun kv => slt (path fs ++ q) (fst kv)) (below (path fs) <$> l).
Proof. intros Hl. rewrite Forall_fmap. eapply Forall_impl; [done|]. intros [k v] Hk. by apply slt_app. Qed.

Lemma own_lt key q : q <> [] -> Forall (fun kv => slt (fst kv) q) (own key).
Proof. intros Hq. apply Forall_forall. intros kv Hkv. rewrite (own_elem _ _ Hkv). by destruct q. Qed.

Lemma kids_first kv t : wf t -> kv ∈ kids t -> fst kv <> [].
Proof.
  destruct t as [key compr cs ts]. intros Hw Hk. inversion Hw as [k cs' u Hlen Hwu Hlu|k cs' ts' Hs Hl Hts]; subst; cbn [kids] in Hk.
  - destruct (elem_below_inv _ _ _ Hk) as (k & v & -> & _). destruct cs; [simpl in Hlen; lia|done].
  - destruct (edge_first _ _ _ Hk) as (c & k & E & _). congruence.
Qed.

(** The walk ended at the node of the string. *)
Lemma splits_here t : wf t -> splits (titems (plug fs t)) (path fs) (before fs) (below (path fs) <$> own (tkey t)) (future fs t).
Proof.
  intros Hw. pose proof (before_all []) as Hb. pose proof (after_all []) as Ha. rewrite app_nil_r in Hb, Ha. split; [by apply plug_split|done| |].
  - rewrite Forall_fmap. apply Forall_forall. intros kv Hkv. cbn. by rewrite (own_elem _ _ Hkv), app_nil_r.
  - unfold future. apply Forall_app. split; [|done]. pose proof (below_gt [] (kids t)) as Hg. rewrite app_nil_r in Hg. apply Hg, Forall_forall. intros kv Hkv.
    pose proof (kids_first _ _ Hw Hkv). by destruct (fst kv).
Qed.

(** It ended inside a compressed node, whose keys follow the string ... *)
Lemma splits_compr_gt key cs u q : q <> [] -> (forall k, slt q (cs ++ k)) ->
  splits (titems (plug fs (RT key true cs [u]))) (path fs ++ q) (before fs ++ (below (path fs) <$> own key)) [] (future fs (RT key true cs [u])).
Proof.
  intros Hq Hk. split; [by rewrite plug_split, <- app_assoc|apply Forall_app; split; [apply before_all|by apply below_lt, own_lt]|constructor|].
  unfold future. apply Forall_app. split; [|apply after_all]. apply below_gt. cbn [kids]. rewrite Forall_fmap. apply Forall_forall. intros [k v] _. apply Hk.
Qed.

(** ... or precede it. *)
Lemma splits_compr_lt key cs u q : q <> [] -> (forall k, slt (cs ++ k) q) ->
  splits (titems (plug fs (RT key true cs [u]))) (path fs ++ q) (before fs ++ (below (path fs) <$> titems (RT key true cs [u]))) [] (after fs).
Proof.
  intros Hq Hk. split; [by rewrite plug_items, <- app_assoc|apply Forall_app; split; [apply before_all|]|constructor|apply after_all].
  apply below_lt. rewrite titems_kids. apply Forall_app. split; [by apply own_lt|]. cbn [kids]. rewrite Forall_fmap. apply Forall_forall. intros [k v] _. apply Hk.
Qed.

(** It ended at a node without the character [c]. *)
Lemma splits_node key cl cr tl tr c q : length tl = length cl -> Forall (fun x => x < c) cl -> Forall (fun x => c < x) cr ->
  splits (titems (plug fs (RT key false (cl ++ cr) (tl ++ tr)))) (path fs ++ c :: q)
    (before fs ++ (below (path fs) <$> (own key ++ edge_items cl tl))) [] ((below (path fs) <$> edge_items cr tr) ++ after fs).
Proof.
  intros Hl Hcl Hcr. rewrite Forall_forall in Hcl, Hcr. split.
  - rewrite plug_items by done. rewrite titems_node, edge_items_app by done. unfold own. by rewrite !fmap_app, <- !app_assoc.
  - apply Forall_app. split; [apply before_all|]. apply below_lt, Forall_app. split; [by apply own_lt|]. apply Forall_forall. intros kv Hkv.
    destruct (edge_first _ _ _ Hkv) as (d & k & -> & Hd). left. by apply Hcl.
  - constructor.
  - apply Forall_app. split; [|apply after_all]. apply below_gt, Forall_forall. intros kv Hkv. destruct (edge_first _ _ _ Hkv) as (d & k & -> & Hd). left. by apply Hcr.
Qed.
End Splits.

(** ** Landing *)

Section Seek.
Context `{alloc : RaxAlloc} (H : heap) (r : rax) (T : rtree) (HT : short_tree T).

(** The iterator is at the key with index [i]. *)
Definition at_index (it : raxIterator) (i : nat) : Prop :=
  exists fs t v, pos H r T it fs t /\ tkey t = Some v /\ it_data it = v /\ length (before fs) = i.

Lemma at_index_key it i : at_index it i -> exists k v, titems T !! i = Some (k, v) /\ key_is it k /\ it_data it = v.
Proof.
  intros (fs & t & v & Hp & Hk & Hd & <-). exists (path fs), v. split; [|split; [by apply (pos_key _ _ _ _ _ _ Hp)|done]].
  rewrite <- (pos_tree _ _ _ _ _ _ Hp), plug_split by (by apply (pos_frames _ _ _ _ _ _ Hp)). rewrite Hk. cbn [own fmap list_fmap]. rewrite lookup_app_r, Nat.sub_diag by lia. cbn [lookup list_lookup app]. by rewrite below_nil.
Qed.

(** What a step or a seek that started from [it] leaves: the end, or the key with an index. *)
Definition landed (it : raxIterator) (o : option nat) (res : option raxIterator) : Prop :=
  exists it', res = Some it' /\ just_seeked it' = just_seeked it /\
    match o with Some i => it_eof it' = it_eof it /\ at_index it' i | None => it_eof it' = true end.

Lemma pos_flags it fs t a b : pos H r T it fs t -> pos H r T (set_flags it a b) fs t.
Proof. by intros [? ? ? ? ? ?]. Qed.

Lemma step_landed it A B res : titems T = A ++ B -> step_result H r T it B res -> landed it (if B then None else Some (length A)) res.
Proof.
  intros HA. destruct B as [|[k v] B]; cbn [step_result].
  - intros ->. eexists. split; [done|]. done.
  - intros (it' & fs & t & -> & Hp & <- & Hk & HB & Hd & Hj & He). exists it'. split; [done|]. split; [done|]. split; [done|]. exists fs, t, v. split; [done|]. split; [done|]. split; [done|].
    rewrite <- (pos_tree _ _ _ _ _ _ Hp), plug_split, Hk, HB in HA by (by apply (pos_frames _ _ _ _ _ _ Hp)). apply (f_equal length) in HA. rewrite !length_app in HA. simpl in HA. lia.
Qed.

Lemma back_landed it A res : back_result H r T it A res -> landed it (if A then None else Some (length A - 1)%nat) res.
Proof.
  intros [[-> ->]|(it' & fs & t & v & -> & Hp & Hk & -> & Hd & Hj & He)].
  - eexists. split; [done|]. done.
  - exists it'. split; [done|]. split; [done|]. destruct (before fs ++ _) eqn:E; [by apply app_eq_nil in E as [_ ?]|]. rewrite <- E. split; [done|]. exists fs, t, v. split_and!; try done.
    rewrite length_app. simpl. lia.
Qed.

(** Steps of an iterator that has not just been placed. *)
Lemma next_landed it i : at_index it i -> it_eof it = false -> just_seeked it = false ->
  landed it (if (titems T) !! S i then Some (S i) else None) (raxIteratorNextStep H r it false).
Proof.
  intros (fs & t & v & Hp & Hk & Hd & <-) He Hj. pose proof (next_step_spec H r T HT it fs t Hp He Hj) as Hs.
  pose proof (plug_split fs t (pos_frames _ _ _ _ _ _ Hp)) as Hsp. rewrite (pos_tree _ _ _ _ _ _ Hp), Hk in Hsp. cbn [own fmap list_fmap] in Hsp. rewrite app_assoc in Hsp.
  pose proof (step_landed it _ _ _ Hsp Hs) as Hl. rewrite length_app in Hl. simpl in Hl. rewrite Nat.add_1_r in Hl.
  assert (titems T !! S (length (before fs)) = head (future fs t)) as ->; [|by destruct (future fs t)].
  rewrite Hsp, lookup_app_r by (rewrite length_app; simpl; lia). rewrite length_app. simpl. replace (_ - _)%nat with 0%nat by lia. by destruct (future fs t).
Qed.

Lemma prev_landed it i : at_index it i -> it_eof it = false -> just_seeked it = false ->
  landed it (match i with O => None | S i => Some i end) (raxIteratorPrevStep H r it false).
Proof.
  intros (fs & t & v & Hp & Hk & Hd & <-) He Hj. pose proof (back_landed _ _ _ (prev_step_spec H r T HT it fs t Hp He Hj)) as Hl.
  destruct (before fs); [done|]. simpl in *. by rewrite Nat.sub_0_r in Hl.
Qed.
(** ** Seeking *)

Definition seeked (o : option nat) (res : option raxIterator) : Prop :=
  exists it', res = Some it' /\ just_seeked it' = true /\ match o with Some i => it_eof it' = false /\ at_index it' i | None => it_eof it' = true end.

Lemma landed_seeked it o res : landed it o res -> it_eof it = false -> seeked o (it ← res; Some (set_flags it true (it_eof it))).
Proof.
  intros (it' & -> & Hj & Ho) He. cbn [mbind option_bind]. eexists. split; [done|]. split; [done|]. destruct o as [i|]; [|done]. rewrite He in Ho. destruct Ho as [He' (fs & t & v & Hp & Hr)].
  split; [done|]. exists fs, t, v. split; [by apply pos_flags|done].
Qed.

(** Where the key of the operator is: at the first key after the string, or at the last before it. *)
Definition target (gt : bool) (A E B : list (list Z * Z)) : option nat :=
  if gt then match B with [] => None | _ => Some (length (A ++ E)) end else match A with [] => None | _ => Some (length A - 1)%nat end.

Lemma target_next it A E B s res : splits (titems T) s A E B -> step_result H r T it B res -> landed it (target true A E B) res.
Proof. intros [Hs _ _ _] Hr. rewrite app_assoc in Hs. apply (step_landed _ _ _ _ Hs) in Hr. by destruct B. Qed.

Lemma target_prev it A E B res : back_result H r T it A res -> landed it (target false A E B) res.
Proof. intros Hr. apply back_landed in Hr. by destruct A. Qed.

(** The iterator once the key of the node reached is in it. *)
Lemma seek_place it fs t s' stk j : hole H r fs (it_node it) stk t -> stack_is it stk -> key_is it [] -> Forall wf_frame fs -> wf t -> fs = [] \/ live t -> plug fs t = T ->
  exists it2, (s ← slice (path fs ++ s') 0 (Z.of_nat (length (path fs)) + j - j); raxIteratorAddChars it s) = Some it2 /\ pos H r T it2 fs t /\ it_node it2 = it_node it /\ it_eof it2 = it_eof it.
Proof.
  intros Hh Hs Hk Hf Hw Hl Hpl. rewrite Z.add_simpl_r, (slice_app [] (path fs) s') by (simpl; lia). cbn [mbind option_bind].
  destruct (add_chars_spec it [] (path fs) Hk) as (h & buf & -> & rest & ->). eexists. split; [done|]. split; [|done].
  split; try done; [by exists stk|]. split; [done|]. by exists rest.
Qed.

Lemma landed_from it it' o res : landed it' o res -> just_seeked it' = just_seeked it -> it_eof it' = it_eof it -> landed it o res.
Proof. intros (it2 & -> & Hj2 & Ho) Hj He. exists it2. split; [done|]. split; [congruence|]. destruct o; [by rewrite <- He|done]. Qed.

(** More characters after the key of the position. *)
Lemma add_near it fs t q : pos H r T it fs t -> Z.of_nat (length q) < 2 ^ 29 -> exists it', raxIteratorAddChars it q = Some it' /\ near H r T it' fs t q /\ it_eof it' = it_eof it /\ just_seeked it' = just_seeked it.
Proof.
  intros Hp Hq. pose proof (pos_short _ _ _ _ _ _ Hp HT) as Hsh. destruct (add_chars_spec it (path fs) q (pos_key _ _ _ _ _ _ Hp)) as (h & buf & -> & rest & ->). eexists. split; [done|]. split; [|done].
  split; [split; [done|by exists rest]| |rewrite length_app; lia]. destruct Hp as [Hh Hk Hf Hw Hl Hpl]. split; try done. split; [done|]. exists (q ++ rest). by rewrite app_assoc.
Qed.

Section Mismatch.
Context (it : raxIterator) (fs : list frame) (Hf : Forall wf_frame fs) (He : it_eof it = false) (Hj : just_seeked it = false).

(** The branch for a mismatch in a node that is not compressed. *)
Lemma mismatch_node key cs ts c r0 (lt gt : bool) : pos H r T it fs (RT key false cs ts) -> c ∉ cs -> gt = negb lt ->
  exists A B, splits (titems T) (path fs ++ c :: r0) A [] B /\ landed it (target gt A [] B)
    (it ← raxIteratorAddChars it [c]; it ← (if lt then raxIteratorPrevStep H r it true else Some it); if gt then raxIteratorNextStep H r it true else Some it).
Proof.
  intros Hp Hc ->. pose proof (pos_wf _ _ _ _ _ _ Hp) as Hw. inversion Hw as [|k cs' ts' Hs Hl Hts]; subst.
  destruct (add_near it fs _ [c] Hp ltac:(done)) as (it' & -> & Hn & He' & Hj'). cbn [mbind option_bind]. rewrite He in He'. rewrite Hj in Hj'.
  assert (exists cl cr, cs = cl ++ cr /\ Forall (fun x => x < c) cl /\ Forall (fun x => c < x) cr) as (cl & cr & -> & Hcl & Hcr).
  { clear -Hs Hc. induction Hs as [|x cs Hs IH Hx]; [by exists [], []|]. rewrite not_elem_of_cons in Hc. destruct Hc as [Hne Hc]. destruct (Z.lt_ge_cases x c).
    - destruct (IH Hc) as (cl & cr & -> & Hcl & Hcr). exists (x :: cl), cr. split; [done|]. split; [by constructor|done].
    - exists [], (x :: cs). split; [done|]. split; [done|]. constructor; [lia|]. eapply Forall_impl; [done|]. simpl. lia. }
  assert (exists tl tr, ts = tl ++ tr /\ length tl = length cl) as (tl & tr & -> & Htl).
  { exists (take (length cl) ts), (drop (length cl) ts). rewrite take_drop, length_take. rewrite length_app in Hl. split; [done|lia]. }
  pose proof (splits_node fs Hf key cl cr tl tr c r0 Htl Hcl Hcr) as Hsp. rewrite (pos_tree _ _ _ _ _ _ Hp) in Hsp. eexists _, _. split; [exact Hsp|].
  apply (landed_from _ it'); [|congruence|congruence]. destruct lt; cbn [negb].
  - pose proof (prev_noup_node H r T HT it' fs key cl cr tl tr c Hn He' Hj' Htl Hcl) as Hb. specialize (Hb ltac:(eapply Forall_impl; [exact Hcr|]; simpl; lia)).
    destruct (target_prev _ _ [] ((below (path fs) <$> edge_items cr tr) ++ after fs) _ Hb) as (it2 & -> & Hr). by exists it2.
  - cbn [mbind option_bind]. apply (target_next _ _ _ _ _ _ Hsp). apply (next_noup_node H r T HT it' fs key cl cr tl tr c Hn He' Hj' Htl); [|done]. eapply Forall_impl; [exact Hcl|]. simpl. lia.
Qed.
(** The branch for a mismatch inside a compressed node. *)
Lemma mismatch_compr key c1 y c2 u z r0 (lt gt : bool) : pos H r T it fs (RT key true (c1 ++ y :: c2) [u]) -> z <> y -> gt = negb lt ->
  exists A B, splits (titems T) (path fs ++ c1 ++ z :: r0) A [] B /\ landed it (target gt A [] B)
    (it ← (if gt then if y >? z then raxIteratorNextStep H r it false else it ← raxIteratorAddChars it (c1 ++ y :: c2); raxIteratorNextStep H r it true else Some it);
     if lt then
       if y <? z then it ← raxSeekGreatest H it; n ← H !! it_node it; d ← raxGetData n; Some (set_it_data it d)
       else it ← raxIteratorAddChars it (c1 ++ y :: c2); raxIteratorPrevStep H r it true
     else Some it).
Proof.
  intros Hp Hzy ->. set (t := RT key true (c1 ++ y :: c2) [u]) in *. set (q := c1 ++ z :: r0). assert (q <> []) as Hq by (by destruct c1). destruct (pos_node _ _ _ _ _ _ _ _ _ Hp) as (n & kds & _ & Hrep).
  destruct (add_near it fs t (c1 ++ y :: c2) Hp (nr_max _ _ _ _ _ Hrep)) as (it' & Ea & Hn & He' & Hj'). rewrite He in He'. rewrite Hj in Hj'. pose proof (pos_tree _ _ _ _ _ _ Hp) as Hpl.
  destruct (Z.lt_trichotomy y z) as [Hlt|[?|Hgt]]; [|congruence|].
  - assert (splits (titems T) (path fs ++ q) (before fs ++ (below (path fs) <$> titems t)) [] (after fs)) as Hsp.
    { rewrite <- Hpl. apply (splits_compr_lt fs Hf key _ u q Hq). intros k. unfold q. rewrite <- app_assoc. apply slt_app. by left. }
    eexists _, _. split; [exact Hsp|]. destruct lt; cbn [negb mbind option_bind].
    + replace (y <? z) with true by lia. unfold raxSeekGreatest. destruct (seek_greatest_spec H r T (S (size H)) it fs t Hp) as (it2 & fs2 & v & -> & Hp2 & Hbe & Hj2 & He2).
      { by right. } { destruct (pos_hole _ _ _ _ _ _ Hp) as (stk & Hh & _). apply hole_bound in Hh. lia. }
      cbn [mbind option_bind]. destruct (pos_node _ _ _ _ _ _ _ _ _ Hp2) as (n2 & kd2 & -> & Hrep2). cbn [mbind option_bind]. rewrite (raxGetData_spec _ _ _ _ _ Hrep2). cbn [mbind option_bind].
      apply target_prev. right. eexists _, fs2, _, v. split; [done|]. split; [by apply pos_data|]. by rewrite Hbe.
    + replace (y >? z) with false by lia. rewrite Ea. cbn [mbind option_bind]. apply (landed_from _ it'); [|congruence|congruence].
      destruct (target_next _ _ _ _ _ _ Hsp (next_noup_compr H r T HT it' fs key _ u Hn He' Hj')) as (it2 & -> & Hr). by exists it2.
  - assert (splits (titems T) (path fs ++ q) (before fs ++ (below (path fs) <$> own key)) [] (future fs t)) as Hsp.
    { rewrite <- Hpl. apply (splits_compr_gt fs Hf key _ u q Hq). intros k. unfold q. rewrite <- app_assoc. apply slt_app. by left. }
    eexists _, _. split; [exact Hsp|]. destruct lt; cbn [negb mbind option_bind].
    + replace (y <? z) with false by lia. rewrite Ea. cbn [mbind option_bind]. apply (landed_from _ it'); [|congruence|congruence].
      apply target_prev. by apply (prev_noup_compr H r T HT it' fs key _ u Hn).
    + replace (y >? z) with true by lia. destruct (target_next _ _ _ _ _ _ Hsp (next_step_spec H r T HT it fs t Hp He Hj)) as (it2 & -> & Hr). by exists it2.
Qed.

(** The branch for a string that ends at a node or inside a compressed one. *)
Lemma mismatch_end key compr cs ts s' j n (lt gt : bool) : pos H r T it fs (RT key compr cs ts) -> H !! it_node it = Some n -> gt = negb lt ->
  (s' = [] /\ j = 0 \/ compr = true /\ s' <> [] /\ j <> 0 /\ exists c2, cs = s' ++ c2 /\ c2 <> []) ->
  exists A E B, splits (titems T) (path fs ++ s') A E B /\ landed it (target gt A E B)
    (if iscompr n && iskey n && negb (j =? 0) && lt then d ← raxGetData n; Some (set_it_data it d)
     else it ← (if gt then raxIteratorNextStep H r it false else Some it); if lt then raxIteratorPrevStep H r it false else Some it).
Proof.
  intros Hp E -> Hs. set (t := RT key compr cs ts) in *. pose proof (pos_tree _ _ _ _ _ _ Hp) as Hpl. pose proof (pos_wf _ _ _ _ _ _ Hp) as Hw.
  destruct (pos_node _ _ _ _ _ _ _ _ _ Hp) as (n' & kds & E' & Hrep). rewrite E in E'. injection E' as <-.
  pose proof (next_step_spec H r T HT it fs t Hp He Hj) as Hnx. pose proof (prev_step_spec H r T HT it fs t Hp He Hj) as Hpv.
  destruct Hs as [[-> ->]|(-> & Hne & Hj0 & c2 & -> & Hc2)].
  - rewrite app_nil_r. exists (before fs), (below (path fs) <$> own key), (future fs t). assert (splits (titems T) (path fs) (before fs) (below (path fs) <$> own key) (future fs t)) as Hsp
      by (rewrite <- Hpl; by apply (splits_here fs Hf t)). split; [done|]. cbn [negb Z.eqb]. rewrite andb_false_r. cbn [andb]. destruct lt; cbn [negb mbind option_bind].
    + by apply target_prev.
    + destruct (target_next _ _ _ _ _ _ Hsp Hnx) as (it2 & -> & Hr). by exists it2.
  - assert (exists u, ts = [u]) as [u ->] by (inversion Hw; eauto). exists (before fs ++ (below (path fs) <$> own key)), [], (future fs t).
    assert (splits (titems T) (path fs ++ s') (before fs ++ (below (path fs) <$> own key)) [] (future fs t)) as Hsp.
    { rewrite <- Hpl. apply (splits_compr_gt fs Hf key _ u s' Hne). intros k. rewrite <- app_assoc. rewrite <- (app_nil_r s') at 1. apply slt_app. by destruct c2. }
    split; [done|]. rewrite (nr_compr _ _ _ _ _ Hrep), (nr_key _ _ _ _ _ Hrep). replace (j =? 0) with false by lia. cbn [negb andb]. rewrite andb_true_r. destruct lt; cbn [negb mbind option_bind].
    + rewrite andb_true_r. destruct key as [v|].
      * rewrite bool_decide_true by eauto. rewrite (raxGetData_spec _ _ _ _ _ Hrep). cbn [mbind option_bind]. apply target_prev. right. eexists _, fs, _, v. split; [done|].
        split; [by apply pos_data|]. cbn [own fmap list_fmap]. by rewrite below_nil.
      * rewrite bool_decide_false by (by intros [? ?]). cbn [own fmap list_fmap]. rewrite app_nil_r. by apply target_prev.
    + rewrite andb_false_r. destruct (target_next _ _ _ _ _ _ Hsp Hnx) as (it2 & -> & Hr). by exists it2.
Qed.
End Mismatch.
Lemma seek_mismatch_spec it fs t s' stk j (lt gt : bool) : hole H r fs (it_node it) stk t -> stack_is it stk -> key_is it [] -> Forall wf_frame fs -> wf t -> fs = [] \/ live t -> plug fs t = T ->
  stops t s' j -> it_eof it = false -> gt = negb lt ->
  exists A E B, splits (titems T) (path fs ++ s') A E B /\ seeked (target gt A E B) (seek_mismatch H r it (path fs ++ s') (Z.of_nat (length (path fs)) + j) j lt gt).
Proof.
  intros Hh Hs Hk Hf Hw Hl Hpl Hst He Hgt. unfold seek_mismatch. destruct (seek_place it fs t s' stk j Hh Hs Hk Hf Hw Hl Hpl) as (it2 & E2 & Hp & Hn2 & He2).
  destruct (slice (path fs ++ s') 0 _) as [x|]; [|discriminate E2]. cbn [mbind option_bind] in E2 |- *. rewrite E2. cbn [mbind option_bind]. rewrite He in He2.
  set (it3 := set_flags it2 false (it_eof it2)). assert (pos H r T it3 fs t) as Hp3 by (by apply pos_flags). assert (it_eof it3 = false) as He3 by done. assert (just_seeked it3 = false) as Hj3 by done.
  destruct t as [key compr cs ts]. destruct (pos_node _ _ _ _ _ _ _ _ _ Hp3) as (n & kds & E & Hrep). change (it_node it3) with (it_node it2) in E. rewrite E. cbn [mbind option_bind].
  rewrite length_app, (nr_compr _ _ _ _ _ Hrep), (nr_size _ _ _ _ _ Hrep). clear E2 Hh Hs Hk Hp.
  inversion Hst as [t0|key' c1 y c2 u r0 Hne Hhd|key' cs' ts' c r0 Hc]; subst.
  - destruct (mismatch_end it3 fs Hf He3 Hj3 key compr cs ts [] 0 n lt _ Hp3 E eq_refl) as (A & E' & B & Hsp & Hla); [by left|]. exists A, E', B. split; [done|].
    simpl length. replace (_ =? _) with true by lia. cbn [negb andb]. rewrite (nr_compr _ _ _ _ _ Hrep) in Hla. apply (landed_seeked _ _ _ Hla He3).
  - rewrite length_app. cbn [negb andb]. rewrite andb_false_r. destruct r0 as [|z r0].
    + rewrite app_nil_r in *. simpl length. replace (_ =? _) with true by lia. cbn [negb andb].
      destruct (mismatch_end it3 fs Hf He3 Hj3 key true (c1 ++ y :: c2) [u] c1 (Z.of_nat (length c1)) n lt _ Hp3 E eq_refl) as (A & E' & B & Hsp & Hla).
      { right. split; [done|]. split; [done|]. split; [destruct c1; [done|simpl; lia]|]. by exists (y :: c2). }
      exists A, E', B. split; [done|]. rewrite (nr_compr _ _ _ _ _ Hrep) in Hla. apply (landed_seeked _ _ _ Hla He3).
    + simpl length. replace (_ =? _) with false by lia. cbn [negb andb].
      destruct (mismatch_compr it3 fs Hf He3 Hj3 key c1 y c2 u z r0 lt _ Hp3 (Hhd z eq_refl) eq_refl) as (A & B & Hsp & Hla). exists A, [], B. split; [done|].
      pose proof Hrep as [_ (slack & L) _ _]. pose proof (read_chars _ _ _ _ _ L) as Hrd. rewrite (nr_size _ _ _ _ _ Hrep) in Hrd. rewrite Hrd. destruct L as [_ _ _ _ (pad & Ed & _)]. rewrite Ed.
      rewrite <- app_assoc. cbn [app]. rewrite (get_app c1 y) by done. cbn [mbind option_bind]. rewrite (app_assoc (path fs)), (get_app (path fs ++ c1) z) by (rewrite length_app; lia). cbn [mbind option_bind].
      apply (landed_seeked _ _ _ Hla He3).
  - cbn [negb andb]. simpl length. replace (_ =? _) with false by lia. cbn [negb andb].
    destruct (mismatch_node it3 fs Hf He3 Hj3 key cs ts c r0 lt _ Hp3 Hc eq_refl) as (A & B & Hsp & Hla). exists A, [], B. split; [done|].
    rewrite Z.add_0_r. change (c :: r0) with ([c] ++ r0). rewrite (slice_app (path fs) [c] r0) by (simpl; lia). cbn [mbind option_bind]. apply (landed_seeked _ _ _ Hla He3).
Qed.
(** The numbers of keys before a string, and up to it. *)
Definition keys_lt (l : list (list Z * Z)) (s : list Z) : nat := length (filter (fun kv => slt (fst kv) s) l).
Definition keys_le (l : list (list Z * Z)) (s : list Z) : nat := length (filter (fun kv => ~ slt s (fst kv)) l).

Lemma count_all {A} (P : A -> Prop) `{!forall x, Decision (P x)} l : Forall P l -> length (filter P l) = length l.
Proof. induction 1 as [|x l Hx Hl IH]; [done|]. rewrite filter_cons_True by done. simpl. by rewrite IH. Qed.

Lemma count_none {A} (P : A -> Prop) `{!forall x, Decision (P x)} l : Forall (fun x => ~ P x) l -> length (filter P l) = 0%nat.
Proof. induction 1 as [|x l Hx Hl IH]; [done|]. by rewrite filter_cons_False. Qed.

Lemma splits_count l s A E B : splits l s A E B -> keys_lt l s = length A /\ keys_le l s = length (A ++ E).
Proof.
  intros [-> HA HE HB]. unfold keys_lt, keys_le. rewrite !filter_app, !length_app. split.
  - rewrite (count_all _ A HA), (count_none _ E), (count_none _ B); [lia| |]; (eapply Forall_impl; [eassumption|]); intros [k v]; simpl; [apply slt_asym|intros ->; apply slt_irrefl].
  - rewrite (count_all _ A), (count_all _ E), (count_none _ B); [lia| | |]; (eapply Forall_impl; [eassumption|]); intros [k v]; simpl; [tauto|intros ->; apply slt_irrefl|apply slt_asym].
Qed.

(** ** The cursor *)

Inductive seek_op := SeekGt | SeekGe | SeekLt | SeekLe | SeekEq | SeekFirst | SeekLast.

Definition op_string (o : seek_op) : list Z :=
  match o with SeekGt => [62] | SeekGe => [62; 61] | SeekLt => [60] | SeekLe => [60; 61] | SeekEq => [61] | SeekFirst => [94] | SeekLast => [36] end.

(** The index of the key an operator names, in the sorted list of the keys. *)
Definition cursor_seek (l : list (list Z * Z)) (o : seek_op) (s : list Z) : option nat :=
  let from i := if (i <? length l)%nat then Some i else None in
  let upto i := match i with O => None | S i => Some i end in
  match o with
  | SeekGt => from (keys_le l s)
  | SeekGe => from (keys_lt l s)
  | SeekLt => upto (keys_lt l s)
  | SeekLe => upto (keys_le l s)
  | SeekEq => if (keys_lt l s =? keys_le l s)%nat then None else Some (keys_lt l s)
  | SeekFirst => from 0%nat
  | SeekLast => upto (length l)
  end.

Context (Hh : hole H r [] (rhead r) [] T) (Hw : wf T) (Hn : numele r = Z.of_nat (length (titems T))).

Lemma splits_absent s A E B : splits (titems T) s A E B -> tfind T s = None -> E = [].
Proof.
  intros [Hl _ HE _] Hs. destruct E as [|[k v] E]; [done|]. apply Forall_cons in HE as [Hk _]. simpl in Hk. subst k.
  assert ((s, v) ∈ titems T) as Hin by (rewrite Hl; set_solver). apply (titems_find T Hw) in Hin. congruence.
Qed.

(** The key an operator other than equality names, when the string was not found or is excluded. *)
Lemma cursor_target s A E B (gt : bool) (o : seek_op) : splits (titems T) s A E B -> o = (if gt then SeekGt else SeekLt) \/ o = (if gt then SeekGe else SeekLe) /\ E = [] ->
  cursor_seek (titems T) o s = target gt A E B.
Proof.
  intros Hsp Ho. destruct (splits_count _ _ _ _ _ Hsp) as [Hlt Hle]. pose proof (split_app _ _ _ _ _ Hsp) as Hl. apply (f_equal length) in Hl.
  destruct Ho as [->|[-> ->]], gt; cbn [cursor_seek]; rewrite ?Hlt, ?Hle; unfold target; rewrite ?length_app in *; rewrite ?length_app in Hl.
  1,3: destruct B; simpl in *; destruct (Nat.ltb_spec (length A + length E) (length (titems T))) || destruct (Nat.ltb_spec (length A) (length (titems T))); try lia; rewrite ?app_nil_r, ?length_app; done || (f_equal; lia).
  all: destruct A; simpl; rewrite ?Nat.sub_0_r, ?Nat.add_0_r; done.
Qed.

(** A lookup of a string, then the way to the key the operator names. *)
Lemma seek_walk_spec it s o eq lt gt : it_eof it = false -> just_seeked it = true -> key_is it [] ->
  In (o, eq, lt, gt) [(SeekGt, false, false, true); (SeekGe, true, false, true); (SeekLt, false, true, false); (SeekLe, true, true, false); (SeekEq, true, false, false)] ->
  seeked (cursor_seek (titems T) o s) (seek_walk H r it s eq lt gt).
Proof.
  intros He Hj Hk Ho. unfold seek_walk. destruct (raxLowWalk_spec H r T s Hh Hw) as (fs & x & stk & t' & s' & j & -> & Hh' & Hw' & Hf & Hl & Hpl & -> & Hst). cbn [mbind option_bind w_i w_j w_stop w_stack].
  set (it1 := set_it_node _ x). assert (stack_is it1 stk) as Hs1 by (split; [done|]; by exists (drop (length stk) (it_stack it))).
  assert (key_is it1 []) as Hk1 by exact Hk. destruct (stop_test H r fs x stk t' s' j Hh' Hw' Hf Hst) as (n & En & Htest & Hv). rewrite Hpl in Htest, Hv.
  change (it_node it1) with x. rewrite En. cbn [mbind option_bind].
  set (hit := (Z.of_nat (length (path fs)) + j =? Z.of_nat (length (path fs ++ s'))) && (negb (iscompr n) || (j =? 0)) && iskey n).
  assert (hit = negb (bool_decide (tfind T (path fs ++ s') = None))) as Hhit by (rewrite <- Htest; unfold hit; destruct (_ =? Z.of_nat (length (path fs ++ s'))), (iscompr n), (j =? 0), (iskey n); done).
  rewrite <- !andb_assoc. rewrite (andb_assoc (_ =? _)). fold hit. rewrite Hhit. destruct (tfind T (path fs ++ s')) as [v|] eqn:Ev.
  - rewrite bool_decide_false by done. cbn [negb]. rewrite andb_true_r. destruct (Hv v eq_refl) as (-> & Hkey & Hd). rewrite app_nil_r in *. destruct eq.
    + destruct (add_chars_spec it1 [] (path fs) Hk1) as (h & buf & -> & rest & ->). cbn [mbind option_bind app]. rewrite Hd. cbn [mbind option_bind].
      assert (cursor_seek (titems T) o (path fs) = Some (length (before fs))) as ->.
      { pose proof (splits_here fs Hf t' Hw') as Hsp. rewrite Hpl, Hkey in Hsp. destruct (splits_count _ _ _ _ _ Hsp) as [Hlt Hle]. pose proof (split_app _ _ _ _ _ Hsp) as Hln. apply (f_equal length) in Hln.
        rewrite !length_app, length_fmap in Hln. rewrite length_app, length_fmap in Hle. simpl in Hln, Hle.
        destruct Ho as [Ho|[Ho|[Ho|[Ho|[Ho|[]]]]]]; inversion Ho; subst o lt gt; cbn [cursor_seek]; rewrite ?Hlt, ?Hle.
        - destruct (Nat.ltb_spec (length (before fs)) (length (titems T))); [done|lia].
        - by rewrite Nat.add_1_r.
        - destruct (Nat.eqb_spec (length (before fs)) (length (before fs) + 1)); [lia|done]. }
      eexists. split; [done|]. split; [done|]. split; [done|]. exists fs, t', v. split_and!; try done. split; try done; [by exists stk|]. split; [done|]. by exists rest.
    + cbn [andb]. destruct Ho as [Ho|[Ho|[Ho|[Ho|[Ho|[]]]]]]; inversion Ho; subst o lt gt; cbn [orb].
      * destruct (seek_mismatch_spec it1 fs t' [] stk j false true Hh' Hs1 Hk1 Hf Hw' Hl Hpl Hst He eq_refl) as (A & E & B & Hsp & Hse). rewrite app_nil_r in Hsp, Hse.
        rewrite (cursor_target _ A E B true) by auto. exact Hse.
      * destruct (seek_mismatch_spec it1 fs t' [] stk j true false Hh' Hs1 Hk1 Hf Hw' Hl Hpl Hst He eq_refl) as (A & E & B & Hsp & Hse). rewrite app_nil_r in Hsp, Hse.
        rewrite (cursor_target _ A E B false) by auto. exact Hse.
  - rewrite bool_decide_true by done. cbn [negb]. rewrite !andb_false_r.
    destruct Ho as [Ho|[Ho|[Ho|[Ho|[Ho|[]]]]]]; inversion Ho; subst o eq lt gt; cbn [orb].
    1,2: destruct (seek_mismatch_spec it1 fs t' s' stk j false true Hh' Hs1 Hk1 Hf Hw' Hl Hpl Hst He eq_refl) as (A & E & B & Hsp & Hse); pose proof (splits_absent _ _ _ _ Hsp Ev) as ->;
      rewrite (cursor_target _ A [] B true) by auto; exact Hse.
    1,2,3: destruct (seek_mismatch_spec it1 fs t' s' stk j true false Hh' Hs1 Hk1 Hf Hw' Hl Hpl Hst He eq_refl) as (A & E & B & Hsp & Hse); pose proof (splits_absent _ _ _ _ Hsp Ev) as ->.
    1,2: rewrite (cursor_target _ A [] B false) by auto; exact Hse.
    destruct (splits_count _ _ _ _ _ Hsp) as [Hlt Hle]. cbn [cursor_seek]. rewrite Hlt, Hle, app_nil_r, Nat.eqb_refl. eexists. split; [done|]. done.
Qed.

Lemma seek_last it : it_eof it = false -> just_seeked it = true -> key_is it [] -> stack_is it [] -> titems T <> [] ->
  exists it', (it ← raxSeekGreatest H (set_it_node it (rhead r)); n ← H !! it_node it; if iskey n then d ← raxGetData n; Some (set_it_data it d, 1) else None) = Some (it', 1) /\
    just_seeked it' = true /\ it_eof it' = false /\ at_index it' (length (titems T) - 1).
Proof.
  intros He Hj Hk Hs Hne. assert (pos H r T (set_it_node it (rhead r)) [] T) as Hp by (split; try done; [by exists []|by left]).
  assert (live T) as Hli. { destruct T as [[v|] compr cs ts]; [by left; eauto|]. right. intros ->. destruct compr; [done|]. rewrite titems_node in Hne. by destruct cs. }
  unfold raxSeekGreatest. destruct (seek_greatest_spec H r T (S (size H)) _ [] T Hp Hli) as (it2 & fs2 & v & -> & Hp2 & Hbe & Hj2 & He2).
  { pose proof (hole_bound _ _ _ _ _ _ Hh). simpl in *. lia. }
  cbn [mbind option_bind]. destruct (pos_node _ _ _ _ _ _ _ _ _ Hp2) as (n2 & kd2 & -> & Hrep2). cbn [mbind option_bind]. rewrite (nr_key _ _ _ _ _ Hrep2), bool_decide_true by eauto.
  rewrite (raxGetData_spec _ _ _ _ _ Hrep2). cbn [mbind option_bind]. eexists. split; [done|]. split; [cbn; by rewrite Hj2|]. split; [cbn; by rewrite He2|].
  exists fs2, (RT (Some v) false [] []), v. split; [by apply pos_data|]. split_and!; try done. apply (f_equal length) in Hbe. rewrite !length_app, length_fmap in Hbe. simpl in Hbe. lia.
Qed.

(** ** The calls *)

Lemma seek_zero fuel it op s : exists it0, it_eof it0 = false /\ just_seeked it0 = true /\ key_is it0 [] /\ stack_is it0 [] /\
  seek (S fuel) H r it op s =
    (let op0 := default 0 (op !! 0%nat) in let op1 := default 0 (op !! 1%nat) in
     let gt := op0 =? 62 in let lt := op0 =? 60 in let eq := (op0 =? 61) || ((gt || lt) && (op1 =? 61)) in let first := op0 =? 94 in let last := op0 =? 36 in
     if negb (gt || lt || eq || first || last) then Some (it0, 0) else
     if numele r =? 0 then Some (set_flags it0 true true, 1) else
     if first then seek fuel H r it0 [62; 61] [] else
     if last then it ← raxSeekGreatest H (set_it_node it0 (rhead r)); n ← H !! it_node it; if iskey n then d ← raxGetData n; Some (set_it_data it d, 1) else None
     else it ← seek_walk H r it0 s eq lt gt; Some (it, 1)).
Proof. eexists. split_and!; [..|reflexivity]; try done; split; try done; by eexists. Qed.

Lemma raxSeek_spec it o s : exists it', raxSeek H r it (op_string o) s = Some (it', 1) /\ just_seeked it' = true /\
  match cursor_seek (titems T) o s with Some i => it_eof it' = false /\ at_index it' i | None => it_eof it' = true end.
Proof.
  unfold raxSeek. destruct (seek_zero 1 it (op_string o) s) as (it0 & He & Hj & Hk & Hs & ->). destruct (Z.eqb_spec (numele r) 0) as [Hz|Hz].
  - assert (titems T = []) as -> by (apply nil_length_inv; lia). exists (set_flags it0 true true). destruct o; done.
  - assert (titems T <> []) as Hne by (intros E; rewrite E in Hn; simpl in Hn; lia). assert (length (titems T) <> 0)%nat as Hln by (by destruct (titems T)).
    assert (forall o' eq lt gt it0 s, it_eof it0 = false -> just_seeked it0 = true -> key_is it0 [] -> In (o', eq, lt, gt) [(SeekGt, false, false, true); (SeekGe, true, false, true); (SeekLt, false, true, false); (SeekLe, true, true, false); (SeekEq, true, false, false)] ->
      exists it', (it ← seek_walk H r it0 s eq lt gt; Some (it, 1)) = Some (it', 1) /\ just_seeked it' = true /\ match cursor_seek (titems T) o' s with Some i => it_eof it' = false /\ at_index it' i | None => it_eof it' = true end) as Hwalk.
    { intros o' eq lt gt it1 s1 He1 Hj1 Hk1 Ho. destruct (seek_walk_spec it1 s1 o' eq lt gt He1 Hj1 Hk1 Ho) as (it' & -> & Hr). by exists it'. }
    destruct o; [refine (Hwalk SeekGt false false true it0 s He Hj Hk _)|refine (Hwalk SeekGe true false true it0 s He Hj Hk _)|refine (Hwalk SeekLt false true false it0 s He Hj Hk _)|
      refine (Hwalk SeekLe true true false it0 s He Hj Hk _)|refine (Hwalk SeekEq true false false it0 s He Hj Hk _)| |]; [simpl; auto 10..| |].
    + destruct (seek_zero 0 it0 [62; 61] []) as (it2 & He2 & Hj2 & Hk2 & Hs2 & E2). replace (numele r =? 0) with false in E2 by lia.
      destruct (Hwalk SeekGe true false true it2 [] He2 Hj2 Hk2) as (it' & E' & Hj' & Hr'); [simpl; auto|]. exists it'. split; [exact (eq_trans E2 E')|]. split; [done|]. cbn [cursor_seek] in Hr' |- *.
      replace (keys_lt (titems T) []) with 0%nat in Hr'; [done|]. unfold keys_lt. rewrite count_none; [done|]. apply Forall_forall. intros [[|? ?] v] _; simpl; tauto.
    + destruct (seek_last it0 He Hj Hk Hs Hne) as (it' & El & Hj' & He' & Ha). exists it'. split; [exact El|]. split; [done|]. cbn [cursor_seek]. destruct (length (titems T)); [done|]. simpl in Ha. rewrite Nat.sub_0_r in Ha. done.
Qed.
End Seek.

(** ** Sequences of calls on an iterator *)

Inductive iter_op := IterSeek (o : seek_op) (s : list Z) | IterNext | IterPrev.

Record cursor := mk_cursor { c_seeked : bool; c_eof : bool; c_pos : nat }.

(** A step to the index [o]: the key just sought is given first, and the end is final. *)
Definition cursor_move (l : list (list Z * Z)) (c : cursor) (o : option nat) : cursor * (Z * option (list Z * Z)) :=
  if c_eof c then (c, (0, None)) else
  match (if c_seeked c then Some (c_pos c) else o) with
  | Some i => (mk_cursor false false i, (1, l !! i))
  | None => (mk_cursor false true (c_pos c), (0, None))
  end.

(** What a call returns, and the key and value it gives. *)
Definition cursor_step (l : list (list Z * Z)) (c : cursor) (op : iter_op) : cursor * (Z * option (list Z * Z)) :=
  match op with
  | IterSeek o s => (match cursor_seek l o s with Some i => mk_cursor true false i | None => mk_cursor true true (c_pos c) end, (1, None))
  | IterNext => cursor_move l c (if l !! S (c_pos c) then Some (S (c_pos c)) else None)
  | IterPrev => cursor_move l c (match c_pos c with O => None | S i => Some i end)
  end.

Fixpoint cursor_run (l : list (list Z * Z)) (c : cursor) (ops : list iter_op) : list (Z * option (list Z * Z)) :=
  match ops with
  | [] => []
  | op :: ops => let '(c, x) := cursor_step l c op in x :: cursor_run l c ops
  end.

Section Run.
Context `{alloc : RaxAlloc}.

Definition observe (it : raxIterator) (rc : Z) : option (raxIterator * (Z * option (list Z * Z))) :=
  if rc =? 0 then Some (it, (rc, None)) else k ← slice (key_buf it) 0 (key_len it); Some (it, (rc, Some (k, it_data it))).

Definition iter_step (H : heap) (r : rax) (it : raxIterator) (op : iter_op) : option (raxIterator * (Z * option (list Z * Z))) :=
  match op with
  | IterSeek o s => '(it, rc) ← raxSeek H r it (op_string o) s; Some (it, (rc, None))
  | IterNext => '(it, rc) ← raxNext H r it; observe it rc
  | IterPrev => '(it, rc) ← raxPrev H r it; observe it rc
  end.

Fixpoint iter_run (H : heap) (r : rax) (it : raxIterator) (ops : list iter_op) : option (list (Z * option (list Z * Z))) :=
  match ops with
  | [] => Some []
  | op :: ops => '(it, x) ← iter_step H r it op; out ← iter_run H r it ops; Some (x :: out)
  end.

Section Refine.
Context (H : heap) (r : rax) (T : rtree) (HT : short_tree T) (Hh : hole H r [] (rhead r) [] T) (Hw : wf T) (Hn : numele r = Z.of_nat (length (titems T))).

Definition cursor_rep (it : raxIterator) (c : cursor) : Prop :=
  it_eof it = c_eof c /\ just_seeked it = c_seeked c /\ (c_eof c = false -> at_index H r T it (c_pos c)).

Lemma observe_at it i : at_index H r T it i -> observe it 1 = Some (it, (1, titems T !! i)).
Proof.
  intros (k & v & -> & [Hkl (rest & Hkb)] & Hd)%at_index_key. unfold observe. cbn [Z.eqb]. rewrite Hkb, Hkl, (slice_app [] k rest) by (simpl; lia). cbn [mbind option_bind]. by rewrite Hd.
Qed.

(** A step in either direction. *)
Lemma step_refines it c o res : cursor_rep it c -> (c_eof c = false -> c_seeked c = false -> landed H r T it o res) ->
  res = (if it_eof it then Some it else if just_seeked it then Some (set_flags it false (it_eof it)) else res) ->
  exists it', ('(it, rc) ← (it ← res; Some (it, if it_eof it then 0 else 1)); observe it rc) = Some (it', snd (cursor_move (titems T) c o)) /\
    cursor_rep it' (fst (cursor_move (titems T) c o)).
Proof.
  intros (He & Hj & Ha) Hl Hres. rewrite He, Hj in Hres. unfold cursor_move. destruct (c_eof c) eqn:Ec.
  { rewrite Hres. cbn [mbind option_bind]. rewrite He. exists it. split; [done|]. split; [cbn; congruence|]. split; [done|cbn; congruence]. }
  specialize (Ha eq_refl). destruct (c_seeked c) eqn:Es.
  - assert (at_index H r T (set_flags it false false) (c_pos c)) as Ha' by (destruct Ha as (fs & t & v & Hp & Hr); exists fs, t, v; split; [by apply pos_flags|done]).
    rewrite Hres. cbn [mbind option_bind it_eof set_flags fst snd]. rewrite (observe_at _ _ Ha'). eexists. by split.
  - destruct (Hl eq_refl eq_refl) as (it' & -> & Hj' & Ho). cbn [mbind option_bind]. rewrite Hj in Hj'. destruct o as [i|]; cbn [fst snd].
    + destruct Ho as [He' Ha']. rewrite He in He'. rewrite He', (observe_at _ _ Ha'). eexists. by split.
    + rewrite Ho. eexists. by split.
Qed.

Lemma iter_refines ops : forall it c, cursor_rep it c -> iter_run H r it ops = Some (cursor_run (titems T) c ops).
Proof.
  induction ops as [|op ops IH]; intros it c Hc; [done|]. cbn [iter_run cursor_run]. destruct op as [o s| |]; cbn [iter_step cursor_step].
  - destruct (raxSeek_spec H r T HT Hh Hw Hn it o s) as (it' & -> & Hj & Ho). cbn [mbind option_bind].
    destruct (cursor_seek (titems T) o s) as [i|]; [rewrite (IH _ (mk_cursor true false i))|rewrite (IH _ (mk_cursor true true (c_pos c)))]; try done.
    by destruct Ho.
  - destruct (step_refines it c (if titems T !! S (c_pos c) then Some (S (c_pos c)) else None) (raxIteratorNextStep H r it false) Hc) as (it' & E & Hc').
    { destruct Hc as (He & Hj & Ha). intros H1 H2. apply (next_landed H r T HT it (c_pos c)); [by apply Ha|congruence|congruence]. }
    { unfold raxIteratorNextStep. by destruct (it_eof it), (just_seeked it). }
    unfold raxNext. rewrite E. cbn [mbind option_bind]. rewrite (IH _ _ Hc'). cbn [mbind option_bind]. by destruct (cursor_move _ _ _).
  - destruct (step_refines it c (match c_pos c with O => None | S i => Some i end) (raxIteratorPrevStep H r it false) Hc) as (it' & E & Hc').
    { destruct Hc as (He & Hj & Ha). intros H1 H2. apply (prev_landed H r T HT it (c_pos c)); [by apply Ha|congruence|congruence]. }
    { unfold raxIteratorPrevStep. by destruct (it_eof it), (just_seeked it). }
    unfold raxPrev. rewrite E. cbn [mbind option_bind]. rewrite (IH _ _ Hc'). cbn [mbind option_bind]. by destruct (cursor_move _ _ _).
Qed.
End Refine.
End Run.

(** C8. Iterating over a tree built by any sequence of insertions and removals that
    cannot make 2^48 nodes: any sequence of [raxSeek] calls with the operators [>], [>=], [<], [<=], [=], [^] and [$],
    [raxNext] and [raxPrev] on one iterator returns what a cursor over the list
    of the map's keys, sorted as by [memcmp], returns.  A seek goes to the key
    its operator names, the first step after it stays there, and the steps
    visit the neighbours in either direction until the end. *)
Theorem rax_iterator_refines_cursor `{alloc : RaxAlloc} {alloc_ok : RaxAllocOk} (ops : list rax_op) (node0 : Z) (its : list iter_op) :
  Forall op_ok ops -> Z.of_nat (sum_list (op_nodes <$> ops)) + 2 < 2 ^ 48 ->
  exists H r out l, rax_run (fst (raxNew ∅)) (snd (raxNew ∅)) ops = Some (H, r, out) /\
    l ≡ₚ map_to_list (fst (map_run ∅ ops)) /\ StronglySorted slt l.*1 /\
    iter_run H r (raxStart node0) its = Some (cursor_run l (mk_cursor false true 0) its).
Proof.
  intros Ho Hsz. destruct (run_new ops Ho Hsz) as (H & r & E & (t & Hh & Hw & HM & Hn) & Hk).
  pose proof (titems_sorted t Hw) as Hs. pose proof (titems_perm t _ Hw HM) as Hperm. exists H, r, (snd (map_run ∅ ops)), (titems t). split; [done|]. split; [done|]. split; [done|].
  apply iter_refines; [intros s; rewrite HM; apply Hk|done|done| |done]. rewrite Hn, Hperm. by rewrite length_map_to_list.
Qed.

Definition demo_its : list iter_op :=
  [IterNext; IterSeek SeekGt [102; 111; 111]; IterNext; IterPrev; IterPrev; IterPrev; IterNext; IterSeek SeekLe [102; 111]; IterPrev; IterSeek SeekLast []; IterPrev; IterNext; IterSeek SeekEq [102]; IterNext].

Lemma rax_iterator_refines_cursor_witness : exists H r out l, rax_run (fst (raxNew ∅)) (snd (raxNew ∅)) demo_ops = Some (H, r, out) /\
  l ≡ₚ map_to_list (fst (map_run ∅ demo_ops)) /\ iter_run H r (raxStart 77) demo_its = Some (cursor_run l (mk_cursor false true 0) demo_its).
Proof.
  destruct (rax_iterator_refines_cursor demo_ops 77 demo_its) as (H & r & out & l & E & Hl & _ & Hi).
  - ops_ok.
  - vm_compute. reflexivity.
  - exists H, r, out, l. split; [exact E|]. split; [exact Hl|exact Hi].
Defined.

(** The cursor of that witness visits these keys. *)
Lemma demo_cursor : cursor_run [([], 9); ([102; 111; 111], 0); ([102; 111; 111; 116; 101; 114], 8)] (mk_cursor false true 0) demo_its =
  [(0, None); (1, None); (1, Some ([102; 111; 111; 116; 101; 114], 8)); (1, Some ([102; 111; 111], 0)); (1, Some ([], 9)); (0, None); (0, None);
   (1, None); (1, Some ([], 9)); (1, None); (1, Some ([102; 111; 111; 116; 101; 114], 8)); (0, None); (1, None); (0, None)].
Proof. vm_compute. reflexivity. Qed.

(** ** Comparison *)

Lemma slt_sdscmp a : forall b, slt a b <-> sdscmp a b < 0.
Proof.
  induction a as [|x a IH]; intros [|y b].
  - rewrite sdscmp_refl. simpl. lia.
  - rewrite sdscmp_nil_cons. simpl. lia.
  - rewrite sdscmp_cons_nil. simpl. lia.
  - rewrite sdscmp_cons. cbn [slt]. rewrite IH. destruct (Z.ltb_spec x y), (Z.ltb_spec y x); lia.
Qed.

Lemma memcmp_take n : forall a b, memcmp n (take n a) b = memcmp n a b.
Proof. induction n as [|n IH]; intros [|x a] [|y b]; try done. cbn [take memcmp]. by rewrite IH. Qed.

Lemma sdscmp_pos a b : 0 < sdscmp a b <-> slt b a.
Proof. rewrite slt_sdscmp, sdscmp_opp. lia. Qed.

Lemma sdscmp_zero a b : sdscmp a b = 0 <-> a = b.
Proof. split; [apply sdscmp_eq0|intros ->; apply sdscmp_refl]. Qed.

(** The comparison of [raxCompare] is the one of [sdscmp]. *)
Lemma compare_sdscmp it k s (eq lt gt : bool) : key_is it k -> lt && gt = false ->
  exists x cmp, slice (key_buf it) 0 (if Z.of_nat (length s) <? key_len it then Z.of_nat (length s) else key_len it) = Some x /\
    cmp = memcmp (Z.to_nat (if Z.of_nat (length s) <? key_len it then Z.of_nat (length s) else key_len it)) x s /\
    (if negb lt && negb gt then (cmp =? 0) && (Z.of_nat (length s) =? key_len it)
     else if cmp =? 0 then if eq && (Z.of_nat (length s) =? key_len it) then true else if lt then key_len it <? Z.of_nat (length s) else key_len it >? Z.of_nat (length s)
     else if cmp >? 0 then gt else lt) =
    (if negb lt && negb gt then sdscmp k s =? 0 else if sdscmp k s =? 0 then eq else if sdscmp k s >? 0 then gt else lt).
Proof.
  intros [Hkl (rest & Hkb)] Hlg. rewrite Hkl, Hkb. set (m := if Z.of_nat (length s) <? Z.of_nat (length k) then Z.of_nat (length s) else Z.of_nat (length k)).
  assert (m = (if Z.of_nat (length k) <? Z.of_nat (length s) then Z.of_nat (length k) else Z.of_nat (length s))) as Hm by (unfold m; destruct (Z.ltb_spec (Z.of_nat (length s)) (Z.of_nat (length k))), (Z.ltb_spec (Z.of_nat (length k)) (Z.of_nat (length s))); lia).
  assert (0 <= m <= Z.of_nat (length k)) as Hmk by (unfold m; destruct (Z.ltb_spec (Z.of_nat (length s)) (Z.of_nat (length k))); lia).
  assert (slice (k ++ rest) 0 m = Some (take (Z.to_nat m) k)) as ->.
  { replace (k ++ rest) with ([] ++ take (Z.to_nat m) k ++ (drop (Z.to_nat m) k ++ rest)) by (cbn [app]; by rewrite app_assoc, take_drop). apply slice_app; [done|]. rewrite length_take. lia. }
  exists (take (Z.to_nat m) k), (memcmp (Z.to_nat m) k s). rewrite memcmp_take. split; [done|]. split; [done|].
  unfold sdscmp. rewrite <- Hm. set (c := memcmp _ k s). destruct (Z.eqb_spec c 0) as [->|Hc]; [|destruct (Z.eqb_spec c 0); done].
  destruct (Z.ltb_spec (Z.of_nat (length s)) (Z.of_nat (length k))), (Z.ltb_spec (Z.of_nat (length k)) (Z.of_nat (length s))); try lia;
    destruct (Z.eqb_spec (Z.of_nat (length s)) (Z.of_nat (length k))); destruct lt, gt, eq; try done; simpl; lia.
Qed.

Ltac cmp_case it k s Hk eq lt gt :=
  let x := fresh in let c := fresh in let Hb := fresh in
  destruct (compare_sdscmp it k s eq lt gt Hk eq_refl) as (x & c & -> & -> & Hb); cbn in Hb |- *; rewrite Hb; clear Hb; do 2 f_equal;
  destruct (Z.eqb_spec (sdscmp k s) 0), (sdscmp k s >? 0) eqn:?; case_bool_decide; simpl; done || lia.

(** [raxCompare] on an iterator at the key [k] decides the order of [k] and the
    string it is given, the same one the iteration follows; unlike [raxSeek] it
    takes the operator [=] written with one character as an error and returns 0. *)
Theorem raxCompare_correct (it : raxIterator) (k s : list Z) : key_is it k ->
  raxCompare it [62] s = Some (b2z (bool_decide (slt s k))) /\ raxCompare it [62; 61] s = Some (b2z (bool_decide (~ slt k s))) /\
  raxCompare it [60] s = Some (b2z (bool_decide (slt k s))) /\ raxCompare it [60; 61] s = Some (b2z (bool_decide (~ slt s k))) /\
  raxCompare it [61; 61] s = Some (b2z (bool_decide (k = s))) /\ raxCompare it [61] s = Some 0.
Proof.
  intros Hk. pose proof (slt_sdscmp k s) as H1. pose proof (sdscmp_pos k s) as H2. pose proof (sdscmp_zero k s) as H3. unfold raxCompare. cbn.
  rewrite !bool_decide_not, <- (bool_decide_ext _ _ H2), (bool_decide_ext _ _ H1), <- (bool_decide_ext _ _ H3). split_and!; [| | | | |done].
  - cmp_case it k s Hk false false true.
  - cmp_case it k s Hk true false true.
  - cmp_case it k s Hk false true false.
  - cmp_case it k s Hk true true false.
  - cmp_case it k s Hk true false false.
Qed.

Lemma raxCompare_correct_witness : let it := set_key_len (set_buf (raxStart 0) true [102; 111; 98]) 2 in
  key_is it [102; 111] /\ raxCompare it [62; 61] [102; 97; 97] = Some 1 /\ raxCompare it [61] [102; 111] = Some 0.
Proof.
  assert (key_is (set_key_len (set_buf (raxStart 0) true [102; 111; 98]) 2) [102; 111]) as Hk by (split; [reflexivity|exists [98]; reflexivity]).
  destruct (raxCompare_correct _ [102; 111] [102; 97; 97] Hk) as (_ & Hge & _). destruct (raxCompare_correct _ [102; 111] [102; 111] Hk) as (_ & _ & _ & _ & _ & Heq).
  split; [exact Hk|]. split; [rewrite Hge; vm_compute; reflexivity|exact Heq].
Defined.
