(* ===== verification/Bitops.v ===== *)
(** * Bitmaps ([bitops.c])

    Bit counting, bit search and integers of any width inside a string of bytes,
    and the commands SETBIT, GETBIT, BITOP, BITCOUNT, BITPOS, BITFIELD and
    BITFIELD_RO that use them.  Bit 0 of a string is the most significant bit of
    its first byte.  [None] is a failed assertion, a read or a write outside a
    string, or a missing argument (the number of arguments is checked before a
    command is called).

    A command is a computation on the server: the live keys with their values,
    the counter [server.dirty] that decides whether the command is propagated,
    and the keys signalled as modified.  It may end early with a reply.
    Expiration, statistics and keyspace events are left out.

    The configuration [proto_max_bulk_len], whether the client must be obeyed
    (a master or the append only file), the byte order, whether words are read
    only at aligned addresses, the addresses of the buffers and the content of
    uninitialised memory are arguments. *)

From Stdlib Require Import ZArith Lia ZifyBool String.
From stdpp Require Import base gmap numbers option list.
From S2P Require Import Prelude Numstr Strobj.

Local Open Scope Z_scope.

(** ** Counting bits *)

Definition bitsinbyte : list Z :=
  [0; 1; 1; 2; 1; 2; 2; 3; 1; 2; 2; 3; 2; 3; 3; 4; 1; 2; 2; 3; 2; 3; 3; 4; 2; 3; 3; 4; 3; 4; 4; 5;
   1; 2; 2; 3; 2; 3; 3; 4; 2; 3; 3; 4; 3; 4; 4; 5; 2; 3; 3; 4; 3; 4; 4; 5; 3; 4; 4; 5; 4; 5; 5; 6;
   1; 2; 2; 3; 2; 3; 3; 4; 2; 3; 3; 4; 3; 4; 4; 5; 2; 3; 3; 4; 3; 4; 4; 5; 3; 4; 4; 5; 4; 5; 5; 6;
   2; 3; 3; 4; 3; 4; 4; 5; 3; 4; 4; 5; 4; 5; 5; 6; 3; 4; 4; 5; 4; 5; 5; 6; 4; 5; 5; 6; 5; 6; 6; 7;
   1; 2; 2; 3; 2; 3; 3; 4; 2; 3; 3; 4; 3; 4; 4; 5; 2; 3; 3; 4; 3; 4; 4; 5; 3; 4; 4; 5; 4; 5; 5; 6;
   2; 3; 3; 4; 3; 4; 4; 5; 3; 4; 4; 5; 4; 5; 5; 6; 3; 4; 4; 5; 4; 5; 5; 6; 4; 5; 5; 6; 5; 6; 6; 7;
   2; 3; 3; 4; 3; 4; 4; 5; 3; 4; 4; 5; 4; 5; 5; 6; 3; 4; 4; 5; 4; 5; 5; 6; 4; 5; 5; 6; 5; 6; 6; 7;
   3; 4; 4; 5; 4; 5; 5; 6; 4; 5; 5; 6; 5; 6; 6; 7; 4; 5; 5; 6; 5; 6; 6; 7; 5; 6; 6; 7; 6; 7; 7; 8].

Section Words.
Context (little : bool).

(** [n] bytes of [s] from [i] on, as an unsigned integer. *)
Definition load (n : Z) (s : list Z) (i : Z) : option Z :=
  b ← slice s i n; Some (le_val (if little then b else rev b)).

Fixpoint popcount_head (p : Z) (s : list Z) (count bits : Z) : option (list Z * Z * Z) :=
  if (Z.land p 3 =? 0) || (count =? 0) then Some (s, count, bits)
  else
    match s with
    | [] => None
    | c :: s => b ← get bitsinbyte c; popcount_head (u64 (p + 1)) s (count - 1) (bits + b)
    end.

(** The two steps that leave in every group of four bits the number of its
    bits, and the third, for groups of eight. *)
Definition nibbles (aux : Z) : Z :=
  let aux := u32 (aux - Z.land (Z.shiftr aux 1) 0x55555555) in
  u32 (Z.land aux 0x33333333 + Z.land (Z.shiftr aux 2) 0x33333333).

Definition octets (aux : Z) : Z := Z.land (u32 (aux + Z.shiftr aux 4)) 0x0F0F0F0F.

Fixpoint popcount_words (fuel : nat) (s : list Z) (count bits : Z) : option (list Z * Z * Z) :=
  match fuel with
  | O => None
  | S fuel =>
      if count >=? 28 then
        aux1 ← load 4 s 0;
        aux2 ← load 4 s 4;
        aux3 ← load 4 s 8;
        aux4 ← load 4 s 12;
        aux5 ← load 4 s 16;
        aux6 ← load 4 s 20;
        aux7 ← load 4 s 24;
        let sum := foldl (fun n aux => u32 (n + octets (nibbles aux))) 0 [aux1; aux2; aux3; aux4; aux5; aux6; aux7] in
        popcount_words fuel (drop 28 s) (count - 28) (bits + Z.shiftr (u32 (sum * 0x01010101)) 24)
      else Some (s, count, bits)
  end.

Fixpoint popcount_tail (s : list Z) (count : nat) (bits : Z) : option Z :=
  match count with
  | O => Some bits
  | S count => match s with [] => None | c :: s => b ← get bitsinbyte c; popcount_tail s count (bits + b) end
  end.

(** [p] is the address of the first byte of [s].  The last loop does not end
    for a negative count. *)
Definition redisPopcount (p : Z) (s : list Z) (count : Z) : option Z :=
  '(s, count, bits) ← popcount_head p s count 0;
  '(s, count, bits) ← popcount_words (S (length s)) s count bits;
  if count <? 0 then None else popcount_tail s (Z.to_nat count) bits.

(** ** The position of a bit *)

Fixpoint bitpos_bytes (c : Z) (s : list Z) (count skipval pos : Z) : option (list Z * Z * Z * bool) :=
  if (Z.land c 7 =? 0) || (count =? 0) then Some (s, count, pos, false)
  else
    match s with
    | [] => None
    | x :: s' => if negb (x =? skipval) then Some (s, count, pos, true)
                 else bitpos_bytes (u64 (c + 1)) s' (count - 1) skipval (pos + 8)
    end.

Fixpoint bitpos_words (fuel : nat) (s : list Z) (count skipval pos : Z) : option (list Z * Z * Z) :=
  match fuel with
  | O => None
  | S fuel =>
      if count >=? 8 then
        l ← load 8 s 0;
        if negb (l =? skipval) then Some (s, count, pos)
        else bitpos_words fuel (drop 8 s) (count - 8) skipval (pos + 64)
      else Some (s, count, pos)
  end.

(** The next eight bytes, or those that are left, with the first on the left. *)
Fixpoint bitpos_load (j : nat) (s : list Z) (count word : Z) : option Z :=
  match j with
  | O => Some word
  | S j =>
      let word := u64 (Z.shiftl word 8) in
      if count =? 0 then bitpos_load j s count word
      else match s with [] => None | c :: s => bitpos_load j s (count - 1) (Z.lor word c) end
  end.

Fixpoint bitpos_scan (fuel : nat) (one word bit pos : Z) : option Z :=
  match fuel with
  | O => None
  | S fuel =>
      if one =? 0 then None
      else if b2z (negb (Z.land one word =? 0)) =? bit then Some pos
      else bitpos_scan fuel (Z.shiftr one 1) word bit (pos + 1)
  end.

(** Reaching the end of the last word ([serverPanic]) is [None]. *)
Definition redisBitpos (p : Z) (s : list Z) (count bit : Z) : option Z :=
  '(s, count, pos, found) ← bitpos_bytes p s count (if bit =? 0 then 255 else 0) 0;
  '(s, count, pos) ← (if found : bool then Some (s, count, pos)
                      else bitpos_words (S (length s)) s count (if bit =? 0 then UINT64_MAX else 0) pos);
  word ← bitpos_load 8 s count 0;
  if (bit =? 1) && (word =? 0) then Some (-1)
  else
    let one := UINT64_MAX in
    let one := Z.shiftr one 1 in
    let one := u64 (Z.lnot one) in
    bitpos_scan 65 one word bit pos.
End Words.

(** ** Integers in a bitmap *)

Fixpoint set_bits (n : nat) (j : Z) (p : list Z) (offset bits value : Z) : option (list Z) :=
  match n with
  | O => Some p
  | S n =>
      let bitval := b2z (negb (Z.land value (Z.shiftl 1 (bits - 1 - j)) =? 0)) in
      let byte := Z.shiftr offset 3 in
      let bit := 7 - Z.land offset 7 in
      byteval ← get p byte;
      let byteval := Z.land byteval (u64 (Z.lnot (Z.shiftl 1 bit))) in
      let byteval := Z.lor byteval (Z.shiftl bitval bit) in
      p ← put p byte (Z.land byteval 255);
      set_bits n (j + 1) p (u64 (offset + 1)) bits value
  end.

Definition setUnsignedBitfield (p : list Z) (offset bits value : Z) : option (list Z) :=
  set_bits (Z.to_nat bits) 0 p offset bits value.

Definition setSignedBitfield (p : list Z) (offset bits value : Z) : option (list Z) :=
  setUnsignedBitfield p offset bits (u64 value).

Fixpoint get_bits (n : nat) (p : list Z) (offset value : Z) : option Z :=
  match n with
  | O => Some value
  | S n =>
      let byte := Z.shiftr offset 3 in
      let bit := 7 - Z.land offset 7 in
      byteval ← get p byte;
      let bitval := Z.land (Z.shiftr byteval bit) 1 in
      get_bits n p (u64 (offset + 1)) (Z.lor (u64 (Z.shiftl value 1)) bitval)
  end.

Definition getUnsignedBitfield (p : list Z) (offset bits : Z) : option Z :=
  get_bits (Z.to_nat bits) p offset 0.

Definition getSignedBitfield (p : list Z) (offset bits : Z) : option Z :=
  u ← getUnsignedBitfield p offset bits;
  let value := s64 u in
  if (bits <? 64) && negb (Z.land (u64 value) (Z.shiftl 1 (bits - 1)) =? 0)
  then Some (s64 (Z.lor (u64 value) (u64 (Z.shiftl UINT64_MAX bits))))
  else Some value.

(** ** Overflow

    [limit] is the content of the variable the pointer of that name points to;
    every caller passes one.  The result of the function and the new content
    are returned. *)
Inductive bfoverflow := BFOVERFLOW_WRAP | BFOVERFLOW_SAT | BFOVERFLOW_FAIL.

Definition wrap_unsigned (value incr bits : Z) : Z :=
  let mask := u64 (Z.shiftl UINT64_MAX bits) in
  let res := u64 (value + incr) in
  Z.land res (u64 (Z.lnot mask)).

Definition checkUnsignedBitfieldOverflow (value incr bits : Z) (owtype : bfoverflow) (limit : Z) : Z * Z :=
  let max := if bits =? 64 then UINT64_MAX else u64 (Z.shiftl 1 bits - 1) in
  let maxincr := s64 (max - value) in
  let minincr := s64 (- value) in
  if (value >? max) || ((incr >? 0) && (incr >? maxincr)) then
    match owtype with
    | BFOVERFLOW_WRAP => (1, wrap_unsigned value incr bits)
    | BFOVERFLOW_SAT => (1, max)
    | BFOVERFLOW_FAIL => (1, limit)
    end
  else if (incr <? 0) && (incr <? minincr) then
    match owtype with
    | BFOVERFLOW_WRAP => (1, wrap_unsigned value incr bits)
    | BFOVERFLOW_SAT => (-1, 0)
    | BFOVERFLOW_FAIL => (-1, limit)
    end
  else (0, limit).

Definition wrap_signed (value incr bits : Z) : Z :=
  let msb := u64 (Z.shiftl 1 (bits - 1)) in
  let c := u64 (u64 value + u64 incr) in
  let c := if bits <? 64 then
             let mask := u64 (Z.shiftl UINT64_MAX bits) in
             if negb (Z.land c msb =? 0) then Z.lor c mask else Z.land c (u64 (Z.lnot mask))
           else c in
  s64 c.

Definition checkSignedBitfieldOverflow (value incr bits : Z) (owtype : bfoverflow) (limit : Z) : Z * Z :=
  let max := if bits =? 64 then INT64_MAX else Z.shiftl 1 (bits - 1) - 1 in
  let min := - max - 1 in
  let maxincr := s64 (u64 max - u64 value) in
  let minincr := s64 (min - value) in
  if (value >? max) || (negb (bits =? 64) && (incr >? maxincr)) || ((value >=? 0) && (incr >? 0) && (incr >? maxincr)) then
    match owtype with
    | BFOVERFLOW_WRAP => (1, wrap_signed value incr bits)
    | BFOVERFLOW_SAT => (1, max)
    | BFOVERFLOW_FAIL => (1, limit)
    end
  else if (value <? min) || (negb (bits =? 64) && (incr <? minincr)) || ((value <? 0) && (incr <? 0) && (incr <? minincr)) then
    match owtype with
    | BFOVERFLOW_WRAP => (1, wrap_signed value incr bits)
    | BFOVERFLOW_SAT => (-1, min)
    | BFOVERFLOW_FAIL => (-1, limit)
    end
  else (0, limit).

(** ** Commands *)

Inductive bit_error :=
| ErrBitOffset | ErrBitfieldType | ErrBit | ErrBitArgument | ErrNotInteger
| ErrSyntax | ErrWrongType | ErrBitopNot | ErrOverflowType | ErrReadonly.

Inductive reply := RInt (n : Z) | RNull | RArray (rs : list reply) | RError (e : bit_error).

(** The value of a key: a string object, or an object of another type. *)
Inductive value := VString (o : strobj) | VOther.

Record server := Server { keyspace : gmap (list Z) value; dirty : Z; signalled : list (list Z) }.

Definition command (A : Type) : Type := server -> option (server * (reply + A)).

#[export] Instance command_ret : MRet command := fun A a st => Some (st, inr a).
#[export] Instance command_bind : MBind command := fun A B f m st =>
  '(st, r) ← m st; match r with inl e => Some (st, inl e) | inr a => f a st end.

Definition finish {A} (r : reply) : command A := fun st => Some (st, inl r).
Definition fail {A} (e : bit_error) : command A := finish (RError e).
Definition lift {A} (o : option A) : command A := fun st => a ← o; Some (st, inr a).
Definition or_fail {A} (o : option A) (e : bit_error) : command A :=
  match o with Some a => mret a | None => fail e end.

(** The server after a command, and its reply. *)
Definition run (c : command reply) (st : server) : option (server * reply) :=
  '(st, r) ← c st; Some (st, match r with inl r | inr r => r end).

Definition lookupKey (key : list Z) : command (option value) := fun st => Some (st, inr (keyspace st !! key)).
Definition set_keyspace (f : gmap (list Z) value -> gmap (list Z) value) : command unit :=
  fun st => Some (Server (f (keyspace st)) (dirty st) (signalled st), inr tt).
Definition dbAdd (key : list Z) (v : value) : command unit := set_keyspace (insert key v).
Definition signalModifiedKey (key : list Z) : command unit :=
  fun st => Some (Server (keyspace st) (dirty st) (key :: signalled st), inr tt).
Definition add_dirty (n : Z) : command unit :=
  fun st => Some (Server (keyspace st) (dirty st + n) (signalled st), inr tt).

(** A missing key has any type. *)
Definition checkType (v : option value) : command (option strobj) :=
  match v with
  | None => mret None
  | Some (VString o) => mret (Some o)
  | Some VOther => fail ErrWrongType
  end.

(** [strcasecmp]: strings end at their first zero byte. *)
Fixpoint cstr (s : list Z) : list Z :=
  match s with [] => [] | c :: s => if c =? 0 then [] else c :: cstr s end.
Definition strcasecmp (s : list Z) (t : string) : bool := bool_decide (lower <$> cstr s = lower <$> chars t).

Definition sdsgrowzero (s : list Z) (len : Z) : list Z :=
  s ++ replicate (Z.to_nat (len - Z.of_nat (length s))) 0.

Definition getLongLongFromObjectOrReply (s : list Z) : command Z :=
  or_fail (getLongLongFromObject (Some (createStringObject s))) ErrNotInteger.

(** Out of range is not distinguished: a [long] has 64 bits too. *)
Definition getLongFromObjectOrReply (s : list Z) (err : bit_error) : command Z :=
  value ← or_fail (getLongLongFromObject (Some (createStringObject s))) err;
  if (value <? INT64_MIN) || (value >? INT64_MAX) then fail err else mret value.

Inductive bitop := BITOP_AND | BITOP_OR | BITOP_XOR | BITOP_NOT.
#[export] Instance bitop_eq_dec : EqDecision bitop.
Proof. solve_decision. Defined.

Inductive bitfieldop := BITFIELDOP_GET | BITFIELDOP_SET | BITFIELDOP_INCRBY.

Record bitfieldOp := BitfieldOp {
  bf_offset : Z;
  bf_i64 : Z;
  bf_opcode : bitfieldop;
  bf_owtype : bfoverflow;
  bf_bits : Z;
  bf_sign : bool
}.

Section Commands.
Context (undef : nat -> Z) (addr : nat -> Z) (little aligned_access obey : bool) (proto_max_bulk_len : Z).

Definition getBitOffsetFromArgument (p : list Z) (hash : bool) (bits : Z) : command Z :=
  let usehash := bool_decide (head p = Some 35) && hash && (bits >? 0) in
  loffset ← or_fail (string2ll (if usehash then drop 1 p else p)) ErrBitOffset;
  let loffset := if usehash then s64 (loffset * bits) else loffset in
  if (loffset <? 0) || (negb obey && (Z.shiftr loffset 3 >=? proto_max_bulk_len)) then fail ErrBitOffset
  else mret (u64 loffset).

(** Whether the type is signed, and its width. *)
Definition getBitfieldTypeFromArgument (p : list Z) : command (bool * Z) :=
  sign ← (if bool_decide (head p = Some 105) then mret true
          else if bool_decide (head p = Some 117) then mret false
          else fail ErrBitfieldType);
  llbits ← or_fail (string2ll (cstr (drop 1 p))) ErrBitfieldType;
  if (llbits <? 1) || (sign && (llbits >? 64)) || (negb sign && (llbits >? 63)) then fail ErrBitfieldType
  else mret (sign, llbits).

Definition dbUnshareStringValue (key : list Z) (o : strobj) : command (list Z) :=
  match o with
  | StrRaw s => mret s
  | _ =>
      decoded ← lift (getDecodedObject undef o);
      s ← lift (sdsEncodedObject decoded);
      _ ← dbAdd key (VString (createRawStringObject s));
      mret s
  end.

(** The content of the string object that is now the value of the key, and
    whether it was created or has grown. *)
Definition lookupStringForBitCommand (key : list Z) (maxbit : Z) : command (list Z * bool) :=
  let byte := Z.shiftr maxbit 3 in
  v ← lookupKey key;
  o ← checkType v;
  match o with
  | None =>
      let s := replicate (Z.to_nat (byte + 1)) 0 in
      _ ← dbAdd key (VString (StrRaw s));
      mret (s, true)
  | Some o =>
      s ← dbUnshareStringValue key o;
      let oldlen := length s in
      let s := sdsgrowzero s (byte + 1) in
      _ ← dbAdd key (VString (StrRaw s));
      mret (s, negb (oldlen =? length s)%nat)
  end.

(** The bytes and their number; what follows the string in [llbuf] may not be read. *)
Definition getObjectReadOnlyString (o : option strobj) : option (list Z * Z) :=
  match o with
  | Some (StrInt v) => '(llbuf, len) ← ll2string_local undef LONG_STR_SIZE v; p ← slice llbuf 0 len; Some (p, len)
  | Some (StrRaw s | StrEmb s) => Some (s, Z.of_nat (length s))
  | None => Some ([], 0)
  end.

Definition setbitCommand (argv : list (list Z)) : command reply :=
  key ← lift (argv !! 1%nat);
  bitoffset ← (a ← lift (argv !! 2%nat); getBitOffsetFromArgument a false 0);
  on ← (a ← lift (argv !! 3%nat); getLongFromObjectOrReply a ErrBit);
  if negb (Z.land on (Z.lnot 1) =? 0) then fail ErrBit else
  '(s, changed) ← lookupStringForBitCommand key bitoffset;
  let byte := Z.shiftr bitoffset 3 in
  byteval ← lift (get s byte);
  let bit := 7 - Z.land bitoffset 7 in
  let bitval := Z.land byteval (Z.shiftl 1 bit) in
  _ ← (if changed || negb (b2z (negb (bitval =? 0)) =? on) then
         let byteval := Z.land byteval (Z.lnot (Z.shiftl 1 bit)) in
         let byteval := Z.lor byteval (Z.shiftl (Z.land on 1) bit) in
         s ← lift (put s byte byteval);
         _ ← dbAdd key (VString (StrRaw s));
         _ ← signalModifiedKey key;
         add_dirty 1
       else mret tt);
  mret (RInt (b2z (negb (bitval =? 0)))).

Definition getbitCommand (argv : list (list Z)) : command reply :=
  key ← lift (argv !! 1%nat);
  bitoffset ← (a ← lift (argv !! 2%nat); getBitOffsetFromArgument a false 0);
  v ← lookupKey key;
  match v with
  | None => mret (RInt 0)
  | Some v =>
      o ← checkType (Some v);
      let byte := Z.shiftr bitoffset 3 in
      let bit := 7 - Z.land bitoffset 7 in
      '(s, len) ← lift (match o with
                        | Some (StrInt v) => ll2string_local undef 32 v
                        | Some (StrRaw s | StrEmb s) => Some (s, Z.of_nat (length s))
                        | None => None
                        end);
      bitval ← (if byte <? len then byteval ← lift (get s byte); mret (Z.land byteval (Z.shiftl 1 bit)) else mret 0);
      mret (RInt (b2z (negb (bitval =? 0))))
  end.

(** *** BITOP *)

Definition bitop_name (opname : list Z) : command bitop :=
  let first (l u : Z) := bool_decide (head opname = Some l) || bool_decide (head opname = Some u) in
  if first 97 65 && strcasecmp opname "and" then mret BITOP_AND
  else if first 111 79 && strcasecmp opname "or" then mret BITOP_OR
  else if first 120 88 && strcasecmp opname "xor" then mret BITOP_XOR
  else if first 110 78 && strcasecmp opname "not" then mret BITOP_NOT
  else fail ErrSyntax.

(** The strings, the length of the longest and of the shortest. *)
Fixpoint bitop_sources (keys : list (list Z)) (j : nat) (src : list (list Z)) (maxlen minlen : Z) :
    command (list (list Z) * Z * Z) :=
  match keys with
  | [] => mret (src, maxlen, minlen)
  | key :: keys =>
      v ← lookupKey key;
      o ← checkType v;
      match o with
      | None => bitop_sources keys (S j) (src ++ [[]]) maxlen 0
      | Some o =>
          decoded ← lift (getDecodedObject undef o);
          s ← lift (sdsEncodedObject decoded);
          let len := Z.of_nat (length s) in
          bitop_sources keys (S j) (src ++ [s]) (if len >? maxlen then len else maxlen)
            (if (j =? 0)%nat || (len <? minlen) then len else minlen)
      end
  end.

Definition store8 (w : Z) : list Z := if little then le_bytes 8 w else rev (le_bytes 8 w).

Definition word_op (op : bitop) (a b : Z) : Z :=
  match op with
  | BITOP_AND => Z.land a b
  | BITOP_OR => Z.lor a b
  | BITOP_XOR => Z.lxor a b
  | BITOP_NOT => a
  end.

(** [lres[k] op= lp[i][k]] for [k] from 0 to 3. *)
Definition bitop_block (op : bitop) (j : Z) (res src : list Z) : option (list Z) :=
  let word (res : option (list Z)) (i : Z) :=
    res ← res; a ← load little 8 res i; b ← load little 8 src i; blit res i (store8 (word_op op a b)) in
  foldl word (Some res) [j; j + 8; j + 16; j + 24].

Definition bitop_not_block (j : Z) (res : list Z) : option (list Z) :=
  let word (res : option (list Z)) (i : Z) := res ← res; a ← load little 8 res i; blit res i (store8 (u64 (Z.lnot a))) in
  foldl word (Some res) [j; j + 8; j + 16; j + 24].

(** The words that all strings have, four at a time; the position reached is returned. *)
Fixpoint bitop_fast (fuel : nat) (op : bitop) (src : list (list Z)) (j minlen : Z) (res : list Z) : option (list Z * Z) :=
  match fuel with
  | O => None
  | S fuel =>
      if minlen >=? 32 then
        res ← match op with
              | BITOP_NOT => bitop_not_block j res
              | _ => foldl (fun res s => res ← res; bitop_block op j res s) (Some res) (drop 1 src)
              end;
        bitop_fast fuel op src (j + 32) (minlen - 32) res
      else Some (res, j)
  end.

Definition byte_or_zero (s : list Z) (j : Z) : option Z := if Z.of_nat (length s) <=? j then Some 0 else get s j.

Fixpoint bitop_column (op : bitop) (j output : Z) (src : list (list Z)) : option Z :=
  match src with
  | [] => Some output
  | s :: src =>
      byte ← byte_or_zero s j;
      let output := word_op op output byte in
      let skip := match op with BITOP_AND => output =? 0 | BITOP_OR => output =? 255 | _ => false end in
      if skip then Some output else bitop_column op j output src
  end.

Fixpoint bitop_bytes (n : nat) (op : bitop) (src : list (list Z)) (j : Z) (res : list Z) : option (list Z) :=
  match n with
  | O => Some res
  | S n =>
      first ← head src;
      output ← byte_or_zero first j;
      let output := match op with BITOP_NOT => u8 (Z.lnot output) | _ => output end in
      output ← bitop_column op j output (drop 1 src);
      res ← put res j output;
      bitop_bytes n op src (j + 1) res
  end.

Definition bitop_compute (op : bitop) (src : list (list Z)) (maxlen minlen : Z) : option (list Z) :=
  let res := replicate (Z.to_nat maxlen) 0 in
  '(res, j) ←
    (if negb aligned_access && (minlen >=? 32) && (length src <=? 16)%nat then
       first ← head src;
       s ← slice first 0 minlen;
       res ← blit res 0 s;
       bitop_fast (S (Z.to_nat minlen)) op src 0 minlen res
     else Some (res, 0));
  bitop_bytes (Z.to_nat (maxlen - j)) op src j res.

Definition bitopCommand (argv : list (list Z)) : command reply :=
  op ← (a ← lift (argv !! 1%nat); bitop_name a);
  targetkey ← lift (argv !! 2%nat);
  if bool_decide (op = BITOP_NOT) && negb (length argv =? 4)%nat then fail ErrBitopNot else
  '(src, maxlen, minlen) ← bitop_sources (drop 3 argv) 0 [] 0 0;
  _ ← (if negb (maxlen =? 0) then
         res ← lift (bitop_compute op src maxlen minlen);
         _ ← dbAdd targetkey (VString (StrRaw res));
         _ ← signalModifiedKey targetkey;
         add_dirty 1
       else
         v ← lookupKey targetkey;
         match v with
         | Some _ => _ ← set_keyspace (delete targetkey); _ ← signalModifiedKey targetkey; add_dirty 1
         | None => mret tt
         end);
  mret (RInt maxlen).

(** *** BITCOUNT and BITPOS *)

(** Indices of the end that are negative or too large are converted; a range of
    bits becomes one of bytes and the bits of its first and last byte that are
    not in it. *)
Definition convert_range (isbit : bool) (totlen start stop : Z) : Z * Z * Z * Z :=
  let totlen := if isbit then Z.shiftl totlen 3 else totlen in
  let start := if start <? 0 then totlen + start else start in
  let stop := if stop <? 0 then totlen + stop else stop in
  let start := if start <? 0 then 0 else start in
  let stop := if stop <? 0 then 0 else stop in
  let stop := if stop >=? totlen then totlen - 1 else stop in
  if isbit && (start <=? stop) then
    let first_byte_neg_mask := Z.land (Z.lnot (Z.shiftl 1 (8 - Z.land start 7) - 1)) 255 in
    let last_byte_neg_mask := Z.shiftl 1 (7 - Z.land stop 7) - 1 in
    (Z.shiftr start 3, Z.shiftr stop 3, first_byte_neg_mask, last_byte_neg_mask)
  else (start, stop, 0, 0).

Definition bit_or_byte (unit : option (list Z)) : command bool :=
  match unit with
  | None => mret false
  | Some u => if strcasecmp u "bit" then mret true else if strcasecmp u "byte" then mret false else fail ErrSyntax
  end.

Definition serverAssert (b : bool) : command unit := lift (if b then Some tt else None).

Definition bitcount_range (argv : list (list Z)) (strlen : Z) : command (Z * Z * Z * Z) :=
  if (length argv =? 4)%nat || (length argv =? 5)%nat then
    _ ← serverAssert (strlen <=? Z.shiftr LLONG_MAX 3);
    start ← (a ← lift (argv !! 2%nat); getLongLongFromObjectOrReply a);
    stop ← (a ← lift (argv !! 3%nat); getLongLongFromObjectOrReply a);
    if (start <? 0) && (stop <? 0) && (start >? stop) then finish (RInt 0) else
    isbit ← bit_or_byte (argv !! 4%nat);
    mret (convert_range isbit strlen start stop)
  else if (length argv =? 2)%nat then mret (0, strlen - 1, 0, 0)
  else fail ErrSyntax.

Definition bitcount_bytes (p : list Z) (start stop first last : Z) : option Z :=
  count ← redisPopcount little (addr 0 + start) (drop (Z.to_nat start) p) (stop - start + 1);
  if negb (first =? 0) || negb (last =? 0) then
    b0 ← (if negb (first =? 0) then c ← get p start; Some (Z.land c first) else Some 0);
    b1 ← (if negb (last =? 0) then c ← get p stop; Some (Z.land c last) else Some 0);
    n ← redisPopcount little (addr 1) [b0; b1] 2;
    Some (count - n)
  else Some count.

Definition bitcountCommand (argv : list (list Z)) : command reply :=
  key ← lift (argv !! 1%nat);
  v ← lookupKey key;
  match v with
  | None => mret (RInt 0)
  | Some v =>
      o ← checkType (Some v);
      '(p, strlen) ← lift (getObjectReadOnlyString o);
      '(start, stop, first, last) ← bitcount_range argv strlen;
      if start >? stop then mret (RInt 0)
      else count ← lift (bitcount_bytes p start stop first last); mret (RInt count)
  end.

(** The range, and whether its end was given. *)
Definition bitpos_args (argv : list (list Z)) (strlen : Z) : command (Z * Z * Z * Z * bool) :=
  let argc := length argv in
  if (argc =? 4)%nat || (argc =? 5)%nat || (argc =? 6)%nat then
    _ ← serverAssert (strlen <=? Z.shiftr LLONG_MAX 3);
    start ← (a ← lift (argv !! 3%nat); getLongLongFromObjectOrReply a);
    isbit ← bit_or_byte (argv !! 5%nat);
    '(stop, end_given) ←
      (if (5 <=? argc)%nat then stop ← (a ← lift (argv !! 4%nat); getLongLongFromObjectOrReply a); mret (stop, true)
       else mret (if isbit then Z.shiftl strlen 3 + 7 else strlen - 1, false));
    mret (convert_range isbit strlen start stop, end_given)
  else if (argc =? 3)%nat then mret (0, strlen - 1, 0, 0, false)
  else fail ErrSyntax.

(** The byte [c] with the bits of [m] set to what is not looked for. *)
Definition neg_mask (bit c m : Z) : Z := if bit =? 0 then Z.lor c m else Z.land c (u8 (Z.lnot m)).

Definition bitpos_char (bit tmpchar : Z) : option Z := redisBitpos little (addr 1) [tmpchar] 1 bit.

(** The position, when it is known, and what is left of the range. *)
Definition bitpos_first (p : list Z) (start bytes first last bit : Z) : option (option Z * Z * Z) :=
  if first =? 0 then Some (None, start, bytes) else
  c ← get p start;
  let tmpchar := neg_mask bit c first in
  let tmpchar := if negb (last =? 0) && (bytes =? 1) then neg_mask bit tmpchar last else tmpchar in
  pos ← bitpos_char bit tmpchar;
  if (bytes =? 1) || (negb (pos =? -1) && negb (pos =? 8)) then Some (Some pos, start, bytes)
  else Some (None, start + 1, bytes - 1).

Definition bitpos_middle (p : list Z) (start bytes last bit : Z) : option (option Z * Z * Z) :=
  let curbytes := bytes - (if last =? 0 then 0 else 1) in
  if curbytes >? 0 then
    pos ← redisBitpos little (addr 0 + start) (drop (Z.to_nat start) p) curbytes bit;
    if (bytes =? curbytes) || (negb (pos =? -1) && negb (pos =? Z.shiftl curbytes 3)) then Some (Some pos, start, bytes)
    else Some (None, start + curbytes, bytes - curbytes)
  else Some (None, start, bytes).

Definition bitpos_range (p : list Z) (start stop first last bit : Z) (end_given : bool) : option Z :=
  '(found, start, bytes) ← bitpos_first p start (stop - start + 1) first last bit;
  '(found, start, bytes) ← match found with
                           | Some _ => Some (found, start, bytes)
                           | None => bitpos_middle p start bytes last bit
                           end;
  pos ← match found with
        | Some pos => Some pos
        | None => c ← get p stop; bitpos_char bit (neg_mask bit c last)
        end;
  if end_given && (bit =? 0) && (pos =? Z.shiftl bytes 3) then Some (-1)
  else Some (if negb (pos =? -1) then pos + Z.shiftl start 3 else pos).

Definition bitposCommand (argv : list (list Z)) : command reply :=
  key ← lift (argv !! 1%nat);
  bit ← (a ← lift (argv !! 2%nat); getLongFromObjectOrReply a ErrNotInteger);
  if negb (bit =? 0) && negb (bit =? 1) then fail ErrBitArgument else
  v ← lookupKey key;
  match v with
  | None => mret (RInt (if bit =? 0 then 0 else -1))
  | Some v =>
      o ← checkType (Some v);
      '(p, strlen) ← lift (getObjectReadOnlyString o);
      '(start, stop, first, last, end_given) ← bitpos_args argv strlen;
      if start >? stop then mret (RInt (-1))
      else pos ← lift (bitpos_range p start stop first last bit end_given); mret (RInt pos)
  end.

(** *** BITFIELD *)

Definition bitfield_type_offset (type offset : list Z) : command (bool * Z * Z) :=
  '(sign, bits) ← getBitfieldTypeFromArgument type;
  bitoffset ← getBitOffsetFromArgument offset true bits;
  mret (sign, bits, bitoffset).

(** The operations, whether all of them read, and the last bit written. *)
Fixpoint bitfield_args (args : list (list Z)) (owtype : bfoverflow) (ops : list bitfieldOp) (readonly : bool) (highest : Z) :
    command (list bitfieldOp * bool * Z) :=
  match args with
  | [] => mret (ops, readonly, highest)
  | subcmd :: rest =>
      let remargs := length rest in
      if strcasecmp subcmd "get" && (2 <=? remargs)%nat then
        match rest with
        | type :: offset :: rest =>
            '(sign, bits, bitoffset) ← bitfield_type_offset type offset;
            bitfield_args rest owtype (ops ++ [BitfieldOp bitoffset 0 BITFIELDOP_GET owtype bits sign]) readonly highest
        | _ => lift None
        end
      else if (strcasecmp subcmd "set" || strcasecmp subcmd "incrby") && (3 <=? remargs)%nat then
        match rest with
        | type :: offset :: arg :: rest =>
            let opcode := if strcasecmp subcmd "set" then BITFIELDOP_SET else BITFIELDOP_INCRBY in
            '(sign, bits, bitoffset) ← bitfield_type_offset type offset;
            let last := u64 (bitoffset + bits - 1) in
            i64 ← getLongLongFromObjectOrReply arg;
            bitfield_args rest owtype (ops ++ [BitfieldOp bitoffset i64 opcode owtype bits sign]) false
              (if highest <? last then last else highest)
        | _ => lift None
        end
      else if strcasecmp subcmd "overflow" && (1 <=? remargs)%nat then
        match rest with
        | owtypename :: rest =>
            owtype ← (if strcasecmp owtypename "wrap" then mret BFOVERFLOW_WRAP
                      else if strcasecmp owtypename "sat" then mret BFOVERFLOW_SAT
                      else if strcasecmp owtypename "fail" then mret BFOVERFLOW_FAIL
                      else fail ErrOverflowType);
            bitfield_args rest owtype ops readonly highest
        | _ => lift None
        end
      else fail ErrSyntax
  end.

Definition is_fail (owtype : bfoverflow) : bool := match owtype with BFOVERFLOW_FAIL => true | _ => false end.

(** Each returns the string, the reply and the number of changes to count. *)
Definition bitfield_write_signed (p : list Z) (changed : bool) (op : bitfieldOp) : option (list Z * reply * Z) :=
  oldval ← getSignedBitfield p (bf_offset op) (bf_bits op);
  let '(overflow, newval, retval) :=
    match bf_opcode op with
    | BITFIELDOP_INCRBY =>
        let '(overflow, wrapped) := checkSignedBitfieldOverflow oldval (bf_i64 op) (bf_bits op) (bf_owtype op) (undef 0) in
        let newval := if negb (overflow =? 0) then wrapped else s64 (oldval + bf_i64 op) in
        (overflow, newval, newval)
    | _ =>
        let newval := bf_i64 op in
        let '(overflow, wrapped) := checkSignedBitfieldOverflow newval 0 (bf_bits op) (bf_owtype op) (undef 0) in
        (overflow, if negb (overflow =? 0) then wrapped else newval, oldval)
    end in
  if negb (negb (overflow =? 0) && is_fail (bf_owtype op)) then
    p ← setSignedBitfield p (bf_offset op) (bf_bits op) newval;
    Some (p, RInt retval, b2z (changed || negb (oldval =? newval)))
  else Some (p, RNull, 0).

Definition bitfield_write_unsigned (p : list Z) (changed : bool) (op : bitfieldOp) : option (list Z * reply * Z) :=
  oldval ← getUnsignedBitfield p (bf_offset op) (bf_bits op);
  let '(overflow, newval, retval) :=
    match bf_opcode op with
    | BITFIELDOP_INCRBY =>
        let newval := u64 (oldval + bf_i64 op) in
        let '(overflow, wrapped) := checkUnsignedBitfieldOverflow oldval (bf_i64 op) (bf_bits op) (bf_owtype op) 0 in
        let newval := if negb (overflow =? 0) then wrapped else newval in
        (overflow, newval, newval)
    | _ =>
        let newval := u64 (bf_i64 op) in
        let '(overflow, wrapped) := checkUnsignedBitfieldOverflow newval 0 (bf_bits op) (bf_owtype op) 0 in
        (overflow, if negb (overflow =? 0) then wrapped else newval, oldval)
    end in
  if negb (negb (overflow =? 0) && is_fail (bf_owtype op)) then
    p ← setUnsignedBitfield p (bf_offset op) (bf_bits op) newval;
    Some (p, RInt (s64 retval), b2z (changed || negb (oldval =? newval)))
  else Some (p, RNull, 0).

(** Up to [n] bytes of [src] from [i] on, and zeroes. *)
Fixpoint get_buffer (n : nat) (src : list Z) (strlen i : Z) : option (list Z) :=
  match n with
  | O => Some []
  | S n =>
      if i >=? strlen then Some (replicate (S n) 0)
      else c ← get src i; buf ← get_buffer n src strlen (i + 1); Some (c :: buf)
  end.

Definition bitfield_get (o : option strobj) (op : bitfieldOp) : option reply :=
  '(src, strlen) ← getObjectReadOnlyString o;
  let byte := Z.shiftr (bf_offset op) 3 in
  buf ← get_buffer 9 src strlen byte;
  let offset := u64 (bf_offset op - byte * 8) in
  if bf_sign op then val ← getSignedBitfield buf offset (bf_bits op); Some (RInt val)
  else val ← getUnsignedBitfield buf offset (bf_bits op); Some (RInt (s64 val)).

Definition bitfield_step (o : option strobj) (changed : bool) (op : bitfieldOp) : option (option strobj * reply * Z) :=
  match bf_opcode op with
  | BITFIELDOP_GET => r ← bitfield_get o op; Some (o, r, 0)
  | _ =>
      p ← (o ← o; sdsEncodedObject o);
      '(p, r, n) ← (if bf_sign op then bitfield_write_signed p changed op else bitfield_write_unsigned p changed op);
      Some (Some (StrRaw p), r, n)
  end.

Fixpoint bitfield_run (o : option strobj) (changed : bool) (ops : list bitfieldOp) : option (option strobj * list reply * Z) :=
  match ops with
  | [] => Some (o, [], 0)
  | op :: ops =>
      '(o, r, n) ← bitfield_step o changed op;
      '(o, rs, m) ← bitfield_run o changed ops;
      Some (o, r :: rs, n + m)
  end.

Definition bitfieldGeneric (readonly_flag : bool) (argv : list (list Z)) : command reply :=
  key ← lift (argv !! 1%nat);
  '(ops, readonly, highest_write_offset) ← bitfield_args (drop 2 argv) BFOVERFLOW_WRAP [] true 0;
  '(o, changed) ←
    (if readonly : bool then v ← lookupKey key; o ← checkType v; mret (o, false)
     else if readonly_flag then fail ErrReadonly
     else '(s, changed) ← lookupStringForBitCommand key highest_write_offset; mret (Some (StrRaw s), changed));
  '(o, rs, changes) ← lift (bitfield_run o changed ops);
  _ ← (match o with Some o => if readonly : bool then mret tt else dbAdd key (VString o) | None => mret tt end);
  _ ← (if changes =? 0 then mret tt else _ ← signalModifiedKey key; add_dirty changes);
  mret (RArray rs).

Definition bitfieldCommand : list (list Z) -> command reply := bitfieldGeneric false.
Definition bitfieldroCommand : list (list Z) -> command reply := bitfieldGeneric true.
End Commands.
