(* ===== verification/BitopsProof.v ===== *)
(** * Bitmaps: the functions on strings of bits ([bitops.c])

    A string of bytes is read as the list of its bits, the most significant bit
    of the first byte first.  Counting is the number of ones of that list,
    searching the first position of a bit, and an integer field a sublist read
    in base two; the functions of [Bitops] are shown to compute these, whatever
    the addresses of the strings and the byte order. *)

From Stdlib Require Import ZArith Lia ZifyBool.
From stdpp Require Import base gmap numbers option list.
From S2P Require Import Prelude Numstr Strobj Bitops.

Local Open Scope Z_scope.

Ltac dlia := Z.to_euclidean_division_equations; lia.

(** ** The bits of a string *)

Definition byte_bits (b : Z) : list bool := Z.testbit b <$> [7; 6; 5; 4; 3; 2; 1; 0].
Definition bits (s : list Z) : list bool := s ≫= byte_bits.

Fixpoint ones (l : list bool) : Z := match l with [] => 0 | b :: l => b2z b + ones l end.

(** The position of the first [b], or the length. *)
Fixpoint first_bit (b : bool) (l : list bool) : Z :=
  match l with [] => 0 | x :: l => if Bool.eqb x b then 0 else 1 + first_bit b l end.

(** The value of a list of bits, and the [n] bits of a value. *)
Definition uval (l : list bool) : Z := foldl (fun v b => 2 * v + b2z b) 0 l.
Fixpoint to_bits (n : nat) (v : Z) : list bool := match n with O => [] | S n => Z.testbit v (Z.of_nat n) :: to_bits n v end.
Definition sval (l : list bool) : Z := swrap (Z.of_nat (length l)) (uval l).

Lemma bits_app s t : bits (s ++ t) = bits s ++ bits t.
Proof. apply bind_app. Qed.

Lemma length_bits s : length (bits s) = (8 * length s)%nat.
Proof. induction s; [done|]. unfold bits in *. cbn [mbind list_bind]. rewrite length_app, IHs. simpl. lia. Qed.

Lemma ones_app l m : ones (l ++ m) = ones l + ones m.
Proof. induction l; cbn [ones app]; lia. Qed.

Lemma first_bit_range b l : 0 <= first_bit b l <= Z.of_nat (length l).
Proof. induction l; cbn [first_bit length]; [lia|]. destruct (Bool.eqb _ _); lia. Qed.

Lemma first_bit_app b l m : first_bit b (l ++ m) =
  if first_bit b l <? Z.of_nat (length l) then first_bit b l else Z.of_nat (length l) + first_bit b m.
Proof.
  induction l as [|x l IH]; [done|]. cbn [first_bit app length]. rewrite IH.
  pose proof (first_bit_range b l). destruct (Bool.eqb x b); repeat case_zb; lia.
Qed.

Lemma first_bit_none b n : first_bit b (replicate n (negb b)) = Z.of_nat n.
Proof. induction n; cbn [first_bit replicate]; [done|]. rewrite IHn. destruct b; cbn; lia. Qed.

Lemma all_bytes (P : Z -> bool) : forallb P (seqZ 0 256) = true -> forall b, byteZ b -> P b = true.
Proof.
  rewrite forallb_forall. intros H b Hb. apply H, list_elem_of_In, elem_of_seqZ. unfold byteZ in Hb. lia.
Qed.

(** ** Counting *)

Definition pc (b : Z) : Z := ones (byte_bits b).

Lemma bitsinbyte_get c : byteZ c -> get bitsinbyte c = Some (pc c).
Proof.
  intros Hc. apply (all_bytes (fun c => bool_decide (get bitsinbyte c = Some (pc c)))) in Hc; [|by vm_compute].
  by apply bool_decide_eq_true in Hc.
Qed.

Lemma pc_range c : byteZ c -> 0 <= pc c <= 8.
Proof.
  intros Hc. apply (all_bytes (fun c => (0 <=? pc c) && (pc c <=? 8))) in Hc; [lia|by vm_compute].
Qed.

Lemma ones_bits_cons c s : ones (bits (c :: s)) = pc c + ones (bits s).
Proof. unfold bits. cbn [mbind list_bind]. apply ones_app. Qed.

(** What a loop over a prefix of the string leaves. *)
Definition counted (s : list Z) (count b0 : Z) (r : list Z * Z * Z) : Prop :=
  exists a t, s = a ++ t /\ r = (t, count - Z.of_nat (length a), b0 + ones (bits a)) /\ Z.of_nat (length a) <= count.

Lemma counted_cons c s count b0 r : counted s (count - 1) (b0 + pc c) r -> counted (c :: s) count b0 r.
Proof.
  intros (a & t & -> & -> & Ha). exists (c :: a), t. rewrite ones_bits_cons. cbn [length app].
  split_and!; [done| |lia]. f_equal; [f_equal|]; lia.
Qed.

Lemma counted_none s count b0 : 0 <= count -> counted s count b0 (s, count, b0).
Proof. intros Hc. exists [], s. cbn. split_and!; [done| |lia]. f_equal; [f_equal|]; lia. Qed.

Lemma popcount_head_spec s : forall p count b0, Forall byteZ s -> 0 <= count <= Z.of_nat (length s) ->
  exists r, popcount_head p s count b0 = Some r /\ counted s count b0 r.
Proof.
  induction s as [|c s IH]; intros p count b0 Hs Hc; cbn [popcount_head]; destruct (_ || _) eqn:E.
  1, 3: eexists; split; [done|apply counted_none; lia].
  - cbn in Hc. lia.
  - inversion_clear Hs as [|? ? Hb Hs']. rewrite bitsinbyte_get by done. cbn [mbind option_bind].
    cbn [length] in Hc. destruct (IH (u64 (p + 1)) (count - 1) (b0 + pc c) Hs' ltac:(lia)) as (r & -> & Hr).
    exists r. split; [done|]. by apply counted_cons.
Qed.

(** *** Four bytes in one word *)

Lemma testbit_cons a r i : byteZ a -> 0 <= r -> 0 <= i ->
  Z.testbit (a + 256 * r) i = if i <? 8 then Z.testbit a i else Z.testbit r (i - 8).
Proof.
  intros Ha Hr Hi. replace (a + 256 * r) with (a + r * 2 ^ 8) by lia. rewrite <- lor_shiftl by (unfold in_u, byteZ in *; lia).
  rewrite Z.lor_spec, Z.shiftl_spec by lia. case_zb.
  - rewrite (Z.testbit_neg_r r) by lia. apply orb_false_r.
  - rewrite (in_u_high 8 a) by (unfold in_u, byteZ in *; lia). done.
Qed.

Lemma land_byte a m : byteZ a -> byteZ (Z.land a m).
Proof. intros Ha. apply (land_in_u_l 8); [lia|exact Ha]. Qed.

Lemma byteZ_shiftr a k : 0 <= k -> byteZ a -> byteZ (Z.shiftr a k).
Proof. intros Hk Ha. apply (shiftr_in_u 8); [lia..|exact Ha]. Qed.

Lemma shiftr_land_cons a r m M k : 0 <= k <= 8 -> byteZ a -> 0 <= r -> 0 <= m < 2 ^ (8 - k) -> 0 <= M ->
  Z.land (Z.shiftr (a + 256 * r) k) (m + 256 * M) = Z.land (Z.shiftr a k) m + 256 * Z.land (Z.shiftr r k) M.
Proof.
  intros Hk Ha Hr Hm HM. assert (2 ^ (8 - k) <= 2 ^ 8) by (apply Z.pow_le_mono_r; lia).
  assert (byteZ m) by (unfold byteZ; lia).
  apply Z.bits_inj'. intros i Hi. rewrite testbit_cons; [|apply land_byte, byteZ_shiftr; (done || lia)| |done].
  2:{ apply Z.land_nonneg. right. lia. }
  rewrite Z.land_spec, Z.shiftr_spec, !testbit_cons by (done || lia). repeat case_zb; try lia; rewrite ?Z.land_spec, ?Z.shiftr_spec by lia.
  - done.
  - rewrite (in_u_high (8 - k) m) by (unfold in_u; lia). by rewrite !andb_false_r.
  - f_equal. f_equal. lia.
Qed.

Definition rep_byte (w : list Z) (c : Z) : Z := le_val (replicate (length w) c).

Lemma le_val_nonneg w : Forall byteZ w -> 0 <= le_val w.
Proof. intros H. apply le_val_range in H. lia. Qed.

Lemma rep_byte_nonneg w c : byteZ c -> 0 <= rep_byte w c.
Proof. intros Hc. apply le_val_nonneg, Forall_replicate, Hc. Qed.

(** The steps on one byte. *)
Definition pairs8 (a : Z) : Z := a - Z.land (Z.shiftr a 1) 0x55.
Definition nibbles8 (a : Z) : Z := Z.land a 0x33 + Z.land (Z.shiftr a 2) 0x33.
Definition octet8 (a : Z) : Z := Z.land (a + Z.shiftr a 4) 15.
Definition two_nibbles (a : Z) : Prop := 0 <= a mod 16 <= 4 /\ 0 <= a / 16 <= 4.

Lemma pairs8_byte a : byteZ a -> byteZ (pairs8 a).
Proof. intros Ha. apply (all_bytes (fun a => (0 <=? pairs8 a) && (pairs8 a <? 256))) in Ha; [unfold byteZ; lia|by vm_compute]. Qed.

Lemma nibbles8_ok a : byteZ a -> two_nibbles (nibbles8 (pairs8 a)) /\ octet8 (nibbles8 (pairs8 a)) = pc a.
Proof.
  intros Ha. apply (all_bytes (fun a => let n := nibbles8 (pairs8 a) in
    (0 <=? n mod 16) && (n mod 16 <=? 4) && (0 <=? n / 16) && (n / 16 <=? 4) && (octet8 n =? pc a))) in Ha; [|by vm_compute].
  cbv zeta in Ha. unfold two_nibbles. lia.
Qed.

Lemma two_nibbles_range a : two_nibbles a -> 0 <= a <= 68.
Proof. unfold two_nibbles. intros. dlia. Qed.

Lemma word_pairs w : Forall byteZ w -> le_val w - Z.land (Z.shiftr (le_val w) 1) (rep_byte w 0x55) = le_val (pairs8 <$> w).
Proof.
  induction 1 as [|a w Ha Hw IH]; [done|]. unfold rep_byte in *. cbn [replicate length le_val fmap list_fmap].
  assert (byteZ 0x55) as H55 by (unfold byteZ; lia). pose proof (rep_byte_nonneg w 0x55 H55). pose proof (le_val_nonneg w Hw).
  unfold rep_byte in *. rewrite shiftr_land_cons by (done || lia). unfold pairs8 at 1. lia.
Qed.

Lemma word_nibbles w : Forall byteZ w ->
  Z.land (le_val w) (rep_byte w 0x33) + Z.land (Z.shiftr (le_val w) 2) (rep_byte w 0x33) = le_val (nibbles8 <$> w).
Proof.
  assert (byteZ 0x33) as H33 by (unfold byteZ; lia).
  induction 1 as [|a w Ha Hw IH]; [done|]. pose proof (rep_byte_nonneg w 0x33 H33) as Hn. unfold rep_byte in *.
  cbn [replicate length le_val fmap list_fmap]. pose proof (le_val_nonneg w Hw).
  rewrite shiftr_land_cons by (done || lia). pose proof (shiftr_land_cons a (le_val w) 0x33 (le_val (replicate (length w) 0x33)) 0) as E.
  rewrite !Z.shiftr_0_r in E. rewrite E by (done || lia). unfold nibbles8 at 1. lia.
Qed.

Lemma word_octets w : Forall two_nibbles w ->
  Z.land (le_val w + Z.shiftr (le_val w) 4) (rep_byte w 15) = le_val (octet8 <$> w) /\ 0 <= le_val w mod 16 <= 4.
Proof.
  assert (byteZ 15) as H15 by (unfold byteZ; lia).
  induction 1 as [|a w Ha Hw [IH Hr]]; [done|]. pose proof (rep_byte_nonneg w 15 H15) as Hn. unfold rep_byte in *.
  cbn [replicate length le_val fmap list_fmap]. set (r := le_val w) in *. set (M := le_val (replicate _ _)) in *.
  pose proof (two_nibbles_range a Ha) as Hb. assert (0 <= r).
  { apply le_val_nonneg. eapply Forall_impl; [exact Hw|]. intros b Hb'%two_nibbles_range. unfold byteZ. lia. }
  rewrite <- IH, !(Z.shiftr_div_pow2 _ 4) by lia. change (2 ^ 4) with 16.
  assert ((a + 256 * r) / 16 = a / 16 + 16 * r) as -> by dlia. destruct Ha as [Ha1 Ha2]. split; [|dlia].
  replace (a + 256 * r + (a / 16 + 16 * r)) with ((a + a / 16 + 16 * (r mod 16)) + 256 * (r + r / 16)) by dlia.
  pose proof (shiftr_land_cons (a + a / 16 + 16 * (r mod 16)) (r + r / 16) 15 M 0) as E. rewrite !Z.shiftr_0_r in E.
  rewrite E by (unfold byteZ; dlia). f_equal. unfold octet8. rewrite Z.shiftr_div_pow2 by lia.
  change (2 ^ 4) with 16. rewrite !(land_ones_mod _ 4 15) by done. change (2 ^ 4) with 16. dlia.
Qed.

Lemma word32 w : Forall byteZ w -> length w = 4%nat -> in_u 32 (le_val w).
Proof. intros H%le_val_range Hl. rewrite Hl in H. exact H. Qed.

Lemma nibbles_small w : Forall two_nibbles w -> length w = 4%nat -> 0 <= le_val w < 2 ^ 31.
Proof.
  intros Hw Hl. destruct w as [|a [|b [|c [|d [|]]]]]; try done. cbn [le_val].
  rewrite !Forall_cons in Hw. destruct Hw as (?%two_nibbles_range & ?%two_nibbles_range & ?%two_nibbles_range & ?%two_nibbles_range & _). lia.
Qed.

Lemma octets_nibbles w : Forall byteZ w -> length w = 4%nat -> octets (nibbles (le_val w)) = le_val (pc <$> w).
Proof.
  intros Hw Hl. pose proof (word_pairs w Hw) as E1.
  assert (Forall byteZ (pairs8 <$> w)) as Hp by (apply Forall_fmap; eapply Forall_impl; [exact Hw|apply pairs8_byte]).
  pose proof (word_nibbles _ Hp) as E2. rewrite <- list_fmap_compose in E2.
  assert (Forall two_nibbles (nibbles8 ∘ pairs8 <$> w)) as Hn.
  { apply Forall_fmap. eapply Forall_impl; [exact Hw|]. intros a Ha. by apply nibbles8_ok. }
  destruct (word_octets _ Hn) as [E3 _]. rewrite <- list_fmap_compose in E3. unfold rep_byte in *. rewrite !length_fmap, Hl in *.
  assert (octet8 ∘ (nibbles8 ∘ pairs8) <$> w = pc <$> w) as Ep.
  { apply list_fmap_ext. intros i a Ha%list_elem_of_lookup_2. cbn. rewrite Forall_forall in Hw. by apply nibbles8_ok, Hw. }
  change (le_val (replicate 4 0x55)) with 0x55555555 in E1. change (le_val (replicate 4 0x33)) with 0x33333333 in E2.
  change (le_val (replicate 4 15)) with 0x0F0F0F0F in E3. assert (length (nibbles8 ∘ pairs8 <$> w) = 4%nat) as Hl' by (by rewrite length_fmap).
  unfold nibbles, octets. rewrite E1, (wrap_id 32 (le_val (pairs8 <$> w))), E2 by (apply word32; by rewrite ?length_fmap).
  pose proof (nibbles_small _ Hn Hl') as Hs. rewrite (wrap_id 32 (le_val (nibbles8 ∘ pairs8 <$> w))), (wrap_id 32), E3, Ep; [done|..].
  all: rewrite ?Z.shiftr_div_pow2 by lia; unfold in_u; dlia.
Qed.

(** The seven words of a pass. *)
Definition word_sum (ws : list (list Z)) : Z := foldl (fun n w => n + ones (bits w)) 0 ws.

Lemma ones_word a b c d : ones (bits [a; b; c; d]) = pc a + pc b + pc c + pc d.
Proof. rewrite !ones_bits_cons. cbn. lia. Qed.

Lemma load_spec little n s i w : slice s i n = Some w -> load little n s i = Some (le_val (if little then w else rev w)).
Proof. intros E. unfold load. by rewrite E. Qed.

Lemma sum_bytes a b c d : 0 <= a <= 56 -> 0 <= b <= 56 -> 0 <= c <= 56 -> 0 <= d <= 56 ->
  Z.shiftr (u32 (le_val [a; b; c; d] * 0x01010101)) 24 = a + b + c + d.
Proof.
  intros. rewrite Z.shiftr_div_pow2 by lia. unfold wrap. cbn [le_val]. symmetry.
  rewrite <- (Z.mod_unique _ (2 ^ 32) (b + c + d + 256 * (c + d) + 65536 * d) (a + 256 * (a + b) + 65536 * (a + b + c) + 2 ^ 24 * (a + b + c + d)));
    [|left; lia|lia].
  apply (Z.div_unique _ _ _ (a + 256 * (a + b) + 65536 * (a + b + c))); [left|]; lia.
Qed.

Lemma octets_word (little : bool) w : Forall byteZ w -> length w = 4%nat -> exists a b c d,
  octets (nibbles (le_val (if little then w else rev w))) = le_val [a; b; c; d] /\
  Forall (fun n => 0 <= n <= 8) [a; b; c; d] /\ a + b + c + d = ones (bits w).
Proof.
  intros Hw Hl. destruct w as [|x [|y [|z [|t [|]]]]]; try done. rewrite ones_word.
  assert (Forall (fun n => 0 <= n <= 8) (pc <$> [x; y; z; t])) as Hp by (apply Forall_fmap; eapply Forall_impl; [exact Hw|apply pc_range]).
  destruct little.
  - rewrite octets_nibbles by done. exists (pc x), (pc y), (pc z), (pc t). done.
  - rewrite octets_nibbles by (by apply Forall_rev || done). exists (pc t), (pc z), (pc y), (pc x). split; [done|]. split; [exact (Forall_rev Hp)|lia].
Qed.

Section Count.
Context (little : bool).

Definition word_value (w : list Z) : Z := le_val (if little then w else rev w).

Lemma fold_words ws : forall m A B C D, Forall (fun w => Forall byteZ w /\ length w = 4%nat) ws -> 0 <= m -> m + Z.of_nat (length ws) <= 7 ->
  Forall (fun n => 0 <= n <= 8 * m) [A; B; C; D] -> exists A' B' C' D',
  foldl (fun n aux => u32 (n + octets (nibbles aux))) (le_val [A; B; C; D]) (word_value <$> ws) = le_val [A'; B'; C'; D'] /\
  Forall (fun n => 0 <= n <= 56) [A'; B'; C'; D'] /\ A' + B' + C' + D' = A + B + C + D + ones (bits (concat ws)).
Proof.
  induction ws as [|w ws IH]; intros m A B C D Hw Hm Hl Hb; cbn [fmap list_fmap foldl length concat] in *.
  - exists A, B, C, D. split; [done|]. split; [eapply Forall_impl; [exact Hb|cbn; lia]|cbn; lia].
  - apply Forall_cons in Hw as [[Hw Hl4] Hws]. destruct (octets_word little w Hw Hl4) as (a & b & c & d & Ew & Hn & Es).
    unfold word_value at 1. rewrite Ew, !Forall_cons in *. destruct_and! Hn. destruct_and! Hb.
    replace (le_val [A; B; C; D] + le_val [a; b; c; d]) with (le_val [A + a; B + b; C + c; D + d]) by (cbn [le_val]; lia).
    rewrite wrap_id by (unfold in_u; cbn [le_val]; lia).
    destruct (IH (m + 1) (A + a) (B + b) (C + c) (D + d)) as (A' & B' & C' & D' & E & HB & ES); [done|lia|lia|repeat constructor; lia|].
    exists A', B', C', D'. split; [done|]. split; [done|]. rewrite ES, bits_app, ones_app, <- Es. lia.
Qed.

Lemma words_sum ws : Forall (fun w => Forall byteZ w /\ length w = 4%nat) ws -> length ws = 7%nat ->
  Z.shiftr (u32 (foldl (fun n aux => u32 (n + octets (nibbles aux))) 0 (word_value <$> ws) * 0x01010101)) 24 = ones (bits (concat ws)).
Proof.
  intros Hw Hl. destruct (fold_words ws 0 0 0 0 0) as (A & B & C & D & E & Hb & ES); [done|lia|lia|repeat constructor; lia|].
  change (le_val [0; 0; 0; 0]) with 0 in E. rewrite E. rewrite !Forall_cons in Hb. destruct_and! Hb. rewrite sum_bytes by lia. lia.
Qed.

Definition word_at (s : list Z) (i : nat) : list Z := take 4 (drop i s).

Lemma load_word s i : 0 <= i -> i + 4 <= Z.of_nat (length s) -> load little 4 s i = Some (word_value (word_at s (Z.to_nat i))).
Proof. intros Hi H. unfold load, slice. by zb. Qed.

Lemma words_28 s : concat (word_at s <$> [0; 4; 8; 12; 16; 20; 24]%nat) = take 28 s.
Proof.
  cbn [fmap list_fmap concat]. unfold word_at. rewrite app_nil_r, !app_assoc, drop_0.
  do 6 (rewrite take_take_drop; cbn [Nat.add]). done.
Qed.

Lemma word_at_ok s i : Forall byteZ s -> (i + 4 <= length s)%nat -> Forall byteZ (word_at s i) /\ length (word_at s i) = 4%nat.
Proof. intros Hs Hl. split; [by apply Forall_take, Forall_drop|]. unfold word_at. rewrite length_take, length_drop. lia. Qed.

Lemma pass_28 s count bits0 fuel : Forall byteZ s -> 28 <= count <= Z.of_nat (length s) ->
  popcount_words little (S fuel) s count bits0 = popcount_words little fuel (drop 28 s) (count - 28) (bits0 + ones (bits (take 28 s))).
Proof.
  intros Hs Hc. cbn [popcount_words]. zb. rewrite (load_word s 0), (load_word s 4), (load_word s 8), (load_word s 12), (load_word s 16),
    (load_word s 20), (load_word s 24) by lia. cbn [mbind option_bind]. rewrite <- words_28.
  rewrite <- (words_sum (word_at s <$> [0; 4; 8; 12; 16; 20; 24]%nat)); [done| |done].
  apply Forall_fmap. repeat constructor; apply word_at_ok; (done || lia).
Qed.

Lemma popcount_words_spec fuel : forall s count b0, Forall byteZ s -> 0 <= count <= Z.of_nat (length s) -> (length s < fuel)%nat ->
  exists r, popcount_words little fuel s count b0 = Some r /\ counted s count b0 r.
Proof.
  induction fuel as [|fuel IH]; intros s count b0 Hs Hc Hf; [lia|]. destruct (Z.leb_spec 28 count).
  - rewrite pass_28 by (done || lia).
    destruct (IH (drop 28 s) (count - 28) (b0 + ones (bits (take 28 s)))) as (r & -> & a & t & E & -> & Ha);
      [by apply Forall_drop|rewrite length_drop; lia..|].
    eexists. split; [done|]. exists (take 28 s ++ a), t. rewrite <- app_assoc, <- E, take_drop.
    rewrite bits_app, ones_app, length_app, length_take. split; [done|]. split; [|lia]. f_equal; [f_equal|]; lia.
  - cbn [popcount_words]. zb. eexists. split; [done|]. apply counted_none. lia.
Qed.

Lemma popcount_tail_spec s : forall (n : nat) b0, Forall byteZ s -> (n <= length s)%nat -> popcount_tail s n b0 = Some (b0 + ones (bits (take n s))).
Proof.
  induction s as [|c s IH]; intros [|n] b0 Hs Hn; cbn [popcount_tail take length] in *; try (cbn; f_equal; lia).
  apply Forall_cons in Hs as [Hc Hs]. rewrite bitsinbyte_get by done. cbn [mbind option_bind].
  rewrite IH by (done || lia). rewrite ones_bits_cons. f_equal. lia.
Qed.

Lemma redisPopcount_spec p s count : Forall byteZ s -> 0 <= count <= Z.of_nat (length s) ->
  redisPopcount little p s count = Some (ones (bits (take (Z.to_nat count) s))).
Proof.
  intros Hs Hc. unfold redisPopcount. destruct (popcount_head_spec s p count 0 Hs Hc) as (r & -> & a & t & -> & -> & Ha).
  cbn [mbind option_bind]. apply Forall_app in Hs as [Hsa Hst]. rewrite length_app in Hc.
  destruct (popcount_words_spec (S (length t)) t (count - Z.of_nat (length a)) (0 + ones (bits a)) Hst) as (r & -> & b & u & -> & -> & Hb);
    [lia|lia|]. cbn [mbind option_bind]. zb. rewrite length_app in *. apply Forall_app in Hst as [Hsb Hsu].
  rewrite popcount_tail_spec by (done || lia). rewrite take_app, (take_ge a), take_app, (take_ge b), !bits_app, !ones_app by lia. f_equal.
  replace (Z.to_nat count - length a - length b)%nat with (Z.to_nat (count - Z.of_nat (length a) - Z.of_nat (length b))) by lia. lia.
Qed.
End Count.

(** ** Bits and values *)

Lemma uval_acc l : forall v, foldl (fun v b => 2 * v + b2z b) v l = v * 2 ^ Z.of_nat (length l) + uval l.
Proof.
  unfold uval. induction l as [|b l IH]; intros v; cbn [foldl length]; [lia|].
  rewrite IH, (IH (2 * 0 + b2z b)). rewrite Nat2Z.inj_succ, Z.pow_succ_r by lia. lia.
Qed.

Lemma uval_app l m : uval (l ++ m) = uval l * 2 ^ Z.of_nat (length m) + uval m.
Proof. unfold uval at 1. rewrite foldl_app. apply uval_acc. Qed.

Lemma uval_cons b l : uval (b :: l) = b2z b * 2 ^ Z.of_nat (length l) + uval l.
Proof. apply (uval_app [b]). Qed.

Lemma uval_range l : in_u (Z.of_nat (length l)) (uval l).
Proof.
  unfold in_u. induction l as [|b l IH]; [done|]. rewrite uval_cons. cbn [length].
  rewrite Nat2Z.inj_succ, Z.pow_succ_r by lia. destruct b; cbn [b2z]; lia.
Qed.

Lemma length_to_bits n v : length (to_bits n v) = n.
Proof. induction n; cbn [to_bits length]; lia. Qed.

Lemma to_bits_mod n : forall v w, v mod 2 ^ Z.of_nat n = w mod 2 ^ Z.of_nat n -> to_bits n v = to_bits n w.
Proof.
  intros v w E. assert (forall i, 0 <= i < Z.of_nat n -> Z.testbit v i = Z.testbit w i) as H.
  { intros i Hi. rewrite <- (wrap_bit (Z.of_nat n) v), <- (wrap_bit (Z.of_nat n) w) by lia. unfold wrap. by rewrite E. }
  clear E. induction n as [|n IH]; [done|]. cbn [to_bits]. rewrite IH by (intros; apply H; lia). f_equal. apply H. lia.
Qed.

Lemma to_bits_uval l : to_bits (length l) (uval l) = l.
Proof.
  induction l as [|b l IH]; [done|]. cbn [length to_bits]. pose proof (uval_range l) as Hr. unfold in_u in Hr. rewrite uval_cons.
  rewrite (to_bits_mod _ _ (uval l)), IH by (rewrite Z.add_comm; apply Z.mod_add; lia). f_equal.
  apply Z.b2z_inj. rewrite Z.testbit_spec' by lia. rewrite Z.add_comm, Z.div_add, Z.div_small by lia. by destruct b.
Qed.

Lemma uval_to_bits n v : uval (to_bits n v) = v mod 2 ^ Z.of_nat n.
Proof.
  induction n as [|n IH]; cbn [to_bits]; [symmetry; apply Z.mod_1_r|]. rewrite uval_cons, IH, length_to_bits.
  change b2z with Z.b2z. rewrite Z.testbit_spec' by lia. rewrite Nat2Z.inj_succ, <- Z.add_1_r, Z.pow_add_r, Z.rem_mul_r by lia. change (2 ^ 1) with 2. lia.
Qed.

Lemma uval_byte c : byteZ c -> uval (byte_bits c) = c.
Proof. intros Hc. apply (all_bytes (fun c => uval (byte_bits c) =? c)) in Hc; [lia|by vm_compute]. Qed.

Lemma bits_cons c s : bits (c :: s) = byte_bits c ++ bits s.
Proof. done. Qed.

Lemma bits_inj s : forall t, Forall byteZ s -> Forall byteZ t -> bits s = bits t -> s = t.
Proof.
  induction s as [|a s IH]; intros [|b t] Hs Ht E; [done|by inversion E..|]. rewrite !bits_cons in E.
  apply app_inj_1 in E as [E1 E2]; [|done]. apply Forall_cons in Hs as [Ha Hs]. apply Forall_cons in Ht as [Hb Ht].
  f_equal; [|by apply IH]. by rewrite <- (uval_byte a), <- (uval_byte b), E1.
Qed.

Lemma land_pow2 k w : 0 <= k -> Z.land (2 ^ k) w = if Z.testbit w k then 2 ^ k else 0.
Proof.
  intros Hk. apply Z.bits_inj'. intros i Hi. rewrite Z.land_spec, Z.pow2_bits_eqb by done. destruct (Z.eqb_spec k i) as [->|Hne].
  - destruct (Z.testbit w i); rewrite ?Z.pow2_bits_true by done; by rewrite ?Z.bits_0.
  - destruct (Z.testbit w k); rewrite ?Z.pow2_bits_false by done; by rewrite ?Z.bits_0.
Qed.

Lemma bit_test k w : 0 <= k -> negb (Z.land w (Z.shiftl 1 k) =? 0) = Z.testbit w k.
Proof.
  intros Hk. rewrite Z.shiftl_1_l, Z.land_comm, land_pow2 by done. destruct (Z.testbit w k); [|done].
  pose proof (Z.pow_pos_nonneg 2 k). zb. done.
Qed.

(** ** Searching *)

Lemma first_bit_all b l : first_bit b l = Z.of_nat (length l) -> l = replicate (length l) (negb b).
Proof.
  induction l as [|x l IH]; [done|]. cbn [first_bit length replicate]. pose proof (first_bit_range b l).
  destruct (Bool.eqb x b) eqn:E; [lia|]. intros H1. rewrite <- IH by lia. f_equal. by destruct x, b.
Qed.

Definition skip_byte (b : bool) : Z := if b then 0 else 255.

Lemma bits_skip b n : bits (replicate n (skip_byte b)) = replicate (8 * n) (negb b).
Proof.
  induction n as [|n IH]; [done|]. cbn [replicate]. rewrite bits_cons, IH.
  replace (8 * S n)%nat with (8 + 8 * n)%nat by lia. rewrite replicate_add. by destruct b.
Qed.

Lemma skip_byteZ b : byteZ (skip_byte b).
Proof. destruct b; unfold byteZ; cbn; lia. Qed.

Lemma not_skip b w : Forall byteZ w -> w <> replicate (length w) (skip_byte b) -> first_bit b (bits w) < Z.of_nat (length (bits w)).
Proof.
  intros Hw Hne. pose proof (first_bit_range b (bits w)). destruct (Z.eq_dec (first_bit b (bits w)) (Z.of_nat (length (bits w)))) as [E|]; [|lia].
  exfalso. apply Hne, bits_inj; [done|apply Forall_replicate, skip_byteZ|].
  rewrite bits_skip. apply first_bit_all in E. by rewrite length_bits in E.
Qed.

(** A prefix of bytes without the bit has been skipped. *)
Definition skipped (b : bool) (s : list Z) (count pos : Z) (t : list Z) (count' pos' : Z) : Prop :=
  exists n : nat, s = replicate n (skip_byte b) ++ t /\ count' = count - Z.of_nat n /\ pos' = pos + 8 * Z.of_nat n /\ Z.of_nat n <= count.

Lemma skipped_none b s count pos : 0 <= count -> skipped b s count pos s count pos.
Proof. intros H. exists 0%nat. split_and!; [done|lia..]. Qed.

Lemma skipped_more b (m : nat) s count pos t count' pos' : Z.of_nat m <= count ->
  skipped b s (count - Z.of_nat m) (pos + 8 * Z.of_nat m) t count' pos' -> skipped b (replicate m (skip_byte b) ++ s) count pos t count' pos'.
Proof.
  intros Hm (n & -> & -> & -> & Hn). exists (m + n)%nat. rewrite replicate_add, <- app_assoc. split_and!; [done|lia..].
Qed.

Lemma bitpos_bytes_spec b s : forall c count pos, Forall byteZ s -> 0 <= count <= Z.of_nat (length s) -> exists t count' pos' found,
  bitpos_bytes c s count (skip_byte b) pos = Some (t, count', pos', found) /\ skipped b s count pos t count' pos' /\
  (found = true -> 0 < count' /\ exists x u, t = x :: u /\ x <> skip_byte b).
Proof.
  induction s as [|x s IH]; intros c count pos Hs Hc; cbn [bitpos_bytes]; destruct (_ || _) eqn:E.
  1, 3: do 4 eexists; split; [done|]; split; [apply skipped_none; lia|done].
  - cbn [length] in Hc. lia.
  - destruct (Z.eqb_spec x (skip_byte b)) as [->|Hne]; cbn [negb].
    + apply Forall_cons in Hs as [_ Hs]. cbn [length] in Hc.
      destruct (IH (u64 (c + 1)) (count - 1) (pos + 8) Hs ltac:(lia)) as (t & count' & pos' & found & -> & Hk & Hf).
      exists t, count', pos', found. split; [done|]. split; [|done]. by apply (skipped_more b 1); [lia|].
    + do 4 eexists. split; [done|]. split; [apply skipped_none; lia|]. intros _. split; [lia|]. by eexists _, _.
Qed.

Definition skip_word (b : bool) : Z := if b then 0 else UINT64_MAX.

Lemma skip_word_eq little b w : Forall byteZ w -> length w = 8%nat ->
  (if little : bool then le_val w else le_val (rev w)) = skip_word b -> w = replicate 8 (skip_byte b).
Proof.
  intros Hw Hl. assert (skip_word b = le_val (replicate 8 (skip_byte b))) as -> by (by destruct b).
  assert (forall w, Forall byteZ w -> length w = 8%nat -> le_val w = le_val (replicate 8 (skip_byte b)) -> w = replicate 8 (skip_byte b)) as Hinj.
  { intros v Hv Hlv E. rewrite <- (le_bytes_val v), Hlv, E by done. apply (le_bytes_val (replicate 8 (skip_byte b))), Forall_replicate, skip_byteZ. }
  destruct little; [by apply Hinj|]. intros E%Hinj; [|by apply Forall_rev|by rewrite length_rev].
  by rewrite <- (rev_involutive w), E.
Qed.

Section Search.
Context (little : bool).

Lemma bitpos_words_spec b fuel : forall s count pos, Forall byteZ s -> 0 <= count <= Z.of_nat (length s) -> (length s < fuel)%nat ->
  exists t count' pos', bitpos_words little fuel s count (skip_word b) pos = Some (t, count', pos') /\ skipped b s count pos t count' pos' /\
  (8 <= count' -> take 8 t <> replicate 8 (skip_byte b)).
Proof.
  induction fuel as [|fuel IH]; intros s count pos Hs Hc Hf; [lia|]. cbn [bitpos_words]. destruct (Z.geb_spec count 8).
  2:{ do 3 eexists. split; [done|]. split; [apply skipped_none; lia|lia]. }
  assert (length (take 8 s) = 8%nat) as Hl by (rewrite length_take; lia).
  assert (slice s 0 8 = Some (take 8 s)) as E8 by (unfold slice; by zb). rewrite (load_spec _ _ _ _ _ E8). cbn [mbind option_bind].
  destruct (Z.eqb_spec (le_val (if little then take 8 s else rev (take 8 s))) (skip_word b)) as [E|Hne]; cbn [negb].
  - assert (take 8 s = replicate 8 (skip_byte b)) as E' by (apply (skip_word_eq little); [by apply Forall_take|done|by destruct little]).
    destruct (IH (drop 8 s) (count - 8) (pos + 64)) as (t & count' & pos' & -> & Hk & Ht); [by apply Forall_drop|rewrite length_drop; lia..|].
    exists t, count', pos'. split; [done|]. split; [|done]. rewrite <- (take_drop 8 s), E'. by apply (skipped_more b 8); [lia|].
  - do 3 eexists. split; [done|]. split; [apply skipped_none; lia|]. intros _ E'. apply Hne. rewrite E'. by destruct little, b.
Qed.

(** The last word: the bytes left, up to eight, and zeroes. *)
Definition last_word (s : list Z) (count : Z) (j : nat) : list Z := take j (take (Z.to_nat count) s ++ replicate j 0).

Lemma bitpos_load_spec j : forall s count word, Forall byteZ s -> 0 <= count <= Z.of_nat (length s) ->
  0 <= word < 2 ^ (64 - 8 * Z.of_nat j) -> (j <= 8)%nat ->
  bitpos_load j s count word = Some (word * 2 ^ (8 * Z.of_nat j) + uval (bits (last_word s count j))).
Proof.
  induction j as [|j IH]; intros s count word Hs Hc Hw Hj; cbn [bitpos_load]; [unfold last_word; rewrite take_0; f_equal; change (8 * Z.of_nat 0) with 0; change (uval (bits [])) with 0; lia|].
  assert (2 ^ (64 - 8 * Z.of_nat j) = 256 * 2 ^ (64 - 8 * Z.of_nat (S j))) as Ep.
  { change 256 with (2 ^ 8). rewrite <- Z.pow_add_r by lia. f_equal. lia. }
  assert (2 ^ (64 - 8 * Z.of_nat j) <= 2 ^ 64) by (apply Z.pow_le_mono_r; lia).
  assert (2 ^ (8 * Z.of_nat (S j)) = 256 * 2 ^ (8 * Z.of_nat j)) as Ep'.
  { change 256 with (2 ^ 8). rewrite <- Z.pow_add_r by lia. f_equal. lia. }
  rewrite Z.shiftl_mul_pow2, wrap_id by (unfold in_u; lia). change (2 ^ 8) with 256. rewrite Ep'. unfold last_word in *.
  destruct (Z.eqb_spec count 0) as [->|Hne].
  - rewrite IH by (done || lia). cbn [replicate]. f_equal. change (Z.to_nat 0) with 0%nat. rewrite !take_0. cbn [app take].
    rewrite bits_cons, uval_app. rewrite (uval_byte 0) by (unfold byteZ; lia). lia.
  - destruct s as [|c s]; [cbn in Hc; lia|]. apply Forall_cons in Hs as [Hb Hs]. cbn [length] in Hc.
    assert (Z.lor (word * 256) c = word * 256 + c) as ->.
    { rewrite Z.lor_comm. change 256 with (2 ^ 8). rewrite lor_disjoint; [lia|lia|]. unfold in_u, byteZ in *. lia. }
    rewrite IH by (unfold byteZ in *; done || lia). f_equal.
    replace (Z.to_nat count) with (S (Z.to_nat (count - 1))) by lia. cbn [take app]. rewrite bits_cons, uval_app, uval_byte by done.
    replace (take j (take (Z.to_nat (count - 1)) s ++ replicate (S j) 0)) with (take j (take (Z.to_nat (count - 1)) s ++ replicate j 0)).
    2:{ replace (S j) with (j + 1)%nat by lia. rewrite replicate_add, app_assoc. symmetry. apply take_app_le. rewrite length_app, length_replicate. lia. }
    rewrite length_bits, length_take_le by (rewrite length_app, length_replicate; lia).
    replace (Z.of_nat (8 * j)) with (8 * Z.of_nat j) by lia. lia.
Qed.

Lemma bitpos_scan_spec b word (n : nat) : forall fuel pos, (n < fuel)%nat ->
  bitpos_scan fuel (Z.shiftr (2 ^ Z.of_nat n) 1) word (b2z b) pos =
  let k := first_bit b (to_bits n word) in if k <? Z.of_nat n then Some (pos + k) else None.
Proof.
  induction n as [|n IH]; intros [|fuel] pos Hf; [lia|done|lia|]. cbn [bitpos_scan to_bits first_bit].
  assert (Z.shiftr (2 ^ Z.of_nat (S n)) 1 = 2 ^ Z.of_nat n) as ->.
  { rewrite Z.shiftr_div_pow2 by lia. change (2 ^ 1) with 2. rewrite Nat2Z.inj_succ, Z.pow_succ_r by lia. dlia. }
  pose proof (Z.pow_pos_nonneg 2 (Z.of_nat n)). zb. rewrite (Z.land_comm (2 ^ Z.of_nat n)), <- Z.shiftl_1_l, bit_test by lia.
  assert ((b2z (Z.testbit word (Z.of_nat n)) =? b2z b) = Bool.eqb (Z.testbit word (Z.of_nat n)) b) as -> by (by destruct (Z.testbit _ _), b).
  destruct (Bool.eqb _ _); [zb; f_equal; lia|]. rewrite Z.shiftl_1_l, IH by lia. cbv zeta.
  repeat case_zb; try lia; f_equal; lia.
Qed.

Lemma last_word_len s count : 0 <= count <= Z.of_nat (length s) -> length (bits (last_word s count 8)) = 64%nat.
Proof. intros Hc. unfold last_word. rewrite length_bits, length_take, length_app, length_take, length_replicate. lia. Qed.

(** The bytes left hold the bit at the place the last word says. *)
Lemma last_word_first b s count : Forall byteZ s -> 0 <= count <= Z.of_nat (length s) ->
  (8 <= count -> take 8 s <> replicate 8 (skip_byte b)) ->
  let k := first_bit b (bits (last_word s count 8)) in let l := bits (take (Z.to_nat count) s) in
  first_bit b l = (if k <? 64 then k else 8 * count) /\ (if b then k < 64 -> k < 8 * count else k < 64).
Proof.
  intros Hs Hc Hx. cbv zeta. unfold last_word. pose proof (Forall_take _ (Z.to_nat count) _ Hs) as Hs'. set (l := take (Z.to_nat count) s) in *.
  assert (Z.of_nat (length l) = count) as Hl by (unfold l; rewrite length_take; lia).
  destruct (Z.leb_spec 8 count) as [H8|H8].
  - rewrite take_app_le by lia. assert (take 8 l = take 8 s) as E8 by (unfold l; rewrite take_take; f_equal; lia).
    assert (length (take 8 l) = 8%nat) as Hl8 by (rewrite length_take; lia).
    pose proof (not_skip b (take 8 l)) as Hn. rewrite length_bits, Hl8, E8 in Hn. specialize (Hn (Forall_take _ _ _ Hs) (Hx H8)).
    rewrite <- (take_drop 8 l) at 1. rewrite bits_app, first_bit_app, length_bits, Hl8, E8. zb. split; [done|]. destruct b; lia.
  - rewrite take_app, take_ge by lia. assert (replicate 8 0 = replicate (8 - length l) 0 ++ replicate (length l) 0) as ->.
    { rewrite <- replicate_add. f_equal. lia. }
    rewrite take_app_le, (take_ge (replicate _ _)) by (rewrite length_replicate; lia).
    rewrite bits_app, first_bit_app, (bits_skip true), length_bits. pose proof (first_bit_range b (bits l)) as Hr. rewrite length_bits in Hr.
    destruct b; [rewrite (first_bit_none true)|]; [repeat case_zb; lia|].
    replace (8 * (8 - length l))%nat with (S (63 - 8 * length l)) by lia. cbn [negb replicate first_bit Bool.eqb]. repeat case_zb; lia.
Qed.

Lemma first_bit_skipped b n t : first_bit b (bits (replicate n (skip_byte b) ++ t)) = 8 * Z.of_nat n + first_bit b (bits t).
Proof.
  rewrite bits_app, first_bit_app, bits_skip, first_bit_none, length_replicate. zb. lia.
Qed.

(** What [redisBitpos] returns on the bits [l]. *)
Definition bitpos_result (b : bool) (l : list bool) : Z :=
  let k := first_bit b l in if b && (k =? Z.of_nat (length l)) then -1 else k.

Lemma bitpos_end b s count pos : Forall byteZ s -> 0 <= count <= Z.of_nat (length s) ->
  (8 <= count -> take 8 s <> replicate 8 (skip_byte b)) ->
  (word ← bitpos_load 8 s count 0;
   if (b2z b =? 1) && (word =? 0) then Some (-1) else bitpos_scan 65 (u64 (Z.lnot (Z.shiftr UINT64_MAX 1))) word (b2z b) pos) =
  let k := first_bit b (bits (take (Z.to_nat count) s)) in Some (if b && (k =? 8 * count) then -1 else pos + k).
Proof.
  intros Hs Hc Hx. rewrite bitpos_load_spec by (done || lia). cbn [mbind option_bind]. rewrite Z.mul_0_l, Z.add_0_l.
  destruct (last_word_first b s count Hs Hc Hx) as [E Hf]. cbv zeta in *. rewrite E.
  pose proof (last_word_len s count Hc) as Hl. pose proof (to_bits_uval (bits (last_word s count 8))) as Eu. rewrite Hl in Eu.
  set (W := bits (last_word s count 8)) in *. pose proof (first_bit_range b W) as Hr. rewrite Hl in Hr.
  assert (u64 (Z.lnot (Z.shiftr UINT64_MAX 1)) = Z.shiftr (2 ^ Z.of_nat 64) 1) as -> by done.
  assert (uval W = 0 -> W = replicate 64 false) as Hz by (intros E0; by rewrite E0 in Eu).
  rewrite bitpos_scan_spec, Eu by lia. cbv zeta. destruct b; cbn [b2z andb].
  - destruct (Z.eqb_spec (uval W) 0) as [E0|E0].
    + rewrite (Hz E0), (first_bit_none true). by zb.
    + assert (first_bit true W < 64).
      { destruct (Z.eq_dec (first_bit true W) 64) as [E1|]; [|lia]. exfalso. apply E0.
        assert (W = replicate 64 false) as -> by (rewrite <- Hl; apply (first_bit_all true); lia). done. }
      by zb.
  - by zb.
Qed.

Lemma redisBitpos_spec b p s count : Forall byteZ s -> 0 <= count <= Z.of_nat (length s) ->
  redisBitpos little p s count (b2z b) = Some (bitpos_result b (bits (take (Z.to_nat count) s))).
Proof.
  intros Hs Hc. unfold redisBitpos. replace (if b2z b =? 0 then 255 else 0) with (skip_byte b) by (by destruct b).
  replace (if b2z b =? 0 then UINT64_MAX else 0) with (skip_word b) by (by destruct b).
  destruct (bitpos_bytes_spec b s p count 0 Hs Hc) as (t & c1 & p1 & found & -> & (n & -> & -> & -> & Hn) & Hf). cbn [mbind option_bind].
  apply Forall_app in Hs as [_ Ht]. rewrite length_app, length_replicate in Hc.
  assert (exists u c2 p2, (if found then Some (t, count - Z.of_nat n, 0 + 8 * Z.of_nat n)
    else bitpos_words little (S (length t)) t (count - Z.of_nat n) (skip_word b) (0 + 8 * Z.of_nat n)) = Some (u, c2, p2) /\
    skipped b t (count - Z.of_nat n) (0 + 8 * Z.of_nat n) u c2 p2 /\ (8 <= c2 -> take 8 u <> replicate 8 (skip_byte b)))
    as (u & c2 & p2 & -> & (m & -> & -> & -> & Hm) & Hx).
  { destruct found; [|apply bitpos_words_spec; (done || lia)]. do 3 eexists. split; [done|]. split; [apply skipped_none; lia|].
    intros _ E. destruct (Hf eq_refl) as (_ & x & v & -> & Hne). by inversion E. }
  cbn [mbind option_bind]. apply Forall_app in Ht as [_ Hu]. rewrite length_app, length_replicate in Hc.
  rewrite bitpos_end by (done || lia). cbv zeta. unfold bitpos_result. rewrite take_app, length_replicate, take_replicate, Nat.min_r by lia.
  rewrite take_app, length_replicate, take_replicate, Nat.min_r, !first_bit_skipped, !length_bits, !length_app, !length_replicate, length_take by lia.
  replace (Z.to_nat count - n - m)%nat with (Z.to_nat (count - Z.of_nat n - Z.of_nat m)) by lia.
  set (k := first_bit b _). destruct b; cbn [andb]; [|f_equal; lia]. repeat case_zb; f_equal; lia.
Qed.
End Search.
