(* ===== verification/BitopsField.v ===== *)
(** * Bitmaps: integers of any width ([bitops.c])

    Reading and writing an integer field, and the overflow checks.  A field is a
    sublist of the bits of the string; writing replaces it and nothing else.
    The checks are compared with the result on unbounded integers, wrapped,
    clamped or refused.  The signed check takes some of the smallest values for
    an overflow instead of an underflow, which is stated as well. *)

From Stdlib Require Import ZArith Lia ZifyBool.
From stdpp Require Import base gmap numbers option list.
From S2P Require Import Prelude Numstr Strobj Bitops BitopsProof.

Local Open Scope Z_scope.

Lemma wrap_wrap w w' x : 0 <= w <= w' -> wrap w (wrap w' x) = wrap w x.
Proof.
  intros Hw. unfold wrap. assert (2 ^ w' = 2 ^ w * 2 ^ (w' - w)) as -> by (rewrite <- Z.pow_add_r by lia; f_equal; lia).
  pose proof (Z.pow_pos_nonneg 2 w). pose proof (Z.pow_pos_nonneg 2 (w' - w)).
  rewrite Z.rem_mul_r, Z.mul_comm, Z.mod_add by lia. apply Z.mod_mod. lia.
Qed.

(** ** One bit *)

Definition set_bit_in (c : Z) (bit : Z) (b : bool) : Z :=
  Z.lor (Z.land c (Z.lnot (Z.shiftl 1 bit))) (Z.shiftl (b2z b) bit).

Lemma set_bit_ok c (r : nat) b : byteZ c -> (r < 8)%nat ->
  let x := set_bit_in c (7 - Z.of_nat r) b in
  byteZ (u8 x) /\ byte_bits (u8 x) = <[r := b]> (byte_bits c) /\ byte_bits c !! r = Some (Z.testbit c (7 - Z.of_nat r)).
Proof.
  intros Hc Hr. apply (all_bytes (fun c => forallb (fun r => forallb (fun b =>
    let x := set_bit_in c (7 - Z.of_nat r) b in
    (0 <=? u8 x) && (u8 x <? 256) && bool_decide (byte_bits (u8 x) = <[r := b]> (byte_bits c)) &&
    bool_decide (byte_bits c !! r = Some (Z.testbit c (7 - Z.of_nat r)))) [true; false]) (seq 0 8))) in Hc; [|by vm_compute].
  rewrite forallb_forall in Hc. specialize (Hc r ltac:(apply in_seq; lia)). rewrite forallb_forall in Hc.
  specialize (Hc b ltac:(destruct b; cbn; tauto)). cbv zeta in *.
  rewrite !andb_true_iff, !bool_decide_eq_true in Hc. unfold byteZ. destruct Hc as [[[? ?] ?] ?]. split; [lia|done].
Qed.

(** The store of [set_bits], which truncates before it is truncated. *)
Lemma wide_store s i c bit b : byteZ c -> 0 <= bit < 8 ->
  put s i (Z.land (Z.lor (Z.land c (u64 (Z.lnot (Z.shiftl 1 bit)))) (Z.shiftl (b2z b) bit)) 255) = put s i (set_bit_in c bit b).
Proof.
  intros Hc Hb. unfold put. do 2 f_equal.
  apply (all_bytes (fun c => forallb (fun r => let bit := Z.of_nat r in forallb (fun b =>
    u8 (Z.land (Z.lor (Z.land c (u64 (Z.lnot (Z.shiftl 1 bit)))) (Z.shiftl (b2z b) bit)) 255) =? u8 (set_bit_in c bit b)) [true; false]) (seq 0 8))) in Hc;
    [|by vm_compute].
  rewrite forallb_forall in Hc. specialize (Hc (Z.to_nat bit) ltac:(apply in_seq; lia)). cbv zeta in Hc. rewrite forallb_forall in Hc.
  specialize (Hc b ltac:(destruct b; cbn; tauto)). rewrite Z2Nat.id in Hc by lia. lia.
Qed.

(** The byte and the bit that hold a position. *)
Lemma locate s off : 0 <= off < 8 * Z.of_nat (length s) -> exists a c t (r : nat),
  s = a ++ c :: t /\ Z.to_nat off = (length (bits a) + r)%nat /\ (r < 8)%nat /\
  Z.shiftr off 3 = Z.of_nat (length a) /\ 7 - Z.land off 7 = 7 - Z.of_nat r.
Proof.
  intros H. assert (Z.to_nat (off / 8) < length s)%nat as Hq by dlia.
  destruct (lookup_lt_is_Some_2 s (Z.to_nat (off / 8)) Hq) as [c Ec].
  exists (take (Z.to_nat (off / 8)) s), c, (drop (S (Z.to_nat (off / 8))) s), (Z.to_nat (off mod 8)).
  rewrite length_bits, length_take, Nat.min_l, Z.shiftr_div_pow2 by lia. rewrite (land_ones_mod _ 3 7) by done. change (2 ^ 3) with 8.
  split; [by rewrite take_drop_middle|]. split_and!; dlia.
Qed.

Lemma insert_mid {A} (p m q : list A) r (x : A) : (r < length m)%nat -> <[(length p + r)%nat := x]> (p ++ m ++ q) = p ++ <[r := x]> m ++ q.
Proof. intros Hr. rewrite insert_app_r, insert_app_l by done. done. Qed.

Lemma store_bit s off b : Forall byteZ s -> 0 <= off < 8 * Z.of_nat (length s) -> exists c s',
  get s (Z.shiftr off 3) = Some c /\ byteZ c /\ bits s !! Z.to_nat off = Some (Z.testbit c (7 - Z.land off 7)) /\
  put s (Z.shiftr off 3) (set_bit_in c (7 - Z.land off 7) b) = Some s' /\
  Forall byteZ s' /\ length s' = length s /\ bits s' = <[Z.to_nat off := b]> (bits s).
Proof.
  intros Hs H. destruct (locate s off H) as (a & c & t & r & -> & -> & Hr & -> & ->).
  apply Forall_app in Hs as [Ha Hs]. apply Forall_cons in Hs as [Hc Ht]. destruct (set_bit_ok c r b Hc Hr) as (Hx & Ex & El).
  exists c, (a ++ u8 (set_bit_in c (7 - Z.of_nat r) b) :: t). split; [by apply get_app|]. split; [done|].
  rewrite !bits_app, !bits_cons. split; [rewrite lookup_app_r by lia; rewrite Nat.add_comm, Nat.add_sub; by rewrite lookup_app_l by (cbn; lia)|].
  split; [by apply put_app|]. split; [apply Forall_app; split; [done|by constructor]|]. split; [by rewrite !length_app|].
  rewrite insert_mid by (cbn; lia). by rewrite Ex.
Qed.

Lemma get_bit s off : Forall byteZ s -> 0 <= off < 8 * Z.of_nat (length s) -> exists c b,
  get s (Z.shiftr off 3) = Some c /\ byteZ c /\ bits s !! Z.to_nat off = Some b /\ Z.testbit c (7 - Z.land off 7) = b /\ 0 <= 7 - Z.land off 7 < 8.
Proof.
  intros Hs H. destruct (store_bit s off true Hs H) as (c & s' & Eg & Hc & Eb & _). do 2 eexists. split; [exact Eg|]. split; [done|]. split; [exact Eb|].
  split; [done|]. rewrite (land_ones_mod _ 3 7) by done. change (2 ^ 3) with 8. dlia.
Qed.

(** ** Fields *)

Definition field (l : list bool) (off n : Z) : list bool := take (Z.to_nat n) (drop (Z.to_nat off) l).
Definition set_field (l : list bool) (off : Z) (m : list bool) : list bool :=
  take (Z.to_nat off) l ++ m ++ drop (Z.to_nat off + length m) l.

Lemma get_bits_spec s (n : nat) : forall off v, Forall byteZ s -> 0 <= off -> off + Z.of_nat n <= 8 * Z.of_nat (length s) ->
  off + Z.of_nat n < 2 ^ 64 -> 0 <= v < 2 ^ (64 - Z.of_nat n) -> (n <= 64)%nat ->
  get_bits n s off v = Some (v * 2 ^ Z.of_nat n + uval (field (bits s) off (Z.of_nat n))).
Proof.
  induction n as [|n IH]; intros off v Hs Ho Hl H64 Hv Hn; cbn [get_bits]; unfold field.
  { f_equal. change (uval _) with 0. change (2 ^ Z.of_nat 0) with 1. lia. }
  destruct (get_bit s off Hs ltac:(lia)) as (c & b & -> & Hc & Eb & Et & Hk). cbn [mbind option_bind].
  assert (2 ^ (64 - Z.of_nat n) = 2 * 2 ^ (64 - Z.of_nat (S n))) as Ep by (rewrite <- Z.pow_succ_r by lia; f_equal; lia).
  assert (2 ^ (64 - Z.of_nat n) <= 2 ^ 64) by (apply Z.pow_le_mono_r; lia).
  assert (Z.land (Z.shiftr c (7 - Z.land off 7)) 1 = b2z b) as ->.
  { rewrite (land_ones_mod _ 1 1) by done. change (2 ^ 1) with 2. rewrite Z.shiftr_div_pow2, <- Et by lia. symmetry. apply Z.testbit_spec'. lia. }
  rewrite Z.shiftl_mul_pow2, (wrap_id 64 (v * _)), (wrap_id 64) by (unfold in_u; lia). change (2 ^ 1) with 2.
  assert (Z.lor (v * 2) (b2z b) = v * 2 + b2z b) as ->.
  { rewrite Z.lor_comm. change 2 with (2 ^ 1). rewrite lor_disjoint; [lia|lia|]. unfold in_u. destruct b; cbn; lia. }
  rewrite IH by (first [done|lia|destruct b; cbn; lia]). f_equal. unfold field.
  rewrite (drop_S _ _ _ Eb). rewrite !Nat2Z.id. cbn [take]. rewrite uval_cons, length_take, length_drop, length_bits.
  rewrite Nat.min_l, Nat2Z.inj_succ, Z.pow_succ_r, Z2Nat.inj_add by lia. rewrite Nat.add_1_r. lia.
Qed.

Lemma getUnsignedBitfield_spec s off n : Forall byteZ s -> 0 <= off -> off + n <= 8 * Z.of_nat (length s) -> off + n < 2 ^ 64 -> 0 <= n <= 64 ->
  getUnsignedBitfield s off n = Some (uval (field (bits s) off n)).
Proof.
  intros Hs Ho Hl H64 Hn. unfold getUnsignedBitfield. pose proof (Z.pow_pos_nonneg 2 (64 - n)).
  rewrite get_bits_spec by (rewrite ?Z2Nat.id by lia; done || lia). rewrite Z2Nat.id by lia. f_equal.
Qed.

Lemma field_length l off n : 0 <= off -> 0 <= n -> off + n <= Z.of_nat (length l) -> length (field l off n) = Z.to_nat n.
Proof. intros. unfold field. rewrite length_take, length_drop. lia. Qed.

Lemma testbit_top n u : 1 <= n -> in_u n u -> Z.testbit u (n - 1) = (2 ^ (n - 1) <=? u).
Proof.
  intros Hn [H0 H1]. pose proof (Z.pow_pos_nonneg 2 (n - 1)). rewrite pow2_half in H1 by lia.
  apply Z.b2z_inj. rewrite Z.testbit_spec' by lia. case_zb; cbn.
  - rewrite <- (Z.div_unique u _ 1 (u - 2 ^ (n - 1))) by lia. done.
  - by rewrite Z.div_small by lia.
Qed.

Lemma swrap_top n u : 1 <= n -> in_u n u -> swrap n u = if 2 ^ (n - 1) <=? u then u - 2 ^ n else u.
Proof.
  intros Hn [H0 H1]. pose proof (pow2_half n ltac:(lia)). unfold swrap. case_zb.
  - rewrite <- (Z.mod_unique (u + 2 ^ (n - 1)) (2 ^ n) 1 (u - 2 ^ (n - 1))) by lia. lia.
  - rewrite Z.mod_small by lia. lia.
Qed.

Lemma high_mask n : 0 <= n <= 64 -> u64 (Z.shiftl UINT64_MAX n) = (2 ^ (64 - n) - 1) * 2 ^ n.
Proof.
  intros Hn. rewrite Z.shiftl_mul_pow2 by lia. unfold wrap. pose proof (Z.pow_pos_nonneg 2 n).
  assert (2 ^ (64 - n) * 2 ^ n = 2 ^ 64) by (rewrite <- Z.pow_add_r by lia; f_equal; lia).
  assert (2 ^ n <= 2 ^ 64) by (apply Z.pow_le_mono_r; lia).
  symmetry. apply (Z.mod_unique _ _ (2 ^ n - 1)); [left|]; unfold UINT64_MAX; lia.
Qed.

Lemma sign_extend n u : 1 <= n < 64 -> in_u n u -> 2 ^ (n - 1) <= u -> s64 (Z.lor u (u64 (Z.shiftl UINT64_MAX n))) = u - 2 ^ n.
Proof.
  intros Hn Hu Ht. rewrite high_mask, lor_disjoint by (done || lia). destruct Hu as [H0 H1].
  assert (2 ^ (64 - n) * 2 ^ n = 2 ^ 64) by (rewrite <- Z.pow_add_r by lia; f_equal; lia).
  assert (2 ^ n <= 2 ^ 63) by (apply Z.pow_le_mono_r; lia).
  replace (u + (2 ^ (64 - n) - 1) * 2 ^ n) with (u - 2 ^ n + 2 ^ 64) by lia.
  rewrite <- swrap_wrap by lia. replace (u64 (u - 2 ^ n + 2 ^ 64)) with (u64 (u - 2 ^ n)).
  2:{ unfold wrap. rewrite <- (Z.mod_add (u - 2 ^ n) 1) by lia. f_equal. }
  rewrite swrap_wrap by lia.
  apply swrap_id; [lia|]. unfold in_s. pose proof (Z.pow_pos_nonneg 2 (n - 1)). change (2 ^ (64 - 1)) with (2 ^ 63). lia.
Qed.

Lemma getSignedBitfield_spec s off n : Forall byteZ s -> 0 <= off -> off + n <= 8 * Z.of_nat (length s) -> off + n < 2 ^ 64 -> 1 <= n <= 64 ->
  getSignedBitfield s off n = Some (sval (field (bits s) off n)).
Proof.
  intros Hs Ho Hl H64 Hn. unfold getSignedBitfield. rewrite getUnsignedBitfield_spec by (done || lia). cbn [mbind option_bind].
  set (f := field _ _ _). pose proof (uval_range f) as Hu. unfold sval.
  assert (Z.of_nat (length f) = n) as E by (unfold f; rewrite field_length by (rewrite ?length_bits; lia); lia). rewrite E in *.
  set (u := uval f) in *. assert (in_u 64 u) by (unfold in_u in *; assert (2 ^ n <= 2 ^ 64) by (apply Z.pow_le_mono_r; lia); lia).
  rewrite wrap_swrap, wrap_id, bit_test, testbit_top, (swrap_top n u) by (done || lia).
  destruct (Z.eq_dec n 64) as [->|Hne].
  - rewrite (swrap_top 64 u) by (done || lia). done.
  - zb. cbn [andb]. case_zb; f_equal; [apply sign_extend; (done || lia)|]. apply swrap_id; [lia|].
    unfold in_s, in_u in *. assert (2 ^ (n - 1) <= 2 ^ 63) by (apply Z.pow_le_mono_r; lia). change (2 ^ (64 - 1)) with (2 ^ 63). lia.
Qed.

Lemma set_bits_spec (n : nat) : forall j s off nb v, Forall byteZ s -> 0 <= off -> off + Z.of_nat n <= 8 * Z.of_nat (length s) ->
  off + Z.of_nat n < 2 ^ 64 -> nb = j + Z.of_nat n -> exists s', set_bits n j s off nb v = Some s' /\
  Forall byteZ s' /\ length s' = length s /\ bits s' = set_field (bits s) off (to_bits n v).
Proof.
  unfold set_field. induction n as [|n IH]; intros j s off nb v Hs Ho Hl H64 ->; cbn [set_bits to_bits].
  { exists s. split_and!; [done..|]. cbn [length app]. by rewrite Nat.add_0_r, take_drop. }
  replace (j + Z.of_nat (S n) - 1 - j) with (Z.of_nat n) by lia. rewrite bit_test by lia. set (b := Z.testbit v (Z.of_nat n)).
  destruct (store_bit s off b Hs ltac:(lia)) as (c & s1 & -> & Hc & Eb & Ep & Hs1 & Hl1 & E1). cbn [mbind option_bind].
  assert (0 <= 7 - Z.land off 7 < 8) as Hk by (rewrite (land_ones_mod _ 3 7) by done; change (2 ^ 3) with 8; dlia).
  rewrite wide_store by (done || lia). rewrite Ep. cbn [mbind option_bind]. rewrite wrap_id by (unfold in_u; lia).
  destruct (IH (j + 1) s1 (off + 1) (j + Z.of_nat (S n)) v) as (s' & -> & Hs' & Hl' & E'); [done|lia..|].
  exists s'. split_and!; [done|done|lia|]. rewrite E', E1, length_to_bits. cbn [length]. rewrite length_to_bits.
  replace (Z.to_nat (off + 1)) with (S (Z.to_nat off)) by lia. rewrite drop_insert_lt by lia. rewrite (take_S_r _ _ b), take_insert_ge, <- app_assoc by (try lia; apply list_lookup_insert_eq; rewrite length_bits; lia).
  cbn [app]. by replace (Z.to_nat off + S n)%nat with (S (Z.to_nat off) + n)%nat by lia.
Qed.

Lemma setUnsignedBitfield_spec s off n v : Forall byteZ s -> 0 <= off -> off + n <= 8 * Z.of_nat (length s) -> off + n < 2 ^ 64 -> 0 <= n ->
  exists s', setUnsignedBitfield s off n v = Some s' /\ Forall byteZ s' /\ length s' = length s /\
  bits s' = set_field (bits s) off (to_bits (Z.to_nat n) v).
Proof. intros Hs Ho Hl H64 Hn. apply set_bits_spec; rewrite ?Z2Nat.id by lia; (done || lia). Qed.

Lemma setSignedBitfield_spec s off n v : Forall byteZ s -> 0 <= off -> off + n <= 8 * Z.of_nat (length s) -> off + n < 2 ^ 64 -> 0 <= n <= 64 ->
  exists s', setSignedBitfield s off n v = Some s' /\ Forall byteZ s' /\ length s' = length s /\
  bits s' = set_field (bits s) off (to_bits (Z.to_nat n) v).
Proof.
  intros Hs Ho Hl H64 Hn. unfold setSignedBitfield. rewrite (to_bits_mod _ v (u64 v)); [apply setUnsignedBitfield_spec; (done || lia)|].
  rewrite Z2Nat.id by lia. symmetry. apply wrap_wrap. lia.
Qed.

(** ** Overflow *)

(** The bounds of an integer type, and the value that is stored for [x]. *)
Definition type_min (sign : bool) (n : Z) : Z := if sign then - 2 ^ (n - 1) else 0.
Definition type_max (sign : bool) (n : Z) : Z := if sign then 2 ^ (n - 1) - 1 else 2 ^ n - 1.
Definition type_fits (sign : bool) (n x : Z) : bool := (type_min sign n <=? x) && (x <=? type_max sign n).

Definition stored (sign : bool) (n : Z) (ow : bfoverflow) (x : Z) : option Z :=
  if type_fits sign n x then Some x
  else match ow with
       | BFOVERFLOW_WRAP => Some (if sign then swrap n x else wrap n x)
       | BFOVERFLOW_SAT => Some (if x <? type_min sign n then type_min sign n else type_max sign n)
       | BFOVERFLOW_FAIL => None
       end.

(** What a check that returned [r] tells of the value [x]. *)
Definition checked (sign : bool) (n : Z) (ow : bfoverflow) (x : Z) (r : Z * Z) : Prop :=
  if type_fits sign n x then r.1 = 0
  else r.1 <> 0 /\ (ow <> BFOVERFLOW_FAIL -> stored sign n ow x = Some r.2).

Lemma low_mask n : 0 <= n <= 64 -> u64 (Z.lnot (u64 (Z.shiftl UINT64_MAX n))) = Z.ones n.
Proof.
  intros Hn. rewrite high_mask by done. assert (2 ^ (64 - n) * 2 ^ n = 2 ^ 64) by (rewrite <- Z.pow_add_r by lia; f_equal; lia).
  pose proof (Z.pow_pos_nonneg 2 n). assert (2 ^ n <= 2 ^ 64) by (apply Z.pow_le_mono_r; lia). unfold wrap. rewrite Z.ones_equiv.
  symmetry. apply (Z.mod_unique _ _ (-1)); [left; lia|]. unfold Z.lnot. lia.
Qed.

Lemma wrap_unsigned_spec value incr n : 0 <= n <= 64 -> wrap_unsigned value incr n = wrap n (value + incr).
Proof.
  intros Hn. unfold wrap_unsigned. cbv zeta. rewrite low_mask, Z.land_ones by lia. apply wrap_wrap. lia.
Qed.

Lemma checkUnsigned_spec value incr n ow limit : 1 <= n <= 63 -> in_u 64 value -> in_s 64 incr -> value < 2 ^ n \/ incr = 0 ->
  checked false n ow (value + incr) (checkUnsignedBitfieldOverflow value incr n ow limit).
Proof.
  intros Hn Hv Hi Hc. unfold in_u, in_s in *. assert (2 ^ n <= 2 ^ 63) by (apply Z.pow_le_mono_r; lia). pose proof (Z.pow_pos_nonneg 2 n).
  unfold checkUnsignedBitfieldOverflow. cbv zeta. rewrite Z.shiftl_1_l, wrap_unsigned_spec by lia. zb_false (n =? 64). rewrite (wrap_id 64 (2 ^ n - 1)) by (unfold in_u; lia).
  unfold checked, stored, type_fits, type_min, type_max.
  destruct (Z.gtb_spec value (2 ^ n - 1)) as [Hgt|Hle]; cbn [orb].
  - assert (incr = 0) as -> by lia. rewrite Z.add_0_r. zb_false ((0 <=? value) && (value <=? 2 ^ n - 1)). zb_false (value <? 0). destruct ow; cbn; (split; [lia|intros; done]).
  - rewrite !swrap_id by (unfold in_s; lia). destruct ow; repeat case_zb; cbn; try lia; split; intros; (done || lia).
Qed.

Lemma lor_high c n : 0 <= n <= 64 -> in_u 64 c -> let m := u64 (Z.shiftl UINT64_MAX n) in Z.lor c m = Z.lor (wrap n c) m.
Proof.
  intros Hn Hc. cbv zeta. rewrite high_mask by done.
  replace ((2 ^ (64 - n) - 1) * 2 ^ n) with (Z.shiftl (Z.ones (64 - n)) n) by (rewrite Z.shiftl_mul_pow2, Z.ones_equiv by lia; lia).
  apply Z.bits_inj'. intros i Hi. rewrite !Z.lor_spec, Z.shiftl_spec by lia. destruct (Z.ltb_spec i n) as [H|H].
  - by rewrite wrap_bit by lia.
  - destruct (Z.ltb_spec i 64) as [H'|H'].
    + rewrite Z.ones_spec_low by lia. by rewrite !orb_true_r.
    + rewrite (in_u_high 64 c), wrap_bit_high by (done || lia). done.
Qed.

Lemma wrap_signed_spec value incr n : 1 <= n <= 64 -> wrap_signed value incr n = swrap n (value + incr).
Proof.
  intros Hn. unfold wrap_signed. cbv zeta.
  assert (u64 (u64 value + u64 incr) = u64 (value + incr)) as -> by (unfold wrap; symmetry; apply Z.add_mod; lia).
  set (x := value + incr). rewrite Z.shiftl_1_l.
  assert (in_u 64 (2 ^ (n - 1))) as Hm by (unfold in_u; assert (2 ^ (n - 1) < 2 ^ 64) by (apply Z.pow_lt_mono_r; lia); lia).
  rewrite (wrap_id 64 (2 ^ (n - 1))) by done. rewrite <- Z.shiftl_1_l, bit_test by lia.
  destruct (Z.ltb_spec n 64) as [Hlt|Hge]; [|replace n with 64 by lia; by apply swrap_wrap].
  pose proof (wrap_range n x ltac:(lia)) as Hr. rewrite wrap_bit, <- (wrap_bit n), testbit_top by (done || lia).
  rewrite <- (swrap_wrap n), (swrap_top n (wrap n x)) by (done || lia). destruct (Z.leb_spec (2 ^ (n - 1)) (wrap n x)) as [Ht|Ht].
  - rewrite lor_high by (apply wrap_range || lia; lia). rewrite wrap_wrap by lia. apply sign_extend; (done || lia).
  - rewrite low_mask, Z.land_ones by lia. change (u64 x mod 2 ^ n) with (wrap n (u64 x)). rewrite wrap_wrap by lia. apply swrap_id; [lia|].
    unfold in_s, in_u in *. assert (2 ^ (n - 1) <= 2 ^ 63) by (apply Z.pow_le_mono_r; lia). change (2 ^ (64 - 1)) with (2 ^ 63). lia.
Qed.

(** The values [BITFIELD SET] saturates at the wrong end. *)
Definition sat_wrong (n value : Z) : bool := (n <? 64) && (value <? 2 ^ (n - 1) - 2 ^ 63).

Lemma checkSigned_spec value incr n ow limit : 1 <= n <= 64 -> in_s 64 value -> in_s 64 incr ->
  type_fits true n value = true \/ incr = 0 /\ (ow = BFOVERFLOW_SAT -> sat_wrong n value = false) ->
  checked true n ow (value + incr) (checkSignedBitfieldOverflow value incr n ow limit).
Proof.
  intros Hn Hv Hi Hc. unfold sat_wrong in Hc. assert (2 ^ (n - 1) <= 2 ^ 63) as HM by (apply Z.pow_le_mono_r; lia).
  assert (n < 64 -> 2 ^ (n - 1) <= 2 ^ 62) as HM' by (intros; apply Z.pow_le_mono_r; lia).
  assert (0 < 2 ^ (n - 1)) as Hp by (apply Z.pow_pos_nonneg; lia). unfold checkSignedBitfieldOverflow. cbv zeta.
  rewrite wrap_signed_spec, Z.shiftl_1_l by lia. assert ((if n =? 64 then INT64_MAX else 2 ^ (n - 1) - 1) = 2 ^ (n - 1) - 1) as ->.
  { case_zb; [subst; done|done]. }
  unfold checked, stored, type_fits, type_min, type_max in *. assert (n = 64 -> 2 ^ (n - 1) = 2 ^ 63) as H64 by (by intros ->).
  set (M := 2 ^ (n - 1)) in *. generalize (swrap n (value + incr)). intros w.
  assert (s64 (u64 (M - 1) - u64 value) = if M - 1 - value <? 2 ^ 63 then M - 1 - value else M - 1 - value - 2 ^ 64) as ->.
  { unfold in_s, swrap, wrap in *. case_zb; dlia. }
  assert (s64 (- (M - 1) - 1 - value) = if - M - value <? - 2 ^ 63 then - M - value + 2 ^ 64 else - M - value) as ->.
  { unfold in_s, swrap, wrap in *. case_zb; dlia. }
  unfold in_s in *. change (2 ^ (64 - 1)) with (2 ^ 63) in *. assert (n = 64 /\ M = 2 ^ 63 \/ n < 64 /\ M <= 2 ^ 62) as Hcase.
  { destruct (Z.eq_dec n 64) as [E|E]; [left; split; [done|by apply H64]|right; split; [lia|apply HM'; lia]]. }
  clear H64 HM'.
  match goal with |- context [if ?a then _ else if ?b then _ else (0, limit)] => remember a as c1 eqn:E1; remember b as c2 eqn:E2 end.
  assert (c1 || c2 = negb ((- M <=? value + incr) && (value + incr <=? M - 1))) as F.
  { subst c1 c2. destruct Hcase as [[-> EM]|[Hlt HM']].
    - rewrite EM in *. cbn [negb andb orb Z.eqb Pos.eqb]. destruct (Z.ltb_spec (2 ^ 63 - 1 - value) (2 ^ 63)), (Z.ltb_spec (- 2 ^ 63 - value) (- 2 ^ 63)); lia.
    - zb_false (n =? 64). cbn [negb andb orb]. destruct (Z.ltb_spec (M - 1 - value) (2 ^ 63)), (Z.ltb_spec (- M - value) (- 2 ^ 63)); lia. }
  assert (ow = BFOVERFLOW_SAT -> c1 = (value + incr >? M - 1)) as Fs.
  { intros ->. clear F. subst c1 c2. destruct Hc as [Hc|[-> Hc]]; [|specialize (Hc eq_refl)];
      destruct (Z.ltb_spec (M - 1 - value) (2 ^ 63)), Hcase; lia. }
  clear E1 E2 Hc Hcase. destruct ((- M <=? value + incr) && (value + incr <=? M - 1)) eqn:Ef; cbn [negb] in F.
  - apply orb_false_iff in F as [-> ->]. done.
  - destruct ow; [| |by destruct c1, c2].
    + destruct c1, c2; [done..|discriminate F].
    + specialize (Fs eq_refl). subst c1. destruct (Z.gtb_spec (value + incr) (M - 1)); cbn.
      * split; [done|]. intros _. zb. done.
      * destruct c2; [|lia]. split; [done|]. intros _. zb. cbn [snd]. f_equal. lia.
Qed.
