(* ===== verification/BitopsSpec.v ===== *)
(** * Bitmaps: what the commands do

    The specification sees a key space of strings of bits: SETBIT replaces one
    bit, BITCOUNT and BITPOS look at an interval, BITOP combines strings padded
    with zeroes, and BITFIELD reads and replaces sublists as integers.
    Whatever the sequence of commands, the encodings of the values, the addresses
    and the byte order, the commands of [Bitops] return what the specification
    returns and leave the key space it leaves, errors included. *)

From Stdlib Require Import ZArith Lia ZifyBool String.
From stdpp Require Import base gmap numbers option list.
From S2P Require Import Prelude Numstr Strobj Bitops BitopsProof BitopsField.

Local Open Scope Z_scope.

(** ** Commands *)

(** An offset in bits, or ([#]) in fields. *)
Inductive bit_offset := Plain (off : Z) | Fields (i : Z).

Inductive subcommand :=
| SubOverflow (ow : bfoverflow)
| SubGet (sign : bool) (n : Z) (off : bit_offset)
| SubSet (sign : bool) (n : Z) (off : bit_offset) (v : Z)
| SubIncrby (sign : bool) (n : Z) (off : bit_offset) (v : Z).

(** [true] is the unit BIT. *)
Inductive bit_command :=
| SetBit (k : list Z) (off on : Z)
| GetBit (k : list Z) (off : Z)
| BitCount (k : list Z) (range : option (Z * Z * option bool))
| BitPos (k : list Z) (bit : Z) (range : option (Z * option (Z * option bool)))
| BitOp (op : bitop) (dest : list Z) (keys : list (list Z))
| BitField (readonly : bool) (k : list Z) (subs : list subcommand).

Definition unit_args (u : option bool) : list (list Z) :=
  match u with None => [] | Some true => [chars "bit"] | Some false => [chars "byte"] end.

Definition offset_arg (off : bit_offset) : list Z := match off with Plain o => dec o | Fields i => 35 :: dec i end.
Definition type_arg (sign : bool) (n : Z) : list Z := (if sign then 105 else 117) :: dec n.
Definition overflow_name (ow : bfoverflow) : list Z :=
  match ow with BFOVERFLOW_WRAP => chars "wrap" | BFOVERFLOW_SAT => chars "sat" | BFOVERFLOW_FAIL => chars "fail" end.
Definition sub_args (s : subcommand) : list (list Z) :=
  match s with
  | SubOverflow ow => [chars "overflow"; overflow_name ow]
  | SubGet sign n off => [chars "get"; type_arg sign n; offset_arg off]
  | SubSet sign n off v => [chars "set"; type_arg sign n; offset_arg off; dec v]
  | SubIncrby sign n off v => [chars "incrby"; type_arg sign n; offset_arg off; dec v]
  end.
Definition field_args (subs : list subcommand) : list (list Z) := subs ≫= sub_args.
Definition op_name (op : bitop) : list Z :=
  match op with BITOP_AND => chars "and" | BITOP_OR => chars "or" | BITOP_XOR => chars "xor" | BITOP_NOT => chars "not" end.

(** The arguments a client sends. *)
Definition argv_of (c : bit_command) : list (list Z) :=
  match c with
  | SetBit k off on => [chars "setbit"; k; dec off; dec on]
  | GetBit k off => [chars "getbit"; k; dec off]
  | BitCount k r => [chars "bitcount"; k] ++ match r with None => [] | Some (s, e, u) => [dec s; dec e] ++ unit_args u end
  | BitPos k b r => [chars "bitpos"; k; dec b] ++
      match r with None => [] | Some (s, r) => dec s :: match r with None => [] | Some (e, u) => dec e :: unit_args u end end
  | BitOp op dest keys => [chars "bitop"; op_name op; dest] ++ keys
  | BitField ro k subs => [if ro then chars "bitfield_ro" else chars "bitfield"; k] ++ field_args subs
  end.

Section Spec.
Context (undef : nat -> Z) (addr : nat -> Z) (little aligned_access obey : bool) (proto_max_bulk_len : Z).

Definition exec (c : bit_command) : server -> option (server * reply) :=
  run (match c with
       | SetBit _ _ _ => setbitCommand undef obey proto_max_bulk_len (argv_of c)
       | GetBit _ _ => getbitCommand undef obey proto_max_bulk_len (argv_of c)
       | BitCount _ _ => bitcountCommand undef addr little (argv_of c)
       | BitPos _ _ _ => bitposCommand undef addr little (argv_of c)
       | BitOp _ _ _ => bitopCommand undef little aligned_access (argv_of c)
       | BitField ro _ _ => bitfieldGeneric undef obey proto_max_bulk_len ro (argv_of c)
       end).

Fixpoint exec_all (cs : list bit_command) (st : server) : option (server * list reply) :=
  match cs with
  | [] => Some (st, [])
  | c :: cs => '(st, r) ← exec c st; '(st, rs) ← exec_all cs st; Some (st, r :: rs)
  end.

(** ** Specification *)

(** Keys with their strings of bits; [None] is a value of another type. *)
Definition bit_db := gmap (list Z) (option (list bool)).

Definition pad (n : Z) (l : list bool) : list bool := l ++ replicate (Z.to_nat n - length l) false.
Definition bit_at (l : list bool) (i : Z) : bool := default false (l !! Z.to_nat i).

Definition offset_error (off : Z) : bool := (off <? 0) || (negb obey && (off / 8 >=? proto_max_bulk_len)).

(** The interval of bits that the units [start] to [stop] denote. *)
Definition interval (len unit start stop : Z) : option (Z * Z) :=
  let tot := len / unit in
  let start := Z.max 0 (if start <? 0 then tot + start else start) in
  let stop := Z.min (tot - 1) (Z.max 0 (if stop <? 0 then tot + stop else stop)) in
  if start >? stop then None else Some (start * unit, (stop - start + 1) * unit).

Definition unit_size (u : option bool) : Z := match u with Some true => 1 | _ => 8 end.

Definition spec_count (l : list bool) (range : option (Z * Z * option bool)) : Z :=
  match range with
  | None => ones l
  | Some (s, e, u) =>
      if (s <? 0) && (e <? 0) && (s >? e) then 0
      else match interval (Z.of_nat (length l)) (unit_size u) s e with
           | None => 0
           | Some (lo, n) => ones (field l lo n)
           end
  end.

Definition spec_pos (l : list bool) (b : bool) (range : option (Z * option (Z * option bool))) : Z :=
  let len := Z.of_nat (length l) in
  let '(start, stop, u, end_given) :=
    match range with
    | None => (0, -1, 8, false)
    | Some (s, None) => (s, -1, 8, false)
    | Some (s, Some (e, u)) => (s, e, unit_size u, true)
    end in
  match interval len u start stop with
  | None => -1
  | Some (lo, n) =>
      let k := first_bit b (field l lo n) in
      if k <? n then lo + k else if b || end_given then -1 else lo + n
  end.

Definition bit_op (op : bitop) (x y : bool) : bool :=
  match op with BITOP_AND => x && y | BITOP_OR => x || y | BITOP_XOR => xorb x y | BITOP_NOT => x end.

Definition spec_op (op : bitop) (srcs : list (list bool)) : list bool :=
  let n := foldl (fun m l => Z.max m (Z.of_nat (length l))) 0 srcs in
  match pad n <$> srcs with
  | [] => []
  | l :: ls => foldl (zip_with (bit_op op)) (if bool_decide (op = BITOP_NOT) then negb <$> l else l) ls
  end.

(** The operations of BITFIELD with their overflow behaviour, or an error. *)
Definition spec_target (sign : bool) (n : Z) (off : bit_offset) : bit_error + Z :=
  if (n <? 1) || (n >? (if sign then 64 else 63)) then inl ErrBitfieldType
  else let o := match off with Plain o => o | Fields i => i * n end in
       if offset_error o then inl ErrBitOffset else inr o.

Fixpoint spec_subs (subs : list subcommand) (ow : bfoverflow) : bit_error + list bitfieldOp :=
  match subs with
  | [] => inr []
  | SubOverflow ow :: subs => spec_subs subs ow
  | (SubGet sign n off | SubSet sign n off _ | SubIncrby sign n off _) as sub :: subs =>
      match spec_target sign n off with
      | inl e => inl e
      | inr o =>
          let op := match sub with
                    | SubSet _ _ _ v => BitfieldOp o v BITFIELDOP_SET ow n sign
                    | SubIncrby _ _ _ v => BitfieldOp o v BITFIELDOP_INCRBY ow n sign
                    | _ => BitfieldOp o 0 BITFIELDOP_GET ow n sign
                    end in
          match spec_subs subs ow with inl e => inl e | inr ops => inr (op :: ops) end
      end
  end.

Definition is_get (op : bitfieldOp) : bool := match bf_opcode op with BITFIELDOP_GET => true | _ => false end.

Definition field_value (l : list bool) (op : bitfieldOp) : Z :=
  let f := field (pad (bf_offset op + bf_bits op) l) (bf_offset op) (bf_bits op) in
  if bf_sign op then sval f else uval f.

(** The value to store: a value to set is taken as a [uint64_t] when the type is unsigned. *)
Definition new_value (old : Z) (op : bitfieldOp) : option Z :=
  stored (bf_sign op) (bf_bits op) (bf_owtype op)
    (match bf_opcode op with
     | BITFIELDOP_INCRBY => old + bf_i64 op
     | _ => if bf_sign op then bf_i64 op else u64 (bf_i64 op)
     end).

Definition spec_step (l : list bool) (op : bitfieldOp) : list bool * reply :=
  let old := field_value l op in
  if is_get op then (l, RInt old)
  else match new_value old op with
       | None => (l, RNull)
       | Some v => (set_field l (bf_offset op) (to_bits (Z.to_nat (bf_bits op)) v),
                    RInt match bf_opcode op with BITFIELDOP_INCRBY => v | _ => old end)
       end.

Fixpoint spec_ops (l : list bool) (ops : list bitfieldOp) : list bool * list reply :=
  match ops with
  | [] => (l, [])
  | op :: ops => let '(l, r) := spec_step l op in let '(l, rs) := spec_ops l ops in (l, r :: rs)
  end.

(** The number of bytes that the writes need. *)
Definition bytes_needed (ops : list bitfieldOp) : Z :=
  foldl (fun m op => if is_get op then m else Z.max m ((bf_offset op + bf_bits op - 1) / 8 + 1)) 0 ops.

Definition spec_field (readonly : bool) (k : list Z) (subs : list subcommand) (db : bit_db) : bit_db * reply :=
  match spec_subs subs BFOVERFLOW_WRAP with
  | inl e => (db, RError e)
  | inr ops =>
      let writes := negb (forallb is_get ops) in
      if writes && readonly then (db, RError ErrReadonly)
      else match db !! k with
           | Some None => (db, RError ErrWrongType)
           | v => let '(l, rs) := spec_ops (pad (8 * bytes_needed ops) (default [] (v ≫= id))) ops in
                  (if writes then <[k := Some l]> db else db, RArray rs)
           end
  end.

Definition spec (c : bit_command) (db : bit_db) : bit_db * reply :=
  match c with
  | SetBit k off on =>
      if offset_error off then (db, RError ErrBitOffset)
      else if negb ((on =? 0) || (on =? 1)) then (db, RError ErrBit)
      else match db !! k with
           | Some None => (db, RError ErrWrongType)
           | v => let l := pad (8 * (off / 8 + 1)) (default [] (v ≫= id)) in
                  (<[k := Some (<[Z.to_nat off := on =? 1]> l)]> db, RInt (b2z (bit_at l off)))
           end
  | GetBit k off =>
      (db, if offset_error off then RError ErrBitOffset
           else match db !! k with Some None => RError ErrWrongType | v => RInt (b2z (bit_at (default [] (v ≫= id)) off)) end)
  | BitCount k r =>
      (db, match db !! k with None => RInt 0 | Some None => RError ErrWrongType | Some (Some l) => RInt (spec_count l r) end)
  | BitPos k b r =>
      (db, if negb ((b =? 0) || (b =? 1)) then RError ErrBitArgument
           else match db !! k with
                | None => RInt (if b =? 0 then 0 else -1)
                | Some None => RError ErrWrongType
                | Some (Some l) => RInt (spec_pos l (b =? 1) r)
                end)
  | BitOp op dest keys =>
      if bool_decide (op = BITOP_NOT) && negb (length keys =? 1)%nat then (db, RError ErrBitopNot)
      else if existsb (fun k => bool_decide (db !! k = Some None)) keys then (db, RError ErrWrongType)
      else let l := spec_op op ((fun k => default [] (db !! k ≫= id)) <$> keys) in
           (if bool_decide (l = []) then delete dest db else <[dest := Some l]> db, RInt (Z.of_nat (length l) / 8))
  | BitField readonly k subs => spec_field readonly k subs db
  end.

Fixpoint spec_all (cs : list bit_command) (db : bit_db) : bit_db * list reply :=
  match cs with
  | [] => (db, [])
  | c :: cs => let '(db, r) := spec c db in let '(db, rs) := spec_all cs db in (db, r :: rs)
  end.
End Spec.
