(* ===== verification/BitopsRange.v ===== *)
(** * Bitmaps: counting and searching in a range ([bitops.c])

    BITCOUNT and BITPOS turn a range of bits into a range of bytes and two
    masks for the bits of the first and of the last byte that are outside.
    What they compute with these is what the interval of bits contains. *)

From Stdlib Require Import ZArith Lia ZifyBool.
From stdpp Require Import base gmap numbers option list.
From S2P Require Import Prelude Numstr Strobj Bitops BitopsProof BitopsField BitopsSpec.

Local Open Scope Z_scope.

(** The masks of the first [i] and of the last [j] bits of a byte. *)
Definition first_mask (i : nat) : Z := 256 - 2 ^ (8 - Z.of_nat i).
Definition last_mask (j : nat) : Z := 2 ^ Z.of_nat j - 1.

(** A statement on a byte and a number of bits, by evaluation. *)
Lemma all_masks (P : Z -> nat -> bool) : forallb (fun c => forallb (P c) (seq 0 8)) (seqZ 0 256) = true ->
  forall c i, byteZ c -> (i < 8)%nat -> P c i = true.
Proof.
  intros H c i Hc Hi. apply (all_bytes (fun c => forallb (P c) (seq 0 8)) H) in Hc. rewrite forallb_forall in Hc. apply Hc, in_seq. lia.
Qed.

(** The bytes [a] to [b] hold the interval, and the masks the bits around it. *)
Definition range_ok (len lo n : Z) (r : Z * Z * Z * Z) : Prop :=
  let '(a, b, f, l) := r in exists i j : nat,
  (i < 8)%nat /\ (j < 8)%nat /\ f = first_mask i /\ l = last_mask j /\ 0 <= a <= b /\ b < len /\
  lo = 8 * a + Z.of_nat i /\ lo + n + Z.of_nat j = 8 * (b + 1) /\ 0 < n.

Lemma first_mask_eq x : 0 <= x < 8 -> Z.land (Z.lnot (Z.shiftl 1 (8 - x) - 1)) 255 = first_mask (Z.to_nat x).
Proof.
  intros Hx. assert (x = 0 \/ x = 1 \/ x = 2 \/ x = 3 \/ x = 4 \/ x = 5 \/ x = 6 \/ x = 7) as Hc by lia.
  repeat destruct Hc as [->|Hc]; [done..|by subst].
Qed.

Lemma convert_range_spec (isbit : bool) len start stop : 0 <= len ->
  let '(a, b, f, l) := convert_range isbit len start stop in
  match interval (8 * len) (if isbit then 1 else 8) start stop with
  | None => a > b
  | Some (lo, n) => range_ok len lo n (a, b, f, l)
  end.
Proof.
  intros Hl. unfold convert_range, interval. cbv zeta.
  set (tot := 8 * len / (if isbit then 1 else 8)).
  assert ((if isbit then Z.shiftl len 3 else len) = tot) as ->.
  { unfold tot. destruct isbit; [rewrite Z.shiftl_mul_pow2 by lia; rewrite Z.div_1_r; lia|]. rewrite Z.mul_comm, Z.div_mul by lia. done. }
  set (x := if start <? 0 then tot + start else start). set (y := if stop <? 0 then tot + stop else stop).
  replace (if x <? 0 then 0 else x) with (Z.max 0 x) by (case_zb; lia). replace (if y <? 0 then 0 else y) with (Z.max 0 y) by (case_zb; lia).
  replace (if Z.max 0 y >=? tot then tot - 1 else Z.max 0 y) with (Z.min (tot - 1) (Z.max 0 y)) by (repeat case_zb; lia).
  set (A := Z.max 0 x). set (B := Z.min (tot - 1) (Z.max 0 y)). assert (0 <= A) by lia. assert (B < tot) by lia.
  destruct (Z.gtb_spec A B) as [Hgt|Hle].
  - zb_false (A <=? B). rewrite andb_false_r. lia.
  - zb_true (A <=? B). destruct isbit; cbn [andb].
    + unfold range_ok. rewrite !(land_ones_mod _ 3 7), !Z.shiftr_div_pow2 by (done || lia). change (2 ^ 3) with 8.
      assert (tot = 8 * len) as Et by (unfold tot; by rewrite Z.div_1_r).
      rewrite first_mask_eq by dlia. exists (Z.to_nat (A mod 8)), (Z.to_nat (7 - B mod 8)). rewrite Z.shiftl_1_l.
      split_and!; try dlia. unfold last_mask. rewrite Z2Nat.id by dlia. done.
    + assert (tot = len) as Et by (unfold tot; rewrite Z.mul_comm, Z.div_mul; lia).
      exists 0%nat, 0%nat. split_and!; try lia; done.
Qed.

Lemma bits_take m s : bits (take m s) = take (8 * m) (bits s).
Proof.
  destruct (decide (m <= length s)%nat) as [H|H]; [|by rewrite !take_ge by (rewrite ?length_bits; lia)].
  rewrite <- (take_drop m s) at 2. rewrite bits_app, take_app_length'; [done|]. rewrite length_bits, length_take. lia.
Qed.

Lemma bits_drop m s : bits (drop m s) = drop (8 * m) (bits s).
Proof.
  destruct (decide (m <= length s)%nat) as [H|H]; [|by rewrite !drop_ge by (rewrite ?length_bits; lia)].
  rewrite <- (take_drop m s) at 2. rewrite bits_app, drop_app_length'; [done|]. rewrite length_bits, length_take. lia.
Qed.

(** The bytes [a] to [b]. *)
Definition window (s : list Z) (a b : Z) : list Z := take (Z.to_nat (b - a + 1)) (drop (Z.to_nat a) s).

Lemma window_length s a b : 0 <= a <= b -> b < Z.of_nat (length s) -> length (window s a b) = Z.to_nat (b - a + 1).
Proof. intros. unfold window. rewrite length_take, length_drop. lia. Qed.

Lemma window_bytes s a b : Forall byteZ s -> Forall byteZ (window s a b).
Proof. intros. by apply Forall_take, Forall_drop. Qed.

Lemma window_first s a b : 0 <= a <= b -> b < Z.of_nat (length s) -> exists c t, window s a b = c :: t /\ get s a = Some c.
Proof.
  intros Ha Hb. destruct (lookup_lt_is_Some_2 s (Z.to_nat a) ltac:(lia)) as [c Ec].
  exists c, (take (Z.to_nat (b - a)) (drop (S (Z.to_nat a)) s)). unfold window, get. zb. split; [|done].
  rewrite (drop_S _ _ _ Ec). by replace (Z.to_nat (b - a + 1)) with (S (Z.to_nat (b - a))) by lia.
Qed.

Lemma window_last s a b : 0 <= a <= b -> b < Z.of_nat (length s) -> exists c t, window s a b = t ++ [c] /\ get s b = Some c.
Proof.
  intros Ha Hb. destruct (lookup_lt_is_Some_2 s (Z.to_nat b) ltac:(lia)) as [c Ec].
  exists c, (take (Z.to_nat (b - a)) (drop (Z.to_nat a) s)). unfold window, get. zb. split; [|done].
  replace (Z.to_nat (b - a + 1)) with (S (Z.to_nat (b - a))) by lia. apply take_S_r. rewrite lookup_drop.
  by replace (Z.to_nat a + Z.to_nat (b - a))%nat with (Z.to_nat b) by lia.
Qed.

(** The bits before, in and behind the interval. *)
Lemma window_split s a b lo n (i j : nat) : 0 <= a <= b -> b < Z.of_nat (length s) -> lo = 8 * a + Z.of_nat i ->
  lo + n + Z.of_nat j = 8 * (b + 1) -> 0 < n -> let W := bits (window s a b) in
  W = take i W ++ field (bits s) lo n ++ drop (length W - j) W /\ length (field (bits s) lo n) = Z.to_nat n /\
  length W = (i + Z.to_nat n + j)%nat.
Proof.
  intros Ha Hb Hlo Hn Hn0 W. assert (length W = (i + Z.to_nat n + j)%nat) as HW.
  { unfold W. rewrite length_bits, window_length by done. lia. }
  assert (field (bits s) lo n = take (Z.to_nat n) (drop i W)) as Ef.
  { unfold W, window, field. rewrite bits_take, bits_drop.
    replace (8 * Z.to_nat (b - a + 1))%nat with (i + (Z.to_nat n + j))%nat by lia.
    rewrite <- take_drop_commute, take_take, drop_drop. f_equal; [lia|]. f_equal. lia. }
  rewrite Ef, length_take, length_drop. split; [|lia].
  rewrite <- (take_drop i W) at 1. f_equal. rewrite <- (take_drop (Z.to_nat n) (drop i W)) at 1. f_equal. rewrite drop_drop. f_equal. lia.
Qed.

Section Range.
Context (addr : nat -> Z) (little : bool).

Lemma count_first c (i : nat) : byteZ c -> (i < 8)%nat -> pc (Z.land c (first_mask i)) = ones (take i (byte_bits c)).
Proof.
  intros Hc Hi. apply (all_masks (fun c i => pc (Z.land c (first_mask i)) =? ones (take i (byte_bits c)))) with (i := i) in Hc; [lia|by vm_compute|done].
Qed.

Lemma count_last c (j : nat) : byteZ c -> (j < 8)%nat -> pc (Z.land c (last_mask j)) = ones (drop (8 - j) (byte_bits c)).
Proof.
  intros Hc Hj. apply (all_masks (fun c j => pc (Z.land c (last_mask j)) =? ones (drop (8 - j) (byte_bits c)))) with (i := j) in Hc; [lia|by vm_compute|done].
Qed.

Lemma bitcount_bytes_spec s a b f l lo n : Forall byteZ s -> range_ok (Z.of_nat (length s)) lo n (a, b, f, l) ->
  bitcount_bytes addr little s a b f l = Some (ones (field (bits s) lo n)).
Proof.
  intros Hs (i & j & Hi & Hj & -> & -> & Hab & Hb & Hlo & Hn & Hn0).
  destruct (window_split s a b lo n i j Hab Hb Hlo Hn Hn0) as (Ew & Hf & HW).
  destruct (window_first s a b Hab Hb) as (ca & ta & Ea & Ga). destruct (window_last s a b Hab Hb) as (cb & tb & Eb & Gb).
  pose proof (window_bytes s a b Hs) as Hw. assert (byteZ ca) by (rewrite Ea in Hw; by apply Forall_cons in Hw as [? _]).
  assert (byteZ cb) by (rewrite Eb in Hw; apply Forall_app in Hw as [_ Hw]; by apply Forall_cons in Hw as [? _]).
  unfold bitcount_bytes. rewrite redisPopcount_spec by first [by apply Forall_drop|rewrite length_drop; lia]. cbn [mbind option_bind].
  fold (window s a b).
  assert (ones (take i (bits (window s a b))) = pc (Z.land ca (first_mask i))) as E1.
  { rewrite count_first, Ea, bits_cons, take_app_le by (done || cbn; lia). done. }
  assert (ones (drop (length (bits (window s a b)) - j) (bits (window s a b))) = pc (Z.land cb (last_mask j))) as E2.
  { rewrite count_last by done. rewrite Eb, bits_app, length_app, (bits_cons cb []), app_nil_r. change (length (byte_bits cb)) with 8%nat.
    rewrite drop_app_ge by lia. do 2 f_equal. lia. }
  assert (ones (bits (window s a b)) = pc (Z.land ca (first_mask i)) + ones (field (bits s) lo n) + pc (Z.land cb (last_mask j))) as E3.
  { rewrite Ew at 1. rewrite !ones_app, E1, E2. lia. }
  rewrite E3. assert (pc 0 = 0) as P0 by done.
  assert (forall c m, byteZ c -> (if negb (m =? 0) then Some (Z.land c m) else Some 0) = Some (Z.land c m)) as Em.
  { intros c m Hc. case_zb; [subst; by rewrite Z.land_0_r|done]. }
  rewrite Ga, Gb. cbn [mbind option_bind]. rewrite !Em by done. cbn [mbind option_bind].
  rewrite redisPopcount_spec; [|repeat constructor; by apply land_byte|cbn; lia]. cbn [mbind option_bind].
  change (take (Z.to_nat 2) ?l) with l. rewrite !ones_bits_cons. change (ones (bits [])) with 0.
  destruct (Z.eqb_spec (first_mask i) 0) as [Ef|Ef], (Z.eqb_spec (last_mask j) 0) as [El|El]; cbn [negb orb]; rewrite ?Ef, ?El, ?Z.land_0_r, ?P0; f_equal; lia.
Qed.

(** *** Searching *)

Lemma neg_mask_0 bit c : byteZ c -> neg_mask bit c 0 = c.
Proof.
  intros Hc. unfold neg_mask. case_zb; [apply Z.lor_0_r|]. change (u8 (Z.lnot 0)) with 255. rewrite land_255. unfold byteZ in Hc. rewrite Z.mod_small; lia.
Qed.

Lemma neg_mask_first b c (i : nat) : byteZ c -> (i < 8)%nat ->
  byteZ (neg_mask (b2z b) c (first_mask i)) /\ byte_bits (neg_mask (b2z b) c (first_mask i)) = replicate i (negb b) ++ drop i (byte_bits c).
Proof.
  intros Hc Hi. apply (all_masks (fun c i => forallb (fun b => let x := neg_mask (b2z b) c (first_mask i) in
    (0 <=? x) && (x <? 256) && bool_decide (byte_bits x = replicate i (negb b) ++ drop i (byte_bits c))) [true; false])) with (i := i) in Hc;
    [|by vm_compute|done].
  rewrite forallb_forall in Hc. specialize (Hc b ltac:(destruct b; cbn; tauto)). cbv zeta in Hc.
  rewrite !andb_true_iff, bool_decide_eq_true in Hc. unfold byteZ. destruct Hc as [[? ?] ?]. split; [lia|done].
Qed.

Lemma neg_mask_last b c (j : nat) : byteZ c -> (j < 8)%nat ->
  byteZ (neg_mask (b2z b) c (last_mask j)) /\ byte_bits (neg_mask (b2z b) c (last_mask j)) = take (8 - j) (byte_bits c) ++ replicate j (negb b).
Proof.
  intros Hc Hi. apply (all_masks (fun c j => forallb (fun b => let x := neg_mask (b2z b) c (last_mask j) in
    (0 <=? x) && (x <? 256) && bool_decide (byte_bits x = take (8 - j) (byte_bits c) ++ replicate j (negb b))) [true; false])) with (i := j) in Hc;
    [|by vm_compute|done].
  rewrite forallb_forall in Hc. specialize (Hc b ltac:(destruct b; cbn; tauto)). cbv zeta in Hc.
  rewrite !andb_true_iff, bool_decide_eq_true in Hc. unfold byteZ. destruct Hc as [[? ?] ?]. split; [lia|done].
Qed.

(** What the command answers for the bytes [t] from [start] on. *)
Definition found_in (b end_given : bool) (t : list Z) (start : Z) : Z :=
  let k := first_bit b (bits t) in
  if k <? 8 * Z.of_nat (length t) then 8 * start + k
  else if b || end_given then -1 else 8 * (start + Z.of_nat (length t)).

Definition answer (b end_given : bool) (pos start bytes : Z) : Z :=
  if end_given && (b2z b =? 0) && (pos =? Z.shiftl bytes 3) then -1 else if negb (pos =? -1) then pos + Z.shiftl start 3 else pos.

Lemma answer_all b eg t start : answer b eg (bitpos_result b (bits t)) start (Z.of_nat (length t)) = found_in b eg t start.
Proof.
  unfold answer, bitpos_result, found_in. rewrite !Z.shiftl_mul_pow2, length_bits by lia. change (2 ^ 3) with 8.
  pose proof (first_bit_range b (bits t)) as Hr. rewrite length_bits in Hr. set (k := first_bit b (bits t)) in *.
  destruct b, eg; cbn [andb orb b2z Z.eqb]; repeat case_zb; cbn [negb]; lia.
Qed.

(** Searching a prefix: the answer, or the rest. *)
Lemma answer_prefix b eg t u start : let pos := bitpos_result b (bits t) in
  if negb (pos =? -1) && negb (pos =? 8 * Z.of_nat (length t))
  then answer b eg pos start (Z.of_nat (length (t ++ u))) = found_in b eg (t ++ u) start
  else found_in b eg (t ++ u) start = found_in b eg u (start + Z.of_nat (length t)).
Proof.
  cbv zeta. unfold answer, bitpos_result, found_in. rewrite !Z.shiftl_mul_pow2, bits_app, first_bit_app, !length_bits, length_app by lia. change (2 ^ 3) with 8.
  pose proof (first_bit_range b (bits t)) as Hr. pose proof (first_bit_range b (bits u)) as Hu. rewrite length_bits in Hr, Hu.
  set (k := first_bit b (bits t)) in *. set (m := first_bit b (bits u)) in *.
  destruct (Z.ltb_spec k (Z.of_nat (8 * length t))) as [Hk|Hk].
  - assert ((b && (k =? Z.of_nat (8 * length t))) = false) as -> by lia.
    zb_true (negb (k =? -1) && negb (k =? 8 * Z.of_nat (length t))). zb_false (k =? Z.of_nat (length t + length u) * 8). rewrite andb_false_r.
    zb_true (negb (k =? -1)). zb_true (k <? 8 * Z.of_nat (length t + length u)). lia.
  - assert (negb ((if b && (k =? Z.of_nat (8 * length t)) then -1 else k) =? -1) && negb ((if b && (k =? Z.of_nat (8 * length t)) then -1 else k) =? 8 * Z.of_nat (length t)) = false) as ->.
    { zb_true (k =? Z.of_nat (8 * length t)). destruct b; cbn [andb]; lia. }
    destruct (b || eg); repeat case_zb; lia.
Qed.

Lemma bitpos_char_spec b x : byteZ x -> bitpos_char addr little (b2z b) x = Some (bitpos_result b (bits [x])).
Proof. intros Hx. unfold bitpos_char. by rewrite redisBitpos_spec; [|by constructor|cbn; lia]. Qed.

(** The bytes with the bits outside the interval set to what is not looked for. *)
Definition masked (b : bool) (i j : nat) (w : list Z) : list Z :=
  alter (fun c => neg_mask (b2z b) c (last_mask j)) (length w - 1)%nat (alter (fun c => neg_mask (b2z b) c (first_mask i)) 0%nat w).

Lemma masked_one b i j c : masked b i j [c] = [neg_mask (b2z b) (neg_mask (b2z b) c (first_mask i)) (last_mask j)].
Proof. done. Qed.

Lemma masked_more b i j c m d : masked b i j (c :: m ++ [d]) = neg_mask (b2z b) c (first_mask i) :: m ++ [neg_mask (b2z b) d (last_mask j)].
Proof.
  unfold masked. cbn [alter list_alter length]. rewrite length_app. cbn [length]. replace (S (length m + 1) - 1)%nat with (S (length m)) by lia.
  cbn [alter list_alter]. f_equal. by rewrite alter_app_r_alt, Nat.sub_diag by lia.
Qed.

Lemma answer_some b eg pos start bytes :
  (if eg && (b2z b =? 0) && (pos =? Z.shiftl bytes 3) then Some (-1) else Some (if negb (pos =? -1) then pos + Z.shiftl start 3 else pos)) =
  Some (answer b eg pos start bytes).
Proof. unfold answer. by destruct (_ && _ && _). Qed.

Lemma range_one c a (i j : nat) b eg s : byteZ c -> (i < 8)%nat -> (j < 8)%nat -> get s a = Some c -> Forall byteZ s -> 0 <= a < Z.of_nat (length s) ->
  bitpos_range addr little s a a (first_mask i) (last_mask j) (b2z b) eg = Some (found_in b eg (masked b i j [c]) a).
Proof.
  intros Hc Hi Hj Hg Hs Ha. destruct (neg_mask_first b c i Hc Hi) as [Hx _]. destruct (neg_mask_last b _ j Hx Hj) as [Hy _].
  destruct (neg_mask_last b c j Hc Hj) as [Hz _]. rewrite masked_one. set (y := neg_mask _ (neg_mask _ _ _) _) in *.
  rewrite <- answer_all. unfold bitpos_range, bitpos_first. replace (a - a + 1) with 1 by lia.
  destruct (Z.eqb_spec (first_mask i) 0) as [Ei|Ei]; cbn [mbind option_bind].
  - assert (neg_mask (b2z b) c (first_mask i) = c) as Ec by (rewrite Ei; by apply neg_mask_0).
    unfold bitpos_middle. destruct (Z.eqb_spec (last_mask j) 0) as [Ej|Ej].
    + assert (y = c) as -> by (unfold y; rewrite Ec, Ej; by apply neg_mask_0). change (1 - 0 >? 0) with true. cbn iota.
      rewrite redisBitpos_spec by first [by apply Forall_drop|rewrite length_drop; lia]. cbn [mbind option_bind].
      assert (take (Z.to_nat (1 - 0)) (drop (Z.to_nat a) s) = [c]) as ->.
      { unfold get in Hg. destruct (0 <=? a); [|done]. by rewrite (drop_S _ _ _ Hg). }
      change (1 =? 1 - 0) with true. cbn [orb mbind option_bind]. apply answer_some.
    + change (1 - 1 >? 0) with false. cbn [mbind option_bind]. rewrite Hg. cbn [mbind option_bind].
      rewrite bitpos_char_spec by done. unfold y. rewrite Ec. apply answer_some.
  - rewrite Hg. cbn [mbind option_bind]. change (1 =? 1) with true. rewrite andb_true_r.
    assert ((if negb (last_mask j =? 0) then neg_mask (b2z b) (neg_mask (b2z b) c (first_mask i)) (last_mask j) else neg_mask (b2z b) c (first_mask i)) = y) as ->.
    { unfold y. destruct (Z.eqb_spec (last_mask j) 0) as [Ej|Ej]; [|done]. cbn [negb]. by rewrite Ej, neg_mask_0. }
    rewrite (bitpos_char_spec b y) by done. cbn [orb mbind option_bind]. apply answer_some.
Qed.

(** The steps behind the first byte. *)
Definition range_rest (s : list Z) (start bytes stop last bit : Z) (eg : bool) : option Z :=
  '(found, start, bytes) ← bitpos_middle addr little s start bytes last bit;
  pos ← match found with
        | Some pos => Some pos
        | None => c ← get s stop; bitpos_char addr little bit (neg_mask bit c last)
        end;
  if eg && (bit =? 0) && (pos =? Z.shiftl bytes 3) then Some (-1)
  else Some (if negb (pos =? -1) then pos + Z.shiftl start 3 else pos).

Lemma range_rest_spec s start P d t (j : nat) b eg : Forall byteZ s -> 0 <= start -> drop (Z.to_nat start) s = P ++ d :: t -> (j < 8)%nat ->
  range_rest s start (Z.of_nat (length P) + 1) (start + Z.of_nat (length P)) (last_mask j) (b2z b) eg =
  Some (found_in b eg (P ++ [neg_mask (b2z b) d (last_mask j)]) start).
Proof.
  intros Hs H0 Ed Hj. assert (Forall byteZ (P ++ d :: t)) as HP by (rewrite <- Ed; by apply Forall_drop).
  assert (byteZ d) as Hd by (by apply Forall_app in HP as [_ [? _]%Forall_cons]).
  assert (get s (start + Z.of_nat (length P)) = Some d) as Hg.
  { unfold get. zb. rewrite Z2Nat.inj_add, Nat2Z.id, <- lookup_drop, Ed by lia. by apply list_lookup_middle. }
  destruct (neg_mask_last b d j Hd Hj) as [Hy _]. unfold range_rest, bitpos_middle. rewrite Ed.
  destruct (Z.eqb_spec (last_mask j) 0) as [Ej|Ej].
  - rewrite Ej, neg_mask_0 by done. zb_true (Z.of_nat (length P) + 1 - 0 >? 0). rewrite redisBitpos_spec by first [done|rewrite length_app; cbn; lia].
    cbn [mbind option_bind]. zb_true (Z.of_nat (length P) + 1 =? Z.of_nat (length P) + 1 - 0). cbn [orb mbind option_bind].
    replace (take (Z.to_nat (Z.of_nat (length P) + 1 - 0)) (P ++ d :: t)) with (P ++ [d]).
    2:{ replace (Z.to_nat (Z.of_nat (length P) + 1 - 0)) with (length P + 1)%nat by lia. rewrite take_app_add. done. }
    rewrite answer_some, <- answer_all, length_app. do 2 f_equal. cbn. lia.
  - replace (Z.of_nat (length P) + 1 - 1) with (Z.of_nat (length P)) by lia. destruct (Z.gtb_spec (Z.of_nat (length P)) 0) as [HP0|HP0].
    + rewrite redisBitpos_spec by first [done|rewrite length_app; cbn; lia]. cbn [mbind option_bind].
      zb_false (Z.of_nat (length P) + 1 =? Z.of_nat (length P)). cbn [orb].
      rewrite Nat2Z.id, take_app_length, Z.shiftl_mul_pow2 by lia. change (2 ^ 3) with 8. rewrite (Z.mul_comm _ 8).
      pose proof (answer_prefix b eg P [neg_mask (b2z b) d (last_mask j)] start) as Ha. cbv zeta in Ha. destruct (_ && _) eqn:E; cbn [mbind option_bind].
      * rewrite answer_some, <- Ha, length_app. do 2 f_equal. cbn. lia.
      * rewrite Hg. cbn [mbind option_bind]. rewrite bitpos_char_spec by done. cbn [mbind option_bind].
        replace (Z.of_nat (length P) + 1 - Z.of_nat (length P)) with 1 by lia. rewrite answer_some, Ha, <- answer_all. done.
    + cbn [mbind option_bind]. rewrite Hg. cbn [mbind option_bind]. rewrite bitpos_char_spec by done. cbn [mbind option_bind].
      destruct P; [|cbn in HP0; lia]. rewrite answer_some, <- answer_all. done.
Qed.

Lemma range_more s a c m d t (i j : nat) b eg : Forall byteZ s -> 0 <= a -> drop (Z.to_nat a) s = c :: m ++ d :: t -> (i < 8)%nat -> (j < 8)%nat ->
  bitpos_range addr little s a (a + Z.of_nat (length m) + 1) (first_mask i) (last_mask j) (b2z b) eg =
  Some (found_in b eg (masked b i j (c :: m ++ [d])) a).
Proof.
  intros Hs Ha Ed Hi Hj. assert (Forall byteZ (c :: m ++ d :: t)) as HP by (rewrite <- Ed; by apply Forall_drop).
  apply Forall_cons in HP as [Hc _]. assert (get s a = Some c) as Hg.
  { unfold get. zb. by rewrite <- (Nat.add_0_r (Z.to_nat a)), <- lookup_drop, Ed. }
  assert (drop (Z.to_nat (a + 1)) s = m ++ d :: t) as Ed'.
  { rewrite Z2Nat.inj_add, <- drop_drop, Ed by lia. done. }
  destruct (neg_mask_first b c i Hc Hi) as [Hx _]. rewrite masked_more. unfold bitpos_range, bitpos_first.
  destruct (Z.eqb_spec (first_mask i) 0) as [Ei|Ei]; cbn [mbind option_bind].
  - rewrite Ei, neg_mask_0 by done. rewrite <- (range_rest_spec s a (c :: m) d t j) by done.
    replace (a + Z.of_nat (length m) + 1) with (a + Z.of_nat (length (c :: m))) by (cbn [length]; lia).
    by replace (a + Z.of_nat (length (c :: m)) - a + 1) with (Z.of_nat (length (c :: m)) + 1) by lia.
  - rewrite Hg. cbn [mbind option_bind]. zb_false (a + Z.of_nat (length m) + 1 - a + 1 =? 1). rewrite andb_false_r. cbn [orb].
    rewrite (bitpos_char_spec b (neg_mask (b2z b) c (first_mask i))) by done. cbn [mbind option_bind].
    pose proof (answer_prefix b eg [neg_mask (b2z b) c (first_mask i)] (m ++ [neg_mask (b2z b) d (last_mask j)]) a) as Hp. cbv zeta in Hp.
    change (8 * Z.of_nat (length [neg_mask (b2z b) c (first_mask i)])) with 8 in Hp. cbn [app] in Hp. destruct (_ && _) eqn:E; cbn [mbind option_bind].
    + rewrite answer_some, <- Hp. cbn [length]. rewrite length_app. do 2 f_equal. cbn [length]. lia.
    + rewrite Hp. change (Z.of_nat (length [_])) with 1. rewrite <- (range_rest_spec s (a + 1) m d t j) by (done || lia).
      replace (a + Z.of_nat (length m) + 1) with (a + 1 + Z.of_nat (length m)) by lia.
      by replace (a + 1 + Z.of_nat (length m) - a + 1 - 1) with (Z.of_nat (length m) + 1) by lia.
Qed.

Lemma masked_bits b (i j n : nat) w : Forall byteZ w -> (i < 8)%nat -> (j < 8)%nat -> (i + n + j = 8 * length w)%nat -> (0 < n)%nat ->
  bits (masked b i j w) = replicate i (negb b) ++ take n (drop i (bits w)) ++ replicate j (negb b).
Proof.
  intros Hw Hi Hj Hn Hn0. destruct w as [|c w]; [cbn in Hn; lia|]. apply Forall_cons in Hw as [Hc Hw].
  destruct (neg_mask_first b c i Hc Hi) as [Hx Ex]. destruct w as [|d m _] using rev_ind.
  - rewrite masked_one, !bits_cons, app_nil_r, app_nil_r. destruct (neg_mask_last b _ j Hx Hj) as [_ ->]. rewrite Ex. cbn [length] in Hn.
    rewrite app_assoc. f_equal. rewrite take_app, length_replicate, take_ge by (rewrite length_replicate; lia). do 2 f_equal. lia.
  - apply Forall_app in Hw as [Hm Hd]. apply Forall_cons in Hd as [Hd _]. destruct (neg_mask_last b d j Hd Hj) as [_ Ey].
    rewrite masked_more, !bits_cons, !bits_app, !bits_cons, Ex, Ey, app_nil_r, app_nil_r, <- !app_assoc. f_equal.
    rewrite drop_app_le, !app_assoc by (cbn; lia). f_equal. cbn [length] in Hn. rewrite length_app in Hn. cbn [length] in Hn.
    rewrite !take_app, !length_app, length_bits, length_drop. change (length (byte_bits c)) with 8%nat.
    rewrite (take_ge (drop i _)), (take_ge (bits m)) by (rewrite ?length_drop, ?length_bits; cbn; lia). do 2 f_equal. lia.
Qed.

Lemma bitpos_range_spec s a b' f l lo n b eg : Forall byteZ s -> range_ok (Z.of_nat (length s)) lo n (a, b', f, l) -> (eg = false -> l = 0) ->
  let k := first_bit b (field (bits s) lo n) in
  bitpos_range addr little s a b' f l (b2z b) eg = Some (if k <? n then lo + k else if b || eg then -1 else lo + n).
Proof.
  intros Hs (i & j & Hi & Hj & -> & -> & Hab & Hb & Hlo & Hn & Hn0) Heg k.
  assert (bitpos_range addr little s a b' (first_mask i) (last_mask j) (b2z b) eg = Some (found_in b eg (masked b i j (window s a b')) a)) as ->.
  { destruct (window_first s a b' Hab Hb) as (c & t & Ew & Hg). pose proof (window_bytes s a b' Hs) as Hw. rewrite Ew in *.
    apply Forall_cons in Hw as [Hc _]. pose proof (window_length s a b' Hab Hb) as Hl. rewrite Ew in Hl. cbn [length] in Hl.
    destruct t as [|d m _] using rev_ind.
    - cbn [length] in Hl. replace b' with a by lia. apply range_one; (done || lia).
    - rewrite length_app in Hl. cbn [length] in Hl. replace b' with (a + Z.of_nat (length m) + 1) by lia.
      apply (range_more s a c m d (drop (Z.to_nat (b' - a + 1)) (drop (Z.to_nat a) s))); [done|lia| |done..].
      unfold window in Ew. rewrite <- (take_drop (Z.to_nat (b' - a + 1)) (drop (Z.to_nat a) s)) at 1. rewrite Ew. cbn [app]. by rewrite <- app_assoc. }
  f_equal. pose proof (window_split s a b' lo n i j Hab Hb Hlo Hn Hn0) as (Es & Hf & HW). rewrite length_bits in HW. pose proof (window_length s a b' Hab Hb) as Hl.
  assert (take (Z.to_nat n) (drop i (bits (window s a b'))) = field (bits s) lo n) as EF.
  { rewrite Es at 1. rewrite drop_app_ge by (rewrite length_take; lia). rewrite length_take, length_bits, Nat.min_l, Nat.sub_diag, drop_0 by lia.
    rewrite take_app_le by lia. by rewrite take_ge by lia. }
  assert (length (masked b i j (window s a b')) = length (window s a b')) as Hml by (unfold masked; by rewrite !length_alter).
  unfold found_in. rewrite (masked_bits b i j (Z.to_nat n)), EF, Hml, Hl by first [by apply window_bytes|lia].
  rewrite !first_bit_app, !first_bit_none, !length_replicate, Hf. fold k. pose proof (first_bit_range b (field (bits s) lo n)) as Hk. fold k in Hk.
  zb_false (Z.of_nat i <? Z.of_nat i). rewrite Z2Nat.id by lia. destruct (Z.ltb_spec k n) as [Hkn|Hkn].
  - zb_true (Z.of_nat i + k <? 8 * Z.of_nat (Z.to_nat (b' - a + 1))). lia.
  - zb_false (Z.of_nat i + (n + Z.of_nat j) <? 8 * Z.of_nat (Z.to_nat (b' - a + 1))). destruct b, eg; cbn [orb]; [done..|].
    specialize (Heg eq_refl). unfold last_mask in Heg. destruct j; [|assert (2 ^ 1 <= 2 ^ Z.of_nat (S j)) by (apply Z.pow_le_mono_r; lia); lia]. lia.
Qed.
End Range.
