(* ===== verification/BitopsOp.v ===== *)
(** * Bitmaps: combining strings ([bitops.c])

    The words and bytes that BITOP computes, on the fast path and behind it, are
    the combination of the strings bit by bit, padded with zeroes. *)

From Stdlib Require Import ZArith Lia ZifyBool.
From stdpp Require Import base gmap numbers option list.
From S2P Require Import Prelude Numstr Strobj Bitops BitopsProof BitopsField BitopsSpec.

Local Open Scope Z_scope.

(** ** One operation *)

Lemma word_op_bit op x y i : Z.testbit (word_op op x y) i = bit_op op (Z.testbit x i) (Z.testbit y i).
Proof. destruct op; cbn; rewrite ?Z.land_spec, ?Z.lor_spec, ?Z.lxor_spec; done. Qed.

Lemma word_op_byte op x y : byteZ x -> byteZ y -> byteZ (word_op op x y).
Proof.
  intros Hx Hy. destruct op; cbn; [by apply land_byte|apply (lor_in_u 8)|apply (lxor_in_u 8)|done]; (done || lia).
Qed.

Lemma word_op_nonneg op x y : 0 <= x -> 0 <= y -> 0 <= word_op op x y.
Proof. intros Hx Hy. destruct op; cbn; [apply Z.land_nonneg; lia|by apply Z.lor_nonneg|apply Z.lxor_nonneg; lia|done]. Qed.

Lemma word_op_cons op a r b s : byteZ a -> byteZ b -> 0 <= r -> 0 <= s ->
  word_op op (a + 256 * r) (b + 256 * s) = word_op op a b + 256 * word_op op r s.
Proof.
  intros Ha Hb Hr Hs. apply Z.bits_inj'. intros i Hi.
  rewrite word_op_bit, !testbit_cons by first [done|by apply word_op_byte|by apply word_op_nonneg]. case_zb; by rewrite word_op_bit.
Qed.

Lemma word_op_le op v : forall w, Forall byteZ v -> Forall byteZ w -> length v = length w ->
  word_op op (le_val v) (le_val w) = le_val (zip_with (word_op op) v w).
Proof.
  induction v as [|a v IH]; intros [|b w] Hv Hw Hl; try done; [by destruct op|]. cbn [le_val zip_with].
  apply Forall_cons in Hv as [Ha Hv]. apply Forall_cons in Hw as [Hb Hw]. rewrite word_op_cons by (done || by apply le_val_nonneg).
  rewrite IH by (done || by injection Hl). done.
Qed.

Lemma zip_bytes op v : forall w, Forall byteZ v -> Forall byteZ w -> Forall byteZ (zip_with (word_op op) v w).
Proof.
  induction v as [|a v IH]; intros [|b w] Hv Hw; try constructor; apply Forall_cons in Hv as [Ha Hv]; apply Forall_cons in Hw as [Hb Hw];
    [by apply word_op_byte|by apply IH].
Qed.

Lemma zip_with_rev {A B C} (f : A -> B -> C) v : forall w, length v = length w -> zip_with f (rev v) (rev w) = rev (zip_with f v w).
Proof.
  induction v as [|a v IH]; intros [|b w] Hl; try done. cbn [rev zip_with]. injection Hl as Hl.
  rewrite zip_with_app by (by rewrite !length_rev). by rewrite IH.
Qed.

Lemma fmap_rev {A B} (f : A -> B) l : f <$> rev l = rev (f <$> l).
Proof. induction l as [|a l IH]; [done|]. cbn [rev fmap list_fmap]. rewrite fmap_app. by rewrite IH. Qed.

Section Words.
Context (little : bool).

Lemma store_load op v w : Forall byteZ v -> Forall byteZ w -> length v = 8%nat -> length w = 8%nat ->
  store8 little (word_op op (le_val (if little then v else rev v)) (le_val (if little then w else rev w))) = zip_with (word_op op) v w.
Proof.
  intros Hv Hw Lv Lw. unfold store8. assert (forall v w, Forall byteZ v -> Forall byteZ w -> length v = 8%nat -> length w = 8%nat ->
    le_bytes 8 (word_op op (le_val v) (le_val w)) = zip_with (word_op op) v w) as E.
  { clear. intros v w Hv Hw Lv Lw. rewrite word_op_le by (done || lia). rewrite <- (le_bytes_val (zip_with (word_op op) v w)) at 2 by (by apply zip_bytes).
    by rewrite length_zip_with, Lv, Lw. }
  destruct little; [by apply E|]. rewrite E by (rewrite ?length_rev; by try apply Forall_rev). rewrite zip_with_rev by lia. apply rev_involutive.
Qed.

(** Between [i] and [i + n] the cells of [res] have become those of [f]. *)
Definition updated (i n : nat) (f : nat -> Z) (res res' : list Z) : Prop :=
  length res' = length res /\ forall x, (x < length res)%nat -> res' !! x = if decide (i <= x < i + n)%nat then Some (f x) else res !! x.

Lemma updated_none i f res : updated i 0 f res res.
Proof. split; [done|]. intros x Hx. by rewrite decide_False by lia. Qed.

Lemma updated_more i n m f g res res' res'' : updated i n f res res' -> updated (i + n) m g res' res'' -> (forall x, (i + n <= x)%nat -> f x = g x) ->
  updated i (n + m) f res res''.
Proof.
  intros [L1 U1] [L2 U2] Hfg. split; [lia|]. intros x Hx. rewrite U2, U1 by lia. repeat case_decide; try lia; [|done..]. by rewrite Hfg by lia.
Qed.

Lemma updated_blit i n f res v : length v = n -> (i + n <= length res)%nat -> (forall k, (k < n)%nat -> v !! k = Some (f (i + k)%nat)) ->
  exists res', blit res (Z.of_nat i) v = Some res' /\ updated i n f res res'.
Proof.
  intros Lv Hl Hv. eexists. split; [unfold blit; by zb|]. rewrite Nat2Z.id. split; [rewrite !length_app, length_take, length_drop; lia|].
  intros x Hx. case_decide as Hd.
  - rewrite lookup_app_r, length_take, Nat.min_l by (rewrite ?length_take; lia). rewrite lookup_app_l by lia. rewrite Hv by lia. do 2 f_equal. lia.
  - destruct (decide (x < i)%nat).
    + rewrite lookup_app_l by (rewrite length_take; lia). by apply lookup_take_lt.
    + rewrite !lookup_app_r, length_take, Nat.min_l, lookup_drop by (rewrite ?length_take; lia). f_equal. lia.
Qed.

Lemma slice_lookup s i n v : slice s (Z.of_nat i) (Z.of_nat n) = Some v -> length v = n /\ (i + n <= length s)%nat /\ forall k, (k < n)%nat -> v !! k = s !! (i + k)%nat.
Proof.
  unfold slice. destruct (_ && _ && _) eqn:E; [|done]. intros [= <-]. rewrite !Nat2Z.id, length_take, length_drop. split; [lia|]. split; [lia|].
  intros k Hk. rewrite lookup_take_lt, lookup_drop by lia. done.
Qed.

Lemma slice_in s (i n : nat) : (i + n <= length s)%nat -> slice s (Z.of_nat i) (Z.of_nat n) = Some (take n (drop i s)).
Proof. intros H. unfold slice. zb. by rewrite !Nat2Z.id. Qed.

Lemma updated_total i n f res res' x : updated i n f res res' -> res' !!! x = if decide ((i <= x < i + n) /\ x < length res)%nat then f x else res !!! x.
Proof.
  intros [L U]. rewrite !list_lookup_total_alt. destruct (decide (x < length res)%nat) as [Hx|Hx].
  - rewrite U by done. repeat case_decide; try lia; done.
  - rewrite !lookup_ge_None_2, decide_False by lia. done.
Qed.

Lemma updated_again i n f g h res res' res'' : updated i n f res res' -> updated i n g res' res'' -> (forall x, (i <= x < i + n)%nat -> g x = h x) ->
  updated i n h res res''.
Proof.
  intros [L1 U1] [L2 U2] Hg. split; [lia|]. intros x Hx. rewrite U2, U1 by lia. case_decide; [by rewrite Hg|done].
Qed.

Lemma updated_bytes i n f res res' : updated i n f res res' -> Forall byteZ res -> (forall x, (i <= x < i + n)%nat -> byteZ (f x)) -> Forall byteZ res'.
Proof.
  intros [L U] Hr Hf. apply Forall_lookup_2. intros x y Hy. assert (x < length res)%nat by (rewrite <- L; by apply lookup_lt_Some in Hy).
  rewrite U in Hy by done. case_decide; [injection Hy as <-; by apply Hf|]. by apply (Forall_lookup_1 _ _ _ _ Hr Hy).
Qed.

Lemma total_byte s x : Forall byteZ s -> (x < length s)%nat -> byteZ (s !!! x).
Proof. intros Hs Hx. apply (Forall_lookup_1 byteZ s x); [done|]. by apply list_lookup_lookup_total_lt. Qed.

Lemma word_step op (i : nat) res src : Forall byteZ res -> Forall byteZ src -> (i + 8 <= length res)%nat -> (i + 8 <= length src)%nat -> exists res',
  (a ← load little 8 res (Z.of_nat i); b ← load little 8 src (Z.of_nat i); blit res (Z.of_nat i) (store8 little (word_op op a b))) = Some res' /\
  updated i 8 (fun x => word_op op (res !!! x) (src !!! x)) res res' /\ Forall byteZ res'.
Proof.
  intros Hr Hs Lr Ls. rewrite (load_spec _ _ _ _ _ (slice_in res i 8 Lr)), (load_spec _ _ _ _ _ (slice_in src i 8 Ls)). cbn [mbind option_bind].
  rewrite store_load by (try (by apply Forall_take, Forall_drop); rewrite length_take, length_drop; lia).
  set (f := fun x => word_op op (res !!! x) (src !!! x)).
  destruct (updated_blit i 8 f res (zip_with (word_op op) (take 8 (drop i res)) (take 8 (drop i src)))) as (res' & E & U).
  - rewrite length_zip_with, !length_take, !length_drop. lia.
  - lia.
  - intros k Hk. unfold f. apply lookup_zip_with_Some. exists (res !!! (i + k)%nat), (src !!! (i + k)%nat).
    rewrite !lookup_take_lt, !lookup_drop by lia. split; [done|]. split; apply list_lookup_lookup_total_lt; lia.
  - exists res'. split; [done|]. split; [done|]. apply (updated_bytes _ _ _ _ _ U Hr). intros x Hx. apply word_op_byte; apply total_byte; (done || lia).
Qed.

(** Words one after the other, each computed from the cells it replaces. *)
Lemma words_step (step : list Z -> Z -> option (list Z)) (F : Z -> nat -> Z) (L : nat) :
  (forall (i : nat) res, Forall byteZ res -> (i + 8 <= length res)%nat -> (i + 8 <= L)%nat -> exists res',
    step res (Z.of_nat i) = Some res' /\ updated i 8 (fun x => F (res !!! x) x) res res' /\ Forall byteZ res') ->
  forall (j : nat) res, Forall byteZ res -> (j + 32 <= length res)%nat -> (j + 32 <= L)%nat -> exists res',
    foldl (fun res i => res ← res; step res i) (Some res) [Z.of_nat j; Z.of_nat j + 8; Z.of_nat j + 16; Z.of_nat j + 24] = Some res' /\
    updated j 32 (fun x => F (res !!! x) x) res res' /\ Forall byteZ res'.
Proof.
  intros Hstep j res Hr Hl HL. cbn [foldl mbind option_bind].
  replace (Z.of_nat j + 8) with (Z.of_nat (j + 8)) by lia. replace (Z.of_nat j + 16) with (Z.of_nat (j + 16)) by lia. replace (Z.of_nat j + 24) with (Z.of_nat (j + 24)) by lia.
  destruct (Hstep j res Hr ltac:(lia) ltac:(lia)) as (r1 & -> & U1 & B1). cbn [mbind option_bind]. pose proof (proj1 U1) as L1.
  destruct (Hstep (j + 8)%nat r1 B1 ltac:(lia) ltac:(lia)) as (r2 & -> & U2 & B2). cbn [mbind option_bind]. pose proof (proj1 U2) as L2.
  destruct (Hstep (j + 16)%nat r2 B2 ltac:(lia) ltac:(lia)) as (r3 & -> & U3 & B3). cbn [mbind option_bind]. pose proof (proj1 U3) as L3.
  destruct (Hstep (j + 24)%nat r3 B3 ltac:(lia) ltac:(lia)) as (r4 & -> & U4 & B4). exists r4. split; [done|]. split; [|done].
  assert (forall x, (j + 8 <= x)%nat -> r1 !!! x = res !!! x) as E1 by (intros x Hx; by rewrite (updated_total _ _ _ _ _ x U1), decide_False by lia).
  assert (forall x, (j + 16 <= x)%nat -> r2 !!! x = res !!! x) as E2 by (intros x Hx; rewrite (updated_total _ _ _ _ _ x U2), decide_False by lia; apply E1; lia).
  assert (forall x, (j + 24 <= x)%nat -> r3 !!! x = res !!! x) as E3 by (intros x Hx; rewrite (updated_total _ _ _ _ _ x U3), decide_False by lia; apply E2; lia).
  apply (updated_more j 24 8 _ (fun x => F (r3 !!! x) x) _ r3); [|exact U4|intros x Hx; by rewrite E3 by lia].
  apply (updated_more j 16 8 _ (fun x => F (r2 !!! x) x) _ r2); [|exact U3|intros x Hx; by rewrite E2 by lia].
  apply (updated_more j 8 8 _ (fun x => F (r1 !!! x) x) _ r1); [exact U1|exact U2|intros x Hx; by rewrite E1 by lia].
Qed.

Lemma block_spec op (j : nat) res src : Forall byteZ res -> Forall byteZ src -> (j + 32 <= length res)%nat -> (j + 32 <= length src)%nat -> exists res',
  bitop_block little op (Z.of_nat j) res src = Some res' /\ updated j 32 (fun x => word_op op (res !!! x) (src !!! x)) res res' /\ Forall byteZ res'.
Proof.
  intros Hr Hs Lr Ls. apply (words_step (fun res i => a ← load little 8 res i; b ← load little 8 src i; blit res i (store8 little (word_op op a b)))
    (fun o x => word_op op o (src !!! x)) (length src)); [|done..]. intros i r Hb H1 H2. by apply word_step.
Qed.

Lemma not_byte c : byteZ c -> u8 (Z.lnot c) = 255 - c.
Proof. intros Hc. unfold byteZ, wrap, Z.lnot in *. symmetry. apply (Z.mod_unique _ _ (-1)); [left|]; lia. Qed.

Lemma le_val_not v : Forall byteZ v -> le_val ((fun c => 255 - c) <$> v) = 256 ^ Z.of_nat (length v) - 1 - le_val v.
Proof.
  induction 1 as [|c v Hc Hv IH]; [done|]. cbn [fmap list_fmap le_val length]. rewrite IH, Nat2Z.inj_succ, Z.pow_succ_r by lia. lia.
Qed.

Lemma store_not v : Forall byteZ v -> length v = 8%nat -> store8 little (u64 (Z.lnot (le_val (if little then v else rev v)))) = (fun c => 255 - c) <$> v.
Proof.
  intros Hv Lv. unfold store8. assert (forall v, Forall byteZ v -> length v = 8%nat -> le_bytes 8 (u64 (Z.lnot (le_val v))) = (fun c => 255 - c) <$> v) as E.
  { clear. intros v Hv Lv. pose proof (le_val_range v Hv) as Hr. rewrite Lv in Hr. change (256 ^ Z.of_nat 8) with (2 ^ 64) in Hr.
    assert (u64 (Z.lnot (le_val v)) = le_val ((fun c => 255 - c) <$> v)) as ->.
    { rewrite le_val_not, Lv by done. change (256 ^ Z.of_nat 8) with (2 ^ 64). unfold wrap, Z.lnot. symmetry. apply (Z.mod_unique _ _ (-1)); [left|]; lia. }
    assert (Forall byteZ ((fun c => 255 - c) <$> v)) as Hn by (apply Forall_fmap; eapply Forall_impl; [exact Hv|unfold byteZ; cbn; lia]).
    rewrite <- (le_bytes_val _ Hn) at 2. by rewrite length_fmap, Lv. }
  destruct little; [by apply E|]. rewrite E by (rewrite ?length_rev; by try apply Forall_rev). rewrite fmap_rev. apply rev_involutive.
Qed.

Lemma not_block_spec (j : nat) res : Forall byteZ res -> (j + 32 <= length res)%nat -> exists res',
  bitop_not_block little (Z.of_nat j) res = Some res' /\ updated j 32 (fun x => 255 - res !!! x) res res' /\ Forall byteZ res'.
Proof.
  intros Hr Lr. apply (words_step (fun res i => a ← load little 8 res i; blit res i (store8 little (u64 (Z.lnot a)))) (fun o _ => 255 - o) (length res)); [|done..].
  intros i r Hb H1 _. rewrite (load_spec _ _ _ _ _ (slice_in r i 8 H1)). cbn [mbind option_bind].
  rewrite store_not by (try (by apply Forall_take, Forall_drop); rewrite length_take, length_drop; lia).
  destruct (updated_blit i 8 (fun x => 255 - r !!! x) r ((fun c => 255 - c) <$> take 8 (drop i r))) as (res' & E & U).
  - rewrite length_fmap, length_take, length_drop. lia.
  - lia.
  - intros k Hk. rewrite list_lookup_fmap, lookup_take_lt, lookup_drop, (list_lookup_lookup_total_lt r) by lia. done.
  - exists res'. split; [done|]. split; [done|]. apply (updated_bytes _ _ _ _ _ U Hb). intros x Hx. pose proof (total_byte r x Hb ltac:(lia)). unfold byteZ in *. lia.
Qed.

(** ** All strings *)

(** The byte at [x], zero behind the end; a column of bytes combined. *)
Definition byte0 (s : list Z) (x : nat) : Z := default 0 (s !! x).
Definition first0 (op : bitop) (c : Z) : Z := if bool_decide (op = BITOP_NOT) then 255 - c else c.
Definition column (op : bitop) (src : list (list Z)) (x : nat) : Z :=
  match src with [] => 0 | s :: ss => foldl (fun o s => word_op op o (byte0 s x)) (first0 op (byte0 s x)) ss end.

Lemma byte0_total s x : (x < length s)%nat -> byte0 s x = s !!! x.
Proof. intros H. unfold byte0. by rewrite (list_lookup_lookup_total_lt s x H). Qed.

Lemma byte0_byte s x : Forall byteZ s -> byteZ (byte0 s x).
Proof. intros Hs. unfold byte0. destruct (s !! x) eqn:E; cbn; [by apply (Forall_lookup_1 _ _ _ _ Hs E)|unfold byteZ; lia]. Qed.

Lemma fold_byte op ss x : forall o, byteZ o -> Forall (Forall byteZ) ss -> byteZ (foldl (fun o s => word_op op o (byte0 s x)) o ss).
Proof.
  induction ss as [|s ss IH]; intros o Ho Hs; [done|]. apply Forall_cons in Hs as [Hs Hss]. cbn [foldl]. apply IH; [|done].
  apply word_op_byte; [done|by apply byte0_byte].
Qed.

Lemma first0_byte op c : byteZ c -> byteZ (first0 op c).
Proof. unfold first0, byteZ. case_bool_decide; lia. Qed.

Lemma column_byte op src x : Forall (Forall byteZ) src -> byteZ (column op src x).
Proof.
  intros Hs. destruct src as [|s ss]; [unfold byteZ; cbn; lia|]. apply Forall_cons in Hs as [Hs Hss]. apply fold_byte; [|done].
  by apply first0_byte, byte0_byte.
Qed.

Lemma rows_spec op (j : nat) ss : forall res, Forall byteZ res -> Forall (Forall byteZ) ss -> (j + 32 <= length res)%nat ->
  Forall (fun s => j + 32 <= length s)%nat ss -> exists res',
  foldl (fun res s => res ← res; bitop_block little op (Z.of_nat j) res s) (Some res) ss = Some res' /\
  updated j 32 (fun x => foldl (fun o s => word_op op o (byte0 s x)) (res !!! x) ss) res res' /\ Forall byteZ res'.
Proof.
  induction ss as [|s ss IH]; intros res Hr Hs Hl HL; cbn [foldl mbind option_bind].
  - exists res. split; [done|]. split; [|done]. split; [done|]. intros x Hx. case_decide; [by apply list_lookup_lookup_total_lt|done].
  - apply Forall_cons in Hs as [Hs Hss]. apply Forall_cons in HL as [HLs HL].
    destruct (block_spec op j res s Hr Hs Hl HLs) as (r1 & -> & U1 & B1). pose proof (proj1 U1) as L1.
    destruct (IH r1 B1 Hss ltac:(lia) HL) as (res' & -> & U2 & B2). exists res'. split; [done|]. split; [|done].
    apply (updated_again _ _ _ _ _ _ _ _ U1 U2). intros x Hx. cbn [foldl]. f_equal.
    rewrite (updated_total _ _ _ _ _ x U1), decide_True, byte0_total by lia. done.
Qed.

(** Done up to [j]; the first string behind. *)
Definition fast_inv (op : bitop) (src : list (list Z)) (j m : nat) (res : list Z) : Prop :=
  (forall x, (x < j)%nat -> res !! x = Some (column op src x)) /\
  (forall x, (j <= x < m)%nat -> res !! x = Some (byte0 (hd [] src) x)).

Lemma fast_step op src (j m : nat) res : Forall byteZ res -> Forall (Forall byteZ) src -> src <> [] -> (op = BITOP_NOT -> length src = 1%nat) ->
  (m <= length res)%nat -> Forall (fun s => m <= length s)%nat src -> (j + 32 <= m)%nat -> fast_inv op src j m res -> exists res',
  match op with
  | BITOP_NOT => bitop_not_block little (Z.of_nat j) res
  | _ => foldl (fun res s => res ← res; bitop_block little op (Z.of_nat j) res s) (Some res) (drop 1 src)
  end = Some res' /\ Forall byteZ res' /\ length res' = length res /\ fast_inv op src (j + 32) m res'.
Proof.
  intros Hr Hs Hne Hnot Hm HL Hj [I1 I2]. destruct src as [|s0 ss]; [done|]. cbn [hd drop] in *. rewrite drop_0. apply Forall_cons in Hs as [Hs0 Hss].
  apply Forall_cons in HL as [HL0 HL].
  assert (exists res', match op with BITOP_NOT => bitop_not_block little (Z.of_nat j) res
    | _ => foldl (fun res s => res ← res; bitop_block little op (Z.of_nat j) res s) (Some res) ss end = Some res' /\
    updated j 32 (column op (s0 :: ss)) res res' /\ Forall byteZ res') as (res' & E & U & B).
  { assert (forall x, (j <= x < j + 32)%nat -> res !!! x = byte0 s0 x) as E0 by (intros x Hx; apply list_lookup_total_correct, I2; lia).
    destruct (decide (op = BITOP_NOT)) as [->|Hop].
    - destruct ss; [|by specialize (Hnot eq_refl)]. destruct (not_block_spec j res Hr ltac:(lia)) as (res' & E & [L U] & B). exists res'. split; [done|].
      split; [|done]. split; [done|]. intros x Hx. rewrite U by done. case_decide; [|done]. cbn. by rewrite E0.
    - destruct (rows_spec op j ss res Hr Hss ltac:(lia)) as (res' & E & [L U] & B); [eapply Forall_impl; [exact HL|cbn; lia]|].
      exists res'. split; [by destruct op|]. split; [|done]. split; [done|]. intros x Hx. rewrite U by done. case_decide; [|done].
      cbn [column]. unfold first0. rewrite bool_decide_eq_false_2 by done. by rewrite E0. }
  exists res'. split; [done|]. split; [done|]. destruct U as [L U]. split; [done|]. split.
  - intros x Hx. rewrite U by lia. case_decide; [done|]. apply I1. lia.
  - intros x Hx. rewrite U, decide_False by lia. apply I2. lia.
Qed.

Lemma fast_spec op src fuel : forall (j m : nat) res, Forall byteZ res -> Forall (Forall byteZ) src -> src <> [] -> (op = BITOP_NOT -> length src = 1%nat) ->
  (m <= length res)%nat -> Forall (fun s => m <= length s)%nat src -> (j <= m)%nat -> (m - j < fuel)%nat -> fast_inv op src j m res -> exists res' j',
  bitop_fast little fuel op src (Z.of_nat j) (Z.of_nat (m - j)) res = Some (res', Z.of_nat j') /\ (j' <= m)%nat /\
  Forall byteZ res' /\ length res' = length res /\ fast_inv op src j' m res'.
Proof.
  induction fuel as [|fuel IH]; intros j m res Hr Hs Hne Hnot Hm HL Hj Hf HI; [lia|]. cbn [bitop_fast]. destruct (Z.geb_spec (Z.of_nat (m - j)) 32).
  - destruct (fast_step op src j m res Hr Hs Hne Hnot Hm HL ltac:(lia) HI) as (r1 & -> & B1 & L1 & I1). cbn [mbind option_bind].
    replace (Z.of_nat j + 32) with (Z.of_nat (j + 32)) by lia. replace (Z.of_nat (m - j) - 32) with (Z.of_nat (m - (j + 32))) by lia.
    destruct (IH (j + 32)%nat m r1 B1 Hs Hne Hnot ltac:(lia) HL ltac:(lia) ltac:(lia) I1) as (res' & j' & -> & Hj' & B' & L' & I'). exists res', j'. split_and!; (done || lia).
  - exists res, j. split_and!; done.
Qed.

(** ** The bytes behind the fast path *)

Lemma byte_or_zero_spec s (x : nat) : byte_or_zero s (Z.of_nat x) = Some (byte0 s x).
Proof.
  unfold byte_or_zero, byte0, get. case_zb; [by rewrite lookup_ge_None_2 by lia|]. zb. rewrite Nat2Z.id.
  destruct (lookup_lt_is_Some_2 s x ltac:(lia)) as [c ->]. done.
Qed.

Lemma fold_zero ss x : foldl (fun o s => word_op BITOP_AND o (byte0 s x)) 0 ss = 0.
Proof. induction ss; [done|]. exact IHss. Qed.

Lemma or_255 c : byteZ c -> Z.lor 255 c = 255.
Proof. intros Hc. apply (all_bytes (fun c => Z.lor 255 c =? 255)) in Hc; [lia|by vm_compute]. Qed.

Lemma fold_255 ss x : Forall (Forall byteZ) ss -> foldl (fun o s => word_op BITOP_OR o (byte0 s x)) 255 ss = 255.
Proof. induction 1 as [|s ss Hs Hss IH]; [done|]. cbn [foldl word_op]. rewrite or_255 by (by apply byte0_byte). exact IH. Qed.

Lemma bitop_column_spec op (x : nat) ss : forall o, Forall (Forall byteZ) ss ->
  bitop_column op (Z.of_nat x) o ss = Some (foldl (fun o s => word_op op o (byte0 s x)) o ss).
Proof.
  induction ss as [|s ss IH]; intros o Hs; [done|]. apply Forall_cons in Hs as [Hs Hss]. cbn [bitop_column foldl]. rewrite byte_or_zero_spec. cbn [mbind option_bind].
  rewrite IH by done. destruct op; [case_zb|case_zb|done..]; try done.
  - match goal with H : _ = 0 |- _ => rewrite H end. by rewrite fold_zero.
  - match goal with H : _ = 255 |- _ => rewrite H end. by rewrite fold_255.
Qed.

Lemma bitop_bytes_spec op src n : forall (j : nat) res, Forall (Forall byteZ) src -> src <> [] -> (j + n = length res)%nat ->
  (forall x, (x < j)%nat -> res !! x = Some (column op src x)) ->
  bitop_bytes n op src (Z.of_nat j) res = Some (column op src <$> seq 0 (length res)).
Proof.
  induction n as [|n IH]; intros j res Hs Hne Hl Hj; cbn [bitop_bytes].
  - f_equal. apply list_eq_same_length with (n := length res); [by rewrite length_fmap, length_seq|done|].
    intros x y z Hx Hy Hz. rewrite Hj in Hy by lia. rewrite list_lookup_fmap, lookup_seq_lt in Hz by lia. naive_solver.
  - destruct src as [|s0 ss]; [done|]. cbn [head mbind option_bind drop]. rewrite byte_or_zero_spec. cbn [mbind option_bind].
    apply Forall_cons in Hs as [Hs0 Hss].
    assert (match op with BITOP_NOT => u8 (Z.lnot (byte0 s0 j)) | _ => byte0 s0 j end = first0 op (byte0 s0 j)) as ->.
    { unfold first0. destruct op; [done..|]. rewrite bool_decide_eq_true_2 by done. by apply not_byte, byte0_byte. }
    rewrite drop_0, bitop_column_spec by done. cbn [mbind option_bind]. fold (column op (s0 :: ss) j).
    assert (byteZ (column op (s0 :: ss) j)) as Hc by (apply column_byte; by constructor).
    destruct (updated_blit j 1 (column op (s0 :: ss)) res [column op (s0 :: ss) j]) as (res' & E & [L U]); [done|lia| |].
    { intros k Hk. destruct k; [|lia]. by rewrite Nat.add_0_r. }
    unfold put. rewrite u8_byte, E by done. cbn [mbind option_bind]. replace (Z.of_nat j + 1) with (Z.of_nat (j + 1)) by lia.
    rewrite (IH (j + 1)%nat res'); [by rewrite L|by constructor|done|lia|].
    intros x Hx. rewrite U by lia. case_decide; [done|]. apply Hj. lia.
Qed.

Lemma bitop_compute_spec (aligned : bool) op src (maxlen minlen : nat) : Forall (Forall byteZ) src -> src <> [] -> (op = BITOP_NOT -> length src = 1%nat) ->
  (minlen <= maxlen)%nat -> Forall (fun s => minlen <= length s)%nat src ->
  bitop_compute little aligned op src (Z.of_nat maxlen) (Z.of_nat minlen) = Some (column op src <$> seq 0 maxlen).
Proof.
  intros Hs Hne Hnot Hm HL. unfold bitop_compute. rewrite !Nat2Z.id.
  assert (exists res (j : nat), (if negb aligned && (Z.of_nat minlen >=? 32) && (length src <=? 16)%nat
    then first ← head src; s ← slice first 0 (Z.of_nat minlen); res ← blit (replicate maxlen 0) 0 s;
         bitop_fast little (S minlen) op src 0 (Z.of_nat minlen) res
    else Some (replicate maxlen 0, 0)) = Some (res, Z.of_nat j) /\ (j <= maxlen)%nat /\ length res = maxlen /\
    (forall x, (x < j)%nat -> res !! x = Some (column op src x))) as (res & j & -> & Hj & Hl & HI).
  { destruct (_ && _ && _) eqn:Ec; [|exists (replicate maxlen 0), 0%nat; split_and!; [done|lia|by rewrite length_replicate|lia]].
    destruct src as [|s0 ss] eqn:Es; [done|]. cbn [head mbind option_bind]. rewrite <- Es in *. assert (minlen <= length s0)%nat as L0 by (rewrite Es in HL; by apply Forall_cons in HL as [? _]).
    assert (Forall byteZ s0) as Hs0 by (rewrite Es in Hs; by apply Forall_cons in Hs as [? _]).
    pose proof (slice_in s0 0 minlen ltac:(lia)) as Esl. change (Z.of_nat 0) with 0 in Esl. rewrite Esl, drop_0. cbn [mbind option_bind].
    destruct (updated_blit 0 minlen (byte0 s0) (replicate maxlen 0) (take minlen s0)) as (r0 & E0 & U0); [rewrite length_take; lia|rewrite length_replicate; lia| |].
    { intros k Hk. rewrite lookup_take_lt by lia. cbn. rewrite byte0_total by lia. apply list_lookup_lookup_total_lt. lia. }
    change (Z.of_nat 0) with 0 in E0. rewrite E0. cbn [mbind option_bind]. pose proof (proj1 U0) as Lr. rewrite length_replicate in Lr.
    assert (Forall byteZ r0) as B0.
    { apply (updated_bytes _ _ _ _ _ U0); [apply Forall_replicate; unfold byteZ; lia|]. intros x Hx. by apply byte0_byte. }
    destruct (fast_spec op src (S minlen) 0 minlen r0 B0 Hs) as (res & j & E & Hj & B & L & [I1 I2]); [by rewrite Es|done|lia|done|lia|lia| |].
    { split; [lia|]. intros x Hx. rewrite (proj2 U0), decide_True by (rewrite ?length_replicate; lia). by rewrite Es. }
    rewrite Nat.sub_0_r in E. exists res, j. split_and!; [exact E|lia|lia|done]. }
  cbn [mbind option_bind]. replace (Z.to_nat (Z.of_nat maxlen - Z.of_nat j)) with (maxlen - j)%nat by lia.
  rewrite bitop_bytes_spec by (done || lia). by rewrite Hl.
Qed.
End Words.

(** ** The bits of the result *)

Lemma pad_bits s n : bits (sdsgrowzero s n) = pad (8 * n) (bits s).
Proof.
  unfold sdsgrowzero, pad. rewrite bits_app, (bits_skip true). do 2 f_equal. rewrite length_bits. lia.
Qed.

Lemma byte0_grow s n : (length s <= n)%nat -> byte0 s <$> seq 0 n = sdsgrowzero s (Z.of_nat n).
Proof.
  intros Hl. unfold sdsgrowzero. apply list_eq_same_length with (n := n); [rewrite length_app, length_replicate; lia|by rewrite length_fmap, length_seq|].
  intros x y z Hx Hy Hz. rewrite list_lookup_fmap, lookup_seq_lt in Hy by lia. injection Hy as <-. unfold byte0. cbn.
  destruct (decide (x < length s)%nat) as [H|H]; [rewrite lookup_app_l in Hz by lia; by rewrite Hz|].
  rewrite lookup_app_r, lookup_replicate in Hz by lia. rewrite lookup_ge_None_2 by lia. by destruct Hz.
Qed.

Lemma byte_bits_op op a b : byte_bits (word_op op a b) = zip_with (bit_op op) (byte_bits a) (byte_bits b).
Proof. unfold byte_bits. cbn [fmap list_fmap zip_with]. by rewrite !word_op_bit. Qed.

Lemma byte_bits_not c : byteZ c -> byte_bits (255 - c) = negb <$> byte_bits c.
Proof. intros Hc. apply (all_bytes (fun c => bool_decide (byte_bits (255 - c) = negb <$> byte_bits c))) in Hc; [|by vm_compute]. by apply bool_decide_eq_true in Hc. Qed.

Lemma bits_zip op (f g : nat -> Z) l : bits ((fun x => word_op op (f x) (g x)) <$> l) = zip_with (bit_op op) (bits (f <$> l)) (bits (g <$> l)).
Proof.
  induction l as [|x l IH]; [done|]. cbn [fmap list_fmap]. rewrite !bits_cons, zip_with_app by done. by rewrite byte_bits_op, <- IH.
Qed.

Lemma fold_bits op ss n : forall acc, Forall (fun s => length s <= n)%nat ss ->
  bits ((fun x => foldl (fun o s => word_op op o (byte0 s x)) (acc x) ss) <$> seq 0 n) =
  foldl (zip_with (bit_op op)) (bits (acc <$> seq 0 n)) ((fun s => pad (8 * Z.of_nat n) (bits s)) <$> ss).
Proof.
  induction ss as [|s ss IH]; intros acc Hl; [done|]. apply Forall_cons in Hl as [Hs Hl]. cbn [fmap list_fmap foldl].
  rewrite <- pad_bits, <- byte0_grow, <- bits_zip by done. by apply (IH (fun x => word_op op (acc x) (byte0 s x))).
Qed.

Lemma column_bits op src n : Forall (Forall byteZ) src -> Forall (fun s => length s <= n)%nat src -> src <> [] ->
  bits (column op src <$> seq 0 n) =
  match (fun s => pad (8 * Z.of_nat n) (bits s)) <$> src with
  | [] => []
  | l :: ls => foldl (zip_with (bit_op op)) (if bool_decide (op = BITOP_NOT) then negb <$> l else l) ls
  end.
Proof.
  intros Hs Hl Hne. destruct src as [|s ss]; [done|]. apply Forall_cons in Hs as [Hs _]. apply Forall_cons in Hl as [Hl Hll]. cbn [fmap list_fmap column].
  pose proof (fold_bits op ss n (fun x => first0 op (byte0 s x)) Hll) as E. etransitivity; [exact E|]. f_equal. rewrite <- pad_bits, <- byte0_grow by done.
  unfold first0. case_bool_decide; [|done]. generalize (seq 0 n). intros l. induction l as [|x l IH]; [done|].
  cbn [fmap list_fmap]. rewrite !bits_cons, byte_bits_not, fmap_app, IH by (by apply byte0_byte). done.
Qed.

(** The length of the longest string. *)
Definition longest (src : list (list Z)) : nat := foldl (fun m s => Nat.max m (length s)) 0%nat src.

Lemma longest_acc src : forall m, foldl (fun m s => Nat.max m (length s)) m src = Nat.max m (longest src).
Proof.
  unfold longest. induction src as [|s src IH]; intros m; cbn [foldl]; [lia|]. rewrite IH, (IH (Nat.max 0 (length s))). lia.
Qed.

Lemma longest_all src : Forall (fun s => length s <= longest src)%nat src.
Proof.
  induction src as [|s src IH]; [constructor|]. unfold longest in *. cbn [foldl]. rewrite longest_acc. constructor; [lia|].
  eapply Forall_impl; [exact IH|]. cbn. unfold longest. lia.
Qed.

Lemma longest_bits src : forall m, foldl (fun m l => Z.max m (Z.of_nat (length l))) (8 * Z.of_nat m) (bits <$> src) =
  8 * Z.of_nat (foldl (fun m s => Nat.max m (length s)) m src).
Proof.
  induction src as [|s src IH]; intros m; [done|]. cbn [fmap list_fmap foldl]. rewrite <- IH. f_equal. rewrite length_bits. lia.
Qed.

Lemma spec_op_bytes op src : Forall (Forall byteZ) src -> src <> [] -> spec_op op (bits <$> src) = bits (column op src <$> seq 0 (longest src)).
Proof.
  intros Hs Hne. rewrite column_bits by (done || apply longest_all). unfold spec_op. pose proof (longest_bits src 0) as E. change (8 * Z.of_nat 0) with 0 in E.
  rewrite E. by rewrite <- list_fmap_compose.
Qed.
