(* ===== verification/BitopsRefine.v ===== *)
(** * Bitmaps: the commands implement their specification ([bitops.c])

    The key space of the server is read as one of strings of bits.  For SETBIT,
    GETBIT, BITCOUNT, BITPOS and BITOP: from a well-formed server the command
    returns, the server it leaves is well formed, the reply and the key space are
    those of the specification, and a change of the key space is counted. *)

From Stdlib Require Import ZArith Lia ZifyBool String.
From stdpp Require Import base gmap numbers option list.
From S2P Require Import Prelude Numstr Strobj Bitops BitopsProof BitopsField BitopsSpec BitopsRange BitopsOp.

Local Open Scope Z_scope.

(** The bits of a value, and of the key space. *)
Definition abs_value (v : value) : option (list bool) := match v with VString o => Some (bits (str_value o)) | VOther => None end.
Definition abs (st : server) : bit_db := abs_value <$> keyspace st.

(** The limit [max] on the length of a string, and what a command may add. *)
Definition value_ok (max : Z) (v : value) : Prop :=
  match v with VString o => strobj_ok o /\ Z.of_nat (length (str_value o)) <= max + 8 | VOther => True end.
Definition server_ok (max : Z) (st : server) : Prop := map_Forall (fun _ => value_ok max) (keyspace st).

(** Evaluation of the computations. *)
Ltac go := cbv beta iota zeta delta [mbind mret command_bind command_ret option_bind option_ret lift finish fail or_fail lookupKey dbAdd set_keyspace
    signalModifiedKey add_dirty serverAssert]; cbn [lookup list_lookup fst snd keyspace dirty signalled].

(** ** Arguments *)

Lemma createStringObject_int s : getLongLongFromObject (Some (createStringObject s)) = string2ll s.
Proof. unfold createStringObject. by case_zb. Qed.

Lemma long_long_arg v st : in_s 64 v -> getLongLongFromObjectOrReply (dec v) st = Some (st, inr v).
Proof. intros Hv. unfold getLongLongFromObjectOrReply. rewrite createStringObject_int, string2ll_complete by done. done. Qed.

Lemma long_arg v e st : in_s 64 v -> getLongFromObjectOrReply (dec v) e st = Some (st, inr v).
Proof.
  intros Hv. unfold getLongFromObjectOrReply. rewrite createStringObject_int, string2ll_complete by done. go.
  unfold in_s, INT64_MIN, INT64_MAX in *. zb. done.
Qed.

Lemma dec_head v : in_s 64 v -> exists c r, dec v = c :: r /\ (c = 45 \/ 48 <= c <= 57) /\ Forall (fun c => c <> 0) (c :: r).
Proof.
  intros Hv. pose proof (dec_length_pos v Hv) as Hp. destruct (dec_bytes v Hv) as [_ Hz].
  assert (Forall (fun c => c = 45 \/ 48 <= c <= 57) (dec v)) as Hd.
  { unfold dec, in_s in *. destruct (Z.ltb_spec v 0); [constructor; [by left|]|];
      (eapply Forall_impl; [apply udec_props; lia|cbn; lia]). }
  destruct (dec v) as [|c r]; [cbn in Hp; lia|]. exists c, r. apply Forall_cons in Hd as [Hc _]. done.
Qed.

Section Refine.
Context (undef : nat -> Z) (addr : nat -> Z) (little aligned_access obey : bool) (max : Z).
Hypothesis Hmax : 0 < max <= 2 ^ 40.

Lemma offset_checked x st : in_s 64 x ->
  (if (x <? 0) || (negb obey && (Z.shiftr x 3 >=? max)) then fail ErrBitOffset else mret (u64 x)) st =
  Some (st, if offset_error obey max x then inl (RError ErrBitOffset) else inr x).
Proof.
  intros Hx. unfold offset_error. rewrite Z.shiftr_div_pow2 by lia. change (2 ^ 3) with 8.
  destruct ((x <? 0) || _) eqn:E; [done|]. go. unfold in_s in Hx. rewrite wrap_id by (unfold in_u; lia). done.
Qed.

Lemma plain_offset x hash n st : in_s 64 x -> getBitOffsetFromArgument obey max (dec x) hash n st =
  Some (st, if offset_error obey max x then inl (RError ErrBitOffset) else inr x).
Proof.
  intros Hx. unfold getBitOffsetFromArgument. destruct (dec_head x Hx) as (c & r & E & Hc & _).
  assert (bool_decide (head (dec x) = Some 35) = false) as ->.
  { apply bool_decide_eq_false. rewrite E. intros [= ->]. lia. }
  cbn [andb]. rewrite string2ll_complete by done. go. by apply offset_checked.
Qed.

Lemma fields_offset i n st : in_s 64 i -> 0 < n -> in_s 64 (i * n) -> getBitOffsetFromArgument obey max (35 :: dec i) true n st =
  Some (st, if offset_error obey max (i * n) then inl (RError ErrBitOffset) else inr (i * n)).
Proof.
  intros Hi Hn Hin. unfold getBitOffsetFromArgument. rewrite bool_decide_eq_true_2 by done. zb_true (n >? 0). cbn [andb drop].
  rewrite drop_0, string2ll_complete by done. go. rewrite swrap_id by (done || lia). by apply offset_checked.
Qed.

Lemma cstr_id s : Forall (fun c => c <> 0) s -> cstr s = s.
Proof. induction 1 as [|c s Hc Hs IH]; [done|]. cbn [cstr]. rewrite IH. by case_zb. Qed.

Lemma type_checked (sign : bool) n st : in_s 64 n -> getBitfieldTypeFromArgument (type_arg sign n) st =
  Some (st, if (n <? 1) || (n >? (if sign then 64 else 63)) then inl (RError ErrBitfieldType) else inr (sign, n)).
Proof.
  intros Hn. unfold getBitfieldTypeFromArgument, type_arg. destruct (dec_bytes n Hn) as [_ Hz].
  destruct sign; [|rewrite bool_decide_eq_false_2 by done]; rewrite bool_decide_eq_true_2 by done; go; cbn [drop];
    rewrite drop_0, cstr_id, string2ll_complete by done; go; cbn [andb negb]; rewrite ?orb_false_r; by destruct (_ || _).
Qed.

(** ** Keys *)

Definition current (st : server) (k : list Z) : list bool := default [] (abs st !! k ≫= id).

Lemma abs_lookup st k : abs st !! k = abs_value <$> keyspace st !! k.
Proof. apply lookup_fmap. Qed.

Lemma replicate_grow n : replicate (Z.to_nat n) 0 = sdsgrowzero [] n.
Proof. unfold sdsgrowzero. cbn. do 2 f_equal. lia. Qed.

Lemma grow_facts s n : Forall byteZ s -> 0 <= n -> Forall byteZ (sdsgrowzero s n) /\ Z.of_nat (length (sdsgrowzero s n)) = Z.max (Z.of_nat (length s)) n.
Proof.
  intros Hs Hn. unfold sdsgrowzero. split; [|rewrite length_app, length_replicate; lia].
  apply Forall_app. split; [done|]. apply Forall_replicate. unfold byteZ. lia.
Qed.

(** The key holds the string [s], which may have been created or grown. *)
Lemma lookup_for_write st k maxbit : server_ok max st -> 0 <= maxbit -> keyspace st !! k <> Some VOther ->
  exists s changed sg, lookupStringForBitCommand undef k maxbit st =
    Some (Server (<[k := VString (StrRaw s)]> (keyspace st)) (dirty st) sg, inr (s, changed)) /\
  Forall byteZ s /\ bits s = pad (8 * (maxbit / 8 + 1)) (current st k) /\ maxbit < 8 * Z.of_nat (length s) /\
  (maxbit / 8 < max + 8 -> Z.of_nat (length s) <= max + 8) /\ (changed = false -> abs st !! k = Some (Some (bits s))).
Proof.
  intros Hok Hm Hne. unfold lookupStringForBitCommand. rewrite Z.shiftr_div_pow2 by lia. change (2 ^ 3) with 8. set (n := maxbit / 8 + 1).
  assert (maxbit < 8 * n /\ 0 < n) as [Hn Hn0] by (unfold n; dlia). unfold current. rewrite abs_lookup. go.
  destruct (keyspace st !! k) as [[o|]|] eqn:E; [|done|]; cbn [checkType]; go.
  - apply Hok in E as [Ho Hl]. assert (exists sg, dbUnshareStringValue undef k o st = Some (Server (match o with StrRaw _ => keyspace st | _ => <[k := VString (StrRaw (str_value o))]> (keyspace st) end) (dirty st) sg, inr (str_value o))) as [sg ->].
    { unfold dbUnshareStringValue. destruct o as [s|s|v]; [by destruct st; eexists|..];
        rewrite getDecodedObject_spec by done; go; [by eexists|]. destruct (createStringObject_ok (dec v)) as [_ Ev]; [by apply dec_bytes|].
      unfold createStringObject, createEmbeddedStringObject, createRawStringObject in *. destruct (_ <=? _); cbn; by eexists. }
    go. do 3 eexists. split; [f_equal; f_equal; destruct o; by rewrite ?insert_insert_eq|].
    destruct (grow_facts (str_value o) n (str_value_bytes o Ho) ltac:(lia)) as [Hb Hlen]. rewrite pad_bits.
    split_and!; [done|done|lia|lia|]. intros Ec. rewrite <- pad_bits. cbn. do 3 f_equal. unfold sdsgrowzero in *.
    rewrite length_app, length_replicate in Ec. replace (Z.to_nat (n - Z.of_nat (length (str_value o)))) with 0%nat by lia. by rewrite app_nil_r.
  - rewrite replicate_grow. do 3 eexists. split; [done|]. destruct (grow_facts [] n ltac:(constructor) ltac:(lia)) as [Hb Hlen].
    cbn [length] in Hlen. rewrite pad_bits. split_and!; [done|done|lia|lia|done].
Qed.

(** What the command counts in [server.dirty]: at least one when it changed a
    string, unless a write of BITFIELD was refused. *)
Definition propagates (st st' : server) (r : reply) : Prop :=
  dirty st <= dirty st' /\ (dirty st' = dirty st -> abs st' = abs st \/ exists rs, r = RArray rs /\ RNull ∈ rs).

Definition refined (c : bit_command) : Prop := forall st, server_ok max st -> exists st' r,
  exec undef addr little aligned_access obey max c st = Some (st', r) /\ server_ok max st' /\
  spec obey max c (abs st) = (abs st', r) /\ propagates st st' r.

Lemma propagates_same st r : propagates st st r.
Proof. split; [lia|by left]. Qed.

Lemma refined_same c st r : server_ok max st -> exec undef addr little aligned_access obey max c st = Some (st, r) ->
  spec obey max c (abs st) = (abs st, r) -> exists st' r,
  exec undef addr little aligned_access obey max c st = Some (st', r) /\ server_ok max st' /\
  spec obey max c (abs st) = (abs st', r) /\ propagates st st' r.
Proof. intros Hok E Es. exists st, r. split_and!; [done..|apply propagates_same]. Qed.

Lemma server_ok_insert st k s d sg : server_ok max st -> Forall byteZ s -> Z.of_nat (length s) <= max + 8 ->
  server_ok max (Server (<[k := VString (StrRaw s)]> (keyspace st)) d sg).
Proof. intros Hok Hs Hl. apply map_Forall_insert_2; [done|exact Hok]. Qed.

Lemma abs_insert m k s d sg : abs (Server (<[k := VString (StrRaw s)]> m) d sg) = <[k := Some (bits s)]> (abs_value <$> m).
Proof. unfold abs. cbn. by rewrite fmap_insert. Qed.

Lemma offset_ok off : offset_error obey max off = false -> (obey = true -> off < 8 * max) -> 0 <= off < 8 * max.
Proof. unfold offset_error. intros E Hobey. destruct obey; [specialize (Hobey eq_refl); lia|]. dlia. Qed.

Lemma abs_other st k : keyspace st !! k = Some VOther <-> abs st !! k = Some None.
Proof. rewrite abs_lookup. by destruct (keyspace st !! k) as [[]|]. Qed.

Lemma land_not_1 on : Z.land on (Z.lnot 1) =? 0 = (on =? 0) || (on =? 1).
Proof.
  rewrite <- Z.ldiff_land. change 1 with (Z.ones 1) at 1. rewrite Z.ldiff_ones_r, Z.shiftl_mul_pow2, Z.shiftr_div_pow2 by lia.
  change (2 ^ 1) with 2. dlia.
Qed.

Lemma lookup_wrong st k m : keyspace st !! k = Some VOther -> lookupStringForBitCommand undef k m st = Some (st, inl (RError ErrWrongType)).
Proof. intros E. unfold lookupStringForBitCommand. go. by rewrite E. Qed.

Lemma other_or st k : keyspace st !! k = Some VOther \/ keyspace st !! k <> Some VOther.
Proof. destruct (keyspace st !! k) as [[]|]; [by right|by left|by right]. Qed.

Lemma spec_setbit st k off b : offset_error obey max off = false -> keyspace st !! k <> Some VOther ->
  let l := pad (8 * (off / 8 + 1)) (current st k) in
  spec obey max (SetBit k off (b2z b)) (abs st) = (<[k := Some (<[Z.to_nat off := b]> l)]> (abs st), RInt (b2z (bit_at l off))).
Proof.
  intros Eo Hne. cbn [spec]. rewrite Eo. unfold current. assert (abs st !! k <> Some None) by (by rewrite <- abs_other).
  destruct (abs st !! k) as [[l|]|]; [|done|]; destruct b; done.
Qed.

Lemma setbit_refined k off on : in_s 64 off -> in_s 64 on -> (obey = true -> off < 8 * max) -> refined (SetBit k off on).
Proof.
  intros Ho Hon Hobey st Hok.
  destruct (offset_error obey max off) eqn:Eo.
  { eapply refined_same; [done| |cbn; by rewrite Eo]. cbn. unfold setbitCommand, run. go. rewrite plain_offset, Eo by done. done. }
  pose proof (offset_ok off Eo Hobey) as Hr. destruct ((on =? 0) || (on =? 1)) eqn:Eon.
  2:{ eapply refined_same; [done| |cbn; by rewrite Eo, Eon]. cbn. unfold setbitCommand, run. go. rewrite plain_offset, Eo by done. go.
      rewrite long_arg by done. go. rewrite land_not_1, Eon. done. }
  destruct (other_or st k) as [Et|Et].
  { eapply refined_same; [done| |cbn; rewrite Eo, Eon; by apply abs_other in Et as ->]. cbn. unfold setbitCommand, run. go.
    rewrite plain_offset, Eo by done. go. rewrite long_arg by done. go. rewrite land_not_1, Eon. cbn [negb]. by rewrite lookup_wrong. }
  assert (exists b, on = b2z b) as [b ->] by (exists (on =? 1); destruct (Z.eqb_spec on 1); cbn; lia).
  destruct (lookup_for_write st k off Hok ltac:(lia) Et) as (s & changed & sg & El & Hs & Eb & Hlen & Hmx & Hch).
  destruct (store_bit s off b Hs ltac:(lia)) as (c & s' & Eg & Hc & Ec & Ep & Hs' & Hl' & Eb').
  rewrite spec_setbit by done. rewrite <- Eb. unfold bit_at. rewrite Ec, <- Eb'. cbn [default from_option id].
  assert (0 <= 7 - Z.land off 7) as Hk by (rewrite (land_ones_mod _ 3 7) by done; change (2 ^ 3) with 8; dlia).
  assert (Z.of_nat (length s) <= max + 8) as Hlm by (apply Hmx; dlia).
  unfold exec, argv_of, setbitCommand, run. go. rewrite plain_offset, Eo by done. go. rewrite long_arg by done. go.
  rewrite land_not_1, Eon. cbn [negb]. rewrite El. go. rewrite Eg. go. rewrite bit_test by done.
  replace (Z.land (b2z b) 1) with (b2z b) by (by destruct b). unfold set_bit_in in Ep. rewrite Ep. destruct (changed || _) eqn:Ew; go.
  - do 2 eexists. split; [done|]. rewrite insert_insert_eq. split; [apply server_ok_insert; (done || lia)|].
    rewrite abs_insert. split; [done|]. split; cbn; lia.
  - do 2 eexists. split; [done|]. split; [by apply server_ok_insert|]. rewrite abs_insert. apply orb_false_iff in Ew as [-> Ew].
    assert (s' = s) as ->.
    { apply bits_inj; [done..|]. rewrite Eb'. apply list_insert_id. rewrite Ec. f_equal. by destruct (Z.testbit c _), b. }
    split; [done|]. split; [cbn; lia|]. intros _. left. rewrite abs_insert. apply insert_id, Hch. done.
Qed.

(** ** Reading *)

Lemma local_string size v : in_s 64 v -> 21 <= size -> exists q, ll2string_local undef size v = Some (dec v ++ q, Z.of_nat (length (dec v))).
Proof. intros Hv Hs. destruct (ll2string_local_spec undef size v Hv Hs) as (q & ->). by eexists. Qed.

Lemma read_only o : strobj_ok o -> getObjectReadOnlyString undef (Some o) = Some (str_value o, Z.of_nat (length (str_value o))).
Proof.
  intros Ho. destruct o as [s|s|v]; [done..|]. cbn [getObjectReadOnlyString].
  destruct (local_string LONG_STR_SIZE v Ho) as [q ->]; [unfold LONG_STR_SIZE; lia|]. cbn [mbind option_bind]. by rewrite slice_prefix.
Qed.

Lemma bit_at_get s q off : Forall byteZ s -> 0 <= off < 8 * Z.of_nat (length s) -> exists c,
  get (s ++ q) (Z.shiftr off 3) = Some c /\ Z.testbit c (7 - Z.land off 7) = bit_at (bits s) off /\ 0 <= 7 - Z.land off 7.
Proof.
  intros Hs H. destruct (get_bit s off Hs H) as (c & b & Eg & Hc & Eb & Et & Hk). exists c. unfold bit_at. rewrite Eb. split_and!; [|done|lia].
  unfold get in *. destruct (0 <=? _); [|done]. by apply lookup_app_l_Some.
Qed.

Lemma getbit_refined k off : in_s 64 off -> (obey = true -> off < 8 * max) -> refined (GetBit k off).
Proof.
  intros Ho Hobey st Hok. destruct (offset_error obey max off) eqn:Eo.
  { eapply refined_same; [done| |cbn; by rewrite Eo]. cbn. unfold getbitCommand, run. go. rewrite plain_offset, Eo by done. done. }
  pose proof (offset_ok off Eo Hobey) as Hr. eapply refined_same; [done| |cbn; rewrite Eo, abs_lookup; done].
  unfold exec, argv_of, getbitCommand, run. go. rewrite plain_offset, Eo by done. go.
  destruct (keyspace st !! k) as [[o|]|] eqn:E; [|done..]. apply Hok in E as [Hoo Hl]. cbn [checkType]. go.
  assert (exists q, match o with StrInt v => ll2string_local undef 32 v | StrRaw s | StrEmb s => Some (s, Z.of_nat (length s)) end =
    Some (str_value o ++ q, Z.of_nat (length (str_value o)))) as [q Eq].
  { destruct o as [s|s|v]; [exists []; by rewrite app_nil_r..|]. by apply local_string. }
  rewrite Eq. go. rewrite Z.shiftr_div_pow2 by lia. change (2 ^ 3) with 8.
  destruct (Z.ltb_spec (off / 8) (Z.of_nat (length (str_value o)))) as [Hlt|Hge]; go.
  - destruct (bit_at_get (str_value o) q off) as (c & Eg & Et & Hk); [by apply str_value_bytes|dlia|].
    rewrite Z.shiftr_div_pow2 in Eg by lia. change (2 ^ 3) with 8 in Eg. rewrite Eg. go. rewrite bit_test, Et by done. done.
  - cbn. unfold bit_at. rewrite lookup_ge_None_2 by (rewrite length_bits; dlia). done.
Qed.

(** *** BITCOUNT *)

Definition is_bit (u : option bool) : bool := match u with Some true => true | _ => false end.

Lemma unit_size_eq u : unit_size u = if is_bit u then 1 else 8.
Proof. by destruct u as [[]|]. Qed.

Lemma length_ok (n : nat) : Z.of_nat n <= max + 8 -> (Z.of_nat n <=? Z.shiftr LLONG_MAX 3) = true.
Proof. intros H. assert (Z.shiftr LLONG_MAX 3 = 2 ^ 60 - 1) as -> by done. lia. Qed.

Lemma whole_range (s : list Z) : s <> [] -> range_ok (Z.of_nat (length s)) 0 (8 * Z.of_nat (length s)) (0, Z.of_nat (length s) - 1, 0, 0).
Proof. intros Hs. assert (0 < length s)%nat by (destruct s; [done|cbn; lia]). exists 0%nat, 0%nat. split_and!; (done || lia). Qed.

Lemma field_all l : field l 0 (Z.of_nat (length l)) = l.
Proof. unfold field. rewrite Nat2Z.id. change (Z.to_nat 0) with 0%nat. rewrite drop_0. by apply take_ge. Qed.

Definition range_valid (r : option (Z * Z * option bool)) : Prop := match r with Some (s, e, _) => in_s 64 s /\ in_s 64 e | None => True end.

(** The range a command is given, and the answer for it. *)
Lemma bitcount_given o k s e u st : strobj_ok o -> Z.of_nat (length (str_value o)) <= max + 8 -> in_s 64 s -> in_s 64 e ->
  exists r, bitcount_range (argv_of (BitCount k (Some (s, e, u)))) (Z.of_nat (length (str_value o))) st =
    Some (st, if (s <? 0) && (e <? 0) && (s >? e) then inl (RInt 0) else inr r) /\
  r = convert_range (is_bit u) (Z.of_nat (length (str_value o))) s e.
Proof.
  intros Ho Hl Hs He. eexists. split; [|done]. unfold bitcount_range.
  assert ((length (argv_of (BitCount k (Some (s, e, u)))) =? 4)%nat || (length (argv_of (BitCount k (Some (s, e, u)))) =? 5)%nat = true) as ->
    by (by destruct u as [[]|]).
  rewrite length_ok by done. unfold argv_of. go. cbn [app lookup list_lookup]. go. rewrite long_long_arg by done. go. rewrite long_long_arg by done. go.
  destruct (_ && _ && _); [done|]. by destruct u as [[]|].
Qed.

Lemma bitcount_refined k r : range_valid r -> refined (BitCount k r).
Proof.
  intros Hv st Hok. eapply refined_same; [done| |cbn; by rewrite abs_lookup].
  unfold exec, bitcountCommand, run. assert (argv_of (BitCount k r) !! 1%nat = Some k) as -> by done. go.
  destruct (keyspace st !! k) as [[o|]|] eqn:E; [|done..]. apply Hok in E as [Ho Hl]. cbn [checkType]. go. rewrite read_only by done. go. cbn [fmap option_fmap option_map abs_value].
  pose proof (str_value_bytes o Ho) as Hb. destruct r as [[[s e] u]|]; cbn [range_valid spec_count] in *.
  - destruct (bitcount_given o k s e u st Ho Hl) as (r & -> & ->); [tauto..|]. destruct (_ && _ && _); [done|]. go.
    pose proof (convert_range_spec (is_bit u) (Z.of_nat (length (str_value o))) s e ltac:(lia)) as Hc.
    destruct (convert_range _ _ _ _) as [[[a b] f] l]. rewrite length_bits, unit_size_eq. replace (Z.of_nat (8 * _)) with (8 * Z.of_nat (length (str_value o))) by lia.
    destruct (interval _ _ _ _) as [[lo n]|].
    + assert (a <= b) by (destruct Hc as (? & ? & ?); lia). zb_false (a >? b). rewrite (bitcount_bytes_spec _ _ _ _ _ _ _ lo n) by done. done.
    + zb_true (a >? b). done.
  - unfold bitcount_range. cbn [argv_of app length Nat.eqb orb]. go. destruct (decide (str_value o = [])) as [En|En].
    + rewrite En. done.
    + assert (0 < length (str_value o))%nat by (destruct (str_value o); [done|cbn; lia]). zb_false (0 >? Z.of_nat (length (str_value o)) - 1).
      rewrite (bitcount_bytes_spec _ _ _ _ _ _ _ _ _ Hb (whole_range _ En)). go.
      replace (8 * Z.of_nat (length (str_value o))) with (Z.of_nat (length (bits (str_value o)))) by (rewrite length_bits; lia). by rewrite field_all.
Qed.

(** *** BITPOS *)

Definition pos_range_valid (r : option (Z * option (Z * option bool))) : Prop :=
  match r with Some (s, None) => in_s 64 s | Some (s, Some (e, _)) => in_s 64 s /\ in_s 64 e | None => True end.

Definition pos_range (r : option (Z * option (Z * option bool))) : Z * Z * Z * bool :=
  match r with
  | None => (0, -1, 8, false)
  | Some (s, None) => (s, -1, 8, false)
  | Some (s, Some (e, u)) => (s, e, unit_size u, true)
  end.

Lemma interval_to_end len s : 0 <= len -> interval (8 * len) 8 s (-1) = interval (8 * len) 8 s (len - 1).
Proof.
  intros Hl. unfold interval. assert (8 * len / 8 = len) as -> by (rewrite Z.mul_comm, Z.div_mul; lia).
  change (-1 <? 0) with true. cbv iota zeta. set (A := Z.max 0 (if s <? 0 then len + s else s)).
  assert (Z.max 0 (if len - 1 <? 0 then len + (len - 1) else len - 1) = Z.max 0 (len + -1)) as -> by (case_zb; lia). done.
Qed.

Lemma no_last_mask len s e : (convert_range false len s e).2 = 0.
Proof. unfold convert_range. done. Qed.

Lemma unit_bit st : bit_or_byte (Some (chars "bit")) st = Some (st, inr true).
Proof. done. Qed.

Lemma unit_byte st : bit_or_byte (Some (chars "byte")) st = Some (st, inr false).
Proof. done. Qed.

Lemma bitpos_given (len : nat) k bit r st : Z.of_nat len <= max + 8 -> pos_range_valid r ->
  let '(start, stop, u, eg) := pos_range r in
  exists a b f l, bitpos_args (argv_of (BitPos k bit r)) (Z.of_nat len) st = Some (st, inr (a, b, f, l, eg)) /\ (eg = false -> l = 0) /\
  match interval (8 * Z.of_nat len) u start stop with None => a > b | Some (lo, n) => range_ok (Z.of_nat len) lo n (a, b, f, l) end.
Proof.
  intros Hl Hv. unfold bitpos_args. destruct r as [[s [[e u]|]]|]; cbn [pos_range pos_range_valid] in *.
  - pose proof (convert_range_spec (is_bit u) (Z.of_nat len) s e ltac:(lia)) as Hc. rewrite unit_size_eq.
    destruct (convert_range (is_bit u) (Z.of_nat len) s e) as [[[a b] f] l] eqn:Er. exists a, b, f, l. split; [|done].
    unfold argv_of. go. destruct Hv as [Hs He]. destruct u as [[]|]; cbn [unit_args app length Nat.eqb orb lookup list_lookup Nat.leb is_bit] in *;
      rewrite length_ok by done; go; rewrite long_long_arg by done; go; rewrite ?unit_bit, ?unit_byte; go; cbn [bit_or_byte]; go; rewrite long_long_arg by done; go; by rewrite <- Er.
  - pose proof (convert_range_spec false (Z.of_nat len) s (Z.of_nat len - 1) ltac:(lia)) as Hc. pose proof (no_last_mask (Z.of_nat len) s (Z.of_nat len - 1)) as Hz.
    rewrite interval_to_end by lia. destruct (convert_range false (Z.of_nat len) s (Z.of_nat len - 1)) as [[[a b] f] l] eqn:Er. exists a, b, f, l. split; [|done].
    unfold argv_of. go. cbn [app length Nat.eqb orb lookup list_lookup Nat.leb]. rewrite length_ok by done. go. rewrite long_long_arg by done. go. by rewrite <- Er.
  - exists 0, (Z.of_nat len - 1), 0, 0. split; [done|]. split; [done|]. rewrite interval_to_end by lia. unfold interval.
    assert (8 * Z.of_nat len / 8 = Z.of_nat len) as -> by (rewrite Z.mul_comm, Z.div_mul; lia). change (Z.max 0 (if 0 <? 0 then Z.of_nat len + 0 else 0)) with 0.
    destruct len as [|len]; [done|]. rewrite Z.min_l by (repeat case_zb; lia). zb_false (0 >? Z.of_nat (S len) - 1).
    pose proof (whole_range (replicate (S len) 0) ltac:(done)) as Hw. rewrite length_replicate in Hw.
    replace ((Z.of_nat (S len) - 1 - 0 + 1) * 8) with (8 * Z.of_nat (S len)) by lia. exact Hw.
Qed.

Lemma bitpos_refined k bit r : in_s 64 bit -> pos_range_valid r -> refined (BitPos k bit r).
Proof.
  intros Hbit Hv st Hok. unfold refined. destruct ((bit =? 0) || (bit =? 1)) eqn:Eb.
  2:{ eapply refined_same; [done| |cbn; by rewrite Eb]. unfold exec, bitposCommand, run.
      assert (argv_of (BitPos k bit r) !! 1%nat = Some k /\ argv_of (BitPos k bit r) !! 2%nat = Some (dec bit)) as [-> ->] by done. go.
      rewrite long_arg by done. go. assert (negb (bit =? 0) && negb (bit =? 1) = true) as -> by lia. done. }
  assert (exists b, bit = b2z b) as [b ->] by (exists (bit =? 1); destruct (Z.eqb_spec bit 1); cbn; lia).
  eapply refined_same; [done| |cbn; rewrite Eb, abs_lookup; done]. unfold exec, bitposCommand, run.
  assert (argv_of (BitPos k (b2z b) r) !! 1%nat = Some k /\ argv_of (BitPos k (b2z b) r) !! 2%nat = Some (dec (b2z b))) as [-> ->] by done. go.
  rewrite long_arg by done. go. assert (negb (b2z b =? 0) && negb (b2z b =? 1) = false) as -> by (by destruct b). cbn [negb]. go.
  destruct (keyspace st !! k) as [[o|]|] eqn:E; [|done..]. apply Hok in E as [Ho Hl]. cbn [checkType]. go. rewrite read_only by done. go.
  cbn [fmap option_fmap option_map abs_value]. pose proof (str_value_bytes o Ho) as Hb. pose proof (bitpos_given (length (str_value o)) k (b2z b) r st Hl Hv) as Hg.
  unfold spec_pos. fold (pos_range r). destruct (pos_range r) as [[[start stop] u] eg]. destruct Hg as (a & b' & f & l & -> & Hz & Hg). go.
  rewrite length_bits. replace (Z.of_nat (8 * _)) with (8 * Z.of_nat (length (str_value o))) by lia. assert ((b2z b =? 1) = b) as -> by (by destruct b).
  destruct (interval _ _ _ _) as [[lo n]|].
  - assert (a <= b') by (destruct Hg as (? & ? & ?); lia). zb_false (a >? b'). rewrite (bitpos_range_spec _ _ _ _ _ _ _ lo n) by done. done.
  - zb_true (a >? b'). done.
Qed.

(** *** BITOP *)

Definition bytes_of (st : server) (k : list Z) : list Z := match keyspace st !! k with Some (VString o) => str_value o | _ => [] end.

Lemma bytes_of_bits st k : default [] (abs st !! k ≫= id) = bits (bytes_of st k).
Proof. rewrite abs_lookup. unfold bytes_of. by destruct (keyspace st !! k) as [[]|]. Qed.

Lemma bytes_of_ok st k : server_ok max st -> Forall byteZ (bytes_of st k) /\ Z.of_nat (length (bytes_of st k)) <= max + 8.
Proof.
  intros Hok. unfold bytes_of. destruct (keyspace st !! k) as [[o|]|] eqn:E; [|split; [constructor|cbn; lia]..].
  apply Hok in E as [Ho Hl]. split; [by apply str_value_bytes|done].
Qed.

Lemma decoded o : strobj_ok o -> exists d, getDecodedObject undef o = Some d /\ sdsEncodedObject d = Some (str_value o).
Proof.
  intros Ho. eexists. split; [by apply getDecodedObject_spec|]. destruct o as [s|s|v]; [done..|].
  unfold createStringObject. by destruct (_ <=? _).
Qed.

Definition other_key (st : server) (k : list Z) : bool := match keyspace st !! k with Some VOther => true | _ => false end.

Lemma sources_error st keys : server_ok max st -> existsb (other_key st) keys = true -> forall j src mx mn,
  bitop_sources undef keys j src mx mn st = Some (st, inl (RError ErrWrongType)).
Proof.
  intros Hok. induction keys as [|k keys IH]; [done|]. cbn [existsb bitop_sources]. intros Ho j src mx mn. go. unfold other_key in Ho at 1.
  destruct (keyspace st !! k) as [[o|]|] eqn:E; [|done|]; cbn [orb checkType] in *; go; [|by apply IH].
  apply Hok in E as [Hoo _]. destruct (decoded o Hoo) as (d & -> & Ed). go. rewrite Ed. go. by apply IH.
Qed.

Lemma sources_spec st keys : server_ok max st -> existsb (other_key st) keys = false -> forall (src : list (list Z)) (mx mn : nat),
  Forall (fun s => length s <= mx)%nat src -> (src <> [] -> Forall (fun s => mn <= length s)%nat src) -> (mn <= mx)%nat -> exists mn' : nat,
  let all := src ++ (bytes_of st <$> keys) in let mx' := foldl (fun m s => Nat.max m (length s)) mx (bytes_of st <$> keys) in
  bitop_sources undef keys (length src) src (Z.of_nat mx) (Z.of_nat mn) st = Some (st, inr (all, Z.of_nat mx', Z.of_nat mn')) /\
  (all <> [] -> Forall (fun s => mn' <= length s)%nat all) /\ (mn' <= mx')%nat.
Proof.
  intros Hok. cbv zeta. induction keys as [|k keys IH]; intros Ho src mx mn Hmx Hmn Hle; cbn [existsb bitop_sources fmap list_fmap foldl].
  { exists mn. rewrite app_nil_r. done. }
  apply orb_false_iff in Ho as [Hk Ho]. assert (exists mn1 : nat, bitop_sources undef (k :: keys) (length src) src (Z.of_nat mx) (Z.of_nat mn) st =
    bitop_sources undef keys (length (src ++ [bytes_of st k])) (src ++ [bytes_of st k]) (Z.of_nat (Nat.max mx (length (bytes_of st k)))) (Z.of_nat mn1) st /\
    (mn1 <= length (bytes_of st k))%nat /\ (src <> [] -> mn1 <= mn)%nat) as (mn1 & E & H1 & H2).
  { cbn [bitop_sources]. go. unfold bytes_of, other_key in *. rewrite length_app, Nat.add_1_r. destruct (keyspace st !! k) as [[o|]|] eqn:E; [|done|]; cbn [checkType]; go.
    - apply Hok in E as [Hoo _]. destruct (decoded o Hoo) as (d & -> & Ed). go. rewrite Ed. go.
      exists (if (length src =? 0)%nat || (Z.of_nat (length (str_value o)) <? Z.of_nat mn) then length (str_value o) else mn). split.
      + f_equal; [repeat case_zb; lia|by destruct (_ || _)].
      + destruct src; cbn [length Nat.eqb orb]; [done|]. case_zb; lia.
    - exists 0%nat. split; [|split; lia]. f_equal. cbn. lia. }
  cbn [bitop_sources] in E. rewrite E. destruct (IH Ho (src ++ [bytes_of st k]) (Nat.max mx (length (bytes_of st k))) mn1) as (mn' & E' & H').
  - apply Forall_app. split; [eapply Forall_impl; [exact Hmx|cbn; lia]|]. constructor; [lia|constructor].
  - intros _. apply Forall_app. split; [|by repeat constructor]. destruct src as [|s0 src]; [constructor|].
    eapply Forall_impl; [by apply Hmn|]. cbn. specialize (H2 ltac:(done)). lia.
  - lia.
  - exists mn'. rewrite <- app_assoc in E', H'. done.
Qed.

Lemma op_name_arg op st : bitop_name (op_name op) st = Some (st, inr op).
Proof. by destruct op. Qed.

Lemma other_keys st keys : existsb (fun k => bool_decide (abs st !! k = Some None)) keys = existsb (other_key st) keys.
Proof.
  induction keys as [|k keys IH]; [done|]. cbn [existsb]. rewrite IH, abs_lookup. f_equal. unfold other_key. by destruct (keyspace st !! k) as [[]|].
Qed.

Lemma longest_bound st keys : server_ok max st -> Z.of_nat (longest (bytes_of st <$> keys)) <= max + 8.
Proof.
  intros Hok. unfold longest. assert (forall m : nat, Z.of_nat m <= max + 8 -> Z.of_nat (foldl (fun m s => Nat.max m (length s)) m (bytes_of st <$> keys)) <= max + 8) as H; [|apply H; lia].
  induction keys as [|k keys IH]; intros m Hm; [done|]. cbn [fmap list_fmap foldl]. apply IH. pose proof (proj2 (bytes_of_ok st k Hok)). lia.
Qed.

(** The bytes a successful BITOP computes. *)
Lemma bitop_result st op keys : server_ok max st -> existsb (other_key st) keys = false -> keys <> [] -> (op = BITOP_NOT -> length keys = 1%nat) ->
  exists src (mn : nat) res, src = bytes_of st <$> keys /\
  bitop_sources undef keys 0 [] 0 0 st = Some (st, inr (src, Z.of_nat (longest src), Z.of_nat mn)) /\
  bitop_compute little aligned_access op src (Z.of_nat (longest src)) (Z.of_nat mn) = Some res /\
  Forall byteZ res /\ length res = longest src /\ bits res = spec_op op ((fun k => default [] (abs st !! k ≫= id)) <$> keys).
Proof.
  intros Hok Ho Hne Hnot. destruct (sources_spec st keys Hok Ho [] 0 0) as (mn & E & Hmn & Hle); [constructor|done|lia|]. cbv zeta in *. cbn [app length] in *.
  assert (bytes_of st <$> keys <> []) as Hn by (by destruct keys). assert (Forall (Forall byteZ) (bytes_of st <$> keys)) as Hb.
  { apply Forall_fmap, Forall_forall. intros k _. by apply bytes_of_ok. }
  exists (bytes_of st <$> keys), mn, (column op (bytes_of st <$> keys) <$> seq 0 (longest (bytes_of st <$> keys))). split; [done|]. split; [exact E|].
  rewrite bitop_compute_spec; [|done|done|intros; rewrite length_fmap; by apply Hnot|done|by apply Hmn]. split; [done|].
  split; [apply Forall_fmap, Forall_forall; intros x _; by apply column_byte|]. split; [by rewrite length_fmap, length_seq|].
  rewrite <- spec_op_bytes, <- list_fmap_compose by done. f_equal. apply list_fmap_ext. intros i k _. cbn. symmetry. apply bytes_of_bits.
Qed.

Lemma bitop_refined op dest keys : keys <> [] -> refined (BitOp op dest keys).
Proof.
  intros Hne st Hok. destruct (bool_decide (op = BITOP_NOT) && negb (length keys =? 1)%nat) eqn:En.
  { eapply refined_same; [done| |cbn; by rewrite En]. unfold exec, bitopCommand, run, argv_of. go. cbn [app lookup list_lookup]. go.
    rewrite op_name_arg. go. cbn [length]. assert ((S (S (S (length keys))) =? 4)%nat = (length keys =? 1)%nat) as -> by lia. by rewrite En. }
  destruct (existsb (other_key st) keys) eqn:Eo.
  { eapply refined_same; [done| |cbn; by rewrite En, other_keys, Eo]. unfold exec, bitopCommand, run, argv_of. go. cbn [app lookup list_lookup]. go.
    rewrite op_name_arg. go. cbn [length]. assert ((S (S (S (length keys))) =? 4)%nat = (length keys =? 1)%nat) as -> by lia. rewrite En. cbn [drop]. rewrite drop_0.
    by rewrite sources_error. }
  assert (op = BITOP_NOT -> length keys = 1%nat) as Hnot by (intros ->; rewrite bool_decide_eq_true_2 in En by done; lia).
  destruct (bitop_result st op keys Hok Eo Hne Hnot) as (src & mn & res & Esrc & Es & Ec & Hb & Hl & Eb). pose proof (longest_bound st keys Hok) as Hmx. rewrite <- Esrc in Hmx.
  assert (spec obey max (BitOp op dest keys) (abs st) =
    (if bool_decide (bits res = []) then delete dest (abs st) else <[dest := Some (bits res)]> (abs st), RInt (Z.of_nat (longest src)))) as Esp.
  { cbn [spec]. rewrite En, other_keys, Eo, <- Eb, length_bits, Hl. do 3 f_equal. replace (Z.of_nat (8 * longest src)) with (Z.of_nat (longest src) * 8) by lia. by rewrite Z.div_mul. }
  rewrite Esp. unfold exec, bitopCommand, run, argv_of. go. cbn [app lookup list_lookup]. go. rewrite op_name_arg. go. cbn [length].
  assert ((S (S (S (length keys))) =? 4)%nat = (length keys =? 1)%nat) as -> by lia. rewrite En. cbn [drop]. rewrite drop_0, Es. go.
  destruct (Z.eqb_spec (Z.of_nat (longest src)) 0) as [E0|E0]; cbn [negb]; go.
  - assert (res = []) as -> by (apply nil_length_inv; lia). rewrite bool_decide_eq_true_2 by done. destruct (keyspace st !! dest) eqn:Ed; go.
    + do 2 eexists. split; [done|]. split; [by apply map_Forall_delete|]. unfold abs. cbn [keyspace]. rewrite fmap_delete. split; [done|]. split; cbn; lia.
    + do 2 eexists. split; [done|]. split; [done|]. assert (delete dest (abs st) = abs st) as -> by (apply (delete_id (M := gmap (list Z))); by rewrite abs_lookup, Ed).
      split; [done|]. apply propagates_same.
  - rewrite Ec. go. assert (bits res <> []) as Hr by (intros E; apply (f_equal length) in E; rewrite length_bits in E; cbn in E; lia).
    rewrite bool_decide_eq_false_2 by done. do 2 eexists. split; [done|]. split; [apply server_ok_insert; (done || lia)|]. rewrite abs_insert. split; [done|]. split; cbn; lia.
Qed.
End Refine.
