(* ===== verification/BitopsCommands.v ===== *)
(** * Bitmaps: BITFIELD, and all commands together

    The operations of BITFIELD are parsed, then run one after the other on the
    string; the specification does the same with lists of bits and unbounded
    integers.  The last part is the theorem on sequences of commands, what a
    command counts as a change, and the two inputs on which BITFIELD does not
    do what it means to. *)

From Stdlib Require Import ZArith Lia ZifyBool String.
From stdpp Require Import base gmap numbers option list.
From S2P Require Import Prelude Numstr Strobj Bitops BitopsProof BitopsField BitopsSpec BitopsRange BitopsOp BitopsRefine.

Local Open Scope Z_scope.

(** ** Fields of padded strings *)

Lemma pad_take m n l : (m <= Z.to_nat n)%nat -> take m (pad n l) = take m l ++ replicate (m - length l) false.
Proof. intros H. unfold pad. rewrite take_app, take_replicate. do 2 f_equal. lia. Qed.

Lemma field_alt l off n : 0 <= off -> 0 <= n -> field l off n = drop (Z.to_nat off) (take (Z.to_nat (off + n)) l).
Proof. intros Ho Hn. unfold field. rewrite Z2Nat.inj_add by lia. apply take_drop_commute. Qed.

Lemma field_pad l off n a b : 0 <= off -> 0 <= n -> off + n <= a -> off + n <= b -> field (pad a l) off n = field (pad b l) off n.
Proof. intros Ho Hn Ha Hb. rewrite !field_alt, !pad_take by lia. done. Qed.

Lemma pad_long l n : n <= Z.of_nat (length l) -> pad n l = l.
Proof. intros H. unfold pad. replace (Z.to_nat n - length l)%nat with 0%nat by lia. apply app_nil_r. Qed.

Lemma set_field_same l off n : 0 <= off -> 0 <= n -> off + n <= Z.of_nat (length l) -> set_field l off (field l off n) = l.
Proof.
  intros Ho Hn Hl. unfold set_field. rewrite field_length by lia. unfold field. rewrite <- drop_drop. by rewrite !take_drop.
Qed.

Lemma set_field_length l off m : 0 <= off -> off + Z.of_nat (length m) <= Z.of_nat (length l) -> length (set_field l off m) = length l.
Proof. intros Ho Hl. unfold set_field. rewrite !length_app, length_take, length_drop. lia. Qed.

Lemma sval_range l : l <> [] -> in_s (Z.of_nat (length l)) (sval l).
Proof. intros H. apply swrap_range. destruct l; [done|cbn [length]; lia]. Qed.

Lemma to_bits_sval l : l <> [] -> to_bits (length l) (sval l) = l.
Proof.
  intros H. rewrite <- (to_bits_uval l) at 3. apply to_bits_mod. unfold sval.
  assert (0 < Z.of_nat (length l)) by (destruct l; [done|cbn [length]; lia]). change (wrap (Z.of_nat (length l)) (swrap (Z.of_nat (length l)) (uval l)) = wrap (Z.of_nat (length l)) (uval l)).
  by apply wrap_swrap.
Qed.

(** ** Reading *)

Lemma get_buffer_spec s n : forall i : nat, get_buffer n s (Z.of_nat (length s)) (Z.of_nat i) = Some (byte0 s <$> seq i n).
Proof.
  induction n as [|n IH]; intros i; [done|]. cbn [get_buffer seq fmap list_fmap]. destruct (Z.geb_spec (Z.of_nat i) (Z.of_nat (length s))).
  - f_equal. change (replicate (S n) 0 = byte0 s <$> seq i (S n)). apply list_eq_same_length with (n := S n); [by rewrite length_fmap, length_seq|by rewrite length_replicate|].
    intros x y z Hx Hy Hz. rewrite lookup_replicate in Hy. rewrite list_lookup_fmap, lookup_seq_lt in Hz by lia. injection Hz as <-. unfold byte0.
    rewrite lookup_ge_None_2 by lia. by destruct Hy.
  - unfold get. zb. rewrite Nat2Z.id. destruct (lookup_lt_is_Some_2 s i ltac:(lia)) as [c Ec]. rewrite Ec. cbn [mbind option_bind].
    replace (Z.of_nat i + 1) with (Z.of_nat (S i)) by lia. rewrite IH. cbn [mbind option_bind]. unfold byte0 at 2. by rewrite Ec.
Qed.

Lemma buffer_bits s (i n : nat) : exists m : nat, bits (byte0 s <$> seq i n) = take (8 * n) (drop (8 * i) (pad (8 * Z.of_nat m) (bits s))) /\ (i + n <= m)%nat.
Proof.
  exists (Nat.max (length s) (i + n)). split; [|lia]. set (m := Nat.max _ _).
  assert (seq i n = take n (drop i (seq 0 m))) as ->.
  { replace m with (i + (n + (m - i - n)))%nat by lia. rewrite !seq_app, drop_app_length', take_app_length' by (by rewrite length_seq). done. }
  rewrite fmap_take, fmap_drop, byte0_grow, bits_take, bits_drop, pad_bits by lia. done.
Qed.

Section Commands.
Context (undef : nat -> Z) (addr : nat -> Z) (little aligned_access obey : bool) (max : Z).
Hypothesis Hmax : 0 < max <= 2 ^ 40.

(** An operation with a valid type and offset. *)
Definition op_ok (op : bitfieldOp) : Prop :=
  0 <= bf_offset op < 8 * max /\ 1 <= bf_bits op <= (if bf_sign op then 64 else 63) /\ in_s 64 (bf_i64 op).

Definition object_bytes (o : option strobj) : list Z := match o with Some o => str_value o | None => [] end.

Lemma bitfield_get_spec o op : match o with Some o => strobj_ok o | None => True end -> op_ok op ->
  bitfield_get undef o op = Some (RInt (field_value (bits (object_bytes o)) op)).
Proof.
  intros Ho (Hof & Hn & _). set (s := object_bytes o). assert (Forall byteZ s) as Hs by (destruct o; [by apply str_value_bytes|constructor]).
  unfold bitfield_get. assert (getObjectReadOnlyString undef o = Some (s, Z.of_nat (length s))) as -> by (destruct o; [by apply read_only|done]).
  cbn [mbind option_bind]. rewrite Z.shiftr_div_pow2 by lia. change (2 ^ 3) with 8. replace (bf_offset op / 8) with (Z.of_nat (Z.to_nat (bf_offset op / 8))) by dlia.
  set (i := Z.to_nat (bf_offset op / 8)). assert (Z.of_nat i = bf_offset op / 8) as Hi by (unfold i; dlia). clearbody i.
  rewrite get_buffer_spec. cbn [mbind option_bind].
  assert (Forall byteZ (byte0 s <$> seq i 9)) as Hb by (apply Forall_fmap, Forall_forall; intros x _; by apply byte0_byte).
  rewrite wrap_id by (unfold in_u; dlia). assert (bf_bits op <= 64) by (destruct (bf_sign op); lia).
  assert (field (bits (byte0 s <$> seq i 9)) (bf_offset op - Z.of_nat i * 8) (bf_bits op) = field (pad (bf_offset op + bf_bits op) (bits s)) (bf_offset op) (bf_bits op)) as Ef.
  { destruct (buffer_bits s i 9) as (m & -> & Hm). rewrite (field_pad _ _ _ (bf_offset op + bf_bits op) (8 * Z.of_nat m)) by dlia.
    unfold field. replace (8 * 9)%nat with (Z.to_nat (bf_offset op - Z.of_nat i * 8) + (72 - Z.to_nat (bf_offset op - Z.of_nat i * 8)))%nat by dlia.
    rewrite <- take_drop_commute, take_take, drop_drop. f_equal; [dlia|]. f_equal. dlia. }
  unfold field_value. rewrite <- Ef. destruct (bf_sign op).
  - rewrite getSignedBitfield_spec by first [done|rewrite length_fmap, length_seq; dlia|dlia]. done.
  - rewrite getUnsignedBitfield_spec by first [done|rewrite length_fmap, length_seq; dlia|dlia]. cbn [mbind option_bind]. do 2 f_equal.
    apply swrap_id; [lia|]. set (F := field _ _ _). pose proof (uval_range F) as HF. unfold in_u, in_s in *.
    assert (length F <= 63)%nat by (unfold F, field; rewrite length_take; lia). assert (2 ^ Z.of_nat (length F) <= 2 ^ 63) by (apply Z.pow_le_mono_r; lia).
    change (2 ^ (64 - 1)) with (2 ^ 63). lia.
Qed.

(** ** Writing *)

Lemma check_outcome sign n ow x ov w nv : checked sign n ow x (ov, w) -> (type_fits sign n x = true -> nv = x) ->
  stored sign n ow x = if negb (ov =? 0) && is_fail ow then None else Some (if negb (ov =? 0) then w else nv).
Proof.
  unfold checked, stored. cbn [fst snd]. destruct (type_fits sign n x).
  - intros -> Hn. cbn. by rewrite Hn.
  - intros [Hov Hw] _. zb_false (ov =? 0). cbn [negb andb]. destruct ow; cbn [is_fail]; [by apply Hw|by apply Hw|done].
Qed.

(** What a write did to the string. *)
Definition written (p : list Z) (changed : bool) (op : bitfieldOp) (r : list Z * reply * Z) : Prop :=
  let '(p', rep, c) := r in
  spec_step (bits p) op = (bits p', rep) /\ Forall byteZ p' /\ length p' = length p /\ 0 <= c /\
  (c = 0 -> p' = p /\ (rep = RNull \/ changed = false)).

Lemma write_done p changed op old nv p' ret : Forall byteZ p -> is_get op = false -> op_ok op -> bf_offset op + bf_bits op <= 8 * Z.of_nat (length p) ->
  field_value (bits p) op = old -> to_bits (Z.to_nat (bf_bits op)) old = field (bits p) (bf_offset op) (bf_bits op) -> new_value old op = Some nv ->
  ret = match bf_opcode op with BITFIELDOP_INCRBY => nv | _ => old end ->
  Forall byteZ p' -> length p' = length p -> bits p' = set_field (bits p) (bf_offset op) (to_bits (Z.to_nat (bf_bits op)) nv) ->
  written p changed op (p', RInt ret, b2z (changed || negb (old =? nv))).
Proof.
  intros Hp Hg (Hof & Hn & _) Hl Ev Et En -> Hp' Hl' Eb. unfold written, spec_step. rewrite Ev, Hg, En, <- Eb. split; [done|]. split; [done|]. split; [done|].
  split; [by destruct (_ || _); cbn; lia|]. intros Hc. destruct changed; [done|]. cbn [orb] in Hc. destruct (Z.eqb_spec old nv) as [<-|]; [|done].
  split; [|by right]. apply bits_inj; [done..|]. rewrite Eb, Et. apply set_field_same; rewrite ?length_bits; lia.
Qed.

Lemma write_refused p changed op old : Forall byteZ p -> is_get op = false -> field_value (bits p) op = old -> new_value old op = None ->
  written p changed op (p, RNull, 0).
Proof. intros Hp Hg Ev En. unfold written, spec_step. rewrite Ev, Hg, En. split_and!; [done..|lia|]. intros _. split; [done|by left]. Qed.

(** The one input class on which the signed check goes wrong. *)
Definition sat_ok (op : bitfieldOp) : Prop :=
  bf_sign op = true -> bf_opcode op = BITFIELDOP_SET -> bf_owtype op = BFOVERFLOW_SAT -> sat_wrong (bf_bits op) (bf_i64 op) = false.

Lemma fits_signed n x : in_s n x -> type_fits true n x = true.
Proof. unfold in_s, type_fits, type_min, type_max. lia. Qed.

Lemma field_nonempty l off n : 0 <= off -> 1 <= n -> off + n <= Z.of_nat (length l) -> field l off n <> [].
Proof. intros Ho Hn Hl E. apply (f_equal length) in E. rewrite field_length in E by lia. cbn in E. lia. Qed.

Lemma signed_write p changed op : Forall byteZ p -> is_get op = false -> op_ok op -> bf_sign op = true -> sat_ok op ->
  bf_offset op + bf_bits op <= 8 * Z.of_nat (length p) -> exists r, bitfield_write_signed undef p changed op = Some r /\ written p changed op r.
Proof.
  intros Hp Hg Hop Hsg Hsat Hl. pose proof Hop as (Hof & Hn & Hi). rewrite Hsg in Hn. unfold bitfield_write_signed.
  rewrite getSignedBitfield_spec by (done || lia). cbn [mbind option_bind]. set (F := field (bits p) (bf_offset op) (bf_bits op)).
  assert (Z.of_nat (length F) = bf_bits op) as LF by (unfold F; rewrite field_length by (rewrite ?length_bits; lia); lia).
  assert (F <> []) as HF by (apply field_nonempty; rewrite ?length_bits; lia). pose proof (sval_range F HF) as Hr. rewrite LF in Hr.
  assert (field_value (bits p) op = sval F) as Ev by (unfold field_value; rewrite Hsg, pad_long by (rewrite length_bits; lia); done).
  assert (to_bits (Z.to_nat (bf_bits op)) (sval F) = F) as Et by (rewrite <- LF, Nat2Z.id; by apply to_bits_sval).
  assert (in_s 64 (sval F)) as Hr64.
  { unfold in_s in *. assert (2 ^ (bf_bits op - 1) <= 2 ^ (64 - 1)) by (apply Z.pow_le_mono_r; lia). lia. }
  match goal with |- context [let '(_, _) := ?t in _] => assert (exists ov nv, t = (ov, nv, match bf_opcode op with BITFIELDOP_INCRBY => nv | _ => sval F end) /\
    new_value (sval F) op = if negb (ov =? 0) && is_fail (bf_owtype op) then None else Some nv) as (ov & nv & -> & En) end.
  { unfold new_value. rewrite Hsg. unfold is_get in Hg. destruct (bf_opcode op) eqn:Eop; [done|..].
    - pose proof (checkSigned_spec (bf_i64 op) 0 (bf_bits op) (bf_owtype op) (undef 0) Hn Hi ltac:(unfold in_s; lia)) as Hc.
      destruct (checkSignedBitfieldOverflow _ _ _ _ _) as [ov w]. do 2 eexists. split; [done|]. rewrite Z.add_0_r in Hc. apply check_outcome; [|done].
      apply Hc. right. split; [done|]. intros Hs. by apply Hsat.
    - pose proof (checkSigned_spec (sval F) (bf_i64 op) (bf_bits op) (bf_owtype op) (undef 0) Hn Hr64 Hi) as Hc.
      destruct (checkSignedBitfieldOverflow _ _ _ _ _) as [ov w]. do 2 eexists. split; [done|]. apply check_outcome; [apply Hc; left; by apply fits_signed|].
      intros Hf. apply swrap_id; [lia|]. unfold type_fits, type_min, type_max, in_s in *. assert (2 ^ (bf_bits op - 1) <= 2 ^ (64 - 1)) by (apply Z.pow_le_mono_r; lia). lia. }
  cbn [fst snd]. destruct (_ && _); cbn [negb] in *.
  - eexists. split; [done|]. by apply (write_refused _ _ _ (sval F)).
  - destruct (setSignedBitfield_spec p (bf_offset op) (bf_bits op) nv) as (p' & -> & Hp' & Hl' & Eb); [done|lia..|]. cbn [mbind option_bind].
    eexists. split; [done|]. by apply (write_done _ _ _ (sval F) nv).
Qed.

Lemma stored_unsigned n ow x v : 0 <= n -> stored false n ow x = Some v -> in_u n v.
Proof.
  intros Hn. unfold stored. pose proof (Z.pow_pos_nonneg 2 n ltac:(lia) Hn). destruct (type_fits false n x) eqn:Ef.
  - intros [= <-]. unfold type_fits, type_min, type_max, in_u in *. lia.
  - destruct ow; [|..|done]; intros [= <-]; [by apply wrap_range|]. unfold in_u, type_min, type_max. case_zb; lia.
Qed.

Lemma small_s64 n v : 0 <= n <= 63 -> in_u n v -> s64 v = v.
Proof.
  intros Hn Hv. apply swrap_id; [lia|]. unfold in_u, in_s in *. assert (2 ^ n <= 2 ^ 63) by (apply Z.pow_le_mono_r; lia). change (2 ^ (64 - 1)) with (2 ^ 63). lia.
Qed.

Lemma unsigned_write p changed op : Forall byteZ p -> is_get op = false -> op_ok op -> bf_sign op = false ->
  bf_offset op + bf_bits op <= 8 * Z.of_nat (length p) -> exists r, bitfield_write_unsigned p changed op = Some r /\ written p changed op r.
Proof.
  intros Hp Hg Hop Hsg Hl. pose proof Hop as (Hof & Hn & Hi). rewrite Hsg in Hn. unfold bitfield_write_unsigned.
  rewrite getUnsignedBitfield_spec by (done || lia). cbn [mbind option_bind]. set (F := field (bits p) (bf_offset op) (bf_bits op)).
  assert (Z.of_nat (length F) = bf_bits op) as LF by (unfold F; rewrite field_length by (rewrite ?length_bits; lia); lia).
  pose proof (uval_range F) as Hr. rewrite LF in Hr. assert (2 ^ bf_bits op <= 2 ^ 63) as H63 by (apply Z.pow_le_mono_r; lia).
  assert (field_value (bits p) op = uval F) as Ev by (unfold field_value; rewrite Hsg, pad_long by (rewrite length_bits; lia); done).
  assert (to_bits (Z.to_nat (bf_bits op)) (uval F) = F) as Et by (rewrite <- LF, Nat2Z.id; by apply to_bits_uval).
  match goal with |- context [let '(_, _) := ?t in _] => assert (exists ov nv, t = (ov, nv, match bf_opcode op with BITFIELDOP_INCRBY => nv | _ => uval F end) /\
    new_value (uval F) op = if negb (ov =? 0) && is_fail (bf_owtype op) then None else Some nv) as (ov & nv & -> & En) end.
  { unfold new_value. rewrite Hsg. unfold is_get in Hg. destruct (bf_opcode op) eqn:Eop; [done|..].
    - pose proof (checkUnsigned_spec (u64 (bf_i64 op)) 0 (bf_bits op) (bf_owtype op) 0 Hn ltac:(by apply wrap_range) ltac:(unfold in_s; lia)) as Hc.
      destruct (checkUnsignedBitfieldOverflow _ _ _ _ _) as [ov w]. do 2 eexists. split; [done|]. rewrite Z.add_0_r in Hc. apply check_outcome; [|done].
      apply Hc. by right.
    - pose proof (checkUnsigned_spec (uval F) (bf_i64 op) (bf_bits op) (bf_owtype op) 0 Hn ltac:(unfold in_u in *; lia) Hi) as Hc.
      destruct (checkUnsignedBitfieldOverflow _ _ _ _ _) as [ov w]. do 2 eexists. split; [done|]. apply check_outcome; [apply Hc; left; unfold in_u in Hr; lia|].
      intros Hf. apply wrap_id. unfold type_fits, type_min, type_max, in_u in *. lia. }
  cbn [fst snd]. destruct (_ && _); cbn [negb] in *.
  - eexists. split; [done|]. by apply (write_refused _ _ _ (uval F)).
  - destruct (setUnsignedBitfield_spec p (bf_offset op) (bf_bits op) nv) as (p' & -> & Hp' & Hl' & Eb); [done|lia..|]. cbn [mbind option_bind].
    eexists. split; [done|]. apply (write_done _ _ _ (uval F) nv); try done. apply (small_s64 (bf_bits op)); [lia|].
    destruct (bf_opcode op); [done..|]. unfold new_value in En. rewrite Hsg in En. apply stored_unsigned in En; [done|lia].
Qed.

(** ** The operations *)

Definition op_fits (op : bitfieldOp) (p : list Z) : Prop := is_get op = false -> bf_offset op + bf_bits op <= 8 * Z.of_nat (length p).

Lemma bitfield_run_spec ops : forall p changed, Forall byteZ p -> Forall op_ok ops -> Forall sat_ok ops -> Forall (fun op => op_fits op p) ops -> exists p' rs c,
  bitfield_run undef (Some (StrRaw p)) changed ops = Some (Some (StrRaw p'), rs, c) /\ spec_ops (bits p) ops = (bits p', rs) /\
  Forall byteZ p' /\ length p' = length p /\ 0 <= c /\ (c = 0 -> RNull ∈ rs \/ p' = p /\ (changed = false \/ forallb is_get ops = true)).
Proof.
  induction ops as [|op ops IH]; intros p changed Hp Hok Hsat Hfit; cbn [bitfield_run spec_ops forallb].
  { exists p, [], 0. split_and!; [done..|lia|]. intros _. right. tauto. }
  apply Forall_cons in Hok as [Ho Hok]. apply Forall_cons in Hsat as [Hs Hsat]. apply Forall_cons in Hfit as [Hf Hfit].
  assert (exists p1 r c1, bitfield_step undef (Some (StrRaw p)) changed op = Some (Some (StrRaw p1), r, c1) /\ spec_step (bits p) op = (bits p1, r) /\
    Forall byteZ p1 /\ length p1 = length p /\ 0 <= c1 /\ (c1 = 0 -> p1 = p /\ (r = RNull \/ changed = false \/ is_get op = true))) as (p1 & r & c1 & -> & -> & Hp1 & L1 & Hc1 & H1).
  { unfold bitfield_step. destruct (is_get op) eqn:Eg.
    - unfold is_get in Eg. destruct (bf_opcode op) eqn:Eop; [|done..]. rewrite bitfield_get_spec by done. cbn [mbind option_bind object_bytes str_value].
      exists p. do 2 eexists. split; [done|]. unfold spec_step, is_get. rewrite Eop. split_and!; [done..|lia|tauto].
    - assert (exists w, (if bf_sign op then bitfield_write_signed undef p changed op else bitfield_write_unsigned p changed op) = Some w /\ written p changed op w) as ([[p1 r] c1] & E & Hw).
      { destruct (bf_sign op) eqn:Esg; [apply signed_write|apply unsigned_write]; try done; by apply Hf. }
      destruct Hw as (Es & Hp1 & L1 & Hc & Hz). exists p1, r, c1. split; [|split_and!; try done; tauto].
      unfold is_get in Eg. destruct (bf_opcode op); [done|..]; cbn [mbind option_bind sdsEncodedObject]; rewrite E; done. }
  cbn [mbind option_bind]. destruct (IH p1 changed Hp1 Hok Hsat) as (p' & rs & c & -> & Es & Hp' & L' & Hc & H2).
  { eapply Forall_impl; [exact Hfit|]. intros o Hof Hg. rewrite L1. by apply Hof. }
  cbn [mbind option_bind]. rewrite Es. exists p', (r :: rs), (c1 + c). split_and!; [done|done|done|lia|lia|]. intros Hz.
  destruct (H1 ltac:(lia)) as [-> Hr]. destruct (H2 ltac:(lia)) as [Hn|[-> Hch]]; [left; by right|].
  destruct Hr as [->|[Hr|Hr]]; [left; by left|right; tauto|]. right. split; [done|]. destruct Hch as [?|Hg]; [by left|right]. by rewrite Hr, Hg.
Qed.

Lemma run_reads ops o changed : match o with Some o => strobj_ok o | None => True end -> Forall op_ok ops -> forallb is_get ops = true -> exists rs,
  bitfield_run undef o changed ops = Some (o, rs, 0) /\ spec_ops (bits (object_bytes o)) ops = (bits (object_bytes o), rs).
Proof.
  intros Ho. induction ops as [|op ops IH]; intros Hok Hg; cbn [bitfield_run spec_ops forallb] in *; [by eexists|].
  apply Forall_cons in Hok as [Hop Hok]. apply andb_true_iff in Hg as [Hg Hgs]. destruct (IH Hok Hgs) as (rs & E & Es).
  unfold bitfield_step, spec_step. rewrite Hg. unfold is_get in Hg. destruct (bf_opcode op); [|done..]. rewrite bitfield_get_spec by done. cbn [mbind option_bind].
  rewrite E. cbn [mbind option_bind]. rewrite Es. by eexists.
Qed.

(** ** Parsing *)

Definition offset_valid (sign : bool) (n : Z) (off : bit_offset) : Prop :=
  let o := match off with Plain o => o | Fields i => i * n end in
  in_s 64 n /\ match off with Plain o => in_s 64 o | Fields i => in_s 64 i /\ (1 <= n <= 64 -> in_s 64 (i * n)) end /\ (obey = true -> o < 8 * max).

Definition sub_valid (sub : subcommand) : Prop :=
  match sub with
  | SubOverflow _ => True
  | SubGet sign n off => offset_valid sign n off
  | SubSet sign n off v | SubIncrby sign n off v => offset_valid sign n off /\ in_s 64 v
  end.

Lemma target_spec sign n off st : offset_valid sign n off ->
  bitfield_type_offset obey max (type_arg sign n) (offset_arg off) st =
  Some (st, match spec_target obey max sign n off with inl e => inl (RError e) | inr o => inr (sign, n, o) end) /\
  (forall o, spec_target obey max sign n off = inr o -> 0 <= o < 8 * max /\ 1 <= n <= (if sign then 64 else 63)).
Proof.
  intros (Hn & Ho & Hobey). unfold bitfield_type_offset, spec_target. go. rewrite type_checked by done.
  destruct ((n <? 1) || (n >? (if sign then 64 else 63))) eqn:En; [done|]. go.
  assert (1 <= n <= 64) as Hn' by (destruct sign; lia). assert (getBitOffsetFromArgument obey max (offset_arg off) true n st =
    Some (st, if offset_error obey max (match off with Plain o => o | Fields i => i * n end) then inl (RError ErrBitOffset) else inr (match off with Plain o => o | Fields i => i * n end))) as ->.
  { destruct off as [o|i]; cbn [offset_arg]; [by apply plain_offset|]. destruct Ho as [Hi Hin]. apply fields_offset; [done|lia|by apply Hin]. }
  destruct (offset_error _ _ _) eqn:Eo; [done|]. split; [done|]. intros o [= <-]. split; [by apply (offset_ok obey)|]. destruct sign; lia.
Qed.

Definition last_bit (ops : list bitfieldOp) (m : Z) : Z :=
  foldl (fun m op => if is_get op then m else Z.max m (bf_offset op + bf_bits op - 1)) m ops.

Lemma args_spec subs : forall ow ops ro hi st, Forall sub_valid subs ->
  bitfield_args obey max (field_args subs) ow ops ro hi st =
  Some (st, match spec_subs obey max subs ow with
            | inl e => inl (RError e)
            | inr new => inr (ops ++ new, ro && forallb is_get new, last_bit new hi)
            end) /\ (forall new, spec_subs obey max subs ow = inr new -> Forall op_ok new).
Proof.
  induction subs as [|sub subs IH]; intros ow ops ro hi st Hv.
  { cbn. rewrite app_nil_r, andb_true_r. split; [done|]. intros new [= <-]. constructor. }
  apply Forall_cons in Hv as [Hv Hvs]. change (field_args (sub :: subs)) with (sub_args sub ++ field_args subs).
  destruct sub as [ow'|sign n off|sign n off v|sign n off v]; cbn [sub_args sub_valid app spec_subs] in *.
  - destruct (IH ow' ops ro hi st Hvs) as [E Hn]. split; [|done]. rewrite <- E. by destruct ow'.
  - destruct (target_spec sign n off st Hv) as [Et Hr]. destruct (IH ow (ops ++ [BitfieldOp (match spec_target obey max sign n off with inr o => o | _ => 0 end) 0 BITFIELDOP_GET ow n sign]) ro hi st Hvs) as [E Hn].
    cbn [bitfield_args]. change (strcasecmp (chars "get") "get") with true. cbn [length Nat.leb andb]. go. rewrite Et. destruct (spec_target _ _ _ _ _) as [e|o]; [done|].
    rewrite E. destruct (spec_subs _ _ _ _) as [e|new]; [done|]. rewrite <- app_assoc. split; [done|]. intros ? [= <-]. constructor; [|by apply Hn].
    destruct (Hr o eq_refl). split_and!; cbn; try done; unfold in_s; lia.
  - destruct Hv as [Hv Hi]. destruct (target_spec sign n off st Hv) as [Et Hr].
    cbn [bitfield_args]. change (strcasecmp (chars "set") "get") with false. change (strcasecmp (chars "set") "set") with true. cbn [length Nat.leb andb orb]. go. rewrite Et.
    destruct (spec_target _ _ _ _ _) as [e|o]; [done|]. destruct (Hr o eq_refl) as [Ho Hn']. go. rewrite long_long_arg by done. go.
    assert (u64 (o + n - 1) = o + n - 1) as -> by (apply wrap_id; unfold in_u; destruct sign; lia).
    assert ((if hi <? o + n - 1 then o + n - 1 else hi) = Z.max hi (o + n - 1)) as -> by (case_zb; lia).
    destruct (IH ow (ops ++ [BitfieldOp o v BITFIELDOP_SET ow n sign]) false (Z.max hi (o + n - 1)) st Hvs) as [E Hn].
    rewrite E. destruct (spec_subs _ _ _ _) as [e|new]; [done|]. rewrite <- app_assoc. cbn [app forallb is_get bf_opcode andb]. rewrite andb_false_r.
    split; [|intros ? [= <-]; constructor; [exact (conj Ho (conj Hn' Hi))|by apply Hn]]. done.
  - destruct Hv as [Hv Hi]. destruct (target_spec sign n off st Hv) as [Et Hr].
    cbn [bitfield_args]. change (strcasecmp (chars "incrby") "get") with false. change (strcasecmp (chars "incrby") "set") with false.
    change (strcasecmp (chars "incrby") "incrby") with true. cbn [length Nat.leb andb orb]. go. rewrite Et.
    destruct (spec_target _ _ _ _ _) as [e|o]; [done|]. destruct (Hr o eq_refl) as [Ho Hn']. go. rewrite long_long_arg by done. go.
    assert (u64 (o + n - 1) = o + n - 1) as -> by (apply wrap_id; unfold in_u; destruct sign; lia).
    assert ((if hi <? o + n - 1 then o + n - 1 else hi) = Z.max hi (o + n - 1)) as -> by (case_zb; lia).
    destruct (IH ow (ops ++ [BitfieldOp o v BITFIELDOP_INCRBY ow n sign]) false (Z.max hi (o + n - 1)) st Hvs) as [E Hn].
    rewrite E. destruct (spec_subs _ _ _ _) as [e|new]; [done|]. rewrite <- app_assoc. cbn [app forallb is_get bf_opcode andb]. rewrite andb_false_r.
    split; [|intros ? [= <-]; constructor; [exact (conj Ho (conj Hn' Hi))|by apply Hn]]. done.
Qed.

Lemma last_bit_bounds ops : forall m, Forall op_ok ops -> 0 <= m < 8 * max + 64 ->
  m <= last_bit ops m < 8 * max + 64 /\ Forall (fun op => is_get op = false -> bf_offset op + bf_bits op - 1 <= last_bit ops m) ops.
Proof.
  unfold last_bit. induction ops as [|op ops IH]; intros m Hok Hm; cbn [foldl]; [split; [lia|constructor]|].
  apply Forall_cons in Hok as [(Ho & Hn & _) Hok]. assert (bf_bits op <= 64) by (destruct (bf_sign op); lia). destruct (is_get op) eqn:Eg.
  - destruct (IH m Hok Hm) as [H1 H2]. split; [done|]. constructor; [by rewrite Eg|done].
  - destruct (IH (Z.max m (bf_offset op + bf_bits op - 1)) Hok ltac:(lia)) as [H1 H2]. split; [lia|]. constructor; [intros; lia|done].
Qed.

Lemma bytes_needed_last ops : Forall op_ok ops -> if forallb is_get ops then bytes_needed ops = 0 else bytes_needed ops = last_bit ops 0 / 8 + 1.
Proof.
  intros Hok. unfold bytes_needed, last_bit. assert (forall b h, b = h / 8 + 1 /\ 0 <= h \/ b = 0 /\ h = 0 ->
    let b' := foldl (fun m op => if is_get op then m else Z.max m ((bf_offset op + bf_bits op - 1) / 8 + 1)) b ops in
    let h' := foldl (fun m op => if is_get op then m else Z.max m (bf_offset op + bf_bits op - 1)) h ops in
    if forallb is_get ops then b' = b else b' = h' / 8 + 1) as H; [|by apply (H 0 0); right].
  induction ops as [|op ops IH]; intros b h Hb; cbn [foldl forallb]; [done|]. apply Forall_cons in Hok as [(Ho & Hn & _) Hok]. specialize (IH Hok).
  destruct (is_get op); cbn [andb]; [by apply IH|]. assert (Z.max b ((bf_offset op + bf_bits op - 1) / 8 + 1) = Z.max h (bf_offset op + bf_bits op - 1) / 8 + 1) as Eb by (destruct (bf_sign op); dlia).
  specialize (IH (Z.max b ((bf_offset op + bf_bits op - 1) / 8 + 1)) (Z.max h (bf_offset op + bf_bits op - 1)) ltac:(left; split; [done|destruct (bf_sign op); lia])). cbv zeta in *.
  assert (forallb is_get ops = true -> forall m, foldl (fun m op => if is_get op then m else Z.max m (bf_offset op + bf_bits op - 1)) m ops = m) as Hg.
  { clear. induction ops as [|o ops IH]; intros H m; [done|]. cbn [forallb foldl] in *. apply andb_true_iff in H as [-> H]. by apply IH. }
  destruct (forallb is_get ops); [|done]. rewrite IH, Hg by done. exact Eb.
Qed.

Definition field_valid (subs : list subcommand) : Prop :=
  Forall sub_valid subs /\ forall ops, spec_subs obey max subs BFOVERFLOW_WRAP = inr ops -> Forall sat_ok ops.

Lemma bitfield_reads ro k subs ops st : server_ok max st -> Forall sub_valid subs -> spec_subs obey max subs BFOVERFLOW_WRAP = inr ops -> forallb is_get ops = true ->
  exists r, exec undef addr little aligned_access obey max (BitField ro k subs) st = Some (st, r) /\ spec obey max (BitField ro k subs) (abs st) = (abs st, r).
Proof.
  intros Hok Hv Es Hg. destruct (args_spec subs BFOVERFLOW_WRAP [] true 0 st Hv) as [Ea Hops]. rewrite Es, Hg in Ea. specialize (Hops ops Es).
  cbn [spec]. unfold spec_field. rewrite Es, Hg. cbn [negb andb]. pose proof (bytes_needed_last ops Hops) as Hb. rewrite Hg in Hb. rewrite Hb, abs_lookup.
  unfold exec, bitfieldGeneric, run, argv_of. go. cbn [app lookup list_lookup drop]. go. rewrite drop_0, Ea. go. cbn [app andb].
  destruct (keyspace st !! k) as [[o|]|] eqn:E; cbn [checkType]; go; [|by eexists|].
  - apply Hok in E as [Ho _]. destruct (run_reads ops (Some o) false Ho Hops Hg) as (rs & -> & Er). go. cbn [object_bytes abs_value fmap option_fmap option_map] in *.
    cbn [mbind option_bind default from_option id]. rewrite pad_long by lia. rewrite Er. by eexists.
  - destruct (run_reads ops None false I Hops Hg) as (rs & -> & Er). go. cbn [object_bytes abs_value fmap option_fmap option_map mbind option_bind default from_option id] in *.
    rewrite pad_long by (cbn; lia). change (bits []) with (@nil bool) in Er. rewrite Er. by eexists.
Qed.

Lemma bitfield_writes k subs ops st : server_ok max st -> Forall sub_valid subs -> spec_subs obey max subs BFOVERFLOW_WRAP = inr ops -> forallb is_get ops = false ->
  Forall sat_ok ops -> keyspace st !! k <> Some VOther -> exists st' r,
  exec undef addr little aligned_access obey max (BitField false k subs) st = Some (st', r) /\ server_ok max st' /\
  spec obey max (BitField false k subs) (abs st) = (abs st', r) /\ propagates st st' r.
Proof.
  intros Hok Hv Es Hg Hsat Hne. destruct (args_spec subs BFOVERFLOW_WRAP [] true 0 st Hv) as [Ea Hops]. rewrite Es, Hg in Ea. specialize (Hops ops Es).
  destruct (last_bit_bounds ops 0 Hops ltac:(lia)) as [Hlb Hfit]. pose proof (bytes_needed_last ops Hops) as Hb. rewrite Hg in Hb.
  destruct (lookup_for_write undef max st k (last_bit ops 0) Hok ltac:(lia) Hne) as (s & changed & sg & El & Hs & Eb & Hlen & Hmx & Hch).
  assert (Z.of_nat (length s) <= max + 8) as Hlm by (apply Hmx; dlia).
  destruct (bitfield_run_spec ops s changed Hs Hops Hsat) as (p' & rs & c & Er & Eo & Hp' & Lp & Hc & H0).
  { eapply Forall_impl; [exact Hfit|]. intros op Hf Hgo. specialize (Hf Hgo). lia. }
  assert (spec obey max (BitField false k subs) (abs st) = (<[k := Some (bits p')]> (abs st), RArray rs)) as ->.
  { cbn [spec]. unfold spec_field. rewrite Es, Hg. cbn [negb andb]. rewrite Hb. unfold current in Eb. assert (abs st !! k <> Some None) by (by rewrite <- abs_other).
    destruct (abs st !! k) as [[l|]|]; [|done|]; rewrite <- Eb, Eo; done. }
  unfold exec, bitfieldGeneric, run, argv_of. go. cbn [app lookup list_lookup drop]. go. rewrite drop_0, Ea. go. cbn [app andb]. rewrite El. go. rewrite Er. go.
  assert (forall d sg', abs (Server (<[k := VString (StrRaw p')]> (<[k := VString (StrRaw s)]> (keyspace st))) d sg') = <[k := Some (bits p')]> (abs st)) as Eab.
  { intros d sg'. rewrite insert_insert_eq. apply abs_insert. }
  destruct (Z.eqb_spec c 0) as [Ec|Ec]; go.
  - do 2 eexists. split; [done|]. split; [rewrite insert_insert_eq; apply server_ok_insert; (done || lia)|]. rewrite Eab. split; [done|]. split; [cbn; lia|]. intros _. rewrite Eab.
    destruct (H0 Ec) as [Hn|[-> [Hf|Hf]]]; [right; by eexists| |congruence]. left. by apply insert_id, Hch.
  - do 2 eexists. split; [done|]. split; [rewrite insert_insert_eq; apply server_ok_insert; (done || lia)|]. rewrite Eab. split; [done|]. split; cbn; lia.
Qed.

Lemma bitfield_refined ro k subs : field_valid subs -> refined undef addr little aligned_access obey max (BitField ro k subs).
Proof.
  intros [Hv Hsat] st Hok. destruct (args_spec subs BFOVERFLOW_WRAP [] true 0 st Hv) as [Ea _]. destruct (spec_subs obey max subs BFOVERFLOW_WRAP) as [e|ops] eqn:Es.
  { eapply refined_same; [done| |cbn; unfold spec_field; by rewrite Es]. unfold exec, bitfieldGeneric, run, argv_of. go. cbn [app lookup list_lookup drop]. go. by rewrite drop_0, Ea. }
  destruct (forallb is_get ops) eqn:Hg; [destruct (bitfield_reads ro k subs ops st Hok Hv Es Hg) as (r & E & E'); by eapply refined_same|].
  destruct ro.
  { eapply refined_same; [done| |cbn; unfold spec_field; rewrite Es, Hg; done]. unfold exec, bitfieldGeneric, run, argv_of. go. cbn [app lookup list_lookup drop]. go. rewrite drop_0, Ea. done. }
  destruct (other_or st k) as [Ht|Ht]; [|by apply (bitfield_writes k subs ops); auto].
  eapply refined_same; [done| |cbn; unfold spec_field; rewrite Es, Hg; apply abs_other in Ht as ->; done].
  unfold exec, bitfieldGeneric, run, argv_of. go. cbn [app lookup list_lookup drop]. go. rewrite drop_0, Ea. go. cbn [andb app]. by rewrite lookup_wrong.
Qed.
End Commands.

(** ** Sequences of commands *)

(** The arguments are 64-bit integers, an offset in fields does not overflow, a
    client that must be obeyed stays below the limit on the length of strings,
    and no SET saturates a value that the signed check takes for an overflow. *)
Definition command_valid (obey : bool) (max : Z) (c : bit_command) : Prop :=
  match c with
  | SetBit _ off on => in_s 64 off /\ in_s 64 on /\ (obey = true -> off < 8 * max)
  | GetBit _ off => in_s 64 off /\ (obey = true -> off < 8 * max)
  | BitCount _ r => range_valid r
  | BitPos _ bit r => in_s 64 bit /\ pos_range_valid r
  | BitOp _ _ keys => keys <> []
  | BitField _ _ subs => field_valid obey max subs
  end.

Lemma command_refined undef addr little aligned_access obey max c : 0 < max <= 2 ^ 40 -> command_valid obey max c ->
  refined undef addr little aligned_access obey max c.
Proof.
  intros Hmax Hv. destruct c; cbn [command_valid] in Hv.
  - apply setbit_refined; tauto.
  - apply getbit_refined; tauto.
  - by apply bitcount_refined.
  - apply bitpos_refined; tauto.
  - by apply bitop_refined.
  - by apply bitfield_refined.
Qed.

(** C6. Any sequence of the commands SETBIT, GETBIT, BITCOUNT, BITPOS, BITOP,
    BITFIELD and BITFIELD_RO with valid arguments runs without a failed
    assertion or an access outside a string, whatever the encodings of the
    values, the addresses of the buffers, the byte order and the content of
    uninitialised memory; it returns the replies, errors included, and leaves the
    key space that the specification on strings of bits gives. *)
Theorem bitmap_commands_refine_bits (undef addr : nat -> Z) (little aligned_access obey : bool) (max : Z) (cs : list bit_command) (st : server) :
  0 < max <= 2 ^ 40 -> server_ok max st -> Forall (command_valid obey max) cs ->
  exists st' rs, exec_all undef addr little aligned_access obey max cs st = Some (st', rs) /\ server_ok max st' /\
    spec_all obey max cs (abs st) = (abs st', rs).
Proof.
  intros Hmax Hok Hv. revert st Hok. induction Hv as [|c cs Hc Hcs IH]; intros st Hok; cbn [exec_all spec_all]; [by exists st, []|].
  destruct (command_refined undef addr little aligned_access obey max c Hmax Hc st Hok) as (st1 & r & -> & Hok1 & -> & _). cbn [mbind option_bind].
  destruct (IH st1 Hok1) as (st' & rs & -> & Hok' & Es). cbn [mbind option_bind]. rewrite Es. by exists st', (r :: rs).
Qed.

Definition demo_server : server := Server (<[chars "n" := VString (StrInt 12345)]> ∅) 0 [].
Definition demo_commands : list bit_command :=
  [SetBit (chars "k") 7 1;
   BitField false (chars "k") [SubOverflow BFOVERFLOW_SAT; SubIncrby true 5 (Fields 2) 20; SubSet false 8 (Plain 3) 300; SubGet true 64 (Plain 0)];
   BitOp BITOP_XOR (chars "x") [chars "k"; chars "n"];
   BitCount (chars "x") (Some (3, -2, Some true));
   BitPos (chars "x") 0 (Some (1, None))].

Lemma demo_server_ok : server_ok (2 ^ 29) demo_server.
Proof. apply map_Forall_insert_2; [|apply map_Forall_empty]. cbn. split; [unfold in_s; lia|vm_compute; done]. Qed.

Lemma demo_commands_valid : Forall (command_valid false (2 ^ 29)) demo_commands.
Proof.
  unfold demo_commands. repeat constructor; try (unfold in_s; lia); try done.
  intros ops [= <-]. repeat constructor; intros ? ? ?; vm_compute; done.
Qed.

Lemma bitmap_commands_refine_bits_witness : exists st' rs,
  exec_all (fun _ => 0) (fun _ => 0) true false false (2 ^ 29) demo_commands demo_server = Some (st', rs) /\ server_ok (2 ^ 29) st' /\
  spec_all false (2 ^ 29) demo_commands (abs demo_server) = (abs st', rs).
Proof.
  apply (bitmap_commands_refine_bits (fun _ => 0) (fun _ => 0) true false false (2 ^ 29) demo_commands demo_server); [lia|apply demo_server_ok|apply demo_commands_valid].
Defined.

(** ** What is propagated *)

(** C30. A valid command never decreases the counter of changes that decides
    whether it is sent to the replicas and to the append only file, and leaves
    it unchanged only when it leaves every string unchanged, or when it is a
    BITFIELD one of whose writes was refused. *)
Theorem bitmap_changes_counted (undef addr : nat -> Z) (little aligned_access obey : bool) (max : Z) (c : bit_command) (st : server) :
  0 < max <= 2 ^ 40 -> server_ok max st -> command_valid obey max c ->
  exists st' r, exec undef addr little aligned_access obey max c st = Some (st', r) /\ dirty st <= dirty st' /\
    (dirty st' = dirty st -> abs st' = abs st \/ exists rs, r = RArray rs /\ RNull ∈ rs).
Proof.
  intros Hmax Hok Hc. destruct (command_refined undef addr little aligned_access obey max c Hmax Hc st Hok) as (st' & r & E & _ & _ & Hd & Hs).
  by exists st', r.
Qed.

Lemma bitmap_changes_counted_witness : exists st' r,
  exec (fun _ => 0) (fun _ => 0) true false false (2 ^ 29) (SetBit (chars "n") 1000 1) demo_server = Some (st', r) /\ 0 <= dirty st' /\
  (dirty st' = 0 -> abs st' = abs demo_server \/ exists rs, r = RArray rs /\ RNull ∈ rs).
Proof.
  apply (bitmap_changes_counted (fun _ => 0) (fun _ => 0) true false false (2 ^ 29) (SetBit (chars "n") 1000 1) demo_server); [lia|apply demo_server_ok|].
  cbn. unfold in_s. lia.
Defined.

(** A refused write leaves a string that was created for it, and is not counted. *)
Lemma refused_write_creates_key (undef addr : nat -> Z) (little aligned_access : bool) (k : list Z) (st : server) : keyspace st !! k = None ->
  exec undef addr little aligned_access false (2 ^ 29) (BitField false k [SubOverflow BFOVERFLOW_FAIL; SubIncrby false 1 (Plain 0) 2]) st =
  Some (Server (<[k := VString (StrRaw [0])]> (keyspace st)) (dirty st) (signalled st), RArray [RNull]).
Proof.
  intros E. unfold exec, bitfieldGeneric, run. assert (argv_of (BitField false k [SubOverflow BFOVERFLOW_FAIL; SubIncrby false 1 (Plain 0) 2]) !! 1%nat = Some k) as -> by done. go.
  change (drop 2 _) with (field_args [SubOverflow BFOVERFLOW_FAIL; SubIncrby false 1 (Plain 0) 2]).
  assert (bitfield_args false (2 ^ 29) (field_args [SubOverflow BFOVERFLOW_FAIL; SubIncrby false 1 (Plain 0) 2]) BFOVERFLOW_WRAP [] true 0 st =
    Some (st, inr ([BitfieldOp 0 2 BITFIELDOP_INCRBY BFOVERFLOW_FAIL 1 false], false, 0))) as -> by done.
  go. unfold lookupStringForBitCommand. go. rewrite E. cbn [checkType]. go.
  assert (bitfield_run undef (Some (StrRaw (replicate (Z.to_nat (Z.shiftr 0 3 + 1)) 0))) true [BitfieldOp 0 2 BITFIELDOP_INCRBY BFOVERFLOW_FAIL 1 false] =
    Some (Some (StrRaw [0]), [RNull], 0)) as -> by done.
  go. by rewrite insert_insert_eq.
Qed.

(** ** Two inputs that are not handled *)

(** C40. The signed overflow check takes the smallest 64-bit values for an
    overflow: for a width below 64 bits and a value less than
    [2 ^ (n - 1) - 2 ^ 63], which is below the minimum of the type, BITFIELD SET
    with OVERFLOW SAT stores the maximum. *)
Theorem bitfield_set_saturates_wrong (n value limit : Z) : 1 <= n < 64 -> in_s 64 value -> value < 2 ^ (n - 1) - 2 ^ 63 ->
  value < type_min true n /\ checkSignedBitfieldOverflow value 0 n BFOVERFLOW_SAT limit = (1, type_max true n).
Proof.
  intros Hn Hv Hlt. assert (2 ^ (n - 1) <= 2 ^ 62) by (apply Z.pow_le_mono_r; lia). assert (0 < 2 ^ (n - 1)) by (apply Z.pow_pos_nonneg; lia).
  unfold in_s in Hv. change (2 ^ (64 - 1)) with (2 ^ 63) in Hv. unfold type_min, type_max. split; [lia|].
  unfold checkSignedBitfieldOverflow. rewrite Z.shiftl_1_l. zb_false (n =? 64). cbv zeta.
  assert (s64 (u64 (2 ^ (n - 1) - 1) - u64 value) < 0) as Hs by (unfold swrap, wrap; dlia). cbn [negb andb].
  zb_true (0 >? s64 (u64 (2 ^ (n - 1) - 1) - u64 value)). by rewrite orb_true_r.
Qed.

Lemma bitfield_set_saturates_wrong_witness :
  -9223372036854775808 < type_min true 8 /\ checkSignedBitfieldOverflow (-9223372036854775808) 0 8 BFOVERFLOW_SAT 0 = (1, 127).
Proof. apply (bitfield_set_saturates_wrong 8 (-9223372036854775808) 0); [lia|unfold in_s; lia|lia]. Defined.

(** An offset in fields is multiplied without a check: a product that wraps to a
    small number is taken as that offset. *)
Lemma fields_offset_wraps obey max i n o st : 0 < max <= 2 ^ 40 -> in_s 64 i -> 1 <= n <= 64 -> 0 <= o < 8 * max -> u64 (i * n) = o ->
  getBitOffsetFromArgument obey max (offset_arg (Fields i)) true n st = Some (st, inr o).
Proof.
  intros Hmax Hi Hn Ho E. unfold getBitOffsetFromArgument. cbn [offset_arg head]. rewrite bool_decide_eq_true_2 by done. zb_true (n >? 0). cbn [andb drop].
  rewrite drop_0, string2ll_complete by done. go. rewrite <- (swrap_wrap 64), E, (swrap_id 64 o) by (unfold in_s; lia).
  rewrite Z.shiftr_div_pow2 by lia. change (2 ^ 3) with 8. assert ((o <? 0) || (negb obey && (o / 8 >=? max)) = false) as -> by dlia.
  go. by rewrite wrap_id by (unfold in_u; lia).
Qed.
