(* ===== verification/TSet.v ===== *)
(** * The set type ([t_set.c])

    A set object is an integer set, a listpack or a hash table without values,
    and is converted from the compact encodings to the next one when an element
    does not fit or the set becomes too large.  The operations take a string,
    or an integer when the caller has one; whether a string is an sds already
    only decides whether it is copied.  The limits of the configuration, the
    allocator, the content of fresh memory, the hash of a string, the addresses
    of the tables and the permission to resize are the class [SetEnv].  [None]
    is a failed assertion, an access outside a block, or a string of 2^31 bytes
    or more in a hash table, whose comparison function keeps lengths in an
    [int].  The random selections and the commands are not modelled. *)

From Stdlib Require Import ZArith Lia ZifyBool.
From stdpp Require Import base gmap numbers option list.
From S2P Require Import Prelude Intset Dict DictIter Numstr Listpack.

Local Open Scope Z_scope.

Class SetEnv := {
  set_max_intset_entries : Z;
  set_max_listpack_entries : Z;
  set_max_listpack_value : Z;
  undef : nat -> Z;
  alloc : Z -> Z;
  siphash : list Z -> Z;
  can_resize : dictResizeEnable;
  table_addr : Z * Z;
  iter_junk : Z
}.

Notation C_OK := 0%Z (only parsing).
Notation C_ERR := (-1)%Z (only parsing).
Notation HASHTABLE_MIN_FILL := 10%Z (only parsing).

(** ** Strings as keys *)

#[export] Instance byteZ_dec b : Decision (byteZ b).
Proof. unfold byteZ. apply _. Defined.

Definition sds_ok (s : list Z) : Prop := Forall byteZ s /\ Z.of_nat (length s) < 2 ^ 31.
#[export] Instance sds_ok_dec s : Decision (sds_ok s).
Proof. unfold sds_ok. apply _. Defined.

Definition sds : Type := dsig sds_ok.

Definition sdsnewlen (s : list Z) : option sds :=
  match decide (sds_ok s) with left H => Some (dexist s H) | right _ => None end.

Section TSet.
Context `{SetEnv}.

Definition dictSdsHash (key : sds) : Z := u64 (siphash (`key)).

Definition dictSdsKeyCompare (key1 key2 : sds) : bool :=
  let l1 := s32 (Z.of_nat (length (`key1))) in
  let l2 := s32 (Z.of_nat (length (`key2))) in
  if negb (l1 =? l2) then false
  else bool_decide (take (Z.to_nat l1) (`key1) = take (Z.to_nat l1) (`key2)).

Definition setDictType : dictType sds unit := {|
  hashFunction := dictSdsHash; keyDup := None; valDup := None; keyCompare := Some dictSdsKeyCompare;
  keyDestructor := true; valDestructor := false; expandAllowed := None;
  no_value := true; keys_are_odd := true; dictEntryMetadataBytes := 0; key_odd _ := true |}.

Definition htNeedsResize (d : dict sds unit) : bool :=
  let size := dictSlots d in
  let used := dictSize d in
  (size >? DICT_HT_INITIAL_SIZE) && (used * 100 / size <? HASHTABLE_MIN_FILL).

(** ** Objects *)

Inductive obj_encoding := OBJ_ENCODING_HT | OBJ_ENCODING_INTSET | OBJ_ENCODING_LISTPACK.
#[export] Instance obj_encoding_eq : EqDecision obj_encoding.
Proof. solve_decision. Defined.

Inductive setobj := SetHT (ht : dict sds unit) | SetIntset (s : intset) | SetListpack (lp : list Z).

Definition obj_enc (set : setobj) : obj_encoding :=
  match set with
  | SetHT _ => OBJ_ENCODING_HT
  | SetIntset _ => OBJ_ENCODING_INTSET
  | SetListpack _ => OBJ_ENCODING_LISTPACK
  end.

Definition createSetObject : setobj := SetHT dictCreate.
Definition createIntsetObject : setobj := SetIntset intsetNew.
Definition createSetListpackObject : option setobj := lp ← lpNew undef alloc 0; Some (SetListpack lp).

Definition setTypeCreate (value : list Z) (size_hint : Z) : option setobj :=
  if (match string2ll value with Some _ => true | None => false end) && (size_hint <=? set_max_intset_entries)
  then Some createIntsetObject
  else if size_hint <=? set_max_listpack_entries then createSetListpackObject
  else match createSetObject with
       | SetHT d => Some (SetHT (dictExpand d size_hint).1)
       | o => Some o
       end.

(** The count of a listpack may be computed and stored. *)
Definition setTypeSize (set : setobj) : option (setobj * Z) :=
  match set with
  | SetHT d => Some (set, dictSize d)
  | SetIntset s => Some (set, intsetLen s)
  | SetListpack lp => '(lp, n) ← lpLength lp; Some (SetListpack lp, n)
  end.

(** ** Iteration *)

Inductive setTypeIterator :=
| IterHT (di : dictIterator sds unit)
| IterIntset (ii : Z)
| IterListpack (lpi : option Z).

(** An element as it is stored. *)
Inductive elem := ElStr (s : list Z) | ElInt (v : Z).

Definition setTypeInitIterator (set : setobj) : setTypeIterator :=
  match set with
  | SetHT _ => IterHT (dictInitIterator iter_junk)
  | SetIntset _ => IterIntset 0
  | SetListpack _ => IterListpack None
  end.

Definition setTypeReleaseIterator (set : setobj) (si : setTypeIterator) : option setobj :=
  match set, si with
  | SetHT d, IterHT di => d ← dictResetIterator table_addr d di; Some (SetHT d)
  | _, IterHT _ => None
  | _, _ => Some set
  end.

(** What [lpGetValue] points to. *)
Definition lp_elem (lp : list Z) (p : Z) : option elem :=
  r ← lpGetValue lp p;
  match r with
  | RPtr q n => s ← slice lp q n; Some (ElStr s)
  | RInt v => Some (ElInt v)
  | RBuf _ _ => None
  end.

Definition lp_step (lp : list Z) (lpi : option Z) : option (option Z) :=
  match lpi with None => lpFirst lp | Some p => lpNext lp p end.

(** The inner [None] is the end. *)
Definition setTypeNext (set : setobj) (si : setTypeIterator) : option (setobj * setTypeIterator * option elem) :=
  match set, si with
  | SetHT d, IterHT di =>
      '(d, di, de) ← dictNext table_addr d di;
      Some (SetHT d, IterHT di, (fun k : sds => ElStr (`k)) <$> dictGetKey de)
  | SetIntset s, IterIntset ii =>
      r ← intsetGet s (u32 ii);
      let v : option Z := snd r in
      Some (set, IterIntset (s32 (ii + 1)), ElInt <$> v)
  | SetListpack lp, IterListpack lpi =>
      next ← lp_step lp lpi;
      match next with
      | None => Some (set, si, None)
      | Some p => e ← lp_elem lp p; Some (set, IterListpack next, Some e)
      end
  | _, _ => None
  end.

(** A local array of [LONG_STR_SIZE] characters, and the string of an integer in it. *)
Definition tmpbuf : list Z := undef <$> seq 0 21.
Definition int_string (v : Z) : option (list Z) :=
  '(buf, len) ← ll2string tmpbuf 0 21 v; Some (take (Z.to_nat len) buf).

Definition sdsfromlonglong (v : Z) : option sds := s ← int_string v; sdsnewlen s.

Definition setTypeNextObject (set : setobj) (si : setTypeIterator) : option (setobj * setTypeIterator * option sds) :=
  '(set, si, e) ← setTypeNext set si;
  match e with
  | None => Some (set, si, None)
  | Some (ElStr s) => x ← sdsnewlen s; Some (set, si, Some x)
  | Some (ElInt v) => x ← sdsfromlonglong v; Some (set, si, Some x)
  end.

(** More rounds than there are elements. *)
Definition iter_fuel (set : setobj) : nat :=
  match set with
  | SetHT d => S (Z.to_nat (dictSize d))
  | SetIntset s => S (Z.to_nat (ilength s))
  | SetListpack lp => S (length lp)
  end.

(** ** Conversion *)

Definition dict_add (d : dict sds unit) (x : sds) : option (dict sds unit) :=
  '(d, r) ← dictAdd setDictType can_resize d x tt;
  if r =? DICT_OK then Some d else None.

Fixpoint convert_to_ht (fuel : nat) (set : setobj) (si : setTypeIterator) (d : dict sds unit) : option (dict sds unit) :=
  match fuel with
  | O => None
  | S fuel =>
      '(set, si, element) ← setTypeNextObject set si;
      match element with
      | Some x => d ← dict_add d x; convert_to_ht fuel set si d
      | None => _ ← setTypeReleaseIterator set si; Some d
      end
  end.

(** A listpack that could not grow is NULL. *)
Definition not_null {A} (r : option (option A)) : option A := a ← r; a.

Definition lp_append (lp : list Z) (e : elem) : option (list Z) :=
  not_null match e with
           | ElStr s => lpAppend undef alloc lp s
           | ElInt v => lpAppendInteger undef alloc lp v
           end.

Fixpoint convert_to_lp (fuel : nat) (set : setobj) (si : setTypeIterator) (lp : list Z) : option (list Z) :=
  match fuel with
  | O => None
  | S fuel =>
      '(set, si, e) ← setTypeNext set si;
      match e with
      | Some e => lp ← lp_append lp e; convert_to_lp fuel set si lp
      | None => _ ← setTypeReleaseIterator set si; Some lp
      end
  end.

(** The bytes to reserve for [cap] elements. *)
Definition lp_estimate (set : setobj) (cap : Z) : option Z :=
  match set with
  | SetIntset s =>
      if intsetLen s >? 0 then
        mn ← intsetMin s; mx ← intsetMax s;
        Some (Z.max (lpEstimateBytesRepeatedInteger mn cap) (lpEstimateBytesRepeatedInteger mx cap))
      else Some (u64 (cap * 2))
  | _ => Some (u64 (cap * 2))
  end.

(** [try]: [None] when [panic] is set; otherwise whether the allocation of the
    table succeeds. *)
Definition setTypeConvertAndExpand (set : setobj) (enc : obj_encoding) (cap : Z) (try : option bool) :
    option (setobj * Z) :=
  if bool_decide (obj_enc set = enc) then None else
  match enc with
  | OBJ_ENCODING_HT =>
      let '(d, r) := match try with
                     | None => ((dictExpand dictCreate cap).1, DICT_OK)
                     | Some calloc_ok => dictTryExpand dictCreate cap calloc_ok
                     end in
      if negb (r =? DICT_OK) then Some (set, C_ERR) else
      d ← convert_to_ht (iter_fuel set) set (setTypeInitIterator set) d;
      Some (SetHT d, C_OK)
  | OBJ_ENCODING_LISTPACK =>
      estcap ← lp_estimate set cap;
      lp ← lpNew undef alloc estcap;
      lp ← convert_to_lp (iter_fuel set) set (setTypeInitIterator set) lp;
      Some (SetListpack lp, C_OK)
  | OBJ_ENCODING_INTSET => None
  end.

(** The object, when the call cannot fail. *)
Definition convert (set : setobj) (enc : obj_encoding) (cap : Z) : option setobj :=
  '(set, _) ← setTypeConvertAndExpand set enc cap None; Some set.

Definition setTypeConvert (set : setobj) (enc : obj_encoding) : option setobj :=
  '(set, n) ← setTypeSize set; convert set enc n.

Definition setTypeMaybeConvert (set : setobj) (size_hint : Z) : option setobj :=
  if bool_decide (obj_enc set = OBJ_ENCODING_LISTPACK) && (size_hint >? set_max_listpack_entries)
     || bool_decide (obj_enc set = OBJ_ENCODING_INTSET) && (size_hint >? set_max_intset_entries)
  then convert set OBJ_ENCODING_HT size_hint else Some set.

Definition intsetMaxEntries : Z :=
  if set_max_intset_entries >=? Z.shiftl 1 30 then Z.shiftl 1 30 else set_max_intset_entries.

Definition maybeConvertIntset (set : setobj) : option setobj :=
  match set with
  | SetIntset s => if intsetLen s >? intsetMaxEntries then setTypeConvert set OBJ_ENCODING_HT else Some set
  | _ => None
  end.

Definition elem_int (e : elem) : option Z := match e with ElStr str => string2ll str | ElInt v => Some v end.

Fixpoint convert_to_intset (fuel : nat) (set : setobj) (si : setTypeIterator) (s : intset) : option intset :=
  match fuel with
  | O => None
  | S fuel =>
      '(set, si, e) ← setTypeNext set si;
      match e with
      | Some e =>
          v ← elem_int e;
          '(s, success) ← intsetAdd undef s v;
          if success =? 1 then convert_to_intset fuel set si s else None
      | None => _ ← setTypeReleaseIterator set si; Some s
      end
  end.

Definition maybeConvertToIntset (set : setobj) : option setobj :=
  if bool_decide (obj_enc set = OBJ_ENCODING_INTSET) then Some set else
  '(set, n) ← setTypeSize set;
  if n >? intsetMaxEntries then Some set else
  s ← convert_to_intset (iter_fuel set) set (setTypeInitIterator set) intsetNew;
  Some (SetIntset s).

(** ** Adding *)

(** The string of an element that is given as an integer when [str] is NULL,
    and whether it was. *)
Definition as_string (str : option (list Z)) (llval : Z) : option (list Z * bool) :=
  match str with
  | Some s => Some (s, false)
  | None => s ← int_string llval; Some (s, true)
  end.

Definition add_intset (s : intset) (v : Z) : option (setobj * Z) :=
  '(s, success) ← intsetAdd undef s v;
  if success =? 1 then set ← maybeConvertIntset (SetIntset s); Some (set, 1) else Some (SetIntset s, 0).

Definition add_ht (ht : dict sds unit) (str : list Z) : option (setobj * Z) :=
  sdsval ← sdsnewlen str;
  '(ht, position, _) ← dictFindPositionForInsert setDictType can_resize ht sdsval;
  match position with
  | Some position => r ← dictInsertAtPosition setDictType ht sdsval position; Some (SetHT r.1, 1)
  | None => Some (SetHT ht, 0)
  end.

Definition lp_find (lp str : list Z) : option (option Z) :=
  p ← lpFirst lp;
  match p with Some p => lpFind lp p str 0 | None => Some None end.

(** Conversion to a hash table, and the element that did not fit. *)
Definition convert_and_add (set : setobj) (cap : Z) (str : list Z) : option (setobj * Z) :=
  set ← convert set OBJ_ENCODING_HT cap;
  match set with
  | SetHT d => x ← sdsnewlen str; d ← dict_add d x; Some (SetHT d, 1)
  | _ => None
  end.

Definition add_listpack (lp str : list Z) (is_int : bool) (llval : Z) : option (setobj * Z) :=
  p ← lp_find lp str;
  match p with
  | Some _ => Some (SetListpack lp, 0)
  | None =>
      '(lp, n) ← lpLength lp;
      let len := Z.of_nat (length str) in
      fits ← (if (n <? set_max_listpack_entries) && (len <=? set_max_listpack_value)
              then lpSafeToAdd (Some lp) len else Some false);
      if fits : bool then
        lp ← lp_append lp (if is_int then ElInt llval else ElStr str);
        Some (SetListpack lp, 1)
      else
        '(lp, n) ← lpLength lp;
        convert_and_add (SetListpack lp) (n + 1) str
  end.

(** The longest element of an integer set, and the bytes of a listpack of them. *)
Definition intset_bounds (s : intset) (n : Z) : option (Z * Z) :=
  if negb (n =? 0) then
    mx ← intsetMax s; mn ← intsetMin s;
    Some (Z.max (sdigits10 mx) (sdigits10 mn),
          Z.max (lpEstimateBytesRepeatedInteger mx n) (lpEstimateBytesRepeatedInteger mn n))
  else Some (0, 0).

Definition add_string_to_intset (s : intset) (str : list Z) : option (setobj * Z) :=
  let len := Z.of_nat (length str) in
  let n := intsetLen s in
  '(maxelelen, totsize) ← intset_bounds s n;
  fits ← (if (intsetLen s <? set_max_listpack_entries) && (len <=? set_max_listpack_value) &&
             (maxelelen <=? set_max_listpack_value)
          then lpSafeToAdd None (u64 (totsize + len)) else Some false);
  if fits : bool then
    set ← convert (SetIntset s) OBJ_ENCODING_LISTPACK (n + 1);
    match set with
    | SetListpack lp =>
        lp ← not_null (lpAppend undef alloc lp str);
        lp ← lpShrinkToFit undef alloc lp;
        Some (SetListpack lp, 1)
    | _ => None
    end
  else convert_and_add (SetIntset s) (n + 1) str.

Definition setTypeAddAux (set : setobj) (str : option (list Z)) (llval : Z) : option (setobj * Z) :=
  match str, set with
  | None, SetIntset s => add_intset s llval
  | _, _ =>
      '(str, is_int) ← as_string str llval;
      match set with
      | SetHT ht => add_ht ht str
      | SetListpack lp => add_listpack lp str is_int llval
      | SetIntset s =>
          match string2ll str with
          | Some value => add_intset s value
          | None => add_string_to_intset s str
          end
      end
  end.

Definition setTypeAdd (set : setobj) (value : list Z) : option (setobj * Z) := setTypeAddAux set (Some value) 0.

(** ** Removing and testing *)

Definition remove_intset (s : intset) (v : Z) : option (setobj * Z) :=
  '(s, success) ← intsetRemove undef s v; Some (SetIntset s, success).

Definition remove_ht (ht : dict sds unit) (str : list Z) : option (setobj * Z) :=
  sdsval ← sdsnewlen str;
  '(ht, r) ← dictDelete setDictType can_resize ht sdsval;
  if r =? DICT_OK
  then Some (SetHT (if htNeedsResize ht then (dictResize can_resize ht).1 else ht), 1)
  else Some (SetHT ht, 0).

Definition remove_listpack (lp str : list Z) : option (setobj * Z) :=
  p ← lp_find lp str;
  match p with
  | Some p => r ← not_null (lpDelete undef alloc lp p); Some (SetListpack r.1, 1)
  | None => Some (SetListpack lp, 0)
  end.

Definition setTypeRemoveAux (set : setobj) (str : option (list Z)) (llval : Z) : option (setobj * Z) :=
  match str, set with
  | None, SetIntset s => remove_intset s llval
  | _, _ =>
      '(str, _) ← as_string str llval;
      match set with
      | SetHT ht => remove_ht ht str
      | SetListpack lp => remove_listpack lp str
      | SetIntset s =>
          match string2ll str with
          | Some v => remove_intset s v
          | None => Some (set, 0)
          end
      end
  end.

Definition setTypeRemove (set : setobj) (value : list Z) : option (setobj * Z) := setTypeRemoveAux set (Some value) 0.

(** A hash table may do a step of its rehashing. *)
Definition setTypeIsMemberAux (set : setobj) (str : option (list Z)) (llval : Z) : option (setobj * Z) :=
  match str, set with
  | None, SetIntset s => r ← intsetFind s llval; Some (set, r)
  | _, _ =>
      '(str, _) ← as_string str llval;
      match set with
      | SetHT ht =>
          sdsval ← sdsnewlen str;
          '(ht, r) ← dictFind setDictType can_resize ht sdsval;
          Some (SetHT ht, match r with Some _ => 1 | None => 0 end)
      | SetListpack lp => p ← lp_find lp str; Some (set, match p with Some _ => 1 | None => 0 end)
      | SetIntset s =>
          match string2ll str with
          | Some v => r ← intsetFind s v; Some (set, r)
          | None => Some (set, 0)
          end
      end
  end.

Definition setTypeIsMember (set : setobj) (value : list Z) : option (setobj * Z) := setTypeIsMemberAux set (Some value) 0.

(** ** Copying *)

Fixpoint dup_ht (fuel : nat) (o : setobj) (si : setTypeIterator) (set : setobj) : option (setobj * setobj) :=
  match fuel with
  | O => None
  | S fuel =>
      '(o, si, e) ← setTypeNext o si;
      match e with
      | Some (ElStr str) => r ← setTypeAdd set str; dup_ht fuel o si r.1
      | Some (ElInt _) => None
      | None => o ← setTypeReleaseIterator o si; Some (o, set)
      end
  end.

(** The object and its copy. *)
Definition setTypeDup (o : setobj) : option (setobj * setobj) :=
  match o with
  | SetIntset s =>
      c ← slice (contents s) 0 (intsetBlobLen s - sizeof_intset);
      Some (o, SetIntset (mk_intset (encoding s) (ilength s) c))
  | SetListpack lp => sz ← lpBytes lp; new_lp ← slice lp 0 sz; Some (o, SetListpack new_lp)
  | SetHT d => dup_ht (iter_fuel o) o (setTypeInitIterator o) (SetHT (dictExpand dictCreate (dictSize d)).1)
  end.
End TSet.
