(* ===== verification/TSetProof.v ===== *)
(** * The set type implements sets of strings

    [set_rep o S]: the object [o] stands for the set [S] of strings and keeps
    the limits of its encoding.  Every operation acts on [S] as on a finite
    set, through all the conversions between the encodings. *)

From Stdlib Require Import ZArith Lia ZifyBool.
From stdpp Require Import base gmap numbers option list.
From S2P Require Import Prelude Intset Dict DictProof DictMap DictIter Numstr Listpack ListpackCodec ListpackProof ListpackRange ListpackSpec TSet.

Local Open Scope Z_scope.

#[local] Opaque dictFingerprint.

(** What the configuration and the allocator promise.  An integer set of more
    than 2^29 elements is not handled correctly by [intset.c]. *)
Class SetEnvOk `{SetEnv} : Prop := {
  alloc_ok n : 0 <= n -> n <= alloc n;
  intset_limit : 0 <= set_max_intset_entries < 2 ^ 29
}.

(** ** Strings *)

Lemma sdsnewlen_ok s : sds_ok s -> exists x, sdsnewlen s = Some x /\ `x = s.
Proof. intros Hs. unfold sdsnewlen. destruct (decide (sds_ok s)) as [H|H]; [|done]. by exists (dexist s H). Qed.

Lemma sds_proj_ok (x : sds) : sds_ok (`x).
Proof. apply (proj2_dsig x). Qed.

Lemma dec_byteZ v : in_s 64 v -> Forall byteZ (dec v).
Proof.
  intros Hv. unfold in_s in Hv. change (64 - 1) with 63 in Hv.
  assert (forall u, 0 <= u < 10 ^ 20 -> Forall byteZ (udec u)) as Hu.
  { intros u Hu. destruct (udec_props u Hu) as (_ & Hd & _). eapply Forall_impl; [exact Hd|]. intros c Hc. cbv beta in Hc. unfold byteZ. lia. }
  unfold dec. case_zb; [constructor; [unfold byteZ; lia|]|]; apply Hu; lia.
Qed.

Lemma dec_sds_ok v : in_s 64 v -> sds_ok (dec v).
Proof. intros Hv. split; [by apply dec_byteZ|]. pose proof (dec_length v Hv). lia. Qed.

Lemma dec_inj v w : in_s 64 v -> in_s 64 w -> dec v = dec w -> v = w.
Proof. intros Hv Hw E. apply string2ll_complete in Hv, Hw. rewrite E in Hv. congruence. Qed.

Section Proof.
Context {env : SetEnv} {env_ok : SetEnvOk}.

Lemma int_string_spec v : in_s 64 v -> int_string v = Some (dec v).
Proof.
  intros Hv. unfold int_string. pose proof (ll2string_spec tmpbuf 21 v Hv) as Hl.
  assert (length tmpbuf = 21%nat) as Ht by (unfold tmpbuf; by rewrite length_fmap, length_seq).
  rewrite Ht in Hl. specialize (Hl ltac:(lia)). pose proof (dec_length v Hv).
  destruct (Z.ltb_spec (Z.of_nat (length (dec v))) 21); [|lia]. rewrite Hl. cbn [mbind option_bind].
  by rewrite Nat2Z.id, take_app_length.
Qed.

(** ** Keys *)

Definition canon (x : sds) : list Z := `x.

#[export] Instance setDictType_ok : DictTypeOk setDictType canon.
Proof.
  constructor; try done.
  - intros k1 k2. unfold key_match, dictCompareKeys, canon. cbn [keyCompare setDictType]. unfold dictSdsKeyCompare.
    destruct (sds_proj_ok k1) as [_ H1]. destruct (sds_proj_ok k2) as [_ H2].
    rewrite !swrap_id by (unfold in_s; lia). rewrite Nat2Z.id. split.
    + intros [E%bool_decide_eq_true| E]%orb_true_iff; [by subst|]. revert E. case_zb; [|done]. cbn [negb].
      intros E%bool_decide_eq_true. assert (length (`k1) = length (`k2)) as El by lia.
      by rewrite firstn_all, El, firstn_all in E.
    + intros E. apply (dsig_eq sds_ok) in E. subst. by rewrite bool_decide_true.
  - intros k1 k2 E. cbn [hashFunction setDictType]. unfold dictSdsHash. unfold canon in E. by rewrite E.
  - intros k. cbn [hashFunction setDictType]. by apply wrap_range.
Qed.

Notation wf := (DictProof.wf setDictType canon).

(** The members of a hash table. *)
Definition ht_set (d : dict sds unit) : gset (list Z) := dom (amap canon d).

Lemma ht_size d : wf d -> dictSize d = Z.of_nat (size (ht_set d)).
Proof. intros HW. rewrite (dictSize_amap setDictType canon) by done. unfold ht_set. by rewrite size_dom. Qed.

Lemma dict_add_spec d (x : sds) : wf d -> dictSize d < 2 ^ 59 -> `x ∉ ht_set d ->
  exists d', dict_add d x = Some d' /\ wf d' /\ ht_set d' = {[`x]} ∪ ht_set d.
Proof.
  intros HW Hs Hx. unfold dict_add.
  destruct (dictAdd_spec setDictType canon can_resize d x tt HW Hs) as (d' & r & E & HW' & _ & Hr).
  unfold ht_set in *. apply not_elem_of_dom in Hx. change (canon x) with (`x) in Hr. rewrite Hx in Hr. destruct Hr as [-> Ha].
  rewrite E. cbn. exists d'. split; [done|]. split; [done|]. rewrite Ha. by rewrite dom_insert_L.
Qed.

(** ** Iteration *)

Definition elem_str (e : elem) : list Z := match e with ElStr s => s | ElInt v => dec v end.
Definition elem_ok (e : elem) : Prop := match e with ElStr s => sds_ok s | ElInt v => in_s 64 v end.

Lemma elem_str_ok e : elem_ok e -> sds_ok (elem_str e).
Proof. destruct e; [done|apply dec_sds_ok]. Qed.

(** The iterator returns exactly these elements and leaves the object alone. *)
Fixpoint yields (o : setobj) (si : setTypeIterator) (l : list elem) : Prop :=
  match l with
  | [] => exists si', setTypeNext o si = Some (o, si', None) /\ setTypeReleaseIterator o si' = Some o
  | e :: l => exists si', setTypeNext o si = Some (o, si', Some e) /\ yields o si' l
  end.

Lemma yields_intset s xs : repr s xs -> forall r l, xs = l ++ r ->
  yields (SetIntset s) (IterIntset (Z.of_nat (length l))) (ElInt <$> r).
Proof.
  intros HR. pose proof (repr_small _ _ HR) as Hsm. induction r as [|x r IH]; intros l E;
    pose proof (f_equal length E) as Hlen; rewrite length_app in Hlen; simpl in Hlen;
    assert (u32 (Z.of_nat (length l)) = Z.of_nat (length l)) as Hu by (apply wrap_id; unfold in_u; lia).
  - simpl. exists (IterIntset (s32 (Z.of_nat (length l) + 1))). split; [|done]. rewrite Hu.
    unfold intsetGet. rewrite (repr_len _ _ HR). by zb.
  - assert (s32 (Z.of_nat (length l) + 1) = Z.of_nat (length l) + 1) as Hs by (apply swrap_id; unfold in_s; lia).
    simpl. exists (IterIntset (Z.of_nat (length l) + 1)). rewrite Hu, Hs. unfold intsetGet. rewrite (repr_len _ _ HR). zb.
    rewrite swrap_id by (unfold in_s; lia). rewrite (get_lookup s xs HR (length l) x).
    + split; [done|]. specialize (IH (l ++ [x])). rewrite length_app in IH. simpl in IH.
      replace (Z.of_nat (length l + 1)) with (Z.of_nat (length l) + 1) in IH by lia. apply IH. by rewrite <- app_assoc.
    + rewrite E. by rewrite lookup_app_r, Nat.sub_diag by lia.
Qed.

Definition lp_elt (e : list Z) : elem := match elt_val e with ValInt z => ElInt z | ValStr s => ElStr s end.

Lemma lp_elt_str e : elem_str (lp_elt e) = elt_str e.
Proof. unfold lp_elt, elt_str. by destruct (elt_val e). Qed.

Lemma enc_str_length e s : enc e (ValStr s) -> (length s <= length e)%nat.
Proof. intros He. inversion He; subst; simpl; rewrite ?length_app; lia. Qed.

Lemma enc_val_ok e v : enc e v -> match v with ValInt z => in_s 64 z | ValStr s => Forall byteZ s /\ Z.of_nat (length s) < 2 ^ 32 end.
Proof.
  intros He. pose proof (enc_bytes e v He) as Hb. pose proof (enc_length e v He) as Hl. destruct v as [z|s].
  - pose proof (getWithSize_enc [] e [] (ValInt z) None 0 He) as [Hz _]. done.
  - split; [|pose proof (enc_str_length e s He); lia]. inversion He; subst; by repeat (apply Forall_cons in Hb as [_ Hb]); try done.
Qed.

Lemma lp_elem_spec b l e r : lp_rep b (l ++ e :: r) -> lp_elem b (pos l) = Some (lp_elt e).
Proof.
  intros HR. unfold lp_elem, lpGetValue, lpGet, lp_elt. pose proof (rep_getWithSize b l e r None 0 HR) as Hg.
  pose proof (enc_val_ok _ _ (is_enc_val e (rep_is_enc b l e r HR))) as Hv.
  destruct (elt_val e) as [z|s]; unfold get_ok in Hg.
  - destruct Hg as [_ ->]. done.
  - destruct Hg as (ptr & -> & Hs). cbn [mbind option_bind]. rewrite wrap_id by (unfold in_u; lia). by rewrite Hs.
Qed.

Lemma yields_lp b : forall r l, lp_rep b (l ++ r) ->
  yields (SetListpack b) (IterListpack (prev_ptr l)) (lp_elt <$> r).
Proof.
  induction r as [|e r IH]; intros l HR.
  - simpl. exists (IterListpack (prev_ptr l)). split; [|done].
    destruct l as [|x l] using rev_ind.
    + simpl. by rewrite (lpFirst_spec b [] HR).
    + rewrite prev_ptr_snoc. rewrite <- app_assoc in HR. simpl. by rewrite (lpNext_spec b l x [] HR).
  - assert (setTypeNext (SetListpack b) (IterListpack (prev_ptr l)) =
      Some (SetListpack b, IterListpack (Some (pos l)), Some (lp_elt e))) as E.
    { assert (lp_step b (prev_ptr l) = Some (Some (pos l))) as Es.
      { destruct l as [|x l] using rev_ind.
        - simpl. by rewrite (lpFirst_spec b (e :: r) HR).
        - rewrite prev_ptr_snoc. rewrite <- app_assoc in HR. simpl. by rewrite (lpNext_spec b l x (e :: r) HR). }
      cbn [setTypeNext]. rewrite Es. cbn [mbind option_bind]. by rewrite (lp_elem_spec b l e r HR). }
    simpl. exists (IterListpack (Some (pos l))). split; [exact E|]. rewrite <- (prev_ptr_snoc l e).
    apply IH. by rewrite <- app_assoc.
Qed.

Lemma yields_ht d : wf d -> forall r it, it_ok d it -> fresh_iter it = false -> it_safe it = false ->
  it_fingerprint it = dictFingerprint table_addr d -> remaining d it = r ->
  yields (SetHT d) (IterHT it) ((fun kv : sds * option unit => ElStr (`kv.1)) <$> r).
Proof.
  intros HW. induction r as [|[k v] r IH]; intros it Hok Hf Hs Hfp Hr.
  all: destruct (dictNext_spec setDictType canon table_addr d it HW Hok ltac:(done)) as (it' & e & E & Hok' & Hf' & Hs' & Hfp' & He).
  all: destruct (started_id table_addr d it Hf) as [Est Efp]; rewrite Est in E; rewrite Efp in Hfp'; rewrite Hr in He.
  - subst e. simpl. exists (IterHT it'). rewrite E. split; [done|]. simpl. unfold dictResetIterator. rewrite Hf', Hs', Hs, Hfp', Hfp. cbn [negb].
    by rewrite Z.eqb_refl.
  - destruct He as [Hkv Hrest]. simpl. exists (IterHT it'). rewrite E. cbn [mbind option_bind].
    assert (dictGetKey e = Some k) as -> by (destruct e; simpl in *; congruence).
    split; [done|]. apply IH; congruence || done.
Qed.

Notation key_elem := (fun kv : sds * option unit => ElStr (`kv.1)).

Lemma yields_ht_init d : wf d -> yields (SetHT d) (setTypeInitIterator (SetHT d)) (key_elem <$> entries d).
Proof.
  intros HW. cbn [setTypeInitIterator]. pose proof (remaining_init setDictType canon d false iter_junk HW) as Hr. cbv iota in Hr.
  assert (it_ok d (dictInitIterator iter_junk)) as Hok by (constructor; done).
  destruct (dictNext_spec setDictType canon table_addr d _ HW Hok ltac:(done)) as (it' & e & E & Hok' & Hf' & Hs' & Hfp' & He).
  assert (started d (dictInitIterator iter_junk) = d) as Est by reflexivity. rewrite Est in E.
  assert (started_fp table_addr d (dictInitIterator iter_junk) = dictFingerprint table_addr d) as Efp by reflexivity. rewrite Efp in Hfp'.
  cbn [it_safe dictInitIterator] in Hs'. rewrite Hr in He. destruct (entries d) as [|[k v] r].
  - subst e. cbn [yields fmap list_fmap]. exists (IterHT it'). cbn [setTypeNext]. rewrite E. split; [done|].
    cbn [setTypeReleaseIterator]. unfold dictResetIterator. rewrite Hf', Hs', Hfp'. cbn [negb].
    by rewrite Z.eqb_refl.
  - destruct He as [Hkv Hrest]. cbn [yields fmap list_fmap]. exists (IterHT it'). cbn [setTypeNext]. rewrite E. cbn [mbind option_bind].
    assert (dictGetKey e = Some k) as -> by (clear -Hkv; destruct e; simpl in *; congruence).
    split; [done|]. by apply yields_ht.
Qed.

(** ** The set an object stands for *)

Definition set_is (o : setobj) (S : gset (list Z)) : Prop :=
  match o with
  | SetHT d => wf d /\ S = ht_set d
  | SetIntset s => exists xs, repr s xs /\ S = list_to_set (dec <$> xs)
  | SetListpack b => exists es, lp_rep b es /\ NoDup (elt_str <$> es) /\ S = list_to_set (elt_str <$> es) /\
      Forall (fun e => sds_ok (elt_str e)) es
  end.

(** The limits of the encoding. *)
Definition in_limits (o : setobj) (S : gset (list Z)) : Prop :=
  match o with
  | SetHT _ => True
  | SetIntset _ => Z.of_nat (size S) <= intsetMaxEntries
  | SetListpack _ => Z.of_nat (size S) <= set_max_listpack_entries /\
      set_Forall (fun x => Z.of_nat (length x) <= set_max_listpack_value) S
  end.

Definition set_rep (o : setobj) (S : gset (list Z)) : Prop := set_is o S /\ in_limits o S.

Lemma repr_in_s64 s xs : repr s xs -> Forall (in_s 64) xs.
Proof.
  intros HR. eapply Forall_impl; [apply (repr_range _ _ HR)|]. intros x. unfold in_s.
  destruct (repr_enc _ _ HR) as [->|[->| ->]]; simpl; lia.
Qed.

Lemma NoDup_dec xs : NoDup xs -> Forall (in_s 64) xs -> NoDup (dec <$> xs).
Proof.
  induction 1 as [|x xs Hx Hn IH]; intros Hs; [constructor|]. apply Forall_cons in Hs as [Hx64 Hs].
  rewrite fmap_cons. constructor; [|by apply IH]. intros Hin. apply list_elem_of_fmap in Hin as (y & E & Hy).
  rewrite Forall_forall in Hs. apply dec_inj in E; [by subst|done|by apply Hs].
Qed.

Lemma intsetMax_limit : intsetMaxEntries = set_max_intset_entries.
Proof. unfold intsetMaxEntries. pose proof intset_limit. rewrite Z.geb_leb. change (Z.shiftl 1 30) with (2 ^ 30). by zb. Qed.

Lemma ht_set_keys d : ht_set d = list_to_set (elem_str <$> (key_elem <$> entries d)).
Proof.
  unfold ht_set, amap, tomap. rewrite dom_list_to_map_L. f_equal. by rewrite <- !list_fmap_compose.
Qed.

(** Iterating over an object gives every member once. *)
Lemma iter_rep o S : set_is o S ->
  exists l, yields o (setTypeInitIterator o) l /\ NoDup (elem_str <$> l) /\ S = list_to_set (elem_str <$> l) /\
    Forall elem_ok l /\ (length l < iter_fuel o)%nat.
Proof.
  destruct o as [d|s|b]; simpl.
  - intros [HW ->]. exists (key_elem <$> entries d). split; [by apply yields_ht_init|]. split; [|split; [apply ht_set_keys|split]].
    + rewrite <- list_fmap_compose. apply (wf_uniq _ _ _ HW).
    + apply Forall_fmap, Forall_forall. intros x _. apply sds_proj_ok.
    + rewrite length_fmap, (entries_length setDictType canon) by done. lia.
  - intros (xs & HR & ->). pose proof (repr_in_s64 s xs HR) as H64. exists (ElInt <$> xs). rewrite <- list_fmap_compose.
    split; [by apply (yields_intset s xs HR xs [])|]. split; [|split; [done|split]].
    + apply NoDup_dec; [by eapply repr_NoDup|done].
    + by apply Forall_fmap.
    + rewrite length_fmap, (repr_len _ _ HR). lia.
  - intros (es & HR & Hn & -> & Hok). exists (lp_elt <$> es). rewrite <- list_fmap_compose.
    assert ((elem_str ∘ lp_elt) <$> es = elt_str <$> es) as E by (apply list_fmap_ext; intros; apply lp_elt_str).
    rewrite E. split; [by apply (yields_lp b es [])|]. split; [done|]. split; [done|]. split.
    + apply Forall_fmap. apply Forall_forall. intros e He. pose proof (rep_enc _ _ HR) as Henc. rewrite Forall_forall in Henc, Hok.
      specialize (Hok e He). specialize (Henc e He). apply is_enc_val, enc_val_ok in Henc. unfold compose, lp_elt, elt_str in *.
      by destruct (elt_val e).
    + rewrite length_fmap. apply (rep_fuel b [] es HR).
Qed.

(** ** Conversion *)

Lemma next_object o si l : yields o si l -> Forall elem_ok l ->
  match l with
  | [] => exists si', setTypeNextObject o si = Some (o, si', None) /\ setTypeReleaseIterator o si' = Some o
  | e :: l => exists si' x, setTypeNextObject o si = Some (o, si', Some x) /\ `x = elem_str e /\ yields o si' l
  end.
Proof.
  unfold setTypeNextObject. destruct l as [|e l]; intros Hy Hok.
  - destruct Hy as (si' & -> & Hr). by exists si'.
  - destruct Hy as (si' & -> & Hy). apply Forall_cons in Hok as [He _]. cbn [mbind option_bind]. destruct e as [s|v].
    + destruct (sdsnewlen_ok s He) as (x & -> & Ex). by exists si', x.
    + unfold sdsfromlonglong. rewrite (int_string_spec v He). destruct (sdsnewlen_ok _ (dec_sds_ok v He)) as (x & Ex & Ev).
      cbn [mbind option_bind]. rewrite Ex. by exists si', x.
Qed.

Lemma convert_to_ht_spec o l : forall fuel si d, yields o si l -> Forall elem_ok l -> NoDup (elem_str <$> l) ->
  (forall e, e ∈ l -> elem_str e ∉ ht_set d) -> wf d -> dictSize d + Z.of_nat (length l) < 2 ^ 59 -> (length l < fuel)%nat ->
  exists d', convert_to_ht fuel o si d = Some d' /\ wf d' /\ ht_set d' = ht_set d ∪ list_to_set (elem_str <$> l).
Proof.
  induction l as [|e l IH]; intros [|fuel] si d Hy Hok Hn Hd HW Hs Hf; try (simpl in Hf; lia);
    pose proof (next_object _ _ _ Hy Hok) as Hnext; cbn [convert_to_ht].
  - destruct Hnext as (si' & -> & Hr). cbn [mbind option_bind]. rewrite Hr. exists d. split; [done|]. split; [done|]. set_solver.
  - destruct Hnext as (si' & x & -> & Ex & Hy'). cbn [mbind option_bind].
    rewrite fmap_cons in Hn. apply NoDup_cons in Hn as [He Hn]. apply Forall_cons in Hok as [_ Hok].
    destruct (dict_add_spec d x HW) as (d1 & -> & HW1 & Hd1); [simpl in Hs; lia|rewrite Ex; apply Hd; set_solver|].
    cbn [mbind option_bind]. rewrite Ex in Hd1.
    destruct (IH fuel si' d1) as (d' & E & HW' & Hd'); try done.
    + intros e' He'. rewrite Hd1. intros [E%elem_of_singleton|Hin]%elem_of_union; [|apply (Hd e'); set_solver].
      apply He. rewrite <- E. apply list_elem_of_fmap. by exists e'.
    + rewrite ht_size in * by done. rewrite Hd1. rewrite size_union by (specialize (Hd e); set_solver). rewrite size_singleton. simpl in Hs. lia.
    + simpl in Hf. lia.
    + exists d'. split; [done|]. split; [done|]. rewrite Hd', Hd1. set_solver.
Qed.

Lemma expand_empty n : in_u 64 n -> wf (dictExpand dictCreate n).1 /\ ht_set (dictExpand dictCreate n).1 = ∅ /\
  dictSize (K := sds) (V := unit) (dictExpand dictCreate n).1 = 0.
Proof.
  intros Hn. destruct (dictExpand_spec setDictType canon dictCreate n (dictCreate_wf setDictType canon) Hn) as [HW Hs].
  assert (ht_set (dictExpand (K := sds) (V := unit) dictCreate n).1 = ∅) as He.
  { unfold ht_set. rewrite (amap_same setDictType canon dictCreate) by (done || apply dictCreate_wf). by rewrite dictCreate_empty. }
  split; [done|]. split; [done|]. rewrite ht_size by done. by rewrite He.
Qed.

Lemma convert_ht o S cap : set_is o S -> obj_enc o <> OBJ_ENCODING_HT -> in_u 64 cap -> Z.of_nat (size S) < 2 ^ 59 ->
  exists d, convert o OBJ_ENCODING_HT cap = Some (SetHT d) /\ wf d /\ ht_set d = S.
Proof.
  intros HR Henc Hcap Hs. unfold convert, setTypeConvertAndExpand. rewrite bool_decide_false by done.
  destruct (iter_rep o S HR) as (l & Hy & Hn & -> & Hok & Hf). destruct (expand_empty cap Hcap) as (HW & He & H0).
  destruct (convert_to_ht_spec o l (iter_fuel o) _ (dictExpand dictCreate cap).1 Hy Hok Hn) as (d & -> & HW' & Hd); try done.
  - intros e _. rewrite He. set_solver.
  - rewrite H0. rewrite size_list_to_set in Hs by done. rewrite length_fmap in Hs. lia.
  - exists d. split; [done|]. split; [done|]. rewrite Hd, He. set_solver.
Qed.

(** The encoding of an element in a listpack. *)
Definition body (e : elem) : list Z := match e with ElStr s => str_enc s | ElInt v => lpEncodeIntegerGetType v end.

Lemma total_app_le es es' : lp_total es <= lp_total (es ++ es').
Proof. unfold lp_total. rewrite pos_app. lia. Qed.

Lemma body_length es e : lp_total (es ++ [body e]) <= UINT32_MAX -> Z.of_nat (length (body e)) < 2 ^ 32.
Proof.
  unfold lp_total, UINT32_MAX. rewrite pos_snoc. unfold entry_size. pose proof (pos_ge es).
  pose proof (backlen_size_range (Z.of_nat (length (body e)))). lia.
Qed.

Lemma body_str es e : elem_ok e -> lp_total (es ++ [body e]) <= UINT32_MAX -> elt_str (body e) = elem_str e.
Proof.
  intros He Ht. pose proof (body_length es e Ht). destruct e as [s|v]; simpl in *.
  - destruct He. by apply elt_str_str_enc.
  - by apply elt_str_int.
Qed.

Lemma lp_append_spec b es e : lp_rep b es -> elem_ok e -> lp_total (es ++ [body e]) <= UINT32_MAX ->
  exists b', lp_append b e = Some b' /\ lp_rep b' (es ++ [body e]).
Proof.
  intros HR He Ht. assert (modifies_lp (match e with ElStr s => lpAppend undef alloc b s | ElInt v => lpAppendInteger undef alloc b v end)
    (es ++ [body e])) as Hm.
  { destruct e as [s|v]; simpl.
    - apply lpAppend_spec; [apply alloc_ok|done|]. destruct He. split; [done|]. unfold in_u. lia.
    - apply lpAppendInteger_spec; [apply alloc_ok|done|done]. }
  unfold modifies_lp in Hm. destruct (Z.ltb_spec UINT32_MAX (lp_total (es ++ [body e]))); [lia|].
  destruct Hm as (b' & E & HR'). exists b'. unfold lp_append. by rewrite E.
Qed.

Lemma convert_to_lp_spec o l : forall fuel si b es, yields o si l -> Forall elem_ok l -> lp_rep b es ->
  lp_total (es ++ (body <$> l)) <= UINT32_MAX -> (length l < fuel)%nat ->
  exists b', convert_to_lp fuel o si b = Some b' /\ lp_rep b' (es ++ (body <$> l)).
Proof.
  induction l as [|e l IH]; intros [|fuel] si b es Hy Hok HR Ht Hf; try (simpl in Hf; lia); cbn [convert_to_lp].
  - destruct Hy as (si' & -> & Hr). cbn [mbind option_bind]. rewrite Hr. exists b. split; [done|]. by rewrite app_nil_r.
  - destruct Hy as (si' & -> & Hy). cbn [mbind option_bind]. apply Forall_cons in Hok as [He Hok].
    rewrite fmap_cons, cons_middle, app_assoc in Ht |- *.
    destruct (lp_append_spec b es e HR He) as (b1 & -> & HR1); [pose proof (total_app_le (es ++ [body e]) (body <$> l)); lia|].
    cbn [mbind option_bind]. apply IH; try done. simpl in Hf. lia.
Qed.

(** ** From integers to a listpack *)

Definition int_len (v : Z) : Z :=
  if (v >=? 0) && (v <=? 127) then 1 else if (v >=? -4096) && (v <=? 4095) then 2
  else if (v >=? -32768) && (v <=? 32767) then 3 else if (v >=? -8388608) && (v <=? 8388607) then 4
  else if (v >=? -2147483648) && (v <=? 2147483647) then 5 else 9.

Lemma int_entry v : entry_size (lpEncodeIntegerGetType v) = int_len v + 1 /\ 1 <= int_len v <= 9.
Proof.
  assert (Z.of_nat (length (lpEncodeIntegerGetType v)) = int_len v /\ 1 <= int_len v <= 9) as [E Hl].
  { unfold lpEncodeIntegerGetType, int_len. repeat match goal with |- context [if _ && _ then _ else _] => destruct (_ && _) end; simpl; lia. }
  split; [|done]. unfold entry_size. rewrite E. unfold lpEncodeBacklenSize. by zb.
Qed.

(** Case analysis on the conditions of the goal. *)
Ltac case_ifs := repeat match goal with |- context [if ?c then _ else _] => destruct c eqn:? end.

Lemma int_len_out a b n x :
  In (a, b, n) [(0, 127, 2); (-4096, 4095, 3); (-32768, 32767, 4); (-8388608, 8388607, 5); (-2147483648, 2147483647, 9)] ->
  x < a \/ b < x -> n <= int_len x.
Proof.
  intros Hin Hx. unfold int_len. simpl in Hin.
  destruct Hin as [E|[E|[E|[E|[E|[]]]]]]; injection E as <- <- <-; case_ifs; lia.
Qed.

Lemma int_len_between lo v hi : lo <= v <= hi -> int_len v <= Z.max (int_len lo) (int_len hi).
Proof.
  intros Hv. destruct (int_entry lo) as [_ Hlo].
  assert (forall a b n, In (a, b, n) [(0, 127, 2); (-4096, 4095, 3); (-32768, 32767, 4); (-8388608, 8388607, 5); (-2147483648, 2147483647, 9)] ->
    v < a \/ b < v -> n <= Z.max (int_len lo) (int_len hi)) as Hout.
  { intros a b n Hin [Ha|Hb].
    - pose proof (int_len_out a b n lo Hin ltac:(lia)). lia.
    - pose proof (int_len_out a b n hi Hin ltac:(lia)). lia. }
  unfold int_len at 1. case_ifs; [lia|eapply Hout; [simpl; eauto 10|lia]..].
Qed.

Lemma udec_length_mono a b : 0 <= a <= b -> b < 10 ^ 20 -> (length (udec a) <= length (udec b))%nat.
Proof.
  intros Ha Hb. destruct (udec_props b ltac:(lia)) as (_ & _ & H1 & _ & Hlt & _). pose proof (udec_len20 b ltac:(lia)).
  apply udec_length_le; lia.
Qed.

Lemma dec_length_between lo v hi : in_s 64 lo -> in_s 64 hi -> lo <= v <= hi ->
  Z.of_nat (length (dec v)) <= Z.max (sdigits10 lo) (sdigits10 hi).
Proof.
  intros Hlo Hhi Hv. rewrite !sdigits10_correct by done. unfold in_s in *. change (2 ^ (64 - 1)) with (2 ^ 63) in *.
  unfold dec. destruct (Z.ltb_spec v 0).
  - zb. pose proof (udec_length_mono (- v) (- lo)). simpl. lia.
  - pose proof (udec_length_mono v hi). destruct (Z.ltb_spec hi 0); lia.
Qed.

(** The bounds the elements of an integer set have. *)
Lemma intset_ends s xs x0 r : repr s xs -> xs = x0 :: r ->
  exists xn, intsetMin s = Some x0 /\ intsetMax s = Some xn /\ xn ∈ xs /\ (forall x, x ∈ xs -> x0 <= x <= xn).
Proof.
  intros HR E. pose proof (repr_small _ _ HR) as Hsm. assert (length xs <> 0)%nat as Hne by (subst; done).
  destruct (lookup_lt_is_Some_2 xs (length xs - 1)) as [xn Hxn]; [lia|]. exists xn.
  assert (xs !! 0%nat = Some x0) as H0 by (by subst).
  split; [apply (get_lookup s xs HR 0 x0 H0)|]. split.
  { unfold intsetMax. rewrite (repr_len _ _ HR). rewrite wrap_id by (unfold in_u; lia). rewrite swrap_id by (unfold in_s; lia).
    replace (Z.of_nat (length xs) - 1) with (Z.of_nat (length xs - 1)) by lia. by apply (get_lookup s xs HR). }
  split; [by apply list_elem_of_lookup_2 in Hxn|].
  intros x Hx. apply list_elem_of_lookup in Hx as [i Hi]. apply lookup_lt_Some in Hi as Hl. split.
  - destruct (decide (i = 0)%nat) as [->|]; [simplify_eq; lia|]. pose proof (sorted_lookup s xs HR 0 i x0 x H0 Hi ltac:(lia)). lia.
  - destruct (decide (i = length xs - 1)%nat) as [->|]; [simplify_eq; lia|]. pose proof (sorted_lookup s xs HR i _ x xn Hi Hxn ltac:(lia)). lia.
Qed.

Lemma int_bodies_total xs m : (forall x, x ∈ xs -> int_len x <= m) ->
  lp_total (body <$> (ElInt <$> xs)) <= 7 + (m + 1) * Z.of_nat (length xs).
Proof.
  intros Hm. unfold lp_total, pos. assert (Z.of_nat (length (bytes_of (body <$> (ElInt <$> xs)))) <= (m + 1) * Z.of_nat (length xs)); [|lia].
  induction xs as [|x xs IH]; [simpl; lia|]. rewrite !fmap_cons, bytes_of_len_cons. simpl body. destruct (int_entry x) as [-> _].
  specialize (IH ltac:(set_solver)). specialize (Hm x ltac:(set_solver)). simpl length. lia.
Qed.

Lemma intset_bounds_spec s xs : repr s xs -> Z.of_nat (length xs) < 2 ^ 29 ->
  exists maxlen tot, intset_bounds s (intsetLen s) = Some (maxlen, tot) /\ 0 <= tot < 2 ^ 34 /\
    (forall x, x ∈ xs -> Z.of_nat (length (dec x)) <= maxlen) /\
    lp_total (body <$> (ElInt <$> xs)) <= Z.max 7 tot.
Proof.
  intros HR Hn. unfold intset_bounds, intsetLen. rewrite (repr_len _ _ HR). destruct xs as [|x0 r] eqn:Exs.
  { exists 0, 0. simpl. split; [done|]. split; [done|]. split; [set_solver|]. done. }
  rewrite <- Exs in *. destruct (intset_ends s xs x0 r HR Exs) as (xn & Hmin & Hmax & Hxn & Hb).
  pose proof (repr_in_s64 s xs HR) as H64. rewrite Forall_forall in H64.
  assert (in_s 64 x0) as H0 by (apply H64; subst; set_solver). assert (in_s 64 xn) as Hxn64 by (by apply H64).
  assert (0 < Z.of_nat (length xs)) as Hpos by (subst; simpl; lia).
  zb. rewrite Hmax, Hmin. cbn [mbind option_bind]. eexists _, _. split; [reflexivity|].
  assert (forall v, lpEstimateBytesRepeatedInteger v (Z.of_nat (length xs)) = 7 + (int_len v + 1) * Z.of_nat (length xs)) as He.
  { intros v. unfold lpEstimateBytesRepeatedInteger. destruct (int_entry v) as [Ee Hl]. unfold entry_size in Ee.
    rewrite Ee. rewrite wrap_id by (unfold in_u; nia). lia. }
  rewrite !He. destruct (int_entry x0) as [_ Hl0]. destruct (int_entry xn) as [_ Hln]. split; [nia|]. split.
  - intros x Hx. rewrite Z.max_comm. apply dec_length_between; auto.
  - etrans; [apply (int_bodies_total xs (Z.max (int_len x0) (int_len xn)))|nia].
    intros x Hx. apply int_len_between. by apply Hb.
Qed.

(** ** Adding *)

Lemma set_size s xs : repr s xs -> size (list_to_set (dec <$> xs) : gset (list Z)) = length xs.
Proof.
  intros HR. rewrite size_list_to_set, length_fmap; [done|]. apply NoDup_dec; [by eapply repr_NoDup|by eapply repr_in_s64].
Qed.

Lemma dec_in_set v (xs : list Z) : in_s 64 v -> Forall (in_s 64) xs -> dec v ∈ (list_to_set (dec <$> xs) : gset (list Z)) <-> v ∈ xs.
Proof.
  intros Hv Hxs. rewrite elem_of_list_to_set, list_elem_of_fmap. split.
  - intros (w & E & Hw). rewrite Forall_forall in Hxs. apply dec_inj in E; [by subst|done|by apply Hxs].
  - intros Hin. by exists v.
Qed.

(** What an operation that adds [x] does. *)
Definition adds (r : option (setobj * Z)) (S : gset (list Z)) (x : list Z) : Prop :=
  exists o', r = Some (o', b2z (bool_decide (x ∉ S))) /\ set_rep o' ({[x]} ∪ S).

Lemma list_to_set_dec xs ys v : (list_to_set ys : gset Z) = {[v]} ∪ list_to_set xs ->
  (list_to_set (dec <$> ys) : gset (list Z)) = {[dec v]} ∪ list_to_set (dec <$> xs).
Proof.
  intros E. apply set_eq. intros x. rewrite elem_of_union, elem_of_singleton, !elem_of_list_to_set, !list_elem_of_fmap.
  assert (forall y, y ∈ ys <-> y = v \/ y ∈ xs) as Hy.
  { intros y. rewrite <- !(elem_of_list_to_set (C := gset Z)), E. set_solver. }
  split.
  - intros (y & -> & [->|Hin]%Hy); [by left|right; by exists y].
  - intros [->|(y & -> & Hin)]; [exists v|exists y]; split; try done; apply Hy; auto.
Qed.

Lemma maybeConvertIntset_spec s xs : repr s xs -> Z.of_nat (length xs) <= 2 ^ 29 ->
  exists o, maybeConvertIntset (SetIntset s) = Some o /\ set_rep o (list_to_set (dec <$> xs)).
Proof.
  intros HR Hn. simpl. unfold intsetLen. rewrite (repr_len _ _ HR), Z.gtb_ltb.
  destruct (Z.ltb_spec intsetMaxEntries (Z.of_nat (length xs))).
  - unfold setTypeConvert. cbn [setTypeSize mbind option_bind]. unfold intsetLen. rewrite (repr_len _ _ HR).
    destruct (convert_ht (SetIntset s) (list_to_set (dec <$> xs)) (Z.of_nat (length xs))) as (d & -> & HW & Hd).
    + by exists xs.
    + done.
    + unfold in_u. lia.
    + rewrite (set_size s xs HR). lia.
    + exists (SetHT d). split; [done|]. by split.
  - exists (SetIntset s). split; [done|]. split; [by exists xs|]. simpl. rewrite (set_size s xs HR). lia.
Qed.

Lemma add_intset_spec s S v : set_rep (SetIntset s) S -> in_s 64 v -> adds (add_intset s v) S (dec v).
Proof.
  intros [(xs & HR & ->) Hlim] Hv. simpl in Hlim. rewrite (set_size s xs HR) in Hlim.
  pose proof intset_limit. rewrite intsetMax_limit in Hlim. pose proof (repr_in_s64 s xs HR) as H64.
  destruct (add_spec undef s xs v HR Hv ltac:(lia)) as (s' & ys & E & HR' & Hys). unfold adds, add_intset. rewrite E. cbn [mbind option_bind].
  pose proof (list_to_set_dec xs ys v Hys) as HS. pose proof (dec_in_set v xs Hv H64) as Hin.
  rewrite (bool_decide_ext (dec v ∉ _) (v ∉ xs)) by (by rewrite Hin).
  destruct (bool_decide_reflect (v ∉ xs)) as [Hni|Hi]; cbn [b2z Z.eqb Pos.eqb].
  - assert (length ys = S (length xs)) as Hl.
    { rewrite <- (repr_size _ _ HR'), <- (repr_size _ _ HR), Hys. rewrite size_union by set_solver. by rewrite size_singleton. }
    destruct (maybeConvertIntset_spec s' ys HR') as (o & -> & Ho); [lia|]. exists o. cbn [mbind option_bind].
    split; [done|]. by rewrite <- HS.
  - exists (SetIntset s'). split; [done|]. rewrite <- HS. split; [by exists ys|]. simpl.
    rewrite (set_size s' ys HR'), intsetMax_limit. rewrite <- (repr_size _ _ HR'), Hys.
    rewrite <- (repr_size _ _ HR) in Hlim. apply dec_stable in Hi. replace ({[v]} ∪ list_to_set xs) with (list_to_set xs : gset Z) by set_solver.
    done.
Qed.

Lemma add_ht_spec d S str : set_is (SetHT d) S -> sds_ok str -> Z.of_nat (size S) < 2 ^ 59 -> adds (add_ht d str) S str.
Proof.
  intros [HW ->] Hstr Hs. destruct (sdsnewlen_ok str Hstr) as (x & Ex & <-). unfold adds, add_ht. rewrite Ex. cbn [mbind option_bind].
  rewrite <- ht_size in Hs by done.
  destruct (dictAdd_spec setDictType canon can_resize d x tt HW Hs) as (d' & r & E & HW' & _ & Hr).
  unfold dictAdd, dictAddRaw in E. change (canon x) with (`x) in Hr. unfold ht_set at 1.
  rewrite (bool_decide_ext (`x ∉ dom _) (amap canon d !! `x = None)) by apply not_elem_of_dom.
  destruct (dictFindPositionForInsert setDictType can_resize d x) as [[[d1 [position|]] ex]|]; cbn [mbind option_bind] in E |- *; [| |done].
  - cbn [keyDup setDictType] in E. destruct (dictInsertAtPosition setDictType d1 x position) as [[d2 ref]|]; [|done].
    cbn [mbind option_bind no_value setDictType negb] in E |- *. injection E as <- <-.
    destruct (amap canon d !! `x) eqn:El; [by destruct Hr|]. destruct Hr as [_ Ha]. rewrite bool_decide_true by done.
    exists (SetHT d2). split; [done|]. split; [|done]. split; [done|]. unfold ht_set. by rewrite Ha, dom_insert_L.
  - injection E as <- <-. destruct (amap canon d !! `x) eqn:El; [|by destruct Hr]. destruct Hr as [_ Ha].
    rewrite bool_decide_false by done. exists (SetHT d1). split; [done|]. split; [|done]. split; [done|]. unfold ht_set. rewrite Ha.
    apply elem_of_dom_2 in El. set_solver.
Qed.

Lemma convert_and_add_spec o S cap str : set_is o S -> obj_enc o <> OBJ_ENCODING_HT -> in_u 64 cap -> Z.of_nat (size S) < 2 ^ 58 ->
  sds_ok str -> str ∉ S -> adds (convert_and_add o cap str) S str.
Proof.
  intros HS He Hcap Hsz Hstr Hni. unfold adds, convert_and_add. rewrite bool_decide_true by done.
  destruct (convert_ht o S cap HS He Hcap) as (d & -> & HW & <-); [lia|]. cbn [mbind option_bind].
  destruct (sdsnewlen_ok str Hstr) as (x & -> & <-). cbn [mbind option_bind].
  destruct (dict_add_spec d x HW) as (d' & -> & HW' & Hd'); [rewrite ht_size by done; lia|done|].
  exists (SetHT d'). split; [done|]. by split.
Qed.

Lemma find_first s l : match find_every 0 0 s l with Some k => l !! k = Some s | None => s ∉ l end.
Proof.
  induction l as [|x l IH]; simpl; [set_solver|]. case_bool_decide; [by subst|].
  destruct (find_every 0 0 s l); simpl; [done|set_solver].
Qed.

Lemma lp_find_spec b es s : lp_rep b es ->
  exists r, lp_find b s = Some r /\
    match r with Some p => exists j, p = pos (take j es) /\ elt_str <$> es !! j = Some s | None => s ∉ elt_str <$> es end.
Proof.
  intros HR. unfold lp_find. rewrite (lpFirst_spec b es HR). cbn [mbind option_bind]. destruct es as [|e r] eqn:Ees.
  { exists None. split; [done|]. set_solver. }
  rewrite <- Ees in *. assert (es !! 0%nat = Some e) as H0 by (by subst).
  assert (ptr [] es = Some (pos (take 0 es))) as -> by (by subst).
  rewrite (find_sim b es 0 e s 0 HR H0) by lia. rewrite drop_0. change (Z.to_nat 0) with 0%nat.
  eexists. split; [reflexivity|]. pose proof (find_first s (elt_str <$> es)) as Hf.
  destruct (find_every 0 0 s (elt_str <$> es)) as [k|]; simpl; [|done]. exists k. split; [done|].
  by rewrite list_lookup_fmap in Hf.
Qed.

Lemma entry_size_body e : elem_ok e -> entry_size (body e) <= Z.of_nat (length (elem_str e)) + 10.
Proof.
  intros He. destruct e as [s|v]; simpl.
  - unfold str_enc. destruct (string2ll s) as [v|].
    + destruct (int_entry v) as [-> ?]. lia.
    + unfold entry_size. rewrite length_str_body. cbv zeta.
      pose proof (backlen_size_range (if Z.of_nat (length s) <? 64 then 1 + Z.of_nat (length s) else
        if Z.of_nat (length s) <? 4096 then 2 + Z.of_nat (length s) else 5 + Z.of_nat (length s))). case_ifs; lia.
  - destruct (int_entry v) as [-> ?]. lia.
Qed.

Lemma safe_to_append es e : elem_ok e -> lp_total es + Z.of_nat (length (elem_str e)) <= 2 ^ 30 ->
  lp_total (es ++ [body e]) <= UINT32_MAX.
Proof. intros He Ht. unfold lp_total, UINT32_MAX in *. rewrite pos_snoc. pose proof (entry_size_body e He). lia. Qed.

(** The set after an element was appended. *)
Lemma append_is b es e : lp_rep b (es ++ [body e]) -> elem_ok e -> NoDup (elt_str <$> es) ->
  Forall (fun e => sds_ok (elt_str e)) es -> elem_str e ∉ elt_str <$> es ->
  set_is (SetListpack b) ({[elem_str e]} ∪ list_to_set (elt_str <$> es)).
Proof.
  intros HR He Hn Hok Hni. pose proof (body_str es e He (rep_total _ _ HR)) as Eb.
  exists (es ++ [body e]). rewrite fmap_app. simpl. rewrite Eb. split; [done|]. split.
  - apply NoDup_app. split; [done|]. split; [set_solver|]. apply NoDup_singleton.
  - split; [set_solver|]. apply Forall_app. split; [done|]. constructor; [|done]. rewrite Eb. by apply elem_str_ok.
Qed.

Lemma lp_size b es : lp_rep b es -> NoDup (elt_str <$> es) ->
  size (list_to_set (elt_str <$> es) : gset (list Z)) = length es /\ Z.of_nat (length es) < 2 ^ 31.
Proof.
  intros HR Hn. split; [by rewrite size_list_to_set, length_fmap|]. by eapply rep_count_u32.
Qed.

Lemma add_listpack_spec b S str is_int v : set_rep (SetListpack b) S -> sds_ok str ->
  (is_int = true -> in_s 64 v /\ str = dec v) -> adds (add_listpack b str is_int v) S str.
Proof.
  intros [(es & HR & Hn & -> & Hok) [Hl1 Hl2]] Hstr Hint. destruct (lp_size b es HR Hn) as [Hsz Hcnt].
  set (e := if is_int then ElInt v else ElStr str).
  assert (elem_ok e /\ elem_str e = str) as [He Ee] by (unfold e; destruct is_int; [destruct Hint; by subst|done]).
  unfold adds, add_listpack. fold e. destruct (lp_find_spec b es str HR) as (r & -> & Hr). cbn [mbind option_bind].
  destruct r as [p|].
  { destruct Hr as (j & _ & Hj). apply fmap_Some in Hj as (x & Hx & ->).
    assert (elt_str x ∈ elt_str <$> es) as Hin by (apply list_elem_of_fmap; exists x; split; [done|by apply list_elem_of_lookup_2 in Hx]).
    exists (SetListpack b). rewrite bool_decide_false by set_solver. split; [done|].
    replace ({[elt_str x]} ∪ list_to_set (elt_str <$> es)) with (list_to_set (elt_str <$> es) : gset (list Z)) by set_solver.
    split; [by exists es|done]. }
  rewrite bool_decide_true by set_solver.
  destruct (lpLength_spec b es HR) as (b1 & -> & HR1 & _). cbn [mbind option_bind].
  assert (set_is (SetListpack b1) (list_to_set (elt_str <$> es))) as H1 by (by exists es).
  assert (exists o', ('(lp, n) ← lpLength b1; convert_and_add (SetListpack lp) (n + 1) str) = Some (o', b2z true) /\
    set_rep o' ({[str]} ∪ list_to_set (elt_str <$> es))) as Hconv.
  { destruct (lpLength_spec b1 es HR1) as (b2 & -> & HR2 & _). cbn [mbind option_bind].
    destruct (convert_and_add_spec (SetListpack b2) (list_to_set (elt_str <$> es)) (Z.of_nat (length es) + 1) str) as (o' & E & Ho');
      [by exists es|done|unfold in_u; lia|rewrite Hsz; lia|done|set_solver|].
    exists o'. by rewrite E, bool_decide_true by set_solver. }
  destruct ((Z.of_nat (length es) <? set_max_listpack_entries) && (Z.of_nat (length str) <=? set_max_listpack_value)) eqn:Ec;
    cbn [mbind option_bind]; [|done].
  unfold lpSafeToAdd. rewrite (rep_total_bytes _ _ HR1). cbn [mbind option_bind].
  change LISTPACK_MAX_SAFETY_SIZE with (2 ^ 30). rewrite Z.gtb_ltb. pose proof (rep_total _ _ HR1) as Ht. pose proof (pos_ge es).
  unfold UINT32_MAX in Ht. destruct Hstr as [_ Hlen]. rewrite wrap_id by (unfold in_u, lp_total in *; lia).
  destruct (Z.ltb_spec (2 ^ 30) (lp_total es + Z.of_nat (length str))); cbn [negb]; [done|].
  destruct (lp_append_spec b1 es e HR1 He) as (b2 & -> & HR2); [apply safe_to_append; [done|rewrite Ee; lia]|].
  cbn [mbind option_bind]. exists (SetListpack b2). split; [done|]. split.
  - rewrite <- Ee. apply append_is; try done. by rewrite Ee.
  - simpl. rewrite size_union by set_solver. rewrite size_singleton, Hsz. split; [lia|].
    apply set_Forall_union; [|done]. apply set_Forall_singleton. lia.
Qed.

Lemma shrink_rep b es : lp_rep b es -> exists b', lpShrinkToFit undef alloc b = Some b' /\ lp_rep b' es.
Proof.
  intros [(n & slack & -> & Hn) He Ht]. destruct (lpShrinkToFit_image undef alloc alloc_ok n es slack Ht) as (slack' & ->).
  eexists. split; [reflexivity|]. split; [by exists n, slack'|done|done].
Qed.

Lemma int_bodies_str xs : Forall (in_s 64) xs -> elt_str <$> (body <$> (ElInt <$> xs)) = dec <$> xs.
Proof.
  intros Hxs. rewrite <- !list_fmap_compose. apply list_fmap_ext. intros i x Hx. unfold compose. simpl.
  apply elt_str_int. by eapply Forall_lookup_1.
Qed.

(** An integer set as a listpack. *)
Lemma convert_int_lp s xs cap : repr s xs -> lp_total (body <$> (ElInt <$> xs)) <= UINT32_MAX ->
  exists b, convert (SetIntset s) OBJ_ENCODING_LISTPACK cap = Some (SetListpack b) /\ lp_rep b (body <$> (ElInt <$> xs)).
Proof.
  intros HR Ht. unfold convert, setTypeConvertAndExpand. cbn [obj_enc]. rewrite bool_decide_false by done.
  assert (exists n, lp_estimate (SetIntset s) cap = Some n) as [n ->].
  { simpl. unfold intsetLen. rewrite (repr_len _ _ HR), Z.gtb_ltb. destruct xs as [|x0 r] eqn:E; [by eexists|].
    destruct (intset_ends s (x0 :: r) x0 r) as (xn & -> & -> & _); [done..|]. destruct (Z.ltb_spec 0 (Z.of_nat (length (x0 :: r)))); by eexists. }
  cbn [mbind option_bind]. destruct (lpNew_spec undef alloc alloc_ok n) as (b0 & -> & HR0). cbn [mbind option_bind].
  destruct (convert_to_lp_spec (SetIntset s) (ElInt <$> xs) (iter_fuel (SetIntset s)) (setTypeInitIterator (SetIntset s)) b0 [])
    as (b & -> & HRb).
  - by apply (yields_intset s xs HR xs []).
  - apply Forall_fmap. by eapply repr_in_s64.
  - done.
  - done.
  - rewrite length_fmap. simpl. rewrite (repr_len _ _ HR). lia.
  - by exists b.
Qed.

Lemma dec_not_str str (xs : list Z) : string2ll str = None -> Forall (in_s 64) xs -> str ∉ dec <$> xs.
Proof.
  intros Hs Hxs Hin. apply list_elem_of_fmap in Hin as (x & -> & Hx). rewrite Forall_forall in Hxs.
  by rewrite string2ll_complete in Hs by (by apply Hxs).
Qed.

Lemma add_string_to_intset_spec s S str : set_rep (SetIntset s) S -> sds_ok str -> string2ll str = None ->
  adds (add_string_to_intset s str) S str.
Proof.
  intros [(xs & HR & ->) Hlim] Hstr Hnone. simpl in Hlim. rewrite (set_size s xs HR) in Hlim.
  pose proof intset_limit. rewrite intsetMax_limit in Hlim. pose proof (repr_in_s64 s xs HR) as H64.
  pose proof (dec_not_str str xs Hnone H64) as Hni. assert (str ∉ (list_to_set (dec <$> xs) : gset (list Z))) as HniS by set_solver.
  assert (adds (convert_and_add (SetIntset s) (intsetLen s + 1) str) (list_to_set (dec <$> xs)) str) as Hconv.
  { unfold intsetLen. rewrite (repr_len _ _ HR). apply convert_and_add_spec; try done; [by exists xs|unfold in_u; lia|rewrite (set_size s xs HR); lia]. }
  unfold add_string_to_intset. destruct (intset_bounds_spec s xs HR ltac:(lia)) as (maxlen & tot & -> & Htot & Hmax & Hbytes).
  cbn [mbind option_bind]. unfold intsetLen in *. rewrite (repr_len _ _ HR) in *.
  destruct ((Z.of_nat (length xs) <? set_max_listpack_entries) && (Z.of_nat (length str) <=? set_max_listpack_value) &&
    (maxlen <=? set_max_listpack_value)) eqn:Ec; cbn [mbind option_bind]; [|done].
  unfold lpSafeToAdd. cbn [mbind option_bind]. change LISTPACK_MAX_SAFETY_SIZE with (2 ^ 30). rewrite Z.gtb_ltb.
  pose proof (proj2 Hstr) as Hlen. rewrite (wrap_id 64 (tot + _)) by (unfold in_u; lia). rewrite wrap_id by (unfold in_u; lia).
  destruct (Z.ltb_spec (2 ^ 30) (0 + (tot + Z.of_nat (length str)))); cbn [negb]; [done|].
  set (es := body <$> (ElInt <$> xs)) in *.
  destruct (convert_int_lp s xs (Z.of_nat (length xs) + 1) HR) as (b & -> & HRb); [fold es; unfold UINT32_MAX; lia|]. fold es in HRb.
  assert (lp_total (es ++ [body (ElStr str)]) <= UINT32_MAX) as Ht2.
  { unfold lp_total, UINT32_MAX in *. rewrite pos_snoc. pose proof (entry_size_body (ElStr str) Hstr) as Hes. simpl elem_str in Hes. lia. }
  cbn [mbind option_bind]. destruct (lp_append_spec b es (ElStr str) HRb Hstr Ht2) as (b1 & E1 & HR1).
  unfold lp_append in E1. rewrite E1. cbn [mbind option_bind].
  destruct (shrink_rep b1 _ HR1) as (b2 & -> & HR2). cbn [mbind option_bind].
  exists (SetListpack b2). rewrite bool_decide_true by done. split; [done|].
  assert (elt_str <$> es = dec <$> xs) as Es by (by apply int_bodies_str). split.
  - rewrite <- Es. apply (append_is b2 es (ElStr str)); try done; rewrite ?Es; try done.
    + apply NoDup_dec; [by eapply repr_NoDup|done].
    + assert (Forall sds_ok (elt_str <$> es)) as Hf; [|rewrite Forall_fmap in Hf; exact Hf].
      rewrite Es. apply Forall_fmap. eapply Forall_impl; [exact H64|]. apply dec_sds_ok.
  - simpl. rewrite size_union by set_solver. rewrite size_singleton, (set_size s xs HR). split; [lia|].
    apply set_Forall_union; [apply set_Forall_singleton; lia|]. intros x Hx. apply elem_of_list_to_set, list_elem_of_fmap in Hx as (y & -> & Hy).
    specialize (Hmax y Hy). lia.
Qed.

(** The element a caller gives. *)
Definition given (str : option (list Z)) (v : Z) : list Z := match str with Some s => s | None => dec v end.
Definition given_ok (str : option (list Z)) (v : Z) : Prop := match str with Some s => sds_ok s | None => in_s 64 v end.

Lemma given_sds_ok str v : given_ok str v -> sds_ok (given str v).
Proof. destruct str; [done|apply dec_sds_ok]. Qed.

Lemma as_string_spec str v : given_ok str v ->
  as_string str v = Some (given str v, match str with None => true | _ => false end).
Proof. destruct str as [s|]; [done|]. intros Hv. unfold as_string. by rewrite int_string_spec. Qed.

Lemma setTypeAddAux_spec o S str v : set_rep o S -> given_ok str v -> Z.of_nat (size S) < 2 ^ 59 ->
  adds (setTypeAddAux o str v) S (given str v).
Proof.
  intros Ho Hg Hs. pose proof (given_sds_ok str v Hg) as Hok. unfold setTypeAddAux.
  destruct o as [d|s|b].
  - destruct Ho as [Ho _]. destruct str as [s|]; rewrite as_string_spec by done; by apply add_ht_spec.
  - destruct str as [str|]; [|by apply add_intset_spec]. rewrite as_string_spec by done. cbn [mbind option_bind given].
    destruct (string2ll str) as [w|] eqn:Ew; [|by apply add_string_to_intset_spec].
    apply string2ll_sound in Ew as [Hw ->]. by apply add_intset_spec.
  - destruct str as [s|]; rewrite as_string_spec by done; by apply add_listpack_spec.
Qed.

(** ** Removing *)

Definition removes (r : option (setobj * Z)) (S : gset (list Z)) (x : list Z) : Prop :=
  exists o', r = Some (o', b2z (bool_decide (x ∈ S))) /\ set_rep o' (S ∖ {[x]}).

(** A subset keeps the limits. *)
Lemma limits_subset o o' S S' : in_limits o S -> obj_enc o' = obj_enc o -> S' ⊆ S -> in_limits o' S'.
Proof.
  intros Hl He Hsub. pose proof (subseteq_size S' S Hsub). destruct o, o'; try done; simpl in *; [lia|].
  destruct Hl as [H1 H2]. split; [lia|]. intros x Hx. apply H2. set_solver.
Qed.

Lemma remove_intset_spec s S v : set_rep (SetIntset s) S -> in_s 64 v -> removes (remove_intset s v) S (dec v).
Proof.
  intros [(xs & HR & ->) Hlim] Hv. pose proof (repr_in_s64 s xs HR) as H64. pose proof Hlim as Hl. simpl in Hl.
  rewrite (set_size s xs HR), intsetMax_limit in Hl. pose proof intset_limit.
  destruct (intsetRemove_correct undef s (list_to_set xs) v) as (s' & E & (ys & HR' & Hys)); [by exists xs|done|rewrite (repr_size _ _ HR); lia|].
  unfold removes, remove_intset. rewrite E. cbn [mbind option_bind]. exists (SetIntset s'). split.
  { do 3 f_equal. apply bool_decide_ext. rewrite dec_in_set by done. apply elem_of_list_to_set. }
  assert (list_to_set (dec <$> xs) ∖ {[dec v]} = (list_to_set (dec <$> ys) : gset (list Z))) as ->.
  { pose proof (repr_in_s64 s' ys HR') as H64'. rewrite Forall_forall in H64, H64'.
    apply set_eq. intros x. rewrite elem_of_difference, not_elem_of_singleton, !elem_of_list_to_set, !list_elem_of_fmap.
    assert (forall y, y ∈ ys <-> y ∈ xs /\ y <> v) as Hy.
    { intros y. rewrite <- !(elem_of_list_to_set (C := gset Z)), <- Hys. set_solver. }
    split.
    - intros [(y & -> & Hin) Hne]. exists y. split; [done|]. apply Hy. split; [done|]. congruence.
    - intros (y & -> & [Hin Hne]%Hy). split; [by exists y|]. intros E'. apply dec_inj in E'; auto. }
  split; [by exists ys|]. simpl. rewrite (set_size s' ys HR'), intsetMax_limit.
  rewrite <- (repr_size _ _ HR'), <- Hys. rewrite <- (repr_size _ _ HR) in Hl.
  pose proof (subseteq_size (list_to_set xs ∖ {[v]}) (list_to_set xs : gset Z) ltac:(set_solver)). lia.
Qed.

Lemma remove_ht_spec d S str : set_is (SetHT d) S -> sds_ok str -> Z.of_nat (size S) < 2 ^ 59 -> removes (remove_ht d str) S str.
Proof.
  intros [HW ->] Hstr Hs. destruct (sdsnewlen_ok str Hstr) as (x & Ex & <-). unfold removes, remove_ht. rewrite Ex. cbn [mbind option_bind].
  unfold dictDelete.
  destruct (dictGenericDelete_spec setDictType canon can_resize d x false HW) as (d1 & he & -> & HW1 & Hhe & Hhe' & Ha & _ & _).
  cbn [mbind option_bind]. change (canon x) with (`x) in *.
  assert (ht_set d1 = ht_set d ∖ {[`x]}) as Hd1 by (unfold ht_set; rewrite Ha; apply dom_delete_L).
  rewrite (bool_decide_ext (`x ∈ ht_set d) (is_Some (amap canon d !! `x))) by apply elem_of_dom.
  destruct he as [he|]; cbn [Z.eqb].
  - rewrite bool_decide_true by (apply Hhe'; done). eexists. split; [done|]. split; [|done]. rewrite <- Hd1.
    destruct (htNeedsResize d1); [|done].
    assert (dictSize d1 < 2 ^ 59) as Hs1.
    { rewrite ht_size, Hd1 by done. pose proof (subseteq_size (ht_set d ∖ {[`x]}) (ht_set d) ltac:(set_solver)). lia. }
    destruct (dictResize_spec setDictType canon can_resize d1 HW1 Hs1) as [HW2 S2]. split; [done|].
    unfold ht_set. by rewrite (amap_same setDictType canon d1 (dictResize can_resize d1).1).
  - simpl in Hhe. rewrite bool_decide_false by (rewrite <- Hhe; by intros []). eexists. split; [done|]. split; [|done]. by split.
Qed.

Lemma total_delete es j e : es !! j = Some e -> lp_total (take j es ++ drop (S j) es) <= lp_total es.
Proof.
  intros Hj. assert (lp_total es = lp_total (take j es ++ e :: drop (S j) es)) as -> by (by rewrite take_drop_middle). unfold lp_total. rewrite !pos_app, bytes_of_len_cons.
  unfold entry_size. pose proof (backlen_size_range (Z.of_nat (length e))). lia.
Qed.

Lemma lp_delete_spec b es j e : lp_rep b es -> es !! j = Some e ->
  exists b' p, not_null (lpDelete undef alloc b (pos (take j es))) = Some (b', p) /\ lp_rep b' (take j es ++ drop (S j) es).
Proof.
  intros HR Hj. pose proof (lpInsert_spec undef alloc alloc_ok b es EleNone j e LP_REPLACE HR Hj I) as Hm. cbv zeta in Hm.
  unfold modifies, ins_elts in Hm. cbn [ins_where ele_delete ins_at ele_new app] in Hm. pose proof (total_delete es j e Hj). pose proof (rep_total _ _ HR).
  destruct (Z.ltb_spec UINT32_MAX (lp_total (take j es ++ drop (S j) es))); [lia|].
  destruct Hm as (b' & E & HR'). unfold lpDelete. eexists b', _. by rewrite E.
Qed.

Lemma remove_listpack_spec b S str : set_rep (SetListpack b) S -> removes (remove_listpack b str) S str.
Proof.
  intros [(es & HR & Hn & -> & Hok) Hlim]. unfold removes, remove_listpack.
  destruct (lp_find_spec b es str HR) as (r & -> & Hr). cbn [mbind option_bind]. destruct r as [p|].
  - destruct Hr as (j & -> & Hj). apply fmap_Some in Hj as (x & Hx & ->).
    destruct (lp_delete_spec b es j x HR Hx) as (b' & p & -> & HR'). cbn [mbind option_bind fst].
    pose proof (take_drop_middle es j x Hx) as Ees. assert (elt_str x ∈ elt_str <$> es) as Hin.
    { apply list_elem_of_fmap. exists x. split; [done|]. by apply list_elem_of_lookup_2 in Hx. }
    rewrite bool_decide_true by set_solver. exists (SetListpack b'). split; [done|].
    rewrite <- Ees, fmap_app, fmap_cons in Hn. pose proof Hn as Hperm. rewrite <- Permutation_middle in Hperm.
    apply NoDup_cons in Hperm as [Hni Hn']. rewrite <- fmap_app in Hni, Hn'.
    assert (list_to_set (elt_str <$> es) ∖ {[elt_str x]} = (list_to_set (elt_str <$> (take j es ++ drop (S j) es)) : gset (list Z))) as HS.
    { rewrite <- Ees at 1. rewrite !fmap_app, fmap_cons, !list_to_set_app_L, list_to_set_cons. rewrite fmap_app in Hni. set_solver. }
    split.
    + rewrite HS. exists (take j es ++ drop (S j) es). split; [done|]. split; [done|]. split; [done|].
      apply Forall_app. split; [by apply Forall_take|by apply Forall_drop].
    + eapply limits_subset; [exact Hlim|done|set_solver].
  - rewrite bool_decide_false by set_solver. exists (SetListpack b). split; [done|].
    replace (list_to_set (elt_str <$> es) ∖ {[str]}) with (list_to_set (elt_str <$> es) : gset (list Z)) by set_solver.
    split; [by exists es|done].
Qed.

Lemma setTypeRemoveAux_spec o S str v : set_rep o S -> given_ok str v -> Z.of_nat (size S) < 2 ^ 59 ->
  removes (setTypeRemoveAux o str v) S (given str v).
Proof.
  intros Ho Hg Hs. pose proof (given_sds_ok str v Hg) as Hok. unfold setTypeRemoveAux.
  destruct o as [d|s|b].
  - destruct Ho as [Ho _]. destruct str as [s|]; rewrite as_string_spec by done; by apply remove_ht_spec.
  - destruct str as [str|]; [|by apply remove_intset_spec]. rewrite as_string_spec by done. cbn [mbind option_bind given].
    destruct (string2ll str) as [w|] eqn:Ew.
    + apply string2ll_sound in Ew as [Hw ->]. by apply remove_intset_spec.
    + destruct Ho as [(xs & HR & ->) Hl]. pose proof (dec_not_str str xs Ew (repr_in_s64 s xs HR)) as Hni.
      unfold removes. rewrite bool_decide_false by set_solver. exists (SetIntset s). split; [done|].
      replace (list_to_set (dec <$> xs) ∖ {[str]}) with (list_to_set (dec <$> xs) : gset (list Z)) by set_solver.
      split; [by exists xs|done].
  - destruct str as [s|]; rewrite as_string_spec by done; by apply remove_listpack_spec.
Qed.
End Proof.
