(* ===== verification/TSetSpec.v ===== *)
(** * What the set type promises

    Membership, size, creation, copies and conversions on request; iteration;
    and the refinement of sequences of operations to a finite set of strings. *)

From Stdlib Require Import ZArith Lia ZifyBool String.
From stdpp Require Import base gmap numbers option list.
From S2P Require Import Prelude Intset Dict DictProof DictMap DictIter Numstr Listpack ListpackCodec ListpackProof ListpackRange ListpackSpec TSet TSetProof.

Local Open Scope Z_scope.

#[local] Opaque dictFingerprint.

Lemma slice_whole (b : list Z) n : n = Z.of_nat (length b) -> slice b 0 n = Some b.
Proof. intros ->. pose proof (slice_app [] b [] 0 (Z.of_nat (length b)) eq_refl eq_refl) as E. by rewrite app_nil_r in E. Qed.

Section Spec.
Context {env : SetEnv} {env_ok : SetEnvOk}.
Notation wf := (DictProof.wf setDictType canon).

(** ** Membership and size *)

Lemma setTypeIsMemberAux_spec o S str v : set_rep o S -> given_ok str v ->
  exists o', setTypeIsMemberAux o str v = Some (o', b2z (bool_decide (given str v ∈ S))) /\ set_rep o' S.
Proof.
  intros Ho Hg. pose proof (given_sds_ok str v Hg) as Hok. unfold setTypeIsMemberAux.
  assert (forall s x, set_rep (SetIntset s) S -> in_s 64 x -> intsetFind s x = Some (b2z (bool_decide (dec x ∈ S)))) as Hint.
  { intros s x [(xs & HR & ->) _] Hx. rewrite (intsetFind_correct s (list_to_set xs) x) by (done || by exists xs).
    do 2 f_equal. apply bool_decide_ext. rewrite dec_in_set by (done || by eapply repr_in_s64). by rewrite elem_of_list_to_set. }
  destruct o as [d|s|b].
  - assert (exists o', (sdsval ← sdsnewlen (given str v); '(ht, r) ← dictFind setDictType can_resize d sdsval;
      Some (SetHT ht, match r with Some _ => 1 | None => 0 end)) = Some (o', b2z (bool_decide (given str v ∈ S))) /\ set_rep o' S) as (o' & E & Ho').
    { destruct Ho as [[HW ->] _]. destruct (sdsnewlen_ok _ Hok) as (x & -> & <-). cbn [mbind option_bind].
      destruct (dictFind_member setDictType canon can_resize d x HW) as (d' & r & -> & HW' & Ha & Hr). cbn [mbind option_bind].
      exists (SetHT d'). split; [|split; [split; [done|unfold ht_set; by rewrite Ha]|done]]. do 2 f_equal.
      change (canon x) with (`x) in Hr. unfold ht_set. rewrite (bool_decide_ext _ (is_Some r)) by (rewrite elem_of_dom; by symmetry).
      destruct r; [by rewrite bool_decide_true|]. rewrite bool_decide_false; [done|by intros []]. }
    exists o'. destruct str as [s|]; by rewrite as_string_spec.
  - exists (SetIntset s). split; [|done]. destruct str as [str|].
    + rewrite as_string_spec by done. cbn [mbind option_bind given]. destruct (string2ll str) as [w|] eqn:Ew.
      * apply string2ll_sound in Ew as [Hw ->]. by rewrite Hint.
      * destruct Ho as [(xs & HR & ->) _]. pose proof (dec_not_str str xs Ew (repr_in_s64 s xs HR)). by rewrite bool_decide_false by set_solver.
    + by rewrite Hint.
  - exists (SetListpack b). split; [|done]. rewrite as_string_spec by done.
    destruct Ho as [(es & HR & Hn & -> & _) _]. destruct (lp_find_spec b es (given str v) HR) as (r & E & Hr).
    assert ((match r with Some _ => 1 | None => 0 end) = b2z (bool_decide (given str v ∈ (list_to_set (elt_str <$> es) : gset (list Z))))) as Eb.
    { destruct r as [p|]; [|by rewrite bool_decide_false by set_solver]. destruct Hr as (j & _ & Hj). apply fmap_Some in Hj as (x & Hx & Ex).
      rewrite bool_decide_true; [done|]. rewrite Ex. apply elem_of_list_to_set, list_elem_of_fmap. exists x. split; [done|].
      by apply list_elem_of_lookup_2 in Hx. }
    destruct str as [s|]; cbn [mbind option_bind]; rewrite E; cbn [mbind option_bind]; by rewrite Eb.
Qed.

Lemma setTypeSize_spec o S : set_rep o S -> exists o', setTypeSize o = Some (o', Z.of_nat (size S)) /\ set_rep o' S /\ obj_enc o' = obj_enc o.
Proof.
  intros [Ho Hl]. destruct o as [d|s|b].
  - exists (SetHT d). destruct Ho as [HW ->]. simpl. by rewrite ht_size.
  - exists (SetIntset s). simpl. unfold intsetLen. destruct Ho as (xs & HR & ->). rewrite (repr_len _ _ HR), (set_size s xs HR).
    split; [done|]. split; [|done]. split; [by exists xs|done].
  - destruct Ho as (es & HR & Hn & -> & Hok). destruct (lpLength_spec b es HR) as (b' & E & HR' & _). exists (SetListpack b').
    simpl. rewrite E. destruct (lp_size b es HR Hn) as [-> _]. split; [done|]. split; [|done]. split; [by exists es|done].
Qed.

(** ** Creation and conversion on request *)

Lemma setTypeCreate_spec value hint : in_u 64 hint -> exists o, setTypeCreate value hint = Some o /\ set_rep o ∅.
Proof.
  intros Hh. unfold setTypeCreate. pose proof intset_limit. unfold in_u in Hh.
  destruct ((match string2ll value with Some _ => true | None => false end) && (hint <=? set_max_intset_entries)).
  { exists createIntsetObject. split; [done|]. split; [exists []; split; [|done]|].
    - constructor; simpl; [by left|done|done|constructor|constructor|lia].
    - cbn [in_limits createIntsetObject]. rewrite intsetMax_limit, size_empty. lia. }
  destruct (Z.leb_spec hint set_max_listpack_entries).
  { unfold createSetListpackObject. destruct (lpNew_spec undef alloc alloc_ok 0) as (b & -> & HR). exists (SetListpack b). split; [done|].
    split; [exists []; split; [done|split; [constructor|by split]]|]. cbn [in_limits]. rewrite size_empty. split; [lia|]. intros x Hx. set_solver. }
  simpl. destruct (expand_empty hint Hh) as (HW & He & _). eexists. split; [done|]. split; [|done]. by split.
Qed.

Lemma setTypeMaybeConvert_spec o S hint : set_rep o S -> in_u 64 hint -> Z.of_nat (size S) < 2 ^ 59 ->
  exists o', setTypeMaybeConvert o hint = Some o' /\ set_rep o' S.
Proof.
  intros Ho Hh Hs. unfold setTypeMaybeConvert. destruct (_ || _) eqn:E; [|by exists o].
  assert (obj_enc o <> OBJ_ENCODING_HT) as He.
  { intros He. rewrite He in E. by rewrite !bool_decide_false in E by done. }
  destruct (convert_ht o S hint (proj1 Ho) He Hh Hs) as (d & -> & HW & Hd). exists (SetHT d). split; [done|]. split; [|done]. by split.
Qed.

(** Adding to a hash table gives a hash table. *)
Lemma add_ht_enc d str o r : add_ht d str = Some (o, r) -> exists d', o = SetHT d'.
Proof.
  unfold add_ht. destruct (sdsnewlen str) as [x|]; [|done]. cbn [mbind option_bind].
  destruct (dictFindPositionForInsert setDictType can_resize d x) as [[[d1 [p|]] ex]|]; cbn [mbind option_bind]; [| |done].
  - destruct (dictInsertAtPosition setDictType d1 x p) as [[d2 ref]|]; [|done]. cbn. intros [= <- _]. by eexists.
  - intros [= <- _]. by eexists.
Qed.

Lemma dup_ht_spec o (ss : list (list Z)) : forall fuel si d S, yields o si (ElStr <$> ss) -> Forall sds_ok ss ->
  wf d -> ht_set d = S -> Z.of_nat (size S) + Z.of_nat (length ss) < 2 ^ 59 -> (length ss < fuel)%nat ->
  exists d', dup_ht fuel o si (SetHT d) = Some (o, SetHT d') /\ wf d' /\ ht_set d' = S ∪ list_to_set ss.
Proof.
  induction ss as [|x ss IH]; intros [|fuel] si d S Hy Hok HW HS Hsz Hf; try (simpl in Hf; lia); cbn [dup_ht].
  - destruct Hy as (si' & -> & Hr). cbn [mbind option_bind]. rewrite Hr. exists d. split; [done|]. split; [done|]. set_solver.
  - destruct Hy as (si' & -> & Hy). cbn [mbind option_bind]. apply Forall_cons in Hok as [Hx Hok].
    destruct (add_ht_spec d S x) as (o1 & E1 & Ho1); [by split|done|simpl in Hsz; lia|].
    destruct (add_ht_enc d x _ _ E1) as [d1 ->]. destruct Ho1 as [[HW1 HS1] _].
    unfold setTypeAdd. cbn [setTypeAddAux as_string mbind option_bind]. rewrite E1. cbn [mbind option_bind fst].
    destruct (IH fuel si' d1 ({[x]} ∪ S)) as (d' & E & HW' & Hd'); try done.
    + pose proof (size_union_alt {[x]} S) as Hu. pose proof (subseteq_size (S ∖ {[x]}) S ltac:(set_solver)). rewrite size_singleton in Hu.
      simpl in Hsz. lia.
    + simpl in Hf. lia.
    + exists d'. split; [exact E|]. split; [done|]. rewrite Hd'. set_solver.
Qed.

(** A copy has the same members and the same encoding. *)
Lemma setTypeDup_spec o S : set_rep o S -> Z.of_nat (size S) < 2 ^ 58 ->
  exists c, setTypeDup o = Some (o, c) /\ set_rep c S /\ obj_enc c = obj_enc o.
Proof.
  intros Ho Hs. destruct o as [d|s|b].
  - pose proof Ho as [[HW HS] _]. pose proof (yields_ht_init d HW) as Hy. cbn [setTypeDup].
    destruct (expand_empty (dictSize d)) as (HW0 & He & _); [rewrite ht_size, <- HS by done; unfold in_u; lia|].
    set (ss := (fun kv : sds * option unit => `kv.1) <$> entries d).
    assert ((fun kv : sds * option unit => ElStr (`kv.1)) <$> entries d = ElStr <$> ss) as Ess by (unfold ss; by rewrite <- list_fmap_compose).
    rewrite Ess in Hy. assert (length ss = size S) as Hl.
    { unfold ss. rewrite length_fmap. pose proof (entries_length setDictType canon d HW) as El. rewrite ht_size, <- HS in El by done. lia. }
    destruct (dup_ht_spec (SetHT d) ss (iter_fuel (SetHT d)) (setTypeInitIterator (SetHT d)) (dictExpand dictCreate (dictSize d)).1 ∅)
      as (d' & E & HW' & Hd'); try done.
    + apply Forall_fmap, Forall_forall. intros x _. apply sds_proj_ok.
    + rewrite size_empty. lia.
    + simpl. rewrite ht_size, <- HS by done. lia.
    + exists (SetHT d'). split; [exact E|]. split; [|done]. split; [|done]. split; [done|]. rewrite Hd', HS, ht_set_keys, Ess.
      rewrite <- list_fmap_compose. assert ((elem_str ∘ ElStr) <$> ss = ss) as -> by apply list_fmap_id. set_solver.
  - pose proof Ho as [(xs & HR & HS) Hl]. cbn [setTypeDup]. unfold intsetBlobLen. rewrite (repr_len _ _ HR).
    assert (slice (contents s) 0 (sizeof_intset + Z.of_nat (length xs) * encoding s - sizeof_intset) = Some (contents s)) as Ec.
    { apply slice_whole. rewrite (repr_contents _ _ HR), length_enc_all. destruct (repr_enc _ _ HR) as [->|[->| ->]]; simpl; lia. }
    rewrite Ec. cbn [mbind option_bind]. rewrite <- (repr_len _ _ HR).
    assert (mk_intset (encoding s) (ilength s) (contents s) = s) as -> by (by destruct s). by exists (SetIntset s).
  - pose proof Ho as [(es & HR & Hn & HS & Hok) Hl]. cbn [setTypeDup]. unfold lpBytes. rewrite (rep_total_bytes _ _ HR). cbn [mbind option_bind].
    destruct HR as [(n & slack & -> & Hcnt) He Ht].
    rewrite (slice_app [] (image n es) slack 0) by (rewrite ?image_length; done). cbn [mbind option_bind].
    exists (SetListpack (image n es)). split; [done|]. split; [|done]. split; [|done].
    exists es. split; [|done]. split; [exists n, []; by rewrite app_nil_r|done|done].
Qed.

(** ** Back to integers *)

Definition is_int (x : list Z) : Prop := is_Some (string2ll x).

Lemma elem_int_spec e : elem_ok e -> is_int (elem_str e) -> exists v, elem_int e = Some v /\ in_s 64 v /\ elem_str e = dec v.
Proof.
  destruct e as [s|v]; simpl; intros Hok Hi; [|by exists v]. destruct Hi as [v Hv]. exists v. split; [done|].
  by apply string2ll_sound in Hv.
Qed.

Lemma convert_to_intset_spec o l : forall fuel si s xs, yields o si l -> Forall elem_ok l -> Forall (fun e => is_int (elem_str e)) l ->
  NoDup (elem_str <$> l) -> repr s xs -> (forall e, e ∈ l -> elem_str e ∉ dec <$> xs) ->
  Z.of_nat (length xs + length l) < 2 ^ 29 -> (length l < fuel)%nat ->
  exists s' ys, convert_to_intset fuel o si s = Some s' /\ repr s' ys /\
    (list_to_set (dec <$> ys) : gset (list Z)) = list_to_set (dec <$> xs) ∪ list_to_set (elem_str <$> l).
Proof.
  induction l as [|e l IH]; intros [|fuel] si s xs Hy Hok Hi Hn HR Hd Hs Hf; try (simpl in Hf; lia); cbn [convert_to_intset].
  - destruct Hy as (si' & -> & Hr). cbn [mbind option_bind]. rewrite Hr. exists s, xs. split; [done|]. split; [done|]. set_solver.
  - destruct Hy as (si' & -> & Hy). cbn [mbind option_bind]. apply Forall_cons in Hok as [He Hok]. apply Forall_cons in Hi as [Hie Hi].
    rewrite fmap_cons in Hn. apply NoDup_cons in Hn as [Hne Hn]. destruct (elem_int_spec e He Hie) as (v & -> & Hv & Ee). cbn [mbind option_bind].
    assert (v ∉ xs) as Hvx. { intros Hin. apply (Hd e); [set_solver|]. rewrite Ee. apply list_elem_of_fmap. by exists v. }
    destruct (add_spec undef s xs v HR Hv) as (s1 & ys & E1 & HR1 & Hys); [simpl in Hs; lia|].
    rewrite E1, bool_decide_true by done. cbn [mbind option_bind b2z Z.eqb Pos.eqb].
    pose proof (list_to_set_dec xs ys v Hys) as HS1.
    destruct (IH fuel si' s1 ys) as (s2 & zs & E2 & HR2 & HS2); try done.
    + intros e' He' Hin. assert (elem_str e' ∈ (list_to_set (dec <$> ys) : gset (list Z))) as Hin' by (by apply elem_of_list_to_set).
      rewrite HS1 in Hin'. apply elem_of_union in Hin' as [Hs'%elem_of_singleton|Hs'].
      * apply Hne. rewrite Ee, <- Hs'. apply list_elem_of_fmap. by exists e'.
      * apply (Hd e'); [set_solver|]. by apply elem_of_list_to_set in Hs'.
    + assert (length ys = S (length xs)) as ->; [|simpl in Hs; lia].
      rewrite <- (repr_size _ _ HR1), <- (repr_size _ _ HR), Hys. rewrite size_union by set_solver. by rewrite size_singleton.
    + simpl in Hf. lia.
    + exists s2, zs. split; [exact E2|]. split; [done|]. rewrite HS2, HS1, fmap_cons, Ee. set_solver.
Qed.

Lemma maybeConvertToIntset_spec o S : set_rep o S -> set_Forall is_int S ->
  exists o', maybeConvertToIntset o = Some o' /\ set_rep o' S.
Proof.
  intros Ho Hi. unfold maybeConvertToIntset. case_bool_decide as He; [by exists o|].
  destruct (setTypeSize_spec o S Ho) as (o1 & -> & Ho1 & He1). cbn [mbind option_bind]. rewrite Z.gtb_ltb, intsetMax_limit.
  pose proof intset_limit. destruct (Z.ltb_spec set_max_intset_entries (Z.of_nat (size S))); [by exists o1|].
  destruct (iter_rep o1 S (proj1 Ho1)) as (l & Hy & Hn & HS & Hok & Hf).
  destruct (convert_to_intset_spec o1 l (iter_fuel o1) (setTypeInitIterator o1) intsetNew []) as (s & ys & -> & HR & HSy); try done.
  - apply Forall_forall. intros e He'. apply Hi. rewrite HS. apply elem_of_list_to_set, list_elem_of_fmap. by exists e.
  - constructor; simpl; [by left|done|done|constructor|constructor|lia].
  - intros e _. simpl. set_solver.
  - rewrite HS, size_list_to_set, length_fmap in * by done. simpl. lia.
  - exists (SetIntset s). split; [done|].
    assert (S = list_to_set (dec <$> ys)) as HSS by (rewrite HSy, HS; set_solver). split; [by exists ys|].
    cbn [in_limits]. rewrite intsetMax_limit. lia.
Qed.

(** ** Sequences of operations *)

Inductive set_op :=
| SAdd (str : option (list Z)) (v : Z)
| SRemove (str : option (list Z)) (v : Z)
| SIsMember (str : option (list Z)) (v : Z)
| SSize
| SMaybeConvert (size_hint : Z)
| SToIntset
| SDup.

(** After [SDup] the sequence goes on with the copy. *)
Definition run_op (o : setobj) (op : set_op) : option (setobj * Z) :=
  match op with
  | SAdd str v => setTypeAddAux o str v
  | SRemove str v => setTypeRemoveAux o str v
  | SIsMember str v => setTypeIsMemberAux o str v
  | SSize => setTypeSize o
  | SMaybeConvert hint => o ← setTypeMaybeConvert o hint; Some (o, 0)
  | SToIntset => o ← maybeConvertToIntset o; Some (o, 0)
  | SDup => r ← setTypeDup o; Some (r.2, 0)
  end.

Fixpoint run_ops (o : setobj) (ops : list set_op) : option (setobj * list Z) :=
  match ops with
  | [] => Some (o, [])
  | op :: ops => '(o, r) ← run_op o op; '(o, rs) ← run_ops o ops; Some (o, r :: rs)
  end.

Definition spec_op (S : gset (list Z)) (op : set_op) : gset (list Z) * Z :=
  match op with
  | SAdd str v => ({[given str v]} ∪ S, b2z (bool_decide (given str v ∉ S)))
  | SRemove str v => (S ∖ {[given str v]}, b2z (bool_decide (given str v ∈ S)))
  | SIsMember str v => (S, b2z (bool_decide (given str v ∈ S)))
  | SSize => (S, Z.of_nat (size S))
  | SMaybeConvert _ | SToIntset | SDup => (S, 0)
  end.

Fixpoint spec_ops (S : gset (list Z)) (ops : list set_op) : gset (list Z) * list Z :=
  match ops with
  | [] => (S, [])
  | op :: ops => let '(X, r) := spec_op S op in let '(X, rs) := spec_ops X ops in (X, r :: rs)
  end.

(** Conversion to integers is only asked for when all members are integers. *)
Definition op_ok (S : gset (list Z)) (op : set_op) : Prop :=
  match op with
  | SAdd str v | SRemove str v | SIsMember str v => given_ok str v
  | SMaybeConvert hint => in_u 64 hint
  | SToIntset => set_Forall is_int S
  | SSize | SDup => True
  end.

Fixpoint ops_ok (S : gset (list Z)) (ops : list set_op) : Prop :=
  match ops with [] => True | op :: ops => op_ok S op /\ ops_ok (spec_op S op).1 ops end.

Lemma run_op_spec o S op : set_rep o S -> op_ok S op -> Z.of_nat (size S) < 2 ^ 58 ->
  exists o', run_op o op = Some (o', (spec_op S op).2) /\ set_rep o' (spec_op S op).1.
Proof.
  intros Ho Hok Hs. destruct op as [str v|str v|str v| |hint| |]; cbn [run_op spec_op fst snd].
  - apply setTypeAddAux_spec; [done..|lia].
  - apply setTypeRemoveAux_spec; [done..|lia].
  - by apply setTypeIsMemberAux_spec.
  - destruct (setTypeSize_spec o S Ho) as (o' & E & Ho' & _). by exists o'.
  - destruct (setTypeMaybeConvert_spec o S hint Ho Hok) as (o' & -> & Ho'); [lia|]. by exists o'.
  - destruct (maybeConvertToIntset_spec o S Ho Hok) as (o' & -> & Ho'). by exists o'.
  - destruct (setTypeDup_spec o S Ho Hs) as (c & -> & Hc & _). by exists c.
Qed.

Lemma spec_set_size S op : (size (spec_op S op).1 <= size S + 1)%nat.
Proof.
  destruct op; simpl; try lia.
  - pose proof (size_union_alt {[given str v]} S) as Hu. pose proof (subseteq_size (S ∖ {[given str v]}) S ltac:(set_solver)).
    rewrite size_singleton in Hu. lia.
  - pose proof (subseteq_size (S ∖ {[given str v]}) S ltac:(set_solver)). lia.
Qed.

Lemma run_set_ops_spec ops : forall o S, set_rep o S -> ops_ok S ops -> Z.of_nat (size S + length ops) < 2 ^ 58 ->
  exists o', run_ops o ops = Some (o', (spec_ops S ops).2) /\ set_rep o' (spec_ops S ops).1.
Proof.
  induction ops as [|op ops IH]; intros o S Ho Hok Hs; [by exists o|]. destruct Hok as [Hop Hok]. cbn [run_ops spec_ops].
  destruct (run_op_spec o S op Ho Hop) as (o1 & -> & Ho1); [simpl in Hs; lia|]. pose proof (spec_set_size S op) as Hsz.
  destruct (spec_op S op) as [S1 r]. cbn [fst snd] in *. cbn [mbind option_bind].
  destruct (IH o1 S1 Ho1 Hok) as (o2 & -> & Ho2); [simpl in Hs; lia|]. destruct (spec_ops S1 ops) as [S2 rs]. by exists o2.
Qed.

(** A client's loop over a set. *)
Fixpoint iterate_set (fuel : nat) (o : setobj) (si : setTypeIterator) : option (setobj * list elem) :=
  match fuel with
  | O => None
  | S fuel =>
      '(o, si, e) ← setTypeNext o si;
      match e with
      | Some e => '(o, l) ← iterate_set fuel o si; Some (o, e :: l)
      | None => o ← setTypeReleaseIterator o si; Some (o, [])
      end
  end.

Lemma iterate_yields o l : forall fuel si, yields o si l -> (length l < fuel)%nat -> iterate_set fuel o si = Some (o, l).
Proof.
  induction l as [|e l IH]; intros [|fuel] si Hy Hf; try (simpl in Hf; lia); cbn [iterate_set].
  - destruct Hy as (si' & -> & Hr). cbn [mbind option_bind]. by rewrite Hr.
  - destruct Hy as (si' & -> & Hy). cbn [mbind option_bind]. rewrite (IH fuel si' Hy) by (simpl in Hf; lia). done.
Qed.
End Spec.

(** C5. The set type implements a finite set of strings: a set created for any
    first value and any size hint, and then changed by any sequence of fewer than 2^58
    additions, removals, membership tests, size queries, conversions and copies,
    with elements given as strings or as integers, gives the results of the
    finite set, never fails an assertion or leaves a block, and stays within the
    limits of its encoding, whichever of the three encodings it goes through. *)
Theorem set_type_refines_set {env : SetEnv} {env_ok : SetEnvOk} (value : list Z) (size_hint : Z) (ops : list set_op) :
  in_u 64 size_hint -> ops_ok ∅ ops -> Z.of_nat (length ops) < 2 ^ 58 ->
  exists o o', setTypeCreate value size_hint = Some o /\ run_ops o ops = Some (o', (spec_ops ∅ ops).2) /\
    set_is o' (spec_ops ∅ ops).1 /\ in_limits o' (spec_ops ∅ ops).1.
Proof.
  intros Hh Hok Hn. destruct (setTypeCreate_spec value size_hint Hh) as (o & E & Ho).
  destruct (run_set_ops_spec ops o ∅ Ho Hok) as (o' & E' & Ho'); [rewrite size_empty; lia|]. by exists o, o'.
Qed.

(** C29. Iterating over a set in any of its encodings, a hash table in the middle
    of a rehash included, returns every member exactly once, as a string or an
    integer, ends, and leaves the set as it was. *)
Theorem set_iteration_visits_members {env : SetEnv} {env_ok : SetEnvOk} (o : setobj) (S : gset (list Z)) :
  set_is o S ->
  exists l, iterate_set (iter_fuel o) o (setTypeInitIterator o) = Some (o, l) /\
    NoDup (elem_str <$> l) /\ S = list_to_set (elem_str <$> l).
Proof.
  intros Ho. destruct (iter_rep o S Ho) as (l & Hy & Hn & HS & _ & Hf). exists l. split; [|done]. by apply iterate_yields.
Qed.

(** ** An instance: small limits, so that every conversion happens *)

Definition ex_env : SetEnv := {|
  set_max_intset_entries := 3; set_max_listpack_entries := 4; set_max_listpack_value := 64;
  undef _ := 170; alloc n := n; siphash := foldl (fun h c => h * 31 + c) 7;
  can_resize := DICT_RESIZE_ENABLE; table_addr := (4096, 8192); iter_junk := 0 |}.

#[local] Existing Instance ex_env.

Lemma ex_env_ok : SetEnvOk.
Proof. constructor; [done|]. cbn. lia. Qed.

Definition ex_ops : list set_op :=
  [SAdd (Some (chars "12")) 0; SAdd None (-7); SAdd (Some (chars "x")) 0; SAdd (Some (chars "12")) 0; SSize; SDup;
   SAdd None 5; SAdd (Some (chars "yy")) 0; SRemove (Some (chars "x")) 0; SIsMember None (-7); SSize].

Lemma set_type_refines_set_witness :
  exists o o', setTypeCreate (chars "12") 1 = Some o /\ run_ops o ex_ops = Some (o', [1; 1; 1; 0; 3; 0; 1; 1; 1; 1; 4]).
Proof.
  destruct (@set_type_refines_set ex_env ex_env_ok (chars "12") 1 ex_ops) as (o & o' & E & Er & _).
  - unfold in_u. lia.
  - cbn [ops_ok ex_ops op_ok]. repeat (split; [first [exact I|apply (bool_decide_unpack _); vm_compute; exact I]|]). exact I.
  - simpl. lia.
  - exists o, o'. split; [exact E|]. rewrite Er.
    assert ((spec_ops ∅ ex_ops).2 = [1; 1; 1; 0; 3; 0; 1; 1; 1; 1; 4]) as -> by (vm_compute; reflexivity). reflexivity.
Defined.

Lemma set_iteration_visits_members_witness :
  let o := SetIntset (mk_intset 2 2 [5; 0; 249; 0]) in
  exists l, iterate_set (iter_fuel o) o (setTypeInitIterator o) = Some (o, l) /\
    NoDup (elem_str <$> l) /\ (list_to_set [chars "5"; chars "249"] : gset (list Z)) = list_to_set (elem_str <$> l).
Proof.
  apply (@set_iteration_visits_members ex_env ex_env_ok). exists [5; 249]. split; [|vm_compute; reflexivity].
  constructor; cbn; [by left|done|by vm_compute|repeat constructor; unfold in_s; lia|repeat constructor; lia|lia].
Defined.
