(* ===== verification/WarDb.v ===== *)
(** * The War card game: entities and repositories
    ([warcardgame]: [Models], [Enums], [Repositories])

    The entities of the game and the database behind the three Spring Data
    repositories.  The repositories are interfaces whose methods the framework
    implements over PostgreSQL: they are the class [Repositories], and what
    their documentation and the schema ([V1__CreateSchema.sql]) promise is the
    class [RepositoryLaws].  A reference from one entity to another is the id of
    the row.  No service method runs in a transaction, so every call works on
    entities of its own: what it returns is a snapshot, and only [save] and
    [delete] change the database.  [findAll] promises no order.  A heap of rows
    in which an updated row moves to the end implements the laws. *)

From Stdlib Require Import ZArith Lia ZifyBool.
From stdpp Require Import base gmap numbers option list strings sorting.
From S2P Require Import Prelude.

Local Open Scope Z_scope.

(** ** Entities *)

Record CardsEntity := Card {
  cardId : Z;
  name : string;
  suit : string;
  rank : Z;
  isPlayed : bool;
  dealOrder : Z;
  players : option Z
}.

Record PlayersEntity := Player {
  playerId : Z;
  username : string;
  sessionId : string
}.

Inductive GameState :=
  NEW_GAME | START_GAME | BATTLE | WAR | CARD_PLAYED | ROUND_WINNER | GAME_ENDED.

Record GameEntity := Game {
  gameId : Z;
  player1 : option Z;
  player2 : option Z;
  winner : option Z;
  gameState : GameState
}.

#[export] Instance CardsEntity_eq_dec : EqDecision CardsEntity.
Proof. solve_decision. Defined.
#[export] Instance PlayersEntity_eq_dec : EqDecision PlayersEntity.
Proof. solve_decision. Defined.
#[export] Instance GameState_eq_dec : EqDecision GameState.
Proof. solve_decision. Defined.
#[export] Instance GameEntity_eq_dec : EqDecision GameEntity.
Proof. solve_decision. Defined.

Definition setPlayed (c : CardsEntity) (b : bool) : CardsEntity :=
  Card (cardId c) (name c) (suit c) (rank c) b (dealOrder c) (players c).
Definition setDealOrder (c : CardsEntity) (i : Z) : CardsEntity :=
  Card (cardId c) (name c) (suit c) (rank c) (isPlayed c) i (players c).
Definition setPlayers (c : CardsEntity) (p : option Z) : CardsEntity :=
  Card (cardId c) (name c) (suit c) (rank c) (isPlayed c) (dealOrder c) p.

Definition setPlayer1 (g : GameEntity) (p : option Z) : GameEntity :=
  Game (gameId g) p (player2 g) (winner g) (gameState g).
Definition setPlayer2 (g : GameEntity) (p : option Z) : GameEntity :=
  Game (gameId g) (player1 g) p (winner g) (gameState g).
Definition setWinner (g : GameEntity) (p : option Z) : GameEntity :=
  Game (gameId g) (player1 g) (player2 g) p (gameState g).
Definition setGameState (g : GameEntity) (st : GameState) : GameEntity :=
  Game (gameId g) (player1 g) (player2 g) (winner g) st.

(** The exceptions the services meet. *)
Inductive exn :=
| NoSuchElementException
| NullPointerException
| IncorrectResultSizeDataAccessException
| DataIntegrityViolationException
| IndexOutOfBoundsException.

(** ** The repositories *)

Class Repositories (DB : Type) := {
  cards_findAll : DB -> list CardsEntity;
  findCardsByPlayers_PlayerIdOrderByDealOrder : DB -> Z -> list CardsEntity;
  cards_save : CardsEntity -> DB -> DB + exn;
  players_findById : DB -> Z -> option PlayersEntity;
  findPlayerBySessionId : DB -> string -> option PlayersEntity + exn;
  players_save : string -> string -> DB -> (PlayersEntity * DB) + exn;
  players_delete : Z -> DB -> DB + exn;
  games_findById : DB -> Z -> option GameEntity;
  games_insert : (Z -> GameEntity) -> DB -> (GameEntity * DB) + exn;
  games_save : GameEntity -> DB -> DB + exn;
  games_delete : Z -> DB -> DB
}.

(** A reference is null or the id of a row. *)
Definition ref_ok (ps : gmap Z PlayersEntity) (r : option Z) : Prop :=
  match r with Some p => is_Some (ps !! p) | None => True end.
#[export] Instance ref_ok_dec ps r : Decision (ref_ok ps r).
Proof. destruct r; apply _. Defined.

Definition game_refs_ok (ps : gmap Z PlayersEntity) (g : GameEntity) : Prop :=
  ref_ok ps (player1 g) /\ ref_ok ps (player2 g) /\ ref_ok ps (winner g).
#[export] Instance game_refs_ok_dec ps g : Decision (game_refs_ok ps g).
Proof. apply _. Defined.

(** Some card or game refers to the player. *)
Definition referenced (cs : gmap Z CardsEntity) (gs : gmap Z GameEntity) (p : Z) : Prop :=
  map_Exists (fun _ c => players c = Some p) cs \/
  map_Exists (fun _ g => player1 g = Some p \/ player2 g = Some p \/ winner g = Some p) gs.
#[export] Instance referenced_dec cs gs p : Decision (referenced cs gs p).
Proof. apply _. Defined.

(** The columns that hold a new player: [VARCHAR(50)] and [VARCHAR(64)]. *)
Definition fits (name session : string) : Prop :=
  (String.length name <= 50)%nat /\ (String.length session <= 64)%nat.

Definition by_session (ps : gmap Z PlayersEntity) (s : string) : list PlayersEntity :=
  filter (fun p => sessionId p = s) (snd <$> map_to_list ps).

(** The tables, and what the methods do to them.  The order of [findAll] and
    that of cards with the same deal order are left open. *)
Class RepositoryLaws (DB : Type) `{!Repositories DB} := {
  cards : DB -> gmap Z CardsEntity;
  all_players : DB -> gmap Z PlayersEntity;
  games : DB -> gmap Z GameEntity;
  cards_key db i c : cards db !! i = Some c -> cardId c = i;
  cards_findAll_law db : cards_findAll db ≡ₚ snd <$> map_to_list (cards db);
  hand_law db p :
    findCardsByPlayers_PlayerIdOrderByDealOrder db p ≡ₚ
      filter (fun c => players c = Some p) (snd <$> map_to_list (cards db)) /\
    Sorted (fun c c' => dealOrder c <= dealOrder c') (findCardsByPlayers_PlayerIdOrderByDealOrder db p);
  cards_save_law c db : is_Some (cards db !! cardId c) ->
    if decide (ref_ok (all_players db) (players c))
    then exists db', cards_save c db = inl db' /\ cards db' = <[cardId c := c]> (cards db) /\
      all_players db' = all_players db /\ games db' = games db
    else cards_save c db = inr DataIntegrityViolationException;
  players_findById_law db p : players_findById db p = all_players db !! p;
  players_key db i p : all_players db !! i = Some p -> playerId p = i;
  findPlayerBySessionId_law db s :
    findPlayerBySessionId db s =
      match by_session (all_players db) s with
      | [] => inl None
      | [p] => inl (Some p)
      | _ => inr IncorrectResultSizeDataAccessException
      end;
  players_save_law u s db :
    (fits u s -> exists i db', players_save u s db = inl (Player i u s, db') /\ all_players db !! i = None /\
      all_players db' = <[i := Player i u s]> (all_players db) /\ cards db' = cards db /\ games db' = games db) /\
    (~ fits u s -> players_save u s db = inr DataIntegrityViolationException);
  players_delete_law p db : is_Some (all_players db !! p) ->
    if decide (referenced (cards db) (games db) p) then players_delete p db = inr DataIntegrityViolationException
    else exists db', players_delete p db = inl db' /\ all_players db' = delete p (all_players db) /\
      cards db' = cards db /\ games db' = games db;
  games_findById_law db g : games_findById db g = games db !! g;
  games_key db i g : games db !! i = Some g -> gameId g = i;
  games_insert_law f db : (forall i, gameId (f i) = i) ->
    (forall i, game_refs_ok (all_players db) (f i)) ->
    exists i db', games_insert f db = inl (f i, db') /\ games db !! i = None /\
      games db' = <[i := f i]> (games db) /\ cards db' = cards db /\ all_players db' = all_players db;
  games_save_law g db : is_Some (games db !! gameId g) ->
    if decide (game_refs_ok (all_players db) g)
    then exists db', games_save g db = inl db' /\ games db' = <[gameId g := g]> (games db) /\
      cards db' = cards db /\ all_players db' = all_players db
    else games_save g db = inr DataIntegrityViolationException;
  games_delete_law g db :
    games (games_delete g db) = delete g (games db) /\
    cards (games_delete g db) = cards db /\ all_players (games_delete g db) = all_players db
}.

(** ** A heap that implements the laws *)

(** Rows keep the order in which they were last written, as in a table without
    an index; the key of a row is its id. *)
Record heap := Heap {
  card_rows : gmap Z CardsEntity;
  written : gmap Z Z;
  clock : Z;
  player_rows : gmap Z (string * string);
  game_rows : gmap Z GameEntity
}.

Definition heap_cards (h : heap) : gmap Z CardsEntity :=
  map_imap (fun i c => Some (Card i (name c) (suit c) (rank c) (isPlayed c) (dealOrder c) (players c))) (card_rows h).
Definition heap_players (h : heap) : gmap Z PlayersEntity :=
  map_imap (fun i p => Some (Player i (fst p) (snd p))) (player_rows h).
Definition heap_games (h : heap) : gmap Z GameEntity :=
  map_imap (fun i g => Some (Game i (player1 g) (player2 g) (winner g) (gameState g))) (game_rows h).

Definition stamp (h : heap) (c : CardsEntity) : Z := default 0 (written h !! cardId c).
Definition written_before (h : heap) (c c' : CardsEntity) : Prop := stamp h c <= stamp h c'.
Definition dealt_before (c c' : CardsEntity) : Prop := dealOrder c <= dealOrder c'.

#[export] Instance written_before_dec h c c' : Decision (written_before h c c').
Proof. unfold written_before. apply _. Defined.
#[export] Instance dealt_before_dec c c' : Decision (dealt_before c c').
Proof. unfold dealt_before. apply _. Defined.
#[export] Instance dealt_before_total : Total dealt_before.
Proof. intros c c'. unfold dealt_before. lia. Qed.

#[export] Instance heap_repositories : Repositories heap := {|
  cards_findAll h := merge_sort (written_before h) (snd <$> map_to_list (heap_cards h));
  findCardsByPlayers_PlayerIdOrderByDealOrder h p :=
    merge_sort dealt_before (filter (fun c => players c = Some p) (snd <$> map_to_list (heap_cards h)));
  cards_save c h :=
    if decide (ref_ok (heap_players h) (players c))
    then inl (Heap (<[cardId c := c]> (card_rows h)) (<[cardId c := clock h]> (written h)) (clock h + 1)
                (player_rows h) (game_rows h))
    else inr DataIntegrityViolationException;
  players_findById h p := heap_players h !! p;
  findPlayerBySessionId h s :=
    match by_session (heap_players h) s with
    | [] => inl None
    | [p] => inl (Some p)
    | _ => inr IncorrectResultSizeDataAccessException
    end;
  players_save u s h :=
    if decide (fits u s)
    then let i := fresh (dom (player_rows h)) in
      inl (Player i u s, Heap (card_rows h) (written h) (clock h) (<[i := (u, s)]> (player_rows h)) (game_rows h))
    else inr DataIntegrityViolationException;
  players_delete p h :=
    if decide (referenced (heap_cards h) (heap_games h) p) then inr DataIntegrityViolationException
    else inl (Heap (card_rows h) (written h) (clock h) (delete p (player_rows h)) (game_rows h));
  games_findById h g := heap_games h !! g;
  games_insert f h :=
    let i := fresh (dom (game_rows h)) in
    inl (f i, Heap (card_rows h) (written h) (clock h) (player_rows h) (<[i := f i]> (game_rows h)));
  games_save g h :=
    if decide (game_refs_ok (heap_players h) g)
    then inl (Heap (card_rows h) (written h) (clock h) (player_rows h) (<[gameId g := g]> (game_rows h)))
    else inr DataIntegrityViolationException;
  games_delete g h := Heap (card_rows h) (written h) (clock h) (player_rows h) (delete g (game_rows h))
|}.

Lemma imap_key {A B} (f : Z -> A -> B) (m : gmap Z A) i x :
  map_imap (fun i a => Some (f i a)) m !! i = Some x -> exists a, m !! i = Some a /\ x = f i a.
Proof. rewrite map_lookup_imap. destruct (m !! i) as [a|]; [|done]. intros [= <-]. by exists a. Qed.

Lemma imap_insert {A B} (f : Z -> A -> B) (m : gmap Z A) i a b : f i a = b ->
  map_imap (fun i a => Some (f i a)) (<[i := a]> m) = <[i := b]> (map_imap (fun i a => Some (f i a)) m).
Proof. intros <-. by rewrite map_imap_insert. Qed.

#[export] Program Instance heap_laws : RepositoryLaws heap := {|
  cards := heap_cards;
  all_players := heap_players;
  games := heap_games
|}.
Next Obligation. intros h i c Hc. by apply imap_key in Hc as (c' & _ & ->). Qed.
Next Obligation. intros h. apply merge_sort_Permutation. Qed.
Next Obligation.
  intros h p. split; [apply merge_sort_Permutation|].
  apply (Sorted_merge_sort dealt_before).
Qed.
Next Obligation.
  intros c h _. simpl. destruct (decide _); [|done]. eexists. split; [done|]. split; [|done].
  apply (imap_insert (fun i c => Card i (name c) (suit c) (rank c) (isPlayed c) (dealOrder c) (players c))). by destruct c.
Qed.
Next Obligation. done. Qed.
Next Obligation. intros h i p Hp. by apply imap_key in Hp as (p' & _ & ->). Qed.
Next Obligation. done. Qed.
Next Obligation.
  intros u s h. simpl. split; intros Hf; [|by rewrite decide_False].
  rewrite decide_True by done. eexists _, _. split; [done|]. split; [|split; [|done]].
  - apply eq_None_not_Some. intros [p Hp]. apply imap_key in Hp as (a & Ha & _).
    apply (is_fresh (dom (player_rows h))). by apply elem_of_dom_2 in Ha.
  - by apply (imap_insert (fun i p => Player i (fst p) (snd p))).
Qed.
Next Obligation.
  intros p h _. simpl. destruct (decide _); [done|]. eexists. split; [done|]. split; [|done].
  apply map_imap_delete.
Qed.
Next Obligation. done. Qed.
Next Obligation. intros h i g Hg. by apply imap_key in Hg as (g' & _ & ->). Qed.
Next Obligation.
  intros f h Hid _. simpl. eexists _, _. split; [done|]. split; [|split; [|done]].
  - apply eq_None_not_Some. intros [g Hg]. apply imap_key in Hg as (a & Ha & _).
    apply (is_fresh (dom (game_rows h))). by apply elem_of_dom_2 in Ha.
  - apply (imap_insert (fun i g => Game i (player1 g) (player2 g) (winner g) (gameState g))).
    specialize (Hid (fresh (dom (game_rows h)))). destruct (f _); simpl in *. by subst.
Qed.
Next Obligation.
  intros g h _. simpl. destruct (decide _); [|done]. eexists. split; [done|]. split; [|done].
  apply (imap_insert (fun i g => Game i (player1 g) (player2 g) (winner g) (gameState g))). by destruct g.
Qed.
Next Obligation. intros g h. split; [apply map_imap_delete|done]. Qed.
