(* ===== verification/War.v ===== *)
(** * The War card game: services and controllers
    ([warcardgame]: [Services], [Controllers], [DTO])

    The methods of [CardsService], [GameService], [PlayerService] and
    [GameController] over any database.  A method is a computation on the
    database, the fields of the one [CardsService] object that all games share,
    and the messages sent so far; an exception ends it and keeps what was
    changed before.  The recursion of [war] has fuel, which its callers choose
    from the number of cards.  [Collections.shuffle] is an argument of the
    methods that call it.  The field [allCards] of [CardsService] is always
    assigned before it is read, so it is local here. *)

From Stdlib Require Import ZArith Lia ZifyBool.
From stdpp Require Import base gmap numbers option list strings.
From S2P Require Import Prelude WarDb.

Local Open Scope Z_scope.

(** ** Requests, responses and messages *)

Record DealCardsResponse := DealResponse { dealt : list CardsEntity; deal_session : string }.
Record PlayCardResponse := PlayResponse { played : option CardsEntity; turn : bool; play_session : string }.
Record PlayCardRequest := PlayRequest { player1Id : Z; player2Id : Z; request_game : Z }.
Record JoinResponse := Joined { joined_game : option Z; joinedPlayerSessionId : string; isFound : bool }.
Record LeaveGameResponse := LeaveResponse {
  left_game : GameEntity; player1Session : option string; player2Session : option string }.

(** What is sent to the topics [capturedCards/player1], [capturedCards/player2],
    [game/war], [game/winner] and [updateGameAfterLeave]. *)
Inductive message :=
| CapturedCards1 (cs : list CardsEntity)
| CapturedCards2 (cs : list CardsEntity)
| WarOccurred
| GameWinner (who : string)
| UpdateGameAfterLeave (r : LeaveGameResponse).

(** ** State and computations *)

(** The fields of [CardsService]. *)
Record CardsService := Service {
  player1Turn : bool;
  player2Turn : bool;
  playedCard1 : option CardsEntity;
  playedCard2 : option CardsEntity;
  player1CapturedCards : list CardsEntity;
  player2CapturedCards : list CardsEntity
}.

Definition new_service : CardsService := Service true false None None [] [].

Record world (DB : Type) := World { db : DB; svc : CardsService; sent : list message }.
Arguments World {DB}.
Arguments db {DB}.
Arguments svc {DB}.
Arguments sent {DB}.

(** How a method ends; [Diverges] is the end of the fuel. *)
Inductive result (A : Type) := Ok (a : A) | Throw (e : exn) | Diverges.
Arguments Ok {A}.
Arguments Throw {A}.
Arguments Diverges {A}.

Definition M (DB A : Type) : Type := world DB -> result A * world DB.

#[export] Instance M_ret {DB} : MRet (M DB) := fun A a w => (Ok a, w).
#[export] Instance M_bind {DB} : MBind (M DB) := fun A B k m w =>
  match m w with
  | (Ok a, w) => k a w
  | (Throw e, w) => (Throw e, w)
  | (Diverges, w) => (Diverges, w)
  end.

Section Methods.
Context {DB : Type} `{Repositories DB}.

Definition throw {A} (e : exn) : M DB A := fun w => (Throw e, w).
Definition query {A} (f : DB -> A) : M DB A := fun w => (Ok (f (db w)), w).
Definition ask {A} (f : CardsService -> A) : M DB A := fun w => (Ok (f (svc w)), w).
Definition set_svc (f : CardsService -> CardsService) : M DB unit :=
  fun w => (Ok tt, World (db w) (f (svc w)) (sent w)).
Definition update (f : DB -> DB + exn) : M DB unit := fun w =>
  match f (db w) with inl d => (Ok tt, World d (svc w) (sent w)) | inr e => (Throw e, w) end.
Definition create {A} (f : DB -> (A * DB) + exn) : M DB A := fun w =>
  match f (db w) with inl (a, d) => (Ok a, World d (svc w) (sent w)) | inr e => (Throw e, w) end.
Definition convertAndSend (m : message) : M DB unit := fun w => (Ok tt, World (db w) (svc w) (sent w ++ [m])).

(** [Optional.get]. *)
Definition optional_get {A} (o : option A) : M DB A :=
  match o with Some a => mret a | None => throw NoSuchElementException end.

Definition find_session (s : string) : M DB (option PlayersEntity) :=
  r ← query (fun d => findPlayerBySessionId d s);
  match r with inl p => mret p | inr e => throw e end.

(** ** CardsService *)

(** The loop that deals [hand], from position [i] on. *)
Fixpoint deal_loop (i : Z) (player : option Z) (hand : list CardsEntity) : M DB (list CardsEntity) :=
  match hand with
  | [] => mret []
  | card :: hand =>
      let card := setPlayers (setDealOrder card i) player in
      update (cards_save card);;
      hand ← deal_loop (i + 1) player hand;
      mret (card :: hand)
  end.

Definition dealCards1 (shuffle : list CardsEntity -> list CardsEntity) (sessionId : string) : M DB DealCardsResponse :=
  allCards ← query cards_findAll;
  player1 ← find_session sessionId;
  let player1Cards := shuffle (take (length allCards / 2) allCards) in
  player1Cards ← deal_loop 0 (playerId <$> player1) player1Cards;
  mret (DealResponse player1Cards sessionId).

Definition dealCards2 (shuffle : list CardsEntity -> list CardsEntity) (sessionId : string) : M DB DealCardsResponse :=
  allCards ← query cards_findAll;
  player2 ← find_session sessionId;
  let player2Cards := shuffle (drop (length allCards / 2) allCards) in
  player2Cards ← deal_loop 0 (playerId <$> player2) player2Cards;
  mret (DealResponse player2Cards sessionId).

(** The first card that has not been played, with the cards around it. *)
Fixpoint first_unplayed (cards : list CardsEntity) : option (list CardsEntity * CardsEntity * list CardsEntity) :=
  match cards with
  | [] => None
  | card :: cards =>
      if negb (isPlayed card) then Some ([], card, cards)
      else '(before, c, after) ← first_unplayed cards; Some (card :: before, c, after)
  end.

Definition playCard1 (playerId : Z) : M DB (option PlayCardResponse) :=
  player1Cards ← query (fun d => findCardsByPlayers_PlayerIdOrderByDealOrder d playerId);
  optionalPlayer1 ← query (fun d => players_findById d playerId);
  player1 ← optional_get optionalPlayer1;
  turn ← ask player1Turn;
  if turn : bool then
    match first_unplayed player1Cards with
    | Some (_, card, _) =>
        let card := setPlayed card true in
        update (cards_save card);;
        set_svc (fun s => Service false true (Some card) (playedCard2 s)
                            (player1CapturedCards s) (player2CapturedCards s));;
        mret (Some (PlayResponse (Some card) true (sessionId player1)))
    | None => mret None
    end
  else mret (Some (PlayResponse None false (sessionId player1))).

Definition drawNextCard (playerId : Z) : M DB (option CardsEntity) :=
  playerCards ← query (fun d => findCardsByPlayers_PlayerIdOrderByDealOrder d playerId);
  match first_unplayed playerCards with
  | Some (_, card, _) =>
      let card := setPlayed card true in
      update (cards_save card);;
      mret (Some card)
  | None => mret None
  end.

(** The winner is set on the entity that was loaded, which is not saved. *)
Definition declareWinner (gameId player1Id player2Id : Z) : M DB string :=
  optionalGame ← query (fun d => games_findById d gameId);
  optionalPlayer1 ← query (fun d => players_findById d player1Id);
  optionalPlayer2 ← query (fun d => players_findById d player2Id);
  game ← optional_get optionalGame;
  player1 ← optional_get optionalPlayer1;
  player2 ← optional_get optionalPlayer2;
  captured1 ← ask player1CapturedCards;
  captured2 ← ask player2CapturedCards;
  if (length captured2 <? length captured1)%nat
  then let game := setWinner game (Some (playerId player1)) in mret (username player1)
  else if (length captured1 <? length captured2)%nat
  then let game := setWinner game (Some (playerId player2)) in mret (username player2)
  else mret "It was a tie"%string.

(** [player1CapturedCards.addAll(cs)] and the message with the list. *)
Definition capture1 (cs : list CardsEntity) : M DB unit :=
  set_svc (fun s => Service (player1Turn s) (player2Turn s) (playedCard1 s) (playedCard2 s)
                      (player1CapturedCards s ++ cs) (player2CapturedCards s));;
  captured ← ask player1CapturedCards;
  convertAndSend (CapturedCards1 captured).

Definition capture2 (cs : list CardsEntity) : M DB unit :=
  set_svc (fun s => Service (player1Turn s) (player2Turn s) (playedCard1 s) (playedCard2 s)
                      (player1CapturedCards s) (player2CapturedCards s ++ cs));;
  captured ← ask player2CapturedCards;
  convertAndSend (CapturedCards2 captured).

Definition declareWinnerAndAddWarCards (gameId player1Id player2Id : Z) (warCards : list CardsEntity) : M DB unit :=
  winner ← declareWinner gameId player1Id player2Id;
  optionalPlayer1 ← query (fun d => players_findById d player1Id);
  optionalPlayer2 ← query (fun d => players_findById d player2Id);
  player1 ← optional_get optionalPlayer1;
  player2 ← optional_get optionalPlayer2;
  (if bool_decide (winner = username player1) then capture1 warCards
   else if bool_decide (winner = username player2) then capture2 warCards
   else mret tt);;
  convertAndSend WarOccurred;;
  convertAndSend (GameWinner winner).

(** The loop that draws the cards of a war: the cards, and the player who had
    none left, if any (true for the first). *)
Fixpoint war_draws (n : nat) (player1Id player2Id : Z) (warCards : list CardsEntity) :
    M DB (list CardsEntity * option bool) :=
  match n with
  | O => mret (warCards, None)
  | S n =>
      additionalCard1 ← drawNextCard player1Id;
      match additionalCard1 with
      | None => mret (warCards, Some true)
      | Some c1 =>
          let warCards := warCards ++ [c1] in
          additionalCard2 ← drawNextCard player2Id;
          match additionalCard2 with
          | None => mret (warCards, Some false)
          | Some c2 => war_draws n player1Id player2Id (warCards ++ [c2])
          end
      end
  end.

Definition card_at (cs : list CardsEntity) (i : Z) : M DB CardsEntity :=
  match (if i <? 0 then None else cs !! Z.to_nat i) with
  | Some c => mret c
  | None => throw IndexOutOfBoundsException
  end.

(** A card field that must not be null. *)
Definition played_card (f : CardsService -> option CardsEntity) : M DB CardsEntity :=
  c ← ask f; match c with Some c => mret c | None => throw NullPointerException end.

Fixpoint war (fuel : nat) (player1Id player2Id gameId : Z) : M DB unit :=
  match fuel with
  | O => fun w => (Diverges, w)
  | S fuel =>
      c1 ← played_card playedCard1;
      c2 ← played_card playedCard2;
      '(warCards, out) ← war_draws 3 player1Id player2Id [c1; c2];
      match out with
      | Some true =>
          declareWinnerAndAddWarCards gameId player1Id player2Id warCards;;
          convertAndSend WarOccurred
      | Some false => declareWinnerAndAddWarCards gameId player1Id player2Id warCards
      | None =>
          lastCard1 ← card_at warCards (Z.of_nat (length warCards) - 2);
          lastCard2 ← card_at warCards (Z.of_nat (length warCards) - 1);
          if rank lastCard1 >? rank lastCard2 then capture1 warCards
          else if rank lastCard1 <? rank lastCard2 then capture2 warCards
          else convertAndSend WarOccurred;; war fuel player1Id player2Id gameId
      end
  end.

Definition gameRound (fuel : nat) (player1Id player2Id gameId : Z) : M DB unit :=
  c1 ← played_card playedCard1;
  c2 ← played_card playedCard2;
  if rank c1 >? rank c2 then capture1 [c1; c2]
  else if rank c1 <? rank c2 then capture2 [c1; c2]
  else convertAndSend WarOccurred;; war fuel player1Id player2Id gameId.

Fixpoint allCardsPlayed (allCards : list CardsEntity) : bool :=
  match allCards with
  | [] => true
  | card :: allCards => if negb (isPlayed card) then false else allCardsPlayed allCards
  end.

(** [player2Cards] is the list as it was loaded, with the one card played. *)
Definition playCard2 (r : PlayCardRequest) : M DB (option PlayCardResponse) :=
  let gameId := request_game r in
  player2Cards ← query (fun d => findCardsByPlayers_PlayerIdOrderByDealOrder d (player2Id r));
  optionalPlayer2 ← query (fun d => players_findById d (player2Id r));
  player2 ← optional_get optionalPlayer2;
  turn ← ask player2Turn;
  if turn : bool then
    match first_unplayed player2Cards with
    | Some (before, card, after) =>
        let card := setPlayed card true in
        update (cards_save card);;
        set_svc (fun s => Service (player1Turn s) (player2Turn s) (playedCard1 s) (Some card)
                            (player1CapturedCards s) (player2CapturedCards s));;
        fuel ← query (fun d => S (length (cards_findAll d)));
        gameRound fuel (player1Id r) (player2Id r) gameId;;
        set_svc (fun s => Service true false (playedCard1 s) (playedCard2 s)
                            (player1CapturedCards s) (player2CapturedCards s));;
        (if allCardsPlayed (before ++ card :: after) then
           winner ← declareWinner gameId (player1Id r) (player2Id r);
           convertAndSend (GameWinner winner)
         else mret tt);;
        mret (Some (PlayResponse (Some card) true (sessionId player2)))
    | None => mret None
    end
  else mret (Some (PlayResponse None false (sessionId player2))).

Definition resetTurn : M DB unit :=
  set_svc (fun s => Service true false (playedCard1 s) (playedCard2 s)
                      (player1CapturedCards s) (player2CapturedCards s)).

Definition resetCapturedCards : M DB unit :=
  set_svc (fun s => Service (player1Turn s) (player2Turn s) (playedCard1 s) (playedCard2 s) [] []).

(** ** PlayerService and GameService *)

Definition createNewPlayer (username sessionId : string) : M DB PlayersEntity :=
  create (players_save username sessionId).

Definition createNewGame (player1 : PlayersEntity) : M DB GameEntity :=
  create (games_insert (fun i => Game i (Some (playerId player1)) None None NEW_GAME)).

(** [None] is the null result. *)
Definition service_joinGame (gameId : Z) (p2 : PlayersEntity) : M DB (option GameEntity) :=
  optionalGame ← query (fun d => games_findById d gameId);
  match optionalGame with
  | Some game =>
      match player1 game, player2 game with
      | Some _, None =>
          let game := setPlayer2 game (Some (playerId p2)) in
          update (games_save game);;
          mret (Some game)
      | _, _ => mret None
      end
  | None => mret None
  end.

Definition reDealCards (shuffle : list CardsEntity -> list CardsEntity) (p1 p2 : option Z) : M DB unit :=
  allCards ← query cards_findAll;
  let allCards := shuffle ((fun c => setPlayed (setPlayers c None) false) <$> allCards) in
  let player1Cards := take (length allCards / 2) allCards in
  let player2Cards := drop (length allCards / 2) allCards in
  deal_loop 0 p1 player1Cards;;
  deal_loop 0 p2 player2Cards;;
  mret tt.

Definition service_leaveGame (shuffle : list CardsEntity -> list CardsEntity) (gameId : Z) (session : string) :
    M DB unit :=
  optionalGame ← query (fun d => games_findById d gameId);
  player ← find_session session;
  match optionalGame, player with
  | Some game, Some player =>
      game ←
        (if bool_decide (player1 game = Some (playerId player)) then
           let game := setPlayer1 game None in
           let game := setWinner game (player2 game) in
           reDealCards shuffle (player1 game) (player2 game);;
           mret game
         else if bool_decide (player2 game = Some (playerId player)) then
           let game := setPlayer2 game None in
           let game := setWinner game (player1 game) in
           reDealCards shuffle (player1 game) (player2 game);;
           mret game
         else mret game);
      (if bool_decide (player1 game = None) && bool_decide (player2 game = None)
       then update (fun d => inl (games_delete (WarDb.gameId game) d))
       else update (games_save (setGameState game GAME_ENDED)));;
      update (players_delete (playerId player));;
      resetTurn;;
      resetCapturedCards
  | _, _ => mret tt
  end.

(** ** GameController *)

Definition createGameAndPlayer (username sessionId : string) : M DB (Z * string) :=
  player1 ← createNewPlayer username sessionId;
  newGame ← createNewGame player1;
  mret (WarDb.gameId newGame, sessionId).

Definition joinGame (gameId : Z) (username sessionId : string) : M DB JoinResponse :=
  checkGame ← query (fun d => games_findById d gameId);
  match checkGame with
  | Some _ =>
      player2 ← createNewPlayer username sessionId;
      game ← service_joinGame gameId player2;
      match game with
      | Some game => mret (Joined (Some (WarDb.gameId game)) sessionId true)
      | None => throw NullPointerException
      end
  | None => mret (Joined None sessionId false)
  end.

(** A field of the player a reference leads to. *)
Definition player_field {A} (f : PlayersEntity -> A) (r : option Z) : M DB (option A) :=
  query (fun d => p ← r; q ← players_findById d p; Some (f q)).

Definition leaveGame (shuffle : list CardsEntity -> list CardsEntity) (gameId : Z) (session : string) : M DB unit :=
  service_leaveGame shuffle gameId session;;
  game ← query (fun d => games_findById d gameId);
  match game with
  | Some gameEntity =>
      player1Session ← player_field sessionId (player1 gameEntity);
      player2Session ← player_field sessionId (player2 gameEntity);
      convertAndSend (UpdateGameAfterLeave (LeaveResponse gameEntity player1Session player2Session))
  | None => mret tt
  end.

(** The page of a game: its attributes, or "gameNotFound". *)
Record GamePage := Page {
  page_game : Z;
  player1Username : option string;
  player2Username : option string;
  page_session1 : option string;
  page_session2 : option string;
  page_player1 : option Z;
  page_player2 : option Z;
  version : Z
}.

Definition gamePlayPage (number gameId : Z) : M DB (option GamePage) :=
  optionalGame ← query (fun d => games_findById d gameId);
  match optionalGame with
  | Some game =>
      u1 ← player_field username (player1 game);
      u2 ← player_field username (player2 game);
      s1 ← player_field sessionId (player1 game);
      s2 ← player_field sessionId (player2 game);
      match player1 game with
      | Some p1 => mret (Some (Page gameId u1 u2 s1 s2 (Some p1) (player2 game) number))
      | None => throw NullPointerException
      end
  | None => mret None
  end.
End Methods.
