(* ===== verification/WarGame.v ===== *)
(** * The War card game: the game the services play

    The rules as the services implement them, on the hands and the piles of the
    two players ([table]), and the proof that [playCard1] and [playCard2], over
    any database that keeps the repository laws, play exactly this game. *)

From Stdlib Require Import ZArith Lia ZifyBool.
From stdpp Require Import base gmap numbers option list strings sorting.
From S2P Require Import Prelude WarDb War.

Local Open Scope Z_scope.

(** ** The rules *)

(** The hands (cards not played yet, in the order of dealing), whose turn it
    is, the card the first player has played last, and the captured cards. *)
Record table := Table {
  hand1 : list CardsEntity;
  hand2 : list CardsEntity;
  turn1 : bool;
  open : option CardsEntity;
  pile1 : list CardsEntity;
  pile2 : list CardsEntity
}.

Notation mark c := (setPlayed c true).

(** The cards of a war, and the hands after it: [n] cards of each player in
    turn, until a player has none left (true for the first). *)
Fixpoint draws (n : nat) (h1 h2 : list CardsEntity) :
    list CardsEntity * option bool * list CardsEntity * list CardsEntity :=
  match n with
  | O => ([], None, h1, h2)
  | S n =>
      match h1, h2 with
      | [], _ => ([], Some true, h1, h2)
      | a :: h1, [] => ([mark a], Some false, h1, [])
      | a :: h1, b :: h2 =>
          let '(cs, out, h1, h2) := draws n h1 h2 in (mark a :: mark b :: cs, out, h1, h2)
      end
  end.

(** How a war ends: a player takes the cards, or a player cannot draw. *)
Inductive outcome := Takes (first : bool) | RunsOut (first : bool).

(** The two cards that started the war, the cards drawn, and so on: how many
    times the war was repeated, the cards of the last one, the outcome and the
    hands.  The recursion is on a bound of the hands. *)
Fixpoint wars (n : nat) (c1 c2 : CardsEntity) (h1 h2 : list CardsEntity) :
    nat * list CardsEntity * outcome * list CardsEntity * list CardsEntity :=
  let '(cs, out, h1', h2') := draws 3 h1 h2 in
  match out with
  | Some first => (O, c1 :: c2 :: cs, RunsOut first, h1', h2')
  | None =>
      match cs with
      | [_; _; _; _; l1; l2] =>
          if rank l1 >? rank l2 then (O, c1 :: c2 :: cs, Takes true, h1', h2')
          else if rank l1 <? rank l2 then (O, c1 :: c2 :: cs, Takes false, h1', h2')
          else match n with
               | O => (O, c1 :: c2 :: cs, RunsOut true, h1', h2')
               | S n => let '(k, cs, o, h1, h2) := wars n c1 c2 h1' h2' in (S k, cs, o, h1, h2)
               end
      | _ => (O, c1 :: c2 :: cs, RunsOut true, h1', h2')
      end
  end.

Lemma wars_eq n c1 c2 h1 h2 :
  wars n c1 c2 h1 h2 =
    let '(cs, out, h1', h2') := draws 3 h1 h2 in
    match out with
    | Some first => (O, c1 :: c2 :: cs, RunsOut first, h1', h2')
    | None =>
        match cs with
        | [_; _; _; _; l1; l2] =>
            if rank l1 >? rank l2 then (O, c1 :: c2 :: cs, Takes true, h1', h2')
            else if rank l1 <? rank l2 then (O, c1 :: c2 :: cs, Takes false, h1', h2')
            else match n with
                 | O => (O, c1 :: c2 :: cs, RunsOut true, h1', h2')
                 | S n => let '(k, cs, o, h1, h2) := wars n c1 c2 h1' h2' in (S k, cs, o, h1, h2)
                 end
        | _ => (O, c1 :: c2 :: cs, RunsOut true, h1', h2')
        end
    end.
Proof. by destruct n. Qed.

(** Who has captured more. *)
Definition leader (n1 n2 : string) (p1 p2 : list CardsEntity) : string :=
  if (length p2 <? length p1)%nat then n1
  else if (length p1 <? length p2)%nat then n2
  else "It was a tie".

Section Rules.
Context (P1 P2 : PlayersEntity).
Notation n1 := (username P1).
Notation n2 := (username P2).

(** The piles and the messages after a war. *)
Definition war_end (cs : list CardsEntity) (o : outcome) (p1 p2 : list CardsEntity) :
    list CardsEntity * list CardsEntity * list message :=
  match o with
  | Takes true => (p1 ++ cs, p2, [CapturedCards1 (p1 ++ cs)])
  | Takes false => (p1, p2 ++ cs, [CapturedCards2 (p2 ++ cs)])
  | RunsOut first =>
      let who := leader n1 n2 p1 p2 in
      let '(q1, q2, ms) :=
        if bool_decide (who = n1) then (p1 ++ cs, p2, [CapturedCards1 (p1 ++ cs)])
        else if bool_decide (who = n2) then (p1, p2 ++ cs, [CapturedCards2 (p2 ++ cs)])
        else (p1, p2, []) in
      (q1, q2, ms ++ [WarOccurred; GameWinner who] ++ (if first : bool then [WarOccurred] else []))
  end.

(** A round: the second player answers [c1] with [c2]. *)
Definition round (c1 c2 : CardsEntity) (h1 h2 p1 p2 : list CardsEntity) :
    list CardsEntity * list CardsEntity * list CardsEntity * list CardsEntity * list message :=
  if rank c1 >? rank c2 then (h1, h2, p1 ++ [c1; c2], p2, [CapturedCards1 (p1 ++ [c1; c2])])
  else if rank c1 <? rank c2 then (h1, h2, p1, p2 ++ [c1; c2], [CapturedCards2 (p2 ++ [c1; c2])])
  else
    let '(k, cs, o, h1', h2') := wars (length h1) c1 c2 h1 h2 in
    let '(q1, q2, ms) := war_end cs o p1 p2 in
    (h1', h2', q1, q2, replicate (S k) WarOccurred ++ ms).

Inductive move := Play1 | Play2.

(** A move: the table, the response (null when there is no card left) and the
    messages.  The winner is announced when the card just played was the last
    of the hand before the round. *)
Definition step (t : table) (m : move) : table * option PlayCardResponse * list message :=
  match m with
  | Play1 =>
      if turn1 t then
        match hand1 t with
        | c :: h => (Table h (hand2 t) false (Some (mark c)) (pile1 t) (pile2 t),
                     Some (PlayResponse (Some (mark c)) true (sessionId P1)), [])
        | [] => (t, None, [])
        end
      else (t, Some (PlayResponse None false (sessionId P1)), [])
  | Play2 =>
      if turn1 t then (t, Some (PlayResponse None false (sessionId P2)), [])
      else
        match hand2 t, open t with
        | c :: h, Some c1 =>
            let '(h1, h2, p1, p2, ms) := round c1 (mark c) (hand1 t) h (pile1 t) (pile2 t) in
            (Table h1 h2 true (open t) p1 p2,
             Some (PlayResponse (Some (mark c)) true (sessionId P2)),
             ms ++ match h with [] => [GameWinner (leader n1 n2 p1 p2)] | _ => [] end)
        | _, _ => (t, None, [])
        end
  end.

Fixpoint steps (t : table) (ms : list move) : table * list (option PlayCardResponse) * list message :=
  match ms with
  | [] => (t, [], [])
  | m :: ms =>
      let '(t, r, out) := step t m in
      let '(t, rs, outs) := steps t ms in
      (t, r :: rs, out ++ outs)
  end.
End Rules.

(** ** Hands in the database *)

Notation unplayed c := (isPlayed c = false).

Section Hands.
Context {DB : Type} `{RepositoryLaws DB}.

Notation owned d p := (findCardsByPlayers_PlayerIdOrderByDealOrder d p).

(** The cards of a player that have not been played, in the order of dealing. *)
Definition hand (d : DB) (p : Z) : list CardsEntity := filter (fun c => unplayed c) (owned d p).

(** No two cards of the player have the same place in the order. *)
Definition ordered (d : DB) (p : Z) : Prop :=
  forall c c', c ∈ owned d p -> c' ∈ owned d p -> dealOrder c = dealOrder c' -> c = c'.

Lemma elem_of_owned d p c : c ∈ owned d p <-> cards d !! cardId c = Some c /\ players c = Some p.
Proof.
  destruct (hand_law d p) as [Hp _]. rewrite Hp, list_elem_of_filter, list_elem_of_fmap. split.
  - intros [Hpl ((i & c') & -> & Hin)]. apply elem_of_map_to_list in Hin. simpl.
    pose proof (cards_key _ _ _ Hin) as E. simpl in *. subst. done.
  - intros [Hc Hpl]. split; [done|]. exists (cardId c, c). split; [done|]. by apply elem_of_map_to_list.
Qed.

Lemma owned_sorted d p : StronglySorted dealt_before (owned d p).
Proof. apply Sorted_StronglySorted; [intros x y z; unfold dealt_before; lia|]. apply (hand_law d p). Qed.

Lemma owned_NoDup d p : NoDup (owned d p).
Proof.
  destruct (hand_law d p) as [Hp _]. rewrite Hp. clear Hp. apply NoDup_filter. apply NoDup_fmap_2_strong; [|apply NoDup_map_to_list].
  intros [i c] [j c'] Hi Hj. apply elem_of_map_to_list in Hi, Hj. simpl. intros <-.
  by rewrite <- (cards_key _ _ _ Hi), <- (cards_key _ _ _ Hj).
Qed.

(** The list of the cards of a player is determined by its elements. *)
Lemma owned_unique d p l : ordered d p -> StronglySorted dealt_before l -> NoDup l ->
  (forall c, c ∈ l <-> c ∈ owned d p) -> owned d p = l.
Proof.
  intros Ho Hs Hn Hin. apply (StronglySorted_unique_strong dealt_before); [|apply owned_sorted|done|].
  - intros x y Hx Hy H1 H2. apply Hin in Hy. apply Ho; [done..|]. unfold dealt_before in *. lia.
  - apply NoDup_Permutation; [apply owned_NoDup|done|]. intros c. by rewrite Hin.
Qed.

(** [d'] is [d] with the card [c] played. *)
Record plays_card (d : DB) (c : CardsEntity) (d' : DB) : Prop := {
  plays_cards : cards d' = <[cardId c := mark c]> (cards d);
  plays_players : all_players d' = all_players d;
  plays_games : games d' = games d
}.

Lemma plays_elem d p c d' x : cards d !! cardId c = Some c -> plays_card d c d' ->
  x ∈ owned d' p <-> (x = mark c /\ players c = Some p) \/ (x <> mark c /\ x <> c /\ x ∈ owned d p).
Proof.
  intros Hc [Hcs _ _]. rewrite !elem_of_owned, Hcs. destruct (decide (cardId x = cardId c)) as [E|E].
  - rewrite E, lookup_insert, Hc, decide_True by done. split.
    + intros [[= <-] Hp]. by left.
    + intros [[-> Hp]|(_ & Hne & Hx & _)]; [done|]. simplify_eq.
  - rewrite lookup_insert_ne by done. split.
    + intros [Hx Hp]. right. split; [intros ->; by destruct E|]. split; [intros ->; by destruct E|done].
    + intros [[-> _]|(_ & _ & Hx)]; [by destruct E|done].
Qed.

Lemma plays_ordered d p c d' : cards d !! cardId c = Some c -> plays_card d c d' -> ordered d p -> ordered d' p.
Proof.
  intros Hc Hd Ho x y. rewrite !(plays_elem d p c d') by done.
  intros [[-> Hx]|(_ & Hx1 & Hx)] [[-> Hy]|(_ & Hy1 & Hy)] E; [done|..]; simpl in E.
  - destruct Hy1. symmetry. apply Ho; [by apply elem_of_owned|done..].
  - destruct Hx1. apply Ho; [done|by apply elem_of_owned|done].
  - by apply Ho.
Qed.

Lemma sorted_mark l1 c l2 : StronglySorted dealt_before (l1 ++ c :: l2) -> StronglySorted dealt_before (l1 ++ mark c :: l2).
Proof.
  induction l1 as [|x l1 IH]; simpl; intros Hs; inversion_clear Hs as [|? ? Hs' Hf]; constructor; [done..| |].
  - by apply IH.
  - rewrite Forall_app, Forall_cons in *. done.
Qed.

(** Playing the card of one player leaves the other's cards. *)
Lemma owned_other d p c d' : cards d !! cardId c = Some c -> plays_card d c d' -> players c <> Some p ->
  ordered d p -> owned d' p = owned d p.
Proof.
  intros Hc Hd Hp Ho. apply owned_unique; [by eapply plays_ordered|apply owned_sorted|apply owned_NoDup|].
  intros x. rewrite (plays_elem d p c d') by done. split; [|intros [[_ ?]|(_ & _ & Hx)]; done].
  intros Hx. right. apply elem_of_owned in Hx as Hx'. destruct Hx' as [_ Hx'].
  split; [intros ->; by apply Hp|]. split; [intros ->; by apply Hp|done].
Qed.

Lemma owned_played d p c d' l1 l2 : plays_card d c d' -> isPlayed c = false -> ordered d p ->
  owned d p = l1 ++ c :: l2 -> owned d' p = l1 ++ mark c :: l2.
Proof.
  intros Hd Hu Ho E. assert (Hin : c ∈ owned d p) by (rewrite E; set_solver).
  pose proof (proj1 (elem_of_owned d p c) Hin) as [Hc Hp].
  pose proof (owned_NoDup d p) as Hn. pose proof (owned_sorted d p) as Hs. rewrite E in Hn, Hs.
  assert (Hmk : forall x, x ∈ l1 ++ l2 -> x <> mark c /\ x <> c).
  { intros x Hx. apply NoDup_app in Hn as (_ & Hd1 & Hn2). apply NoDup_cons in Hn2 as [Hd2 _].
    assert (Hxc : x <> c) by (intros ->; set_solver). split; [|done]. intros ->. apply Hxc.
    apply Ho; [rewrite E; set_solver|done|done]. }
  apply owned_unique; [by eapply plays_ordered|by apply sorted_mark| |].
  - apply NoDup_app in Hn as (Hn1 & Hd1 & Hn2). apply NoDup_cons in Hn2 as [Hd2 Hn2]. apply NoDup_app.
    split; [done|]. split; [|apply NoDup_cons; split; [|done]].
    + intros x Hx. destruct (Hmk x) as [Hx1 _]; [set_solver|]. set_solver.
    + intros Hx. by destruct (Hmk (mark c)) as [[] _]; [set_solver|].
  - intros x. rewrite (plays_elem d p c d') by done. rewrite E. split.
    + intros Hx. assert (x = mark c \/ x ∈ l1 ++ l2) as [->|Hx'] by set_solver; [by left|].
      destruct (Hmk x Hx'). right. set_solver.
    + intros [[-> _]|(_ & Hx1 & Hx)]; set_solver.
Qed.

Lemma first_unplayed_spec l :
  match filter (fun c => unplayed c) l with
  | [] => first_unplayed l = None
  | c :: h => exists l1 l2, first_unplayed l = Some (l1, c, l2) /\ l = l1 ++ c :: l2 /\ isPlayed c = false /\
      filter (fun c => unplayed c) l1 = [] /\ filter (fun c => unplayed c) l2 = h
  end.
Proof.
  induction l as [|x l IH]; [done|]. rewrite filter_cons. simpl first_unplayed.
  destruct (isPlayed x) eqn:Hx; cbn [negb].
  - rewrite decide_False by done. destruct (filter (fun c => unplayed c) l) as [|c h]; [by rewrite IH|].
    destruct IH as (l1 & l2 & -> & -> & Hc & H1 & H2). exists (x :: l1), l2. split; [done|]. split; [done|].
    split; [done|]. split; [|done]. rewrite filter_cons, decide_False by congruence. done.
  - rewrite decide_True by done. by exists [], l.
Qed.

Lemma hand_elem d p c : c ∈ hand d p -> isPlayed c = false /\ cards d !! cardId c = Some c /\ players c = Some p.
Proof. unfold hand. rewrite list_elem_of_filter, elem_of_owned. done. Qed.

Lemma hand_other d p c d' : cards d !! cardId c = Some c -> plays_card d c d' -> players c <> Some p ->
  ordered d p -> hand d' p = hand d p.
Proof. intros. unfold hand. by erewrite owned_other. Qed.

Lemma hand_played d p c h d' : plays_card d c d' -> ordered d p -> hand d p = c :: h -> hand d' p = h.
Proof.
  intros Hd Ho E. pose proof (first_unplayed_spec (owned d p)) as Hf. unfold hand in *. rewrite E in Hf.
  destruct Hf as (l1 & l2 & _ & El & Hc & H1 & H2). rewrite (owned_played d p c d' l1 l2 Hd Hc Ho El).
  rewrite filter_app, filter_cons, H1, decide_False by done. done.
Qed.

Lemma save_plays d p c : cards d !! cardId c = Some c -> players c = Some p -> is_Some (all_players d !! p) ->
  exists d', cards_save (mark c) d = inl d' /\ plays_card d c d'.
Proof.
  intros Hc Hp Hr. pose proof (cards_save_law (mark c) d) as Hs. simpl in Hs. rewrite Hp, decide_True in Hs by done.
  destruct Hs as (d' & E & H1 & H2 & H3); [by rewrite Hc|]. by exists d'.
Qed.
End Hands.

(** ** Computations *)

Section Run.
Context {DB : Type} `{RepositoryLaws DB}.

Lemma bind_ok {A B} (m : M DB A) (k : A -> M DB B) w a w1 : m w = (Ok a, w1) -> (x ← m; k x) w = k a w1.
Proof. unfold mbind, M_bind. by intros ->. Qed.

Lemma optional_some {A} (a : A) (w : world DB) : optional_get (Some a) w = (Ok a, w).
Proof. done. Qed.

(** The players, their game and their hands are in the database. *)
Record seated (p1 p2 g : Z) (G : GameEntity) (P1 P2 : PlayersEntity) (d : DB) (h1 h2 : list CardsEntity) : Prop := {
  seat_ne : p1 <> p2;
  seat_1 : all_players d !! p1 = Some P1;
  seat_2 : all_players d !! p2 = Some P2;
  seat_g : games d !! g = Some G;
  seat_o1 : ordered d p1;
  seat_o2 : ordered d p2;
  seat_h1 : hand d p1 = h1;
  seat_h2 : hand d p2 = h2
}.

Lemma seated_draw1 p1 p2 g G P1 P2 d c h1 h2 : seated p1 p2 g G P1 P2 d (c :: h1) h2 ->
  exists d', cards_save (mark c) d = inl d' /\ seated p1 p2 g G P1 P2 d' h1 h2.
Proof.
  intros [Hne H1 H2 Hg Ho1 Ho2 E1 E2]. destruct (hand_elem d p1 c) as (Hu & Hc & Hp); [rewrite E1; set_solver|].
  destruct (save_plays d p1 c Hc Hp) as (d' & E & Hd); [by rewrite H1|]. exists d'. split; [done|].
  pose proof Hd as [_ Hpl Hgm]. constructor; rewrite ?Hpl, ?Hgm; try done; try by eapply plays_ordered.
  - by eapply hand_played.
  - rewrite <- E2. eapply hand_other; [done..| |done]. congruence.
Qed.

Lemma seated_draw2 p1 p2 g G P1 P2 d c h1 h2 : seated p1 p2 g G P1 P2 d h1 (c :: h2) ->
  exists d', cards_save (mark c) d = inl d' /\ seated p1 p2 g G P1 P2 d' h1 h2.
Proof.
  intros [Hne H1 H2 Hg Ho1 Ho2 E1 E2].
  destruct (seated_draw1 p2 p1 g G P2 P1 d c h2 h1) as (d' & E & []); [by constructor|]. by exists d'.
Qed.

Lemma drawNextCard_run p c h (w : world DB) d' : hand (db w) p = c :: h -> cards_save (mark c) (db w) = inl d' ->
  drawNextCard p w = (Ok (Some (mark c)), World d' (svc w) (sent w)).
Proof.
  intros E Es. pose proof (first_unplayed_spec (findCardsByPlayers_PlayerIdOrderByDealOrder (db w) p)) as Hf.
  unfold hand in E. rewrite E in Hf. destruct Hf as (l1 & l2 & Ef & _). unfold drawNextCard.
  erewrite bind_ok; [|done]. cbv beta. rewrite Ef. unfold update, mbind, M_bind. by rewrite Es.
Qed.

Lemma drawNextCard_none p (w : world DB) : hand (db w) p = [] -> drawNextCard p w = (Ok None, w).
Proof.
  intros E. pose proof (first_unplayed_spec (findCardsByPlayers_PlayerIdOrderByDealOrder (db w) p)) as Hf.
  unfold hand in E. rewrite E in Hf. unfold drawNextCard. erewrite bind_ok; [|done]. cbv beta. by rewrite Hf.
Qed.

(** The draws of a war. *)
Lemma war_draws_run p1 p2 g G P1 P2 n : forall w acc h1 h2 cs out h1' h2',
  seated p1 p2 g G P1 P2 (db w) h1 h2 -> draws n h1 h2 = (cs, out, h1', h2') ->
  exists d', war_draws n p1 p2 acc w = (Ok (acc ++ cs, out), World d' (svc w) (sent w)) /\
    seated p1 p2 g G P1 P2 d' h1' h2'.
Proof.
  induction n as [|n IH]; intros w acc h1 h2 cs out h1' h2' Hs E; simpl in E.
  { simplify_eq. exists (db w). rewrite app_nil_r. by destruct w. }
  cbn [war_draws]. destruct h1 as [|a h1].
  { simplify_eq. exists (db w). erewrite bind_ok; [|by apply drawNextCard_none, Hs].
    rewrite app_nil_r. by destruct w. }
  destruct (seated_draw1 _ _ _ _ _ _ _ _ _ _ Hs) as (d1 & E1 & Hs1).
  erewrite bind_ok; [|by eapply drawNextCard_run; [apply Hs|]]. destruct h2 as [|b h2].
  { simplify_eq. exists d1. erewrite bind_ok; [|by apply drawNextCard_none, Hs1]. done. }
  destruct (seated_draw2 _ _ _ _ _ _ _ _ _ _ Hs1) as (d2 & E2 & Hs2).
  erewrite bind_ok; [|by eapply drawNextCard_run; [apply Hs1|]]. cbn [svc sent].
  destruct (draws n h1 h2) as [[[cs0 out0] k1] k2] eqn:Ed. simplify_eq.
  destruct (IH (World d2 (svc w) (sent w)) ((acc ++ [mark a]) ++ [mark b]) h1 h2 cs0 out h1' h2') as (d' & -> & Hs');
    [done..|]. exists d'. by rewrite <- !app_assoc.
Qed.

Lemma draws_full n : forall h1 h2 cs h1' h2', draws n h1 h2 = (cs, None, h1', h2') ->
  length cs = (2 * n)%nat /\ length h1 = (n + length h1')%nat /\ length h2 = (n + length h2')%nat.
Proof.
  induction n as [|n IH]; intros h1 h2 cs h1' h2' E; simpl in E; [by simplify_eq|].
  destruct h1 as [|a h1], h2 as [|b h2]; try done. destruct (draws n h1 h2) as [[[cs0 out] k1] k2] eqn:Ed. simplify_eq.
  apply IH in Ed. simpl. lia.
Qed.

Lemma draws_3 h1 h2 cs h1' h2' : draws 3 h1 h2 = (cs, None, h1', h2') ->
  exists a1 b1 a2 b2 a3 b3, cs = [a1; b1; a2; b2; a3; b3] /\ length h1 = (3 + length h1')%nat.
Proof.
  intros E. apply draws_full in E as (Hl & Hl1 & _).
  do 6 (destruct cs as [|? cs]; [done|]). destruct cs; [|done]. by repeat eexists.
Qed.

Definition with_piles (s : CardsService) (q1 q2 : list CardsEntity) : CardsService :=
  Service (player1Turn s) (player2Turn s) (playedCard1 s) (playedCard2 s) q1 q2.

Lemma capture1_run cs (w : world DB) :
  let q := player1CapturedCards (svc w) ++ cs in
  capture1 cs w = (Ok tt, World (db w) (with_piles (svc w) q (player2CapturedCards (svc w))) (sent w ++ [CapturedCards1 q])).
Proof. done. Qed.

Lemma capture2_run cs (w : world DB) :
  let q := player2CapturedCards (svc w) ++ cs in
  capture2 cs w = (Ok tt, World (db w) (with_piles (svc w) (player1CapturedCards (svc w)) q) (sent w ++ [CapturedCards2 q])).
Proof. done. Qed.

Lemma with_piles_self s : with_piles s (player1CapturedCards s) (player2CapturedCards s) = s.
Proof. by destruct s. Qed.

Lemma declareWinner_run p1 p2 g G P1 P2 h1 h2 (w : world DB) : seated p1 p2 g G P1 P2 (db w) h1 h2 ->
  declareWinner g p1 p2 w =
    (Ok (leader (username P1) (username P2) (player1CapturedCards (svc w)) (player2CapturedCards (svc w))), w).
Proof.
  intros [_ H1 H2 Hg _ _ _ _]. unfold declareWinner, query, mbind, M_bind.
  rewrite games_findById_law, !players_findById_law, Hg, H1, H2. cbn [optional_get mret M_ret ask]. unfold leader.
  by destruct (_ <? _)%nat; [|destruct (_ <? _)%nat].
Qed.

Lemma declareWinnerAndAddWarCards_run p1 p2 g G P1 P2 h1 h2 cs q1 q2 ms (w : world DB) :
  seated p1 p2 g G P1 P2 (db w) h1 h2 ->
  war_end P1 P2 cs (RunsOut false) (player1CapturedCards (svc w)) (player2CapturedCards (svc w)) = (q1, q2, ms) ->
  declareWinnerAndAddWarCards g p1 p2 cs w = (Ok tt, World (db w) (with_piles (svc w) q1 q2) (sent w ++ ms)).
Proof.
  intros Hs E. unfold declareWinnerAndAddWarCards. erewrite bind_ok; [|by eapply declareWinner_run].
  unfold query. do 2 (erewrite bind_ok; [|done]). rewrite !players_findById_law, (seat_1 _ _ _ _ _ _ _ _ _ Hs),
    (seat_2 _ _ _ _ _ _ _ _ _ Hs). do 2 (erewrite bind_ok; [|done]). unfold war_end in E.
  case_bool_decide; [|case_bool_decide]; simplify_eq.
  - erewrite bind_ok; [|by apply capture1_run]. unfold mbind, M_bind, convertAndSend. simpl.
    by rewrite <- !app_assoc.
  - erewrite bind_ok; [|by apply capture2_run]. unfold mbind, M_bind, convertAndSend. simpl.
    by rewrite <- !app_assoc.
  - unfold mbind, M_bind, convertAndSend. simpl. by rewrite <- !app_assoc, with_piles_self.
Qed.

(** When the first player runs out there is one more message. *)
Lemma war_end_first P1 P2 cs q p1 p2 ms q' : war_end P1 P2 cs (RunsOut true) p1 p2 = (q, q', ms) ->
  exists ms', ms = ms' ++ [WarOccurred] /\ war_end P1 P2 cs (RunsOut false) p1 p2 = (q, q', ms').
Proof.
  unfold war_end. destruct (if bool_decide _ then _ else _) as [[a b] m]. intros [= <- <- <-].
  eexists. split; [|done]. by rewrite app_nil_r, <- app_assoc.
Qed.

Lemma played_card_run f c (w : world DB) : f (svc w) = Some c -> played_card f w = (Ok c, w).
Proof. unfold played_card, mbind, M_bind, ask. by intros ->. Qed.

Lemma war_run p1 p2 g G P1 P2 c1 c2 fuel : forall n w h1 h2 k cs o h1' h2' q1 q2 ms,
  playedCard1 (svc w) = Some c1 -> playedCard2 (svc w) = Some c2 ->
  seated p1 p2 g G P1 P2 (db w) h1 h2 -> (length h1 < fuel)%nat -> (length h1 <= n)%nat ->
  wars n c1 c2 h1 h2 = (k, cs, o, h1', h2') ->
  war_end P1 P2 cs o (player1CapturedCards (svc w)) (player2CapturedCards (svc w)) = (q1, q2, ms) ->
  exists d', war fuel p1 p2 g w =
      (Ok tt, World d' (with_piles (svc w) q1 q2) (sent w ++ replicate k WarOccurred ++ ms)) /\
    seated p1 p2 g G P1 P2 d' h1' h2'.
Proof.
  induction fuel as [|fuel IH]; intros n w h1 h2 k cs o h1' h2' q1 q2 ms Hc1 Hc2 Hs Hf Hn Ew Ee; [lia|].
  cbn [war]. rewrite (bind_ok _ _ _ _ _ (played_card_run _ _ _ Hc1)), (bind_ok _ _ _ _ _ (played_card_run _ _ _ Hc2)).
  destruct (draws 3 h1 h2) as [[[ds out] k1] k2] eqn:Ed.
  destruct (war_draws_run p1 p2 g G P1 P2 3 w [c1; c2] h1 h2 ds out k1 k2 Hs Ed) as (d' & Edr & Hs').
  rewrite (bind_ok _ _ _ _ _ Edr). cbv beta iota. rewrite wars_eq, Ed in Ew.
  destruct out as [[]|].
  - simplify_eq. apply war_end_first in Ee as (ms' & -> & Ee).
    rewrite (bind_ok _ _ _ _ _ (declareWinnerAndAddWarCards_run p1 p2 g G P1 P2 _ _ _ _ _ _ (World d' (svc w) (sent w)) Hs' Ee)).
    exists d'. split; [|done]. unfold convertAndSend. simpl. by rewrite <- app_assoc.
  - simplify_eq. exists d'. split; [|done].
    by apply (declareWinnerAndAddWarCards_run p1 p2 g G P1 P2 _ _ _ _ _ _ (World d' (svc w) (sent w)) Hs').
  - destruct (draws_3 _ _ _ _ _ Ed) as (a1 & b1 & a2 & b2 & a3 & b3 & -> & Hl).
    cbn [app length]. erewrite bind_ok; [|done]. erewrite bind_ok; [|done]. cbv beta.
    destruct (rank a3 >? rank b3); [simplify_eq; simpl in Ee; simplify_eq; exists d'; split; [apply (capture1_run _ (World d' _ _))|done]|].
    destruct (rank a3 <? rank b3); [simplify_eq; simpl in Ee; simplify_eq; exists d'; split; [apply (capture2_run _ (World d' _ _))|done]|].
    destruct n as [|n]; [lia|].
    destruct (wars n c1 c2 k1 k2) as [[[[k0 cs0] o0] m1] m2] eqn:Ew0. simplify_eq.
    erewrite bind_ok; [|done].
    destruct (IH n (World d' (svc w) (sent w ++ [WarOccurred])) k1 k2 k0 cs o h1' h2' q1 q2 ms) as (d'' & Er & Hs'');
      try done; [lia..|]. exists d''. cbn [svc sent] in Er. rewrite <- app_assoc in Er. done.
Qed.

(** Whose cards were captured and what the round sends. *)
Lemma gameRound_run p1 p2 g G P1 P2 c1 c2 fuel w h1 h2 h1' h2' q1 q2 ms :
  playedCard1 (svc w) = Some c1 -> playedCard2 (svc w) = Some c2 ->
  seated p1 p2 g G P1 P2 (db w) h1 h2 -> (length h1 < fuel)%nat ->
  round P1 P2 c1 c2 h1 h2 (player1CapturedCards (svc w)) (player2CapturedCards (svc w)) = (h1', h2', q1, q2, ms) ->
  exists d', gameRound fuel p1 p2 g w = (Ok tt, World d' (with_piles (svc w) q1 q2) (sent w ++ ms)) /\
    seated p1 p2 g G P1 P2 d' h1' h2'.
Proof.
  intros Hc1 Hc2 Hs Hf E. unfold gameRound.
  rewrite (bind_ok _ _ _ _ _ (played_card_run _ _ _ Hc1)), (bind_ok _ _ _ _ _ (played_card_run _ _ _ Hc2)).
  unfold round in E. destruct (rank c1 >? rank c2); [simplify_eq; exists (db w); split; [apply capture1_run|done]|].
  destruct (rank c1 <? rank c2); [simplify_eq; exists (db w); split; [apply capture2_run|done]|].
  destruct (wars _ _ _ _ _) as [[[[k cs] o] m1] m2] eqn:Ew. destruct (war_end _ _ _ _ _ _) as [[r1 r2] ns] eqn:Ee. simplify_eq.
  erewrite bind_ok; [|done].
  destruct (war_run p1 p2 g G P1 P2 c1 c2 fuel (length h1) (World (db w) (svc w) (sent w ++ [WarOccurred])) h1 h2 k cs o
    h1' h2' q1 q2 ns) as (d' & Er & Hs'); try done.
  exists d'. cbn [svc sent] in Er. rewrite <- app_assoc in Er. done.
Qed.

(** ** The services play the game *)

(** The state of the service and the database is that of the table. *)
Record at_table (p1 p2 g : Z) (G : GameEntity) (P1 P2 : PlayersEntity) (w : world DB) (t : table) : Prop := {
  at_seated : seated p1 p2 g G P1 P2 (db w) (hand1 t) (hand2 t);
  at_turn1 : player1Turn (svc w) = turn1 t;
  at_turn2 : player2Turn (svc w) = negb (turn1 t);
  at_open : playedCard1 (svc w) = open t;
  at_answer : turn1 t = false -> is_Some (open t);
  at_pile1 : player1CapturedCards (svc w) = pile1 t;
  at_pile2 : player2CapturedCards (svc w) = pile2 t
}.

Lemma hand_length d p : (length (hand d p) <= length (cards_findAll d))%nat.
Proof.
  unfold hand. etrans; [apply length_filter|]. destruct (hand_law d p) as [Hp _].
  rewrite (Permutation_length Hp), (Permutation_length (cards_findAll_law d)). apply length_filter.
Qed.

Lemma allCardsPlayed_spec l : allCardsPlayed l = true <-> filter (fun c => unplayed c) l = [].
Proof.
  induction l as [|c l IH]; [done|]. rewrite filter_cons. cbn [allCardsPlayed].
  case_decide as Hd; [by rewrite Hd|]. by destruct (isPlayed c).
Qed.

Lemma playCard1_run p1 p2 g G P1 P2 w t t' r ms :
  at_table p1 p2 g G P1 P2 w t -> step P1 P2 t Play1 = (t', r, ms) ->
  exists w', playCard1 p1 w = (Ok r, w') /\ at_table p1 p2 g G P1 P2 w' t' /\ sent w' = sent w ++ ms.
Proof.
  intros Ht E. pose proof Ht as [Hs T1 T2 Ho Ha Q1 Q2]. unfold playCard1, query.
  do 2 (erewrite bind_ok; [|done]). rewrite players_findById_law, (seat_1 _ _ _ _ _ _ _ _ _ Hs).
  erewrite bind_ok; [|done]. erewrite bind_ok; [|done]. cbv beta. rewrite T1. simpl in E.
  destruct (turn1 t) eqn:Et; [|simplify_eq; exists w; by rewrite app_nil_r].
  pose proof (first_unplayed_spec (findCardsByPlayers_PlayerIdOrderByDealOrder (db w) p1)) as Hf.
  pose proof (seat_h1 _ _ _ _ _ _ _ _ _ Hs) as Hh. unfold hand in Hh. rewrite Hh in Hf.
  destruct (hand1 t) as [|c h] eqn:Eh; simplify_eq.
  { rewrite Hf. exists w. by rewrite app_nil_r. }
  destruct Hf as (l1 & l2 & -> & _). destruct (seated_draw1 _ _ _ _ _ _ _ _ _ _ Hs) as (d' & Es & Hs').
  erewrite bind_ok; [|unfold update; by rewrite Es]. erewrite bind_ok; [|done].
  eexists. split; [done|]. split; [by constructor|]. simpl. by rewrite app_nil_r.
Qed.

Lemma playCard2_run p1 p2 g G P1 P2 w t t' r ms :
  at_table p1 p2 g G P1 P2 w t -> step P1 P2 t Play2 = (t', r, ms) ->
  exists w', playCard2 (PlayRequest p1 p2 g) w = (Ok r, w') /\ at_table p1 p2 g G P1 P2 w' t' /\ sent w' = sent w ++ ms.
Proof.
  intros Ht E. pose proof Ht as [Hs T1 T2 Ho Ha Q1 Q2]. unfold playCard2, query. cbn [player1Id player2Id request_game].
  do 2 (erewrite bind_ok; [|done]). rewrite players_findById_law, (seat_2 _ _ _ _ _ _ _ _ _ Hs).
  erewrite bind_ok; [|done]. erewrite bind_ok; [|done]. cbv beta. rewrite T2. simpl in E.
  destruct (turn1 t) eqn:Et; cbn [negb]; [simplify_eq; exists w; by rewrite app_nil_r|].
  pose proof (first_unplayed_spec (findCardsByPlayers_PlayerIdOrderByDealOrder (db w) p2)) as Hf.
  pose proof (seat_h2 _ _ _ _ _ _ _ _ _ Hs) as Hh. unfold hand in Hh. rewrite Hh in Hf.
  destruct (hand2 t) as [|c h] eqn:Eh; simplify_eq.
  { rewrite Hf. exists w. by rewrite app_nil_r. }
  destruct Hf as (l1 & l2 & -> & _ & Hu & F1 & F2). destruct (Ha eq_refl) as [c1 Hc1]. rewrite Hc1 in *.
  destruct (seated_draw2 _ _ _ _ _ _ _ _ _ _ Hs) as (d' & Es & Hs').
  erewrite bind_ok; [|unfold update; by rewrite Es]. do 2 (erewrite bind_ok; [|done]). cbv beta.
  destruct (round _ _ _ _ _ _ _ _) as [[[[h1' h2'] q1] q2] ns] eqn:Er. simplify_eq.
  set (w1 := World d' (Service (player1Turn (svc w)) (player2Turn (svc w)) (playedCard1 (svc w)) (Some (mark c))
    (player1CapturedCards (svc w)) (player2CapturedCards (svc w))) (sent w)).
  destruct (gameRound_run p1 p2 g G P1 P2 c1 (mark c) (S (length (cards_findAll d'))) w1 (hand1 t)
    (filter (fun c => unplayed c) l2) h1' h2' q1 q2 ns) as (d'' & Eg & Hs''); try done.
  { pose proof (hand_length d' p1) as Hl. rewrite (seat_h1 _ _ _ _ _ _ _ _ _ Hs') in Hl. lia. }
  { unfold w1. cbn [svc player1CapturedCards player2CapturedCards]. by rewrite Q1, Q2. }
  erewrite bind_ok; [|exact Eg]. erewrite bind_ok; [|done]. cbn [svc sent db].
  set (w2 := World d'' (Service true false _ _ _ _) _).
  assert (Ht' : at_table p1 p2 g G P1 P2 w2 (Table h1' h2' true (Some c1) q1 q2)).
  { by constructor. }
  assert (allCardsPlayed (l1 ++ mark c :: l2) = match filter (fun c => unplayed c) l2 with [] => true | _ => false end) as ->.
  { apply eq_bool_prop_intro. rewrite Is_true_true, allCardsPlayed_spec, filter_app, filter_cons, F1.
    rewrite decide_False by done. by destruct (filter _ l2). }
  destruct (filter (fun c => unplayed c) l2) as [|c' h'] eqn:El.
  - rewrite (bind_ok (x ← declareWinner g p1 p2; convertAndSend (GameWinner x)) _ w2 tt
      (World d'' (svc w2) (sent w2 ++ [GameWinner (leader (username P1) (username P2) q1 q2)]))).
    { eexists. split; [done|]. split; [by constructor|]. unfold w2, w1. simpl. by rewrite <- !app_assoc. }
    by rewrite (bind_ok _ _ _ _ _ (declareWinner_run p1 p2 g G P1 P2 _ _ w2 (at_seated _ _ _ _ _ _ _ _ Ht'))).
  - erewrite bind_ok; [|done]. exists w2. split; [done|]. split; [done|]. unfold w2, w1. simpl. by rewrite app_nil_r.
Qed.

(** Any sequence of moves. *)
Definition do_move (p1 p2 g : Z) (m : move) : M DB (option PlayCardResponse) :=
  match m with Play1 => playCard1 p1 | Play2 => playCard2 (PlayRequest p1 p2 g) end.

Fixpoint do_moves (p1 p2 g : Z) (ms : list move) : M DB (list (option PlayCardResponse)) :=
  match ms with
  | [] => mret []
  | m :: ms => r ← do_move p1 p2 g m; rs ← do_moves p1 p2 g ms; mret (r :: rs)
  end.

Lemma do_moves_run p1 p2 g G P1 P2 ms : forall w t t' rs out,
  at_table p1 p2 g G P1 P2 w t -> steps P1 P2 t ms = (t', rs, out) ->
  exists w', do_moves p1 p2 g ms w = (Ok rs, w') /\ at_table p1 p2 g G P1 P2 w' t' /\ sent w' = sent w ++ out.
Proof.
  induction ms as [|m ms IH]; intros w t t' rs out Ht E; cbn [steps] in E.
  { simplify_eq. exists w. by rewrite app_nil_r. }
  destruct (step P1 P2 t m) as [[t1 r] o1] eqn:E1. destruct (steps P1 P2 t1 ms) as [[t2 rs2] o2] eqn:E2. simplify_eq.
  assert (exists w', do_move p1 p2 g m w = (Ok r, w') /\ at_table p1 p2 g G P1 P2 w' t1 /\ sent w' = sent w ++ o1)
    as (w1 & H1 & Ht1 & Hs1) by (destruct m; [by eapply playCard1_run|by eapply playCard2_run]).
  destruct (IH w1 t1 t' rs2 o2 Ht1 E2) as (w2 & H2 & Ht2 & Hs2). exists w2.
  cbn [do_moves]. rewrite (bind_ok _ _ _ _ _ H1), (bind_ok _ _ _ _ _ H2). split; [done|]. split; [done|].
  by rewrite Hs2, Hs1, app_assoc.
Qed.
End Run.
