(* ===== verification/WarProps.v ===== *)
(** * The War card game: what the rules guarantee

    Accounting for the cards, the end of the game, and the cases in which the
    implementation loses cards or does not announce a winner. *)

From Stdlib Require Import ZArith Lia ZifyBool.
From stdpp Require Import base gmap numbers option list strings sorting.
From S2P Require Import Prelude WarDb War WarGame.

Local Open Scope Z_scope.

(** C2. The services play the game: over any database that keeps the
    repository laws, any sequence of moves of the two players runs without an
    exception and without exhausting the recursion of [war], gives the responses
    and sends the messages the rules prescribe, and leaves the database and the
    service as the rules leave the table.  The row of the game is never
    changed, although [declareWinner] sets its winner. *)
Theorem war_services_play_the_game {DB} `{RepositoryLaws DB} (p1 p2 g : Z) (G : GameEntity) (P1 P2 : PlayersEntity)
    (w : world DB) (t : table) (ms : list move) :
  at_table p1 p2 g G P1 P2 w t ->
  let '(t', rs, out) := steps P1 P2 t ms in
  exists w', do_moves p1 p2 g ms w = (Ok rs, w') /\ at_table p1 p2 g G P1 P2 w' t' /\
    sent w' = sent w ++ out /\ games (db w') !! g = games (db w) !! g.
Proof.
  intros Ht. destruct (steps P1 P2 t ms) as [[t' rs] out] eqn:E.
  destruct (do_moves_run p1 p2 g G P1 P2 ms w t t' rs out Ht E) as (w' & E' & Ht' & Hs).
  exists w'. split; [done|]. split; [done|]. split; [done|].
  by rewrite (seat_g _ _ _ _ _ _ _ _ _ (at_seated _ _ _ _ _ _ _ _ Ht)), (seat_g _ _ _ _ _ _ _ _ _ (at_seated _ _ _ _ _ _ _ _ Ht')).
Qed.

(** ** Accounting *)

Notation ids := (fmap (M:=list) cardId).

Lemma draws_ids n : forall h1 h2 cs out h1' h2', draws n h1 h2 = (cs, out, h1', h2') ->
  ids (h1 ++ h2) ≡ₚ ids (cs ++ h1' ++ h2').
Proof.
  induction n as [|n IH]; intros h1 h2 cs out h1' h2' E; simpl in E; [by simplify_eq|].
  destruct h1 as [|a h1]; [by simplify_eq|]. destruct h2 as [|b h2]; [by simplify_eq|].
  destruct (draws n h1 h2) as [[[cs0 out0] k1] k2] eqn:Ed. simplify_eq. apply IH in Ed.
  rewrite <- Permutation_middle. cbn [app]. rewrite !fmap_cons. simpl cardId. rewrite Ed.
  apply Permutation_swap.
Qed.

(** The cards drawn in the wars that were repeated. *)
Fixpoint discarded (n : nat) (h1 h2 : list CardsEntity) : list CardsEntity :=
  match n with
  | O => []
  | S n =>
      let '(cs, out, h1, h2) := draws 3 h1 h2 in
      match out, cs with
      | None, [_; _; _; _; l1; l2] => if rank l1 =? rank l2 then cs ++ discarded n h1 h2 else []
      | _, _ => []
      end
  end.

Lemma wars_ids n : forall c1 c2 h1 h2 k cs o h1' h2', wars n c1 c2 h1 h2 = (k, cs, o, h1', h2') ->
  ids ([c1; c2] ++ h1 ++ h2) ≡ₚ ids (cs ++ h1' ++ h2') ++ ids (discarded n h1 h2) \/ (n < length h1)%nat.
Proof.
  induction n as [|n IH]; intros c1 c2 h1 h2 k cs o h1' h2' E; rewrite wars_eq in E;
    destruct (draws 3 h1 h2) as [[[ds out] k1] k2] eqn:Ed.
  - destruct (decide (0 < length h1)%nat); [by right|]. destruct h1; [|simpl in *; lia]. left.
    simpl in Ed. simplify_eq. simpl. by rewrite app_nil_r.
  - cbn [discarded]. rewrite Ed. pose proof (draws_ids _ _ _ _ _ _ _ Ed) as Hp. destruct out as [b|].
    { simplify_eq. left. rewrite app_nil_r. cbn [app]. rewrite !fmap_cons, Hp. done. }
    destruct (draws_3 _ _ _ _ _ Ed) as (a1 & b1 & a2 & b2 & a3 & b3 & -> & Hl).
    destruct (rank a3 >? rank b3) eqn:Eg; [|destruct (rank a3 <? rank b3) eqn:Elt].
    1,2: simplify_eq; left; zb; rewrite app_nil_r; cbn [app]; rewrite !fmap_cons, Hp; done.
    destruct (wars n c1 c2 k1 k2) as [[[[k0 cs0] o0] m1] m2] eqn:Ew. simplify_eq. zb.
    destruct (IH _ _ _ _ _ _ _ _ _ Ew) as [IHp|]; [left|right; lia].
    rewrite (fmap_app _ [c1; c2]), Hp, (fmap_app _ _ (k1 ++ k2)), Permutation_app_swap_app, <- fmap_app, IHp.
    by rewrite (fmap_app _ _ (discarded n k1 k2)), Permutation_app_swap_app.
Qed.

(** The cards a move takes out of the game: those of repeated wars, and those
    of a war that ends the game while nobody leads. *)
Definition step_loss (P1 P2 : PlayersEntity) (t : table) (m : move) : list CardsEntity :=
  match m, turn1 t, hand2 t, open t with
  | Play2, false, c :: h, Some c1 =>
      if rank c1 =? rank c then
        let '(_, cs, o, _, _) := wars (length (hand1 t)) c1 (mark c) (hand1 t) h in
        let who := leader (username P1) (username P2) (pile1 t) (pile2 t) in
        match o with
        | RunsOut _ => if bool_decide (who = username P1) || bool_decide (who = username P2) then [] else cs
        | Takes _ => []
        end ++ discarded (length (hand1 t)) (hand1 t) h
      else []
  | _, _, _, _ => []
  end.

Fixpoint steps_loss (P1 P2 : PlayersEntity) (t : table) (ms : list move) : list CardsEntity :=
  match ms with
  | [] => []
  | m :: ms => step_loss P1 P2 t m ++ steps_loss P1 P2 (fst (fst (step P1 P2 t m))) ms
  end.

Definition opened (first : bool) (c : option CardsEntity) : list CardsEntity :=
  if first then [] else option_list c.

(** The cards on the table. *)
Definition table_ids (t : table) : list Z :=
  ids (hand1 t ++ hand2 t ++ opened (turn1 t) (open t) ++ pile1 t ++ pile2 t).

(** The cards in the hands, played and not answered, and captured. *)
Definition holdings {DB} `{Repositories DB} (p1 p2 : Z) (w : world DB) : list Z :=
  ids (hand (db w) p1 ++ hand (db w) p2 ++ opened (player1Turn (svc w)) (playedCard1 (svc w)) ++
       player1CapturedCards (svc w) ++ player2CapturedCards (svc w)).

Lemma at_table_holdings {DB} `{RepositoryLaws DB} p1 p2 g G P1 P2 (w : world DB) t :
  at_table p1 p2 g G P1 P2 w t -> holdings p1 p2 w = table_ids t.
Proof.
  intros [Hs T1 _ Ho _ Q1 Q2]. unfold holdings, table_ids. rewrite T1, Ho, Q1, Q2.
  by rewrite (seat_h1 _ _ _ _ _ _ _ _ _ Hs), (seat_h2 _ _ _ _ _ _ _ _ _ Hs).
Qed.

Lemma war_end_ids P1 P2 cs o p1 p2 q1 q2 ms : war_end P1 P2 cs o p1 p2 = (q1, q2, ms) ->
  let who := leader (username P1) (username P2) p1 p2 in
  ids (p1 ++ p2) ++ ids cs ≡ₚ ids (q1 ++ q2) ++
    ids match o with
        | RunsOut _ => if bool_decide (who = username P1) || bool_decide (who = username P2) then [] else cs
        | Takes _ => []
        end.
Proof.
  intros E who. assert (Hl : ids ((p1 ++ cs) ++ p2) ≡ₚ ids (p1 ++ p2) ++ ids cs).
  { rewrite !fmap_app, <- !app_assoc. apply Permutation_app_head, Permutation_app_comm. }
  unfold war_end in E. fold who in E. destruct o as [[]|[]]; [simplify_eq/=..| |];
    try (destruct (bool_decide (who = username P1)); [|destruct (bool_decide (who = username P2))]; simplify_eq/=).
  all: rewrite ?app_nil_r, ?Hl, ?app_assoc, ?fmap_app, ?app_assoc; done.
Qed.

Lemma perm_rearrange (A H D P Q T : list Z) : P ++ A ≡ₚ Q ++ T ->
  ((A ++ H) ++ D) ++ P ≡ₚ (H ++ Q) ++ T ++ D.
Proof.
  intros E. rewrite <- !app_assoc, Permutation_app_swap_app. apply Permutation_app_head.
  by rewrite (Permutation_app_comm D P), !app_assoc, (Permutation_app_comm A P), E.
Qed.

Lemma round_ids P1 P2 c1 c2 h1 h2 p1 p2 h1' h2' q1 q2 ms :
  round P1 P2 c1 c2 h1 h2 p1 p2 = (h1', h2', q1, q2, ms) ->
  ids (h1 ++ h2 ++ [c1; c2] ++ p1 ++ p2) ≡ₚ ids (h1' ++ h2' ++ q1 ++ q2) ++
    ids (if rank c1 =? rank c2 then
           let '(_, cs, o, _, _) := wars (length h1) c1 c2 h1 h2 in
           let who := leader (username P1) (username P2) p1 p2 in
           match o with
           | RunsOut _ => if bool_decide (who = username P1) || bool_decide (who = username P2) then [] else cs
           | Takes _ => []
           end ++ discarded (length h1) h1 h2
         else []).
Proof.
  intros E. unfold round in E.
  assert (Hp : forall x y, ids ([c1; c2] ++ x ++ y) ≡ₚ ids ((x ++ [c1; c2]) ++ y)).
  { intros x y. rewrite !fmap_app, <- !app_assoc. apply Permutation_app_swap_app. }
  destruct (rank c1 >? rank c2) eqn:Eg; [|destruct (rank c1 <? rank c2) eqn:El].
  - simplify_eq. zb. rewrite app_nil_r, (fmap_app _ _ (h2' ++ _)), (fmap_app _ _ ([c1; c2] ++ _)), Hp, !fmap_app. done.
  - simplify_eq. zb. rewrite app_nil_r, !fmap_app. do 2 apply Permutation_app_head.
    rewrite Permutation_app_swap_app. apply Permutation_app_head, Permutation_app_comm.
  - zb. destruct (wars _ _ _ _ _) as [[[[k cs] o] m1] m2] eqn:Ew. destruct (war_end _ _ _ _ _ _) as [[r1 r2] ns] eqn:Ee.
    simplify_eq. apply wars_ids in Ew as [Hw|]; [|lia]. apply war_end_ids in Ee. cbv zeta in Ee.
    rewrite (fmap_app _ _ (discarded _ _ _)). set (D := ids (discarded _ _ _)) in *.
    set (T := ids (match o with Takes _ => _ | RunsOut _ => _ end)) in *.
    rewrite (app_assoc h1 h2), (app_assoc (h1 ++ h2)), (fmap_app _ _ (p1 ++ p2)), (fmap_app _ (h1 ++ h2)).
    rewrite (Permutation_app_comm (ids (h1 ++ h2))), <- fmap_app, Hw, (fmap_app _ cs), (app_assoc h1' h2'), (fmap_app _ (h1' ++ h2')).
    by apply perm_rearrange.
Qed.

Lemma step_ids P1 P2 t m t' r ms : (turn1 t = false -> is_Some (open t)) -> step P1 P2 t m = (t', r, ms) ->
  table_ids t ≡ₚ table_ids t' ++ ids (step_loss P1 P2 t m) /\ (turn1 t' = false -> is_Some (open t')).
Proof.
  intros Ho E. unfold step, step_loss in *. destruct m; destruct (turn1 t) eqn:Et.
  - destruct (hand1 t) as [|c h] eqn:Eh; simplify_eq; [rewrite app_nil_r; by rewrite Et|]. split; [|by intros _].
    unfold table_ids. rewrite Eh, Et. simpl. rewrite app_nil_r. rewrite !fmap_app. cbn [fmap list_fmap app option_list].
    simpl. rewrite !fmap_app. rewrite Permutation_middle. f_equiv. by rewrite <- Permutation_middle.
  - simplify_eq. rewrite app_nil_r. by rewrite Et.
  - simplify_eq. rewrite app_nil_r. by rewrite Et.
  - destruct (Ho eq_refl) as [c1 Hc1]. rewrite Hc1 in *. destruct (hand2 t) as [|c h] eqn:Eh.
    { simplify_eq. rewrite app_nil_r, Et, Hc1. done. }
    destruct (round _ _ _ _ _ _ _ _) as [[[[h1 h2] p1] p2] ns] eqn:Er. simplify_eq. split; [|done].
    apply round_ids in Er. unfold table_ids. rewrite Eh, Et, Hc1. simpl opened. cbn [hand1 hand2 turn1 open pile1 pile2 app].
    change (rank (mark c)) with (rank c) in Er. rewrite <- Er. cbn [app]. rewrite !fmap_app. cbn [fmap list_fmap].
    f_equiv. simpl. rewrite !fmap_app, <- !Permutation_middle. simpl. rewrite !fmap_app, <- ?Permutation_middle. apply Permutation_swap.
Qed.

Lemma steps_ids P1 P2 ms : forall t t' rs out, (turn1 t = false -> is_Some (open t)) ->
  steps P1 P2 t ms = (t', rs, out) -> table_ids t ≡ₚ table_ids t' ++ ids (steps_loss P1 P2 t ms).
Proof.
  induction ms as [|m ms IH]; intros t t' rs out Ho E; cbn [steps steps_loss] in *.
  { simplify_eq. by rewrite app_nil_r. }
  destruct (step P1 P2 t m) as [[t1 r] o1] eqn:E1. destruct (steps P1 P2 t1 ms) as [[t2 rs2] o2] eqn:E2. simplify_eq.
  apply step_ids in E1 as [Hp Ho1]; [|done]. rewrite Hp, (IH _ _ _ _ Ho1 E2), fmap_app, <- app_assoc.
  apply Permutation_app_head, Permutation_app_comm.
Qed.

(** C11. The cards are accounted for: after any sequence of moves, the cards in
    the hands, the one waiting for an answer, the captured cards and those the
    moves took out of the game are the cards there were, each exactly once.
    Cards are taken out of the game only by a war that follows a war, which
    forgets the cards of the first, and by a war that ends the game when nobody
    leads. *)
Theorem war_cards_accounted {DB} `{RepositoryLaws DB} (p1 p2 g : Z) (G : GameEntity) (P1 P2 : PlayersEntity)
    (w : world DB) (t : table) (ms : list move) :
  at_table p1 p2 g G P1 P2 w t ->
  exists rs w', do_moves p1 p2 g ms w = (Ok rs, w') /\
    holdings p1 p2 w ≡ₚ holdings p1 p2 w' ++ ids (steps_loss P1 P2 t ms) /\
    (NoDup (holdings p1 p2 w) -> NoDup (holdings p1 p2 w')).
Proof.
  intros Ht. destruct (steps P1 P2 t ms) as [[t' rs] out] eqn:E.
  destruct (do_moves_run p1 p2 g G P1 P2 ms w t t' rs out Ht E) as (w' & E' & Ht' & _).
  exists rs, w'. split; [done|]. rewrite (at_table_holdings _ _ _ _ _ _ _ _ Ht), (at_table_holdings _ _ _ _ _ _ _ _ Ht').
  apply steps_ids in E; [|apply Ht]. split; [done|]. intros Hn. rewrite E in Hn. by apply NoDup_app in Hn as [].
Qed.

(** ** The end of the game *)

Fixpoint alternate (n : nat) : list move :=
  match n with O => [] | S n => Play1 :: Play2 :: alternate n end.

Lemma draws_equal n : forall h1 h2 cs out h1' h2', draws n h1 h2 = (cs, out, h1', h2') -> length h1 = length h2 ->
  length h1' = length h2' /\ (length h1' <= length h1)%nat.
Proof.
  induction n as [|n IH]; intros h1 h2 cs out h1' h2' E Hl; simpl in E; [by simplify_eq|].
  destruct h1 as [|a h1], h2 as [|b h2]; try done; [by simplify_eq|].
  destruct (draws n h1 h2) as [[[cs0 out0] k1] k2] eqn:Ed. simplify_eq. simpl in Hl.
  apply IH in Ed; [|lia]. simpl. lia.
Qed.

Lemma wars_equal n : forall c1 c2 h1 h2 k cs o h1' h2', wars n c1 c2 h1 h2 = (k, cs, o, h1', h2') ->
  length h1 = length h2 -> length h1' = length h2' /\ (length h1' <= length h1)%nat.
Proof.
  induction n as [|n IH]; intros c1 c2 h1 h2 k cs o h1' h2' E Hl; rewrite wars_eq in E;
    destruct (draws 3 h1 h2) as [[[ds out] k1] k2] eqn:Ed; pose proof (draws_equal _ _ _ _ _ _ _ Ed Hl) as Hd;
    (destruct out as [b|]; [by simplify_eq|]);
    destruct (draws_3 _ _ _ _ _ Ed) as (a1 & b1 & a2 & b2 & a3 & b3 & -> & _);
    (destruct (rank a3 >? rank b3); [by simplify_eq|]); (destruct (rank a3 <? rank b3); [by simplify_eq|]); [by simplify_eq|].
  destruct (wars n c1 c2 k1 k2) as [[[[k0 cs0] o0] m1] m2] eqn:Ew. simplify_eq. apply IH in Ew; lia.
Qed.

(** A round keeps the hands equal; without a war it captures two cards. *)
Lemma round_equal P1 P2 c1 c2 h1 h2 p1 p2 h1' h2' q1 q2 ms : round P1 P2 c1 c2 h1 h2 p1 p2 = (h1', h2', q1, q2, ms) ->
  length h1 = length h2 ->
  length h1' = length h2' /\ (length h1' <= length h1)%nat /\
  (WarOccurred ∉ ms -> h1' = h1 /\ h2' = h2 /\ (length q1 + length q2 = length p1 + length p2 + 2)%nat).
Proof.
  intros E Hl. unfold round in E.
  destruct (rank c1 >? rank c2); [simplify_eq; rewrite length_app; simpl; repeat split; (done || lia)|].
  destruct (rank c1 <? rank c2); [simplify_eq; rewrite length_app; simpl; repeat split; (done || lia)|].
  destruct (wars _ _ _ _ _) as [[[[k cs] o] m1] m2] eqn:Ew. destruct (war_end _ _ _ _ _ _) as [[r1 r2] ns]. simplify_eq.
  apply wars_equal in Ew; [|done]. split; [lia|]. split; [lia|]. intros []. simpl. set_solver.
Qed.

Lemma alternate_empty P1 P2 n t : turn1 t = true -> hand1 t = [] ->
  exists rs, steps P1 P2 t (alternate n) = (t, rs, []).
Proof.
  intros Et E. induction n as [|n [rs IH]]; [by eexists|]. cbn [alternate steps step].
  rewrite Et, E. cbn [steps]. rewrite Et, IH. by eexists.
Qed.

Lemma alternate_end P1 P2 n : forall t t' rs out, turn1 t = true -> length (hand1 t) = length (hand2 t) ->
  (length (hand1 t) <= n)%nat -> steps P1 P2 t (alternate n) = (t', rs, out) ->
  turn1 t' = true /\ hand1 t' = [] /\ hand2 t' = [] /\
  (WarOccurred ∉ out ->
    (length (pile1 t') + length (pile2 t') = length (pile1 t) + length (pile2 t) + 2 * length (hand1 t))%nat /\
    (hand1 t <> [] -> last out = Some (GameWinner (leader (username P1) (username P2) (pile1 t') (pile2 t'))))).
Proof.
  induction n as [|n IH]; intros t t' rs out Et Hl Hn E.
  { destruct (hand1 t) eqn:E1; [|simpl in Hn; lia]. destruct (hand2 t) eqn:E2; [|done]. cbn [alternate steps] in E. simplify_eq.
    rewrite E1, E2. repeat split; (done || (simpl; lia)). }
  destruct (hand1 t) as [|c h1] eqn:E1.
  { destruct (alternate_empty P1 P2 (S n) t Et E1) as [rs' E']. rewrite E' in E. simplify_eq.
    destruct (hand2 t'); [|done]. repeat split; (done || (simpl; lia)). }
  destruct (hand2 t) as [|c2 h2] eqn:E2; [done|]. simpl in Hl, Hn. cbn [alternate steps] in E.
  unfold step in E. rewrite Et, E1 in E. cbn [turn1 hand2 open hand1 pile1 pile2] in E. rewrite E2 in E.
  destruct (round _ _ _ _ _ _ _ _) as [[[[h1' h2'] q1] q2] ms] eqn:Er.
  destruct (steps P1 P2 (Table h1' h2' true (Some (mark c)) q1 q2) (alternate n)) as [[t2 rs2] o2] eqn:Es. simplify_eq.
  apply round_equal in Er as (Hl' & Hle & Hw); [|lia].
  pose proof Es as Es'. apply IH in Es as (H1 & H2 & H3 & H4); [|done|done|cbn [hand1]; lia]. cbn [hand1 pile1 pile2] in H4.
  split; [done|]. split; [done|]. split; [done|]. intros Hnw. rewrite app_nil_l in Hnw.
  destruct Hw as (-> & -> & Hq); [set_solver|]. destruct H4 as [H4 H5]; [set_solver|].
  split; [simpl; lia|]. intros _. rewrite app_nil_l. destruct h1 as [|c' h1].
  - destruct h2; [|done]. destruct (alternate_empty P1 P2 n (Table [] [] true (Some (mark c)) q1 q2)) as [rs' E']; [done..|].
    rewrite E' in Es'. simplify_eq. by rewrite app_nil_r, last_app.
  - rewrite last_app, H5 by done. done.
Qed.

(** C19. A game that starts with equal hands ends: when the players play in turn
    for as many rounds as there are cards in a hand, all cards have been played,
    whatever the wars; and if there was no war, every card has been captured and
    the last message announces the player with more of them. *)
Theorem war_game_ends {DB} `{RepositoryLaws DB} (p1 p2 g : Z) (G : GameEntity) (P1 P2 : PlayersEntity)
    (w : world DB) (t : table) :
  at_table p1 p2 g G P1 P2 w t -> turn1 t = true -> length (hand1 t) = length (hand2 t) ->
  exists rs w' out, do_moves p1 p2 g (alternate (length (hand1 t))) w = (Ok rs, w') /\
    hand (db w') p1 = [] /\ hand (db w') p2 = [] /\ sent w' = sent w ++ out /\
    let c1 := player1CapturedCards (svc w') in
    let c2 := player2CapturedCards (svc w') in
    (WarOccurred ∉ out ->
      (length c1 + length c2 = length (pile1 t) + length (pile2 t) + 2 * length (hand1 t))%nat /\
      (hand1 t <> [] -> last out = Some (GameWinner (leader (username P1) (username P2) c1 c2)))).
Proof.
  intros Ht Et Hl. destruct (steps P1 P2 t (alternate (length (hand1 t)))) as [[t' rs] out] eqn:E.
  destruct (do_moves_run p1 p2 g G P1 P2 _ w t t' rs out Ht E) as (w' & E' & [Hs _ _ _ _ Q1 Q2] & Hsent).
  apply alternate_end in E as (_ & H1 & H2 & H3); [|done..]. exists rs, w', out. split; [done|].
  rewrite (seat_h1 _ _ _ _ _ _ _ _ _ Hs), (seat_h2 _ _ _ _ _ _ _ _ _ Hs), Q1, Q2. done.
Qed.

(** ** Examples on the heap *)

Definition ann : PlayersEntity := Player 1 "ann" "s1".
Definition bob : PlayersEntity := Player 2 "bob" "s2".
Definition ex_game : GameEntity := Game 1 (Some 1) (Some 2) None NEW_GAME.

(** Cards of a player with the given ranks, in the order of dealing. *)
Definition ex_hand (p : Z) (first : Z) (ranks : list Z) : list CardsEntity :=
  imap (fun i r => Card (first + Z.of_nat i) "card" "suit" r false (Z.of_nat i) (Some p)) ranks.

Definition ex_heap (cs : list CardsEntity) : heap :=
  Heap (list_to_map ((fun c => (cardId c, c)) <$> cs)) (list_to_map ((fun c => (cardId c, cardId c)) <$> cs)) 100
    {[1 := ("ann"%string, "s1"%string); 2 := ("bob"%string, "s2"%string)]} {[1 := ex_game]}.

Definition ex_world (ranks1 ranks2 : list Z) : world heap :=
  World (ex_heap (ex_hand 1 1 ranks1 ++ ex_hand 2 31 ranks2)) new_service [].

Lemma ordered_NoDup {DB} `{RepositoryLaws DB} d p :
  NoDup (dealOrder <$> findCardsByPlayers_PlayerIdOrderByDealOrder d p) -> ordered d p.
Proof.
  intros Hn c c' Hc Hc' E. apply list_elem_of_lookup in Hc as [i Hi]. apply list_elem_of_lookup in Hc' as [j Hj].
  assert (i = j) as <-; [|congruence]. eapply NoDup_lookup; [exact Hn|..]; rewrite list_lookup_fmap; [by rewrite Hi|].
  rewrite Hj. simpl. by rewrite E.
Qed.

(** The world of two hands is at the table. *)
Ltac ex_table := constructor; [constructor; [done|by vm_compute|by vm_compute|by vm_compute| | |by vm_compute|by vm_compute]|done..];
  apply ordered_NoDup; apply (bool_decide_unpack _); by vm_compute.

Lemma war_services_play_the_game_witness :
  let w := ex_world [5; 9] [7; 9] in
  exists rs w', do_moves 1 2 1 [Play1; Play2; Play2; Play1] w = (Ok rs, w').
Proof.
  intros w. set (t := Table (ex_hand 1 1 [5; 9]) (ex_hand 2 31 [7; 9]) true None [] []).
  assert (Ht : at_table 1 2 1 ex_game ann bob w t) by ex_table.
  pose proof (war_services_play_the_game 1 2 1 ex_game ann bob w t [Play1; Play2; Play2; Play1] Ht) as Hw.
  destruct (steps _ _ _ _) as [[t' rs] out]. destruct Hw as (w' & E & _). exists rs, w'. exact E.
Defined.

Lemma war_cards_accounted_witness :
  let w := ex_world [5; 2; 3; 9] [5; 2; 3; 8] in
  exists rs w', do_moves 1 2 1 [Play1; Play2] w = (Ok rs, w') /\ holdings 1 2 w ≡ₚ holdings 1 2 w'.
Proof.
  intros w. set (t := Table (ex_hand 1 1 [5; 2; 3; 9]) (ex_hand 2 31 [5; 2; 3; 8]) true None [] []).
  assert (Ht : at_table 1 2 1 ex_game ann bob w t) by ex_table.
  destruct (war_cards_accounted 1 2 1 ex_game ann bob w t [Play1; Play2] Ht) as (rs & w' & E & Hp & _).
  exists rs, w'. split; [exact E|]. rewrite Hp.
  change (steps_loss ann bob t [Play1; Play2]) with (@nil CardsEntity). by rewrite app_nil_r.
Defined.

Lemma war_game_ends_witness :
  let w := ex_world [5; 9] [7; 8] in
  exists rs w', do_moves 1 2 1 (alternate 2) w = (Ok rs, w') /\ hand (db w') 1 = [] /\ hand (db w') 2 = [].
Proof.
  intros w. set (t := Table (ex_hand 1 1 [5; 9]) (ex_hand 2 31 [7; 8]) true None [] []).
  assert (Ht : at_table 1 2 1 ex_game ann bob w t) by ex_table.
  destruct (war_game_ends 1 2 1 ex_game ann bob w t Ht eq_refl eq_refl) as (rs & w' & out & E & H1 & H2 & _).
  exists rs, w'. split; [exact E|]. split; [exact H1|exact H2].
Defined.

(** ** Where the implementation departs from the game *)

Lemma first_round P1 P2 t a h1 b h2 : turn1 t = true -> hand1 t = a :: h1 -> hand2 t = b :: h2 ->
  step P1 P2 t Play1 = (Table h1 (b :: h2) false (Some (mark a)) (pile1 t) (pile2 t), Some (PlayResponse (Some (mark a)) true (sessionId P1)), []).
Proof. intros Et E1 E2. unfold step. by rewrite Et, E1, E2. Qed.

(** The cards of a war that is repeated are taken out of the game. *)
Lemma repeated_loss P1 P2 t a x1 x2 x3 h1 b y1 y2 y3 h2 ms : turn1 t = true ->
  hand1 t = a :: x1 :: x2 :: x3 :: h1 -> hand2 t = b :: y1 :: y2 :: y3 :: h2 -> rank a = rank b -> rank x3 = rank y3 ->
  forall k, k ∈ ids [x1; x2; x3; y1; y2; y3] -> k ∈ ids (steps_loss P1 P2 t (Play1 :: Play2 :: ms)).
Proof.
  intros Et E1 E2 Hab Hxy k Hk. cbn [steps_loss]. rewrite (first_round P1 P2 t _ _ _ _ Et E1 E2). cbn [fst].
  set (rest := steps_loss _ _ _ ms). rewrite !fmap_app, elem_of_app. right. rewrite elem_of_app. left.
  unfold step_loss. cbn [hand1 hand2 turn1 open]. change (rank (mark a)) with (rank a). zb.
  destruct (wars _ _ _ _ _) as [[[[k0 cs] o] m1] m2]. rewrite fmap_app, elem_of_app. right.
  cbn [length discarded draws]. change (rank (mark x3)) with (rank x3). change (rank (mark y3)) with (rank y3). zb.
  rewrite fmap_app, elem_of_app. left. simpl in *. set_solver.
Qed.

(** C34. A war that follows a war forgets the cards of the first: whenever the players
    play cards of the same rank and the third cards they add to the war have the same rank again, the six cards
    added are in no hand and in no pile afterwards, whatever is played next. *)
Theorem repeated_war_loses_cards {DB} `{RepositoryLaws DB} (p1 p2 g : Z) (G : GameEntity) (P1 P2 : PlayersEntity)
    (w : world DB) (t : table) (a x1 x2 x3 b y1 y2 y3 : CardsEntity) (h1 h2 : list CardsEntity) (ms : list move) :
  at_table p1 p2 g G P1 P2 w t -> turn1 t = true -> NoDup (holdings p1 p2 w) ->
  hand1 t = a :: x1 :: x2 :: x3 :: h1 -> hand2 t = b :: y1 :: y2 :: y3 :: h2 -> rank a = rank b -> rank x3 = rank y3 ->
  exists rs w', do_moves p1 p2 g (Play1 :: Play2 :: ms) w = (Ok rs, w') /\
    forall k, k ∈ ids [x1; x2; x3; y1; y2; y3] -> k ∈ holdings p1 p2 w /\ k ∉ holdings p1 p2 w'.
Proof.
  intros Ht Et Hn E1 E2 Hab Hxy. destruct (steps P1 P2 t (Play1 :: Play2 :: ms)) as [[t' rs] out] eqn:E.
  destruct (do_moves_run p1 p2 g G P1 P2 _ w t t' rs out Ht E) as (w' & E' & Ht' & _). exists rs, w'. split; [done|].
  apply steps_ids in E; [|apply Ht]. rewrite <- (at_table_holdings _ _ _ _ _ _ _ _ Ht), <- (at_table_holdings _ _ _ _ _ _ _ _ Ht') in E.
  rewrite E in Hn. apply NoDup_app in Hn as (_ & Hdisj & _). intros k Hk.
  apply (repeated_loss P1 P2 t _ _ _ _ _ _ _ _ _ _ ms Et E1 E2 Hab Hxy) in Hk. split; [rewrite E; set_solver|]. intros Hk'. by apply (Hdisj k).
Qed.

Lemma repeated_war_loses_cards_witness :
  let w := ex_world [5; 2; 3; 7; 4; 6; 9] [5; 2; 3; 7; 4; 6; 8] in
  exists rs w', do_moves 1 2 1 [Play1; Play2] w = (Ok rs, w') /\ 2 ∈ holdings 1 2 w /\ 2 ∉ holdings 1 2 w'.
Proof.
  intros w. set (t := Table (ex_hand 1 1 [5; 2; 3; 7; 4; 6; 9]) (ex_hand 2 31 [5; 2; 3; 7; 4; 6; 8]) true None [] []).
  assert (Ht : at_table 1 2 1 ex_game ann bob w t) by ex_table.
  edestruct (repeated_war_loses_cards 1 2 1 ex_game ann bob w t) with (ms := @nil move) as (rs & w' & E & Hk);
    [exact Ht|reflexivity| |reflexivity|reflexivity|reflexivity|reflexivity|].
  - apply (bool_decide_unpack _). by vm_compute.
  - exists rs, w'. split; [exact E|]. apply Hk. apply (bool_decide_unpack _). by vm_compute.
Defined.

(** A war somebody wins needs cards of both players. *)
Lemma wars_takes n c1 c2 h1 h2 k cs f h1' h2' : wars n c1 c2 h1 h2 = (k, cs, Takes f, h1', h2') -> h2 <> [].
Proof. intros E ->. rewrite wars_eq in E. by destruct h1. Qed.

(** Without cards nothing happens any more. *)
Lemma steps_over P1 P2 t ms : turn1 t = true -> hand1 t = [] -> exists rs, steps P1 P2 t ms = (t, rs, []).
Proof.
  intros Et E. induction ms as [|m ms [rs IH]]; [by eexists|]. cbn [steps]. unfold step. rewrite Et, E.
  destruct m; rewrite IH; by eexists.
Qed.

Definition names_winner (m : message) : bool := match m with GameWinner _ => true | _ => false end.

Lemma final_war P1 P2 t a h1 b h2 k cs f ms : turn1 t = true -> hand1 t = a :: h1 -> hand2 t = b :: h2 -> rank a = rank b ->
  wars (length h1) (mark a) (mark b) h1 h2 = (k, cs, Takes f, [], []) ->
  exists t' rs out, steps P1 P2 t (Play1 :: Play2 :: ms) = (t', rs, out) /\ hand1 t' = [] /\ hand2 t' = [] /\
    Forall (fun m => names_winner m = false) out.
Proof.
  intros Et E1 E2 Hab Ew. cbn [steps]. rewrite (first_round P1 P2 t _ _ _ _ Et E1 E2). unfold step at 1. cbn [turn1 hand1 hand2 open pile1 pile2].
  unfold round. change (rank (mark a)) with (rank a). change (rank (mark b)) with (rank b). rewrite Z.gtb_ltb. zb. rewrite Ew.
  pose proof (wars_takes _ _ _ _ _ _ _ _ _ _ Ew) as Hh2. destruct h2 as [|c h2]; [done|].
  destruct (war_end P1 P2 cs (Takes f) (pile1 t) (pile2 t)) as [[q1 q2] ns] eqn:Ee.
  assert (Forall (fun m => names_winner m = false) ns) as Hns by (destruct f; simpl in Ee; simplify_eq; by repeat constructor).
  destruct (steps_over P1 P2 (Table [] [] true (Some (mark a)) q1 q2) ms) as [rs Es]; [done..|]. rewrite Es.
  eexists _, _, _. split; [reflexivity|]. split; [done|]. split; [done|]. rewrite !app_nil_r, app_nil_l.
  apply Forall_app. split; [|done]. by apply Forall_replicate.
Qed.

(** C35. No winner is announced when somebody wins a war, repeated or not, that takes the
    last cards of both: the list that is checked for unplayed cards was loaded before the war.
    All cards have been played, and no message names a winner, whatever the players try next. *)
Theorem winner_not_announced {DB} `{RepositoryLaws DB} (p1 p2 g : Z) (G : GameEntity) (P1 P2 : PlayersEntity)
    (w : world DB) (t : table) (a b : CardsEntity) (h1 h2 : list CardsEntity) (k : nat) (cs : list CardsEntity) (f : bool) (ms : list move) :
  at_table p1 p2 g G P1 P2 w t -> turn1 t = true -> hand1 t = a :: h1 -> hand2 t = b :: h2 -> rank a = rank b ->
  wars (length h1) (mark a) (mark b) h1 h2 = (k, cs, Takes f, [], []) ->
  exists rs w' out, do_moves p1 p2 g (Play1 :: Play2 :: ms) w = (Ok rs, w') /\ hand (db w') p1 = [] /\ hand (db w') p2 = [] /\
    sent w' = sent w ++ out /\ Forall (fun m => names_winner m = false) out.
Proof.
  intros Ht Et E1 E2 Hab Ew. destruct (final_war P1 P2 t a h1 b h2 k cs f ms Et E1 E2 Hab Ew) as (t' & rs & out & E & H1 & H2 & Hout).
  destruct (do_moves_run p1 p2 g G P1 P2 _ w t t' rs out Ht E) as (w' & E' & [Hs _ _ _ _ _ _] & Hsent).
  exists rs, w', out. rewrite (seat_h1 _ _ _ _ _ _ _ _ _ Hs), (seat_h2 _ _ _ _ _ _ _ _ _ Hs). done.
Qed.

Lemma winner_not_announced_witness :
  let w := ex_world [5; 2; 3; 9] [5; 2; 3; 8] in
  exists rs w', do_moves 1 2 1 [Play1; Play2; Play1] w = (Ok rs, w') /\ hand (db w') 1 = [] /\ hand (db w') 2 = [] /\
    Forall (fun m => names_winner m = false) (sent w').
Proof.
  intros w. set (t := Table (ex_hand 1 1 [5; 2; 3; 9]) (ex_hand 2 31 [5; 2; 3; 8]) true None [] []).
  assert (Ht : at_table 1 2 1 ex_game ann bob w t) by ex_table.
  edestruct (winner_not_announced 1 2 1 ex_game ann bob w t) with (ms := [Play1]) as (rs & w' & out & E & H1 & H2 & Hs & Hout);
    [exact Ht|reflexivity|reflexivity|reflexivity|reflexivity|vm_compute; reflexivity|].
  exists rs, w'. rewrite Hs. split; [exact E|]. split; [exact H1|]. split; [exact H2|exact Hout].
Defined.
