(* ===== verification/WarLobby.v ===== *)
(** * The War card game: creating, joining, dealing and leaving

    How two players come to the table and leave it: [createGameAndPlayer],
    [joinGame], the two halves of the deal and [leaveGame], over any database
    that keeps the repository laws; the deal relies on [findAll] returning the
    cards in the same order twice. *)

From Stdlib Require Import ZArith Lia ZifyBool.
From stdpp Require Import base gmap numbers option list strings sorting.
From S2P Require Import Prelude WarDb War WarGame WarProps.

Local Open Scope Z_scope.

(** ** Dealing *)

Fixpoint dealt_hand (i : Z) (p : option Z) (l : list CardsEntity) : list CardsEntity :=
  match l with
  | [] => []
  | c :: l => setPlayers (setDealOrder c i) p :: dealt_hand (i + 1) p l
  end.

Lemma dealt_ids p l : forall i, ids (dealt_hand i p l) = ids l.
Proof. induction l as [|c l IH]; intros i; [done|]. simpl. by rewrite IH. Qed.

Lemma dealt_elem p l : forall i c, c ∈ dealt_hand i p l ->
  players c = p /\ i <= dealOrder c /\ exists c', c' ∈ l /\ cardId c' = cardId c /\ isPlayed c' = isPlayed c.
Proof.
  induction l as [|x l IH]; intros i c Hc; [set_solver|]. simpl in Hc. apply elem_of_cons in Hc as [->|Hc].
  - split; [done|]. simpl. split; [lia|]. exists x. set_solver.
  - apply IH in Hc as (H1 & H2 & c' & H3 & H4). split; [done|]. split; [lia|]. exists c'. set_solver.
Qed.

Lemma filter_unplayed l : Forall (fun c => unplayed c) l -> filter (fun c => unplayed c) l = l.
Proof. induction 1 as [|c l Hc _ IH]; [done|]. by rewrite filter_cons, decide_True, IH. Qed.

Lemma dealt_unplayed p l i : Forall (fun c => unplayed c) l -> filter (fun c => unplayed c) (dealt_hand i p l) = dealt_hand i p l.
Proof.
  intros Hl. apply filter_unplayed. apply Forall_forall. intros c Hc.
  apply dealt_elem in Hc as (_ & _ & c' & Hc' & _ & <-). by eapply Forall_forall in Hl.
Qed.

Lemma dealt_sorted p l : forall i, StronglySorted dealt_before (dealt_hand i p l).
Proof.
  induction l as [|c l IH]; intros i; simpl; constructor; [done|]. apply Forall_forall. intros x Hx.
  apply dealt_elem in Hx as (_ & Hx & _). unfold dealt_before. simpl. lia.
Qed.

Lemma dealt_distinct p l : forall i c c', c ∈ dealt_hand i p l -> c' ∈ dealt_hand i p l -> dealOrder c = dealOrder c' -> c = c'.
Proof.
  induction l as [|x l IH]; intros i c c'; simpl; [set_solver|]. rewrite !elem_of_cons.
  intros [->|Hc] [->|Hc'] E; [done|..].
  - apply dealt_elem in Hc' as (_ & Hc' & _). simpl in E. lia.
  - apply dealt_elem in Hc as (_ & Hc & _). simpl in E. lia.
  - by eapply IH.
Qed.

Section Deal.
Context {DB : Type} `{RepositoryLaws DB}.

(** Every row is in the list, and the list has only rows. *)
Lemma findAll_elem (d : DB) c : c ∈ cards_findAll d <-> cards d !! cardId c = Some c.
Proof.
  rewrite (cards_findAll_law d), list_elem_of_fmap. split.
  - intros ((i & c') & -> & Hin). apply elem_of_map_to_list in Hin. simpl. by rewrite (cards_key _ _ _ Hin).
  - intros Hc. exists (cardId c, c). split; [done|]. by apply elem_of_map_to_list.
Qed.

Lemma findAll_ids (d : DB) : NoDup (ids (cards_findAll d)) /\ forall k, k ∈ ids (cards_findAll d) <-> is_Some (cards d !! k).
Proof.
  split.
  - rewrite (cards_findAll_law d), <- list_fmap_compose.
    rewrite (list_fmap_ext _ fst); [apply NoDup_fst_map_to_list|].
    intros i [k c] Hin. apply list_elem_of_lookup_2, elem_of_map_to_list in Hin. simpl. by apply cards_key in Hin.
  - intros k. rewrite list_elem_of_fmap. split.
    + intros (c & -> & Hc). apply findAll_elem in Hc. by rewrite Hc.
    + intros [c Hc]. exists c. pose proof (cards_key _ _ _ Hc) as <-. by rewrite findAll_elem.
Qed.

(** The table of cards after a hand was dealt. *)
Record deals (d : DB) (D : list CardsEntity) (d' : DB) : Prop := {
  deals_in c : c ∈ D -> cards d' !! cardId c = Some c;
  deals_out k : k ∉ ids D -> cards d' !! k = cards d !! k;
  deals_players : all_players d' = all_players d;
  deals_games : games d' = games d
}.

Lemma deal_loop_run p l : forall i (w : world DB), NoDup (ids l) ->
  (forall c, c ∈ l -> is_Some (cards (db w) !! cardId c)) -> ref_ok (all_players (db w)) p ->
  exists d', deal_loop i p l w = (Ok (dealt_hand i p l), World d' (svc w) (sent w)) /\ deals (db w) (dealt_hand i p l) d'.
Proof.
  induction l as [|c l IH]; intros i w Hn Hin Hr.
  { exists (db w). split; [by destruct w|]. constructor; set_solver. }
  cbn [deal_loop dealt_hand]. set (c' := setPlayers (setDealOrder c i) p).
  rewrite fmap_cons in Hn. apply NoDup_cons in Hn as [Hc Hn].
  pose proof (cards_save_law c' (db w)) as Hs. change (players c') with p in Hs. rewrite decide_True in Hs by done.
  destruct Hs as (d1 & E1 & Hc1 & Hp1 & Hg1); [by apply (Hin c); set_solver|].
  erewrite bind_ok; [|unfold update; by rewrite E1].
  destruct (IH (i + 1) (World d1 (svc w) (sent w))) as (d2 & E2 & [Hi Ho Hp2 Hg2]); [done| |simpl; by rewrite Hp1|].
  { intros x Hx. simpl. rewrite Hc1. destruct (decide (cardId c' = cardId x)) as [E|E]; [rewrite E; by rewrite lookup_insert_eq|].
    rewrite lookup_insert_ne by done. apply Hin. set_solver. }
  erewrite bind_ok; [|exact E2]. exists d2. split; [done|]. simpl in Ho, Hp2, Hg2.
  constructor; [| |by rewrite Hp2|by rewrite Hg2].
  - intros x Hx. apply elem_of_cons in Hx as [->|Hx]; [|by apply Hi].
    rewrite Ho, Hc1 by (by rewrite dealt_ids). apply lookup_insert_eq.
  - intros k Hk. rewrite fmap_cons in Hk. rewrite Ho, Hc1 by set_solver. apply lookup_insert_ne. set_solver.
Qed.

Lemma deals_dom (d d' : DB) q l : deals d (dealt_hand 0 q l) d' -> (forall c, c ∈ l -> is_Some (cards d !! cardId c)) ->
  dom (cards d') = dom (cards d).
Proof.
  intros [Hin Hout _ _] Hl. apply set_eq. intros k. rewrite !elem_of_dom.
  destruct (decide (k ∈ ids (dealt_hand 0 q l))) as [Hk|Hk]; [|by rewrite Hout].
  pose proof Hk as Hk'. apply list_elem_of_fmap in Hk as (c & -> & Hc). rewrite (Hin _ Hc).
  rewrite dealt_ids in Hk'. apply list_elem_of_fmap in Hk' as (c' & -> & Hc'). split; [intros _; by apply Hl|done].
Qed.

Lemma owned_dealt (d : DB) p q i l : NoDup (ids l) ->
  (forall c, c ∈ dealt_hand i q l <-> c ∈ findCardsByPlayers_PlayerIdOrderByDealOrder d p) ->
  ordered d p /\ findCardsByPlayers_PlayerIdOrderByDealOrder d p = dealt_hand i q l.
Proof.
  intros Hn Hin. assert (Ho : ordered d p).
  { intros c c' Hc Hc'. apply Hin in Hc, Hc'. by apply (dealt_distinct q l i). }
  split; [done|]. apply owned_unique; [done|apply dealt_sorted| |done].
  apply (NoDup_fmap_1 cardId). by rewrite dealt_ids.
Qed.

(** After both halves were dealt each player has one of them. *)
Lemma two_deals (d d1 d2 : DB) p1 p2 F S : p1 <> p2 -> ids F ++ ids S ≡ₚ ids (cards_findAll d) ->
  let D1 := dealt_hand 0 (Some p1) F in let D2 := dealt_hand 0 (Some p2) S in
  deals d D1 d1 -> deals d1 D2 d2 ->
  (ordered d2 p1 /\ findCardsByPlayers_PlayerIdOrderByDealOrder d2 p1 = D1) /\
  (ordered d2 p2 /\ findCardsByPlayers_PlayerIdOrderByDealOrder d2 p2 = D2).
Proof.
  intros Hne Hids D1 D2 [I1 O1 _ _] [I2 O2 _ _]. destruct (findAll_ids d) as [Hn Hdom].
  rewrite <- Hids in Hn. apply NoDup_app in Hn as (HnF & Hdisj & HnS).
  assert (E1 : ids D1 = ids F) by apply dealt_ids. assert (E2 : ids D2 = ids S) by apply dealt_ids.
  assert (Hrow : forall c, cards d2 !! cardId c = Some c -> c ∈ D1 \/ c ∈ D2).
  { intros c Hc. destruct (decide (cardId c ∈ ids D2)) as [H2|H2].
    { apply list_elem_of_fmap in H2 as (c' & Ec & Hc'). apply I2 in Hc' as Hr. rewrite <- Ec, Hc in Hr. simplify_eq. by right. }
    rewrite O2 in Hc by done. destruct (decide (cardId c ∈ ids D1)) as [H1|H1].
    { apply list_elem_of_fmap in H1 as (c' & Ec & Hc'). apply I1 in Hc' as Hr. rewrite <- Ec, Hc in Hr. simplify_eq. by left. }
    rewrite O1 in Hc by done. assert (Hk : cardId c ∈ ids (cards_findAll d)) by (apply Hdom; by rewrite Hc).
    rewrite <- Hids, elem_of_app, <- E1, <- E2 in Hk. tauto. }
  assert (R1 : forall c, c ∈ D1 -> cards d2 !! cardId c = Some c).
  { intros c Hc. rewrite O2; [by apply I1|]. rewrite E2. apply Hdisj. rewrite <- E1. apply list_elem_of_fmap. by exists c. }
  assert (P1 : forall c, c ∈ D1 -> players c = Some p1) by (intros c Hc; by apply dealt_elem in Hc as []).
  assert (P2 : forall c, c ∈ D2 -> players c = Some p2) by (intros c Hc; by apply dealt_elem in Hc as []).
  split; (apply owned_dealt; [done|]); intros c; rewrite elem_of_owned; split.
  - intros Hc. split; [by apply R1|by apply P1].
  - intros [Hc Hp]. destruct (Hrow c Hc) as [|Hc2]; [done|]. apply P2 in Hc2. congruence.
  - intros Hc. split; [by apply I2|by apply P2].
  - intros [Hc Hp]. destruct (Hrow c Hc) as [Hc1|]; [|done]. apply P1 in Hc1. congruence.
Qed.

(** Rows with given ids. *)
Lemma rows_eq (d d' : DB) l l' : (forall c, c ∈ l -> cards d !! cardId c = Some c) ->
  (forall c, c ∈ l' -> cards d' !! cardId c = Some c) -> ids l = ids l' ->
  (forall k, k ∈ ids l -> cards d !! k = cards d' !! k) -> l = l'.
Proof.
  revert l'. induction l as [|c l IH]; intros [|c' l'] Hl Hl' E Hk; try done. rewrite !fmap_cons in *. injection E as E1 E2.
  assert (c = c') as ->.
  { pose proof (Hl c ltac:(set_solver)) as H1. pose proof (Hl' c' ltac:(set_solver)) as H2.
    rewrite <- E1, <- (Hk (cardId c)) in H2 by set_solver. congruence. }
  f_equal. apply IH; [set_solver..|done|set_solver].
Qed.

Lemma session_player (d : DB) s P : findPlayerBySessionId d s = inl (Some P) -> all_players d !! playerId P = Some P.
Proof.
  rewrite findPlayerBySessionId_law. destruct (by_session (all_players d) s) as [|Q [|]] eqn:E; try done. intros [= ->].
  assert (HP : P ∈ by_session (all_players d) s) by (rewrite E; set_solver).
  unfold by_session in HP. apply list_elem_of_filter in HP as [_ HP]. apply list_elem_of_fmap in HP as ((i & Q) & -> & HP).
  apply elem_of_map_to_list in HP. simpl. by rewrite (players_key _ _ _ HP).
Qed.

Lemma session_same (d d' : DB) s : all_players d' = all_players d -> findPlayerBySessionId d' s = findPlayerBySessionId d s.
Proof. intros E. by rewrite !findPlayerBySessionId_law, E. Qed.

Lemma perm_subset (sh : list CardsEntity -> list CardsEntity) l (d : DB) : sh l ≡ₚ l ->
  (forall c, c ∈ l -> c ∈ cards_findAll d) -> forall c, c ∈ sh l -> is_Some (cards d !! cardId c).
Proof. intros Hp Hl c Hc. rewrite Hp in Hc. apply Hl, findAll_elem in Hc. by rewrite Hc. Qed.

Lemma find_session_run s P (w : world DB) : findPlayerBySessionId (db w) s = inl (Some P) ->
  find_session s w = (Ok (Some P), w).
Proof. intros E. unfold find_session. erewrite bind_ok; [|done]. cbv beta. by rewrite E. Qed.

Lemma dealCards1_run sh s P (w : world DB) : (forall l, sh l ≡ₚ l) -> findPlayerBySessionId (db w) s = inl (Some P) ->
  let L := cards_findAll (db w) in
  let D := dealt_hand 0 (Some (playerId P)) (sh (take (length L / 2) L)) in
  exists d', dealCards1 sh s w = (Ok (DealResponse D s), World d' (svc w) (sent w)) /\ deals (db w) D d'.
Proof.
  intros Hsh Hs L D. unfold dealCards1. erewrite bind_ok; [|done]. rewrite (bind_ok _ _ _ _ _ (find_session_run _ _ _ Hs)).
  destruct (findAll_ids (db w)) as [Hn _]. fold L in Hn.
  destruct (deal_loop_run (Some (playerId P)) (sh (take (length L / 2) L)) 0 w) as (d' & E & Hd).
  - rewrite Hsh. rewrite <- (take_drop (length L / 2) L) in Hn. rewrite fmap_app in Hn. by apply NoDup_app in Hn as [].
  - apply perm_subset; [apply Hsh|]. intros c Hc. by apply elem_of_take in Hc as (i & Hi & _); apply list_elem_of_lookup_2 in Hi.
  - simpl. apply session_player in Hs. by rewrite Hs.
  - exists d'. split; [|done]. cbn [fmap option_fmap option_map]. by erewrite bind_ok; [|exact E].
Qed.

Lemma dealCards2_run sh s P (w : world DB) : (forall l, sh l ≡ₚ l) -> findPlayerBySessionId (db w) s = inl (Some P) ->
  let L := cards_findAll (db w) in
  let D := dealt_hand 0 (Some (playerId P)) (sh (drop (length L / 2) L)) in
  exists d', dealCards2 sh s w = (Ok (DealResponse D s), World d' (svc w) (sent w)) /\ deals (db w) D d'.
Proof.
  intros Hsh Hs L D. unfold dealCards2. erewrite bind_ok; [|done]. rewrite (bind_ok _ _ _ _ _ (find_session_run _ _ _ Hs)).
  destruct (findAll_ids (db w)) as [Hn _]. fold L in Hn.
  destruct (deal_loop_run (Some (playerId P)) (sh (drop (length L / 2) L)) 0 w) as (d' & E & Hd).
  - rewrite Hsh. rewrite <- (take_drop (length L / 2) L) in Hn. rewrite fmap_app in Hn. by apply NoDup_app in Hn as (_ & _ & ?).
  - apply perm_subset; [apply Hsh|]. intros c Hc. apply list_elem_of_lookup in Hc as [i Hi]. rewrite lookup_drop in Hi.
    by apply list_elem_of_lookup_2 in Hi.
  - simpl. apply session_player in Hs. by rewrite Hs.
  - exists d'. split; [|done]. cbn [fmap option_fmap option_map]. by erewrite bind_ok; [|exact E].
Qed.
End Deal.

Lemma take_elem {A} (n : nat) (l : list A) (x : A) : x ∈ take n l -> x ∈ l.
Proof. intros H. rewrite <- (take_drop n l). apply elem_of_app. by left. Qed.

Lemma drop_elem {A} (n : nat) (l : list A) (x : A) : x ∈ drop n l -> x ∈ l.
Proof. intros H. rewrite <- (take_drop n l). apply elem_of_app. by right. Qed.



(** ** Creating and joining *)

Section Lobby.
Context {DB : Type} `{RepositoryLaws DB}.

Lemma ref_ok_insert (ps : gmap Z PlayersEntity) r i P : ref_ok ps r -> ref_ok (<[i := P]> ps) r.
Proof. destruct r as [p|]; [|done]. intros Hp. simpl. by apply lookup_insert_is_Some'; right. Qed.

(** What a new player changes. *)
Definition adds_player (d : DB) (u s : string) (i : Z) (d' : DB) : Prop :=
  all_players d !! i = None /\ all_players d' = <[i := Player i u s]> (all_players d) /\
  cards d' = cards d /\ games d' = games d.

Lemma createNewPlayer_run u s (w : world DB) : fits u s ->
  exists i d, createNewPlayer u s w = (Ok (Player i u s), World d (svc w) (sent w)) /\ adds_player (db w) u s i d.
Proof.
  intros Hf. destruct (players_save_law u s (db w)) as [Hs _]. destruct (Hs Hf) as (i & d & E & Ha).
  exists i, d. split; [|done]. unfold createNewPlayer, create. by rewrite E.
Qed.

Lemma service_joinGame_full g P (w : world DB) G : games (db w) !! g = Some G ->
  player1 G = None \/ player2 G <> None -> service_joinGame g P w = (Ok None, w).
Proof.
  intros HG Hfull. unfold service_joinGame. erewrite bind_ok; [|done]. cbv beta. rewrite games_findById_law, HG.
  destruct (player1 G), (player2 G); [done| |done..]. by destruct Hfull.
Qed.

Lemma service_joinGame_open g P (w : world DB) G : games (db w) !! g = Some G -> is_Some (player1 G) -> player2 G = None ->
  game_refs_ok (all_players (db w)) G -> is_Some (all_players (db w) !! playerId P) ->
  let G' := setPlayer2 G (Some (playerId P)) in
  exists d, service_joinGame g P w = (Ok (Some G'), World d (svc w) (sent w)) /\
    games d = <[g := G']> (games (db w)) /\ all_players d = all_players (db w) /\ cards d = cards (db w).
Proof.
  intros HG [p Hp] Hp2 (R1 & _ & R3) HP G'. unfold service_joinGame. erewrite bind_ok; [|done]. cbv beta.
  rewrite games_findById_law, HG, Hp, Hp2. fold G'. pose proof (games_key _ _ _ HG) as Hk.
  pose proof (games_save_law G' (db w)) as Hs. change (gameId G') with (gameId G) in Hs. rewrite Hk, HG in Hs.
  rewrite decide_True in Hs by done. destruct Hs as (d & E & Hg & Hc & Ha); [done|].
  exists d. erewrite bind_ok; [|unfold update; by rewrite E]. done.
Qed.
End Lobby.

(** Creating a game: a new player and a new game whose first player is the
    new one; a name or a session that does not fit its column is refused and
    nothing is stored. *)
Theorem createGameAndPlayer_correct {DB} `{RepositoryLaws DB} (u s : string) (w : world DB) :
  (fits u s -> exists i g d d', createGameAndPlayer u s w = (Ok (g, s), World d' (svc w) (sent w)) /\
     adds_player (db w) u s i d /\ games (db w) !! g = None /\
     games d' = <[g := Game g (Some i) None None NEW_GAME]> (games (db w)) /\
     all_players d' = all_players d /\ cards d' = cards (db w)) /\
  (~ fits u s -> createGameAndPlayer u s w = (Throw DataIntegrityViolationException, w)).
Proof.
  split; intros Hf; unfold createGameAndPlayer.
  - destruct (createNewPlayer_run u s w Hf) as (i & d & E & Ha). rewrite (bind_ok _ _ _ _ _ E). pose proof Ha as (_ & Ha1 & Ha2 & Ha3).
    destruct (games_insert_law (fun g => Game g (Some i) None None NEW_GAME) d) as (g & d' & E' & Hn & Hg & Hc & Hp); [done| |].
    { intros g. split; [|done]. simpl. by rewrite Ha1, lookup_insert_eq. }
    exists i, g, d, d'. rewrite Ha3 in Hn, Hg. rewrite Ha2 in Hc. split; [|done].
    unfold createNewGame. erewrite bind_ok; [|unfold create; cbn [db playerId]; by rewrite E']. done.
  - destruct (players_save_law u s (db w)) as [_ Hs]. unfold createNewPlayer, create, mbind, M_bind. by rewrite Hs.
Qed.

(** C28. Joining, in every case: a game that does not exist is reported as not
    found; a game that waits for its second player gets the new one; a game that
    does not wait ends in a null pointer, and the player that was created for the
    request stays in the table without a game. *)
Theorem joinGame_cases {DB} `{RepositoryLaws DB} (g : Z) (u s : string) (w : world DB) :
  (games (db w) !! g = None -> joinGame g u s w = (Ok (Joined None s false), w)) /\
  (forall G, games (db w) !! g = Some G -> fits u s -> is_Some (player1 G) -> player2 G = None ->
     game_refs_ok (all_players (db w)) G ->
     exists i d d', joinGame g u s w = (Ok (Joined (Some g) s true), World d' (svc w) (sent w)) /\
       adds_player (db w) u s i d /\ games d' = <[g := setPlayer2 G (Some i)]> (games (db w)) /\
       all_players d' = all_players d /\ cards d' = cards (db w)) /\
  (forall G, games (db w) !! g = Some G -> fits u s -> player1 G = None \/ player2 G <> None ->
     exists i d, joinGame g u s w = (Throw NullPointerException, World d (svc w) (sent w)) /\ adds_player (db w) u s i d).
Proof.
  split; [|split].
  - intros HG. unfold joinGame. erewrite bind_ok; [|done]. cbv beta. by rewrite games_findById_law, HG.
  - intros G HG Hf H1 H2 (R1 & R2 & R3). unfold joinGame. erewrite bind_ok; [|done]. cbv beta. rewrite games_findById_law, HG.
    destruct (createNewPlayer_run u s w Hf) as (i & d & E & Ha). rewrite (bind_ok _ _ _ _ _ E). pose proof Ha as (_ & Ha1 & Ha2 & Ha3).
    destruct (service_joinGame_open g (Player i u s) (World d (svc w) (sent w)) G) as (d' & E' & Hg & Hp & Hc).
    + simpl. by rewrite Ha3.
    + done.
    + done.
    + simpl. rewrite Ha1. unfold game_refs_ok. by rewrite H2; repeat split; [apply ref_ok_insert|apply ref_ok_insert].
    + simpl. by rewrite Ha1, lookup_insert_eq.
    + rewrite (bind_ok _ _ _ _ _ E'). cbn [db svc sent playerId] in *. rewrite Ha3 in Hg. rewrite Ha2 in Hc.
      exists i, d, d'. simpl. by rewrite (games_key _ _ _ HG).
  - intros G HG Hf Hfull. unfold joinGame. erewrite bind_ok; [|done]. cbv beta. rewrite games_findById_law, HG.
    destruct (createNewPlayer_run u s w Hf) as (i & d & E & Ha). rewrite (bind_ok _ _ _ _ _ E). pose proof Ha as (_ & _ & _ & Ha3).
    exists i, d. split; [|done]. erewrite bind_ok; [|eapply service_joinGame_full; [|exact Hfull]; simpl; by rewrite Ha3]. done.
Qed.

(** ** The deck, and a deal that depends on the order of the rows *)

Definition ranks : list (string * Z) :=
  [("2", 2); ("3", 3); ("4", 4); ("5", 5); ("6", 6); ("7", 7); ("8", 8); ("9", 9); ("10", 10);
   ("Jack", 11); ("Queen", 12); ("King", 13); ("Ace", 14)]%string.
Definition suits : list string := ["Hearts"; "Diamonds"; "Clubs"; "Spades"]%string.

(** The rows the migration inserts. *)
Definition deck : list CardsEntity :=
  imap (fun i '(s, (n, r)) => Card (Z.of_nat i + 1) n s r false (-1) None)
    (suits ≫= fun s => pair s <$> ranks).

Definition fresh_table : world heap :=
  World (Heap (list_to_map ((fun c => (cardId c, c)) <$> deck)) ∅ 1
           (<[1 := ("ann", "s1")]> (<[2 := ("bob", "s2")]> ∅))
           (<[1 := Game 1 (Some 1) (Some 2) None NEW_GAME]> ∅))%string new_service [].

Lemma sorted_filter {A} (R : A -> A -> Prop) (P : A -> Prop) `{forall x, Decision (P x)} l :
  StronglySorted R l -> StronglySorted R (filter P l).
Proof.
  induction 1 as [|x l _ IH Hx]; [constructor|]. rewrite filter_cons. destruct (decide (P x)); [|done]. constructor; [done|].
  rewrite Forall_forall in *. intros y [_ Hy]%list_elem_of_filter. by apply Hx.
Qed.

Section Order.
Context {DB : Type} `{RepositoryLaws DB}.

(** What the first player keeps when the second hand may contain cards of the first. *)
Lemma deals_over (d d1 d2 : DB) p1 p2 F S : p1 <> p2 -> findCardsByPlayers_PlayerIdOrderByDealOrder d p1 = [] -> NoDup (ids F) ->
  let D1 := dealt_hand 0 (Some p1) F in let D2 := dealt_hand 0 (Some p2) S in
  deals d D1 d1 -> deals d1 D2 d2 ->
  findCardsByPlayers_PlayerIdOrderByDealOrder d2 p1 = filter (fun c => cardId c ∉ ids D2) D1.
Proof.
  intros Hne Hd Hn D1 D2 [I1 O1 _ _] [I2 O2 _ _].
  assert (Hin : forall c, c ∈ filter (fun c => cardId c ∉ ids D2) D1 <-> c ∈ findCardsByPlayers_PlayerIdOrderByDealOrder d2 p1).
  { intros c. rewrite list_elem_of_filter, elem_of_owned. split.
    - intros [Hc2 Hc1]. rewrite O2 by done. split; [by apply I1|]. by apply dealt_elem in Hc1 as [].
    - intros [Hc Hp]. destruct (decide (cardId c ∈ ids D2)) as [H2|H2].
      { apply list_elem_of_fmap in H2 as (c' & Ec & Hc'). apply I2 in Hc' as Hr. rewrite <- Ec, Hc in Hr. simplify_eq.
        apply dealt_elem in Hc' as [Hp' _]. congruence. }
      split; [done|]. rewrite O2 in Hc by done. destruct (decide (cardId c ∈ ids D1)) as [H1|H1].
      { apply list_elem_of_fmap in H1 as (c' & Ec & Hc'). apply I1 in Hc' as Hr. rewrite <- Ec, Hc in Hr. by simplify_eq. }
      rewrite O1 in Hc by done. assert (Ho : c ∈ findCardsByPlayers_PlayerIdOrderByDealOrder d p1) by (by rewrite elem_of_owned).
      rewrite Hd in Ho. by apply elem_of_nil in Ho. }
  apply owned_unique; [|apply sorted_filter, dealt_sorted| |done].
  - intros c c' Hc Hc' E. apply Hin, list_elem_of_filter in Hc as [_ Hc], Hc' as [_ Hc']. by apply (dealt_distinct (Some p1) F 0).
  - apply NoDup_filter, (NoDup_fmap_1 cardId). unfold D1. by rewrite dealt_ids.
Qed.
End Order.

(** C36. The two halves of the deal list the cards separately, and [findAll] has no
    order.  A first player without cards keeps, of the hand that was dealt, exactly the cards
    that are not dealt again to the second player; and when the second listing has the rows that were
    not updated first and the updated ones last, the second player is dealt every card of the first player,
    who is left with none. *)
Theorem deal_takes_cards_back {DB} `{RepositoryLaws DB} (sh1 sh2 : list CardsEntity -> list CardsEntity)
    (s1 s2 : string) (P1 P2 : PlayersEntity) (w : world DB) :
  (forall l, sh1 l ≡ₚ l) -> (forall l, sh2 l ≡ₚ l) ->
  findPlayerBySessionId (db w) s1 = inl (Some P1) -> findPlayerBySessionId (db w) s2 = inl (Some P2) ->
  playerId P1 <> playerId P2 -> findCardsByPlayers_PlayerIdOrderByDealOrder (db w) (playerId P1) = [] ->
  let L := cards_findAll (db w) in let h := (length L / 2)%nat in
  exists D1 w1 D2 w2, dealCards1 sh1 s1 w = (Ok (DealResponse D1 s1), w1) /\ length D1 = h /\
    dealCards2 sh2 s2 w1 = (Ok (DealResponse D2 s2), w2) /\
    findCardsByPlayers_PlayerIdOrderByDealOrder (db w2) (playerId P1) = filter (fun c => cardId c ∉ ids D2) D1 /\
    (forall U, ids (cards_findAll (db w1)) = ids (drop h L) ++ U ->
       (forall k, k ∈ ids D1 -> k ∈ ids D2) /\ findCardsByPlayers_PlayerIdOrderByDealOrder (db w2) (playerId P1) = []).
Proof.
  intros Hs1 Hs2 HP1 HP2 Hne Hno L h.
  destruct (dealCards1_run sh1 s1 P1 w Hs1 HP1) as (d1 & E1 & Hd1). fold L h in E1, Hd1.
  destruct (dealCards2_run sh2 s2 P2 (World d1 (svc w) (sent w)) Hs2) as (d2 & E2 & Hd2);
    [by rewrite (session_same (db w)); [|apply Hd1]|]. cbn [db svc sent] in *.
  set (L1 := cards_findAll d1) in *. destruct (findAll_ids (db w)) as [HnL Hdom]. fold L in HnL, Hdom. destruct (findAll_ids d1) as [Hn1 Hdom1].
  fold L1 in Hn1, Hdom1. assert (Hh : (2 * h <= length L)%nat) by apply Nat.Div0.mul_div_le.
  rewrite <- (take_drop h L), fmap_app in HnL. apply NoDup_app in HnL as (HnT & Hdisj & HnD).
  eexists _, _, _, _. split; [exact E1|]. split; [|split; [exact E2|]].
  { rewrite <- (length_fmap cardId), dealt_ids, length_fmap, Hs1, length_take. lia. }
  cbn [db]. set (D1 := dealt_hand 0 (Some (playerId P1)) (sh1 (take h L))) in *. set (D2 := dealt_hand _ (Some (playerId P2)) _) in *.
  assert (Hown : findCardsByPlayers_PlayerIdOrderByDealOrder d2 (playerId P1) = filter (fun c => cardId c ∉ ids D2) D1).
  { apply (deals_over (db w) d1 d2 (playerId P1) (playerId P2) (sh1 (take h L)) (sh2 (drop (length L1 / 2) L1))); try done. by rewrite Hs1. }
  split; [done|]. intros U HU. fold L1 in HU.
  assert (Hlen : length L1 = length L).
  { rewrite <- (length_fmap cardId L1), <- (length_fmap cardId L). apply Permutation_length, NoDup_Permutation; [done|by apply findAll_ids|].
    intros k. rewrite Hdom1, Hdom, <- !elem_of_dom. by rewrite (deals_dom _ _ _ _ Hd1) by (apply perm_subset; [apply Hs1|]; intros c; apply take_elem). }
  assert (Hall : forall k, k ∈ ids D1 -> k ∈ ids D2).
  { intros k Hk. unfold D1, D2 in *. rewrite dealt_ids, Hs1 in Hk. rewrite dealt_ids, Hs2, Hlen. fold h.
    assert (k ∈ ids L1) as HkL.
    { apply Hdom1. rewrite <- elem_of_dom, (deals_dom _ _ _ _ Hd1), elem_of_dom by (apply perm_subset; [apply Hs1|]; intros c; apply take_elem).
      apply Hdom. rewrite <- (take_drop h L), fmap_app, elem_of_app. by left. }
    rewrite fmap_drop, HU, drop_app, elem_of_app. rewrite HU, elem_of_app in HkL. right. destruct HkL as [HkL|HkL]; [by apply Hdisj in Hk|].
    rewrite length_fmap, length_drop. by replace (h - (length L - h))%nat with 0%nat by lia. }
  split; [done|]. rewrite Hown. destruct (filter _ D1) as [|c l] eqn:Ef; [done|]. exfalso.
  assert (c ∈ filter (fun c => cardId c ∉ ids D2) D1) as [Hc2 Hc1]%list_elem_of_filter by (rewrite Ef; set_solver).
  apply Hc2, Hall, list_elem_of_fmap. by exists c.
Qed.

Lemma deal_takes_cards_back_witness :
  let keep := fun l : list CardsEntity => l in
  exists D1 w1 D2 w2, dealCards1 keep "s1" fresh_table = (Ok (DealResponse D1 "s1"), w1) /\ length D1 = 26%nat /\
    dealCards2 keep "s2" w1 = (Ok (DealResponse D2 "s2"), w2) /\ findCardsByPlayers_PlayerIdOrderByDealOrder (db w2) 1 = [].
Proof.
  intros keep. destruct (deal_takes_cards_back keep keep "s1" "s2" ann bob fresh_table) as (D1 & w1 & D2 & w2 & E1 & HD1 & E2 & _ & HU).
  - intros l. reflexivity.
  - intros l. reflexivity.
  - vm_compute. reflexivity.
  - vm_compute. reflexivity.
  - simpl. lia.
  - vm_compute. reflexivity.
  - exists D1, w1, D2, w2. split; [exact E1|]. split; [rewrite HD1; vm_compute; reflexivity|]. split; [exact E2|].
    apply (HU (take 26 (ids (cards_findAll (db fresh_table))))). replace w1 with (snd (dealCards1 keep "s1" fresh_table)) by (rewrite E1; reflexivity).
    vm_compute. reflexivity.
Defined.

(** ** Leaving *)

Section Leave.
Context {DB : Type} `{RepositoryLaws DB}.

(** The cards after a new deal to [q1] and [q2]. *)
Definition redealt (d : DB) (q1 q2 : option Z) (d' : DB) : Prop :=
  all_players d' = all_players d /\ games d' = games d /\ dom (cards d') = dom (cards d) /\
  forall k c, cards d' !! k = Some c -> isPlayed c = false /\ (players c = q1 \/ players c = q2).

Definition reset_card (c : CardsEntity) : CardsEntity := setPlayed (setPlayers c None) false.

Lemma reset_ids l : ids (reset_card <$> l) = ids l.
Proof. rewrite <- list_fmap_compose. by apply list_fmap_ext. Qed.

(** A row that was dealt. *)
Lemma dealt_row (d d' : DB) q l k c : deals d (dealt_hand 0 q l) d' -> Forall (fun c => isPlayed c = false) l ->
  k ∈ ids l -> cards d' !! k = Some c -> isPlayed c = false /\ players c = q.
Proof.
  intros [Hin _ _ _] Hl Hk Hc. rewrite <- (dealt_ids q l 0) in Hk. apply list_elem_of_fmap in Hk as (c' & -> & Hc').
  pose proof (Hin _ Hc') as E. rewrite Hc in E. injection E as ->.
  apply dealt_elem in Hc' as (Hp & _ & x & Hx & _ & <-). split; [|done]. by eapply Forall_forall in Hl.
Qed.

Lemma reDealCards_run sh q1 q2 (w : world DB) : (forall l, sh l ≡ₚ l) ->
  ref_ok (all_players (db w)) q1 -> ref_ok (all_players (db w)) q2 ->
  exists d', reDealCards sh q1 q2 w = (Ok tt, World d' (svc w) (sent w)) /\ redealt (db w) q1 q2 d'.
Proof.
  intros Hsh R1 R2. unfold reDealCards. erewrite bind_ok; [|done]. cbv beta zeta. fold reset_card.
  set (L := sh (reset_card <$> cards_findAll (db w))). set (h := (length L / 2)%nat).
  destruct (findAll_ids (db w)) as [Hn Hdom].
  assert (HL : ids L ≡ₚ ids (cards_findAll (db w))) by (unfold L; by rewrite Hsh, reset_ids).
  assert (Hun : Forall (fun c => isPlayed c = false) L).
  { apply Forall_forall. intros c Hc. unfold L in Hc. rewrite Hsh in Hc. by apply list_elem_of_fmap in Hc as (x & -> & _). }
  assert (Hrow : forall c, c ∈ L -> is_Some (cards (db w) !! cardId c)).
  { intros c Hc. apply Hdom. rewrite <- HL. apply list_elem_of_fmap. by exists c. }
  rewrite <- HL, <- (take_drop h L), fmap_app in Hn. apply NoDup_app in Hn as (Hn1 & _ & Hn2).
  destruct (deal_loop_run q1 (take h L) 0 w) as (d1 & E1 & D1); [done| |done|].
  { intros c Hc. apply Hrow. by apply (take_elem h). }
  pose proof (deals_dom _ _ _ _ D1 (fun c Hc => Hrow c (take_elem h L c Hc))) as Hd1.
  rewrite (bind_ok _ _ _ _ _ E1). pose proof D1 as [_ O1 Hp1 Hg1].
  assert (Hrow1 : forall c, c ∈ drop h L -> is_Some (cards d1 !! cardId c)).
  { intros c Hc. apply elem_of_dom. rewrite Hd1. apply elem_of_dom, Hrow. by apply (drop_elem h). }
  destruct (deal_loop_run q2 (drop h L) 0 (World d1 (svc w) (sent w))) as (d2 & E2 & D2); [done..|simpl; by rewrite Hp1|].
  rewrite (bind_ok _ _ _ _ _ E2). cbn [db svc sent] in *. pose proof D2 as [_ O2 Hp2 Hg2].
  exists d2. split; [done|]. split; [by rewrite Hp2|]. split; [by rewrite Hg2|].
  pose proof (deals_dom _ _ _ _ D2 Hrow1) as Hd2. split; [by rewrite Hd2|].
  intros k c Hc. destruct (decide (k ∈ ids (drop h L))) as [Hk|Hk].
  - destruct (dealt_row _ _ _ _ _ _ D2 (Forall_drop _ _ _ Hun) Hk Hc) as [-> ->]. by split; [|right].
  - rewrite O2 in Hc by (by rewrite dealt_ids).
    assert (Hk1 : k ∈ ids (take h L)).
    { assert (Hkd : k ∈ ids L) by (rewrite HL; apply Hdom; rewrite <- elem_of_dom, <- Hd1, elem_of_dom; by rewrite Hc).
      rewrite <- (take_drop h L), fmap_app in Hkd. apply elem_of_app in Hkd. tauto. }
    destruct (dealt_row _ _ _ _ _ _ D1 (Forall_take _ _ _ Hun) Hk1 Hc) as [-> ->]. by split; [|left].
Qed.

(** The game without the player: the other one has won. *)
Definition left_by (p : Z) (G : GameEntity) : GameEntity :=
  setGameState (if bool_decide (player1 G = Some p) then setWinner (setPlayer1 G None) (player2 G)
                else setWinner (setPlayer2 G None) (player1 G)) GAME_ENDED.

(** [p] has exactly one of the seats. *)
Definition one_seat (p : Z) (G : GameEntity) : Prop :=
  player1 G = Some p /\ player2 G <> Some p \/ player1 G <> Some p /\ player2 G = Some p.

Definition mentions (p : Z) (G : GameEntity) : Prop :=
  player1 G = Some p \/ player2 G = Some p \/ winner G = Some p.

Lemma left_by_mentions p G : one_seat p G -> ~ mentions p (left_by p G).
Proof. unfold one_seat, mentions, left_by. case_bool_decide; simpl; intuition congruence. Qed.

(** The part of the method that changes the seats and deals again. *)
Lemma leave_seat_run sh p G (w : world DB) : (forall l, sh l ≡ₚ l) -> one_seat p G ->
  ref_ok (all_players (db w)) (player1 G) -> ref_ok (all_players (db w)) (player2 G) ->
  let G' := left_by p G in
  exists d, (if bool_decide (player1 G = Some p) then
       let game := setPlayer1 G None in
       let game := setWinner game (player2 game) in
       reDealCards sh (player1 game) (player2 game);; mret game
     else if bool_decide (player2 G = Some p) then
       let game := setPlayer2 G None in
       let game := setWinner game (player1 game) in
       reDealCards sh (player1 game) (player2 game);; mret game
     else mret G : M DB GameEntity) w
    = (Ok (setGameState G' (gameState G)), World d (svc w) (sent w)) /\
    redealt (db w) (player1 G') (player2 G') d.
Proof.
  intros Hsh Hp R1 R2. unfold left_by. destruct (decide (player1 G = Some p)) as [E1|E1].
  - rewrite bool_decide_true by done. cbv zeta.
    destruct (reDealCards_run sh None (player2 G) w) as (d & E & Hd); [done..|]. exists d. by rewrite (bind_ok _ _ _ _ _ E).
  - rewrite bool_decide_false by done. assert (E2 : player2 G = Some p) by (unfold one_seat in Hp; tauto).
    rewrite bool_decide_true by done. cbv zeta.
    destruct (reDealCards_run sh (player1 G) None w) as (d & E & Hd); [done..|]. exists d. by rewrite (bind_ok _ _ _ _ _ E).
Qed.

(** The game is kept for the player who stays, and deleted with the last one. *)
Definition games_left (g : Z) (G' : GameEntity) (gs : gmap Z GameEntity) : gmap Z GameEntity :=
  if bool_decide (player1 G' = None) && bool_decide (player2 G' = None) then delete g gs else <[g := G']> gs.

Lemma leave_game_run g G' st (w : world DB) : gameId G' = g -> gameState G' = GAME_ENDED -> is_Some (games (db w) !! g) ->
  game_refs_ok (all_players (db w)) G' ->
  let game := setGameState G' st in
  exists d, (if bool_decide (player1 game = None) && bool_decide (player2 game = None)
      then update (fun d => inl (games_delete (gameId game) d))
      else update (games_save (setGameState game GAME_ENDED)) : M DB unit) w = (Ok tt, World d (svc w) (sent w)) /\
    games d = games_left g G' (games (db w)) /\ cards d = cards (db w) /\ all_players d = all_players (db w).
Proof.
  intros <- Hst Hin Hr game. unfold games_left. change (player1 game) with (player1 G'). change (player2 game) with (player2 G').
  destruct (bool_decide _ && bool_decide _).
  - exists (games_delete (gameId G') (db w)). split; [done|apply games_delete_law].
  - replace (setGameState game GAME_ENDED) with G' by (destruct G'; simpl in *; by subst).
    pose proof (games_save_law G' (db w) Hin) as Hs. rewrite decide_True in Hs by done.
    destruct Hs as (d & E & Hd). exists d. split; [unfold update; by rewrite E|done].
Qed.

(** A player who left is referred to no more. *)
Lemma left_unreferenced p g G (d : DB) : one_seat p G ->
  (forall k c, cards d !! k = Some c -> isPlayed c = false /\ (players c = player1 (left_by p G) \/ players c = player2 (left_by p G))) ->
  (forall k G', games d !! k = Some G' -> k <> g -> ~ mentions p G') ->
  ~ referenced (cards d) (games_left g (left_by p G) (games d)) p.
Proof.
  intros Hp Hc Hg. pose proof (left_by_mentions p G Hp) as Hno. intros [(k & c & Hk & E)|(k & G' & Hk & E)].
  - destruct (Hc k c Hk) as [_ [E'|E']]; rewrite E in E'; apply Hno; [left|right; left]; congruence.
  - unfold games_left in Hk. destruct (_ && _).
    + apply lookup_delete_Some in Hk as [Hne Hk]. by apply (Hg k G').
    + apply lookup_insert_Some in Hk as [[_ <-]|[Hne Hk]]; [done|]. by apply (Hg k G').
Qed.

(** What a player who leaves changes. *)
Record leaves (p g : Z) (G : GameEntity) (w w' : world DB) : Prop := {
  leaves_players : all_players (db w') = delete p (all_players (db w));
  leaves_games : games (db w') = games_left g (left_by p G) (games (db w));
  leaves_deck : dom (cards (db w')) = dom (cards (db w));
  leaves_cards k c : cards (db w') !! k = Some c ->
    isPlayed c = false /\ (players c = player1 (left_by p G) \/ players c = player2 (left_by p G));
  leaves_svc : svc w' = Service true false (playedCard1 (svc w)) (playedCard2 (svc w)) [] []
}.

Lemma service_leaveGame_run sh g G s P (w : world DB) : (forall l, sh l ≡ₚ l) ->
  games (db w) !! g = Some G -> findPlayerBySessionId (db w) s = inl (Some P) -> one_seat (playerId P) G ->
  ref_ok (all_players (db w)) (player1 G) -> ref_ok (all_players (db w)) (player2 G) ->
  (forall k G', games (db w) !! k = Some G' -> k <> g -> ~ mentions (playerId P) G') ->
  exists w', service_leaveGame sh g s w = (Ok tt, w') /\ leaves (playerId P) g G w w' /\ sent w' = sent w.
Proof.
  intros Hsh HG Hs Hp R1 R2 Hoth. unfold service_leaveGame. erewrite bind_ok; [|done]. cbv beta. rewrite games_findById_law, HG.
  rewrite (bind_ok _ _ _ _ _ (find_session_run _ _ _ Hs)). pose proof (games_key _ _ _ HG) as Hk.
  set (p := playerId P) in *. destruct (leave_seat_run sh p G w Hsh Hp R1 R2) as (d1 & E1 & Hp1 & Hg1 & Hd1 & Hc1).
  rewrite (bind_ok _ _ _ _ _ E1).
  destruct (leave_game_run g (left_by p G) (gameState G) (World d1 (svc w) (sent w))) as (d2 & E2 & Hg2 & Hc2 & Hp2).
  - unfold left_by. by case_bool_decide.
  - done.
  - simpl. by rewrite Hg1, HG.
  - simpl. rewrite Hp1. unfold left_by, game_refs_ok. by case_bool_decide.
  - rewrite (bind_ok _ _ _ _ _ E2). cbn [db svc sent] in *.
    pose proof (players_delete_law p d2) as Hx. rewrite decide_False in Hx.
    2:{ rewrite Hc2, Hg2, Hg1. rewrite <- Hg1. apply left_unreferenced; [done..|]. by rewrite Hg1. }
    destruct Hx as (d3 & E3 & Hp3 & Hc3 & Hg3).
    { rewrite Hp2, Hp1. by rewrite (session_player _ _ _ Hs). }
    erewrite bind_ok; [|unfold update; cbn [db]; by rewrite E3].
    eexists. split; [reflexivity|]. split; [|done]. constructor; cbn [db svc sent]; try done.
    + by rewrite Hp3, Hp2, Hp1.
    + by rewrite Hg3, Hg2, Hg1.
    + by rewrite Hc3, Hc2.
    + intros k c. rewrite Hc3, Hc2. apply Hc1.
Qed.
End Leave.

Lemma session_delete {DB} `{RepositoryLaws DB} (d d' : DB) s P p :
  findPlayerBySessionId d s = inl (Some P) -> p <> playerId P ->
  all_players d' = delete p (all_players d) -> findPlayerBySessionId d' s = inl (Some P).
Proof.
  intros Hs Hne E. rewrite findPlayerBySessionId_law in *. rewrite E.
  destruct (by_session (all_players d) s) as [|Q [|]] eqn:Eb; try done. injection Hs as ->.
  destruct (all_players d !! p) as [x|] eqn:Ex; [|by rewrite delete_id, Eb].
  unfold by_session in *.
  pose proof (map_to_list_delete (all_players d) p x Ex) as Hp.
  apply (fmap_Permutation snd) in Hp. apply (filter_Permutation (fun q => sessionId q = s)) in Hp.
  rewrite fmap_cons, filter_cons, Eb in Hp. destruct (decide _) as [Hx|Hx].
  - apply Permutation_length in Hp as Hl. simpl in Hl.
    destruct (filter _ (snd <$> map_to_list (delete p _))) as [|]; [|done].
    apply Permutation_length_1 in Hp. simpl in Hp. subst x. by apply players_key in Ex.
  - apply Permutation_sym, Permutation_length_1_inv in Hp || apply Permutation_length_1_inv in Hp. by rewrite Hp.
Qed.

Lemma player_ref {DB} `{RepositoryLaws DB} {A} (f : PlayersEntity -> A) (d : DB) r :
  (p ← r; q ← players_findById d p; Some (f q)) = (p ← r; f <$> all_players d !! p).
Proof. destruct r as [p|]; [|done]. simpl. rewrite players_findById_law. by destruct (_ !! p). Qed.

Lemma leaveGame_run {DB} `{RepositoryLaws DB} sh g s (w w' : world DB) :
  service_leaveGame sh g s w = (Ok tt, w') ->
  leaveGame sh g s w =
    match games (db w') !! g with
    | Some G => (Ok tt, World (db w') (svc w') (sent w' ++ [UpdateGameAfterLeave (LeaveResponse G
        (p ← player1 G; sessionId <$> all_players (db w') !! p) (p ← player2 G; sessionId <$> all_players (db w') !! p))]))
    | None => (Ok tt, w')
    end.
Proof.
  intros E. unfold leaveGame. rewrite (bind_ok _ _ _ _ _ E). erewrite bind_ok; [|done]. cbv beta. rewrite games_findById_law.
  destruct (games (db w') !! g) as [G|]; [|done]. unfold player_field. erewrite bind_ok; [|done]. erewrite bind_ok; [|done].
  unfold convertAndSend. by rewrite !player_ref.
Qed.


